(* ===== verification/_CoqProject ===== *)
-Q . S2P
Prelude.v
Dialect.v
Postgres.v
MySQL.v
SQLite.v
Lexers.v
Template.v
Render.v
RenderInv.v
Tree.v
Runtime.v
Frags.v
Demo.v
SourceMap.v
Shape.v
Keys.v
Converters.v
TreeProps.v
Simulation.v
Safety.v
TreeBinds.v
Cache.v
CacheProps.v
CacheTheorems.v
Observe.v
Conformance.v
Verified.v
ShapeName.v
Diagnostics.v
Regex.v
Lexical.v
ParamRules.v
ScanState.v
ScanDirectives.v
ScanClauses.v
ScanBodies.v
ScanConstructs.v
Scanner.v
ScanLogic.v
ScanInv.v
ScanParse.v
ScanFinal.v
ScanTheorems.v
ScanLiterals.v
Frontend.v
PolicyScan.v
PolicyClause.v
Policy.v
Splice.v
SetOp.v
Weave.v
Enforce.v
PolicyProps.v
PolicyTheorems.v
GoPath.v
PathPat.v
PathPatCompile.v
PathPatWalk.v
Catalog.v
Store.v
StoreTheorems.v
Nullability.v
NullabilityProps.v
NullabilityTheorems.v
Lines.v
LinesTheorems.v
R1.v
Resolved.v
TypeRules.v
Lint.v
LintTheorems.v
Jsonrpc.v
LspServer.v
LspTheorems.v
Format.v
Codegen.v
CodegenTheorems.v
Targets.v
TargetsProps.v
Findings.v
