(* ===== verification/Prelude.v ===== *)
(** * A verification library for sqletch

    sqletch compiles SQL templates - SQL files with [:name] parameters and
    optional constructs - to Go.  A template stands for a whole set of SQL
    texts, its shapes.  The compiler renders a representative subset of them,
    the verified set, and has the database check each one; the generated code
    carries a table of text fragments, and at run time a composer assembles the
    shape a call needs from that table.  Everything rests on one promise: what
    the database verified is, byte for byte, what the program sends.

    ** The program and its model

    - [internal/dialect]: a lexer per database.  [Dialect] has the token type,
      the [LexerProfile] interface (a [Class] whose laws, [LexerLaws], state
      what clients rely on) and the loops the lexers share; [Postgres], [MySQL]
      and [SQLite] have the three [NextToken] functions, branch by branch, and
      their instances of the laws.  [Lexers] has the theorems on all three.
    - [internal/template/model.go]: [Template], the data the scanner produces.
      A query is an ordered list of items: skeleton text and the constructs
      [@if-present], [@choose], [@order-by], [@in] and [@filter-tree].
    - [internal/diagnostics/diagnostics.go]: [Diagnostics], reports, their
      codes and their order; [Lines], the line index and the two renderings of
      a report, with the positions of [internal/lsp/position.go].
      [LinesTheorems] is about places.
    - [internal/template/scanner.go]: a state monad over [fileScan] whose
      computations may stop with a panic or for lack of fuel.  [ScanState] has
      the state and its primitives, [Regex] the patterns' syntax and matcher,
      [ScanDirectives] the comment directives, [ScanClauses] the tokens outside
      constructs and the clause machine, [ScanBodies] markers, argument lists
      and bodies, [ScanConstructs] one parser per construct, [Scanner] the end
      of a query, the main loop and [ScanFile].  [ScanLogic] is a logic of
      total correctness for the monad and the readers' specifications,
      [ScanInv] the invariant of the query under construction, [ScanParse] its
      preservation by the parsers, [ScanFinal] the finished query and the
      file; [ScanTheorems] and [ScanLiterals] have the theorems.
    - [internal/template/format.go]: [Format], the formatter: the writer of
      every construct and the anchors it puts, with its theorem.
    - [internal/rules/lexical.go]: [Lexical], rules R6, R7 and R9; [ParamRules]
      is about what R9 establishes.
    - [internal/ast/render.go]: [Render], the reference rendering of one shape
      ([renderCore]) and the verified set ([Renderings]); [RenderInv] is the
      induction principle of its invariants.  [SourceMap] is about the map from rendered back to template offsets; [ShapeName] models
      [internal/ast/shape.go], the names of the committed analyses.
    - [internal/shape/shape.go]: [Shape], shape keys, their enumeration and
      their count; [Keys] relates the compiler's key encoding to the runtime's.
    - [runtime/tree.go]: [Tree], the filter trees callers build; [TreeProps] is
      about their validation, encoding and meaning.
    - [runtime/runtime.go]: [Runtime], fragment tables, the composer, bind plans
      and converters; [Converters] is about the last; [Cache] models the
      composed cache with the statistics of [runtime/observe.go], and
      [Observe] its usage ranking and the EXPLAIN prefixes and plans of
      [runtime/explain.go].
    - [internal/codegen]: [Frags], from a template to its table ([frags.go]);
      [Codegen], the decisions of the generator: names ([naming.go]), enums
      ([enums.go]), and the fields, arguments, rows, constants and collisions
      of [generate.go].  [CodegenTheorems] has the theorems.
    - [internal/policy]: [Policy], the declared policies and their validation
      ([policy.go]); [PolicyScan], the token scans of WHERE and ON clauses
      ([splice.go]); [SetOp], the split of a set operation into its branches
      ([setop.go]); [Splice], insertions into a query and the parameters
      policies bring; [Weave] and [Enforce], the two passes ([weave.go],
      [enforce.go]).  [Frontend] is the interface of the SQL parsers
      ([internal/dialect/frontend.go]), an argument of everything that parses.
      [PolicyClause] is about the grammar of clauses, [PolicyProps] about what
      the two passes check; [PolicyTheorems] has the theorems, [Splice] those
      on the bytes of a woven query.
    - [internal/cache/catalog.go], the types of [internal/dialect/oracle.go]
      and [internal/dialect/convert.go]: [Catalog], the snapshot of the schema
      and what a database answers about a rendering.  [Store] is the rest of
      [internal/cache] ([store.go], [env.go]): the committed files, their names
      and how they are saved, loaded, walked and swept, on a file system that
      is a finite map from paths to nodes; [StoreTheorems] has the theorems.
    - [internal/rules]: [R1] (one fragment, one node; [r1.go]), [Resolved]
      (guarded scope, stars, locks and the column resolver; [resolved.go],
      [columns.go]) and [TypeRules] ([types.go] and [nullable_params.go]), with
      their theorems.
    - [internal/lint]: [Lint], the performance lints ([lint.go], [types.go]);
      [LintTheorems] has the theorems.
    - [internal/lsp]: [Jsonrpc], the frames of the transport ([jsonrpc.go]),
      and [LspServer], the server as a machine over messages ([server.go]);
      [LspTheorems] has the theorems.
    - [internal/nullability/nullability.go]: [Nullability], which result columns
      may be NULL; [NullabilityProps] states the specification without a memo
      table, [NullabilityTheorems] has the theorems.
    - [internal/pathpat/pathpat.go]: [PathPat], the patterns of query files:
      their compiler, the walk that expands one, and the references to its
      captures.  [GoPath] has Go's functions on paths, through their elements,
      and the file system as a record of functions, any record being one.
      [PathPatCompile] is about the compiler and the references,
      [PathPatWalk] about the walk.
    - [internal/config/targets.go] and the path policy of
      [internal/config/config.go]: [Targets], which files feed which package;
      [TargetsProps] has the theorems.

    The parts meet in a query and a shape key.  [Targets.ResolveTargets] finds
    the files, [Scanner.ScanFile] makes their queries, [Lexical.CheckLexical] checks and classifies their parameters;
    [Weave.Weave] adds the conjuncts of the policies that apply and
    [Enforce.Enforce] checks that the result is scoped; the renderings of
    [Render.Renderings] go to a front end and a database, and what comes back to
    [R1.CheckR1], [Resolved.CheckResolved], [TypeRules.CheckTypeAgreement] and
    [Nullability.AnalyzeAllVerdicts];
    [Store] keeps what the database answered for runs without one;
    [Codegen.Generate] decides what is declared, [Frags.BuildFrags] lowers a query once; [Render.RenderShape] renders it per key; the composer
    [Runtime.ComposeTreeStyle] works from the table and the key alone.

    ** Conventions

    Source bytes are lists of [ascii]; [string] literals enter through [bs].
    A Go function that can fail or panic returns [result]; a panic is the error
    [GoPanic], an out-of-range slice or index included, so that a theorem that
    rules it out means something.  [uint8], [uint64], [int16] and [int32] values
    are [N] or [Z] with the conversions written out ([u8], [u64], [i16], [i32]);
    Go's [int] is [Z], or [nat] where it is a length or an index.  Loops over a
    slice are [rfold], [rmap] or [foldl]; the others are fixpoints on the rest
    of the input, or carry fuel: the token loop [lex_stream] ([S (length src)],
    as a token consumes a byte), the binary search [to_template_loop] (one round
    per segment, as the interval shrinks), [lexEString_loop] (the length of the
    input), [order_rec] (one level per key) and [evict_while] (one round per
    entry).  Each is proved sufficient: [lex_stream_Lexes],
    [to_template_loop_spec], [lexEString_loop_fuel], [orderOptions_selections],
    [evict_while_Inv].  Every loop of the scanner moves forward in the source
    and has [src_fuel] rounds; [scan_total] shows that no scan runs out.  The parser
    of set operations recurses on nesting and has [so_fuel], three rounds per
    token ([query_fuel_enough]); the scans of clauses are folds.  A call of the
    walk either spends an entry or goes on to the next segment, so that
    [walk_fuel] is enough on any file system ([run_ends]); the search of an
    existing ancestor drops an element per round ([resolveExistingPrefix_total]).
    The nullability analysis descends from a statement to one that ends before
    it, so that the size of the statement is enough ([walk_statement]).  The loops
    over runes take a byte per round at least, those of an excerpt are bounded
    by its window, the search of a line by the interval that shrinks
    ([search_loop_spec]); the header lines of a frame are as many as the code
    allows, and the server reads at most as many frames as the stream has bytes
    ([serve_ends]).  Maps are stdpp's [gmap]; where the code shares mutable objects - the cache's
    entries - they live in a heap indexed by address.

    ** The theorems

    - Conformance ([Simulation], [Conformance], [Verified]): [Rel] relates the
      renderer's state to the composer's; every item's rendering step simulates
      the composition of its fragment ([item_rel]), hence the composer gives
      the bytes of [RenderShape] and a bind plan that names the same parameters
      for every shape key ([compose_shape_conformance]) and for every member of
      the verified set ([verified_set_composed]), which is exactly the declared
      [plan] ([Renderings_plan]); the filter trees need two predicates at
      least ([trees_ok]).
    - Safety ([Safety], [TreeBinds]): [BuildFrags] makes well-formed tables, on
      which composition and bind resolution never panic
      ([composition_never_panics]); in both placeholder styles the text of a
      filter tree is [written] with placeholders that resolve to the arguments
      of their own leaves ([tree_arguments_own]).
    - The cache ([CacheProps], [CacheTheorems]): calls are split at their lock
      operations into the steps of a transition system; an invariant over
      all its reachable states gives transparency under every interleaving
      ([concurrent_transparency], [api_transparent]), the bounds on what is
      held ([cache_bounded]) and progress ([call_progress]).
    - Enumeration and keys: every reachable key is listed once and counted
      ([enumeration_complete], [enumeration_capped], [count_exact]); key
      encodings are injective and agree between compiler and runtime
      ([shape_key_canonical], [reachable_key_encoding]); the converters accept
      exactly the enumerated selections ([order_seq_exact],
      [choose_ordinal_bijection]).
    - Trees: [validate_exact], [encoding_canonical],
      [encoding_determines_composition], [combinator_meaning].
    - The scanner: every scan ends without a panic ([scan_total]) and loses
      nothing of the source ([scan_lossless]); its queries have the parameters,
      guard bits and limits the other parts assume ([scan_parameters],
      [scan_clean]), its reports are bounded and sorted
      ([scan_reports_bounded]), the literals of [@when] are exact
      ([when_literal_exact]), and renderings map back to the scanned file
      ([scanned_source_map]).
    - Policies: no policy is skipped in silence where the template has room for
      its conjunct ([weave_no_silent_skip]: [slot_of] and [woven_for] say where
      it stands and with which text);
      enforcement reports nothing exactly when every policy is [scoped], which
      spells out the exemptions ([enforce_exact]), and the weaver inserts nothing exactly then
      ([weave_enforce_agree]); splicing adds text and changes none
      ([splice_exact]); the WHERE scan is the parser of a grammar
      ([where_clause_exact]).
    - Paths and targets: [Compile] accepts exactly the patterns of a grammar
      ([compile_exact]), [Walk] returns exactly the paths a pattern derives
      ([walk_exact]: [derives] is the specification), references are exact
      ([references_exact]); the path policy is exact on elements
      ([path_policy_exact]: [leads] is the specification of where a path with
      links and missing elements leads); the targets are a partition of claimed files
      ([targets_partition]), complete when nothing is reported
      ([targets_complete]) and legal ([targets_legal]); derived output stays
      below its directory ([slug_confined]).
    - The catalog rules: each is equivalent to a specification that mentions no
      loop of the code ([r1_exact], [resolved_exact], [type_agreement_exact],
      [nullable_params_exact]); together with the renderer, a reference that
      resolves to an optional join is in no shape without it ([scope_sound]).
    - The committed cache: a path names its entry ([ref_roundtrip]); a write
      touches its path and makes directories, through no link
      ([save_confined]), and the check before the first write is exact
      ([preflight_sound]); what was saved is loaded for its keys alone
      ([load_after_save]); the sweep removes exactly what is dead
      ([sweep_exact]), so that a run leaves the live set ([generate_then_load]).
    - The generator: methods ([methods_exact]), arguments ([argIdent_escapes]),
      constants ([enumConstNames_spec]) and the names of a package
      ([package_names_distinct]) clash only with a report.
    - The formatter never fails and its text is specified ([format_exact]).
    - Places: lines, excerpts and UTF-16 positions ([positions_roundtrip],
      [excerpt_exact]).
    - The lints report what they find and the directives leave ([lint_exact],
      [wrapped_column_exact]).
    - The language server: frames ([frame_roundtrip]), what the client shows
      ([client_view_exact]), one answer per request ([answers_exact]) and the
      end of the session ([serve_ends]).
    - Nullability: the memo table changes its cost only
      ([presence_memo_exact]), the verdicts are those of a specification
      ([verdicts_exact]), guarded text never narrows them ([guarded_ignored]),
      and they are united over all renderings ([nullable_most_exact]); an answer
      comes back from the cache as it went in ([entry_roundtrip]).
    - The lexical rules: [insert_pairing_exact], [anchors_exact],
      [discipline_classifies]; what the rules call optional is bound only where
      it is present ([optional_binding_exact]).
    - Lexers: [tokenization_tiles], [string_literal_exact]; the source map:
      [source_map_faithful]; shape names: [shape_names_unique]; the ranking:
      [top_shapes_ranking]; EXPLAIN: [ExplainStatement_spec],
      [plan_depths_exact].
    - [Findings] shows on concrete inputs where code and comments part.

    ** Hypotheses

    The theorems on queries assume what the template scanner and the lexical
    rules guarantee, as executable predicates that are evaluated on [Demo]'s
    query for every instance: [wf_query] (distinct parameters, guards among the
    guard atoms, bodies that lex and bind declared parameters, one filter tree),
    [within_limits], [well_named], [anchored], [params_fresh],
    [insert_guards_declared], [occurrences_recorded].  [anchored] and
    [params_fresh] are proved of every scanned query, [within_limits] and
    [insert_guards_declared] of every query of a file scanned without reports;
    that the texts of an item lex as they do inside the file, which the rest of
    [wf_query] and [occurrences_recorded] need, is not proved.  [trees_ok] asks
    for two predicates at least and for caps that admit the maximal tree.  Three
    functions of Go's library are arguments: [strings.ToUpper], [strings.ToLower]
    where they see text beyond ASCII, and [time.ParseDuration]; the policies
    take [strings.EqualFold] besides, as the class [GoStrings].

    The policy theorems assume that the front end reads the query ([reads]: the
    maximal rendering parses as one statement, and no two relations at one place
    of the template have different join types, [one_join], which
    [one_join_test] decides) and that the items are laid out in order
    ([laid_out], proved of scanned queries in [scanned_laid_out]).
    [weave_no_silent_skip] also asks that the template has room for the conjunct
    ([has_room], decided from the template and the clause: the slot is there,
    its offsets are reached by skeletons, the references that share an ON clause
    read it alike); without it the conjunct can be lost ([conjunct_lost]).  What the
    database makes of a conjunct is outside the model: the theorems say in which
    clause it stands, on tokens.  The nullability theorems assume that the
    subtrees of a parse tree are told apart by identity ([distinct_bodies]), as
    distinct Go pointers are.

    ** Not modelled

    The text of the generated Go files and its gofmt: a printer of
    what [Codegen] decides.  The parsers of the database front ends and the
    native oracle of MySQL: they walk syntax trees of third-party parsers,
    whose types are not in the repository; what the other parts rely on is the
    record of [Frontend].  The configuration beyond targets and paths: YAML
    decoding by a third-party package.  Templates in Go sources, which
    [go/parser] reads.  The development databases, the commands and the
    pipeline: connections, files and the calls of the parts above.  Inside the
    modelled files: the buffer pool of the composer, the reflective path of
    [sliceElem], the interleaving of a reference-bit store with a running
    eviction sweep, the log of the language server, [WriteFileAtomic] outside
    the cache, and system calls that fail for reasons outside the tree.

    This file: notations, byte and integer operations, and the generic lemmas
    the components share. *)

From Stdlib Require Export Ascii String ZArith NArith Lia.
From stdpp Require Export base gmap sets list strings numbers.

#[global] Set Default Goal Selector "!".

(** Lemmas on tokens, and the shift lemmas of the lexers. *)
Create HintDb sqletch.
Create HintDb shift.

(** ** Byte strings

    A Go [string] or [[]byte] is a list of 8-bit characters; [bs] turns a
    literal into one.  Offsets, which in the code are non-negative [int]s
    bounded by the length of a slice in memory, are [nat]. *)

Abbreviation bytes := (list ascii).

Definition bs (s : string) : bytes := list_ascii_of_string s.

Declare Scope go_scope.
Delimit Scope go_scope with go.

(** Byte comparison ([c == d]) and the order of byte values ([c <= d]). *)
Notation "c =b d" := (Ascii.eqb c d) (at level 70) : go_scope.
Definition byte_leb (c d : ascii) : bool := N.leb (N_of_ascii c) (N_of_ascii d).
Notation "c <=b d" := (byte_leb c d) (at level 70) : go_scope.
Open Scope go_scope.

(** The control characters the lexers name. *)
Definition c_tab : ascii := "009".
Definition c_lf : ascii := "010".
Definition c_vt : ascii := "011".
Definition c_ff : ascii := "012".
Definition c_cr : ascii := "013".
Definition c_bslash : ascii := "\".
Definition c_dquote : ascii := "034".

(** [s[lo:hi]] for offsets already known to be in range. *)
Definition slice (s : bytes) (lo hi : nat) : bytes := take (hi - lo) (drop lo s).

(** [i < len(s) && s[i] == c] and [i < len(s) && p(s[i])]. *)
Definition at_is (s : bytes) (i : nat) (c : ascii) : bool :=
  match s !! i with Some d => d =b c | None => false end.
Definition at_sat (p : ascii -> bool) (s : bytes) (i : nat) : bool :=
  match s !! i with Some d => p d | None => false end.

(** [for i < len(s) && cont(s[i:]) { i++ }]: the index at which a scanning
    loop stops; [l] is the unread suffix [s[i:]]. *)
Fixpoint scan_suffix (cont : bytes -> bool) (l : bytes) (i : nat) : nat :=
  match l with
  | [] => i
  | _ :: l' => if cont l then scan_suffix cont l' (S i) else i
  end.

Definition hd_sat (p : ascii -> bool) (l : bytes) : bool :=
  match l with c :: _ => p c | [] => false end.

(** [for i < len(s) && p(s[i]) { i++ }] *)
Definition scan (p : ascii -> bool) (s : bytes) (i : nat) : nat :=
  scan_suffix (hd_sat p) (drop i s) i.

(** ** Results

    Go's [(value, error)] pairs.  An index out of range, which panics in Go,
    is an error value of the component that can raise it. *)
Inductive result (E A : Type) : Type :=
  | Ok (a : A)
  | Err (e : E).
Arguments Ok {E A} a.
Arguments Err {E A} e.

Definition rbind {E A B} (m : result E A) (f : A -> result E B) : result E B :=
  match m with Ok a => f a | Err e => Err e end.

Notation "'let!' x := m 'in' k" := (rbind m (fun x => k))
  (at level 10, x name, m at level 100, k at level 200) : go_scope.
Notation "'let!' ' p := m 'in' k" := (rbind m (fun x => match x with p => k end))
  (at level 10, p pattern, m at level 100, k at level 200) : go_scope.

(** [for _, x := range xs { s, err = f(s, x) }] with an early return on error. *)
Section rfold.
Context {E S X : Type} (f : S -> X -> result E S).
Fixpoint rfold (s : S) (xs : list X) : result E S :=
  match xs with
  | [] => Ok s
  | x :: xs' => let! s' := f s x in rfold s' xs'
  end.
End rfold.

(** [for _, x := range xs { y, err := f(x); ...; out = append(out, y) }] *)
Section rmap.
Context {E A B : Type} (f : A -> result E B).
Fixpoint rmap (xs : list A) : result E (list B) :=
  match xs with
  | [] => Ok []
  | x :: xs' => let! y := f x in let! ys := rmap xs' in Ok (y :: ys)
  end.
End rmap.

(** An option read as an error. *)
Definition or_err {E A} (o : option A) (e : E) : result E A :=
  match o with Some a => Ok a | None => Err e end.

(** Keywords, and membership in a list of them ([slices.Contains]). *)
Definition words (l : list string) : list bytes := bs <$> l.
Definition one_of (l : list bytes) (w : bytes) : bool := bool_decide (w ∈ l).

(** ** Fixed-width integers *)
Definition u8 (n : N) : N := (n mod 2 ^ 8)%N.
Definition u64 (n : N) : N := (n mod 2 ^ 64)%N.
Definition signed (w : Z) (z : Z) : Z := ((z + 2 ^ (w - 1)) mod 2 ^ w - 2 ^ (w - 1))%Z.
Definition i16 (z : Z) : Z := signed 16 z.
Definition i32 (z : Z) : Z := signed 32 z.
(** [1 << uint(b)] on a uint64: zero once the bit leaves the word. *)
Definition bit64 (b : nat) : N := u64 (N.shiftl 1 (N.of_nat b)).

(** ** strconv: unsigned and signed formatting *)
Definition digit (d : N) : ascii :=
  ascii_of_N (if N.ltb d 10 then 48 + d else 87 + d).

Fixpoint fmt_go (fuel : nat) (base n : N) (acc : bytes) : bytes :=
  match fuel with
  | O => acc
  | S f =>
      let acc' := digit (n mod base) :: acc in
      if N.eqb (n / base) 0 then acc' else fmt_go f base (n / base) acc'
  end.

(** [strconv.FormatUint(n, base)] (lower-case digits); the fuel is the number
    of bits of [n], enough for every base from 2 on ([of_digits_FormatUint]). *)
Definition FormatUint (n base : N) : bytes :=
  fmt_go (S (N.to_nat (N.log2 n))) base n [].

(** [strconv.FormatInt(z, 10)] *)
Definition FormatInt (z : Z) : bytes :=
  if Z.ltb z 0 then "-"%char :: FormatUint (Z.to_N (- z)) 10
  else FormatUint (Z.to_N z) 10.

Definition undigit (c : ascii) : N :=
  let n := N_of_ascii c in if N.ltb n 58 then n - 48 else n - 87.

Definition of_digits (base : N) (s : bytes) : N :=
  fold_left (fun a c => a * base + undigit c)%N s 0%N.

(** [strings.Join] *)
Fixpoint join (sep : bytes) (parts : list bytes) : bytes :=
  match parts with
  | [] => []
  | [p] => p
  | p :: ps => p ++ sep ++ join sep ps
  end.

(** ASCII case mapping ([strings.ToUpper]/[ToLower] on the ASCII range; bytes
    from 0x80 on are left alone, see the header). *)
Definition upper1 (c : ascii) : ascii :=
  if (("a" <=b c) && (c <=b "z"))%char then ascii_of_N (N_of_ascii c - 32) else c.
Definition lower1 (c : ascii) : ascii :=
  if (("A" <=b c) && (c <=b "Z"))%char then ascii_of_N (N_of_ascii c + 32) else c.

(** [bytes.Index(s, sub)] *)
Fixpoint bytes_index (sub s : bytes) : option nat :=
  if decide (sub = take (length sub) s) then Some 0
  else match s with [] => None | _ :: s' => S <$> bytes_index sub s' end.

(** * Lemmas *)

(** ** Slices and lookups *)
Lemma slice_length s lo hi : hi <= length s -> length (slice s lo hi) = hi - lo.
Proof. intros. unfold slice. rewrite length_take, length_drop. lia. Qed.

Lemma slice_app s lo mid hi :
  lo <= mid -> mid <= hi -> slice s lo mid ++ slice s mid hi = slice s lo hi.
Proof.
  intros. unfold slice.
  replace (drop mid s) with (drop (mid - lo) (drop lo s))
    by (rewrite drop_drop; f_equal; lia).
  replace (hi - lo) with ((mid - lo) + (hi - mid)) by lia.
  by rewrite take_take_drop.
Qed.

Lemma slice_full s : slice s 0 (length s) = s.
Proof. unfold slice. rewrite Nat.sub_0_r, drop_0. apply take_ge; lia. Qed.

Lemma slice_nil s i : slice s i i = [].
Proof. unfold slice. by rewrite Nat.sub_diag. Qed.

Lemma slice_lookup s lo hi k :
  k < hi - lo -> slice s lo hi !! k = s !! (lo + k).
Proof. intros. unfold slice. rewrite lookup_take_lt by lia. apply lookup_drop. Qed.

Lemma slice_shift pre s lo hi :
  slice (pre ++ s) (length pre + lo) (length pre + hi) = slice s lo hi.
Proof.
  unfold slice. rewrite drop_app_add. f_equal. lia.
Qed.

Lemma lookup_shift (pre s : bytes) i : (pre ++ s) !! (length pre + i) = s !! i.
Proof. rewrite lookup_app_r by lia. f_equal. lia. Qed.

Lemma at_is_shift pre s i c : at_is (pre ++ s) (length pre + i) c = at_is s i c.
Proof. unfold at_is. by rewrite lookup_shift. Qed.

Lemma at_sat_shift p pre s i : at_sat p (pre ++ s) (length pre + i) = at_sat p s i.
Proof. unfold at_sat. by rewrite lookup_shift. Qed.

Lemma at_is_lt s i c : at_is s i c = true -> i < length s.
Proof.
  unfold at_is. destruct (s !! i) eqn:E; [|done]. intros _. by eapply lookup_lt_Some.
Qed.

Lemma at_sat_lt p s i : at_sat p s i = true -> i < length s.
Proof.
  unfold at_sat. destruct (s !! i) eqn:E; [|done]. intros _. by eapply lookup_lt_Some.
Qed.

(** ** Scanning loops *)
Lemma scan_suffix_add cont l i k : scan_suffix cont l (k + i) = k + scan_suffix cont l i.
Proof.
  revert i. induction l as [|c l IH]; intros i; simpl; [done|].
  destruct (cont (c :: l)); [|done]. rewrite <- IH. f_equal. lia.
Qed.

Lemma scan_suffix_bounds cont l i :
  i <= scan_suffix cont l i <= i + length l.
Proof.
  revert i. induction l as [|c l IH]; intros i; simpl; [lia|].
  destruct (cont (c :: l)); [|lia]. specialize (IH (S i)). lia.
Qed.

Lemma scan_suffix_drop_bounds cont s i :
  i <= length s -> i <= scan_suffix cont (drop i s) i <= length s.
Proof.
  intros. pose proof (scan_suffix_bounds cont (drop i s) i) as Hb.
  rewrite length_drop in Hb. lia.
Qed.

Lemma scan_suffix_step cont c l i :
  cont (c :: l) = true -> i < scan_suffix cont (c :: l) i.
Proof. intros H. simpl. rewrite H. pose proof (scan_suffix_bounds cont l (S i)). lia. Qed.

Lemma scan_suffix_shift cont pre s i :
  scan_suffix cont (drop (length pre + i) (pre ++ s)) (length pre + i)
  = length pre + scan_suffix cont (drop i s) i.
Proof. rewrite drop_app_add. apply scan_suffix_add. Qed.

Lemma scan_bounds p s i : i <= length s -> i <= scan p s i <= length s.
Proof. apply scan_suffix_drop_bounds. Qed.

Lemma scan_shift p pre s i :
  scan p (pre ++ s) (length pre + i) = length pre + scan p s i.
Proof. apply scan_suffix_shift. Qed.

Lemma scan_step p s i c : s !! i = Some c -> p c = true -> i < scan p s i.
Proof.
  intros Hi Hp. unfold scan. rewrite (drop_S _ c _ Hi). by apply scan_suffix_step.
Qed.

(** ** Results *)
Lemma rbind_ok {E A B} (m : result E A) (f : A -> result E B) b :
  rbind m f = Ok b <-> exists a, m = Ok a /\ f a = Ok b.
Proof. destruct m; simpl; split; [eauto|by intros (? & [= <-] & ?)|done|by intros (? & ? & ?)]. Qed.

Lemma rfold_app {E S X} (f : S -> X -> result E S) xs ys s :
  rfold f s (xs ++ ys) = rbind (rfold f s xs) (fun s' => rfold f s' ys).
Proof.
  revert s. induction xs as [|x xs IH]; intros s; simpl; [done|].
  destruct (f s x); simpl; auto.
Qed.

(** An invariant of the loop body is an invariant of the loop. *)
Lemma rfold_ind {E S X} (P : S -> Prop) (f : S -> X -> result E S) xs s s' :
  (forall s x s', x ∈ xs -> P s -> f s x = Ok s' -> P s') ->
  P s -> rfold f s xs = Ok s' -> P s'.
Proof.
  revert s. induction xs as [|x xs IH]; intros s Hf Hs; simpl.
  - by intros [= <-].
  - destruct (f s x) as [s1|] eqn:E1; simpl; [|done]. apply IH.
    + intros. eapply Hf; eauto. set_solver.
    + eapply Hf; eauto. set_solver.
Qed.

Lemma rbind_assoc {E A B C} (m : result E A) (f : A -> result E B) (g : B -> result E C) :
  rbind (rbind m f) g = rbind m (fun a => rbind (f a) g).
Proof. by destruct m. Qed.

Lemma rmap_app {E A B} (f : A -> result E B) xs ys :
  rmap f (xs ++ ys) = let! a := rmap f xs in let! b := rmap f ys in Ok (a ++ b).
Proof.
  induction xs as [|x xs IH]; simpl; [by destruct (rmap f ys)|].
  destruct (f x); simpl; [|done]. rewrite IH. destruct (rmap f xs); simpl; [|done].
  by destruct (rmap f ys).
Qed.

Lemma rmap_fmap {E A B C} (g : A -> B) (f : B -> result E C) xs :
  rmap f (g <$> xs) = rmap (fun x => f (g x)) xs.
Proof. induction xs as [|x xs IH]; [done|]. rewrite fmap_cons. cbn [rmap]. by rewrite IH. Qed.

Lemma rmap_ok {E A B} (f : A -> result E B) xs ys :
  rmap f xs = Ok ys <-> Forall2 (fun x y => f x = Ok y) xs ys.
Proof.
  revert ys. induction xs as [|x xs IH]; intros ys; simpl.
  - split; [intros [= <-]; constructor|by inversion 1].
  - split.
    + intros (y & Hy & (zs & Hzs & H)%rbind_ok)%rbind_ok. injection H as <-.
      constructor; [done|by apply IH].
    + inversion 1 as [|? y ? zs Hy Hzs]; subst. apply IH in Hzs. by rewrite Hy, Hzs.
Qed.

(** A loop that appends one result per element. *)
Lemma rfold_snoc {E A B} (f : A -> result E B) out xs :
  rfold (fun out x => let! y := f x in Ok (out ++ [y])) out xs
  = let! ys := rmap f xs in Ok (out ++ ys).
Proof.
  revert out. induction xs as [|x xs IH]; intros out; simpl; [by rewrite app_nil_r|].
  destruct (f x); simpl; [|done]. rewrite IH. destruct (rmap f xs); simpl; [|done].
  by rewrite <- app_assoc.
Qed.

(** ** Fixed-width integers *)
Lemma signed_id w z : (0 < w -> - 2 ^ (w - 1) <= z < 2 ^ (w - 1) -> signed w z = z)%Z.
Proof.
  intros Hw Hz. unfold signed.
  assert (2 ^ w = 2 * 2 ^ (w - 1))%Z as He.
  { rewrite <- Z.pow_succ_r by lia. f_equal. lia. }
  rewrite Z.mod_small by lia. lia.
Qed.

Lemma i16_id z : (-32768 <= z < 32768)%Z -> i16 z = z.
Proof. intros. apply signed_id; simpl; lia. Qed.

Lemma i32_id z : (-2147483648 <= z < 2147483648)%Z -> i32 z = z.
Proof. intros. apply signed_id; simpl; lia. Qed.

Lemma u8_id n : (n < 256)%N -> u8 n = n.
Proof. intros. unfold u8. apply N.mod_small. simpl. lia. Qed.

Lemma u64_testbit n i :
  N.testbit (u64 n) i = (N.ltb i 64 && N.testbit n i)%bool.
Proof.
  unfold u64. destruct (N.ltb_spec i 64) as [Hi|Hi]; simpl.
  - by rewrite N.mod_pow2_bits_low.
  - by rewrite N.mod_pow2_bits_high.
Qed.

Lemma bit64_testbit b i :
  N.testbit (bit64 b) i = (N.ltb i 64 && N.eqb i (N.of_nat b))%bool.
Proof.
  unfold bit64. rewrite u64_testbit. f_equal. rewrite N.shiftl_1_l.
  rewrite N.pow2_bits_eqb. apply N.eqb_sym.
Qed.

(** ** Formatting *)
Lemma undigit_digit d : (d < 36)%N -> undigit (digit d) = d.
Proof.
  intros Hd. unfold undigit, digit.
  destruct (N.ltb_spec d 10); rewrite N_ascii_embedding by lia.
  - destruct (N.ltb_spec (48 + d) 58); lia.
  - destruct (N.ltb_spec (87 + d) 58); lia.
Qed.

Lemma of_digits_fmt_go base fuel n acc a :
  (2 <= base <= 36)%N -> (n < 2 ^ N.of_nat fuel)%N ->
  fold_left (fun a c => a * base + undigit c)%N (fmt_go fuel base n acc) a
  = fold_left (fun a c => a * base + undigit c)%N acc
      (fold_left (fun a c => a * base + undigit c)%N (fmt_go fuel base n []) a).
Proof.
  intros Hb. revert n acc a. induction fuel as [|f IH]; intros n acc a Hn; simpl; [done|].
  destruct (N.eqb (n / base) 0); simpl; [done|].
  assert (n / base < 2 ^ N.of_nat f)%N as Hlt.
  { apply N.Div0.div_lt_upper_bound. rewrite Nat2N.inj_succ, N.pow_succ_r' in Hn. nia. }
  rewrite IH by done. symmetry. rewrite IH by done. done.
Qed.

Lemma fmt_go_value base fuel n :
  (2 <= base <= 36)%N -> (n < 2 ^ N.of_nat fuel)%N -> fuel <> 0 ->
  of_digits base (fmt_go fuel base n []) = n.
Proof.
  intros Hb. revert n. induction fuel as [|f IH]; intros n Hn Hf; [done|].
  unfold of_digits. simpl.
  assert (n mod base < base)%N by (apply N.mod_lt; lia).
  destruct (N.eqb_spec (n / base) 0) as [Hz|Hz].
  - simpl. rewrite undigit_digit by lia. rewrite N.mod_small; [done|].
    apply N.div_small_iff; lia.
  - assert (n / base < 2 ^ N.of_nat f)%N as Hlt.
    { apply N.Div0.div_lt_upper_bound. rewrite Nat2N.inj_succ, N.pow_succ_r' in Hn. nia. }
    rewrite of_digits_fmt_go by done. fold (of_digits base (fmt_go f base (n / base) [])).
    rewrite IH; [|done|].
    + simpl. rewrite undigit_digit by lia.
      rewrite N.mul_comm, <- N.div_mod by lia. done.
    + intros ->. apply Hz, N.lt_1_r, Hlt.
Qed.

Lemma of_digits_FormatUint n base :
  (2 <= base <= 36)%N -> of_digits base (FormatUint n base) = n.
Proof.
  intros Hb. apply fmt_go_value; [done| |done].
  destruct (decide (n = 0%N)) as [->|Hn]; [simpl; lia|].
  rewrite Nat2N.inj_succ, N2Nat.id. apply N.log2_spec. lia.
Qed.

Lemma FormatUint_inj base n m :
  (2 <= base <= 36)%N -> FormatUint n base = FormatUint m base -> n = m.
Proof.
  intros Hb Heq. rewrite <- (of_digits_FormatUint n base), Heq by done.
  by apply of_digits_FormatUint.
Qed.

Lemma fmt_go_length fuel base n acc : fuel <> 0 -> length acc < length (fmt_go fuel base n acc).
Proof.
  revert n acc. induction fuel as [|f IH]; intros n acc Hf; [done|].
  cbn [fmt_go]. destruct (N.eqb (n / base) 0); [simpl; lia|].
  destruct f as [|f]; [simpl; lia|].
  specialize (IH (n / base)%N (digit (n mod base) :: acc) ltac:(lia)).
  rewrite length_cons in IH. lia.
Qed.

Lemma FormatUint_nonempty n base : FormatUint n base <> [].
Proof.
  intros H. pose proof (fmt_go_length (S (N.to_nat (N.log2 n))) base n []) as Hl.
  fold (FormatUint n base) in Hl. rewrite H in Hl. specialize (Hl ltac:(done)). simpl in Hl. lia.
Qed.

(** ** Lists of blocks *)

Lemma elem_of_concat_imap {A B} (f : nat -> A -> list B) l y :
  y ∈ concat (imap f l) <-> exists i x, l !! i = Some x /\ y ∈ f i x.
Proof.
  revert f. induction l as [|x l IH]; intros f; cbn [imap concat].
  - split; [set_solver|]. by intros (i & x & Hi & _); rewrite lookup_nil in Hi.
  - rewrite elem_of_app, IH. split.
    + intros [Hy|(i & x' & Hi & Hy)]; [by exists 0, x|by exists (S i), x'].
    + intros ([|i] & x' & Hi & Hy); simplify_eq/=; [by left|right; by exists i, x'].
Qed.

Lemma length_concat_imap {A B} (f : nat -> A -> list B) (g : A -> nat) l :
  (forall k x, length (f k x) = g x) -> length (concat (imap f l)) = sum_list (g <$> l).
Proof.
  revert f. induction l as [|x l IH]; intros f Hf; [done|].
  cbn [imap concat]. rewrite length_app, Hf, fmap_cons. cbn [sum_list foldr].
  rewrite IH; [done|]. intros. apply Hf.
Qed.

(** ** Automation *)

(** Invert the monadic equations of the context. *)
Ltac inv_ok :=
  repeat match goal with
  | H : rbind _ _ = Ok _ |- _ => apply rbind_ok in H; destruct H as (? & ? & H)
  | H : Ok _ = Ok _ |- _ => injection H as H
  | H : Ok _ = Err _ |- _ => discriminate H
  | H : Err _ = Ok _ |- _ => discriminate H
  | H : or_err ?o _ = Ok _ |- _ => unfold or_err in H
  end.

(** Split on every boolean or option the goal (or a hypothesis) tests. *)
Ltac split_match :=
  match goal with
  | |- context [if ?b then _ else _] => destruct b eqn:?
  | |- context [match ?x with _ => _ end] => destruct x eqn:?
  end.

Create HintDb sqletch.
Create HintDb shift.
Create HintDb bytes.
#[export] Hint Rewrite at_is_shift at_sat_shift scan_shift scan_suffix_shift slice_shift
  lookup_shift : shift.
#[export] Hint Rewrite @slice_full slice_nil @length_app @length_drop @length_take : bytes.
#[export] Hint Resolve at_is_lt at_sat_lt : sqletch.

(** An index or a slice bound out of range. *)
Inductive IndexPanic := IndexOutOfRange.

(** ** Reports: concatenations that are empty *)

Lemma concat_nil_iff {A B} (f : A -> list B) l : concat (f <$> l) = [] <-> forall x, x ∈ l -> f x = [].
Proof.
  induction l as [|x l IH]; cbn; [set_solver|]. split.
  - intros [H1 H2]%app_eq_nil y [->|Hy]%elem_of_cons; [done|]. by apply IH.
  - intros H. rewrite H by (by left). apply IH. intros y Hy. apply H. by right.
Qed.

Lemma concat_nil_Forall {A B} (f : A -> list B) l : concat (f <$> l) = [] <-> Forall (fun x => f x = []) l.
Proof. rewrite concat_nil_iff. symmetry. apply list.Forall_forall. Qed.

Lemma concat_imap_nil {A B} (f : nat -> A -> list B) (l : list A) :
  concat (imap f l) = [] <-> forall i x, l !! i = Some x -> f i x = [].
Proof.
  revert f. induction l as [|a l IH]; intros f; cbn; [by split|].
  split.
  - intros [Ha Hl]%app_eq_nil [|i] x Hx; cbn in Hx; [congruence|]. by apply (proj1 (IH _) Hl).
  - intros H. rewrite (H 0 a eq_refl). cbn. apply IH. intros i x Hx. by apply (H (S i)).
Qed.

