(* ===== verification/Dialect.v ===== *)
(** * Dialect

    [internal/dialect/dialect.go]: tokens, the lexer-profile interface every
    dialect implements ([LexerProfile], with its optional interfaces), the laws
    a profile promises to its clients ([LexerLaws]) and the token-stream loop
    the template scanner, the renderer and the code generator all run. *)

From S2P Require Import Prelude.

(** ** Tokens *)
Inductive TokenKind :=
  | KindEOF | KindWhitespace | KindLineComment | KindBlockComment
  | KindString | KindQuotedIdent | KindIdent | KindNumber | KindParamRef
  | KindPositionalParam | KindCast | KindOperator | KindLParen | KindRParen
  | KindComma | KindSemicolon | KindOther.

#[export] Instance TokenKind_eq_dec : EqDecision TokenKind.
Proof. solve_decision. Defined.

Record Token := mkToken { Kind : TokenKind; Start : nat; End : nat; Text : bytes }.

#[export] Instance Token_eq_dec : EqDecision Token.
Proof. solve_decision. Defined.

Record LexError := mkLexError { Pos : nat; Msg : bytes }.

(** How a dialect binds parameters in prepared SQL. *)
Inductive PlaceholderStyle := PlaceholderDollar | PlaceholderQuestion.

#[export] Instance PlaceholderStyle_eq_dec : EqDecision PlaceholderStyle.
Proof. solve_decision. Defined.

(** ** The profile interface

    [NextToken] is the mandatory method; an optional interface
    ([Placeholders], [InEmpty], [CaseInsensitiveIdents], [PipesOr]) is [None]
    when the profile's type does not implement it. *)
Class LexerProfile := {
  NextToken : bytes -> nat -> result LexError Token;
  Placeholders : option PlaceholderStyle;
  InEmpty : option bytes;
  CaseInsensitiveIdents : option bool;
  PipesOr : option bool;
}.

Definition StyleOf (profile : LexerProfile) : PlaceholderStyle :=
  match Placeholders with Some s => s | None => PlaceholderDollar end.

Definition InEmptyOf (profile : LexerProfile) : bytes :=
  match InEmpty with
  | Some sql => sql
  | None => bs "IN (SELECT NULL FROM DUAL WHERE FALSE)"
  end.

(** The folding function is [strings.ToLower], taken as an argument. *)
Definition FoldIdent (ToLower : bytes -> bytes) (profile : LexerProfile) : bytes -> bytes :=
  match CaseInsensitiveIdents with
  | Some true => ToLower
  | _ => fun s => s
  end.

Definition PipesAreOr (profile : LexerProfile) : bool :=
  match PipesOr with Some b => b | None => false end.

(** ** The laws of a profile *)

(** A token that a call [NextToken(src, pos)] may return inside the input. *)
Record wf_token (src : bytes) (pos : nat) (t : Token) : Prop := {
  tok_kind : Kind t <> KindEOF;
  tok_start : Start t = pos;
  tok_progress : pos < End t;
  tok_bound : End t <= length src;
  tok_text : Text t = slice src pos (End t);
  tok_param : Kind t = KindParamRef -> exists name, Text t = ":"%char :: name /\ name <> [];
}.

Definition shift_token (n : nat) (t : Token) : Token :=
  mkToken (Kind t) (n + Start t) (n + End t) (Text t).

Definition shift_lex (n : nat) (r : result LexError Token) : result LexError Token :=
  match r with
  | Ok t => Ok (shift_token n t)
  | Err e => Err (mkLexError (n + Pos e) (Msg e))
  end.

(** What the clients of a profile rely on: end of input is an EOF token,
    every other token starts where lexing started, ends later and inside the
    input and carries the bytes it covers; errors point inside the input; and
    a token depends only on the bytes from its start on. *)
Class LexerLaws (profile : LexerProfile) : Prop := {
  lex_eof src pos : length src <= pos -> NextToken src pos = Ok (mkToken KindEOF pos pos []);
  lex_ok src pos t : pos < length src -> NextToken src pos = Ok t -> wf_token src pos t;
  lex_err src pos e : NextToken src pos = Err e -> pos <= Pos e < length src;
  lex_shift pre src pos :
    NextToken (pre ++ src) (length pre + pos) = shift_lex (length pre) (NextToken src pos);
  lex_in_empty : InEmptyOf profile <> [];
}.

(** ** The token loop

    [for { tok, err := profile.NextToken(src, pos); ...; pos = tok.End }]:
    the tokens up to the end of the input or the first error.  Fuel: every
    token consumes a byte, so [S (length src)] iterations reach the end
    ([lex_stream_Lexes]). *)
Fixpoint lex_stream `{LexerProfile} (fuel : nat) (src : bytes) (pos : nat)
    : list Token * option LexError :=
  match fuel with
  | O => ([], None)
  | S f =>
      match NextToken src pos with
      | Err e => ([], Some e)
      | Ok tok =>
          if decide (Kind tok = KindEOF) then ([], None)
          else let '(ts, e) := lex_stream f src (End tok) in (tok :: ts, e)
      end
  end.

Definition tokens `{LexerProfile} (src : bytes) : list Token * option LexError :=
  lex_stream (S (length src)) src 0.

(** ** Shared quoting loop

    The loop of the three dialects' [lexQuoted]: from just after an opening
    quote [q] to just after the closing one; a doubled quote is an escape,
    a backslash only when [esc].  [None]: the input ended first.  [l] is
    [src[i:]]. *)
Fixpoint quoted_loop (esc : bool) (q : ascii) (l : bytes) (i : nat) : option nat :=
  match l with
  | [] => None
  | c :: l1 =>
      if (esc && (c =b c_bslash))%bool then
        match l1 with [] => None | _ :: l2 => quoted_loop esc q l2 (i + 2) end
      else if c =b q then
        match l1 with
        | d :: l2 => if d =b q then quoted_loop esc q l2 (i + 2) else Some (i + 1)
        | [] => Some (i + 1)
        end
      else quoted_loop esc q l1 (i + 1)
  end.

(** The grammar [quoted_loop] recognises: a body of plain bytes, doubled
    quotes and (with [esc]) backslash pairs. *)
Inductive quoted_body (esc : bool) (q : ascii) : bytes -> Prop :=
  | qb_nil : quoted_body esc q []
  | qb_esc c l : esc = true -> quoted_body esc q l -> quoted_body esc q (c_bslash :: c :: l)
  | qb_doubled l :
      ~ (esc = true /\ q = c_bslash) -> quoted_body esc q l -> quoted_body esc q (q :: q :: l)
  | qb_plain c l :
      c <> q -> ~ (esc = true /\ c = c_bslash) -> quoted_body esc q l -> quoted_body esc q (c :: l).

(** [/* ... */] without nesting (MySQL, SQLite): [l] is [src[i:]] and the
    result is the offset past the first closing marker. *)
Fixpoint block_comment_loop (l : bytes) (i : nat) : option nat :=
  match l with
  | c :: ((d :: _) as l1) =>
      if ((c =b "*") && (d =b "/"))%char%bool then Some (i + 2)
      else block_comment_loop l1 (i + 1)
  | _ => None
  end.

(** The digits-dots-exponent scan all three lexers share. *)
Definition isDigit (c : ascii) : bool := (("0" <=b c) && (c <=b "9"))%char%bool.
Definition is_exp (c : ascii) : bool := ((c =b "e") || (c =b "E"))%char%bool.
Definition is_sign (c : ascii) : bool := ((c =b "+") || (c =b "-"))%char%bool.

(** [strconv.Atoi]: a sign, then decimal digits of a 64-bit integer. *)
Definition Atoi (s : bytes) : option Z :=
  let '(neg, ds) := match s with
                    | "+"%char :: r => (false, r)
                    | "-"%char :: r => (true, r)
                    | _ => (false, s)
                    end in
  if negb (bool_decide (ds = [])) && forallb isDigit ds then
    let z := if neg then (- Z.of_N (of_digits 10 ds))%Z else Z.of_N (of_digits 10 ds) in
    if (- 2 ^ 63 <=? z)%Z && (z <? 2 ^ 63)%Z then Some z else None
  else None.

Definition number_end (src : bytes) (pos : nat) : nat :=
  let i := scan (fun c => (isDigit c || (c =b "."))%char%bool) src pos in
  if at_sat is_exp src i then
    let j := if at_sat is_sign src (i + 1) then i + 2 else i + 1 in
    if at_sat isDigit src j then scan isDigit src j else i
  else i.

(** [_ a-z A-Z] and every byte from 0x80 on. *)
Definition is_letter (c : ascii) : bool :=
  (("a" <=b c) && (c <=b "z") || ("A" <=b c) && (c <=b "Z"))%char%bool.
Definition is_high (c : ascii) : bool := N.leb 128 (N_of_ascii c).

(** Trivia tokens (skipped between significant ones). *)
Definition is_trivia (k : TokenKind) : bool :=
  match k with KindWhitespace | KindLineComment | KindBlockComment => true | _ => false end.

(** * Lemmas *)

(** Induction on a list two elements at a time, the shape of the quoting and
    comment loops. *)
Lemma list_ind2 {A} (P : list A -> Prop) :
  P [] -> (forall c, P [c]) -> (forall c d l, P (d :: l) -> P l -> P (c :: d :: l)) ->
  forall l, P l.
Proof.
  intros H0 H1 H2 l. enough (P l /\ forall c, P (c :: l)) as [? _]; [done|].
  induction l as [|d l [IH1 IH2]]; split; auto.
Qed.

(** ** Quoting *)

Lemma quoted_loop_cons esc q c l1 i :
  quoted_loop esc q (c :: l1) i =
    if (esc && (c =b c_bslash))%bool then
      match l1 with [] => None | _ :: l2 => quoted_loop esc q l2 (i + 2) end
    else if c =b q then
      match l1 with
      | d :: l2 => if d =b q then quoted_loop esc q l2 (i + 2) else Some (i + 1)
      | [] => Some (i + 1)
      end
    else quoted_loop esc q l1 (i + 1).
Proof. reflexivity. Qed.

Lemma quoted_loop_add esc q l i k :
  quoted_loop esc q l (k + i) = Nat.add k <$> quoted_loop esc q l i.
Proof.
  revert i. induction l as [|c|c d l IH1 IH2] using list_ind2; intros i; [done|..];
    rewrite ?(quoted_loop_cons _ _ c); lazy beta match.
  - destruct (_ && _)%bool; [done|]. destruct (c =b q); simpl; [f_equal; lia|done].
  - assert (k + i + 1 = k + (i + 1) /\ k + i + 2 = k + (i + 2)) as [E1 E2] by lia.
    destruct (_ && _)%bool; [by rewrite E2, IH2|].
    destruct (c =b q); [|by rewrite E1, IH1].
    destruct (d =b q); [by rewrite E2, IH2|simpl; f_equal; lia].
Qed.

Lemma quoted_loop_sound esc q l i e :
  quoted_loop esc q l i = Some e ->
  exists body rest, l = body ++ q :: rest /\ quoted_body esc q body /\
    e = i + length body + 1 /\ rest !! 0 <> Some q.
Proof.
  revert i. induction l as [|c|c d l IH1 IH2] using list_ind2; intros i; [done|..];
    rewrite ?(quoted_loop_cons _ _ c); lazy beta match.
  - destruct (_ && _)%bool eqn:Eb; [done|].
    destruct (Ascii.eqb_spec c q) as [->|Hc]; [|done].
    intros [= <-]. exists [], []. repeat split; [constructor|simpl; lia|done].
  - destruct (_ && _)%bool eqn:Eb.
    { apply andb_prop in Eb as [-> Eb]. apply Ascii.eqb_eq in Eb as ->.
      intros (body & rest & -> & Hb & -> & Hr)%IH2.
      exists (c_bslash :: d :: body), rest. split_and!; [done|by constructor|simpl; lia|done]. }
    assert (~ (esc = true /\ c = c_bslash)) as Hesc.
    { intros [-> ->]. by vm_compute in Eb. }
    destruct (Ascii.eqb_spec c q) as [->|Hc].
    + destruct (Ascii.eqb_spec d q) as [->|Hd].
      * intros (body & rest & -> & Hb & -> & Hr)%IH2.
        exists (q :: q :: body), rest. split_and!; [done|by constructor|simpl; lia|done].
      * intros [= <-]. exists [], (d :: l).
        repeat split; [constructor|simpl; lia|simpl; congruence].
    + intros (body & rest & Hl & Hb & -> & Hr)%IH1.
      exists (c :: body), rest. rewrite Hl.
      split_and!; [done|by constructor|simpl; lia|done].
Qed.

Lemma quoted_loop_complete esc q body rest i :
  q <> c_bslash -> quoted_body esc q body -> rest !! 0 <> Some q ->
  quoted_loop esc q (body ++ q :: rest) i = Some (i + length body + 1).
Proof.
  intros Hq Hb Hr. revert i. assert ((q =b c_bslash) = false) as Eq by by apply Ascii.eqb_neq.
  induction Hb as [|c l Hesc Hb IH|l Hne Hb IH|c l Hc Hne Hb IH]; intros i; simpl.
  - rewrite Eq, andb_false_r, Ascii.eqb_refl. destruct rest as [|d rest]; [f_equal; lia|].
    destruct (Ascii.eqb_spec d q) as [->|]; [done|f_equal; lia].
  - subst esc. simpl. rewrite IH. f_equal; lia.
  - rewrite Eq, andb_false_r, Ascii.eqb_refl, IH. f_equal; lia.
  - assert ((esc && (c =b c_bslash))%bool = false) as ->.
    { destruct esc; [|done]. simpl. apply Ascii.eqb_neq. naive_solver. }
    assert ((c =b q) = false) as -> by by apply Ascii.eqb_neq. rewrite IH. f_equal; lia.
Qed.

Lemma quoted_loop_bounds esc q l i e :
  quoted_loop esc q l i = Some e -> i < e <= i + length l.
Proof.
  intros (body & rest & -> & _ & -> & _)%quoted_loop_sound.
  rewrite length_app. simpl. lia.
Qed.

Lemma quoted_loop_shift esc q pre s i :
  quoted_loop esc q (drop (length pre + i) (pre ++ s)) (length pre + i)
  = Nat.add (length pre) <$> quoted_loop esc q (drop i s) i.
Proof. rewrite drop_app_add. apply quoted_loop_add. Qed.

Lemma quoted_loop_drop_bounds esc q s i e :
  i <= length s -> quoted_loop esc q (drop i s) i = Some e -> i < e <= length s.
Proof. intros Hi He%quoted_loop_bounds. rewrite length_drop in He. lia. Qed.

(** ** Block comments *)

Lemma block_comment_loop_add l i k :
  block_comment_loop l (k + i) = Nat.add k <$> block_comment_loop l i.
Proof.
  revert i. induction l as [|c l IH]; intros i; simpl; [done|].
  destruct l as [|d l]; [done|]. destruct (_ && _)%bool; [simpl; f_equal; lia|].
  replace (k + i + 1) with (k + (i + 1)) by lia. apply IH.
Qed.

Lemma block_comment_loop_shift pre s i :
  block_comment_loop (drop (length pre + i) (pre ++ s)) (length pre + i)
  = Nat.add (length pre) <$> block_comment_loop (drop i s) i.
Proof. rewrite drop_app_add. apply block_comment_loop_add. Qed.

Lemma block_comment_loop_bounds l i e :
  block_comment_loop l i = Some e -> i + 2 <= e <= i + length l.
Proof.
  revert i. induction l as [|c l IH]; intros i; simpl; [done|].
  destruct l as [|d l]; [done|]. destruct (_ && _)%bool.
  - intros [= <-]. simpl. lia.
  - intros H%IH. simpl in *. lia.
Qed.

Lemma block_comment_loop_drop_bounds s i e :
  block_comment_loop (drop i s) i = Some e -> i < e <= length s.
Proof.
  intros He%block_comment_loop_bounds. rewrite length_drop in He. lia.
Qed.

(** ** Numbers *)

Lemma number_end_bounds src pos : pos <= length src -> pos <= number_end src pos <= length src.
Proof.
  intros Hp. unfold number_end. set (i := scan _ src pos).
  assert (pos <= i <= length src) as Hi by by apply scan_bounds.
  destruct (at_sat is_exp src i); [|done].
  set (j := if at_sat is_sign src (i + 1) then i + 2 else i + 1).
  destruct (at_sat isDigit src j) eqn:Ej; [|done].
  apply at_sat_lt in Ej. pose proof (scan_bounds isDigit src j ltac:(lia)).
  assert (i <= j) by (unfold j; destruct (at_sat is_sign src (i + 1)); lia). lia.
Qed.

Lemma number_end_shift pre s i :
  number_end (pre ++ s) (length pre + i) = length pre + number_end s i.
Proof.
  unfold number_end. rewrite scan_shift. set (k := scan _ s i).
  rewrite at_sat_shift. destruct (at_sat is_exp s k); [|done].
  replace (length pre + k + 1) with (length pre + (k + 1)) by lia.
  replace (length pre + k + 2) with (length pre + (k + 2)) by lia.
  rewrite at_sat_shift. destruct (at_sat is_sign s (k + 1));
    rewrite at_sat_shift, scan_shift; by destruct (at_sat _ _ _).
Qed.

(** ** The token loop *)

(** What a complete run of the loop is: the tokens from [pos] to the end of
    the input, or to the first lexical error. *)
Inductive Lexes `{LexerProfile} (src : bytes) : nat -> list Token -> option LexError -> Prop :=
  | Lexes_eof pos : length src <= pos -> Lexes src pos [] None
  | Lexes_err pos e : NextToken src pos = Err e -> Lexes src pos [] (Some e)
  | Lexes_tok pos t ts e :
      pos < length src -> NextToken src pos = Ok t -> wf_token src pos t ->
      Lexes src (End t) ts e -> Lexes src pos (t :: ts) e.

Section token_loop.
Context {profile : LexerProfile} {Laws : LexerLaws profile}.

Lemma lex_stream_Lexes fuel src pos :
  length src < fuel + pos ->
  Lexes src pos (lex_stream fuel src pos).1 (lex_stream fuel src pos).2.
Proof.
  revert pos. induction fuel as [|f IH]; intros pos Hf; simpl; [by constructor; lia|].
  destruct (decide (length src <= pos)) as [Hle|Hlt].
  { rewrite lex_eof by done. simpl. by constructor. }
  destruct (NextToken src pos) as [t|e] eqn:Et; [|by constructor].
  assert (wf_token src pos t) as Hwf by (apply lex_ok; [lia|done]).
  rewrite decide_False by apply Hwf.
  specialize (IH (End t) ltac:(destruct Hwf; lia)).
  destruct (lex_stream f src (End t)) as [ts e]. simpl in *.
  apply Lexes_tok; [lia|done..].
Qed.

Lemma tokens_Lexes src : Lexes src 0 (tokens src).1 (tokens src).2.
Proof. apply lex_stream_Lexes. lia. Qed.

Lemma Lexes_det src pos ts e ts' e' :
  Lexes src pos ts e -> Lexes src pos ts' e' -> ts = ts' /\ e = e'.
Proof.
  intros H. revert ts' e'. induction H as [pos Hp|pos e Hn|pos t ts e Hp Hn Hwf _ IH];
    intros ts' e' H'; inversion H' as [|? ? Hn'|? t' ? ? ? Hn' ? Hr]; subst; try lia;
    simplify_eq; try done.
  all: try match goal with
       | He : NextToken _ _ = Err _ |- _ => pose proof (lex_err _ _ _ He); lia
       end.
  all: try (split; congruence).
  assert (t' = t) as -> by congruence. by edestruct IH as [-> ->].
Qed.

(** The tokens of a complete run tile the input. *)
Lemma Lexes_lossless src pos ts :
  pos <= length src -> Lexes src pos ts None ->
  concat (Text <$> ts) = drop pos src.
Proof.
  intros Hp H. remember None as e eqn:He. induction H as [pos Hl| |pos t ts e Hl Hn Hwf _ IH].
  - rewrite drop_ge by lia. done.
  - done.
  - change (Text t ++ concat (Text <$> ts) = drop pos src).
    rewrite IH by (try done; apply Hwf). rewrite (tok_text _ _ _ Hwf).
    pose proof (tok_progress _ _ _ Hwf). unfold slice.
    rewrite <- (take_drop (End t - pos) (drop pos src)) at 2. rewrite drop_drop.
    do 2 f_equal. lia.
Qed.

Lemma Lexes_wf src pos ts e t :
  Lexes src pos ts e -> t ∈ ts -> exists p, pos <= p /\ p < length src /\ wf_token src p t.
Proof.
  intros H. induction H as [|?|pos u ts e Hl Hn Hwf _ IH]; [set_solver..|].
  intros [->|Hin]%elem_of_cons; [by exists pos|].
  destruct (IH Hin) as (p & ? & ? & ?). exists p. pose proof (tok_progress _ _ _ Hwf).
  split; [lia|done].
Qed.

Lemma Lexes_shift pre src pos ts e :
  Lexes src pos ts e ->
  Lexes (pre ++ src) (length pre + pos) (shift_token (length pre) <$> ts)
    ((fun e => mkLexError (length pre + Pos e) (Msg e)) <$> e).
Proof.
  induction 1 as [pos Hp|pos e Hn|pos t ts e Hp Hn Hwf _ IH]; simpl.
  - constructor. rewrite length_app. lia.
  - constructor. by rewrite lex_shift, Hn.
  - assert (NextToken (pre ++ src) (length pre + pos) = Ok (shift_token (length pre) t)) as Hn'
      by by rewrite lex_shift, Hn.
    apply Lexes_tok; [rewrite length_app; lia|done| |done].
    apply lex_ok; [rewrite length_app; lia|done].
Qed.
End token_loop.

#[export] Hint Resolve tok_kind tok_start tok_progress tok_bound tok_text : sqletch.
#[export] Hint Rewrite @number_end_shift @quoted_loop_shift @block_comment_loop_shift : shift.

(** ** Building tokens: the [mk] closure of the three lexers *)

Definition mk (src : bytes) (pos : nat) (kind : TokenKind) (e : nat) : result LexError Token :=
  Ok (mkToken kind pos e (slice src pos e)).

Definition lex_fail (pos : nat) (msg : bytes) : result LexError Token :=
  Err (mkLexError pos msg).

Lemma mk_wf src pos kind e t :
  mk src pos kind e = Ok t -> kind <> KindEOF -> kind <> KindParamRef ->
  pos < e <= length src -> wf_token src pos t.
Proof. intros [= <-] ???. split; simpl; try done; lia. Qed.

Lemma mk_wf_param src pos e t :
  mk src pos KindParamRef e = Ok t -> src !! pos = Some ":"%char ->
  pos + 1 < e <= length src -> wf_token src pos t.
Proof.
  intros [= <-] Hc He. split; simpl; try done; try lia. intros _.
  exists (slice src (pos + 1) e). rewrite <- (slice_app src pos (pos + 1) e) by lia. split.
  - unfold slice at 1. rewrite (drop_S src ":"%char pos) by done.
    by replace (pos + 1 - pos) with 1 by lia.
  - intros Hn. apply (f_equal (@length ascii)) in Hn. rewrite slice_length in Hn by lia. simpl in Hn. lia.
Qed.

Lemma mk_shift pre src pos kind e :
  mk (pre ++ src) (length pre + pos) kind (length pre + e)
  = shift_lex (length pre) (mk src pos kind e).
Proof. unfold mk. simpl. unfold shift_token. simpl. by rewrite slice_shift. Qed.

Lemma lex_fail_shift (pre : bytes) pos msg :
  lex_fail (length pre + pos) msg = shift_lex (length pre) (lex_fail pos msg).
Proof. done. Qed.

Lemma shift_lex_if (b : bool) n x y :
  (if b then shift_lex n x else shift_lex n y) = shift_lex n (if b then x else y).
Proof. by destruct b. Qed.

Lemma isDigit_scan src pos : at_sat isDigit src pos = true -> pos < scan isDigit src pos.
Proof.
  unfold at_sat. destruct (src !! pos) as [c|] eqn:E; [|done]. intros Hc. by eapply scan_step.
Qed.

(** A number token is at least one byte long. *)
Lemma number_end_progress src pos c :
  src !! pos = Some c -> (isDigit c || (c =b "."))%char%bool = true -> pos < number_end src pos.
Proof.
  intros Hc Hp. unfold number_end. set (i := scan _ src pos).
  assert (pos < i) as Hi by by eapply scan_step.
  destruct (at_sat is_exp src i); [|done].
  set (j := if at_sat is_sign src (i + 1) then i + 2 else i + 1).
  destruct (at_sat isDigit src j) eqn:Ej; [|done].
  pose proof (isDigit_scan _ _ Ej).
  assert (i <= j) by (unfold j; destruct (at_sat is_sign src (i + 1)); lia). lia.
Qed.

Lemma scan_at_sat p src i : at_sat p src i = true -> i < scan p src i.
Proof.
  unfold at_sat. destruct (src !! i) as [c|] eqn:E; [|done]. intros Hc. by eapply scan_step.
Qed.

(** [lexQuoted] of the dialects: the loop with its error, reported at the
    opening quote. *)
Definition quoted_end (esc : bool) (src : bytes) (i : nat) (q : ascii) : result LexError nat :=
  match quoted_loop esc q (drop i src) i with
  | Some e => Ok e
  | None => Err (mkLexError (i - 1) (bs "unterminated quoted token"))
  end.

Lemma quoted_end_ok esc src i q e :
  quoted_end esc src i q = Ok e <-> quoted_loop esc q (drop i src) i = Some e.
Proof. unfold quoted_end. destruct (quoted_loop _ _ _ _); naive_solver. Qed.

Lemma quoted_end_bounds esc src i q e :
  i <= length src -> quoted_end esc src i q = Ok e -> i < e <= length src.
Proof. intros Hi He%quoted_end_ok. by eapply quoted_loop_drop_bounds. Qed.

Lemma quoted_end_err esc src i q e : quoted_end esc src i q = Err e -> Pos e = i - 1.
Proof. unfold quoted_end. destruct (quoted_loop _ _ _ _); [done|]. by intros [= <-]. Qed.

Definition shift_off (n : nat) (r : result LexError nat) : result LexError nat :=
  match r with
  | Ok e => Ok (n + e)
  | Err e => Err (mkLexError (n + Pos e) (Msg e))
  end.

Lemma quoted_end_shift esc pre src i q :
  0 < i ->
  quoted_end esc (pre ++ src) (length pre + i) q
  = shift_off (length pre) (quoted_end esc src i q).
Proof.
  intros Hi. unfold quoted_end. rewrite quoted_loop_shift.
  destruct (quoted_loop _ _ _ _); simpl; [done|]. do 2 f_equal. lia.
Qed.

Lemma shift_off_mk pre src pos kind r :
  (let! e := shift_off (length pre) r in mk (pre ++ src) (length pre + pos) kind e)
  = shift_lex (length pre) (let! e := r in mk src pos kind e).
Proof. destruct r; simpl; [apply mk_shift|done]. Qed.

Lemma number_end_ok src pos c :
  pos < length src -> src !! pos = Some c ->
  (isDigit c || ((c =b ".") && at_sat isDigit src (pos + 1)))%char%bool = true ->
  pos < number_end src pos <= length src.
Proof.
  intros Hp Hc Hn. pose proof (number_end_bounds src pos ltac:(lia)).
  enough (pos < number_end src pos) by lia. apply (number_end_progress src pos c Hc).
  destruct (isDigit c); [done|]. simpl in *. by destruct (c =b ".")%char.
Qed.

(** Facts about the offsets a lexer computes, for [lia]. *)
Ltac lex_facts :=
  repeat match goal with
  | H : (_ && _)%bool = true |- _ => apply andb_prop in H as [? ?]
  | H : at_is ?s ?i ?c = true |- _ =>
      lazymatch goal with
      | _ : i < length s |- _ => fail
      | _ => pose proof (at_is_lt _ _ _ H)
      end
  | H : at_sat ?p ?s ?i = true |- _ =>
      lazymatch goal with
      | _ : i < length s |- _ => fail
      | _ => pose proof (at_sat_lt _ _ _ H)
      end
  | H : ?s !! ?i = Some _ |- _ =>
      lazymatch goal with
      | _ : i < length s |- _ => fail
      | _ => pose proof (lookup_lt_Some _ _ _ H)
      end
  | |- context [scan ?p ?s ?i] =>
      lazymatch goal with
      | _ : i <= scan p s i <= length s |- _ => fail
      | _ => pose proof (scan_bounds p s i ltac:(lia))
      end
  | H : quoted_loop ?e ?q (drop ?i ?s) ?i = Some ?k |- _ =>
      lazymatch goal with
      | _ : i < k <= length s |- _ => fail
      | _ => pose proof (quoted_loop_drop_bounds e q s i k ltac:(lia) H)
      end
  | H : block_comment_loop (drop ?i ?s) ?i = Some ?k |- _ =>
      lazymatch goal with
      | _ : i < k <= length s |- _ => fail
      | _ => pose proof (block_comment_loop_drop_bounds s i k H)
      end
  end.

(** Case analysis of a lexer's body, for a token ([lex_cases]) and for an
    error ([lex_err_cases]). *)
Ltac lex_char :=
  match goal with
  | H : (?c =b ?d) = true, Hc : ?s !! ?i = Some ?c |- ?s !! ?i = Some ?d =>
      apply Ascii.eqb_eq in H; congruence
  end.

Ltac lex_cases :=
  let c := fresh "c" in let Hc := fresh "Hc" in
  match goal with |- context [?src !! ?pos] => destruct (src !! pos) as [c|] eqn:Hc end;
  [|exfalso; apply lookup_ge_None in Hc; lia];
  repeat match goal with
  | |- (if ?b then _ else _) = Ok _ -> _ => destruct b eqn:?
  | |- match ?x with _ => _ end = Ok _ -> _ => destruct x eqn:?
  | |- rbind _ _ = Ok _ -> _ => intros (? & ? & ?)%rbind_ok
  end; try done; intros; simplify_eq.

Ltac lex_err_cases :=
  let c := fresh "c" in let Hc := fresh "Hc" in
  unfold lex_fail, mk;
  match goal with |- context [?src !! ?pos] => destruct (src !! pos) as [c|] eqn:Hc end;
  [|done]; apply lookup_lt_Some in Hc;
  repeat match goal with
  | |- (if ?b then _ else _) = Err _ -> _ => destruct b eqn:?
  | |- match ?x with _ => _ end = Err _ -> _ => destruct x eqn:?
  | |- rbind ?m _ = Err _ -> _ => destruct m eqn:?; simpl
  end; intros; simplify_eq; simpl; try lia;
  lex_facts;
  repeat match goal with
  | H : quoted_end _ _ _ _ = Err _ |- _ => apply quoted_end_err in H
  end; try lia.

(** Discharge [pos < e <= length src] for the ends a lexer computes. *)
Ltac lex_end :=
  repeat match goal with
  | H : quoted_end ?e ?s ?i ?q = Ok _ |- _ => apply quoted_end_bounds in H; [|lia]
  | H : ?s !! ?i = Some ?c, Hp : ?p ?c = true |- context [scan ?p ?s ?i] =>
      lazymatch goal with
      | _ : i < scan p s i |- _ => fail
      | _ => pose proof (scan_step p s i c H Hp)
      end
  | H : at_sat ?p ?s ?i = true |- context [scan ?p ?s ?i] =>
      lazymatch goal with
      | _ : i < scan p s i |- _ => fail
      | _ => pose proof (scan_at_sat p s i H)
      end
  end; try lia.
