(* ===== verification/Postgres.v ===== *)
(** * Postgres

    [internal/dialect/postgres/lexer.go]: the PostgreSQL lexer profile, with
    the proof that it satisfies the profile laws. *)

From S2P Require Import Prelude Dialect.

Definition isSpace (c : ascii) : bool :=
  ((c =b " ") || (c =b c_tab) || (c =b c_lf) || (c =b c_cr) || (c =b c_ff) || (c =b c_vt))%char%bool.

Definition isIdentStart (c : ascii) : bool :=
  ((c =b "_") || is_letter c || is_high c)%char%bool.

Definition isIdentCont (c : ascii) : bool :=
  (isIdentStart c || isDigit c || (c =b "$"))%char%bool.

Definition isOpChar (c : ascii) : bool :=
  existsb (Ascii.eqb c) (bs "+-*/<>=~!@#%^&|`?").

(** [non_newline]: a line comment ends at LF or CR. *)
Definition in_line_comment (c : ascii) : bool := negb ((c =b c_lf) || (c =b c_cr))%bool.

(** Nested block comments: the loop [for i < len(src) && depth > 0], [l] being
    [src[i:]]; [None] is the unterminated comment. *)
Fixpoint nested_comment_loop (depth : nat) (l : bytes) (i : nat) : option nat :=
  match depth with
  | O => Some i
  | S d =>
      match l with
      | [] => None
      | c :: l1 =>
          match l1 with
          | c' :: l2 =>
              if ((c =b "/") && (c' =b "*"))%char%bool then nested_comment_loop (S depth) l2 (i + 2)
              else if ((c =b "*") && (c' =b "/"))%char%bool then nested_comment_loop d l2 (i + 2)
              else nested_comment_loop depth l1 (i + 1)
          | [] => nested_comment_loop depth l1 (i + 1)
          end
      end
  end.

Definition lexQuoted (src : bytes) (i : nat) (q : ascii) (backslashEsc : bool)
    : result LexError nat := quoted_end backslashEsc src i q.

(** The continuation loop of [lexEString]; each round consumes a byte, so
    [length src] rounds reach the end ([lexEString_loop_fuel]). *)
Fixpoint lexEString_loop (fuel : nat) (src : bytes) (e : nat) : result LexError nat :=
  match fuel with
  | O => Ok e
  | S f =>
      let j := scan isSpace src e in
      let newline := existsb (fun c => (c =b c_lf) || (c =b c_cr))%bool (slice src e j) in
      if (negb newline || negb (at_is src j "'"))%char%bool then Ok e
      else let! e' := lexQuoted src (j + 1) "'"%char true in lexEString_loop f src e'
  end.

Definition lexEString (src : bytes) (pos : nat) : result LexError nat :=
  let! e := lexQuoted src (pos + 2) "'"%char true in
  lexEString_loop (length src) src e.

Definition isDolqStart (c : ascii) : bool := ((c =b "_") || is_letter c || is_high c)%char%bool.
Definition isDolqCont (c : ascii) : bool := (isDolqStart c || isDigit c)%bool.

(** [None]: not a dollar quote ([ok = false]); [Some None]: an unterminated
    one ([end < 0]). *)
Definition lexDollarQuote (src : bytes) (pos : nat) : option (option nat) :=
  let i := if at_sat isDolqStart src (pos + 1) then scan isDolqCont src (pos + 2) else pos + 1 in
  if negb (at_is src i "$"%char) then None
  else
    let tag := slice src pos (i + 1) in
    match bytes_index tag (drop (i + 1) src) with
    | Some j => Some (Some (i + 1 + j + length tag))
    | None => Some None
    end.

(** The condition of the operator loop at the suffix [l]: an operator
    character that does not open a comment. *)
Definition op_cont (l : bytes) : bool :=
  match l with
  | c :: l1 =>
      (isOpChar c &&
       negb (((c =b "-") && hd_sat (fun d => d =b "-") l1) ||
             ((c =b "/") && hd_sat (fun d => d =b "*") l1)))%char%bool
  | [] => false
  end.

Definition next_token (src : bytes) (pos : nat) : result LexError Token :=
  match src !! pos with
  | None => Ok (mkToken KindEOF pos pos [])
  | Some c =>
    if isSpace c then mk src pos KindWhitespace (scan isSpace src pos)
    else if ((c =b "-") && at_is src (pos + 1) "-")%char%bool then
      mk src pos KindLineComment (scan in_line_comment src (pos + 2))
    else if ((c =b "/") && at_is src (pos + 1) "*")%char%bool then
      match nested_comment_loop 1 (drop (pos + 2) src) (pos + 2) with
      | None => lex_fail pos (bs "unterminated block comment")
      | Some i => mk src pos KindBlockComment i
      end
    else if (c =b "'")%char then
      let! e := lexQuoted src (pos + 1) "'"%char false in mk src pos KindString e
    else if (((c =b "e") || (c =b "E")) && at_is src (pos + 1) "'")%char%bool then
      let! e := lexEString src pos in mk src pos KindString e
    else if c =b c_dquote then
      let! e := lexQuoted src (pos + 1) c_dquote false in mk src pos KindQuotedIdent e
    else if (c =b "$")%char then
      match lexDollarQuote src pos with
      | Some None => lex_fail pos (bs "unterminated dollar-quoted string")
      | Some (Some e) => mk src pos KindString e
      | None =>
          if at_sat isDigit src (pos + 1) then
            mk src pos KindPositionalParam (scan isDigit src (pos + 1))
          else mk src pos KindOther (pos + 1)
      end
    else if (c =b ":")%char then
      if at_is src (pos + 1) ":"%char then mk src pos KindCast (pos + 2)
      else if at_sat isIdentStart src (pos + 1) then
        mk src pos KindParamRef
          (scan (fun d => isIdentCont d && negb (d =b "$"))%char%bool src (pos + 1))
      else mk src pos KindOther (pos + 1)
    else if (c =b "(")%char then mk src pos KindLParen (pos + 1)
    else if (c =b ")")%char then mk src pos KindRParen (pos + 1)
    else if (c =b ",")%char then mk src pos KindComma (pos + 1)
    else if (c =b ";")%char then mk src pos KindSemicolon (pos + 1)
    else if isIdentStart c then mk src pos KindIdent (scan isIdentCont src pos)
    else if (isDigit c || ((c =b ".") && at_sat isDigit src (pos + 1)))%char%bool then
      mk src pos KindNumber (number_end src pos)
    else if isOpChar c then
      let i := scan_suffix op_cont (drop pos src) pos in
      mk src pos KindOperator (if decide (i = pos) then pos + 1 else i)
    else mk src pos KindOther (pos + 1)
  end.

Definition Profile : LexerProfile := {|
  NextToken := next_token;
  Placeholders := Some PlaceholderDollar;
  InEmpty := None;
  CaseInsensitiveIdents := None;
  PipesOr := None;
|}.

(** * Lemmas *)

Lemma nested_comment_loop_cons d c c' l i :
  nested_comment_loop (S d) (c :: c' :: l) i =
    if ((c =b "/") && (c' =b "*"))%char%bool then nested_comment_loop (S (S d)) l (i + 2)
    else if ((c =b "*") && (c' =b "/"))%char%bool then nested_comment_loop d l (i + 2)
    else nested_comment_loop (S d) (c' :: l) (i + 1).
Proof. reflexivity. Qed.

Lemma nested_comment_loop_bounds d l i e :
  nested_comment_loop d l i = Some e -> i <= e <= i + length l.
Proof.
  revert d i. induction l as [|c|c c' l IH1 IH2] using list_ind2; intros d i.
  - destruct d; [|done]. intros [= <-]. simpl. lia.
  - destruct d as [|d]; [intros [= <-]; simpl; lia|]. simpl. done.
  - destruct d as [|d]; [intros [= <-]; simpl; lia|].
    rewrite (nested_comment_loop_cons _ c).
    destruct (_ && _)%bool; [intros H%IH2; simpl; lia|].
    destruct (_ && _)%bool; [intros H%IH2; simpl; lia|].
    intros H%IH1. simpl in *. lia.
Qed.

Lemma nested_comment_loop_add d l i k :
  nested_comment_loop d l (k + i) = Nat.add k <$> nested_comment_loop d l i.
Proof.
  revert d i. induction l as [|c|c c' l IH1 IH2] using list_ind2; intros d i;
    (destruct d as [|d]; [done|]); [done..|].
  rewrite !(nested_comment_loop_cons _ c).
  assert (k + i + 1 = k + (i + 1) /\ k + i + 2 = k + (i + 2)) as [E1 E2] by lia.
  rewrite E1, E2.
  destruct (_ && _)%bool; [apply IH2|]. destruct (_ && _)%bool; [apply IH2|apply IH1].
Qed.

Lemma lexEString_loop_bounds fuel src e e' :
  e <= length src -> lexEString_loop fuel src e = Ok e' -> e <= e' <= length src.
Proof.
  revert e. induction fuel as [|f IH]; intros e He; cbn [lexEString_loop].
  { intros [= <-]. lia. }
  pose proof (scan_bounds isSpace src e He) as Hj.
  destruct (_ || _)%bool eqn:Eb; [intros [= <-]; lia|].
  apply orb_false_elim in Eb as [_ Eb]. apply negb_false_iff, at_is_lt in Eb.
  intros (k & Hk & Hl)%rbind_ok. apply quoted_end_bounds in Hk; [|lia].
  apply IH in Hl; lia.
Qed.

(** The number of continuation rounds is not bounded by the fuel. *)
Lemma lexEString_loop_fuel f1 f2 src e :
  e <= length src -> length src - e <= f1 -> length src - e <= f2 ->
  lexEString_loop f1 src e = lexEString_loop f2 src e.
Proof.
  revert f2 e. induction f1 as [|f1 IH]; intros f2 e He H1 H2.
  - assert (e = length src) as -> by lia. destruct f2 as [|f2]; [done|].
    cbn [lexEString_loop]. unfold scan. rewrite drop_ge by lia. simpl.
    by rewrite slice_nil.
  - destruct f2 as [|f2].
    { assert (e = length src) as -> by lia. cbn [lexEString_loop].
      unfold scan. rewrite drop_ge by lia. simpl. by rewrite slice_nil. }
    cbn [lexEString_loop]. pose proof (scan_bounds isSpace src e He) as Hj.
    destruct (_ || _)%bool eqn:Eb; [done|].
    apply orb_false_elim in Eb as [_ Eb]. apply negb_false_iff, at_is_lt in Eb.
    destruct (lexQuoted src _ _ _) as [k|] eqn:Ek; [|done].
    apply quoted_end_bounds in Ek; [|lia]. simpl. apply IH; lia.
Qed.

Lemma lexEString_loop_shift fuel pre src e :
  lexEString_loop fuel (pre ++ src) (length pre + e)
  = shift_off (length pre) (lexEString_loop fuel src e).
Proof.
  revert e. induction fuel as [|f IH]; intros e; cbn [lexEString_loop]; [done|].
  rewrite scan_shift, slice_shift, at_is_shift.
  destruct (_ || _)%bool; [done|].
  replace (length pre + scan isSpace src e + 1) with (length pre + (scan isSpace src e + 1)) by lia.
  unfold lexQuoted; rewrite quoted_end_shift by lia.
  destruct (quoted_end true src _ _); simpl; [apply IH|done].
Qed.

Lemma lexEString_bounds src pos e :
  pos + 1 < length src -> lexEString src pos = Ok e -> pos + 2 < e <= length src.
Proof.
  intros Hp (k & Hk & Hl)%rbind_ok. apply quoted_end_bounds in Hk; [|lia].
  apply lexEString_loop_bounds in Hl; lia.
Qed.

Lemma lexEString_shift pre src pos :
  pos <= length src ->
  lexEString (pre ++ src) (length pre + pos) = shift_off (length pre) (lexEString src pos).
Proof.
  intros Hp. unfold lexEString.
  replace (length pre + pos + 2) with (length pre + (pos + 2)) by lia.
  unfold lexQuoted; rewrite quoted_end_shift by lia.
  destruct (quoted_end true src (pos + 2) _) as [k|] eqn:Ek; simpl; [|done].
  assert (k <= length src) as Hk.
  { apply quoted_end_ok in Ek. apply quoted_loop_bounds in Ek. rewrite length_drop in Ek.
    destruct (decide (pos + 2 <= length src)); [lia|].
    lia. }
  rewrite lexEString_loop_shift. f_equal.
  apply lexEString_loop_fuel; rewrite ?length_app; lia.
Qed.

(** ** Dollar quotes *)

Lemma bytes_index_bounds sub s j : bytes_index sub s = Some j -> j + length sub <= length s.
Proof.
  revert j. induction s as [|c s IH]; intros j; cbn [bytes_index].
  - case_decide as Hs; [|done]. intros [= <-]. rewrite Hs at 1. rewrite length_take. simpl. lia.
  - case_decide as Hs.
    + intros [= <-]. rewrite Hs at 1. rewrite length_take. lia.
    + intros (k & Hk & ->)%fmap_Some. apply IH in Hk. simpl. lia.
Qed.

Lemma lexDollarQuote_bounds src pos e :
  pos < length src -> lexDollarQuote src pos = Some (Some e) -> pos < e <= length src.
Proof.
  intros Hp. unfold lexDollarQuote.
  set (i := if at_sat isDolqStart src (pos + 1) then _ else _).
  destruct (at_is src i "$"%char) eqn:Ei; [|done]. simpl.
  assert (pos < i) as Hi.
  { unfold i. destruct (at_sat isDolqStart src (pos + 1)) eqn:Es; [|lia].
    apply at_sat_lt in Es. pose proof (scan_bounds isDolqCont src (pos + 2) ltac:(lia)). lia. }
  apply at_is_lt in Ei.
  destruct (bytes_index _ _) as [j|] eqn:Ej; [|done]. intros [= <-].
  apply bytes_index_bounds in Ej. rewrite length_drop in Ej.
  rewrite slice_length in * by lia. lia.
Qed.

Lemma lexDollarQuote_shift pre src pos :
  lexDollarQuote (pre ++ src) (length pre + pos)
  = fmap (M:=option) (fmap (M:=option) (Nat.add (length pre))) (lexDollarQuote src pos).
Proof.
  unfold lexDollarQuote.
  replace (length pre + pos + 1) with (length pre + (pos + 1)) by lia.
  replace (length pre + pos + 2) with (length pre + (pos + 2)) by lia.
  rewrite at_sat_shift, scan_shift.
  set (i := if at_sat isDolqStart src (pos + 1) then scan isDolqCont src (pos + 2) else pos + 1).
  replace (if at_sat isDolqStart src (pos + 1) then _ else _) with (length pre + i)
    by (unfold i; by destruct (at_sat _ _ _)).
  rewrite at_is_shift. destruct (at_is src i "$"%char); [|done]. simpl.
  replace (length pre + i + 1) with (length pre + (i + 1)) by lia.
  rewrite slice_shift, drop_app_add.
  destruct (bytes_index _ _); simpl; [|done]. do 2 f_equal. lia.
Qed.

(** ** The laws *)

(** The ends specific to this lexer. *)
Ltac pg_end :=
  repeat match goal with
  | H : lexEString ?s ?p = Ok _ |- _ => apply lexEString_bounds in H; [|lia]
  | H : lexDollarQuote ?s ?p = Some (Some _) |- _ => apply lexDollarQuote_bounds in H; [|lia]
  | H : nested_comment_loop _ (drop ?i ?s) ?i = Some ?e |- _ =>
      apply nested_comment_loop_bounds in H; rewrite length_drop in H
  end.

Lemma pg_param_end_progress src pos :
  at_sat isIdentStart src pos = true ->
  pos < scan (fun d => isIdentCont d && negb (d =b "$"))%char%bool src pos.
Proof.
  intros H. apply scan_at_sat. revert H. unfold at_sat. destruct (src !! pos) as [c|]; [|done].
  unfold isIdentCont, isIdentStart. intros Hc. rewrite Hc. simpl.
  destruct (Ascii.eqb_spec c "$") as [->|]; [by vm_compute in Hc|done].
Qed.

Lemma pg_op_end_bounds src pos :
  pos < length src ->
  let i := scan_suffix op_cont (drop pos src) pos in
  pos < (if decide (i = pos) then pos + 1 else i) <= length src.
Proof.
  intros Hp i. pose proof (scan_suffix_drop_bounds op_cont src pos ltac:(lia)) as Hb.
  fold i in Hb. case_decide; lia.
Qed.

Lemma pg_next_token_ok src pos t :
  pos < length src -> next_token src pos = Ok t -> wf_token src pos t.
Proof.
  intros Hp. unfold next_token, lexQuoted. lex_cases.
  all: try by (eapply mk_wf; [done..|lex_facts; pg_end; lex_end]).
  - eapply mk_wf_param; [done|by lex_char|].
    pose proof (pg_param_end_progress src (pos + 1) ltac:(done)). lex_facts. lia.
  - eapply mk_wf; [done..|].
    assert (isIdentCont c = true) as Hs by (unfold isIdentCont; by destruct (isIdentStart c)).
    lex_facts. lex_end.
  - eapply mk_wf; [done..|]. by eapply number_end_ok.
  - eapply mk_wf; [done..|]. by apply pg_op_end_bounds.
Qed.

Lemma pg_next_token_shift pre src pos :
  next_token (pre ++ src) (length pre + pos) = shift_lex (length pre) (next_token src pos).
Proof.
  unfold next_token, lexQuoted. rewrite lookup_shift.
  destruct (src !! pos) as [c|] eqn:Hc; [|done].
  apply lookup_lt_Some in Hc.
  rewrite <- !Nat.add_assoc. autorewrite with shift.
  rewrite !quoted_end_shift, lexEString_shift, lexDollarQuote_shift by lia.
  rewrite drop_app_add, nested_comment_loop_add.
  repeat match goal with |- (if ?b then _ else _) = _ => destruct b end;
    rewrite ?shift_off_mk; try apply mk_shift; try done.
  - destruct (nested_comment_loop _ _ _); simpl; [apply mk_shift|done].
  - destruct (lexDollarQuote src pos) as [[e|]|]; simpl; [apply mk_shift|done|].
    destruct (at_sat isDigit src (pos + 1)); apply mk_shift.
  - rewrite <- mk_shift. f_equal. do 2 case_decide; lia.
Qed.

Lemma lexEString_loop_err fuel src k e :
  k <= length src -> lexEString_loop fuel src k = Err e -> k <= Pos e < length src.
Proof.
  revert k. induction fuel as [|f IH]; intros k Hk; cbn [lexEString_loop]; [done|].
  pose proof (scan_bounds isSpace src k Hk) as Hj.
  destruct (_ || _)%bool eqn:Eb; [done|].
  apply orb_false_elim in Eb as [_ Eb]. apply negb_false_iff, at_is_lt in Eb.
  destruct (lexQuoted src _ _ _) as [m|e'] eqn:Em; simpl.
  - apply quoted_end_bounds in Em; [|lia]. intros H%IH; lia.
  - intros [= ->]. apply quoted_end_err in Em. lia.
Qed.

Lemma lexEString_err src pos e :
  pos + 1 < length src -> lexEString src pos = Err e -> pos <= Pos e < length src.
Proof.
  intros Hp. unfold lexEString.
  destruct (lexQuoted src _ _ _) as [m|e'] eqn:Em; simpl.
  - apply quoted_end_bounds in Em; [|lia]. intros H%lexEString_loop_err; lia.
  - intros [= ->]. apply quoted_end_err in Em. lia.
Qed.

Lemma pg_next_token_err src pos e : next_token src pos = Err e -> pos <= Pos e < length src.
Proof.
  unfold next_token, lexQuoted. lex_err_cases.
  all: repeat match goal with
    | H : lexEString _ _ = Err _ |- _ => apply lexEString_err in H; [|lia]
    end; lia.
Qed.

#[export] Instance Profile_laws : LexerLaws Profile.
Proof.
  split.
  - intros src pos Hp. simpl. unfold next_token. by rewrite lookup_ge_None_2.
  - exact pg_next_token_ok.
  - exact pg_next_token_err.
  - exact pg_next_token_shift.
  - done.
Qed.
