(* ===== verification/MySQL.v ===== *)
(** * MySQL

    [internal/dialect/mysql/lexer.go]: the MySQL lexer profile and the proof
    that it satisfies the profile laws. *)

From S2P Require Import Prelude Dialect.

(** [InEmptySQL] *)
Definition InEmptySQL : bytes := bs "IN (SELECT NULL FROM DUAL WHERE FALSE)".

Definition isSpace (c : ascii) : bool :=
  ((c =b " ") || (c =b c_tab) || (c =b c_lf) || (c =b c_cr))%char%bool.

(** The bytes after [--] on which the server and TiDB both open a comment. *)
Definition dashDashOpens (c : ascii) : bool :=
  ((c =b " ") || (c_tab <=b c) && (c <=b c_cr))%char%bool.

(** The bytes after [--] on which they disagree. *)
Definition dashDashDisputed (c : ascii) : bool :=
  (N.ltb (N_of_ascii c) 32 && negb (dashDashOpens c) ||
   (c =b "127") || (c =b "133") || (c =b "160"))%char%bool.

Definition lineCommentEnd (src : bytes) (i : nat) : nat :=
  scan (fun c => negb (c =b c_lf)) src i.

Definition isIdentStart (c : ascii) : bool :=
  ((c =b "_") || (c =b "$") || is_letter c || is_high c)%char%bool.

Definition isIdentCont (c : ascii) : bool := (isIdentStart c || isDigit c)%bool.

Definition isOpChar (c : ascii) : bool :=
  existsb (Ascii.eqb c) (bs "+-*/<>=~!@%^&|").

Definition lexQuoted (src : bytes) (i : nat) (q : ascii) : result LexError nat :=
  quoted_end true src i q.

(** [%02X] *)
Definition hex2 (c : ascii) : bytes :=
  let n := N_of_ascii c in
  let d x := upper1 (digit x) in [d (n / 16)%N; d (n mod 16)%N].

Definition disputed_msg (c : ascii) : bytes :=
  bs "`--` followed by byte 0x" ++ hex2 c ++
  bs ": the MySQL server and the TiDB frontend disagree on whether this starts a comment, so sqletch cannot read the query the way the engine will; put a space after `--` for a comment, or a space between the two `-` for double negation".

Definition executable_comment_msg : bytes :=
  bs "MySQL executable comment /*! ... */ is not supported: the server strips the markers and executes the content, so placeholders inside it are invisible to sqletch; move the SQL out of the comment (drop the /*! and */), or gate the version outside the template".

(** The operator loop's condition at the suffix [l]: it stops before a
    comment opener, [--] counting as one only before [isSpace]. *)
Definition op_cont (l : bytes) : bool :=
  match l with
  | c :: l1 =>
      (isOpChar c &&
       negb (((c =b "/") && hd_sat (fun d => d =b "*") l1) ||
             ((c =b "-") && hd_sat (fun d => d =b "-") l1 && hd_sat isSpace (tail l1))))%char%bool
  | [] => false
  end.

Definition next_token (src : bytes) (pos : nat) : result LexError Token :=
  match src !! pos with
  | None => Ok (mkToken KindEOF pos pos [])
  | Some c =>
    if isSpace c then mk src pos KindWhitespace (scan isSpace src pos)
    else if (c =b "#")%char then mk src pos KindLineComment (lineCommentEnd src (pos + 1))
    else if ((c =b "-") && at_is src (pos + 1) "-" &&
             (Nat.leb (length src) (pos + 2) || at_sat dashDashOpens src (pos + 2) ||
              at_sat dashDashDisputed src (pos + 2)))%char%bool then
      match src !! (pos + 2) with
      | Some d =>
          if dashDashDisputed d then lex_fail pos (disputed_msg d)
          else mk src pos KindLineComment (lineCommentEnd src (pos + 2))
      | None => mk src pos KindLineComment (lineCommentEnd src (pos + 2))
      end
    else if ((c =b "/") && at_is src (pos + 1) "*")%char%bool then
      if at_is src (pos + 2) "!"%char then lex_fail pos executable_comment_msg
      else match block_comment_loop (drop (pos + 2) src) (pos + 2) with
           | Some e => mk src pos KindBlockComment e
           | None => lex_fail pos (bs "unterminated block comment")
           end
    else if ((c =b "'") || (c =b c_dquote))%char%bool then
      let! e := lexQuoted src (pos + 1) c in mk src pos KindString e
    else if (c =b "`")%char then
      match quoted_loop false "`"%char (drop (pos + 1) src) (pos + 1) with
      | Some e => mk src pos KindQuotedIdent e
      | None => lex_fail pos (bs "unterminated quoted identifier")
      end
    else if (c =b "?")%char then mk src pos KindPositionalParam (pos + 1)
    else if (c =b ":")%char then
      if at_is src (pos + 1) "="%char then mk src pos KindOperator (pos + 2)
      else if (at_sat isIdentStart src (pos + 1) && negb (at_is src (pos + 1) "$"))%char%bool then
        mk src pos KindParamRef
          (scan (fun d => isIdentCont d && negb (d =b "$"))%char%bool src (pos + 1))
      else mk src pos KindOther (pos + 1)
    else if (c =b "(")%char then mk src pos KindLParen (pos + 1)
    else if (c =b ")")%char then mk src pos KindRParen (pos + 1)
    else if (c =b ",")%char then mk src pos KindComma (pos + 1)
    else if (c =b ";")%char then mk src pos KindSemicolon (pos + 1)
    else if (isDigit c || ((c =b ".") && at_sat isDigit src (pos + 1)))%char%bool then
      mk src pos KindNumber (number_end src pos)
    else if isIdentStart c then mk src pos KindIdent (scan isIdentCont src pos)
    else if isOpChar c then
      let i := scan_suffix op_cont (drop pos src) pos in
      mk src pos KindOperator (if decide (i = pos) then pos + 1 else i)
    else mk src pos KindOther (pos + 1)
  end.

Definition Profile : LexerProfile := {|
  NextToken := next_token;
  Placeholders := Some PlaceholderQuestion;
  InEmpty := Some InEmptySQL;
  CaseInsensitiveIdents := Some true;
  PipesOr := Some true;
|}.

(** * The laws *)

Lemma my_param_end_progress src pos :
  (at_sat isIdentStart src pos && negb (at_is src pos "$"))%char%bool = true ->
  pos < scan (fun d => isIdentCont d && negb (d =b "$"))%char%bool src pos.
Proof.
  intros [H1 H2]%andb_prop. apply scan_at_sat. revert H1 H2. unfold at_sat, at_is.
  destruct (src !! pos) as [c|]; [|done]. unfold isIdentCont. by intros -> ->.
Qed.

Lemma my_op_end_bounds src pos :
  pos < length src ->
  let i := scan_suffix op_cont (drop pos src) pos in
  pos < (if decide (i = pos) then pos + 1 else i) <= length src.
Proof.
  intros Hp i. pose proof (scan_suffix_drop_bounds op_cont src pos ltac:(lia)) as Hb.
  fold i in Hb. case_decide; lia.
Qed.

Lemma my_next_token_ok src pos t :
  pos < length src -> next_token src pos = Ok t -> wf_token src pos t.
Proof.
  intros Hp. unfold next_token, lexQuoted, lineCommentEnd. lex_cases.
  all: try by (eapply mk_wf; [done..|lex_facts; lex_end]).
  - eapply mk_wf_param; [done|by lex_char|].
    pose proof (my_param_end_progress src (pos + 1) ltac:(done)). lex_facts. lia.
  - eapply mk_wf; [done..|]. by eapply number_end_ok.
  - eapply mk_wf; [done..|].
    assert (isIdentCont c = true) as Hs by (unfold isIdentCont; by destruct (isIdentStart c)).
    lex_facts. lex_end.
  - eapply mk_wf; [done..|]. by apply my_op_end_bounds.
Qed.

Lemma my_next_token_err src pos e : next_token src pos = Err e -> pos <= Pos e < length src.
Proof. unfold next_token, lexQuoted. lex_err_cases. Qed.

Lemma my_next_token_shift pre src pos :
  next_token (pre ++ src) (length pre + pos) = shift_lex (length pre) (next_token src pos).
Proof.
  unfold next_token, lexQuoted, lineCommentEnd. rewrite lookup_shift.
  destruct (src !! pos) as [c|] eqn:Hc; [|done].
  rewrite <- !Nat.add_assoc. autorewrite with shift.
  rewrite !quoted_end_shift by lia.
  replace (Nat.leb (length (pre ++ src)) (length pre + (pos + 2)))
    with (Nat.leb (length src) (pos + 2)).
  2: { rewrite length_app. destruct (Nat.leb_spec (length src) (pos + 2));
       destruct (Nat.leb_spec (length pre + length src) (length pre + (pos + 2))); lia || done. }
  repeat match goal with |- (if ?b then _ else _) = _ => destruct b end;
    rewrite ?shift_off_mk; try apply mk_shift; try done.
  - destruct (src !! (pos + 2)) as [d|]; [destruct (dashDashDisputed d)|]; done || apply mk_shift.
  - destruct (block_comment_loop _ _); simpl; [apply mk_shift|done].
  - destruct (quoted_loop _ _ _ _); simpl; [apply mk_shift|done].
  - rewrite <- mk_shift. f_equal. do 2 case_decide; lia.
Qed.

#[export] Instance Profile_laws : LexerLaws Profile.
Proof.
  split.
  - intros src pos Hp. simpl. unfold next_token. by rewrite lookup_ge_None_2.
  - exact my_next_token_ok.
  - exact my_next_token_err.
  - exact my_next_token_shift.
  - done.
Qed.
