(* ===== verification/SQLite.v ===== *)
(** * SQLite

    [internal/dialect/sqlite/lexer.go]: the SQLite lexer profile and the proof
    that it satisfies the profile laws. *)

From S2P Require Import Prelude Dialect.

(** [InEmptySQL] *)
Definition InEmptySQL : bytes := bs "IN (SELECT NULL WHERE 0)".

Definition isSpace (c : ascii) : bool :=
  ((c =b " ") || (c =b c_tab) || (c =b c_lf) || (c =b c_cr))%char%bool.

Definition isHexDigit (c : ascii) : bool :=
  (isDigit c || (("a" <=b c) && (c <=b "f")) || (("A" <=b c) && (c <=b "F")))%char%bool.

Definition isIdentStart (c : ascii) : bool := ((c =b "_") || is_letter c || is_high c)%char%bool.

Definition isIdentCont (c : ascii) : bool := (isIdentStart c || isDigit c)%bool.

Definition isOpChar (c : ascii) : bool :=
  existsb (Ascii.eqb c) (bs "+-*/<>=~!@%^&|").

Definition lexQuoted (src : bytes) (i : nat) (q : ascii) : result LexError nat :=
  quoted_end false src i q.

(** The operator loop's condition at the suffix [l]. *)
Definition op_cont (l : bytes) : bool :=
  match l with
  | c :: l1 =>
      (isOpChar c &&
       negb (((c =b "-") && hd_sat (fun d => d =b "-") l1) ||
             ((c =b "/") && hd_sat (fun d => d =b "*") l1)))%char%bool
  | [] => false
  end.

Definition next_token (src : bytes) (pos : nat) : result LexError Token :=
  match src !! pos with
  | None => Ok (mkToken KindEOF pos pos [])
  | Some c =>
    if isSpace c then mk src pos KindWhitespace (scan isSpace src pos)
    else if ((c =b "-") && at_is src (pos + 1) "-")%char%bool then
      mk src pos KindLineComment (scan (fun d => negb (d =b c_lf)) src (pos + 2))
    else if ((c =b "/") && at_is src (pos + 1) "*")%char%bool then
      match block_comment_loop (drop (pos + 2) src) (pos + 2) with
      | Some e => mk src pos KindBlockComment e
      | None => lex_fail pos (bs "unterminated block comment")
      end
    else if (((c =b "x") || (c =b "X")) && at_is src (pos + 1) "'")%char%bool then
      let i := scan isHexDigit src (pos + 2) in
      if negb (at_is src i "'"%char) then lex_fail pos (bs "unterminated blob literal")
      else mk src pos KindString (i + 1)
    else if (c =b "'")%char then
      let! e := lexQuoted src (pos + 1) "'"%char in mk src pos KindString e
    else if c =b c_dquote then
      let! e := lexQuoted src (pos + 1) c_dquote in mk src pos KindQuotedIdent e
    else if (c =b "`")%char then
      let! e := lexQuoted src (pos + 1) "`"%char in mk src pos KindQuotedIdent e
    else if (c =b "[")%char then
      let i := scan (fun d => negb (d =b "]"))%char src (pos + 1) in
      if at_is src i "]"%char then mk src pos KindQuotedIdent (i + 1)
      else lex_fail pos (bs "unterminated bracket identifier")
    else if (c =b "?")%char then mk src pos KindPositionalParam (scan isDigit src (pos + 1))
    else if (c =b ":")%char then
      if at_sat isIdentStart src (pos + 1) then
        mk src pos KindParamRef (scan isIdentCont src (pos + 1))
      else mk src pos KindOther (pos + 1)
    else if (c =b "(")%char then mk src pos KindLParen (pos + 1)
    else if (c =b ")")%char then mk src pos KindRParen (pos + 1)
    else if (c =b ",")%char then mk src pos KindComma (pos + 1)
    else if (c =b ";")%char then mk src pos KindSemicolon (pos + 1)
    else if ((c =b "0") && (at_is src (pos + 1) "x" || at_is src (pos + 1) "X"))%char%bool then
      mk src pos KindNumber (scan isHexDigit src (pos + 2))
    else if (isDigit c || ((c =b ".") && at_sat isDigit src (pos + 1)))%char%bool then
      mk src pos KindNumber (number_end src pos)
    else if isIdentStart c then mk src pos KindIdent (scan isIdentCont src pos)
    else if isOpChar c then
      let i := scan_suffix op_cont (drop pos src) pos in
      mk src pos KindOperator (if decide (i = pos) then pos + 1 else i)
    else mk src pos KindOther (pos + 1)
  end.

Definition Profile : LexerProfile := {|
  NextToken := next_token;
  Placeholders := Some PlaceholderQuestion;
  InEmpty := Some InEmptySQL;
  CaseInsensitiveIdents := Some true;
  PipesOr := None;
|}.

(** * The laws *)

Lemma sq_param_end_progress src pos :
  at_sat isIdentStart src pos = true -> pos < scan isIdentCont src pos.
Proof.
  intros H. apply scan_at_sat. revert H. unfold at_sat. destruct (src !! pos) as [c|]; [|done].
  unfold isIdentCont. by intros ->.
Qed.

Lemma sq_op_end_bounds src pos :
  pos < length src ->
  let i := scan_suffix op_cont (drop pos src) pos in
  pos < (if decide (i = pos) then pos + 1 else i) <= length src.
Proof.
  intros Hp i. pose proof (scan_suffix_drop_bounds op_cont src pos ltac:(lia)) as Hb.
  fold i in Hb. case_decide; lia.
Qed.

Lemma sq_next_token_ok src pos t :
  pos < length src -> next_token src pos = Ok t -> wf_token src pos t.
Proof.
  intros Hp. unfold next_token, lexQuoted. lex_cases.
  all: repeat match goal with H : negb _ = false |- _ => apply negb_false_iff in H end.
  all: try by (eapply mk_wf; [done..|lex_facts; lex_end]).
  - eapply mk_wf_param; [done|by lex_char|].
    pose proof (sq_param_end_progress src (pos + 1) ltac:(done)). lex_facts. lia.
  - eapply mk_wf; [done..|].
    match goal with H : (_ || _)%bool = true |- _ => idtac | H : (_ && _)%bool = true |- _ => apply andb_prop in H as [? H] end.
    assert (pos + 1 < length src) by
      match goal with H : (_ || _)%bool = true |- _ => apply orb_prop in H as [?|?]; lex_facts; lia end.
    lex_facts. lex_end.
  - eapply mk_wf; [done..|]. by eapply number_end_ok.
  - eapply mk_wf; [done..|].
    assert (isIdentCont c = true) as Hs by (unfold isIdentCont; by destruct (isIdentStart c)).
    lex_facts. lex_end.
  - eapply mk_wf; [done..|]. by apply sq_op_end_bounds.
Qed.

Lemma sq_next_token_err src pos e : next_token src pos = Err e -> pos <= Pos e < length src.
Proof. unfold next_token, lexQuoted. lex_err_cases. Qed.

Lemma sq_next_token_shift pre src pos :
  next_token (pre ++ src) (length pre + pos) = shift_lex (length pre) (next_token src pos).
Proof.
  unfold next_token, lexQuoted. rewrite lookup_shift.
  destruct (src !! pos) as [c|] eqn:Hc; [|done].
  rewrite <- !Nat.add_assoc. autorewrite with shift.
  rewrite <- !Nat.add_assoc, !quoted_end_shift by lia.
  repeat match goal with |- (if ?b then _ else _) = _ => destruct b end;
    rewrite ?shift_off_mk; try apply mk_shift; try done.
  - destruct (block_comment_loop _ _); simpl; [apply mk_shift|done].
  - rewrite <- mk_shift. f_equal. do 2 case_decide; lia.
Qed.

#[export] Instance Profile_laws : LexerLaws Profile.
Proof.
  split.
  - intros src pos Hp. simpl. unfold next_token. by rewrite lookup_ge_None_2.
  - exact sq_next_token_ok.
  - exact sq_next_token_err.
  - exact sq_next_token_shift.
  - done.
Qed.
