(* ===== verification/Lexers.v ===== *)
(** * Lexers

    The three dialects' lexers together: tokenization tiles every input up to
    its first lexical error, and string literals are read by their grammar. *)

From S2P Require Import Prelude Dialect Postgres MySQL SQLite.

(** The dialects of the module, and whether a backslash escapes in their
    string literals. *)
Definition dialects : list (LexerProfile * bool) :=
  [(Postgres.Profile, false); (MySQL.Profile, true); (SQLite.Profile, false)].

Lemma dialects_laws profile esc : (profile, esc) ∈ dialects -> LexerLaws profile.
Proof.
  intros H. unfold dialects in H. rewrite !elem_of_cons in H.
  destruct H as [[= -> ->]|[[= -> ->]|[[= -> ->]|[]%not_elem_of_nil]]]; apply _.
Qed.

(** ** Tiling *)

(** Consecutive tokens from one offset to another. *)
Fixpoint tile (src : bytes) (from : nat) (toks : list Token) (upto : nat) : Prop :=
  match toks with
  | [] => from = upto
  | t :: toks' => wf_token src from t /\ tile src (End t) toks' upto
  end.

Lemma Lexes_tile `{Laws : !LexerLaws profile} src pos ts e :
  pos <= length src -> Lexes src pos ts e ->
  exists stop, tile src pos ts stop /\ pos <= stop <= length src /\
    match e with
    | None => stop = length src
    | Some e => NextToken src stop = Err e /\ stop <= Pos e < length src
    end.
Proof.
  intros Hp H. induction H as [pos Hl|pos e Hn|pos t ts e Hl Hn Hwf _ IH].
  - exists pos. split_and!; [done|lia..].
  - exists pos. pose proof (lex_err _ _ _ Hn). split_and!; [done|lia|lia|done|lia..].
  - pose proof (tok_progress _ _ _ Hwf). pose proof (tok_bound _ _ _ Hwf).
    destruct (IH ltac:(lia)) as (stop & Ht & Hs & He). exists stop. split_and!; [by split|lia|lia|done].
Qed.

Lemma tile_text src from toks upto :
  from <= upto -> tile src from toks upto -> upto <= length src -> concat (Text <$> toks) = slice src from upto.
Proof.
  revert from. induction toks as [|t toks IH]; intros from Hle Ht Hu; cbn in *.
  - subst. unfold slice. by rewrite Nat.sub_diag.
  - destruct Ht as [Hw Ht]. pose proof (tok_progress _ _ _ Hw).
    assert (forall a l b, tile src a l b -> a <= b) as Hm.
    { clear. intros a l. revert a. induction l as [|t l IH]; intros a b; cbn; [lia|].
      intros [Hw H%IH]. pose proof (tok_progress _ _ _ Hw). lia. }
    pose proof (Hm _ _ _ Ht). rewrite (IH (End t)), (tok_text _ _ _ Hw) by done || lia.
    by rewrite slice_app by lia.
Qed.

(** In every dialect tokenization is total and lossless: the tokens tile
    the input, each carrying the bytes it covers, from the start up to the end
    or up to the position where the lexer reports its error, which lies inside
    the input. *)
Theorem tokenization_tiles profile esc src :
  (profile, esc) ∈ dialects ->
  exists stop, tile src 0 (tokens (H := profile) src).1 stop /\ stop <= length src /\
    concat (Text <$> (tokens (H := profile) src).1) = take stop src /\
    match (tokens (H := profile) src).2 with
    | None => stop = length src
    | Some e => NextToken (LexerProfile := profile) src stop = Err e /\ stop <= Pos e < length src
    end.
Proof.
  intros Hl%dialects_laws. pose proof (tokens_Lexes src) as H.
  destruct (Lexes_tile src 0 _ _ ltac:(lia) H) as (stop & Ht & Hs & He). exists stop.
  split_and!; [done|lia| |done]. rewrite (tile_text src 0 _ stop) by done || lia.
  unfold slice. by rewrite Nat.sub_0_r.
Qed.

Lemma tokenization_tiles_witness :
  let src := bs "a /* b */ 'c" in
  exists stop, tile src 0 (tokens (H := MySQL.Profile) src).1 stop /\ stop <= length src /\
    concat (Text <$> (tokens (H := MySQL.Profile) src).1) = take stop src /\
    match (tokens (H := MySQL.Profile) src).2 with
    | None => stop = length src
    | Some e => NextToken (LexerProfile := MySQL.Profile) src stop = Err e /\ stop <= Pos e < length src
    end.
Proof. apply (tokenization_tiles MySQL.Profile true). unfold dialects. right. left. Defined.

(** ** String literals *)

Definition literal_of (esc : bool) (l : bytes) : result LexError Token :=
  let! e := quoted_end esc ("'"%char :: l) 1 "'"%char in mk ("'"%char :: l) 0 KindString e.

Lemma next_token_literal profile esc l :
  (profile, esc) ∈ dialects -> NextToken (LexerProfile := profile) ("'"%char :: l) 0 = literal_of esc l.
Proof.
  intros H. unfold dialects in H. rewrite !elem_of_cons in H.
  destruct H as [[= -> ->]|[[= -> ->]|[[= -> ->]|[]%not_elem_of_nil]]]; reflexivity.
Qed.

(** In every dialect an opening quote starts one string token exactly when
    a body of plain bytes, doubled quotes (and, in MySQL, backslash pairs)
    follows up to a quote that is not doubled; the token ends there, and
    otherwise the literal is reported unterminated.  Nothing inside a literal
    is ever read as a parameter. *)
Theorem string_literal_exact profile esc l :
  (profile, esc) ∈ dialects ->
  (exists body rest, l = body ++ "'"%char :: rest /\ quoted_body esc "'"%char body /\
     rest !! 0 <> Some "'"%char /\
     NextToken (LexerProfile := profile) ("'"%char :: l) 0
     = Ok (mkToken KindString 0 (length body + 2) ("'"%char :: body ++ ["'"%char]))) \/
  ((forall body rest, l = body ++ "'"%char :: rest -> quoted_body esc "'"%char body -> rest !! 0 = Some "'"%char) /\
   NextToken (LexerProfile := profile) ("'"%char :: l) 0 = Err (mkLexError 0 (bs "unterminated quoted token"))).
Proof.
  intros Hd. rewrite (next_token_literal _ _ _ Hd). unfold literal_of, quoted_end.
  change (drop 1 ("'"%char :: l)) with l.
  destruct (quoted_loop esc "'"%char l 1) as [e|] eqn:E; [left|right].
  - apply quoted_loop_sound in E as (body & rest & -> & Hb & -> & Hr). exists body, rest.
    split; [done|]. split; [done|]. split; [done|]. cbn [rbind]. unfold mk.
    replace (1 + length body + 1) with (S (length (body ++ ["'"%char]))) by (rewrite length_app; simpl; lia).
    replace (length body + 2) with (S (length (body ++ ["'"%char]))) by (rewrite length_app; simpl; lia).
    change (body ++ "'"%char :: rest) with (body ++ ["'"%char] ++ rest). rewrite app_assoc.
    assert (forall (c : ascii) l r, slice (c :: l ++ r) 0 (S (length l)) = c :: l) as Hs.
    { intros c l0 r. unfold slice. simpl. f_equal. apply take_app_length. }
    by rewrite Hs.
  - split; [|done]. intros body rest -> Hb. destruct (decide (rest !! 0 = Some "'"%char)) as [|Hr]; [done|].
    rewrite (quoted_loop_complete esc "'"%char body rest 1) in E by done. done.
Qed.

Lemma string_literal_exact_witness :
  let l := bs "it\''s :a' x" in
  (exists body rest, l = body ++ "'"%char :: rest /\ quoted_body true "'"%char body /\
     rest !! 0 <> Some "'"%char /\
     NextToken (LexerProfile := MySQL.Profile) ("'"%char :: l) 0
     = Ok (mkToken KindString 0 (length body + 2) ("'"%char :: body ++ ["'"%char]))) \/
  ((forall body rest, l = body ++ "'"%char :: rest -> quoted_body true "'"%char body -> rest !! 0 = Some "'"%char) /\
   NextToken (LexerProfile := MySQL.Profile) ("'"%char :: l) 0 = Err (mkLexError 0 (bs "unterminated quoted token"))).
Proof. apply (string_literal_exact MySQL.Profile true). unfold dialects. right. left. Defined.
