(* ===== verification/Template.v ===== *)
(** * Template

    [internal/template/model.go]: the structured model of a query template, the
    data every later phase reads.  A pointer that is never [nil] is the value it
    points to, an optional pointer an [option], a slice a list and a map a
    [gmap]. *)

From S2P Require Import Prelude Dialect.

(** [diagnostics.Span] *)
Record Span := mkSpan { SFile : bytes; SStart : nat; SEnd : nat }.

Inductive Annotation :=
  | AnnotationInvalid | AnnotationOne | AnnotationMaybeOne | AnnotationMany
  | AnnotationExec | AnnotationExecRows.

Definition Annotation_String (a : Annotation) : bytes :=
  match a with
  | AnnotationOne => bs ":one"
  | AnnotationMaybeOne => bs ":maybe-one"
  | AnnotationMany => bs ":many"
  | AnnotationExec => bs ":exec"
  | AnnotationExecRows => bs ":execrows"
  | AnnotationInvalid => bs ":invalid"
  end.

(** The composer-owned separator lifted off a fragment body. *)
Inductive Sep := SepNone | SepAnd | SepComma.

(** The grammatical position a construct occupies. *)
Inductive Slot :=
  | SlotUnknown | SlotWhereConjunct | SlotJoinItem | SlotOrderBy | SlotSetItem
  | SlotInsertColumn | SlotInsertValue | SlotGroupBy | SlotProjExpr | SlotHavingConjunct.

Inductive ValueKind := ValueNone | ValueString | ValueInt | ValueBool.

#[export] Instance Sep_eq_dec : EqDecision Sep.
Proof. solve_decision. Defined.
#[export] Instance Slot_eq_dec : EqDecision Slot.
Proof. solve_decision. Defined.
#[export] Instance ValueKind_eq_dec : EqDecision ValueKind.
Proof. solve_decision. Defined.
#[export] Instance Annotation_eq_dec : EqDecision Annotation.
Proof. solve_decision. Defined.
#[export] Instance Span_eq_dec : EqDecision Span.
Proof. solve_decision. Defined.

(** One guard condition; atoms are compared by equality. *)
Record GuardAtom := mkGuardAtom {
  GParam : bytes; GOp : bytes; GValue : bytes; GKind : ValueKind; GRawValue : bytes;
}.

#[export] Instance GuardAtom_eq_dec : EqDecision GuardAtom.
Proof. solve_decision. Defined.

#[export] Instance ValueKind_countable : Countable ValueKind.
Proof.
  refine (inj_countable' (fun k => match k with
    | ValueNone => 0 | ValueString => 1 | ValueInt => 2 | ValueBool => 3 end)
    (fun n => match n with
    | 0 => ValueNone | 1 => ValueString | 2 => ValueInt | _ => ValueBool end) _).
  by intros [].
Defined.

#[export] Instance GuardAtom_countable : Countable GuardAtom.
Proof.
  refine (inj_countable' (fun g => (GParam g, GOp g, GValue g, GKind g, GRawValue g))
    (fun '(p, o, v, k, r) => mkGuardAtom p o v k r) _).
  by intros [].
Defined.

Definition IsValue (g : GuardAtom) : bool := negb (bool_decide (GOp g = [])).

(** A presence atom, [GuardAtom{Param: p}]. *)
Definition presence (p : bytes) : GuardAtom := mkGuardAtom p [] [] ValueNone [].

Record GuardedItem := mkGuardedItem { GIName : bytes; GIGuards : list GuardAtom; GISpan : Span }.

(** ** Items *)
Record Skeleton := mkSkeleton { SkText : bytes; SkSpan : Span; SkSynth : bool }.

Record IfPresent := mkIfPresent {
  IPGuards : list GuardAtom; IPSep : Sep; IPBody : bytes; IPSlot : Slot;
  IPSpan : Span; IPBodySpan : Span;
}.

Record ChooseCase := mkChooseCase { CCName : bytes; CCBody : bytes; CCSpan : Span }.

Record Choose := mkChoose {
  ChParam : bytes; ChCases : list ChooseCase; ChDefault : option ChooseCase;
  ChSlot : Slot; ChSpan : Span;
}.

Record OrderKey := mkOrderKey { OKName : bytes; OKBody : bytes; OKSpan : Span }.

Record OrderBy := mkOrderBy {
  ObParam : bytes; ObKeys : list OrderKey; ObDefault : option ChooseCase; ObSpan : Span;
}.

Record InExpr := mkInExpr { InParam : bytes; InSpan : Span }.

Record Predicate := mkPredicate {
  PrName : bytes; PrBody : bytes; PrParams : list bytes; PrSpan : Span;
}.

Record FilterTree := mkFilterTree {
  FtParam : bytes; FtRequired : bool; FtPredicates : list Predicate; FtSlot : Slot; FtSpan : Span;
}.

(** The dynamic types of the [Item] interface. *)
Inductive Item :=
  | ISkeleton (s : Skeleton)
  | IIfPresent (i : IfPresent)
  | IChoose (c : Choose)
  | IOrderBy (o : OrderBy)
  | IInExpr (i : InExpr)
  | IFilterTree (f : FilterTree).

(** The method [Raw]: the full range an item occupies in the file. *)
Definition Raw (it : Item) : Span :=
  match it with
  | ISkeleton s => SkSpan s
  | IIfPresent i => IPSpan i
  | IChoose c => ChSpan c
  | IOrderBy o => ObSpan o
  | IInExpr i => InSpan i
  | IFilterTree f => FtSpan f
  end.

(** ** Parameters *)
Record Occurrence := mkOccurrence {
  OcSpan : Span; OcGuards : list GuardAtom; OcInChooseCase : bool;
  OcInFilterTree : bool; OcInIn : bool;
}.

Record Param := mkParam {
  PName : bytes; POccurrences : list Occurrence; PGuardBit : Z;
  POptional : bool; PPolicy : bytes;
}.

(** ** Directives *)
Record TypeHint := mkTypeHint { THSQLType : bytes; THSpan : Span }.
Record NullOverrideDirective := mkNullOverride { NOVNullable : bool; NOVSpan : Span }.
(** The duration is [time.Duration], a signed 64-bit count of nanoseconds. *)
Record TimeoutDirective := mkTimeout { TDDuration : Z; TDNone : bool; TDSpan : Span }.
Record NoLint := mkNoLint { NLCode : bytes; NLReason : bytes; NLSpan : Span }.
Record PolicyOptOut := mkOptOut { POPolicy : bytes; POReason : bytes; POSpan : Span }.
Record PolicyApply := mkApply { PAPolicy : bytes; PAReason : bytes; PASpan : Span }.

(** ** Queries *)
Record QueryTemplate := mkQuery {
  QName : bytes;
  QAnnotation : Annotation;
  QHeaderSpan : Span;
  QItems : list Item;
  QParamOrder : list bytes;
  QParams : gmap bytes Param;
  QGuardAtoms : list GuardAtom;
  QInsertColGuards : list GuardedItem;
  QInsertValGuards : list (list GuardedItem);
  QTypeHints : gmap bytes TypeHint;
  QColumnHints : gmap bytes TypeHint;
  QWhereKwEnd : Z;
  QTailStart : Z;
  QStmtEnd : Z;
  QPolicyOptOuts : list PolicyOptOut;
  QPolicyApplies : list PolicyApply;
  QTimeout : option TimeoutDirective;
  QNoLints : list NoLint;
  QNullOverrides : gmap bytes NullOverrideDirective;
}.

Record QueryFile := mkQueryFile { QFPath : bytes; QFQueries : list QueryTemplate }.

(** A query with the given items, parameters and guard atoms and no directive,
    for concrete examples. *)
Definition simple_query (items : list Item) (params : list bytes) (atoms : list GuardAtom)
    : QueryTemplate :=
  mkQuery (bs "Q") AnnotationMany (mkSpan [] 0 0) items params ∅ atoms [] [] ∅ ∅
    (-1)%Z (-1)%Z (-1)%Z [] [] None [] ∅.

(** The blocks of one kind, in template order. *)
Definition as_choose (it : Item) : option Choose :=
  match it with IChoose c => Some c | _ => None end.
Definition as_order (it : Item) : option OrderBy :=
  match it with IOrderBy o => Some o | _ => None end.
Definition as_in (it : Item) : option InExpr :=
  match it with IInExpr i => Some i | _ => None end.
Definition as_tree (it : Item) : option FilterTree :=
  match it with IFilterTree f => Some f | _ => None end.

(** The limits the scanner enforces on a query ([scanner.go]). *)
Definition MaxGuards : nat := 64.
Definition MaxOrderKeys : nat := 64.
Definition MaxChooseOrdinals : nat := 255.
Definition MaxParams : N := 32767.
