(* ===== verification/Render.v ===== *)
(** * Render

    [internal/ast/render.go]: the verification renderer.  [render_item] is the
    body of [renderCore]'s loop, [emitText] the token-wise copy that rewrites
    [:name] to placeholders, [SourceMap] the byte map back to the template and
    [Renderings] the verified-rendering set. *)

From S2P Require Import Prelude Dialect Template.

(** ** Data *)
Inductive RenderKind :=
  | RenderMaximal | RenderCase | RenderOrderDefault | RenderInEmpty | RenderTreeEmpty.

(** Selections.  An [@order-by] sequence is [None] for Go's [nil] (all keys)
    and a list of [key<<1|desc] bytes otherwise; a [@choose] ordinal missing
    from the map reads as 0. *)
Abbreviation OrderSelection := (list (option (list N))).
Abbreviation InSelection := (list N).
Abbreviation TreeSelection := (list N).
Abbreviation CaseSelection := (gmap nat nat).

Record FragRange := mkFragRange { FRItem : Item; FRStart : nat; FREnd : nat }.

(** One segment of the source map. *)
Record Seg := mkSeg { SgROff : nat; SgRLen : nat; SgTOff : nat; SgSynth : bool }.

Record Rendering := mkRendering {
  RKind : RenderKind;
  RChooseIdx : nat; RCaseIdx : nat; ROrderIdx : nat; RInIdx : nat; RTreeIdx : nat;
  RShape : bytes;
  RSQL : bytes;
  RParamsSeq : list bytes;
  RFrags : list FragRange;
  RMap : list Seg;
}.

(** A lexical error met while rendering (with the template offset the message
    reports), or the panic of indexing [v.Keys] out of range. *)
Inductive RenderErr := RLex (off : nat) (e : LexError) | RIndexPanic.

(** The emission state ([renderer]); the profile is the ambient one. *)
Record renderer := mkRenderer {
  r_sb : bytes;
  r_segs : list Seg;
  r_frags : list FragRange;
  r_paramSeq : list bytes;
  r_paramNum : gmap bytes nat;
}.

Definition renderer0 : renderer := mkRenderer [] [] [] [] ∅.

(** [r.segs = append(r.segs, Seg{...}); r.sb.Write(text)] *)
Definition push_seg (text : bytes) (tOff : nat) (synth : bool) (r : renderer) : renderer :=
  mkRenderer (r_sb r ++ text)
    (r_segs r ++ [mkSeg (length (r_sb r)) (length text) tOff synth])
    (r_frags r) (r_paramSeq r) (r_paramNum r).

Definition add_frag (it : Item) (start : nat) (r : renderer) : renderer :=
  mkRenderer (r_sb r) (r_segs r) (r_frags r ++ [mkFragRange it start (length (r_sb r))])
    (r_paramSeq r) (r_paramNum r).

Section with_profile.
Context (profile : LexerProfile).

Definition question : bool := bool_decide (StyleOf profile = PlaceholderQuestion).

(** [placeholder]: dollar style numbers a name once, question style appends
    one entry per occurrence. *)
Definition placeholder (name : bytes) (r : renderer) : bytes * renderer :=
  if question then
    (bs "?", mkRenderer (r_sb r) (r_segs r) (r_frags r) (r_paramSeq r ++ [name]) (r_paramNum r))
  else
    match r_paramNum r !! name with
    | Some n => ("$"%char :: FormatUint (N.of_nat n) 10, r)
    | None =>
        let n := length (r_paramSeq r) + 1 in
        ("$"%char :: FormatUint (N.of_nat n) 10,
         mkRenderer (r_sb r) (r_segs r) (r_frags r) (r_paramSeq r ++ [name])
           (<[name := n]> (r_paramNum r)))
    end.

Definition emitParamRef (name : bytes) (anchorTOff : nat) (r : renderer) : renderer :=
  let '(ph, r1) := placeholder name r in push_seg ph anchorTOff true r1.

Definition emitSynth (text : bytes) (anchorTOff : nat) (r : renderer) : renderer :=
  match text with [] => r | _ => push_seg text anchorTOff true r end.

(** The closure [flushRun]. *)
Definition flushRun (src : bytes) (tOff : nat) (synth : bool) (runStart upTo : nat)
    (r : renderer) : renderer :=
  if Nat.ltb runStart upTo then
    push_seg (slice src runStart upTo) (if synth then tOff else tOff + runStart) synth r
  else r.

(** The token loop of [emitText]: [runStart] is the start of the pending run. *)
Fixpoint emit_tokens (src : bytes) (tOff : nat) (synth : bool) (toks : list Token)
    (runStart : nat) (r : renderer) : nat * renderer :=
  match toks with
  | [] => (runStart, r)
  | tok :: rest =>
      if decide (Kind tok = KindParamRef) then
        let r1 := flushRun src tOff synth runStart (Start tok) r in
        let '(ph, r2) := placeholder (tail (Text tok)) r1 in
        let r3 := push_seg ph (if synth then tOff else tOff + Start tok) true r2 in
        emit_tokens src tOff synth rest (End tok) r3
      else emit_tokens src tOff synth rest runStart r
  end.

Definition emitText (text : bytes) (tOff : nat) (synth : bool) (r : renderer)
    : result RenderErr renderer :=
  let '(toks, err) := tokens text in
  let '(runStart, r1) := emit_tokens text tOff synth toks 0 r in
  match err with
  | Some e => Err (RLex (tOff + foldl (fun _ t => End t) 0 toks) e)
  | None => Ok (flushRun text tOff synth runStart (length text) r1)
  end.

Definition emitVerbatim (text : bytes) (tOff : nat) (r : renderer) : result RenderErr renderer :=
  emitText text tOff false r.

(** ** Rendering one query *)

Definition maxOrdinal (c : Choose) : nat :=
  length (ChCases c) + match ChDefault c with Some _ => 1 | None => 0 end.

Definition caseBody (c : Choose) (ord : nat) : bytes * nat :=
  match ChCases c !! ord with
  | Some cs => (CCBody cs, SStart (CCSpan cs))
  | None =>
      match ChDefault c with
      | Some d => (CCBody d, SStart (CCSpan d))
      | None => ([], SStart (ChSpan c))
      end
  end.

(** The loops [for i, x := range xs { if i > 0 { emitSynth(sep) }; emit(x) }]. *)
Fixpoint emit_list {X} (sep : bytes) (anchor : nat) (emit : X -> renderer -> result RenderErr renderer)
    (first : bool) (xs : list X) (r : renderer) : result RenderErr renderer :=
  match xs with
  | [] => Ok r
  | x :: xs' =>
      let r1 := if first then r else emitSynth sep anchor r in
      let! r2 := emit x r1 in
      emit_list sep anchor emit false xs' r2
  end.

(** The loop state of [renderCore]. *)
Record rstate := mkRState {
  rs_r : renderer; rs_choose : nat; rs_order : nat; rs_in : nat; rs_tree : nat;
}.

Definition set_r (st : rstate) (r : renderer) : rstate :=
  mkRState r (rs_choose st) (rs_order st) (rs_in st) (rs_tree st).

Definition key_index (e : N) : nat := N.to_nat (N.shiftr e 1).
Definition key_desc (e : N) : bool := N.testbit e 0.

Definition render_ifpresent (v : IfPresent) (r : renderer) : result RenderErr renderer :=
  let anchor := SStart (IPSpan v) in
  let r1 := emitSynth [c_lf] anchor r in
  let fragStart := length (r_sb r1) in
  let r2 := match IPSep v with
            | SepAnd => emitSynth (bs "AND (") anchor r1
            | SepComma => emitSynth (bs ", ") anchor r1
            | SepNone => r1
            end in
  let! r3 := emitVerbatim (IPBody v) (SStart (IPBodySpan v)) r2 in
  let r4 := if decide (IPSep v = SepAnd) then emitSynth (bs ")") anchor r3 else r3 in
  Ok (add_frag (IIfPresent v) fragStart r4).

Definition render_choose (v : Choose) (ord : nat) (r : renderer) : result RenderErr renderer :=
  let '(body, tOff) := caseBody v ord in
  let r1 := emitSynth [c_lf] (SStart (ChSpan v)) r in
  let fragStart := length (r_sb r1) in
  let! r2 := match body with [] => Ok r1 | _ => emitVerbatim body tOff r1 end in
  Ok (add_frag (IChoose v) fragStart r2).

Definition emit_key (v : OrderBy) (e : N) (r : renderer) : result RenderErr renderer :=
  let! k := or_err (ObKeys v !! key_index e) RIndexPanic in
  let! r1 := emitVerbatim (OKBody k) (SStart (OKSpan k)) r in
  Ok (if key_desc e then emitSynth (bs " DESC") (SStart (ObSpan v)) r1 else r1).

Definition render_orderby (v : OrderBy) (seq : option (list N)) (r : renderer)
    : result RenderErr renderer :=
  let anchor := SStart (ObSpan v) in
  let r1 := emitSynth [c_lf] anchor r in
  let fragStart := length (r_sb r1) in
  let! r2 :=
    match seq with
    | None =>
        emit_list (bs ", ") anchor (fun k => emitVerbatim (OKBody k) (SStart (OKSpan k)))
          true (ObKeys v) (emitSynth (bs "ORDER BY ") anchor r1)
    | Some [] =>
        match ObDefault v with
        | Some d => match CCBody d with
                    | [] => Ok r1
                    | _ => emitVerbatim (CCBody d) (SStart (CCSpan d)) r1
                    end
        | None => Ok r1
        end
    | Some es =>
        emit_list (bs ", ") anchor (emit_key v) true es (emitSynth (bs "ORDER BY ") anchor r1)
    end in
  Ok (add_frag (IOrderBy v) fragStart r2).

Definition render_in (v : InExpr) (inIdx : nat) (ins : InSelection) (r : renderer) : renderer :=
  let anchor := SStart (InSpan v) in
  let fragStart := length (r_sb r) in
  let r1 :=
    if negb question then
      emitSynth (bs ")") anchor (emitParamRef (InParam v) anchor (emitSynth (bs "= ANY(") anchor r))
    else if decide (ins !! inIdx = Some 0%N) then emitSynth (InEmptyOf profile) anchor r
    else
      emitSynth (bs ")") anchor (emitParamRef (InParam v) anchor (emitSynth (bs "IN (") anchor r)) in
  add_frag (IInExpr v) fragStart r1.

Definition emit_predicate (anchor : nat) (pr : Predicate) (r : renderer)
    : result RenderErr renderer :=
  let! r1 := emitVerbatim (PrBody pr) (SStart (PrSpan pr)) (emitSynth (bs "(") anchor r) in
  Ok (emitSynth (bs ")") anchor r1).

Definition render_tree (v : FilterTree) (treeIdx : nat) (trees : TreeSelection) (r : renderer)
    : result RenderErr renderer :=
  let anchor := SStart (FtSpan v) in
  let fragStart := length (r_sb r) in
  let! r1 :=
    if decide (trees !! treeIdx = Some 0%N) then Ok (emitSynth (bs "TRUE") anchor r)
    else
      let! r1 := emit_list (bs " AND ") anchor (emit_predicate anchor) true (FtPredicates v)
                   (emitSynth (bs "(") anchor r) in
      Ok (emitSynth (bs ")") anchor r1) in
  Ok (add_frag (IFilterTree v) fragStart r1).

(** The selections of one rendering. *)
Record selection := mkSelection {
  s_active : IfPresent -> bool;
  s_cases : CaseSelection;
  s_orders : OrderSelection;
  s_ins : InSelection;
  s_trees : TreeSelection;
}.

Definition render_item (s : selection) (st : rstate) (it : Item) : result RenderErr rstate :=
  match it with
  | ISkeleton v =>
      let! r := emitText (SkText v) (SStart (SkSpan v)) (SkSynth v) (rs_r st) in
      Ok (set_r st r)
  | IIfPresent v =>
      if s_active s v then
        let! r := render_ifpresent v (rs_r st) in Ok (set_r st r)
      else Ok st
  | IChoose v =>
      let! r := render_choose v (default 0 (s_cases s !! rs_choose st)) (rs_r st) in
      Ok (mkRState r (rs_choose st + 1) (rs_order st) (rs_in st) (rs_tree st))
  | IOrderBy v =>
      let! r := render_orderby v (mjoin (s_orders s !! rs_order st)) (rs_r st) in
      Ok (mkRState r (rs_choose st) (rs_order st + 1) (rs_in st) (rs_tree st))
  | IInExpr v =>
      Ok (mkRState (render_in v (rs_in st) (s_ins s) (rs_r st))
            (rs_choose st) (rs_order st) (rs_in st + 1) (rs_tree st))
  | IFilterTree v =>
      let! r := render_tree v (rs_tree st) (s_trees s) (rs_r st) in
      Ok (mkRState r (rs_choose st) (rs_order st) (rs_in st) (rs_tree st + 1))
  end.

Definition renderCore (q : QueryTemplate) (s : selection) : result RenderErr Rendering :=
  let! st := rfold (render_item s) (mkRState renderer0 0 0 0 0) (QItems q) in
  let r := rs_r st in
  Ok (mkRendering RenderMaximal 0 0 0 0 0 [] (r_sb r) (r_paramSeq r) (r_frags r) (r_segs r)).

Definition allActive (_ : IfPresent) : bool := true.

Definition Render (q : QueryTemplate) (sel : CaseSelection) : result RenderErr Rendering :=
  renderCore q (mkSelection allActive sel [] [] []).

(** [bit := map[GuardAtom]int{}; for i, g := range q.GuardAtoms { bit[g] = i }] *)
Definition guard_bits (q : QueryTemplate) : gmap GuardAtom nat :=
  foldl (fun m '(i, g) => <[g := i]> m) ∅ (imap pair (QGuardAtoms q)).

Definition guard_active (bit : gmap GuardAtom nat) (guardMask : N) (v : IfPresent) : bool :=
  forallb (fun g => match bit !! g with
                    | Some b => negb (N.eqb (N.land guardMask (bit64 b)) 0)
                    | None => false
                    end) (IPGuards v).

Definition RenderShape (q : QueryTemplate) (guardMask : N) (sel : CaseSelection)
    (orders : OrderSelection) (ins : InSelection) : result RenderErr Rendering :=
  renderCore q (mkSelection (guard_active (guard_bits q) guardMask) sel orders ins []).

(** ** The verified-rendering set *)

(** [RenderingCount]; the [extra > 0] test is the truncated subtraction. *)
Definition RenderingCount (q : QueryTemplate) : nat :=
  let n := foldl (fun n it =>
      match it with
      | IChoose c => n + (maxOrdinal c - 1)
      | IOrderBy o => match ObDefault o with Some _ => n + 1 | None => n end
      | IFilterTree _ => n + 1
      | _ => n
      end) 1 (QItems q) in
  if question then
    foldl (fun n it => match it with IInExpr _ => n + 1 | _ => n end) n (QItems q)
  else n.

Definition choose_rendering (q : QueryTemplate) (chooseIdx ord : nat) : result RenderErr Rendering :=
  let! r := Render q {[chooseIdx := ord]} in
  Ok (mkRendering RenderCase chooseIdx ord 0 0 0 [] (RSQL r) (RParamsSeq r) (RFrags r) (RMap r)).

(** First pass: the extra ordinals of every [@choose]; counts the [@order-by]
    blocks. *)
Definition choose_pass (q : QueryTemplate) (st : nat * nat * list Rendering) (it : Item)
    : result RenderErr (nat * nat * list Rendering) :=
  let '(chooseIdx, orderCount, out) := st in
  match it with
  | IChoose c =>
      let! out' := rfold (fun out ord =>
          let! r := choose_rendering q chooseIdx ord in Ok (out ++ [r]))
        out (seq 1 (maxOrdinal c - 1)) in
      Ok (chooseIdx + 1, orderCount, out')
  | IOrderBy _ => Ok (chooseIdx, orderCount + 1, out)
  | _ => Ok st
  end.

Definition order_pass (q : QueryTemplate) (orderCount : nat) (st : nat * list Rendering) (it : Item)
    : result RenderErr (nat * list Rendering) :=
  let '(orderIdx, out) := st in
  match it with
  | IOrderBy o =>
      match ObDefault o with
      | Some _ =>
          let orders := <[orderIdx := Some []]> (replicate orderCount None) in
          let! r := renderCore q (mkSelection allActive ∅ orders [] []) in
          Ok (orderIdx + 1, out ++ [mkRendering RenderOrderDefault 0 0 orderIdx 0 0 []
                                      (RSQL r) (RParamsSeq r) (RFrags r) (RMap r)])
      | None => Ok (orderIdx + 1, out)
      end
  | _ => Ok st
  end.

Definition in_rendering (q : QueryTemplate) (inCount i : nat) : result RenderErr Rendering :=
  let! r := renderCore q
    (mkSelection allActive ∅ [] (<[i := 0%N]> (replicate inCount 1%N)) []) in
  Ok (mkRendering RenderInEmpty 0 0 0 i 0 [] (RSQL r) (RParamsSeq r) (RFrags r) (RMap r)).

Definition tree_rendering (q : QueryTemplate) (treeCount i : nat) : result RenderErr Rendering :=
  let! r := renderCore q
    (mkSelection allActive ∅ [] [] (<[i := 0%N]> (replicate treeCount 1%N))) in
  Ok (mkRendering RenderTreeEmpty 0 0 0 0 i [] (RSQL r) (RParamsSeq r) (RFrags r) (RMap r)).

Definition in_count (q : QueryTemplate) : nat := length (omap as_in (QItems q)).
Definition tree_count (q : QueryTemplate) : nat := length (omap as_tree (QItems q)).

(** [Renderings] up to the shape names, which [Shapes.assignShapes] adds. *)
Definition Renderings_unnamed (q : QueryTemplate) : result RenderErr (list Rendering) :=
  let! max := Render q ∅ in
  let! '(_, orderCount, out1) := rfold (choose_pass q) (0, 0, [max]) (QItems q) in
  let! '(_, out2) := rfold (order_pass q orderCount) (0, out1) (QItems q) in
  let! out3 :=
    if question then
      rfold (fun out i => let! r := in_rendering q (in_count q) i in Ok (out ++ [r]))
        out2 (seq 0 (in_count q))
    else Ok out2 in
  rfold (fun out i => let! r := tree_rendering q (tree_count q) i in Ok (out ++ [r]))
    out3 (seq 0 (tree_count q)).

End with_profile.

(** ** The source map *)

(** The binary search of [ToTemplate]; fuel: the interval [lo, hi] shrinks at
    every round, so the number of segments plus one is enough
    ([to_template_loop_spec]). *)
Fixpoint to_template_loop (fuel : nat) (segs : list Seg) (rOff : nat) (lo hi : Z) : nat * bool :=
  match fuel with
  | O => (0, true)
  | S f =>
      if Z.leb lo hi then
        let mid := Z.quot (lo + hi) 2 in
        match segs !! Z.to_nat mid with
        | None => (0, true)
        | Some s =>
            if Nat.ltb rOff (SgROff s) then to_template_loop f segs rOff lo (mid - 1)
            else if Nat.leb (SgROff s + SgRLen s) rOff then to_template_loop f segs rOff (mid + 1) hi
            else if SgSynth s then (SgTOff s, true)
            else (SgTOff s + (rOff - SgROff s), false)
        end
      else (0, true)
  end.

Definition ToTemplate (segs : list Seg) (rOff : nat) : nat * bool :=
  to_template_loop (S (length segs)) segs rOff 0 (Z.of_nat (length segs) - 1).
