(* ===== verification/RenderInv.v ===== *)
(** * RenderInv

    Invariants of the renderer: what holds initially and is kept by the
    renderer's emissions - synthesized text, the texts of the query's items,
    placeholders of [@in] - holds of every rendering. *)

From S2P Require Import Prelude Dialect Template Render.

(** The texts an item may emit, with their template offsets and their
    synthesis flags. *)
Definition item_texts (it : Item) : list (bytes * nat * bool) :=
  match it with
  | ISkeleton v => [(SkText v, SStart (SkSpan v), SkSynth v)]
  | IIfPresent v => [(IPBody v, SStart (IPBodySpan v), false)]
  | IChoose v =>
      ((fun c => (CCBody c, SStart (CCSpan c), false)) <$> ChCases v)
      ++ match ChDefault v with Some d => [(CCBody d, SStart (CCSpan d), false)] | None => [] end
  | IOrderBy v =>
      ((fun k => (OKBody k, SStart (OKSpan k), false)) <$> ObKeys v)
      ++ match ObDefault v with Some d => [(CCBody d, SStart (CCSpan d), false)] | None => [] end
  | IInExpr _ => []
  | IFilterTree v => (fun p => (PrBody p, SStart (PrSpan p), false)) <$> FtPredicates v
  end.

Section invariant.
Context {profile : LexerProfile} (I : renderer -> Prop) (T : bytes -> nat -> bool -> Prop) (N : bytes -> Prop).

Hypothesis I_synth : forall text anchor r, I r -> I (emitSynth text anchor r).
Hypothesis I_frag : forall it n r, I r -> I (add_frag it n r).
Hypothesis I_ref : forall name anchor r, N name -> I r -> I (emitParamRef profile name anchor r).
Hypothesis I_text : forall text tOff synth r r',
  T text tOff synth -> I r -> emitText profile text tOff synth r = Ok r' -> I r'.

(** What an item is allowed to emit under a selection. *)
Definition item_allowed (s : selection) (it : Item) : Prop :=
  match it with IIfPresent v => s_active s v = true | _ => True end ->
  (forall text tOff synth, (text, tOff, synth) ∈ item_texts it -> T text tOff synth) /\
  match it with IInExpr v => N (InParam v) | _ => True end.

Lemma emitVerbatim_inv text tOff r r' :
  T text tOff false -> I r -> emitVerbatim profile text tOff r = Ok r' -> I r'.
Proof. apply I_text. Qed.

Lemma emit_list_inv {X} sep anchor (emit : X -> renderer -> result RenderErr renderer) first xs r r' :
  (forall x r r', x ∈ xs -> I r -> emit x r = Ok r' -> I r') ->
  I r -> emit_list sep anchor emit first xs r = Ok r' -> I r'.
Proof.
  revert first r. induction xs as [|x xs IH]; intros first r He Hr; cbn [emit_list]; [by intros [= <-]|].
  intros (r1 & H1 & H2)%rbind_ok. eapply IH; [| |exact H2].
  - intros x0 r0 r0' Hx. apply He. by apply elem_of_cons; right.
  - eapply (He x); [by apply elem_of_cons; left| |exact H1]. destruct first; [done|by apply I_synth].
Qed.

Section item.
Context (s : selection).

Lemma render_ifpresent_inv v r r' :
  T (IPBody v) (SStart (IPBodySpan v)) false -> I r -> render_ifpresent profile v r = Ok r' -> I r'.
Proof.
  intros Ha Hr (r3 & H3 & H4)%rbind_ok. injection H4 as <-.
  apply I_frag. eapply emitVerbatim_inv in H3; [|exact Ha|].
  - case_decide; [by apply (I_synth (bs ")"))|done].
  - destruct (IPSep v); [by apply I_synth|by apply (I_synth (bs "AND (")), I_synth|by apply (I_synth (bs ", ")), I_synth].
Qed.

Lemma render_choose_inv v ord r r' :
  (forall text tOff synth, (text, tOff, synth) ∈ item_texts (IChoose v) -> T text tOff synth) ->
  I r -> render_choose profile v ord r = Ok r' -> I r'.
Proof.
  cbn [item_texts]. intros Ha Hr. unfold render_choose.
  destruct (caseBody v _) as [body tOff] eqn:Ec. intros (r2 & H2 & H3)%rbind_ok. injection H3 as <-.
  apply I_frag. pose proof (I_synth [c_lf] (SStart (ChSpan v)) r Hr) as H0.
  destruct body as [|b body]; [by injection H2 as <-|]. eapply emitVerbatim_inv; [|exact H0|exact H2].
  apply Ha. apply elem_of_app. unfold caseBody in Ec. destruct (ChCases v !! _) as [cs|] eqn:El.
  - left. apply list_elem_of_fmap. exists cs. split; [by rewrite <- Ec|by eapply list_elem_of_lookup_2].
  - right. destruct (ChDefault v); [|done]. rewrite <- Ec. set_solver.
Qed.

Lemma render_orderby_inv v seq r r' :
  (forall text tOff synth, (text, tOff, synth) ∈ item_texts (IOrderBy v) -> T text tOff synth) ->
  I r -> render_orderby profile v seq r = Ok r' -> I r'.
Proof.
  cbn [item_texts]. intros Ha Hr (r2 & H2 & H3)%rbind_ok. injection H3 as <-. apply I_frag.
  assert (forall k, k ∈ ObKeys v -> T (OKBody k) (SStart (OKSpan k)) false) as Hk.
  { intros k Hin. apply Ha, elem_of_app. left. apply list_elem_of_fmap. by exists k. }
  pose proof (I_synth [c_lf] (SStart (ObSpan v)) r Hr) as H0. destruct seq as [[|e es]|].
  - destruct (ObDefault v) as [d|]; [|by injection H2 as <-].
    destruct (CCBody d) eqn:Eb; [by injection H2 as <-|]. eapply emitVerbatim_inv; [|exact H0|exact H2].
    apply Ha, elem_of_app. right. set_solver.
  - eapply emit_list_inv; [|by apply (I_synth (bs "ORDER BY ")), H0|exact H2].
    intros x r0 r0' _ Hr0 (k & Hkk & He)%rbind_ok. apply rbind_ok in He as (r4 & H4 & H5). injection H5 as <-.
    destruct (ObKeys v !! key_index x) as [k'|] eqn:Ek; [|done]. injection Hkk as <-.
    eapply emitVerbatim_inv in H4; [|by eapply Hk, list_elem_of_lookup_2|done].
    destruct (key_desc x); [by apply (I_synth (bs " DESC"))|done].
  - eapply emit_list_inv; [|by apply (I_synth (bs "ORDER BY ")), H0|exact H2].
    intros x r0 r0' Hx Hr0 He. eapply emitVerbatim_inv; [|done|exact He]. by apply Hk.
Qed.

Lemma render_in_inv v inIdx ins r : N (InParam v) -> I r -> I (render_in profile v inIdx ins r).
Proof.
  intros Hn Hr. unfold render_in. apply I_frag.
  destruct (negb (question profile)); [|case_decide]; by repeat (apply I_synth || apply I_ref).
Qed.

Lemma render_tree_inv v treeIdx trees r r' :
  (forall text tOff synth, (text, tOff, synth) ∈ item_texts (IFilterTree v) -> T text tOff synth) ->
  I r -> render_tree profile v treeIdx trees r = Ok r' -> I r'.
Proof.
  cbn [item_texts]. intros Ha Hr (r2 & H2 & H3)%rbind_ok. injection H3 as <-. apply I_frag.
  case_decide; [injection H2 as <-; by apply (I_synth (bs "TRUE"))|].
  apply rbind_ok in H2 as (r3 & H3 & H4). injection H4 as <-. apply (I_synth (bs ")")).
  eapply emit_list_inv; [|by apply (I_synth (bs "(")), Hr|exact H3].
  intros p r0 r0' Hp Hr0 (r4 & H4 & H5)%rbind_ok. injection H5 as <-. apply (I_synth (bs ")")).
  eapply emitVerbatim_inv; [|by apply (I_synth (bs "(")), Hr0|exact H4].
  apply Ha, list_elem_of_fmap. by exists p.
Qed.

Lemma render_item_inv st it st' :
  item_allowed s it -> I (rs_r st) -> render_item profile s st it = Ok st' -> I (rs_r st').
Proof.
  intros Ha Hr. destruct it as [v|v|v|v|v|v]; cbn [render_item].
  - destruct Ha as [Ha _]; [done|]. intros (r & H1 & H2)%rbind_ok. injection H2 as <-. cbn.
    eapply I_text; [|done|done]. apply Ha. set_solver.
  - destruct (s_active s v) eqn:Ea; [|by intros [= <-]]. destruct Ha as [Ha _]; [done|].
    intros (r & H1 & H2)%rbind_ok. injection H2 as <-. eapply render_ifpresent_inv; [|done|done]. apply Ha. set_solver.
  - destruct Ha as [Ha _]; [done|]. intros (r & H1 & H2)%rbind_ok. injection H2 as <-. by eapply render_choose_inv.
  - destruct Ha as [Ha _]; [done|]. intros (r & H1 & H2)%rbind_ok. injection H2 as <-. by eapply render_orderby_inv.
  - destruct Ha as [_ Hn]; [done|]. intros [= <-]. by apply render_in_inv.
  - destruct Ha as [Ha _]; [done|]. intros (r & H1 & H2)%rbind_ok. injection H2 as <-. by eapply render_tree_inv.
Qed.

(** The invariant is kept over a run of items. *)
Lemma render_items_inv items st st' :
  (forall it, it ∈ items -> item_allowed s it) -> I (rs_r st) ->
  rfold (render_item profile s) st items = Ok st' -> I (rs_r st').
Proof.
  intros Ha. apply (rfold_ind (fun st => I (rs_r st))). intros st0 it st1 Hin Hw Hit.
  eapply render_item_inv; [|done|exact Hit]. by apply Ha.
Qed.

(** The invariant holds of the state a rendering is taken from. *)
Lemma renderCore_inv q r :
  I renderer0 -> (forall it, it ∈ QItems q -> item_allowed s it) -> renderCore profile q s = Ok r ->
  exists r0, I r0 /\ RSQL r = r_sb r0 /\ RMap r = r_segs r0 /\ RParamsSeq r = r_paramSeq r0 /\ RFrags r = r_frags r0.
Proof.
  intros H0 Ha (st & Hst & H)%rbind_ok. injection H as <-. exists (rs_r st). split; [|done].
  eapply render_items_inv; [exact Ha| |exact Hst]. exact H0.
Qed.
End item.
End invariant.
