(* ===== verification/Tree.v ===== *)
(** * Tree

    [runtime/tree.go]: the filter trees a caller builds at run time - their
    constructors, the caps, validation, the structural encoding used in cache
    keys and the flattening of leaf arguments. *)

From S2P Require Import Prelude.

(** ** Values and errors

    [goany] is what the composer can tell about an [any]: an opaque scalar, or
    a slice it can index. *)
Inductive goany :=
  | AVal (v : bytes)
  | ASlice (elems : list goany).

(** The errors of package [runtime] (with the numbers their messages carry)
    and Go's run-time panic on an index out of range. *)
Inductive RtErr :=
  | ErrFilterRequired
  | ErrTreeTooLarge
  | ErrTreePredicate (pred : Z)
  | ErrTreeArity (pred : Z) (want got : nat)
  | ErrShapeKeyLimit (n : Z)
  | ErrChooseRequired
  | ErrChooseRange (v : Z)
  | ErrOrderKey (v : Z)
  | ErrShapeNotExpanded
  | GoPanic.

(** [Case] and [Span] of [runtime.go]: one selectable body with its parameter
    tokens. *)
Record RSpan := mkRSpan { RsStart : Z; RsEnd : Z }.
Record Case := mkCase { CText : bytes; CParamSpans : list RSpan; CParamIdx : list Z }.

(** ** Trees *)
Inductive Op := opLeaf | opAnd | opOr | opTrue.

Inductive node := mkNode (op : Op) (kids : list node) (pred : Z) (args : list goany).

Definition n_op (n : node) : Op := let 'mkNode o _ _ _ := n in o.
Definition n_kids (n : node) : list node := let 'mkNode _ k _ _ := n in k.
Definition n_pred (n : node) : Z := let 'mkNode _ _ p _ := n in p.
Definition n_args (n : node) : list goany := let 'mkNode _ _ _ a := n in a.

(** [Tree{n}], [None] being the zero Tree. *)
Abbreviation Tree := (option node).

Definition IsZero (t : Tree) : bool := match t with None => true | Some _ => false end.

Definition Unscoped : Tree := Some (mkNode opTrue [] 0 []).

Definition NewLeaf (pred : Z) (args : list goany) : Tree := Some (mkNode opLeaf [] pred args).

Definition combine (op : Op) (ts : list Tree) : Tree :=
  let kids := omap id ts in
  match kids with
  | [] => Unscoped
  | [k] => Some k
  | _ => Some (mkNode op kids 0 [])
  end.

Definition And (ts : list Tree) : Tree := combine opAnd ts.
Definition Or (ts : list Tree) : Tree := combine opOr ts.

(** ** Caps *)
Record TreeCaps := mkCaps { MaxNodes : Z; MaxDepth : Z }.

Definition DefaultTreeCaps : TreeCaps := mkCaps 32 8.

Definition MaxTreeArgs : Z := 32767.

(** The closure [rec] of [checkCaps]; the captured counters [nodes] and [args]
    are threaded through. *)
Fixpoint check_caps_rec (caps : TreeCaps) (n : node) (depth : Z) (st : Z * Z)
    : result RtErr (Z * Z) :=
  match n with
  | mkNode _ kids _ nargs =>
      let '(nodes, args) := st in
      let nodes := (nodes + 1)%Z in
      if (Z.ltb (MaxNodes caps) nodes || Z.ltb (MaxDepth caps) depth)%bool then Err ErrTreeTooLarge
      else
        let args := (args + Z.of_nat (length nargs))%Z in
        if Z.ltb MaxTreeArgs args then Err ErrTreeTooLarge
        else
          rfold (fun st k => check_caps_rec caps k (depth + 1) st) (nodes, args) kids
  end.

Definition checkCaps (t : Tree) (caps : TreeCaps) : result RtErr unit :=
  match t with
  | None => Ok tt
  | Some n => let! _ := check_caps_rec caps n 1 (0, 0)%Z in Ok tt
  end.

(** ** Validation *)
Definition leafArity (c : Case) : nat :=
  foldl (fun want idx => if Z.ltb (Z.of_nat want) (idx + 1) then Z.to_nat (idx + 1) else want)
    0 (CParamIdx c).

(** The closure [rec] of [validate]. *)
Fixpoint validate_rec (preds : list Case) (n : node) : result RtErr unit :=
  match n with
  | mkNode op kids pred nargs =>
      let! _ :=
        match op with
        | opLeaf =>
            if (Z.ltb pred 0 || Z.leb (Z.of_nat (length preds)) pred)%bool
            then Err (ErrTreePredicate pred)
            else
              let! c := or_err (preds !! Z.to_nat pred) GoPanic in
              if decide (length nargs = leafArity c) then Ok tt
              else Err (ErrTreeArity pred (leafArity c) (length nargs))
        | _ => Ok tt
        end in
      rfold (fun _ k => validate_rec preds k) tt kids
  end.

Definition validate (t : Tree) (preds : list Case) (caps : TreeCaps) : result RtErr unit :=
  let! _ := checkCaps t caps in
  match t with
  | None => Ok tt
  | Some n => validate_rec preds n
  end.

(** ** The structural encoding *)
Fixpoint appendEncoding (n : node) (dst : bytes) : bytes :=
  match n with
  | mkNode op kids pred _ =>
      match op with
      | opTrue => dst ++ bs "T"
      | opLeaf => (dst ++ bs "p") ++ FormatInt pred
      | _ =>
          let dst := dst ++ (match op with opAnd => bs "&" | _ => bs "|" end) ++ bs "(" in
          let '(_, dst) := foldl (fun '(first, dst) k =>
              (false, appendEncoding k (if (first : bool) then dst else dst ++ bs ",")))
            (true, dst) kids in
          dst ++ bs ")"
      end
  end.

Definition Encode (t : Tree) : bytes :=
  match t with None => bs "T" | Some n => appendEncoding n [] end.

(** ** Arguments *)
Fixpoint countArgs (n : node) : nat :=
  match n with
  | mkNode opLeaf _ _ nargs => length nargs
  | mkNode _ kids _ _ => foldl (fun c k => c + countArgs k) 0 kids
  end.

Fixpoint appendArgs (n : node) (dst : list goany) : list goany :=
  match n with
  | mkNode opLeaf _ _ nargs => dst ++ nargs
  | mkNode _ kids _ _ => foldl (fun dst k => appendArgs k dst) dst kids
  end.

Definition TreeArgs (t : Tree) : list goany :=
  match t with
  | None => []
  | Some n => if decide (countArgs n = 0) then [] else appendArgs n []
  end.
