(* ===== verification/Runtime.v ===== *)
(** * Runtime

    [runtime/runtime.go]: the fragment tables and the composer that turns a
    shape key into SQL and a bind plan, the canonical key encoding, the
    resolution of bind plans and the argument converters of generated code. *)

From S2P Require Import Prelude Tree.

(** ** Fragment tables *)
Inductive FragKind := Skel | Guarded | Choose | OrderBy | FilterTree | InAny | InList.

Inductive Sep := SepNone | SepAnd | SepComma.

#[export] Instance FragKind_eq_dec : EqDecision FragKind.
Proof. solve_decision. Defined.
#[export] Instance Sep_eq_dec : EqDecision Sep.
Proof. solve_decision. Defined.

Record Frag := mkFrag {
  FKind : FragKind;
  FText : bytes;
  FParamSpans : list RSpan;
  FParamIdx : list Z;
  FGuardMask : N;
  FSep : Sep;
  FCases : list Case;
  FDefault : option Case;
}.

(** ** Shape keys

    [Orders]: [None] is Go's nil sequence (all keys), [Some []] the
    default-or-omit selection. *)
Record ShapeKey := mkShapeKey {
  Guards : N;
  Choices : list N;
  Orders : list (option (list N));
  Trees : list bytes;
  Arities : list Z;
}.

(** [for i, x := range xs { if i > 0 { sep }; ... }] *)
Definition append_seq (sep : bytes) (parts : list bytes) (dst : bytes) : bytes :=
  dst ++ join sep parts.

Definition order_elem (e : N) : bytes :=
  FormatUint (N.shiftr e 1) 10 ++ (if N.testbit e 0 then bs "d" else bs "a").

Definition order_seq (s : option (list N)) : bytes :=
  match s with
  | None => bs "*"
  | Some [] => bs "-"
  | Some es => join (bs ",") (order_elem <$> es)
  end.

(** A section of the encoding is present when its list is not empty. *)
Definition key_section (tag : bytes) (sep : bytes) (parts : list bytes) (dst : bytes) : bytes :=
  match parts with [] => dst | _ => append_seq sep parts (dst ++ tag) end.

(** [appendTo] *)
Definition appendTo (k : ShapeKey) (dst : bytes) : bytes :=
  let dst := (dst ++ bs "g=") ++ FormatUint (Guards k) 16 in
  let dst := key_section (bs ";c=") (bs ",") ((fun c => FormatUint c 10) <$> Choices k) dst in
  let dst := key_section (bs ";o=") (bs "|") (order_seq <$> Orders k) dst in
  let dst := key_section (bs ";t=") (bs "|") (Trees k) dst in
  key_section (bs ";n=") (bs ",") (FormatInt <$> Arities k) dst.

Definition ShapeKey_String (k : ShapeKey) : bytes := appendTo k [].

(** ** Bind plans *)
Inductive Style := StyleDollar | StyleQuestion.

#[export] Instance Style_eq_dec : EqDecision Style.
Proof. solve_decision. Defined.

Record Bind := mkBind { FromTree : bool; Idx : Z; Elem : Z }.

#[export] Instance Bind_eq_dec : EqDecision Bind.
Proof. solve_decision. Defined.

(** [xs[i]] with a Go [int] index. *)
Definition go_index {A} (xs : list A) (i : Z) : result RtErr A :=
  if Z.ltb i 0 then Err GoPanic else or_err (xs !! Z.to_nat i) GoPanic.

(** [s[lo:hi]] *)
Definition go_slice (s : bytes) (lo hi : Z) : result RtErr bytes :=
  if (Z.leb 0 lo && Z.leb lo hi && Z.leb hi (Z.of_nat (length s)))%bool
  then Ok (slice s (Z.to_nat lo) (Z.to_nat hi)) else Err GoPanic.

Definition sliceElem (v : goany) (i : Z) : result RtErr goany :=
  match v with
  | ASlice elems => go_index elems i
  | AVal _ => Err GoPanic
  end.

Definition resolve_bind (vals treeArgs : list goany) (b : Bind) : result RtErr goany :=
  let! v := go_index (if FromTree b then treeArgs else vals) (Idx b) in
  if Z.ltb 0 (Elem b) then sliceElem v (Elem b - 1) else Ok v.

Definition ResolveArgs (binds : list Bind) (vals treeArgs : list goany) : result RtErr (list goany) :=
  match binds with
  | [] => Ok []
  | _ => rmap (resolve_bind vals treeArgs) binds
  end.

Definition BuildArgs (argIdx : list Z) (vals : list goany) : result RtErr (list goany) :=
  match argIdx with
  | [] => Ok []
  | _ => rmap (go_index vals) argIdx
  end.

(** ** The composer *)
Record composer := mkComposer { co_b : bytes; co_binds : list Bind; co_base : Z }.

Definition write (s : bytes) (co : composer) : composer :=
  mkComposer (co_b co ++ s) (co_binds co) (co_base co).

(** The linear scan of [place]: the 1-based number of a bind already placed,
    0 when there is none. *)
Fixpoint find_bind (bd : Bind) (binds : list Bind) (i : nat) : nat :=
  match binds with
  | [] => 0
  | b :: bs' => if decide (b = bd) then i + 1 else find_bind bd bs' (i + 1)
  end.

Definition place (style : Style) (bd : Bind) (co : composer) : composer :=
  match style with
  | StyleQuestion => mkComposer (co_b co ++ bs "?") (co_binds co ++ [bd]) (co_base co)
  | StyleDollar =>
      let n := find_bind bd (co_binds co) 0 in
      let binds := if decide (n = 0) then co_binds co ++ [bd] else co_binds co in
      let n := if decide (n = 0) then length binds else n in
      mkComposer ((co_b co ++ bs "$") ++ FormatInt (Z.of_nat n)) binds (co_base co)
  end.

(** The loop of [emitFrom] over the parameter spans, then the tail. *)
Fixpoint emit_spans (style : Style) (text : bytes) (spans : list RSpan) (idx : list Z)
    (fromTree : bool) (base : Z) (last : Z) (co : composer) : result RtErr composer :=
  match spans with
  | [] => let! s := go_slice text last (Z.of_nat (length text)) in Ok (write s co)
  | sp :: spans' =>
      let! s := go_slice text last (RsStart sp) in
      match idx with
      | [] => Err GoPanic
      | i :: idx' =>
          let co := place style (mkBind fromTree (i16 (base + i)) 0) (write s co) in
          emit_spans style text spans' idx' fromTree base (RsEnd sp) co
      end
  end.

Definition emitFrom (style : Style) (text : bytes) (spans : list RSpan) (idx : list Z)
    (fromTree : bool) (base : Z) (co : composer) : result RtErr composer :=
  emit_spans style text spans idx fromTree base 0 co.

Definition emit (style : Style) (text : bytes) (spans : list RSpan) (idx : list Z)
    (co : composer) : result RtErr composer :=
  emitFrom style text spans idx false 0 co.

Definition emit_case (style : Style) (c : Case) (co : composer) : result RtErr composer :=
  emit style (CText c) (CParamSpans c) (CParamIdx c) co.

(** [for i, x := range xs { if i > 0 { b = append(b, sep...) }; f(x) }] *)
Section sep_loop.
Context {X : Type} (sep : bytes) (f : X -> composer -> result RtErr composer).
Fixpoint sep_loop (first : bool) (xs : list X) (co : composer) : result RtErr composer :=
  match xs with
  | [] => Ok co
  | x :: xs' =>
      let! co' := f x (if first then co else write sep co) in
      sep_loop false xs' co'
  end.
End sep_loop.

(** [emitTree] on a non-nil node, in preorder. *)
Fixpoint emit_node (style : Style) (preds : list Case) (n : node) (co : composer)
    : result RtErr composer :=
  match n with
  | mkNode op kids pred nargs =>
      match op with
      | opTrue => Ok (write (bs "TRUE") co)
      | opLeaf =>
          let! c := go_index preds pred in
          let! co := emitFrom style (CText c) (CParamSpans c) (CParamIdx c) true (co_base co)
                       (write (bs "(") co) in
          let co := write (bs ")") co in
          Ok (mkComposer (co_b co) (co_binds co) (i16 (co_base co + i16 (Z.of_nat (length nargs)))))
      | _ =>
          let sep := match op with opOr => bs " OR " | _ => bs " AND " end in
          let! co := sep_loop sep (emit_node style preds) true kids (write (bs "(") co) in
          Ok (write (bs ")") co)
      end
  end.

Definition emitTree (style : Style) (preds : list Case) (t : Tree) (co : composer)
    : result RtErr composer :=
  match t with
  | None => Ok (write (bs "TRUE") co)
  | Some n => emit_node style preds n co
  end.

(** ** [ComposeTreeStyle] *)
Definition MaxOrderKeys : Z := 64.
Definition MaxChooseOrdinals : Z := 255.
Definition MaxInArity : Z := 32767.

Record cstate := mkCState { cs_co : composer; cs_choose : nat; cs_order : nat; cs_in : nat }.

Definition compose_order (style : Style) (f : Frag) (seq : option (list N)) (co : composer)
    : result RtErr composer :=
  let co := write [c_lf] co in
  match seq with
  | None => sep_loop (bs ", ") (emit_case style) true (FCases f) (write (bs "ORDER BY ") co)
  | Some [] =>
      match FDefault f with
      | Some d => match CText d with [] => Ok co | _ => emit_case style d co end
      | None => Ok co
      end
  | Some es =>
      sep_loop (bs ", ") (fun e co =>
          let! c := or_err (FCases f !! N.to_nat (N.shiftr e 1)) GoPanic in
          let! co := emit_case style c co in
          Ok (if N.testbit e 0 then write (bs " DESC") co else co))
        true es (write (bs "ORDER BY ") co)
  end.

Definition compose_guarded (style : Style) (f : Frag) (co : composer) : result RtErr composer :=
  let co := write [c_lf] co in
  let co := match FSep f with
            | SepAnd => write (bs "AND (") co
            | SepComma => write (bs ", ") co
            | SepNone => co
            end in
  let! co := emit style (FText f) (FParamSpans f) (FParamIdx f) co in
  Ok (if decide (FSep f = SepAnd) then write (bs ")") co else co).

Definition compose_choose (style : Style) (f : Frag) (ord : nat) (co : composer)
    : result RtErr composer :=
  let co := write [c_lf] co in
  match FCases f !! ord with
  | Some c => emit_case style c co
  | None => Ok co
  end.

Definition compose_inlist (style : Style) (f : Frag) (n : Z) (co : composer)
    : result RtErr composer :=
  if Z.leb n 0 then
    Ok (write (match FText f with
               | [] => bs "IN (SELECT NULL FROM DUAL WHERE FALSE)"
               | t => t
               end) co)
  else if Z.ltb MaxInArity n then Err (ErrShapeKeyLimit n)
  else
    let! co := sep_loop (bs ", ") (fun e co =>
        let! idx := go_index (FParamIdx f) 0 in
        Ok (place style (mkBind false idx (i16 (Z.of_nat e))) co))
      true (seq 1 (Z.to_nat n)) (write (bs "IN (") co) in
    Ok (write (bs ")") co).

Definition compose_frag (style : Style) (key : ShapeKey) (tree : Tree) (caps : TreeCaps)
    (st : cstate) (f : Frag) : result RtErr cstate :=
  match FKind f with
  | Skel =>
      let! co := emit style (FText f) (FParamSpans f) (FParamIdx f) (cs_co st) in
      Ok (mkCState co (cs_choose st) (cs_order st) (cs_in st))
  | OrderBy =>
      let! co := compose_order style f (mjoin (Orders key !! cs_order st)) (cs_co st) in
      Ok (mkCState co (cs_choose st) (cs_order st + 1) (cs_in st))
  | Guarded =>
      if N.eqb (N.land (Guards key) (FGuardMask f)) (FGuardMask f) then
        let! co := compose_guarded style f (cs_co st) in
        Ok (mkCState co (cs_choose st) (cs_order st) (cs_in st))
      else Ok st
  | Choose =>
      let ord := N.to_nat (default 0%N (Choices key !! cs_choose st)) in
      let! co := compose_choose style f ord (cs_co st) in
      Ok (mkCState co (cs_choose st + 1) (cs_order st) (cs_in st))
  | InAny =>
      let! idx := go_index (FParamIdx f) 0 in
      let co := place style (mkBind false idx 0) (write (bs "= ANY(") (cs_co st)) in
      Ok (mkCState (write (bs ")") co) (cs_choose st) (cs_order st) (cs_in st))
  | InList =>
      let n := default 1%Z (Arities key !! cs_in st) in
      let! co := compose_inlist style f n (cs_co st) in
      Ok (mkCState co (cs_choose st) (cs_order st) (cs_in st + 1))
  | FilterTree =>
      if IsZero tree then
        Ok (mkCState (write (bs "TRUE") (cs_co st)) (cs_choose st) (cs_order st) (cs_in st))
      else
        let! _ := validate tree (FCases f) caps in
        let! co := emitTree style (FCases f) tree (cs_co st) in
        Ok (mkCState co (cs_choose st) (cs_order st) (cs_in st))
  end.

Definition ComposeTreeStyle (style : Style) (frags : list Frag) (key : ShapeKey) (tree : Tree)
    (caps : TreeCaps) : result RtErr (bytes * list Bind) :=
  let! st := rfold (compose_frag style key tree caps) (mkCState (mkComposer [] [] 0) 0 0 0) frags in
  Ok (co_b (cs_co st), co_binds (cs_co st)).

Definition ComposeTree (frags : list Frag) (key : ShapeKey) (tree : Tree) (caps : TreeCaps)
    : result RtErr (bytes * list Bind) :=
  ComposeTreeStyle StyleDollar frags key tree caps.

(** [ComposeStyle] panics on an error. *)
Definition ComposeStyle (style : Style) (frags : list Frag) (key : ShapeKey)
    : result RtErr (bytes * list Z) :=
  match ComposeTreeStyle style frags key None DefaultTreeCaps with
  | Ok (sql, binds) => Ok (sql, Idx <$> binds)
  | Err _ => Err GoPanic
  end.

Definition Compose (frags : list Frag) (key : ShapeKey) : result RtErr (bytes * list Z) :=
  ComposeStyle StyleDollar frags key.

(** [countBinds]: the capacity estimate of the bind slice. *)
Definition countBinds (frags : list Frag) : nat :=
  foldl (fun n f =>
    let n := n + length (FParamIdx f) in
    let n := foldl (fun n c => n + length (CParamIdx c)) n (FCases f) in
    match FDefault f with Some d => n + length (CParamIdx d) | None => n end) 0 frags.

(** ** Argument converters *)

(** [ChooseOrdinal]; [uint8(x)] keeps the low byte. *)
Definition ChooseOrdinal (v numNamed : Z) (hasDefault : bool) : result RtErr N :=
  let ordinals := if hasDefault then (numNamed + 1)%Z else numNamed in
  if Z.ltb MaxChooseOrdinals ordinals then Err (ErrShapeKeyLimit ordinals)
  else if (Z.eqb v 0 && hasDefault)%bool then Ok (Z.to_N (numNamed mod 256))
  else if (Z.leb 1 v && Z.leb v numNamed)%bool then Ok (Z.to_N ((v - 1) mod 256))
  else if Z.eqb v 0 then Err ErrChooseRequired
  else Err (ErrChooseRange v).

(** The loop of [OrderSeq] with the duplicate mask [seen]. *)
Fixpoint order_seq_loop (numKeys : Z) (vals : list Z) (seen : N) (seq : list N)
    : result RtErr (list N) :=
  match vals with
  | [] => Ok seq
  | e :: vals' =>
      let k := Z.shiftr e 1 in
      if (Z.ltb e 0 || Z.leb numKeys k)%bool then Err (ErrOrderKey e)
      else if negb (N.eqb (N.land seen (bit64 (Z.to_nat k))) 0) then Err (ErrOrderKey k)
      else order_seq_loop numKeys vals' (N.lor seen (bit64 (Z.to_nat k)))
             (seq ++ [Z.to_N (e mod 256)])
  end.

Definition OrderSeq (vals : list Z) (numKeys : Z) : result RtErr (list N) :=
  if Z.ltb MaxOrderKeys numKeys then Err (ErrShapeKeyLimit numKeys)
  else order_seq_loop numKeys vals 0 [].

(** ** Static expansion *)
Record Expanded := mkExpanded { ExSQL : bytes; ExArgIdx : list Z }.

Definition Lookup (shapes : gmap bytes Expanded) (key : ShapeKey) : result RtErr (bytes * list Z) :=
  match shapes !! ShapeKey_String key with
  | Some e => Ok (ExSQL e, ExArgIdx e)
  | None => Err ErrShapeNotExpanded
  end.
