(* ===== verification/Frags.v ===== *)
(** * Frags

    [internal/codegen/frags.go]: lowering a scanned template into the run-time
    fragment table. *)

From S2P Require Import Prelude Dialect Template Render Tree Runtime.

(** [for i, name := range names { m[name] = int16(i) }] *)
Definition index_map (names : list bytes) : gmap bytes Z :=
  foldl (fun m '(i, name) => <[name := i16 (Z.of_nat i)]> m) ∅ (imap pair names).

Section with_profile.
Context (profile : LexerProfile).

(** The body of [paramSpans]'s loop for one token. *)
Definition token_span (paramIdx : gmap bytes Z) (tok : Token) : option (RSpan * Z) :=
  if decide (Kind tok = KindParamRef) then
    i ← paramIdx !! tail (Text tok);
    Some (mkRSpan (i32 (Z.of_nat (Start tok))) (i32 (Z.of_nat (End tok))), i)
  else None.

Definition paramSpans (text : bytes) (paramIdx : gmap bytes Z) : list RSpan * list Z :=
  let spans := omap (token_span paramIdx) (tokens text).1 in
  (fst <$> spans, snd <$> spans).

Definition build_case (paramIdx : gmap bytes Z) (body : bytes) : Case :=
  let '(spans, idx) := paramSpans body paramIdx in mkCase body spans idx.

Definition frag0 (k : FragKind) : Frag := mkFrag k [] [] [] 0 SepNone [] None.

Definition lower_sep (s : Template.Sep) : Sep :=
  match s with
  | Template.SepAnd => SepAnd
  | Template.SepComma => SepComma
  | Template.SepNone => SepNone
  end.

(** [mask |= 1 << uint(bit[g])]; a missing atom reads as bit 0. *)
Definition guard_mask (bit : gmap GuardAtom nat) (guards : list GuardAtom) : N :=
  foldl (fun mask g => N.lor mask (bit64 (default 0 (bit !! g)))) 0%N guards.

Definition build_frag (bit : gmap GuardAtom nat) (paramIdx : gmap bytes Z) (it : Item) : Frag :=
  match it with
  | ISkeleton v =>
      let '(spans, idx) := paramSpans (SkText v) paramIdx in
      mkFrag Skel (SkText v) spans idx 0 SepNone [] None
  | IIfPresent v =>
      let '(spans, idx) := paramSpans (IPBody v) paramIdx in
      mkFrag Guarded (IPBody v) spans idx (guard_mask bit (IPGuards v)) (lower_sep (IPSep v)) [] None
  | IChoose v =>
      let cases := (fun cs => build_case paramIdx (CCBody cs)) <$> ChCases v in
      let cases := match ChDefault v with
                   | Some d => cases ++ [build_case paramIdx (CCBody d)]
                   | None => cases
                   end in
      mkFrag Choose [] [] [] 0 SepNone cases None
  | IInExpr v =>
      let idx := default 0%Z (paramIdx !! InParam v) in
      if decide (StyleOf profile = PlaceholderQuestion) then
        mkFrag InList (InEmptyOf profile) [] [idx] 0 SepNone [] None
      else mkFrag InAny [] [] [idx] 0 SepNone [] None
  | IFilterTree v =>
      mkFrag FilterTree [] [] [] 0 SepNone
        ((fun pr => build_case (index_map (PrParams pr)) (PrBody pr)) <$> FtPredicates v) None
  | IOrderBy v =>
      mkFrag OrderBy [] [] [] 0 SepNone
        ((fun k => build_case paramIdx (OKBody k)) <$> ObKeys v)
        (match ObDefault v with
         | Some d => match CCBody d with
                     | [] => None
                     | b => Some (build_case paramIdx b)
                     end
         | None => None
         end)
  end.

Definition BuildFrags (q : QueryTemplate) : list Frag :=
  build_frag (guard_bits q) (index_map (QParamOrder q)) <$> QItems q.

End with_profile.
