(* ===== verification/Demo.v ===== *)
(** * Demo

    A concrete query with every item kind, on which the theorems of the
    development are instantiated. *)

From S2P Require Import Prelude Dialect Postgres MySQL SQLite Template Render.

Definition sp0 : Span := mkSpan (bs "q.sql") 0 0.

Definition demo_predicates : list Predicate :=
  [mkPredicate (bs "byAge") (bs "age > :min AND age < :max") [bs "min"; bs "max"] sp0;
   mkPredicate (bs "byName") (bs "name = :n") [bs "n"] sp0].

Definition demo_choose : Choose :=
  mkChoose (bs "mode") [mkChooseCase (bs "a") (bs "AND x = :x") sp0; mkChooseCase (bs "b") (bs "") sp0]
    (Some (mkChooseCase (bs "default") (bs "AND x IS NULL") sp0)) SlotWhereConjunct sp0.

Definition demo_order : OrderBy :=
  mkOrderBy (bs "ord") [mkOrderKey (bs "id") (bs "id") sp0; mkOrderKey (bs "at") (bs "created") sp0]
    (Some (mkChooseCase (bs "default") (bs "ORDER BY id") sp0)) sp0.

Definition demo_items : list Item :=
  [ISkeleton (mkSkeleton (bs "SELECT id FROM t WHERE tenant = :tenant AND tenant <> ':no' ") sp0 false);
   IIfPresent (mkIfPresent [presence (bs "name")] SepAnd (bs "name = :name") SlotWhereConjunct sp0 sp0);
   ISkeleton (mkSkeleton (bs " AND k ") sp0 false);
   IInExpr (mkInExpr (bs "ids") sp0);
   IChoose demo_choose;
   ISkeleton (mkSkeleton (bs " AND ") sp0 false);
   IFilterTree (mkFilterTree (bs "f") false demo_predicates SlotWhereConjunct sp0);
   IOrderBy demo_order].

Definition demo_query : QueryTemplate :=
  simple_query demo_items
    [bs "tenant"; bs "name"; bs "ids"; bs "x"; bs "mode"; bs "ord"; bs "f"; bs "min"; bs "max"; bs "n"]
    [presence (bs "name")].

Definition get_ok {E A} (d : A) (r : result E A) : A := match r with Ok a => a | Err _ => d end.

Definition no_rendering : Rendering := mkRendering RenderMaximal 0 0 0 0 0 [] [] [] [] [].
