(* ===== verification/SourceMap.v ===== *)
(** * SourceMap

    The source map of a rendering: its segments tile the SQL, every byte it
    calls verbatim is the template's byte at the offset [ToTemplate] answers,
    and [ToTemplate]'s binary search finds the segment of every offset. *)

From S2P Require Import Prelude Dialect Postgres Template Render RenderInv Demo.

(** ** Tilings *)

(** Non-empty segments that cover [off .. stop] without gap or overlap. *)
Fixpoint tiles (off : nat) (segs : list Seg) (stop : nat) : Prop :=
  match segs with
  | [] => off = stop
  | s :: segs' => SgROff s = off /\ 0 < SgRLen s /\ tiles (off + SgRLen s) segs' stop
  end.

Definition covers (s : Seg) (rOff : nat) : Prop := SgROff s <= rOff < SgROff s + SgRLen s.

Lemma tiles_le off segs stop : tiles off segs stop -> off <= stop.
Proof.
  revert off. induction segs as [|s segs IH]; intros off; simpl; [lia|].
  intros (? & ? & H%IH). lia.
Qed.

Lemma tiles_app off segs1 segs2 stop :
  tiles off (segs1 ++ segs2) stop <-> exists mid, tiles off segs1 mid /\ tiles mid segs2 stop.
Proof.
  revert off. induction segs1 as [|s segs1 IH]; intros off; simpl.
  - split; [eauto|by intros (? & -> & ?)].
  - rewrite IH. naive_solver.
Qed.

Lemma tiles_bounds off segs stop i s :
  tiles off segs stop -> segs !! i = Some s -> off <= SgROff s /\ 0 < SgRLen s /\ SgROff s + SgRLen s <= stop.
Proof.
  revert off i. induction segs as [|t segs IH]; intros off i; [done|].
  intros (Ho & Hl & H). destruct i as [|i]; simpl.
  - intros [= <-]. apply tiles_le in H. lia.
  - intros Hi. destruct (IH _ _ H Hi). lia.
Qed.

Lemma tiles_sorted off segs stop i j s t :
  tiles off segs stop -> segs !! i = Some s -> segs !! j = Some t -> i < j ->
  SgROff s + SgRLen s <= SgROff t.
Proof.
  revert off i j. induction segs as [|u segs IH]; intros off i j; [done|].
  intros (Ho & Hl & H). destruct i as [|i], j as [|j]; simpl; intros Hi Hj Hij; try lia.
  - injection Hi as <-. pose proof (tiles_bounds _ _ _ _ _ H Hj). lia.
  - apply (IH _ i j H Hi Hj). lia.
Qed.

Lemma tiles_cover off segs stop rOff :
  tiles off segs stop -> off <= rOff < stop -> exists i s, segs !! i = Some s /\ covers s rOff.
Proof.
  revert off. induction segs as [|s segs IH]; intros off; simpl; [lia|].
  intros (Ho & Hl & H) Hr. destruct (decide (rOff < off + SgRLen s)) as [Hlt|Hge].
  - exists 0, s. split; [done|]. unfold covers. lia.
  - destruct (IH _ H ltac:(lia)) as (i & t & Hi & Hc). by exists (S i), t.
Qed.

(** ** The binary search *)

Definition seg_answer (s : Seg) (rOff : nat) : nat * bool :=
  if SgSynth s then (SgTOff s, true) else (SgTOff s + (rOff - SgROff s), false).

Lemma to_template_loop_spec fuel segs off stop rOff j s lo hi :
  tiles off segs stop -> segs !! j = Some s -> covers s rOff ->
  (0 <= lo <= Z.of_nat j)%Z -> (Z.of_nat j <= hi < Z.of_nat (length segs))%Z ->
  (hi - lo < Z.of_nat fuel)%Z ->
  to_template_loop fuel segs rOff lo hi = seg_answer s rOff.
Proof.
  intros Ht Hj [Hc1 Hc2]. revert lo hi. induction fuel as [|f IH]; intros lo hi Hlo Hhi Hf; [lia|].
  cbn [to_template_loop]. destruct (Z.leb_spec lo hi); [|lia].
  set (mid := Z.quot (lo + hi) 2).
  assert (lo <= mid <= hi)%Z as Hm.
  { unfold mid. rewrite Z.quot_div_nonneg by lia.
    pose proof (Z.div_mod (lo + hi) 2 ltac:(lia)). pose proof (Z.mod_pos_bound (lo + hi) 2 ltac:(lia)). lia. }
  destruct (lookup_lt_is_Some_2 segs (Z.to_nat mid)) as [t Hmid]; [lia|]. rewrite Hmid.
  destruct (Nat.ltb_spec rOff (SgROff t)) as [Hlt|Hge].
  - assert (j < Z.to_nat mid).
    { destruct (Nat.lt_trichotomy j (Z.to_nat mid)) as [?|[He|Hgt]]; [done|..].
      - assert (s = t) as <- by congruence. lia.
      - pose proof (tiles_sorted _ _ _ _ _ _ _ Ht Hmid Hj Hgt). lia. }
    apply IH; lia.
  - destruct (Nat.leb_spec (SgROff t + SgRLen t) rOff) as [Hle|Hin].
    + assert (Z.to_nat mid < j).
      { destruct (Nat.lt_trichotomy j (Z.to_nat mid)) as [Hl|[He|?]]; [..|done].
        - pose proof (tiles_sorted _ _ _ _ _ _ _ Ht Hj Hmid Hl). lia.
        - assert (s = t) as <- by congruence. lia. }
      apply IH; lia.
    + assert (s = t) as <-; [|done].
      destruct (Nat.lt_trichotomy j (Z.to_nat mid)) as [Hl|[He|Hg]]; [|congruence|].
      * pose proof (tiles_sorted _ _ _ _ _ _ _ Ht Hj Hmid Hl). lia.
      * pose proof (tiles_sorted _ _ _ _ _ _ _ Ht Hmid Hj Hg). lia.
Qed.

Lemma ToTemplate_covers segs stop rOff j s :
  tiles 0 segs stop -> segs !! j = Some s -> covers s rOff -> ToTemplate segs rOff = seg_answer s rOff.
Proof.
  intros Ht Hj Hc. pose proof (lookup_lt_Some _ _ _ Hj). unfold ToTemplate.
  eapply to_template_loop_spec; eauto; lia.
Qed.

(** Past the end of the SQL the answer is the synthetic anchor 0. *)
Lemma to_template_loop_none fuel segs off stop rOff lo hi :
  tiles off segs stop -> stop <= rOff -> to_template_loop fuel segs rOff lo hi = (0, true).
Proof.
  intros Ht Hr. revert lo hi. induction fuel as [|f IH]; intros lo hi; [done|].
  cbn [to_template_loop]. destruct (Z.leb lo hi); [|done].
  destruct (segs !! _) as [t|] eqn:E; [|done].
  pose proof (tiles_bounds _ _ _ _ _ Ht E).
  destruct (Nat.ltb_spec rOff (SgROff t)); [lia|].
  destruct (Nat.leb_spec (SgROff t + SgRLen t) rOff); [apply IH|lia].
Qed.

(** ** Rendering keeps the map *)

(** A text that is the template's from [tOff] on. *)
Definition text_at (src text : bytes) (tOff : nat) : Prop :=
  forall k c, text !! k = Some c -> src !! (tOff + k) = Some c.

(** A verbatim segment carries template bytes. *)
Definition seg_ok (src sb : bytes) (s : Seg) : Prop :=
  SgSynth s = false -> forall k, k < SgRLen s ->
  exists c, sb !! (SgROff s + k) = Some c /\ src !! (SgTOff s + k) = Some c.

Record map_wf (src : bytes) (r : renderer) : Prop := {
  map_tiles : tiles 0 (r_segs r) (length (r_sb r));
  map_segs : Forall (seg_ok src (r_sb r)) (r_segs r);
}.

Section keeps.
Context {profile : LexerProfile} {Laws : LexerLaws profile} (src : bytes).

Lemma push_seg_wf text tOff synth r :
  text <> [] -> (synth = false -> text_at src text tOff) -> map_wf src r -> map_wf src (push_seg text tOff synth r).
Proof.
  intros Hne Htext [Ht Hs]. split; cbn [push_seg r_segs r_sb].
  - rewrite length_app. apply tiles_app. eexists. split; [exact Ht|]. simpl.
    split_and!; [done| |done]. destruct text; [done|simpl; lia].
  - apply Forall_app. split.
    + rewrite Forall_lookup in Hs |- *. intros i s Hi Hsy k Hk.
      destruct (Hs i s Hi Hsy k Hk) as (c & Hc & ?). exists c. split; [|done]. by apply lookup_app_l_Some.
    + constructor; [|done]. intros Hsy k Hk. simpl in *. destruct (lookup_lt_is_Some_2 text k) as [c Hc]; [done|].
      exists c. split; [|by apply Htext]. rewrite lookup_app_r by lia. rewrite <- Hc. f_equal. lia.
Qed.

Lemma emitSynth_wf text anchor r : map_wf src r -> map_wf src (emitSynth text anchor r).
Proof. intros Hr. unfold emitSynth. destruct text; [done|]. by apply push_seg_wf. Qed.

Lemma add_frag_wf it n r : map_wf src r -> map_wf src (add_frag it n r).
Proof. by intros [? ?]. Qed.

Lemma placeholder_wf name r :
  map_wf src r -> (placeholder profile name r).1 <> [] /\ map_wf src (placeholder profile name r).2.
Proof.
  intros [? ?]. unfold placeholder. destruct (question profile); [done|].
  destruct (r_paramNum r !! name); done.
Qed.

Lemma flushRun_wf text tOff synth a b r :
  (synth = false -> text_at src text tOff) -> b <= length text -> map_wf src r ->
  map_wf src (flushRun text tOff synth a b r).
Proof.
  intros Ht Hb Hr. unfold flushRun. destruct (Nat.ltb_spec a b) as [Hab|]; [|done].
  apply push_seg_wf; [| |done].
  - intros Hn. apply (f_equal length) in Hn. rewrite slice_length in Hn by done. simpl in Hn. lia.
  - intros ->. specialize (Ht eq_refl). intros k c Hk.
    pose proof (lookup_lt_Some _ _ _ Hk) as Hl. rewrite slice_length in Hl by done.
    rewrite slice_lookup in Hk by done. rewrite <- Nat.add_assoc. by apply Ht.
Qed.

Lemma emit_tokens_wf text tOff synth toks runStart r :
  (synth = false -> text_at src text tOff) -> Forall (fun t => Start t <= length text) toks -> map_wf src r ->
  map_wf src (emit_tokens profile text tOff synth toks runStart r).2.
Proof.
  intros Ht. revert runStart r. induction toks as [|t toks IH]; intros runStart r Hb Hr; [done|].
  inversion Hb as [|? ? Hb1 Hb2]; subst. cbn [emit_tokens]. case_decide; [|by apply IH].
  pose proof (flushRun_wf text tOff synth runStart (Start t) r Ht Hb1 Hr) as H1.
  apply (placeholder_wf (tail (Text t))) in H1 as [Hne H1].
  destruct (placeholder profile _ _) as [ph r2]. apply IH; [done|]. by apply push_seg_wf.
Qed.

Lemma emitText_wf text tOff synth r r' :
  (synth = false -> text_at src text tOff) -> map_wf src r -> emitText profile text tOff synth r = Ok r' ->
  map_wf src r'.
Proof.
  intros Ht Hr. unfold emitText. pose proof (tokens_Lexes text) as HL.
  destruct (tokens text) as [toks err]. simpl in HL.
  assert (Forall (fun t => Start t <= length text) toks) as Hb.
  { apply Forall_forall. intros t Hin%list_elem_of_In.
    destruct (Lexes_wf _ _ _ _ _ HL Hin) as (p & _ & Hp & Hwf). rewrite (tok_start _ _ _ Hwf). lia. }
  pose proof (emit_tokens_wf text tOff synth toks 0 r Ht Hb Hr) as H1.
  destruct (emit_tokens profile text tOff synth toks 0 r) as [rs r1]. destruct err; [done|].
  intros [= <-]. by apply flushRun_wf.
Qed.

Lemma emitParamRef_wf name anchor r : map_wf src r -> map_wf src (emitParamRef profile name anchor r).
Proof.
  intros Hr. unfold emitParamRef. destruct (placeholder_wf name r Hr) as [Hne Hw].
  destruct (placeholder profile _ _). by apply push_seg_wf.
Qed.
End keeps.

(** ** Queries anchored in a template *)

(** The texts of an item are the template's bytes at the item's spans. *)
Definition anchored_at (src text : bytes) (tOff : nat) : bool :=
  bool_decide (slice src tOff (tOff + length text) = text).

Definition anchored (src : bytes) (q : QueryTemplate) : bool :=
  forallb (fun it => forallb (fun '(text, tOff, synth) => synth || anchored_at src text tOff) (item_texts it))
    (QItems q).

Lemma anchored_at_text src text tOff : anchored_at src text tOff = true -> text_at src text tOff.
Proof.
  intros H%bool_decide_eq_true k c Hk. rewrite <- H in Hk. pose proof (lookup_lt_Some _ _ _ Hk) as Hl.
  assert (length (slice src tOff (tOff + length text)) = length text) as He by by rewrite H.
  rewrite slice_lookup in Hk by lia. done.
Qed.

Lemma renderCore_map {profile : LexerProfile} {Laws : LexerLaws profile} src q s r :
  anchored src q = true -> renderCore profile q s = Ok r ->
  tiles 0 (RMap r) (length (RSQL r)) /\ Forall (seg_ok src (RSQL r)) (RMap r).
Proof.
  intros Ha Hr.
  destruct (renderCore_inv (map_wf src) (fun text tOff synth => synth = false -> text_at src text tOff)
    (fun _ => True)) with (q := q) (s := s) (r := r) as (r0 & [H1 H2] & -> & -> & _); [..|done|done].
  - intros. by apply emitSynth_wf.
  - intros. by apply add_frag_wf.
  - intros. by apply emitParamRef_wf.
  - intros. by eapply emitText_wf.
  - by split; [|constructor].
  - intros it Hit _. split; [|by destruct it]. intros text tOff synth Ht ->.
    unfold anchored in Ha. rewrite forallb_forall in Ha. apply list_elem_of_In, Ha in Hit.
    rewrite forallb_forall in Hit. apply list_elem_of_In, Hit in Ht. by apply anchored_at_text.
Qed.

(** ** The theorem *)

Lemma segs_faithful src sb segs rOff :
  tiles 0 segs (length sb) -> Forall (seg_ok src sb) segs ->
  (length sb <= rOff -> ToTemplate segs rOff = (0, true)) /\
  (rOff < length sb -> exists seg, seg ∈ segs /\ covers seg rOff /\ ToTemplate segs rOff = seg_answer seg rOff) /\
  (forall tOff, ToTemplate segs rOff = (tOff, false) -> exists c, sb !! rOff = Some c /\ src !! tOff = Some c).
Proof.
  intros Ht Hs.
  assert (length sb <= rOff -> ToTemplate segs rOff = (0, true)) as Hpast
    by (intros Hp; by eapply to_template_loop_none).
  assert (rOff < length sb -> exists seg, seg ∈ segs /\ covers seg rOff /\ ToTemplate segs rOff = seg_answer seg rOff) as Hin.
  { intros Hl. destruct (tiles_cover _ _ _ rOff Ht) as (j & seg & Hj & Hc); [lia|].
    exists seg. split_and!; [by eapply list_elem_of_lookup_2|done|by eapply ToTemplate_covers]. }
  split_and!; [done|done|]. intros tOff Hto. destruct (Nat.lt_ge_cases rOff (length sb)) as [Hl|Hl].
  - destruct (Hin Hl) as (seg & Hel & Hc & Heq). rewrite Heq in Hto. unfold seg_answer in Hto.
    destruct (SgSynth seg) eqn:Es; [done|]. injection Hto as <-.
    rewrite Forall_forall in Hs. apply list_elem_of_In in Hel. unfold covers in Hc.
    destruct (Hs seg Hel Es (rOff - SgROff seg)) as (c & H1 & H2); [lia|]. exists c. split; [|done].
    rewrite <- H1. f_equal. lia.
  - rewrite (Hpast Hl) in Hto. done.
Qed.

(** The source map of every rendering is total and faithful: an offset in
    the SQL falls in one segment, the binary search answers with it, an answer
    that is not synthetic is the offset of the same byte in the template, and
    an offset past the end is synthetic. *)
Theorem source_map_faithful {profile : LexerProfile} {Laws : LexerLaws profile} src q s r rOff :
  anchored src q = true -> renderCore profile q s = Ok r ->
  (length (RSQL r) <= rOff -> ToTemplate (RMap r) rOff = (0, true)) /\
  (rOff < length (RSQL r) ->
   exists seg, seg ∈ RMap r /\ covers seg rOff /\ ToTemplate (RMap r) rOff = seg_answer seg rOff) /\
  (forall tOff, ToTemplate (RMap r) rOff = (tOff, false) ->
   exists c, RSQL r !! rOff = Some c /\ src !! tOff = Some c).
Proof.
  intros Ha Hr. destruct (renderCore_map src q s r Ha Hr) as [Ht Hs]. by apply segs_faithful.
Qed.

(** ** Instance *)
Definition mapped_src : bytes := bs "SELECT id FROM t WHERE a = :a /*@if b*/ b = :b /*@endif*/ LIMIT 1".

Definition mapped_span (lo hi : nat) : Span := mkSpan (bs "q.sql") lo hi.

Definition mapped_query : QueryTemplate :=
  simple_query
    [ISkeleton (mkSkeleton (slice mapped_src 0 30) (mapped_span 0 30) false);
     IIfPresent (mkIfPresent [presence (bs "b")] SepAnd (bs "b = :b") SlotWhereConjunct (mapped_span 30 57)
       (mapped_span 40 46));
     ISkeleton (mkSkeleton (slice mapped_src 57 65) (mapped_span 57 65) false)]
    [bs "a"; bs "b"] [presence (bs "b")].

Definition mapped_rendering : Rendering :=
  get_ok no_rendering (Render Postgres.Profile mapped_query ∅).

Lemma source_map_faithful_witness :
  (length (RSQL mapped_rendering) <= 36 -> ToTemplate (RMap mapped_rendering) 36 = (0, true)) /\
  (36 < length (RSQL mapped_rendering) ->
   exists seg, seg ∈ RMap mapped_rendering /\ covers seg 36 /\
     ToTemplate (RMap mapped_rendering) 36 = seg_answer seg 36) /\
  (forall tOff, ToTemplate (RMap mapped_rendering) 36 = (tOff, false) ->
   exists c, RSQL mapped_rendering !! 36 = Some c /\ mapped_src !! tOff = Some c).
Proof.
  apply (source_map_faithful (profile := Postgres.Profile) mapped_src mapped_query
    (mkSelection allActive ∅ [] [] [])); vm_compute; reflexivity.
Defined.

Example mapped_offset : ToTemplate (RMap mapped_rendering) 37 = (41, false).
Proof. vm_compute. reflexivity. Qed.
