(* ===== verification/Shape.v ===== *)
(** * Shape

    [internal/shape/shape.go]: shape keys, their canonical encoding, and the
    enumeration and count of a template's reachable shapes.  [all_keys] is the
    reference enumeration; [EnumerateExpand] is proved to return its prefix
    under a cap, [CountExpand] its length. *)

From S2P Require Import Prelude Dialect Template Render Runtime Demo.

(** ** Keys *)
Record Key := mkKey {
  KGuards : N;
  KChoices : list N;
  KOrders : list (option (list N));
  KIns : list N;
}.

#[export] Instance Key_eq_dec : EqDecision Key.
Proof. solve_decision. Defined.

(** [fmt.Fprintf(&b, "%d%s", e>>1, dir)] *)
Definition encode_elem (e : N) : bytes :=
  let dir := if N.eqb (N.land e 1) 1 then bs "d" else bs "a" in
  FormatUint (N.shiftr e 1) 10 ++ dir.

(** [for i, x := range xs { if i > 0 { b.WriteString(sep) }; b.Write(f(x)) }] *)
Definition write_list {A} (sep : bytes) (f : A -> bytes) (xs : list A) (b : bytes) : bytes :=
  (foldl (fun '(first, b) x => (false, (if (first : bool) then b else b ++ sep) ++ f x))
     (true, b) xs).2.

Definition encode_seq (seq : option (list N)) : bytes :=
  match seq with
  | None => bs "*"
  | Some [] => bs "-"
  | Some es => write_list (bs ",") encode_elem es []
  end.

Definition EncodeKey (guards : N) (choices : list N) (orders : list (option (list N))) : bytes :=
  let b := bs "g=" ++ FormatUint guards 16 in
  let b := if Nat.ltb 0 (length choices)
           then write_list (bs ",") (fun c => FormatUint c 10) choices (b ++ bs ";c=") else b in
  if Nat.ltb 0 (length orders) then write_list (bs "|") encode_seq orders (b ++ bs ";o=") else b.

Definition Key_String (k : Key) : bytes :=
  let s := EncodeKey (KGuards k) (KChoices k) (KOrders k) in
  if Nat.ltb 0 (length (KIns k))
  then write_list (bs ",") (fun n => FormatUint n 10) (KIns k) (s ++ bs ";n=") else s.

(** The conversions to the renderer's and the runtime's forms. *)
Definition Selection (k : Key) : CaseSelection :=
  foldl (fun sel '(i, c) => <[i := N.to_nat c]> sel) ∅ (imap pair (KChoices k)).

Definition OrderSelection_of (k : Key) : OrderSelection := KOrders k.
Definition InSelection_of (k : Key) : InSelection := KIns k.
Definition Key_Arities (k : Key) : list Z :=
  match KIns k with [] => [] | ins => (fun n => i32 (Z.of_N n)) <$> ins end.

(** ** Blocks *)
Definition inBlocks (q : QueryTemplate) : nat :=
  foldl (fun n it => match it with IInExpr _ => n + 1 | _ => n end) 0 (QItems q).

Definition chooseBlocks (q : QueryTemplate) : list Template.Choose :=
  foldl (fun out it => match it with IChoose c => out ++ [c] | _ => out end) [] (QItems q).

Definition orderBlocks (q : QueryTemplate) : list Template.OrderBy :=
  foldl (fun out it => match it with IOrderBy o => out ++ [o] | _ => out end) [] (QItems q).

Definition ordinals (c : Template.Choose) : nat :=
  let n := length (ChCases c) in
  let n := match ChDefault c with Some _ => n + 1 | None => n end in
  if Nat.eqb n 0 then 1 else n.

(** ** Enumeration

    A callback returns whether to go on and the new state of the variables it
    captures. *)
Section loops.
Context {St : Type}.

(** [for _, x := range xs { if !body(x) { return false } }; return true] *)
Definition for_each {X} (body : X -> St -> bool * St) : list X -> St -> bool * St :=
  fix go xs st :=
    match xs with
    | [] => (true, st)
    | x :: xs' => let '(ok, st) := body x st in if (ok : bool) then go xs' st else (false, st)
    end.

(** [p] iterations of a loop body that may stop. *)
Fixpoint repeat_stop (body : St -> bool * St) (p : positive) (st : St) : bool * St :=
  match p with
  | xH => body st
  | xO p' =>
      let '(ok, st) := repeat_stop body p' st in
      if (ok : bool) then repeat_stop body p' st else (false, st)
  | xI p' =>
      let '(ok, st) := body st in
      if (ok : bool) then
        let '(ok, st) := repeat_stop body p' st in
        if (ok : bool) then repeat_stop body p' st else (false, st)
      else (false, st)
  end.

(** [orderOptions]: the closure [rec].  [used] and [cur] are restored after
    every step the loop goes on from, so they are arguments; [cur]'s bytes
    are [uint8(k)<<1|d].  Fuel: a level marks one more key, so [numKeys + 1]
    levels are enough while the keys fit the mask ([orderOptions_selections]). *)
Fixpoint order_rec (numKeys : nat) (emit : list N -> St -> bool * St) (fuel : nat)
    (used : N) (cur : list N) (st : St) : bool * St :=
  match fuel with
  | O => (true, st)
  | S f =>
      for_each (fun k st =>
        if negb (N.eqb (N.land used (bit64 k)) 0) then (true, st)
        else
          let used := N.lor used (bit64 k) in
          for_each (fun d st =>
            let cur := cur ++ [N.lor (u8 (N.shiftl (u8 (N.of_nat k)) 1)) d] in
            let '(ok, st) := emit cur st in
            if (ok : bool) then order_rec numKeys emit f used cur st else (false, st))
            [0%N; 1%N] st)
        (seq 0 numKeys) st
  end.

Definition orderOptions (numKeys : nat) (emit : list N -> St -> bool * St) (st : St) : bool * St :=
  let '(ok, st) := emit [] st in
  if (ok : bool) then order_rec numKeys emit (S numKeys) 0 [] st else (false, st).
End loops.

(** The variables [keys] and [truncated] of [EnumerateExpand]. *)
Abbreviation EnumState := (list Key * bool)%type.

Section enumerate.
Context (capN : Z) (oBlocks : list Template.OrderBy) (ords : list nat) (nIns : nat).

Definition emit_key (guards : N) (choices : list N) (orders : list (option (list N)))
    (ins : list N) (st : EnumState) : bool * EnumState :=
  let '(keys, truncated) := st in
  if (Z.ltb 0 capN && Z.leb capN (Z.of_nat (length keys)))%bool then (false, (keys, true))
  else (true, (keys ++ [mkKey guards choices orders ins], truncated)).

(** [walkIns], [walkOrders], [walk]: [rem] blocks are left, the arrays hold
    the selections made so far. *)
Fixpoint walkIns (rem : nat) (guards : N) (choices : list N) (orders : list (option (list N)))
    (ins : list N) (st : EnumState) : bool * EnumState :=
  match rem with
  | O => emit_key guards choices orders ins st
  | S rem' =>
      for_each (fun n st => walkIns rem' guards choices orders (<[nIns - rem := n]> ins) st)
        [1%N; 0%N] st
  end.

Fixpoint walkOrders (blocks : list Template.OrderBy) (guards : N) (choices : list N)
    (orders : list (option (list N))) (st : EnumState) : bool * EnumState :=
  match blocks with
  | [] => walkIns nIns guards choices orders (replicate nIns 0%N) st
  | b :: blocks' =>
      orderOptions (length (ObKeys b)) (fun seq st =>
        walkOrders blocks' guards choices
          (<[length oBlocks - length blocks := Some seq]> orders) st) st
  end.

Fixpoint walk (rest : list nat) (guards : N) (choices : list N) (st : EnumState)
    : bool * EnumState :=
  match rest with
  | [] => walkOrders oBlocks guards choices (replicate (length oBlocks) None) st
  | n :: rest' =>
      for_each (fun o st =>
        walk rest' guards (<[length ords - length rest := u8 (N.of_nat o)]> choices) st)
        (seq 0 n) st
  end.
End enumerate.

(** The guard loop runs over [g = 0 .. 2^nGuards - 1] ([2^64 - 1] is its last
    value for 64 guards). *)
Definition EnumerateExpand (q : QueryTemplate) (capN : Z) (expandIn : bool) : EnumState :=
  let blocks := chooseBlocks q in
  let oBlocks := orderBlocks q in
  let ords := ordinals <$> blocks in
  let nGuards := length (QGuardAtoms q) in
  let nIns := if expandIn then inBlocks q else 0 in
  let body '(g, st) :=
    let '(ok, st) := walk capN oBlocks ords nIns ords g (replicate (length blocks) 0%N) st in
    (ok, ((g + 1)%N, st)) in
  (repeat_stop body (Pos.shiftl 1 (N.of_nat (min nGuards 64))) (0%N, ([], false))).2.2.

Definition Enumerate (q : QueryTemplate) (capN : Z) : EnumState := EnumerateExpand q capN false.

(** ** Counting *)

(** The loop of [orderCount] with its variables [total], [perm], [pow2]. *)
Definition orderCount (n : nat) : N :=
  (foldl (fun '(total, perm, pow2) k =>
     let perm := (perm * N.of_nat (n - k + 1))%N in
     let pow2 := N.shiftl pow2 1 in
     (total + perm * pow2, perm, pow2)%N) (1, 1, 1)%N (seq 1 n)).1.1.

Definition CountExpand (q : QueryTemplate) (expandIn : bool) : N :=
  let n := N.shiftl 1 (N.of_nat (length (QGuardAtoms q))) in
  let n := foldl (fun n c => n * N.of_nat (ordinals c))%N n (chooseBlocks q) in
  let n := foldl (fun n o => n * orderCount (length (ObKeys o)))%N n (orderBlocks q) in
  if expandIn then N.shiftl n (N.of_nat (inBlocks q)) else n.

Definition Count (q : QueryTemplate) : N := CountExpand q false.

(** ** The reference enumeration *)

(** The key an element of an [@order-by] sequence names. *)
Definition elem_key (e : N) : N := N.shiftr e 1.

(** The extensions of a sequence by up to [fuel] further keys. *)
Fixpoint extensions (fuel n : nat) (cur : list N) : list (list N) :=
  match fuel with
  | O => []
  | S f =>
      flat_map (fun k =>
        if decide (N.of_nat k ∈ elem_key <$> cur) then []
        else flat_map (fun d => let cur := cur ++ [(2 * N.of_nat k + d)%N] in
               cur :: extensions f n cur) [0%N; 1%N]) (seq 0 n)
  end.

(** The empty selection and every ordered subset of keys with directions. *)
Definition order_selections (n : nat) : list (list N) := [] :: extensions (S n) n [].

Fixpoint product {A} (ls : list (list A)) : list (list A) :=
  match ls with
  | [] => [[]]
  | l :: ls' => flat_map (fun x => cons x <$> product ls') l
  end.

Definition key_choices (q : QueryTemplate) : list (list N) :=
  product ((fun c => N.of_nat <$> seq 0 (ordinals c)) <$> omap as_choose (QItems q)).

Definition key_orders (q : QueryTemplate) : list (list (option (list N))) :=
  product ((fun o => Some <$> order_selections (length (ObKeys o))) <$> omap as_order (QItems q)).

Definition key_ins (q : QueryTemplate) (expandIn : bool) : list (list N) :=
  product (replicate (if expandIn then length (omap as_in (QItems q)) else 0) [1%N; 0%N]).

Definition key_guards (q : QueryTemplate) : list N :=
  N.of_nat <$> seq 0 (2 ^ length (QGuardAtoms q)).

Definition all_keys (q : QueryTemplate) (expandIn : bool) : list Key :=
  flat_map (fun g => flat_map (fun cs => flat_map (fun os => mkKey g cs os <$> key_ins q expandIn)
    (key_orders q)) (key_choices q)) (key_guards q).

(** The limits the scanner enforces. *)
Definition within_limits (q : QueryTemplate) : bool :=
  (Nat.leb (length (QGuardAtoms q)) 64 &&
   forallb (fun c => Nat.leb (ordinals c) 255) (omap as_choose (QItems q)) &&
   forallb (fun o => Nat.leb (length (ObKeys o)) 64) (omap as_order (QItems q)))%bool.

(** * Lemmas *)

(** ** Loops as [for_each] *)
Section loop_lemmas.
Context {St : Type}.

Lemma for_each_ext {X} (f g : X -> St -> bool * St) xs st :
  (forall x st, x ∈ xs -> f x st = g x st) -> for_each f xs st = for_each g xs st.
Proof.
  revert st. induction xs as [|x xs IH]; intros st H; simpl; [done|].
  rewrite H by set_solver. destruct (g x st) as [[] st']; [|done].
  apply IH. intros. apply H. set_solver.
Qed.

Lemma for_each_app {X} (f : X -> St -> bool * St) xs ys st :
  for_each f (xs ++ ys) st
  = let '(ok, st) := for_each f xs st in if ok then for_each f ys st else (false, st).
Proof.
  revert st. induction xs as [|x xs IH]; intros st; simpl; [done|].
  destruct (f x st) as [[] st']; [apply IH|done].
Qed.

Lemma for_each_flat_map {X Y} (f : Y -> St -> bool * St) (g : X -> list Y) xs st :
  for_each (fun x => for_each f (g x)) xs st = for_each f (flat_map g xs) st.
Proof.
  revert st. induction xs as [|x xs IH]; intros st; simpl; [done|].
  rewrite for_each_app. destruct (for_each f (g x) st) as [[] st']; [apply IH|done].
Qed.

Lemma for_each_fmap {X Y} (f : Y -> St -> bool * St) (g : X -> Y) xs st :
  for_each f (g <$> xs) st = for_each (fun x => f (g x)) xs st.
Proof.
  revert st. induction xs as [|x xs IH]; intros st; [done|]. rewrite fmap_cons. simpl.
  destruct (f (g x) st) as [[] st']; [apply IH|done].
Qed.

Lemma for_each_single {X} (f : X -> St -> bool * St) x st : for_each f [x] st = f x st.
Proof. simpl. by destruct (f x st) as [[] st']. Qed.

Lemma for_each_cons {X} (f : X -> St -> bool * St) x xs st :
  for_each f (x :: xs) st = let '(ok, st) := f x st in if ok then for_each f xs st else (false, st).
Proof. done. Qed.

Lemma repeat_stop_for_each (body : St -> bool * St) p st :
  repeat_stop body p st = for_each (fun _ => body) (replicate (Pos.to_nat p) tt) st.
Proof.
  revert st. induction p as [p IH|p IH|]; intros st; cbn [repeat_stop].
  - rewrite Pos2Nat.inj_xI. cbn [replicate]. rewrite for_each_cons.
    destruct (body st) as [[] st1]; [|done].
    replace (2 * Pos.to_nat p) with (Pos.to_nat p + Pos.to_nat p) by lia.
    rewrite replicate_add, for_each_app, IH. destruct (for_each _ _ st1) as [[] st2]; [apply IH|done].
  - rewrite Pos2Nat.inj_xO.
    replace (2 * Pos.to_nat p) with (Pos.to_nat p + Pos.to_nat p) by lia.
    rewrite replicate_add, for_each_app, IH. destruct (for_each _ _ st) as [[] st2]; [apply IH|done].
  - change (Pos.to_nat 1) with 1. cbn [replicate]. by rewrite for_each_single.
Qed.

End loop_lemmas.

(** A counted loop. *)
Lemma for_each_count {St} (body : N -> St -> bool * St) n g st :
  (for_each (fun _ '(g, st) => let '(ok, st) := body g st in (ok, ((g + 1)%N, st)))
     (replicate n tt) (N.of_nat g, st)).2.2
  = (for_each body (N.of_nat <$> seq g n) st).2.
Proof.
  revert g st. induction n as [|n IH]; intros g st; [done|].
  cbn [replicate seq]. rewrite fmap_cons, !(for_each_cons _ _ _ (_, _)), !for_each_cons. cbn beta match.
  destruct (body (N.of_nat g) st) as [[] st']; [|done].
  replace (N.of_nat g + 1)%N with (N.of_nat (S g)) by lia. apply IH.
Qed.

Lemma order_elem_byte k d :
  k < 64 -> (d < 2)%N -> N.lor (u8 (N.shiftl (u8 (N.of_nat k)) 1)) d = (2 * N.of_nat k + d)%N.
Proof.
  intros Hk Hd. rewrite (u8_id (N.of_nat k)) by lia.
  rewrite N.shiftl_mul_pow2, N.pow_1_r, u8_id by lia.
  assert (d = 0 \/ d = 1)%N as [-> | ->] by lia; [rewrite N.lor_0_r; lia|].
  destruct (N.of_nat k) as [|p]; [done|]. by replace (N.pos p * 2)%N with (N.pos p~0) by lia.
Qed.

Lemma elem_key_byte k d : (d < 2)%N -> elem_key (2 * k + d) = k.
Proof.
  intros Hd. unfold elem_key. rewrite N.shiftr_div_pow2, N.pow_1_r.
  symmetry. apply N.div_unique with d; lia.
Qed.

(** The mask [used] and the keys of [cur] agree. *)
Definition mask_of (used : N) (cur : list N) : Prop :=
  forall k, k < 64 -> N.testbit used (N.of_nat k) = bool_decide (N.of_nat k ∈ elem_key <$> cur).

Lemma land_bit64' used k : k < 64 ->
  negb (N.eqb (N.land used (bit64 k)) 0) = N.testbit used (N.of_nat k).
Proof.
  intros Hk. destruct (N.testbit used (N.of_nat k)) eqn:E.
  - apply negb_true_iff, N.eqb_neq. intros Hz.
    apply (f_equal (fun n => N.testbit n (N.of_nat k))) in Hz.
    rewrite N.land_spec, E, bit64_testbit, N.eqb_refl, N.bits_0 in Hz.
    destruct (N.ltb_spec (N.of_nat k) 64); [done|lia].
  - apply negb_false_iff, N.eqb_eq, N.bits_inj. intros i. rewrite N.land_spec, bit64_testbit, N.bits_0.
    destruct (N.eqb_spec i (N.of_nat k)) as [->|]; [by rewrite E|].
    by rewrite !andb_false_r.
Qed.

Lemma mask_of_snoc used cur k e :
  k < 64 -> mask_of used cur -> elem_key e = N.of_nat k ->
  mask_of (N.lor used (bit64 k)) (cur ++ [e]).
Proof.
  intros Hk Hm He j Hj. rewrite N.lor_spec, Hm, bit64_testbit by done.
  rewrite fmap_app. simpl. rewrite He.
  destruct (N.ltb_spec (N.of_nat j) 64); [|lia]. simpl.
  destruct (N.eqb_spec (N.of_nat j) (N.of_nat k)) as [Heq|Hne].
  - rewrite orb_true_r. symmetry. apply bool_decide_eq_true. set_solver.
  - rewrite orb_false_r. apply bool_decide_ext. set_solver.
Qed.

Lemma order_rec_extensions {St} n (emit : list N -> St -> bool * St) fuel used cur st :
  n <= 64 -> mask_of used cur ->
  order_rec n emit fuel used cur st = for_each emit (extensions fuel n cur) st.
Proof.
  intros Hn. revert used cur st. induction fuel as [|f IH]; intros used cur st Hm; [done|].
  cbn [order_rec extensions]. rewrite <- for_each_flat_map. apply for_each_ext.
  intros k st1 Hk%elem_of_seq. rewrite land_bit64', Hm by lia.
  case_bool_decide as Hin; [by rewrite decide_True|]. rewrite decide_False by done.
  rewrite <- for_each_flat_map. apply for_each_ext. intros d st2 Hd.
  assert (d < 2)%N by (set_unfold in Hd; lia).
  rewrite order_elem_byte by lia. rewrite for_each_cons.
  destruct (emit _ st2) as [[] st3]; [|done]. apply IH.
  apply mask_of_snoc; [lia|done|]. by apply elem_key_byte.
Qed.

Lemma orderOptions_selections {St} n (emit : list N -> St -> bool * St) st :
  n <= 64 -> orderOptions n emit st = for_each emit (order_selections n) st.
Proof.
  intros Hn. unfold orderOptions, order_selections. rewrite for_each_cons.
  destruct (emit [] st) as [[] st']; [|done]. apply order_rec_extensions; [done|].
  intros k _. rewrite N.bits_0. symmetry. apply bool_decide_eq_false. set_solver.
Qed.

(** ** The walks *)

Lemma fmap_flat_map {A B C} (f : B -> C) (g : A -> list B) l :
  f <$> flat_map g l = flat_map (fun x => f <$> g x) l.
Proof. induction l as [|x l IH]; simpl; [done|]. by rewrite fmap_app, <- IH. Qed.

Lemma flat_map_fmap {A B C} (f : B -> list C) (g : A -> B) l :
  flat_map f (g <$> l) = flat_map (fun x => f (g x)) l.
Proof. induction l as [|x l IH]; [done|]. rewrite fmap_cons. simpl. by rewrite IH. Qed.

Lemma flat_map_flat_map {A B C} (f : B -> list C) (g : A -> list B) l :
  flat_map f (flat_map g l) = flat_map (fun x => flat_map f (g x)) l.
Proof. induction l as [|x l IH]; simpl; [done|]. by rewrite flat_map_app, IH. Qed.

Lemma flat_map_product {A B} (F : list A -> list B) l ls :
  flat_map F (product (l :: ls)) = flat_map (fun x => flat_map (fun r => F (x :: r)) (product ls)) l.
Proof.
  simpl. rewrite flat_map_flat_map. apply flat_map_ext. intros x. apply flat_map_fmap.
Qed.

(** Writing the next entry of an array. *)
Lemma insert_next {A} (pre junk : list A) y x n :
  n = length pre -> <[n := x]> (pre ++ y :: junk) = (pre ++ [x]) ++ junk.
Proof. intros ->. rewrite insert_app_r_alt, Nat.sub_diag by lia. simpl. by rewrite <- app_assoc. Qed.

Section walks.
Context (capN : Z) (oBlocks : list Template.OrderBy) (ords : list nat) (nIns : nat).
Hypothesis Hords : Forall (fun n => n <= 256) ords.
Hypothesis Hkeys : Forall (fun o => length (ObKeys o) <= 64) oBlocks.

Definition emit1 (k : Key) (st : EnumState) : bool * EnumState :=
  emit_key capN (KGuards k) (KChoices k) (KOrders k) (KIns k) st.

Lemma walkIns_spec rem g cs os pre junk st :
  length junk = rem -> length pre + rem = nIns ->
  walkIns capN nIns rem g cs os (pre ++ junk) st
  = for_each emit1 ((fun i => mkKey g cs os (pre ++ i)) <$> product (replicate rem [1%N; 0%N])) st.
Proof.
  revert pre junk st. induction rem as [|rem IH]; intros pre junk st Hj Hn.
  - destruct junk; [|done]. rewrite !app_nil_r. cbn [walkIns replicate product fmap list_fmap].
    rewrite for_each_single. by rewrite app_nil_r.
  - destruct junk as [|y junk]; [done|]. simpl in Hj.
    assert (product (replicate (S rem) [1%N; 0%N])
      = flat_map (fun x => cons x <$> product (replicate rem [1%N; 0%N])) [1%N; 0%N]) as -> by done.
    rewrite fmap_flat_map, <- for_each_flat_map. cbn [walkIns]. apply for_each_ext. intros x st1 _.
    rewrite insert_next by lia. rewrite IH by (rewrite ?length_app; simpl; lia).
    f_equal. rewrite <- list_fmap_compose. apply list_fmap_ext. intros ?? _. simpl. by rewrite <- app_assoc.
Qed.

Abbreviation INS := (product (replicate nIns [1%N; 0%N])).

Lemma walkOrders_spec blocks g cs pre junk st :
  Forall (fun o => length (ObKeys o) <= 64) blocks ->
  length junk = length blocks -> length pre + length blocks = length oBlocks ->
  walkOrders capN oBlocks nIns blocks g cs (pre ++ junk) st
  = for_each emit1 (flat_map (fun os => mkKey g cs (pre ++ os) <$> INS)
      (product ((fun o => Some <$> order_selections (length (ObKeys o))) <$> blocks))) st.
Proof.
  intros Hb. revert pre junk st. induction Hb as [|b blocks Hb1 Hb IH]; intros pre junk st Hj Hn.
  - destruct junk; [|done]. cbn [walkOrders fmap list_fmap product flat_map]. rewrite !app_nil_r.
    rewrite <- (app_nil_l (replicate nIns 0%N)), walkIns_spec; [done|by rewrite length_replicate|done].
  - destruct junk as [|y junk]; [done|]. simpl in Hj, Hn. cbn [walkOrders].
    rewrite fmap_cons, flat_map_product, flat_map_fmap, orderOptions_selections by done.
    rewrite <- for_each_flat_map. apply for_each_ext. intros x st1 _.
    rewrite insert_next by (simpl; lia). rewrite IH by (rewrite ?length_app; simpl; lia).
    f_equal. apply flat_map_ext. intros os. by rewrite <- app_assoc.
Qed.

Abbreviation ORDERS := (product ((fun o => Some <$> order_selections (length (ObKeys o))) <$> oBlocks)).

Lemma walk_spec rest g pre junk st :
  Forall (fun n => n <= 256) rest ->
  length junk = length rest -> length pre + length rest = length ords ->
  walk capN oBlocks ords nIns rest g (pre ++ junk) st
  = for_each emit1 (flat_map (fun cs => flat_map (fun os => mkKey g (pre ++ cs) os <$> INS) ORDERS)
      (product ((fun n => N.of_nat <$> seq 0 n) <$> rest))) st.
Proof.
  intros Hr. revert pre junk st. induction Hr as [|n rest Hn1 Hr IH]; intros pre junk st Hj Hn.
  - destruct junk; [|done]. cbn [walk fmap list_fmap product flat_map]. rewrite !app_nil_r.
    rewrite <- (app_nil_l (replicate (length oBlocks) None)), walkOrders_spec;
      [done|done|by rewrite length_replicate|done].
  - destruct junk as [|y junk]; [done|]. simpl in Hj, Hn. cbn [walk].
    rewrite fmap_cons, flat_map_product, flat_map_fmap, <- for_each_flat_map.
    apply for_each_ext. intros x st1 Hx%elem_of_seq.
    rewrite insert_next by (simpl; lia). rewrite u8_id by lia.
    rewrite IH by (rewrite ?length_app; simpl; lia).
    f_equal. apply flat_map_ext. intros cs. by rewrite <- app_assoc.
Qed.
End walks.

(** What the emission of a list of keys leaves under a cap. *)
Lemma emit_all capN ks keys :
  (0 < capN)%Z -> (Z.of_nat (length keys) <= capN)%Z ->
  (for_each (emit1 capN) ks (keys, false)).2
  = (take (Z.to_nat capN) (keys ++ ks), Nat.ltb (Z.to_nat capN) (length (keys ++ ks))).
Proof.
  intros Hc. revert keys. induction ks as [|k ks IH]; intros keys Hk.
  - rewrite app_nil_r. rewrite take_ge by lia. simpl.
    destruct (Nat.ltb_spec (Z.to_nat capN) (length keys)); [lia|done].
  - rewrite for_each_cons. unfold emit1 at 1, emit_key.
    destruct (Z.ltb_spec 0 capN); [|lia]. cbn [andb].
    destruct (Z.leb_spec capN (Z.of_nat (length keys))).
    + simpl. rewrite take_app_length' by lia. f_equal. symmetry. apply Nat.ltb_lt.
      rewrite length_app. simpl. lia.
    + rewrite IH by (rewrite length_app; simpl; lia). rewrite <- app_assoc. by destruct k.
Qed.

Lemma emit_all_nocap capN ks keys :
  (capN <= 0)%Z -> (for_each (emit1 capN) ks (keys, false)).2 = (keys ++ ks, false).
Proof.
  intros Hc. revert keys. induction ks as [|k ks IH]; intros keys; [by rewrite app_nil_r|].
  rewrite for_each_cons. unfold emit1 at 1, emit_key.
  destruct (Z.ltb_spec 0 capN); [lia|]. cbn [andb]. rewrite IH, <- app_assoc. by destruct k.
Qed.

Lemma foldl_snoc_omap {A B} (f : A -> option B) (step : list B -> A -> list B) :
  (forall out x, step out x = match f x with Some y => out ++ [y] | None => out end) ->
  forall xs out, foldl step out xs = out ++ omap f xs.
Proof.
  intros Hs. induction xs as [|x xs IH]; intros out; simpl; [by rewrite app_nil_r|].
  rewrite IH, Hs. destruct (f x); [by rewrite <- app_assoc|done].
Qed.

Lemma chooseBlocks_omap q : chooseBlocks q = omap as_choose (QItems q).
Proof. unfold chooseBlocks. rewrite (foldl_snoc_omap as_choose); [done|]. by intros ? []. Qed.

Lemma orderBlocks_omap q : orderBlocks q = omap as_order (QItems q).
Proof. unfold orderBlocks. rewrite (foldl_snoc_omap as_order); [done|]. by intros ? []. Qed.

Lemma inBlocks_omap q : inBlocks q = length (omap as_in (QItems q)).
Proof.
  unfold inBlocks. enough (forall items n,
    foldl (fun n it => match it with IInExpr _ => n + 1 | _ => n end) n items
    = n + length (omap as_in items)) as -> by lia.
  induction items as [|it items IH]; intros n; [simpl; lia|].
  cbn [foldl]. rewrite IH. destruct it; cbn; lia.
Qed.

Lemma within_limits_facts q :
  within_limits q = true ->
  length (QGuardAtoms q) <= 64 /\ Forall (fun n => n <= 255) (ordinals <$> omap as_choose (QItems q)) /\
  Forall (fun o => length (ObKeys o) <= 64) (omap as_order (QItems q)).
Proof.
  unfold within_limits. intros [[H1 H2]%andb_prop H3]%andb_prop.
  rewrite forallb_forall in H2, H3. split_and!.
  - by apply Nat.leb_le.
  - apply Forall_fmap, Forall_forall. intros c Hc. by apply Nat.leb_le, H2.
  - apply Forall_forall. intros o Ho. by apply Nat.leb_le, H3.
Qed.

Lemma pos_pow2 n : Pos.to_nat (Pos.shiftl 1 (N.of_nat n)) = 2 ^ n.
Proof.
  induction n as [|n IH]; [done|].
  assert (Pos.shiftl 1 (N.of_nat (S n)) = xO (Pos.shiftl 1 (N.of_nat n))) as ->.
  { destruct n as [|n]; [done|]. unfold Pos.shiftl. cbn [N.of_nat Pos.of_succ_nat].
    exact (Pos.iter_succ (Pos.of_succ_nat n) positive xO 1%positive). }
  rewrite Pos2Nat.inj_xO, IH. simpl. lia.
Qed.

(** The enumeration under a cap is a prefix of the reference enumeration. *)
Lemma EnumerateExpand_keys q capN expandIn :
  within_limits q = true ->
  EnumerateExpand q capN expandIn
  = if Z.leb capN 0 then (all_keys q expandIn, false)
    else (take (Z.to_nat capN) (all_keys q expandIn),
          Nat.ltb (Z.to_nat capN) (length (all_keys q expandIn))).
Proof.
  intros (Hg & Ho & Hk)%within_limits_facts. unfold EnumerateExpand.
  rewrite chooseBlocks_omap, orderBlocks_omap, inBlocks_omap, Nat.min_l by done.
  set (nIns := if expandIn then _ else 0). set (blocks := omap as_choose (QItems q)) in *.
  set (oBlocks := omap as_order (QItems q)) in *.
  rewrite repeat_stop_for_each, pos_pow2.
  rewrite (for_each_ext _ (fun _ '(g, st) => let '(ok, st) :=
      for_each (emit1 capN) (flat_map (fun cs => flat_map (fun os => mkKey g cs os <$> key_ins q expandIn)
        (key_orders q)) (key_choices q)) st in (ok, ((g + 1)%N, st)))).
  2: { intros _ [g st] _. rewrite <- (app_nil_l (replicate (length blocks) 0%N)).
       rewrite (walk_spec capN oBlocks (ordinals <$> blocks) nIns Hk); rewrite ?length_replicate, ?length_fmap;
         [|revert Ho; apply Forall_impl; simpl; lia|done|done].
       unfold key_choices, key_orders, key_ins. rewrite <- list_fmap_compose. done. }
  rewrite (for_each_count (fun g st => for_each (emit1 capN) (flat_map (fun cs => flat_map (fun os =>
    mkKey g cs os <$> key_ins q expandIn) (key_orders q)) (key_choices q)) st) (2 ^ length (QGuardAtoms q)) 0).
  rewrite for_each_flat_map. fold (key_guards q) (all_keys q expandIn).
  destruct (Z.leb_spec capN 0).
  - by rewrite emit_all_nocap.
  - by rewrite emit_all by (simpl; lia).
Qed.

(** ** What is enumerated *)

Lemma elem_of_flat_map {A B} (f : A -> list B) l y :
  y ∈ flat_map f l <-> exists x, x ∈ l /\ y ∈ f x.
Proof.
  rewrite list_elem_of_In, in_flat_map. by setoid_rewrite list_elem_of_In.
Qed.

Lemma elem_of_product {A} (ls : list (list A)) x :
  x ∈ product ls <-> Forall2 (fun a l => a ∈ l) x ls.
Proof.
  revert x. induction ls as [|l ls IH]; intros x; simpl.
  - rewrite list_elem_of_singleton. split; [by intros ->|by inversion 1].
  - rewrite elem_of_flat_map. setoid_rewrite list_elem_of_fmap. setoid_rewrite IH. split.
    + intros (a & Ha & r & -> & Hr). by constructor.
    + inversion 1 as [|a ? r ? Ha Hr]; subst. eauto.
Qed.

(** An [@order-by] selection over [n] keys: no key twice, every element one of
    [key<<1|desc]. *)
Definition valid_seq (n : nat) (s : list N) : Prop :=
  NoDup (elem_key <$> s) /\ Forall (fun e => e < 2 * N.of_nat n)%N s.

Lemma elem_split e : exists d, (d < 2)%N /\ e = (2 * elem_key e + d)%N.
Proof.
  exists (e mod 2)%N. split; [by apply N.mod_lt|].
  unfold elem_key. rewrite N.shiftr_div_pow2, N.pow_1_r. by apply N.div_mod.
Qed.

Lemma elem_key_lt e n : (e < 2 * n)%N -> (elem_key e < n)%N.
Proof.
  intros He. unfold elem_key. rewrite N.shiftr_div_pow2, N.pow_1_r.
  by apply N.Div0.div_lt_upper_bound.
Qed.

Lemma elem_of_extensions fuel n cur c :
  c ∈ extensions fuel n cur <->
  exists e ext, c = cur ++ e :: ext /\ length ext < fuel /\ valid_seq n (e :: ext) /\
    forall k, k ∈ elem_key <$> (e :: ext) -> ~ k ∈ elem_key <$> cur.
Proof.
  revert cur c. induction fuel as [|f IH]; intros cur c; cbn [extensions].
  { split; [set_solver|]. intros (? & ? & _ & ? & _). lia. }
  rewrite elem_of_flat_map. split.
  - intros (k & Hk%elem_of_seq & Hc). destruct (decide _) as [|Hnot]; [set_solver|].
    apply elem_of_flat_map in Hc as (d & Hd & Hc).
    assert (d < 2)%N by (set_unfold in Hd; lia).
    assert (elem_key (2 * N.of_nat k + d) = N.of_nat k) as Hek by by apply elem_key_byte.
    apply elem_of_cons in Hc as [->|Hc].
    + exists (2 * N.of_nat k + d)%N, []. split_and!; [done|simpl; lia| |].
      * split; [apply list.NoDup_singleton|]. constructor; [lia|done].
      * intros k' Hk'. apply list_elem_of_singleton in Hk' as ->. by rewrite Hek.
    + apply IH in Hc as (e & ext & -> & Hl & [Hnd Hlt] & Hfresh).
      exists (2 * N.of_nat k + d)%N, (e :: ext). rewrite <- app_assoc.
      split_and!; [done|simpl in *; lia| |].
      * split; [|constructor; [lia|done]]. rewrite fmap_cons. apply list.NoDup_cons.
        split; [|done]. rewrite Hek. intros Hin. apply (Hfresh _ Hin).
        rewrite fmap_app. simpl. rewrite Hek. set_solver.
      * intros k' Hk'. rewrite fmap_cons, Hek in Hk'. apply elem_of_cons in Hk' as [->|Hk']; [done|].
        intros Hin. apply (Hfresh _ Hk'). rewrite fmap_app. set_solver.
  - intros (e & ext & -> & Hl & [Hnd Hlt] & Hfresh). rewrite fmap_cons in *.
    apply list.NoDup_cons in Hnd as [Hn Hnd]. inversion Hlt as [|? ? He Hlt']; subst.
    destruct (elem_split e) as (d & Hd & Hes).
    exists (N.to_nat (elem_key e)). split; [pose proof (elem_key_lt _ _ He); apply elem_of_seq; lia|].
    rewrite N2Nat.id. rewrite decide_False by (apply Hfresh; set_solver).
    apply elem_of_flat_map. exists d. split.
    { assert (d = 0 \/ d = 1)%N as [-> | ->] by lia; set_solver. }
    rewrite <- Hes. destruct ext as [|e' ext]; [set_solver|].
    apply elem_of_cons. right. apply IH. exists e', ext. rewrite <- app_assoc.
    split_and!; [done|simpl in *; lia|done|].
    intros k Hk. rewrite fmap_app. simpl. rewrite elem_of_app, list_elem_of_singleton.
    intros [Hin| ->]; [|done]. eapply Hfresh; [|done]. set_solver.
Qed.

Lemma valid_seq_length n s : valid_seq n s -> length s <= n.
Proof.
  intros [Hnd Hlt]. rewrite <- (length_fmap elem_key).
  transitivity (length (N.of_nat <$> seq 0 n)); [|by rewrite length_fmap, length_seq].
  apply submseteq_length, NoDup_submseteq; [done|]. intros k (e & -> & He)%list_elem_of_fmap.
  apply list_elem_of_fmap. exists (N.to_nat (elem_key e)). rewrite N2Nat.id. split; [done|].
  apply elem_of_seq. rewrite Forall_forall in Hlt. apply list_elem_of_In in He.
  pose proof (elem_key_lt _ _ (Hlt _ He)). lia.
Qed.

Lemma elem_of_order_selections n s : s ∈ order_selections n <-> valid_seq n s.
Proof.
  unfold order_selections. rewrite elem_of_cons, elem_of_extensions. split.
  - intros [->|(e & ext & -> & _ & Hv & _)]; [|done]. split; constructor.
  - intros Hv. destruct s as [|e ext]; [by left|]. right. exists e, ext.
    pose proof (valid_seq_length _ _ Hv) as Hl. simpl in Hl.
    split_and!; [done|lia|done|]. intros k _. set_solver.
Qed.

(** A reachable key: a mask over the guard atoms, an ordinal per [@choose], a
    sequence per [@order-by] and, when [in] lists expand, an arity class per
    [in]. *)
Definition reachable (q : QueryTemplate) (expandIn : bool) (k : Key) : Prop :=
  (KGuards k < 2 ^ N.of_nat (length (QGuardAtoms q)))%N /\
  Forall2 (fun c b => c < N.of_nat (ordinals b))%N (KChoices k) (omap as_choose (QItems q)) /\
  Forall2 (fun s b => exists es, s = Some es /\ valid_seq (length (ObKeys b)) es)
    (KOrders k) (omap as_order (QItems q)) /\
  length (KIns k) = (if expandIn then length (omap as_in (QItems q)) else 0) /\
  Forall (fun n => n <= 1)%N (KIns k).

Lemma elem_of_all_keys q expandIn k : k ∈ all_keys q expandIn <-> reachable q expandIn k.
Proof.
  unfold all_keys, reachable. rewrite elem_of_flat_map. setoid_rewrite elem_of_flat_map.
  setoid_rewrite elem_of_flat_map.
  assert (forall g, g ∈ key_guards q <-> (g < 2 ^ N.of_nat (length (QGuardAtoms q)))%N) as Hg.
  { intros g. unfold key_guards. rewrite list_elem_of_fmap. setoid_rewrite elem_of_seq.
    assert (2 ^ N.of_nat (length (QGuardAtoms q)) = N.of_nat (2 ^ length (QGuardAtoms q)))%N as ->
      by (by rewrite Nat2N.inj_pow). split.
    - intros (x & -> & ?). lia.
    - intros ?. exists (N.to_nat g). rewrite N2Nat.id. split; [done|lia]. }
  assert (forall cs, cs ∈ key_choices q <->
    Forall2 (fun c b => c < N.of_nat (ordinals b))%N cs (omap as_choose (QItems q))) as Hc.
  { intros cs. unfold key_choices. rewrite elem_of_product, Forall2_fmap_r. split; apply Forall2_impl.
    - intros c b (x & -> & Hx%elem_of_seq)%list_elem_of_fmap. lia.
    - intros c b Hcb. apply list_elem_of_fmap. exists (N.to_nat c). rewrite N2Nat.id.
      split; [done|]. apply elem_of_seq. lia. }
  assert (forall os, os ∈ key_orders q <-> Forall2 (fun s b => exists es, s = Some es /\
    valid_seq (length (ObKeys b)) es) os (omap as_order (QItems q))) as Ho.
  { intros os. unfold key_orders. rewrite elem_of_product, Forall2_fmap_r. split; apply Forall2_impl.
    - intros s b (es & -> & Hes%elem_of_order_selections)%list_elem_of_fmap. eauto.
    - intros s b (es & -> & Hes). apply list_elem_of_fmap. exists es.
      by rewrite elem_of_order_selections. }
  assert (forall ins, ins ∈ key_ins q expandIn <->
    length ins = (if expandIn then length (omap as_in (QItems q)) else 0) /\
    Forall (fun n => n <= 1)%N ins) as Hi.
  { intros ins. unfold key_ins. generalize (if expandIn then length (omap as_in (QItems q)) else 0).
    intros n. rewrite elem_of_product. revert ins. induction n as [|n IH]; intros ins; simpl.
    - split; [by inversion 1|]. by destruct ins; intros [? _].
    - split.
      + inversion 1 as [|a ? r ? Ha Hr]; subst. apply IH in Hr as [<- Hr]. split; [done|].
        constructor; [set_unfold in Ha; lia|done].
      + intros [Hl Hall]. destruct ins as [|a ins]; [done|]. inversion Hall; subst.
        constructor; [|apply IH; split; [simpl in Hl; lia|done]].
        assert (a = 0 \/ a = 1)%N as [-> | ->] by lia; set_solver. }
  destruct k as [g cs os ins]; simpl. split.
  - intros (g' & Hg' & cs' & Hc' & os' & Ho' & (ins' & H & Hi')%list_elem_of_fmap). injection H as -> -> -> ->.
    apply Hg in Hg'. apply Hc in Hc'. apply Ho in Ho'. apply Hi in Hi'. tauto.
  - intros (Hg' & Hc' & Ho' & Hi'). exists g. split; [by apply Hg|]. exists cs. split; [by apply Hc|].
    exists os. split; [by apply Ho|]. apply list_elem_of_fmap. exists ins. split; [done|by apply Hi].
Qed.

(** ** No key twice *)

Lemma NoDup_flat_map {A B} (f : A -> list B) l :
  NoDup l -> (forall x, x ∈ l -> NoDup (f x)) ->
  (forall x y z, x ∈ l -> y ∈ l -> z ∈ f x -> z ∈ f y -> x = y) -> NoDup (flat_map f l).
Proof.
  induction 1 as [|x l Hx Hnd IH]; intros Hf Hd; simpl; [constructor|].
  apply list.NoDup_app. split_and!.
  - apply Hf. set_solver.
  - intros z Hz (y & Hy & Hz')%elem_of_flat_map. apply Hx.
    assert (x = y) as -> by (eapply Hd; set_solver). done.
  - apply IH; [intros; apply Hf; set_solver|]. intros; eapply Hd; set_solver.
Qed.

Lemma NoDup_product {A} (ls : list (list A)) : Forall NoDup ls -> NoDup (product ls).
Proof.
  induction 1 as [|l ls Hl Hls IH]; simpl; [apply list.NoDup_singleton|].
  apply NoDup_flat_map; [done| |].
  - intros x _. by apply NoDup_fmap_2; [apply _|].
  - intros x y z _ _ (r & -> & _)%list_elem_of_fmap (r' & H & _)%list_elem_of_fmap. by injection H.
Qed.

Lemma extensions_prefix fuel n cur c : c ∈ extensions fuel n cur -> exists e ext, c = cur ++ e :: ext.
Proof. intros (e & ext & -> & _)%elem_of_extensions. eauto. Qed.

Lemma NoDup_extensions fuel n cur : NoDup (extensions fuel n cur).
Proof.
  revert cur. induction fuel as [|f IH]; intros cur; cbn [extensions]; [constructor|].
  assert (forall k d c, (d < 2)%N ->
    c ∈ (cur ++ [(2 * N.of_nat k + d)%N]) :: extensions f n (cur ++ [(2 * N.of_nat k + d)%N]) ->
    exists ext, c = cur ++ (2 * N.of_nat k + d)%N :: ext) as Hp.
  { intros k d c _ [->|(e & ext & ->)%extensions_prefix]%elem_of_cons; [by exists []|].
    exists (e :: ext). by rewrite <- app_assoc. }
  apply NoDup_flat_map; [apply NoDup_ListNoDup, seq_NoDup| |].
  - intros k _. destruct (decide _); [constructor|].
    apply NoDup_flat_map; [apply list.NoDup_cons; split; [set_solver|apply list.NoDup_singleton]| |].
    + intros d _. apply list.NoDup_cons. split; [|apply IH].
      intros (e & ext & Heq)%extensions_prefix. apply (f_equal length) in Heq.
      rewrite !length_app in Heq. simpl in Heq. lia.
    + intros d d' c Hd Hd' Hc Hc'. apply Hp in Hc as [x ->]; [|set_unfold in Hd; lia].
      apply Hp in Hc' as [y H]; [|set_unfold in Hd'; lia].
      apply app_inv_head in H. injection H as H _. lia.
  - intros k k' c _ _ Hc Hc'. destruct (decide _); [set_solver|]. destruct (decide _); [set_solver|].
    apply elem_of_flat_map in Hc as (d & Hd & Hc). apply elem_of_flat_map in Hc' as (d' & Hd' & Hc').
    assert (d < 2)%N by (set_unfold in Hd; lia). assert (d' < 2)%N by (set_unfold in Hd'; lia).
    apply Hp in Hc as [x ->]; [|done]. apply Hp in Hc' as [y Heq]; [|done].
    apply app_inv_head in Heq. injection Heq as Heq _. lia.
Qed.

Lemma NoDup_order_selections n : NoDup (order_selections n).
Proof.
  unfold order_selections. apply list.NoDup_cons. split; [|apply NoDup_extensions].
  by intros (e & ext & H)%extensions_prefix.
Qed.

Lemma NoDup_all_keys q expandIn : NoDup (all_keys q expandIn).
Proof.
  unfold all_keys.
  apply NoDup_flat_map; [unfold key_guards; apply NoDup_fmap_2; [apply _|apply NoDup_ListNoDup, seq_NoDup]| |].
  - intros g _. apply NoDup_flat_map.
    { apply NoDup_product, Forall_fmap, Forall_forall. intros c _. simpl.
      apply NoDup_fmap_2; [apply _|apply NoDup_ListNoDup, seq_NoDup]. }
    + intros cs _. apply NoDup_flat_map.
      { apply NoDup_product, Forall_fmap, Forall_forall. intros o _. cbn beta.
        apply NoDup_fmap_2; [apply _|apply NoDup_order_selections]. }
      * intros os _. apply NoDup_fmap_2; [by intros ?? [= ->]|].
        apply NoDup_product, Forall_forall. intros l Hl. apply repeat_spec in Hl || apply list_elem_of_In, elem_of_replicate in Hl as [-> _].
        apply list.NoDup_cons; split; [set_solver|apply list.NoDup_singleton].
      * intros os os' k _ _ (? & -> & _)%list_elem_of_fmap (? & H & _)%list_elem_of_fmap. by injection H.
    + intros cs cs' k _ _ (? & _ & (? & -> & _)%list_elem_of_fmap)%elem_of_flat_map
        (? & _ & (? & H & _)%list_elem_of_fmap)%elem_of_flat_map. by injection H.
  - intros g g' k _ _ (? & _ & (? & _ & (? & -> & _)%list_elem_of_fmap)%elem_of_flat_map)%elem_of_flat_map
      (? & _ & (? & _ & (? & H & _)%list_elem_of_fmap)%elem_of_flat_map)%elem_of_flat_map. by injection H.
Qed.

(** ** Counting *)

(** The number of non-empty selections over [n] keys. *)
Fixpoint seqs_count (n : nat) : N :=
  match n with
  | O => 0
  | S m => 2 * N.of_nat (S m) * (1 + seqs_count m)
  end%N.

Lemma orderCount_seqs n : orderCount n = (1 + seqs_count n)%N.
Proof.
  unfold orderCount.
  enough (forall m k total perm pow2, k + m = n ->
    (foldl (fun '(total, perm, pow2) k =>
       let perm := (perm * N.of_nat (n - k + 1))%N in
       let pow2 := N.shiftl pow2 1 in
       (total + perm * pow2, perm, pow2)%N) (total, perm, pow2) (seq (S k) m)).1.1
    = (total + perm * pow2 * seqs_count m)%N) as He by (rewrite (He n 0); [lia|done]).
  induction m as [|m IH]; intros k total perm pow2 Hk; [simpl; lia|].
  cbn [seq foldl]. rewrite IH by lia. rewrite N.shiftl_mul_pow2, N.pow_1_r.
  replace (n - S k + 1) with (S m) by lia. cbn [seqs_count]. lia.
Qed.

Lemma length_flat_map_sum {A B} (f : A -> list B) (p : A -> bool) c l :
  (forall x, x ∈ l -> length (f x) = if p x then c else 0) ->
  length (flat_map f l) = length (filter (fun x => p x = true) l) * c.
Proof.
  induction l as [|x l IH]; intros Hf; [done|]. simpl. rewrite length_app, IH by (intros; apply Hf; set_solver).
  rewrite Hf by set_solver. rewrite filter_cons. destruct (p x); simpl; lia.
Qed.

Lemma unused_count n cur :
  NoDup (elem_key <$> cur) -> Forall (fun e => e < 2 * N.of_nat n)%N cur ->
  length (filter (fun k => bool_decide (~ N.of_nat k ∈ elem_key <$> cur) = true) (seq 0 n)) = n - length cur.
Proof.
  intros Hnd Hlt.
  assert ((N.of_nat <$> seq 0 n) ≡ₚ (elem_key <$> cur) ++
    (N.of_nat <$> filter (fun k => bool_decide (~ N.of_nat k ∈ elem_key <$> cur) = true) (seq 0 n))) as Hp.
  { apply NoDup_Permutation.
    - apply NoDup_fmap_2; [apply _|apply NoDup_ListNoDup, seq_NoDup].
    - apply list.NoDup_app. split_and!; [done| |].
      + intros k Hk (j & -> & Hj)%list_elem_of_fmap. apply list_elem_of_filter in Hj as [Hj _].
        apply bool_decide_eq_true in Hj. done.
      + apply NoDup_fmap_2; [apply _|]. apply list.NoDup_filter, NoDup_ListNoDup, seq_NoDup.
    - intros k. rewrite elem_of_app. split.
      + intros (j & -> & Hj)%list_elem_of_fmap.
        destruct (decide (N.of_nat j ∈ elem_key <$> cur)); [by left|]. right.
        apply list_elem_of_fmap. exists j. split; [done|]. apply list_elem_of_filter.
        by rewrite bool_decide_eq_true.
      + intros [(e & -> & He)%list_elem_of_fmap|(j & -> & [_ Hj]%list_elem_of_filter)%list_elem_of_fmap].
        * rewrite Forall_forall in Hlt. apply list_elem_of_In in He.
          pose proof (elem_key_lt _ _ (Hlt _ He)). apply list_elem_of_fmap.
          exists (N.to_nat (elem_key e)). rewrite N2Nat.id. split; [done|]. apply elem_of_seq. lia.
        * apply list_elem_of_fmap. eauto. }
  apply Permutation_length in Hp. rewrite length_app, !length_fmap, length_seq in Hp. lia.
Qed.

Lemma length_extensions fuel n cur :
  NoDup (elem_key <$> cur) -> Forall (fun e => e < 2 * N.of_nat n)%N cur -> n - length cur <= fuel ->
  N.of_nat (length (extensions fuel n cur)) = seqs_count (n - length cur).
Proof.
  revert cur. induction fuel as [|f IH]; intros cur Hnd Hlt Hf.
  { replace (n - length cur) with 0 by lia. done. }
  cbn [extensions]. pose proof (valid_seq_length n cur (conj Hnd Hlt)) as Hle.
  rewrite (length_flat_map_sum _ (fun k => bool_decide (~ N.of_nat k ∈ elem_key <$> cur))
    (N.to_nat (2 * (1 + seqs_count (n - length cur - 1))))).
  - rewrite unused_count by done. destruct (n - length cur) as [|m] eqn:Em; [done|].
    cbn [seqs_count]. replace (S m - 1) with m by lia. lia.
  - intros k Hk%elem_of_seq. destruct (decide (N.of_nat k ∈ elem_key <$> cur)) as [Hin|Hin].
    + rewrite bool_decide_eq_false_2 by tauto. done.
    + rewrite bool_decide_eq_true_2 by done. simpl. rewrite app_nil_r, length_app. simpl.
      assert (forall d, (d < 2)%N -> N.of_nat (length (extensions f n (cur ++ [(2 * N.of_nat k + d)%N])))
        = seqs_count (n - length cur - 1)) as Hl.
      { intros d Hd. rewrite IH.
        - f_equal. rewrite length_app. simpl. lia.
        - rewrite fmap_app. apply list.NoDup_app. split_and!; [done| |apply list.NoDup_singleton].
          intros j Hj Hj'%list_elem_of_singleton. subst. by rewrite elem_key_byte in Hj.
        - apply Forall_app. split; [done|]. constructor; [lia|done].
        - rewrite length_app. simpl. lia. }
      pose proof (Hl 0%N ltac:(lia)). pose proof (Hl 1%N ltac:(lia)). simpl in *. lia.
Qed.

Lemma length_flat_map_const {A B} (f : A -> list B) c l :
  (forall x, length (f x) = c) -> length (flat_map f l) = length l * c.
Proof. intros Hf. induction l as [|x l IH]; [done|]. simpl. by rewrite length_app, Hf, IH. Qed.

Lemma length_product {A B} (f : A -> list B) (g : A -> N) xs n :
  (forall x, x ∈ xs -> N.of_nat (length (f x)) = g x) ->
  foldl (fun n x => n * g x)%N n xs = (n * N.of_nat (length (product (f <$> xs))))%N.
Proof.
  revert n. induction xs as [|x xs IH]; intros n Hg; [simpl; lia|].
  cbn [foldl]. rewrite IH by (intros; apply Hg; set_solver). rewrite fmap_cons. cbn [product].
  rewrite (length_flat_map_const _ (length (product (f <$> xs)))) by (intros; apply length_fmap).
  rewrite <- (Hg x) by set_solver. lia.
Qed.

Lemma length_order_selections n : N.of_nat (length (order_selections n)) = orderCount n.
Proof.
  rewrite orderCount_seqs. unfold order_selections. cbn [length].
  rewrite Nat2N.inj_succ, length_extensions by (try constructor; simpl; lia). simpl.
  rewrite Nat.sub_0_r. lia.
Qed.

Lemma length_all_keys q expandIn : N.of_nat (length (all_keys q expandIn)) = CountExpand q expandIn.
Proof.
  unfold all_keys, CountExpand. rewrite chooseBlocks_omap, orderBlocks_omap, inBlocks_omap.
  rewrite (length_product (fun c => N.of_nat <$> seq 0 (ordinals c)) (fun c => N.of_nat (ordinals c)))
    by (intros; by rewrite length_fmap, length_seq).
  rewrite (length_product (fun o => Some <$> order_selections (length (ObKeys o)))
    (fun o => orderCount (length (ObKeys o)))) by (intros; by rewrite length_fmap, length_order_selections).
  fold (key_choices q) (key_orders q).
  rewrite (length_flat_map_const _ (length (key_choices q) * (length (key_orders q) * length (key_ins q expandIn)))).
  2: { intros g. rewrite (length_flat_map_const _ (length (key_orders q) * length (key_ins q expandIn))); [done|].
       intros cs. rewrite (length_flat_map_const _ (length (key_ins q expandIn))); [done|].
       intros os. by rewrite length_fmap. }
  assert (length (key_guards q) = 2 ^ length (QGuardAtoms q)) as ->
    by (unfold key_guards; by rewrite length_fmap, length_seq).
  assert (length (key_ins q expandIn) = 2 ^ (if expandIn then length (omap as_in (QItems q)) else 0)) as ->.
  { unfold key_ins. generalize (if expandIn then length (omap as_in (QItems q)) else 0).
    induction n as [|n IH]; [done|]. simpl. rewrite app_nil_r, length_app, !length_fmap, IH. lia. }
  rewrite N.shiftl_1_l. destruct expandIn; rewrite ?N.shiftl_mul_pow2; rewrite !Nat2N.inj_mul, !Nat2N.inj_pow; simpl; lia.
Qed.

(** ** The theorems *)

(** C25: [Enumerate] without a cap lists every reachable shape key - every
    guard mask, every ordinal of every [@choose], every ordered subset of every
    [@order-by]'s keys with every direction, every arity class of every
    expanding [in] - exactly once, and [Count] is their number. *)
Theorem enumeration_complete q expandIn :
  within_limits q = true ->
  let '(keys, truncated) := EnumerateExpand q 0 expandIn in
  truncated = false /\ NoDup keys /\ (forall k, k ∈ keys <-> reachable q expandIn k) /\
  N.of_nat (length keys) = CountExpand q expandIn.
Proof.
  intros Hq. rewrite EnumerateExpand_keys by done. cbn.
  split_and!; [done|apply NoDup_all_keys|apply elem_of_all_keys|apply length_all_keys].
Qed.

(** A positive cap keeps the first keys of that enumeration, in its order,
    and reports the truncation exactly when there are more. *)
Theorem enumeration_capped q capN expandIn :
  within_limits q = true -> (0 < capN)%Z ->
  EnumerateExpand q capN expandIn
  = (take (Z.to_nat capN) (EnumerateExpand q 0 expandIn).1, N.ltb (Z.to_N capN) (CountExpand q expandIn)).
Proof.
  intros Hq Hc. rewrite !EnumerateExpand_keys by done. destruct (Z.leb_spec capN 0); [lia|]. cbn [Z.leb Z.compare fst].
  f_equal. rewrite <- length_all_keys. apply eq_true_iff_eq. rewrite Nat.ltb_lt, N.ltb_lt. lia.
Qed.

(** [CountExpand] counts the reachable shape keys of any query, within
    the limits or not: it is the length of every list of them without
    repetition. *)
Theorem count_exact q expandIn keys :
  NoDup keys -> (forall k, k ∈ keys <-> reachable q expandIn k) ->
  CountExpand q expandIn = N.of_nat (length keys).
Proof.
  intros Hnd Hk. rewrite <- length_all_keys. f_equal.
  apply Permutation_length, NoDup_Permutation; [apply NoDup_all_keys|done|].
  intros k. by rewrite Hk, elem_of_all_keys.
Qed.

(** ** Instances *)
Definition small_query : QueryTemplate :=
  simple_query
    [ISkeleton (mkSkeleton (bs "SELECT 1 ") sp0 false);
     IIfPresent (mkIfPresent [presence (bs "name")] Template.SepAnd (bs "name = :name") SlotWhereConjunct sp0 sp0);
     IInExpr (mkInExpr (bs "ids") sp0); IOrderBy demo_order]
    [bs "name"; bs "ids"; bs "ord"] [presence (bs "name")].

Lemma enumeration_complete_witness :
  let '(keys, truncated) := EnumerateExpand small_query 0 true in
  truncated = false /\ NoDup keys /\ (forall k, k ∈ keys <-> reachable small_query true k) /\
  N.of_nat (length keys) = CountExpand small_query true.
Proof. apply (enumeration_complete small_query true). vm_compute. reflexivity. Defined.

Lemma enumeration_capped_witness :
  EnumerateExpand small_query 5 true
  = (take (Z.to_nat 5) (EnumerateExpand small_query 0 true).1, N.ltb (Z.to_N 5) (CountExpand small_query true)).
Proof. apply (enumeration_capped small_query 5 true); vm_compute; reflexivity. Defined.

Lemma count_exact_witness : CountExpand small_query true = N.of_nat (length (all_keys small_query true)).
Proof. apply count_exact; [apply NoDup_all_keys|apply elem_of_all_keys]. Defined.

(** Two guard masks, two arity classes, 13 selections of two keys. *)
Example small_count : CountExpand small_query true = 52%N.
Proof. vm_compute. reflexivity. Qed.
