(* ===== verification/Keys.v ===== *)
(** * Keys

    The canonical key encoding: [shape.Key.String] and
    [runtime.ShapeKey.String] agree, and the encoding is injective, so a map
    indexed by it ([Lookup], the composed cache, the committed analysis cache)
    confuses no two shapes. *)

From S2P Require Import Prelude Dialect Template Render Tree Runtime Shape.

(** ** Alphabets *)

(** [0-9a-z], the digits of [strconv] up to base 36. *)
Definition is_alnum (c : ascii) : bool :=
  (("0" <=b c) && (c <=b "9") || ("a" <=b c) && (c <=b "z"))%char%bool.

Lemma digit_alnum d : (d < 36)%N -> is_alnum (digit d) = true.
Proof.
  intros Hd. unfold digit, is_alnum, byte_leb. rewrite N_ascii_embedding by (case_match; lia).
  change (N_of_ascii "0") with 48%N. change (N_of_ascii "9") with 57%N.
  change (N_of_ascii "a") with 97%N. change (N_of_ascii "z") with 122%N.
  destruct (N.ltb_spec d 10); apply orb_true_iff; rewrite !andb_true_iff, !N.leb_le; lia.
Qed.

Lemma fmt_go_alnum base fuel n acc :
  (1 <= base <= 36)%N -> forallb is_alnum acc = true -> forallb is_alnum (fmt_go fuel base n acc) = true.
Proof.
  intros Hb. revert n acc. induction fuel as [|f IH]; intros n acc Ha; [done|]. cbn [fmt_go].
  assert (forallb is_alnum (digit (n mod base) :: acc) = true) as Ha'.
  { simpl. rewrite Ha, digit_alnum; [done|]. pose proof (N.mod_lt n base ltac:(lia)) as Hm.
    eapply N.lt_le_trans; [exact Hm|lia]. }
  destruct (N.eqb (n / base) 0); [done|]. by apply IH.
Qed.

Lemma FormatUint_alnum n base : (1 <= base <= 36)%N -> forallb is_alnum (FormatUint n base) = true.
Proof. intros Hb. by apply fmt_go_alnum. Qed.

(** A text that avoids a character. *)
Definition avoids (c : ascii) (s : bytes) : Prop := ~ c ∈ s.

Lemma alnum_avoids c s : is_alnum c = false -> forallb is_alnum s = true -> avoids c s.
Proof. intros Hc Hs Hin. rewrite forallb_forall in Hs. apply list_elem_of_In, Hs in Hin. congruence. Qed.

Lemma FormatUint_avoids c n base : (1 <= base <= 36)%N -> is_alnum c = false -> avoids c (FormatUint n base).
Proof. intros Hb Hc. by apply alnum_avoids, FormatUint_alnum. Qed.

Lemma FormatInt_avoids c z : is_alnum c = false -> c <> "-"%char -> avoids c (FormatInt z).
Proof.
  intros Hc Hne. unfold FormatInt, avoids. destruct (Z.ltb z 0); [rewrite elem_of_cons; intros [?|H]; [done|]|intros H];
    revert H; by apply FormatUint_avoids.
Qed.

Lemma FormatInt_inj z1 z2 : FormatInt z1 = FormatInt z2 -> z1 = z2.
Proof.
  assert (forall n m, "-"%char :: FormatUint n 10 <> FormatUint m 10) as Hneg.
  { intros n m H. assert (avoids "-"%char (FormatUint m 10)) as Ha by by apply FormatUint_avoids.
    apply Ha. rewrite <- H. set_solver. }
  unfold FormatInt. destruct (Z.ltb_spec z1 0), (Z.ltb_spec z2 0); intros H'.
  - injection H' as H'%FormatUint_inj; [lia|lia].
  - by apply Hneg in H'.
  - by symmetry in H'; apply Hneg in H'.
  - apply FormatUint_inj in H'; lia.
Qed.

(** ** Joins *)

Lemma app_sep_inj c a1 a2 r1 r2 :
  avoids c a1 -> avoids c a2 -> a1 ++ c :: r1 = a2 ++ c :: r2 -> a1 = a2 /\ r1 = r2.
Proof.
  unfold avoids. revert a2. induction a1 as [|x a1 IH]; intros [|y a2] H1 H2 H; simplify_eq/=.
  - done.
  - set_solver.
  - set_solver.
  - destruct (IH a2) as [-> ->]; set_solver.
Qed.

Lemma avoids_app c a b : avoids c (a ++ b) <-> avoids c a /\ avoids c b.
Proof. unfold avoids. rewrite elem_of_app. tauto. Qed.

Lemma avoids_join c sep parts : avoids c sep -> Forall (avoids c) parts -> avoids c (join sep parts).
Proof.
  intros Hs. induction 1 as [|p ps Hp Hps IH]; [unfold avoids; set_solver|].
  destruct ps as [|p' ps]; [done|]. change (avoids c (p ++ sep ++ join sep (p' :: ps))).
  by rewrite !avoids_app.
Qed.

Lemma join_cons2 sep p q ps : join sep (p :: q :: ps) = p ++ sep ++ join sep (q :: ps).
Proof. done. Qed.

(** Joining separator-free parts is injective. *)
Lemma join_inj c ps qs :
  Forall (avoids c) ps -> Forall (avoids c) qs -> ps <> [] -> qs <> [] ->
  join [c] ps = join [c] qs -> ps = qs.
Proof.
  intros Hps. revert qs. induction Hps as [|p ps Hp Hps IH]; intros qs Hqs Hn1 Hn2; [done|].
  destruct Hqs as [|q qs Hq Hqs]; [done|].
  destruct ps as [|p' ps], qs as [|q' qs]; rewrite ?join_cons2; simpl ([c] ++ _); intros H.
  - cbn in H. by subst.
  - exfalso. apply Hp. cbn [join] in H. rewrite H. set_solver.
  - exfalso. apply Hq. cbn [join] in H. rewrite <- H. set_solver.
  - apply app_sep_inj in H as [-> H]; [|done..]. f_equal. by apply IH.
Qed.

Lemma map_inj {A B} (f : A -> B) (xs ys : list A) :
  (forall x y, x ∈ xs -> y ∈ ys -> f x = f y -> x = y) -> f <$> xs = f <$> ys -> xs = ys.
Proof.
  revert ys. induction xs as [|x xs IH]; intros [|y ys] Hf H; try done.
  rewrite !fmap_cons in H. injection H as H1 H2. f_equal; [apply Hf; set_solver|].
  apply IH; [|done]. intros; apply Hf; set_solver.
Qed.

(** ** The two encoders *)

Lemma write_list_join {A} sep (f : A -> bytes) xs b : write_list sep f xs b = b ++ join sep (f <$> xs).
Proof.
  unfold write_list. destruct xs as [|x xs]; [by rewrite app_nil_r|]. cbn [foldl].
  rewrite fmap_cons. revert x b. induction xs as [|y xs IH]; intros x b; [done|].
  cbn [foldl]. rewrite fmap_cons, join_cons2. rewrite !app_assoc, <- (app_assoc (b ++ f x)).
  rewrite <- IH. cbn [foldl]. by rewrite <- !app_assoc.
Qed.

Lemma encode_elem_order e : encode_elem e = order_elem e.
Proof.
  unfold encode_elem, order_elem. pose proof (N.land_ones e 1) as Hl.
  change (N.ones 1) with 1%N in Hl. rewrite Hl, N.pow_1_r, <- N.bit0_mod. by destruct (N.testbit e 0).
Qed.

Lemma encode_seq_order s : encode_seq s = order_seq s.
Proof.
  destruct s as [[|e es]|]; try done. unfold encode_seq, order_seq. rewrite write_list_join.
  rewrite app_nil_l. f_equal. apply list_fmap_ext. intros ???. apply encode_elem_order.
Qed.

Lemma Key_String_runtime k :
  Forall (fun n => n < 256)%N (KIns k) ->
  Key_String k
  = ShapeKey_String (mkShapeKey (KGuards k) (KChoices k) (KOrders k) [] (Key_Arities k)).
Proof.
  intros Hins. unfold Key_String, ShapeKey_String, EncodeKey, appendTo. cbn [Guards Choices Orders Trees Arities].
  assert (forall b, (if Nat.ltb 0 (length (KChoices k)) then write_list (bs ",") (fun c => FormatUint c 10)
      (KChoices k) (b ++ bs ";c=") else b)
    = key_section (bs ";c=") (bs ",") ((fun c => FormatUint c 10) <$> KChoices k) b) as ->.
  { intros b. rewrite write_list_join. unfold key_section, append_seq. by destruct (KChoices k). }
  assert (forall b, (if Nat.ltb 0 (length (KOrders k)) then write_list (bs "|") encode_seq
      (KOrders k) (b ++ bs ";o=") else b)
    = key_section (bs ";o=") (bs "|") (order_seq <$> KOrders k) b) as ->.
  { intros b. rewrite write_list_join, (list_fmap_ext encode_seq order_seq (KOrders k))
      by (intros; apply encode_seq_order).
    unfold key_section, append_seq. by destruct (KOrders k). }
  assert (forall b, (if Nat.ltb 0 (length (KIns k)) then write_list (bs ",") (fun n => FormatUint n 10)
      (KIns k) (b ++ bs ";n=") else b)
    = key_section (bs ";n=") (bs ",") (FormatInt <$> Key_Arities k) b) as ->; [|done].
  intros b. rewrite write_list_join. unfold Key_Arities.
  assert (forall ins, Forall (fun n => n < 256)%N ins ->
    FormatInt <$> ((fun n => i32 (Z.of_N n)) <$> ins) = (fun n => FormatUint n 10) <$> ins) as He.
  { induction 1 as [|n ins Hn _ IH]; [done|]. rewrite !fmap_cons, IH. f_equal.
    rewrite i32_id by lia. unfold FormatInt. destruct (Z.ltb_spec (Z.of_N n) 0); [lia|]. by rewrite N2Z.id. }
  destruct (KIns k) as [|n ins]; [done|]. rewrite He by done. done.
Qed.

(** ** Injectivity *)

Lemma order_elem_inj e1 e2 : order_elem e1 = order_elem e2 -> e1 = e2.
Proof.
  unfold order_elem. intros H.
  assert (forall b, exists c, (if (b : bool) then bs "d" else bs "a") = [c] /\ (c = "d"%char <-> b = true))
    as Hdir by (intros []; eexists; split; [done|done|done|done]).
  destruct (Hdir (N.testbit e1 0)) as (c1 & E1 & H1), (Hdir (N.testbit e2 0)) as (c2 & E2 & H2).
  rewrite E1, E2 in H. apply app_inj_2 in H as [Hd Hc]; [|done]. injection Hc as ->.
  apply FormatUint_inj in Hd; [|lia].
  assert (N.testbit e1 0 = N.testbit e2 0) as Hb.
  { destruct (N.testbit e1 0), (N.testbit e2 0); naive_solver. }
  apply N.bits_inj. intros i. destruct (decide (i = 0%N)) as [->|Hi]; [done|].
  apply (f_equal (fun n => N.testbit n (i - 1))) in Hd. rewrite !N.shiftr_spec in Hd by lia.
  by replace (i - 1 + 1)%N with i in Hd by lia.
Qed.

Lemma order_elem_avoids c e :
  is_alnum c = false -> avoids c (order_elem e).
Proof.
  intros Hc. unfold order_elem. apply avoids_app. split; [by apply FormatUint_avoids|].
  unfold avoids. destruct (N.testbit e 0); intros H%list_elem_of_singleton; by subst.
Qed.

Lemma order_elem_head e : exists c l, order_elem e = c :: l /\ is_alnum c = true.
Proof.
  unfold order_elem. pose proof (FormatUint_alnum (N.shiftr e 1) 10 ltac:(lia)) as Ha.
  pose proof (FormatUint_nonempty (N.shiftr e 1) 10).
  destruct (FormatUint (N.shiftr e 1) 10) as [|c l]; [done|]. simpl in Ha.
  apply andb_prop in Ha as [Ha _]. by exists c, (l ++ (if N.testbit e 0 then bs "d" else bs "a")).
Qed.

Lemma order_seq_head e es : exists c l, order_seq (Some (e :: es)) = c :: l /\ is_alnum c = true.
Proof.
  destruct (order_elem_head e) as (c & l & He & Hc). unfold order_seq. rewrite fmap_cons.
  destruct es as [|e' es].
  { change (exists c l, order_elem e = c :: l /\ is_alnum c = true). eauto. }
  rewrite fmap_cons, join_cons2, He. eexists _, _. split; [reflexivity|done].
Qed.

Lemma order_seq_inj s1 s2 : order_seq s1 = order_seq s2 -> s1 = s2.
Proof.
  destruct s1 as [[|e1 es1]|], s2 as [[|e2 es2]|]; try done.
  - destruct (order_seq_head e2 es2) as (c & l & -> & Hc). intros [= <-]. done.
  - destruct (order_seq_head e1 es1) as (c & l & -> & Hc). intros [= ->]. done.
  - unfold order_seq. intros H. f_equal. apply join_inj in H.
    + by apply map_inj in H; [|intros; by apply order_elem_inj].
    + apply Forall_fmap, Forall_true. intros. by apply order_elem_avoids.
    + apply Forall_fmap, Forall_true. intros. by apply order_elem_avoids.
    + by rewrite fmap_cons.
    + by rewrite fmap_cons.
  - destruct (order_seq_head e1 es1) as (c & l & -> & Hc). intros [= ->]. done.
  - destruct (order_seq_head e2 es2) as (c & l & -> & Hc). intros [= <-]. done.
Qed.

Lemma order_seq_avoids c s :
  is_alnum c = false -> c <> "*"%char -> c <> "-"%char -> c <> ","%char -> avoids c (order_seq s).
Proof.
  intros Hc H1 H2 H3. destruct s as [[|e es]|].
  - unfold avoids. simpl. set_solver.
  - apply avoids_join; [unfold avoids; simpl; set_solver|].
    apply Forall_fmap, Forall_true. intros. by apply order_elem_avoids.
  - unfold avoids. simpl. set_solver.
Qed.

(** A key as the [;]-separated list of its sections. *)
Definition section (tag : ascii) (sep : bytes) (parts : list bytes) : list bytes :=
  match parts with [] => [] | _ => [tag :: "="%char :: join sep parts] end.

Definition sections (k : ShapeKey) : list bytes :=
  (bs "g=" ++ FormatUint (Guards k) 16)
  :: section "c" (bs ",") ((fun c => FormatUint c 10) <$> Choices k)
  ++ section "o" (bs "|") (order_seq <$> Orders k)
  ++ section "t" (bs "|") (Trees k)
  ++ section "n" (bs ",") (FormatInt <$> Arities k).

Lemma join_app c ps qs : ps <> [] ->
  join [c] (ps ++ qs) = match qs with [] => join [c] ps | _ => join [c] ps ++ c :: join [c] qs end.
Proof.
  intros Hp. destruct qs as [|q qs]; [by rewrite app_nil_r|].
  induction ps as [|p ps IH]; [done|]. destruct ps as [|p' ps]; [done|].
  rewrite <- app_comm_cons, <- app_comm_cons, join_cons2, app_comm_cons, IH by done.
  rewrite join_cons2. by rewrite <- !app_assoc.
Qed.

Lemma key_section_join tag sep parts ps :
  ps <> [] ->
  key_section (bs ";" ++ tag :: bs "=") sep parts (join (bs ";") ps)
  = join (bs ";") (ps ++ section tag sep parts).
Proof.
  intros Hp. unfold key_section, section, append_seq. destruct parts as [|p parts]; [by rewrite app_nil_r|].
  change (bs ";") with [";"%char]. rewrite join_app by done. by rewrite <- app_assoc.
Qed.

Lemma ShapeKey_sections k : ShapeKey_String k = join (bs ";") (sections k).
Proof.
  unfold ShapeKey_String, appendTo, sections.
  set (g := bs "g=" ++ FormatUint (Guards k) 16).
  change (([] ++ bs "g=") ++ FormatUint (Guards k) 16) with (join (bs ";") [g]).
  rewrite (key_section_join "c"), (key_section_join "o"), (key_section_join "t"), (key_section_join "n") by done.
  cbn [app]. by rewrite <- !app_assoc.
Qed.

(** A key with at most one tree, whose encoding holds no section separator. *)
Definition encodable (k : ShapeKey) : bool :=
  (Nat.leb (length (Trees k)) 1 && forallb (forallb (fun c => negb (c =b ";"%char))) (Trees k))%bool.

Definition tagged_not (tag : ascii) (s : bytes) : Prop := head s <> Some tag.

Lemma section_tagged tag tag' sep parts : tag <> tag' -> Forall (tagged_not tag) (section tag' sep parts).
Proof. intros Ht. destruct parts; simpl; [done|]. constructor; [|done]. unfold tagged_not. simpl. congruence. Qed.

Lemma section_peel tag sep p1 p2 r1 r2 :
  Forall (tagged_not tag) r1 -> Forall (tagged_not tag) r2 ->
  section tag sep p1 ++ r1 = section tag sep p2 ++ r2 ->
  (p1 = [] <-> p2 = []) /\ join sep p1 = join sep p2 /\ r1 = r2.
Proof.
  intros H1 H2. destruct p1 as [|x p1], p2 as [|y p2]; cbn [section app].
  - done.
  - intros ->. by inversion H1.
  - intros <-. by inversion H2.
  - intros [= H ->]. split_and!; [done| |done]. exact H.
Qed.

Lemma join_inj' c (ps qs : list bytes) :
  Forall (avoids c) ps -> Forall (avoids c) qs -> (ps = [] <-> qs = []) ->
  join [c] ps = join [c] qs -> ps = qs.
Proof.
  intros Hp Hq He H. destruct ps as [|p ps]; [symmetry; by apply He|].
  apply (join_inj c); [done|done|done| |done]. intros ->. by discriminate (proj2 He eq_refl).
Qed.

Lemma encodable_trees k : encodable k = true -> length (Trees k) <= 1 /\ Forall (avoids ";") (Trees k).
Proof.
  unfold encodable. intros [Hl%Nat.leb_le Ht]%andb_prop. split; [done|].
  rewrite forallb_forall in Ht. apply Forall_forall. intros t Hin c%list_elem_of_In.
  specialize (Ht t Hin). rewrite forallb_forall in Ht. by specialize (Ht _ c).
Qed.

Lemma sections_avoid k : encodable k = true -> Forall (avoids ";") (sections k).
Proof.
  intros [_ Ht]%encodable_trees. unfold sections.
  assert (forall tag sep parts, avoids ";" sep -> tag <> ";"%char -> Forall (avoids ";") parts ->
    Forall (avoids ";") (section tag sep parts)) as Hs.
  { intros tag sep [|p parts] Hsep Htag Hp; [done|]. constructor; [|done].
    pose proof (avoids_join _ _ _ Hsep Hp). unfold avoids in *. set_solver. }
  repeat (apply Forall_app; split) || constructor; try apply Hs; try done;
    try (unfold avoids; simpl; set_solver).
  - apply avoids_app. split; [unfold avoids; simpl; set_solver|by apply FormatUint_avoids].
  - apply Forall_fmap, Forall_true. intros. by apply FormatUint_avoids.
  - apply Forall_fmap, Forall_true. intros. by apply order_seq_avoids.
  - apply Forall_fmap, Forall_true. intros. by apply FormatInt_avoids.
Qed.

Lemma ShapeKey_String_injective k1 k2 :
  encodable k1 = true -> encodable k2 = true -> ShapeKey_String k1 = ShapeKey_String k2 -> k1 = k2.
Proof.
  intros He1 He2. rewrite !ShapeKey_sections. intros H.
  apply (join_inj ";") in H; [|by apply sections_avoid|by apply sections_avoid|done|done].
  apply encodable_trees in He1 as [Hl1 _], He2 as [Hl2 _].
  unfold sections in H. injection H as Hg H.
  apply FormatUint_inj in Hg; [|lia].
  apply section_peel in H as (Ec & Hc & H); [|repeat (apply Forall_app; split); by apply section_tagged..].
  apply section_peel in H as (Eo & Ho & H); [|repeat (apply Forall_app; split); by apply section_tagged..].
  apply section_peel in H as (Et & Ht & H); [|by apply section_tagged..].
  rewrite <- (app_nil_r (section _ _ _)), <- (app_nil_r (section _ _ (FormatInt <$> Arities k2))) in H.
  apply section_peel in H as (En & Hn & _); [|done..].
  apply (join_inj' ",") in Hc; [|apply Forall_fmap, Forall_true; intros; by apply FormatUint_avoids..|done].
  apply (join_inj' "|") in Ho; [|apply Forall_fmap, Forall_true; intros; by apply order_seq_avoids..|done].
  apply (join_inj' ",") in Hn; [|apply Forall_fmap, Forall_true; intros; by apply FormatInt_avoids..|done].
  apply map_inj in Hc; [|intros ???? Hx%FormatUint_inj; [done|lia]].
  apply map_inj in Ho; [|intros; by apply order_seq_inj].
  apply map_inj in Hn; [|intros; by apply FormatInt_inj].
  assert (Trees k1 = Trees k2) as Htr.
  { destruct (Trees k1) as [|t1 [|]], (Trees k2) as [|t2 [|]]; simpl in *; try lia; try done;
      [by discriminate (proj1 Et eq_refl)|by discriminate (proj2 Et eq_refl)|by f_equal]. }
  destruct k1, k2; simpl in *; congruence.
Qed.

(** ** The compiler's keys *)

Lemma Key_Arities_inj k1 k2 :
  Forall (fun n => n <= 1)%N (KIns k1) -> Forall (fun n => n <= 1)%N (KIns k2) ->
  length (KIns k1) = length (KIns k2) -> Key_Arities k1 = Key_Arities k2 -> KIns k1 = KIns k2.
Proof.
  intros H1 H2 Hl H.
  assert (forall k, Forall (fun n => n <= 1)%N (KIns k) -> Key_Arities k = Z.of_N <$> KIns k) as Ha.
  { intros k Hk. unfold Key_Arities. destruct (KIns k) as [|n l]; [done|].
    apply list_fmap_ext. intros i x Hx. rewrite Forall_lookup in Hk. specialize (Hk _ _ Hx).
    assert (x = 0%N \/ x = 1%N) as [-> | ->] by lia; done. }
  rewrite !Ha in H by done. by apply (list_fmap_eq_inj Z.of_N) in H; [|intros ???; lia].
Qed.

(** For every reachable key the compiler's encoding (which names the
    committed analyses) is the runtime's encoding of the key it stands for,
    byte for byte, and no two reachable keys share it. *)
Theorem reachable_key_encoding q expandIn k1 k2 :
  reachable q expandIn k1 -> reachable q expandIn k2 ->
  Key_String k1
  = ShapeKey_String (mkShapeKey (KGuards k1) (KChoices k1) (KOrders k1) [] (Key_Arities k1)) /\
  (Key_String k1 = Key_String k2 -> k1 = k2).
Proof.
  intros (_ & _ & _ & Hl1 & Hi1) (_ & _ & _ & Hl2 & Hi2).
  assert (forall k, Forall (fun n => n <= 1)%N (KIns k) -> Forall (fun n => n < 256)%N (KIns k)) as Hsmall.
  { intros k. apply Forall_impl. lia. }
  split; [by apply Key_String_runtime, Hsmall|]. rewrite !Key_String_runtime by by apply Hsmall.
  intros [= Hg Hc Ho Ha]%ShapeKey_String_injective; [|done..].
  apply Key_Arities_inj in Ha; [|done|done|congruence]. destruct k1, k2; simpl in *; congruence.
Qed.

Lemma reachable_key_encoding_witness :
  let k1 := mkKey 1 [] [Some [3%N; 0%N]] [0%N] in
  let k2 := mkKey 1 [] [Some [3%N]] [0%N] in
  Key_String k1 = ShapeKey_String (mkShapeKey (KGuards k1) (KChoices k1) (KOrders k1) [] (Key_Arities k1)) /\
  (Key_String k1 = Key_String k2 -> k1 = k2).
Proof.
  apply (reachable_key_encoding small_query true); apply elem_of_all_keys; apply (bool_decide_eq_true_1 _);
    vm_compute; reflexivity.
Defined.
