(* ===== verification/Converters.v ===== *)
(** * Converters

    The converters generated code calls before composing ([ChooseOrdinal],
    [OrderSeq] of [runtime/runtime.go]): what they accept is exactly what the
    shape enumeration lists, and nothing is truncated to a byte. *)

From S2P Require Import Prelude Template Render Tree Runtime Demo Shape.

(** ** [ChooseOrdinal] *)

Definition block_ordinals (numNamed : Z) (hasDefault : bool) : Z :=
  if hasDefault then numNamed + 1 else numNamed.

Lemma ChooseOrdinal_cases v numNamed hasDefault :
  (0 <= numNamed)%Z -> (block_ordinals numNamed hasDefault <= 255)%Z ->
  ChooseOrdinal v numNamed hasDefault
  = if decide (1 <= v <= numNamed)%Z then Ok (Z.to_N (v - 1))
    else if decide (v = 0)%Z then if hasDefault then Ok (Z.to_N numNamed) else Err ErrChooseRequired
    else Err (ErrChooseRange v).
Proof.
  unfold block_ordinals, ChooseOrdinal, MaxChooseOrdinals. intros Hn Hb.
  assert (numNamed <= 255)%Z as Hle by (destruct hasDefault; lia).
  destruct (Z.ltb_spec 255 (if hasDefault then numNamed + 1 else numNamed)); [lia|].
  destruct (Z.eqb_spec v 0) as [->|Hv]; cbn [andb].
  - rewrite decide_False, decide_True by lia. destruct hasDefault; [|by cbn].
    by rewrite Z.mod_small by lia.
  - rewrite (decide_False (P := v = 0%Z)) by done.
    destruct (Z.leb_spec 1 v), (Z.leb_spec v numNamed); cbn [andb];
      [rewrite decide_True by lia; by rewrite Z.mod_small by lia|rewrite decide_False by lia; done..].
Qed.

(** Over a block within the byte limit, [ChooseOrdinal] is a bijection
    between the enum values it accepts and the block's ordinals; it refuses
    zero exactly when there is no default and every value out of range, and a
    block over the limit altogether. *)
Theorem choose_ordinal_bijection numNamed hasDefault :
  (0 <= numNamed)%Z ->
  if Z.ltb 255 (block_ordinals numNamed hasDefault) then
    forall v, ChooseOrdinal v numNamed hasDefault = Err (ErrShapeKeyLimit (block_ordinals numNamed hasDefault))
  else
    (forall o, (Z.of_N o < block_ordinals numNamed hasDefault)%Z <->
       exists v, ChooseOrdinal v numNamed hasDefault = Ok o) /\
    (forall v1 v2 o, ChooseOrdinal v1 numNamed hasDefault = Ok o ->
       ChooseOrdinal v2 numNamed hasDefault = Ok o -> v1 = v2) /\
    (forall v e, ChooseOrdinal v numNamed hasDefault = Err e <->
       (v = 0%Z /\ hasDefault = false /\ e = ErrChooseRequired) \/
       ((v < 0 \/ numNamed < v)%Z /\ e = ErrChooseRange v)).
Proof.
  intros Hn. destruct (Z.ltb_spec 255 (block_ordinals numNamed hasDefault)) as [Hb|Hb].
  { intros v. unfold ChooseOrdinal, block_ordinals, MaxChooseOrdinals in *.
    destruct (Z.ltb_spec 255 (if hasDefault then numNamed + 1 else numNamed)); [done|lia]. }
  setoid_rewrite (fun v => ChooseOrdinal_cases v numNamed hasDefault Hn Hb).
  unfold block_ordinals in *. split_and!.
  - intros o. split.
    + intros Ho. destruct (decide (Z.of_N o < numNamed)%Z).
      * exists (Z.of_N o + 1)%Z. rewrite decide_True by lia. f_equal. lia.
      * destruct hasDefault; [|lia]. exists 0%Z. rewrite decide_False, decide_True by lia. f_equal. lia.
    + intros [v Hv]. repeat case_decide; destruct hasDefault; simplify_eq; lia.
  - intros v1 v2 o H1 H2. repeat case_decide; destruct hasDefault; simplify_eq; lia.
  - intros v e. repeat case_decide; destruct hasDefault; split; intros H'; naive_solver lia.
Qed.

Lemma choose_ordinal_bijection_witness :
  (forall o, (Z.of_N o < 3)%Z <-> exists v, ChooseOrdinal v 2 true = Ok o) /\
  (forall v1 v2 o, ChooseOrdinal v1 2 true = Ok o -> ChooseOrdinal v2 2 true = Ok o -> v1 = v2) /\
  (forall v e, ChooseOrdinal v 2 true = Err e <->
     (v = 0%Z /\ true = false /\ e = ErrChooseRequired) \/ ((v < 0 \/ 2 < v)%Z /\ e = ErrChooseRange v)).
Proof. apply (choose_ordinal_bijection 2 true). lia. Defined.

(** ** [OrderSeq] *)

Lemma order_value e numKeys :
  (numKeys <= 64)%Z -> (0 <= e)%Z -> (Z.shiftr e 1 < numKeys)%Z ->
  Z.to_N (e mod 256) = Z.to_N e /\ elem_key (Z.to_N e) = N.of_nat (Z.to_nat (Z.shiftr e 1)) /\
  Z.to_nat (Z.shiftr e 1) < 64 /\ (Z.to_N e < 2 * Z.to_N numKeys)%N.
Proof.
  intros Hk He Hlt. rewrite Z.shiftr_div_pow2, Z.pow_1_r in * by lia.
  pose proof (Z.div_pos e 2 He ltac:(lia)). pose proof (Z.div_mod e 2 ltac:(lia)).
  pose proof (Z.mod_pos_bound e 2 ltac:(lia)).
  split_and!; [by rewrite Z.mod_small by lia| |lia|lia].
  unfold elem_key. rewrite N.shiftr_div_pow2, N.pow_1_r.
  rewrite Z_nat_N. symmetry. rewrite Z2N.inj_div by lia. done.
Qed.

Definition keys_of (vals : list Z) : list N := elem_key <$> (Z.to_N <$> vals).

Lemma order_seq_loop_ok numKeys vals seen cur out :
  (numKeys <= 64)%Z -> mask_of seen cur -> NoDup (elem_key <$> cur) ->
  order_seq_loop numKeys vals seen cur = Ok out <->
  out = cur ++ (Z.to_N <$> vals) /\
  Forall (fun e => 0 <= e /\ Z.shiftr e 1 < numKeys)%Z vals /\
  NoDup ((elem_key <$> cur) ++ keys_of vals).
Proof.
  intros Hn. revert seen cur. induction vals as [|e vals IH]; intros seen cur Hm Hnd; cbn [order_seq_loop].
  { unfold keys_of. cbn. rewrite !app_nil_r. naive_solver. }
  destruct (Z.ltb_spec e 0); cbn [orb].
  { split; [done|]. intros (_ & HF & _). inversion HF; subst. lia. }
  destruct (Z.leb_spec numKeys (Z.shiftr e 1)); cbn [orb].
  { split; [done|]. intros (_ & HF & _). inversion HF; subst. lia. }
  destruct (order_value e numKeys) as (Hmod & Hkey & H64 & _); [lia..|].
  rewrite land_bit64', Hm, <- Hkey by done. unfold keys_of. rewrite !fmap_cons. fold (keys_of vals).
  case_bool_decide as Hin.
  - split; [done|]. intros (_ & _ & Hd). apply list.NoDup_app in Hd as (_ & Hd & _).
    exfalso. apply (Hd _ Hin). by left.
  - rewrite Hmod, IH; [|by apply mask_of_snoc|].
    + rewrite fmap_app, <- !app_assoc, List.Forall_cons_iff. cbn [fmap list_fmap app]. naive_solver lia.
    + rewrite fmap_app. apply list.NoDup_app. split_and!; [done|set_solver|by apply list.NoDup_singleton].
Qed.

Lemma order_seq_loop_err numKeys vals seen cur e :
  order_seq_loop numKeys vals seen cur = Err e -> exists z, e = ErrOrderKey z.
Proof.
  revert seen cur. induction vals as [|v vals IH]; intros seen cur; cbn [order_seq_loop]; [done|].
  destruct (_ || _)%bool; [intros [= <-]; eauto|]. destruct (negb _); [intros [= <-]; eauto|]. apply IH.
Qed.

(** [OrderSeq] accepts exactly the selections the shape enumeration
    lists for a block of that many keys - every value a key with a direction,
    no key twice, in any order - and returns them unchanged; everything else
    is refused, a block of more than 64 keys always. *)
Theorem order_seq_exact vals numKeys :
  (0 <= numKeys)%Z ->
  (forall out, OrderSeq vals numKeys = Ok out <->
     (numKeys <= 64)%Z /\ Forall (fun e => 0 <= e)%Z vals /\ out = Z.to_N <$> vals /\
     out ∈ order_selections (Z.to_nat numKeys)) /\
  (forall e, OrderSeq vals numKeys = Err e -> e = ErrShapeKeyLimit numKeys \/ exists z, e = ErrOrderKey z).
Proof.
  intros Hk. unfold OrderSeq, MaxOrderKeys. destruct (Z.ltb_spec 64 numKeys).
  { split; [intros out; split; [done|intros [? _]; lia]|]. intros e [= <-]. by left. }
  split; [|intros e He; right; by eapply order_seq_loop_err].
  intros out. rewrite (order_seq_loop_ok numKeys vals 0 [] out); [|done| |constructor].
  2:{ intros k _. rewrite N.bits_0. symmetry. apply bool_decide_eq_false. set_solver. }
  rewrite elem_of_order_selections. cbn [fmap list_fmap app]. unfold valid_seq, keys_of.
  assert (Forall (fun e => 0 <= e /\ Z.shiftr e 1 < numKeys)%Z vals <->
    Forall (fun e => 0 <= e)%Z vals /\
    Forall (fun e => (e < 2 * N.of_nat (Z.to_nat numKeys))%N) (Z.to_N <$> vals)) as ->.
  { rewrite Forall_fmap, <- list.Forall_and. split; apply Forall_impl; intros e; cbn;
      rewrite Z.shiftr_div_pow2, Z.pow_1_r by lia; intros [? Hd]; (split; [done|]).
    - pose proof (Z.div_mod e 2 ltac:(lia)). pose proof (Z.mod_pos_bound e 2 ltac:(lia)). lia.
    - apply Z.div_lt_upper_bound; lia. }
  naive_solver.
Qed.

Lemma order_seq_exact_witness :
  (forall out, OrderSeq [3%Z; 0%Z] 2 = Ok out <->
     (2 <= 64)%Z /\ Forall (fun e => 0 <= e)%Z [3%Z; 0%Z] /\ out = Z.to_N <$> [3%Z; 0%Z] /\
     out ∈ order_selections (Z.to_nat 2)) /\
  (forall e, OrderSeq [3%Z; 0%Z] 2 = Err e -> e = ErrShapeKeyLimit 2 \/ exists z, e = ErrOrderKey z).
Proof. apply (order_seq_exact [3%Z; 0%Z] 2). lia. Defined.
