(* ===== verification/TreeProps.v ===== *)
(** * TreeProps

    Properties of the filter trees: the caps ([checkCaps]) bound exactly the
    size, depth and arguments of a tree; the structural encoding ([Encode])
    identifies a tree up to its arguments; and, once [validate] accepted two
    trees of one structure, the composer emits the same SQL and the same bind
    plan for both - the fact that lets the composed cache index by structure. *)

From S2P Require Import Prelude Tree Runtime Dialect Template Render Shape Keys.

(** ** Induction on trees *)
Section node_ind.
Context (P : node -> Prop).
Hypothesis Hnode : forall op kids pred nargs, Forall P kids -> P (mkNode op kids pred nargs).
Fixpoint node_ind' (n : node) : P n :=
  match n with
  | mkNode op kids pred nargs =>
      Hnode op kids pred nargs
        ((fix go (l : list node) : Forall P l :=
            match l with
            | [] => List.Forall_nil P
            | k :: l' => List.Forall_cons P k l' (node_ind' k) (go l')
            end) kids)
  end.
End node_ind.

(** ** Sizes *)
Fixpoint tree_size (n : node) : nat :=
  match n with mkNode _ kids _ _ => S (sum_list (tree_size <$> kids)) end.

Fixpoint tree_depth (n : node) : nat :=
  match n with mkNode _ kids _ _ => S (max_list (tree_depth <$> kids)) end.

(** Every argument a tree carries, the unused ones of inner nodes included. *)
Fixpoint tree_args (n : node) : nat :=
  match n with mkNode _ kids _ nargs => length nargs + sum_list (tree_args <$> kids) end.

Definition within_caps (n : node) (caps : TreeCaps) : Prop :=
  (Z.of_nat (tree_size n) <= MaxNodes caps)%Z /\
  (Z.of_nat (tree_depth n) <= MaxDepth caps)%Z /\
  (Z.of_nat (tree_args n) <= MaxTreeArgs)%Z.

Lemma sum_list_cons x l : sum_list (x :: l) = x + sum_list l.
Proof. done. Qed.

Lemma max_list_cons x l : max_list (x :: l) = max x (max_list l).
Proof. done. Qed.

Lemma check_caps_rec_ok caps n depth nodes args st :
  check_caps_rec caps n depth (nodes, args) = Ok st <->
  st = (nodes + Z.of_nat (tree_size n), args + Z.of_nat (tree_args n))%Z /\
  (nodes + Z.of_nat (tree_size n) <= MaxNodes caps)%Z /\
  (depth + Z.of_nat (tree_depth n) - 1 <= MaxDepth caps)%Z /\
  (args + Z.of_nat (tree_args n) <= MaxTreeArgs)%Z.
Proof.
  revert depth nodes args st. induction n as [op kids pred nargs IH] using node_ind'.
  intros depth nodes args st. cbn [check_caps_rec tree_size tree_depth tree_args].
  assert (forall nodes args st, (nodes <= MaxNodes caps)%Z -> (depth <= MaxDepth caps)%Z -> (args <= MaxTreeArgs)%Z ->
    rfold (fun st k => check_caps_rec caps k (depth + 1) st) (nodes, args) kids = Ok st <->
    st = (nodes + Z.of_nat (sum_list (tree_size <$> kids)), args + Z.of_nat (sum_list (tree_args <$> kids)))%Z /\
    (nodes + Z.of_nat (sum_list (tree_size <$> kids)) <= MaxNodes caps)%Z /\
    (depth + Z.of_nat (max_list (tree_depth <$> kids)) <= MaxDepth caps)%Z /\
    (args + Z.of_nat (sum_list (tree_args <$> kids)) <= MaxTreeArgs)%Z) as Hkids.
  { clear nodes args st nargs. induction IH as [|k kids Hk _ IHk]; intros nodes args st Hn Hd Ha.
    - cbn. rewrite !Z.add_0_r. split; [intros [= <-]; split_and!; done || lia|by intros [-> _]].
    - rewrite !fmap_cons, !sum_list_cons, max_list_cons. cbn [rfold]. rewrite rbind_ok. split.
      + intros ([n1 a1] & H1 & H2). apply Hk in H1 as ([= -> ->] & ? & ? & ?).
        apply IHk in H2 as (-> & ? & ? & ?); [|lia..]. split_and!; [f_equal; lia|lia..].
      + intros (-> & ? & ? & ?). eexists. split; [apply Hk; split_and!; [reflexivity|lia..]|].
        apply IHk; [lia..|]. split_and!; [f_equal; lia|lia..]. }
  destruct (Z.ltb_spec (MaxNodes caps) (nodes + 1)); cbn [orb].
  { split; [done|]. intros (_ & ? & _). lia. }
  destruct (Z.ltb_spec (MaxDepth caps) depth); cbn [orb].
  { split; [done|]. intros (_ & _ & ? & _). lia. }
  destruct (Z.ltb_spec MaxTreeArgs (args + Z.of_nat (length nargs))).
  { split; [done|]. intros (_ & _ & _ & ?). lia. }
  rewrite Hkids by lia. split; intros (-> & ? & ? & ?); (split_and!; [f_equal; lia|lia..]).
Qed.

Lemma check_caps_rec_err caps n depth st e : check_caps_rec caps n depth st = Err e -> e = ErrTreeTooLarge.
Proof.
  revert depth st. induction n as [op kids pred nargs IH] using node_ind'. intros depth [nodes args].
  cbn [check_caps_rec]. destruct (_ || _)%bool; [by intros [= <-]|].
  destruct (Z.ltb _ _); [by intros [= <-]|]. generalize (nodes + 1, args + Z.of_nat (length nargs))%Z.
  induction IH as [|k kids Hk _ IHk]; intros st; cbn [rfold]; [done|].
  destruct (check_caps_rec caps k (depth + 1) st) as [st'|e'] eqn:E; cbn [rbind]; [apply IHk|].
  intros [= ->]. by eapply Hk.
Qed.

(** [checkCaps] accepts exactly the trees within the caps. *)
Lemma checkCaps_ok n caps : checkCaps (Some n) caps = Ok tt <-> within_caps n caps.
Proof.
  unfold checkCaps, within_caps. split.
  - intros ([n1 a1] & H & _)%rbind_ok. apply check_caps_rec_ok in H as (_ & ? & ? & ?). lia.
  - intros (? & ? & ?). apply rbind_ok. eexists. split; [|done].
    apply check_caps_rec_ok. split_and!; [reflexivity|lia..].
Qed.

Lemma checkCaps_err t caps e : checkCaps t caps = Err e -> e = ErrTreeTooLarge.
Proof.
  unfold checkCaps. destruct t as [n|]; [|done].
  destruct (check_caps_rec caps n 1 (0, 0)%Z) eqn:E; [done|]. cbn. intros [= <-]. by eapply check_caps_rec_err.
Qed.

(** ** Structure *)

(** A tree without its arguments (and without the fields its operator
    ignores). *)
Fixpoint erase (n : node) : node :=
  match n with
  | mkNode op kids pred _ =>
      match op with
      | opLeaf => mkNode opLeaf [] pred []
      | opTrue => mkNode opTrue [] 0 []
      | _ => mkNode op (erase <$> kids) 0 []
      end
  end.

Definition tree_structure (t : Tree) : node :=
  match t with None => mkNode opTrue [] 0 [] | Some n => erase n end.

(** The encoding, without the accumulator. *)
Definition op_mark (op : Op) : bytes := match op with opAnd => bs "&(" | _ => bs "|(" end.

Fixpoint encode (n : node) : bytes :=
  match n with
  | mkNode op kids pred _ =>
      match op with
      | opTrue => bs "T"
      | opLeaf => bs "p" ++ FormatInt pred
      | _ => op_mark op ++ join (bs ",") (encode <$> kids) ++ bs ")"
      end
  end.

Lemma appendEncoding_encode n dst : appendEncoding n dst = dst ++ encode n.
Proof.
  revert dst. induction n as [op kids pred nargs IH] using node_ind'. intros dst.
  assert (forall dst, (foldl (fun '(first, dst) k =>
      (false, appendEncoding k (if (first : bool) then dst else dst ++ bs ","))) (true, dst) kids).2
    = dst ++ join (bs ",") (encode <$> kids)) as Hk.
  { clear dst. intros dst. destruct IH as [|k kids Hk IH]; [by rewrite app_nil_r|].
    cbn [foldl]. rewrite Hk, fmap_cons. clear Hk.
    revert k dst. induction IH as [|k' kids Hk' _ IHk]; intros k dst; [done|].
    cbn [foldl]. rewrite fmap_cons, join_cons2, Hk'.
    rewrite <- (app_assoc dst (encode k)), (app_assoc (encode k)).
    rewrite (app_assoc dst (encode k ++ bs ",")). rewrite IHk.
    by rewrite <- !app_assoc. }
  cbn [appendEncoding encode]. destruct op.
  - by rewrite <- app_assoc.
  - specialize (Hk (dst ++ bs "&" ++ bs "(")). destruct (foldl _ _ kids) as [f d]. simpl in Hk. rewrite Hk.
    by rewrite <- !app_assoc.
  - specialize (Hk (dst ++ bs "|" ++ bs "(")). destruct (foldl _ _ kids) as [f d]. simpl in Hk. rewrite Hk.
    by rewrite <- !app_assoc.
  - done.
Qed.

(** ** Parsing the encoding back *)

(** A character of a formatted number; a rest that ends a number. *)
Definition num_char (c : ascii) : bool := (is_alnum c || (c =b "-")%char)%bool.
Definition stops (r : bytes) : Prop := match r with [] => True | c :: _ => num_char c = false end.

Lemma FormatInt_num z : forallb num_char (FormatInt z) = true.
Proof.
  assert (forall n, forallb num_char (FormatUint n 10) = true) as Hn.
  { intros n. apply forallb_forall. intros c Hc. pose proof (FormatUint_alnum n 10 ltac:(lia)) as Ha.
    rewrite forallb_forall in Ha. unfold num_char. by rewrite Ha. }
  unfold FormatInt. destruct (Z.ltb z 0); [simpl|]; apply Hn.
Qed.

Lemma span_inj (p : ascii -> bool) a1 a2 r1 r2 :
  forallb p a1 = true -> forallb p a2 = true ->
  (match r1 with [] => True | c :: _ => p c = false end) ->
  (match r2 with [] => True | c :: _ => p c = false end) ->
  a1 ++ r1 = a2 ++ r2 -> a1 = a2 /\ r1 = r2.
Proof.
  revert a2. induction a1 as [|x a1 IH]; intros [|y a2] H1 H2 Hr1 Hr2 H; simpl in *.
  - done.
  - subst r1. apply andb_prop in H2 as [H2 _]. congruence.
  - subst r2. apply andb_prop in H1 as [H1 _]. congruence.
  - apply andb_prop in H1 as [_ H1]. apply andb_prop in H2 as [_ H2]. injection H as -> H.
    by destruct (IH _ H1 H2 Hr1 Hr2 H) as [-> ->].
Qed.

Lemma encode_head n : exists c l, encode n = c :: l /\ c <> ")"%char /\ c <> ","%char.
Proof. destruct n as [[] kids pred nargs]; cbn; eexists _, _; split_and!; done. Qed.

Lemma encode_inj n1 n2 r1 r2 :
  stops r1 -> stops r2 -> encode n1 ++ r1 = encode n2 ++ r2 -> erase n1 = erase n2 /\ r1 = r2.
Proof.
  revert n2 r1 r2. induction n1 as [op1 ks1 p1 a1 IH] using node_ind'. intros [op2 ks2 p2 a2] r1 r2 Hs1 Hs2 H.
  assert (forall ks2 r1 r2, join (bs ",") (encode <$> ks1) ++ bs ")" ++ r1
      = join (bs ",") (encode <$> ks2) ++ bs ")" ++ r2 -> erase <$> ks1 = erase <$> ks2 /\ r1 = r2) as Hkids.
  { clear -IH. induction IH as [|k1 ks1 Hk1 _ IHk]; intros [|k2 ks2] r1 r2 H.
    - by injection H.
    - exfalso. destruct (encode_head k2) as (c & l & He & Hc & _). rewrite fmap_cons in H.
      destruct ks2; [cbn [fmap list_fmap join] in H|rewrite fmap_cons, join_cons2 in H];
        rewrite He in H; by injection H as <-.
    - exfalso. destruct (encode_head k1) as (c & l & He & Hc & _). rewrite fmap_cons in H.
      destruct ks1; [cbn [fmap list_fmap join] in H|rewrite fmap_cons, join_cons2 in H];
        rewrite He in H; by injection H as ->.
    - rewrite !fmap_cons in *.
      destruct ks1 as [|k1' ks1], ks2 as [|k2' ks2]; rewrite ?fmap_cons, ?join_cons2, <- ?app_assoc in H.
      + apply Hk1 in H as [-> H]; [|done..]. by injection H as ->.
      + apply Hk1 in H as [_ H]; done.
      + apply Hk1 in H as [_ H]; done.
      + apply Hk1 in H as [-> H]; [|done..]. injection H as H.
        destruct (IHk (k2' :: ks2) r1 r2 H) as [Hk ->]. split; [|done]. by f_equal. }
  destruct op1, op2; cbn [encode erase] in *; try discriminate H.
  - injection H as H. rewrite <- ?app_assoc in H.
    apply (span_inj num_char) in H as [Hp ->]; [|apply FormatInt_num..|done|done].
    by apply FormatInt_inj in Hp as ->.
  - unfold op_mark in H. rewrite <- !app_assoc in H. injection H as H.
    by destruct (Hkids _ _ _ H) as [-> ->].
  - unfold op_mark in H. rewrite <- !app_assoc in H. injection H as H.
    by destruct (Hkids _ _ _ H) as [-> ->].
  - injection H as H. by subst.
Qed.

Lemma Encode_encode n : Encode (Some n) = encode n.
Proof. unfold Encode. by rewrite appendEncoding_encode. Qed.

(** Two trees have one encoding exactly when they have one structure. *)
Lemma encode_erase n1 n2 : erase n1 = erase n2 -> encode n1 = encode n2.
Proof.
  revert n2. induction n1 as [op1 ks1 p1 a1 IH] using node_ind'. intros [op2 ks2 p2 a2] H.
  assert (forall ks2, erase <$> ks1 = erase <$> ks2 -> encode <$> ks1 = encode <$> ks2) as Hk.
  { clear -IH. induction IH as [|k1 ks1 Hk1 _ IHk]; intros [|k2 ks2] H; try done.
    rewrite !fmap_cons in *. injection H as H1 H2. f_equal; auto. }
  destruct op1, op2; cbn [erase encode] in *; try discriminate H; try (injection H as H);
    try (by subst); by rewrite (Hk _ H).
Qed.

Lemma Encode_structure t1 t2 : Encode t1 = Encode t2 <-> tree_structure t1 = tree_structure t2.
Proof.
  assert (forall n, Encode (Some n) = bs "T" <-> erase n = mkNode opTrue [] 0 []) as HT.
  { intros n. rewrite Encode_encode. split.
    - intros H. destruct n as [[] ks p a]; cbn in *; done.
    - destruct n as [[] ks p a]; cbn; done. }
  destruct t1 as [n1|], t2 as [n2|]; cbn [tree_structure].
  - rewrite !Encode_encode. split; [|apply encode_erase]. intros H.
    apply (encode_inj _ _ [] []); [done..|]. by rewrite !app_nil_r.
  - apply HT.
  - split; intros H; symmetry; apply HT; by symmetry.
  - done.
Qed.

(** ** Composition sees the structure only *)

Lemma validate_rec_kids preds op kids pred nargs :
  validate_rec preds (mkNode op kids pred nargs) = Ok tt ->
  Forall (fun k => validate_rec preds k = Ok tt) kids.
Proof.
  cbn [validate_rec]. intros (_ & _ & H)%rbind_ok. revert H.
  induction kids as [|k kids IH]; intros H; constructor; cbn [rfold] in H;
    apply rbind_ok in H as ([] & Hk & H); auto.
Qed.

Lemma validate_rec_leaf preds kids pred nargs :
  validate_rec preds (mkNode opLeaf kids pred nargs) = Ok tt ->
  exists c, go_index preds pred = Ok c /\ length nargs = leafArity c.
Proof.
  cbn [validate_rec]. intros ([] & H & _)%rbind_ok. unfold go_index.
  destruct (Z.ltb pred 0); [done|]. cbn [orb] in H. destruct (Z.leb _ _); [done|].
  destruct (preds !! Z.to_nat pred) as [c|]; [|done]. cbn [or_err rbind] in H.
  exists c. split; [done|]. by destruct (decide _).
Qed.

Lemma sep_loop_congr {X Y} sep (f : X -> composer -> result RtErr composer)
    (g : Y -> composer -> result RtErr composer) first xs ys co :
  Forall2 (fun x y => forall co, f x co = g y co) xs ys ->
  sep_loop sep f first xs co = sep_loop sep g first ys co.
Proof.
  intros H. revert first co. induction H as [|x y xs ys Hxy _ IH]; intros first co; [done|].
  cbn [sep_loop]. rewrite Hxy. destruct (g y _); cbn [rbind]; [apply IH|done].
Qed.

Lemma emit_node_structure style preds n1 n2 co :
  erase n1 = erase n2 -> validate_rec preds n1 = Ok tt -> validate_rec preds n2 = Ok tt ->
  emit_node style preds n1 co = emit_node style preds n2 co.
Proof.
  revert n2 co. induction n1 as [op1 ks1 p1 a1 IH] using node_ind'. intros [op2 ks2 p2 a2] co He V1 V2.
  pose proof (validate_rec_kids _ _ _ _ _ V1) as K1. pose proof (validate_rec_kids _ _ _ _ _ V2) as K2.
  assert (erase <$> ks1 = erase <$> ks2 ->
    Forall2 (fun x y => forall co, emit_node style preds x co = emit_node style preds y co) ks1 ks2) as Hk.
  { clear -IH K1 K2. revert ks2 K2. induction IH as [|k1 ks1 Hk1 _ IHk]; intros [|k2 ks2] K2 H; try done.
    rewrite !fmap_cons in H. injection H as H1 H2. inversion K1; subst. inversion K2; subst.
    constructor; [intros co; by apply Hk1|by apply IHk]. }
  destruct op1, op2; cbn [erase] in He; try discriminate He; cbn [emit_node].
  - injection He as ->.
    destruct (validate_rec_leaf _ _ _ _ V1) as (c & Hc & Hl1), (validate_rec_leaf _ _ _ _ V2) as (c' & Hc' & Hl2).
    assert (c' = c) as -> by congruence. by rewrite Hc, Hl1, Hl2.
  - injection He as He. by rewrite (sep_loop_congr _ _ _ _ _ _ _ (Hk He)).
  - injection He as He. by rewrite (sep_loop_congr _ _ _ _ _ _ _ (Hk He)).
  - done.
Qed.

Lemma validate_ok t preds caps :
  validate t preds caps = Ok tt <->
  checkCaps t caps = Ok tt /\ match t with Some n => validate_rec preds n = Ok tt | None => True end.
Proof.
  unfold validate. rewrite rbind_ok. destruct t as [n|].
  - split; [by intros ([] & ? & ?)|intros [? ?]; by exists tt].
  - split; [by intros ([] & ? & ?)|intros [? _]; by exists tt].
Qed.

(** The SQL and the bind plan of an accepted tree depend on its structure. *)
Lemma emitTree_structure style preds t1 t2 co :
  tree_structure t1 = tree_structure t2 ->
  match t1 with Some n => validate_rec preds n = Ok tt | None => True end ->
  match t2 with Some n => validate_rec preds n = Ok tt | None => True end ->
  emitTree style preds t1 co = emitTree style preds t2 co.
Proof.
  destruct t1 as [n1|], t2 as [n2|]; cbn [tree_structure emitTree]; intros He V1 V2.
  - by apply emit_node_structure.
  - destruct n1 as [[] ks p a]; cbn [erase] in He; done.
  - destruct n2 as [[] ks p a]; cbn [erase] in He; done.
  - done.
Qed.

(** ** The constructors *)

(** The meaning of a tree under a valuation of its leaves. *)
Fixpoint eval (v : Z -> list goany -> bool) (n : node) : bool :=
  match n with
  | mkNode opLeaf _ pred nargs => v pred nargs
  | mkNode opTrue _ _ _ => true
  | mkNode opAnd kids _ _ => forallb (eval v) kids
  | mkNode opOr kids _ _ => existsb (eval v) kids
  end.

Definition eval_tree (v : Z -> list goany -> bool) (t : Tree) : bool :=
  match t with None => true | Some n => eval v n end.

Lemma eval_And v ts : eval_tree v (And ts) = forallb (eval_tree v) ts.
Proof.
  assert (forallb (eval_tree v) ts = forallb (eval v) (omap id ts)) as ->.
  { induction ts as [|[n|] ts IH]; cbn; [done|by rewrite IH|done]. }
  unfold And, combine. destruct (omap id ts) as [|k [|k' ks]]; cbn; [done|by rewrite andb_true_r|done].
Qed.

Lemma eval_Or v ts :
  eval_tree v (Or ts) = (forallb IsZero ts || existsb (fun t => negb (IsZero t) && eval_tree v t) ts)%bool.
Proof.
  assert (existsb (fun t => negb (IsZero t) && eval_tree v t)%bool ts = existsb (eval v) (omap id ts)) as ->.
  { induction ts as [|[n|] ts IH]; cbn; [done|by rewrite IH|done]. }
  assert (forallb IsZero ts = match omap id ts with [] => true | _ => false end) as ->.
  { induction ts as [|[n|] ts IH]; cbn; [done|done|]. by destruct (omap id ts). }
  unfold Or, combine. destruct (omap id ts) as [|k [|k' ks]]; cbn; [done|by rewrite orb_false_r|done].
Qed.

(** ** Validation, flattened *)

#[export] Instance within_caps_dec n caps : Decision (within_caps n caps).
Proof. unfold within_caps. apply _. Defined.

(** The leaves in preorder, each with the number of its arguments. *)
Fixpoint leaves (n : node) : list (Z * nat) :=
  match n with
  | mkNode op kids pred nargs =>
      (match op with opLeaf => [(pred, length nargs)] | _ => [] end) ++ concat (leaves <$> kids)
  end.

Definition leaf_check (preds : list Case) (l : Z * nat) : result RtErr unit :=
  match go_index preds l.1 with
  | Err _ => Err (ErrTreePredicate l.1)
  | Ok c => if decide (l.2 = leafArity c) then Ok tt else Err (ErrTreeArity l.1 (leafArity c) l.2)
  end.

Lemma rfold_tt {E X} (f : X -> result E unit) xs (u : unit) : rfold (fun _ => f) u xs = rfold (fun _ => f) tt xs.
Proof. by destruct u. Qed.

Lemma validate_rec_leaves preds n : validate_rec preds n = rfold (fun _ => leaf_check preds) tt (leaves n).
Proof.
  induction n as [op kids pred nargs IH] using node_ind'. cbn [validate_rec leaves].
  assert (rfold (fun _ k => validate_rec preds k) tt kids
    = rfold (fun _ => leaf_check preds) tt (concat (leaves <$> kids))) as Hk.
  { induction IH as [|k kids Hk _ IHk]; [done|]. rewrite fmap_cons. cbn [rfold concat]. rewrite rfold_app, Hk.
    destruct (rfold _ tt (leaves k)) as [[]|]; [apply IHk|done]. }
  rewrite Hk. destruct op; cbn [rbind app]; try done. cbn [rfold]. unfold leaf_check at 2, go_index. cbn [fst snd].
  destruct (Z.ltb_spec pred 0); [done|]. cbn [orb].
  destruct (Z.leb_spec (Z.of_nat (length preds)) pred).
  - rewrite lookup_ge_None_2 by lia. done.
  - destruct (lookup_lt_is_Some_2 preds (Z.to_nat pred)) as [c ->]; [lia|]. cbn [or_err rbind].
    by destruct (decide _).
Qed.

(** ** The theorems *)

(** Validation is exact: a tree is refused as too large exactly when its
    nodes, depth or arguments exceed the caps; otherwise its leaves are
    checked in preorder, and the first whose predicate is not in the table or
    whose argument count is not its predicate's arity is the error. *)
Theorem validate_exact t preds caps :
  validate t preds caps
  = match t with
    | None => Ok tt
    | Some n =>
        if decide (within_caps n caps) then rfold (fun _ => leaf_check preds) tt (leaves n)
        else Err ErrTreeTooLarge
    end.
Proof.
  unfold validate. destruct t as [n|]; [|done]. rewrite <- validate_rec_leaves.
  destruct (checkCaps (Some n) caps) as [[]|e] eqn:E; cbn [rbind].
  - apply checkCaps_ok in E. by rewrite decide_True.
  - pose proof (checkCaps_err _ _ _ E) as ->. rewrite decide_False; [done|].
    rewrite <- checkCaps_ok, E. done.
Qed.

(** The structural encoding is canonical: two trees encode alike exactly
    when they differ in their argument values only. *)
Theorem encoding_canonical t1 t2 : Encode t1 = Encode t2 <-> tree_structure t1 = tree_structure t2.
Proof. apply Encode_structure. Qed.

(** [And] and [Or] mean conjunction and disjunction of the trees given,
    a zero tree counting as absent, and no tree at all as TRUE. *)
Theorem combinator_meaning v ts :
  eval_tree v (And ts) = forallb (eval_tree v) ts /\
  eval_tree v (Or ts) = (forallb IsZero ts || existsb (fun t => negb (IsZero t) && eval_tree v t) ts)%bool.
Proof. split; [apply eval_And|apply eval_Or]. Qed.

(** ** Cache keys *)

Lemma encode_avoids c n :
  is_alnum c = false -> ~ c ∈ bs "-&|(),Tp" -> avoids c (encode n).
Proof.
  intros Hc Hn. assert (forall d, d ∈ bs "-&|(),Tp" -> avoids c [d]) as Hd
    by (intros d Hin [->|[]%not_elem_of_nil]%elem_of_cons; done).
  induction n as [op kids pred nargs IH] using node_ind'.
  assert (avoids c (join (bs ",") (encode <$> kids))) as Hk.
  { apply avoids_join; [apply Hd; set_solver|]. by apply Forall_fmap. }
  assert (avoids c (FormatInt pred)) as Hp
    by (apply FormatInt_avoids; [done|]; intros ->; apply Hn; set_solver).
  destruct op; cbn [encode op_mark].
  - apply (avoids_app c ["p"%char]). split; [apply Hd; set_solver|done].
  - rewrite avoids_app. split; [apply (avoids_app c ["&"%char]); split; apply Hd; set_solver|].
    rewrite avoids_app. split; [done|apply Hd; set_solver].
  - rewrite avoids_app. split; [apply (avoids_app c ["|"%char]); split; apply Hd; set_solver|].
    rewrite avoids_app. split; [done|apply Hd; set_solver].
  - apply Hd; set_solver.
Qed.

(** The keys the entry points form: no tree, or the encoding of one. *)
Definition canonical_key (k : ShapeKey) : Prop := Trees k = [] \/ exists t, Trees k = [Encode t].

Lemma canonical_encodable k : canonical_key k -> encodable k = true.
Proof.
  unfold encodable. intros [->|[t ->]]; [done|]. cbn [length Nat.leb forallb andb]. rewrite andb_true_r.
  apply forallb_forall. intros c Hc%list_elem_of_In. apply negb_true_iff, Ascii.eqb_neq. intros ->.
  destruct t as [n|]; [|by set_unfold in Hc; destruct Hc as [?|[]]].
  cbn [Encode] in Hc. rewrite appendEncoding_encode in Hc. cbn [app] in Hc.
  revert Hc. apply encode_avoids; [done|]. set_unfold. intuition discriminate.
Qed.

(** The key encoding is injective on every key the entry points form,
    trees included: no two shapes share a cache slot, a row of the static
    expansion table or a name in the observability data. *)
Theorem shape_key_canonical k1 k2 :
  canonical_key k1 -> canonical_key k2 -> ShapeKey_String k1 = ShapeKey_String k2 <-> k1 = k2.
Proof.
  intros H1%canonical_encodable H2%canonical_encodable. split; [|by intros ->].
  by apply ShapeKey_String_injective.
Qed.

Lemma shape_key_canonical_witness :
  let k1 := mkShapeKey 5 [2%N] [None] [Encode (NewLeaf 1 [])] [] in
  let k2 := mkShapeKey 5 [2%N] [Some []] [] [3%Z] in
  ShapeKey_String k1 = ShapeKey_String k2 <-> k1 = k2.
Proof. apply shape_key_canonical; [right; by exists (NewLeaf 1 [])|by left]. Defined.
