(* ===== verification/Simulation.v ===== *)
(** * Simulation

    The pieces of the conformance proof that are independent of the item
    kinds: well-formed queries ([wf_query], what the scanner establishes), the
    maximal tree, and the relation [Rel] between the state of the renderer
    ([ast.renderer]) and of the composer ([runtime.composer]) that both sides'
    text loops preserve. *)

From S2P Require Import Prelude Dialect Template Render Tree Runtime Frags.

(** ** Well-formed queries

    What the scanner establishes before a query reaches the code generator. *)
Section wf.
Context (profile : LexerProfile).

(** [distinctParams] ([scanner.go]): a body's parameters in first-occurrence
    order. *)
Definition distinctParams (body : bytes) : list bytes :=
  foldl (fun out tok =>
    if decide (Kind tok = KindParamRef /\ ~ tail (Text tok) ∈ out)
    then out ++ [tail (Text tok)] else out) [] (tokens body).1.

(** The filter-tree predicates of a query (at most one block) and the
    flattened names of their parameters. *)
Definition tree_predicates (q : QueryTemplate) : list Predicate :=
  match omap as_tree (QItems q) with ft :: _ => FtPredicates ft | [] => [] end.

Definition tree_params (q : QueryTemplate) : list bytes :=
  concat (PrParams <$> tree_predicates q).

Definition style_of : Style := if question profile then StyleQuestion else StyleDollar.

(** The names a text outside the filter tree may bind. *)
Definition struct_names (q : QueryTemplate) : list bytes :=
  if question profile then QParamOrder q
  else filter (fun n => ~ n ∈ tree_params q) (QParamOrder q).

Definition short (text : bytes) : bool := N.ltb (N.of_nat (length text)) (2 ^ 31).

Definition binds_within (allowed : list bytes) (text : bytes) : bool :=
  short text &&
  forallb (fun tok => bool_decide (Kind tok = KindParamRef -> tail (Text tok) ∈ allowed))
    (tokens text).1.

Definition item_wf (q : QueryTemplate) (it : Item) : bool :=
  let allowed := struct_names q in
  match it with
  | ISkeleton v => binds_within allowed (SkText v)
  | IIfPresent v =>
      binds_within allowed (IPBody v) && bool_decide (IPGuards v ⊆ QGuardAtoms q)
  | IChoose v =>
      forallb (fun c => binds_within allowed (CCBody c)) (ChCases v) &&
      match ChDefault v with Some d => binds_within allowed (CCBody d) | None => true end
  | IOrderBy v =>
      forallb (fun k => binds_within allowed (OKBody k)) (ObKeys v) &&
      match ObDefault v with Some d => binds_within allowed (CCBody d) | None => true end
  | IInExpr v => bool_decide (InParam v ∈ allowed)
  | IFilterTree v =>
      forallb (fun pr => short (PrBody pr) && bool_decide (PrParams pr = distinctParams (PrBody pr)))
        (FtPredicates v)
  end.

Definition wf_query (q : QueryTemplate) : bool :=
  bool_decide (NoDup (QParamOrder q)) &&
  N.leb (N.of_nat (length (QParamOrder q))) MaxParams &&
  Nat.leb (length (QGuardAtoms q)) MaxGuards &&
  Nat.leb (tree_count q) 1 &&
  (question profile || bool_decide (NoDup (tree_params q))) &&
  N.leb (N.of_nat (length (tree_params q))) 32767 &&
  forallb (item_wf q) (QItems q).

(** The run-time value of the maximal tree, [And(p0, ..., pn)], every leaf
    carrying its predicate's parameters. *)
Definition maximal_leaves (preds : list Predicate) : list Tree :=
  imap (fun i pr => NewLeaf (Z.of_nat i) (AVal <$> PrParams pr)) preds.

Definition maximal_tree (q : QueryTemplate) : Tree := And (maximal_leaves (tree_predicates q)).

(** The parameter a bind of the plan takes its value from. *)
Definition bind_source (params tparams : list bytes) (b : Bind) : option bytes :=
  if Z.ltb (Idx b) 0 then None
  else (if FromTree b then tparams else params) !! Z.to_nat (Idx b).
End wf.

(** ** Index maps *)

Lemma foldl_imap_insert_lookup {A} `{Countable K} (f : nat -> A) (names : list K) (off : nat)
    (m : gmap K A) k z :
  NoDup names ->
  foldl (fun m '(i, name) => <[name := f i]> m) m (imap (fun i x => (off + i, x)) names) !! k
    = Some z <->
  (exists i, names !! i = Some k /\ z = f (off + i)) \/ (~ k ∈ names /\ m !! k = Some z).
Proof.
  revert off m. induction names as [|n names IH]; intros off m Hnd; simpl; [set_solver|].
  apply list.NoDup_cons in Hnd as [Hn Hnd].
  rewrite (imap_ext _ (fun i x => (S off + i, x))) by (intros; simpl; f_equal; lia).
  rewrite IH by done. rewrite Nat.add_0_r. split.
  - intros [(i & Hi & ->)|[Hk Hm]].
    + left. exists (S i). split; [done|]. f_equal. lia.
    + destruct (decide (k = n)) as [->|Hne].
      * rewrite lookup_insert_eq in Hm. injection Hm as <-. left. exists 0. by rewrite Nat.add_0_r.
      * rewrite lookup_insert_ne in Hm by done. right. set_solver.
  - intros [(i & Hi & ->)|[Hk Hm]].
    + destruct i as [|i]; simpl in Hi.
      * injection Hi as ->. right. rewrite Nat.add_0_r. by rewrite lookup_insert_eq.
      * left. exists i. split; [done|]. f_equal. lia.
    + right. rewrite lookup_insert_ne by set_solver. set_solver.
Qed.

Lemma index_map_lookup names k z :
  NoDup names ->
  index_map names !! k = Some z <-> exists i, names !! i = Some k /\ z = i16 (Z.of_nat i).
Proof.
  intros Hnd. unfold index_map.
  rewrite (foldl_imap_insert_lookup (fun i => i16 (Z.of_nat i)) names 0 ∅ k z Hnd).
  rewrite lookup_empty. naive_solver.
Qed.

Lemma guard_bits_lookup_lt q g b : guard_bits q !! g = Some b -> b < length (QGuardAtoms q).
Proof.
  unfold guard_bits.
  enough (forall atoms off (m : gmap GuardAtom nat),
    (forall g b, m !! g = Some b -> b < off + length atoms) ->
    forall g b,
    foldl (fun m '(i, g) => <[g := i]> m) m (imap (fun i x => (off + i, x)) atoms) !! g = Some b ->
    b < off + length atoms) as He.
  { apply (He _ 0 ∅). intros ??. by rewrite lookup_empty. }
  clear. induction atoms as [|a atoms IH]; intros off m Hm g b; simpl; [apply Hm|].
  rewrite (imap_ext _ (fun i x => (S off + i, x))) by (intros; simpl; f_equal; lia).
  intros Hb%IH; [simpl in *; lia|]. intros g' b'. rewrite Nat.add_0_r.
  destruct (decide (a = g')) as [->|Hne].
  - rewrite lookup_insert_eq. intros [= <-]. lia.
  - rewrite lookup_insert_ne by done. intros H%Hm. simpl in H. lia.
Qed.

Lemma guard_bits_dom q g : g ∈ QGuardAtoms q -> is_Some (guard_bits q !! g).
Proof.
  unfold guard_bits. generalize (∅ : gmap GuardAtom nat).
  intros m Hg.
  enough (forall atoms off (m : gmap GuardAtom nat),
    (g ∈ atoms \/ is_Some (m !! g)) ->
    is_Some (foldl (fun m '(i, g) => <[g := i]> m) m (imap (fun i x => (off + i, x)) atoms) !! g))
    as He by (apply (He _ 0 m); by left).
  clear. induction atoms as [|a atoms IH]; intros off m Hg; simpl; [set_solver|].
  rewrite (imap_ext _ (fun i x => (S off + i, x))) by (intros; simpl; f_equal; lia).
  apply IH. rewrite Nat.add_0_r. destruct (decide (a = g)) as [->|Hne].
  - right. rewrite lookup_insert_eq. eauto.
  - rewrite lookup_insert_ne by done. set_solver.
Qed.

(** ** Guard masks *)

Lemma guard_mask_testbit (bit : gmap GuardAtom nat) guards m i :
  N.testbit (foldl (fun mask g => N.lor mask (bit64 (default 0 (bit !! g)))) m guards) i
  = (N.testbit m i || existsb (fun g => N.testbit (bit64 (default 0 (bit !! g))) i) guards)%bool.
Proof.
  revert m. induction guards as [|g guards IH]; intros m; simpl; [by rewrite orb_false_r|].
  rewrite IH, N.lor_spec. by rewrite orb_assoc.
Qed.

Lemma land_bit64 mask b : b < 64 -> N.eqb (N.land mask (bit64 b)) 0 = negb (N.testbit mask (N.of_nat b)).
Proof.
  intros Hb. destruct (N.testbit mask (N.of_nat b)) eqn:E; simpl.
  - apply N.eqb_neq. intros Hz. apply (f_equal (fun n => N.testbit n (N.of_nat b))) in Hz.
    rewrite N.land_spec, E, bit64_testbit, N.eqb_refl, N.bits_0 in Hz.
    destruct (N.ltb_spec (N.of_nat b) 64); [done|lia].
  - apply N.eqb_eq, N.bits_inj. intros i. rewrite N.land_spec, bit64_testbit, N.bits_0.
    destruct (N.eqb_spec i (N.of_nat b)) as [->|]; [by rewrite E|].
    by rewrite andb_false_r, andb_false_r.
Qed.

(** The renderer's bit tests and the composer's mask test select the same
    fragments. *)
Lemma guard_active_mask q guards (v : IfPresent) :
  length (QGuardAtoms q) <= MaxGuards -> IPGuards v ⊆ QGuardAtoms q ->
  guard_active (guard_bits q) guards v
  = N.eqb (N.land guards (guard_mask (guard_bits q) (IPGuards v)))
      (guard_mask (guard_bits q) (IPGuards v)).
Proof.
  intros Hlen Hsub. apply eq_bool_prop_intro. rewrite !Is_true_true.
  unfold guard_active. rewrite forallb_forall, N.eqb_eq. split.
  - intros Hall. apply N.bits_inj. intros i. rewrite N.land_spec.
    destruct (N.testbit (guard_mask _ _) i) eqn:E; [|by rewrite andb_false_r].
    rewrite andb_true_r. unfold guard_mask in E. rewrite guard_mask_testbit, N.bits_0 in E.
    simpl in E. apply existsb_exists in E as (g & Hg & Hb). specialize (Hall g Hg).
    rewrite bit64_testbit in Hb. destruct (guard_bits q !! g) as [b|] eqn:Eb; [|done].
    apply guard_bits_lookup_lt in Eb. unfold MaxGuards in Hlen.
    rewrite land_bit64 in Hall by lia. apply negb_true_iff, negb_false_iff in Hall.
    simpl in Hb. apply andb_prop in Hb as [_ Hb]. apply N.eqb_eq in Hb as ->. done.
  - intros Heq g Hg. destruct (guard_bits_dom q g) as [b Eb].
    { apply Hsub. by apply list_elem_of_In. }
    rewrite Eb. pose proof (guard_bits_lookup_lt _ _ _ Eb). unfold MaxGuards in Hlen.
    rewrite land_bit64, negb_involutive by lia.
    apply (f_equal (fun n => N.testbit n (N.of_nat b))) in Heq. rewrite N.land_spec in Heq.
    unfold guard_mask in Heq. rewrite guard_mask_testbit, N.bits_0 in Heq. simpl in Heq.
    assert (existsb (fun g => N.testbit (bit64 (default 0 (guard_bits q !! g))) (N.of_nat b))
      (IPGuards v) = true) as Hex.
    { apply existsb_exists. exists g. split; [done|]. rewrite Eb. simpl.
      rewrite bit64_testbit, N.eqb_refl. destruct (N.ltb_spec (N.of_nat b) 64); [done|lia]. }
    rewrite Hex, andb_true_r in Heq. done.
Qed.

(** ** The simulation relation *)

Lemma find_bind_spec bd binds k :
  (find_bind bd binds k = 0 /\ ~ bd ∈ binds) \/
  exists i, binds !! i = Some bd /\ find_bind bd binds k = k + i + 1.
Proof.
  revert k. induction binds as [|b binds IH]; intros k; simpl; [left; set_solver|].
  case_decide as Hb.
  - right. exists 0. subst. split; [done|lia].
  - destruct (IH (k + 1)) as [[H1 H2]|(i & Hi & H1)].
    + left. split; [done|set_solver].
    + right. exists (S i). split; [done|lia].
Qed.

Lemma bind_source_nat params tparams ft i e :
  bind_source params tparams (mkBind ft (Z.of_nat i) e) = (if ft then tparams else params) !! i.
Proof.
  unfold bind_source. simpl. destruct (Z.ltb_spec (Z.of_nat i) 0); [lia|]. by rewrite Nat2Z.id.
Qed.

Lemma FormatInt_nat n : FormatInt (Z.of_nat n) = FormatUint (N.of_nat n) 10.
Proof.
  unfold FormatInt. destruct (Z.ltb_spec (Z.of_nat n) 0); [lia|].
  by rewrite <- nat_N_Z, N2Z.id.
Qed.

Section simulation.
Context {profile : LexerProfile} {Laws : LexerLaws profile}.
Context (params tparams : list bytes).

Abbreviation style := (style_of profile).

(** Under numbered placeholders a bind must be determined by the name it
    stands for: element binds do not occur, the names of struct binds are not
    predicate parameters. *)
Definition canonical (b : Bind) : Prop :=
  Elem b = 0%Z /\
  (FromTree b = false -> forall n, bind_source params tparams b = Some n -> ~ n ∈ tparams).

Definition good_bind (b : Bind) (name : bytes) : Prop :=
  bind_source params tparams b = Some name /\ (style = StyleDollar -> canonical b).

Hypothesis Hparams : NoDup params.
Hypothesis Htparams : style = StyleDollar -> NoDup tparams.

Lemma canonical_inj b1 b2 name :
  style = StyleDollar -> canonical b1 -> canonical b2 ->
  bind_source params tparams b1 = Some name -> bind_source params tparams b2 = Some name ->
  b1 = b2.
Proof.
  intros Hst [E1 F1] [E2 F2] H1 H2. specialize (Htparams Hst).
  pose proof H1 as S1. pose proof H2 as S2.
  unfold bind_source in S1, S2. destruct b1 as [t1 i1 e1], b2 as [t2 i2 e2]. simpl in *.
  destruct (Z.ltb_spec i1 0); [done|]. destruct (Z.ltb_spec i2 0); [done|]. subst.
  assert (forall (l : list bytes), NoDup l -> l !! Z.to_nat i1 = Some name ->
    l !! Z.to_nat i2 = Some name -> i1 = i2) as Hinj.
  { intros l Hl L1 L2. pose proof (NoDup_lookup _ _ _ _ Hl L1 L2). lia. }
  destruct t1, t2.
  - by rewrite (Hinj tparams).
  - exfalso. eapply F2; [done..|]. by eapply list_elem_of_lookup_2.
  - exfalso. eapply F1; [done..|]. by eapply list_elem_of_lookup_2.
  - by rewrite (Hinj params).
Qed.

(** The renderer and the composer agree on what they have emitted. *)
Record Rel (r : renderer) (co : composer) : Prop := {
  rel_sb : r_sb r = co_b co;
  rel_seq : bind_source params tparams <$> co_binds co = Some <$> r_paramSeq r;
  rel_num : style = StyleDollar -> forall name n,
    r_paramNum r !! name = Some n <-> exists i, n = i + 1 /\ r_paramSeq r !! i = Some name;
  rel_canon : style = StyleDollar -> Forall canonical (co_binds co);
}.

Lemma Rel_push r co text tOff synth :
  Rel r co -> Rel (push_seg text tOff synth r) (write text co).
Proof. intros []. split; simpl; auto. by f_equal. Qed.

Lemma Rel_synth r co text anchor : Rel r co -> Rel (emitSynth text anchor r) (write text co).
Proof.
  intros HR. unfold emitSynth. destruct text as [|c text]; [|by apply Rel_push].
  unfold write. rewrite app_nil_r. by destruct co.
Qed.

Lemma Rel_frag r co it n : Rel r co -> Rel (add_frag it n r) co.
Proof. intros []. by split. Qed.

Lemma Rel_base r co b : Rel r co -> Rel r (mkComposer (co_b co) (co_binds co) b).
Proof. intros []. by split. Qed.

Lemma Rel_flush r co src tOff synth a b :
  a <= b -> Rel r co -> Rel (flushRun src tOff synth a b r) (write (slice src a b) co).
Proof.
  intros Hab HR. unfold flushRun. destruct (Nat.ltb_spec a b).
  - by apply Rel_push.
  - assert (a = b) as -> by lia. rewrite slice_nil. unfold write. rewrite app_nil_r.
    by destruct co.
Qed.

(** One placeholder. *)
Lemma Rel_place r co name bd :
  Rel r co -> good_bind bd name ->
  exists ph, co_b (place style bd co) = co_b co ++ ph /\
    co_base (place style bd co) = co_base co /\
    (placeholder profile name r).1 = ph /\
    forall tOff, Rel (push_seg ph tOff true (placeholder profile name r).2) (place style bd co).
Proof.
  intros [Hsb Hseq Hnum Hcan] [Hsrc Hgood]. unfold placeholder.
  assert (style = if question profile then StyleQuestion else StyleDollar) as Est by done.
  destruct (question profile) eqn:Eq; rewrite !Est; simpl.
  - exists (bs "?"). split_and!; [done..|]. intros tOff. split; simpl.
    + by f_equal.
    + rewrite !fmap_app, Hseq. simpl. by rewrite Hsrc.
    + by rewrite Est.
    + by rewrite Est.
  - specialize (Hnum Est). specialize (Hcan Est). specialize (Hgood Est).
    assert (length (co_binds co) = length (r_paramSeq r)) as Hlen.
    { apply (f_equal length) in Hseq. by rewrite !length_fmap in Hseq. }
    assert (forall i, co_binds co !! i = Some bd <-> r_paramSeq r !! i = Some name) as Hat.
    { intros i. split; intros Hi.
      - apply (f_equal (fun l => l !! i)) in Hseq. rewrite !list_lookup_fmap, Hi in Hseq.
        simpl in Hseq. rewrite Hsrc in Hseq.
        destruct (r_paramSeq r !! i) eqn:E; simpl in Hseq; congruence.
      - apply (f_equal (fun l => l !! i)) in Hseq. rewrite !list_lookup_fmap, Hi in Hseq.
        destruct (co_binds co !! i) as [b|] eqn:E; simpl in Hseq; [|done].
        f_equal. eapply canonical_inj; [done| |done| |done].
        + by eapply Forall_lookup_1.
        + congruence. }
    destruct (r_paramNum r !! name) as [n|] eqn:En; simpl.
    + pose proof En as (i & -> & Hi)%Hnum.
      destruct (find_bind_spec bd (co_binds co) 0) as [[Hf Hnot]|(j & Hj & Hf)].
      { exfalso. apply Hnot. eapply list_elem_of_lookup_2. by apply Hat. }
      assert (j = i) as ->.
      { apply Hat in Hj. assert (r_paramNum r !! name = Some (j + 1)) as Hn' by (apply Hnum; eauto).
        rewrite En in Hn'. injection Hn'. lia. }
      exists (bs "$" ++ FormatInt (Z.of_nat (i + 1))). rewrite Hf. simpl.
      rewrite decide_False by lia. rewrite decide_False by lia.
      split_and!; [by rewrite <- app_assoc|done|by rewrite FormatInt_nat|].
      intros tOff. split; simpl; [|done..]. by rewrite <- app_assoc, Hsb.
    + destruct (find_bind_spec bd (co_binds co) 0) as [[Hf Hnot]|(j & Hj & Hf)].
      2: { exfalso. apply Hat in Hj.
           assert (r_paramNum r !! name = Some (j + 1)) as Hn' by (apply Hnum; eauto). congruence. }
      exists (bs "$" ++ FormatInt (Z.of_nat (length (r_paramSeq r) + 1))). rewrite Hf. simpl.
      rewrite length_app, Hlen. simpl.
      split_and!; [by rewrite <- app_assoc|done|by rewrite FormatInt_nat|].
      intros tOff. split; simpl.
      * by rewrite <- app_assoc, Hsb.
      * rewrite !fmap_app, Hseq. simpl. by rewrite Hsrc.
      * intros _ m n. destruct (decide (name = m)) as [<-|Hne].
        -- rewrite lookup_insert_eq. split.
           ++ intros [= <-]. exists (length (r_paramSeq r)). by rewrite lookup_app_r, Nat.sub_diag.
           ++ intros (i & -> & Hi). apply lookup_app_Some in Hi as [Hi|[Hl Hi]].
              ** assert (r_paramNum r !! name = Some (i + 1)) by (apply Hnum; eauto). congruence.
              ** apply list_lookup_singleton_Some in Hi as [Hi _]. do 2 f_equal. lia.
        -- rewrite lookup_insert_ne, Hnum by done. f_equiv. intros i.
           rewrite lookup_app_Some, list_lookup_singleton_Some. naive_solver.
      * intros _. apply Forall_app. split; [done|]. by constructor.
Qed.

(** ** Texts *)

Definition resolves (pidx : gmap bytes Z) (ft : bool) (base : Z) (name : bytes) : Prop :=
  exists i, pidx !! name = Some i /\ good_bind (mkBind ft (i16 (base + i)) 0) name.

Definition text_ok (pidx : gmap bytes Z) (ft : bool) (base : Z) (text : bytes) : Prop :=
  short text = true /\
  forall t, t ∈ (tokens text).1 -> Kind t = KindParamRef -> resolves pidx ft base (tail (Text t)).

Lemma go_slice_ok text a b :
  a <= b -> b <= length text -> go_slice text (Z.of_nat a) (Z.of_nat b) = Ok (slice text a b).
Proof.
  intros. unfold go_slice. rewrite !Nat2Z.id.
  destruct (Z.leb_spec 0 (Z.of_nat a)); [|lia].
  destruct (Z.leb_spec (Z.of_nat a) (Z.of_nat b)); [|lia].
  by destruct (Z.leb_spec (Z.of_nat b) (Z.of_nat (length text))); [|lia].
Qed.

Lemma token_span_other pidx t : Kind t <> KindParamRef -> token_span pidx t = None.
Proof. intros. unfold token_span. by rewrite decide_False. Qed.

Lemma token_span_param pidx t i :
  Kind t = KindParamRef -> pidx !! tail (Text t) = Some i ->
  token_span pidx t = Some (mkRSpan (i32 (Z.of_nat (Start t))) (i32 (Z.of_nat (End t))), i).
Proof. intros Hk Hi. unfold token_span. rewrite decide_True by done. by rewrite Hi. Qed.

Lemma omap_cons_None {A B} (f : A -> option B) x l : f x = None -> omap f (x :: l) = omap f l.
Proof. intros H. simpl. by rewrite H. Qed.

Lemma omap_cons_Some {A B} (f : A -> option B) x y l :
  f x = Some y -> omap f (x :: l) = y :: omap f l.
Proof. intros H. simpl. by rewrite H. Qed.

Lemma emit_tokens_rel text pidx ft base tOff synth p toks e runStart r co :
  short text = true -> Lexes text p toks e -> e = None ->
  (forall t, t ∈ toks -> Kind t = KindParamRef -> resolves pidx ft base (tail (Text t))) ->
  runStart <= p <= length text -> Rel r co ->
  let '(rs, r') := emit_tokens profile text tOff synth toks runStart r in
  let spans := omap (token_span pidx) toks in
  exists co',
    emit_spans style text (fst <$> spans) (snd <$> spans) ft base (Z.of_nat runStart) co = Ok co' /\
    Rel (flushRun text tOff synth rs (length text) r') co' /\ co_base co' = co_base co.
Proof.
  intros Hshort HL. revert runStart r co.
  induction HL as [p Hp|p err Hn|p t ts err Hp Hn Hwf HL IH]; intros rs0 r co He Htok Hrs HR;
    simplify_eq; cbn [emit_tokens].
  - simpl. rewrite go_slice_ok by lia. eexists. split_and!; [done| |done]. apply Rel_flush; [lia|done].
  - pose proof (tok_progress _ _ _ Hwf). pose proof (tok_bound _ _ _ Hwf).
    pose proof (tok_start _ _ _ Hwf) as Hst. case_decide as Hk.
    2: { rewrite omap_cons_None by (by apply token_span_other).
         apply IH; [done|set_solver|lia|done]. }
    destruct (Htok t ltac:(set_solver) Hk) as (i & Hi & Hgood).
    rewrite (omap_cons_Some _ _ _ _ (token_span_param _ _ _ Hk Hi)).
    cbn [fmap list_fmap fst snd emit_spans RsStart RsEnd].
    unfold short in Hshort. apply N.ltb_lt in Hshort. change (2 ^ 31)%N with 2147483648%N in Hshort.
    rewrite !i32_id by lia. rewrite Hst. rewrite go_slice_ok by lia. cbn [rbind].
    assert (Rel (flushRun text tOff synth rs0 p r) (write (slice text rs0 p) co)) as HR1
      by (apply Rel_flush; [lia|done]).
    destruct (Rel_place _ _ _ _ HR1 Hgood) as (ph & Hb & Hbase & Hph & HR2).
    destruct (placeholder profile _ _) as [ph' r2]. simpl in Hph, HR2. subst ph'.
    specialize (IH (End t) (push_seg ph (if synth then tOff else tOff + p) true r2)
      (place style (mkBind ft (i16 (base + i)) 0) (write (slice text rs0 p) co))
      eq_refl ltac:(set_solver) ltac:(lia) (HR2 _)).
    destruct (emit_tokens profile text tOff synth ts (End t) _) as [rs' r'].
    destruct IH as (co' & Hco & HR' & Hb'). exists co'. split_and!; [done..|].
    by rewrite Hb', Hbase.
Qed.

(** Copying a text with its parameters rewritten. *)
Lemma emitText_rel text pidx ft base tOff synth r r' co :
  text_ok pidx ft base text -> Rel r co -> emitText profile text tOff synth r = Ok r' ->
  exists co',
    emitFrom style text (paramSpans profile text pidx).1 (paramSpans profile text pidx).2
      ft base co = Ok co' /\ Rel r' co' /\ co_base co' = co_base co.
Proof.
  intros [Hshort Htok] HR. unfold emitText, paramSpans, emitFrom. simpl.
  pose proof (tokens_Lexes text) as HL. destruct (tokens text) as [toks err]. simpl in *.
  destruct (emit_tokens profile text tOff synth toks 0 r) as [rs r1] eqn:Em.
  destruct err as [e|]; [done|]. intros [= <-].
  pose proof (emit_tokens_rel text pidx ft base tOff synth 0 toks None 0 r co
    Hshort HL eq_refl Htok ltac:(lia) HR) as H. by rewrite Em in H.
Qed.

Lemma emit_case_rel text pidx tOff r r' co :
  text_ok pidx false 0 text -> Rel r co -> emitVerbatim profile text tOff r = Ok r' ->
  exists co',
    emit_case style (build_case profile pidx text) co = Ok co' /\ Rel r' co' /\
    co_base co' = co_base co.
Proof.
  intros Hok HR He. destruct (emitText_rel _ _ _ _ _ _ _ _ _ Hok HR He) as (co' & H & HR' & Hb).
  exists co'. split_and!; [|done..]. unfold emit_case, build_case, emit.
  by destruct (paramSpans profile text pidx).
Qed.

(** The separated loops of the two sides. *)
Lemma emit_list_rel {X Y} sep anchor (emit : X -> renderer -> result RenderErr renderer)
    (f : Y -> composer -> result RtErr composer) first (xs : list X) (ys : list Y) r r' co :
  Forall2 (fun x y => forall r r' co, Rel r co -> emit x r = Ok r' ->
    exists co', f y co = Ok co' /\ Rel r' co' /\ co_base co' = co_base co) xs ys ->
  Rel r co -> emit_list sep anchor emit first xs r = Ok r' ->
  exists co', sep_loop sep f first ys co = Ok co' /\ Rel r' co' /\ co_base co' = co_base co.
Proof.
  intros Hall. revert first r co. induction Hall as [|x y xs ys Hxy Hall IH];
    intros first r co HR; simpl.
  - intros [= <-]. eauto.
  - intros (r1 & Hr1 & Hrest)%rbind_ok.
    assert (Rel (if first then r else emitSynth sep anchor r)
      (if first then co else write sep co)) as HR0 by (destruct first; [done|by apply Rel_synth]).
    destruct (Hxy _ _ _ HR0 Hr1) as (co1 & Hf & HR1 & Hb1).
    destruct (IH _ _ _ HR1 Hrest) as (co2 & Hf2 & HR2 & Hb2).
    exists co2. rewrite Hf. simpl. split_and!; [done..|]. rewrite Hb2, Hb1. by destruct first.
Qed.
End simulation.

(** ** Predicate parameters *)

Section distinct.
Context {profile : LexerProfile}.

Definition param_name (t : Token) : option bytes :=
  if decide (Kind t = KindParamRef) then Some (tail (Text t)) else None.

Definition param_names (toks : list Token) : list bytes := omap param_name toks.

Lemma param_name_Some t : Kind t = KindParamRef -> param_name t = Some (tail (Text t)).
Proof. intros. unfold param_name. by rewrite decide_True. Qed.

Lemma param_name_None t : Kind t <> KindParamRef -> param_name t = None.
Proof. intros. unfold param_name. by rewrite decide_False. Qed.

Definition grow (out : list bytes) (n : bytes) : list bytes :=
  if decide (n ∈ out) then out else out ++ [n].

Lemma distinctParams_grow body :
  distinctParams profile body = foldl grow [] (param_names (tokens body).1).
Proof.
  unfold distinctParams.
  enough (forall l out,
    foldl (fun out tok => if decide (Kind tok = KindParamRef /\ ~ tail (Text tok) ∈ out)
      then out ++ [tail (Text tok)] else out) out l
    = foldl grow out (param_names l)) as He by apply He.
  induction l as [|t l IH]; intros out; [done|]. cbn [foldl]. rewrite IH.
  unfold param_names. destruct (decide (Kind t = KindParamRef)) as [Hk|Hk].
  - rewrite (omap_cons_Some _ _ _ _ (param_name_Some _ Hk)). cbn [foldl]. f_equal.
    unfold grow. destruct (decide (tail (Text t) ∈ out)).
    + by rewrite decide_False by naive_solver.
    + by rewrite decide_True.
  - rewrite omap_cons_None by by apply param_name_None. by rewrite decide_False by naive_solver.
Qed.

Lemma grow_prefix names out : exists more, foldl grow out names = out ++ more.
Proof.
  revert out. induction names as [|n names IH]; intros out; simpl.
  - exists []. by rewrite app_nil_r.
  - destruct (IH (grow out n)) as [more ->]. unfold grow. case_decide.
    + by exists more.
    + exists (n :: more). by rewrite <- app_assoc.
Qed.

Lemma grow_elem names out n : n ∈ names -> n ∈ foldl grow out names.
Proof.
  revert out. induction names as [|m names IH]; intros out; [set_solver|].
  intros [->|Hn]%elem_of_cons; [|by apply IH]. simpl.
  destruct (grow_prefix names (grow out m)) as [more ->]. apply elem_of_app. left.
  unfold grow. case_decide; set_solver.
Qed.

Lemma grow_NoDup names out : NoDup out -> NoDup (foldl grow out names).
Proof.
  revert out. induction names as [|n names IH]; intros out Hout; simpl; [done|].
  apply IH. unfold grow. case_decide; [done|].
  apply list.NoDup_app. split_and!; [done| |apply list.NoDup_singleton]. set_solver.
Qed.

Lemma distinctParams_NoDup body : NoDup (distinctParams profile body).
Proof. rewrite distinctParams_grow. apply grow_NoDup, NoDup_nil_2. Qed.

Lemma distinctParams_elem body t :
  t ∈ (tokens body).1 -> Kind t = KindParamRef -> tail (Text t) ∈ distinctParams profile body.
Proof.
  intros Ht Hk. rewrite distinctParams_grow. apply grow_elem.
  apply list_elem_of_omap. exists t. split; [done|]. by apply param_name_Some.
Qed.

Lemma paramSpans_idx body pidx :
  (paramSpans profile body pidx).2 = omap (fun n => pidx !! n) (param_names (tokens body).1).
Proof.
  unfold paramSpans, param_names. cbn [snd]. induction (tokens body).1 as [|t l IH]; [done|].
  destruct (decide (Kind t = KindParamRef)) as [Hk|Hk].
  - rewrite (omap_cons_Some _ _ _ _ (param_name_Some _ Hk)).
    destruct (pidx !! tail (Text t)) as [i|] eqn:Ei.
    + rewrite (omap_cons_Some _ _ _ _ (token_span_param _ _ _ Hk Ei)),
        (omap_cons_Some (fun n => pidx !! n) (tail (Text t)) i _ Ei). cbn [fmap list_fmap snd]. by rewrite <- IH.
    + rewrite (omap_cons_None (fun n => pidx !! n) (tail (Text t))) by done.
      rewrite omap_cons_None; [done|]. unfold token_span. rewrite decide_True by done.
      by rewrite Ei.
  - rewrite omap_cons_None by by apply token_span_other.
    by rewrite omap_cons_None by by apply param_name_None.
Qed.

(** The arity of a predicate's table entry is its number of parameters. *)
Lemma leafArity_build_case body ps :
  ps = distinctParams profile body -> (Z.of_nat (length ps) <= 32767)%Z ->
  leafArity (build_case profile (index_map ps) body) = length ps.
Proof.
  intros Hps Hlen. unfold leafArity, build_case.
  assert (CParamIdx (let '(spans, idx) := paramSpans profile body (index_map ps) in
    mkCase body spans idx) = (paramSpans profile body (index_map ps)).2) as ->
    by by destruct (paramSpans profile body (index_map ps)).
  rewrite paramSpans_idx. assert (NoDup ps) as Hnd by (subst; apply distinctParams_NoDup).
  rewrite distinctParams_grow in Hps.
  enough (forall names out, ps = foldl grow out names ->
    foldl (fun want idx => if Z.ltb (Z.of_nat want) (idx + 1) then Z.to_nat (idx + 1) else want)
      (length out) (omap (fun n => index_map ps !! n) names) = length ps) as He
    by by apply (He _ []).
  clear Hps. induction names as [|n names IH]; intros out Hps; simpl; [by subst|].
  destruct (grow_prefix names (grow out n)) as [more Hmore]. simpl in Hps. rewrite Hmore in Hps.
  assert (exists i, ps !! i = Some n /\ length (grow out n) = max (length out) (S i)) as (i & Hi & Hg).
  { unfold grow in *. case_decide as Hin.
    - apply list_elem_of_lookup in Hin as [i Hi]. exists i.
      pose proof (lookup_lt_Some _ _ _ Hi). split; [|lia]. rewrite Hps. by apply lookup_app_l_Some.
    - exists (length out). rewrite length_app. simpl. split; [|lia].
      rewrite Hps, lookup_app_l by (rewrite length_app; simpl; lia).
      by rewrite lookup_app_r, Nat.sub_diag. }
  assert (index_map ps !! n = Some (i16 (Z.of_nat i))) as -> by (apply index_map_lookup; eauto).
  pose proof (lookup_lt_Some _ _ _ Hi). rewrite i16_id by lia. simpl.
  assert ((if Z.ltb (Z.of_nat (length out)) (Z.of_nat i + 1) then Z.to_nat (Z.of_nat i + 1)
    else length out) = length (grow out n)) as ->.
  { destruct (Z.ltb_spec (Z.of_nat (length out)) (Z.of_nat i + 1)); lia. }
  apply IH. by rewrite Hmore.
Qed.
End distinct.
