(* ===== verification/Safety.v ===== *)
(** * Safety

    Composition and bind resolution never panic: over a well-formed table
    ([table_wf], which [BuildFrags] establishes) every slice and index the
    composer computes is in range, every bind of the plan it returns resolves
    against the flattened parameters and tree arguments, and the only errors
    are the ones the API documents. *)

From S2P Require Import Prelude Dialect MySQL Template Render Tree Runtime Frags Demo Shape Keys TreeProps Simulation.

(** ** Well-formed tables *)

(** The parameter spans of a text are ordered, in range and each has its
    index. *)
Fixpoint spans_ok (len last : Z) (spans : list RSpan) (idx : list Z) : bool :=
  match spans, idx with
  | [], [] => Z.leb last len
  | sp :: spans', _ :: idx' =>
      (Z.leb last (RsStart sp) && Z.leb (RsStart sp) (RsEnd sp) && Z.leb (RsEnd sp) len
       && spans_ok len (RsEnd sp) spans' idx')%bool
  | _, _ => false
  end.

Definition idx_in (n : nat) (idx : list Z) : bool :=
  forallb (fun i => Z.leb 0 i && Z.ltb i (Z.of_nat n))%bool idx.

Definition text_wf (nv : nat) (text : bytes) (spans : list RSpan) (idx : list Z) : bool :=
  (spans_ok (Z.of_nat (length text)) 0 spans idx && idx_in nv idx)%bool.

Definition case_wf (nv : nat) (c : Case) : bool := text_wf nv (CText c) (CParamSpans c) (CParamIdx c).

(** The fragment against a parameter struct of [nv] values. *)
Definition frag_wf (nv : nat) (f : Frag) : bool :=
  (text_wf nv (FText f) (FParamSpans f) (FParamIdx f) ||
     match FKind f with InAny | InList => true | _ => false end) &&
  match FKind f with
  | FilterTree => forallb (fun c => case_wf (leafArity c) c) (FCases f)
  | InAny | InList => match FParamIdx f with i :: _ => idx_in nv [i] | [] => false end
  | _ => forallb (case_wf nv) (FCases f) &&
         match FDefault f with Some d => case_wf nv d | None => true end
  end.

Definition tree_frags (frags : list Frag) : nat :=
  length (filter (fun f => FKind f = FilterTree) frags).

Definition table_wf (nv : nat) (frags : list Frag) : bool :=
  (Z.leb (Z.of_nat nv) 32767 && forallb (frag_wf nv) frags && Nat.leb (tree_frags frags) 1)%bool.

(** ** Keys that fit a table *)

(** The [in] slice is at least as long as the key says. *)
Definition slice_fits (vals : list goany) (i n : Z) : bool :=
  match go_index vals i with
  | Ok (ASlice es) => Z.leb n (Z.of_nat (length es))
  | _ => Z.leb n 0
  end.

Fixpoint key_fits (vals : list goany) (key : ShapeKey) (o i : nat) (frags : list Frag) : bool :=
  match frags with
  | [] => true
  | f :: frags' =>
      match FKind f with
      | OrderBy =>
          match mjoin (Orders key !! o) with
          | Some es => forallb (fun e => Nat.ltb (N.to_nat (N.shiftr e 1)) (length (FCases f))) es
          | None => true
          end && key_fits vals key (S o) i frags'
      | InList =>
          let n := default 1%Z (Arities key !! i) in
          (Z.ltb MaxInArity n || slice_fits vals (default 0%Z (FParamIdx f !! 0)) n)
          && key_fits vals key o (S i) frags'
      | _ => key_fits vals key o i frags'
      end
  end.

(** ** Invariants of emission *)

Section emission.
Context (style : Style) (P : Bind -> Prop).

Definition binds_ok (co : composer) : Prop := Forall P (co_binds co).

Lemma place_ok bd co : P bd -> binds_ok co -> binds_ok (place style bd co).
Proof.
  intros Hb Hc. unfold binds_ok, place. destruct style; cbn [co_binds].
  - case_decide; [|done]. apply Forall_app. by split; [|constructor].
  - apply Forall_app. by split; [|constructor].
Qed.

Lemma place_base bd co : co_base (place style bd co) = co_base co.
Proof. by destruct style. Qed.

Lemma emit_spans_ok text spans idx ft base last co :
  (0 <= last)%Z -> spans_ok (Z.of_nat (length text)) last spans idx = true ->
  (forall i, i ∈ idx -> P (mkBind ft (i16 (base + i)) 0)) -> binds_ok co ->
  exists co', emit_spans style text spans idx ft base last co = Ok co' /\ binds_ok co' /\
    co_base co' = co_base co.
Proof.
  revert idx last co. induction spans as [|sp spans IH]; intros idx last co Hl Hs Hi Hc;
    destruct idx as [|i idx]; cbn [spans_ok emit_spans] in *; try done.
  - apply Z.leb_le in Hs. unfold go_slice.
    destruct (Z.leb_spec 0 last), (Z.leb_spec last (Z.of_nat (length text))),
      (Z.leb_spec (Z.of_nat (length text)) (Z.of_nat (length text))); try lia.
    cbn. eauto.
  - rewrite !andb_true_iff, !Z.leb_le in Hs. destruct Hs as [[[H1 H2] H3] H4]. unfold go_slice.
    destruct (Z.leb_spec 0 last), (Z.leb_spec last (RsStart sp)),
      (Z.leb_spec (RsStart sp) (Z.of_nat (length text))); try lia. cbn [andb rbind].
    destruct (IH idx (RsEnd sp) (place style (mkBind ft (i16 (base + i)) 0)
      (write (slice text (Z.to_nat last) (Z.to_nat (RsStart sp))) co))) as (co' & He & Hb & Hbase);
      [lia|done|intros; apply Hi; set_solver|apply place_ok; [apply Hi; set_solver|done]|].
    exists co'. split_and!; [done..|]. by rewrite Hbase, place_base.
Qed.

Lemma sep_loop_ok {X} (Q : X -> Prop) sep (f : X -> composer -> result RtErr composer) first xs co :
  Forall Q xs ->
  (forall x co, Q x -> binds_ok co -> exists co', f x co = Ok co' /\ binds_ok co' /\ co_base co' = co_base co) ->
  binds_ok co ->
  exists co', sep_loop sep f first xs co = Ok co' /\ binds_ok co' /\ co_base co' = co_base co.
Proof.
  intros HQ Hf. revert first co. induction HQ as [|x xs Hx _ IH]; intros first co Hc; cbn [sep_loop]; [eauto|].
  destruct (Hf x (if first then co else write sep co)) as (co1 & H1 & Hc1 & Hb1);
    [done|by destruct first|]. rewrite H1. cbn [rbind].
  destruct (IH false co1 Hc1) as (co2 & H2 & Hc2 & Hb2). exists co2. split_and!; [done..|].
  rewrite Hb2, Hb1. by destruct first.
Qed.
End emission.

(** ** Bind resolution *)

Definition resolvable (vals targs : list goany) (b : Bind) : Prop :=
  exists v, resolve_bind vals targs b = Ok v.

Lemma ResolveArgs_resolvable vals targs binds :
  Forall (resolvable vals targs) binds -> exists args, ResolveArgs binds vals targs = Ok args.
Proof.
  intros Hb. assert (exists args, rmap (resolve_bind vals targs) binds = Ok args) as [args Hr].
  { induction Hb as [|b binds [v Hv] _ [args IH]]; [by exists (@nil goany)|].
    exists (v :: args). cbn [rmap]. by rewrite Hv, IH. }
  unfold ResolveArgs. destruct binds; eauto.
Qed.

Lemma ResolveArgs_length binds vals targs args :
  ResolveArgs binds vals targs = Ok args -> length args = length binds.
Proof.
  unfold ResolveArgs. destruct binds as [|b binds]; [by intros [= <-]|].
  intros H%rmap_ok. symmetry. by eapply Forall2_length.
Qed.

Lemma go_index_ok {A} (xs : list A) i :
  (0 <= i < Z.of_nat (length xs))%Z -> exists x, go_index xs i = Ok x.
Proof.
  intros Hi. unfold go_index. destruct (Z.ltb_spec i 0); [lia|].
  destruct (lookup_lt_is_Some_2 xs (Z.to_nat i)) as [x Hx]; [lia|]. rewrite Hx. by exists x.
Qed.

Lemma whole_resolvable (vals targs : list goany) (ft : bool) i :
  (0 <= i < Z.of_nat (length (if ft then targs else vals)))%Z -> resolvable vals targs (mkBind ft i 0).
Proof.
  intros Hi. unfold resolvable, resolve_bind. cbn [FromTree Idx Elem].
  destruct (go_index_ok (if ft then targs else vals) i Hi) as [x Hx]. rewrite Hx. cbn. eauto.
Qed.

Lemma idx_in_elem n idx i : idx_in n idx = true -> i ∈ idx -> (0 <= i < Z.of_nat n)%Z.
Proof.
  unfold idx_in. rewrite forallb_forall. intros H Hi%list_elem_of_In.
  apply H, andb_prop in Hi as [?%Z.leb_le ?%Z.ltb_lt]. lia.
Qed.

(** ** Trees *)

Lemma countArgs_kids kids c : foldl (fun c k => c + countArgs k) c kids = c + sum_list (countArgs <$> kids).
Proof.
  revert c. induction kids as [|k kids IH]; intros c; [simpl; lia|]. cbn [foldl].
  rewrite IH, fmap_cons, sum_list_cons. lia.
Qed.

Lemma appendArgs_app n dst : exists args, appendArgs n dst = dst ++ args /\ length args = countArgs n.
Proof.
  revert dst. induction n as [op kids pred nargs IH] using node_ind'. intros dst.
  assert (forall dst, exists args, foldl (fun dst k => appendArgs k dst) dst kids = dst ++ args /\
    length args = sum_list (countArgs <$> kids)) as Hk.
  { clear dst. induction IH as [|k kids Hk _ IHk]; intros dst; [exists []; by rewrite app_nil_r|].
    cbn [foldl]. destruct (Hk dst) as (a1 & -> & L1). destruct (IHk (dst ++ a1)) as (a2 & -> & L2).
    exists (a1 ++ a2). rewrite app_assoc, length_app, fmap_cons, sum_list_cons. split; [done|lia]. }
  destruct op; cbn [appendArgs countArgs]; [by exists nargs|rewrite countArgs_kids; apply Hk..].
Qed.

(** The flattened arguments of a tree are as many as its leaves carry. *)
Lemma length_TreeArgs n : length (TreeArgs (Some n)) = countArgs n.
Proof.
  unfold TreeArgs. case_decide as H; [by rewrite H|].
  by destruct (appendArgs_app n []) as (args & -> & Hl).
Qed.

Lemma sum_list_le {A} (f g : A -> nat) l :
  Forall (fun x => f x <= g x) l -> sum_list (f <$> l) <= sum_list (g <$> l).
Proof. induction 1; [done|]. rewrite !fmap_cons, !sum_list_cons. lia. Qed.

Lemma countArgs_tree_args n : countArgs n <= tree_args n.
Proof.
  induction n as [op kids pred nargs IH] using node_ind'. apply (sum_list_le countArgs tree_args) in IH.
  destruct op; cbn [countArgs tree_args]; rewrite ?countArgs_kids; lia.
Qed.

Lemma leafArity_bound c i : i ∈ CParamIdx c -> (0 <= i)%Z -> (i < Z.of_nat (leafArity c))%Z.
Proof.
  unfold leafArity.
  enough (forall idx w, (Z.of_nat w <= Z.of_nat (foldl (fun want idx =>
      if Z.ltb (Z.of_nat want) (idx + 1) then Z.to_nat (idx + 1) else want) w idx))%Z /\
    (i ∈ idx -> (0 <= i)%Z -> (i < Z.of_nat (foldl (fun want idx =>
      if Z.ltb (Z.of_nat want) (idx + 1) then Z.to_nat (idx + 1) else want) w idx))%Z)) as He by apply He.
  induction idx as [|j idx IH]; intros w; cbn [foldl]; [split; [lia|set_solver]|].
  destruct (IH (if Z.ltb (Z.of_nat w) (j + 1) then Z.to_nat (j + 1) else w)) as [H1 H2].
  destruct (Z.ltb_spec (Z.of_nat w) (j + 1)); (split; [lia|intros [->|Hi]%elem_of_cons H0; [lia|by apply H2]]).
Qed.

Section trees.
Context (style : Style) (P : Bind -> Prop) (preds : list Case) (total : nat).
Hypothesis Hpreds : forallb (fun c => case_wf (leafArity c) c) preds = true.
Hypothesis Htotal : (Z.of_nat total <= 32767)%Z.
Hypothesis HP : forall k, (0 <= k < Z.of_nat total)%Z -> P (mkBind true k 0).

Lemma emit_node_ok n co off :
  validate_rec preds n = Ok tt -> co_base co = Z.of_nat off -> off + countArgs n <= total -> binds_ok P co ->
  exists co' off', emit_node style preds n co = Ok co' /\ binds_ok P co' /\
    co_base co' = Z.of_nat off' /\ off' <= off + countArgs n.
Proof.
  revert co off. induction n as [op kids pred nargs IH] using node_ind'. intros co off V Hb Hle Hc.
  pose proof (validate_rec_kids _ _ _ _ _ V) as VK.
  assert (forall first co off, co_base co = Z.of_nat off -> off + sum_list (countArgs <$> kids) <= total ->
    binds_ok P co -> forall sep, exists co' off', sep_loop sep (emit_node style preds) first kids co = Ok co' /\
      binds_ok P co' /\ co_base co' = Z.of_nat off' /\ off' <= off + sum_list (countArgs <$> kids)) as Hk.
  { clear -IH VK. revert VK. induction IH as [|k kids Hk _ IHk]; intros VK first co off Hb Hle Hc sep.
    - exists co, off. split_and!; [done..|lia].
    - inversion VK as [|? ? V1 V2]; subst. rewrite fmap_cons, sum_list_cons in *. cbn [sep_loop].
      destruct (Hk (if first then co else write sep co) off V1) as (co1 & off1 & H1 & Hc1 & Hb1 & Hl1);
        [by destruct first|lia|by destruct first|]. rewrite H1. cbn [rbind].
      destruct (IHk V2 false co1 off1 Hb1 ltac:(lia) Hc1 sep) as (co2 & off2 & H2 & Hc2 & Hb2 & Hl2).
      exists co2, off2. split_and!; [done..|lia]. }
  destruct op; cbn [emit_node countArgs] in *; rewrite ?countArgs_kids in Hle.
  - destruct (validate_rec_leaf _ _ _ _ V) as (c & Hcase & Hlen). rewrite Hcase. cbn [rbind].
    assert (case_wf (leafArity c) c = true) as Hwf.
    { rewrite forallb_forall in Hpreds. apply Hpreds. unfold go_index in Hcase.
      destruct (Z.ltb pred 0); [done|]. destruct (preds !! _) as [c'|] eqn:E; [|done]. injection Hcase as ->.
      by eapply list_elem_of_In, list_elem_of_lookup_2. }
    apply andb_prop in Hwf as [Hs Hi].
    destruct (emit_spans_ok style P (CText c) (CParamSpans c) (CParamIdx c) true (co_base co) 0
      (write (bs "(") co)) as (co' & He & Hc' & Hb'); [done|done| |done|].
    { intros i Hin. pose proof (idx_in_elem _ _ _ Hi Hin). rewrite Hb, i16_id by lia. apply HP. lia. }
    unfold emitFrom. rewrite He. cbn [rbind].
    eexists _, (off + length nargs). split_and!; [done|done| |lia].
    cbn [co_base write] in *. rewrite Hb', Hb, (i16_id (Z.of_nat (length nargs))), i16_id by lia. lia.
  - destruct (Hk true (write (bs "(") co) off Hb ltac:(lia) Hc (bs " AND ")) as (co' & off' & -> & ? & ? & ?).
    cbn [rbind]. eexists _, off'. split_and!; [done..|rewrite countArgs_kids; lia].
  - destruct (Hk true (write (bs "(") co) off Hb ltac:(lia) Hc (bs " OR ")) as (co' & off' & -> & ? & ? & ?).
    cbn [rbind]. eexists _, off'. split_and!; [done..|rewrite countArgs_kids; lia].
  - eexists _, off. split_and!; [done..|lia].
Qed.
End trees.

(** ** Errors *)

(** The errors a composition reports. *)
Definition compose_error (e : RtErr) : Prop :=
  match e with
  | ErrShapeKeyLimit _ | ErrTreeTooLarge | ErrTreePredicate _ | ErrTreeArity _ _ _ => True
  | _ => False
  end.

Lemma validate_rec_err preds n e : validate_rec preds n = Err e -> compose_error e.
Proof.
  induction n as [op kids pred nargs IH] using node_ind'. cbn [validate_rec].
  assert (forall x, rfold (fun _ k => validate_rec preds k) x kids = Err e -> compose_error e) as Hk.
  { induction IH as [|k kids Hk _ IHk]; intros x; cbn [rfold]; [done|].
    destruct (validate_rec preds k) as [[]|e'] eqn:E; cbn [rbind]; [apply IHk|].
    intros [= ->]. by apply Hk. }
  destruct op; cbn [rbind]; try apply Hk.
  destruct (Z.ltb_spec pred 0); cbn [orb rbind]; [by intros [= <-]|].
  destruct (Z.leb_spec (Z.of_nat (length preds)) pred); cbn [rbind]; [by intros [= <-]|].
  destruct (lookup_lt_is_Some_2 preds (Z.to_nat pred)) as [c ->]; [lia|]. cbn [or_err rbind].
  destruct (decide _); cbn [rbind]; [apply Hk|by intros [= <-]].
Qed.

Lemma validate_err t preds caps e : validate t preds caps = Err e -> compose_error e.
Proof.
  unfold validate. destruct (checkCaps t caps) as [[]|e'] eqn:E; cbn [rbind].
  - destruct t; [|done]. apply validate_rec_err.
  - apply checkCaps_err in E as ->. by intros [= <-].
Qed.

(** ** The table loop *)

Definition good {A} (Q : A -> Prop) (r : result RtErr A) : Prop :=
  match r with Ok a => Q a | Err e => compose_error e end.

Section table.
Context (style : Style) (key : ShapeKey) (tree : Tree) (caps : TreeCaps) (vals : list goany).

Abbreviation P := (resolvable vals (TreeArgs tree)).
Abbreviation nv := (length vals).
Hypothesis Hnv : (Z.of_nat nv <= 32767)%Z.

Lemma emit_text_ok text spans idx co :
  text_wf nv text spans idx = true -> binds_ok P co ->
  exists co', emit style text spans idx co = Ok co' /\ binds_ok P co' /\ co_base co' = co_base co.
Proof.
  intros [Hs Hi]%andb_prop Hc. apply emit_spans_ok; [done|done| |done].
  intros i Hin. pose proof (idx_in_elem _ _ _ Hi Hin). rewrite i16_id by lia.
  by apply whole_resolvable.
Qed.

Lemma emit_case_ok c co :
  case_wf nv c = true -> binds_ok P co ->
  exists co', emit_case style c co = Ok co' /\ binds_ok P co' /\ co_base co' = co_base co.
Proof. apply emit_text_ok. Qed.

Lemma compose_order_ok f seq co :
  forallb (case_wf nv) (FCases f) = true ->
  match FDefault f with Some d => case_wf nv d | None => true end = true ->
  match seq with
  | Some es => forallb (fun e => Nat.ltb (N.to_nat (N.shiftr e 1)) (length (FCases f))) es
  | None => true
  end = true -> binds_ok P co ->
  exists co', compose_order style f seq co = Ok co' /\ binds_ok P co' /\ co_base co' = co_base co.
Proof.
  intros Hcases Hdef Hseq Hc. unfold compose_order. rewrite forallb_forall in Hcases.
  assert (Forall (fun c => case_wf nv c = true) (FCases f)) as Hall by by apply Forall_forall.
  destruct seq as [[|e es]|].
  - destruct (FDefault f) as [d|]; [|by eexists].
    destruct (CText d) eqn:Et; [by eexists|]. by apply (emit_case_ok d (write [c_lf] co)).
  - apply (sep_loop_ok P (fun e => N.to_nat (N.shiftr e 1) < length (FCases f)) (bs ", ")
      _ true (e :: es) (write (bs "ORDER BY ") (write [c_lf] co))); [| |done].
    + rewrite forallb_forall in Hseq. apply Forall_forall. intros x Hx. by apply Nat.ltb_lt, Hseq.
    + intros x co0 Hx Hc0. destruct (lookup_lt_is_Some_2 _ _ Hx) as [c Hcx]. rewrite Hcx. cbn [or_err rbind].
      destruct (emit_case_ok c co0) as (co' & -> & ? & ?); [|done|].
      { by eapply Hcases, list_elem_of_In, list_elem_of_lookup_2. }
      cbn [rbind]. by destruct (N.testbit x 0); eexists.
  - apply (sep_loop_ok P (fun c => case_wf nv c = true) (bs ", ") (emit_case style) true (FCases f)
      (write (bs "ORDER BY ") (write [c_lf] co))); [done| |done]. intros. by apply emit_case_ok.
Qed.

Lemma compose_inlist_ok f n co :
  match FParamIdx f with i :: _ => idx_in nv [i] | [] => false end = true ->
  (Z.ltb MaxInArity n || slice_fits vals (default 0%Z (FParamIdx f !! 0)) n)%bool = true -> binds_ok P co ->
  good (fun co' => binds_ok P co' /\ co_base co' = co_base co) (compose_inlist style f n co).
Proof.
  intros Hf Hn Hc. unfold compose_inlist. destruct (FParamIdx f) as [|i idx] eqn:Ei; [done|].
  destruct (Z.leb_spec n 0); [done|]. destruct (Z.ltb_spec MaxInArity n) as [|Hmax]; [done|].
  cbn [orb lookup list_lookup default from_option] in Hn.
  destruct (sep_loop_ok P (fun e => 1 <= e <= Z.to_nat n) (bs ", ") (fun e co =>
        let! idx := go_index (i :: idx) 0 in
        Ok (place style (mkBind false idx (i16 (Z.of_nat e))) co)) true (seq 1 (Z.to_nat n))
        (write (bs "IN (") co)) as (co' & He & Hc' & Hb); [| |done|by rewrite He].
  - apply Forall_forall. intros e He%list_elem_of_In%elem_of_seq. lia.
  - intros e co0 He Hc0. cbn. eexists. split_and!; [done| |apply place_base].
    apply place_ok; [|done]. unfold MaxInArity in Hmax. rewrite i16_id by lia.
    unfold slice_fits, id in Hn. unfold resolvable, resolve_bind. cbn [FromTree Idx Elem].
    destruct (Z.ltb_spec 0 (Z.of_nat e)); [|lia].
    destruct (go_index vals i) as [[v|es]|]; [apply Z.leb_le in Hn; lia| |apply Z.leb_le in Hn; lia].
    apply Z.leb_le in Hn. cbn [rbind sliceElem].
    by destruct (go_index_ok es (Z.of_nat e - 1) ltac:(lia)) as [x ->]; eexists.
Qed.

Lemma compose_loop_ok frags st :
  forallb (frag_wf nv) frags = true -> tree_frags frags <= 1 ->
  key_fits vals key (cs_order st) (cs_in st) frags = true ->
  binds_ok P (cs_co st) -> (1 <= tree_frags frags -> co_base (cs_co st) = 0%Z) ->
  good (fun st' => binds_ok P (cs_co st')) (rfold (compose_frag style key tree caps) st frags).
Proof.
  revert st. induction frags as [|f frags IH]; intros st Hwf Ht Hk Hc Hb; [done|].
  simpl in Hwf. apply andb_prop in Hwf as [Hf Hwf]. cbn [rfold].
  assert (FKind f <> FilterTree -> tree_frags (f :: frags) = tree_frags frags) as Htf.
  { intros Hne. unfold tree_frags. by rewrite filter_cons_False. }
  assert (forall co' ch o i, FKind f <> FilterTree -> binds_ok P co' -> co_base co' = co_base (cs_co st) ->
    key_fits vals key o i frags = true ->
    good (fun st' => binds_ok P (cs_co st')) (rfold (compose_frag style key tree caps) (mkCState co' ch o i) frags)) as Hnext.
  { intros co' ch o i Hne Hc' Hb' Hk'. apply IH; cbn; [done|rewrite <- Htf by done; lia|done|done|].
    intros. rewrite Hb'. apply Hb. by rewrite Htf. }
  unfold frag_wf in Hf. apply andb_prop in Hf as [Htext Hf]. cbn [key_fits] in Hk.
  unfold compose_frag. destruct (FKind f) eqn:Ek; rewrite ?orb_false_r in Htext.
  - destruct (emit_text_ok _ _ _ _ Htext Hc) as (co' & -> & Hc' & Hb'). cbn [rbind]. by apply Hnext.
  - destruct (N.eqb _ _); cbn [rbind].
    + unfold compose_guarded.
      destruct (emit_text_ok (FText f) (FParamSpans f) (FParamIdx f)
        (match FSep f with SepAnd => write (bs "AND (") (write [c_lf] (cs_co st))
         | SepComma => write (bs ", ") (write [c_lf] (cs_co st)) | SepNone => write [c_lf] (cs_co st) end))
        as (co' & -> & Hc' & Hb'); [done|by destruct (FSep f)|]. cbn [rbind].
      apply Hnext; [done|by case_decide| |done]. by case_decide; cbn; rewrite Hb'; destruct (FSep f).
    + destruct st. by apply Hnext.
  - apply andb_prop in Hf as [Hcases _]. unfold compose_choose.
    destruct (FCases f !! _) as [c|] eqn:Ec.
    + rewrite forallb_forall in Hcases.
      destruct (emit_case_ok c (write [c_lf] (cs_co st))) as (co' & -> & Hc' & Hb');
        [by eapply Hcases, list_elem_of_In, list_elem_of_lookup_2|done|]. cbn [rbind]. by apply Hnext.
    + cbn [rbind]. by apply Hnext.
  - apply andb_prop in Hf as [Hcases Hdef]. apply andb_prop in Hk as [Hseq Hk].
    destruct (compose_order_ok _ _ _ Hcases Hdef Hseq Hc) as (co' & -> & Hc' & Hb'). cbn [rbind].
    apply Hnext; [done..|]. by rewrite Nat.add_1_r.
  - assert (tree_frags frags = 0) as Hz.
    { unfold tree_frags in *. rewrite filter_cons_True in Ht by done. simpl in Ht. lia. }
    assert (1 <= tree_frags (f :: frags)) as Hone.
    { unfold tree_frags. rewrite filter_cons_True by done. simpl. lia. }
    assert (forall co', binds_ok P co' -> good (fun st' => binds_ok P (cs_co st'))
      (rfold (compose_frag style key tree caps) (mkCState co' (cs_choose st) (cs_order st) (cs_in st)) frags)) as Hlast.
    { intros co' Hc'. apply IH; cbn; [done|lia|done|done|lia]. }
    destruct tree as [n|] eqn:En; cbn [IsZero rbind]; [|by apply Hlast].
    destruct (validate (Some n) (FCases f) caps) as [[]|e] eqn:Ev; cbn [rbind good]; [|by eapply validate_err].
    apply validate_ok in Ev as [Hcaps Hv].
    apply checkCaps_ok in Hcaps as (_ & _ & Hargs). unfold MaxTreeArgs in Hargs.
    pose proof (countArgs_tree_args n).
    destruct (emit_node_ok style (resolvable vals (TreeArgs (Some n))) (FCases f) (countArgs n)) with (n := n)
      (co := cs_co st) (off := 0) as (co' & off' & He & Hc' & _); [done|lia| |done|by rewrite Hb|lia|done|].
    { intros k Hkk. apply whole_resolvable. by rewrite length_TreeArgs. }
    cbn [emitTree]. rewrite He. cbn [rbind]. by apply Hlast.
  - destruct (FParamIdx f) as [|i idx]; [done|]. cbn [rbind go_index lookup list_lookup].
    unfold go_index. cbn. pose proof (idx_in_elem _ _ i Hf ltac:(set_solver)).
    pose proof (place_ok style P (mkBind false i 0) (write (bs "= ANY(") (cs_co st))
      (whole_resolvable _ _ false i ltac:(done)) Hc) as Hp.
    apply Hnext; [done|exact Hp| |done].
    exact (place_base style (mkBind false i 0) (write (bs "= ANY(") (cs_co st))).
  - apply andb_prop in Hk as [Hn Hk]. pose proof (compose_inlist_ok f _ _ Hf Hn Hc) as Hl.
    destruct (compose_inlist style f _ _) as [co'|e]; cbn [rbind good] in *; [|done].
    destruct Hl as [Hc' Hb']. apply Hnext; [done..|]. by rewrite Nat.add_1_r.
Qed.

Lemma compose_resolves frags :
  table_wf nv frags = true -> key_fits vals key 0 0 frags = true ->
  good (fun '(sql, binds) => exists args, ResolveArgs binds vals (TreeArgs tree) = Ok args)
    (ComposeTreeStyle style frags key tree caps).
Proof.
  unfold table_wf. intros [[_ Hwf]%andb_prop Ht%Nat.leb_le]%andb_prop Hk.
  pose proof (compose_loop_ok frags (mkCState (mkComposer [] [] 0) 0 0 0) Hwf Ht Hk (List.Forall_nil _)
    (fun _ => eq_refl)) as H.
  unfold ComposeTreeStyle. destruct (rfold _ _ frags) as [st|e]; cbn in *; [|done].
  by apply ResolveArgs_resolvable.
Qed.
End table.

(** ** The tables of the code generator are well formed *)

Section build.
Context {profile : LexerProfile} {Laws : LexerLaws profile}.

Lemma paramSpans_lexes text pidx p toks e last :
  short text = true -> Lexes text p toks e -> last <= p -> p <= length text ->
  spans_ok (Z.of_nat (length text)) (Z.of_nat last)
    (fst <$> omap (token_span pidx) toks) (snd <$> omap (token_span pidx) toks) = true.
Proof.
  intros Hshort HL. unfold short in Hshort. apply N.ltb_lt in Hshort.
  change (2 ^ 31)%N with 2147483648%N in Hshort. revert last.
  induction HL as [p Hp|p err Hn|p t ts err Hp Hn Hwf HL IH]; intros last Hl Hlen.
  1-2: cbn; apply Z.leb_le; lia.
  pose proof (tok_progress _ _ _ Hwf). pose proof (tok_bound _ _ _ Hwf). pose proof (tok_start _ _ _ Hwf) as Hst.
  destruct (token_span pidx t) as [[sp i]|] eqn:Et.
  - rewrite (omap_cons_Some _ _ _ _ Et). rewrite !fmap_cons. cbn [fst snd spans_ok].
    unfold token_span in Et. destruct (decide (Kind t = KindParamRef)); [|done].
    destruct (pidx !! tail (Text t)) as [j|]; [|done]. injection Et as <- <-. cbn [RsStart RsEnd].
    rewrite !i32_id by lia. rewrite !andb_true_iff, !Z.leb_le. split_and!; [lia..|]. apply IH; lia.
  - rewrite (omap_cons_None _ _ _ Et). apply IH; lia.
Qed.

Lemma paramSpans_wf text names nv :
  short text = true -> NoDup names -> (Z.of_nat (length names) <= 32767)%Z -> length names <= nv ->
  text_wf nv text (paramSpans profile text (index_map names)).1 (paramSpans profile text (index_map names)).2 = true.
Proof.
  intros Hs Hnd Hlen Hnv. unfold text_wf, paramSpans. cbn [fst snd]. apply andb_true_iff. split.
  - eapply (paramSpans_lexes text (index_map names) 0 _ _ 0); [done|apply tokens_Lexes|lia|lia].
  - unfold idx_in. apply forallb_forall. intros i Hi%list_elem_of_In.
    apply list_elem_of_fmap in Hi as ([sp i'] & -> & Hi). apply list_elem_of_omap in Hi as (t & _ & Ht).
    unfold token_span in Ht. destruct (decide _); [|done].
    destruct (index_map names !! tail (Text t)) as [j|] eqn:Ej; [|done]. injection Ht as <- <-. cbn [snd].
    apply index_map_lookup in Ej as (k & Hk & ->); [|done]. pose proof (lookup_lt_Some _ _ _ Hk).
    rewrite i16_id by lia. apply andb_true_iff. rewrite Z.leb_le, Z.ltb_lt. lia.
Qed.

Lemma build_case_wf text names nv :
  short text = true -> NoDup names -> (Z.of_nat (length names) <= 32767)%Z -> length names <= nv ->
  case_wf nv (build_case profile (index_map names) text) = true.
Proof.
  intros. unfold case_wf, build_case.
  pose proof (paramSpans_wf text names nv) as Hw.
  destruct (paramSpans profile text (index_map names)) as [sp ix]. by apply Hw.
Qed.

Lemma binds_within_short allowed text : binds_within profile allowed text = true -> short text = true.
Proof. unfold binds_within. by intros [? _]%andb_prop. Qed.

Lemma build_frag_wf q it bits :
  NoDup (QParamOrder q) -> (Z.of_nat (length (QParamOrder q)) <= 32767)%Z ->
  (Z.of_nat (length (tree_params q)) <= 32767)%Z ->
  tree_count q <= 1 -> it ∈ QItems q -> item_wf profile q it = true ->
  frag_wf (length (QParamOrder q)) (build_frag profile bits (index_map (QParamOrder q)) it) = true.
Proof.
  intros Hnd Hlen Htp Htc Hin Hwf.
  assert (forall allowed text, binds_within profile allowed text = true ->
    case_wf (length (QParamOrder q)) (build_case profile (index_map (QParamOrder q)) text) = true) as Hcase.
  { intros allowed text Hb%binds_within_short. by apply build_case_wf. }
  assert (forall allowed text, binds_within profile allowed text = true ->
    text_wf (length (QParamOrder q)) text (paramSpans profile text (index_map (QParamOrder q))).1
      (paramSpans profile text (index_map (QParamOrder q))).2 = true) as Htext.
  { intros allowed text Hb%binds_within_short. by apply paramSpans_wf. }
  assert (text_wf (length (QParamOrder q)) [] [] [] = true) as Hnil by done.
  unfold frag_wf, build_frag. destruct it as [v|v|v|v|v|v]; cbn [item_wf] in Hwf.
  - specialize (Htext _ _ Hwf). destruct (paramSpans profile (SkText v) _) as [sp ix]. cbn in *. by rewrite Htext.
  - apply andb_prop in Hwf as [Hwf _]. specialize (Htext _ _ Hwf).
    destruct (paramSpans profile (IPBody v) _) as [sp ix]. cbn in *. by rewrite Htext.
  - apply andb_prop in Hwf as [Hc Hd]. cbn. rewrite andb_true_r. apply forallb_forall.
    intros c Hcin%list_elem_of_In. rewrite forallb_forall in Hc.
    assert (c ∈ (fun cs => build_case profile (index_map (QParamOrder q)) (CCBody cs)) <$> ChCases v ->
      case_wf (length (QParamOrder q)) c = true) as Hnamed.
    { intros (cs & -> & Hcs)%list_elem_of_fmap. by eapply Hcase, Hc, list_elem_of_In. }
    destruct (ChDefault v); [|by apply Hnamed].
    apply elem_of_app in Hcin as [?| ->%list_elem_of_singleton]; [by apply Hnamed|by eapply Hcase].
  - apply andb_prop in Hwf as [Hk Hd]. cbn [FKind FText FParamSpans FParamIdx FCases FDefault].
    rewrite Hnil. cbn [orb andb]. apply andb_true_iff. split.
    + apply forallb_forall. intros c (k & -> & Hkin)%list_elem_of_In%list_elem_of_fmap.
      rewrite forallb_forall in Hk. apply list_elem_of_In in Hkin. exact (Hcase _ _ (Hk k Hkin)).
    + destruct (ObDefault v) as [d|]; [|done]. destruct (CCBody d) eqn:Eb; [done|]. by eapply Hcase.
  - apply bool_decide_eq_true in Hwf.
    assert (InParam v ∈ QParamOrder q) as Hp.
    { unfold struct_names in Hwf. destruct (question profile); [done|].
      by apply list_elem_of_filter in Hwf as [_ ?]. }
    assert (idx_in (length (QParamOrder q)) [default 0%Z (index_map (QParamOrder q) !! InParam v)] = true) as Hidx.
    { apply list_elem_of_lookup in Hp as [k Hk]. pose proof (lookup_lt_Some _ _ _ Hk).
      assert (index_map (QParamOrder q) !! InParam v = Some (i16 (Z.of_nat k))) as -> by (apply index_map_lookup; eauto).
      cbn [default from_option]. unfold id. rewrite i16_id by lia. unfold idx_in. cbn. rewrite andb_true_r.
      apply andb_true_iff. rewrite Z.leb_le, Z.ltb_lt. lia. }
    case_decide; cbn [FKind FParamIdx]; rewrite orb_true_r; apply Hidx.
  - cbn [FKind FText FParamSpans FParamIdx FCases FDefault]. rewrite Hnil. cbn [orb andb].
    rewrite forallb_forall in Hwf. apply forallb_forall.
    intros c (pr & -> & Hpr)%list_elem_of_In%list_elem_of_fmap.
    pose proof Hpr as Hpr'%list_elem_of_In. apply Hwf, andb_prop in Hpr' as [Hs Hd].
    apply bool_decide_eq_true in Hd.
    assert (Z.of_nat (length (PrParams pr)) <= 32767)%Z as Hl.
    { enough (length (PrParams pr) <= length (tree_params q)) by lia. unfold tree_params, tree_predicates.
      assert (v ∈ omap as_tree (QItems q)) as Hv by (apply list_elem_of_omap; by exists (IFilterTree v)).
      unfold tree_count in Htc. destruct (omap as_tree (QItems q)) as [|w [|]]; [set_solver| |simpl in Htc; lia].
      apply list_elem_of_singleton in Hv as <-. apply list_elem_of_split in Hpr as (l1 & l2 & ->).
      rewrite fmap_app, concat_app, fmap_cons. cbn [concat]. rewrite !length_app. lia. }
    rewrite (leafArity_build_case (PrBody pr) (PrParams pr)) by done.
    apply build_case_wf; [done|rewrite Hd; apply distinctParams_NoDup|done|done].
Qed.

Lemma BuildFrags_table_wf q :
  wf_query profile q = true -> table_wf (length (QParamOrder q)) (BuildFrags profile q) = true.
Proof.
  intros Hwf. unfold wf_query in Hwf. rewrite !andb_true_iff in Hwf.
  destruct Hwf as [[[[[[H1 H2] H3] H4] H5] H6] H7].
  apply bool_decide_eq_true in H1. apply N.leb_le in H2, H6. apply Nat.leb_le in H4. unfold MaxParams in H2.
  rewrite forallb_forall in H7. unfold table_wf. rewrite !andb_true_iff. split_and!.
  - apply Z.leb_le. lia.
  - apply forallb_forall. intros f (it & -> & Hit)%list_elem_of_In%list_elem_of_fmap.
    apply build_frag_wf; [done|lia|lia|done|done|]. by apply H7, list_elem_of_In.
  - apply Nat.leb_le. etransitivity; [|exact H4]. unfold tree_frags, tree_count, BuildFrags.
    generalize (guard_bits q) (index_map (QParamOrder q)). intros bits pidx. clear.
    induction (QItems q) as [|it items IH]; [done|]. rewrite fmap_cons, filter_cons.
    destruct it; cbn [build_frag omap list_omap as_tree]; repeat case_match; cbn [FKind] in *; try done; simpl; lia.
Qed.
End build.

(** ** The theorem *)

(** C4: over the table generated for a well-formed query, composing any shape
    key the argument values can produce - any guard mask, any choose ordinals,
    any accepted or rejected filter tree - never panics: it reports one of the
    documented errors or returns a bind plan each entry of which resolves. *)
Theorem composition_never_panics {profile : LexerProfile} {Laws : LexerLaws profile} q style key tree caps vals :
  wf_query profile q = true -> length vals = length (QParamOrder q) ->
  key_fits vals key 0 0 (BuildFrags profile q) = true ->
  match ComposeTreeStyle style (BuildFrags profile q) key tree caps with
  | Ok (sql, binds) =>
      exists args, ResolveArgs binds vals (TreeArgs tree) = Ok args /\ length args = length binds
  | Err e => compose_error e
  end.
Proof.
  intros Hwf Hv Hk. pose proof (BuildFrags_table_wf q Hwf) as Htw. rewrite <- Hv in Htw.
  assert (Z.of_nat (length vals) <= 32767)%Z as Hnv
    by (unfold table_wf in Htw; rewrite !andb_true_iff, Z.leb_le in Htw; apply Htw).
  pose proof (compose_resolves style key tree caps vals Hnv _ Htw Hk) as H.
  destruct (ComposeTreeStyle _ _ _ _ _) as [[sql binds]|e]; cbn in H; [|done].
  destruct H as [args Ha]. exists args. split; [done|]. by eapply ResolveArgs_length.
Qed.

(** ** Instance *)
Definition demo_vals : list goany :=
  [AVal (bs "t"); AVal (bs "n"); ASlice [AVal (bs "1"); AVal (bs "2")]; AVal (bs "x"); AVal (bs "m");
   AVal (bs "o"); AVal (bs "f"); AVal (bs "lo"); AVal (bs "hi"); AVal (bs "nm")].

Definition demo_and : Tree := And [NewLeaf 0 [AVal (bs "3"); AVal (bs "4")]; NewLeaf 1 [AVal (bs "z")]].

Lemma composition_never_panics_witness :
  match ComposeTreeStyle StyleQuestion (BuildFrags MySQL.Profile demo_query)
      (mkShapeKey 1 [0%N] [Some [3%N]] [] [2%Z]) demo_and DefaultTreeCaps with
  | Ok (sql, binds) =>
      exists args, ResolveArgs binds demo_vals (TreeArgs demo_and) = Ok args /\ length args = length binds
  | Err e => compose_error e
  end.
Proof.
  apply (composition_never_panics (profile := MySQL.Profile) demo_query StyleQuestion); vm_compute; reflexivity.
Defined.
