(* ===== verification/TreeBinds.v ===== *)
(** * TreeBinds

    The arguments of a filter tree reach their own predicate: the composer
    numbers a leaf's binds from the running base, and for an accepted tree
    every bind of a leaf resolves, in the flattened argument list, to an
    argument of that leaf. *)

From S2P Require Import Prelude Dialect MySQL Template Render Tree Runtime Frags Demo Shape Keys TreeProps Simulation Safety.

(** ** The trees the constructors build *)
Inductive built : Tree -> Prop :=
  | built_zero : built None
  | built_unscoped : built Unscoped
  | built_leaf pred nargs : built (NewLeaf pred nargs)
  | built_and ts : (forall t, t ∈ ts -> built t) -> built (And ts)
  | built_or ts : (forall t, t ∈ ts -> built t) -> built (Or ts).

(** Leaves and TRUE have no children. *)
Fixpoint plain (n : node) : bool :=
  match n with
  | mkNode op kids _ _ =>
      match op, kids with
      | opLeaf, _ :: _ | opTrue, _ :: _ => false
      | _, _ => forallb plain kids
      end
  end.

Definition plain_tree (t : Tree) : bool := match t with Some n => plain n | None => true end.

Lemma combine_plain op ts :
  op = opAnd \/ op = opOr -> (forall t, t ∈ ts -> plain_tree t = true) -> plain_tree (combine op ts) = true.
Proof.
  intros Hop H. assert (forallb plain (omap id ts) = true) as Hk.
  { apply forallb_forall. intros n Hn%list_elem_of_In. apply list_elem_of_omap in Hn as (t & Ht & Heq).
    cbn in Heq. subst t. by apply (H (Some n)). }
  unfold combine. destruct (omap id ts) as [|k [|k' ks]]; [done| |].
  - cbn in Hk. by rewrite andb_true_r in Hk.
  - destruct Hop as [-> | ->]; exact Hk.
Qed.

Lemma built_plain t : built t -> plain_tree t = true.
Proof. induction 1; try done; apply combine_plain; auto. Qed.

(** ** What a tree says

    The text of a tree in pieces: literal SQL, and the places of arguments,
    each with the argument of its own leaf that stands there. *)
Inductive piece := Lit (s : bytes) | Val (v : goany).

Fixpoint case_pieces (text : bytes) (last : nat) (spans : list RSpan) (idx : list Z) (nargs : list goany) : list piece :=
  match spans, idx with
  | sp :: spans, i :: idx =>
      Lit (slice text last (Z.to_nat (RsStart sp))) :: Val (default (AVal []) (nargs !! Z.to_nat i))
        :: case_pieces text (Z.to_nat (RsEnd sp)) spans idx nargs
  | _, _ => [Lit (slice text last (length text))]
  end.

Definition sep_rest (sep : bytes) (l : list (list piece)) : list piece := concat ((fun ps => Lit sep :: ps) <$> l).
Definition sep_pieces (sep : bytes) (l : list (list piece)) : list piece :=
  match l with [] => [] | ps :: l => ps ++ sep_rest sep l end.

Fixpoint node_pieces (preds : list Case) (n : node) : list piece :=
  match n with
  | mkNode op kids pred nargs =>
      match op with
      | opTrue => [Lit (bs "TRUE")]
      | opLeaf =>
          match go_index preds pred with
          | Ok c => Lit (bs "(") :: case_pieces (CText c) 0 (CParamSpans c) (CParamIdx c) nargs ++ [Lit (bs ")")]
          | Err _ => []
          end
      | opAnd => Lit (bs "(") :: sep_pieces (bs " AND ") (node_pieces preds <$> kids) ++ [Lit (bs ")")]
      | opOr => Lit (bs "(") :: sep_pieces (bs " OR ") (node_pieces preds <$> kids) ++ [Lit (bs ")")]
      end
  end.

Definition tree_pieces (preds : list Case) (t : Tree) : list piece :=
  match t with Some n => node_pieces preds n | None => [Lit (bs "TRUE")] end.

Definition holes (ps : list piece) : nat := length (omap (fun p => match p with Val v => Some v | Lit _ => None end) ps).

Lemma holes_app ps ps' : holes (ps ++ ps') = holes ps + holes ps'.
Proof. unfold holes. by rewrite omap_app, length_app. Qed.

(** ** Writing pieces *)

(** The placeholder of the bind with the number [k], counted from 1. *)
Definition mark (style : Style) (k : nat) : bytes :=
  match style with StyleQuestion => bs "?" | StyleDollar => bs "$" ++ FormatInt (Z.of_nat k) end.

Section written.
Context (style : Style) (vals targs : list goany).

(** [w] is the text of the pieces over the binds: each literal as it is, and at
    the place of each argument a placeholder whose bind resolves to that
    argument.  A question mark names its bind by its position, [n] placeholders
    being before it; a numbered placeholder by its number. *)
Inductive written (binds : list Bind) : nat -> list piece -> bytes -> Prop :=
  | written_nil n : written binds n [] []
  | written_lit n s ps w : written binds n ps w -> written binds n (Lit s :: ps) (s ++ w)
  | written_val n k b v ps w :
      binds !! k = Some b -> resolve_bind vals targs b = Ok v -> (style = StyleQuestion -> k = n) ->
      written binds (S n) ps w -> written binds n (Val v :: ps) (mark style (S k) ++ w).

Lemma written_more binds more n ps w : written binds n ps w -> written (binds ++ more) n ps w.
Proof. induction 1; econstructor; eauto. by apply lookup_app_l_Some. Qed.

Lemma written_at binds n m ps w : (style = StyleQuestion -> m = n) -> written binds n ps w -> written binds m ps w.
Proof.
  intros Hm H. revert m Hm. induction H as [|n s ps w _ IH|n k b v ps w Hb Hv Hk _ IH]; intros m Hm.
  - constructor.
  - constructor. by apply IH.
  - econstructor; [done|done| |].
    + intros E. by rewrite (Hm E), (Hk E).
    + apply IH. intros E. by rewrite (Hm E).
Qed.

Lemma written_app binds n m ps ps' w w' : written binds n ps w -> written binds m ps' w' ->
  (style = StyleQuestion -> m = n + holes ps) -> written binds n (ps ++ ps') (w ++ w').
Proof.
  intros H H' Hm. induction H as [n|n s ps w _ IH|n k b v ps w Hb Hv Hk _ IH]; cbn [app].
  - apply (written_at _ m); [|done]. intros E. rewrite (Hm E). unfold holes. cbn. lia.
  - rewrite <- app_assoc. constructor. by apply IH.
  - rewrite <- app_assoc. econstructor; [done..|]. apply IH. intros E. rewrite (Hm E). unfold holes. cbn. lia.
Qed.

(** The composer has written the pieces. *)
Definition puts (ps : list piece) (co co' : composer) : Prop :=
  exists w new, co_b co' = co_b co ++ w /\ co_binds co' = co_binds co ++ new /\
    written (co_binds co') (length (co_binds co)) ps w /\ (style = StyleQuestion -> length new = holes ps).

Lemma puts_nil co : puts [] co co.
Proof. exists [], []. rewrite !app_nil_r. split_and!; [done..|constructor|done]. Qed.

Lemma puts_trans ps ps' co co1 co2 : puts ps co co1 -> puts ps' co1 co2 -> puts (ps ++ ps') co co2.
Proof.
  intros (w & new & B & N & W & L) (w' & new' & B' & N' & W' & L'). exists (w ++ w'), (new ++ new').
  split_and!; [by rewrite B', B, app_assoc|by rewrite N', N, app_assoc| |].
  - apply (written_app _ _ (length (co_binds co1))); [|done|].
    + rewrite N'. by apply written_more.
    + intros E. by rewrite N, length_app, (L E).
  - intros E. by rewrite length_app, holes_app, L, L'.
Qed.

Lemma puts_write s co : puts [Lit s] co (write s co).
Proof.
  exists s, []. cbn. rewrite app_nil_r. split_and!; [done..| |done].
  rewrite <- (app_nil_r s) at 2. apply written_lit, written_nil.
Qed.

Lemma puts_place bd v co : resolve_bind vals targs bd = Ok v -> puts [Val v] co (place style bd co).
Proof.
  intros Hv. assert (forall binds k, binds !! k = Some bd -> (style = StyleQuestion -> k = length (co_binds co)) ->
    written binds (length (co_binds co)) [Val v] (mark style (S k))) as Hw.
  { intros binds k Hk Hq. rewrite <- (app_nil_r (mark _ _)). econstructor; [done..|constructor]. }
  unfold place. destruct style eqn:Es; cbn [co_b co_binds]; unfold mark in Hw.
  - destruct (find_bind_spec bd (co_binds co) 0) as [[-> _]|(k & Hk & ->)].
    + rewrite !decide_True by done. eexists _, [bd]. rewrite <- app_assoc. split_and!; [done..| |done].
      rewrite length_app, Nat.add_1_r. apply Hw; [by apply list_lookup_middle|done].
    + rewrite !decide_False by lia. eexists _, []. split_and!; [by rewrite <- app_assoc|by rewrite app_nil_r| |congruence].
      replace (0 + k + 1) with (S k) by lia. by apply Hw.
  - eexists _, [bd]. split_and!; [done..| |done]. by apply (Hw _ (length (co_binds co))); [apply list_lookup_middle|].
Qed.

Lemma go_slice_bounds s lo hi r : go_slice s lo hi = Ok r -> r = slice s (Z.to_nat lo) (Z.to_nat hi).
Proof. unfold go_slice. destruct (_ && _)%bool; [|done]. by intros [= <-]. Qed.

Lemma emit_spans_puts text nargs spans idx base last co co' :
  spans_ok (Z.of_nat (length text)) last spans idx = true ->
  (forall i, i ∈ idx -> resolve_bind vals targs (mkBind true (i16 (base + i)) 0) = Ok (default (AVal []) (nargs !! Z.to_nat i))) ->
  emit_spans style text spans idx true base last co = Ok co' ->
  puts (case_pieces text (Z.to_nat last) spans idx nargs) co co'.
Proof.
  revert idx last co. induction spans as [|sp spans IH]; intros [|i idx] last co Hs Hi; cbn [spans_ok emit_spans case_pieces] in *; try done.
  - intros (s & ->%go_slice_bounds & H)%rbind_ok. injection H as <-. rewrite Nat2Z.id. apply puts_write.
  - rewrite !andb_true_iff in Hs. destruct Hs as [_ Hs]. intros (s & ->%go_slice_bounds & H)%rbind_ok.
    apply IH in H; [|done|set_solver]. eapply (puts_trans [_]); [apply puts_write|].
    eapply (puts_trans [_]); [|exact H]. apply puts_place, Hi. by left.
Qed.
End written.

(** ** Flattened arguments *)

Lemma appendArgs_acc n dst : appendArgs n dst = dst ++ appendArgs n [].
Proof.
  revert dst. induction n as [op kids pred nargs IH] using node_ind'; intros dst.
  assert (forall dst, foldl (fun dst k => appendArgs k dst) dst kids
    = dst ++ foldl (fun dst k => appendArgs k dst) [] kids) as Hk.
  { clear dst. induction IH as [|k kids Hk _ IHk]; intros dst; cbn [foldl]; [by rewrite app_nil_r|].
    rewrite (IHk (appendArgs k dst)), (IHk (appendArgs k [])), Hk. by rewrite app_assoc. }
  destruct op; cbn [appendArgs]; [done|apply Hk..].
Qed.

Lemma appendArgs_kids kids :
  foldl (fun dst k => appendArgs k dst) [] kids = concat ((fun k => appendArgs k []) <$> kids).
Proof.
  enough (forall dst, foldl (fun dst k => appendArgs k dst) dst kids
    = dst ++ concat ((fun k => appendArgs k []) <$> kids)) as H by apply (H []).
  induction kids as [|k kids IH]; intros dst; cbn; [by rewrite app_nil_r|].
  by rewrite IH, (appendArgs_acc k dst), <- app_assoc.
Qed.

Lemma length_appendArgs n : length (appendArgs n []) = countArgs n.
Proof. destruct (appendArgs_app n []) as (args & -> & Hl). done. Qed.

Lemma rmap_some {E A B} (f : A -> result E B) (g : A -> B) xs :
  (forall x, x ∈ xs -> f x = Ok (g x)) -> rmap f xs = Ok (g <$> xs).
Proof.
  induction xs as [|x xs IH]; intros H; [done|]. cbn [rmap]. rewrite (H x) by set_solver. cbn [rbind].
  rewrite IH by set_solver. done.
Qed.

Section emission.
Context (style : Style) (preds : list Case) (vals targs : list goany).
Hypothesis Hpreds : forallb (fun c => case_wf (leafArity c) c) preds = true.
Hypothesis Htargs : (Z.of_nat (length targs) <= 32767)%Z.

Lemma pred_case_wf pred c : go_index preds pred = Ok c -> case_wf (leafArity c) c = true.
Proof.
  intros Hc. rewrite forallb_forall in Hpreds. apply Hpreds. unfold go_index in Hc.
  destruct (Z.ltb pred 0); [done|]. destruct (preds !! _) as [c'|] eqn:E; [|done]. injection Hc as ->.
  by eapply list_elem_of_In, list_elem_of_lookup_2.
Qed.

(** A bind of a leaf whose arguments start at [length pre]. *)
Lemma leaf_bind pre nargs post idx i : targs = pre ++ nargs ++ post -> idx_in (length nargs) idx = true -> i ∈ idx ->
  resolve_bind vals targs (mkBind true (i16 (Z.of_nat (length pre) + i)) 0) = Ok (default (AVal []) (nargs !! Z.to_nat i)).
Proof.
  intros Ht Hi Hin. pose proof (idx_in_elem _ _ _ Hi Hin) as Hr. subst targs. rewrite !length_app in Htargs.
  rewrite i16_id by lia. unfold resolve_bind, go_index. cbn [FromTree Idx Elem].
  destruct (Z.ltb_spec (Z.of_nat (length pre) + i) 0); [lia|]. rewrite lookup_app_r by lia.
  replace (Z.to_nat (Z.of_nat (length pre) + i) - length pre) with (Z.to_nat i) by lia.
  destruct (lookup_lt_is_Some_2 nargs (Z.to_nat i)) as [v Hv]; [lia|]. by rewrite lookup_app_l, Hv by lia.
Qed.

(** The composer has written the pieces of the nodes, whose arguments stand
    behind [pre], and its base is behind them. *)
Definition puts_of (ns : list node) (ps : list piece) (pre post : list goany) (co co' : composer) : Prop :=
  co_base co = Z.of_nat (length pre) -> targs = pre ++ concat ((fun k => appendArgs k []) <$> ns) ++ post ->
  puts style vals targs ps co co' /\ co_base co' = Z.of_nat (length pre + sum_list (countArgs <$> ns)).

Lemma emit_leaf_puts kids pred nargs pre post co co' :
  validate_rec preds (mkNode opLeaf kids pred nargs) = Ok tt ->
  emit_node style preds (mkNode opLeaf kids pred nargs) co = Ok co' ->
  puts_of [mkNode opLeaf kids pred nargs] (node_pieces preds (mkNode opLeaf kids pred nargs)) pre post co co'.
Proof.
  intros V He Hb Ht. destruct (validate_rec_leaf _ _ _ _ V) as (c & Hc & Hn).
  pose proof (pred_case_wf _ _ Hc) as [Hs Hi]%andb_prop. cbn [emit_node node_pieces] in *. rewrite Hc in He |- *. cbn [rbind] in He.
  apply rbind_ok in He as (co1 & H1 & H2). unfold emitFrom in H1.
  destruct (emit_spans_ok style (fun _ => True) (CText c) (CParamSpans c) (CParamIdx c) true (co_base co) 0
    (write (bs "(") co)) as (co2 & H3 & _ & Hbase); [done|done|done|by apply Forall_true|].
  rewrite H1 in H3. injection H3 as <-. injection H2 as <-. cbn [co_base write] in Hbase.
  cbn [fmap list_fmap concat appendArgs countArgs app] in *. rewrite app_nil_r in Ht. split.
  - assert (puts style vals targs (Lit (bs "(") :: case_pieces (CText c) 0 (CParamSpans c) (CParamIdx c) nargs ++ [Lit (bs ")")])
      co (write (bs ")") co1)) as H; [|exact H].
    eapply (puts_trans _ _ _ [_]); [apply puts_write|]. eapply puts_trans; [|apply puts_write].
    eapply (emit_spans_puts _ _ _ _ nargs _ _ _ 0); [exact Hs| |exact H1]. intros i Hin. rewrite Hb. eapply leaf_bind; [exact Ht| |exact Hin].
    by rewrite Hn.
  - subst targs. rewrite !length_app in Htargs. cbn [sum_list co_base write].
    rewrite Hbase, Hb, (i16_id (Z.of_nat (length nargs))), i16_id by lia. simpl. lia.
Qed.

Lemma sep_loop_puts sep (kids : list node) first pre post co co' :
  Forall (fun k => forall pre post co co', emit_node style preds k co = Ok co' ->
    puts_of [k] (node_pieces preds k) pre post co co') kids ->
  sep_loop sep (emit_node style preds) first kids co = Ok co' ->
  puts_of kids ((if first : bool then sep_pieces sep else sep_rest sep) (node_pieces preds <$> kids)) pre post co co'.
Proof.
  intros HF. revert first pre co. induction HF as [|k kids Hk _ IH]; intros first pre co Hl Hb Ht; cbn [sep_loop] in Hl.
  - injection Hl as <-. cbn. rewrite Nat.add_0_r. split; [|done]. destruct first; apply puts_nil.
  - apply rbind_ok in Hl as (co1 & H1 & H2).
    cbn [fmap list_fmap concat] in Ht. rewrite <- app_assoc in Ht.
    destruct (Hk pre (concat ((fun k => appendArgs k []) <$> kids) ++ post) _ _ H1) as (P1 & Hbase1).
    { by destruct first. }
    { cbn. by rewrite app_nil_r. }
    assert (co_base co1 = Z.of_nat (length (pre ++ appendArgs k []))) as Hbase1'.
    { rewrite Hbase1, length_app, length_appendArgs. cbn. f_equal. lia. }
    destruct (IH false (pre ++ appendArgs k []) co1 H2 Hbase1') as (P2 & Hbase2); [by rewrite <- app_assoc|].
    split; [|rewrite Hbase2, length_app, length_appendArgs; cbn; f_equal; lia].
    destruct first; cbn [fmap list_fmap sep_pieces].
    + by eapply puts_trans.
    + unfold sep_rest. cbn [fmap list_fmap concat]. eapply puts_trans; [|exact P2].
      eapply (puts_trans _ _ _ [_]); [apply puts_write|done].
Qed.

Lemma plain_kids (P : node -> Prop) op kids pred nargs :
  Forall (fun k => plain k = true -> validate_rec preds k = Ok tt -> P k) kids ->
  plain (mkNode op kids pred nargs) = true -> Forall (fun k => validate_rec preds k = Ok tt) kids ->
  Forall P kids.
Proof.
  intros IH Hp VK. assert (forallb plain kids = true) as Hk by (cbn in Hp; destruct op, kids; done).
  rewrite forallb_forall in Hk. rewrite Forall_forall in *. eauto.
Qed.

Lemma emit_node_puts n :
  plain n = true -> validate_rec preds n = Ok tt ->
  forall pre post co co', emit_node style preds n co = Ok co' -> puts_of [n] (node_pieces preds n) pre post co co'.
Proof.
  induction n as [op kids pred nargs IH] using node_ind'. intros Hp V pre post co co' He.
  destruct op; [by eapply emit_leaf_puts|..].
  3: { destruct kids; [|done]. cbn [emit_node] in He. injection He as <-. intros Hb _. cbn. split; [apply puts_write|]. rewrite Hb. f_equal. lia. }
  1, 2: pose proof (plain_kids (fun k => forall pre post co co', emit_node style preds k co = Ok co' ->
      puts_of [k] (node_pieces preds k) pre post co co') _ _ _ _ IH Hp (validate_rec_kids _ _ _ _ _ V)) as HF;
    cbn [emit_node] in He; apply rbind_ok in He as (co1 & H1 & H2); injection H2 as <-;
    pose proof (sep_loop_puts _ _ _ pre post _ _ HF H1) as H; intros Hb Ht; unfold puts_of in H;
    cbn [fmap list_fmap concat appendArgs countArgs node_pieces] in *; rewrite appendArgs_kids, app_nil_r in Ht;
    destruct (H Hb Ht) as (P & H5); (split; [|rewrite countArgs_kids; cbn [co_base write]; rewrite H5; simpl; f_equal; lia]);
    (eapply (puts_trans _ _ _ [_]); [apply puts_write|]; eapply puts_trans; [exact P|apply puts_write]).
Qed.
End emission.

(** C5: for every tree the constructors build and the validation accepts, the
    composer emits the tree, with placeholders of either style and whatever was
    written and bound before: the text is the tree's, and each placeholder in
    it - a question mark by its position, a numbered one by its number, which
    may be that of a bind placed before - resolves to the argument of its own
    leaf that stands there.  No argument of one leaf reaches another. *)
Theorem tree_arguments_own style preds t caps vals sql binds :
  built t -> forallb (fun c => case_wf (leafArity c) c) preds = true -> validate t preds caps = Ok tt ->
  exists w new, emitTree style preds t (mkComposer sql binds 0) = Ok (mkComposer (sql ++ w) (binds ++ new) (Z.of_nat (length (TreeArgs t)))) /\
    written style vals (TreeArgs t) (binds ++ new) (length binds) (tree_pieces preds t) w /\
    (style = StyleQuestion -> length new = holes (tree_pieces preds t)).
Proof.
  intros Hbt Hpreds V. apply built_plain in Hbt. apply validate_ok in V as [Hcaps V].
  destruct t as [n|].
  2:{ exists (bs "TRUE"), []. rewrite app_nil_r. split_and!; [done| |done].
      rewrite <- (app_nil_r (bs "TRUE")). apply written_lit, written_nil. }
  apply checkCaps_ok in Hcaps as (_ & _ & Hargs). unfold MaxTreeArgs in Hargs.
  pose proof (countArgs_tree_args n). pose proof (length_TreeArgs n) as Hlt.
  destruct (emit_node_ok style (fun _ => True) preds (countArgs n)) with (n := n) (off := 0)
    (co := mkComposer sql binds 0) as (co & _ & He & _); [done|lia|done|done|done|lia|by apply Forall_true|].
  destruct (emit_node_puts style preds vals (TreeArgs (Some n)) Hpreds ltac:(lia) n Hbt V [] [] _ _ He)
    as ((w & new & B & N & W & L) & Hbase); [done| |].
  { cbn. rewrite !app_nil_r. destruct (decide (countArgs n = 0)) as [H0|]; [|done].
    rewrite <- length_appendArgs in H0. by apply nil_length_inv in H0 as ->. }
  exists w, new. cbn in B, N, Hbase. rewrite N in W. split_and!; [|exact W|exact L]. cbn [emitTree]. rewrite He. f_equal.
  destruct co as [b bds base]. cbn in *. subst. f_equal. rewrite Nat.add_0_r. by rewrite Hlt.
Qed.

(** ** Instance *)
Definition demo_cases : list Case := concat (FCases <$> filter (fun f => FKind f = FilterTree) (BuildFrags MySQL.Profile demo_query)).

Definition demo_or : Tree :=
  Or [NewLeaf 1 [AVal (bs "z")]; And [NewLeaf 0 [AVal (bs "3"); AVal (bs "4")]; NewLeaf 1 [AVal (bs "w")]]].

Lemma demo_or_built : built demo_or.
Proof.
  apply (built_or [NewLeaf 1 [AVal (bs "z")]; _]). intros t Ht. set_unfold in Ht.
  destruct Ht as [->|[->|[]]]; [apply built_leaf|]. apply built_and. intros t Ht. set_unfold in Ht.
  destruct Ht as [->|[->|[]]]; apply built_leaf.
Qed.

(** What the theorem says of the demo's tree. *)
Definition demo_or_written (style : Style) : Prop :=
  exists w new,
    emitTree style demo_cases demo_or (mkComposer (bs "x") [mkBind false 0 0] 0)
      = Ok (mkComposer (bs "x" ++ w) ([mkBind false 0 0] ++ new) 4) /\
    written style demo_vals (TreeArgs demo_or) ([mkBind false 0 0] ++ new) 1 (tree_pieces demo_cases demo_or) w /\
    (style = StyleQuestion -> length new = holes (tree_pieces demo_cases demo_or)).

Lemma tree_arguments_own_witness : demo_or_written StyleDollar /\ demo_or_written StyleQuestion.
Proof.
  split.
  - apply (tree_arguments_own StyleDollar demo_cases demo_or DefaultTreeCaps demo_vals (bs "x") [mkBind false 0 0] demo_or_built);
      vm_compute; reflexivity.
  - apply (tree_arguments_own StyleQuestion demo_cases demo_or DefaultTreeCaps demo_vals (bs "x") [mkBind false 0 0] demo_or_built);
      vm_compute; reflexivity.
Defined.

Example demo_or_pieces :
  omap (fun p => match p with Val v => Some v | Lit _ => None end) (tree_pieces demo_cases demo_or)
  = [AVal (bs "z"); AVal (bs "3"); AVal (bs "4"); AVal (bs "w")].
Proof. vm_compute. reflexivity. Qed.
