(* ===== verification/Cache.v ===== *)
(** * Cache

    [runtime.ComposedCache] ([runtime/runtime.go], [Stats] in
    [runtime/observe.go]).  Entries are shared, mutable objects (the map, the
    recency list and the published snapshot point to them), so they live in a
    heap indexed by address.  [entry] is split where the code takes and
    releases its mutex: [lookup_fast] (no lock), [lookup_locked] and
    [insert_locked] (one critical section each) and the composition between
    them, so interleavings are sequences of these steps. *)

From S2P Require Import Prelude Dialect Template Render Tree Runtime Shape Keys TreeProps Safety.

(** ** Keys *)

Fixpoint bytes_equal (a b : list N) : bool :=
  match a, b with
  | [], [] => true
  | x :: a', y :: b' => N.eqb x y && bytes_equal a' b'
  | _, _ => false
  end.

(** [choicesEqual]: equal lengths, then equal elements. *)
Definition choicesEqual (a b : list N) : bool :=
  if Nat.eqb (length a) (length b) then bytes_equal a b else false.

Definition is_nil {A} (o : option A) : bool := match o with None => true | Some _ => false end.

Definition seq_equal (a b : option (list N)) : bool :=
  if negb (Bool.eqb (is_nil a) (is_nil b)) || negb (choicesEqual (default [] a) (default [] b))
  then false else true.

(** [for i := range xs { if xs[i] != ys[i] { return false } }] after the
    length test. *)
Fixpoint all_equal {A} (eqb : A -> A -> bool) (xs ys : list A) : bool :=
  match xs, ys with
  | x :: xs', y :: ys' => if eqb x y then all_equal eqb xs' ys' else false
  | _, _ => true
  end.

Definition keysEqual (a b : ShapeKey) : bool :=
  if negb (N.eqb (Guards a) (Guards b)) || negb (choicesEqual (Choices a) (Choices b))
     || negb (Nat.eqb (length (Orders a)) (length (Orders b)))
     || negb (Nat.eqb (length (Trees a)) (length (Trees b)))
     || negb (Nat.eqb (length (Arities a)) (length (Arities b)))
  then false
  else all_equal seq_equal (Orders a) (Orders b)
       && all_equal (fun x y => bool_decide (x = y)) (Trees a) (Trees b)
       && all_equal Z.eqb (Arities a) (Arities b).

(** [cloneKey]: fresh slices with the same contents; a nil sequence stays nil
    and an empty one empty. *)
Definition cloneKey (k : ShapeKey) : ShapeKey :=
  let orders := foldl (fun out seq => match seq with
                                      | None => out ++ [None]
                                      | Some es => out ++ [Some ([] ++ es)]
                                      end) [] (Orders k) in
  mkShapeKey (Guards k) ([] ++ Choices k) orders ([] ++ Trees k) ([] ++ Arities k).

(** The cache's own index: the style, the query and the key's encoding. *)
Definition style_byte (s : Style) : ascii :=
  match s with StyleDollar => "0"%char | StyleQuestion => "1"%char end.

Definition mapKey (style : Style) (queryName : bytes) (key : ShapeKey) : bytes :=
  appendTo key ((([style_byte style] ++ bs "|") ++ queryName) ++ bs "|").

(** ** Entries *)
Record cacheEntry := mkEntry {
  e_mapKey : bytes;
  e_query : bytes;
  e_key : ShapeKey;
  e_sql : bytes;
  e_binds : list Bind;
  e_argIdx : list Z;
  e_ref : bool;
  e_hits : N;
}.

Definition newCacheEntry (mapKey query : bytes) (key : ShapeKey) (sql : bytes) (binds : list Bind) : cacheEntry :=
  mkEntry mapKey query (cloneKey key) sql binds (Idx <$> binds) false 0.

Definition cacheBindBytes : Z := 8.
Definition defaultCacheMaxBytes : Z := Z.shiftl 64 20.

Definition entryBytes (e : cacheEntry) : Z :=
  (Z.of_nat (length (e_sql e)) + Z.of_nat (length (e_mapKey e))
   + Z.of_nat (length (e_binds e)) * cacheBindBytes + Z.of_nat (length (e_argIdx e)) * 2)%Z.

(** ** State *)
Record counters := mkCounters {
  misses : N; inserts : N; evictions : N; hitsFolded : N; sqlBytes : Z; totalBytes : Z;
}.

(** The amortization of publishing. *)
Record window := mkWindow {
  sinceSnap : Z; evictedSince : bool; snapshots : N; hitFlushCredit : bool; pendingHits : Z;
}.

Record ComposedCache := mkCache {
  c_heap : gmap nat cacheEntry;
  c_next : nat;
  c_fast : option (gmap bytes nat);
  c_cap : Z;
  c_m : gmap bytes nat;
  c_order : list nat;
  c_win : window;
  c_obs : bool;
  c_track : bool;
  c_cnt : counters;
  c_maxBytes : Z;
  c_events : list (bytes * ShapeKey * bool);
}.

Definition NewComposedCache (capacity : Z) : ComposedCache :=
  let capacity := if Z.leb capacity 0 then 256%Z else capacity in
  mkCache ∅ 0 None capacity ∅ [] (mkWindow 0 false 0 false 0) false false
    (mkCounters 0 0 0 0 0 0) defaultCacheMaxBytes [].

(** Field updates. *)
Definition set_heap h c := mkCache h (c_next c) (c_fast c) (c_cap c) (c_m c) (c_order c) (c_win c)
  (c_obs c) (c_track c) (c_cnt c) (c_maxBytes c) (c_events c).
Definition set_fast f c := mkCache (c_heap c) (c_next c) f (c_cap c) (c_m c) (c_order c) (c_win c)
  (c_obs c) (c_track c) (c_cnt c) (c_maxBytes c) (c_events c).
Definition set_m m c := mkCache (c_heap c) (c_next c) (c_fast c) (c_cap c) m (c_order c) (c_win c)
  (c_obs c) (c_track c) (c_cnt c) (c_maxBytes c) (c_events c).
Definition set_order o c := mkCache (c_heap c) (c_next c) (c_fast c) (c_cap c) (c_m c) o (c_win c)
  (c_obs c) (c_track c) (c_cnt c) (c_maxBytes c) (c_events c).
Definition set_win w c := mkCache (c_heap c) (c_next c) (c_fast c) (c_cap c) (c_m c) (c_order c) w
  (c_obs c) (c_track c) (c_cnt c) (c_maxBytes c) (c_events c).
Definition set_cnt n c := mkCache (c_heap c) (c_next c) (c_fast c) (c_cap c) (c_m c) (c_order c) (c_win c)
  (c_obs c) (c_track c) n (c_maxBytes c) (c_events c).
Definition set_maxBytes b c := mkCache (c_heap c) (c_next c) (c_fast c) (c_cap c) (c_m c) (c_order c) (c_win c)
  (c_obs c) (c_track c) (c_cnt c) b (c_events c).
Definition set_obs o t c := mkCache (c_heap c) (c_next c) (c_fast c) (c_cap c) (c_m c) (c_order c) (c_win c)
  o t (c_cnt c) (c_maxBytes c) (c_events c).
Definition set_events l c := mkCache (c_heap c) (c_next c) (c_fast c) (c_cap c) (c_m c) (c_order c) (c_win c)
  (c_obs c) (c_track c) (c_cnt c) (c_maxBytes c) l.

(** A write to a shared entry. *)
Definition update_entry (a : nat) (f : cacheEntry -> cacheEntry) (c : ComposedCache) : ComposedCache :=
  set_heap (alter f a (c_heap c)) c.

Definition set_ref (b : bool) (e : cacheEntry) : cacheEntry :=
  mkEntry (e_mapKey e) (e_query e) (e_key e) (e_sql e) (e_binds e) (e_argIdx e) b (e_hits e).
Definition add_hit (e : cacheEntry) : cacheEntry :=
  mkEntry (e_mapKey e) (e_query e) (e_key e) (e_sql e) (e_binds e) (e_argIdx e) (e_ref e) (u64 (e_hits e + 1)).

Definition touch (a : nat) (c : ComposedCache) : ComposedCache :=
  match c_heap c !! a with
  | Some e => if e_ref e then c else update_entry a (set_ref true) c
  | None => c
  end.

Definition ObserveCompose (queryName : bytes) (a : nat) (hit : bool) (c : ComposedCache) : ComposedCache :=
  match c_obs c, c_heap c !! a with
  | true, Some e => set_events (c_events c ++ [(queryName, e_key e, hit)]) c
  | _, _ => c
  end.

(** [touch(e)], the hit counter and the observer of a hit. *)
Definition record_hit (queryName : bytes) (a : nat) (c : ComposedCache) : ComposedCache :=
  let c := touch a c in
  let c := if c_track c then update_entry a add_hit c else c in
  ObserveCompose queryName a true c.

(** [c.order.MoveToFront(e.el)] *)
Definition MoveToFront (a : nat) (c : ComposedCache) : ComposedCache :=
  set_order (a :: filter (fun x => x <> a) (c_order c)) c.

Definition remove (a : nat) (c : ComposedCache) : ComposedCache :=
  match c_heap c !! a with
  | None => c
  | Some e =>
      let c := set_order (filter (fun x => x <> a) (c_order c)) c in
      let c := set_m (delete (e_mapKey e) (c_m c)) c in
      let n := c_cnt c in
      let c := set_cnt (mkCounters (misses n) (inserts n) (evictions n) (u64 (hitsFolded n + e_hits e))
                          (sqlBytes n - Z.of_nat (length (e_sql e))) (totalBytes n - entryBytes e)) c in
      let w := c_win c in
      set_win (mkWindow (sinceSnap w) true (snapshots w) (hitFlushCredit w) (pendingHits w)) c
  end.

Definition count_eviction (c : ComposedCache) : ComposedCache :=
  let n := c_cnt c in
  set_cnt (mkCounters (misses n) (inserts n) (u64 (evictions n + 1)) (hitsFolded n) (sqlBytes n) (totalBytes n)) c.

(** The sweep of [evictOne] ([i] entries are still spared), then its
    unconditional eviction. *)
Fixpoint evict_sweep (i : nat) (c : ComposedCache) : ComposedCache :=
  match list.last (c_order c) with
  | None => c
  | Some a =>
      match i with
      | O => count_eviction (remove a c)
      | S i' =>
          if match c_heap c !! a with Some e => e_ref e | None => false end then
            evict_sweep i' (MoveToFront a (update_entry a (set_ref false) c))
          else count_eviction (remove a c)
      end
  end.

Definition evictOne (c : ComposedCache) : ComposedCache := evict_sweep (size (c_m c)) c.

Definition publishNow (c : ComposedCache) : ComposedCache :=
  set_win (mkWindow 0 false (u64 (snapshots (c_win c) + 1)) true 0) (set_fast (Some (c_m c)) c).

Definition publish (c : ComposedCache) : ComposedCache :=
  let w := c_win c in
  let w := mkWindow (sinceSnap w + 1) (evictedSince w) (snapshots w) (hitFlushCredit w) (pendingHits w) in
  let c := set_win w c in
  if (evictedSince w && Z.ltb (sinceSnap w) (c_cap c))%bool then c else publishNow c.

(** The eviction loops, [for over(c) { c.evictOne() }]: an eviction removes an
    entry, so one round per entry is enough. *)
Fixpoint evict_while (over : ComposedCache -> bool) (fuel : nat) (c : ComposedCache) : ComposedCache :=
  match fuel with
  | O => c
  | S f => if over c then evict_while over f (evictOne c) else c
  end.

Definition over_bounds (c : ComposedCache) : bool :=
  (Z.ltb (c_cap c) (Z.of_nat (size (c_m c)))
   || (Z.ltb 0 (c_maxBytes c) && Z.ltb (c_maxBytes c) (totalBytes (c_cnt c)) && Nat.ltb 1 (size (c_m c))))%bool.

Definition over_bytes (c : ComposedCache) : bool :=
  (Nat.ltb 1 (size (c_m c)) && Z.ltb 0 (c_maxBytes c) && Z.ltb (c_maxBytes c) (totalBytes (c_cnt c)))%bool.

Definition SetMaxBytes (n : Z) (c : ComposedCache) : ComposedCache :=
  let c := set_maxBytes n c in
  publishNow (evict_while over_bytes (size (c_m c)) c).

(** ** [entry] *)

Definition treeFilterCases (frags : list Frag) : list Case :=
  match filter (fun f => FKind f = FilterTree) frags with f :: _ => FCases f | [] => [] end.

(** The entry a snapshot or the map holds for a key, compared in full. *)
Definition find_entry (m : gmap bytes nat) (mk : bytes) (key : ShapeKey) (c : ComposedCache) : option nat :=
  a ← m !! mk; e ← c_heap c !! a; if keysEqual (e_key e) key then Some a else None.

(** The lock-free lookup. *)
Definition lookup_fast (mk : bytes) (key : ShapeKey) (c : ComposedCache) : option nat :=
  match c_fast c with
  | Some snap => find_entry snap mk key c
  | None => None
  end.

(** The rate-capped flush of a hit the snapshot misses. *)
Definition deferred_hit (c : ComposedCache) : ComposedCache :=
  let w := c_win c in
  let w := mkWindow (sinceSnap w) (evictedSince w) (snapshots w) (hitFlushCredit w) (pendingHits w + 1) in
  let c := set_win w c in
  if (hitFlushCredit w || Z.leb (c_cap c) (pendingHits w))%bool then
    let c := publishNow c in
    let w := c_win c in
    set_win (mkWindow (sinceSnap w) (evictedSince w) (snapshots w) false (pendingHits w)) c
  else c.

(** The first critical section: a hit on an entry the snapshot misses, or the
    removal of an entry whose key differs. *)
Definition lookup_locked (mk : bytes) (key : ShapeKey) (c : ComposedCache) : option nat * ComposedCache :=
  match c_m c !! mk with
  | None => (None, c)
  | Some a =>
      match c_heap c !! a with
      | None => (None, c)
      | Some e =>
          if keysEqual (e_key e) key then (Some a, deferred_hit (MoveToFront a c))
          else (None, remove a c)
      end
  end.

(** The new entry, at the front of the list. *)
Definition insert_entry (mk : bytes) (key : ShapeKey) (queryName sql : bytes) (binds : list Bind)
    (c : ComposedCache) : ComposedCache :=
  let e := newCacheEntry mk queryName key sql binds in
  let a := c_next c in
  let n := c_cnt c in
  mkCache (<[a := e]> (c_heap c)) (S a) (c_fast c) (c_cap c) (<[mk := a]> (c_m c))
    (a :: c_order c) (c_win c) (c_obs c) (c_track c)
    (mkCounters (misses n) (u64 (inserts n + 1)) (evictions n) (hitsFolded n)
       (sqlBytes n + Z.of_nat (length sql)) (totalBytes n + entryBytes e))
    (c_maxBytes c) (c_events c).

(** The second critical section: keep the entry a racing call published, or
    insert the composed one and evict down to the bounds.  The flag says that
    a racing call's entry is kept. *)
Definition insert_locked (mk : bytes) (key : ShapeKey) (queryName sql : bytes) (binds : list Bind)
    (c : ComposedCache) : (nat * bool) * ComposedCache :=
  let n := c_cnt c in
  let c := set_cnt (mkCounters (u64 (misses n + 1)) (inserts n) (evictions n) (hitsFolded n) (sqlBytes n) (totalBytes n)) c in
  match find_entry (c_m c) mk key c with
  | Some a => ((a, true), MoveToFront a c)
  | None =>
      let c := match c_m c !! mk with Some a => remove a c | None => c end in
      let a := c_next c in
      let c := insert_entry mk key queryName sql binds c in
      ((a, false), publish (evict_while over_bounds (size (c_m c)) c))
  end.

(** What follows the unlock of the second section. *)
Definition record_miss (queryName : bytes) (a : nat) (raced : bool) (c : ComposedCache) : ComposedCache :=
  ObserveCompose queryName a false (if raced then touch a c else c).

(** The validation every served path starts with. *)
Definition precheck (frags : list Frag) (tree : Tree) (caps : TreeCaps) : result RtErr unit :=
  if IsZero tree then Ok tt else validate tree (treeFilterCases frags) caps.

Definition cache_entry (style : Style) (queryName : bytes) (frags : list Frag) (key : ShapeKey)
    (tree : Tree) (caps : TreeCaps) (c : ComposedCache) : result RtErr nat * ComposedCache :=
  match precheck frags tree caps with
  | Err e => (Err e, c)
  | Ok _ =>
      let mk := mapKey style queryName key in
      match lookup_fast mk key c with
      | Some a => (Ok a, record_hit queryName a c)
      | None =>
          match lookup_locked mk key c with
          | (Some a, c) => (Ok a, record_hit queryName a c)
          | (None, c) =>
              match ComposeTreeStyle style frags key tree caps with
              | Err e => (Err e, c)
              | Ok (sql, binds) =>
                  let '((a, raced), c) := insert_locked mk key queryName sql binds c in
                  (Ok a, record_miss queryName a raced c)
              end
          end
      end
  end.

(** ** The API *)
Definition cache_get (style : Style) (queryName : bytes) (frags : list Frag) (key : ShapeKey)
    (tree : Tree) (caps : TreeCaps) (c : ComposedCache) : result RtErr (bytes * list Bind) * ComposedCache :=
  match cache_entry style queryName frags key tree caps c with
  | (Err e, c) => (Err e, c)
  | (Ok a, c) => (or_err ((fun e => (e_sql e, e_binds e)) <$> c_heap c !! a) GoPanic, c)
  end.

Definition GetBindsStyle (style : Style) (queryName : bytes) (frags : list Frag) (key : ShapeKey)
    (c : ComposedCache) : result RtErr (bytes * list Bind) * ComposedCache :=
  cache_get style queryName frags key None DefaultTreeCaps c.

Definition GetTreeStyle (style : Style) (queryName : bytes) (frags : list Frag) (key : ShapeKey)
    (tree : Tree) (caps : TreeCaps) (c : ComposedCache) : result RtErr (bytes * list Bind) * ComposedCache :=
  match checkCaps tree caps with
  | Err e => (Err e, c)
  | Ok _ =>
      let key := mkShapeKey (Guards key) (Choices key) (Orders key) [Encode tree] (Arities key) in
      cache_get style queryName frags key tree caps c
  end.

Definition GetTree (queryName : bytes) (frags : list Frag) (key : ShapeKey) (tree : Tree) (caps : TreeCaps)
    (c : ComposedCache) : result RtErr (bytes * list Bind) * ComposedCache :=
  GetTreeStyle StyleDollar queryName frags key tree caps c.

(** [GetStyle] panics on an error. *)
Definition GetStyle (style : Style) (queryName : bytes) (frags : list Frag) (key : ShapeKey)
    (c : ComposedCache) : result RtErr (bytes * list Z) * ComposedCache :=
  match cache_entry style queryName frags key None DefaultTreeCaps c with
  | (Err _, c) => (Err GoPanic, c)
  | (Ok a, c) => (or_err ((fun e => (e_sql e, e_argIdx e)) <$> c_heap c !! a) GoPanic, c)
  end.

Definition CacheGet (queryName : bytes) (frags : list Frag) (key : ShapeKey) (c : ComposedCache)
    : result RtErr (bytes * list Z) * ComposedCache :=
  GetStyle StyleDollar queryName frags key c.

(** ** Observation ([observe.go]) *)
Definition SetObserver (installed : bool) (c : ComposedCache) : ComposedCache := set_obs installed true c.

Record CacheStats := mkStats {
  StHits : N; StMisses : N; StInserts : N; StEvictions : N; StEntries : nat; StCapacity : Z; StSQLBytes : Z;
}.

Definition Stats (c : ComposedCache) : CacheStats * ComposedCache :=
  let c := set_obs (c_obs c) true c in
  let n := c_cnt c in
  let hits := map_fold (fun _ a h => u64 (h + match c_heap c !! a with Some e => e_hits e | None => 0 end))
                (hitsFolded n) (c_m c) in
  (mkStats hits (misses n) (inserts n) (evictions n) (size (c_m c)) (c_cap c) (sqlBytes n), c).
