(* ===== verification/CacheProps.v ===== *)
(** * CacheProps

    The composed cache is transparent and bounded.  [Inv] is the invariant of
    every critical section; [step] interleaves the sections of concurrent
    calls over one cache. *)

From S2P Require Import Prelude Dialect Postgres Template Render Tree Runtime Frags Demo Shape Keys TreeProps Safety Cache.

(** ** Keys *)

Lemma bytes_equal_spec a b : bytes_equal a b = true <-> a = b.
Proof.
  revert b. induction a as [|x a IH]; intros [|y b]; simpl; try done.
  rewrite andb_true_iff, N.eqb_eq, IH. naive_solver.
Qed.

Lemma choicesEqual_spec a b : choicesEqual a b = true <-> a = b.
Proof.
  unfold choicesEqual. destruct (Nat.eqb_spec (length a) (length b)); [apply bytes_equal_spec|].
  split; [done|]. by intros ->.
Qed.

Lemma seq_equal_spec a b : seq_equal a b = true <-> a = b.
Proof.
  unfold seq_equal. destruct a as [a|], b as [b|]; simpl; try done.
  - destruct (choicesEqual a b) eqn:E; simpl.
    + apply choicesEqual_spec in E as ->. done.
    + split; [done|]. intros [= ->]. by rewrite (proj2 (choicesEqual_spec b b)) in E.
Qed.

Lemma all_equal_spec {A} (eqb : A -> A -> bool) xs ys :
  (forall x y, eqb x y = true <-> x = y) -> length xs = length ys ->
  all_equal eqb xs ys = true <-> xs = ys.
Proof.
  intros He. revert ys. induction xs as [|x xs IH]; intros [|y ys] Hl; simpl in *; try done.
  destruct (eqb x y) eqn:E.
  - apply He in E as ->. rewrite IH by lia. naive_solver.
  - split; [done|]. intros [= -> ->]. by rewrite (proj2 (He y y)) in E.
Qed.

(** The full-key comparison is equality. *)
Lemma keysEqual_spec a b : keysEqual a b = true <-> a = b.
Proof.
  unfold keysEqual. destruct (N.eqb_spec (Guards a) (Guards b)) as [Hg|Hg]; cbn [negb orb];
    [|split; [done|by intros ->]].
  destruct (choicesEqual (Choices a) (Choices b)) eqn:Ec; cbn [negb orb].
  2: { split; [done|]. intros ->. by rewrite (proj2 (choicesEqual_spec _ _)) in Ec. }
  apply choicesEqual_spec in Ec.
  destruct (Nat.eqb_spec (length (Orders a)) (length (Orders b))); cbn [negb orb]; [|split; [done|by intros ->]].
  destruct (Nat.eqb_spec (length (Trees a)) (length (Trees b))); cbn [negb orb]; [|split; [done|by intros ->]].
  destruct (Nat.eqb_spec (length (Arities a)) (length (Arities b))); cbn [negb orb]; [|split; [done|by intros ->]].
  rewrite !andb_true_iff, (all_equal_spec seq_equal) by (done || apply seq_equal_spec).
  rewrite (all_equal_spec (fun x y => bool_decide (x = y))) by (done || (intros; apply bool_decide_eq_true)).
  rewrite (all_equal_spec Z.eqb) by (done || apply Z.eqb_eq).
  destruct a, b; simpl in *. naive_solver.
Qed.

Lemma cloneKey_id k : cloneKey k = k.
Proof.
  unfold cloneKey. cbn [app].
  assert (forall l out, foldl (fun out seq => match seq with
      | None => out ++ [None] | Some es => out ++ [Some ([] ++ es)] end) out l = out ++ l) as ->.
  { induction l as [|[es|] l IH]; intros out; cbn [foldl]; [by rewrite app_nil_r|by rewrite IH, <- app_assoc..]. }
  by destruct k.
Qed.

Lemma key_section_app tag sep parts dst : key_section tag sep parts dst = dst ++ key_section tag sep parts [].
Proof. unfold key_section, append_seq. destruct parts; [by rewrite app_nil_r|]. by rewrite <- app_assoc. Qed.

Lemma appendTo_app k dst : appendTo k dst = dst ++ appendTo k [].
Proof.
  unfold appendTo.
  rewrite (key_section_app (bs ";n=")), (key_section_app (bs ";t=")), (key_section_app (bs ";o=")), (key_section_app (bs ";c=")).
  symmetry.
  rewrite (key_section_app (bs ";n=")), (key_section_app (bs ";t=")), (key_section_app (bs ";o=")), (key_section_app (bs ";c=")).
  by rewrite <- !app_assoc.
Qed.

(** For one shape key the index determines the style and the query. *)
Lemma mapKey_inj s1 s2 q1 q2 k : mapKey s1 q1 k = mapKey s2 q2 k -> s1 = s2 /\ q1 = q2.
Proof.
  unfold mapKey. rewrite (appendTo_app k (((_ ++ _) ++ q1) ++ _)), (appendTo_app k (((_ ++ _) ++ q2) ++ _)).
  intros H%app_inv_tail. apply app_inv_tail in H. rewrite <- !app_assoc in H. simpl in H.
  injection H as H1 H2. split; [by destruct s1, s2|done].
Qed.

(** ** Requests *)
Record request := mkRequest {
  rq_style : Style; rq_query : bytes; rq_key : ShapeKey; rq_tree : Tree; rq_caps : TreeCaps;
}.

(** The key carries the tree's encoding, or no tree. *)
Definition key_tree (key : ShapeKey) (tree : Tree) : Prop :=
  (tree = None /\ Trees key = []) \/ Trees key = [Encode tree].

(** What an uncached call answers. *)
Definition composed (frags : list Frag) (r : request) : result RtErr (bytes * list Bind) :=
  let! _ := precheck frags (rq_tree r) (rq_caps r) in
  ComposeTreeStyle (rq_style r) frags (rq_key r) (rq_tree r) (rq_caps r).

Lemma rfold_ext {E S X} (f g : S -> X -> result E S) s xs :
  (forall s x, x ∈ xs -> f s x = g s x) -> rfold f s xs = rfold g s xs.
Proof.
  revert s. induction xs as [|x xs IH]; intros s H; [done|]. cbn [rfold].
  rewrite H by set_solver. destruct (g s x); cbn [rbind]; [|done]. apply IH. intros; apply H. set_solver.
Qed.

Lemma treeFilterCases_one frags f :
  tree_frags frags <= 1 -> f ∈ frags -> FKind f = FilterTree -> treeFilterCases frags = FCases f.
Proof.
  unfold tree_frags, treeFilterCases. intros Hl Hin Hk.
  assert (f ∈ filter (fun f => FKind f = FilterTree) frags) as Hf by by apply list_elem_of_filter.
  destruct (filter _ frags) as [|g [|]]; [set_solver| |simpl in Hl; lia].
  by apply list_elem_of_singleton in Hf as ->.
Qed.

(** Accepted trees of one structure compose alike. *)
Lemma compose_structure style frags key t1 t2 caps1 caps2 :
  tree_frags frags <= 1 -> precheck frags t1 caps1 = Ok tt -> precheck frags t2 caps2 = Ok tt ->
  tree_structure t1 = tree_structure t2 ->
  ComposeTreeStyle style frags key t1 caps1 = ComposeTreeStyle style frags key t2 caps2.
Proof.
  intros Hone P1 P2 Hs. unfold ComposeTreeStyle.
  rewrite (rfold_ext (compose_frag style key t1 caps1) (compose_frag style key t2 caps2)); [done|].
  intros st f Hin. unfold compose_frag. destruct (FKind f) eqn:Ek; try done.
  pose proof (treeFilterCases_one _ _ Hone Hin Ek) as Hc. unfold precheck in P1, P2. rewrite Hc in P1, P2.
  assert (forall t caps, (if IsZero t then Ok tt else validate t (FCases f) caps) = Ok tt ->
    (if IsZero t then Ok (mkCState (write (bs "TRUE") (cs_co st)) (cs_choose st) (cs_order st) (cs_in st))
     else let! _ := validate t (FCases f) caps in
          let! co := emitTree style (FCases f) t (cs_co st) in
          Ok (mkCState co (cs_choose st) (cs_order st) (cs_in st)))
    = (let! co := emitTree style (FCases f) t (cs_co st) in Ok (mkCState co (cs_choose st) (cs_order st) (cs_in st)))
    /\ match t with Some n => validate_rec (FCases f) n = Ok tt | None => True end) as Ht.
  { intros [n|] caps; cbn [IsZero]; [|done]. intros Hv. rewrite Hv. split; [done|].
    by apply validate_ok in Hv as [_ ?]. }
  destruct (Ht _ _ P1) as [-> V1], (Ht _ _ P2) as [-> V2].
  by rewrite (emitTree_structure style (FCases f) t1 t2 (cs_co st) Hs V1 V2).
Qed.

Lemma key_tree_structure key t1 t2 : key_tree key t1 -> key_tree key t2 -> tree_structure t1 = tree_structure t2.
Proof.
  intros [[-> H1]|H1] [[-> H2]|H2]; try congruence.
  apply Encode_structure. congruence.
Qed.

(** ** The invariant *)

(** The immutable part of an entry. *)
Record core := mkCore {
  k_mapKey : bytes; k_query : bytes; k_key : ShapeKey; k_sql : bytes; k_binds : list Bind; k_argIdx : list Z;
}.

Definition entry_core (e : cacheEntry) : core :=
  mkCore (e_mapKey e) (e_query e) (e_key e) (e_sql e) (e_binds e) (e_argIdx e).

Definition core_bytes (k : core) : Z :=
  (Z.of_nat (length (k_sql k)) + Z.of_nat (length (k_mapKey k))
   + Z.of_nat (length (k_binds k)) * cacheBindBytes + Z.of_nat (length (k_argIdx k)) * 2)%Z.

Definition cores (c : ComposedCache) : gmap nat core := entry_core <$> c_heap c.

Definition sum_over (f : core -> Z) (C : gmap nat core) (l : list nat) : Z :=
  foldr (fun a s => s + match C !! a with Some k => f k | None => 0 end)%Z 0%Z l.

Section inv.
Context (table : bytes -> list Frag).

(** An entry holds what composing for its query and key gives. *)
Definition served (style : Style) (q : bytes) (key : ShapeKey) (out : bytes * list Bind) : Prop :=
  exists tree caps, key_tree key tree /\ composed (table q) (mkRequest style q key tree caps) = Ok out.

Definition core_ok (k : core) : Prop :=
  (exists style, k_mapKey k = mapKey style (k_query k) (k_key k) /\
     served style (k_query k) (k_key k) (k_sql k, k_binds k)) /\
  k_argIdx k = Idx <$> k_binds k.

Definition index_ok (C : gmap nat core) (m : gmap bytes nat) : Prop :=
  forall mk a, m !! mk = Some a -> exists k, C !! a = Some k /\ k_mapKey k = mk.

Record Inv (c : ComposedCache) : Prop := {
  inv_core a k : cores c !! a = Some k -> core_ok k /\ a < c_next c;
  inv_m : index_ok (cores c) (c_m c);
  inv_fast snap : c_fast c = Some snap -> index_ok (cores c) snap /\ (Z.of_nat (size snap) <= c_cap c)%Z;
  inv_order : (map_to_list (c_m c)).*2 ≡ₚ c_order c;
  inv_bytes : totalBytes (c_cnt c) = sum_over core_bytes (cores c) (c_order c);
  inv_sql : sqlBytes (c_cnt c) = sum_over (fun k => Z.of_nat (length (k_sql k))) (cores c) (c_order c);
  inv_cap : (1 <= c_cap c)%Z;
}.

(** The bounds an operation restores before it releases the lock. *)
Definition bounded (c : ComposedCache) : Prop :=
  (Z.of_nat (size (c_m c)) <= c_cap c)%Z /\
  ((0 < c_maxBytes c)%Z -> (totalBytes (c_cnt c) <= c_maxBytes c)%Z \/ size (c_m c) <= 1).

(** Entries stay where they are and keep their immutable part. *)
Definition extends (c c' : ComposedCache) : Prop :=
  forall a k, cores c !! a = Some k -> cores c' !! a = Some k.

Lemma extends_refl c : extends c c.
Proof. by intros ???. Qed.

Lemma extends_trans c1 c2 c3 : extends c1 c2 -> extends c2 c3 -> extends c1 c3.
Proof. intros H1 H2 a k Ha. by apply H2, H1. Qed.

Lemma cores_lookup c a e : c_heap c !! a = Some e -> cores c !! a = Some (entry_core e).
Proof. intros He. unfold cores. by rewrite lookup_fmap, He. Qed.

Lemma cores_lookup_Some c a k :
  cores c !! a = Some k -> exists e, c_heap c !! a = Some e /\ k = entry_core e.
Proof.
  unfold cores. rewrite lookup_fmap. destruct (c_heap c !! a) as [e|]; [|done].
  intros [= <-]. eauto.
Qed.

Lemma inv_size c : Inv c -> size (c_m c) = length (c_order c).
Proof.
  intros HI. rewrite <- (inv_order c HI), length_fmap. by rewrite length_map_to_list.
Qed.

Lemma inv_NoDup c : Inv c -> NoDup (c_order c).
Proof.
  intros HI. rewrite <- (inv_order c HI).
  apply NoDup_fmap_2_strong; [|apply NoDup_map_to_list].
  intros [mk1 a1] [mk2 a2] H1%elem_of_map_to_list H2%elem_of_map_to_list Ha. simpl in Ha. subst.
  destruct (inv_m c HI _ _ H1) as (k1 & K1 & <-), (inv_m c HI _ _ H2) as (k2 & K2 & <-).
  by simplify_eq.
Qed.

Lemma inv_elem c a : Inv c -> a ∈ c_order c <-> exists mk, c_m c !! mk = Some a.
Proof.
  intros HI. rewrite <- (inv_order c HI), list_elem_of_fmap. split.
  - intros ([mk a'] & -> & H%elem_of_map_to_list). eauto.
  - intros [mk H]. exists (mk, a). split; [done|]. by apply elem_of_map_to_list.
Qed.

(** Changes the invariant does not see. *)
Definition same_view (c c' : ComposedCache) : Prop :=
  cores c' = cores c /\ c_next c' = c_next c /\ c_fast c' = c_fast c /\ c_cap c' = c_cap c /\
  c_m c' = c_m c /\ c_order c' = c_order c /\ totalBytes (c_cnt c') = totalBytes (c_cnt c) /\
  sqlBytes (c_cnt c') = sqlBytes (c_cnt c) /\ c_maxBytes c' = c_maxBytes c.

Lemma same_view_refl c : same_view c c.
Proof. by split_and!. Qed.

Lemma same_view_trans c1 c2 c3 : same_view c1 c2 -> same_view c2 c3 -> same_view c1 c3.
Proof. unfold same_view. intros (?&?&?&?&?&?&?&?&?) (?&?&?&?&?&?&?&?&?). split_and!; congruence. Qed.

Lemma same_view_Inv c c' : same_view c c' -> Inv c -> Inv c'.
Proof.
  intros (E1&E2&E3&E4&E5&E6&E7&E8&E9) [I1 I2 I3 I4 I5 I6 I7].
  split; rewrite ?E1, ?E2, ?E3, ?E4, ?E5, ?E6, ?E7, ?E8; auto.
Qed.

Lemma same_view_bounded c c' : same_view c c' -> bounded c -> bounded c'.
Proof.
  intros (E1&E2&E3&E4&E5&E6&E7&E8&E9). unfold bounded. by rewrite E4, E5, E7, E9.
Qed.

Lemma same_view_extends c c' : same_view c c' -> extends c c'.
Proof. intros (E1&_) a k. by rewrite E1. Qed.

Lemma update_entry_view a f c : (forall e, entry_core (f e) = entry_core e) -> same_view c (update_entry a f c).
Proof.
  intros Hf. split_and!; try done. unfold cores, update_entry. cbn.
  apply map_eq. intros b. rewrite !lookup_fmap. destruct (decide (a = b)) as [->|Hne].
  - rewrite lookup_alter_eq. destruct (c_heap c !! b); simpl; [by rewrite Hf|done].
  - by rewrite lookup_alter_ne.
Qed.

Lemma touch_view a c : same_view c (touch a c).
Proof.
  unfold touch. destruct (c_heap c !! a) as [e|]; [|apply same_view_refl].
  destruct (e_ref e); [apply same_view_refl|]. by apply update_entry_view.
Qed.

Lemma observe_view q a hit c : same_view c (ObserveCompose q a hit c).
Proof. unfold ObserveCompose. destruct (c_obs c); [destruct (c_heap c !! a)|]; by split_and!. Qed.

Lemma record_hit_view q a c : same_view c (record_hit q a c).
Proof.
  unfold record_hit. eapply same_view_trans; [apply touch_view|].
  eapply same_view_trans; [|apply observe_view].
  destruct (c_track _); [by apply update_entry_view|apply same_view_refl].
Qed.

Lemma set_win_view w c : same_view c (set_win w c).
Proof. by split_and!. Qed.

(** ** Operations keep the invariant *)

Lemma sum_over_perm f C l l' : l ≡ₚ l' -> sum_over f C l = sum_over f C l'.
Proof. unfold sum_over. induction 1; simpl; lia. Qed.

Lemma sum_over_ext f C C' l :
  (forall a, a ∈ l -> C !! a = C' !! a) -> sum_over f C l = sum_over f C' l.
Proof.
  unfold sum_over. induction l as [|a l IH]; intros H; [done|]. simpl.
  rewrite IH by (intros; apply H; set_solver). by rewrite (H a) by set_solver.
Qed.

Lemma filter_out_perm (a : nat) l : NoDup l -> a ∈ l -> a :: filter (fun x => x <> a) l ≡ₚ l.
Proof.
  intros Hnd Ha. apply list_elem_of_split in Ha as (l1 & l2 & ->).
  assert (forall l : list nat, ~ a ∈ l -> filter (fun x => x <> a) l = l) as Hid.
  { induction l as [|b l IH]; intros Hn; [done|]. rewrite filter_cons_True by set_solver.
    rewrite IH by set_solver. done. }
  apply list.NoDup_app in Hnd as (_ & H1 & H2). apply list.NoDup_cons in H2 as [H2 _].
  rewrite list.filter_app, filter_cons_False by naive_solver.
  rewrite !Hid; [by rewrite Permutation_middle|done|set_solver].
Qed.

Lemma MoveToFront_Inv a c : Inv c -> a ∈ c_order c -> Inv (MoveToFront a c).
Proof.
  intros HI Ha. pose proof (filter_out_perm a _ (inv_NoDup c HI) Ha) as Hp.
  destruct HI as [I1 I2 I3 I4 I5 I6 I7].
  split; change (cores (MoveToFront a c)) with (cores c);
    cbn [MoveToFront set_order c_next c_fast c_cap c_m c_order c_cnt]; auto.
  - by rewrite Hp.
  - rewrite I5. apply sum_over_perm. by symmetry.
  - rewrite I6. apply sum_over_perm. by symmetry.
Qed.

Lemma set_m_cores m c : cores (set_m m c) = cores c.
Proof. done. Qed.

(** Removing the entry the map holds under its own key. *)
Lemma remove_Inv mk a c :
  Inv c -> c_m c !! mk = Some a ->
  Inv (remove a c) /\ extends c (remove a c) /\ c_m (remove a c) = delete mk (c_m c) /\
  c_cap (remove a c) = c_cap c /\ c_maxBytes (remove a c) = c_maxBytes c /\
  c_order (remove a c) = filter (fun x => x <> a) (c_order c) /\
  c_next (remove a c) = c_next c /\ c_fast (remove a c) = c_fast c /\ cores (remove a c) = cores c.
Proof.
  intros HI Hm. destruct (inv_m c HI _ _ Hm) as (k & Hk & Hmk).
  destruct (cores_lookup_Some _ _ _ Hk) as (e & He & ->). cbn in Hmk.
  assert (a ∈ c_order c) as Ha by (apply (inv_elem c a HI); eauto).
  pose proof (filter_out_perm a _ (inv_NoDup c HI) Ha) as Hp.
  assert (remove a c = set_win (mkWindow (sinceSnap (c_win c)) true (snapshots (c_win c)) (hitFlushCredit (c_win c))
      (pendingHits (c_win c))) (set_cnt (mkCounters (misses (c_cnt c)) (inserts (c_cnt c)) (evictions (c_cnt c))
        (u64 (hitsFolded (c_cnt c) + e_hits e)) (sqlBytes (c_cnt c) - Z.of_nat (length (e_sql e)))
        (totalBytes (c_cnt c) - entryBytes e)) (set_m (delete mk (c_m c))
          (set_order (filter (fun x => x <> a) (c_order c)) c)))) as ->.
  { unfold remove. rewrite He. by rewrite Hmk. }
  split_and!; [|by intros ???|done..]. destruct HI as [I1 I2 I3 I4 I5 I6 I7].
  split; cbn [set_win set_cnt set_m set_order c_next c_fast c_cap c_m c_order c_cnt totalBytes sqlBytes];
    try change (cores (set_win _ _)) with (cores c); auto.
  - intros mk' a' Hd. apply lookup_delete_Some in Hd as [_ Hd]. by apply I2.
  - pose proof (fmap_Permutation snd _ _ (map_to_list_delete (c_m c) mk a Hm)) as Hd.
    rewrite fmap_cons in Hd. cbn [snd] in Hd.
    apply (Permutation_cons_inv (a := a)). by rewrite Hp, <- I4, Hd.
  - rewrite I5, <- (sum_over_perm _ _ _ _ Hp). unfold sum_over. cbn [foldr].
    rewrite (cores_lookup _ _ _ He). unfold entryBytes, core_bytes, entry_core. cbn. lia.
  - rewrite I6, <- (sum_over_perm _ _ _ _ Hp). unfold sum_over. cbn [foldr].
    rewrite (cores_lookup _ _ _ He). unfold entry_core. cbn. lia.
Qed.

(** What an eviction leaves alone. *)
Record shrunk (c c' : ComposedCache) : Prop := {
  sh_cores : cores c' = cores c;
  sh_next : c_next c' = c_next c;
  sh_fast : c_fast c' = c_fast c;
  sh_cap : c_cap c' = c_cap c;
  sh_max : c_maxBytes c' = c_maxBytes c;
}.

Lemma shrunk_refl c : shrunk c c.
Proof. done. Qed.

Lemma shrunk_trans c1 c2 c3 : shrunk c1 c2 -> shrunk c2 c3 -> shrunk c1 c3.
Proof. intros [] []. split; congruence. Qed.

Lemma shrunk_extends c c' : shrunk c c' -> extends c c'.
Proof. intros [H _ _ _ _] a k. by rewrite H. Qed.

Lemma count_eviction_view c : same_view c (count_eviction c).
Proof. by split_and!. Qed.

Lemma last_elem {A} (l : list A) x : list.last l = Some x -> x ∈ l.
Proof. intros H. apply last_Some in H as [l' ->]. set_solver. Qed.

Lemma evict_one_of c a :
  Inv c -> a ∈ c_order c ->
  Inv (count_eviction (remove a c)) /\ shrunk c (count_eviction (remove a c)) /\
  S (size (c_m (count_eviction (remove a c)))) = size (c_m c).
Proof.
  intros HI Ha. apply (inv_elem c a HI) in Ha as [mk Hmk].
  destruct (remove_Inv mk a c HI Hmk) as (HI' & _ & Hm & H1 & H2 & _ & H3 & H4 & H5).
  split_and!.
  - eapply same_view_Inv; [apply count_eviction_view|done].
  - done.
  - change (c_m (count_eviction (remove a c))) with (c_m (remove a c)). rewrite Hm.
    rewrite map_size_delete, Hmk. cbn.
    assert (size (c_m c) <> 0) by (apply map_size_non_empty_iff; intros He; by rewrite He, lookup_empty in Hmk).
    lia.
Qed.

Lemma evict_sweep_Inv i c :
  Inv c -> c_order c <> [] ->
  Inv (evict_sweep i c) /\ shrunk c (evict_sweep i c) /\ S (size (c_m (evict_sweep i c))) = size (c_m c).
Proof.
  revert c. induction i as [|i IH]; intros c HI Hne; cbn [evict_sweep];
    (destruct (list.last (c_order c)) as [a|] eqn:El; [|by apply last_None in El]);
    apply last_elem in El.
  - by apply evict_one_of.
  - destruct (match c_heap c !! a with Some e => e_ref e | None => false end); [|by apply evict_one_of].
    pose proof (update_entry_view a (set_ref false) c ltac:(done)) as Hv.
    set (c1 := update_entry a (set_ref false) c) in *.
    assert (Inv c1) as HI1 by by eapply same_view_Inv.
    assert (a ∈ c_order c1) as Ha1 by done.
    destruct (IH (MoveToFront a c1)) as (H1 & H2 & H3); [by apply MoveToFront_Inv|done|].
    split_and!; [done| |exact H3]. eapply shrunk_trans; [|exact H2].
    destruct Hv as (?&?&?&?&?&?&?&?&?). split; try done.
Qed.

Lemma evict_while_Inv over fuel c :
  (forall c, Inv c -> over c = true -> size (c_m c) <> 0) ->
  Inv c -> size (c_m c) <= fuel ->
  Inv (evict_while over fuel c) /\ shrunk c (evict_while over fuel c) /\ over (evict_while over fuel c) = false.
Proof.
  intros Hover. revert c. induction fuel as [|f IH]; intros c HI Hf; cbn [evict_while].
  - split_and!; [done|apply shrunk_refl|]. destruct (over c) eqn:E; [|done].
    by apply Hover in E; [lia|].
  - destruct (over c) eqn:E; [|by split_and!].
    pose proof (Hover _ HI E) as Hs. rewrite (inv_size c HI) in Hs.
    destruct (evict_sweep_Inv (size (c_m c)) c HI) as (H1 & H2 & H3).
    { intros He. by rewrite He in Hs. }
    destruct (IH (evictOne c) H1) as (I1 & I2 & I3); [unfold evictOne; lia|].
    split_and!; [done|by eapply shrunk_trans|done].
Qed.

Lemma over_bounds_size c : Inv c -> over_bounds c = true -> size (c_m c) <> 0.
Proof.
  intros HI. pose proof (inv_cap c HI). unfold over_bounds. rewrite orb_true_iff, !andb_true_iff.
  intros [H1%Z.ltb_lt|[_ H1%Nat.ltb_lt]]; lia.
Qed.

Lemma over_bounds_bounded c : Inv c -> over_bounds c = false -> bounded c.
Proof.
  intros HI. unfold over_bounds, bounded. rewrite orb_false_iff, !andb_false_iff.
  rewrite !Z.ltb_ge, Nat.ltb_ge. intros [H1 H2]. split; [done|]. intros Hm. lia.
Qed.

Lemma publishNow_Inv c : Inv c -> (Z.of_nat (size (c_m c)) <= c_cap c)%Z -> Inv (publishNow c).
Proof.
  intros [I1 I2 I3 I4 I5 I6 I7] Hs. split; try done.
  intros snap [= <-]. by split.
Qed.

Lemma publish_Inv c : Inv c -> (Z.of_nat (size (c_m c)) <= c_cap c)%Z -> Inv (publish c).
Proof.
  intros HI Hs. unfold publish. set (w := mkWindow _ _ _ _ _).
  assert (Inv (set_win w c)) as HI' by (eapply same_view_Inv; [apply set_win_view|done]).
  destruct (_ && _)%bool; [done|]. by apply publishNow_Inv.
Qed.

Lemma publish_facts c : extends c (publish c) /\ c_m (publish c) = c_m c /\ c_cap (publish c) = c_cap c /\
  c_maxBytes (publish c) = c_maxBytes c /\ c_cnt (publish c) = c_cnt c /\ cores (publish c) = cores c.
Proof. unfold publish. destruct (_ && _)%bool; split_and!; try done; by intros ???. Qed.

Lemma publish_bounded c : bounded c -> bounded (publish c).
Proof.
  unfold bounded. destruct (publish_facts c) as (_ & -> & -> & -> & -> & _). done.
Qed.

(** ** Lookups *)

Lemma find_entry_served style q key m c a :
  Inv c -> index_ok (cores c) m -> find_entry m (mapKey style q key) key c = Some a ->
  exists e, c_heap c !! a = Some e /\ served style q key (e_sql e, e_binds e) /\
    e_query e = q /\ e_key e = key /\ e_argIdx e = Idx <$> e_binds e /\ m !! mapKey style q key = Some a.
Proof.
  intros HI Hm Hf. unfold find_entry in Hf.
  destruct (m !! mapKey style q key) as [a'|] eqn:Ea; [|done]. cbn in Hf.
  destruct (c_heap c !! a') as [e|] eqn:Ee; [|done]. cbn in Hf.
  destruct (keysEqual (e_key e) key) eqn:Ek; [|done]. injection Hf as ->.
  apply keysEqual_spec in Ek. destruct (Hm _ _ Ea) as (k & Hk & Hmk).
  rewrite (cores_lookup _ _ _ Ee) in Hk. injection Hk as <-. cbn in Hmk.
  destruct (inv_core c HI a (entry_core e)) as [[(style' & Hs1 & Hs2) Harg] _]; [by apply cores_lookup|].
  cbn in Hs1, Hs2, Harg. rewrite Hmk in Hs1. rewrite Ek in Hs1, Hs2.
  apply mapKey_inj in Hs1 as [<- Hq]. rewrite <- Hq in Hs2. exists e. by split_and!.
Qed.

(** A call may answer with the entry at an address. *)
Definition answers (style : Style) (q : bytes) (key : ShapeKey) (a : nat) (c : ComposedCache) : Prop :=
  exists k, cores c !! a = Some k /\ served style q key (k_sql k, k_binds k) /\ k_argIdx k = Idx <$> k_binds k.

Lemma answers_extends style q key a c c' : extends c c' -> answers style q key a c -> answers style q key a c'.
Proof. intros He (k & Hk & H). exists k. split; [by apply He|done]. Qed.

Lemma find_entry_answers style q key m c a :
  Inv c -> index_ok (cores c) m -> find_entry m (mapKey style q key) key c = Some a ->
  answers style q key a c /\ m !! mapKey style q key = Some a.
Proof.
  intros HI Hm Hf. destruct (find_entry_served _ _ _ _ _ _ HI Hm Hf) as (e & He & Hs & _ & _ & Ha & Hl).
  split; [|done]. exists (entry_core e). split_and!; [by apply cores_lookup|done..].
Qed.

(** What every section guarantees. *)
Record section_ok (c c' : ComposedCache) : Prop := {
  so_inv : Inv c';
  so_bounded : bounded c';
  so_extends : extends c c';
  so_cap : c_cap c' = c_cap c;
}.

Lemma section_refl c : Inv c -> bounded c -> section_ok c c.
Proof. intros ??. split; [done|done|apply extends_refl|done]. Qed.

Lemma section_view c c1 c2 : section_ok c c1 -> same_view c1 c2 -> section_ok c c2.
Proof.
  intros [H1 H2 H3 H4] Hv. split; [by eapply same_view_Inv|by eapply same_view_bounded| |].
  - eapply extends_trans; [exact H3|by apply same_view_extends].
  - destruct Hv as (_ & _ & _ & -> & _). done.
Qed.

Lemma section_trans c1 c2 c3 : section_ok c1 c2 -> section_ok c2 c3 -> section_ok c1 c3.
Proof. intros [_ _ H E] [? ? ? E']. split; [done|done|by eapply extends_trans|by rewrite E']. Qed.

Lemma lookup_fast_ok style q key c a :
  Inv c -> lookup_fast (mapKey style q key) key c = Some a -> answers style q key a c.
Proof.
  intros HI. unfold lookup_fast. destruct (c_fast c) as [snap|] eqn:Ef; [|done]. intros E.
  destruct (inv_fast c HI _ Ef) as [Hsnap _]. by apply (find_entry_answers _ _ _ _ _ _ HI Hsnap E).
Qed.

Lemma deferred_hit_ok c : Inv c -> bounded c -> section_ok c (deferred_hit c).
Proof.
  intros HI Hb. unfold deferred_hit. set (w := mkWindow _ _ _ _ _). set (c1 := set_win w c).
  assert (section_ok c c1) as H1 by (eapply section_view; [by apply section_refl|apply set_win_view]).
  destruct (_ || _)%bool; [|done]. eapply section_view; [|apply set_win_view].
  split; [|done|by intros ???|done]. apply publishNow_Inv; [apply H1|apply Hb].
Qed.

Lemma lookup_locked_ok style q key c :
  Inv c -> bounded c ->
  let '(r, c') := lookup_locked (mapKey style q key) key c in
  section_ok c c' /\ match r with Some a => answers style q key a c' | None => True end.
Proof.
  intros HI Hb. unfold lookup_locked.
  destruct (c_m c !! mapKey style q key) as [a|] eqn:Em; [|by split; [apply section_refl|]].
  destruct (c_heap c !! a) as [e|] eqn:Ee; [|by split; [apply section_refl|]].
  destruct (keysEqual (e_key e) key) eqn:Ek.
  - assert (find_entry (c_m c) (mapKey style q key) key c = Some a) as Hf
      by (unfold find_entry; rewrite Em; cbn; rewrite Ee; cbn; by rewrite Ek).
    destruct (find_entry_answers _ _ _ _ _ _ HI (inv_m c HI) Hf) as [Ha _].
    assert (a ∈ c_order c) as Hin by (apply (inv_elem c a HI); eauto).
    assert (section_ok c (MoveToFront a c)) as H1 by (split; [by apply MoveToFront_Inv|done|by intros ???|done]).
    pose proof (section_trans _ _ _ H1 (deferred_hit_ok (MoveToFront a c) ltac:(apply H1) ltac:(apply H1))) as H2.
    split; [done|]. eapply answers_extends; [apply H2|done].
  - destruct (remove_Inv _ _ _ HI Em) as (HI' & He & Hm & Hc & Hx & _).
    assert (shrunk_bytes : (totalBytes (c_cnt (remove a c)) <= totalBytes (c_cnt c))%Z).
    { unfold remove. rewrite Ee. cbn. unfold entryBytes, cacheBindBytes. lia. }
    split; [|done]. split; [done| |done|done]. unfold bounded in *. rewrite Hm, Hc, Hx.
    rewrite map_size_delete, Em. cbn. destruct Hb as [Hb1 Hb2]. split; [lia|]. intros Hp. specialize (Hb2 Hp). lia.
Qed.

(** A new entry under a key the map does not hold. *)
Section insert_entry.
Context (style : Style) (q : bytes) (key : ShapeKey) (sql : bytes) (binds : list Bind) (c : ComposedCache).
Abbreviation mk := (mapKey style q key).
Abbreviation new_core := (mkCore mk q key sql binds (Idx <$> binds)).
Abbreviation c' := (insert_entry mk key q sql binds c).
Hypothesis HI : Inv c.

Lemma insert_entry_cores : cores c' = <[c_next c := new_core]> (cores c).
Proof.
  unfold cores, insert_entry. cbn [c_heap]. rewrite fmap_insert. f_equal.
  unfold newCacheEntry, entry_core. cbn. by rewrite cloneKey_id.
Qed.

Lemma insert_entry_fresh a k : cores c !! a = Some k -> a <> c_next c.
Proof. intros Ha ->. apply (inv_core c HI) in Ha as [_ ?]. lia. Qed.

Lemma insert_entry_extends : extends c c'.
Proof.
  intros a k Ha. rewrite insert_entry_cores. rewrite lookup_insert_ne; [done|].
  apply not_eq_sym. by eapply insert_entry_fresh.
Qed.

Lemma insert_entry_sum f :
  sum_over f (cores c') (c_order c') = (sum_over f (cores c) (c_order c) + f new_core)%Z.
Proof.
  assert (~ c_next c ∈ c_order c) as Hnew.
  { intros [m Hm]%(inv_elem c _ HI). destruct (inv_m c HI _ _ Hm) as (k & Hk & _).
    by apply insert_entry_fresh in Hk. }
  change (c_order c') with (c_next c :: c_order c). unfold sum_over at 1. cbn [foldr].
  rewrite insert_entry_cores, lookup_insert_eq. f_equal. apply sum_over_ext. intros a Ha.
  apply lookup_insert_ne. set_solver.
Qed.

Lemma insert_entry_index m : index_ok (cores c) m -> index_ok (cores c') m.
Proof.
  intros Hm m' a Ha. destruct (Hm _ _ Ha) as (k & Hk & ?). exists k.
  split; [by apply insert_entry_extends|done].
Qed.

Lemma insert_entry_Inv : c_m c !! mk = None -> served style q key (sql, binds) -> Inv c'.
Proof.
  intros Hm1 Hs. pose proof HI as [I1 I2 I3 I4 I5 I6 I7]. split.
  - rewrite insert_entry_cores. intros a k Ha. destruct (decide (a = c_next c)) as [->|Hne].
    + rewrite lookup_insert_eq in Ha. injection Ha as <-. split; [|cbn; lia].
      split; [|done]. exists style. by split.
    + rewrite lookup_insert_ne in Ha by done. apply I1 in Ha as [? ?]. split; [done|cbn; lia].
  - intros m a Ha. change (c_m c') with (<[mk := c_next c]> (c_m c)) in Ha.
    destruct (decide (m = mk)) as [->|Hne].
    + rewrite lookup_insert_eq in Ha. injection Ha as <-. rewrite insert_entry_cores, lookup_insert_eq.
      by eexists.
    + rewrite lookup_insert_ne in Ha by done. by apply (insert_entry_index _ I2).
  - intros snap Hf. destruct (I3 snap Hf) as [Hx ?]. split; [|done]. by apply insert_entry_index.
  - pose proof (fmap_Permutation snd _ _ (map_to_list_insert (c_m c) _ (c_next c) Hm1)) as Hp.
    cbn [c_m c_order insert_entry]. rewrite Hp, fmap_cons. cbn [snd]. by rewrite I4.
  - rewrite insert_entry_sum. cbn [c_cnt totalBytes insert_entry]. by rewrite I5.
  - rewrite insert_entry_sum. cbn [c_cnt sqlBytes insert_entry]. by rewrite I6.
  - done.
Qed.
End insert_entry.

Lemma insert_locked_ok style q key sql binds c :
  Inv c -> bounded c -> served style q key (sql, binds) ->
  let '((a, _), c') := insert_locked (mapKey style q key) key q sql binds c in
  section_ok c c' /\ answers style q key a c'.
Proof.
  intros HI Hb Hs. unfold insert_locked.
  set (c0 := set_cnt _ c). assert (same_view c c0) as Hv0 by by split_and!.
  assert (Inv c0) as HI0 by by eapply same_view_Inv.
  assert (bounded c0) as Hb0 by by eapply same_view_bounded.
  destruct (find_entry (c_m c0) _ key c0) as [a|] eqn:E.
  - destruct (find_entry_answers _ _ _ _ _ _ HI0 (inv_m c0 HI0) E) as [Ha Hm].
    assert (a ∈ c_order c0) as Hin by (apply (inv_elem c0 a HI0); eauto).
    split; [split; [by apply MoveToFront_Inv|done|by intros ???|done]|].
    by eapply (answers_extends _ _ _ _ c0); [intros ???|].
  - set (c1 := match c_m c0 !! mapKey style q key with Some a => remove a c0 | None => c0 end).
    assert (Inv c1 /\ c_m c1 !! mapKey style q key = None /\ extends c c1 /\ c_cap c1 = c_cap c) as (HI1 & Hm1 & He1 & Hc1).
    { unfold c1. destruct (c_m c0 !! _) as [a|] eqn:Em.
      - destruct (remove_Inv _ _ _ HI0 Em) as (HI' & He & Hm & Hc & _).
        split_and!; [done|by rewrite Hm, lookup_delete_eq|done|done].
      - split_and!; [done|done|by intros ???|done]. }
    clearbody c1. clear E.
    pose proof (insert_entry_Inv style q key sql binds c1 HI1 Hm1 Hs) as HI2.
    set (c2 := insert_entry _ _ _ _ _ c1) in *.
    destruct (evict_while_Inv over_bounds (size (c_m c2)) c2 over_bounds_size HI2 ltac:(done)) as (HI3 & Hsh & Hno).
    set (c3 := evict_while over_bounds _ c2) in *.
    pose proof (over_bounds_bounded _ HI3 Hno) as Hb3.
    destruct (publish_facts c3) as (He4 & _ & Hc4 & _).
    assert (extends c2 (publish c3)) as He by (eapply extends_trans; [by apply shrunk_extends|done]).
    split.
    + split; [apply publish_Inv; [done|apply Hb3]|by apply publish_bounded| |].
      * eapply extends_trans; [exact He1|]. eapply extends_trans; [by apply insert_entry_extends|done].
      * by rewrite Hc4, (sh_cap _ _ Hsh), <- Hc1.
    + eexists. split_and!; [apply He; unfold c2; rewrite insert_entry_cores; apply lookup_insert_eq|done|done].
Qed.

Lemma record_miss_view q a raced c : same_view c (record_miss q a raced c).
Proof.
  unfold record_miss. eapply same_view_trans; [|apply observe_view].
  destruct raced; [apply touch_view|apply same_view_refl].
Qed.

Lemma answers_view style q key a c c' : same_view c c' -> answers style q key a c -> answers style q key a c'.
Proof. intros Hv. by apply answers_extends, same_view_extends. Qed.
End inv.

(** Trees of one encoding compose alike: of two accepted trees that differ
    in their argument values only, composition gives the same SQL and the same
    bind plan - which is why the encoding may stand for the tree in a cache
    key. *)
Theorem encoding_determines_composition style frags key t1 t2 caps1 caps2 :
  tree_frags frags <= 1 -> precheck frags t1 caps1 = Ok tt -> precheck frags t2 caps2 = Ok tt ->
  Encode t1 = Encode t2 ->
  ComposeTreeStyle style frags key t1 caps1 = ComposeTreeStyle style frags key t2 caps2.
Proof. intros Hone P1 P2 He%Encode_structure. by apply compose_structure. Qed.

Lemma encoding_determines_composition_witness :
  ComposeTreeStyle StyleDollar (BuildFrags Postgres.Profile demo_query) (mkShapeKey 0 [0%N] [None] [] [])
    (NewLeaf 1 [AVal (bs "a")]) DefaultTreeCaps
  = ComposeTreeStyle StyleDollar (BuildFrags Postgres.Profile demo_query) (mkShapeKey 0 [0%N] [None] [] [])
    (NewLeaf 1 [AVal (bs "b")]) DefaultTreeCaps.
Proof.
  apply encoding_determines_composition; [apply Nat.leb_le| | |]; vm_compute; reflexivity.
Defined.
