(* ===== verification/CacheTheorems.v ===== *)
(** * CacheTheorems

    The composed cache answers every call as if it were not there, from every
    reachable state and under every interleaving of concurrent calls, and
    never holds more than its bounds allow. *)

From S2P Require Import Prelude Dialect Postgres MySQL Template Render Tree Runtime Frags Shape Keys TreeProps Safety Cache CacheProps Demo.

(** ** Calls as interleaved sections

    What a call has still to do: the validation and the lock-free lookup, the
    first critical section, the composition, the second critical section, and
    what follows an unlock - the entry's reference bit and hit count and the
    observer. *)
Inductive phase :=
  | PStart | PMissed | PCompose | PInsert (sql : bytes) (binds : list Bind)
  | PHit (a : nat) | PInserted (a : nat) (raced : bool)
  | PDone (r : result RtErr nat).

(** One step of a call: the code between two points at which another
    goroutine may run. *)
Definition call_step (frags : list Frag) (rq : request) (ph : phase) (c : ComposedCache)
    : option (phase * ComposedCache) :=
  let mk := mapKey (rq_style rq) (rq_query rq) (rq_key rq) in
  match ph with
  | PStart =>
      match precheck frags (rq_tree rq) (rq_caps rq) with
      | Err e => Some (PDone (Err e), c)
      | Ok _ =>
          match lookup_fast mk (rq_key rq) c with
          | Some a => Some (PHit a, c)
          | None => Some (PMissed, c)
          end
      end
  | PMissed =>
      match lookup_locked mk (rq_key rq) c with
      | (Some a, c) => Some (PHit a, c)
      | (None, c) => Some (PCompose, c)
      end
  | PCompose =>
      match ComposeTreeStyle (rq_style rq) frags (rq_key rq) (rq_tree rq) (rq_caps rq) with
      | Err e => Some (PDone (Err e), c)
      | Ok (sql, binds) => Some (PInsert sql binds, c)
      end
  | PInsert sql binds =>
      let '((a, raced), c) := insert_locked mk (rq_key rq) (rq_query rq) sql binds c in
      Some (PInserted a raced, c)
  | PHit a => Some (PDone (Ok a), record_hit (rq_query rq) a c)
  | PInserted a raced => Some (PDone (Ok a), record_miss (rq_query rq) a raced c)
  | PDone _ => None
  end.

(** A run of one call with no other call in between. *)
Fixpoint run_call (fuel : nat) (frags : list Frag) (rq : request) (ph : phase) (c : ComposedCache)
    : option (result RtErr nat * ComposedCache) :=
  match ph with
  | PDone r => Some (r, c)
  | _ => match fuel with
         | O => None
         | S f => match call_step frags rq ph c with
                  | Some (ph, c) => run_call f frags rq ph c
                  | None => None
                  end
         end
  end.

(** Administrative operations. *)
Inductive admin := ASetMaxBytes (n : Z) | ASetObserver (installed : bool) | AStats.

Definition run_admin (op : admin) (c : ComposedCache) : ComposedCache :=
  match op with
  | ASetMaxBytes n => SetMaxBytes n c
  | ASetObserver b => SetObserver b c
  | AStats => (Stats c).2
  end.

(** The calls in flight and the cache they share. *)
Abbreviation sys := (list (request * phase) * ComposedCache)%type.

Section system.
Context (table : bytes -> list Frag).

Inductive sys_step : sys -> sys -> Prop :=
  | sys_call calls c i rq ph ph' c' :
      calls !! i = Some (rq, ph) ->
      call_step (table (rq_query rq)) rq ph c = Some (ph', c') ->
      sys_step (calls, c) (<[i := (rq, ph')]> calls, c')
  | sys_new calls c rq :
      key_tree (rq_key rq) (rq_tree rq) -> sys_step (calls, c) (calls ++ [(rq, PStart)], c)
  | sys_admin calls c op : sys_step (calls, c) (calls, run_admin op c).

Inductive reachable_sys (capacity : Z) : sys -> Prop :=
  | reach_init : reachable_sys capacity ([], NewComposedCache capacity)
  | reach_step s s' : reachable_sys capacity s -> sys_step s s' -> reachable_sys capacity s'.

(** The number of steps a call may still take. *)
Definition steps_left (ph : phase) : nat :=
  match ph with
  | PStart => 5 | PMissed => 4 | PCompose => 3 | PInsert _ _ => 2 | PHit _ | PInserted _ _ => 1 | PDone _ => 0
  end.

(** ** The invariant of the system *)
Hypothesis Htable : forall q, tree_frags (table q) <= 1.

Lemma served_det style q key out tree caps :
  served table style q key out -> key_tree key tree -> precheck (table q) tree caps = Ok tt ->
  ComposeTreeStyle style (table q) key tree caps = Ok out.
Proof.
  intros (t & cs & Hkt & Hc) Hk Hp. unfold composed in Hc. cbn in Hc.
  apply rbind_ok in Hc as ([] & Hp' & Hc). rewrite <- Hc.
  apply compose_structure; [done|done|done|]. by eapply key_tree_structure.
Qed.

Lemma served_intro style q key tree caps out :
  key_tree key tree -> precheck (table q) tree caps = Ok tt ->
  ComposeTreeStyle style (table q) key tree caps = Ok out -> served table style q key out.
Proof. intros Hk Hp Hc. exists tree, caps. split; [done|]. unfold composed. cbn. by rewrite Hp. Qed.

Definition phase_ok (rq : request) (ph : phase) (c : ComposedCache) : Prop :=
  let frags := table (rq_query rq) in
  key_tree (rq_key rq) (rq_tree rq) /\
  match ph with
  | PStart => True
  | PMissed | PCompose => precheck frags (rq_tree rq) (rq_caps rq) = Ok tt
  | PInsert sql binds =>
      precheck frags (rq_tree rq) (rq_caps rq) = Ok tt /\
      ComposeTreeStyle (rq_style rq) frags (rq_key rq) (rq_tree rq) (rq_caps rq) = Ok (sql, binds)
  | PHit a | PInserted a _ | PDone (Ok a) =>
      precheck frags (rq_tree rq) (rq_caps rq) = Ok tt /\ answers table (rq_style rq) (rq_query rq) (rq_key rq) a c
  | PDone (Err e) => composed frags rq = Err e
  end.

Lemma phase_ok_extends rq ph c c' : extends c c' -> phase_ok rq ph c -> phase_ok rq ph c'.
Proof.
  intros He [Hk H]. split; [done|]. destruct ph as [| | | | | |[a|e]]; try done;
    destruct H as [Hp Ha]; (split; [done|]); by eapply answers_extends.
Qed.

(** Only a finished call has no step. *)
Lemma call_step_None frags rq ph c : call_step frags rq ph c = None -> exists r, ph = PDone r.
Proof.
  destruct ph as [| | |sql binds|a|a raced|r]; cbn [call_step]; [..|eauto]; try done.
  - destruct (precheck _ _ _); [destruct (lookup_fast _ _ c)|]; done.
  - by destruct (lookup_locked _ _ c) as [[] ].
  - by destruct (ComposeTreeStyle _ _ _ _ _) as [[]|].
  - by destruct (insert_locked _ _ _ _ _ c) as [[] ].
Qed.

Lemma call_step_ok rq ph c ph' c' :
  Inv table c -> bounded c -> phase_ok rq ph c -> call_step (table (rq_query rq)) rq ph c = Some (ph', c') ->
  section_ok table c c' /\ phase_ok rq ph' c' /\ steps_left ph' < steps_left ph.
Proof.
  intros HI Hb [Hk Hph]. pose proof (section_refl table c HI Hb) as Hc0.
  destruct ph as [| | |sql binds|a|a raced|r]; cbn [call_step] in *; [..|done].
  - destruct (precheck _ _ _) as [[]|e] eqn:Ep.
    + destruct (lookup_fast _ _ c) as [a|] eqn:E; intros [= <- <-]; (split_and!; [done| |simpl; lia]); [|by split].
      split; [done|]. split; [done|]. by apply (lookup_fast_ok table) in E.
    + intros [= <- <-]. split_and!; [done| |simpl; lia]. split; [done|]. unfold composed. by rewrite Ep.
  - pose proof (lookup_locked_ok table (rq_style rq) (rq_query rq) (rq_key rq) c HI Hb) as H.
    destruct (lookup_locked _ _ c) as [[a|] c1]; destruct H as [Hs Ha]; intros [= <- <-];
      (split_and!; [done|by split|simpl; lia]).
  - destruct (ComposeTreeStyle _ _ _ _ _) as [[sql binds]|e] eqn:Ec; intros [= <- <-];
      (split_and!; [done| |simpl; lia]); split; [done|done|done|].
    unfold composed. by rewrite Hph.
  - destruct Hph as [Hp Hc].
    pose proof (insert_locked_ok table (rq_style rq) (rq_query rq) (rq_key rq) sql binds c HI Hb
      (served_intro _ _ _ _ _ _ Hk Hp Hc)) as H.
    destruct (insert_locked _ _ _ _ _ c) as [[a raced] c1]. destruct H as [Hs Ha]. intros [= <- <-].
    split_and!; [done|by split|simpl; lia].
  - destruct Hph as [Hp Ha]. intros [= <- <-]. pose proof (record_hit_view (rq_query rq) a c) as Hv.
    split_and!; [by eapply section_view| |simpl; lia]. split; [done|]. split; [done|]. by eapply answers_view.
  - destruct Hph as [Hp Ha]. intros [= <- <-]. pose proof (record_miss_view (rq_query rq) a raced c) as Hv.
    split_and!; [by eapply section_view| |simpl; lia]. split; [done|]. split; [done|]. by eapply answers_view.
Qed.

Lemma over_bytes_size c : over_bytes c = true -> size (c_m c) <> 0.
Proof. unfold over_bytes. rewrite !andb_true_iff. intros [[H%Nat.ltb_lt _] _]. lia. Qed.

Lemma evict_one_size c : Inv table c -> size (c_m (evictOne c)) <= size (c_m c).
Proof.
  intros HI. destruct (c_order c) as [|a l] eqn:Eo.
  - pose proof (inv_size table c HI) as Hs. rewrite Eo in Hs. simpl in Hs.
    unfold evictOne. rewrite Hs. cbn. rewrite Eo. cbn. lia.
  - destruct (evict_sweep_Inv table (size (c_m c)) c HI) as (_ & _ & ?); [by rewrite Eo|]. unfold evictOne. lia.
Qed.

Lemma evict_while_size over fuel c :
  (forall c, Inv table c -> over c = true -> size (c_m c) <> 0) ->
  Inv table c -> size (c_m (evict_while over fuel c)) <= size (c_m c).
Proof.
  intros Ho. revert c. induction fuel as [|f IH]; intros c HI; cbn [evict_while]; [done|].
  destruct (over c) eqn:E; [|done]. pose proof (Ho _ HI E) as Hs.
  rewrite (inv_size table c HI) in Hs.
  destruct (evict_sweep_Inv table (size (c_m c)) c HI) as (HI' & _ & _); [by intros He; rewrite He in Hs|].
  etransitivity; [by apply IH|]. by apply evict_one_size.
Qed.

Lemma run_admin_ok op c : Inv table c -> bounded c -> section_ok table c (run_admin op c).
Proof.
  intros HI Hb. destruct op as [n|b|]; cbn [run_admin].
  - unfold SetMaxBytes. set (c1 := set_maxBytes n c).
    assert (Inv table c1) as HI1 by (destruct HI; by split).
    destruct (evict_while_Inv table over_bytes (size (c_m c1)) c1 ltac:(intros; by apply over_bytes_size) HI1 ltac:(done))
      as (HI2 & Hsh & Hno).
    pose proof (evict_while_size over_bytes (size (c_m c1)) c1 ltac:(intros; by apply over_bytes_size) HI1) as Hsize.
    set (c2 := evict_while _ _ c1) in *. destruct Hb as [Hb1 _].
    assert (Z.of_nat (size (c_m c2)) <= c_cap c2)%Z as Hcap.
    { rewrite (sh_cap _ _ Hsh). change (c_cap c1) with (c_cap c). change (c_m c1) with (c_m c) in Hsize. lia. }
    split.
    + by apply publishNow_Inv.
    + split; [done|]. intros Hp. change (c_maxBytes (publishNow c2)) with (c_maxBytes c2) in *.
      unfold over_bytes in Hno. rewrite !andb_false_iff, Nat.ltb_ge, !Z.ltb_ge in Hno.
      change (totalBytes (c_cnt (publishNow c2))) with (totalBytes (c_cnt c2)).
      change (c_m (publishNow c2)) with (c_m c2). lia.
    + intros a k Ha. change (cores (publishNow c2)) with (cores c2). rewrite (sh_cores _ _ Hsh). done.
    + change (c_cap (publishNow c2)) with (c_cap c2). by rewrite (sh_cap _ _ Hsh).
  - eapply section_view; [by apply section_refl|by split_and!].
  - eapply section_view; [by apply section_refl|by split_and!].
Qed.

(** The bound a requested capacity stands for. *)
Definition capacity_of (capacity : Z) : Z := if Z.leb capacity 0 then 256 else capacity.

Definition sys_ok (capacity : Z) (s : sys) : Prop :=
  Inv table s.2 /\ bounded s.2 /\ c_cap s.2 = capacity_of capacity /\ forall i rq ph, s.1 !! i = Some (rq, ph) -> phase_ok rq ph s.2.

Lemma NewComposedCache_ok capacity : Inv table (NewComposedCache capacity) /\ bounded (NewComposedCache capacity).
Proof.
  assert (1 <= if Z.leb capacity 0 then 256 else capacity)%Z as Hc by (destruct (Z.leb_spec capacity 0); lia).
  split.
  - by split.
  - unfold bounded. cbn. rewrite map_size_empty. split; [lia|]. intros _. left. change (0 <= 67108864)%Z. lia.
Qed.

Lemma reachable_ok capacity s : reachable_sys capacity s -> sys_ok capacity s.
Proof.
  induction 1 as [|s s' _ (HI & Hb & Hcap & Hp) Hstep].
  { destruct (NewComposedCache_ok capacity). by split_and!. }
  destruct Hstep as [calls c i rq ph ph' c' Hi Hst|calls c rq Hk|calls c op]; unfold sys_ok in *; cbn [fst snd] in *.
  - destruct (call_step_ok rq ph c ph' c' HI Hb (Hp _ _ _ Hi) Hst) as (Hs & Hph & _).
    split_and!; [apply Hs..|by rewrite (so_cap _ _ _ Hs)|]. intros j rq' ph'' Hj. destruct (decide (i = j)) as [->|Hne].
    + rewrite list_lookup_insert_eq in Hj by by eapply lookup_lt_Some. by injection Hj as <- <-.
    + rewrite list_lookup_insert_ne in Hj by done. eapply phase_ok_extends; [apply Hs|by eapply Hp].
  - split_and!; [done..|]. intros j rq' ph'' [Hj|[_ Hj]]%lookup_app_Some; [by eapply Hp|].
    apply list_lookup_singleton_Some in Hj as [_ [= <- <-]]. by split.
  - pose proof (run_admin_ok op c HI Hb) as Hs. split_and!; [apply Hs..|by rewrite (so_cap _ _ _ Hs)|].
    intros j rq' ph'' Hj. eapply phase_ok_extends; [apply Hs|by eapply Hp].
Qed.

Lemma run_call_ok fuel rq ph c :
  Inv table c -> bounded c -> phase_ok rq ph c -> steps_left ph <= fuel ->
  exists r c', run_call fuel (table (rq_query rq)) rq ph c = Some (r, c') /\
    section_ok table c c' /\ phase_ok rq (PDone r) c'.
Proof.
  revert ph c. induction fuel as [|f IH]; intros ph c HI Hb Hp Hf.
  - destruct ph; simpl in Hf; try lia. exists r, c. split_and!; [done|by apply section_refl|done].
  - destruct (call_step (table (rq_query rq)) rq ph c) as [[ph' c']|] eqn:E.
    + destruct (call_step_ok _ _ _ _ _ HI Hb Hp E) as (Hs & Hp' & Hl).
      destruct (IH ph' c') as (r & c'' & Hr & Hs' & Hd); [apply Hs|apply Hs|done|lia|].
      exists r, c''. split_and!; [|by eapply section_trans|done].
      destruct ph; [cbn [run_call]; by rewrite E..|]. done.
    + apply call_step_None in E as [r ->]. exists r, c. split_and!; [done|by apply section_refl|done].
Qed.

(** [entry] is the uninterrupted run of its sections. *)
Lemma run_call_entry rq c :
  run_call 5 (table (rq_query rq)) rq PStart c
  = Some (cache_entry (rq_style rq) (rq_query rq) (table (rq_query rq)) (rq_key rq) (rq_tree rq) (rq_caps rq) c).
Proof.
  unfold cache_entry. cbn [run_call call_step].
  destruct (precheck _ _ _) as [[]|e0]; [|done].
  destruct (lookup_fast _ _ c) as [a|]; [done|]. cbn [run_call call_step].
  destruct (lookup_locked _ _ c) as [[a|] c2]; [done|]. cbn [run_call call_step].
  destruct (ComposeTreeStyle _ _ _ _ _) as [[sql binds]|e]; [|done]. cbn [run_call call_step].
  by destruct (insert_locked _ _ _ _ _ c2) as [[] ].
Qed.

Lemma cache_entry_ok rq c :
  Inv table c -> bounded c -> key_tree (rq_key rq) (rq_tree rq) ->
  let '(r, c') := cache_entry (rq_style rq) (rq_query rq) (table (rq_query rq)) (rq_key rq) (rq_tree rq) (rq_caps rq) c in
  section_ok table c c' /\ phase_ok rq (PDone r) c'.
Proof.
  intros HI Hb Hk. destruct (run_call_ok 5 rq PStart c HI Hb ltac:(by split) ltac:(simpl; lia)) as (r & c' & Hr & Hs & Hd).
  rewrite run_call_entry in Hr. injection Hr as ->. done.
Qed.

Lemma answers_composed rq a c :
  phase_ok rq (PDone (Ok a)) c ->
  exists e, c_heap c !! a = Some e /\ composed (table (rq_query rq)) rq = Ok (e_sql e, e_binds e) /\
    e_argIdx e = Idx <$> e_binds e.
Proof.
  intros [Hk [Hp (k & Hc & Hs & Ha)]]. apply cores_lookup_Some in Hc as (e & He & ->). exists e.
  split_and!; [done| |done]. unfold composed. rewrite Hp. cbn. eapply served_det; [exact Hs|done|done].
Qed.

Lemma cache_get_composed rq c :
  Inv table c -> bounded c -> key_tree (rq_key rq) (rq_tree rq) ->
  let '(r, c') := cache_get (rq_style rq) (rq_query rq) (table (rq_query rq)) (rq_key rq) (rq_tree rq) (rq_caps rq) c in
  r = composed (table (rq_query rq)) rq /\ section_ok table c c'.
Proof.
  intros HI Hb Hk. pose proof (cache_entry_ok rq c HI Hb Hk) as H. unfold cache_get.
  destruct (cache_entry _ _ _ _ _ _ c) as [[a|e] c']; destruct H as [Hs Hd].
  - destruct (answers_composed _ _ _ Hd) as (e & He & Hc & _). by rewrite He, Hc.
  - split; [|done]. by destruct Hd as [_ ->].
Qed.
End system.

(** ** Schedules

    An executable system: a schedule is the sequence of the steps taken. *)
#[export] Instance key_tree_dec key tree : Decision (key_tree key tree).
Proof.
  unfold key_tree. apply or_dec; [|apply _]. apply and_dec; [|apply _].
  destruct tree; [by right|by left].
Defined.

Inductive action := Step (i : nat) | New (rq : request) | Admin (op : admin).

Definition act (table : bytes -> list Frag) (s : sys) (x : action) : option sys :=
  match x with
  | Step i =>
      '(rq, ph) ← s.1 !! i; '(ph', c') ← call_step (table (rq_query rq)) rq ph s.2;
      Some (<[i := (rq, ph')]> s.1, c')
  | New rq => if decide (key_tree (rq_key rq) (rq_tree rq)) then Some (s.1 ++ [(rq, PStart)], s.2) else None
  | Admin op => Some (s.1, run_admin op s.2)
  end.

Fixpoint run_schedule (table : bytes -> list Frag) (s : sys) (xs : list action) : option sys :=
  match xs with [] => Some s | x :: xs => s' ← act table s x; run_schedule table s' xs end.

Lemma act_step table s x s' : act table s x = Some s' -> sys_step table s s'.
Proof.
  destruct s as [calls c], x as [i|rq|op]; cbn [act fst snd]; intros H.
  - apply bind_Some in H as ([rq ph] & Hi & H). apply bind_Some in H as ([ph' c'] & Hs & [= <-]).
    by eapply sys_call.
  - destruct (decide _); [|done]. injection H as <-. by apply sys_new.
  - injection H as <-. apply sys_admin.
Qed.

Lemma schedule_reachable table capacity xs s s' :
  reachable_sys table capacity s -> run_schedule table s xs = Some s' -> reachable_sys table capacity s'.
Proof.
  revert s. induction xs as [|x xs IH]; intros s Hs; cbn [run_schedule].
  - by intros [= <-].
  - intros (s1 & Ha & Hr)%bind_Some. eapply IH; [|exact Hr]. eapply reach_step; [exact Hs|by eapply act_step].
Qed.

(** ** The theorems *)

(** C3: under every interleaving of concurrent calls, evictions, snapshots and
    administrative operations, a finished call answers what composing without
    a cache answers: the same error, or an entry whose SQL, bind plan and
    argument indices are the composed ones - and still are at any later time. *)
Theorem concurrent_transparency table capacity calls c i rq r :
  (forall q, tree_frags (table q) <= 1) -> reachable_sys table capacity (calls, c) ->
  calls !! i = Some (rq, PDone r) ->
  match r with
  | Err e => composed (table (rq_query rq)) rq = Err e
  | Ok a => exists e, c_heap c !! a = Some e /\
      composed (table (rq_query rq)) rq = Ok (e_sql e, e_binds e) /\ e_argIdx e = Idx <$> e_binds e
  end.
Proof.
  intros Ht Hr Hi. destruct (reachable_ok table capacity _ Hr) as (_ & _ & _ & Hp).
  specialize (Hp _ _ _ Hi). destruct r as [a|e]; [by apply (answers_composed table)|apply Hp].
Qed.

(** The entries the cache keeps alive: the map's and the snapshot's. *)
Definition retained (c : ComposedCache) : list nat :=
  remove_dups ((map_to_list (c_m c)).*2 ++ (map_to_list (default ∅ (c_fast c))).*2).

Lemma length_remove_dups_le {A} `{EqDecision A} (l : list A) : length (remove_dups l) <= length l.
Proof. induction l as [|x l IH]; cbn; [done|]. destruct (decide_rel _ _ _); simpl; lia. Qed.

(** C26: in every reachable state - whatever calls are in flight - the cache
    holds at most its capacity of entries, within the byte bound (or a single
    entry), the published snapshot at most its capacity, and the two together
    at most twice the capacity; the recency list holds exactly the resident
    entries and the byte counters are the sums over them. *)
Theorem cache_bounded table capacity calls c :
  reachable_sys table capacity (calls, c) ->
  c_cap c = capacity_of capacity /\
  (Z.of_nat (size (c_m c)) <= c_cap c)%Z /\
  ((0 < c_maxBytes c)%Z -> (totalBytes (c_cnt c) <= c_maxBytes c)%Z \/ size (c_m c) <= 1) /\
  (Z.of_nat (length (retained c)) <= 2 * c_cap c)%Z /\
  (map_to_list (c_m c)).*2 ≡ₚ c_order c /\
  totalBytes (c_cnt c) = sum_over core_bytes (cores c) (c_order c) /\
  sqlBytes (c_cnt c) = sum_over (fun k => Z.of_nat (length (k_sql k))) (cores c) (c_order c).
Proof.
  intros Hr. destruct (reachable_ok table capacity _ Hr) as (HI & [Hb1 Hb2] & Hcap & _). cbn [snd] in *.
  split_and!; [done..| |apply HI|apply HI|apply HI].
  unfold retained. pose proof (length_remove_dups_le ((map_to_list (c_m c)).*2 ++ (map_to_list (default ∅ (c_fast c))).*2)) as Hl.
  rewrite length_app, !length_fmap, !length_map_to_list in Hl.
  assert (Z.of_nat (size (default ∅ (c_fast c))) <= c_cap c)%Z; [|lia].
  destruct (c_fast c) as [snap|] eqn:Ef; [by apply (inv_fast table c HI)|].
  cbn. rewrite map_size_empty. pose proof (inv_cap table c HI). lia.
Qed.

(** No call is ever blocked: every unfinished call has a step in every
    state, after each of its steps it is closer to the end - five steps at
    most - and run without interruption its steps are [entry]. *)
Theorem call_progress frags rq ph c :
  ((exists r, ph = PDone r) \/
   exists ph' c', call_step frags rq ph c = Some (ph', c') /\ steps_left ph' < steps_left ph <= 5) /\
  run_call 5 frags rq PStart c
  = Some (cache_entry (rq_style rq) (rq_query rq) frags (rq_key rq) (rq_tree rq) (rq_caps rq) c).
Proof.
  split; [|apply (run_call_entry (fun _ => frags))].
  destruct (call_step frags rq ph c) as [[ph' c']|] eqn:E; [|left; by eapply call_step_None].
  right. exists ph', c'. split; [done|].
  destruct ph as [| | |sql binds|a|a raced|r]; cbn [call_step] in E; [..|done].
  - destruct (precheck _ _ _); [destruct (lookup_fast _ _ c)|]; injection E as <- <-; simpl; lia.
  - destruct (lookup_locked _ _ c) as [[] ]; injection E as <- <-; simpl; lia.
  - destruct (ComposeTreeStyle _ _ _ _ _) as [[]|]; injection E as <- <-; simpl; lia.
  - destruct (insert_locked _ _ _ _ _ c) as [[] ]; injection E as <- <-; simpl; lia.
  - injection E as <- <-; simpl; lia.
  - injection E as <- <-; simpl; lia.
Qed.

(** C28: from every reachable state the public entry points answer as the
    composer does: [GetTreeStyle] checks the caps first, [GetBindsStyle] and
    [GetStyle] serve queries without a tree (the latter panicking where
    composition fails). *)
Theorem api_transparent table capacity calls c style q key tree caps :
  (forall q, tree_frags (table q) <= 1) -> reachable_sys table capacity (calls, c) -> Trees key = [] ->
  let keyed := mkShapeKey (Guards key) (Choices key) (Orders key) [Encode tree] (Arities key) in
  let plain := ComposeTreeStyle style (table q) key None DefaultTreeCaps in
  (GetTreeStyle style q (table q) key tree caps c).1
  = (let! _ := checkCaps tree caps in composed (table q) (mkRequest style q keyed tree caps)) /\
  (GetBindsStyle style q (table q) key c).1 = plain /\
  (GetStyle style q (table q) key c).1
  = match plain with Ok (sql, binds) => Ok (sql, Idx <$> binds) | Err _ => Err GoPanic end.
Proof.
  intros Ht Hr Hk keyed plain. destruct (reachable_ok table capacity _ Hr) as (HI & Hb & _ & _). cbn [snd] in *.
  assert (plain = composed (table q) (mkRequest style q key None DefaultTreeCaps)) as Hplain by done.
  split_and!.
  - unfold GetTreeStyle. destruct (checkCaps tree caps) as [[]|e]; [|done]. cbn [rbind].
    pose proof (cache_get_composed table Ht (mkRequest style q keyed tree caps) c HI Hb ltac:(by right)) as H.
    cbn in H. by destruct (cache_get _ _ _ _ _ _ c) as [r c'], H as [-> _].
  - unfold GetBindsStyle. rewrite Hplain.
    pose proof (cache_get_composed table Ht (mkRequest style q key None DefaultTreeCaps) c HI Hb ltac:(by left)) as H.
    cbn [rq_style rq_query rq_key rq_tree rq_caps] in H. by destruct (cache_get _ _ _ _ _ _ c) as [r c'], H as [-> _].
  - unfold GetStyle. rewrite Hplain.
    pose proof (cache_entry_ok table (mkRequest style q key None DefaultTreeCaps) c HI Hb ltac:(by left)) as H.
    cbn [rq_style rq_query rq_key rq_tree rq_caps] in H.
    destruct (cache_entry _ _ _ _ _ _ c) as [[a|e] c']; destruct H as [_ H].
    + destruct (answers_composed table Ht _ _ _ H) as (e & He & Hc & Hi). cbn [rq_query] in Hc.
      by rewrite Hc, He, <- Hi.
    + destruct H as [_ H]. cbn [rq_query] in H. by rewrite H.
Qed.

(** ** Instances

    Two calls for one shape race on a cache of capacity 1 while a third
    shape's insertion evicts and a fourth call is rejected. *)
Definition demo_table (q : bytes) : list Frag := BuildFrags Postgres.Profile demo_query.

Definition demo_tree : Tree := NewLeaf 1 [AVal (bs "7")].

Definition demo_request (ids : Z) (tree : Tree) : request :=
  mkRequest StyleDollar (bs "q") (mkShapeKey 1 [2%N] [None] [Encode tree] [ids]) tree DefaultTreeCaps.

Definition demo_schedule : list action :=
  let r1 := demo_request 1 demo_tree in
  let r2 := demo_request 1 (NewLeaf 1 []) in
  let r3 := demo_request 2 (Unscoped) in
  [New r1; New r1; New r2; New r3; Step 0; Step 1; Step 0; Step 1; Step 0; Step 1; Step 1; Step 0; Admin AStats;
   Step 1; Step 2; Step 3; Step 3; Step 3; Step 3; Step 0; Step 3; Admin (ASetMaxBytes 10); New r1; Step 4].

Definition demo_sys : sys := default ([], NewComposedCache 1) (run_schedule demo_table ([], NewComposedCache 1) demo_schedule).

Lemma demo_sys_reachable : reachable_sys demo_table 1 demo_sys.
Proof.
  eapply (schedule_reachable demo_table 1 demo_schedule); [apply reach_init|].
  destruct (run_schedule demo_table ([], NewComposedCache 1) demo_schedule) as [s|] eqn:E.
  - unfold demo_sys. by rewrite E.
  - apply (f_equal (fun o => match o with Some _ => true | None => false end)) in E. vm_compute in E. done.
Qed.

Lemma demo_table_one q : tree_frags (demo_table q) <= 1.
Proof. apply Nat.leb_le. vm_compute. reflexivity. Qed.

Lemma concurrent_transparency_witness :
  exists e, c_heap demo_sys.2 !! 0 = Some e /\
    composed (demo_table (bs "q")) (demo_request 1 demo_tree) = Ok (e_sql e, e_binds e) /\
    e_argIdx e = Idx <$> e_binds e.
Proof.
  apply (concurrent_transparency demo_table 1 demo_sys.1 demo_sys.2 1 (demo_request 1 demo_tree) (Ok 0)).
  - apply demo_table_one.
  - rewrite <- surjective_pairing. apply demo_sys_reachable.
  - vm_compute. reflexivity.
Defined.

Lemma cache_bounded_witness :
  c_cap demo_sys.2 = capacity_of 1 /\
  (Z.of_nat (size (c_m demo_sys.2)) <= c_cap demo_sys.2)%Z /\
  ((0 < c_maxBytes demo_sys.2)%Z ->
   (totalBytes (c_cnt demo_sys.2) <= c_maxBytes demo_sys.2)%Z \/ size (c_m demo_sys.2) <= 1) /\
  (Z.of_nat (length (retained demo_sys.2)) <= 2 * c_cap demo_sys.2)%Z /\
  (map_to_list (c_m demo_sys.2)).*2 ≡ₚ c_order demo_sys.2 /\
  totalBytes (c_cnt demo_sys.2) = sum_over core_bytes (cores demo_sys.2) (c_order demo_sys.2) /\
  sqlBytes (c_cnt demo_sys.2)
  = sum_over (fun k => Z.of_nat (length (k_sql k))) (cores demo_sys.2) (c_order demo_sys.2).
Proof.
  apply (cache_bounded demo_table 1 demo_sys.1). rewrite <- surjective_pairing. apply demo_sys_reachable.
Defined.

Lemma api_transparent_witness :
  let key := mkShapeKey 1 [2%N] [None] [] [1%Z] in
  let keyed := mkShapeKey 1 [2%N] [None] [Encode demo_tree] [1%Z] in
  let plain := ComposeTreeStyle StyleDollar (demo_table (bs "q")) key None DefaultTreeCaps in
  (GetTreeStyle StyleDollar (bs "q") (demo_table (bs "q")) key demo_tree DefaultTreeCaps demo_sys.2).1
  = (let! _ := checkCaps demo_tree DefaultTreeCaps in
     composed (demo_table (bs "q")) (mkRequest StyleDollar (bs "q") keyed demo_tree DefaultTreeCaps)) /\
  (GetBindsStyle StyleDollar (bs "q") (demo_table (bs "q")) key demo_sys.2).1 = plain /\
  (GetStyle StyleDollar (bs "q") (demo_table (bs "q")) key demo_sys.2).1
  = match plain with Ok (sql, binds) => Ok (sql, Idx <$> binds) | Err _ => Err GoPanic end.
Proof.
  apply (api_transparent demo_table 1 demo_sys.1 demo_sys.2 StyleDollar (bs "q")
    (mkShapeKey 1 [2%N] [None] [] [1%Z]) demo_tree DefaultTreeCaps).
  - apply demo_table_one.
  - rewrite <- surjective_pairing. apply demo_sys_reachable.
  - reflexivity.
Defined.
