(* ===== verification/Observe.v ===== *)
(** * Observe

    The usage ranking of [runtime/observe.go]: [TopShapes] lists the resident
    shapes in a total order, so equal states give equal output whatever order
    the map was walked in; and [runtime/explain.go]: the closed set of EXPLAIN
    prefixes and the rendering of SQLite's plan rows. *)

From stdpp Require Import sorting.
From S2P Require Import Prelude Dialect Postgres Template Render Tree Runtime Frags Shape Keys TreeProps Safety Cache CacheProps CacheTheorems.

Record ShapeUse := mkShapeUse { SuQuery : bytes; SuKey : bytes; SuHits : N; SuSQLBytes : nat }.

#[export] Instance ShapeUse_eq_dec : EqDecision ShapeUse.
Proof. solve_decision. Defined.

(** Go's string order: bytewise, a prefix first. *)
Fixpoint string_compare (a b : bytes) : comparison :=
  match a, b with
  | [], [] => Eq
  | [], _ => Lt
  | _, [] => Gt
  | x :: a', y :: b' =>
      match N.compare (N_of_ascii x) (N_of_ascii y) with Eq => string_compare a' b' | c => c end
  end.

(** The comparison of [sort.Slice]: hits descending, then query, key and SQL
    length ascending. *)
Definition shape_less (a b : ShapeUse) : bool :=
  if negb (N.eqb (SuHits a) (SuHits b)) then N.ltb (SuHits b) (SuHits a)
  else if negb (bool_decide (SuQuery a = SuQuery b)) then
    match string_compare (SuQuery a) (SuQuery b) with Lt => true | _ => false end
  else if negb (bool_decide (SuKey a = SuKey b)) then
    match string_compare (SuKey a) (SuKey b) with Lt => true | _ => false end
  else Nat.ltb (SuSQLBytes a) (SuSQLBytes b).

(** [sort.Slice] leaves the elements in some order no later element of which
    is less than an earlier one. *)
Definition shape_leq (a b : ShapeUse) : Prop := shape_less b a = false.

#[export] Instance shape_leq_dec a b : Decision (shape_leq a b).
Proof. unfold shape_leq. apply _. Defined.

Definition shape_use (c : ComposedCache) (a : nat) : option ShapeUse :=
  (fun e => mkShapeUse (e_query e) (ShapeKey_String (e_key e)) (e_hits e) (length (e_sql e))) <$> c_heap c !! a.

Definition TopShapes (n : Z) (c : ComposedCache) : list ShapeUse * ComposedCache :=
  let c := set_obs (c_obs c) true c in
  if Z.leb n 0 then ([], c)
  else
    let all := omap (shape_use c) (map_to_list (c_m c)).*2 in
    (take (Z.to_nat n) (merge_sort shape_leq all), c).

(** ** Orderings *)
Record ordering {A} (cmp : A -> A -> comparison) : Prop := {
  cmp_eq x y : cmp x y = Eq <-> x = y;
  cmp_opp x y : cmp y x = CompOpp (cmp x y);
  cmp_lt x y z : cmp x y = Lt -> cmp y z = Lt -> cmp x z = Lt;
}.

Definition lex {A B} (ca : A -> A -> comparison) (cb : B -> B -> comparison) (x y : A * B) : comparison :=
  match ca x.1 y.1 with Eq => cb x.2 y.2 | c => c end.

Lemma lex_ordering {A B} (ca : A -> A -> comparison) (cb : B -> B -> comparison) :
  ordering ca -> ordering cb -> ordering (lex ca cb).
Proof.
  intros [ea oa la] [eb ob lb]. split.
  - intros [a1 b1] [a2 b2]. unfold lex. cbn. pose proof (ea a1 a2). pose proof (eb b1 b2).
    destruct (ca a1 a2); naive_solver.
  - intros [a1 b1] [a2 b2]. unfold lex. cbn. rewrite (oa a1 a2), (ob b1 b2). by destruct (ca a1 a2).
  - intros [a1 b1] [a2 b2] [a3 b3]. unfold lex. cbn.
    destruct (ca a1 a2) eqn:E1; [apply ea in E1 as ->|..|done].
    + destruct (ca a2 a3); [apply lb|done..].
    + intros _. destruct (ca a2 a3) eqn:E2; [apply ea in E2 as <-; by rewrite E1| |done].
      by rewrite (la _ _ _ E1 E2).
Qed.

Lemma nat_ordering : ordering Nat.compare.
Proof.
  split; [apply Nat.compare_eq_iff|intros; apply Nat.compare_antisym|].
  intros x y z. rewrite !Nat.compare_lt_iff. lia.
Qed.

Lemma hits_ordering : ordering (fun x y => N.compare y x).
Proof.
  split.
  - intros x y. rewrite N.compare_eq_iff. naive_solver.
  - intros x y. apply N.compare_antisym.
  - intros x y z. rewrite !N.compare_lt_iff. lia.
Qed.

Lemma string_ordering : ordering string_compare.
Proof.
  split.
  - intros x. induction x as [|a x IH]; intros [|b y]; cbn [string_compare]; try done.
    destruct (N.compare_spec (N_of_ascii a) (N_of_ascii b)) as [H|H|H].
    + rewrite IH. apply (f_equal ascii_of_N) in H. rewrite !ascii_N_embedding in H. naive_solver.
    + split; [done|]. intros [= -> ->]. lia.
    + split; [done|]. intros [= -> ->]. lia.
  - intros x. induction x as [|a x IH]; intros [|b y]; cbn [string_compare]; try done.
    rewrite (N.compare_antisym (N_of_ascii a)), (IH y). by destruct (N.compare (N_of_ascii a) (N_of_ascii b)).
  - intros x. induction x as [|a x IH]; intros [|b y] [|c z]; cbn [string_compare]; try done.
    destruct (N.compare_spec (N_of_ascii a) (N_of_ascii b)) as [H1|H1|H1], (N.compare_spec (N_of_ascii b) (N_of_ascii c)) as [H2|H2|H2];
      try done; destruct (N.compare_spec (N_of_ascii a) (N_of_ascii c)); try lia; try done. apply IH.
Qed.

Definition use_key (u : ShapeUse) : N * (bytes * (bytes * nat)) := (SuHits u, (SuQuery u, (SuKey u, SuSQLBytes u))).

Definition use_compare : N * (bytes * (bytes * nat)) -> N * (bytes * (bytes * nat)) -> comparison :=
  lex (fun x y => N.compare y x) (lex string_compare (lex string_compare Nat.compare)).

Lemma use_ordering : ordering use_compare.
Proof. repeat apply lex_ordering; auto using nat_ordering, hits_ordering, string_ordering. Qed.

Lemma shape_less_compare a b : shape_less a b = true <-> use_compare (use_key a) (use_key b) = Lt.
Proof.
  unfold shape_less, use_compare, use_key, lex. cbn [fst snd].
  pose proof (cmp_eq _ string_ordering (SuQuery a) (SuQuery b)) as Hq.
  pose proof (cmp_eq _ string_ordering (SuKey a) (SuKey b)) as Hk.
  destruct (N.eqb_spec (SuHits a) (SuHits b)) as [->|Hn]; cbn [negb].
  - rewrite N.compare_refl. case_bool_decide as Eq1; cbn [negb].
    + rewrite (proj2 Hq Eq1). case_bool_decide as Eq2; cbn [negb].
      * rewrite (proj2 Hk Eq2). by rewrite Nat.ltb_lt, Nat.compare_lt_iff.
      * destruct (string_compare (SuKey a) (SuKey b)); naive_solver.
    + destruct (string_compare (SuQuery a) (SuQuery b)); naive_solver.
  - rewrite N.ltb_lt. destruct (N.compare_spec (SuHits b) (SuHits a)); split; done || lia.
Qed.

#[export] Instance shape_leq_total : Total shape_leq.
Proof.
  intros a b. unfold shape_leq. destruct (shape_less b a) eqn:E1; [|by left].
  right. apply not_true_iff_false. rewrite shape_less_compare in *. intros E2.
  rewrite (cmp_opp _ use_ordering), E1 in E2. done.
Qed.

Lemma shape_leq_cases a b : shape_leq a b <-> use_compare (use_key a) (use_key b) = Lt \/ a = b.
Proof.
  unfold shape_leq. rewrite <- not_true_iff_false, shape_less_compare, (cmp_opp _ use_ordering (use_key a)).
  destruct (use_compare (use_key a) (use_key b)) eqn:E; cbn.
  - split; [|done]. intros _. right. apply (cmp_eq _ use_ordering) in E. destruct a, b. by injection E as -> -> -> ->.
  - split; [by left|done].
  - split; [done|]. intros [?| ->]; [done|].
    by rewrite (proj2 (cmp_eq _ use_ordering (use_key b) (use_key b)) eq_refl) in E.
Qed.

#[export] Instance shape_leq_trans : Transitive shape_leq.
Proof.
  intros a b c. rewrite !shape_leq_cases. intros [H1| ->] [H2| ->]; auto.
  left. by eapply (cmp_lt _ use_ordering).
Qed.

#[export] Instance shape_leq_antisymm : AntiSymm eq shape_leq.
Proof.
  intros a b. rewrite !shape_leq_cases. intros [H1|?] [H2|?]; [|done..].
  rewrite (cmp_opp _ use_ordering), H1 in H2. done.
Qed.

(** The resident shapes, in the order the map is walked in. *)
Definition resident (c : ComposedCache) : list ShapeUse := omap (shape_use c) (map_to_list (c_m c)).*2.

(** The ranking is the [n] first of the resident shapes in the documented
    order and nothing else: what it lists precedes everything it leaves out,
    and whatever permutation of the resident shapes the map walk and the sort
    produce, the answer is the same. *)
Theorem top_shapes_ranking n c :
  (0 < n)%Z ->
  let top := (TopShapes n c).1 in
  (exists rest, top ++ rest ≡ₚ resident c /\ StronglySorted shape_leq (top ++ rest) /\
     length top = min (Z.to_nat n) (length (resident c))) /\
  (forall sorted, sorted ≡ₚ resident c -> Sorted shape_leq sorted -> top = take (Z.to_nat n) sorted).
Proof.
  intros Hn. unfold TopShapes. destruct (Z.leb_spec n 0); [lia|]. cbn [fst].
  change (omap (shape_use (set_obs (c_obs c) true c)) (map_to_list (c_m (set_obs (c_obs c) true c))).*2)
    with (resident c).
  pose proof (merge_sort_Permutation shape_leq (resident c)) as Hp.
  pose proof (StronglySorted_merge_sort shape_leq (resident c)) as Hs. split.
  - exists (drop (Z.to_nat n) (merge_sort shape_leq (resident c))). rewrite take_drop.
    split_and!; [done|done|]. by rewrite length_take, Hp.
  - intros sorted Hp' Hs'. f_equal. eapply (StronglySorted_unique shape_leq); [done| |by rewrite Hp, Hp'].
    by apply (Sorted_StronglySorted _).
Qed.

Lemma top_shapes_ranking_witness :
  let top := (TopShapes 1 demo_sys.2).1 in
  (exists rest, top ++ rest ≡ₚ resident demo_sys.2 /\ StronglySorted shape_leq (top ++ rest) /\
     length top = min (Z.to_nat 1) (length (resident demo_sys.2))) /\
  (forall sorted, sorted ≡ₚ resident demo_sys.2 -> Sorted shape_leq sorted -> top = take (Z.to_nat 1) sorted).
Proof. apply (top_shapes_ranking 1 demo_sys.2). lia. Defined.


(** ** EXPLAIN

    [ExplainDialect] is a byte; no [ExplainOther] stands for the values 1 to 3,
    and a format is [ExplainText], [ExplainJSON] or any other byte. *)
Inductive ExplainDialect := ExplainPostgres | ExplainMySQL | ExplainSQLite | ExplainOther (d : N).
#[export] Instance ExplainDialect_eq_dec : EqDecision ExplainDialect.
Proof. solve_decision. Defined.

Definition ExplainText : N := 0.
Definition ExplainJSON : N := 1.

Record ExplainOptions := mkExplainOptions { ExAnalyze : bool; ExFormat : N }.

(** [ErrExplainUnsupported] and what is said of it. *)
Inductive ExplainError :=
  | UnsupportedFormat (d : ExplainDialect) (format : N) | NoAnalyze (d : ExplainDialect) | UnsupportedPlan (format : N)
  | MarshalFailed (why : bytes).

(** [explainPrefixes]: without ANALYZE, text and JSON, then with it. *)
Definition explainPrefixes (d : ExplainDialect) : option ((bytes * bytes) * (bytes * bytes)) :=
  match d with
  | ExplainPostgres =>
      Some ((bs "EXPLAIN ", bs "EXPLAIN (FORMAT JSON) "), (bs "EXPLAIN (ANALYZE) ", bs "EXPLAIN (ANALYZE, FORMAT JSON) "))
  | ExplainMySQL =>
      Some ((bs "EXPLAIN FORMAT=TREE ", bs "EXPLAIN FORMAT=JSON "), (bs "EXPLAIN ANALYZE ", bs "EXPLAIN ANALYZE FORMAT=JSON "))
  | ExplainSQLite => Some ((bs "EXPLAIN QUERY PLAN ", bs "EXPLAIN QUERY PLAN "), ([], []))
  | ExplainOther _ => None
  end.

Definition ExplainStatement (d : ExplainDialect) (opts : ExplainOptions) (sql : bytes) : result ExplainError bytes :=
  match explainPrefixes d with
  | Some table =>
      if N.ltb ExplainJSON (ExFormat opts) then Err (UnsupportedFormat d (ExFormat opts))
      else
        let row := if ExAnalyze opts then table.2 else table.1 in
        match (if N.eqb (ExFormat opts) ExplainText then row.1 else row.2) with
        | [] => Err (NoAnalyze d)
        | prefix => Ok (prefix ++ sql)
        end
  | None => Err (UnsupportedFormat d (ExFormat opts))
  end.

Record SQLitePlanRow := mkPlanRow { PrID : Z; PrParent : Z; PrDetail : bytes }.

(** One row: its depth, and the depths of the rows so far by id. *)
Definition plan_depth (depth : gmap Z nat) (r : SQLitePlanRow) : nat :=
  match depth !! PrParent r with Some pd => S pd | None => 0 end.
Fixpoint plan_depths (depth : gmap Z nat) (rows : list SQLitePlanRow) : list nat :=
  match rows with
  | [] => []
  | r :: rows => let d := plan_depth depth r in d :: plan_depths (<[PrID r := d]> depth) rows
  end.

(** [json.Marshal] is an argument. *)
Definition SQLitePlan (Marshal : list SQLitePlanRow -> result bytes bytes) (rows : list SQLitePlanRow) (format : N)
    : result ExplainError bytes :=
  if N.eqb format ExplainText then
    Ok (join [c_lf] (zip_with (fun d r => concat (repeat (bs "  ") d) ++ PrDetail r) (plan_depths ∅ rows) rows))
  else if N.eqb format ExplainJSON then
    match Marshal rows with Ok b => Ok b | Err why => Err (MarshalFailed why) end
  else Err (UnsupportedPlan format).

(** The statement sent is one of the constant prefixes and the composed SQL;
    only the dialects, the two formats and, but for SQLite, ANALYZE are served. *)
Lemma ExplainStatement_spec d opts sql :
  match ExplainStatement d opts sql with
  | Ok s => exists prefix, prefix <> [] /\ s = prefix ++ sql /\ ExplainStatement d opts [] = Ok prefix
  | Err e => (exists n, d = ExplainOther n) \/ (ExplainJSON < ExFormat opts)%N \/ (d = ExplainSQLite /\ ExAnalyze opts = true)
  end.
Proof.
  unfold ExplainStatement. destruct (explainPrefixes d) as [table|] eqn:Ed; [|left; destruct d; try done; by eexists].
  destruct (N.ltb_spec ExplainJSON (ExFormat opts)) as [Hf|Hf]; [by right; left|].
  destruct (if (ExFormat opts =? ExplainText)%N then _ else _) as [|b l] eqn:Ep; [|exists (b :: l); split_and!; [done|done|by rewrite app_nil_r]].
  right. right. destruct d; try discriminate; injection Ed as <-; destruct (ExAnalyze opts), (ExFormat opts =? ExplainText)%N; by cbn in Ep.
Qed.

(** The parent of a row is the last earlier row with its id. *)
Definition plan_parent (rows : list SQLitePlanRow) (i j : nat) : Prop :=
  j < i /\ exists r p, rows !! i = Some r /\ rows !! j = Some p /\ PrID p = PrParent r /\
    forall k x, j < k < i -> rows !! k = Some x -> PrID x <> PrParent r.

Lemma plan_depths_spec rows : forall (seen : list SQLitePlanRow) (ds : list nat) depth, length ds = length seen ->
  (forall id, depth !! id = None <-> forall x, x ∈ seen -> PrID x <> id) ->
  (forall id d, depth !! id = Some d -> exists j p, seen !! j = Some p /\ ds !! j = Some d /\ PrID p = id /\
     forall k x, j < k -> seen !! k = Some x -> PrID x <> id) ->
  forall i d, length seen <= i -> (ds ++ plan_depths depth rows) !! i = Some d ->
  (exists j pd, plan_parent (seen ++ rows) i j /\ (ds ++ plan_depths depth rows) !! j = Some pd /\ d = S pd) \/
  (d = 0 /\ forall j, ~ plan_parent (seen ++ rows) i j).
Proof.
  induction rows as [|r rows IH]; intros seen ds depth Hlen Hnone Hsome i d Hi; cbn [plan_depths].
  { rewrite app_nil_r. intros H%lookup_lt_Some. lia. }
  set (d0 := plan_depth depth r).
  destruct (decide (i = length seen)) as [->|Hne].
  - rewrite (lookup_app_r ds), Hlen, Nat.sub_diag by lia. intros [= <-].
    assert ((seen ++ r :: rows) !! length seen = Some r) as Er by (by rewrite lookup_app_r, Nat.sub_diag).
    unfold d0, plan_depth. destruct (depth !! PrParent r) as [pd|] eqn:Ed.
    + left. destruct (Hsome _ _ Ed) as (j & p & Hj & Hd & Hp & Hl). pose proof (lookup_lt_Some _ _ _ Hj) as Hlt.
      exists j, pd. split_and!; [|by rewrite lookup_app_l by lia|done]. split; [done|]. exists r, p.
      split_and!; [done|by rewrite lookup_app_l|done|]. intros k x [Hk Hk'] Hx. rewrite lookup_app_l in Hx by done. by apply (Hl k).
    + right. split; [done|]. intros j (Hj & r' & p & Hr & Hp & Hid & _). assert (r' = r) as -> by congruence.
      rewrite lookup_app_l in Hp by done. apply (proj1 (Hnone _) Ed p); [by eapply list_elem_of_lookup_2|done].
  - intros H. change (ds ++ d0 :: plan_depths (<[PrID r := d0]> depth) rows) with (ds ++ [d0] ++ plan_depths (<[PrID r := d0]> depth) rows) in *.
    change (seen ++ r :: rows) with (seen ++ [r] ++ rows). rewrite (assoc_L (++) ds) in H. rewrite (assoc_L (++) ds), (assoc_L (++) seen).
    apply (IH (seen ++ [r]) (ds ++ [d0])); try (rewrite !length_app; cbn; lia); [| |exact H].
    + intros id. rewrite lookup_insert_None, Hnone. set_solver.
    + intros id d1. rewrite lookup_insert_Some. intros [[<- <-]|[Hid Hd]].
      * exists (length seen), r. split_and!; [by rewrite lookup_app_r, Nat.sub_diag|by rewrite lookup_app_r, Hlen, Nat.sub_diag by lia|done|].
        intros k x Hk Hx%lookup_lt_Some. rewrite length_app in Hx. cbn in Hx. lia.
      * destruct (Hsome _ _ Hd) as (j & p & Hj & Hdj & Hp & Hl). exists j, p.
        split_and!; [by apply lookup_app_l_Some|by apply lookup_app_l_Some|done|]. intros k x Hk Hx.
        apply lookup_app_Some in Hx as [Hx|[_ Hx]]; [by apply (Hl k)|]. apply list_lookup_singleton_Some in Hx as [_ <-]. done.
Qed.

(** A row of a plan is one deeper than its parent; one whose parent has not
    appeared is a root. *)
Lemma plan_depths_exact rows i d : plan_depths ∅ rows !! i = Some d ->
  (exists j pd, plan_parent rows i j /\ plan_depths ∅ rows !! j = Some pd /\ d = S pd) \/ (d = 0 /\ forall j, ~ plan_parent rows i j).
Proof.
  intros H. apply (plan_depths_spec rows [] [] ∅); [done| | |cbn; lia|exact H].
  - intros id. rewrite lookup_empty. set_solver.
  - intros id d1. by rewrite lookup_empty.
Qed.
