(* ===== verification/Conformance.v ===== *)
(** * Conformance

    The central promise of the program: the SQL the runtime composes from the
    generated fragment table is, byte for byte, the SQL the compiler rendered
    and verified, and its bind plan names the same parameter at every
    placeholder.  Each item kind is one lemma [render_..._rel]; [items_rel] is
    the simulation between the loop of [renderCore] and the loop of
    [ComposeTreeStyle] over the table [BuildFrags] builds. *)

From S2P Require Import Prelude Dialect Template Render Tree Runtime Frags Simulation.

(** ** Items *)

(** How a selection of the renderer and a key of the composer correspond. *)
Record agrees (profile : LexerProfile) (q : QueryTemplate) (s : selection) (key : ShapeKey)
    (tree : Tree) (caps : TreeCaps) : Prop := {
  ag_active v : IIfPresent v ∈ QItems q ->
    s_active s v = N.eqb (N.land (Guards key) (guard_mask (guard_bits q) (IPGuards v)))
                     (guard_mask (guard_bits q) (IPGuards v));
  ag_choose i c : omap as_choose (QItems q) !! i = Some c ->
    default 0 (s_cases s !! i) = N.to_nat (default 0%N (Choices key !! i)) /\
    (ChDefault c = None \/ default 0 (s_cases s !! i) < maxOrdinal c);
  ag_orders i : mjoin (s_orders s !! i) = mjoin (Orders key !! i);
  ag_ins i : question profile = true ->
    (s_ins s !! i = Some 0%N /\ Arities key !! i = Some 0%Z) \/
    (s_ins s !! i <> Some 0%N /\ default 1%Z (Arities key !! i) = 1%Z);
  ag_tree ft : IFilterTree ft ∈ QItems q ->
    (s_trees s !! 0 = Some 0%N /\ tree = None) \/
    (s_trees s !! 0 <> Some 0%N /\ tree = maximal_tree q /\
     2 <= length (FtPredicates ft) /\ checkCaps tree caps = Ok tt);
}.

Section items.
Context {profile : LexerProfile} {Laws : LexerLaws profile}.
Context (q : QueryTemplate) (s : selection) (key : ShapeKey) (tree : Tree) (caps : TreeCaps).
Hypothesis Hwf : wf_query profile q = true.
Hypothesis Hag : agrees profile q s key tree caps.

Abbreviation style := (style_of profile).
Abbreviation params := (QParamOrder q).
Abbreviation tparams := (tree_params q).
Abbreviation pidx := (index_map params).
Abbreviation rel := (Rel (profile := profile) params tparams).

Lemma wf_facts :
  NoDup params /\ (Z.of_nat (length params) <= 32767)%Z /\
  length (QGuardAtoms q) <= MaxGuards /\ tree_count q <= 1 /\
  (style = StyleDollar -> NoDup tparams) /\ (Z.of_nat (length tparams) <= 32767)%Z /\
  forall it, it ∈ QItems q -> item_wf profile q it = true.
Proof.
  pose proof Hwf as H. unfold wf_query in H. rewrite !andb_true_iff in H.
  destruct H as [[[[[[H1 H2] H3] H4] H5] H6] H7].
  apply bool_decide_eq_true in H1. apply N.leb_le in H2, H6. apply Nat.leb_le in H3, H4.
  unfold MaxParams in H2. split_and!; [done|lia|done|done| |lia|].
  - unfold style_of. destruct (question profile); [done|]. intros _.
    by apply bool_decide_eq_true in H5.
  - rewrite forallb_forall in H7. intros it Hit. by apply H7, list_elem_of_In.
Qed.

Lemma params_NoDup : NoDup params.
Proof. apply wf_facts. Qed.

Lemma tparams_NoDup : style = StyleDollar -> NoDup tparams.
Proof. apply wf_facts. Qed.

Hint Resolve params_NoDup tparams_NoDup : core.

Lemma struct_name_bind n e :
  n ∈ struct_names profile q -> (style = StyleDollar -> e = 0%Z) ->
  exists i, pidx !! n = Some i /\ i16 (0 + i) = i /\
    good_bind (profile := profile) params tparams (mkBind false i e) n.
Proof.
  intros Hn He. assert (n ∈ params /\ (style = StyleDollar -> ~ n ∈ tparams)) as [Hp Ht].
  { unfold struct_names in Hn. unfold style_of. destruct (question profile).
    - split; [done|done].
    - apply list_elem_of_filter in Hn as [Hn1 Hn2]. by split. }
  apply list_elem_of_lookup in Hp as [i Hi]. exists (i16 (Z.of_nat i)).
  pose proof (lookup_lt_Some _ _ _ Hi). destruct wf_facts as (_ & Hlen & _).
  split; [apply index_map_lookup; eauto|]. rewrite !i16_id by (rewrite ?i16_id; lia).
  split; [lia|]. unfold good_bind, canonical. cbn [Elem FromTree].
  rewrite bind_source_nat, Hi. split; [done|]. intros Hst. split; [by apply He|].
  intros _ m [= <-]. by apply Ht.
Qed.

Lemma binds_within_ok text :
  binds_within profile (struct_names profile q) text = true ->
  text_ok (profile := profile) params tparams pidx false 0 text.
Proof.
  unfold binds_within. intros [Hs Hall]%andb_prop. split; [done|]. intros t Ht Hk.
  rewrite forallb_forall in Hall. apply list_elem_of_In in Ht. specialize (Hall t Ht).
  apply bool_decide_eq_true in Hall. specialize (Hall Hk).
  destruct (struct_name_bind _ 0 Hall ltac:(done)) as (i & Hi & Hw & Hg).
  exists i. by rewrite Hw.
Qed.

Lemma case_rel body tOff r r' co :
  binds_within profile (struct_names profile q) body = true -> rel r co ->
  emitVerbatim profile body tOff r = Ok r' ->
  exists co', emit_case style (build_case profile pidx body) co = Ok co' /\ rel r' co' /\
    co_base co' = co_base co.
Proof. intros Hb HR He. eapply emit_case_rel; eauto using binds_within_ok. Qed.

(** An empty body emits nothing on either side. *)
Lemma case_empty co : emit_case style (build_case profile pidx []) co = Ok co.
Proof.
  unfold build_case, paramSpans.
  assert (tokens [] = ([], None)) as -> by (unfold tokens; simpl; by rewrite lex_eof by done).
  simpl. unfold emit_case, emit, emitFrom. simpl. unfold write, slice. simpl.
  rewrite app_nil_r. by destruct co.
Qed.

Lemma case_rel' body tOff r r' co :
  binds_within profile (struct_names profile q) body = true -> rel r co ->
  match body with [] => Ok r | _ => emitVerbatim profile body tOff r end = Ok r' ->
  exists co', emit_case style (build_case profile pidx body) co = Ok co' /\ rel r' co' /\
    co_base co' = co_base co.
Proof.
  destruct body as [|c body]; [|by apply case_rel]. intros _ HR [= <-].
  exists co. by rewrite case_empty.
Qed.

Lemma render_ifpresent_rel v r r' co :
  IIfPresent v ∈ QItems q -> rel r co -> render_ifpresent profile v r = Ok r' ->
  exists co', compose_guarded style
      (build_frag profile (guard_bits q) pidx (IIfPresent v)) co = Ok co' /\
    rel r' co' /\ co_base co' = co_base co.
Proof.
  intros Hin HR. destruct wf_facts as (_ & _ & _ & _ & _ & _ & Hit). specialize (Hit _ Hin).
  simpl in Hit. apply andb_prop in Hit as [Hb _].
  unfold render_ifpresent. intros (r3 & Hr3 & Hr')%rbind_ok. injection Hr' as <-.
  unfold emitVerbatim in Hr3. unfold compose_guarded, build_frag.
  destruct (paramSpans profile (IPBody v) pidx) as [spans idx] eqn:Ep. simpl.
  assert (rel (match IPSep v with
      | Template.SepNone => emitSynth [c_lf] (SStart (IPSpan v)) r
      | Template.SepAnd => emitSynth (bs "AND (") (SStart (IPSpan v)) (emitSynth [c_lf] (SStart (IPSpan v)) r)
      | Template.SepComma => emitSynth (bs ", ") (SStart (IPSpan v)) (emitSynth [c_lf] (SStart (IPSpan v)) r)
      end)
    (match lower_sep (IPSep v) with
     | SepNone => write [c_lf] co
     | SepAnd => write (bs "AND (") (write [c_lf] co)
     | SepComma => write (bs ", ") (write [c_lf] co)
     end)) as HR2 by (destruct (IPSep v); cbn [lower_sep]; auto using Rel_synth).
  destruct (emitText_rel _ _ params_NoDup tparams_NoDup _ _ _ _ _ _ _ _ _
    (binds_within_ok _ Hb) HR2 Hr3) as (co' & He & HR3 & Hbase).
  rewrite Ep in He. simpl in He. unfold emit. rewrite He. simpl. eexists. split; [done|].
  assert (co_base co' = co_base co) as Hb' by (rewrite Hbase; by destruct (IPSep v)).
  destruct (IPSep v); cbn [lower_sep]; (split; [|done]);
    repeat case_decide; try done; auto using Rel_frag, Rel_synth, Rel_push.
Qed.

Lemma render_choose_rel v i r r' co :
  IChoose v ∈ QItems q -> omap as_choose (QItems q) !! i = Some v -> rel r co ->
  render_choose profile v (default 0 (s_cases s !! i)) r = Ok r' ->
  exists co', compose_choose style (build_frag profile (guard_bits q) pidx (IChoose v))
      (N.to_nat (default 0%N (Choices key !! i))) co = Ok co' /\
    rel r' co' /\ co_base co' = co_base co.
Proof.
  intros Hin Hi HR. destruct (ag_choose _ _ _ _ _ _ Hag i v Hi) as [Hord Hlt].
  rewrite <- Hord. set (ord := default 0 (s_cases s !! i)) in *.
  destruct wf_facts as (_ & _ & _ & _ & _ & _ & Hit). specialize (Hit _ Hin). simpl in Hit.
  apply andb_prop in Hit as [Hcases Hdef]. rewrite forallb_forall in Hcases.
  unfold render_choose, caseBody, compose_choose, build_frag. cbn [FCases].
  assert (rel (emitSynth [c_lf] (SStart (ChSpan v)) r) (write [c_lf] co)) as HR1
    by by apply Rel_synth.
  assert (forall (body : bytes) tOff r2, binds_within profile (struct_names profile q) body = true ->
    (let! r2 := match body with
               | [] => Ok (emitSynth [c_lf] (SStart (ChSpan v)) r)
               | _ => emitVerbatim profile body tOff (emitSynth [c_lf] (SStart (ChSpan v)) r)
               end in
     Ok (add_frag (IChoose v) (length (r_sb (emitSynth [c_lf] (SStart (ChSpan v)) r))) r2)) = Ok r2 ->
    exists co', emit_case style (build_case profile pidx body) (write [c_lf] co) = Ok co' /\
      rel r2 co' /\ co_base co' = co_base co) as Hbody.
  { intros body tOff r2 Hb (r3 & H3 & H4)%rbind_ok. injection H4 as <-.
    destruct (case_rel' _ _ _ _ _ Hb HR1 H3) as (co' & ? & ? & ?). eauto using Rel_frag. }
  destruct (ChCases v !! ord) as [cs|] eqn:Ec.
  - intros H. apply Hbody in H. 2: { by apply Hcases, list_elem_of_In, (list_elem_of_lookup_2 _ ord). }
    destruct H as (co' & He & ?). exists co'. split; [|done].
    assert (((fun cs => build_case profile pidx (CCBody cs)) <$> ChCases v) !! ord
      = Some (build_case profile pidx (CCBody cs))) as Hl by by rewrite list_lookup_fmap, Ec.
    destruct (ChDefault v); [by rewrite (lookup_app_l_Some _ _ _ _ Hl)|by rewrite Hl].
  - apply lookup_ge_None in Ec. destruct (ChDefault v) as [d|] eqn:Ed.
    + destruct Hlt as [|Hlt]; [done|]. unfold maxOrdinal in Hlt. rewrite Ed in Hlt.
      assert (ord = length (ChCases v)) as Ho by lia.
      rewrite lookup_app_r by (rewrite length_fmap; lia).
      rewrite length_fmap, Ho, Nat.sub_diag. simpl. by apply Hbody.
    + simpl. intros [= <-].
      rewrite lookup_ge_None_2 by (rewrite length_fmap; lia).
      eexists. split_and!; [done|by apply Rel_frag|done].
Qed.

Lemma render_orderby_rel v seq r r' co :
  IOrderBy v ∈ QItems q -> rel r co -> render_orderby profile v seq r = Ok r' ->
  exists co', compose_order style (build_frag profile (guard_bits q) pidx (IOrderBy v)) seq co
      = Ok co' /\ rel r' co' /\ co_base co' = co_base co.
Proof.
  intros Hin HR. destruct wf_facts as (_ & _ & _ & _ & _ & _ & Hit). specialize (Hit _ Hin).
  simpl in Hit. apply andb_prop in Hit as [Hkeys Hdef]. rewrite forallb_forall in Hkeys.
  unfold render_orderby. intros (r2 & Hr2 & Hr')%rbind_ok. injection Hr' as <-.
  enough (exists co', compose_order style
      (build_frag profile (guard_bits q) pidx (IOrderBy v)) seq co = Ok co' /\
    rel r2 co' /\ co_base co' = co_base co) as (co' & ? & ? & ?) by eauto using Rel_frag.
  assert (rel (emitSynth [c_lf] (SStart (ObSpan v)) r) (write [c_lf] co)) as HR1
    by by apply Rel_synth.
  assert (rel (emitSynth (bs "ORDER BY ") (SStart (ObSpan v)) (emitSynth [c_lf] (SStart (ObSpan v)) r))
    (write (bs "ORDER BY ") (write [c_lf] co))) as HR2 by by apply Rel_synth.
  unfold compose_order, build_frag. cbn [FCases FDefault].
  destruct seq as [[|e es]|].
  - destruct (ObDefault v) as [d|]; [|injection Hr2 as <-; eauto].
    destruct (CCBody d) as [|c body] eqn:Eb; [injection Hr2 as <-; eauto|].
    unfold build_case. destruct (paramSpans profile (c :: body) pidx) as [sp ix] eqn:Ep.
    cbn [CText]. rewrite <- Eb in *.
    assert (mkCase (CCBody d) sp ix = build_case profile pidx (CCBody d)) as ->
      by (unfold build_case; by rewrite Ep).
    destruct (case_rel _ _ _ _ _ Hdef HR1 Hr2) as (co' & ? & ? & ?). eauto.
  - eapply (emit_list_rel params tparams _ _ _ (fun e co =>
        let! c := or_err (((fun k => build_case profile pidx (OKBody k)) <$> ObKeys v)
          !! N.to_nat (N.shiftr e 1)) GoPanic in
        let! co := emit_case style c co in
        Ok (if N.testbit e 0 then write (bs " DESC") co else co)) true (e :: es) (e :: es))
      in Hr2 as (co' & ? & ? & ?); [eauto| |done].
    apply Forall_Forall2_diag, Forall_forall. intros x _ r0 r0' co0 HR0 Hx.
    unfold emit_key, key_index in Hx. rewrite list_lookup_fmap.
    destruct (ObKeys v !! N.to_nat (N.shiftr x 1)) as [k|] eqn:Ek; [|done]. simpl in *.
    apply rbind_ok in Hx as (r3 & H3 & H4). injection H4 as <-.
    destruct (case_rel (OKBody k) _ _ _ _ ltac:(by apply Hkeys, list_elem_of_In,
      (list_elem_of_lookup_2 _ _ _ Ek)) HR0 H3) as (co1 & He & HR3 & Hb).
    rewrite He. simpl. eexists. split; [done|]. unfold key_desc.
    destruct (N.testbit x 0); [|done]. split; [by apply Rel_push|done].
  - eapply (emit_list_rel params tparams _ _ _ (emit_case style) true (ObKeys v)
      ((fun k => build_case profile pidx (OKBody k)) <$> ObKeys v))
      in Hr2 as (co' & ? & ? & ?); [eauto| |done].
    apply Forall2_fmap_r, Forall_Forall2_diag, Forall_forall. intros k Hk r0 r0' co0 HR0 Hx.
    apply (case_rel (OKBody k) (SStart (OKSpan k)) r0 r0' co0); [|done|done].
    by apply (Hkeys k).
Qed.

Lemma in_index v : IInExpr v ∈ QItems q -> (style = StyleDollar -> True) ->
  exists i, pidx !! InParam v = Some i /\
    forall e, (style = StyleDollar -> e = 0%Z) ->
    good_bind (profile := profile) params tparams (mkBind false i e) (InParam v).
Proof.
  intros Hin _. destruct wf_facts as (_ & _ & _ & _ & _ & _ & Hit). specialize (Hit _ Hin).
  simpl in Hit. apply bool_decide_eq_true in Hit.
  destruct (struct_name_bind _ 0 Hit ltac:(done)) as (i & Hi & _ & Hg). exists i. split; [done|].
  intros e He. by destruct (struct_name_bind _ e Hit He) as (i' & Hi' & _ & Hg'); simplify_eq.
Qed.

(** One placeholder between two separators. *)
Lemma in_place_rel v pre r co i e :
  rel r co -> good_bind (profile := profile) params tparams (mkBind false i e) (InParam v) ->
  let anchor := SStart (InSpan v) in
  rel (emitSynth (bs ")") anchor (emitParamRef profile (InParam v) anchor (emitSynth pre anchor r)))
    (write (bs ")") (place style (mkBind false i e) (write pre co))) /\
  co_base (place style (mkBind false i e) (write pre co)) = co_base co.
Proof.
  intros HR Hg anchor. unfold emitParamRef.
  destruct (Rel_place params tparams params_NoDup tparams_NoDup (emitSynth pre anchor r)
    (write pre co) (InParam v) (mkBind false i e) (Rel_synth _ _ _ _ _ _ HR) Hg)
    as (ph & _ & Hbase & Hph & HR2).
  destruct (placeholder profile _ _) as [ph' r2]. simpl in Hph, HR2. subst ph'.
  split; [by apply Rel_synth|done].
Qed.

Lemma render_in_rel v inIdx st r :
  IInExpr v ∈ QItems q -> rel r (cs_co st) -> (question profile = true -> cs_in st = inIdx) ->
  exists co', compose_frag style key tree caps st
      (build_frag profile (guard_bits q) pidx (IInExpr v))
    = Ok (mkCState co' (cs_choose st) (cs_order st)
            (if question profile then cs_in st + 1 else cs_in st)) /\
    rel (render_in profile v inIdx (s_ins s) r) co' /\ co_base co' = co_base (cs_co st).
Proof.
  intros Hin HR Hidx. destruct (in_index v Hin ltac:(done)) as (i & Hi & Hg).
  unfold build_frag, render_in. rewrite Hi. cbn [default from_option].
  destruct (question profile) eqn:Hq; cbn [negb].
  - assert (style = StyleQuestion) as Est by (unfold style_of; by rewrite Hq).
    rewrite decide_True by by apply bool_decide_eq_true in Hq.
    specialize (Hidx eq_refl). subst inIdx. unfold compose_frag. cbn [FKind FText FParamIdx].
    destruct (ag_ins _ _ _ _ _ _ Hag (cs_in st) Hq) as [[Hs Ha]|[Hs Ha]]; rewrite Ha.
    + rewrite decide_True by done. unfold compose_inlist. cbn [FText default from_option].
      change (Z.leb 0 0) with true. cbn match.
      assert (match InEmptyOf profile with [] => bs "IN (SELECT NULL FROM DUAL WHERE FALSE)"
        | t => t end = InEmptyOf profile) as He.
      { pose proof lex_in_empty. by destruct (InEmptyOf profile). }
      rewrite He. cbn [rbind]. eexists. split_and!; [done| |done]. by apply Rel_frag, Rel_synth.
    + rewrite decide_False by done. unfold compose_inlist. cbn [FParamIdx].
      destruct (in_place_rel v (bs "IN (") r (cs_co st) i 1 HR) as [HR2 Hb2].
      { apply Hg. by rewrite Est. }
      simpl. eexists. split_and!; [done| |exact Hb2]. apply Rel_frag. exact HR2.
  - rewrite decide_False by by apply bool_decide_eq_false in Hq.
    destruct (in_place_rel v (bs "= ANY(") r (cs_co st) i 0 HR ltac:(by apply Hg)) as [HR2 Hb2].
    unfold compose_frag. cbn [FKind FParamIdx]. simpl.
    eexists. split_and!; [done| |exact Hb2]. apply Rel_frag. exact HR2.
Qed.

(** ** The filter tree *)

Definition leaf_node (i : nat) (pr : Predicate) : node :=
  mkNode opLeaf [] (Z.of_nat i) (AVal <$> PrParams pr).

Definition pred_case (pr : Predicate) : Case :=
  build_case profile (index_map (PrParams pr)) (PrBody pr).

Definition pred_offset (preds : list Predicate) : nat := length (concat (PrParams <$> preds)).

Lemma maximal_tree_node pr1 pr2 preds :
  tree_predicates q = pr1 :: pr2 :: preds ->
  maximal_tree q = Some (mkNode opAnd (imap leaf_node (tree_predicates q)) 0 []).
Proof.
  intros Hp. unfold maximal_tree, And, combine.
  assert (forall (f : nat -> Predicate -> node) l, omap id (imap (fun i pr => Some (f i pr)) l) = imap f l) as He.
  { intros f l. revert f. induction l as [|x l IH]; intros f; [done|].
    simpl. f_equal. apply (IH (fun i => f (S i))). }
  unfold maximal_leaves, NewLeaf. rewrite (He leaf_node). by rewrite Hp.
Qed.

Lemma tree_predicates_of v : IFilterTree v ∈ QItems q -> tree_predicates q = FtPredicates v.
Proof.
  intros Hin. destruct wf_facts as (_ & _ & _ & Ht & _). unfold tree_count in Ht.
  unfold tree_predicates.
  assert (v ∈ omap as_tree (QItems q)) as Hv by (apply list_elem_of_omap; by exists (IFilterTree v)).
  destruct (omap as_tree (QItems q)) as [|w [|]]; [set_solver| |simpl in Ht; lia].
  by apply list_elem_of_singleton in Hv as ->.
Qed.

Lemma pred_offset_app pre post : pred_offset (pre ++ post) = pred_offset pre + pred_offset post.
Proof. unfold pred_offset. by rewrite fmap_app, concat_app, length_app. Qed.

Lemma pred_offset_tparams pre pr post :
  tree_predicates q = pre ++ pr :: post ->
  length tparams = pred_offset pre + length (PrParams pr) + pred_offset post /\
  forall j n, PrParams pr !! j = Some n -> tparams !! (pred_offset pre + j) = Some n.
Proof.
  intros Hp. unfold tree_params, pred_offset. rewrite Hp, fmap_app, concat_app, fmap_cons.
  cbn [concat]. rewrite !length_app. split; [lia|]. intros j n Hj.
  rewrite lookup_app_r by lia. rewrite lookup_app_l; [|apply lookup_lt_Some in Hj; lia].
  rewrite <- Hj. f_equal. lia.
Qed.

Lemma leaf_rel v pre pr post anchor r r' co :
  IFilterTree v ∈ QItems q -> FtPredicates v = pre ++ pr :: post ->
  rel r co -> co_base co = Z.of_nat (pred_offset pre) ->
  emit_predicate profile anchor pr r = Ok r' ->
  exists co', emit_node style (pred_case <$> FtPredicates v) (leaf_node (length pre) pr) co = Ok co' /\
    rel r' co' /\ co_base co' = Z.of_nat (pred_offset (pre ++ [pr])).
Proof.
  intros Hin Hp HR Hbase (r1 & Hr1 & Hr')%rbind_ok. injection Hr' as <-.
  destruct wf_facts as (_ & _ & _ & _ & _ & Hlen & Hit). specialize (Hit _ Hin). simpl in Hit.
  pose proof (tree_predicates_of _ Hin) as Htp. rewrite Hp in Htp.
  destruct (pred_offset_tparams _ _ _ Htp) as [Hl Hj].
  rewrite forallb_forall in Hit. specialize (Hit pr).
  rewrite Hp in Hit. rewrite in_app_iff in Hit. specialize (Hit ltac:(right; by left)).
  apply andb_prop in Hit as [Hs Hd]. apply bool_decide_eq_true in Hd.
  assert (text_ok (profile := profile) params tparams (index_map (PrParams pr)) true
    (co_base co) (PrBody pr)) as Hok.
  { split; [done|]. intros t Ht Hk.
    pose proof (distinctParams_elem _ _ Ht Hk) as Hn. rewrite <- Hd in Hn.
    apply list_elem_of_lookup in Hn as [j Hn]. exists (i16 (Z.of_nat j)).
    pose proof (lookup_lt_Some _ _ _ Hn). split.
    - apply index_map_lookup; [rewrite Hd; apply distinctParams_NoDup|eauto].
    - rewrite Hbase, (i16_id (Z.of_nat j)), <- Nat2Z.inj_add, i16_id by lia.
      split; [by rewrite bind_source_nat; apply Hj|done]. }
  assert (rel (emitSynth (bs "(") anchor r) (write (bs "(") co)) as HR0 by by apply Rel_synth.
  destruct (emitText_rel params tparams params_NoDup tparams_NoDup _ _ _ _ _ _ _ _ _ Hok HR0 Hr1)
    as (co1 & He & HR1 & Hb1).
  unfold leaf_node. cbn [emit_node]. unfold go_index.
  destruct (Z.ltb_spec (Z.of_nat (length pre)) 0); [lia|]. rewrite Nat2Z.id.
  rewrite list_lookup_fmap, Hp, lookup_app_r, Nat.sub_diag by lia. cbn [lookup list_lookup fmap option_fmap option_map or_err rbind].
  assert (emitFrom style (CText (pred_case pr)) (CParamSpans (pred_case pr))
    (CParamIdx (pred_case pr)) true (co_base co) (write (bs "(") co) = Ok co1) as ->.
  { rewrite <- He. unfold pred_case, build_case.
    by destruct (paramSpans profile (PrBody pr) (index_map (PrParams pr))). }
  cbn [rbind]. eexists. split; [done|]. cbn [co_base co_b co_binds].
  split.
  - apply Rel_base with (co := write (bs ")") co1). by apply Rel_push.
  - cbn [co_base write] in *. rewrite Hb1, Hbase, length_fmap, pred_offset_app.
    assert (pred_offset [pr] = length (PrParams pr)) as ->
      by (unfold pred_offset; simpl; by rewrite app_nil_r).
    rewrite (i16_id (Z.of_nat (length _))) by lia. rewrite <- Nat2Z.inj_add. apply i16_id. lia.
Qed.

Lemma tree_loop_rel v pre post anchor first r r' co :
  IFilterTree v ∈ QItems q -> FtPredicates v = pre ++ post ->
  rel r co -> co_base co = Z.of_nat (pred_offset pre) ->
  emit_list (bs " AND ") anchor (emit_predicate profile anchor) first post r = Ok r' ->
  exists co', sep_loop (bs " AND ") (emit_node style (pred_case <$> FtPredicates v)) first
      (imap (fun i pr => leaf_node (length pre + i) pr) post) co = Ok co' /\ rel r' co'.
Proof.
  intros Hin. revert pre first r co. induction post as [|pr post IH];
    intros pre first r co Hp HR Hbase; cbn [emit_list].
  - intros [= <-]. by exists co.
  - intros (r1 & Hr1 & Hrest)%rbind_ok. cbn [imap sep_loop]. rewrite Nat.add_0_r.
    assert (rel (if first then r else emitSynth (bs " AND ") anchor r)
      (if first then co else write (bs " AND ") co)) as HR0 by (destruct first; [done|by apply Rel_synth]).
    assert (co_base (if first then co else write (bs " AND ") co) = Z.of_nat (pred_offset pre)) as Hb0
      by by destruct first.
    destruct (leaf_rel _ _ _ _ _ _ _ _ Hin Hp HR0 Hb0 Hr1) as (co1 & He & HR1 & Hb1).
    rewrite He. cbn [rbind].
    rewrite (imap_ext _ (fun i x => leaf_node (length (pre ++ [pr]) + i) x)).
    + apply (IH (pre ++ [pr]) false r1 co1); [by rewrite <- app_assoc|done..].
    + intros i x _. simpl. f_equal. rewrite length_app. simpl. lia.
Qed.

Lemma maximal_validate v :
  IFilterTree v ∈ QItems q ->
  rfold (fun _ k => validate_rec (pred_case <$> FtPredicates v) k) tt
    (imap leaf_node (FtPredicates v)) = Ok tt.
Proof.
  intros Hin. destruct wf_facts as (_ & _ & _ & _ & _ & Hlen & Hit). specialize (Hit _ Hin).
  simpl in Hit. rewrite forallb_forall in Hit. pose proof (tree_predicates_of _ Hin) as Htp.
  enough (forall pre post, FtPredicates v = pre ++ post ->
    rfold (fun _ k => validate_rec (pred_case <$> FtPredicates v) k) tt
      (imap (fun i pr => leaf_node (length pre + i) pr) post) = Ok tt) as He
    by by apply (He []).
  intros pre post. revert pre. induction post as [|pr post IH]; intros pre Hp; [done|].
  cbn [imap rfold]. rewrite Nat.add_0_r. unfold leaf_node at 1. cbn [validate_rec].
  assert ((pred_case <$> FtPredicates v) !! length pre = Some (pred_case pr)) as Hat.
  { by rewrite list_lookup_fmap, Hp, lookup_app_r, Nat.sub_diag by lia. }
  pose proof (lookup_lt_Some _ _ _ Hat) as Hlt.
  destruct (Z.ltb_spec (Z.of_nat (length pre)) 0); [lia|].
  destruct (Z.leb_spec (Z.of_nat (length (pred_case <$> FtPredicates v))) (Z.of_nat (length pre))); [lia|].
  cbn [orb]. rewrite Nat2Z.id, Hat. cbn [or_err rbind].
  destruct (pred_offset_tparams pre pr post) as [Hl _]; [by rewrite Htp|].
  assert (pr ∈ FtPredicates v) as Hpr%list_elem_of_In by (rewrite Hp; set_solver).
  specialize (Hit pr Hpr). apply andb_prop in Hit as [_ Hd]. apply bool_decide_eq_true in Hd.
  rewrite decide_True.
  2: { unfold pred_case. rewrite leafArity_build_case, length_fmap by (done || lia). done. }
  cbn [rfold rbind]. rewrite (imap_ext _ (fun i x => leaf_node (length (pre ++ [pr]) + i) x)).
  - apply IH. by rewrite <- app_assoc.
  - intros i x _. simpl. f_equal. rewrite length_app. simpl. lia.
Qed.

Lemma render_tree_rel v st r r' :
  IFilterTree v ∈ QItems q -> rel r (cs_co st) -> co_base (cs_co st) = 0%Z ->
  render_tree profile v 0 (s_trees s) r = Ok r' ->
  exists co', compose_frag style key tree caps st
      (build_frag profile (guard_bits q) pidx (IFilterTree v))
    = Ok (mkCState co' (cs_choose st) (cs_order st) (cs_in st)) /\ rel r' co'.
Proof.
  intros Hin HR Hbase. unfold render_tree. intros (r1 & Hr1 & Hr')%rbind_ok. injection Hr' as <-.
  unfold compose_frag, build_frag. cbn [FKind FCases].
  destruct (ag_tree _ _ _ _ _ _ Hag v Hin) as [[Hs Ht]|(Hs & Ht & Hlen & Hcaps)].
  - rewrite decide_True in Hr1 by done. injection Hr1 as <-. rewrite Ht. cbn [IsZero].
    eexists. split; [done|]. by apply Rel_frag, Rel_push.
  - rewrite decide_False in Hr1 by done. apply rbind_ok in Hr1 as (r2 & Hr2 & H). injection H as <-.
    pose proof (tree_predicates_of _ Hin) as Htp.
    destruct (FtPredicates v) as [|pr1 [|pr2 preds]] eqn:Ep; [simpl in Hlen; lia..|].
    pose proof (maximal_tree_node _ _ _ Htp) as Hnode. rewrite Htp in Hnode. rewrite <- Ep in *.
    pose proof (maximal_validate _ Hin) as Hval. unfold pred_case in Hval.
    rewrite Hnode in Ht. unfold validate. rewrite Hcaps, Ht. cbn [IsZero rbind validate_rec].
    rewrite Hval. cbn [rbind emitTree emit_node].
    destruct (tree_loop_rel v [] (FtPredicates v) _ true _ _
      (write (bs "(") (cs_co st)) Hin eq_refl
      ltac:(apply Rel_synth; exact HR) ltac:(done) Hr2) as (co' & He & HR').
    change (imap (fun i pr => leaf_node (length (@nil Predicate) + i) pr) (FtPredicates v))
      with (imap leaf_node (FtPredicates v)) in He.
    unfold pred_case in He. rewrite He. cbn [rbind].
    eexists. split; [done|]. by apply Rel_frag, Rel_push.
Qed.

(** ** The two loops *)

(** The loop states after the items [pre]. *)
Record Sync (pre : list Item) (st : rstate) (cs : cstate) : Prop := {
  sync_rel : rel (rs_r st) (cs_co cs);
  sync_rchoose : rs_choose st = length (omap as_choose pre);
  sync_choose : cs_choose cs = rs_choose st;
  sync_order : cs_order cs = rs_order st;
  sync_in : question profile = true -> cs_in cs = rs_in st;
  sync_tree : rs_tree st = length (omap as_tree pre);
  sync_base : rs_tree st = 0 -> co_base (cs_co cs) = 0%Z;
}.

Lemma skeleton_rel v r r' st :
  ISkeleton v ∈ QItems q -> rel r (cs_co st) ->
  emitText profile (SkText v) (SStart (SkSpan v)) (SkSynth v) r = Ok r' ->
  exists co', compose_frag style key tree caps st
      (build_frag profile (guard_bits q) pidx (ISkeleton v))
    = Ok (mkCState co' (cs_choose st) (cs_order st) (cs_in st)) /\ rel r' co' /\
    co_base co' = co_base (cs_co st).
Proof.
  intros Hin HR He. destruct wf_facts as (_ & _ & _ & _ & _ & _ & Hit). specialize (Hit _ Hin).
  destruct (emitText_rel params tparams params_NoDup tparams_NoDup _ _ _ _ _ _ _ _ _
    (binds_within_ok _ Hit) HR He) as (co' & Hc & HR' & Hb).
  unfold build_frag. destruct (paramSpans profile (SkText v) pidx) as [sp ix]. simpl in *.
  unfold compose_frag. cbn [FKind FText FParamSpans FParamIdx]. unfold emit. rewrite Hc. cbn [rbind]. eauto.
Qed.

Local Ltac sync :=
  split; cbn; rewrite ?omap_app, ?app_nil_r, ?length_app; cbn;
  try solve [congruence | auto | lia | intros; etransitivity; eauto].

Lemma item_rel pre it post st cs st' :
  QItems q = pre ++ it :: post -> Sync pre st cs -> render_item profile s st it = Ok st' ->
  exists cs', compose_frag style key tree caps cs (build_frag profile (guard_bits q) pidx it)
    = Ok cs' /\ Sync (pre ++ [it]) st' cs'.
Proof.
  intros Hq [HR Hrc Hc Ho Hi Ht Hb] Hst.
  assert (it ∈ QItems q) as Hin by (rewrite Hq; set_solver).
  destruct it as [v|v|v|v|v|v]; cbn [render_item] in Hst.
  - apply rbind_ok in Hst as (r' & Hr & H). injection H as <-.
    destruct (skeleton_rel _ _ _ _ Hin HR Hr) as (co' & -> & HR' & Hb').
    eexists. split; [done|]. sync.
  - unfold compose_frag. assert (build_frag profile (guard_bits q) pidx (IIfPresent v)
      = mkFrag Guarded (IPBody v) (paramSpans profile (IPBody v) pidx).1
          (paramSpans profile (IPBody v) pidx).2 (guard_mask (guard_bits q) (IPGuards v))
          (lower_sep (IPSep v)) [] None) as Ef
      by (unfold build_frag; by destruct (paramSpans profile (IPBody v) pidx)).
    rewrite Ef. cbn [FKind FGuardMask]. rewrite <- (ag_active _ _ _ _ _ _ Hag v Hin).
    destruct (s_active s v).
    + apply rbind_ok in Hst as (r' & Hr & H). injection H as <-.
      destruct (render_ifpresent_rel _ _ _ _ Hin HR Hr) as (co' & He & HR' & Hb').
      rewrite Ef in He. rewrite He. eexists. split; [done|].
      sync.
    + injection Hst as <-. eexists. split; [done|].
      sync.
  - apply rbind_ok in Hst as (r' & Hr & H). injection H as <-.
    assert (omap as_choose (QItems q) !! rs_choose st = Some v) as Hv.
    { rewrite Hq, omap_app. cbn [omap list_omap as_choose].
      by rewrite lookup_app_r, Hrc, Nat.sub_diag by lia. }
    destruct (render_choose_rel _ _ _ _ _ Hin Hv HR Hr) as (co' & He & HR' & Hb').
    unfold compose_frag. cbn [build_frag FKind]. rewrite Hc. cbn [build_frag] in He. rewrite He.
    eexists. split; [done|].
    sync.
  - apply rbind_ok in Hst as (r' & Hr & H). injection H as <-.
    destruct (render_orderby_rel _ _ _ _ _ Hin HR Hr) as (co' & He & HR' & Hb').
    unfold compose_frag. cbn [build_frag FKind]. rewrite Ho, <- (ag_orders _ _ _ _ _ _ Hag).
    cbn [build_frag] in He. rewrite He. eexists. split; [done|].
    sync.
  - injection Hst as <-.
    destruct (render_in_rel v (rs_in st) cs _ Hin HR Hi) as (co' & He & HR' & Hb').
    rewrite He. eexists. split; [done|].
    sync.
    intros Hqu. rewrite Hqu. f_equal. auto.
  - apply rbind_ok in Hst as (r' & Hr & H). injection H as <-.
    assert (rs_tree st = 0) as Hz.
    { destruct wf_facts as (_ & _ & _ & Htc & _). unfold tree_count in Htc.
      rewrite Hq, omap_app, length_app in Htc. cbn in Htc. lia. }
    rewrite Hz in Hr. destruct (render_tree_rel _ _ _ _ Hin HR (Hb Hz) Hr) as (co' & He & HR').
    rewrite He. eexists. split; [done|].
    sync.
Qed.

Lemma items_rel pre post st cs st' :
  QItems q = pre ++ post -> Sync pre st cs -> rfold (render_item profile s) st post = Ok st' ->
  exists cs', rfold (compose_frag style key tree caps) cs
      (build_frag profile (guard_bits q) pidx <$> post) = Ok cs' /\ Sync (QItems q) st' cs'.
Proof.
  revert pre st cs. induction post as [|it post IH]; intros pre st cs Hq HS; cbn [rfold].
  - intros [= <-]. exists cs. rewrite Hq, app_nil_r. done.
  - intros (st1 & Hst & Hrest)%rbind_ok.
    destruct (item_rel _ _ _ _ _ _ Hq HS Hst) as (cs1 & Hc & HS1).
    cbn [fmap list_fmap rfold]. rewrite Hc. cbn [rbind].
    apply (IH (pre ++ [it]) st1 cs1); [by rewrite <- app_assoc|done..].
Qed.

(** A successful rendering is reproduced by the composer, with the bind plan
    that names its parameters. *)
Lemma renderCore_compose r :
  renderCore profile q s = Ok r ->
  exists binds,
    ComposeTreeStyle style (BuildFrags profile q) key tree caps = Ok (RSQL r, binds) /\
    bind_source params tparams <$> binds = Some <$> RParamsSeq r.
Proof.
  unfold renderCore. intros (st & Hst & H)%rbind_ok. injection H as <-. cbn [RSQL RParamsSeq].
  destruct (items_rel [] (QItems q) (mkRState renderer0 0 0 0 0)
    (mkCState (mkComposer [] [] 0) 0 0 0) st eq_refl) as (cs & Hc & [[HR1 HR2 _ _] _ _ _ _ _ _]);
    [|done|].
  - split; cbn; auto. split; cbn; auto. intros _ name n. rewrite lookup_empty. split; [done|].
    intros (i & _ & Hi). by rewrite lookup_nil in Hi.
  - exists (co_binds (cs_co cs)). unfold ComposeTreeStyle, BuildFrags. rewrite Hc. cbn [rbind].
    by rewrite HR1.
Qed.
End items.
