(* ===== verification/Verified.v ===== *)
(** * Verified

    The verified-rendering set ([Renderings]): [plan] is its declarative
    description, [Renderings_plan] the equivalence with the four passes of the
    code.  With the conformance simulation: every shape the composer can be
    asked for at a rendering's selection is one the database accepted. *)

From S2P Require Import Prelude Dialect Template Render Tree Runtime Frags Simulation Conformance Postgres MySQL Demo.

(** ** The plan *)
Inductive entry :=
  | EMaximal | ECase (i ord : nat) | EOrderDefault (i : nat) | EInEmpty (i : nat)
  | ETreeEmpty (i : nat).

#[export] Instance entry_eq_dec : EqDecision entry.
Proof. solve_decision. Defined.

Section plan.
Context (profile : LexerProfile).

Definition order_count (q : QueryTemplate) : nat := length (omap as_order (QItems q)).

Definition case_entries (i : nat) (c : Template.Choose) : list entry :=
  ECase i <$> seq 1 (maxOrdinal c - 1).

Definition order_entries (i : nat) (o : Template.OrderBy) : list entry :=
  match ObDefault o with Some _ => [EOrderDefault i] | None => [] end.

Definition plan (q : QueryTemplate) : list entry :=
  EMaximal :: concat (imap case_entries (omap as_choose (QItems q)))
  ++ concat (imap order_entries (omap as_order (QItems q)))
  ++ (if question profile then EInEmpty <$> seq 0 (in_count q) else [])
  ++ (ETreeEmpty <$> seq 0 (tree_count q)).

(** What an entry selects. *)
Definition entry_selection (q : QueryTemplate) (e : entry) : selection :=
  match e with
  | EMaximal => mkSelection allActive ∅ [] [] []
  | ECase i ord => mkSelection allActive {[i := ord]} [] [] []
  | EOrderDefault i =>
      mkSelection allActive ∅ (<[i := Some []]> (replicate (order_count q) None)) [] []
  | EInEmpty i => mkSelection allActive ∅ [] (<[i := 0%N]> (replicate (in_count q) 1%N)) []
  | ETreeEmpty i => mkSelection allActive ∅ [] [] (<[i := 0%N]> (replicate (tree_count q) 1%N))
  end.

Definition tag_rendering (e : entry) (r : Rendering) : Rendering :=
  match e with
  | EMaximal => r
  | ECase i ord => mkRendering RenderCase i ord 0 0 0 [] (RSQL r) (RParamsSeq r) (RFrags r) (RMap r)
  | EOrderDefault i =>
      mkRendering RenderOrderDefault 0 0 i 0 0 [] (RSQL r) (RParamsSeq r) (RFrags r) (RMap r)
  | EInEmpty i => mkRendering RenderInEmpty 0 0 0 i 0 [] (RSQL r) (RParamsSeq r) (RFrags r) (RMap r)
  | ETreeEmpty i =>
      mkRendering RenderTreeEmpty 0 0 0 0 i [] (RSQL r) (RParamsSeq r) (RFrags r) (RMap r)
  end.

Definition render_entry (q : QueryTemplate) (e : entry) : result RenderErr Rendering :=
  let! r := renderCore profile q (entry_selection q e) in Ok (tag_rendering e r).

Lemma choose_pass_plan q items i oc out :
  rfold (choose_pass profile q) (i, oc, out) items
  = let! rs := rmap (render_entry q)
      (concat (imap (fun k => case_entries (i + k)) (omap as_choose items))) in
    Ok (i + length (omap as_choose items), oc + length (omap as_order items), out ++ rs).
Proof.
  revert i oc out. induction items as [|it items IH]; intros i oc out.
  { cbn. by rewrite !Nat.add_0_r, app_nil_r. }
  destruct it as [v|v|v|v|v|v]; cbn [rfold choose_pass rbind omap list_omap as_choose as_order]; try apply IH.
  - cbn [imap concat]. rewrite rmap_app, Nat.add_0_r. unfold case_entries at 1.
    rewrite rmap_fmap, rfold_snoc, !rbind_assoc.
    assert (forall xs, rmap (choose_rendering profile q i) xs = rmap (fun x => render_entry q (ECase i x)) xs) as ->
      by reflexivity.
    destruct (rmap (fun x => render_entry q (ECase i x)) _) as [rs|e]; cbn [rbind]; [|done].
    rewrite IH. rewrite (imap_ext (fun k => case_entries (i + 1 + k)) (compose (fun k => case_entries (i + k)) S)).
    + destruct (rmap _ _); cbn [rbind]; [|done]. f_equal. f_equal; [f_equal; cbn [length]; lia|by rewrite app_assoc].
    + intros k c _. simpl. f_equal. lia.
  - rewrite IH. destruct (rmap _ _); cbn [rbind]; [|done]. f_equal. f_equal. f_equal. cbn [length]. lia.
Qed.

Lemma order_pass_plan q items i out :
  rfold (order_pass profile q (order_count q)) (i, out) items
  = let! rs := rmap (render_entry q)
      (concat (imap (fun k => order_entries (i + k)) (omap as_order items))) in
    Ok (i + length (omap as_order items), out ++ rs).
Proof.
  revert i out. induction items as [|it items IH]; intros i out.
  { cbn. by rewrite !Nat.add_0_r, app_nil_r. }
  destruct it as [v|v|v|v|v|v]; cbn [rfold order_pass rbind omap list_omap as_order]; try apply IH.
  cbn [imap concat]. rewrite Nat.add_0_r.
  rewrite (imap_ext (compose (fun k => order_entries (i + k)) S) (fun k => order_entries (i + 1 + k)))
    by (intros k o _; simpl; f_equal; lia).
  unfold order_entries at 1. destruct (ObDefault v); cbn [app rmap].
  - unfold render_entry at 1. cbn [entry_selection tag_rendering].
    destruct (renderCore profile q _); cbn [rbind]; [|done]. rewrite IH.
    destruct (rmap _ _); cbn [rbind]; [|done].
    f_equal. f_equal; [cbn [length]; lia|by rewrite <- app_assoc].
  - cbn [rbind]. rewrite IH. destruct (rmap _ _); cbn [rbind]; [|done].
    f_equal. f_equal. cbn [length]. lia.
Qed.

Lemma render_maximal q : render_entry q EMaximal = Render profile q ∅.
Proof. unfold render_entry, Render. cbn [entry_selection]. by destruct (renderCore profile q _). Qed.

(** The passes of [Renderings] produce the renderings of the plan, in order,
    and fail where the first entry fails. *)
Lemma Renderings_is_plan q :
  Renderings_unnamed profile q = rmap (render_entry q) (plan q).
Proof.
  unfold Renderings_unnamed, plan. cbn [rmap]. rewrite render_maximal.
  destruct (Render profile q ∅) as [max|]; cbn [rbind]; [|done].
  rewrite choose_pass_plan, !rmap_app. cbn [Nat.add].
  assert (forall l, imap (fun k => case_entries (0 + k)) l = imap case_entries l) as -> by done.
  destruct (rmap (render_entry q) (concat (imap case_entries _))) as [rs1|]; cbn [rbind]; [|done].
  rewrite order_pass_plan.
  assert (forall l, imap (fun k => order_entries (0 + k)) l = imap order_entries l) as -> by done.
  destruct (rmap (render_entry q) (concat (imap order_entries _))) as [rs2|]; cbn [rbind]; [|done].
  assert (forall out, (if question profile then rfold (fun out i =>
      let! r := in_rendering profile q (in_count q) i in Ok (out ++ [r])) out (seq 0 (in_count q))
    else Ok out)
    = let! rs := rmap (render_entry q) (if question profile then EInEmpty <$> seq 0 (in_count q) else [])
      in Ok (out ++ rs)) as ->.
  { intros out. destruct (question profile); [by rewrite rfold_snoc, rmap_fmap|].
    cbn. by rewrite app_nil_r. }
  destruct (rmap (render_entry q) (if question profile then _ else _)) as [rs3|]; cbn [rbind]; [|done].
  rewrite rfold_snoc, rmap_fmap.
  assert (rmap (fun i => render_entry q (ETreeEmpty i)) (seq 0 (tree_count q))
    = rmap (tree_rendering profile q (tree_count q)) (seq 0 (tree_count q))) as -> by done.
  destruct (rmap (tree_rendering profile q (tree_count q)) _); cbn [rbind]; [|done].
  f_equal. cbn. by rewrite !app_assoc.
Qed.

(** The number of renderings is what [RenderingCount] announces. *)
Definition has_default (o : Template.OrderBy) : nat := match ObDefault o with Some _ => 1 | None => 0 end.

Lemma fold_renderings items n :
  foldl (fun n it =>
      match it with
      | IChoose c => n + (maxOrdinal c - 1)
      | IOrderBy o => match ObDefault o with Some _ => n + 1 | None => n end
      | IFilterTree _ => n + 1
      | _ => n
      end) n items
  = n + sum_list ((fun c => maxOrdinal c - 1) <$> omap as_choose items)
    + sum_list (has_default <$> omap as_order items) + length (omap as_tree items).
Proof.
  revert n. induction items as [|it items IH]; intros n; [simpl; lia|].
  cbn [foldl]. rewrite IH. destruct it as [v|v|v|v|v|v]; cbn; try lia.
  unfold has_default at 2. destruct (ObDefault v); lia.
Qed.

Lemma fold_ins items n :
  foldl (fun n it => match it with IInExpr _ => n + 1 | _ => n end) n items
  = n + length (omap as_in items).
Proof.
  revert n. induction items as [|it items IH]; intros n; [simpl; lia|].
  cbn [foldl]. rewrite IH. destruct it; cbn; lia.
Qed.

Lemma plan_length q : length (plan q) = RenderingCount profile q.
Proof.
  unfold plan. cbn [length]. rewrite !length_app.
  rewrite (length_concat_imap case_entries (fun c => maxOrdinal c - 1))
    by (intros; unfold case_entries; by rewrite length_fmap, length_seq).
  rewrite (length_concat_imap order_entries has_default)
    by (intros ? o; unfold order_entries, has_default; by destruct (ObDefault o)).
  rewrite length_fmap, length_seq. unfold RenderingCount, tree_count, in_count.
  rewrite fold_renderings, fold_ins.
  destruct (question profile); rewrite ?length_fmap, ?length_seq; simpl; lia.
Qed.

(** ** Keys *)

(** The key (and the tree) under which a caller reaches an entry's rendering. *)
Definition all_guards : N := N.ones 64.

Definition entry_key (q : QueryTemplate) (e : entry) : ShapeKey :=
  match e with
  | EMaximal | ETreeEmpty _ => mkShapeKey all_guards [] [] [] []
  | ECase i ord =>
      mkShapeKey all_guards
        (<[i := N.of_nat ord]> (replicate (length (omap as_choose (QItems q))) 0%N)) [] [] []
  | EOrderDefault i =>
      mkShapeKey all_guards [] (<[i := Some []]> (replicate (order_count q) None)) [] []
  | EInEmpty i => mkShapeKey all_guards [] [] [] (<[i := 0%Z]> (replicate (in_count q) 1%Z))
  end.

Definition entry_tree (q : QueryTemplate) (e : entry) : Tree :=
  match e with ETreeEmpty _ => None | _ => maximal_tree q end.

(** Every filter tree has two predicates at least and the maximal tree passes
    the caps. *)
Definition trees_ok (q : QueryTemplate) (caps : TreeCaps) : bool :=
  forallb (fun ft => Nat.leb 2 (length (FtPredicates ft))) (omap as_tree (QItems q)) &&
  match checkCaps (maximal_tree q) caps with Ok _ => true | Err _ => false end.



Lemma trees_ok_spec q caps ft :
  trees_ok q caps = true -> IFilterTree ft ∈ QItems q ->
  2 <= length (FtPredicates ft) /\ checkCaps (maximal_tree q) caps = Ok tt.
Proof.
  unfold trees_ok. intros [H1 H2]%andb_prop Hin. rewrite forallb_forall in H1.
  assert (ft ∈ omap as_tree (QItems q)) as Hft%list_elem_of_In
    by (apply list_elem_of_omap; by exists (IFilterTree ft)).
  apply H1, Nat.leb_le in Hft. split; [done|]. by destruct (checkCaps _ _) as [[]|].
Qed.


Lemma guard_mask_ones (bit : gmap GuardAtom nat) guards :
  N.land all_guards (guard_mask bit guards) = guard_mask bit guards.
Proof.
  apply N.bits_inj. intros i. rewrite N.land_spec. unfold all_guards.
  destruct (N.testbit (guard_mask bit guards) i) eqn:E; [|by rewrite andb_false_r].
  unfold guard_mask in E. rewrite guard_mask_testbit, N.bits_0 in E. simpl in E.
  apply existsb_exists in E as (g & _ & Hb). rewrite bit64_testbit in Hb.
  apply andb_prop in Hb as [Hb%N.ltb_lt _]. by rewrite N.ones_spec_low.
Qed.

Lemma default_maxOrdinal c : ChDefault c = None \/ 0 < maxOrdinal c.
Proof. unfold maxOrdinal. destruct (ChDefault c); [right; lia|by left]. Qed.

(** The plan lists every selectable ordinal but each block's first, every
    [@order-by] default, every expanding [in] (question style) and every tree. *)
Lemma elem_of_plan q e :
  e ∈ plan q <->
  match e with
  | EMaximal => True
  | ECase i ord => exists c, omap as_choose (QItems q) !! i = Some c /\ 1 <= ord < maxOrdinal c
  | EOrderDefault i => exists o, omap as_order (QItems q) !! i = Some o /\ is_Some (ObDefault o)
  | EInEmpty i => question profile = true /\ i < in_count q
  | ETreeEmpty i => i < tree_count q
  end.
Proof.
  unfold plan. rewrite elem_of_cons, !elem_of_app, !elem_of_concat_imap.
  assert (forall i c, e ∈ case_entries i c <-> exists ord, e = ECase i ord /\ 1 <= ord < maxOrdinal c) as Hc.
  { intros i c. unfold case_entries. rewrite list_elem_of_fmap. setoid_rewrite elem_of_seq.
    split; intros (ord & -> & Ho); exists ord; (split; [done|lia]). }
  assert (forall i o, e ∈ order_entries i o <-> e = EOrderDefault i /\ is_Some (ObDefault o)) as Ho.
  { intros i o. unfold order_entries. destruct (ObDefault o).
    - rewrite list_elem_of_singleton. naive_solver.
    - split; [set_solver|]. by intros [_ [? ?]]. }
  assert (e ∈ (if question profile then EInEmpty <$> seq 0 (in_count q) else [])
    <-> exists i, e = EInEmpty i /\ question profile = true /\ i < in_count q) as ->.
  { destruct (question profile); [|set_solver].
    rewrite list_elem_of_fmap. setoid_rewrite elem_of_seq. split.
    - intros (i & -> & ?). exists i. split_and!; [done|done|lia].
    - intros (i & -> & _ & ?). exists i. split; [done|lia]. }
  assert (e ∈ ETreeEmpty <$> seq 0 (tree_count q) <-> exists i, e = ETreeEmpty i /\ i < tree_count q) as ->.
  { rewrite list_elem_of_fmap. setoid_rewrite elem_of_seq. naive_solver lia. }
  setoid_rewrite Hc. setoid_rewrite Ho. clear Hc Ho. destruct e; naive_solver.
Qed.

Section agree.
Context (q : QueryTemplate) (caps : TreeCaps).
Hypothesis Hwf : wf_query profile q = true.
Hypothesis Htrees : trees_ok q caps = true.

Lemma agrees_entry e :
  e ∈ plan q ->
  agrees profile q (entry_selection q e) (entry_key q e) (entry_tree q e) caps.
Proof.
  destruct (wf_facts q Hwf) as (_ & _ & _ & Htc & _). intros He%elem_of_plan. split.
  - intros v _. destruct e; cbn; by rewrite guard_mask_ones, N.eqb_refl.
  - intros i c Hc.
    assert (default 0 ((∅ : CaseSelection) !! i) = N.to_nat (default 0%N ([] !! i))) as H0
      by by rewrite lookup_empty, lookup_nil.
    destruct e as [|j ord|j|j|j]; cbn [entry_selection entry_key s_cases Choices];
      try (split; [done|]; rewrite lookup_empty; apply default_maxOrdinal).
    destruct He as (c' & Hc' & Ho). pose proof (lookup_lt_Some _ _ _ Hc) as Hlt.
    destruct (decide (i = j)) as [->|Hne].
    + rewrite lookup_singleton_eq, list_lookup_insert_eq by (by rewrite length_replicate).
      simpl. rewrite Nat2N.id. split; [done|]. right. assert (c = c') as -> by congruence. lia.
    + rewrite lookup_singleton_ne, list_lookup_insert_ne, lookup_replicate_2 by done.
      split; [done|]. apply default_maxOrdinal.
  - intros i. by destruct e.
  - intros i Hq. destruct e as [|j ord|j|j|j]; cbn [entry_selection entry_key s_ins Arities];
      try (right; by rewrite lookup_nil).
    destruct He as [_ He]. destruct (decide (i = j)) as [->|Hne].
    + left. by rewrite !list_lookup_insert_eq by (by rewrite length_replicate).
    + right. rewrite !list_lookup_insert_ne by done. split.
      * intros [? _]%lookup_replicate. done.
      * destruct (replicate (in_count q) 1%Z !! i) as [z|] eqn:Ez; [|done].
        by apply lookup_replicate in Ez as [-> _].
  - intros ft Hft. destruct (trees_ok_spec _ _ _ Htrees Hft) as [H2 Hcaps].
    destruct e as [|j ord|j|j|j]; cbn [entry_selection entry_key entry_tree s_trees];
      try (right; by rewrite lookup_nil).
    left. split; [|done]. assert (j = 0) as -> by lia.
    by rewrite list_lookup_insert_eq by (by rewrite length_replicate).
Qed.

End agree.
End plan.

(** ** The theorems *)

Section theorems.
Context {profile : LexerProfile} {Laws : LexerLaws profile}.


(** C2: for a well-formed query ([wf_query]: encodable in the fragment table,
    one filter tree at most, whose parameters are told apart where placeholders
    are numbered) whose filter trees have two predicates at least and fit the
    caps ([trees_ok]), every rendering of the verified set is what the composer
    produces at the rendering's key and tree, byte for byte, with a bind plan
    that names the rendering's parameters placeholder by placeholder.  The
    conditions are needed: with one predicate, or with a parameter that two
    predicates share under numbered placeholders, the bytes differ. *)
Theorem verified_set_composed q caps rs k r :
  wf_query profile q = true -> trees_ok q caps = true ->
  Renderings_unnamed profile q = Ok rs -> rs !! k = Some r ->
  exists e binds, plan profile q !! k = Some e /\
    ComposeTreeStyle (style_of profile) (BuildFrags profile q) (entry_key q e) (entry_tree q e) caps
    = Ok (RSQL r, binds) /\
    bind_source (QParamOrder q) (tree_params q) <$> binds = Some <$> RParamsSeq r.
Proof.
  intros Hwf Htrees Hrs Hk. rewrite Renderings_is_plan in Hrs. apply rmap_ok in Hrs.
  destruct (Forall2_lookup_r _ _ _ _ _ Hrs Hk) as (e & He & Hr). unfold render_entry in Hr.
  apply rbind_ok in Hr as (r0 & Hr0 & H). injection H as <-.
  destruct (renderCore_compose q (entry_selection q e) (entry_key q e) (entry_tree q e) caps Hwf
    ltac:(eapply agrees_entry; eauto using list_elem_of_lookup_2) r0 Hr0) as (binds & Hc & Hb).
  exists e, binds. by destruct e.
Qed.

(** The verified set is exactly the plan - the maximal rendering, every
    further ordinal of every [@choose], every [@order-by] default, the empty
    expansion of every [in] (question style), every empty filter tree - in
    that order, failing where the first of them fails; [RenderingCount] is its
    size. *)
Theorem Renderings_plan q :
  Renderings_unnamed profile q = rmap (render_entry profile q) (plan profile q) /\
  length (plan profile q) = RenderingCount profile q.
Proof. split; [apply Renderings_is_plan|apply plan_length]. Qed.

End theorems.

(** ** Instances *)



Definition demo_set : list Rendering := get_ok [] (Renderings_unnamed MySQL.Profile demo_query).

Lemma verified_set_composed_witness :
  exists e binds, plan MySQL.Profile demo_query !! 4 = Some e /\
    ComposeTreeStyle (style_of MySQL.Profile) (BuildFrags MySQL.Profile demo_query)
      (entry_key demo_query e) (entry_tree demo_query e) DefaultTreeCaps
    = Ok (RSQL (default no_rendering (demo_set !! 4)), binds) /\
    bind_source (QParamOrder demo_query) (tree_params demo_query) <$> binds
    = Some <$> RParamsSeq (default no_rendering (demo_set !! 4)).
Proof.
  apply (verified_set_composed (profile := MySQL.Profile) demo_query DefaultTreeCaps demo_set);
    vm_compute; reflexivity.
Defined.
