(* ===== verification/ShapeName.v ===== *)
(** * ShapeName

    [internal/ast/shape.go]: the names of a query's renderings, the last path
    component of their committed cache entries, and their uniqueness within
    the query. *)

From S2P Require Import Prelude Dialect Postgres MySQL Template Render Tree Runtime Shape Keys Frags Simulation Conformance Demo Verified.

Definition paramAt (params : list bytes) (i : Z) : bytes :=
  if (Z.ltb i 0 || Z.leb (Z.of_nat (length params)) i)%bool then bs "_"
  else match params !! Z.to_nat i with
       | None | Some [] => bs "_"
       | Some p => p
       end.

Definition caseNameAt (cases : list (list bytes)) (block ord : Z) : bytes :=
  if (Z.ltb block 0 || Z.leb (Z.of_nat (length cases)) block)%bool then FormatInt ord
  else
    let names := default [] (cases !! Z.to_nat block) in
    if (Z.leb 0 ord && Z.ltb ord (Z.of_nat (length names)))%bool then
      match names !! Z.to_nat ord with
      | None | Some [] => bs "default"
      | Some n => n
      end
    else bs "default".

(** The parameters by block, in template order. *)
Record block_names := mkBlockNames {
  bn_choose : list bytes; bn_order : list bytes; bn_in : list bytes; bn_tree : list bytes;
  bn_cases : list (list bytes);
}.

Definition collect_names (q : QueryTemplate) : block_names :=
  foldl (fun b it =>
    match it with
    | IChoose v => mkBlockNames (bn_choose b ++ [ChParam v]) (bn_order b) (bn_in b) (bn_tree b)
                     (bn_cases b ++ [CCName <$> ChCases v])
    | IOrderBy v => mkBlockNames (bn_choose b) (bn_order b ++ [ObParam v]) (bn_in b) (bn_tree b) (bn_cases b)
    | IInExpr v => mkBlockNames (bn_choose b) (bn_order b) (bn_in b ++ [InParam v]) (bn_tree b) (bn_cases b)
    | IFilterTree v => mkBlockNames (bn_choose b) (bn_order b) (bn_in b) (bn_tree b ++ [FtParam v]) (bn_cases b)
    | _ => b
    end) (mkBlockNames [] [] [] [] []) (QItems q).

(** [names[i], blocks[i]] *)
Definition base_name (b : block_names) (r : Rendering) : bytes * Z :=
  match RKind r with
  | RenderMaximal => (bs "maximal", (-1)%Z)
  | RenderCase =>
      (bs "case-" ++ paramAt (bn_choose b) (Z.of_nat (RChooseIdx r)) ++ bs "-"
         ++ caseNameAt (bn_cases b) (Z.of_nat (RChooseIdx r)) (Z.of_nat (RCaseIdx r)), Z.of_nat (RChooseIdx r))
  | RenderOrderDefault =>
      (bs "order-default-" ++ paramAt (bn_order b) (Z.of_nat (ROrderIdx r)), Z.of_nat (ROrderIdx r))
  | RenderInEmpty => (bs "in-empty-" ++ paramAt (bn_in b) (Z.of_nat (RInIdx r)), Z.of_nat (RInIdx r))
  | RenderTreeEmpty => (bs "tree-empty-" ++ paramAt (bn_tree b) (Z.of_nat (RTreeIdx r)), Z.of_nat (RTreeIdx r))
  end.

(** [for _, n := range names { count[n]++ }] *)
Definition name_count (names : list bytes) : gmap bytes nat :=
  foldl (fun count n => <[n := default 0 (count !! n) + 1]> count) ∅ names.

Definition set_shape (name : bytes) (r : Rendering) : Rendering :=
  mkRendering (RKind r) (RChooseIdx r) (RCaseIdx r) (ROrderIdx r) (RInIdx r) (RTreeIdx r) name
    (RSQL r) (RParamsSeq r) (RFrags r) (RMap r).

Definition final_name (count : gmap bytes nat) (nb : bytes * Z) : bytes :=
  if Nat.ltb 1 (default 0 (count !! nb.1)) then nb.1 ++ bs "-" ++ FormatInt nb.2 else nb.1.

Definition assignShapes (q : QueryTemplate) (rs : list Rendering) : list Rendering :=
  let b := collect_names q in
  let count := name_count (fst <$> (base_name b <$> rs)) in
  (fun r => set_shape (final_name count (base_name b r)) r) <$> rs.

(** [Renderings] *)
Definition Renderings (profile : LexerProfile) (q : QueryTemplate) : result RenderErr (list Rendering) :=
  let! rs := Renderings_unnamed profile q in Ok (assignShapes q rs).

(** ** Well-named queries

    Names are identifiers ([-] does not occur), a [@choose] names its cases
    once, and none of them [default] beside a [@default]. *)
Definition dash_free (n : bytes) : bool := forallb (fun c => negb (c =b "-")%char) n.

Definition choose_named (c : Template.Choose) : bool :=
  (dash_free (ChParam c) && forallb (fun cs => dash_free (CCName cs)) (ChCases c)
   && forallb (fun cs => negb (bool_decide (CCName cs = []))) (ChCases c)
   && bool_decide (NoDup (CCName <$> ChCases c))
   && match ChDefault c with
      | Some _ => negb (bool_decide (bs "default" ∈ CCName <$> ChCases c))
      | None => true
      end)%bool.

Definition well_named (q : QueryTemplate) : bool :=
  forallb (fun it => match it with
    | IChoose v => choose_named v
    | IOrderBy v => dash_free (ObParam v)
    | IInExpr v => dash_free (InParam v)
    | IFilterTree v => dash_free (FtParam v)
    | _ => true
    end) (QItems q).

(** * Lemmas *)

Lemma collect_names_omap q :
  collect_names q = mkBlockNames (ChParam <$> omap as_choose (QItems q)) (ObParam <$> omap as_order (QItems q))
    (InParam <$> omap as_in (QItems q)) (FtParam <$> omap as_tree (QItems q))
    ((fun v => CCName <$> ChCases v) <$> omap as_choose (QItems q)).
Proof.
  unfold collect_names.
  enough (forall items b, foldl (fun b it =>
    match it with
    | IChoose v => mkBlockNames (bn_choose b ++ [ChParam v]) (bn_order b) (bn_in b) (bn_tree b)
                     (bn_cases b ++ [CCName <$> ChCases v])
    | IOrderBy v => mkBlockNames (bn_choose b) (bn_order b ++ [ObParam v]) (bn_in b) (bn_tree b) (bn_cases b)
    | IInExpr v => mkBlockNames (bn_choose b) (bn_order b) (bn_in b ++ [InParam v]) (bn_tree b) (bn_cases b)
    | IFilterTree v => mkBlockNames (bn_choose b) (bn_order b) (bn_in b) (bn_tree b ++ [FtParam v]) (bn_cases b)
    | _ => b
    end) b items
  = mkBlockNames (bn_choose b ++ (ChParam <$> omap as_choose items)) (bn_order b ++ (ObParam <$> omap as_order items))
      (bn_in b ++ (InParam <$> omap as_in items)) (bn_tree b ++ (FtParam <$> omap as_tree items))
      (bn_cases b ++ ((fun v => CCName <$> ChCases v) <$> omap as_choose items))) as He by by rewrite He.
  induction items as [|it items IH]; intros b; [by rewrite !app_nil_r; destruct b|].
  cbn [foldl]. rewrite IH. destruct it; cbn [omap list_omap as_choose as_order as_in as_tree bn_choose bn_order bn_in bn_tree bn_cases];
    rewrite ?fmap_cons, <- ?app_assoc; done.
Qed.

Lemma name_count_spec names n :
  default 0 (name_count names !! n) = length (filter (fun m => m = n) names).
Proof.
  unfold name_count.
  enough (forall (count : gmap bytes nat), default 0 (foldl (fun count n => <[n := default 0 (count !! n) + 1]> count) count names !! n)
    = default 0 (count !! n) + length (filter (fun m => m = n) names)) as -> by by rewrite lookup_empty.
  induction names as [|m names IH]; intros count; simpl; [lia|]. rewrite IH, filter_cons.
  destruct (decide (m = n)) as [->|Hne].
  - rewrite lookup_insert_eq. simpl. lia.
  - rewrite lookup_insert_ne by done. lia.
Qed.

(** The number of dashes of a name tells its form. *)
Definition dashes (n : bytes) : nat := length (filter (fun c => c = "-"%char) n).

Lemma dashes_app a b : dashes (a ++ b) = dashes a + dashes b.
Proof. unfold dashes. by rewrite list.filter_app, length_app. Qed.

Lemma avoids_dashes n : avoids "-" n <-> dashes n = 0.
Proof.
  unfold avoids, dashes. induction n as [|c n IH]; [split; [done|set_solver]|].
  rewrite filter_cons. case_decide as Hc; subst; simpl; [split; [set_solver|lia]|].
  rewrite <- IH, elem_of_cons. naive_solver.
Qed.

Lemma dash_free_avoids n : dash_free n = true -> avoids "-" n.
Proof.
  unfold dash_free. rewrite forallb_forall. intros H Hin%list_elem_of_In. by apply H in Hin.
Qed.

Lemma paramAt_avoids params i : Forall (avoids "-") params -> avoids "-" (paramAt params i).
Proof.
  intros Hp. unfold paramAt. assert (avoids "-" (bs "_")) as Hu by (unfold avoids; simpl; set_solver).
  destruct (_ || _)%bool; [done|]. destruct (params !! Z.to_nat i) as [[|c p]|] eqn:E; [done| |done].
  by apply (Forall_lookup_1 _ _ _ _ Hp E).
Qed.

Lemma FormatInt_nat_avoids n : avoids "-" (FormatInt (Z.of_nat n)).
Proof.
  unfold FormatInt. destruct (Z.ltb_spec (Z.of_nat n) 0); [lia|]. by apply FormatUint_avoids.
Qed.

Lemma app_sep_inj_r c a1 a2 r1 r2 :
  avoids c r1 -> avoids c r2 -> a1 ++ c :: r1 = a2 ++ c :: r2 -> a1 = a2 /\ r1 = r2.
Proof.
  intros H1 H2 H. apply (f_equal reverse) in H. rewrite !reverse_app, !reverse_cons, <- !app_assoc in H.
  apply app_sep_inj in H as [Hr Ha].
  - split; by apply (inj reverse).
  - unfold avoids in *. by rewrite elem_of_reverse.
  - unfold avoids in *. by rewrite elem_of_reverse.
Qed.

Section unique.
Context {profile : LexerProfile} (q : QueryTemplate).
Hypothesis Hnamed : well_named q = true.

Abbreviation names := (collect_names q).

(** The base name and block of an entry's rendering. *)
Definition entry_name (e : entry) : bytes * Z :=
  match e with
  | EMaximal => (bs "maximal", (-1)%Z)
  | ECase i ord =>
      (bs "case-" ++ paramAt (bn_choose names) (Z.of_nat i) ++ bs "-"
         ++ caseNameAt (bn_cases names) (Z.of_nat i) (Z.of_nat ord), Z.of_nat i)
  | EOrderDefault i => (bs "order-default-" ++ paramAt (bn_order names) (Z.of_nat i), Z.of_nat i)
  | EInEmpty i => (bs "in-empty-" ++ paramAt (bn_in names) (Z.of_nat i), Z.of_nat i)
  | ETreeEmpty i => (bs "tree-empty-" ++ paramAt (bn_tree names) (Z.of_nat i), Z.of_nat i)
  end.

Lemma base_name_entry e r : render_entry profile q e = Ok r -> base_name names r = entry_name e.
Proof.
  unfold render_entry. intros (r0 & Hr & H)%rbind_ok. injection H as <-. destruct e; try done.
  unfold renderCore in Hr. apply rbind_ok in Hr as (st & _ & H). injection H as <-. done.
Qed.

Lemma named_choose i c :
  omap as_choose (QItems q) !! i = Some c -> choose_named c = true.
Proof.
  intros Hi. apply list_elem_of_lookup_2, list_elem_of_omap in Hi as (it & Hit & Hc).
  unfold well_named in Hnamed. rewrite forallb_forall in Hnamed. apply list_elem_of_In, Hnamed in Hit.
  destruct it; try done. by injection Hc as ->.
Qed.

Lemma params_avoid :
  Forall (avoids "-") (bn_choose names) /\ Forall (avoids "-") (bn_order names) /\
  Forall (avoids "-") (bn_in names) /\ Forall (avoids "-") (bn_tree names).
Proof.
  rewrite collect_names_omap. cbn. unfold well_named in Hnamed. rewrite forallb_forall in Hnamed.
  split_and!; apply Forall_forall; intros n Hn%list_elem_of_In;
    apply list_elem_of_fmap in Hn as (v & -> & Hv); apply list_elem_of_omap in Hv as (it & Hit & Hv);
    apply list_elem_of_In, Hnamed in Hit; destruct it; try done; injection Hv as ->;
    apply dash_free_avoids; [|done..].
  unfold choose_named in Hit. by rewrite !andb_true_iff in Hit; destruct Hit as [[[[? _] _] _] _].
Qed.

(** The name of a selectable ordinal. *)
Lemma case_name i c ord :
  omap as_choose (QItems q) !! i = Some c -> ord < maxOrdinal c ->
  caseNameAt (bn_cases names) (Z.of_nat i) (Z.of_nat ord)
  = match ChCases c !! ord with Some cs => CCName cs | None => bs "default" end.
Proof.
  intros Hi Ho. pose proof (named_choose _ _ Hi) as Hc. rewrite collect_names_omap. cbn [bn_cases].
  unfold caseNameAt. pose proof (lookup_lt_Some _ _ _ Hi).
  destruct (Z.ltb_spec (Z.of_nat i) 0); [lia|]. rewrite length_fmap.
  destruct (Z.leb_spec (Z.of_nat (length (omap as_choose (QItems q)))) (Z.of_nat i)); [lia|]. cbn [orb].
  rewrite Nat2Z.id, list_lookup_fmap, Hi. cbn [fmap option_fmap option_map default from_option]. unfold id.
  rewrite length_fmap, Nat2Z.id, list_lookup_fmap.
  destruct (Z.leb_spec 0 (Z.of_nat ord)); [|lia]. cbn [andb].
  destruct (Z.ltb_spec (Z.of_nat ord) (Z.of_nat (length (ChCases c)))) as [Hlt|Hge].
  - destruct (ChCases c !! ord) as [cs|] eqn:E; [|apply lookup_ge_None in E; lia].
    cbn [fmap option_fmap option_map]. destruct (CCName cs) as [|x n] eqn:En; [|done]. exfalso.
    unfold choose_named in Hc. rewrite !andb_true_iff in Hc. destruct Hc as [[[_ Hne] _] _].
    rewrite forallb_forall in Hne. apply list_elem_of_lookup_2, list_elem_of_In, Hne in E.
    by rewrite En in E.
  - by rewrite lookup_ge_None_2 by lia.
Qed.

Lemma case_name_avoids i c ord :
  omap as_choose (QItems q) !! i = Some c -> ord < maxOrdinal c ->
  avoids "-" (caseNameAt (bn_cases names) (Z.of_nat i) (Z.of_nat ord)).
Proof.
  intros Hi Ho. rewrite (case_name _ _ _ Hi Ho). pose proof (named_choose _ _ Hi) as Hc.
  unfold choose_named in Hc. rewrite !andb_true_iff in Hc. destruct Hc as [[[[_ Hd] _] _] _].
  rewrite forallb_forall in Hd. destruct (ChCases c !! ord) as [cs|] eqn:E.
  - by eapply dash_free_avoids, Hd, list_elem_of_In, list_elem_of_lookup_2.
  - unfold avoids. simpl. set_solver.
Qed.

(** Distinct ordinals of a [@choose] have distinct names. *)
Lemma case_name_inj i c o1 o2 :
  omap as_choose (QItems q) !! i = Some c -> o1 < maxOrdinal c -> o2 < maxOrdinal c ->
  caseNameAt (bn_cases names) (Z.of_nat i) (Z.of_nat o1)
  = caseNameAt (bn_cases names) (Z.of_nat i) (Z.of_nat o2) -> o1 = o2.
Proof.
  intros Hi H1 H2. rewrite !(case_name _ _ _ Hi) by done. pose proof (named_choose _ _ Hi) as Hc.
  unfold choose_named in Hc. rewrite !andb_true_iff in Hc. destruct Hc as [[[_ _] Hnd] Hdef].
  apply bool_decide_eq_true in Hnd. unfold maxOrdinal in *.
  destruct (ChCases c !! o1) as [c1|] eqn:E1, (ChCases c !! o2) as [c2|] eqn:E2; intros Hn.
  - eapply (NoDup_lookup (CCName <$> ChCases c)); [done| |].
    + rewrite list_lookup_fmap, E1. cbn. by rewrite Hn.
    + by rewrite list_lookup_fmap, E2.
  - exfalso. destruct (ChDefault c).
    + apply negb_true_iff, bool_decide_eq_false in Hdef. apply Hdef. rewrite <- Hn.
      apply list_elem_of_fmap. exists c1. split; [done|]. by eapply list_elem_of_lookup_2.
    + apply lookup_ge_None in E2. lia.
  - exfalso. destruct (ChDefault c).
    + apply negb_true_iff, bool_decide_eq_false in Hdef. apply Hdef. rewrite Hn.
      apply list_elem_of_fmap. exists c2. split; [done|]. by eapply list_elem_of_lookup_2.
    + apply lookup_ge_None in E1. lia.
  - apply lookup_ge_None in E1, E2. destruct (ChDefault c); lia.
Qed.

Abbreviation pl := (plan profile q).

Lemma entry_name_dashes e : e ∈ pl -> dashes (entry_name e).1 = match e with EMaximal => 0 | _ => 2 end.
Proof.
  intros He. destruct params_avoid as (P1 & P2 & P3 & P4). apply elem_of_plan in He.
  destruct e as [|i ord|i|i|i]; cbn [entry_name fst]; [done|..]; rewrite !dashes_app;
    try (rewrite (proj1 (avoids_dashes (paramAt _ _))); [done|by apply paramAt_avoids]).
  destruct He as (c & Hc & Ho). rewrite (proj1 (avoids_dashes (paramAt _ _))) by by apply paramAt_avoids.
  rewrite (proj1 (avoids_dashes (caseNameAt _ _ _))); [done|]. eapply case_name_avoids; [done|lia].
Qed.

Lemma entry_name_inj e1 e2 :
  e1 ∈ pl -> e2 ∈ pl -> (entry_name e1).1 = (entry_name e2).1 -> (entry_name e1).2 = (entry_name e2).2 -> e1 = e2.
Proof.
  intros H1 H2. destruct params_avoid as (P1 & _).
  destruct e1 as [|i1 o1|i1|i1|i1], e2 as [|i2 o2|i2|i2|i2]; cbn [entry_name fst snd]; try done;
    intros Hn Hb; apply Nat2Z.inj in Hb; subst; [|done..].
  apply elem_of_plan in H1 as (c1 & Hc1 & Ho1), H2 as (c2 & Hc2 & Ho2). assert (c2 = c1) as -> by congruence.
  f_equal. eapply (case_name_inj i2 c1 o1 o2); [done|lia|lia|].
  apply app_inv_head, app_inv_head in Hn. by injection Hn.
Qed.

Lemma NoDup_plan : NoDup pl.
Proof.
  unfold plan. apply list.NoDup_cons. split.
  { rewrite !elem_of_app, !elem_of_concat_imap. unfold case_entries, order_entries.
    intros [(i & c & _ & (? & ? & _)%list_elem_of_fmap)|[(i & o & _ & H)|[H|(? & ? & _)%list_elem_of_fmap]]]; try done.
    - destruct (ObDefault o); set_solver.
    - destruct (question profile); [apply list_elem_of_fmap in H as (? & ? & _)|set_solver]; done. }
  assert (forall {A} (f : nat -> A -> list entry) l, (forall i x, NoDup (f i x)) ->
    (forall i j x y e, e ∈ f i x -> e ∈ f j y -> i = j) -> NoDup (concat (imap f l))) as Hci.
  { intros A f l. revert f. induction l as [|x l IH]; intros f Hnd Hd; [constructor|]. cbn [imap concat].
    apply list.NoDup_app. split_and!; [done| |apply IH; [intros; apply Hnd|]].
    - intros e He (i & y & _ & He')%elem_of_concat_imap. by pose proof (Hd _ _ _ _ _ He He').
    - intros i j y z e He He'. pose proof (Hd _ _ _ _ _ He He'). lia. }
  apply list.NoDup_app. split_and!.
  - apply Hci; unfold case_entries.
    + intros i c. apply NoDup_fmap_2; [by intros ?? [= ->]|apply NoDup_ListNoDup, seq_NoDup].
    + intros i j c d e (? & -> & _)%list_elem_of_fmap (? & H & _)%list_elem_of_fmap. by injection H.
  - intros e (i & c & _ & (o & -> & _)%list_elem_of_fmap)%elem_of_concat_imap.
    rewrite !elem_of_app, elem_of_concat_imap. unfold order_entries.
    intros [(j & d & _ & H)|[H|(? & ? & _)%list_elem_of_fmap]]; [destruct (ObDefault d); set_solver| |done].
    destruct (question profile); [apply list_elem_of_fmap in H as (? & ? & _)|set_solver]; done.
  - apply list.NoDup_app. split_and!.
    + apply Hci; unfold order_entries.
      * intros i o. destruct (ObDefault o); [apply list.NoDup_singleton|constructor].
      * intros i j o d e. destruct (ObDefault o), (ObDefault d); set_solver.
    + intros e (i & o & _ & He)%elem_of_concat_imap. unfold order_entries in He.
      destruct (ObDefault o); [|set_solver]. apply list_elem_of_singleton in He as ->.
      rewrite elem_of_app. intros [H|(? & ? & _)%list_elem_of_fmap]; [|done].
      destruct (question profile); [apply list_elem_of_fmap in H as (? & ? & _)|set_solver]; done.
    + apply list.NoDup_app. split_and!.
      * destruct (question profile); [|constructor].
        apply NoDup_fmap_2; [by intros ?? [= ->]|apply NoDup_ListNoDup, seq_NoDup].
      * intros e He (? & -> & _)%list_elem_of_fmap. destruct (question profile); [|set_solver].
        by apply list_elem_of_fmap in He as (? & ? & _).
      * apply NoDup_fmap_2; [by intros ?? [= ->]|apply NoDup_ListNoDup, seq_NoDup].
Qed.

(** ** Final names *)

Abbreviation counts := (name_count (fst <$> (entry_name <$> pl))).

Lemma count_twice e1 e2 :
  e1 ∈ pl -> e2 ∈ pl -> e1 <> e2 -> (entry_name e1).1 = (entry_name e2).1 ->
  1 < default 0 (counts !! (entry_name e1).1).
Proof.
  intros H1 H2 Hne Hn. rewrite name_count_spec, <- list_fmap_compose.
  enough (forall l, NoDup l -> e1 ∈ l -> e2 ∈ l ->
    1 < length (filter (fun m => m = (entry_name e1).1) ((fun e => (entry_name e).1) <$> l))) as He
    by (apply He; [apply NoDup_plan|done|done]).
  clear H1 H2. intros l Hnd H1 H2. apply list_elem_of_split in H1 as (l1 & l2 & ->).
  assert (e2 ∈ l1 \/ e2 ∈ l2) as H by set_solver.
  assert (forall l, e2 ∈ l -> 0 < length (filter (fun m => m = (entry_name e1).1) ((fun e => (entry_name e).1) <$> l))) as Hpos.
  { intros l Hl. apply list_elem_of_split in Hl as (k1 & k2 & ->).
    rewrite fmap_app, fmap_cons, list.filter_app, filter_cons_True, length_app by done. simpl. lia. }
  rewrite fmap_app, fmap_cons, list.filter_app, filter_cons_True, length_app by done. simpl.
  destruct H as [H|H]; apply Hpos in H; lia.
Qed.

Lemma count_one e : e ∈ pl -> e = EMaximal -> default 0 (counts !! (entry_name e).1) <= 1.
Proof.
  intros He ->. rewrite name_count_spec, <- list_fmap_compose.
  enough (forall l, (forall e, e ∈ l -> e ∈ pl) -> NoDup l ->
    length (filter (fun m => m = (entry_name EMaximal).1) ((fun e => (entry_name e).1) <$> l)) <= 1) as H
    by (apply H; [done|apply NoDup_plan]).
  intros l Hl Hnd.
  enough (length (filter (fun m => m = (entry_name EMaximal).1) ((fun e => (entry_name e).1) <$> l))
    <= length (filter (fun e => e = EMaximal) l)) as Hle.
  { etransitivity; [exact Hle|]. clear -Hnd. induction Hnd as [|x l Hx Hnd IH]; [simpl; lia|].
    rewrite filter_cons. case_decide as Hd; [|done]. subst. simpl.
    assert (filter (fun e => e = EMaximal) l = []) as ->; [|simpl; lia].
    apply elem_of_nil_inv. intros y [-> Hy]%list_elem_of_filter. done. }
  clear Hnd. induction l as [|x l IH]; [done|]. rewrite fmap_cons, !filter_cons.
  specialize (IH ltac:(intros; apply Hl; set_solver)).
  case_decide as H1; case_decide as H2; rewrite ?length_cons; try lia.
  exfalso. pose proof (entry_name_dashes x ltac:(apply Hl; set_solver)) as Hd. rewrite H1 in Hd. by destruct x.
Qed.

Lemma final_name_inj e1 e2 :
  e1 ∈ pl -> e2 ∈ pl -> final_name counts (entry_name e1) = final_name counts (entry_name e2) -> e1 = e2.
Proof.
  intros H1 H2 Hf. unfold final_name in Hf.
  pose proof (entry_name_dashes _ H1) as D1. pose proof (entry_name_dashes _ H2) as D2.
  assert (forall e, e ∈ pl -> (entry_name e).2 = Z.of_nat (Z.to_nat (entry_name e).2) \/ e = EMaximal) as Hblk.
  { intros [] _; cbn; try (left; lia). by right. }
  assert (forall e, e ∈ pl -> 1 < default 0 (counts !! (entry_name e).1) ->
    avoids "-" (FormatInt (entry_name e).2) /\ e <> EMaximal) as Hs.
  { intros e He Hc. destruct (Hblk e He) as [->| ->].
    - split; [apply FormatInt_nat_avoids|]. intros ->. pose proof (count_one _ He eq_refl). lia.
    - pose proof (count_one _ He eq_refl). lia. }
  destruct (Nat.ltb_spec 1 (default 0 (counts !! (entry_name e1).1))) as [C1|C1],
    (Nat.ltb_spec 1 (default 0 (counts !! (entry_name e2).1))) as [C2|C2].
  - destruct (Hs _ H1 C1) as [A1 _], (Hs _ H2 C2) as [A2 _].
    apply app_sep_inj_r in Hf as [Hn Hb]; [|done..]. apply FormatInt_inj in Hb.
    by apply entry_name_inj.
  - destruct (Hs _ H1 C1) as [_ N1]. apply (f_equal dashes) in Hf. rewrite !dashes_app, D1, D2 in Hf.
    change (dashes (bs "-")) with 1 in Hf. destruct e1, e2; try done; lia.
  - destruct (Hs _ H2 C2) as [_ N2]. apply (f_equal dashes) in Hf. rewrite !dashes_app, D1, D2 in Hf.
    change (dashes (bs "-")) with 1 in Hf. destruct e1, e2; try done; lia.
  - destruct (decide (e1 = e2)) as [|Hne]; [done|]. pose proof (count_twice _ _ H1 H2 Hne Hf). lia.
Qed.

Lemma assigned_names rs :
  Renderings_unnamed profile q = Ok rs ->
  RShape <$> assignShapes q rs = (fun e => final_name counts (entry_name e)) <$> pl.
Proof.
  rewrite Renderings_is_plan. intros Hrs%rmap_ok. unfold assignShapes.
  assert (base_name names <$> rs = entry_name <$> pl) as Hb.
  { induction Hrs as [|e r es rs He _ IH]; [done|]. rewrite !fmap_cons, IH. f_equal. by apply base_name_entry. }
  rewrite Hb. assert (forall f l, RShape <$> ((fun r => set_shape (f (base_name names r)) r) <$> l)
    = f <$> (base_name names <$> l)) as He by (intros; by rewrite <- !list_fmap_compose).
  by rewrite (He (final_name counts)), Hb, <- list_fmap_compose.
Qed.

Lemma assigned_unique rs : Renderings_unnamed profile q = Ok rs -> NoDup (RShape <$> assignShapes q rs).
Proof.
  intros Hrs. rewrite (assigned_names _ Hrs).
  enough (forall l, (forall e, e ∈ l -> e ∈ pl) -> NoDup l -> NoDup ((fun e => final_name counts (entry_name e)) <$> l)) as H
    by (apply H; [done|apply NoDup_plan]).
  intros l Hall Hnd. revert Hall. induction Hnd as [|x l Hx Hnd IH];  intros Hall; [constructor|]. rewrite fmap_cons. apply list.NoDup_cons. split.
  - intros (y & Hy & Hin)%list_elem_of_fmap. apply Hx.
    by rewrite (final_name_inj x y ltac:(apply Hall; set_solver) ltac:(apply Hall; set_solver) Hy).
  - apply IH. intros. apply Hall. set_solver.
Qed.
End unique.

(** The renderings of a well-named query have pairwise distinct shape
    names, so each has a committed cache entry of its own. *)
Theorem shape_names_unique profile q rs :
  well_named q = true -> Renderings profile q = Ok rs -> NoDup (RShape <$> rs).
Proof.
  intros Hn (rs0 & H0 & H)%rbind_ok. injection H as <-. by eapply assigned_unique.
Qed.

Lemma shape_names_unique_witness :
  NoDup (RShape <$> get_ok [] (Renderings MySQL.Profile demo_query)).
Proof. apply (shape_names_unique MySQL.Profile demo_query); vm_compute; reflexivity. Defined.
