(* ===== verification/Diagnostics.v ===== *)
(** * Diagnostics

    [internal/diagnostics/diagnostics.go]: the reports of the compiler's
    phases.  A message is kept as its format string and the arguments of the
    [fmt.Sprintf] that builds it. *)

From Stdlib Require Import Sorted.
From S2P Require Import Prelude Template.

Inductive Severity := Error | Warning.

(** An argument of a format verb: [%s]/[%q] of a string, [%d] of an [int], or
    [%s] of a text that [fmt.Sprintf] built. *)
Inductive Arg := AStr (s : bytes) | AInt (z : Z) | ASprintf (format : bytes) (args : list Arg).

Record Diagnostic := mkDiagnostic {
  DCode : bytes; DSeverity : Severity; DSpan : Span;
  DFormat : bytes; DArgs : list Arg; DHint : bytes * list Arg;
}.

Definition Errorf (code : bytes) (span : Span) (format : string) (args : list Arg) : Diagnostic :=
  mkDiagnostic code Error span (bs format) args ([], []).

Definition Warnf (code : bytes) (span : Span) (format : string) (args : list Arg) : Diagnostic :=
  mkDiagnostic code Warning span (bs format) args ([], []).

Definition WithHintf (hint : string) (args : list Arg) (d : Diagnostic) : Diagnostic :=
  mkDiagnostic (DCode d) (DSeverity d) (DSpan d) (DFormat d) (DArgs d) (bs hint, args).

Definition WithHint (hint : string) (d : Diagnostic) : Diagnostic := WithHintf hint [] d.

(** [HasErrors] *)
Definition HasErrors (diags : list Diagnostic) : bool :=
  existsb (fun d => match DSeverity d with Error => true | Warning => false end) diags.

(** ** Order

    [a < b] on strings compares bytes. *)
Fixpoint bytes_ltb (a b : bytes) : bool :=
  match a, b with
  | _, [] => false
  | [], _ :: _ => true
  | c :: a', d :: b' =>
      if c =b d then bytes_ltb a' b' else N.ltb (N_of_ascii c) (N_of_ascii d)
  end.

Definition diag_less (a b : Diagnostic) : bool :=
  if negb (bool_decide (SFile (DSpan a) = SFile (DSpan b))) then
    bytes_ltb (SFile (DSpan a)) (SFile (DSpan b))
  else if negb (Nat.eqb (SStart (DSpan a)) (SStart (DSpan b))) then
    Nat.ltb (SStart (DSpan a)) (SStart (DSpan b))
  else bytes_ltb (DCode a) (DCode b).

(** [sort.SliceStable]: an element goes before the first one that is not less
    than it, the list being taken from its end, which keeps equal elements in
    order. *)
Fixpoint insert_stable {A} (less : A -> A -> bool) (x : A) (l : list A) : list A :=
  match l with
  | [] => [x]
  | y :: l' => if less y x then y :: insert_stable less x l' else x :: l
  end.
Definition SliceStable {A} (less : A -> A -> bool) (l : list A) : list A :=
  foldr (insert_stable less) [] l.

Definition Sort (diags : list Diagnostic) : list Diagnostic := SliceStable diag_less diags.

(** ** Lemmas *)

Lemma bytes_ltb_irrefl a : bytes_ltb a a = false.
Proof. induction a as [|c a IH]; cbn; [done|]. by rewrite Ascii.eqb_refl. Qed.

Lemma bytes_ltb_cons c a d b :
  bytes_ltb (c :: a) (d :: b) = true <-> (N_of_ascii c < N_of_ascii d)%N \/ (c = d /\ bytes_ltb a b = true).
Proof.
  cbn. destruct (Ascii.eqb_spec c d) as [->|Hne]; [naive_solver lia|]. rewrite N.ltb_lt. naive_solver.
Qed.

Lemma bytes_ltb_trans a b c : bytes_ltb a b = true -> bytes_ltb b c = true -> bytes_ltb a c = true.
Proof.
  revert b c. induction a as [|x a IH]; intros [|y b] [|z c]; try done.
  rewrite !bytes_ltb_cons. intros [H1|[-> H1]] [H2|[-> H2]]; [left; lia|by left|by left|right]. split; [done|by eapply IH].
Qed.

Lemma bytes_ltb_total a b : bytes_ltb a b = false -> bytes_ltb b a = false -> a = b.
Proof.
  revert b. induction a as [|x a IH]; intros [|y b]; try done. intros H1%not_true_iff_false H2%not_true_iff_false.
  rewrite bytes_ltb_cons in H1, H2.
  assert (N_of_ascii x = N_of_ascii y) as E by lia.
  apply (f_equal ascii_of_N) in E. rewrite !ascii_N_embedding in E. subst y. f_equal.
  apply IH; apply not_true_iff_false; naive_solver.
Qed.

(** The order of reports: [a] does not come after [b]. *)
Definition diag_le (a b : Diagnostic) : Prop := diag_less b a = false.

Lemma diag_less_spec a b : diag_less a b = true <->
  bytes_ltb (SFile (DSpan a)) (SFile (DSpan b)) = true \/
  (SFile (DSpan a) = SFile (DSpan b) /\
   (SStart (DSpan a) < SStart (DSpan b) \/
    (SStart (DSpan a) = SStart (DSpan b) /\ bytes_ltb (DCode a) (DCode b) = true))).
Proof.
  unfold diag_less. case_bool_decide as E1; cbn [negb].
  - rewrite E1, bytes_ltb_irrefl. destruct (Nat.eqb_spec (SStart (DSpan a)) (SStart (DSpan b))) as [E2|E2]; cbn [negb].
    + rewrite E2. naive_solver lia.
    + rewrite Nat.ltb_lt. naive_solver.
  - naive_solver.
Qed.

Lemma diag_less_trans a b c : diag_less a b = true -> diag_less b c = true -> diag_less a c = true.
Proof.
  rewrite !diag_less_spec. intros [H1|(E1 & H1)] [H2|(E2 & H2)].
  - left. by eapply bytes_ltb_trans.
  - left. by rewrite <- E2.
  - left. by rewrite E1.
  - right. split; [congruence|]. destruct H1 as [H1|[F1 H1]], H2 as [H2|[F2 H2]]; [left; lia..|right].
    split; [congruence|by eapply bytes_ltb_trans].
Qed.

(** Reports of the same place and code. *)
Definition same_place (a b : Diagnostic) : Prop :=
  SFile (DSpan a) = SFile (DSpan b) /\ SStart (DSpan a) = SStart (DSpan b) /\ DCode a = DCode b.

Lemma diag_less_total a b : diag_less a b = false -> diag_less b a = false -> same_place a b.
Proof.
  intros H1%not_true_iff_false H2%not_true_iff_false. rewrite diag_less_spec in H1, H2.
  assert (SFile (DSpan a) = SFile (DSpan b)) as E1.
  { apply bytes_ltb_total; apply not_true_iff_false; tauto. }
  assert (SStart (DSpan a) = SStart (DSpan b)) as E2.
  { destruct (Nat.lt_trichotomy (SStart (DSpan a)) (SStart (DSpan b))) as [?|[?|?]]; [|done|].
    - exfalso. apply H1. right. auto.
    - exfalso. apply H2. right. auto. }
  split_and!; [done..|]. apply bytes_ltb_total; apply not_true_iff_false; intros H.
  - apply H1. right. auto.
  - apply H2. right. auto.
Qed.

Lemma diag_less_same a b c : same_place a b -> diag_less a c = diag_less b c /\ diag_less c a = diag_less c b.
Proof. intros (E1 & E2 & E3). unfold diag_less. by rewrite E1, E2, E3. Qed.

#[export] Instance diag_le_trans : Transitive diag_le.
Proof.
  intros a b c H1 H2. unfold diag_le in *. destruct (diag_less c a) eqn:E; [|done].
  destruct (diag_less a b) eqn:E2.
  - by rewrite (diag_less_trans _ _ _ E E2) in H2.
  - pose proof (diag_less_total a b E2 H1) as Hs. destruct (diag_less_same a b c Hs) as [_ E3]. congruence.
Qed.

Lemma diag_less_le a b : diag_less a b = true -> diag_le a b.
Proof.
  intros H. unfold diag_le. destruct (diag_less b a) eqn:E; [|done].
  pose proof (diag_less_trans _ _ _ H E) as Hc. apply diag_less_spec in Hc.
  rewrite !bytes_ltb_irrefl in Hc. naive_solver lia.
Qed.

Lemma insert_stable_perm {A} (less : A -> A -> bool) x l : insert_stable less x l ≡ₚ x :: l.
Proof. induction l as [|y l IH]; cbn; [done|]. destruct (less y x); [|done]. rewrite IH. apply Permutation_swap. Qed.

Lemma SliceStable_perm {A} (less : A -> A -> bool) l : SliceStable less l ≡ₚ l.
Proof. induction l as [|x l IH]; cbn; [done|]. by rewrite insert_stable_perm, IH. Qed.

(** An order that is not strict sorts. *)
Section sorted.
Context {A : Type} (less : A -> A -> bool).
Abbreviation le := (fun a b => less b a = false).
Context (le_trans : forall a b c, le a b -> le b c -> le a c) (less_le : forall a b, less a b = true -> le a b).

Lemma insert_sorted x l : StronglySorted le l -> StronglySorted le (insert_stable less x l).
Proof.
  induction 1 as [|y l Hl IH Hy]; cbn; [by repeat constructor|]. destruct (less y x) eqn:E.
  - constructor; [done|]. rewrite insert_stable_perm. constructor; [by apply less_le|done].
  - constructor; [by constructor|]. constructor; [done|]. eapply Forall_impl; [|exact Hy]. intros z Hz. by eapply le_trans.
Qed.

Lemma SliceStable_sorted l : StronglySorted le (SliceStable less l).
Proof. induction l as [|d l IH]; cbn; [constructor|]. by apply insert_sorted. Qed.
End sorted.

Lemma Sort_sorted ds : StronglySorted diag_le (Sort ds).
Proof. apply SliceStable_sorted; [apply diag_le_trans|apply diag_less_le]. Qed.

(** ** Codes *)

Definition CodeConstructGrammar : bytes := bs "SQLETCH001".
Definition CodeBadIdentifier : bytes := bs "SQLETCH002".
Definition CodeMissingHeader : bytes := bs "SQLETCH003".
Definition CodeDuplicateQueryName : bytes := bs "SQLETCH004".
Definition CodeMultipleStatements : bytes := bs "SQLETCH005".
Definition CodeConstructNested : bytes := bs "SQLETCH006".
Definition CodeConstructBadSlot : bytes := bs "SQLETCH007".
Definition CodeConjunctNeedsAnd : bytes := bs "SQLETCH008".
Definition CodeChooseStructure : bytes := bs "SQLETCH009".
Definition CodeTooManyGuards : bytes := bs "SQLETCH010".
Definition CodePositionalParam : bytes := bs "SQLETCH011".
Definition CodeConstructNesting : bytes := bs "SQLETCH012".
Definition CodeTooManyParams : bytes := bs "SQLETCH013".
Definition CodeWhenIntLiteral : bytes := bs "SQLETCH014".
Definition CodeWhenStringLiteral : bytes := bs "SQLETCH015".
Definition CodeBadNoLint : bytes := bs "SQLETCH016".
Definition CodeBadTimeout : bytes := bs "SQLETCH017".
Definition CodeBadNullable : bytes := bs "SQLETCH018".
Definition CodeLoneCR : bytes := bs "SQLETCH024".
Definition CodeVacuousGuard : bytes := bs "SQLETCH110".
Definition CodeGuardNeverBinds : bytes := bs "SQLETCH111".
Definition CodeChooseParamBinds : bytes := bs "SQLETCH112".
Definition CodeUnanchoredClause : bytes := bs "SQLETCH113".
Definition CodeUnanchoredSet : bytes := bs "SQLETCH118".
Definition CodePairedGuards : bytes := bs "SQLETCH119".
Definition CodeInParamScalarMix : bytes := bs "SQLETCH120".
Definition CodePerfWrappedColumn : bytes := bs "SQLETCHL001".
Definition CodePerfLeadingLike : bytes := bs "SQLETCHL002".
Definition CodePerfManyNoLimit : bytes := bs "SQLETCHL003".
Definition CodePerfOffsetPaging : bytes := bs "SQLETCHL004".
Definition CodePerfTypeMismatch : bytes := bs "SQLETCHL005".

(** The codes a [@nolint] directive may suppress. *)
Definition PerfLintCodes : list bytes :=
  [CodePerfWrappedColumn; CodePerfLeadingLike; CodePerfManyNoLimit; CodePerfOffsetPaging;
   CodePerfTypeMismatch].

Definition IsPerfLint (c : bytes) : bool := bool_decide (c ∈ PerfLintCodes).
