(* ===== verification/Regex.v ===== *)
(** * Regex

    The regular expressions of the template scanner ([regexp.MustCompile] in
    [internal/template/scanner.go]): their syntax, and the leftmost-first
    matching of Go's [regexp] as a backtracking matcher with captures, which
    [rmatch_sound] and [rmatch_complete] relate to the usual meaning of the
    syntax.  The patterns all start with [^], so a search is a match at 0. *)

From S2P Require Import Prelude.

Inductive regex :=
  | REps
  | RChar (p : ascii -> bool)
  | RSeq (a b : regex)
  | RAlt (a b : regex)
  | RStar (greedy : bool) (a : regex)
  | RGroup (n : nat) (a : regex)
  | REnd
  | RWordBoundary.

(** Captures: group number to the range it matched. *)
Abbreviation captures := (gmap nat (nat * nat)).

(** [\w]; Go's classes are ASCII. *)
Definition is_word (c : ascii) : bool :=
  ((("a" <=b c) && (c <=b "z")) || (("A" <=b c) && (c <=b "Z"))
   || (("0" <=b c) && (c <=b "9")) || (c =b "_"))%char.

(** [\s] *)
Definition is_space (c : ascii) : bool :=
  ((c =b c_tab) || (c =b c_lf) || (c =b c_ff) || (c =b c_cr) || (c =b " "))%char.

Definition word_at (s : bytes) (i : nat) : bool := at_sat is_word s i.

(** [\b]: a word character on exactly one side. *)
Definition word_boundary (s : bytes) (i : nat) : bool :=
  xorb (match i with O => false | S j => word_at s j end) (word_at s i).

Section matcher.
Context (s : bytes).

(** [rmatch r i caps k] matches [r] from offset [i] and goes on with [k],
    trying the alternatives in order of preference.  A round of a starred
    expression must consume; [fuel] bounds the rounds by the length of the
    text. *)
Section star.
Context (body : nat -> captures -> (nat -> captures -> option captures) -> option captures)
        (greedy : bool) (k : nat -> captures -> option captures).
Fixpoint star_loop (fuel : nat) (i : nat) (caps : captures) : option captures :=
  let stop := k i caps in
  let more :=
    match fuel with
    | O => None
    | S f => body i caps (fun j c => if Nat.ltb i j then star_loop f j c else None)
    end in
  if greedy then match more with Some c => Some c | None => stop end
  else match stop with Some c => Some c | None => more end.
End star.

Fixpoint rmatch (r : regex) (i : nat) (caps : captures)
    (k : nat -> captures -> option captures) {struct r} : option captures :=
  match r with
  | REps => k i caps
  | RChar p => if at_sat p s i then k (S i) caps else None
  | RSeq a b => rmatch a i caps (fun j c => rmatch b j c k)
  | RAlt a b =>
      match rmatch a i caps k with Some c => Some c | None => rmatch b i caps k end
  | RStar greedy a => star_loop (rmatch a) greedy k (S (length s)) i caps
  | RGroup n a => rmatch a i caps (fun j c => k j (<[n := (i, j)]> c))
  | REnd => if Nat.eqb i (length s) then k i caps else None
  | RWordBoundary => if word_boundary s i then k i caps else None
  end.
End matcher.

(** [re.FindStringSubmatch(s)]: the captures, [None] for Go's [nil]. *)
Definition FindStringSubmatch (re : regex) (s : bytes) : option captures :=
  rmatch s re 0 ∅ (fun _ c => Some c).

Definition MatchString (re : regex) (s : bytes) : bool :=
  match FindStringSubmatch re s with Some _ => true | None => false end.

(** [m[n]]: empty for a group that took no part in the match. *)
Definition group (s : bytes) (m : captures) (n : nat) : bytes :=
  match m !! n with Some (i, j) => slice s i j | None => [] end.

(** ** Notations for patterns *)

Definition rlit (t : string) : regex :=
  foldr (fun c r => RSeq (RChar (Ascii.eqb c)) r) REps (bs t).
Definition rplus (greedy : bool) (a : regex) : regex := RSeq a (RStar greedy a).
Definition ropt (a : regex) : regex := RAlt a REps.
Definition rseq (l : list regex) : regex := foldr RSeq REps l.
Definition ralts (l : list regex) : regex :=
  match l with [] => REps | r :: l' => foldl RAlt r l' end.

Definition rspace : regex := RChar is_space.
Definition rspaces : regex := RStar true rspace.
Definition rspaces1 : regex := rplus true rspace.
(** [.], any character but a newline, and [\S]. *)
Definition rdot : regex := RChar (fun c => negb (c =b c_lf)%char).
Definition rnonspace : regex := RChar (fun c => negb (is_space c)).
Definition is_lower (c : ascii) : bool := (("a" <=b c) && (c <=b "z"))%char.
Definition is_upper (c : ascii) : bool := (("A" <=b c) && (c <=b "Z"))%char.
Definition is_digit (c : ascii) : bool := (("0" <=b c) && (c <=b "9"))%char.
Definition rsnake : regex :=
  RSeq (RChar is_lower) (RStar true (RChar (fun c => is_lower c || is_digit c || (c =b "_")%char))).

(** * The meaning of the syntax *)

(** [matches s r i j]: the text between [i] and [j] is in the language of [r]
    at that place. *)
Inductive matches (s : bytes) : regex -> nat -> nat -> Prop :=
  | MEps i : matches s REps i i
  | MChar p i : at_sat p s i = true -> matches s (RChar p) i (S i)
  | MSeq a b i j l : matches s a i j -> matches s b j l -> matches s (RSeq a b) i l
  | MAltL a b i j : matches s a i j -> matches s (RAlt a b) i j
  | MAltR a b i j : matches s b i j -> matches s (RAlt a b) i j
  | MStar0 g a i : matches s (RStar g a) i i
  | MStarS g a i j l : i < j -> matches s a i j -> matches s (RStar g a) j l -> matches s (RStar g a) i l
  | MGroup n a i j : matches s a i j -> matches s (RGroup n a) i j
  | MEnd : matches s REnd (length s) (length s)
  | MWord i : word_boundary s i = true -> matches s RWordBoundary i i.

Lemma matches_bounds s r i j : matches s r i j -> i <= length s -> i <= j <= length s.
Proof.
  induction 1; intros Hi; try lia; try (by auto).
  apply at_sat_lt in H. lia.
Qed.

(** Every match the matcher hands to its continuation is a match. *)
Lemma rmatch_sound s r i caps k c :
  rmatch s r i caps k = Some c -> exists j caps', matches s r i j /\ k j caps' = Some c.
Proof.
  revert i caps k. induction r as [|p|a IHa b IHb|a IHa b IHb|g a IHa|n a IHa| |]; intros i caps k; cbn [rmatch].
  - intros. eexists _, _. split; [constructor|done].
  - destruct (at_sat p s i) eqn:E; [|done]. intros. eexists _, _. split; [by constructor|done].
  - intros (j & c1 & H1 & (l & c2 & H2 & Hk)%IHb)%IHa. eexists _, _. split; [by econstructor|done].
  - destruct (rmatch s a i caps k) eqn:E.
    + intros [= ->]. apply IHa in E as (j & c1 & H1 & Hk). eexists _, _. split; [by apply MAltL|done].
    + intros (j & c1 & H1 & Hk)%IHb. eexists _, _. split; [by apply MAltR|done].
  - generalize (S (length s)) as fuel. intros fuel. revert i caps.
    assert (forall i caps, k i caps = Some c -> exists j caps', matches s (RStar g a) i j /\ k j caps' = Some c) as Hstop.
    { intros i caps H. eexists _, _. split; [constructor|done]. }
    induction fuel as [|f IH]; intros i caps; cbn [star_loop].
    + destruct g; [by apply Hstop|]. cbv beta zeta. destruct (k i caps) eqn:E; [|done]. intros [= ->]. by apply Hstop in E.
    + set (more := rmatch _ _ _ _ _).
      assert (more = Some c -> exists j caps', matches s (RStar g a) i j /\ k j caps' = Some c) as Hmore.
      { intros (j & c1 & H1 & H2)%IHa. cbv beta in H2. destruct (Nat.ltb_spec i j); [|discriminate H2].
        apply IH in H2 as (l & c2 & H2 & Hk). eexists _, _. split; [by econstructor|done]. }
      cbv beta zeta. destruct g.
      * destruct more; [by intros [= ->]; apply Hmore|by apply Hstop].
      * destruct (k i caps) eqn:E; [intros [= ->]; by apply Hstop in E|done].
  - intros (j & c1 & H1 & Hk)%IHa. eexists _, _. split; [by constructor|done].
  - destruct (Nat.eqb_spec i (length s)) as [->|]; [|done]. intros. eexists _, _. split; [constructor|done].
  - destruct (word_boundary s i) eqn:E; [|done]. intros. eexists _, _. split; [by constructor|done].
Qed.

(** A match is found whenever there is one that the continuation accepts. *)
Lemma rmatch_complete s r i j :
  matches s r i j -> i <= length s ->
  forall caps k, (forall caps', is_Some (k j caps')) -> is_Some (rmatch s r i caps k).
Proof.
  assert (forall g a i j, matches s (RStar g a) i j -> i <= length s ->
    (forall i j, matches s a i j -> i <= length s -> forall caps k,
       (forall caps', is_Some (k j caps')) -> is_Some (rmatch s a i caps k)) ->
    forall fuel caps k, length s - i < fuel -> (forall caps', is_Some (k j caps')) ->
    is_Some (star_loop (rmatch s a) g k fuel i caps)) as Hstar.
  { clear r i j. intros g0 a0 i j Hm. remember (RStar g0 a0) as r eqn:Er. revert g0 a0 Er.
    induction Hm as [| | | | |g' a' i|g' a' i j l Hlt Ha _ Hs IH| | |]; intros g1 a1 Er Hi Hbody fuel caps k Hf Hk;
      try discriminate Er; injection Er as -> ->; rename g1 into g, a1 into a.
    - destruct fuel as [|f]; [lia|]. cbn [star_loop]. cbv zeta. destruct (Hk caps) as [c Hc]. rewrite Hc.
      destruct g; [destruct (rmatch _ _ _ _ _); by eexists|by eexists].
    - destruct fuel as [|f]; [lia|]. cbn [star_loop]. cbv zeta. pose proof (matches_bounds _ _ _ _ Ha Hi) as Hj.
      assert (is_Some (rmatch s a i caps (fun j c => if i <? j then star_loop (rmatch s a) g k f j c else None))) as [c Hc].
      { eapply Hbody; [exact Ha|done|]. intros caps'. cbv beta. rewrite (proj2 (Nat.ltb_lt i j) Hlt).
        eapply IH; [done|lia|exact Hbody|lia|exact Hk]. }
      rewrite Hc. destruct g; [by eexists|]. destruct (k i caps); by eexists. }
  revert i j. induction r as [|p|a IHa b IHb|a IHa b IHb|g a IHa|n a IHa| |]; intros i j Hm Hi caps k Hk; cbn [rmatch].
  - inversion Hm; subst. apply Hk.
  - inversion Hm as [|? ? Hp| | | | | | | |]; subst. rewrite Hp. apply Hk.
  - inversion Hm as [| |? ? ? l ? H1 H2| | | | | | |]; subst. eapply IHa; [exact H1|done|].
    intros caps'. eapply IHb; [exact H2| |exact Hk]. apply (matches_bounds _ _ _ _ H1 Hi).
  - inversion Hm as [| | |? ? ? ? H1|? ? ? ? H1| | | | |]; subst.
    + destruct (IHa _ _ H1 Hi caps k Hk) as [c ->]. by eexists.
    + destruct (rmatch s a i caps k); [by eexists|]. by eapply IHb.
  - eapply Hstar; [exact Hm|done|exact IHa|lia|exact Hk].
  - inversion Hm; subst. eapply IHa; [eassumption|done|]. intros. apply Hk.
  - inversion Hm; subst. rewrite Nat.eqb_refl. apply Hk.
  - inversion Hm as [| | | | | | | | |? Hw]; subst. rewrite Hw. apply Hk.
Qed.

(** [MatchString] decides the language of the pattern, for texts it matches
    from the start. *)
Lemma MatchString_spec re s : MatchString re s = true <-> exists j, matches s re 0 j.
Proof.
  unfold MatchString, FindStringSubmatch. split.
  - destruct (rmatch _ _ _ _ _) eqn:E; [|done]. intros _. apply rmatch_sound in E as (j & ? & H & _). by exists j.
  - intros [j H]. destruct (rmatch_complete s re 0 j H ltac:(lia) ∅ (fun _ c => Some c)) as [c ->]; [|done].
    intros. by eexists.
Qed.
