(* ===== verification/Lexical.v ===== *)
(** * Lexical

    [internal/rules/lexical.go]: the rules that need no catalog - R6, anchored
    clauses; R7, the pairing of optional INSERT columns and values; R9, the
    discipline of parameters, which also classifies each of them as optional
    or required ([Param.Optional]). *)

From S2P Require Import Prelude Dialect Template Render RenderInv Simulation Diagnostics.

(** ** Guard sets ([resolved.go]) *)

Definition containsAtom (atoms : list GuardAtom) (a : GuardAtom) : bool := bool_decide (a ∈ atoms).

Definition supersetAtoms (super sub : list GuardAtom) : bool := forallb (containsAtom super) sub.

Definition sameAtoms (a b : list GuardAtom) : bool := supersetAtoms a b && supersetAtoms b a.

Definition atomsParamList (atoms : list GuardAtom) : bytes := join (bs ", ") (GParam <$> atoms).

(** ** R7 *)

Definition pair_item (r i : nat) (item col : GuardedItem) : list Diagnostic :=
  if sameAtoms (GIGuards item) (GIGuards col) then []
  else [Errorf CodePairedGuards (GISpan item)
    "VALUES row %d item %d is guarded by @if-present(%s) but the paired column %q is guarded by @if-present(%s); pairs must share the same guard (R7)"
    [AInt (Z.of_nat (r + 1)); AInt (Z.of_nat (i + 1)); AStr (atomsParamList (GIGuards item));
     AStr (GIName col); AStr (atomsParamList (GIGuards col))]].

Definition pair_row (q : QueryTemplate) (r : nat) (row : list GuardedItem) : list Diagnostic :=
  let cols := QInsertColGuards q in
  if decide (length row <> length cols) then
    let span := match row, cols with
                | it :: _, _ => GISpan it
                | [], c :: _ => GISpan c
                | [], [] => QHeaderSpan q
                end in
    [Errorf CodePairedGuards span
      "VALUES row %d has %d optional items but the column list has %d; every guarded column needs its guarded value in every row (R7)"
      [AInt (Z.of_nat (r + 1)); AInt (Z.of_nat (length row)); AInt (Z.of_nat (length cols))]]
  else concat (imap (fun i '(item, col) => pair_item r i item col) (zip row cols)).

Definition checkInsertPairing (q : QueryTemplate) : list Diagnostic :=
  let cols := QInsertColGuards q in
  let rows := QInsertValGuards q in
  let hasRowGuards := existsb (fun r => Nat.ltb 0 (length r)) rows in
  match cols with
  | [] => if hasRowGuards then concat (imap (pair_row q) rows) else []
  | c :: _ =>
      match rows with
      | [] => [Errorf CodePairedGuards (GISpan c)
                "optional INSERT columns require a VALUES clause with matching optional items (R7)" []]
      | _ => concat (imap (pair_row q) rows)
      end
  end.

(** ** R6 *)

Section anchors.
(** [strings.ToUpper], which maps all of Unicode. *)
Context (ToUpper : bytes -> bytes) (profile : LexerProfile).

(** The token loop over a skeleton's text. *)
Definition anchor_tok (lastTok : bytes) (tok : Token) : bytes :=
  match Kind tok with
  | KindWhitespace | KindLineComment | KindBlockComment => lastTok
  | KindIdent => ToUpper (Text tok)
  | _ => Text tok
  end.

Definition is_slot (v : IfPresent) (s : Slot) : bool := bool_decide (IPSlot v = s).

Definition anchor_ifpresent (v : IfPresent) (lastTok : bytes) : option Diagnostic :=
  if is_slot v SlotWhereConjunct && bool_decide (lastTok = bs "WHERE") then
    Some (WithHint "write `WHERE TRUE` as the unconditional anchor"
      (Errorf CodeUnanchoredClause (IPSpan v)
        "every WHERE conjunct is optional; the shape with all guards off would be invalid SQL (R6)" []))
  else if is_slot v SlotHavingConjunct && bool_decide (lastTok = bs "HAVING") then
    Some (WithHint "write `HAVING TRUE` as the unconditional anchor"
      (Errorf CodeUnanchoredClause (IPSpan v)
        "every HAVING conjunct is optional; the shape with all guards off would be invalid SQL (R6)" []))
  else if is_slot v SlotSetItem && bool_decide (lastTok = bs "SET") then
    Some (WithHint "add an unconditional item, e.g. `updated_at = now()`"
      (Errorf CodeUnanchoredSet (IPSpan v)
        "every SET item is optional; the shape with all guards off would be `UPDATE ... SET` with no assignments (R6)" []))
  else if (is_slot v SlotInsertColumn || is_slot v SlotInsertValue) && bool_decide (lastTok = bs "(") then
    Some (WithHint "keep at least one unconditional column/value pair"
      (Errorf CodeUnanchoredSet (IPSpan v)
        "every item of this INSERT list is optional; the shape with all guards off would leave the parentheses empty (R6)" []))
  else None.

(** The loop over the items; [lastTok] is its state. *)
Fixpoint anchor_loop (items : list Item) (lastTok : bytes) : list Diagnostic :=
  match items with
  | [] => []
  | ISkeleton v :: rest => anchor_loop rest (foldl anchor_tok lastTok (tokens (SkText v)).1)
  | IIfPresent v :: rest =>
      match anchor_ifpresent v lastTok with
      | Some d => [d]
      | None => anchor_loop rest (bs "@construct")
      end
  | _ :: rest => anchor_loop rest (bs "@construct")
  end.

Definition checkAnchors (q : QueryTemplate) : list Diagnostic := anchor_loop (QItems q) [].
End anchors.

(** ** R9 *)

(** The run-time panic of following a nil pointer. *)
Inductive NilDereference := NilPointer.

(** [guardSpan]: the first [@if-present] that uses the atom. *)
Definition guardSpan (q : QueryTemplate) (a : GuardAtom) : Span :=
  match omap (fun it => match it with
               | IIfPresent ip => if containsAtom (IPGuards ip) a then Some (IPSpan ip) else None
               | _ => None
               end) (QItems q) with
  | s :: _ => s
  | [] => QHeaderSpan q
  end.

(** The control parameters and the spans of their blocks; a later block of
    the same name replaces an earlier one. *)
Definition control_map (f : Item -> option (bytes * Span)) (q : QueryTemplate) : gmap bytes Span :=
  foldl (fun m it => match f it with Some (n, s) => <[n := s]> m | None => m end) ∅ (QItems q).

Definition choose_param (it : Item) : option (bytes * Span) :=
  match it with IChoose c => Some (ChParam c, ChSpan c) | _ => None end.
Definition order_param (it : Item) : option (bytes * Span) :=
  match it with IOrderBy o => Some (ObParam o, ObSpan o) | _ => None end.
Definition filter_param (it : Item) : option (bytes * Span) :=
  match it with IFilterTree f => Some (FtParam f, FtSpan f) | _ => None end.

Definition set_optional (b : bool) (p : Param) : Param :=
  mkParam (PName p) (POccurrences p) (PGuardBit p) b (PPolicy p).

(** The two reports on a control parameter. *)
Definition control_diags (p : Param) (name : bytes) (span : Span) (bindsMsg guardMsg : string)
    : list Diagnostic :=
  match POccurrences p with
  | occ :: _ => [Errorf CodeChooseParamBinds (OcSpan occ) bindsMsg [AStr (":"%char :: name)]]
  | [] => []
  end ++
  (if Z.leb 0 (PGuardBit p) then [Errorf CodeChooseParamBinds span guardMsg [AStr name]] else []).

(** The loop over the occurrences: [hasSelfGuarded], [allSelfGuarded] and
    [firstUnguarded]. *)
Definition self_guarded (name : bytes) (occ : Occurrence) : bool :=
  negb (OcInChooseCase occ) && containsAtom (OcGuards occ) (presence name).

Definition self_loop (name : bytes) (p : Param) : bool * bool * option Span :=
  foldl (fun st occ =>
    let '(has, all, first) := st in
    if self_guarded name occ then (true, all, first)
    else (has, false, match first with None => Some (OcSpan occ) | Some _ => first end))
    (false, negb (bool_decide (POccurrences p = [])), None) (POccurrences p).

(** [hasPresence] and [hasValue] *)
Definition has_presence (q : QueryTemplate) (name : bytes) : bool :=
  existsb (fun g => bool_decide (GParam g = name) && negb (IsValue g)) (QGuardAtoms q).
Definition has_value (q : QueryTemplate) (name : bytes) : bool :=
  existsb (fun g => bool_decide (GParam g = name) && IsValue g) (QGuardAtoms q).

(** The end of an iteration, for a parameter bound as a plain value: its
    reports and its classification.  The dereference of [firstUnguarded] may
    panic. *)
Definition discipline_value (q : QueryTemplate) (name : bytes) (p : Param)
    : result NilDereference (list Diagnostic * bool) :=
  let isGuard := Z.leb 0 (PGuardBit p) && has_presence q name in
  let '(hasSelfGuarded, allSelfGuarded, firstUnguarded) := self_loop name p in
  let optional := isGuard && allSelfGuarded && hasSelfGuarded in
  if isGuard then
    if negb hasSelfGuarded then
      Ok ([WithHint "bind it in the guarded fragment, or use @when for pure control parameters"
        (Errorf CodeGuardNeverBinds (guardSpan q (presence name))
          "guard parameter %q never binds inside a fragment it guards; its Go type would be uninferable (R9)"
          [AStr name])], optional)
    else if negb allSelfGuarded then
      let! span := or_err firstUnguarded NilPointer in
      Ok ([Errorf CodeVacuousGuard span
        "%q binds outside its own guard, making it required — guarding on a required parameter is always true (R9)"
        [AStr (":"%char :: name)]], optional)
    else Ok ([], optional)
  else Ok ([], optional).

(** One iteration of the loop over [q.ParamOrder]: its reports and the
    parameter as it leaves it. *)
Definition discipline_param (q : QueryTemplate) (name : bytes) (p : Param)
    : result NilDereference (list Diagnostic * Param) :=
  match control_map choose_param q !! name with
  | Some span => Ok (control_diags p name span
      "%q is a @choose control parameter; it selects a case and cannot also bind as a SQL value (R9)"
      "%q cannot be both a @choose parameter and an @if-present guard (R9)", p)
  | None =>
  match control_map order_param q !! name with
  | Some span => Ok (control_diags p name span
      "%q is an @order-by control parameter; it selects sort keys and cannot also bind as a SQL value (R9)"
      "%q cannot be both an @order-by parameter and a guard (R9)", p)
  | None =>
  match control_map filter_param q !! name with
  | Some span => Ok (control_diags p name span
      "%q is a @filter-tree control parameter; it carries the tree and cannot also bind as a SQL value (R9)"
      "%q cannot be both a @filter-tree parameter and a guard (R9)", p)
  | None =>
      let occs := POccurrences p in
      let occ0 := match occs with o :: _ => OcSpan o | [] => mkSpan [] 0 0 end in
      let inIn := existsb OcInIn occs in
      let scalar := existsb (fun o => negb (OcInIn o)) occs in
      let inFT := existsb OcInFilterTree occs in
      let outFT := existsb (fun o => negb (OcInFilterTree o)) occs in
      if inIn && scalar then
        Ok ([WithHint "use distinct parameter names for the @in list and the scalar bind"
          (Errorf CodeInParamScalarMix occ0
            "%q is bound by @in as a variable-arity list and also as a plain scalar value; the scalar bind would receive the whole list and fail at runtime (R9)"
            [AStr (":"%char :: name)])], p)
      else if inFT && outFT then
        Ok ([Errorf CodeChooseParamBinds occ0
          "%q binds both inside a @predicate (constructor argument) and outside it; use distinct parameter names (R9)"
          [AStr (":"%char :: name)]], p)
      else if inFT then Ok ([], set_optional false p)
      else if has_presence q name && has_value q name then
        Ok ([Errorf CodeVacuousGuard (guardSpan q (presence name))
          "%q is used both as an @if-present guard (presence, pointer) and in @when (value, required); pick one (R9)"
          [AStr name]], set_optional false p)
      else if has_value q name then Ok ([], set_optional false p)
      else
        let! '(ds, optional) := discipline_value q name p in
        Ok (ds, set_optional optional p)
  end end end.

(** [checkParamDiscipline]: the reports and the parameters with their
    classification, which the code writes through the pointers of
    [q.Params]; a name without a parameter is a nil pointer. *)
Definition checkParamDiscipline (q : QueryTemplate)
    : result NilDereference (list Diagnostic * gmap bytes Param) :=
  rfold (fun '(ds, params) name =>
    let! p := or_err (params !! name) NilPointer in
    let! '(ds', p') := discipline_param q name p in
    Ok (ds ++ ds', <[name := p']> params)) ([], QParams q) (QParamOrder q).

Definition set_params (params : gmap bytes Param) (q : QueryTemplate) : QueryTemplate :=
  mkQuery (QName q) (QAnnotation q) (QHeaderSpan q) (QItems q) (QParamOrder q) params
    (QGuardAtoms q) (QInsertColGuards q) (QInsertValGuards q) (QTypeHints q) (QColumnHints q)
    (QWhereKwEnd q) (QTailStart q) (QStmtEnd q) (QPolicyOptOuts q) (QPolicyApplies q)
    (QTimeout q) (QNoLints q) (QNullOverrides q).

(** [CheckLexical]: the reports and the query with its parameters classified. *)
Definition CheckLexical (ToUpper : bytes -> bytes) (profile : LexerProfile) (q : QueryTemplate)
    : result NilDereference (list Diagnostic * QueryTemplate) :=
  let! '(ds, params) := checkParamDiscipline q in
  Ok (checkAnchors ToUpper profile q ++ checkInsertPairing q ++ ds, set_params params q).

(** ** What a shape keeps of a list of optional items *)

(** The guard test of [RenderShape] on a guard list. *)
Definition guards_on (bit : gmap GuardAtom nat) (guardMask : N) (guards : list GuardAtom) : bool :=
  forallb (fun g => match bit !! g with
                    | Some b => negb (N.eqb (N.land guardMask (bit64 b)) 0)
                    | None => false
                    end) guards.

(** Which items of a list a shape keeps. *)
Definition kept (q : QueryTemplate) (guardMask : N) (items : list GuardedItem) : list bool :=
  (fun it => guards_on (guard_bits q) guardMask (GIGuards it)) <$> items.

(** The guard lists of the INSERT items use declared atoms only. *)
Definition insert_guards_declared (q : QueryTemplate) : bool :=
  forallb (fun it => bool_decide (GIGuards it ⊆ QGuardAtoms q))
    (QInsertColGuards q ++ concat (QInsertValGuards q)).

(** * Lemmas *)

Lemma guard_active_on bit mask v : guard_active bit mask v = guards_on bit mask (IPGuards v).
Proof. done. Qed.

Lemma supersetAtoms_spec a b : supersetAtoms a b = true <-> b ⊆ a.
Proof.
  unfold supersetAtoms, containsAtom. rewrite forallb_forall. setoid_rewrite bool_decide_eq_true.
  split; intros H x Hx; apply H; by apply list_elem_of_In.
Qed.

Lemma sameAtoms_spec a b : sameAtoms a b = true <-> (forall g, g ∈ a <-> g ∈ b).
Proof. unfold sameAtoms. rewrite andb_true_iff, !supersetAtoms_spec. set_solver. Qed.

Lemma guard_bits_spec q g b :
  NoDup (QGuardAtoms q) -> guard_bits q !! g = Some b <-> QGuardAtoms q !! b = Some g.
Proof.
  intros Hnd. unfold guard_bits.
  rewrite (foldl_imap_insert_lookup (fun i => i) (QGuardAtoms q) 0 ∅ g b Hnd). rewrite lookup_empty.
  split; [intros [(i & Hi & ->)|[_ ?]]; done|]. intros H. left. by exists b.
Qed.

Section masks.
Context (q : QueryTemplate).
Hypothesis Hnd : NoDup (QGuardAtoms q).
Hypothesis Hlen : length (QGuardAtoms q) <= MaxGuards.

(** The mask that turns on the given atoms and no other. *)
Lemma guards_on_spec mask guards :
  guards ⊆ QGuardAtoms q ->
  guards_on (guard_bits q) mask guards = true <->
  forall g b, g ∈ guards -> QGuardAtoms q !! b = Some g -> N.testbit mask (N.of_nat b) = true.
Proof.
  intros Hsub. unfold guards_on. rewrite forallb_forall. split.
  - intros H g b Hg Hb. apply list_elem_of_In in Hg. apply H in Hg.
    apply guard_bits_spec in Hb as Hb'; [|done]. rewrite Hb' in Hg. apply lookup_lt_Some in Hb.
    unfold MaxGuards in Hlen. rewrite land_bit64, negb_involutive in Hg by lia. done.
  - intros H g Hg. apply list_elem_of_In in Hg.
    destruct (guard_bits q !! g) as [b|] eqn:Eb.
    + apply guard_bits_spec in Eb; [|done]. pose proof (lookup_lt_Some _ _ _ Eb). unfold MaxGuards in Hlen.
      rewrite land_bit64, negb_involutive by lia. by eapply H.
    + destruct (guard_bits_dom q g (Hsub _ Hg)) as [? He]. by rewrite Eb in He.
Qed.

Lemma guards_on_same a b :
  a ⊆ QGuardAtoms q -> b ⊆ QGuardAtoms q ->
  sameAtoms a b = true <->
  forall mask, guards_on (guard_bits q) mask a = guards_on (guard_bits q) mask b.
Proof.
  intros Ha Hb. rewrite sameAtoms_spec. split.
  - intros H mask. apply eq_bool_prop_intro. rewrite !Is_true_true, !guards_on_spec by done.
    split; intros Hm g i Hg; apply Hm; by apply H.
  - intros H.
    assert (forall x y, x ⊆ QGuardAtoms q -> y ⊆ QGuardAtoms q ->
      (forall mask, guards_on (guard_bits q) mask x = true -> guards_on (guard_bits q) mask y = true) -> y ⊆ x)
      as Hmain.
    { clear a b Ha Hb H. intros a b Ha Hb H g Hg.
      set (mask := foldl (fun m x => N.lor m (bit64 (default 0 (guard_bits q !! x)))) 0%N a).
      assert (guards_on (guard_bits q) mask b = true) as Hon.
      { apply H, guards_on_spec; [done|]. intros x i Hx Hi. unfold mask.
        rewrite guard_mask_testbit, N.bits_0. simpl. apply existsb_exists. exists x.
        split; [by apply list_elem_of_In|]. apply guard_bits_spec in Hi as Hi'; [|done]. rewrite Hi'. simpl.
        apply lookup_lt_Some in Hi. unfold MaxGuards in Hlen.
        rewrite bit64_testbit, N.eqb_refl. destruct (N.ltb_spec (N.of_nat i) 64); [done|lia]. }
      rewrite guards_on_spec in Hon by done. pose proof (Hb _ Hg) as [i Hi]%list_elem_of_lookup.
      specialize (Hon _ _ Hg Hi). unfold mask in Hon. rewrite guard_mask_testbit, N.bits_0 in Hon. simpl in Hon.
      apply existsb_exists in Hon as (x & Hx & Hbit). apply list_elem_of_In in Hx.
      rewrite bit64_testbit in Hbit. apply andb_prop in Hbit as [_ Hbit]. apply N.eqb_eq in Hbit.
      pose proof (Ha _ Hx) as [j Hj]%list_elem_of_lookup. apply guard_bits_spec in Hj as Hj'; [|done].
      rewrite Hj' in Hbit. simpl in Hbit. assert (i = j) as -> by lia. congruence. }
    intros g. split; [apply (Hmain b a)|apply (Hmain a b)]; try done; intros mask; by rewrite H.
Qed.
End masks.

(** ** R7 *)

Lemma pair_row_ok q r row :
  pair_row q r row = [] <->
  Forall2 (fun it col => sameAtoms (GIGuards it) (GIGuards col) = true) row (QInsertColGuards q).
Proof.
  unfold pair_row. generalize (QInsertColGuards q) as cols. intros cols.
  case_decide as Hl.
  - split; [by destruct row, cols|]. intros H%Forall2_length. done.
  - enough (forall k, concat (imap (fun i '(item, col) => pair_item r (k + i) item col) (zip row cols)) = []
      <-> Forall2 (fun it col => sameAtoms (GIGuards it) (GIGuards col) = true) row cols) as He.
    { apply (He 0). }
    revert cols Hl. induction row as [|it row IH]; intros [|col cols] Hl k; simplify_eq/=; [by split|].
    rewrite (imap_ext _ (fun i '(item, col) => pair_item r (S k + i) item col))
      by (intros ? []; cbn; intros; f_equal; lia).
    assert (pair_item r (k + 0) it col = [] <-> sameAtoms (GIGuards it) (GIGuards col) = true) as Hp.
    { unfold pair_item. destruct (sameAtoms _ _); naive_solver. }
    specialize (IH cols ltac:(done) (S k)). split.
    + intros [Ha Hb]%app_eq_nil. constructor; [by apply Hp|by apply IH].
    + inversion_clear 1 as [|???? Ha Hb]. apply Hp in Ha. apply IH in Hb. cbn [concat imap zip]. rewrite Ha. exact Hb.
Qed.

Lemma checkInsertPairing_nil q :
  checkInsertPairing q = [] <->
  (QInsertColGuards q <> [] -> QInsertValGuards q <> []) /\
  forall row, row ∈ QInsertValGuards q ->
    Forall2 (fun it col => sameAtoms (GIGuards it) (GIGuards col) = true) row (QInsertColGuards q).
Proof.
  assert (forall rows, concat (imap (pair_row q) rows) = [] <->
    forall row, row ∈ rows ->
      Forall2 (fun it col => sameAtoms (GIGuards it) (GIGuards col) = true) row (QInsertColGuards q)) as Hrows.
  { intros rows. rewrite concat_imap_nil. setoid_rewrite pair_row_ok. split.
    - intros H row [i Hi]%list_elem_of_lookup. by eapply H.
    - intros H i x Hi. eapply H, list_elem_of_lookup_2, Hi. }
  unfold checkInsertPairing. destruct (QInsertColGuards q) as [|c cols] eqn:Ec.
  - destruct (existsb _ _) eqn:Eh; [rewrite Hrows; naive_solver|]. split; [|done]. intros _. split; [done|].
    intros row Hrow. destruct row as [|it row]; [done|]. exfalso.
    apply not_true_iff_false in Eh. apply Eh, existsb_exists. exists (it :: row). split; [by apply list_elem_of_In|done].
  - destruct (QInsertValGuards q) as [|row rows]; [naive_solver|]. rewrite Hrows. naive_solver.
Qed.

(** R7 is exact: the check reports nothing if and only if, in every shape,
    each VALUES row keeps exactly the optional items whose columns the shape
    keeps - so columns and values stay aligned - and guarded columns have a
    VALUES clause. *)
Theorem insert_pairing_exact q :
  NoDup (QGuardAtoms q) -> length (QGuardAtoms q) <= MaxGuards -> insert_guards_declared q = true ->
  checkInsertPairing q = [] <->
  (QInsertColGuards q <> [] -> QInsertValGuards q <> []) /\
  forall mask row, row ∈ QInsertValGuards q -> kept q mask row = kept q mask (QInsertColGuards q).
Proof.
  intros Hnd Hlen Hdecl. rewrite checkInsertPairing_nil.
  unfold insert_guards_declared in Hdecl. rewrite forallb_forall in Hdecl.
  assert (forall it, it ∈ QInsertColGuards q ++ concat (QInsertValGuards q) -> GIGuards it ⊆ QGuardAtoms q) as Hd.
  { intros it Hit. by apply list_elem_of_In, Hdecl, bool_decide_eq_true in Hit. }
  apply and_iff_compat_l.
  enough (forall row, row ∈ QInsertValGuards q ->
    Forall2 (fun it col => sameAtoms (GIGuards it) (GIGuards col) = true) row (QInsertColGuards q) <->
    forall mask, kept q mask row = kept q mask (QInsertColGuards q)) as He by (clear - He; naive_solver).
  intros row Hrow. unfold kept.
  assert (forall it, it ∈ row -> GIGuards it ⊆ QGuardAtoms q) as Hr.
  { intros it Hit. apply Hd, elem_of_app. right. apply list_elem_of_In, in_concat. exists row.
    split; by apply list_elem_of_In. }
  assert (forall it, it ∈ QInsertColGuards q -> GIGuards it ⊆ QGuardAtoms q) as Hc by (intros; apply Hd; set_solver).
  clear Hd Hdecl Hrow. revert Hr Hc. generalize (QInsertColGuards q) as cols.
  induction row as [|it row IH]; intros [|col cols] Hr Hc; cbn.
  - by split.
  - split; [by intros ?%Forall2_length|]. intros H. by specialize (H 0%N).
  - split; [by intros ?%Forall2_length|]. intros H. by specialize (H 0%N).
  - pose proof (guards_on_same q Hnd Hlen (GIGuards it) (GIGuards col)
      ltac:(apply Hr; set_solver) ltac:(apply Hc; set_solver)) as Hs.
    specialize (IH cols ltac:(intros; apply Hr; set_solver) ltac:(intros; apply Hc; set_solver)). split.
    + inversion_clear 1 as [|???? H1 H2]. intros mask. f_equal; [by apply Hs|by apply IH].
    + intros H. constructor; [apply Hs|apply IH]; intros mask; specialize (H mask); by injection H.
Qed.

(** ** R6 *)

Section anchor_lemmas.
Context (ToUpper : bytes -> bytes) (profile : LexerProfile).

(** The tokens rule R6 looks at, in order: the significant tokens of skeleton
    text, identifiers in upper case, and one marker per construct. *)
Definition anchor_marks (it : Item) : list bytes :=
  match it with
  | ISkeleton v =>
      omap (fun tok =>
        if is_trivia (Kind tok) then None
        else Some (if decide (Kind tok = KindIdent) then ToUpper (Text tok) else Text tok))
        (tokens (SkText v)).1
  | _ => [bs "@construct"]
  end.

(** The token before an item whose predecessors are [pre]. *)
Definition token_before (pre : list Item) : bytes := default [] (list.last (flat_map anchor_marks pre)).

(** The token an optional item must not follow directly: after it, all the
    items of its clause would be optional. *)
Definition clause_opener (s : Slot) : option bytes :=
  match s with
  | SlotWhereConjunct => Some (bs "WHERE")
  | SlotHavingConjunct => Some (bs "HAVING")
  | SlotSetItem => Some (bs "SET")
  | SlotInsertColumn | SlotInsertValue => Some (bs "(")
  | _ => None
  end.

Lemma anchor_ifpresent_spec v tok :
  match anchor_ifpresent v tok with
  | Some d => clause_opener (IPSlot v) = Some tok /\ DSpan d = IPSpan v
      /\ DCode d = match IPSlot v with
                   | SlotWhereConjunct | SlotHavingConjunct => CodeUnanchoredClause
                   | _ => CodeUnanchoredSet end
  | None => clause_opener (IPSlot v) <> Some tok
  end.
Proof.
  unfold anchor_ifpresent, is_slot.
  destruct (IPSlot v); repeat (case_bool_decide; try discriminate; try done);
    cbn [andb orb]; cbv iota;
    first [ split_and!; [by subst|reflexivity|reflexivity]
          | intros Ho; discriminate Ho
          | intros Ho; apply (f_equal (default [])) in Ho; cbn [clause_opener default from_option] in Ho;
            match goal with H : tok <> _ |- _ => by apply H end ].
Qed.

Lemma last_marks toks tok0 :
  foldl (anchor_tok ToUpper) tok0 toks
  = default tok0 (list.last (omap (fun tok =>
        if is_trivia (Kind tok) then None
        else Some (if decide (Kind tok = KindIdent) then ToUpper (Text tok) else Text tok)) toks)).
Proof.
  revert tok0. induction toks as [|t toks IH]; intros tok0; cbn; [done|]. rewrite IH. unfold anchor_tok.
  destruct (Kind t) eqn:Ek; cbn; try done; rewrite last_cons; by destruct (list.last _).
Qed.

(** An item rule R6 accepts after its predecessors. *)
Definition anchored_after (pre : list Item) (it : Item) : Prop :=
  match it with
  | IIfPresent v => clause_opener (IPSlot v) <> Some (token_before pre)
  | _ => True
  end.

Lemma token_before_snoc pre it :
  token_before (pre ++ [it])
  = match it with
    | ISkeleton v => foldl (anchor_tok ToUpper) (token_before pre) (tokens (SkText v)).1
    | _ => bs "@construct"
    end.
Proof.
  unfold token_before. rewrite flat_map_app, last_app. cbn. rewrite app_nil_r.
  destruct it; cbn; try done. rewrite last_marks. by destruct (list.last _).
Qed.

Lemma anchor_loop_spec pre items :
  match anchor_loop ToUpper profile items (token_before pre) with
  | [] => forall mid it post, items = mid ++ it :: post -> anchored_after (pre ++ mid) it
  | [d] => exists mid v post, items = mid ++ IIfPresent v :: post
      /\ (forall mid1 it mid2, mid = mid1 ++ it :: mid2 -> anchored_after (pre ++ mid1) it)
      /\ clause_opener (IPSlot v) = Some (token_before (pre ++ mid)) /\ DSpan d = IPSpan v
  | _ => False
  end.
Proof.
  revert pre. induction items as [|it items IH]; intros pre.
  { cbn. by intros [|??]. }
  assert (forall tok, tok = token_before (pre ++ [it]) -> anchored_after pre it ->
    match anchor_loop ToUpper profile items tok with
    | [] => forall mid it' post, it :: items = mid ++ it' :: post -> anchored_after (pre ++ mid) it'
    | [d] => exists mid v post, it :: items = mid ++ IIfPresent v :: post
        /\ (forall mid1 it' mid2, mid = mid1 ++ it' :: mid2 -> anchored_after (pre ++ mid1) it')
        /\ clause_opener (IPSlot v) = Some (token_before (pre ++ mid)) /\ DSpan d = IPSpan v
    | _ => False
    end) as Hnext.
  { intros tok -> Hit. specialize (IH (pre ++ [it])).
    destruct (anchor_loop _ _ _ _) as [|d [|]]; [| |done].
    - intros [|it0 mid] it' post [= -> ->]; [by rewrite app_nil_r|]. rewrite cons_middle, app_assoc. by eapply IH.
    - destruct IH as (mid & v & post & -> & H1 & H2 & H3). exists (it :: mid), v, post.
      split_and!; [done| |by rewrite cons_middle, app_assoc|done].
      intros [|it0 mid1] it' mid2 [= -> ->]; [by rewrite app_nil_r|]. rewrite cons_middle, app_assoc. by eapply H1. }
  pose proof (token_before_snoc pre it) as Hs. destruct it as [v|v|v|v|v|v]; cbn [anchor_loop]; try (by apply Hnext).
  pose proof (anchor_ifpresent_spec v (token_before pre)) as Hv.
  destruct (anchor_ifpresent v _) as [d|]; [|by apply Hnext].
  exists [], v, items. split_and!; [done| |rewrite app_nil_r; tauto|tauto]. by intros [|??].
Qed.
End anchor_lemmas.

(** R6 is exact: the check is silent if and only if no optional item
    directly follows the token that opens its clause - [WHERE], [HAVING],
    [SET] or the parenthesis of an INSERT list, whatever trivia lies between -
    and otherwise it gives one report, at the first optional item that does. *)
Theorem anchors_exact ToUpper profile q :
  match checkAnchors ToUpper profile q with
  | [] => forall pre v post, QItems q = pre ++ IIfPresent v :: post ->
      clause_opener (IPSlot v) <> Some (token_before ToUpper profile pre)
  | [d] => exists pre v post, QItems q = pre ++ IIfPresent v :: post
      /\ clause_opener (IPSlot v) = Some (token_before ToUpper profile pre)
      /\ DSpan d = IPSpan v
      /\ (forall pre1 v' pre2, pre = pre1 ++ IIfPresent v' :: pre2 ->
            clause_opener (IPSlot v') <> Some (token_before ToUpper profile pre1))
  | _ => False
  end.
Proof.
  pose proof (anchor_loop_spec ToUpper profile [] (QItems q)) as H. unfold checkAnchors.
  change (token_before ToUpper profile []) with ([] : bytes) in H.
  destruct (anchor_loop _ _ _ _) as [|d [|]]; [| |done].
  - intros pre v post Hq. by apply (H _ _ _ Hq).
  - destruct H as (pre & v & post & Hq & H1 & H2 & H3). exists pre, v, post. split_and!; try done.
    intros pre1 v' pre2 Hp. by apply (H1 _ _ _ Hp).
Qed.

(** ** A concrete INSERT *)

Definition insert_query (rows : list (list GuardedItem)) : QueryTemplate :=
  let q := simple_query [] [] [presence (bs "a"); presence (bs "b")] in
  mkQuery (QName q) (QAnnotation q) (QHeaderSpan q) (QItems q) (QParamOrder q) (QParams q) (QGuardAtoms q)
    [mkGuardedItem (bs "a") [presence (bs "a")] (mkSpan [] 1 2);
     mkGuardedItem (bs "b") [presence (bs "b"); presence (bs "a")] (mkSpan [] 3 4)]
    rows (QTypeHints q) (QColumnHints q) (QWhereKwEnd q) (QTailStart q) (QStmtEnd q)
    (QPolicyOptOuts q) (QPolicyApplies q) (QTimeout q) (QNoLints q) (QNullOverrides q).

Definition insert_paired : QueryTemplate :=
  insert_query [[mkGuardedItem [] [presence (bs "a")] (mkSpan [] 5 6);
                 mkGuardedItem [] [presence (bs "a"); presence (bs "b")] (mkSpan [] 7 8)]].

(** Swapped values are reported, one report per item. *)
Example insert_swapped :
  DSpan <$> checkInsertPairing
    (insert_query [[mkGuardedItem [] [presence (bs "a"); presence (bs "b")] (mkSpan [] 5 6);
                    mkGuardedItem [] [presence (bs "a")] (mkSpan [] 7 8)]])
  = [mkSpan [] 5 6; mkSpan [] 7 8].
Proof. vm_compute. reflexivity. Qed.

Lemma insert_pairing_exact_witness :
  checkInsertPairing insert_paired = [] /\
  forall mask row, row ∈ QInsertValGuards insert_paired ->
    kept insert_paired mask row = kept insert_paired mask (QInsertColGuards insert_paired).
Proof.
  assert (checkInsertPairing insert_paired = []) as H by (vm_compute; reflexivity).
  split; [exact H|]. refine (proj2 (proj1 (insert_pairing_exact insert_paired _ _ _) H)).
  - apply (bool_decide_eq_true_1 _). vm_compute. reflexivity.
  - unfold MaxGuards. cbn. lia.
  - vm_compute. reflexivity.
Defined.
