(* ===== verification/ParamRules.v ===== *)
(** * ParamRules

    What rule R9 establishes: the classification it leaves in the parameters,
    and that a parameter classified as optional is sent to the database in
    exactly the shapes that keep a fragment binding it - never in a shape whose
    presence bit for it is off, where the caller may have given no value. *)

From S2P Require Import Prelude Dialect Template Render RenderInv Simulation Diagnostics Lexical Postgres Demo.

(** ** The mentions of parameters *)

Section mentions.
Context (profile : LexerProfile).

(** The parameters a text binds, in order. *)
Definition text_names (text : bytes) : list bytes :=
  (fun t => tail (Text t)) <$> filter (fun t => Kind t = KindParamRef) (tokens text).1.

(** The flags of an occurrence: its guards, in a [@choose] case or a sort key,
    in a [@predicate], in an [@in]. *)
Definition occ_flags (o : Occurrence) : list GuardAtom * bool * bool * bool :=
  (OcGuards o, OcInChooseCase o, OcInFilterTree o, OcInIn o).

(** The names an item mentions, with the flags of the occurrence each mention
    should be recorded as. *)
Definition item_mentions (it : Item) : list (bytes * (list GuardAtom * bool * bool * bool)) :=
  match it with
  | IInExpr v => [(InParam v, ([], false, false, true))]
  | _ =>
      let flags := match it with
                   | IIfPresent v => (IPGuards v, false, false, false)
                   | IChoose _ | IOrderBy _ => ([], true, false, false)
                   | IFilterTree _ => ([], false, true, false)
                   | _ => ([], false, false, false)
                   end in
      (fun n => (n, flags)) <$> flat_map (fun t => text_names t.1.1) (item_texts it)
  end.

(** Every mention is recorded as an occurrence of its parameter. *)
Definition occurrences_recorded (q : QueryTemplate) : bool :=
  forallb (fun m => match QParams q !! m.1 with
                    | Some p => bool_decide (m.2 ∈ occ_flags <$> POccurrences p)
                    | None => false
                    end) (flat_map item_mentions (QItems q)).

(** ** The classification *)

(** No parameter is classified before the rules run. *)
Definition unclassified (q : QueryTemplate) : bool :=
  forallb (fun kv => negb (POptional kv.2)) (map_to_list (QParams q)).

Definition is_control (q : QueryTemplate) (name : bytes) : bool :=
  existsb (fun it => match it with
    | IChoose c => bool_decide (ChParam c = name)
    | IOrderBy o => bool_decide (ObParam o = name)
    | IFilterTree f => bool_decide (FtParam f = name)
    | _ => false
    end) (QItems q).
End mentions.

(** The parameter guards a fragment by its presence and never by its value. *)
Definition presence_guard (q : QueryTemplate) (name : bytes) (p : Param) : bool :=
  Z.leb 0 (PGuardBit p) && has_presence q name && negb (has_value q name).

Definition tree_only (p : Param) : bool :=
  negb (bool_decide (POccurrences p = [])) && forallb OcInFilterTree (POccurrences p).

(** Design document 3, section 3: a parameter is optional when it occurs, and
    only inside fragments it guards itself. *)
Definition always_self_guarded (name : bytes) (p : Param) : bool :=
  negb (bool_decide (POccurrences p = [])) && forallb (self_guarded name) (POccurrences p).

(** * Lemmas *)

Lemma self_loop_spec name p :
  self_loop name p
  = (existsb (self_guarded name) (POccurrences p), always_self_guarded name p,
     OcSpan <$> head (filter (fun o => self_guarded name o = false) (POccurrences p))).
Proof.
  unfold self_loop, always_self_guarded.
  enough (forall occs has all first,
    foldl (fun st occ => let '(has, all, first) := st in
      if self_guarded name occ then (true, all, first)
      else (has, false, match first with None => Some (OcSpan occ) | Some _ => first end))
      (has, all, first) occs
    = (has || existsb (self_guarded name) occs, all && forallb (self_guarded name) occs,
       match first with
       | Some s => Some s
       | None => OcSpan <$> head (filter (fun o => self_guarded name o = false) occs)
       end)%bool) as He by apply He.
  induction occs as [|o occs IH]; intros has all first; simpl.
  - rewrite orb_false_r, andb_true_r. by destruct first.
  - destruct (self_guarded name o) eqn:E; rewrite IH; simpl.
    + rewrite filter_cons_False by congruence. by rewrite orb_true_r.
    + rewrite filter_cons_True, andb_false_r by done. by destruct first.
Qed.

(** The reports and the flag of the last part of an iteration; it never
    follows a nil pointer. *)
Lemma discipline_value_spec q name p :
  let guard := (Z.leb 0 (PGuardBit p) && has_presence q name)%bool in
  let optional := (guard && always_self_guarded name p)%bool in
  exists ds, discipline_value q name p = Ok (ds, optional) /\ (ds = [] <-> guard = optional).
Proof.
  intros guard optional. subst optional. unfold discipline_value. rewrite self_loop_spec. fold guard.
  assert (always_self_guarded name p = true -> existsb (self_guarded name) (POccurrences p) = true) as Hall.
  { unfold always_self_guarded. destruct (POccurrences p) as [|o os]; simpl; [done|].
    intros [-> _]%andb_prop. done. }
  destruct guard; simpl; [|by eexists].
  destruct (existsb _ _) eqn:Eh; simpl.
  - destruct (always_self_guarded name p) eqn:Ea; simpl; [by eexists|].
    destruct (filter _ _) as [|o os] eqn:Ef; simpl; [|by eexists].
    exfalso. unfold always_self_guarded in Ea. destruct (POccurrences p) as [|o os] eqn:Eo; [done|].
    rewrite bool_decide_false in Ea by done. simpl negb in Ea. rewrite andb_true_l in Ea.
    apply not_true_iff_false in Ea. apply Ea, forallb_forall. intros x Hx. apply list_elem_of_In in Hx.
    destruct (self_guarded name x) eqn:Ex; [done|]. exfalso.
    assert (x ∈ filter (fun o => self_guarded name o = false) (o :: os)) as Hf by (by apply list_elem_of_filter).
    rewrite Ef in Hf. by apply not_elem_of_nil in Hf.
  - destruct (always_self_guarded name p); [by specialize (Hall eq_refl)|]. simpl. by eexists.
Qed.

(** Only the classification of a parameter changes. *)
Definition reclassified (p p' : Param) : Prop := p' = set_optional (POptional p') p.

Lemma existsb_negb {A} (f : A -> bool) l : existsb (fun x => negb (f x)) l = negb (forallb f l).
Proof. induction l as [|x l IH]; simpl; [done|]. rewrite IH. by destruct (f x). Qed.

Lemma reclassified_refl p : reclassified p p.
Proof. by destruct p. Qed.

Lemma control_diags_nil p name span m1 m2 :
  control_diags p name span m1 m2 = [] -> Z.leb 0 (PGuardBit p) = false.
Proof. unfold control_diags. intros [_ H]%app_eq_nil. by destruct (Z.leb _ _). Qed.

(** The branches of an iteration on a parameter bound as a value, together. *)
Lemma discipline_plain p :
  existsb OcInIn (POccurrences p) && existsb (fun o => negb (OcInIn o)) (POccurrences p) = false ->
  existsb OcInFilterTree (POccurrences p) && existsb (fun o => negb (OcInFilterTree o)) (POccurrences p) = false ->
  existsb OcInFilterTree (POccurrences p) = tree_only p.
Proof.
  intros _ H. unfold tree_only. rewrite existsb_negb in H.
  destruct (POccurrences p) as [|o os]; [done|]. rewrite bool_decide_false by done. cbn [negb]. rewrite andb_true_l.
  destruct (existsb _ _) eqn:E; [by destruct (forallb _ _)|].
  cbn in E. apply orb_false_elim in E as [E _]. cbn. by rewrite E.
Qed.

(** One iteration: it does not panic, changes the classification only, calls
    a parameter optional only when it guards itself everywhere, and when it
    reports nothing the parameter is optional exactly if it is a presence
    guard, unless it belongs to the filter tree. *)
Lemma discipline_param_spec q name p :
  exists ds p', discipline_param q name p = Ok (ds, p') /\ reclassified p p' /\
    (POptional p = false -> POptional p' = true ->
       presence_guard q name p = true /\ always_self_guarded name p = true) /\
    (POptional p = false -> ds = [] -> POptional p' = presence_guard q name p && negb (tree_only p)).
Proof.
  unfold discipline_param.
  assert (forall span m1 m2, exists ds p', Ok (E := NilDereference) (control_diags p name span m1 m2, p) = Ok (ds, p')
    /\ reclassified p p' /\
    (POptional p = false -> POptional p' = true -> presence_guard q name p = true /\ always_self_guarded name p = true) /\
    (POptional p = false -> ds = [] -> POptional p' = presence_guard q name p && negb (tree_only p))) as Hc.
  { intros span m1 m2. eexists _, _. split_and!; [done|apply reclassified_refl|congruence|].
    intros -> H%control_diags_nil. unfold presence_guard. by rewrite H. }
  destruct (control_map choose_param q !! name); [apply Hc|].
  destruct (control_map order_param q !! name); [apply Hc|].
  destruct (control_map filter_param q !! name); [apply Hc|]. clear Hc.
  destruct (existsb OcInIn _ && _) eqn:Ein;
    [eexists _, _; split_and!; [done|apply reclassified_refl|congruence|done]|].
  destruct (existsb OcInFilterTree _ && _) eqn:Eft;
    [eexists _, _; split_and!; [done|apply reclassified_refl|congruence|done]|].
  rewrite (discipline_plain p Ein Eft). unfold presence_guard.
  destruct (tree_only p) eqn:Et.
  { eexists _, _. split_and!; [done|done|done|]. by rewrite andb_false_r. }
  destruct (has_presence q name) eqn:Ep, (has_value q name) eqn:Ev; cbn [andb negb];
    try (eexists _, _; split_and!; [done|done|done|]; intros; by rewrite ?andb_false_r).
  all: destruct (discipline_value_spec q name p) as (ds & -> & Hds); rewrite Ep in *; cbn [rbind];
    eexists _, _; split_and!; [done|done| |]; cbn [POptional set_optional].
  - rewrite !andb_true_r. by intros _ [-> ->]%andb_prop.
  - intros _ ->. rewrite !andb_true_r in *. symmetry. by apply Hds.
  - by rewrite andb_false_r.
  - intros _ ->. by rewrite !andb_false_r.
Qed.

(** What the loop has done to the parameters after the iterations on [names]. *)
Record disciplined (q : QueryTemplate) (names : list bytes) (params params' : gmap bytes Param)
    (ds : list Diagnostic) : Prop := {
  dis_other n : ~ n ∈ names -> params' !! n = params !! n;
  dis_name n : n ∈ names -> exists p ds_n p',
    params !! n = Some p /\ params' !! n = Some p' /\ discipline_param q n p = Ok (ds_n, p') /\
    (ds = [] -> ds_n = []);
}.

Lemma checkParamDiscipline_loop q names ds0 params :
  NoDup names -> (forall n, n ∈ names -> is_Some (params !! n)) ->
  exists ds params', rfold (fun '(ds, params) name =>
      let! p := or_err (params !! name) NilPointer in
      let! '(ds', p') := discipline_param q name p in
      Ok (ds ++ ds', <[name := p']> params)) (ds0, params) names = Ok (ds0 ++ ds, params')
    /\ disciplined q names params params' ds.
Proof.
  revert ds0 params. induction names as [|n names IH]; intros ds0 params Hnd Hdom; cbn [rfold].
  { exists [], params. rewrite app_nil_r. split; [done|]. split; [done|set_solver]. }
  apply list.NoDup_cons in Hnd as [Hn Hnd]. destruct (Hdom n) as [p Hp]; [set_solver|]. rewrite Hp. cbn [or_err rbind].
  destruct (discipline_param_spec q n p) as (ds_n & p' & Hstep & _). rewrite Hstep. cbn [rbind].
  destruct (IH (ds0 ++ ds_n) (<[n := p']> params)) as (ds & params' & Hloop & [Ho Hin]); [done| |].
  { intros n' Hn'. rewrite lookup_insert_ne by set_solver. apply Hdom. set_solver. }
  exists (ds_n ++ ds), params'. rewrite Hloop, app_assoc. split; [done|]. split.
  - intros n' Hn'. rewrite Ho by set_solver. by rewrite lookup_insert_ne by set_solver.
  - intros n' [->|Hn']%elem_of_cons.
    + exists p, ds_n, p'. rewrite Ho, lookup_insert_eq by done. split_and!; try done. by intros [??]%app_eq_nil.
    + destruct (Hin n' Hn') as (p1 & ds1 & p1' & H1 & H2 & H3 & H4).
      rewrite lookup_insert_ne in H1 by set_solver. exists p1, ds1, p1'. split_and!; try done.
      intros [??]%app_eq_nil. auto.
Qed.

(** The parameters [CheckLexical] starts from. *)
Definition params_fresh (q : QueryTemplate) : bool :=
  bool_decide (NoDup (QParamOrder q)) &&
  forallb (fun n => bool_decide (is_Some (QParams q !! n))) (QParamOrder q) &&
  unclassified q.

Lemma unclassified_lookup q n p : unclassified q = true -> QParams q !! n = Some p -> POptional p = false.
Proof.
  unfold unclassified. rewrite forallb_forall. intros H Hp.
  apply elem_of_map_to_list in Hp. apply list_elem_of_In, H in Hp. cbn in Hp. by destruct (POptional p).
Qed.

Lemma params_fresh_facts q : params_fresh q = true ->
  NoDup (QParamOrder q) /\ (forall n, n ∈ QParamOrder q -> is_Some (QParams q !! n)) /\
  forall n p, QParams q !! n = Some p -> POptional p = false.
Proof.
  unfold params_fresh. rewrite !andb_true_iff, bool_decide_eq_true, forallb_forall.
  intros [[H1 H2] H3]. split_and!; [done| |intros n p Hp; by eapply unclassified_lookup].
  intros n Hn. apply list_elem_of_In, H2 in Hn. by apply bool_decide_eq_true in Hn.
Qed.

Lemma CheckLexical_disciplined ToUpper profile q :
  params_fresh q = true ->
  exists ds params', CheckLexical ToUpper profile q =
      Ok (checkAnchors ToUpper profile q ++ checkInsertPairing q ++ ds, set_params params' q)
    /\ disciplined q (QParamOrder q) (QParams q) params' ds.
Proof.
  intros (H1 & H2 & _)%params_fresh_facts.
  destruct (checkParamDiscipline_loop q (QParamOrder q) [] (QParams q) H1 H2) as (ds & params' & Hl & Hd).
  exists ds, params'. split; [|done]. unfold CheckLexical, checkParamDiscipline. by rewrite Hl.
Qed.

(** Rule R9 classifies: the rules always return; they change nothing of
    the parameters but their classification; a parameter they call optional
    is a presence guard and occurs, and only inside fragments it guards itself;
    and when they report nothing, every presence guard is optional, except one
    that only the filter tree binds. *)
Theorem discipline_classifies ToUpper profile q :
  params_fresh q = true ->
  exists ds q', CheckLexical ToUpper profile q = Ok (ds, q') /\ QItems q' = QItems q /\
  forall n p, n ∈ QParamOrder q -> QParams q !! n = Some p ->
  exists p', QParams q' !! n = Some p' /\ reclassified p p' /\
    (POptional p' = true -> presence_guard q n p = true /\ always_self_guarded n p = true) /\
    (ds = [] -> POptional p' = presence_guard q n p && negb (tree_only p)).
Proof.
  intros Hf. destruct (CheckLexical_disciplined ToUpper profile q Hf) as (ds & params' & Hc & [_ Hin]).
  apply params_fresh_facts in Hf as (_ & _ & Hun).
  eexists _, _. split_and!; [exact Hc|done|]. intros n p Hn Hp.
  destruct (Hin n Hn) as (p0 & ds_n & p' & Hp0 & Hp' & Hs & Hds). simplify_eq.
  destruct (discipline_param_spec q n p) as (ds1 & p1 & Hs1 & H1 & H2 & H3). rewrite Hs in Hs1. injection Hs1 as <- <-.
  pose proof (Hun _ _ Hp). exists p'. split_and!; [done|exact H1|by apply H2|].
  intros [_ [_ Hnil]%app_eq_nil]%app_eq_nil. apply H3; auto.
Qed.

(** ** The parameters a rendering binds *)

Section binds.
Context {profile : LexerProfile}.

(** A numbered name is in the sequence. *)
Definition numbered_in (r : renderer) : Prop :=
  forall n, is_Some (r_paramNum r !! n) -> n ∈ r_paramSeq r.

(** [r'] has the names of [r] and [names], and no other. *)
Definition grows (names : list bytes) (r r' : renderer) : Prop :=
  numbered_in r' /\ forall n, n ∈ r_paramSeq r' <-> n ∈ names \/ n ∈ r_paramSeq r.

Lemma placeholder_grows name r ph r' :
  numbered_in r -> placeholder profile name r = (ph, r') -> grows [name] r r'.
Proof.
  intros Hr. unfold placeholder, grows. destruct (question profile).
  - intros [= <- <-]. split; cbn; [|set_solver]. intros n Hn%Hr. cbn. set_solver.
  - destruct (r_paramNum r !! name) as [k|] eqn:Ek; intros [= <- <-].
    + split; [done|]. intros n. assert (name ∈ r_paramSeq r) by (apply Hr; by eexists). set_solver.
    + split; cbn; [|set_solver]. intros n. cbn. destruct (decide (n = name)) as [->|Hne]; [set_solver|].
      rewrite lookup_insert_ne by done. intros H%Hr. set_solver.
Qed.

Lemma flushRun_names src tOff synth a b r :
  r_paramSeq (flushRun src tOff synth a b r) = r_paramSeq r /\
  r_paramNum (flushRun src tOff synth a b r) = r_paramNum r.
Proof. unfold flushRun. by destruct (Nat.ltb a b). Qed.

Lemma emit_tokens_grows src tOff synth toks runStart r runStart' r' :
  numbered_in r -> emit_tokens profile src tOff synth toks runStart r = (runStart', r') ->
  grows ((fun t => tail (Text t)) <$> filter (fun t => Kind t = KindParamRef) toks) r r'.
Proof.
  revert runStart r. induction toks as [|t toks IH]; intros runStart r Hr; cbn [emit_tokens].
  { intros [= <- <-]. split; [done|]. set_solver. }
  case_decide as Hk.
  - destruct (placeholder _ _ _) as [ph r2] eqn:Ep. apply placeholder_grows in Ep as [H1 H2].
    + intros [H3 H4]%IH; [|done]. split; [done|]. intros n. rewrite H4, filter_cons_True by done. cbn.
      rewrite H2. destruct (flushRun_names src tOff synth runStart (Start t) r) as [-> _]. set_solver.
    + destruct (flushRun_names src tOff synth runStart (Start t) r) as [H1 H2].
      unfold numbered_in. by rewrite H1, H2.
  - intros [H1 H2]%IH; [|done]. split; [done|]. by rewrite filter_cons_False.
Qed.

Lemma emitText_grows text tOff synth r r' :
  numbered_in r -> emitText profile text tOff synth r = Ok r' -> grows (text_names profile text) r r'.
Proof.
  intros Hr. unfold emitText, text_names. destruct (tokens text) as [toks err].
  destruct (emit_tokens _ _ _ _ _ _ _) as [runStart r1] eqn:Et. destruct err; [done|]. intros [= <-].
  apply emit_tokens_grows in Et as [H1 H2]; [|done]. cbn.
  destruct (flushRun_names text tOff synth runStart (length text) r1) as [E1 E2].
  split; [unfold numbered_in; by rewrite E1, E2|]. by rewrite E1.
Qed.

Lemma emitSynth_names text anchor r :
  r_paramSeq (emitSynth text anchor r) = r_paramSeq r /\ r_paramNum (emitSynth text anchor r) = r_paramNum r.
Proof. by destruct text. Qed.

Lemma emitParamRef_grows name anchor r : numbered_in r -> grows [name] r (emitParamRef profile name anchor r).
Proof.
  intros Hr. unfold emitParamRef. destruct (placeholder _ _ _) as [ph r'] eqn:E.
  by apply placeholder_grows in E.
Qed.

(** A property of the names bound so far, as an invariant of the renderer. *)
Definition seq_all (P : bytes -> Prop) (r : renderer) : Prop :=
  numbered_in r /\ forall n, n ∈ r_paramSeq r -> P n.

Lemma seq_all_synth P text anchor r : seq_all P r -> seq_all P (emitSynth text anchor r).
Proof. unfold seq_all, numbered_in. by destruct (emitSynth_names text anchor r) as [-> ->]. Qed.

Lemma seq_all_grows P names r r' : (forall n, n ∈ names -> P n) -> seq_all P r -> grows names r r' -> seq_all P r'.
Proof. intros Hn [H1 H2] [H3 H4]. split; [done|]. intros n [?|?]%H4; auto. Qed.

(** Only names the selected items mention are bound. *)
Lemma renderCore_binds (P : bytes -> Prop) q s r :
  (forall it, it ∈ QItems q -> item_allowed (fun text _ _ => forall n, n ∈ text_names profile text -> P n) P s it) ->
  renderCore profile q s = Ok r -> forall n, n ∈ RParamsSeq r -> P n.
Proof.
  intros Ha Hr. eapply (renderCore_inv (seq_all P)) in Hr as (r0 & [_ H0] & _ & _ & -> & _); [done|..|exact Ha].
  - intros. by apply seq_all_synth.
  - done.
  - intros name anchor r0 Hn H0. eapply seq_all_grows; [|done|by apply emitParamRef_grows, H0]. set_solver.
  - intros text tOff synth r0 r0' Ht H0 He. eapply seq_all_grows; [exact Ht|exact H0|].
    eapply emitText_grows; [apply H0|exact He].
  - split; [intros n [? Hn]; cbn in Hn; by rewrite lookup_empty in Hn|]. intros n Hn. by apply not_elem_of_nil in Hn.
Qed.

(** What is bound stays bound. *)
Definition seq_has (name : bytes) (r : renderer) : Prop := numbered_in r /\ name ∈ r_paramSeq r.

Lemma seq_has_grows name names r r' : name ∈ names \/ name ∈ r_paramSeq r -> grows names r r' -> seq_has name r'.
Proof. intros Hn [H1 H2]. split; [done|]. by apply H2. Qed.

Lemma seq_has_synth name text anchor r : seq_has name r -> seq_has name (emitSynth text anchor r).
Proof. unfold seq_has, numbered_in. by destruct (emitSynth_names text anchor r) as [-> ->]. Qed.

Lemma numbered_in_synth text anchor r : numbered_in r -> numbered_in (emitSynth text anchor r).
Proof. unfold numbered_in. by destruct (emitSynth_names text anchor r) as [-> ->]. Qed.

Lemma render_items_has name s items st st' :
  seq_has name (rs_r st) -> rfold (render_item profile s) st items = Ok st' -> seq_has name (rs_r st').
Proof.
  intros H0. eapply (render_items_inv (seq_has name) (fun _ _ _ => True) (fun _ => True)); [..|exact H0].
  - intros. by apply seq_has_synth.
  - done.
  - intros n anchor r _ [Hr Hn]. eapply seq_has_grows; [by right|by apply emitParamRef_grows].
  - intros text tOff synth r r' _ [Hr Hn] He. eapply seq_has_grows; [by right|by eapply emitText_grows].
  - intros [] _ _; done.
Qed.

Lemma render_items_numbered s items st st' :
  numbered_in (rs_r st) -> rfold (render_item profile s) st items = Ok st' -> numbered_in (rs_r st').
Proof.
  intros H0. eapply (render_items_inv numbered_in (fun _ _ _ => True) (fun _ => True)); [..|exact H0].
  - intros. by apply numbered_in_synth.
  - done.
  - intros n anchor r _ Hr. by apply emitParamRef_grows.
  - intros text tOff synth r r' _ Hr He. by eapply emitText_grows.
  - intros [] _ _; done.
Qed.

(** A fragment the selection keeps binds its names. *)
Lemma renderCore_binds_active name q s r v :
  IIfPresent v ∈ QItems q -> s_active s v = true -> name ∈ text_names profile (IPBody v) ->
  renderCore profile q s = Ok r -> name ∈ RParamsSeq r.
Proof.
  intros (pre & post & Hq)%list_elem_of_split Ha Hn (st & Hst & H)%rbind_ok. injection H as <-. cbn.
  rewrite Hq, rfold_app in Hst. apply rbind_ok in Hst as (st1 & H1 & Hst). cbn [rfold] in Hst.
  apply rbind_ok in Hst as (st2 & H2 & H3).
  apply render_items_numbered in H1; [|intros n [? Hx]; cbn in Hx; by rewrite lookup_empty in Hx].
  eapply render_items_has in H3; [apply H3|]. clear H3. cbn [render_item] in H2. rewrite Ha in H2.
  apply rbind_ok in H2 as (r2 & H2 & H). injection H as <-. cbn.
  apply rbind_ok in H2 as (r3 & H3 & H). injection H as <-.
  assert (seq_has name r3) as Hr3.
  { eapply seq_has_grows; [by left|]. eapply emitText_grows; [|exact H3].
    destruct (IPSep v); repeat apply numbered_in_synth; done. }
  case_decide; [exact (seq_has_synth name (bs ")") (SStart (IPSpan v)) r3 Hr3)|exact Hr3].
Qed.
End binds.

(** ** Optional parameters *)

Lemma occurrences_recorded_spec profile q it name flags :
  occurrences_recorded profile q = true -> it ∈ QItems q -> (name, flags) ∈ item_mentions profile it ->
  exists p, QParams q !! name = Some p /\ flags ∈ occ_flags <$> POccurrences p.
Proof.
  unfold occurrences_recorded. rewrite forallb_forall. intros H Hit Hm.
  specialize (H (name, flags)). cbn in H. destruct (QParams q !! name) as [p|].
  - exists p. split; [done|]. eapply bool_decide_eq_true_1, H, in_flat_map.
    exists it. split; by apply list_elem_of_In.
  - exfalso. discriminate H. apply in_flat_map. exists it. split; by apply list_elem_of_In.
Qed.

Lemma mention_in_text profile it text tOff synth name :
  (text, tOff, synth) ∈ item_texts it -> name ∈ text_names profile text ->
  exists flags, (name, flags) ∈ item_mentions profile it /\
    flags = match it with
            | IIfPresent v => (IPGuards v, false, false, false)
            | IChoose _ | IOrderBy _ => ([], true, false, false)
            | IFilterTree _ => ([], false, true, false)
            | _ => ([], false, false, false)
            end.
Proof.
  intros Ht Hn.
  assert (name ∈ flat_map (fun t => text_names profile t.1.1) (item_texts it)) as Hf.
  { apply list_elem_of_In, in_flat_map. eexists. split; apply list_elem_of_In; [exact Ht|exact Hn]. }
  unfold item_mentions. destruct it; try (eexists; split; [|reflexivity]; apply list_elem_of_fmap; by exists name).
  by apply not_elem_of_nil in Ht.
Qed.

(** Every mention of a parameter that is always self-guarded is in the body of
    a fragment it guards. *)
Lemma self_guarded_mention profile q it name flags p :
  occurrences_recorded profile q = true -> it ∈ QItems q -> (name, flags) ∈ item_mentions profile it ->
  QParams q !! name = Some p -> always_self_guarded name p = true ->
  flags.1.1.2 = false /\ presence name ∈ flags.1.1.1.
Proof.
  intros Hrec Hit Hm Hp [_ Hall]%andb_prop.
  destruct (occurrences_recorded_spec _ _ _ _ _ Hrec Hit Hm) as (p' & Hp' & (o & -> & Ho)%list_elem_of_fmap).
  rewrite Hp in Hp'. injection Hp' as <-. rewrite forallb_forall in Hall.
  apply list_elem_of_In, Hall in Ho. unfold self_guarded, containsAtom in Ho.
  apply andb_prop in Ho as [H1%negb_true_iff H2%bool_decide_eq_true]. done.
Qed.

(** C6: a parameter rule R9 classifies as optional is bound by exactly the
    shapes that keep a fragment whose body mentions it: with its presence bit
    off no shape binds it, so the caller need not have given a value, and no
    shape binds it from anywhere else. *)
Theorem optional_binding_exact ToUpper profile q ds q' name p' mask cases orders ins r b :
  params_fresh q = true -> occurrences_recorded profile q = true -> length (QGuardAtoms q) <= MaxGuards ->
  CheckLexical ToUpper profile q = Ok (ds, q') ->
  name ∈ QParamOrder q -> QParams q' !! name = Some p' -> POptional p' = true ->
  guard_bits q' !! presence name = Some b ->
  RenderShape profile q' mask cases orders ins = Ok r ->
  (name ∈ RParamsSeq r <->
     exists v, IIfPresent v ∈ QItems q /\ guard_active (guard_bits q') mask v = true
       /\ name ∈ text_names profile (IPBody v))
  /\ (N.testbit mask (N.of_nat b) = false -> ~ name ∈ RParamsSeq r).
Proof.
  intros Hf Hrec Hlen Hc Hn Hp' Hopt Hb Hr.
  destruct (CheckLexical_disciplined ToUpper profile q Hf) as (ds0 & params' & Hc' & [_ Hin]).
  rewrite Hc in Hc'. injection Hc' as -> ->. apply params_fresh_facts in Hf as (_ & _ & Hun).
  destruct (Hin name Hn) as (p & ds_n & p1 & Hp & Hp1 & Hs & _). cbn in Hp'. rewrite Hp1 in Hp'. injection Hp' as ->.
  destruct (discipline_param_spec q name p) as (ds1 & p2 & Hs' & _ & H2 & _). rewrite Hs in Hs'. injection Hs' as <- <-.
  destruct (H2 (Hun _ _ Hp) Hopt) as [_ Hself]. clear H2 Hs Hin Hc Hun.
  assert (name ∈ RParamsSeq r -> exists v, IIfPresent v ∈ QItems q /\ guard_active (guard_bits q) mask v = true
    /\ name ∈ text_names profile (IPBody v)) as Hfwd.
  { intros Hin. refine (renderCore_binds (fun n => n = name -> exists v, IIfPresent v ∈ QItems q
      /\ guard_active (guard_bits q) mask v = true /\ name ∈ text_names profile (IPBody v)) _ _ _ _ Hr name Hin eq_refl).
    intros it Hit Hact. split.
    - intros text tOff synth Ht n Hnt ->. destruct (mention_in_text _ _ _ _ _ _ Ht Hnt) as (flags & Hm & Hfl).
      pose proof (self_guarded_mention _ _ _ _ _ _ Hrec Hit Hm Hp Hself) as [Hx Hy].
      destruct it as [v|v|v|v|v|v]; subst flags; cbn in Hx, Hy;
        try first [discriminate Hx | by apply not_elem_of_nil in Hy].
      exists v. split_and!; [done|done|]. cbn in Ht. apply list_elem_of_singleton in Ht. by injection Ht as -> _ _.
    - destruct it as [v|v|v|v|v|v]; try done. intros <-.
      assert ((InParam v, ([], false, false, true)) ∈ item_mentions profile (IInExpr v)) as Hm
        by (by apply list_elem_of_singleton).
      pose proof (self_guarded_mention _ _ _ _ _ _ Hrec Hit Hm Hp Hself) as [_ Hy].
      by apply not_elem_of_nil in Hy. }
  split; [split; [exact Hfwd|]|].
  - intros (v & Hv & Ha & Hm). eapply (renderCore_binds_active name (set_params params' q) _ r v Hv); [|exact Hm|exact Hr]. exact Ha.
  - intros Hoff (v & Hv & Ha & Hm)%Hfwd.
    destruct (mention_in_text profile (IIfPresent v) (IPBody v) (SStart (IPBodySpan v)) false name) as (fl & Hfl & ->);
      [set_solver|done|].
    destruct (self_guarded_mention _ _ _ _ _ _ Hrec Hv Hfl Hp Hself) as [_ Hy]. cbn in Hy.
    unfold guard_active in Ha. rewrite forallb_forall in Ha. apply list_elem_of_In, Ha in Hy.
    change (guard_bits (set_params params' q)) with (guard_bits q) in Hb. rewrite Hb in Hy.
    pose proof (guard_bits_lookup_lt _ _ _ Hb). unfold MaxGuards in Hlen.
    by rewrite land_bit64, negb_involutive, Hoff in Hy by lia.
Qed.

(** ** Concrete queries *)

Definition mentions_to_param (profile : LexerProfile) (items : list Item) (atoms : list GuardAtom) (name : bytes)
    : Param :=
  mkParam name
    (omap (fun m => if decide (m.1 = name) then
                      let '(gs, c, t, i) := m.2 in Some (mkOccurrence (mkSpan [] 0 0) gs c t i)
                    else None) (flat_map (item_mentions profile) items))
    (if existsb (fun g => bool_decide (GParam g = name)) atoms then 0%Z else (-1)%Z) false [].

(** A query with the parameters its items mention. *)
Definition scanned_query (profile : LexerProfile) (items : list Item) (names : list bytes) (atoms : list GuardAtom)
    : QueryTemplate :=
  set_params (list_to_map ((fun n => (n, mentions_to_param profile items atoms n)) <$> names))
    (simple_query items names atoms).

Definition demo_scanned : QueryTemplate :=
  scanned_query Postgres.Profile demo_items (QParamOrder demo_query) (QGuardAtoms demo_query).

Definition demo_checked : list Diagnostic * QueryTemplate :=
  get_ok ([], demo_scanned) (CheckLexical id Postgres.Profile demo_scanned).

Definition demo_off : Rendering := get_ok no_rendering (RenderShape Postgres.Profile demo_checked.2 0 ∅ [] []).
Definition demo_on : Rendering := get_ok no_rendering (RenderShape Postgres.Profile demo_checked.2 1 ∅ [] []).

(** The demo query passes the rules, and its only presence guard is optional. *)
Example demo_clean : demo_checked.1 = [].
Proof. vm_compute. reflexivity. Qed.

Example demo_optional :
  (fun n => POptional <$> QParams demo_checked.2 !! n) <$> QParamOrder demo_query
  = [Some false; Some true; Some false; Some false; Some false; Some false; Some false; Some false; Some false; Some false].
Proof. vm_compute. reflexivity. Qed.

Lemma discipline_classifies_witness :
  params_fresh demo_scanned = true /\
  exists ds q', CheckLexical id Postgres.Profile demo_scanned = Ok (ds, q') /\ QItems q' = QItems demo_scanned /\
  forall n p, n ∈ QParamOrder demo_scanned -> QParams demo_scanned !! n = Some p ->
  exists p', QParams q' !! n = Some p' /\ reclassified p p' /\
    (POptional p' = true -> presence_guard demo_scanned n p = true /\ always_self_guarded n p = true) /\
    (ds = [] -> POptional p' = presence_guard demo_scanned n p && negb (tree_only p)).
Proof.
  assert (params_fresh demo_scanned = true) as H by (vm_compute; reflexivity).
  split; [exact H|]. exact (discipline_classifies id Postgres.Profile demo_scanned H).
Defined.

Lemma optional_binding_exact_witness :
  ~ bs "name" ∈ RParamsSeq demo_off /\ bs "name" ∈ RParamsSeq demo_on.
Proof.
  assert (CheckLexical id Postgres.Profile demo_scanned = Ok demo_checked) as Hc by (vm_compute; reflexivity).
  assert (exists p', QParams demo_checked.2 !! bs "name" = Some p' /\ POptional p' = true) as (p' & Hp & Ho)
    by (eexists; split; vm_compute; reflexivity).
  assert (bs "name" ∈ QParamOrder demo_scanned) as Hn by (apply (bool_decide_eq_true_1 _); vm_compute; reflexivity).
  split.
  - refine (proj2 (optional_binding_exact id Postgres.Profile demo_scanned demo_checked.1 demo_checked.2 (bs "name")
      p' 0 ∅ [] [] demo_off 0 _ _ _ _ Hn Hp Ho _ _) _).
    1, 2, 5, 6: vm_compute; reflexivity. { unfold MaxGuards. cbn. lia. } { by rewrite Hc; destruct demo_checked. }
    vm_compute; reflexivity.
  - apply (proj1 (optional_binding_exact id Postgres.Profile demo_scanned demo_checked.1 demo_checked.2 (bs "name")
      p' 1 ∅ [] [] demo_on 0 ltac:(vm_compute; reflexivity) ltac:(vm_compute; reflexivity)
      ltac:(unfold MaxGuards; cbn; lia) ltac:(by rewrite Hc; destruct demo_checked) Hn Hp Ho
      ltac:(vm_compute; reflexivity) ltac:(vm_compute; reflexivity))).
    eexists. split; [right; left|]. split; [vm_compute; reflexivity|].
    apply (bool_decide_eq_true_1 _); vm_compute; reflexivity.
Defined.
