(* ===== verification/ScanState.v ===== *)
(** * ScanState

    [internal/template/scanner.go]: the state of a scan ([fileScan] and
    [queryBuilder]) and its primitive operations: reports with their cap per
    code, spans, recorded parameters, skeleton chunks, the clause context.

    The code threads one mutable [fileScan]; the model is a state monad over it
    whose computations can stop with a panic or for lack of fuel, both of which
    [ScanTotal] rules out. *)

From S2P Require Import Prelude Dialect Template Diagnostics Regex.

(** ** State *)

Inductive clauseCtx :=
  | ctxNone | ctxProjection | ctxFrom | ctxWhere | ctxGroupBy | ctxHaving | ctxOrderBy | ctxTail
  | ctxUpdateTarget | ctxSet | ctxInsertTarget | ctxInsertColumns | ctxInsertAfterCol | ctxValues
  | ctxInsertValueRow | ctxInsertTail | ctxReturning.

#[export] Instance clauseCtx_eq_dec : EqDecision clauseCtx.
Proof. solve_decision. Defined.

Definition ctx_String (c : clauseCtx) : bytes :=
  bs match c with
     | ctxProjection => "SELECT list"
     | ctxFrom => "FROM"
     | ctxWhere => "WHERE"
     | ctxGroupBy => "GROUP BY"
     | ctxHaving => "HAVING"
     | ctxOrderBy => "ORDER BY"
     | ctxTail => "LIMIT/OFFSET/locking clause"
     | ctxSet => "SET"
     | ctxInsertColumns => "INSERT column list"
     | ctxInsertValueRow => "VALUES row"
     | _ => "statement"
     end.

(** [skelStart] is [None] for Go's -1, no open skeleton chunk. *)
Record queryBuilder := mkQB {
  qb_q : QueryTemplate;
  skelStart : option nat;
  depth : nat;
  qb_ctx : clauseCtx;
  statementEnded : bool;
  extraReported : bool;
  colGuardSeen : bool;
  rowGuardSeen : bool;
  prevKw : bytes;
  afterOnConflict : bool;
  isInsert : bool;
  joinPendingOn : bool;
  onWasJoin : bool;
  crossNaturalPending : bool;
}.

Record fileScan := mkScan {
  fs_diags : list Diagnostic;
  fs_qb : option queryBuilder;
  fs_names : gmap bytes Span;
  strayReported : bool;
  pendingDirectives : list Token;
  fs_emitted : gmap bytes nat;
  fs_overflow : gmap bytes nat;
  fs_firstOver : gmap bytes Span;
}.

(** ** Field updates *)

Definition with_q (f : QueryTemplate -> QueryTemplate) (b : queryBuilder) : queryBuilder :=
  mkQB (f (qb_q b)) (skelStart b) (depth b) (qb_ctx b) (statementEnded b) (extraReported b) (colGuardSeen b)
    (rowGuardSeen b) (prevKw b) (afterOnConflict b) (isInsert b) (joinPendingOn b) (onWasJoin b) (crossNaturalPending b).
Definition set_skelStart (v : option nat) (b : queryBuilder) : queryBuilder :=
  mkQB (qb_q b) v (depth b) (qb_ctx b) (statementEnded b) (extraReported b) (colGuardSeen b)
    (rowGuardSeen b) (prevKw b) (afterOnConflict b) (isInsert b) (joinPendingOn b) (onWasJoin b) (crossNaturalPending b).
Definition set_depth (v : nat) (b : queryBuilder) : queryBuilder :=
  mkQB (qb_q b) (skelStart b) v (qb_ctx b) (statementEnded b) (extraReported b) (colGuardSeen b)
    (rowGuardSeen b) (prevKw b) (afterOnConflict b) (isInsert b) (joinPendingOn b) (onWasJoin b) (crossNaturalPending b).
Definition set_ctx (v : clauseCtx) (b : queryBuilder) : queryBuilder :=
  mkQB (qb_q b) (skelStart b) (depth b) v (statementEnded b) (extraReported b) (colGuardSeen b)
    (rowGuardSeen b) (prevKw b) (afterOnConflict b) (isInsert b) (joinPendingOn b) (onWasJoin b) (crossNaturalPending b).
Definition set_statementEnded (v : bool) (b : queryBuilder) : queryBuilder :=
  mkQB (qb_q b) (skelStart b) (depth b) (qb_ctx b) v (extraReported b) (colGuardSeen b)
    (rowGuardSeen b) (prevKw b) (afterOnConflict b) (isInsert b) (joinPendingOn b) (onWasJoin b) (crossNaturalPending b).
Definition set_extraReported (v : bool) (b : queryBuilder) : queryBuilder :=
  mkQB (qb_q b) (skelStart b) (depth b) (qb_ctx b) (statementEnded b) v (colGuardSeen b)
    (rowGuardSeen b) (prevKw b) (afterOnConflict b) (isInsert b) (joinPendingOn b) (onWasJoin b) (crossNaturalPending b).
Definition set_guardSeen (col row : bool) (b : queryBuilder) : queryBuilder :=
  mkQB (qb_q b) (skelStart b) (depth b) (qb_ctx b) (statementEnded b) (extraReported b) col
    row (prevKw b) (afterOnConflict b) (isInsert b) (joinPendingOn b) (onWasJoin b) (crossNaturalPending b).
Definition set_prevKw (v : bytes) (b : queryBuilder) : queryBuilder :=
  mkQB (qb_q b) (skelStart b) (depth b) (qb_ctx b) (statementEnded b) (extraReported b) (colGuardSeen b)
    (rowGuardSeen b) v (afterOnConflict b) (isInsert b) (joinPendingOn b) (onWasJoin b) (crossNaturalPending b).
Definition set_afterOnConflict (v : bool) (b : queryBuilder) : queryBuilder :=
  mkQB (qb_q b) (skelStart b) (depth b) (qb_ctx b) (statementEnded b) (extraReported b) (colGuardSeen b)
    (rowGuardSeen b) (prevKw b) v (isInsert b) (joinPendingOn b) (onWasJoin b) (crossNaturalPending b).
Definition set_isInsert (v : bool) (b : queryBuilder) : queryBuilder :=
  mkQB (qb_q b) (skelStart b) (depth b) (qb_ctx b) (statementEnded b) (extraReported b) (colGuardSeen b)
    (rowGuardSeen b) (prevKw b) (afterOnConflict b) v (joinPendingOn b) (onWasJoin b) (crossNaturalPending b).
(** The join machine: [joinPendingOn], [onWasJoin], [crossNaturalPending]. *)
Definition set_joins (pending was cross : bool) (b : queryBuilder) : queryBuilder :=
  mkQB (qb_q b) (skelStart b) (depth b) (qb_ctx b) (statementEnded b) (extraReported b) (colGuardSeen b)
    (rowGuardSeen b) (prevKw b) (afterOnConflict b) (isInsert b) pending was cross.

Definition set_qb (v : option queryBuilder) (s : fileScan) : fileScan :=
  mkScan (fs_diags s) v (fs_names s) (strayReported s) (pendingDirectives s) (fs_emitted s) (fs_overflow s) (fs_firstOver s).
Definition set_names (v : gmap bytes Span) (s : fileScan) : fileScan :=
  mkScan (fs_diags s) (fs_qb s) v (strayReported s) (pendingDirectives s) (fs_emitted s) (fs_overflow s) (fs_firstOver s).
Definition set_stray (v : bool) (s : fileScan) : fileScan :=
  mkScan (fs_diags s) (fs_qb s) (fs_names s) v (pendingDirectives s) (fs_emitted s) (fs_overflow s) (fs_firstOver s).
Definition set_pending (v : list Token) (s : fileScan) : fileScan :=
  mkScan (fs_diags s) (fs_qb s) (fs_names s) (strayReported s) v (fs_emitted s) (fs_overflow s) (fs_firstOver s).

(** Query updates. *)
Definition q_set_items (f : list Item -> list Item) (q : QueryTemplate) : QueryTemplate :=
  mkQuery (QName q) (QAnnotation q) (QHeaderSpan q) (f (QItems q)) (QParamOrder q) (QParams q) (QGuardAtoms q)
    (QInsertColGuards q) (QInsertValGuards q) (QTypeHints q) (QColumnHints q) (QWhereKwEnd q) (QTailStart q) (QStmtEnd q)
    (QPolicyOptOuts q) (QPolicyApplies q) (QTimeout q) (QNoLints q) (QNullOverrides q).
Definition q_set_params (order : list bytes) (params : gmap bytes Param) (q : QueryTemplate) : QueryTemplate :=
  mkQuery (QName q) (QAnnotation q) (QHeaderSpan q) (QItems q) order params (QGuardAtoms q)
    (QInsertColGuards q) (QInsertValGuards q) (QTypeHints q) (QColumnHints q) (QWhereKwEnd q) (QTailStart q) (QStmtEnd q)
    (QPolicyOptOuts q) (QPolicyApplies q) (QTimeout q) (QNoLints q) (QNullOverrides q).
Definition q_set_atoms (atoms : list GuardAtom) (q : QueryTemplate) : QueryTemplate :=
  mkQuery (QName q) (QAnnotation q) (QHeaderSpan q) (QItems q) (QParamOrder q) (QParams q) atoms
    (QInsertColGuards q) (QInsertValGuards q) (QTypeHints q) (QColumnHints q) (QWhereKwEnd q) (QTailStart q) (QStmtEnd q)
    (QPolicyOptOuts q) (QPolicyApplies q) (QTimeout q) (QNoLints q) (QNullOverrides q).
Definition q_set_inserts (cols : list GuardedItem) (rows : list (list GuardedItem)) (q : QueryTemplate) : QueryTemplate :=
  mkQuery (QName q) (QAnnotation q) (QHeaderSpan q) (QItems q) (QParamOrder q) (QParams q) (QGuardAtoms q)
    cols rows (QTypeHints q) (QColumnHints q) (QWhereKwEnd q) (QTailStart q) (QStmtEnd q)
    (QPolicyOptOuts q) (QPolicyApplies q) (QTimeout q) (QNoLints q) (QNullOverrides q).
Definition q_set_offsets (whereKwEnd tailStart stmtEnd : Z) (q : QueryTemplate) : QueryTemplate :=
  mkQuery (QName q) (QAnnotation q) (QHeaderSpan q) (QItems q) (QParamOrder q) (QParams q) (QGuardAtoms q)
    (QInsertColGuards q) (QInsertValGuards q) (QTypeHints q) (QColumnHints q) whereKwEnd tailStart stmtEnd
    (QPolicyOptOuts q) (QPolicyApplies q) (QTimeout q) (QNoLints q) (QNullOverrides q).
Definition q_set_hints (types cols : gmap bytes TypeHint) (q : QueryTemplate) : QueryTemplate :=
  mkQuery (QName q) (QAnnotation q) (QHeaderSpan q) (QItems q) (QParamOrder q) (QParams q) (QGuardAtoms q)
    (QInsertColGuards q) (QInsertValGuards q) types cols (QWhereKwEnd q) (QTailStart q) (QStmtEnd q)
    (QPolicyOptOuts q) (QPolicyApplies q) (QTimeout q) (QNoLints q) (QNullOverrides q).
Definition q_set_directives (outs : list PolicyOptOut) (applies : list PolicyApply) (timeout : option TimeoutDirective)
    (nolints : list NoLint) (nulls : gmap bytes NullOverrideDirective) (q : QueryTemplate) : QueryTemplate :=
  mkQuery (QName q) (QAnnotation q) (QHeaderSpan q) (QItems q) (QParamOrder q) (QParams q) (QGuardAtoms q)
    (QInsertColGuards q) (QInsertValGuards q) (QTypeHints q) (QColumnHints q) (QWhereKwEnd q) (QTailStart q) (QStmtEnd q)
    outs applies timeout nolints nulls.

(** ** The monad *)

Inductive ScanStop := OutOfFuel | Panic.

Definition M (A : Type) : Type := fileScan -> result ScanStop (A * fileScan).

Definition mret_ {A} (a : A) : M A := fun s => Ok (a, s).
Definition mbind_ {A B} (m : M A) (f : A -> M B) : M B :=
  fun s => match m s with Ok (a, s') => f a s' | Err e => Err e end.
Definition mstop {A} (e : ScanStop) : M A := fun _ => Err e.
Definition modify (f : fileScan -> fileScan) : M unit := fun s => Ok (tt, f s).
Definition gets {A} (f : fileScan -> A) : M A := fun s => Ok (f s, s).

Declare Scope scan_scope.
Notation "'let*' x := m 'in' k" := (mbind_ m (fun x => k))
  (at level 10, x name, m at level 100, k at level 200) : scan_scope.
Notation "'let*' ' p := m 'in' k" := (mbind_ m (fun x => match x with p => k end))
  (at level 10, p pattern, m at level 100, k at level 200) : scan_scope.
Notation "m ;;; k" := (mbind_ m (fun _ => k)) (at level 100, right associativity) : scan_scope.
Open Scope scan_scope.

Definition when_ (b : bool) (m : M unit) : M unit := if b then m else mret_ tt.

(** [for _, x := range xs { f(x) }] *)
Definition mfor {A} (f : A -> M unit) (xs : list A) : M unit :=
  foldr (fun x k => f x ;;; k) (mret_ tt) xs.

(** Following [fs.qb]: a panic when it is nil. *)
Definition get_qb : M queryBuilder :=
  fun s => match fs_qb s with Some b => Ok (b, s) | None => Err Panic end.
Definition modify_qb (f : queryBuilder -> queryBuilder) : M unit :=
  fun s => match fs_qb s with Some b => Ok (tt, set_qb (Some (f b)) s) | None => Err Panic end.
Definition modify_q (f : QueryTemplate -> QueryTemplate) : M unit := modify_qb (with_q f).

(** ** Reports *)

Definition maxDiagsPerCode : nat := 200.

Definition emit (d : Diagnostic) : M unit := modify (fun s =>
  let c := DCode d in
  if Nat.leb maxDiagsPerCode (default 0 (fs_emitted s !! c)) then
    mkScan (fs_diags s) (fs_qb s) (fs_names s) (strayReported s) (pendingDirectives s) (fs_emitted s)
      (<[c := default 0 (fs_overflow s !! c) + 1]> (fs_overflow s))
      (if Nat.eqb (default 0 (fs_overflow s !! c)) 0 then <[c := DSpan d]> (fs_firstOver s) else fs_firstOver s)
  else
    mkScan (fs_diags s ++ [d]) (fs_qb s) (fs_names s) (strayReported s) (pendingDirectives s)
      (<[c := default 0 (fs_emitted s !! c) + 1]> (fs_emitted s)) (fs_overflow s) (fs_firstOver s)).

Definition errorf (code : bytes) (span : Span) (format : string) (args : list Arg) : M unit :=
  emit (Errorf code span format args).

(** [flushOverflow]: one summary per suppressed code, in code order. *)
Definition flushOverflow : M unit := modify (fun s =>
  let codes := SliceStable bytes_ltb (fst <$> map_to_list (fs_overflow s)) in
  mkScan (fs_diags s ++ ((fun c => Errorf c (default (mkSpan [] 0 0) (fs_firstOver s !! c))
      "%d further %s diagnostics in this file were suppressed; fix the reported occurrences and re-run"
      [AInt (Z.of_nat (default 0 (fs_overflow s !! c))); AStr c]) <$> codes))
    (fs_qb s) (fs_names s) (strayReported s) (pendingDirectives s) (fs_emitted s) (fs_overflow s) (fs_firstOver s)).

Section file.
Context (path src : bytes).

(** [fs.span]: clamped to the source. *)
Definition span (start end_ : nat) : Span :=
  let n := length src in
  let start' := if Nat.ltb n start then n else start in
  let end1 := if Nat.ltb n end_ then n else end_ in
  mkSpan path start' (if Nat.ltb end1 start' then start' else end1).

(** [string(fs.src[lo:hi])]: a panic when the bounds are out of order or range. *)
Definition src_slice (lo hi : nat) : M bytes :=
  if (Nat.leb lo hi && Nat.leb hi (length src))%bool then mret_ (slice src lo hi) else mstop Panic.

(** ** Builder operations *)

Definition flushSkeleton (upTo : nat) : M unit :=
  let* qb := get_qb in
  match skelStart qb with
  | Some st =>
      if Nat.ltb st upTo then
        let* text := src_slice st upTo in
        modify_qb (fun b => set_skelStart None
          (with_q (q_set_items (fun items => items ++ [ISkeleton (mkSkeleton text (span st upTo) false)])) b))
      else modify_qb (set_skelStart None)
  | None => modify_qb (set_skelStart None)
  end.

(** [snakeRe] *)
Definition snakeRe : regex := RSeq rsnake REnd.

Definition add_occurrence (name : bytes) (occ : Occurrence) (q : QueryTemplate) : QueryTemplate :=
  match QParams q !! name with
  | Some p =>
      q_set_params (QParamOrder q)
        (<[name := mkParam (PName p) (POccurrences p ++ [occ]) (PGuardBit p) (POptional p) (PPolicy p)]> (QParams q)) q
  | None =>
      q_set_params (QParamOrder q ++ [name])
        (<[name := mkParam name [occ] (-1) false []]> (QParams q)) q
  end.

Definition recordParam (name : bytes) (sp : Span) (guards : list GuardAtom) (inCase inFT : bool) : M unit :=
  if MatchString snakeRe name then
    modify_q (add_occurrence name (mkOccurrence sp guards inCase inFT false))
  else
    errorf CodeBadIdentifier sp "parameter name %q must be snake_case ([a-z][a-z0-9_]*)" [AStr name].

(** [markTail] *)
Definition mark_tail (start : nat) (q : QueryTemplate) : QueryTemplate :=
  if (Z.ltb (QWhereKwEnd q) 0 && Z.ltb (QTailStart q) 0)%bool
  then q_set_offsets (QWhereKwEnd q) (Z.of_nat start) (QStmtEnd q) q else q.

Definition markTail (start : nat) : M unit := modify_q (mark_tail start).

Definition set_StmtEnd (e : nat) (q : QueryTemplate) : QueryTemplate :=
  q_set_offsets (QWhereKwEnd q) (QTailStart q) (Z.of_nat e) q.
End file.
