(* ===== verification/ScanDirectives.v ===== *)
(** * ScanDirectives

    The comment directives of the scanner: their patterns, literally those of
    the code, and [applyDirective] with its branches. *)

From S2P Require Import Prelude Dialect Template Diagnostics Regex ScanState.

(** ** Patterns *)

Definition rident : regex :=
  RSeq (RChar (fun c => is_lower c || is_upper c))
    (RStar true (RChar (fun c => is_lower c || is_upper c || is_digit c || (c =b "_")%char))).

Definition headerRe : regex := rseq
  [rlit "--"; rspaces; rlit "name:"; rspaces; RGroup 1 rident; rspaces1; rlit ":";
   RGroup 2 (ralts [rlit "one"; rlit "maybe-one"; rlit "many"; rlit "exec"; rlit "execrows"]); rspaces; REnd].

Definition hintRe (keyword : string) : regex := rseq
  [rlit "--"; rspaces; rlit keyword; rspaces1; RGroup 1 rsnake; rspaces; rlit ":"; rspaces;
   RGroup 2 (rplus false rdot); rspaces; REnd].
Definition paramHintRe : regex := hintRe "@param".
Definition colHintRe : regex := hintRe "@column".

Definition shapeRe (keyword : string) : regex := rseq [rlit "--"; rspaces; rlit keyword; RWordBoundary].
Definition optOutRe : regex := shapeRe "@policy-optout".
Definition timeoutRe : regex := shapeRe "@timeout".
Definition nullableRe : regex := shapeRe "@nullable".
Definition applyRe : regex := shapeRe "@policy-apply".

Definition timeoutFormRe : regex := rseq
  [rlit "--"; rspaces; rlit "@timeout"; rspaces1; RGroup 1 (rplus true rnonspace); rspaces; REnd].
Definition nullableFormRe : regex := rseq
  [rlit "--"; rspaces; rlit "@nullable"; rspaces1; RGroup 1 rsnake; rspaces; rlit ":"; rspaces;
   RGroup 2 (ralts [rlit "true"; rlit "false"]); rspaces; REnd].
Definition optOutFormRe : regex := rseq
  [rlit "--"; rspaces; rlit "@policy-optout:"; rspaces; RGroup 1 rsnake; rspaces1; rlit "(";
   RGroup 2 (rplus true rdot); rlit ")"; rspaces; REnd].
Definition applyFormRe : regex := rseq
  [rlit "--"; rspaces; rlit "@policy-apply:"; rspaces; RGroup 1 rsnake; rspaces;
   ropt (rseq [rlit "("; RGroup 2 (rplus true rdot); rlit ")"; rspaces]); REnd].

Definition nolintRe : regex := rseq
  [rlit "--"; rspaces; rlit "@nolint"; ralts [rspace; rlit ":"; rlit "("; REnd]].
Definition nolintBareRe : regex := rseq
  [rlit "--"; rspaces; rlit "@nolint"; rspaces; ropt (rseq [rlit "("; RStar true rdot; rlit ")"; rspaces]); REnd].
Definition rcode : regex := rseq
  [rlit "SQLETCH"; ropt (rlit "L"); RChar is_digit; RChar is_digit; RChar is_digit].
Definition nolintFormRe : regex := rseq
  [rlit "--"; rspaces; rlit "@nolint"; rspaces1;
   RGroup 1 (RSeq rcode (RStar true (rseq [rspaces; rlit ","; rspaces; rcode]))); rspaces;
   ropt (rseq [rlit "("; RGroup 2 (rseq [RStar true rdot; rnonspace; RStar true rdot]); rlit ")"; rspaces]); REnd].

(** [isDirectiveComment] *)
Definition isDirectiveComment (text : bytes) : bool :=
  MatchString paramHintRe text || MatchString colHintRe text || MatchString optOutRe text
  || MatchString applyRe text || MatchString timeoutRe text || MatchString nolintRe text
  || MatchString nullableRe text.

(** ** strings *)

(** [unicode.IsSpace]: the white space of Latin-1 and of the White_Space
    property, as UTF-8. *)
Definition space_runes : list bytes :=
  ((fun n => [ascii_of_N n]) <$> [9; 10; 11; 12; 13; 32]%N)
  ++ ((fun '(a, b) => [ascii_of_N a; ascii_of_N b]) <$> [(194, 133); (194, 160)]%N)
  ++ ((fun '(a, b, c) => [ascii_of_N a; ascii_of_N b; ascii_of_N c]) <$>
       ([(225, 154, 128)]%N ++ ((fun n => (226, 128, 128 + N.of_nat n)%N) <$> seq 0 11)
        ++ [(226, 128, 168); (226, 128, 169); (226, 128, 175); (226, 129, 159); (227, 128, 128)]%N)).

Fixpoint strip_one (seqs : list bytes) (s : bytes) : option bytes :=
  match seqs with
  | [] => None
  | p :: seqs' => if decide (take (length p) s = p) then Some (drop (length p) s) else strip_one seqs' s
  end.

(** Fuel: each round removes a byte. *)
Fixpoint trim_loop (fuel : nat) (seqs : list bytes) (s : bytes) : bytes :=
  match fuel with
  | O => s
  | S f => match s with
           | [] => []
           | _ => match strip_one seqs s with Some s' => trim_loop f seqs s' | None => s end
           end
  end.

(** [strings.TrimSpace] *)
Definition TrimSpace (s : bytes) : bytes :=
  let l := trim_loop (length s) space_runes s in
  rev (trim_loop (length l) ((fun p => rev p) <$> space_runes) (rev l)).

(** [strings.Split(s, sep)] for a one-byte separator. *)
Fixpoint split_byte (sep : ascii) (s : bytes) : list bytes :=
  match s with
  | [] => [[]]
  | c :: s' =>
      let parts := split_byte sep s' in
      if (c =b sep)%char then [] :: parts
      else match parts with p :: ps => (c :: p) :: ps | [] => [[c]] end
  end.

Section directives.
(** [time.ParseDuration], whose fractions are float64 arithmetic. *)
Context (ParseDuration : bytes -> option Z) (path src : bytes).

Abbreviation sp tok := (span path src (Start tok) (End tok)).

(** ** The directives *)

Definition applyNullable (tok : Token) : M unit :=
  let* qb := get_qb in
  let q := qb_q qb in
  match FindStringSubmatch nullableFormRe (Text tok) with
  | None => errorf CodeBadNullable (sp tok)
      "malformed @nullable; the form is `-- @nullable column_name: true|false`, one result column per directive" []
  | Some m =>
      let name := group (Text tok) m 1 in
      match QNullOverrides q !! name with
      | Some _ => errorf CodeBadNullable (sp tok)
          "duplicate @nullable for column %q of query %s; a column has one declared nullability, and with two the effective one would depend on source order"
          [AStr name; AStr (QName q)]
      | None =>
          let v := mkNullOverride (bool_decide (group (Text tok) m 2 = bs "true")) (sp tok) in
          modify_q (fun q => q_set_directives (QPolicyOptOuts q) (QPolicyApplies q) (QTimeout q) (QNoLints q)
            (<[name := v]> (QNullOverrides q)) q)
      end
  end.

Definition nolint_hint : Arg :=
  ASprintf (bs "@nolint suppresses performance lints only: ") [AStr (join (bs ", ") PerfLintCodes)].

(** The loop over the codes of a directive: the codes, each once, or the first
    that is not a performance lint. *)
Fixpoint nolint_codes (raws codes : list bytes) : result bytes (list bytes) :=
  match raws with
  | [] => Ok codes
  | raw :: raws' =>
      let c := TrimSpace raw in
      if IsPerfLint c then nolint_codes raws' (if decide (c ∈ codes) then codes else codes ++ [c])
      else Err c
  end.

Definition applyNoLint (tok : Token) : M unit :=
  match FindStringSubmatch nolintFormRe (Text tok) with
  | None =>
      let msg :=
        if MatchString nolintBareRe (Text tok) then
          "@nolint must name the codes it suppresses (there is no suppress-all form); write `-- @nolint SQLETCHnnn[, SQLETCHnnn…] (reason)`"
        else
          "malformed @nolint; the form is `-- @nolint SQLETCHnnn[, SQLETCHnnn…]` with an optional trailing `(reason)`" in
      emit (WithHintf "%s" [nolint_hint] (Errorf CodeBadNoLint (sp tok) "%s" [AStr (bs msg)]))
  | Some m =>
      match nolint_codes (split_byte "," (group (Text tok) m 1)) [] with
      | Err c => emit (WithHintf "%s" [nolint_hint] (Errorf CodeBadNoLint (sp tok)
          "@nolint names %s, which is not a performance lint; soundness and rule diagnostics cannot be suppressed per query, and an unknown code would suppress nothing" [AStr c]))
      | Ok codes =>
          let reason := TrimSpace (group (Text tok) m 2) in
          modify_q (fun q => q_set_directives (QPolicyOptOuts q) (QPolicyApplies q) (QTimeout q)
            (QNoLints q ++ ((fun c => mkNoLint c reason (sp tok)) <$> codes)) (QNullOverrides q) q)
      end
  end.

Definition timeout_form : Arg := AStr (bs
  "the form is `-- @timeout <duration>` with a positive Go duration such as `500ms` or `2s`, or `-- @timeout none` to opt out of query_timeout.default").

Definition set_timeout (t : TimeoutDirective) : M unit :=
  modify_q (fun q => q_set_directives (QPolicyOptOuts q) (QPolicyApplies q) (Some t) (QNoLints q) (QNullOverrides q) q).

Definition applyTimeout (tok : Token) : M unit :=
  let* qb := get_qb in
  match QTimeout (qb_q qb) with
  | Some _ => errorf CodeBadTimeout (sp tok)
      "duplicate @timeout for query %s; a query has one deadline, and with two the effective one would depend on source order"
      [AStr (QName (qb_q qb))]
  | None =>
      match FindStringSubmatch timeoutFormRe (Text tok) with
      | None => errorf CodeBadTimeout (sp tok) "malformed @timeout; %s" [timeout_form]
      | Some m =>
          let arg := group (Text tok) m 1 in
          if decide (arg = bs "none") then set_timeout (mkTimeout 0 true (sp tok))
          else match ParseDuration arg with
               | None => errorf CodeBadTimeout (sp tok) "malformed @timeout %q; %s" [AStr arg; timeout_form]
               | Some d =>
                   if Z.leb d 0 then errorf CodeBadTimeout (sp tok)
                     "@timeout %q is not positive; a zero or negative deadline would fail every call before it reaches the database (%s)"
                     [AStr arg; timeout_form]
                   else set_timeout (mkTimeout d false (sp tok))
               end
      end
  end.

Definition applyDirective (tok : Token) : M unit :=
  let t := Text tok in
  match FindStringSubmatch paramHintRe t with
  | Some m => modify_q (fun q => q_set_hints
      (<[group t m 1 := mkTypeHint (group t m 2) (sp tok)]> (QTypeHints q)) (QColumnHints q) q)
  | None =>
  match FindStringSubmatch colHintRe t with
  | Some m => modify_q (fun q => q_set_hints (QTypeHints q)
      (<[group t m 1 := mkTypeHint (group t m 2) (sp tok)]> (QColumnHints q)) q)
  | None =>
      if MatchString optOutRe t then
        match FindStringSubmatch optOutFormRe t with
        | Some m => modify_q (fun q => q_set_directives
            (QPolicyOptOuts q ++ [mkOptOut (group t m 1) (TrimSpace (group t m 2)) (sp tok)])
            (QPolicyApplies q) (QTimeout q) (QNoLints q) (QNullOverrides q) q)
        | None => errorf CodeConstructGrammar (sp tok)
            "malformed @policy-optout; the reason is mandatory: `-- @policy-optout: policy_name (reason)`" []
        end
      else if MatchString timeoutRe t then applyTimeout tok
      else if MatchString applyRe t then
        match FindStringSubmatch applyFormRe t with
        | Some m => modify_q (fun q => q_set_directives (QPolicyOptOuts q)
            (QPolicyApplies q ++ [mkApply (group t m 1) (TrimSpace (group t m 2)) (sp tok)])
            (QTimeout q) (QNoLints q) (QNullOverrides q) q)
        | None => errorf CodeConstructGrammar (sp tok)
            "malformed @policy-apply; the form is `-- @policy-apply: policy_name` with an optional trailing `(reason)`" []
        end
      else if MatchString nolintRe t then applyNoLint tok
      else when_ (MatchString nullableRe t) (applyNullable tok)
  end end.

(** [applyDirectives]: in source order; the buffer is emptied. *)
Definition applyDirectives : M unit :=
  let* toks := gets pendingDirectives in
  mfor applyDirective toks ;;;
  modify (set_pending []).
End directives.

(** ** Concrete comments *)

Example header_ok :
  (fun t => match FindStringSubmatch headerRe t with
            | Some m => Some (group t m 1, group t m 2) | None => None end)
  <$> [bs "-- name: ListUsers :many"; bs "--name:A:one"; bs "-- name: B :execrows  "; bs "-- name: 9x :one"]
  = [Some (bs "ListUsers", bs "many"); None; Some (bs "B", bs "execrows"); None].
Proof. vm_compute. reflexivity. Qed.

Example optout_ok :
  (fun t => match FindStringSubmatch optOutFormRe t with
            | Some m => Some (group t m 1, group t m 2) | None => None end)
  <$> [bs "-- @policy-optout: tenant (why (not))"; bs "-- @policy-optout: tenant"]
  = [Some (bs "tenant", bs "why (not)"); None].
Proof. vm_compute. reflexivity. Qed.

Example hint_lazy :
  (fun t => match FindStringSubmatch paramHintRe t with
            | Some m => Some (group t m 1, group t m 2) | None => None end)
    (bs "-- @param id : int  4  ") = Some (bs "id", bs "int  4").
Proof. vm_compute. reflexivity. Qed.
