(* ===== verification/ScanClauses.v ===== *)
(** * ScanClauses

    The statement-level part of the scanner: [feed], which follows tokens
    outside constructs, and [transition], the clause machine run on top-level
    keywords. *)

From S2P Require Import Prelude Dialect Template Diagnostics Regex ScanState.

Definition kw_in (kw : bytes) (l : list string) : bool := existsb (fun s => bool_decide (kw = bs s)) l.

(** ** The clause machine *)

Definition after_values (kw : bytes) (b : queryBuilder) : queryBuilder :=
  if bool_decide (qb_ctx b = ctxValues) && negb (kw_in kw ["VALUES"%string]) then set_ctx ctxInsertTail b else b.

Definition on_conflict (prev kw : bytes) (b : queryBuilder) : queryBuilder :=
  if isInsert b && kw_in prev ["ON"%string] && kw_in kw ["CONFLICT"%string] && negb (onWasJoin b)
  then set_afterOnConflict true b else b.

Definition clear_cross (kw : bytes) (b : queryBuilder) : queryBuilder :=
  if crossNaturalPending b
     && negb (kw_in kw ["JOIN"; "CROSS"; "NATURAL"; "LEFT"; "RIGHT"; "INNER"; "OUTER"; "FULL"]%string)
  then set_joins (joinPendingOn b) (onWasJoin b) false b else b.

(** The final [switch kw]. *)
Definition clause_step (kw : bytes) (tok : Token) (b : queryBuilder) : queryBuilder :=
  let mark b := with_q (mark_tail (Start tok)) b in
  if kw_in kw ["CROSS"; "NATURAL"]%string then
    if decide (qb_ctx b = ctxFrom) then set_joins (joinPendingOn b) (onWasJoin b) true b else b
  else if kw_in kw ["JOIN"%string] then set_joins (negb (crossNaturalPending b)) (onWasJoin b) false b
  else if kw_in kw ["STRAIGHT_JOIN"%string] then
    if decide (qb_ctx b = ctxFrom) then set_joins true (onWasJoin b) (crossNaturalPending b) b else b
  else if kw_in kw ["USING"%string] then set_joins false (onWasJoin b) (crossNaturalPending b) b
  else if kw_in kw ["ON"%string] then set_joins false (joinPendingOn b) (crossNaturalPending b) b
  else if kw_in kw ["SELECT"%string] then set_ctx ctxProjection b
  else if kw_in kw ["FROM"%string] then set_ctx ctxFrom b
  else if kw_in kw ["WHERE"%string] then
    let b := set_ctx ctxWhere b in
    if Z.ltb (QWhereKwEnd (qb_q b)) 0 && negb (afterOnConflict b)
    then with_q (fun q => q_set_offsets (Z.of_nat (End tok)) (QTailStart q) (QStmtEnd q) q) b else b
  else if kw_in kw ["GROUP"%string] then mark (set_ctx ctxGroupBy b)
  else if kw_in kw ["HAVING"%string] then mark (set_ctx ctxHaving b)
  else if kw_in kw ["ORDER"%string] then mark (set_ctx ctxOrderBy b)
  else if kw_in kw ["LIMIT"; "OFFSET"; "FETCH"; "FOR"]%string then mark (set_ctx ctxTail b)
  else if kw_in kw ["WINDOW"%string] then
    if bool_decide (qb_ctx b ∈ [ctxFrom; ctxWhere; ctxGroupBy; ctxHaving]) then mark b else b
  else if kw_in kw ["UPDATE"%string] then set_ctx ctxUpdateTarget b
  else if kw_in kw ["SET"%string] then
    if decide (qb_ctx b = ctxUpdateTarget) then set_ctx ctxSet b else b
  else if kw_in kw ["INSERT"%string] then set_isInsert true (set_ctx ctxInsertTarget b)
  else if kw_in kw ["VALUES"%string] then set_ctx ctxValues b
  else if kw_in kw ["RETURNING"%string] then mark (set_ctx ctxReturning b)
  else b.

Definition transition (kw : bytes) (tok : Token) (b : queryBuilder) : queryBuilder :=
  let prev := prevKw b in
  clause_step kw tok (clear_cross kw (on_conflict prev kw (after_values kw (set_prevKw kw b)))).

(** ** Tokens outside constructs *)

Section feed.
Context (ToUpper : bytes -> bytes) (path src : bytes).

Abbreviation sp tok := (span path src (Start tok) (End tok)).

Definition feed_lparen (b : queryBuilder) : queryBuilder :=
  let b :=
    if Nat.eqb (depth b) 0 then
      match qb_ctx b with
      | ctxInsertTarget => set_guardSeen false (rowGuardSeen b) (set_ctx ctxInsertColumns b)
      | ctxValues =>
          with_q (fun q => q_set_inserts (QInsertColGuards q) (QInsertValGuards q ++ [[]]) q)
            (set_guardSeen (colGuardSeen b) false (set_ctx ctxInsertValueRow b))
      | _ => b
      end
    else b in
  set_depth (S (depth b)) b.

Definition feed_rparen (b : queryBuilder) : queryBuilder :=
  let b := if Nat.ltb 0 (depth b) then set_depth (depth b - 1) b else b in
  if Nat.eqb (depth b) 0 then
    match qb_ctx b with
    | ctxInsertColumns => set_ctx ctxInsertAfterCol b
    | ctxInsertValueRow => set_ctx ctxValues b
    | _ => b
    end
  else b.

Definition feed (tok : Token) : M unit :=
  let* qb := get_qb in
  if statementEnded qb then
    if is_trivia (Kind tok) then mret_ tt
    else if negb (extraReported qb) then
      errorf CodeMultipleStatements (sp tok)
        "only one statement per query header; start a new `-- name:` header for the next query" [] ;;;
      modify_qb (set_extraReported true)
    else mret_ tt
  else
    when_ (negb (is_trivia (Kind tok)) && negb (bool_decide (Kind tok = KindSemicolon)))
      (modify_q (set_StmtEnd (End tok))) ;;;
    match Kind tok with
    | KindLParen => modify_qb feed_lparen
    | KindRParen => modify_qb feed_rparen
    | KindComma =>
        when_ (Nat.eqb (depth qb) 1
               && ((bool_decide (qb_ctx qb = ctxInsertColumns) && colGuardSeen qb)
                   || (bool_decide (qb_ctx qb = ctxInsertValueRow) && rowGuardSeen qb)))
          (errorf CodePairedGuards (sp tok)
            "unconditional item after optional items in the %s; keep optional column/value pairs at the end (R7)"
            [AStr (ctx_String (qb_ctx qb))])
    | KindSemicolon => when_ (Nat.eqb (depth qb) 0) (modify_qb (set_statementEnded true))
    | KindParamRef => recordParam (tail (Text tok)) (sp tok) [] false false
    | KindPositionalParam =>
        errorf CodePositionalParam (sp tok)
          "positional parameter %q is not allowed; use a named parameter (:name)" [AStr (Text tok)]
    | KindIdent => when_ (Nat.eqb (depth qb) 0) (modify_qb (transition (ToUpper (Text tok)) tok))
    | _ => mret_ tt
    end.
End feed.
