(* ===== verification/ScanBodies.v ===== *)
(** * ScanBodies

    The scanner's reading of constructs: markers, argument lists, the literals
    of [@when], the bodies of fragments and the operations on their text. *)

From S2P Require Import Prelude Dialect Template Diagnostics Regex ScanState.

(** ** Markers *)

Definition constructVocab : list bytes := bs <$>
  ["if-present"; "endif"; "choose"; "case"; "default"; "end"; "when"; "order-by"; "key";
   "filter-tree"; "predicate"; "in"]%string.

(** [matchConstruct], [None] for the empty name. *)
Definition matchConstruct (src : bytes) (pos : nat) : option (bytes * nat) :=
  let i := scan (fun c => is_lower c || (c =b "-")%char) src (pos + 1) in
  let name := slice src (pos + 1) i in
  if bool_decide (name ∈ constructVocab) then Some (name, i) else None.

(** The marker at a position, if the byte there is [@]. *)
Definition marker_at (src : bytes) (pos : nat) : option (bytes * nat) :=
  if at_is src pos "@" then matchConstruct src pos else None.

(** ** Literals *)

Definition isDecimal (text : bytes) : bool := forallb is_digit text.

(** [strconv.ParseInt(text, 10, 64)] succeeds on the decimal digits [text]. *)
Definition fits_int64 (text : bytes) : bool :=
  negb (bool_decide (text = [])) && N.ltb (of_digits 10 text) (2 ^ 63).

Fixpoint trim_left (p : ascii -> bool) (s : bytes) : bytes :=
  match s with c :: s' => if p c then trim_left p s' else s | [] => [] end.
Definition trim_right (p : ascii -> bool) (s : bytes) : bytes := rev (trim_left p (rev s)).

(** [whenIntError]: the message and the hint, [None] when the literal is fine. *)
Definition whenIntError (text : bytes) : option (Arg * Arg) :=
  if negb (isDecimal text) then
    Some (ASprintf (bs "@when integer literal %q must be a plain decimal integer") [AStr text],
          AStr (bs "use decimal digits only — hex/octal/binary prefixes (0x, 0o, 0b) are not allowed"))
  else if Nat.ltb 1 (length text) && at_is text 0 "0" then
    let trimmed := trim_left (Ascii.eqb "0") text in
    let trimmed := match trimmed with [] => bs "0" | _ => trimmed end in
    Some (ASprintf (bs "@when integer literal %q is ambiguous: a leading zero is read as an octal literal in the generated guard, not the decimal value written here") [AStr text],
          ASprintf (bs "drop the leading zero: write %s") [AStr trimmed])
  else if negb (fits_int64 text) then
    Some (ASprintf (bs "@when integer literal %q does not fit a 64-bit signed integer") [AStr text],
          AStr (bs "use a value in the range [-9223372036854775808, 9223372036854775807]"))
  else None.

Definition c_quote : ascii := "'".

(** The loop of [isPlainSQLString] over the inner text. *)
Fixpoint plain_inner (inner : bytes) : bool :=
  match inner with
  | [] => true
  | c :: rest =>
      if (c =b c_bslash)%char then false
      else if (c =b c_quote)%char then
        match rest with
        | d :: rest' => if (d =b c_quote)%char then plain_inner rest' else false
        | [] => false
        end
      else plain_inner rest
  end.

Definition isPlainSQLString (text : bytes) : bool :=
  if Nat.ltb (length text) 2 || negb (at_is text 0 c_quote) || negb (at_is text (length text - 1) c_quote)
  then false
  else plain_inner (slice text 1 (length text - 1)).

(** [strings.ReplaceAll(s, "''", "'")]: left to right, without overlap. *)
Fixpoint undouble (s : bytes) : bytes :=
  match s with
  | c :: (d :: s') as rest =>
      if ((c =b c_quote) && (d =b c_quote))%char then c_quote :: undouble s' else c :: undouble rest
  | _ => s
  end.

Definition unquoteSQLString (text : bytes) : bytes :=
  let inner :=
    if Nat.leb 2 (length text) && at_is text 0 c_quote then slice text 1 (length text - 1) else text in
  undouble inner.

Definition whenStringError (text : bytes) : option (Arg * Arg) :=
  if isPlainSQLString text then None
  else Some (ASprintf (bs "@when string literal %s must be a plain single-quoted SQL string: E-strings, dollar-quoted strings, double-quoted strings, blob literals, and backslash escapes keep their delimiters in the guard value, so the generated comparison never matches the runtime value and the guarded fragment is silently dead") [AStr text],
             AStr (bs "write a plain single-quoted literal — e.g. 'abc' — and double an embedded quote to escape it ('it''s')")).

(** ** Text operations *)

Definition isTrimByte (c : ascii) : bool :=
  ((c =b " ") || (c =b c_tab) || (c =b c_lf) || (c =b c_cr))%char.

(** [trimEdges], on bounds in order and in range. *)
Definition trim_start (src : bytes) (start end_ : nat) : nat :=
  start + (length (slice src start end_) - length (trim_left isTrimByte (slice src start end_))).
Definition trim_text (src : bytes) (start end_ : nat) : bytes :=
  trim_right isTrimByte (trim_left isTrimByte (slice src start end_)).

Section bodies.
Context (ToUpper : bytes -> bytes) (profile : LexerProfile) (path src : bytes).

Definition trimEdges (start end_ : nat) : M (bytes * nat) :=
  src_slice src start end_ ;;; mret_ (trim_text src start end_, trim_start src start end_).

(** [firstTokenOf]: the first token of a text that is no trivia. *)
Definition firstTokenOf (b : bytes) : option Token :=
  head (filter (fun t => is_trivia (Kind t) = false) (tokens b).1).

Definition isSingleIdent (body : bytes) : bool :=
  match firstTokenOf body with
  | Some t =>
      (bool_decide (Kind t = KindIdent) || bool_decide (Kind t = KindQuotedIdent))
      && match firstTokenOf (drop (End t) body) with None => true | Some _ => false end
  | None => false
  end.

Definition isAndToken (t : Token) : bool :=
  bool_decide (Kind t = KindIdent) && bool_decide (ToUpper (Text t) = bs "AND").
Definition isCommaToken (t : Token) : bool := bool_decide (Kind t = KindComma).

(** [stripLeadingToken]: the stripped body, its offset, and whether the
    separator was there. *)
Definition stripLeadingToken (body : bytes) (bodyOff : nat) (match_ : Token -> bool) : bytes * nat * bool :=
  match firstTokenOf body with
  | Some t =>
      if match_ t then
        let rest := drop (End t) body in
        let trimmed := trim_left isTrimByte rest in
        (trim_right isTrimByte trimmed, bodyOff + End t + (length rest - length trimmed), true)
      else (body, bodyOff, false)
  | None => (body, bodyOff, false)
  end.

Definition clauseKeywordOf (body : bytes) : bytes :=
  match firstTokenOf body with
  | Some t1 =>
      if negb (bool_decide (Kind t1 = KindIdent)) then []
      else
        let kw := ToUpper (Text t1) in
        if negb (bool_decide (kw = bs "ORDER")) && negb (bool_decide (kw = bs "GROUP")) then []
        else
          match firstTokenOf (drop (End t1) body) with
          | Some t2 => if bool_decide (Kind t2 = KindIdent) && bool_decide (ToUpper (Text t2) = bs "BY") then kw else []
          | None => []
          end
  | None => []
  end.

(** The token loops of [lastSignificantToken] and [firstSignificantToken]. *)
Definition significant (t : Token) : bytes :=
  if decide (Kind t = KindIdent) then ToUpper (Text t) else Text t.

Definition lastSignificantToken (from : option nat) (to : nat) : bytes :=
  match from with
  | None => []
  | Some from =>
      if Nat.ltb (length src) to || Nat.leb to from then []
      else foldl (fun last t => if is_trivia (Kind t) then last else significant t) []
             (tokens (slice src from to)).1
  end.

Definition firstSignificantToken (text : bytes) : bytes :=
  match firstTokenOf text with Some t => significant t | None => [] end.

(** [distinctParams] *)
Definition distinct_params (body : bytes) : list bytes :=
  foldl (fun out tok =>
    if decide (Kind tok = KindParamRef /\ ~ tail (Text tok) ∈ out)
    then out ++ [tail (Text tok)] else out) [] (tokens body).1.

(** ** Lexing *)

(** [lexAt]: a lexical error is reported and read as the end of the file. *)
Definition lexAt (pos : nat) : M Token :=
  match NextToken src pos with
  | Ok tok => mret_ tok
  | Err e =>
      errorf CodeConstructGrammar (span path src (Pos e) (Pos e + 1)) "%s" [AStr (Msg e)] ;;;
      mret_ (mkToken KindEOF (length src) (length src) [])
  end.

(** The loops over the source advance at every round, so this fuel is enough
    ([ScanTotal]). *)
Definition src_fuel : nat := S (S (length src)).

Fixpoint skipTrivia_loop (fuel : nat) (pos : nat) : M nat :=
  match fuel with
  | O => mstop OutOfFuel
  | S f =>
      let* tok := lexAt pos in
      if is_trivia (Kind tok) then skipTrivia_loop f (End tok) else mret_ pos
  end.
Definition skipTrivia : nat -> M nat := skipTrivia_loop src_fuel.

Abbreviation sp tok := (span path src (Start tok) (End tok)).

(** [parseArgList]: the identifiers (Go's [ok] false is [None]) and the offset
    to go on from. *)
Fixpoint parseArgList_loop (name : bytes) (fuel : nat) (pos : nat) (idents : list bytes)
    : M (option (list bytes) * nat) :=
  match fuel with
  | O => mstop OutOfFuel
  | S f =>
      let* pos := skipTrivia pos in
      let* tok := lexAt pos in
      if negb (bool_decide (Kind tok = KindIdent)) then
        errorf CodeConstructGrammar (sp tok) "@%s: expected an identifier" [AStr name] ;;;
        mret_ (None, End tok)
      else
        when_ (negb (MatchString snakeRe (Text tok)))
          (errorf CodeBadIdentifier (sp tok) "%q must be snake_case ([a-z][a-z0-9_]*)" [AStr (Text tok)]) ;;;
        let idents := idents ++ [Text tok] in
        let* pos := skipTrivia (End tok) in
        let* next := lexAt pos in
        match Kind next with
        | KindComma => parseArgList_loop name f (End next) idents
        | KindRParen => mret_ (Some idents, End next)
        | _ =>
            errorf CodeConstructGrammar (sp next) "@%s: expected ',' or ')'" [AStr name] ;;;
            mret_ (None, End next)
        end
  end.

Definition parseArgList (name : bytes) (markerStart pos : nat) : M (option (list bytes) * nat) :=
  if negb (at_is src pos "(") then
    errorf CodeConstructGrammar (span path src markerStart pos)
      "@%s arguments must follow immediately: @%s(...)" [AStr name; AStr name] ;;;
    mret_ (None, pos)
  else parseArgList_loop name src_fuel (pos + 1) [].

(** ** Bodies *)

Definition pop_closer (name : bytes) (stack : list bytes) : list bytes :=
  match list.last stack with
  | Some top => if decide (top = name) then removelast stack else stack
  | None => stack
  end.

Definition nm (name : bytes) (l : list string) : bool := existsb (fun s => bool_decide (name = bs s)) l.

(** [consumeBody]: the end of the body and the terminator that ends it; [stack]
    holds the closers of nested constructs. *)
Fixpoint consumeBody_loop (terminators : list bytes) (guards : list GuardAtom) (inCase inFT : bool)
    (fuel : nat) (pos : nat) (stack : list bytes) : M (nat * option bytes) :=
  let nested msg hint closer nameEnd f :=
    emit (hint (Errorf CodeConstructNesting (span path src pos nameEnd) msg [])) ;;;
    consumeBody_loop terminators guards inCase inFT f nameEnd (stack ++ [closer]) in
  match fuel with
  | O => mstop OutOfFuel
  | S f =>
      match marker_at src pos with
      | Some (name, nameEnd) =>
          if nm name ["if-present"; "choose"; "when"]%string then
            nested "constructs do not nest (R5)"%string
              (WithHint "use a multi-parameter guard: @if-present(a, b)")
              (if decide (name = bs "if-present") then bs "endif" else bs "end") nameEnd f
          else if nm name ["endif"; "end"]%string then
            match stack with
            | _ :: _ => consumeBody_loop terminators guards inCase inFT f nameEnd (pop_closer name stack)
            | [] =>
                if decide (name ∈ terminators) then mret_ (pos, Some name)
                else
                  errorf CodeConstructGrammar (span path src pos nameEnd) "unmatched @%s" [AStr name] ;;;
                  consumeBody_loop terminators guards inCase inFT f nameEnd stack
            end
          else if nm name ["order-by"; "filter-tree"]%string then
            nested "constructs do not nest (R5)"%string (fun d => d) (bs "end") nameEnd f
          else if nm name ["in"%string] then
            when_ (bool_decide (stack = []))
              (errorf CodeConstructBadSlot (span path src pos nameEnd)
                "@in inside guarded fragments is not supported yet; write the membership test directly (PostgreSQL: `= ANY(:param)`)" []) ;;;
            consumeBody_loop terminators guards inCase inFT f nameEnd stack
          else
            if bool_decide (stack = []) && bool_decide (name ∈ terminators) then mret_ (pos, Some name)
            else consumeBody_loop terminators guards inCase inFT f nameEnd stack
      | None =>
          let* tok := lexAt pos in
          if decide (Kind tok = KindEOF) then mret_ (pos, None)
          else
            when_ (bool_decide (stack = []))
              match Kind tok with
              | KindParamRef => recordParam (tail (Text tok)) (sp tok) guards inCase inFT
              | KindPositionalParam =>
                  errorf CodePositionalParam (sp tok)
                    "positional parameter %q is not allowed; use a named parameter (:name)" [AStr (Text tok)]
              | _ => mret_ tt
              end ;;;
            consumeBody_loop terminators guards inCase inFT f (End tok) stack
      end
  end.

Definition consumeBody (pos : nat) (terminators : list bytes) (guards : list GuardAtom) (inCase inFT : bool)
    : M (nat * option bytes) :=
  consumeBody_loop terminators guards inCase inFT src_fuel pos [].

(** [peekBodyEnd]: the same walk without recording parameters. *)
Fixpoint peekBodyEnd_loop (terminators : list bytes) (fuel : nat) (pos : nat) (stack : list bytes) : M nat :=
  match fuel with
  | O => mstop OutOfFuel
  | S f =>
      match marker_at src pos with
      | Some (name, nameEnd) =>
          if nm name ["if-present"%string] then peekBodyEnd_loop terminators f nameEnd (stack ++ [bs "endif"])
          else if nm name ["choose"; "when"; "order-by"; "filter-tree"]%string then
            peekBodyEnd_loop terminators f nameEnd (stack ++ [bs "end"])
          else if nm name ["endif"%string] then
            peekBodyEnd_loop terminators f nameEnd (pop_closer (bs "endif") stack)
          else if nm name ["end"%string] then
            match stack with
            | _ :: _ => peekBodyEnd_loop terminators f nameEnd (pop_closer (bs "end") stack)
            | [] =>
                if decide (name ∈ terminators) then mret_ pos
                else peekBodyEnd_loop terminators f nameEnd stack
            end
          else if nm name ["in"%string] then peekBodyEnd_loop terminators f nameEnd stack
          else
            if bool_decide (stack = []) && bool_decide (name ∈ terminators) then mret_ pos
            else peekBodyEnd_loop terminators f nameEnd stack
      | None =>
          let* tok := lexAt pos in
          if decide (Kind tok = KindEOF) then mret_ pos
          else peekBodyEnd_loop terminators f (End tok) stack
      end
  end.
Definition peekBodyEnd (pos : nat) (terminators : list bytes) : M nat :=
  peekBodyEnd_loop terminators src_fuel pos [].
End bodies.
