(* ===== verification/ScanConstructs.v ===== *)
(** * ScanConstructs

    The scanner's construct parsers: [parseIfPresent], [parseWhen] and the
    shared [finishGuardBlock], [parseChoose], [parseOrderBy],
    [parseFilterTree], [parseIn], and their dispatch [handleConstruct]. *)

From S2P Require Import Prelude Dialect Template Diagnostics Regex ScanState ScanDirectives ScanBodies.

(** [strings.EqualFold(text, lit)] for [lit] one of [true] and [false]: among
    their letters only [s] has a fold outside ASCII, U+017F. *)
Fixpoint fold_long_s (s : bytes) : bytes :=
  match s with
  | c :: (d :: s') as rest =>
      if bool_decide (c = ascii_of_N 197 /\ d = ascii_of_N 191) then "s"%char :: fold_long_s s'
      else c :: fold_long_s rest
  | _ => s
  end.
Definition EqualFoldBool (text : bytes) (lit : string) : bool :=
  bool_decide (lower1 <$> fold_long_s text = bs lit).
(** [strings.ToLower] of a text that [EqualFoldBool] accepts: U+017F is lower
    case already. *)
Definition ToLowerBool (text : bytes) : bytes := lower1 <$> text.

Section constructs.
Context (ToUpper : bytes -> bytes) (ParseDuration : bytes -> option Z) (profile : LexerProfile) (path src : bytes).

Abbreviation sp := (span path src).
Abbreviation tok_sp tok := (span path src (Start tok) (End tok)).
Abbreviation lexAt := (lexAt profile path src).
Abbreviation skipTrivia := (skipTrivia profile path src).
Abbreviation parseArgList := (parseArgList profile path src).
Abbreviation consumeBody := (consumeBody profile path src).
Abbreviation peekBodyEnd := (peekBodyEnd profile path src).

Definition nested_msg : string :=
  "constructs may not appear inside parentheses, subqueries, or CTEs (R1); they belong at the statement's top level".

Definition marker_end (pos : nat) : nat :=
  match matchConstruct src pos with Some (_, e) => e | None => pos end.

Definition add_item (it : Item) (endPos : nat) : M unit :=
  modify_qb (fun b => set_skelStart (Some endPos) (with_q (q_set_items (fun items => items ++ [it])) b)).

(** ** Guarded blocks *)

(** The separator of an item in a slot: the token to strip, the [Sep] and the
    report when it is missing. *)
Definition strip_item (item : IfPresent) (slot : Slot) (sep : Sep) (match_ : Token -> bool)
    (body : bytes) (bodyOff : nat) (msg : string) : M IfPresent :=
  let '(stripped, off, had) := stripLeadingToken profile body bodyOff match_ in
  if had then
    mret_ (mkIfPresent (IPGuards item) sep stripped slot (IPSpan item) (sp off (off + length stripped)))
  else
    emit (Errorf CodeConjunctNeedsAnd (IPBodySpan item) msg []) ;;;
    mret_ (mkIfPresent (IPGuards item) (IPSep item) (IPBody item) slot (IPSpan item) (IPBodySpan item)).

Definition append_last {A} (x : A) (rows : list (list A)) : list (list A) :=
  match list.last rows with
  | Some row => removelast rows ++ [row ++ [x]]
  | None => rows
  end.

(** The [switch ctx] of [finishGuardBlock]. *)
Definition classify_guarded (ctx : clauseCtx) (markerName : bytes) (pos endPos : nat) (item : IfPresent)
    (bodyOff : nat) : M IfPresent :=
  let body := IPBody item in
  match ctx with
  | ctxWhere | ctxHaving =>
      strip_item item (if decide (ctx = ctxHaving) then SlotHavingConjunct else SlotWhereConjunct) SepAnd
        (isAndToken ToUpper) body bodyOff
        "an optional conjunct must be written as `AND <predicate>`; sqletch owns the separator"
  | ctxSet =>
      strip_item item SlotSetItem SepComma isCommaToken body bodyOff
        "an optional SET item must be written as `, column = <expr>`; sqletch owns the separator"
  | ctxInsertColumns =>
      let* item := strip_item item SlotInsertColumn SepComma isCommaToken body bodyOff
        "an optional INSERT column must be written as `, column_name`; sqletch owns the separator" in
      when_ (negb (isSingleIdent profile (IPBody item)))
        (errorf CodeBadIdentifier (IPBodySpan item)
          "an optional INSERT column item must be exactly one column name (got %q)" [AStr (IPBody item)]) ;;;
      modify_qb (fun b => set_guardSeen true (rowGuardSeen b)
        (with_q (fun q => q_set_inserts
          (QInsertColGuards q ++ [mkGuardedItem (IPBody item) (IPGuards item) (IPBodySpan item)])
          (QInsertValGuards q) q) b)) ;;;
      mret_ item
  | ctxInsertValueRow =>
      let* item := strip_item item SlotInsertValue SepComma isCommaToken body bodyOff
        "an optional VALUES item must be written as `, <expr>`; sqletch owns the separator" in
      modify_qb (fun b => set_guardSeen (colGuardSeen b) true
        (with_q (fun q => q_set_inserts (QInsertColGuards q)
          (append_last (mkGuardedItem [] (IPGuards item) (IPBodySpan item)) (QInsertValGuards q)) q) b)) ;;;
      mret_ item
  | ctxFrom =>
      mret_ (mkIfPresent (IPGuards item) SepNone body SlotJoinItem (IPSpan item) (IPBodySpan item))
  | _ =>
      errorf CodeConstructBadSlot (sp pos endPos)
        "@%s is not allowed in the %s position; allowed slots: WHERE/HAVING conjunct, SET item, INSERT column/value pair, FROM join item"
        [AStr markerName; AStr (ctx_String ctx)] ;;;
      mret_ item
  end.

Definition finishGuardBlock (pos afterArgs : nat) (guards : list GuardAtom) (markerName terminator : bytes) : M nat :=
  let* qb := get_qb in
  let ctx := qb_ctx qb in
  let allowedDepth := if bool_decide (ctx = ctxInsertColumns) || bool_decide (ctx = ctxInsertValueRow) then 1 else 0 in
  when_ (negb (Nat.eqb (depth qb) allowedDepth)) (errorf CodeConstructNested (sp pos afterArgs) nested_msg []) ;;;
  flushSkeleton path src pos ;;;
  let* '(bodyEnd, term) := consumeBody afterArgs [terminator] guards false false in
  let* endPos :=
    match term with
    | None =>
        errorf CodeConstructGrammar (sp pos afterArgs) "unterminated @%s: missing @%s" [AStr markerName; AStr terminator] ;;;
        mret_ bodyEnd
    | Some _ => mret_ (marker_end bodyEnd)
    end in
  let* '(body, bodyOff) := trimEdges src afterArgs bodyEnd in
  let item := mkIfPresent guards SepNone body SlotUnknown (sp pos endPos) (sp bodyOff (bodyOff + length body)) in
  let* item := classify_guarded ctx markerName pos endPos item bodyOff in
  add_item (IIfPresent item) endPos ;;;
  mret_ endPos.

(** The loop over the arguments: a guard per parameter, duplicates reported. *)
Fixpoint guard_args (pos afterArgs : nat) (args : list bytes) (guards : list GuardAtom) : M (list GuardAtom) :=
  match args with
  | [] => mret_ guards
  | a :: args' =>
      if decide (presence a ∈ guards) then
        errorf CodeConstructGrammar (sp pos afterArgs) "@if-present: duplicate guard parameter %q" [AStr a] ;;;
        guard_args pos afterArgs args' guards
      else guard_args pos afterArgs args' (guards ++ [presence a])
  end.

Definition parseIfPresent (pos nameEnd : nat) : M nat :=
  let* '(args, afterArgs) := parseArgList (bs "if-present") pos nameEnd in
  match args with
  | None => mret_ afterArgs
  | Some args =>
      let* guards := guard_args pos afterArgs args [] in
      finishGuardBlock pos afterArgs guards (bs "if-present") (bs "endif")
  end.

(** ** [@when] *)

Definition bad (s : Span) (format : string) : M nat :=
  errorf CodeConstructGrammar s format [] ;;; mret_ (SEnd s).

Definition bad_literal (code : bytes) (lit : Token) (e : Arg * Arg) : M nat :=
  emit (WithHintf "%s" [e.2] (Errorf code (tok_sp lit) "%s" [e.1])) ;;; mret_ (SEnd (tok_sp lit)).

(** The value atom of a literal, or the way it is reported. *)
Inductive literal := LitAtom (value : bytes) (kind : ValueKind) (raw : bytes) | LitError (code : bytes) (e : Arg * Arg) | LitOther.

Definition when_literal (lit : Token) : literal :=
  if decide (Kind lit = KindString) then
    match whenStringError (Text lit) with
    | Some e => LitError CodeWhenStringLiteral e
    | None => LitAtom (unquoteSQLString (Text lit)) ValueString (Text lit)
    end
  else if bool_decide (Kind lit = KindNumber)
          && negb (existsb (fun c => bool_decide (c ∈ ["."; "e"; "E"]%char)) (Text lit)) then
    match whenIntError (Text lit) with
    | Some e => LitError CodeWhenIntLiteral e
    | None => LitAtom (Text lit) ValueInt (Text lit)
    end
  else if bool_decide (Kind lit = KindIdent)
          && (EqualFoldBool (Text lit) "true" || EqualFoldBool (Text lit) "false") then
    LitAtom (ToLowerBool (Text lit)) ValueBool (ToLowerBool (Text lit))
  else LitOther.

Definition parseWhen (pos nameEnd : nat) : M nat :=
  if negb (at_is src nameEnd "(") then
    bad (sp pos nameEnd) "@when arguments must follow immediately: @when(param = literal)"
  else
    let* p := skipTrivia (nameEnd + 1) in
    let* ident := lexAt p in
    if negb (bool_decide (Kind ident = KindIdent)) then bad (tok_sp ident) "@when: expected a parameter name"
    else
      when_ (negb (MatchString snakeRe (Text ident)))
        (errorf CodeBadIdentifier (tok_sp ident) "%q must be snake_case ([a-z][a-z0-9_]*)" [AStr (Text ident)]) ;;;
      let* p := skipTrivia (End ident) in
      let* op := lexAt p in
      if negb (bool_decide (Kind op = KindOperator)
               && bool_decide (Text op ∈ [bs "="; bs "!="; bs "<>"])) then
        bad (tok_sp op) "@when: expected `=` or `!=`"
      else
        let opText := if decide (Text op = bs "<>") then bs "!=" else Text op in
        let* p := skipTrivia (End op) in
        let* lit := lexAt p in
        match when_literal lit with
        | LitError code e => bad_literal code lit e
        | LitOther => bad (tok_sp lit) "@when: the literal must be a string, integer, or boolean"
        | LitAtom value kind raw =>
            let* p := skipTrivia (End lit) in
            let* rp := lexAt p in
            if negb (bool_decide (Kind rp = KindRParen)) then bad (tok_sp rp) "@when: expected ')'"
            else finishGuardBlock pos (End rp) [mkGuardAtom (Text ident) opText value kind raw] (bs "when") (bs "end")
        end.

(** ** Blocks of cases *)

(** The one argument a block takes, [None] after a report. *)
Definition one_arg (name : bytes) (markerStart pos : nat) (msg : string) : M (option bytes * nat) :=
  let* '(args, after) := parseArgList name markerStart pos in
  match args with
  | Some [a] => mret_ (Some a, after)
  | Some _ => errorf CodeConstructGrammar (sp markerStart after) msg [] ;;; mret_ (None, after)
  | None => mret_ (None, after)
  end.

(** The check for content before the first entry. *)
Definition check_lead (p : nat) (msg : string) : M unit :=
  let* lead := skipTrivia p in
  when_ (Nat.ltb lead (length src) && negb (at_is src lead "@"))
    (errorf CodeChooseStructure (sp lead (lead + 1)) msg []).

(** The text of the entry whose body starts at [p]. *)
Definition entry_body (p : nat) (terminators : list bytes) : M (bytes * nat) :=
  let* bodyEnd := peekBodyEnd p terminators in trimEdges src p bodyEnd.

Definition body_span (body : bytes) (off : nat) : Span := sp off (off + length body).

Definition choose_terms : list bytes := [bs "case"; bs "default"; bs "end"].

(** The loop of [parseChoose]: the block so far, the case names, whether a
    [@default] was seen. *)
Fixpoint choose_loop (pos nameEnd : nat) (fuel : nat) (p : nat) (item : Choose) (names : list bytes)
    (sawDefault : bool) : M (Choose * nat) :=
  match fuel with
  | O => mstop OutOfFuel
  | S f =>
      let* '(bodyEnd, term) := consumeBody p choose_terms [] true false in
      match term with
      | None =>
          errorf CodeConstructGrammar (sp pos nameEnd) "unterminated @choose: missing @end" [] ;;;
          mret_ (item, bodyEnd)
      | Some term =>
          let markerEnd := marker_end bodyEnd in
          if decide (term = bs "end") then mret_ (item, markerEnd)
          else if decide (term = bs "case") then
            when_ sawDefault (errorf CodeChooseStructure (sp bodyEnd markerEnd)
              "@default must be the last case of a @choose" []) ;;;
            let* '(name, afterCase) := one_arg (bs "case") bodyEnd markerEnd "@case takes exactly one name" in
            match name with
            | None => choose_loop pos nameEnd f afterCase item names sawDefault
            | Some name =>
                when_ (bool_decide (name ∈ names)) (errorf CodeChooseStructure (sp bodyEnd afterCase)
                  "@choose: duplicate case %q" [AStr name]) ;;;
                let* '(body, off) := entry_body afterCase choose_terms in
                let item := mkChoose (ChParam item) (ChCases item ++ [mkChooseCase name body (body_span body off)])
                              (ChDefault item) (ChSlot item) (ChSpan item) in
                choose_loop pos nameEnd f afterCase item (names ++ [name]) sawDefault
            end
          else
            when_ sawDefault (errorf CodeChooseStructure (sp bodyEnd markerEnd) "@choose: duplicate @default" []) ;;;
            let* '(body, off) := entry_body markerEnd choose_terms in
            let item := mkChoose (ChParam item) (ChCases item) (Some (mkChooseCase [] body (body_span body off)))
                          (ChSlot item) (ChSpan item) in
            choose_loop pos nameEnd f markerEnd item names true
      end
  end.

Definition check_projection (c : ChooseCase) : M unit :=
  when_ (bool_decide (CCBody c = []))
    (errorf CodeChooseStructure (CCSpan c)
      "in a projection slot every case (including @default) must be a non-empty expression; an empty case would change the result shape (R2)" []).

(** The loop over the cases in clause position: their keyword, [None] after a
    report. *)
Fixpoint case_keywords (cases : list ChooseCase) (kw : bytes) : M (option bytes) :=
  match cases with
  | [] => mret_ (Some kw)
  | cs :: cases' =>
      let k := clauseKeywordOf ToUpper profile (CCBody cs) in
      if decide (k = []) then
        errorf CodeChooseStructure (CCSpan cs)
          "every @case body must start with `ORDER BY` or `GROUP BY` in this position" [] ;;; mret_ None
      else if decide (kw = []) then case_keywords cases' k
      else if decide (kw <> k) then
        errorf CodeChooseStructure (CCSpan cs)
          "all cases of one @choose must target the same clause (mixing %s and %s)" [AStr kw; AStr k] ;;; mret_ None
      else case_keywords cases' kw
  end.

(** [classifyChoose]: the block's slot. *)
Definition classifyChoose (item : Choose) (inProjection : bool) : M Slot :=
  if inProjection then
    mfor check_projection (ChCases item ++ option_list (ChDefault item)) ;;; mret_ SlotProjExpr
  else
    let* kw := case_keywords (ChCases item) [] in
    match kw with
    | None => mret_ (ChSlot item)
    | Some kw =>
        let slot := if decide (kw = bs "ORDER") then SlotOrderBy
                    else if decide (kw = bs "GROUP") then SlotGroupBy else ChSlot item in
        match ChDefault item with
        | Some d =>
            if decide (CCBody d <> [] /\ clauseKeywordOf ToUpper profile (CCBody d) <> kw) then
              errorf CodeChooseStructure (CCSpan d)
                "the @default body must start with `%s BY` like the other cases" [AStr kw] ;;;
              mret_ (ChSlot item)
            else mret_ slot
        | None => mret_ slot
        end
    end.

Definition parseChoose (pos nameEnd : nat) : M nat :=
  let* '(arg, afterArgs) := one_arg (bs "choose") pos nameEnd "@choose takes exactly one parameter" in
  match arg with
  | None => mret_ afterArgs
  | Some arg =>
      let* qb := get_qb in
      when_ (Nat.ltb 0 (depth qb)) (errorf CodeConstructNested (sp pos afterArgs) nested_msg []) ;;;
      when_ (bool_decide (qb_ctx qb = ctxNone))
        (errorf CodeConstructBadSlot (sp pos afterArgs) "@choose is not allowed before the statement begins" []) ;;;
      let inProjection := bool_decide (qb_ctx qb = ctxProjection) in
      flushSkeleton path src pos ;;;
      check_lead afterArgs "@choose: expected @case before any content" ;;;
      let* '(item, endPos) := choose_loop pos nameEnd (src_fuel src) afterArgs
        (mkChoose arg [] None SlotUnknown (mkSpan [] 0 0)) [] false in
      when_ (bool_decide (ChCases item = []))
        (errorf CodeChooseStructure (sp pos endPos) "@choose needs at least one @case" []) ;;;
      let* slot := classifyChoose item inProjection in
      let item := mkChoose (ChParam item) (ChCases item) (ChDefault item) slot (sp pos endPos) in
      let clause := match slot with
                    | SlotOrderBy => Some ctxOrderBy | SlotGroupBy => Some ctxGroupBy | _ => None end in
      modify_q (q_set_items (fun items => items ++ [IChoose item])) ;;;
      match clause with
      | Some ctx => modify_qb (fun b => with_q (mark_tail pos) (set_ctx ctx b))
      | None => mret_ tt
      end ;;;
      modify_qb (set_skelStart (Some endPos)) ;;;
      mret_ endPos
  end.

Definition order_terms : list bytes := [bs "key"; bs "default"; bs "end"].

(** The loop of [parseOrderBy]. *)
Fixpoint order_loop (pos nameEnd : nat) (fuel : nat) (p : nat) (item : OrderBy) (names : list bytes)
    (sawDefault : bool) : M (OrderBy * nat) :=
  match fuel with
  | O => mstop OutOfFuel
  | S f =>
      let* '(bodyEnd, term) := consumeBody p order_terms [] true false in
      match term with
      | None =>
          errorf CodeConstructGrammar (sp pos nameEnd) "unterminated @order-by: missing @end" [] ;;;
          mret_ (item, bodyEnd)
      | Some term =>
          let markerEnd := marker_end bodyEnd in
          if decide (term = bs "end") then mret_ (item, markerEnd)
          else if decide (term = bs "key") then
            when_ sawDefault (errorf CodeChooseStructure (sp bodyEnd markerEnd)
              "@default must be the last entry of an @order-by" []) ;;;
            let* '(name, afterKey) := one_arg (bs "key") bodyEnd markerEnd "@key takes exactly one name" in
            match name with
            | None => order_loop pos nameEnd f afterKey item names sawDefault
            | Some name =>
                when_ (bool_decide (name ∈ names)) (errorf CodeChooseStructure (sp bodyEnd afterKey)
                  "@order-by: duplicate key %q" [AStr name]) ;;;
                let* '(body, off) := entry_body afterKey order_terms in
                when_ (bool_decide (body = [])) (errorf CodeChooseStructure (sp afterKey (afterKey + 1))
                  "@key body must be a non-empty sort expression" []) ;;;
                let item := mkOrderBy (ObParam item) (ObKeys item ++ [mkOrderKey name body (body_span body off)])
                              (ObDefault item) (ObSpan item) in
                order_loop pos nameEnd f afterKey item (names ++ [name]) sawDefault
            end
          else
            when_ sawDefault (errorf CodeChooseStructure (sp bodyEnd markerEnd) "@order-by: duplicate @default" []) ;;;
            let* '(body, off) := entry_body markerEnd order_terms in
            when_ (negb (bool_decide (body = [])) && negb (bool_decide (clauseKeywordOf ToUpper profile body = bs "ORDER")))
              (errorf CodeChooseStructure (body_span body off)
                "the @order-by @default body must be a whole `ORDER BY …` clause (or empty)" []) ;;;
            let item := mkOrderBy (ObParam item) (ObKeys item) (Some (mkChooseCase [] body (body_span body off)))
                          (ObSpan item) in
            order_loop pos nameEnd f markerEnd item names true
      end
  end.

Definition parseOrderBy (pos nameEnd : nat) : M nat :=
  let* '(arg, afterArgs) := one_arg (bs "order-by") pos nameEnd "@order-by takes exactly one parameter" in
  match arg with
  | None => mret_ afterArgs
  | Some arg =>
      let* qb := get_qb in
      when_ (Nat.ltb 0 (depth qb)) (errorf CodeConstructNested (sp pos afterArgs) nested_msg []) ;;;
      when_ (bool_decide (qb_ctx qb = ctxProjection) || bool_decide (qb_ctx qb = ctxNone))
        (errorf CodeConstructBadSlot (sp pos afterArgs)
          "@order-by is not allowed in the %s position; it replaces the statement-level ORDER BY clause"
          [AStr (ctx_String (qb_ctx qb))]) ;;;
      flushSkeleton path src pos ;;;
      check_lead afterArgs "@order-by: expected @key before any content" ;;;
      let* '(item, endPos) := order_loop pos nameEnd (src_fuel src) afterArgs
        (mkOrderBy arg [] None (mkSpan [] 0 0)) [] false in
      when_ (bool_decide (ObKeys item = []))
        (errorf CodeChooseStructure (sp pos endPos) "@order-by needs at least one @key" []) ;;;
      let item := mkOrderBy (ObParam item) (ObKeys item) (ObDefault item) (sp pos endPos) in
      modify_qb (set_ctx ctxOrderBy) ;;;
      add_item (IOrderBy item) endPos ;;;
      mret_ endPos
  end.

Definition tree_terms : list bytes := [bs "predicate"; bs "end"].

(** The loop of [parseFilterTree]. *)
Fixpoint tree_loop (pos nameEnd : nat) (fuel : nat) (p : nat) (item : FilterTree) (names : list bytes)
    : M (FilterTree * nat) :=
  match fuel with
  | O => mstop OutOfFuel
  | S f =>
      let* '(bodyEnd, term) := consumeBody p tree_terms [] false true in
      match term with
      | None =>
          errorf CodeConstructGrammar (sp pos nameEnd) "unterminated @filter-tree: missing @end" [] ;;;
          mret_ (item, bodyEnd)
      | Some term =>
          let markerEnd := marker_end bodyEnd in
          if decide (term = bs "end") then mret_ (item, markerEnd)
          else
            let* '(name, afterPred) := one_arg (bs "predicate") bodyEnd markerEnd "@predicate takes exactly one name" in
            match name with
            | None => tree_loop pos nameEnd f afterPred item names
            | Some name =>
                when_ (bool_decide (name ∈ names)) (errorf CodeChooseStructure (sp bodyEnd afterPred)
                  "@filter-tree: duplicate predicate %q" [AStr name]) ;;;
                let* '(body, off) := entry_body afterPred tree_terms in
                when_ (bool_decide (body = [])) (errorf CodeChooseStructure (sp afterPred (afterPred + 1))
                  "@predicate body must be a non-empty boolean expression" []) ;;;
                let pred := mkPredicate name body (distinct_params profile body) (body_span body off) in
                let item := mkFilterTree (FtParam item) (FtRequired item) (FtPredicates item ++ [pred])
                              (FtSlot item) (FtSpan item) in
                tree_loop pos nameEnd f afterPred item (names ++ [name])
            end
      end
  end.

Definition is_tree (it : Item) : bool := match it with IFilterTree _ => true | _ => false end.

Definition parseFilterTree (pos nameEnd : nat) : M nat :=
  let required := at_is src nameEnd "!" in
  let p := if required then nameEnd + 1 else nameEnd in
  let* '(arg, afterArgs) := one_arg (bs "filter-tree") pos p "@filter-tree takes exactly one parameter" in
  match arg with
  | None => mret_ afterArgs
  | Some arg =>
      let* qb := get_qb in
      when_ (Nat.ltb 0 (depth qb)) (errorf CodeConstructNested (sp pos afterArgs) nested_msg []) ;;;
      (if negb (bool_decide (qb_ctx qb = ctxWhere)) && negb (bool_decide (qb_ctx qb = ctxHaving)) then
         errorf CodeConstructBadSlot (sp pos afterArgs)
           "@filter-tree is only allowed as a WHERE or HAVING conjunct (write it after `AND`)" []
       else
         when_ (negb (bool_decide (lastSignificantToken ToUpper profile src (skelStart qb) pos = bs "AND")))
           (emit (WithHint "anchor the clause and give the construct its own conjunct: `WHERE TRUE` then `AND @filter-tree(...)`"
             (Errorf CodeConjunctNeedsAnd (sp pos afterArgs)
               "@filter-tree must directly follow an unconditional `AND`; its empty tree renders TRUE, which must substitute one whole conjunct" [])))) ;;;
      when_ (existsb is_tree (QItems (qb_q qb)))
        (errorf CodeChooseStructure (sp pos afterArgs) "at most one @filter-tree per query (v0.3)" []) ;;;
      flushSkeleton path src pos ;;;
      let slot := if decide (qb_ctx qb = ctxHaving) then SlotHavingConjunct else SlotWhereConjunct in
      check_lead afterArgs "@filter-tree: expected @predicate before any content" ;;;
      let* '(item, endPos) := tree_loop pos nameEnd (src_fuel src) afterArgs
        (mkFilterTree arg required [] slot (mkSpan [] 0 0)) [] in
      when_ (bool_decide (FtPredicates item = []))
        (errorf CodeChooseStructure (sp pos endPos) "@filter-tree needs at least one @predicate" []) ;;;
      add_item (IFilterTree (mkFilterTree (FtParam item) (FtRequired item) (FtPredicates item) (FtSlot item) (sp pos endPos)))
        endPos ;;;
      mret_ endPos
  end.

(** ** [@in] *)

(** [p.Occurrences[len-1].InIn = true] *)
Definition mark_in (name : bytes) (q : QueryTemplate) : QueryTemplate :=
  match QParams q !! name with
  | Some p =>
      match list.last (POccurrences p) with
      | Some o =>
          let o := mkOccurrence (OcSpan o) (OcGuards o) (OcInChooseCase o) (OcInFilterTree o) true in
          q_set_params (QParamOrder q)
            (<[name := mkParam (PName p) (removelast (POccurrences p) ++ [o]) (PGuardBit p) (POptional p) (PPolicy p)]>
               (QParams q)) q
      | None => q
      end
  | None => q
  end.

Definition parseIn (pos nameEnd : nat) : M nat :=
  if negb (at_is src nameEnd "(") then
    errorf CodeConstructGrammar (sp pos nameEnd) "@in arguments must follow immediately: @in(:param)" [] ;;;
    mret_ nameEnd
  else
    let* p := skipTrivia (nameEnd + 1) in
    let* tok := lexAt p in
    if negb (bool_decide (Kind tok = KindParamRef)) then
      errorf CodeConstructGrammar (tok_sp tok) "@in: expected a named parameter (:name)" [] ;;; mret_ (End tok)
    else
      let name := tail (Text tok) in
      let* p := skipTrivia (End tok) in
      let* rp := lexAt p in
      if negb (bool_decide (Kind rp = KindRParen)) then
        errorf CodeConstructGrammar (tok_sp rp) "@in: expected ')'" [] ;;; mret_ (End rp)
      else
        let* qb := get_qb in
        when_ (negb (Nat.eqb (depth qb) 0))
          (errorf CodeConstructNested (sp pos (End rp)) "@in may not appear inside parentheses or subqueries (v0.4)" []) ;;;
        when_ (negb (bool_decide (qb_ctx qb = ctxWhere)) && negb (bool_decide (qb_ctx qb = ctxHaving)))
          (errorf CodeConstructBadSlot (sp pos (End rp))
            "@in is allowed in WHERE/HAVING expressions (e.g. `u.status @in(:statuses)`)" []) ;;;
        recordParam name (tok_sp tok) [] false false ;;;
        modify_q (mark_in name) ;;;
        flushSkeleton path src pos ;;;
        add_item (IInExpr (mkInExpr name (sp pos (End rp)))) (End rp) ;;;
        mret_ (End rp).

(** ** Dispatch *)

Definition handleConstruct (name : bytes) (pos nameEnd : nat) : M nat :=
  let* qb := gets fs_qb in
  match qb with
  | None =>
      let* stray := gets strayReported in
      when_ (negb stray)
        (errorf CodeMissingHeader (sp pos nameEnd) "construct before any query header" [] ;;; modify (set_stray true)) ;;;
      mret_ nameEnd
  | Some qb =>
      if statementEnded qb then
        when_ (negb (extraReported qb))
          (errorf CodeMultipleStatements (sp pos nameEnd) "construct after the statement terminator" [] ;;;
           modify_qb (set_extraReported true)) ;;;
        mret_ nameEnd
      else
        applyDirectives ParseDuration path src ;;;
        if decide (name = bs "if-present") then parseIfPresent pos nameEnd
        else if decide (name = bs "when") then parseWhen pos nameEnd
        else if decide (name = bs "choose") then parseChoose pos nameEnd
        else if decide (name = bs "order-by") then (markTail pos ;;; parseOrderBy pos nameEnd)
        else if decide (name = bs "filter-tree") then parseFilterTree pos nameEnd
        else if decide (name = bs "in") then parseIn pos nameEnd
        else
          errorf CodeConstructGrammar (sp pos nameEnd) "unmatched @%s" [AStr name] ;;;
          mret_ nameEnd
  end.
End constructs.
