(* ===== verification/Scanner.v ===== *)
(** * Scanner

    The scan of a file: the checks run when a query ends ([finalize]), the
    token handler and the main loop, [ScanFileFrom]. *)

From S2P Require Import Prelude Dialect Postgres Template Diagnostics Regex ScanState ScanDirectives ScanClauses ScanBodies ScanConstructs.

Definition filterTreeTailTokens : list bytes := bs <$>
  ["AND"; "GROUP"; "HAVING"; "WINDOW"; "ORDER"; "LIMIT"; "OFFSET"; "FETCH"; "FOR"; "UNION";
   "INTERSECT"; "EXCEPT"; "RETURNING"; ";"]%string.

Section scanner.
Context (ToUpper : bytes -> bytes) (ParseDuration : bytes -> option Z) (profile : LexerProfile) (path src : bytes).

Abbreviation sp := (span path src).
Abbreviation tok_sp tok := (span path src (Start tok) (End tok)).

(** ** The end of a query *)

(** [checkFilterTreeTail]: a filter tree and the skeleton text after it. *)
Fixpoint checkFilterTreeTail (items : list Item) : M unit :=
  match items with
  | IFilterTree ft :: ((ISkeleton sk :: _) as rest) =>
      let first := firstSignificantToken ToUpper profile (SkText sk) in
      when_ (negb (bool_decide (first = []) || bool_decide (first ∈ filterTreeTailTokens)))
        (emit (WithHint "continue with `AND`, a clause keyword, or `;` after @end"
          (Errorf CodeConjunctNeedsAnd (FtSpan ft)
            "@filter-tree must end its conjunct but is followed by %q; its empty tree renders TRUE, which must substitute one whole conjunct"
            [AStr first]))) ;;;
      checkFilterTreeTail rest
  | _ :: rest => checkFilterTreeTail rest
  | [] => mret_ tt
  end.

Definition check_item_limits (it : Item) : M unit :=
  match it with
  | IOrderBy v =>
      when_ (Nat.ltb MaxOrderKeys (length (ObKeys v)))
        (errorf CodeTooManyGuards (ObSpan v) "@order-by(%s) declares %d sort keys; at most %d are supported"
          [AStr (ObParam v); AInt (Z.of_nat (length (ObKeys v))); AInt (Z.of_nat MaxOrderKeys)])
  | IChoose v =>
      let n := length (ChCases v) + match ChDefault v with Some _ => 1 | None => 0 end in
      when_ (Nat.ltb MaxChooseOrdinals n)
        (errorf CodeTooManyGuards (ChSpan v) "@choose(%s) declares %d cases (counting @default); at most %d are supported"
          [AStr (ChParam v); AInt (Z.of_nat n); AInt (Z.of_nat MaxChooseOrdinals)])
  | _ => mret_ tt
  end.

Definition checkEncodingLimits (q : QueryTemplate) : M unit :=
  when_ (N.ltb MaxParams (N.of_nat (length (QParamOrder q))))
    (errorf CodeTooManyParams (QHeaderSpan q) "query %s declares %d parameters; at most %d are supported"
      [AStr (QName q); AInt (Z.of_nat (length (QParamOrder q))); AInt (Z.of_N MaxParams)]) ;;;
  mfor check_item_limits (QItems q).

(** The atom gets the next bit, its parameter is declared if it is not and
    learns the bit. *)
Definition assign_bit (g : GuardAtom) (q : QueryTemplate) : QueryTemplate :=
  let bit := Z.of_nat (length (QGuardAtoms q)) in
  let name := GParam g in
  let p := default (mkParam name [] (-1) false []) (QParams q !! name) in
  let order := match QParams q !! name with Some _ => QParamOrder q | None => QParamOrder q ++ [name] end in
  q_set_params order
    (<[name := mkParam (PName p) (POccurrences p) bit (POptional p) (PPolicy p)]> (QParams q))
    (q_set_atoms (QGuardAtoms q ++ [g]) q).

(** [assignGuardBits]: the atoms of the guarded items in order of first
    occurrence; the span is the item's, for the report past the limit, which
    ends the loop.  The map [seen] holds the atoms of [q.GuardAtoms]. *)
Fixpoint assign_bits (atoms : list (GuardAtom * Span)) : M unit :=
  match atoms with
  | [] => mret_ tt
  | (g, s) :: rest =>
      let* qb := get_qb in
      if decide (g ∈ QGuardAtoms (qb_q qb)) then assign_bits rest
      else if Nat.leb MaxGuards (length (QGuardAtoms (qb_q qb))) then
        errorf CodeTooManyGuards s "a query may have at most %d guard conditions" [AInt (Z.of_nat MaxGuards)]
      else modify_q (assign_bit g) ;;; assign_bits rest
  end.

Definition guarded_atoms (items : list Item) : list (GuardAtom * Span) :=
  flat_map (fun it => match it with
    | IIfPresent ip => (fun g => (g, IPSpan ip)) <$> IPGuards ip
    | _ => []
    end) items.

Definition assignGuardBits : M unit :=
  let* qb := get_qb in assign_bits (guarded_atoms (QItems (qb_q qb))).

(** [finalize]: the finished query, which the caller appends to the file. *)
Definition finalize (upTo : nat) : M (list QueryTemplate) :=
  let* qb := gets fs_qb in
  match qb with
  | None => mret_ []
  | Some _ =>
      flushSkeleton path src upTo ;;;
      let* qb := get_qb in
      checkFilterTreeTail (QItems (qb_q qb)) ;;;
      checkEncodingLimits (qb_q qb) ;;;
      assignGuardBits ;;;
      let* qb := get_qb in
      modify (set_qb None) ;;;
      mret_ [qb_q qb]
  end.

(** ** The main loop *)

Definition annotation_of (ann : bytes) : Annotation :=
  if decide (ann = bs "one") then AnnotationOne
  else if decide (ann = bs "maybe-one") then AnnotationMaybeOne
  else if decide (ann = bs "many") then AnnotationMany
  else if decide (ann = bs "exec") then AnnotationExec
  else if decide (ann = bs "execrows") then AnnotationExecRows
  else AnnotationInvalid.

Definition new_query (name : bytes) (ann : Annotation) (header : Span) : QueryTemplate :=
  mkQuery name ann header [] [] ∅ [] [] [] ∅ ∅ (-1) (-1) (-1) [] [] None [] ∅.

Definition new_builder (q : QueryTemplate) (start : nat) : queryBuilder :=
  mkQB q (Some start) 0 ctxNone false false false false [] false false false false false.

Definition startQuery (name ann : bytes) (headerTok : Token) : M unit :=
  let* names := gets fs_names in
  match names !! name with
  | Some prev => errorf CodeDuplicateQueryName (tok_sp headerTok)
      "duplicate query name %q (previously defined at offset %d)" [AStr name; AInt (Z.of_nat (SStart prev))]
  | None => mret_ tt
  end ;;;
  modify (set_names (<[name := tok_sp headerTok]> names)) ;;;
  modify (set_qb (Some (new_builder (new_query name (annotation_of ann) (tok_sp headerTok)) (End headerTok)))) ;;;
  modify (set_stray false).

Abbreviation applyDirectives := (applyDirectives ParseDuration path src).

(** A token without a header above it. *)
Definition stray_token (tok : Token) : M unit :=
  if is_trivia (Kind tok) then mret_ tt
  else
    let* stray := gets strayReported in
    when_ (negb stray)
      (errorf CodeMissingHeader (tok_sp tok)
        "statement without a query header; every query starts with `-- name: QueryName :many` (or :one/:maybe-one/:exec/:execrows)" [] ;;;
       modify (set_stray true)).

(** [handleToken]: the queries it finishes. *)
Definition handleToken (tok : Token) : M (list QueryTemplate) :=
  let header :=
    if decide (Kind tok = KindLineComment) then FindStringSubmatch headerRe (Text tok) else None in
  match header with
  | Some m =>
      let* done := finalize (Start tok) in
      startQuery (group (Text tok) m 1) (group (Text tok) m 2) tok ;;;
      applyDirectives ;;;
      mret_ done
  | None =>
      let* qb := gets fs_qb in
      match qb with
      | None => stray_token tok ;;; mret_ []
      | Some _ =>
          when_ (bool_decide (Kind tok = KindLineComment) && isDirectiveComment (Text tok))
            (let* pending := gets pendingDirectives in modify (set_pending (pending ++ [tok]))) ;;;
          when_ (negb (is_trivia (Kind tok))) applyDirectives ;;;
          feed ToUpper path src tok ;;;
          mret_ []
      end
  end.

(** After a construct: [fs.qb.q.StmtEnd = pos] unless the statement ended. *)
Definition note_construct_end (pos : nat) : M unit :=
  let* qb := gets fs_qb in
  match qb with
  | Some b => when_ (negb (statementEnded b)) (modify_q (set_StmtEnd pos))
  | None => mret_ tt
  end.

Fixpoint scan_loop (fuel : nat) (pos : nat) (queries : list QueryTemplate) : M (list QueryTemplate) :=
  match fuel with
  | O => mstop OutOfFuel
  | S f =>
      if Nat.ltb (length src) pos then mret_ queries
      else
        match marker_at src pos with
        | Some (name, nameEnd) =>
            let* pos := handleConstruct ToUpper ParseDuration profile path src name pos nameEnd in
            note_construct_end pos ;;;
            scan_loop f pos queries
        | None =>
            match NextToken src pos with
            | Err e =>
                errorf CodeConstructGrammar (sp (Pos e) (Pos e + 1)) "%s" [AStr (Msg e)] ;;;
                mret_ queries
            | Ok tok =>
                if decide (Kind tok = KindEOF) then mret_ queries
                else
                  let* done := handleToken tok in
                  scan_loop f (End tok) (queries ++ done)
            end
        end
  end.

(** ** Lone carriage returns *)

Definition lone_cr (i : nat) : bool := at_is src i c_cr && negb (at_is src (i + 1) c_lf).

Definition lone_cr_report (i : nat) : M unit :=
  when_ (lone_cr i)
    (emit (WithHint "convert the file's line endings to LF (CRLF is also accepted); a CR inside a string literal is fine"
      (Errorf CodeLoneCR (sp i (i + 1))
        "lone carriage return (CR not followed by LF) outside a string literal or quoted identifier: database engines disagree on whether it ends a `--` line comment (PostgreSQL ends it there, MySQL and SQLite do not), so the text after it could be live SQL to sqletch but comment text to the engine — a policy conjunct sqletch credits or weaves would then not be applied" []))).

Fixpoint lone_cr_loop (fuel : nat) (pos : nat) : M unit :=
  match fuel with
  | O => mstop OutOfFuel
  | S f =>
      if Nat.ltb pos (length src) then
        match NextToken src pos with
        | Err _ => mret_ tt
        | Ok tok =>
            if bool_decide (Kind tok = KindEOF) || Nat.leb (End tok) pos then mret_ tt
            else
              when_ (negb (bool_decide (Kind tok = KindString)) && negb (bool_decide (Kind tok = KindQuotedIdent)))
                (mfor lone_cr_report (seq (Start tok) (End tok - Start tok))) ;;;
              lone_cr_loop f (End tok)
        end
      else mret_ tt
  end.
Definition checkLoneCR (pos : nat) : M unit := lone_cr_loop (src_fuel src) pos.

(** ** The scan *)

Definition bom : bytes := ascii_of_N <$> [239; 187; 191]%N.

Definition scan_start (start : Z) : nat :=
  let start := if Z.ltb start 0 then 0%Z else start in
  let start := if Z.ltb (Z.of_nat (length src)) start then Z.of_nat (length src) else start in
  if Z.eqb start 0 && bool_decide (take 3 src = bom) then 3 else Z.to_nat start.

Definition scan_body (start : Z) : M (list QueryTemplate) :=
  let pos := scan_start start in
  checkLoneCR pos ;;;
  let* queries := scan_loop (src_fuel src) pos [] in
  let* qb := gets fs_qb in
  match qb with Some _ => applyDirectives | None => mret_ tt end ;;;
  let* last := finalize (length src) in
  flushOverflow ;;;
  mret_ (queries ++ last).

Definition scan0 : fileScan := mkScan [] None ∅ false [] ∅ ∅ ∅.

Definition ScanFileFrom (start : Z) : result ScanStop (QueryFile * list Diagnostic) :=
  match scan_body start scan0 with
  | Ok (queries, s) => Ok (mkQueryFile path queries, Sort (fs_diags s))
  | Err e => Err e
  end.

Definition ScanFile : result ScanStop (QueryFile * list Diagnostic) := ScanFileFrom 0.
End scanner.

(** ** ScanDemo

    A file of two queries as the scanner reads it, the witness of the
    scanner's theorems. *)

Definition lf : string := String c_lf EmptyString.

Definition lines (l : list string) : bytes := bs (String.concat lf l).

Definition demo_file : bytes := lines
  ["-- users"; "-- name: ListUsers :many"; "-- @param name : text"; "SELECT u.id, u.name"; "FROM users u"; "WHERE TRUE";
   "  @if-present(name) AND u.name = :name @endif"; "  @when(kind = 'it''s') AND u.kind = 1 @end";
   "  AND u.status @in(:statuses)"; "  AND @filter-tree(f) @predicate(age) u.age > :min @predicate(old) u.old @end";
   "@order-by(sort) @key(id) u.id @default ORDER BY u.name @end"; "LIMIT :n;";
   "-- name: AddUser :exec"; "INSERT INTO users (id @if-present(name), name @endif)";
   "VALUES (:id @if-present(name), :name @endif)"; ""]%string.

(** A file with a construct no phase accepts, and a statement without header. *)
Definition broken_file : bytes := lines
  ["SELECT 1;"; "-- name: Bad :one"; "SELECT @choose(x) @case(a) 1 @if-present("; "-- name: Lost :one"; "'open"]%string.

Definition ascii_upper (s : bytes) : bytes := upper1 <$> s.
Definition two_seconds (s : bytes) : option Z := if decide (s = bs "2s") then Some 2000000000%Z else None.

Definition demo_scan (src : bytes) : result ScanStop (QueryFile * list Diagnostic) :=
  ScanFile ascii_upper two_seconds Postgres.Profile (bs "q.sql") src.

Definition scan_result (r : result ScanStop (QueryFile * list Diagnostic)) : QueryFile * list Diagnostic :=
  match r with Ok x => x | Err _ => (mkQueryFile [] [], []) end.

Definition demo_queries (src : bytes) : list QueryTemplate := QFQueries (scan_result (demo_scan src)).1.
Definition demo_reports (src : bytes) : list Diagnostic := (scan_result (demo_scan src)).2.

Example demo_names : QName <$> demo_queries demo_file = [bs "ListUsers"; bs "AddUser"].
Proof. vm_compute. reflexivity. Qed.

Example demo_unreported : demo_reports demo_file = [].
Proof. vm_compute. reflexivity. Qed.

Example demo_params : QParamOrder <$> demo_queries demo_file
  = [bs <$> ["name"; "statuses"; "min"; "n"; "kind"]%string; bs <$> ["id"; "name"]%string].
Proof. vm_compute. reflexivity. Qed.

Example broken_codes : DCode <$> demo_reports broken_file
  = [CodeMissingHeader; CodeConstructGrammar; CodeConstructNesting; CodeConstructGrammar; CodeConstructGrammar;
     CodeConstructGrammar].
Proof. vm_compute. reflexivity. Qed.

Lemma demo_scan_ok : ScanFileFrom ascii_upper two_seconds Postgres.Profile (bs "q.sql") demo_file 0
  = Ok (mkQueryFile (bs "q.sql") (demo_queries demo_file), []).
Proof. vm_compute. reflexivity. Qed.

Lemma broken_scan_ok : ScanFileFrom ascii_upper two_seconds Postgres.Profile (bs "q.sql") broken_file 0
  = Ok (mkQueryFile (bs "q.sql") (demo_queries broken_file), demo_reports broken_file).
Proof. vm_compute. reflexivity. Qed.

(** The first query of the file. *)
Definition demo_first : QueryTemplate :=
  default (mkQuery [] AnnotationInvalid (mkSpan [] 0 0) [] [] ∅ [] [] [] ∅ ∅ 0 0 0 [] [] None [] ∅) (head (demo_queries demo_file)).

Lemma demo_first_in : demo_first ∈ demo_queries demo_file.
Proof.
  unfold demo_first. destruct (demo_queries demo_file) as [|q qs] eqn:E; [|by left].
  apply (f_equal length) in E. vm_compute in E. done.
Qed.
