(* ===== verification/ScanLogic.v ===== *)
(** * ScanLogic

    A logic of total correctness for the scanner's monad, and the
    specifications of its readers: they end, never panic, move forward inside
    the source, and touch nothing of the query but its parameters. *)

From S2P Require Import Prelude Dialect Template Diagnostics Regex ScanState ScanBodies.

(** ** Runs *)

(** [m] run in [s] neither panics nor lacks fuel: it returns a value satisfying
    [Q], in a state related to [s] by [R]. *)
Definition runs {A} (m : M A) (R : fileScan -> fileScan -> Prop) (Q : A -> Prop) (s : fileScan) : Prop :=
  exists a s', m s = Ok (a, s') /\ R s s' /\ Q a.

Section runs.
Context (R : fileScan -> fileScan -> Prop) `{!PreOrder R}.

Lemma runs_ret {A} (a : A) (Q : A -> Prop) s : Q a -> runs (mret_ a) R Q s.
Proof. intros H. by exists a, s. Qed.

Lemma runs_bind {A B} (m : M A) (f : A -> M B) (Q1 : A -> Prop) (Q : B -> Prop) s :
  runs m R Q1 s -> (forall a s', R s s' -> Q1 a -> runs (f a) R Q s') -> runs (mbind_ m f) R Q s.
Proof.
  intros (a & s1 & E1 & HR & Ha) Hf. destruct (Hf a s1 HR Ha) as (b & s2 & E2 & HR2 & Hb).
  exists b, s2. split_and!; [|by transitivity s1|done]. unfold mbind_. by rewrite E1.
Qed.

Lemma runs_when (b : bool) (m : M unit) s :
  (b = true -> runs m R (fun _ => True) s) -> runs (when_ b m) R (fun _ => True) s.
Proof. destruct b; intros H; [by apply H|by apply runs_ret]. Qed.

Lemma runs_mfor {A} (f : A -> M unit) xs s :
  (forall x s', x ∈ xs -> R s s' -> runs (f x) R (fun _ => True) s') -> runs (mfor f xs) R (fun _ => True) s.
Proof.
  revert s. induction xs as [|x xs IH]; intros s H; cbn; [by apply runs_ret|].
  eapply runs_bind; [apply H; [set_solver|done]|]. intros _ s1 H1 _. apply IH.
  intros y s2 Hy H2. apply H; [set_solver|by transitivity s1].
Qed.
End runs.

Lemma runs_weaken {A} (m : M A) (R R' : fileScan -> fileScan -> Prop) (Q Q' : A -> Prop) s :
  (forall s', R s s' -> R' s s') -> (forall a, Q a -> Q' a) -> runs m R Q s -> runs m R' Q' s.
Proof. intros HR HQ (a & s' & ? & ? & ?). exists a, s'. auto. Qed.

(** ** Reports *)

Definition code_count (c : bytes) (ds : list Diagnostic) : nat :=
  length (filter (fun d => DCode d = c) ds).

#[local] Arguments code_count : simpl never.
#[local] Arguments maxDiagsPerCode : simpl never.

(** The counters tell the reports of each code, of which no more are kept than
    the cap; a code that overflowed is at its cap. *)
Record RInv (s : fileScan) : Prop := {
  ri_count c : default 0 (fs_emitted s !! c) = code_count c (fs_diags s);
  ri_cap c : code_count c (fs_diags s) <= maxDiagsPerCode;
  ri_over c n : fs_overflow s !! c = Some n -> 0 < n /\ code_count c (fs_diags s) = maxDiagsPerCode;
}.

(** Only reports were made. *)
Record emits (s s' : fileScan) : Prop := {
  em_qb : fs_qb s' = fs_qb s;
  em_names : fs_names s' = fs_names s;
  em_stray : strayReported s' = strayReported s;
  em_pending : pendingDirectives s' = pendingDirectives s;
  em_grow : fs_diags s `prefix_of` fs_diags s';
  em_rinv : RInv s -> RInv s';
}.

#[export] Instance emits_preorder : PreOrder emits.
Proof.
  split; [by intros s; split|]. intros s1 s2 s3 [] []. split; try congruence; [by etrans|auto].
Qed.

Lemma code_count_app c ds ds' : code_count c (ds ++ ds') = code_count c ds + code_count c ds'.
Proof. unfold code_count. by rewrite list.filter_app, length_app. Qed.

Lemma code_count_single c d : code_count c [d] = if decide (DCode d = c) then 1 else 0.
Proof. unfold code_count. rewrite filter_cons. by case_decide. Qed.

(** A report is made, kept or counted; none is lost without another one of its
    code being there. *)
Lemma emit_spec d s :
  exists s', emit d s = Ok (tt, s') /\ emits s s' /\ (RInv s -> 0 < code_count (DCode d) (fs_diags s')).
Proof.
  unfold emit, modify. set (c := DCode d). cbv zeta.
  destruct (Nat.leb_spec maxDiagsPerCode (default 0 (fs_emitted s !! c))) as [Hc|Hc];
    (eexists; split; [reflexivity|]).
  - split; [split; [done..|reflexivity|]|].
    + intros [H1 H2 H3]. split; cbn; [done|done|]. intros c' n.
      destruct (decide (c' = c)) as [->|Hne].
      * rewrite lookup_insert_eq. intros [= <-]. split; [lia|]. specialize (H2 c). rewrite H1 in Hc. lia.
      * rewrite lookup_insert_ne by done. apply H3.
    + intros [H1 _ _]. cbn. rewrite <- H1. unfold maxDiagsPerCode in Hc. lia.
  - split; [split; [done..|by eexists|]|].
    + intros [H1 H2 H3]. split; cbn.
      * intros c'. rewrite code_count_app, code_count_single. fold c. case_decide as E.
        -- subst c'. rewrite lookup_insert_eq. cbn. rewrite H1. lia.
        -- rewrite lookup_insert_ne by done. rewrite H1. lia.
      * intros c'. rewrite code_count_app, code_count_single. fold c. case_decide as E; [|specialize (H2 c'); lia].
        subst c'. rewrite H1 in Hc. lia.
      * intros c' n Hn. rewrite code_count_app, code_count_single. fold c. destruct (H3 _ _ Hn) as [H4 H5].
        case_decide as E; [|lia]. subst c'. rewrite H1, H5 in Hc. lia.
    + intros _. cbn. rewrite code_count_app, code_count_single. fold c. rewrite decide_True by done. lia.
Qed.

Lemma runs_emit d s : runs (emit d) emits (fun _ => True) s.
Proof. destruct (emit_spec d s) as (s' & H1 & H2 & _). by exists tt, s'. Qed.

Lemma runs_errorf code sp format args s : runs (errorf code sp format args) emits (fun _ => True) s.
Proof. apply runs_emit. Qed.

(** ** Recorded parameters *)

Definition snake (name : bytes) : Prop := MatchString snakeRe name = true.

Definition add_occs (occs : list (bytes * Occurrence)) (q : QueryTemplate) : QueryTemplate :=
  foldl (fun q o => add_occurrence o.1 o.2 q) q occs.

(** Reports were made, and occurrences of parameters recorded. *)
Record reads (s s' : fileScan) : Prop := {
  rd_qb : exists occs, Forall (fun o => snake o.1) occs /\ fs_qb s' = with_q (add_occs occs) <$> fs_qb s;
  rd_names : fs_names s' = fs_names s;
  rd_stray : strayReported s' = strayReported s;
  rd_pending : pendingDirectives s' = pendingDirectives s;
  rd_grow : fs_diags s `prefix_of` fs_diags s';
  rd_rinv : RInv s -> RInv s';
}.

Lemma with_q_id b : with_q (fun q => q) b = b.
Proof. by destruct b. Qed.

Lemma emits_reads s s' : emits s s' -> reads s s'.
Proof.
  intros []. split; try done. exists []. split; [constructor|]. cbn.
  rewrite em_qb0. destruct (fs_qb s) as [[]|]; done.
Qed.

#[export] Instance reads_preorder : PreOrder reads.
Proof.
  split; [intros s; by apply emits_reads|]. intros s1 s2 s3 [(o1 & F1 & Q1)] [(o2 & F2 & Q2)].
  split; try congruence; [|by etrans|auto]. exists (o1 ++ o2). split; [by apply Forall_app|].
  rewrite Q2, Q1. destruct (fs_qb s1); [|done]. cbn. unfold with_q, add_occs. cbn. by rewrite foldl_app.
Qed.

Lemma runs_reads {A} (m : M A) (Q : A -> Prop) s : runs m emits Q s -> runs m reads Q s.
Proof. apply runs_weaken; [apply emits_reads|done]. Qed.

Lemma reads_qb s s' : reads s s' -> is_Some (fs_qb s) -> is_Some (fs_qb s').
Proof. intros [(occs & _ & ->)] [b ->]. by eexists. Qed.

Lemma runs_recordParam name sp guards inCase inFT s :
  is_Some (fs_qb s) -> runs (recordParam name sp guards inCase inFT) reads (fun _ => True) s.
Proof.
  intros [b Hb]. unfold recordParam. destruct (MatchString snakeRe name) eqn:E; [|by apply runs_reads, runs_errorf].
  eexists tt, _. unfold modify_q, modify_qb. rewrite Hb. split_and!; [reflexivity| |done].
  split; cbn; try done; [|by intros []]. rewrite Hb.
  exists [(name, mkOccurrence sp guards inCase inFT false)]. split; [by constructor|done].
Qed.

(** ** Readers *)

Section readers.
Context {profile : LexerProfile} {Laws : LexerLaws profile} (path src : bytes).

Abbreviation n := (length src).

(** The token [lexAt] returns at [pos]. *)
Record tok_ok (pos : nat) (t : Token) : Prop := {
  tk_start : pos <= Start t;
  tk_end : Start t <= End t <= n;
  tk_progress : Kind t <> KindEOF -> pos < End t;
}.

Lemma NextToken_ok pos t : pos <= n -> NextToken src pos = Ok t -> tok_ok pos t.
Proof.
  intros Hp Ht. destruct (decide (n <= pos)) as [Hge|Hlt].
  - rewrite lex_eof in Ht by done. injection Ht as <-. split; cbn; [lia|lia|done].
  - apply lex_ok in Ht as [H1 H2 H3 H4 H5 H6]; [|lia]. split; lia.
Qed.

Lemma runs_lexAt pos s : pos <= n -> runs (lexAt profile path src pos) emits (tok_ok pos) s.
Proof.
  intros Hp. unfold lexAt. destruct (NextToken src pos) as [t|e] eqn:Et.
  - apply runs_ret; [typeclasses eauto|]. by apply NextToken_ok.
  - eapply runs_bind; [typeclasses eauto|apply runs_errorf|]. intros _ s' _ _.
    apply runs_ret; [typeclasses eauto|]. split; cbn; [lia|lia|done].
Qed.

Lemma is_trivia_not_eof k : is_trivia k = true -> k <> KindEOF.
Proof. by destruct k. Qed.

Lemma runs_skipTrivia pos s :
  pos <= n -> runs (skipTrivia profile path src pos) emits (fun p => pos <= p <= n) s.
Proof.
  intros Hp. unfold skipTrivia, src_fuel.
  enough (forall fuel pos s, pos <= n -> n < fuel + pos ->
    runs (skipTrivia_loop profile path src fuel pos) emits (fun p => pos <= p <= n) s) as He by (apply He; lia).
  clear pos s Hp. induction fuel as [|f IH]; intros pos s Hp Hf; [lia|]. cbn [skipTrivia_loop].
  eapply runs_bind; [typeclasses eauto|by apply runs_lexAt|]. intros t s1 _ Ht.
  destruct (is_trivia (Kind t)) eqn:Ek; [|by apply runs_ret; [typeclasses eauto|lia]].
  pose proof (tk_progress _ _ Ht (is_trivia_not_eof _ Ek)). pose proof (tk_end _ _ Ht).
  eapply runs_weaken; [done| |apply IH; lia]. cbn. lia.
Qed.

(** A marker is inside the source and moves forward. *)
Lemma matchConstruct_bounds pos name e :
  pos < n -> matchConstruct src pos = Some (name, e) -> pos < e <= n.
Proof.
  unfold matchConstruct. intros Hp. case_bool_decide; [|done]. intros [= _ <-].
  pose proof (scan_bounds (fun c => is_lower c || (c =b "-")%char)%bool src (pos + 1)). lia.
Qed.

Lemma marker_at_bounds pos name e : marker_at src pos = Some (name, e) -> pos < e <= n.
Proof.
  unfold marker_at. destruct (at_is src pos "@") eqn:E; [|done].
  intros H. eapply matchConstruct_bounds; [|exact H]. by eapply at_is_lt.
Qed.

Lemma runs_parseArgList name markerStart pos s :
  pos <= n -> runs (parseArgList profile path src name markerStart pos) emits (fun r => pos <= r.2 <= n) s.
Proof.
  intros Hp. unfold parseArgList. destruct (at_is src pos "(") eqn:Ep; cbn [negb].
  2: { eapply runs_bind; [typeclasses eauto|apply runs_errorf|]. intros _ s' _ _.
       apply runs_ret; [typeclasses eauto|]. cbn. lia. }
  apply at_is_lt in Ep.
  enough (forall fuel pos idents s, pos <= n -> n < fuel + pos ->
    runs (parseArgList_loop profile path src name fuel pos idents) emits (fun r => pos <= r.2 <= n) s) as He.
  { unfold src_fuel. eapply runs_weaken; [done| |apply He; lia]. cbn. lia. }
  clear pos s Hp Ep. induction fuel as [|f IH]; intros pos idents s Hp Hf; [lia|]. cbn [parseArgList_loop].
  eapply runs_bind; [typeclasses eauto|by apply runs_skipTrivia|]. cbv beta. intros p1 s1 _ H1.
  eapply runs_bind; [typeclasses eauto|apply runs_lexAt; lia|]. intros t s2 _ [Ht1 Ht2 Ht3].
  case_bool_decide as Ek; cbn [negb].
  2: { eapply runs_bind; [typeclasses eauto|apply runs_errorf|]. intros _ s' _ _.
       apply runs_ret; [typeclasses eauto|]. cbn. lia. }
  eapply runs_bind; [typeclasses eauto|apply runs_when; [typeclasses eauto|]; intros _; apply runs_errorf|].
  intros _ s3 _ _. assert (p1 < End t) by (apply Ht3; by try rewrite Ek).
  eapply runs_bind; [typeclasses eauto|apply runs_skipTrivia; lia|]. cbv beta. intros p2 s4 _ H2.
  eapply runs_bind; [typeclasses eauto|apply runs_lexAt; lia|]. intros u s5 _ [Hu1 Hu2 Hu3].
  destruct (Kind u) eqn:Eu;
    try (eapply runs_bind; [typeclasses eauto|apply runs_errorf|]; intros _ s' _ _;
         apply runs_ret; [typeclasses eauto|]; cbn; lia).
  - apply runs_ret; [typeclasses eauto|]. cbn. lia.
  - assert (p2 < End u) by (apply Hu3; by try rewrite Eu).
    eapply runs_weaken; [done| |apply IH; lia]. cbn. lia.
Qed.

(** The answer of [consumeBody] at [pos]: the body's end, at a marker that is
    one of the terminators unless the source ended. *)
Definition body_end (terminators : list bytes) (pos : nat) (r : nat * option bytes) : Prop :=
  pos <= r.1 <= n /\
  forall t, r.2 = Some t -> t ∈ terminators /\ exists e, marker_at src r.1 = Some (t, e).

Lemma runs_consumeBody_loop terminators guards inCase inFT fuel pos stack s :
  pos <= n -> n < fuel + pos -> is_Some (fs_qb s) ->
  runs (consumeBody_loop profile path src terminators guards inCase inFT fuel pos stack) reads
    (body_end terminators pos) s.
Proof.
  revert pos stack s. induction fuel as [|f IH]; intros pos stack s Hp Hf Hqb; [lia|]. cbn [consumeBody_loop].
  assert (forall e stack' s', pos < e <= n -> reads s s' -> is_Some (fs_qb s') ->
    runs (consumeBody_loop profile path src terminators guards inCase inFT f e stack') reads (body_end terminators pos) s') as Hnext.
  { intros e stack' s' He _ Hqb'. eapply runs_weaken; [done| |apply (IH e stack' s'); [lia|lia|done]].
    intros r [H1 H2]. split; [lia|done]. }
  destruct (marker_at src pos) as [[name e]|] eqn:Em.
  - pose proof (marker_at_bounds _ _ _ Em) as He.
    assert (forall d stack', runs (emit d ;;; consumeBody_loop profile path src terminators guards inCase inFT f e stack')
      reads (body_end terminators pos) s) as Hrep.
    { intros d stack'. eapply runs_bind; [typeclasses eauto|apply runs_reads, runs_emit|].
      intros _ s' Hs' _. apply Hnext; [done|done|by eapply reads_qb]. }
    assert (name ∈ terminators -> runs (mret_ (pos, Some name)) reads (body_end terminators pos) s) as Hend.
    { intros Hin. apply runs_ret; [typeclasses eauto|]. split; cbn; [lia|]. intros t [= <-]. split; [done|by exists e]. }
    destruct (nm name ["if-present"; "choose"; "when"]%string); [apply Hrep|].
    destruct (nm name ["endif"; "end"]%string).
    { destruct stack; [|by apply Hnext]. case_decide; [by apply Hend|apply Hrep]. }
    destruct (nm name ["order-by"; "filter-tree"]%string); [apply Hrep|].
    destruct (nm name ["in"%string]).
    { eapply runs_bind; [typeclasses eauto|apply runs_when; [typeclasses eauto|]; intros _; apply runs_reads, runs_errorf|].
      intros _ s' Hs' _. apply Hnext; [done|done|by eapply reads_qb]. }
    destruct (bool_decide (stack = []) && bool_decide (name ∈ terminators)) eqn:Eb; [|by apply Hnext].
    apply andb_prop in Eb as [_ Eb%bool_decide_eq_true]. by apply Hend.
  - eapply runs_bind; [typeclasses eauto|by apply runs_reads, runs_lexAt|]. intros t s1 Hs1 [H1 H2 H3].
    pose proof (reads_qb _ _ Hs1 Hqb) as Hq1.
    case_decide as Ek.
    { apply runs_ret; [typeclasses eauto|]. split; cbn; [lia|done]. }
    eapply runs_bind; [typeclasses eauto| |].
    { apply runs_when; [typeclasses eauto|]. intros _.
      destruct (Kind t); try (by apply runs_ret; [typeclasses eauto|]).
      - by apply runs_recordParam.
      - apply runs_reads, runs_errorf. }
    intros _ s2 Hs2 _. specialize (H3 Ek). apply Hnext; [lia|by etrans|by eapply reads_qb].
Qed.

Lemma runs_consumeBody pos terminators guards inCase inFT s :
  pos <= n -> is_Some (fs_qb s) ->
  runs (consumeBody profile path src pos terminators guards inCase inFT) reads (body_end terminators pos) s.
Proof. intros. apply runs_consumeBody_loop; [done|unfold src_fuel; lia|done]. Qed.

Lemma runs_peekBodyEnd pos terminators s :
  pos <= n -> runs (peekBodyEnd profile path src pos terminators) emits (fun e => pos <= e <= n) s.
Proof.
  intros Hp. unfold peekBodyEnd, src_fuel. generalize (@nil bytes) as stack. intros stack.
  enough (forall fuel pos stack s, pos <= n -> n < fuel + pos ->
    runs (peekBodyEnd_loop profile path src terminators fuel pos stack) emits (fun e => pos <= e <= n) s) as He
    by (apply He; lia).
  clear pos stack s Hp. induction fuel as [|f IH]; intros pos stack s Hp Hf; [lia|]. cbn [peekBodyEnd_loop].
  assert (forall e stack' s', pos < e <= n ->
    runs (peekBodyEnd_loop profile path src terminators f e stack') emits (fun e => pos <= e <= n) s') as Hnext.
  { intros e stack' s' He. eapply runs_weaken; [done| |apply (IH e stack' s'); lia]. cbn. lia. }
  assert (runs (mret_ pos) emits (fun e => pos <= e <= n) s) as Hend by (apply runs_ret; [typeclasses eauto|lia]).
  destruct (marker_at src pos) as [[name e]|] eqn:Em.
  - pose proof (marker_at_bounds _ _ _ Em) as He.
    repeat match goal with |- runs (if ?b then _ else _) _ _ _ => destruct b; try by apply Hnext end; try done.
  - eapply runs_bind; [typeclasses eauto|by apply runs_lexAt|]. intros t s1 _ [H1 H2 H3].
    case_decide as Ek; [by apply runs_ret; [typeclasses eauto|lia]|]. specialize (H3 Ek). apply Hnext. lia.
Qed.

(** ** Texts *)

Lemma trim_left_suffix p s : exists k, trim_left p s = drop k s /\ k <= length s /\ length (trim_left p s) = length s - k.
Proof.
  induction s as [|c s IH]; cbn; [by exists 0|]. destruct (p c).
  - destruct IH as (k & -> & H1 & H2). exists (S k). rewrite length_drop in *. cbn. split_and!; [done|lia|lia].
  - exists 0. cbn. split_and!; [done|lia|done].
Qed.

Lemma trim_right_prefix p s : exists k, trim_right p s = take k s /\ k <= length s.
Proof.
  unfold trim_right. destruct (trim_left_suffix p (rev s)) as (k & -> & H1 & _). rewrite length_rev in H1.
  exists (length s - k). rewrite List.skipn_rev, List.rev_involutive. split; [done|lia].
Qed.

(** What trimming leaves is the source text at the offset it gives. *)
Definition text_of (text : bytes) (off : nat) : Prop :=
  off + length text <= n /\ slice src off (off + length text) = text.

Lemma text_of_slice lo hi : lo <= hi <= n -> text_of (slice src lo hi) lo.
Proof.
  intros Hb. unfold text_of. rewrite slice_length by lia. split; [lia|]. f_equal; lia.
Qed.

Lemma text_of_drop text off k : text_of text off -> k <= length text -> text_of (drop k text) (off + k).
Proof.
  intros [H1 H2] Hk. unfold text_of. rewrite length_drop. split; [lia|].
  rewrite <- H2 at 2. unfold slice. rewrite skipn_firstn_comm, drop_drop. f_equal. lia.
Qed.

Lemma text_of_take text off k : text_of text off -> text_of (take k text) off.
Proof.
  intros [H1 H2]. unfold text_of. rewrite length_take. split; [lia|].
  rewrite <- H2 at 2. unfold slice. rewrite take_take. f_equal. lia.
Qed.

Lemma text_of_trim lo hi :
  lo <= hi <= n ->
  text_of (trim_text src lo hi) (trim_start src lo hi) /\ lo <= trim_start src lo hi.
Proof.
  intros Hb. unfold trim_start, trim_text.
  destruct (trim_left_suffix isTrimByte (slice src lo hi)) as (k & E & Hk & Hl).
  destruct (trim_right_prefix isTrimByte (trim_left isTrimByte (slice src lo hi))) as (j & -> & Hj).
  rewrite Hl, E. split; [|lia]. apply text_of_take.
  replace (length (slice src lo hi) - (length (slice src lo hi) - k)) with k by lia.
  apply text_of_drop; [by apply text_of_slice|done].
Qed.

Lemma runs_trimEdges lo hi s :
  lo <= hi <= n -> runs (trimEdges src lo hi) emits (fun r => text_of r.1 r.2 /\ lo <= r.2) s.
Proof.
  intros Hb. unfold trimEdges, src_slice.
  rewrite (proj2 (Nat.leb_le lo hi)), (proj2 (Nat.leb_le hi n)) by lia. cbn [andb].
  eapply (runs_bind _ _ _ (fun _ => True)); [by apply runs_ret; [typeclasses eauto|]|]. intros _ s1 _ _.
  apply runs_ret; [typeclasses eauto|]. by apply text_of_trim.
Qed.

Lemma firstTokenOf_bound text t : firstTokenOf profile text = Some t -> End t <= length text.
Proof.
  unfold firstTokenOf. intros H. assert (t ∈ (tokens text).1) as Ht.
  { enough (t ∈ filter (fun t => is_trivia (Kind t) = false) (tokens text).1) as Hf
      by (apply list_elem_of_filter in Hf as [_ Hf]; exact Hf).
    destruct (filter _ _) as [|t' l]; [done|]. injection H as ->. by left. }
  clear H. pose proof (tokens_Lexes text) as HL. revert Ht.
  induction HL as [| |pos t' ts e Hlt Ht' _ _ IH]; [set_solver..|].
  intros [->|Hin]%elem_of_cons; [|by apply IH]. apply lex_ok in Ht' as []; lia.
Qed.

Lemma text_of_strip body off m :
  text_of body off -> match stripLeadingToken profile body off m with (text, off', _) => text_of text off' end.
Proof.
  intros Hb. unfold stripLeadingToken. destruct (firstTokenOf profile body) as [t|] eqn:Et; [|done].
  apply firstTokenOf_bound in Et. destruct (m t); [|done].
  destruct (trim_left_suffix isTrimByte (drop (End t) body)) as (k & E & Hk & Hl).
  destruct (trim_right_prefix isTrimByte (trim_left isTrimByte (drop (End t) body))) as (j & -> & _).
  apply text_of_take. rewrite Hl, E.
  replace (length (drop (End t) body) - (length (drop (End t) body) - k)) with k by lia.
  apply text_of_drop; [by apply text_of_drop|done].
Qed.
End readers.
