(* ===== verification/ScanInv.v ===== *)
(** * ScanInv

    The invariant of the query under construction, and its preservation by
    every construct parser: the items tile the source from the header on, their
    texts are source text at their spans, each parameter is declared once. *)

From S2P Require Import Prelude Dialect Template SourceMap RenderInv Diagnostics Regex ScanState ScanDirectives ScanClauses ScanBodies ScanConstructs Scanner ScanLogic.

(** ** The invariant *)

(** The spans of the items follow each other from [h] on; the end of the
    last. *)
Fixpoint raw_tiles (path : bytes) (h : nat) (items : list Item) : option nat :=
  match items with
  | [] => Some h
  | it :: rest =>
      if bool_decide (SFile (Raw it) = path) && Nat.eqb (SStart (Raw it)) h && Nat.ltb h (SEnd (Raw it))
      then raw_tiles path (SEnd (Raw it)) rest else None
  end.

Definition item_ok (profile : LexerProfile) (src : bytes) (it : Item) : Prop :=
  (forall text off synth, (text, off, synth) ∈ item_texts it -> synth = false /\ text_of src text off) /\
  match it with
  | ISkeleton v => SkText v = slice src (SStart (SkSpan v)) (SEnd (SkSpan v))
  | IFilterTree f => Forall (fun p => PrParams p = distinct_params profile (PrBody p)) (FtPredicates f)
  | _ => True
  end.

(** The parameters: the order lists the keys of the map once. *)
Record params_inv (q : QueryTemplate) : Prop := {
  pi_nodup : NoDup (QParamOrder q);
  pi_dom n : n ∈ QParamOrder q <-> is_Some (QParams q !! n);
  pi_param n p : QParams q !! n = Some p -> PName p = n /\ POptional p = false /\ PPolicy p = [];
}.

(** Before [finalize] no parameter has a guard bit, and names are snake case. *)
Definition params_fresh_inv (q : QueryTemplate) : Prop :=
  params_inv q /\ forall n p, QParams q !! n = Some p -> PGuardBit p = (-1)%Z /\ snake n.

Definition item_guards (it : Item) : list (list GuardAtom) :=
  match it with IIfPresent v => [IPGuards v] | _ => [] end.

(** The guards of the optional INSERT items are those of guarded items. *)
Definition inserts_in (gs : list (list GuardAtom)) (q : QueryTemplate) : Prop :=
  forall gi, gi ∈ QInsertColGuards q ++ concat (QInsertValGuards q) -> GIGuards gi ∈ gs.

(** The header: a line comment of the source, with the name and the annotation
    it declares. *)
Definition header_ok (path src : bytes) (q : QueryTemplate) : Prop :=
  let h := QHeaderSpan q in
  SFile h = path /\ SStart h < SEnd h <= length src /\
  exists m, FindStringSubmatch headerRe (slice src (SStart h) (SEnd h)) = Some m /\
    QName q = group (slice src (SStart h) (SEnd h)) m 1 /\
    QAnnotation q = annotation_of (group (slice src (SStart h) (SEnd h)) m 2).

Definition offset_ok (src : bytes) (o : Z) : Prop := (-1 <= o <= Z.of_nat (length src))%Z.

Record QInv (profile : LexerProfile) (path src : bytes) (h : Span) (gs : list (list GuardAtom)) (q : QueryTemplate) (e : nat)
    : Prop := {
  qi_span : QHeaderSpan q = h;
  qi_header : header_ok path src q;
  qi_tiles : raw_tiles path (SEnd (QHeaderSpan q)) (QItems q) = Some e;
  qi_items : Forall (item_ok profile src) (QItems q);
  qi_params : params_fresh_inv q;
  qi_atoms : QGuardAtoms q = [];
  qi_inserts : inserts_in (gs ++ flat_map item_guards (QItems q)) q;
  qi_offsets : offset_ok src (QWhereKwEnd q) /\ offset_ok src (QTailStart q) /\ offset_ok src (QStmtEnd q);
  qi_bound : e <= length src;
}.

(** ** Triples on the builder *)

(** Reports grow, the rest of the file's state but the builder is kept. *)
Record frame (s s' : fileScan) : Prop := {
  fr_grow : fs_diags s `prefix_of` fs_diags s';
  fr_rinv : RInv s -> RInv s';
  fr_names : fs_names s' = fs_names s;
}.

#[export] Instance frame_preorder : PreOrder frame.
Proof. split; [by split|]. intros ??? [] []. split; [by etrans|auto|congruence]. Qed.

Lemma reads_frame s s' : reads s s' -> frame s s'.
Proof. by intros []. Qed.

Definition triple {A} (P : queryBuilder -> Prop) (m : M A) (Q : A -> queryBuilder -> Prop) : Prop :=
  forall s b, fs_qb s = Some b -> P b ->
  exists a s' b', m s = Ok (a, s') /\ frame s s' /\ fs_qb s' = Some b' /\ Q a b'.

Lemma triple_ret {A} (a : A) (P : queryBuilder -> Prop) (Q : A -> queryBuilder -> Prop) :
  (forall b, P b -> Q a b) -> triple P (mret_ a) Q.
Proof. intros H s b Hb Hp. exists a, s, b. split_and!; auto. done. Qed.

Lemma triple_bind {A B} (m : M A) (f : A -> M B) P R Q :
  triple P m R -> (forall a, triple (R a) (f a) Q) -> triple P (mbind_ m f) Q.
Proof.
  intros Hm Hf s b Hb Hp. destruct (Hm s b Hb Hp) as (a & s1 & b1 & E1 & F1 & Hb1 & H1).
  destruct (Hf a s1 b1 Hb1 H1) as (c & s2 & b2 & E2 & F2 & Hb2 & H2).
  exists c, s2, b2. split_and!; [|by etrans|done|done]. unfold mbind_. by rewrite E1.
Qed.

Lemma triple_conseq {A} (m : M A) (P P' : queryBuilder -> Prop) (Q Q' : A -> queryBuilder -> Prop) :
  triple P m Q -> (forall b, P' b -> P b) -> (forall a b, Q a b -> Q' a b) -> triple P' m Q'.
Proof.
  intros Hm HP HQ s b Hb Hp%HP. destruct (Hm s b Hb Hp) as (a & s1 & b1 & ? & ? & ? & ?).
  exists a, s1, b1. auto.
Qed.

(** A pure fact of the precondition becomes a hypothesis. *)
Lemma triple_pure {A} (φ : Prop) (m : M A) (P P' : queryBuilder -> Prop) Q :
  (forall b, P b -> φ /\ P' b) -> (φ -> triple P' m Q) -> triple P m Q.
Proof. intros HP Hm s b Hb [Hφ Hp]%HP. exact (Hm Hφ s b Hb Hp). Qed.

Lemma triple_get (P : queryBuilder -> Prop) (Q : queryBuilder -> queryBuilder -> Prop) :
  (forall b, P b -> Q b b) -> triple P get_qb Q.
Proof. intros H s b Hb Hp. exists b, s, b. unfold get_qb. rewrite Hb. split_and!; auto. done. Qed.

Lemma triple_modify (f : queryBuilder -> queryBuilder) (P : queryBuilder -> Prop) (Q : unit -> queryBuilder -> Prop) :
  (forall b, P b -> Q tt (f b)) -> triple P (modify_qb f) Q.
Proof.
  intros H s b Hb Hp. unfold modify_qb. rewrite Hb. eexists _, _, (f b). split_and!; [done| |done|auto].
  split; cbn; [done|by intros []|done].
Qed.

Lemma triple_modify_q (f : QueryTemplate -> QueryTemplate) (P : queryBuilder -> Prop) (Q : unit -> queryBuilder -> Prop) :
  (forall b, P b -> Q tt (with_q f b)) -> triple P (modify_q f) Q.
Proof. apply triple_modify. Qed.

Lemma triple_when (c : bool) (m : M unit) P (Q : unit -> queryBuilder -> Prop) :
  (c = true -> triple P m Q) -> (c = false -> forall b, P b -> Q tt b) -> triple P (when_ c m) Q.
Proof. destruct c; intros H1 H2; [by apply H1|]. by apply triple_ret; apply H2. Qed.

(** Readers: what does not depend on the parameters survives. *)
Definition stable (P : queryBuilder -> Prop) : Prop :=
  forall b occs, Forall (fun o => snake o.1) occs -> P b -> P (with_q (add_occs occs) b).

Lemma triple_reads {A} (m : M A) (φ : A -> Prop) P :
  stable P -> (forall s, is_Some (fs_qb s) -> runs m reads φ s) -> triple P m (fun a b => φ a /\ P b).
Proof.
  intros HP Hm s b Hb Hp. destruct (Hm s ltac:(by eexists)) as (a & s' & E & HR & Ha).
  pose proof HR as [(occs & Ho & Hq) _ _ _ _ _]. rewrite Hb in Hq.
  exists a, s', (with_q (add_occs occs) b). split_and!; [done|by apply reads_frame|done|done|by apply HP].
Qed.

Lemma triple_emits {A} (m : M A) (φ : A -> Prop) P :
  (forall s, runs m emits φ s) -> triple P m (fun a b => φ a /\ P b).
Proof.
  intros Hm s b Hb Hp. destruct (Hm s) as (a & s' & E & HR & Ha).
  exists a, s', b. split_and!; [done|by apply reads_frame, emits_reads| |done|done]. by rewrite (em_qb _ _ HR).
Qed.

Lemma triple_emit d P : triple P (emit d) (fun _ => P).
Proof.
  eapply triple_conseq; [apply (triple_emits _ (fun _ => True)); intros; apply runs_emit|done|]. by intros _ b [_ H].
Qed.

Lemma triple_errorf code sp format args P : triple P (errorf code sp format args) (fun _ => P).
Proof. apply triple_emit. Qed.

Lemma triple_when_errorf c code sp format args P : triple P (when_ c (errorf code sp format args)) (fun _ => P).
Proof. apply triple_when; [intros _; apply triple_errorf|done]. Qed.

(** A report before going on. *)
Lemma triple_report {A} code sp format args (m : M A) P Q :
  triple P m Q -> triple P (errorf code sp format args ;;; m) Q.
Proof. intros H. eapply triple_bind; [apply triple_errorf|]. by intros []. Qed.

Lemma triple_when_report {A} c code sp format args (m : M A) P Q :
  triple P m Q -> triple P (when_ c (errorf code sp format args) ;;; m) Q.
Proof. intros H. eapply triple_bind; [apply triple_when_errorf|]. by intros []. Qed.

Lemma triple_gets {A} (f : fileScan -> A) P : triple P (gets f) (fun _ => P).
Proof. intros s b Hb Hp. by exists (f s), s, b. Qed.

Lemma triple_mfor {A} (f : A -> M unit) xs P :
  (forall x, x ∈ xs -> triple P (f x) (fun _ => P)) -> triple P (mfor f xs) (fun _ => P).
Proof.
  induction xs as [|x xs IH]; intros H; cbn; [by apply triple_ret|].
  eapply triple_bind; [apply H; set_solver|]. intros []. apply IH. set_solver.
Qed.

(** ** The invariant under the builder's operations *)

Section inv.
Context {profile : LexerProfile} {Laws : LexerLaws profile} (path src : bytes) (h : Span).

Abbreviation n := (length src).
Abbreviation QInv := (QInv profile path src h).
Abbreviation sp := (span path src).

Lemma raw_tiles_app o l1 l2 :
  raw_tiles path o (l1 ++ l2) = match raw_tiles path o l1 with Some m => raw_tiles path m l2 | None => None end.
Proof.
  revert o. induction l1 as [|it l1 IH]; intros o; [done|]. cbn [raw_tiles app].
  destruct (_ && _ && _); [apply IH|done].
Qed.

Lemma span_exact a b : a <= b <= n -> sp a b = mkSpan path a b.
Proof.
  intros H. unfold span. rewrite (proj2 (Nat.ltb_ge n a)), (proj2 (Nat.ltb_ge n b)), (proj2 (Nat.ltb_ge b a)) by lia. done.
Qed.

Lemma inserts_in_mono gs gs' q : gs ⊆ gs' -> inserts_in gs q -> inserts_in gs' q.
Proof. intros Hs H gi Hin. apply Hs. by apply H. Qed.

Lemma params_fresh_ext q q' :
  QParamOrder q' = QParamOrder q -> QParams q' = QParams q -> params_fresh_inv q -> params_fresh_inv q'.
Proof. intros E1 E2 [[H1 H2 H3] H4]. split; [split|]; rewrite ?E1, ?E2; auto. Qed.

(** What [QInv] reads. *)
Lemma QInv_ext gs e q q' :
  QName q' = QName q -> QAnnotation q' = QAnnotation q -> QHeaderSpan q' = QHeaderSpan q -> QItems q' = QItems q ->
  QParamOrder q' = QParamOrder q -> QParams q' = QParams q -> QGuardAtoms q' = QGuardAtoms q ->
  QInsertColGuards q' = QInsertColGuards q -> QInsertValGuards q' = QInsertValGuards q ->
  offset_ok src (QWhereKwEnd q') /\ offset_ok src (QTailStart q') /\ offset_ok src (QStmtEnd q') ->
  QInv gs q e -> QInv gs q' e.
Proof.
  intros E1 E2 E3 E4 E5 E6 E7 E8 E9 Ho []. split; [| | | | | | |done|done].
  - by rewrite E3.
  - unfold header_ok. by rewrite E1, E2, E3.
  - by rewrite E3, E4.
  - by rewrite E4.
  - by apply (params_fresh_ext q).
  - by rewrite E7.
  - unfold inserts_in. by rewrite E4, E8, E9.
Qed.

Lemma params_fresh_add name occ q :
  snake name -> params_fresh_inv q -> params_fresh_inv (add_occurrence name occ q).
Proof.
  intros Hn [[H1 H2 H3] H4]. unfold add_occurrence. destruct (QParams q !! name) as [p|] eqn:E; cbn.
  - split; [split|]; cbn; [done| | |].
    + intros m. rewrite H2. destruct (decide (m = name)) as [->|].
      * rewrite lookup_insert_eq, E. split; by eexists.
      * by rewrite lookup_insert_ne.
    + intros m p'. destruct (decide (m = name)) as [->|].
      * rewrite lookup_insert_eq. intros [= <-]. cbn. by apply H3.
      * rewrite lookup_insert_ne by done. apply H3.
    + intros m p'. destruct (decide (m = name)) as [->|].
      * rewrite lookup_insert_eq. intros [= <-]. cbn. by apply H4.
      * rewrite lookup_insert_ne by done. apply H4.
  - assert (name ∉ QParamOrder q) as Hnot by (rewrite H2, E; by intros []).
    split; [split|]; cbn.
    + apply list.NoDup_app. split_and!; [done| |apply NoDup_singleton]. set_solver.
    + intros m. rewrite elem_of_app, H2. destruct (decide (m = name)) as [->|].
      * rewrite lookup_insert_eq. split; [by eexists|]. intros _. right. by constructor.
      * rewrite lookup_insert_ne by done. set_solver.
    + intros m p'. destruct (decide (m = name)) as [->|].
      * rewrite lookup_insert_eq. by intros [= <-].
      * rewrite lookup_insert_ne by done. apply H3.
    + intros m p'. destruct (decide (m = name)) as [->|].
      * rewrite lookup_insert_eq. by intros [= <-].
      * rewrite lookup_insert_ne by done. apply H4.
Qed.

Lemma QInv_add_occ gs e name occ q : snake name -> QInv gs q e -> QInv gs (add_occurrence name occ q) e.
Proof.
  intros Hn H. pose proof (params_fresh_add name occ q Hn (qi_params _ _ _ _ _ _ _ H)) as Hp.
  assert (forall o p, params_fresh_inv (q_set_params o p q) -> QInv gs (q_set_params o p q) e) as Hq
    by (intros o p Hop; destruct H; by split).
  unfold add_occurrence in *. destruct (QParams q !! name); by apply Hq.
Qed.

Lemma QInv_add_occs gs e occs q :
  Forall (fun o => snake o.1) occs -> QInv gs q e -> QInv gs (add_occs occs q) e.
Proof.
  intros H. revert q. induction H as [|o occs Ho _ IH]; intros q Hq; [done|]. cbn. by apply IH, QInv_add_occ.
Qed.

(** The item is added: the tiles reach its end. *)
Lemma QInv_add_item gs q st e it :
  QInv gs q st -> item_ok profile src it -> Raw it = mkSpan path st e -> st < e <= n ->
  gs ⊆ item_guards it -> QInv [] (q_set_items (fun items => items ++ [it]) q) e.
Proof.
  intros [] Hit Hraw He Hgs. split; cbn; try done.
  - rewrite raw_tiles_app, qi_tiles0. cbn [raw_tiles]. rewrite Hraw. cbn [SFile SStart SEnd].
    rewrite bool_decide_true, Nat.eqb_refl by done. by rewrite (proj2 (Nat.ltb_lt st e)) by lia.
  - apply Forall_app. split; [done|by constructor].
  - by apply (params_fresh_ext q).
  - unfold inserts_in in *. cbn. intros gi Hgi%qi_inserts0. rewrite flat_map_app. cbn. rewrite app_nil_r.
    set_solver.
  - lia.
Qed.

(** ** Builders *)

(** The items reach [e]; with a skeleton chunk open, they reach its start. *)
Definition closed (gs : list (list GuardAtom)) (e : nat) (b : queryBuilder) : Prop := QInv gs (qb_q b) e.
Definition open (e : nat) (b : queryBuilder) : Prop :=
  exists st, skelStart b = Some st /\ st <= e <= n /\ closed [] st b.

Lemma stable_closed gs e : stable (closed gs e).
Proof. intros b occs Ho H. by apply QInv_add_occs. Qed.

Lemma stable_open e : stable (open e).
Proof. intros b occs Ho (st & H1 & H2 & H3). exists st. split_and!; [done|lia..|]. by apply stable_closed. Qed.

Lemma open_mono e e' b : open e b -> e <= e' <= n -> open e' b.
Proof. intros (st & H1 & H2 & H3) He. exists st. split_and!; [done|lia..|done]. Qed.

(** Operations that touch neither the query nor the chunk. *)
Definition neutral (f : queryBuilder -> queryBuilder) : Prop :=
  forall b, skelStart (f b) = skelStart b /\ qb_q (f b) = qb_q b.

Lemma neutral_open f e b : neutral f -> open e b -> open e (f b).
Proof. intros Hf (st & H1 & H2 & H3). destruct (Hf b) as [E1 E2]. exists st. unfold closed. by rewrite E1, E2. Qed.

Lemma neutral_closed f gs e b : neutral f -> closed gs e b -> closed gs e (f b).
Proof. intros Hf H. destruct (Hf b) as [_ E2]. unfold closed. by rewrite E2. Qed.

(** Operations on the query that keep what [QInv] reads. *)
Definition benign (f : QueryTemplate -> QueryTemplate) : Prop := forall gs e q, QInv gs q e -> QInv gs (f q) e.

Lemma benign_open f e b : benign f -> open e b -> open e (with_q f b).
Proof. intros Hf (st & H1 & H2 & H3). exists st. split_and!; [done|lia..|]. by apply Hf. Qed.

Lemma offset_ok_of_nat e : e <= n -> offset_ok src (Z.of_nat e).
Proof. unfold offset_ok. lia. Qed.

Lemma benign_offsets w t s : (forall q, offset_ok src (QWhereKwEnd q) /\ offset_ok src (QTailStart q) /\ offset_ok src (QStmtEnd q) ->
    offset_ok src (w q) /\ offset_ok src (t q) /\ offset_ok src (s q)) ->
  benign (fun q => q_set_offsets (w q) (t q) (s q) q).
Proof. intros H gs e q Hq. apply (QInv_ext gs e q); try done. cbn. apply H. by destruct Hq. Qed.

Lemma benign_mark_tail e : e <= n -> benign (mark_tail e).
Proof.
  intros He gs e' q Hq. unfold mark_tail. destruct (_ && _)%bool; [|done].
  apply (QInv_ext gs e' q); try done. cbn. destruct (qi_offsets _ _ _ _ _ _ _ Hq) as (? & ? & ?).
  split_and!; [done|by apply offset_ok_of_nat|done].
Qed.

Lemma benign_StmtEnd e : e <= n -> benign (set_StmtEnd e).
Proof.
  intros He gs e' q Hq. apply (QInv_ext gs e' q); try done. cbn. destruct (qi_offsets _ _ _ _ _ _ _ Hq) as (? & ? & ?).
  split_and!; [done..|by apply offset_ok_of_nat].
Qed.

Lemma benign_hints f g : benign (fun q => q_set_hints (f q) (g q) q).
Proof. intros gs e q Hq. apply (QInv_ext gs e q); try done. by destruct Hq. Qed.

Lemma benign_directives f1 f2 f3 f4 f5 : benign (fun q => q_set_directives (f1 q) (f2 q) (f3 q) (f4 q) (f5 q) q).
Proof. intros gs e q Hq. apply (QInv_ext gs e q); try done. by destruct Hq. Qed.

(** ** Operations *)

Lemma triple_flush pos : triple (open pos) (flushSkeleton path src pos) (fun _ => closed [] pos).
Proof.
  intros s b Hb (st & Hst & Hle & Hq). unfold flushSkeleton, mbind_, get_qb. rewrite Hb, Hst.
  destruct (Nat.ltb_spec st pos) as [Hlt|Hge].
  - unfold src_slice. rewrite (proj2 (Nat.leb_le st pos)), (proj2 (Nat.leb_le pos n)) by lia. cbn [andb mret_].
    unfold modify_qb. rewrite Hb. eexists tt, _, _. split_and!; [reflexivity| |reflexivity|].
    { split; [done|by intros []|done]. }
    unfold closed. cbn. eapply QInv_add_item; [exact Hq| |apply span_exact; lia|lia|done].
    rewrite span_exact by lia. split; cbn; [|done].
    intros text off synth [= -> -> ->]%list_elem_of_singleton. split; [done|]. by apply text_of_slice; lia.
  - unfold modify_qb. rewrite Hb. eexists tt, _, _. split_and!; [reflexivity| |reflexivity|].
    { split; [done|by intros []|done]. }
    unfold closed. cbn. by replace pos with st by lia.
Qed.

Lemma triple_add_item gs pos it e :
  item_ok profile src it -> Raw it = mkSpan path pos e -> pos < e <= n -> gs ⊆ item_guards it ->
  triple (closed gs pos) (add_item it e) (fun _ => open e).
Proof.
  intros H1 H2 H3 H4. apply triple_modify. intros b Hb. exists e. split_and!; [done|lia..|]. unfold closed. cbn.
  by eapply QInv_add_item.
Qed.
End inv.
