(* ===== verification/ScanParse.v ===== *)
(** * ScanParse

    Every construct parser, on a builder whose items tile the source up to its
    open chunk, returns a later position in the source and leaves such a
    builder; it never panics and its fuel is enough. *)

From S2P Require Import Prelude Dialect Template SourceMap RenderInv Diagnostics Regex ScanState ScanDirectives ScanClauses ScanBodies ScanConstructs Scanner ScanLogic ScanInv.

(** ** Readers in triples *)

Lemma triple_bind_emits {A B} (m : M A) (f : A -> M B) (φ : A -> Prop) P Q :
  (forall s, runs m emits φ s) -> (forall a, φ a -> triple P (f a) Q) -> triple P (mbind_ m f) Q.
Proof.
  intros Hm Hf. eapply triple_bind; [by apply (triple_emits m φ P)|]. intros a.
  apply (triple_pure (φ a) _ _ P); [done|apply Hf].
Qed.

Lemma triple_bind_reads {A B} (m : M A) (f : A -> M B) (φ : A -> Prop) P Q :
  stable P -> (forall s, is_Some (fs_qb s) -> runs m reads φ s) -> (forall a, φ a -> triple P (f a) Q) ->
  triple P (mbind_ m f) Q.
Proof.
  intros HP Hm Hf. eapply triple_bind; [by apply (triple_reads m φ P)|]. intros a.
  apply (triple_pure (φ a) _ _ P); [done|apply Hf].
Qed.

Lemma triple_get_bind {B} (f : queryBuilder -> M B) P Q :
  (forall qb, triple P (f qb) Q) -> triple P (mbind_ get_qb f) Q.
Proof. intros Hf. eapply triple_bind; [by apply (triple_get P (fun _ => P))|]. exact Hf. Qed.

Lemma triple_gets_bind {A B} (g : fileScan -> A) (f : A -> M B) P Q :
  (forall a, triple P (f a) Q) -> triple P (mbind_ (gets g) f) Q.
Proof. intros Hf. eapply triple_bind; [apply triple_gets|]. exact Hf. Qed.

Lemma triple_then {B} (m : M unit) (k : M B) P P' Q :
  triple P m (fun _ => P') -> triple P' k Q -> triple P (m ;;; k) Q.
Proof. intros Hm Hk. eapply triple_bind; [exact Hm|]. by intros []. Qed.

(** Runs that only report, packed for [triple_bind_emits]. *)
Lemma emits_bind {A B} (m : M A) (f : A -> M B) (φ : A -> Prop) (ψ : B -> Prop) s :
  runs m emits φ s -> (forall a s', φ a -> runs (f a) emits ψ s') -> runs (mbind_ m f) emits ψ s.
Proof. intros Hm Hf. eapply runs_bind; [typeclasses eauto|exact Hm|]. eauto. Qed.

Lemma emits_ret {A} (a : A) (φ : A -> Prop) s : φ a -> runs (mret_ a) emits φ s.
Proof. by apply runs_ret, _. Qed.

Lemma emits_when_errorf c code sp format args s :
  runs (when_ c (errorf code sp format args)) emits (fun _ => True) s.
Proof. apply runs_when; [typeclasses eauto|]. intros _. apply runs_errorf. Qed.

Lemma emits_report {A} code sp format args (m : M A) φ s :
  (forall s', runs m emits φ s') -> runs (errorf code sp format args ;;; m) emits φ s.
Proof. intros Hm. eapply emits_bind; [apply runs_errorf|]. auto. Qed.

Section parse.
Context (ToUpper : bytes -> bytes) (ParseDuration : bytes -> option Z).
Context {profile : LexerProfile} {Laws : LexerLaws profile} (path src : bytes) (h : Span).

Abbreviation n := (length src).
Abbreviation sp := (span path src).
Abbreviation opened := (open (profile := profile) path src h).
Abbreviation shut := (closed (profile := profile) path src h).

(** The parser moved to a later position. *)
Definition moved (pos : nat) (p : nat) (b : queryBuilder) : Prop := pos < p <= n /\ opened p b.

Lemma moved_ret pos p : pos < p <= n -> triple (opened pos) (mret_ p) (moved pos).
Proof. intros Hp. apply triple_ret. intros b Hb. split; [done|]. eapply open_mono; [done|lia]. Qed.

Lemma span_text body off : text_of src body off -> sp off (off + length body) = mkSpan path off (off + length body).
Proof. intros [H _]. apply span_exact. lia. Qed.

(** ** Guarded blocks *)

Definition guarded_ok (guards : list GuardAtom) (pos e : nat) (it : IfPresent) : Prop :=
  IPGuards it = guards /\ IPSpan it = mkSpan path pos e /\ text_of src (IPBody it) (SStart (IPBodySpan it)).

Lemma triple_strip_item guards pos e item slot sep match_ bodyOff msg P :
  guarded_ok guards pos e item -> SStart (IPBodySpan item) = bodyOff ->
  triple P (strip_item profile path src item slot sep match_ (IPBody item) bodyOff msg)
    (fun it b => guarded_ok guards pos e it /\ P b).
Proof.
  intros (H1 & H2 & H3) <-. unfold strip_item.
  pose proof (text_of_strip (profile := profile) src _ _ match_ H3) as Ht.
  destruct (stripLeadingToken _ _ _ _) as [[stripped off] had].
  destruct had.
  - apply triple_ret. intros b Hb. split; [|done]. unfold guarded_ok. cbn [IPGuards IPSpan IPBody IPBodySpan].
    by rewrite span_text.
  - eapply triple_then; [apply triple_emit|]. apply triple_ret. by intros b Hb.
Qed.

Lemma append_last_concat {A} (x y : A) rows : y ∈ concat (append_last x rows) -> y ∈ concat rows \/ y = x.
Proof.
  unfold append_last. destruct rows as [|r rows] using rev_ind; [by left|].
  rewrite list.last_snoc, List.removelast_last, !List.concat_app. cbn. rewrite !app_nil_r, !elem_of_app, list_elem_of_singleton.
  tauto.
Qed.

Lemma QInv_inserts g cols rows q e :
  QInv profile path src h [g] q e ->
  (forall gi, gi ∈ cols ++ concat rows ->
    gi ∈ QInsertColGuards q ++ concat (QInsertValGuards q) \/ GIGuards gi = g) ->
  QInv profile path src h [g] (q_set_inserts cols rows q) e.
Proof.
  intros [] H. split; cbn; try done; [by apply (params_fresh_ext q)|].
  unfold inserts_in in *. cbn. intros gi [Hgi| ->]%H; [by apply qi_inserts|]. left.
Qed.

Lemma closed_weaken gs e b : shut [] e b -> shut gs e b.
Proof. intros []. split; try done. eapply inserts_in_mono; [|done]. set_solver. Qed.

Lemma triple_classify ctx marker pos e item bodyOff guards :
  guarded_ok guards pos e item -> SStart (IPBodySpan item) = bodyOff ->
  triple (shut [] pos) (classify_guarded ToUpper profile path src ctx marker pos e item bodyOff)
    (fun it b => guarded_ok guards pos e it /\ shut [guards] pos b).
Proof.
  intros Hit Hoff. pose proof Hit as (H1 & H2 & H3).
  assert (forall slot sep m msg, triple (shut [] pos)
    (strip_item profile path src item slot sep m (IPBody item) bodyOff msg)
    (fun it b => guarded_ok guards pos e it /\ shut [guards] pos b)) as Hstrip.
  { intros. eapply triple_conseq; [by apply triple_strip_item|done|]. intros it b [? ?].
    split; [done|by apply closed_weaken]. }
  assert (forall b : queryBuilder, shut [] pos b -> guarded_ok guards pos e item /\ shut [guards] pos b) as Hsame
    by (intros; split; [done|by apply closed_weaken]).
  unfold classify_guarded. destruct ctx; try apply Hstrip;
    try (apply triple_report, triple_ret; exact Hsame).
  - apply triple_ret. intros b Hb. split; [done|by apply closed_weaken].
  - eapply triple_bind; [apply Hstrip|]. intros it. cbv beta.
    apply triple_when_report. apply (triple_then _ _ _ (fun b => guarded_ok guards pos e it /\ shut [guards] pos b)); [|by apply triple_ret].
    apply triple_modify. intros b [Hg Hb]. split; [done|]. apply QInv_inserts; [done|]. cbn.
    intros gi. rewrite <- app_assoc, !elem_of_app, list_elem_of_singleton. destruct Hg as (<- & _).
    intros [?|[->|?]]; auto.
  - eapply triple_bind; [apply Hstrip|]. intros it. cbv beta.
    apply (triple_then _ _ _ (fun b => guarded_ok guards pos e it /\ shut [guards] pos b)); [|by apply triple_ret].
    apply triple_modify. intros b [Hg Hb]. split; [done|]. apply QInv_inserts; [done|]. cbn.
    intros gi. rewrite !elem_of_app. destruct Hg as (<- & _).
    intros [?|[?| ->]%append_last_concat]; auto.
Qed.

Lemma marker_end_bounds pos t e : marker_at src pos = Some (t, e) -> marker_end src pos = e.
Proof. unfold marker_at, marker_end. destruct (at_is src pos "@"); [|done]. by intros ->. Qed.

Lemma body_end_marker terms p r t :
  body_end src terms p r -> r.2 = Some t -> r.1 < marker_end src r.1 <= n.
Proof.
  intros [_ H] Ht. destruct (H t Ht) as [_ [e He]]. rewrite (marker_end_bounds _ _ _ He).
  by eapply marker_at_bounds.
Qed.

Lemma triple_finishGuardBlock pos after guards marker term :
  pos < after <= n ->
  triple (opened pos) (finishGuardBlock ToUpper profile path src pos after guards marker term) (moved pos).
Proof.
  intros Hp. unfold finishGuardBlock. apply triple_get_bind. intros qb. apply triple_when_report.
  eapply triple_then; [apply triple_flush|].
  eapply triple_bind_reads; [apply stable_closed|intros s Hs; apply runs_consumeBody; [lia|done]|].
  intros [bodyEnd t] Hbe. pose proof Hbe as [Hb _]. cbn [fst] in Hb.
  eapply (triple_bind_emits _ _ (fun e => after <= e <= n)).
  { intros s. destruct t as [t|].
    - apply emits_ret. pose proof (body_end_marker _ _ _ _ Hbe eq_refl). cbn in *. lia.
    - apply emits_report. intros s'. apply emits_ret. lia. }
  intros e He.
  eapply triple_bind_emits; [intros s; apply runs_trimEdges; lia|].
  intros [body off] [Ht _]. cbn [fst snd] in Ht.
  eapply triple_bind; [apply (triple_classify _ _ pos e _ _ guards)|].
  - split_and!; cbn [IPGuards IPSpan IPBody IPBodySpan]; [done|by apply span_exact; lia|]. by rewrite span_text.
  - cbn [IPBodySpan]. by rewrite span_text.
  - intros it. cbv beta. apply (triple_pure (guarded_ok guards pos e it) _ _ (shut [guards] pos)); [done|].
    intros (H1 & H2 & H3).
    eapply triple_then.
    { eapply (triple_add_item path src h [guards] pos (IIfPresent it) e); [|done|lia|cbn; rewrite H1; set_solver].
      split; [|done]. cbn. intros text o synth [= -> -> ->]%list_elem_of_singleton. by split. }
    apply triple_ret. intros b Hb'. split; [lia|done].
Qed.

Lemma emits_guard_args pos after args guards s :
  runs (guard_args path src pos after args guards) emits (fun _ => True) s.
Proof.
  revert guards s. induction args as [|a args IH]; intros guards s; cbn [guard_args]; [by apply emits_ret|].
  case_decide; [|apply IH]. by apply emits_report.
Qed.

Lemma triple_parseIfPresent pos nameEnd :
  pos < nameEnd <= n -> triple (opened pos) (parseIfPresent ToUpper profile path src pos nameEnd) (moved pos).
Proof.
  intros Hp. unfold parseIfPresent.
  eapply triple_bind_emits; [intros s; apply runs_parseArgList; lia|]. cbv beta. intros [args after] Ha. cbn in Ha.
  destruct args as [args|]; [|apply moved_ret; lia].
  eapply triple_bind_emits; [intros s; apply emits_guard_args|]. intros guards _.
  apply triple_finishGuardBlock. lia.
Qed.

(** ** [@when] *)

Lemma emits_skip p q s : q <= p <= n -> runs (skipTrivia profile path src p) emits (fun r => q <= r <= n) s.
Proof. intros Hp. eapply runs_weaken; [done| |apply runs_skipTrivia; lia]. cbn. lia. Qed.

(** [End_ t] is inside the source, after [q]. *)
Lemma emits_lex p q s :
  q <= p <= n -> runs (lexAt profile path src p) emits (fun t => q <= Start t /\ Start t <= End t <= n) s.
Proof. intros Hp. eapply runs_weaken; [done| |apply runs_lexAt; lia]. intros t [? ? _]. lia. Qed.

Lemma triple_bad pos a e format : pos < a -> a <= e <= n -> pos < e ->
  triple (opened pos) (bad (sp a e) format) (moved pos).
Proof.
  intros H1 H2 H3. unfold bad. rewrite (span_exact path src a e) by lia. apply triple_report. apply moved_ret. cbn [SEnd]. lia.
Qed.

Lemma triple_bad_tok pos q t format : pos < q -> q <= Start t /\ Start t <= End t <= n ->
  triple (opened pos) (bad (sp (Start t) (End t)) format) (moved pos).
Proof. intros Hq Ht. apply triple_bad; lia. Qed.

Lemma triple_parseWhen pos nameEnd :
  pos < nameEnd <= n -> triple (opened pos) (parseWhen ToUpper profile path src pos nameEnd) (moved pos).
Proof.
  intros Hp. unfold parseWhen. destruct (at_is src nameEnd "(") eqn:Ea; cbn [negb].
  2: { unfold bad. rewrite (span_exact path src pos nameEnd) by lia. apply triple_report, moved_ret. cbn [SEnd]. lia. }
  apply at_is_lt in Ea.
  eapply triple_bind_emits; [intros s; apply (emits_skip _ nameEnd); lia|]. cbv beta. intros p1 Hp1.
  eapply triple_bind_emits; [intros s; apply (emits_lex _ nameEnd); lia|]. cbv beta. intros ident Hi.
  destruct (negb _); [by apply (triple_bad_tok _ nameEnd); [lia|]|].
  apply triple_when_report.
  eapply triple_bind_emits; [intros s; apply (emits_skip _ nameEnd); lia|]. cbv beta. intros p2 Hp2.
  eapply triple_bind_emits; [intros s; apply (emits_lex _ nameEnd); lia|]. cbv beta. intros op Ho.
  destruct (negb _); [by apply (triple_bad_tok _ nameEnd); [lia|]|]. cbv zeta.
  eapply triple_bind_emits; [intros s; apply (emits_skip _ nameEnd); lia|]. cbv beta. intros p3 Hp3.
  eapply triple_bind_emits; [intros s; apply (emits_lex _ nameEnd); lia|]. cbv beta. intros lit Hl.
  destruct (when_literal lit) as [value kind raw|code e|].
  - eapply triple_bind_emits; [intros s; apply (emits_skip _ nameEnd); lia|]. cbv beta. intros p4 Hp4.
    eapply triple_bind_emits; [intros s; apply (emits_lex _ nameEnd); lia|]. cbv beta. intros rp Hr.
    destruct (negb _); [by apply (triple_bad_tok _ nameEnd); [lia|]|].
    apply triple_finishGuardBlock. lia.
  - unfold bad_literal. eapply triple_then; [apply triple_emit|].
    rewrite (span_exact path src (Start lit) (End lit)) by lia. apply moved_ret. cbn [SEnd]. lia.
  - by apply (triple_bad_tok _ nameEnd); [lia|].
Qed.

(** ** Blocks of cases *)

Lemma emits_one_arg name start p msg s :
  p <= n -> runs (one_arg profile path src name start p msg) emits (fun r => p <= r.2 <= n) s.
Proof.
  intros Hp. unfold one_arg. eapply emits_bind; [by apply runs_parseArgList|].
  intros [args after] s' Ha. cbn in Ha. destruct args as [[|a [|? ?]]|]; try (by apply emits_ret);
    by apply emits_report; intros; apply emits_ret.
Qed.

Lemma emits_check_lead p msg s :
  p <= n -> runs (check_lead profile path src p msg) emits (fun _ => True) s.
Proof.
  intros Hp. unfold check_lead. eapply emits_bind; [by apply runs_skipTrivia|]. intros lead s' _.
  apply emits_when_errorf.
Qed.

Lemma emits_entry_body p terms s :
  p <= n -> runs (entry_body profile path src p terms) emits (fun r => text_of src r.1 r.2) s.
Proof.
  intros Hp. unfold entry_body. eapply emits_bind; [by apply runs_peekBodyEnd|]. cbv beta. intros e s' He.
  eapply runs_weaken; [done| |apply runs_trimEdges; lia]. by intros [] [? _].
Qed.

(** The texts of an item are those of the source. *)
Definition text_ok (t : bytes * nat * bool) : Prop := t.2 = false /\ text_of src t.1.1 t.1.2.

Lemma item_ok_texts it :
  Forall text_ok (item_texts it) ->
  match it with
  | ISkeleton _ => False
  | IFilterTree f => Forall (fun p => PrParams p = distinct_params profile (PrBody p)) (FtPredicates f)
  | _ => True
  end -> item_ok profile src it.
Proof.
  rewrite Forall_forall. intros H Hit. split; [|by destruct it]. intros text off synth Hin%list_elem_of_In.
  by apply (H _ Hin).
Qed.

Lemma body_text_ok body off : text_of src body off -> text_ok (body, SStart (body_span path src body off), false).
Proof. intros H. split; [done|]. cbn [fst snd]. unfold body_span. by rewrite span_text. Qed.

Abbreviation texts_ok it := (Forall text_ok (item_texts it)).

Lemma texts_add_case c v : text_ok (CCBody c, SStart (CCSpan c), false) -> texts_ok (IChoose v) ->
  texts_ok (IChoose (mkChoose (ChParam v) (ChCases v ++ [c]) (ChDefault v) (ChSlot v) (ChSpan v))).
Proof.
  intros Hc. cbn [item_texts ChCases ChDefault]. rewrite fmap_app, !Forall_app. intros [? ?].
  split_and!; [done|by constructor|done].
Qed.

Lemma texts_set_default c v : text_ok (CCBody c, SStart (CCSpan c), false) -> texts_ok (IChoose v) ->
  texts_ok (IChoose (mkChoose (ChParam v) (ChCases v) (Some c) (ChSlot v) (ChSpan v))).
Proof.
  intros Hc. cbn [item_texts ChCases ChDefault]. rewrite !Forall_app. intros [? ?]. split; [done|by constructor].
Qed.

Lemma texts_add_key k v : text_ok (OKBody k, SStart (OKSpan k), false) -> texts_ok (IOrderBy v) ->
  texts_ok (IOrderBy (mkOrderBy (ObParam v) (ObKeys v ++ [k]) (ObDefault v) (ObSpan v))).
Proof.
  intros Hc. cbn [item_texts ObKeys ObDefault]. rewrite fmap_app, !Forall_app. intros [? ?].
  split_and!; [done|by constructor|done].
Qed.

Lemma texts_order_default c v : text_ok (CCBody c, SStart (CCSpan c), false) -> texts_ok (IOrderBy v) ->
  texts_ok (IOrderBy (mkOrderBy (ObParam v) (ObKeys v) (Some c) (ObSpan v))).
Proof.
  intros Hc. cbn [item_texts ObKeys ObDefault]. rewrite !Forall_app. intros [? ?]. split; [done|by constructor].
Qed.

(** What the loops over the entries of a block return: a block whose texts are
    the source's, an offset not before the loop's. *)
Definition entries_ok {A} (mk_item : A -> Item) (p : nat) (r : A * nat) : Prop :=
  texts_ok (mk_item r.1) /\ p <= r.2 <= n.

Lemma entries_weaken {A} (mk_item : A -> Item) p p' r : p <= p' -> entries_ok mk_item p' r -> entries_ok mk_item p r.
Proof. intros Hp [? ?]. split; [done|lia]. Qed.

Lemma reads_step {A B} (m : M A) (f : A -> M B) (φ : A -> Prop) (ψ : B -> Prop) s :
  is_Some (fs_qb s) -> runs m reads φ s -> (forall a s', is_Some (fs_qb s') -> φ a -> runs (f a) reads ψ s') ->
  runs (mbind_ m f) reads ψ s.
Proof.
  intros Hs Hm Hf. eapply runs_bind; [typeclasses eauto|exact Hm|]. intros a s' Hs' Ha. apply Hf; [|done].
  by eapply reads_qb.
Qed.

Lemma reads_emits_step {A B} (m : M A) (f : A -> M B) (φ : A -> Prop) (ψ : B -> Prop) s :
  is_Some (fs_qb s) -> runs m emits φ s -> (forall a s', is_Some (fs_qb s') -> φ a -> runs (f a) reads ψ s') ->
  runs (mbind_ m f) reads ψ s.
Proof. intros Hs Hm. by apply reads_step, runs_reads. Qed.

Lemma reads_ret {A} (a : A) (φ : A -> Prop) s : φ a -> runs (mret_ a) reads φ s.
Proof. by apply runs_ret, _. Qed.

(** A report in a run of readers. *)
Lemma reads_report {B} c code sp0 format args (k : M B) ψ s :
  is_Some (fs_qb s) -> (forall s', is_Some (fs_qb s') -> runs k reads ψ s') ->
  runs (when_ c (errorf code sp0 format args) ;;; k) reads ψ s.
Proof. intros Hs Hk. eapply reads_emits_step; [done|apply emits_when_errorf|]. auto. Qed.

(** The next round of a loop over entries. *)
Ltac again IH :=
  eapply runs_weaken; [done| |apply IH; [done|lia|lia|]]; [intros ?; apply entries_weaken; lia|].

Lemma runs_choose_loop pos nameEnd fuel p item names d s :
  is_Some (fs_qb s) -> p <= n -> n < fuel + p -> texts_ok (IChoose item) ->
  runs (choose_loop profile path src pos nameEnd fuel p item names d) reads (entries_ok IChoose p) s.
Proof.
  revert p item names d s. induction fuel as [|f IH]; intros p item names d s Hs Hp Hf Hit; [lia|].
  cbn [choose_loop].
  eapply reads_step; [done|by apply runs_consumeBody|]. intros [be t] s1 Hs1 Hbe. pose proof Hbe as [Hb _].
  cbn [fst] in Hb. destruct t as [t|].
  2: { eapply reads_emits_step; [done|apply runs_errorf|]. intros _ s2 _ _. by apply reads_ret. }
  pose proof (body_end_marker _ _ _ _ Hbe eq_refl) as Hm. cbn [fst] in Hm. cbv zeta.
  case_decide; [apply reads_ret; split; [done|cbn; lia]|]. case_decide.
  - apply reads_report; [done|]. intros s2 Hs2.
    eapply reads_emits_step; [done|apply emits_one_arg; lia|]. intros [name after] s3 Hs3 Ha. cbn in Ha.
    destruct name as [name|].
    + apply reads_report; [done|]. intros s4 Hs4.
      eapply reads_emits_step; [done|apply emits_entry_body; lia|]. intros [body off] s5 Hs5 Hbody.
      again IH. apply texts_add_case; [by apply body_text_ok|done].
    + again IH. done.
  - apply reads_report; [done|]. intros s2 Hs2.
    eapply reads_emits_step; [done|apply emits_entry_body; lia|]. intros [body off] s5 Hs5 Hbody.
    again IH. apply texts_set_default; [by apply body_text_ok|done].
Qed.

Lemma runs_order_loop pos nameEnd fuel p item names d s :
  is_Some (fs_qb s) -> p <= n -> n < fuel + p -> texts_ok (IOrderBy item) ->
  runs (order_loop ToUpper profile path src pos nameEnd fuel p item names d) reads (entries_ok IOrderBy p) s.
Proof.
  revert p item names d s. induction fuel as [|f IH]; intros p item names d s Hs Hp Hf Hit; [lia|].
  cbn [order_loop].
  eapply reads_step; [done|by apply runs_consumeBody|]. intros [be t] s1 Hs1 Hbe. pose proof Hbe as [Hb _].
  cbn [fst] in Hb. destruct t as [t|].
  2: { eapply reads_emits_step; [done|apply runs_errorf|]. intros _ s2 _ _. by apply reads_ret. }
  pose proof (body_end_marker _ _ _ _ Hbe eq_refl) as Hm. cbn [fst] in Hm. cbv zeta.
  case_decide; [apply reads_ret; split; [done|cbn; lia]|]. case_decide.
  - apply reads_report; [done|]. intros s2 Hs2.
    eapply reads_emits_step; [done|apply emits_one_arg; lia|]. intros [name after] s3 Hs3 Ha. cbn in Ha.
    destruct name as [name|].
    + apply reads_report; [done|]. intros s4 Hs4.
      eapply reads_emits_step; [done|apply emits_entry_body; lia|]. intros [body off] s5 Hs5 Hbody.
      apply reads_report; [done|]. intros s6 Hs6.
      again IH. apply texts_add_key; [by apply body_text_ok|done].
    + again IH. done.
  - apply reads_report; [done|]. intros s2 Hs2.
    eapply reads_emits_step; [done|apply emits_entry_body; lia|]. intros [body off] s5 Hs5 Hbody.
    apply reads_report; [done|]. intros s6 Hs6.
    again IH. apply texts_order_default; [by apply body_text_ok|done].
Qed.

(** A filter tree also knows the parameters of its predicates. *)
Definition tree_ok (f : FilterTree) : Prop :=
  texts_ok (IFilterTree f) /\ Forall (fun p => PrParams p = distinct_params profile (PrBody p)) (FtPredicates f).

Lemma runs_tree_loop pos nameEnd fuel p item names s :
  is_Some (fs_qb s) -> p <= n -> n < fuel + p -> tree_ok item ->
  runs (tree_loop profile path src pos nameEnd fuel p item names) reads
    (fun r => tree_ok r.1 /\ p <= r.2 <= n) s.
Proof.
  revert p item names s. induction fuel as [|f IH]; intros p item names s Hs Hp Hf Hit; [lia|].
  cbn [tree_loop].
  eapply reads_step; [done|by apply runs_consumeBody|]. intros [be t] s1 Hs1 Hbe. pose proof Hbe as [Hb _].
  cbn [fst] in Hb. destruct t as [t|].
  2: { eapply reads_emits_step; [done|apply runs_errorf|]. intros _ s2 _ _. by apply reads_ret. }
  pose proof (body_end_marker _ _ _ _ Hbe eq_refl) as Hm. cbn [fst] in Hm. cbv zeta.
  case_decide; [apply reads_ret; split; [done|cbn; lia]|].
  eapply reads_emits_step; [done|apply emits_one_arg; lia|]. intros [name after] s3 Hs3 Ha. cbn in Ha.
  assert (forall item' names' s', is_Some (fs_qb s') -> tree_ok item' ->
    runs (tree_loop profile path src pos nameEnd f after item' names') reads
      (fun r => tree_ok r.1 /\ p <= r.2 <= n) s') as Hnext.
  { intros item' names' s' Hs' Hit'. eapply runs_weaken; [done| |apply IH; [done|lia|lia|done]].
    intros r [? ?]. split; [done|lia]. }
  destruct name as [name|]; [|by apply Hnext].
  apply reads_report; [done|]. intros s4 Hs4.
  eapply reads_emits_step; [done|apply emits_entry_body; lia|]. intros [body off] s5 Hs5 Hbody.
  apply reads_report; [done|]. intros s6 Hs6.
  apply Hnext; [done|]. destruct Hit as [H1 H2]. unfold tree_ok. cbn [item_texts FtPredicates] in *.
  rewrite fmap_app, !Forall_app. split_and!; [done| |done|by constructor].
  constructor; [|done]. by apply body_text_ok.
Qed.

Lemma emits_mfor {A} (f : A -> M unit) xs s :
  (forall x s', x ∈ xs -> runs (f x) emits (fun _ => True) s') -> runs (mfor f xs) emits (fun _ => True) s.
Proof. intros H. apply runs_mfor; [typeclasses eauto|]. auto. Qed.

Lemma emits_case_keywords cases kw s :
  runs (case_keywords ToUpper profile cases kw) emits (fun _ => True) s.
Proof.
  revert kw s. induction cases as [|c cases IH]; intros kw s; cbn [case_keywords]; [by apply emits_ret|].
  repeat case_decide; try apply IH; apply emits_report; intros; by apply emits_ret.
Qed.

Lemma emits_classifyChoose item inp s :
  runs (classifyChoose ToUpper profile item inp) emits (fun _ => True) s.
Proof.
  unfold classifyChoose. destruct inp.
  - eapply emits_bind; [apply emits_mfor|]; [intros; apply emits_when_errorf|]. intros; by apply emits_ret.
  - eapply emits_bind; [apply emits_case_keywords|]. intros [kw|] s' _; [|by apply emits_ret].
    destruct (ChDefault item); [|by apply emits_ret]. case_decide; [|by apply emits_ret].
    apply emits_report. intros; by apply emits_ret.
Qed.

Lemma triple_neutral f e : neutral f -> triple (opened e) (modify_qb f) (fun _ => opened e).
Proof. intros Hf. apply triple_modify. intros b. by apply neutral_open. Qed.

Lemma triple_benign f e : benign (profile := profile) path src h f -> triple (opened e) (modify_q f) (fun _ => opened e).
Proof. intros Hf. apply triple_modify_q. intros b. by apply benign_open. Qed.

(** The end of a block of cases: its item is added, the next chunk opens. *)
Lemma triple_block_end pos e it :
  item_ok profile src it -> Raw it = sp pos e -> pos < e <= n ->
  triple (shut [] pos) (add_item it e ;;; mret_ e) (moved pos).
Proof.
  intros Hit Hraw He. rewrite span_exact in Hraw by lia.
  eapply triple_then; [eapply (triple_add_item path src h []); [done|done|lia|set_solver]|].
  apply triple_ret. intros b Hb. split; [lia|done].
Qed.

Lemma neutral_ctx c : neutral (set_ctx c).
Proof. by intros b. Qed.

Lemma triple_parseChoose pos nameEnd :
  pos < nameEnd <= n -> triple (opened pos) (parseChoose ToUpper profile path src pos nameEnd) (moved pos).
Proof.
  intros Hp. unfold parseChoose.
  eapply triple_bind_emits; [intros s; apply emits_one_arg; lia|]. cbv beta. intros [arg after] Ha. cbn in Ha.
  destruct arg as [arg|]; [|apply moved_ret; lia].
  apply triple_get_bind. intros qb. apply triple_when_report, triple_when_report.
  eapply triple_then; [apply triple_flush|].
  eapply triple_bind_emits; [intros s; apply emits_check_lead; lia|]. intros _ _.
  eapply triple_bind_reads; [apply stable_closed|intros s Hs; apply runs_choose_loop; [done|lia|unfold src_fuel; lia|constructor]|].
  intros [item e] [Hit He]. cbn [fst snd] in Hit, He. apply triple_when_report.
  eapply triple_bind_emits; [intros s; apply emits_classifyChoose|]. intros slot _. cbv zeta.
  set (it := IChoose _).
  assert (item_ok profile src it) as Hok by by apply item_ok_texts.
  assert (Raw it = mkSpan path pos e) as Hraw by (apply span_exact; lia).
  apply (triple_then _ _ _ (shut [] e)).
  { apply triple_modify_q. intros b Hb. eapply QInv_add_item; [exact Hb|done|done|lia|set_solver]. }
  apply (triple_then _ _ _ (shut [] e)).
  { destruct slot; try (by apply triple_ret); apply triple_modify; intros b Hb; exact (benign_mark_tail path src h pos ltac:(lia) [] e _ Hb). }
  apply (triple_then _ _ _ (opened e)).
  { apply triple_modify. intros b Hb. exists e. split_and!; [done|lia..|done]. }
  apply triple_ret. intros b Hb. split; [lia|done].
Qed.

Lemma triple_parseOrderBy pos nameEnd :
  pos < nameEnd <= n -> triple (opened pos) (parseOrderBy ToUpper profile path src pos nameEnd) (moved pos).
Proof.
  intros Hp. unfold parseOrderBy.
  eapply triple_bind_emits; [intros s; apply emits_one_arg; lia|]. cbv beta. intros [arg after] Ha. cbn in Ha.
  destruct arg as [arg|]; [|apply moved_ret; lia].
  apply triple_get_bind. intros qb. apply triple_when_report, triple_when_report.
  eapply triple_then; [apply triple_flush|].
  eapply triple_bind_emits; [intros s; apply emits_check_lead; lia|]. intros _ _.
  eapply triple_bind_reads; [apply stable_closed|intros s Hs; apply runs_order_loop; [done|lia|unfold src_fuel; lia|constructor]|].
  intros [item e] [Hit He]. cbn [fst snd] in Hit, He. apply triple_when_report. cbv zeta.
  apply (triple_then _ _ _ (shut [] pos)); [apply triple_modify; intros b; by apply neutral_closed|].
  apply triple_block_end; [by apply item_ok_texts|done|lia].
Qed.

Lemma triple_parseFilterTree pos nameEnd :
  pos < nameEnd <= n -> triple (opened pos) (parseFilterTree ToUpper profile path src pos nameEnd) (moved pos).
Proof.
  intros Hp. unfold parseFilterTree. cbv zeta.
  set (p := if at_is src nameEnd "!" then nameEnd + 1 else nameEnd).
  assert (nameEnd <= p <= n) as Hle.
  { unfold p. destruct (at_is src nameEnd "!") eqn:E; [apply at_is_lt in E|]; lia. }
  eapply triple_bind_emits; [intros s; apply emits_one_arg; lia|]. cbv beta. intros [arg after] Ha. cbn in Ha.
  destruct arg as [arg|]; [|apply moved_ret; lia].
  apply triple_get_bind. intros qb. apply triple_when_report.
  apply (triple_then _ _ _ (opened pos)).
  { destruct (_ && _)%bool; [apply triple_errorf|]. apply triple_when; [intros _; apply triple_emit|done]. }
  apply triple_when_report.
  eapply triple_then; [apply triple_flush|].
  eapply triple_bind_emits; [intros s; apply emits_check_lead; lia|]. intros _ _.
  eapply triple_bind_reads; [apply stable_closed|intros s Hs; apply runs_tree_loop; [done|lia|unfold src_fuel; lia|split; constructor]|].
  intros [item e] [[Hit Hps] He]. cbn [fst snd] in Hit, Hps, He. apply triple_when_report.
  apply triple_block_end; [by apply item_ok_texts|done|lia].
Qed.

Lemma benign_mark_in name : benign (profile := profile) path src h (mark_in name).
Proof.
  intros gs e q Hq. unfold mark_in. destruct (QParams q !! name) as [p|] eqn:Ep; [|done].
  destruct (list.last _) as [o|]; [|done]. cbv zeta. pose proof (qi_params _ _ _ _ _ _ _ Hq) as [[H1 H2 H3] H4].
  destruct Hq. split; try done. split; [split|]; cbn.
  - done.
  - intros m. rewrite H2. destruct (decide (m = name)) as [->|]; [|by rewrite lookup_insert_ne].
    rewrite lookup_insert_eq, Ep. split; by eexists.
  - intros m p'. destruct (decide (m = name)) as [->|]; [|rewrite lookup_insert_ne by done; apply H3].
    rewrite lookup_insert_eq. intros [= <-]. exact (H3 name p Ep).
  - intros m p'. destruct (decide (m = name)) as [->|]; [|rewrite lookup_insert_ne by done; apply H4].
    rewrite lookup_insert_eq. intros [= <-]. exact (H4 name p Ep).
Qed.

Lemma triple_parseIn pos nameEnd :
  pos < nameEnd <= n -> triple (opened pos) (parseIn profile path src pos nameEnd) (moved pos).
Proof.
  intros Hp. unfold parseIn. destruct (at_is src nameEnd "(") eqn:Ea; cbn [negb].
  2: { apply triple_report, moved_ret. lia. }
  apply at_is_lt in Ea.
  eapply triple_bind_emits; [intros s; apply (emits_skip _ nameEnd); lia|]. cbv beta. intros p1 Hp1.
  eapply triple_bind_emits; [intros s; apply (emits_lex _ nameEnd); lia|]. cbv beta. intros tok Ht.
  destruct (negb _); [apply triple_report, moved_ret; lia|]. cbv zeta.
  eapply triple_bind_emits; [intros s; apply (emits_skip _ nameEnd); lia|]. cbv beta. intros p2 Hp2.
  eapply triple_bind_emits; [intros s; apply (emits_lex _ nameEnd); lia|]. cbv beta. intros rp Hr.
  destruct (negb _); [apply triple_report, moved_ret; lia|].
  apply triple_get_bind. intros qb. apply triple_when_report, triple_when_report.
  eapply triple_bind_reads; [apply stable_open|intros s Hs; by apply runs_recordParam|]. intros _ _.
  eapply triple_then; [apply triple_benign, benign_mark_in|].
  eapply triple_then; [apply triple_flush|].
  apply triple_block_end; [by apply item_ok_texts|done|lia].
Qed.
End parse.
