(* ===== verification/ScanFinal.v ===== *)
(** * ScanFinal

    The end of a query: what [finalize] makes of a builder whose items tile the
    source - the finished query, its guard bits, and the limits a file without
    reports keeps to. *)

From S2P Require Import Prelude Dialect Template RenderInv SourceMap Shape Diagnostics Regex Lexical ScanState ScanDirectives ScanClauses ScanBodies ScanConstructs Scanner ScanLogic ScanInv ScanParse.

(** ** Checks *)

(** [m] only reports, and reports unless [φ]. *)
Definition checks (m : M unit) (φ : Prop) : Prop :=
  forall s, RInv s -> exists s', m s = Ok (tt, s') /\ emits s s' /\ (fs_diags s' = [] -> φ).

Lemma emit_reported d s : RInv s -> exists s', emit d s = Ok (tt, s') /\ emits s s' /\ fs_diags s' <> [].
Proof.
  intros Hs. destruct (emit_spec d s) as (s' & H1 & H2 & H3). exists s'. split_and!; [done..|].
  intros E. specialize (H3 Hs). rewrite E in H3. unfold code_count in H3. cbn in H3. lia.
Qed.

Lemma prefix_nil {A} (l l' : list A) : l `prefix_of` l' -> l' = [] -> l = [].
Proof. intros [k ->] H. by apply app_eq_nil in H as [-> _]. Qed.

Lemma checks_ret : checks (mret_ tt) True.
Proof. intros s _. exists s. split_and!; [done|reflexivity|done]. Qed.

Lemma checks_emit d : checks (emit d) False.
Proof. intros s Hs. destruct (emit_reported d s Hs) as (s' & ? & ? & ?). by exists s'. Qed.

Lemma checks_when c m φ : checks m φ -> checks (when_ c m) (c = true -> φ).
Proof.
  intros Hm. destruct c; cbn; intros s Hs.
  - destruct (Hm s Hs) as (s' & H1 & H2 & H3). exists s'. auto.
  - exists s. split_and!; [done|reflexivity|done].
Qed.

Lemma checks_weaken m (φ ψ : Prop) : (φ -> ψ) -> checks m φ -> checks m ψ.
Proof. intros Hi Hm s Hs. destruct (Hm s Hs) as (s' & ? & ? & ?). exists s'. auto. Qed.

Lemma checks_seq m1 m2 φ ψ : checks m1 φ -> checks m2 ψ -> checks (m1 ;;; m2) (φ /\ ψ).
Proof.
  intros H1 H2 s Hs. destruct (H1 s Hs) as (s1 & E1 & R1 & P1).
  destruct (H2 s1) as (s2 & E2 & R2 & P2); [by apply R1|].
  exists s2. split_and!; [unfold mbind_; by rewrite E1|by etrans|]. intros E. split; [|auto].
  apply P1. eapply prefix_nil; [apply R2|done].
Qed.

Lemma checks_mfor {A} (f : A -> M unit) (φ : A -> Prop) xs :
  (forall x, checks (f x) (φ x)) -> checks (mfor f xs) (Forall φ xs).
Proof.
  intros Hf. induction xs as [|x xs IH]; cbn.
  - eapply checks_weaken; [|apply checks_ret]. by constructor.
  - eapply checks_weaken; [|apply checks_seq; [apply Hf|exact IH]]. intros []. by constructor.
Qed.

(** A check is a triple on any builder. *)
Lemma checks_triple m φ P s b :
  checks m φ -> RInv s -> fs_qb s = Some b -> P b ->
  exists s', m s = Ok (tt, s') /\ frame s s' /\ fs_qb s' = Some b /\ (fs_diags s' = [] -> φ).
Proof.
  intros Hm Hs Hb _. destruct (Hm s Hs) as (s' & H1 & H2 & H3). exists s'.
  split_and!; [done|by apply reads_frame, emits_reads| |done]. by rewrite (em_qb _ _ H2).
Qed.

Section limits.
Context (ToUpper : bytes -> bytes) (profile : LexerProfile).

Lemma checks_tail items : checks (checkFilterTreeTail ToUpper profile items) True.
Proof.
  induction items as [|it items IH]; [apply checks_ret|].
  assert (checks (checkFilterTreeTail ToUpper profile (it :: items)) True \/
    exists c d, checkFilterTreeTail ToUpper profile (it :: items)
      = (when_ c (emit d) ;;; checkFilterTreeTail ToUpper profile items)) as [H|(c & d & ->)]; [|done|].
  { destruct it; try (left; exact IH). destruct items as [|[] items]; try (left; exact IH). right. by eexists _, _. }
  eapply checks_weaken; [|apply checks_seq; [apply checks_when, checks_emit|exact IH]]. done.
Qed.

(** The limits on the blocks of a query. *)
Definition block_limits (items : list Item) : Prop :=
  Forall (fun it => match it with
    | IChoose c => ordinals c <= MaxChooseOrdinals
    | IOrderBy o => length (ObKeys o) <= MaxOrderKeys
    | _ => True
    end) items.

Lemma checks_item_limits it : checks (check_item_limits it) match it with
    | IChoose c => ordinals c <= MaxChooseOrdinals
    | IOrderBy o => length (ObKeys o) <= MaxOrderKeys
    | _ => True
    end.
Proof.
  destruct it as [| |c|o| |]; try apply checks_ret; unfold check_item_limits; cbv zeta;
    (eapply checks_weaken; [|apply checks_when, checks_emit]); intros H.
  - apply not_true_iff_false, Nat.ltb_ge in H. unfold ordinals. cbv zeta.
    destruct (ChDefault c); destruct (Nat.eqb _ 0); unfold MaxChooseOrdinals in *; lia.
  - apply not_true_iff_false, Nat.ltb_ge in H. done.
Qed.

Lemma checks_limits q :
  checks (checkEncodingLimits q) ((N.of_nat (length (QParamOrder q)) <= MaxParams)%N /\ block_limits (QItems q)).
Proof.
  eapply checks_weaken; [|apply checks_seq; [apply checks_when, checks_emit|apply checks_mfor, checks_item_limits]].
  intros [H1 H2]. split; [|done]. apply not_true_iff_false, N.ltb_ge in H1. done.
Qed.
End limits.

(** ** Guard bits *)

(** The values of a list in the order of their first occurrences, after [out]. *)
Definition firsts (out l : list GuardAtom) : list GuardAtom :=
  foldl (fun out g => if decide (g ∈ out) then out else out ++ [g]) out l.

Lemma firsts_prefix out l : out `prefix_of` firsts out l.
Proof.
  revert out. induction l as [|g l IH]; intros out; [done|]. cbn. case_decide; [apply IH|].
  etrans; [|apply IH]. by eexists.
Qed.

Lemma firsts_elem out l g : g ∈ firsts out l <-> g ∈ out \/ g ∈ l.
Proof.
  revert out. induction l as [|x l IH]; intros out; cbn; [set_solver|]. case_decide; rewrite IH; set_solver.
Qed.

Lemma firsts_nodup out l : NoDup out -> NoDup (firsts out l).
Proof.
  revert out. induction l as [|x l IH]; intros out Ho; cbn; [done|]. case_decide; [by apply IH|].
  apply IH, list.NoDup_app. split_and!; [done| |apply NoDup_singleton]. set_solver.
Qed.

(** The bit of the last atom about a parameter, -1 when there is none. *)
Definition bit_of (atoms : list GuardAtom) (name : bytes) (bit : Z) : Prop :=
  (bit = (-1)%Z /\ forall g, g ∈ atoms -> GParam g <> name) \/
  exists i g, bit = Z.of_nat i /\ atoms !! i = Some g /\ GParam g = name /\
    forall j g', atoms !! j = Some g' -> GParam g' = name -> j <= i.

Lemma bit_of_snoc atoms g name bit :
  bit_of atoms name bit ->
  bit_of (atoms ++ [g]) name (if decide (GParam g = name) then Z.of_nat (length atoms) else bit).
Proof.
  intros H. case_decide as Eg.
  - right. exists (length atoms), g. split_and!; [done|by rewrite lookup_app_r, Nat.sub_diag by lia|done|].
    intros j g' Hj%lookup_lt_Some _. rewrite length_app in Hj. cbn in Hj. lia.
  - destruct H as [[-> H]|(i & x & -> & H1 & H2 & H3)].
    + left. split; [done|]. intros x [?| ->%list_elem_of_singleton]%elem_of_app; auto.
    + right. exists i, x. split_and!; [done|by apply lookup_app_l_Some|done|].
      intros j g' Hj Hg. apply lookup_app_Some in Hj as [Hj|[Hl Hj]]; [by eapply H3|].
      apply list_lookup_singleton_Some in Hj as [_ ->]. done.
Qed.

(** A query whose guard bits are assigned for its atoms. *)
Record bits_inv (q : QueryTemplate) : Prop := {
  bi_params : params_inv q;
  bi_bits name p : QParams q !! name = Some p -> bit_of (QGuardAtoms q) name (PGuardBit p);
  bi_declared g : g ∈ QGuardAtoms q -> GParam g ∈ QParamOrder q;
  bi_nodup : NoDup (QGuardAtoms q);
  bi_limit : length (QGuardAtoms q) <= MaxGuards;
}.

Lemma bits_assign g q :
  g ∉ QGuardAtoms q -> length (QGuardAtoms q) < MaxGuards -> bits_inv q -> bits_inv (assign_bit g q).
Proof.
  intros Hg Hlen [[P1 P2 P3] B1 B2 B3 B4]. unfold assign_bit. cbv zeta.
  set (order := match QParams q !! GParam g with Some _ => QParamOrder q | None => QParamOrder q ++ [GParam g] end).
  assert (forall m, m ∈ order <-> m ∈ QParamOrder q \/ m = GParam g) as Ho.
  { intros m. unfold order. destruct (QParams q !! GParam g) eqn:E; [|set_solver].
    split; [by left|]. intros [?| ->]; [done|]. rewrite P2, E. by eexists. }
  set (p0 := default (mkParam (GParam g) [] (-1) false []) (QParams q !! GParam g)).
  assert (PName p0 = GParam g /\ POptional p0 = false /\ PPolicy p0 = []) as Hp0.
  { unfold p0. destruct (QParams q !! GParam g) as [p|] eqn:E; [by eapply P3|done]. }
  split; cbn.
  - split; cbn.
    + unfold order. destruct (QParams q !! GParam g) eqn:E; [done|]. apply list.NoDup_app.
      split_and!; [done| |apply NoDup_singleton]. intros x Hx ->%list_elem_of_singleton.
      apply P2 in Hx as [? Hx]. congruence.
    + intros m. rewrite Ho, P2. destruct (decide (m = GParam g)) as [->|].
      * rewrite lookup_insert_eq. split; [by eexists|by right].
      * rewrite lookup_insert_ne by done. naive_solver.
    + intros m p. destruct (decide (m = GParam g)) as [->|].
      * rewrite lookup_insert_eq. by intros [= <-].
      * rewrite lookup_insert_ne by done. apply P3.
  - intros m p. destruct (decide (m = GParam g)) as [->|Hne].
    + rewrite lookup_insert_eq. intros [= <-]. cbn.
      assert (forall bit, bit_of (QGuardAtoms q) (GParam g) bit ->
        bit_of (QGuardAtoms q ++ [g]) (GParam g) (Z.of_nat (length (QGuardAtoms q)))) as Hs
        by (intros bit Hb; apply (bit_of_snoc _ g) in Hb; by rewrite decide_True in Hb).
      destruct (QParams q !! GParam g) as [p1|] eqn:E; [by eapply Hs, B1|].
      apply (Hs (-1)%Z). left. split; [done|]. intros x Hx Ex. apply B2 in Hx. rewrite Ex, P2, E in Hx. by destruct Hx.
    + rewrite lookup_insert_ne by done. intros Hp%B1. apply (bit_of_snoc _ g) in Hp.
      by rewrite decide_False in Hp by done.
  - intros x [?%B2| ->%list_elem_of_singleton]%elem_of_app; apply Ho; auto.
  - apply list.NoDup_app. split_and!; [done| |apply NoDup_singleton]. set_solver.
  - rewrite length_app. cbn. lia.
Qed.

(** The query but its parameters and atoms. *)
Definition skeleton_of (q : QueryTemplate) : QueryTemplate := q_set_params [] ∅ (q_set_atoms [] q).

Lemma assign_bits_spec atoms s b :
  RInv s -> fs_qb s = Some b -> bits_inv (qb_q b) ->
  exists s' b', assign_bits atoms s = Ok (tt, s') /\ frame s s' /\ fs_qb s' = Some b' /\
    bits_inv (qb_q b') /\ skeleton_of (qb_q b') = skeleton_of (qb_q b) /\
    QGuardAtoms (qb_q b') = take MaxGuards (firsts (QGuardAtoms (qb_q b)) (fst <$> atoms)) /\
    (fs_diags s' = [] -> length (firsts (QGuardAtoms (qb_q b)) (fst <$> atoms)) <= MaxGuards) /\
    length (QParamOrder (qb_q b')) + length (QGuardAtoms (qb_q b))
      <= length (QParamOrder (qb_q b)) + length (QGuardAtoms (qb_q b')).
Proof.
  revert s b. induction atoms as [|[g sp] atoms IH]; intros s b Hs Hb Hq.
  { exists s, b. cbn [assign_bits fmap list_fmap firsts foldl]. split_and!; try done; [|by intros _; apply (bi_limit _ Hq)].
    symmetry. apply take_ge, (bi_limit _ Hq). }
  cbn [assign_bits]. unfold mbind_ at 1, get_qb. rewrite Hb. cbn [fmap list_fmap]. unfold firsts. cbn [foldl fst].
  case_decide as Hg; [by apply IH|].
  destruct (Nat.leb_spec MaxGuards (length (QGuardAtoms (qb_q b)))) as [Hl|Hl].
  - destruct (emit_reported (Errorf CodeTooManyGuards sp "a query may have at most %d guard conditions" [AInt (Z.of_nat MaxGuards)]) s Hs)
      as (s' & H1 & H2 & H3).
    exists s', b. unfold errorf. split_and!; [done|by apply reads_frame, emits_reads|by rewrite (em_qb _ _ H2)|done|done| |done|done].
    pose proof (firsts_prefix (QGuardAtoms (qb_q b) ++ [g]) (fst <$> atoms)) as [k Hk]. unfold firsts in Hk. rewrite Hk.
    rewrite <- app_assoc. symmetry. apply take_app_length'. pose proof (bi_limit _ Hq). lia.
  - unfold mbind_, modify_q, modify_qb. rewrite Hb.
    destruct (IH (set_qb (Some (with_q (assign_bit g) b)) s) (with_q (assign_bit g) b)) as (s' & b' & H1 & H2 & H3 & H4 & H5 & H6 & H7 & H8);
      [by destruct Hs|done|by apply bits_assign|].
    exists s', b'. split_and!; try done.
    + etrans; [|exact H2]. split; [done|by intros []|done].
    + cbn in H8. rewrite length_app in H8. cbn in H8.
      destruct (QParams (qb_q b) !! GParam g); [|rewrite length_app in H8; cbn in H8]; lia.
Qed.

(** ** The finished query *)

(** A query of the source, from its header to [e]. *)
Record scanned (profile : LexerProfile) (path src : bytes) (q : QueryTemplate) (e : nat) : Prop := {
  sq_header : header_ok path src q;
  sq_tiles : raw_tiles path (SEnd (QHeaderSpan q)) (QItems q) = Some e;
  sq_items : Forall (item_ok profile src) (QItems q);
  sq_bits : bits_inv q;
  sq_atoms : QGuardAtoms q = take MaxGuards (firsts [] (fst <$> guarded_atoms (QItems q)));
  sq_inserts : inserts_in (flat_map item_guards (QItems q)) q;
  sq_offsets : offset_ok src (QWhereKwEnd q) /\ offset_ok src (QTailStart q) /\ offset_ok src (QStmtEnd q);
  sq_bound : e <= length src;
}.

(** The limits a query keeps to when nothing is reported.  The parameters are
    counted before the guards declare theirs. *)
Definition clean (q : QueryTemplate) : Prop :=
  length (QParamOrder q) <= N.to_nat MaxParams + length (QGuardAtoms q) /\ block_limits (QItems q) /\
  length (firsts [] (fst <$> guarded_atoms (QItems q))) <= MaxGuards.

Lemma header_name path src q q' :
  header_ok path src q -> header_ok path src q' -> QHeaderSpan q = QHeaderSpan q' -> QName q = QName q'.
Proof.
  intros (_ & _ & m & H1 & -> & _) (_ & _ & m' & H1' & -> & _) E. rewrite E in *. rewrite H1 in H1'. congruence.
Qed.

Lemma QInv_scanned profile path src h gs q0 q e :
  QInv profile path src h gs q0 e -> skeleton_of q = skeleton_of q0 ->
  bits_inv q -> QGuardAtoms q = take MaxGuards (firsts [] (fst <$> guarded_atoms (QItems q0))) -> gs = [] ->
  scanned profile path src q e /\ QHeaderSpan q = h.
Proof.
  intros [] E Hb Ha ->.
  pose proof (f_equal QName E) as E1. pose proof (f_equal QAnnotation E) as E2. pose proof (f_equal QHeaderSpan E) as E3.
  pose proof (f_equal QItems E) as E4. pose proof (f_equal QInsertColGuards E) as E5.
  pose proof (f_equal QInsertValGuards E) as E6. pose proof (f_equal QWhereKwEnd E) as E7.
  pose proof (f_equal QTailStart E) as E8. pose proof (f_equal QStmtEnd E) as E9. cbn in E1, E2, E3, E4, E5, E6, E7, E8, E9.
  split; [split; try done|by rewrite E3].
  - unfold header_ok. by rewrite E1, E2, E3.
  - by rewrite E3, E4.
  - by rewrite E4.
  - by rewrite E4.
  - unfold inserts_in. by rewrite E4, E5, E6.
  - by rewrite E7, E8, E9.
Qed.

Lemma QInv_bits profile path src h gs q e : QInv profile path src h gs q e -> bits_inv q.
Proof.
  intros []. destruct qi_params as [Hp Hf]. split; rewrite ?qi_atoms.
  - done.
  - intros name p Hn%Hf. left. split; [apply Hn|]. set_solver.
  - set_solver.
  - constructor.
  - cbn. lia.
Qed.

Section finalize.
Context (ToUpper : bytes -> bytes) {profile : LexerProfile} {Laws : LexerLaws profile} (path src : bytes).

Lemma finalize_none upTo s : fs_qb s = None -> finalize ToUpper profile path src upTo s = Ok ([], s).
Proof. intros H. unfold finalize, mbind_, gets. by rewrite H. Qed.

Lemma finalize_some h upTo s b :
  RInv s -> fs_qb s = Some b -> open (profile := profile) path src h upTo b ->
  exists q s', finalize ToUpper profile path src upTo s = Ok ([q], s') /\ frame s s' /\ fs_qb s' = None /\
    scanned profile path src q upTo /\ QHeaderSpan q = h /\ (fs_diags s' = [] -> clean q).
Proof.
  intros Hs Hb Ho. unfold finalize. unfold mbind_ at 1, gets. rewrite Hb.
  destruct (triple_flush path src h upTo s b Hb Ho) as ([] & s1 & b1 & E1 & F1 & Hb1 & Hq).
  unfold mbind_ at 1. rewrite E1. unfold mbind_ at 1, get_qb at 1. rewrite Hb1.
  pose proof (fr_rinv _ _ F1 Hs) as Hs1.
  destruct (checks_tail ToUpper profile (QItems (qb_q b1)) s1 Hs1) as (s2 & E2 & R2 & _).
  unfold mbind_ at 1. rewrite E2. pose proof (em_rinv _ _ R2 Hs1) as Hs2.
  destruct (checks_limits (qb_q b1) s2 Hs2) as (s3 & E3 & R3 & P3).
  unfold mbind_ at 1. rewrite E3. pose proof (em_rinv _ _ R3 Hs2) as Hs3.
  assert (fs_qb s3 = Some b1) as Hb3 by (by rewrite (em_qb _ _ R3), (em_qb _ _ R2)).
  destruct (assign_bits_spec (guarded_atoms (QItems (qb_q b1))) s3 b1 Hs3 Hb3) as (s4 & b4 & E4 & F4 & Hb4 & B4 & K4 & A4 & P4 & L4).
  { by eapply QInv_bits. }
  rewrite (qi_atoms _ _ _ _ _ _ _ Hq) in A4, P4, L4.
  unfold assignGuardBits, mbind_ at 1. unfold mbind_ at 1, get_qb at 1. rewrite Hb3, E4.
  unfold mbind_ at 1, get_qb. rewrite Hb4. unfold mbind_, modify, mret_.
  destruct (QInv_scanned _ _ _ _ _ _ (qb_q b4) _ Hq K4 B4 A4 eq_refl) as [H1 H2].
  eexists (qb_q b4), _. split_and!; [reflexivity| |done|done|done|].
  - etrans; [exact F1|]. etrans; [by apply reads_frame, emits_reads|]. etrans; [by apply reads_frame, emits_reads|].
    etrans; [exact F4|]. split; [done|by intros []|done].
  - cbn [fs_diags set_qb]. intros E. assert (QItems (qb_q b4) = QItems (qb_q b1)) as Ei by exact (f_equal QItems K4).
    destruct P3 as [P3 P3']; [by eapply prefix_nil; [apply F4|]|].
    unfold clean. rewrite Ei. split_and!; [|done|by apply P4]. cbn [length] in L4. lia.
Qed.
End finalize.

(** ** ScanTotal

    The scan of a file as a whole: directives, tokens, the end of a query and
    the main loop keep the invariant of the file under construction, so the
    scan of any source ends without a panic. *)

Section total.
Context (ToUpper : bytes -> bytes) (ParseDuration : bytes -> option Z).
Context {profile : LexerProfile} {Laws : LexerLaws profile} (path src : bytes).

Abbreviation n := (length src).
Abbreviation sp := (span path src).
Abbreviation opened := (open (profile := profile) path src).
Abbreviation shut := (closed (profile := profile) path src).
Abbreviation moved := (moved (profile := profile) path src).

(** ** Directives *)

Lemma triple_applyDirective h e tok :
  triple (opened h e) (applyDirective ParseDuration path src tok) (fun _ => opened h e).
Proof.
  assert (forall f1 f2 f3 f4 f5, triple (opened h e)
    (modify_q (fun q => q_set_directives (f1 q) (f2 q) (f3 q) (f4 q) (f5 q) q)) (fun _ => opened h e)) as Hd
    by (intros; apply triple_benign, benign_directives).
  assert (forall f g, triple (opened h e) (modify_q (fun q => q_set_hints (f q) (g q) q)) (fun _ => opened h e)) as Hh
    by (intros; apply triple_benign, benign_hints).
  unfold applyDirective.
  destruct (FindStringSubmatch paramHintRe _); [apply Hh|].
  destruct (FindStringSubmatch colHintRe _); [apply Hh|].
  destruct (MatchString optOutRe _).
  { destruct (FindStringSubmatch optOutFormRe _); [apply Hd|apply triple_errorf]. }
  destruct (MatchString timeoutRe _).
  { unfold applyTimeout, set_timeout. apply triple_get_bind. intros qb.
    destruct (QTimeout _); [apply triple_errorf|].
    destruct (FindStringSubmatch timeoutFormRe _); [|apply triple_errorf]. cbv zeta. case_decide; [apply Hd|].
    destruct (ParseDuration _); [|apply triple_errorf]. destruct (Z.leb _ _); [apply triple_errorf|apply Hd]. }
  destruct (MatchString applyRe _).
  { destruct (FindStringSubmatch applyFormRe _); [apply Hd|apply triple_errorf]. }
  destruct (MatchString nolintRe _).
  { unfold applyNoLint. destruct (FindStringSubmatch nolintFormRe _); [|apply triple_emit].
    destruct (nolint_codes _ _); [apply Hd|apply triple_emit]. }
  apply triple_when; [intros _|done]. unfold applyNullable. apply triple_get_bind. intros qb. cbv zeta.
  destruct (FindStringSubmatch nullableFormRe _); [|apply triple_errorf].
  destruct (QNullOverrides _ !! _); [apply triple_errorf|apply Hd].
Qed.

(** Operations on the file that leave its builder alone. *)
Lemma triple_file (f : fileScan -> fileScan) P :
  (forall s, fs_qb (f s) = fs_qb s /\ frame s (f s)) -> triple P (modify f) (fun _ => P).
Proof. intros H s b Hb Hp. destruct (H s) as [H1 H2]. exists tt, (f s), b. by rewrite H1. Qed.

Lemma frame_pending v s : fs_qb (set_pending v s) = fs_qb s /\ frame s (set_pending v s).
Proof. split; [done|]. split; [done|by intros []|done]. Qed.

Lemma frame_stray v s : fs_qb (set_stray v s) = fs_qb s /\ frame s (set_stray v s).
Proof. split; [done|]. split; [done|by intros []|done]. Qed.

Lemma triple_applyDirectives h e :
  triple (opened h e) (applyDirectives ParseDuration path src) (fun _ => opened h e).
Proof.
  unfold applyDirectives. apply triple_gets_bind. intros toks. eapply triple_then.
  - apply triple_mfor. intros tok _. apply triple_applyDirective.
  - apply triple_file, frame_pending.
Qed.

(** ** Tokens outside constructs *)

Section keeps.
Context (h : Span) (e : nat).

(** Steps of the builder that keep the invariant. *)
Definition keeps (f : queryBuilder -> queryBuilder) : Prop := forall b, opened h e b -> opened h e (f b).

Lemma keeps_neutral f : neutral f -> keeps f.
Proof. intros Hf b. by apply neutral_open. Qed.

Lemma keeps_benign f : benign (profile := profile) path src h f -> keeps (with_q f).
Proof. intros Hf b. by apply benign_open. Qed.

Lemma keeps_comp f g : keeps f -> keeps g -> keeps (fun b => f (g b)).
Proof. intros Hf Hg b Hb. by apply Hf, Hg. Qed.

Lemma keeps_clause_step kw tok : Start tok <= n -> End tok <= n -> keeps (clause_step kw tok).
Proof.
  intros Hs He b Hb. unfold clause_step.
  assert (forall b, opened h e b -> opened h e (with_q (mark_tail (Start tok)) b)) as Hmark
    by (apply keeps_benign, benign_mark_tail; lia).
  assert (opened h e (with_q (fun q => q_set_offsets (Z.of_nat (End tok)) (QTailStart q) (QStmtEnd q) q) (set_ctx ctxWhere b))) as Hwhere.
  { apply (keeps_benign (fun q => q_set_offsets _ _ _ q)); [|by apply (keeps_neutral (set_ctx _))].
    apply benign_offsets. intros q (_ & ? & ?). split_and!; [by apply offset_ok_of_nat|done..]. }
  assert (forall c, opened h e (set_ctx c b)) as Hctx by (intros c; by apply (keeps_neutral (set_ctx _))).
  assert (forall x y z, opened h e (set_joins x y z b)) as Hjoins by (intros; by apply (keeps_neutral (set_joins _ _ _))).
  assert (opened h e (set_isInsert true (set_ctx ctxInsertTarget b))) as Hins
    by (by apply (keeps_neutral (fun b => set_isInsert true (set_ctx ctxInsertTarget b)))).
  cbv zeta. repeat case_match; auto.
Qed.

Lemma keeps_transition kw tok : Start tok <= n -> End tok <= n -> keeps (transition kw tok).
Proof.
  intros Hs He b Hb. unfold transition. cbv zeta. apply keeps_clause_step; [done..|].
  assert (opened h e (after_values kw (set_prevKw kw b))) as H1.
  { unfold after_values. case_match; by apply (keeps_neutral (fun b => _ b)). }
  assert (opened h e (on_conflict (prevKw b) kw (after_values kw (set_prevKw kw b)))) as H2.
  { unfold on_conflict at 1. case_match; [|done]. by apply (keeps_neutral (set_afterOnConflict true)). }
  unfold clear_cross at 1. case_match; [|done]. by apply (keeps_neutral (set_joins _ _ _)).
Qed.

Lemma neutral_rparen : neutral feed_rparen.
Proof. intros b. unfold feed_rparen. cbv zeta. by repeat case_match. Qed.

Lemma concat_snoc_nil {A} (rows : list (list A)) : concat (rows ++ [[]]) = concat rows.
Proof. rewrite List.concat_app. apply app_nil_r. Qed.

Lemma keeps_lparen : keeps feed_lparen.
Proof.
  intros b Hb. unfold feed_lparen. cbv zeta. apply (keeps_neutral (set_depth _)); [done|].
  case_match; [|done]. case_match; try done.
  apply (keeps_benign (fun q => q_set_inserts _ _ q));
    [|by apply (keeps_neutral (fun b => set_guardSeen _ _ (set_ctx _ b)))].
  intros gs e' q []. split; try done; [by apply (params_fresh_ext q)|].
  unfold inserts_in in *. cbn. by rewrite concat_snoc_nil.
Qed.

Lemma triple_keeps f : keeps f -> triple (opened h e) (modify_qb f) (fun _ => opened h e).
Proof. intros Hf. by apply triple_modify. Qed.

Lemma triple_feed tok :
  Start tok <= n -> End tok <= n -> triple (opened h e) (feed ToUpper path src tok) (fun _ => opened h e).
Proof.
  intros Hs He. unfold feed. apply triple_get_bind. intros qb. destruct (statementEnded qb).
  { destruct (is_trivia _); [by apply triple_ret|]. destruct (negb _); [|by apply triple_ret].
    apply triple_report. by apply triple_neutral. }
  apply (triple_then _ _ _ (opened h e)).
  { apply triple_when; [|done]. intros _. by apply triple_benign, benign_StmtEnd. }
  assert (forall c m, triple (opened h e) m (fun _ => opened h e) -> triple (opened h e) (when_ c m) (fun _ => opened h e))
    as Hwhen by (intros c m Hm; by apply triple_when).
  destruct (Kind tok); try (by apply triple_ret); try apply Hwhen;
    try (by apply triple_errorf).
  - apply triple_keeps. by apply keeps_transition.
  - eapply triple_conseq; [apply (triple_reads _ (fun _ => True)); [apply stable_open|]|done|by intros ?? [_ H]].
    intros s ?. by apply runs_recordParam.
  - apply triple_keeps, keeps_lparen.
  - apply triple_keeps, keeps_neutral, neutral_rparen.
  - by apply triple_keeps, keeps_neutral.
Qed.
End keeps.

(** ** The file under construction *)

Abbreviation scanned := (scanned profile path src).

(** Queries of the source that follow each other from one offset to another. *)
Fixpoint queries_tile (from : nat) (qs : list QueryTemplate) (upto : nat) : Prop :=
  match qs with
  | [] => from = upto
  | q :: qs' => SStart (QHeaderSpan q) = from /\ exists e, scanned q e /\ queries_tile e qs' upto
  end.

Lemma queries_tile_snoc from qs q e :
  queries_tile from (qs ++ [q]) e <-> queries_tile from qs (SStart (QHeaderSpan q)) /\ scanned q e.
Proof.
  revert from. induction qs as [|q' qs IH]; intros from; cbn.
  - split; [by intros (-> & ? & ? & <-)|by intros (<- & ?); split; [|exists e]].
  - setoid_rewrite IH. naive_solver.
Qed.

(** The header a token is. *)
Definition header_of (tok : Token) : option captures :=
  if decide (Kind tok = KindLineComment) then FindStringSubmatch headerRe (Text tok) else None.

Context (start : nat).

(** The scan walks from [start] to an offset over markers and tokens none of
    which is a header. *)
Inductive headless : nat -> Prop :=
  | hl_start : headless start
  | hl_marker pos name e : headless pos -> marker_at src pos = Some (name, e) -> headless e
  | hl_token pos tok :
      headless pos -> marker_at src pos = None -> NextToken src pos = Ok tok -> Kind tok <> KindEOF ->
      header_of tok = None -> headless (End tok).

(** No header stands before the first query's. *)
Definition first_header (qs : list QueryTemplate) : Prop :=
  match qs with q :: _ => headless (SStart (QHeaderSpan q)) | [] => False end.

(** The queries done tile the source up to the header of the open one, whose
    chunk is open at [pos]; names are known, and different unless reported. *)
Record file_inv (qs : list QueryTemplate) (pos : nat) (s : fileScan) : Prop := {
  fi_rinv : RInv s;
  fi_qb : match fs_qb s with
          | None => qs = [] /\ fs_names s = ∅ /\ headless pos
          | Some b => exists h from, opened h pos b /\ queries_tile from qs (SStart h) /\
              (forall name, is_Some (fs_names s !! name) <-> name ∈ QName <$> qs ++ [qb_q b]) /\
              (fs_diags s = [] -> NoDup (QName <$> qs ++ [qb_q b])) /\ first_header (qs ++ [qb_q b])
          end;
  fi_clean : fs_diags s = [] -> Forall clean qs;
}.

Lemma opened_name h pos b b' : opened h pos b -> opened h pos b' -> QName (qb_q b) = QName (qb_q b').
Proof.
  intros (st & _ & _ & [E1 H1 _ _ _ _ _ _]) (st' & _ & _ & [E2 H2 _ _ _ _ _ _]).
  eapply header_name; [done..|]. congruence.
Qed.

Lemma opened_span h pos b : opened h pos b -> QHeaderSpan (qb_q b) = h.
Proof. by intros (st & _ & _ & []). Qed.

Lemma first_header_span qs q q' :
  QHeaderSpan q = QHeaderSpan q' -> first_header (qs ++ [q]) -> first_header (qs ++ [q']).
Proof. intros E. destruct qs; cbn; [by rewrite E|done]. Qed.

Lemma frame_clean s s' : frame s s' -> fs_diags s' = [] -> fs_diags s = [].
Proof. intros [] ?. by eapply prefix_nil. Qed.

(** A triple on the builder is a step of the file. *)
Lemma file_triple {A} (m : M A) (next : A -> nat) (φ : A -> Prop) qs pos s b :
  file_inv qs pos s -> fs_qb s = Some b ->
  (forall h, triple (opened h pos) m (fun a b => φ a /\ pos <= next a <= n /\ opened h (next a) b)) ->
  exists a s', m s = Ok (a, s') /\ file_inv qs (next a) s' /\ is_Some (fs_qb s') /\ φ a.
Proof.
  intros [Hr Hq Hc] Hb Hm. rewrite Hb in Hq. destruct Hq as (h & from & Ho & Ht & Hn & Hd & Hf).
  destruct (Hm h s b Hb Ho) as (a & s' & b' & E & F & Hb' & Ha & Hnext & Ho').
  exists a, s'. split_and!; [done| |by rewrite Hb'|done]. split.
  - by apply F.
  - rewrite Hb'. exists h, from. assert (QName (qb_q b') = QName (qb_q b)) as En.
    { eapply opened_name; [exact Ho'|]. by eapply open_mono. }
    rewrite fmap_app in Hn, Hd |- *. cbn in Hn, Hd |- *. rewrite En.
    split_and!; [done|done| | |].
    + intros name. by rewrite (fr_names _ _ F).
    + intros Hs'. apply Hd. by eapply frame_clean.
    + eapply first_header_span; [|exact Hf]. by rewrite (opened_span _ _ _ Ho), (opened_span _ _ _ Ho').
  - intros Hs'. apply Hc. by eapply frame_clean.
Qed.

(** Reports and flags of the file keep the invariant of a file without a
    builder. *)
Lemma file_stray qs pos s s' :
  file_inv qs pos s -> fs_qb s = None -> fs_qb s' = None -> fs_names s' = fs_names s ->
  (RInv s -> RInv s') -> fs_diags s `prefix_of` fs_diags s' -> file_inv qs pos s'.
Proof.
  intros [Hr Hq Hc] Hb Hb' En Hr' Hd. rewrite Hb in Hq. split; [auto| |].
  - rewrite Hb', En. done.
  - intros H. apply Hc. by eapply prefix_nil.
Qed.

Lemma file_none_pos qs pos pos' s : fs_qb s = None -> headless pos' -> file_inv qs pos s -> file_inv qs pos' s.
Proof. intros Hb Hp [H1 H2 H3]. rewrite Hb in H2. split; [done| |done]. rewrite Hb. naive_solver. Qed.

Lemma file_none qs pos s : fs_qb s = None -> file_inv qs pos s -> headless pos.
Proof. intros Hb [_ H _]. rewrite Hb in H. apply H. Qed.

(** ** Constructs *)

Lemma handleConstruct_step name qs pos e s :
  file_inv qs pos s -> marker_at src pos = Some (name, e) ->
  exists p s', handleConstruct ToUpper ParseDuration profile path src name pos e s = Ok (p, s') /\
    pos < p <= n /\ file_inv qs p s'.
Proof.
  intros Hs Hmk. pose proof (marker_at_bounds src pos name e Hmk) as He. destruct (fs_qb s) as [b|] eqn:Hb.
  - destruct (file_triple (handleConstruct ToUpper ParseDuration profile path src name pos e) (fun p => p)
      (fun p => pos < p <= n) qs pos s b Hs Hb) as (p & s' & E & H1 & _ & H3); [|by exists p, s'].
    intros h.
    enough (triple (opened h pos) (handleConstruct ToUpper ParseDuration profile path src name pos e) (moved h pos)) as Ht
      by (eapply triple_conseq; [exact Ht|done|]; intros p b' [? ?]; split_and!; [lia..|done]).
    clear s b Hs Hb Hmk. intros s b Hb Ho.
    unfold handleConstruct, mbind_ at 1, gets. rewrite Hb.
    match goal with |- exists a s' b', ?m s = _ /\ _ => enough (triple (opened h pos) m (moved h pos)) as Ht by (by apply (Ht s b)) end.
    clear s Hb Ho. destruct (statementEnded b).
    { apply (triple_then _ _ _ (opened h pos)); [|by apply moved_ret; lia].
      apply triple_when; [|done]. intros _. apply triple_report. by apply triple_neutral. }
    eapply triple_then; [apply triple_applyDirectives|].
    repeat case_decide; try (by apply triple_report, moved_ret; lia).
    + by apply triple_parseIfPresent.
    + by apply triple_parseWhen.
    + by apply triple_parseChoose.
    + eapply triple_then; [by apply triple_benign, benign_mark_tail; lia|]. by apply triple_parseOrderBy.
    + by apply triple_parseFilterTree.
    + by apply triple_parseIn.
  - assert (headless e) as Hhe by (eapply hl_marker; [by eapply file_none|done]).
    unfold handleConstruct, mbind_ at 1, gets. rewrite Hb. unfold mbind_ at 1.
    destruct (strayReported s); cbn [negb when_].
    + unfold mbind_, mret_. eexists e, s. split_and!; [done|lia|lia|]. by eapply file_none_pos.
    + destruct (emit_spec (Errorf CodeMissingHeader (sp pos e) "construct before any query header" []) s) as (s1 & E1 & R1 & _).
      unfold mbind_, errorf, modify, mret_. rewrite E1. eexists e, _. split_and!; [reflexivity|lia|lia|].
      eapply file_none_pos; [cbn; by rewrite (em_qb _ _ R1)|done|]. eapply (file_stray _ _ s); try done; cbn.
      * by rewrite (em_qb _ _ R1).
      * apply R1.
      * intros Hr. by destruct (em_rinv _ _ R1 Hr).
      * apply R1.
Qed.

Lemma note_end_step qs pos s :
  file_inv qs pos s -> pos <= n -> exists s', note_construct_end pos s = Ok (tt, s') /\ file_inv qs pos s'.
Proof.
  intros Hs Hp. unfold note_construct_end, mbind_, gets. destruct (fs_qb s) as [b|] eqn:Hb; [|by exists s].
  destruct (file_triple (when_ (negb (statementEnded b)) (modify_q (set_StmtEnd pos))) (fun _ => pos) (fun _ => True) qs pos s b Hs Hb)
    as ([] & s' & E & H & _); [|by exists s'].
  intros h. apply triple_when; [|by intros _ b']. intros _. eapply triple_conseq; [by apply triple_benign, benign_StmtEnd|done|].
  by intros [] b'.
Qed.

(** ** The end of a query and the start of the next *)

(** After [finalize]: no builder, the queries up to [pos]. *)
Record finished (qs : list QueryTemplate) (pos : nat) (s : fileScan) : Prop := {
  fn_rinv : RInv s;
  fn_qb : fs_qb s = None;
  fn_tiles : qs <> [] -> exists from, queries_tile from qs pos;
  fn_names name : is_Some (fs_names s !! name) <-> name ∈ QName <$> qs;
  fn_distinct : fs_diags s = [] -> NoDup (QName <$> qs);
  fn_clean : fs_diags s = [] -> Forall clean qs;
  fn_first : match qs with [] => headless pos | _ => first_header qs end;
}.

Lemma finalize_step qs pos s :
  file_inv qs pos s ->
  exists done s', finalize ToUpper profile path src pos s = Ok (done, s') /\ finished (qs ++ done) pos s'.
Proof.
  intros [Hr Hq Hc]. destruct (fs_qb s) as [b|] eqn:Hb.
  - destruct Hq as (h & from & Ho & Ht & Hn & Hd & Hf).
    destruct (finalize_some ToUpper path src h pos s b Hr Hb Ho) as (q & s' & E & F & Hb' & Hsc & Hh & Hcl).
    exists [q], s'. split; [done|].
    assert (QName q = QName (qb_q b)) as En.
    { destruct Ho as (st & _ & _ & Hqi). eapply header_name; [apply Hsc|apply Hqi|]. rewrite Hh. symmetry. apply Hqi. }
    rewrite fmap_app in Hn, Hd. cbn in Hn, Hd. split; rewrite ?fmap_app; cbn; rewrite ?En.
    + by apply F.
    + done.
    + intros _. exists from. apply queries_tile_snoc. by rewrite Hh.
    + intros name. by rewrite (fr_names _ _ F).
    + intros H. apply Hd. by eapply frame_clean.
    + intros H. apply Forall_app. split; [apply Hc; by eapply frame_clean|]. constructor; [auto|done].
    + apply (first_header_span _ _ q) in Hf; [|by rewrite (opened_span _ _ _ Ho)]. by destruct qs.
  - destruct Hq as (-> & Hn & Hl). exists [], s. split; [by apply finalize_none|]. split; try done; cbn.
    + intros name. rewrite Hn, lookup_empty. split; [by intros []|set_solver].
    + constructor.
Qed.

Lemma startQuery_step qs tok m s :
  finished qs (Start tok) s -> Start tok < End tok <= n -> Text tok = slice src (Start tok) (End tok) ->
  FindStringSubmatch headerRe (Text tok) = Some m ->
  exists s', startQuery path src (group (Text tok) m 1) (group (Text tok) m 2) tok s = Ok (tt, s') /\
    file_inv qs (End tok) s' /\ is_Some (fs_qb s').
Proof.
  intros [Hr Hb Ht Hn Hd Hc Hf1] Htok Htext Hm. unfold startQuery, mbind_ at 1, gets.
  set (name := group (Text tok) m 1). set (ann := group (Text tok) m 2).
  assert (exists s1, match fs_names s !! name with
    | Some prev => errorf CodeDuplicateQueryName (sp (Start tok) (End tok))
        "duplicate query name %q (previously defined at offset %d)" [AStr name; AInt (Z.of_nat (SStart prev))]
    | None => mret_ tt
    end s = Ok (tt, s1) /\ emits s s1 /\ (fs_diags s1 = [] -> ~ name ∈ QName <$> qs)) as (s1 & E1 & R1 & Hnew).
  { destruct (fs_names s !! name) as [prev|] eqn:En.
    - destruct (emit_reported (Errorf CodeDuplicateQueryName (sp (Start tok) (End tok))
        "duplicate query name %q (previously defined at offset %d)" [AStr name; AInt (Z.of_nat (SStart prev))]) s Hr)
        as (s1 & E & R & H). by exists s1.
    - exists s. split_and!; [done|reflexivity|]. intros _ Hin. apply Hn in Hin as [? Hin]. congruence. }
  unfold mbind_ at 1. rewrite E1. unfold mbind_, modify. eexists. split; [reflexivity|]. split; [|done].
  pose proof (em_rinv _ _ R1 Hr) as [C1 C2 C3].
  split; cbn [fs_qb set_qb set_names set_stray fs_diags fs_names].
  - split; cbn; done.
  - rewrite (span_exact path src (Start tok) (End tok)) by lia. set (h := mkSpan path (Start tok) (End tok)).
    exists h. assert (exists from, queries_tile from qs (Start tok)) as [from Hf].
    { destruct qs as [|q qs]; [by exists (Start tok)|by apply Ht]. }
    exists from. split_and!; [|done| | |].
    + exists (End tok). split_and!; [done|lia..|]. split; try done.
      * split; [done|]. split; [cbn; lia|]. exists m. cbn [QHeaderSpan qb_q new_builder new_query h SStart SEnd].
        rewrite <- Htext. by split_and!.
      * split; [split; cbn|cbn]; intros *.
        -- constructor.
        -- rewrite lookup_empty. split; [set_solver|by intros []].
        -- by rewrite lookup_empty.
        -- by rewrite lookup_empty.
      * unfold inserts_in. cbn. set_solver.
      * split_and!; unfold offset_ok; cbn; lia.
      * cbn; lia.
    + intros x. rewrite fmap_app. cbn. destruct (decide (x = name)) as [->|Hne].
      * rewrite lookup_insert_eq. set_solver.
      * rewrite lookup_insert_ne by done. rewrite Hn. set_solver.
    + intros H. rewrite fmap_app. cbn. apply list.NoDup_app. split_and!; [|set_solver|apply NoDup_singleton].
      apply Hd. eapply prefix_nil; [apply R1|done].
    + by destruct qs.
  - intros H. apply Hc. eapply prefix_nil; [apply R1|done].
Qed.

(** ** Tokens *)

Lemma triple_token h pos tok :
  pos <= End tok <= n -> Start tok <= n ->
  triple (opened h pos)
    (when_ (bool_decide (Kind tok = KindLineComment) && isDirectiveComment (Text tok))
       (let* pending := gets pendingDirectives in modify (set_pending (pending ++ [tok]))) ;;;
     when_ (negb (is_trivia (Kind tok))) (applyDirectives ParseDuration path src) ;;;
     feed ToUpper path src tok ;;; mret_ (@nil QueryTemplate))
    (fun a b => a = [] /\ pos <= End tok <= n /\ opened h (End tok) b).
Proof.
  intros He Hs. apply (triple_then _ _ _ (opened h pos)).
  { apply triple_when; [|done]. intros _. apply triple_gets_bind. intros pending. apply triple_file, frame_pending. }
  apply (triple_then _ _ _ (opened h pos)).
  { apply triple_when; [|done]. intros _. apply triple_applyDirectives. }
  eapply triple_then; [by apply triple_feed; lia|]. apply triple_ret. intros b Hb. split_and!; [done|lia..|].
  by eapply open_mono.
Qed.

Lemma stray_step qs pos pos' tok s :
  file_inv qs pos s -> fs_qb s = None -> headless pos' ->
  exists s', stray_token path src tok s = Ok (tt, s') /\ file_inv qs pos' s'.
Proof.
  intros Hs Hb Hh. unfold stray_token. destruct (is_trivia _); [exists s; split; [done|by eapply file_none_pos]|].
  unfold mbind_ at 1, gets. destruct (strayReported s); cbn [negb when_]; [exists s; split; [done|by eapply file_none_pos]|].
  unfold mbind_, errorf.
  match goal with |- context [emit ?d s] => destruct (emit_spec d s) as (s1 & E1 & R1 & _) end.
  rewrite E1. unfold modify. eexists. split; [reflexivity|].
  eapply file_none_pos; [cbn; by rewrite (em_qb _ _ R1)|done|]. eapply (file_stray _ _ s); try done; cbn.
  - by rewrite (em_qb _ _ R1).
  - apply R1.
  - intros Hr. by destruct (em_rinv _ _ R1 Hr).
  - apply R1.
Qed.

Lemma handleToken_step qs pos tok s :
  file_inv qs pos s -> wf_token src pos tok -> marker_at src pos = None -> NextToken src pos = Ok tok ->
  exists done s', handleToken ToUpper ParseDuration profile path src tok s = Ok (done, s') /\
    file_inv (qs ++ done) (End tok) s'.
Proof.
  intros Hs Hw Hmk Hnx. pose proof (tok_start _ _ _ Hw) as Hst. pose proof (tok_progress _ _ _ Hw) as Hpr.
  pose proof (tok_bound _ _ _ Hw) as Hbd. pose proof (tok_text _ _ _ Hw) as Htx. rewrite <- Hst in Htx, Hpr.
  unfold handleToken. cbv zeta. fold (header_of tok). destruct (header_of tok) as [m|] eqn:Em.
  - assert (FindStringSubmatch headerRe (Text tok) = Some m) as Hm by (unfold header_of in Em; by destruct (decide _)).
    destruct (finalize_step qs pos s Hs) as (qs1 & s1 & E1 & F1). rewrite <- Hst in E1, F1.
    unfold mbind_ at 1. rewrite E1.
    destruct (startQuery_step (qs ++ qs1) tok m s1 F1) as (s2 & E2 & F2 & [b2 Hb2]); [lia|done|done|].
    unfold mbind_ at 1. rewrite E2.
    destruct (file_triple (applyDirectives ParseDuration path src) (fun _ => End tok) (fun _ => True) _ _ s2 b2 F2 Hb2)
      as ([] & s3 & E3 & F3 & _).
    { intros h. eapply triple_conseq; [apply triple_applyDirectives|done|]. by intros [] b. }
    unfold mbind_. rewrite E3. by exists qs1, s3.
  - unfold mbind_ at 1, gets. destruct (fs_qb s) as [b|] eqn:Hb.
    + destruct (file_triple _ (fun _ => End tok) (fun a => a = []) qs pos s b Hs Hb
        (fun h => triple_token h pos tok ltac:(lia) ltac:(lia))) as (a & s' & E & H & _ & ->).
      exists [], s'. rewrite app_nil_r. by split.
    + destruct (stray_step qs pos (End tok) tok s Hs Hb) as (s' & E & H).
      { eapply hl_token; [by eapply file_none|done..|apply Hw|done]. }
      unfold mbind_. rewrite E. exists [], s'. rewrite app_nil_r. by split.
Qed.

(** The walk stops: at the end of the source or at a lexical error. *)
Definition stops (pos : nat) : Prop :=
  marker_at src pos = None /\ (n <= pos \/ exists err, NextToken src pos = Err err).

Lemma scan_loop_step fuel pos qs s :
  file_inv qs pos s -> pos <= n -> n < fuel + pos ->
  exists qs' s' pos', scan_loop ToUpper ParseDuration profile path src fuel pos qs s = Ok (qs', s') /\
    file_inv qs' pos' s' /\ pos' <= n /\ stops pos'.
Proof.
  revert pos qs s. induction fuel as [|f IH]; intros pos qs s Hs Hp Hf; [lia|]. cbn [scan_loop].
  rewrite (proj2 (Nat.ltb_ge n pos)) by lia.
  destruct (marker_at src pos) as [[name e]|] eqn:Em.
  - destruct (handleConstruct_step name qs pos e s Hs Em) as (p & s1 & E1 & Hpp & F1).
    destruct (note_end_step qs p s1 F1) as (s2 & E2 & F2); [lia|].
    unfold mbind_. rewrite E1, E2. apply IH; [done|lia|lia].
  - destruct (NextToken src pos) as [tok|err] eqn:Et.
    + case_decide as Ek.
      { exists qs, s, pos. split_and!; [done..|]. split; [done|left]. destruct (decide (n <= pos)) as [|Hlt]; [done|].
        apply lex_ok in Et as []; [done|lia]. }
      assert (pos < n) as Hlt.
      { destruct (decide (n <= pos)) as [Hge|]; [|lia]. rewrite lex_eof in Et by done. injection Et as <-. done. }
      pose proof (lex_ok _ _ _ Hlt Et) as Hw. pose proof (tok_progress _ _ _ Hw). pose proof (tok_bound _ _ _ Hw).
      destruct (handleToken_step qs pos tok s Hs Hw Em Et) as (qs1 & s1 & E1 & F1).
      unfold mbind_. rewrite E1. apply IH; [done|lia|lia].
    + match goal with |- context [errorf ?c ?sp ?f ?a] => destruct (emit_spec (Errorf c sp f a) s) as (s1 & E1 & R1 & _) end.
      unfold mbind_, errorf. rewrite E1. exists qs, s1, pos. split_and!; [done| |done|]; [|split; [done|right; by exists err]].
      destruct Hs as [H1 H2 H3]. split; [by apply R1| |].
      * rewrite (em_qb _ _ R1), (em_names _ _ R1). destruct (fs_qb s); [|done].
        destruct H2 as (h & from & Ho & Ht & Hn & Hd & Hh). exists h, from. split_and!; [done..| |done].
        intros E. apply Hd. eapply prefix_nil; [apply R1|done].
      * intros E. apply H3. eapply prefix_nil; [apply R1|done].
Qed.

(** ** The whole file *)

(** The end of the file: the query that is open extends to it. *)
Lemma file_mono qs pos b s : fs_qb s = Some b -> file_inv qs pos s -> pos <= n -> file_inv qs n s.
Proof.
  intros Hb [H1 H2 H3] Hp. rewrite Hb in H2. split; [done| |done]. rewrite Hb.
  destruct H2 as (h & from & Ho & H2). exists h, from. split; [by eapply open_mono|done].
Qed.


Lemma emits_lone_cr_loop fuel pos s :
  pos <= n -> n < fuel + pos -> runs (lone_cr_loop profile path src fuel pos) emits (fun _ => True) s.
Proof.
  revert pos s. induction fuel as [|f IH]; intros pos s Hp Hf; [lia|]. cbn [lone_cr_loop].
  destruct (Nat.ltb_spec pos n) as [Hlt|]; [|by apply emits_ret].
  destruct (NextToken src pos) as [tok|err] eqn:Et; [|by apply emits_ret].
  destruct (_ || _)%bool eqn:Eb; [by apply emits_ret|]. apply orb_false_elim in Eb as [_ Eb%Nat.leb_gt].
  pose proof (NextToken_ok src pos tok Hp Et) as [_ Hb _].
  eapply emits_bind; [|intros _ s' _; apply IH; lia].
  apply runs_when; [typeclasses eauto|]. intros _. apply emits_mfor. intros i s' _.
  apply runs_when; [typeclasses eauto|]. intros _. apply runs_emit.
Qed.

Lemma scan_start_bound z : scan_start src z <= n.
Proof.
  unfold scan_start. set (st := if Z.ltb z 0 then 0%Z else z). cbv zeta.
  assert (0 <= st)%Z as H0 by (unfold st; destruct (Z.ltb_spec z 0); lia).
  destruct (_ && _)%bool eqn:Eb.
  - apply andb_prop in Eb as [_ Eb%bool_decide_eq_true]. apply (f_equal length) in Eb.
    rewrite length_take in Eb. change (length bom) with 3 in Eb. lia.
  - destruct (Z.ltb_spec (Z.of_nat n) st); lia.
Qed.
End total.
