(* ===== verification/ScanTheorems.v ===== *)
(** * ScanTheorems

    What the scanner guarantees to the phases after it: every source is scanned
    to its end, nothing of it is lost, the queries carry the parameters, guards
    and limits those phases rely on, and the reports are bounded and sorted. *)

From Stdlib Require Import Sorted.
From S2P Require Import Prelude Dialect Template SourceMap RenderInv Render Shape Lexical ParamRules Diagnostics Regex ScanState ScanDirectives ScanClauses ScanBodies ScanConstructs Scanner ScanLogic ScanInv ScanParse ScanFinal Postgres Lexers Demo.

(** ** The scan of a file *)

Section file.
Context (ToUpper : bytes -> bytes) (ParseDuration : bytes -> option Z).
Context {profile : LexerProfile} {Laws : LexerLaws profile} (path src : bytes).

Abbreviation n := (length src).

Lemma RInv_scan0 : RInv scan0.
Proof.
  split; unfold scan0; cbn [fs_emitted fs_diags fs_overflow].
  - intros c. by rewrite lookup_empty.
  - intros c. unfold code_count. cbn. lia.
  - intros c m. by rewrite lookup_empty.
Qed.

(** The summaries [flushOverflow] adds. *)
Definition summaries (s : fileScan) : list Diagnostic :=
  (fun c => Errorf c (default (mkSpan [] 0 0) (fs_firstOver s !! c))
      "%d further %s diagnostics in this file were suppressed; fix the reported occurrences and re-run"
      [AInt (Z.of_nat (default 0 (fs_overflow s !! c))); AStr c])
    <$> SliceStable bytes_ltb (fst <$> map_to_list (fs_overflow s)).

Abbreviation finished := (finished (profile := profile) path src).

Lemma ScanFileFrom_spec start :
  let pos := scan_start src start in
  exists qs s stop, ScanFileFrom ToUpper ParseDuration profile path src start
      = Ok (mkQueryFile path qs, Sort (fs_diags s ++ summaries s))
    /\ finished pos qs stop s /\ (qs <> [] -> stop = n) /\ (qs = [] -> stops (profile := profile) src stop).
Proof.
  unfold ScanFileFrom, scan_body. cbv zeta. set (pos := scan_start src start).
  assert (pos <= n) as Hp by apply scan_start_bound.
  destruct (emits_lone_cr_loop path src (src_fuel src) pos scan0 Hp) as ([] & s1 & E1 & R1 & _); [unfold src_fuel; lia|].
  unfold mbind_ at 1, checkLoneCR. rewrite E1.
  assert (file_inv (profile := profile) path src pos [] pos s1) as F1.
  { split; [apply R1, RInv_scan0| |constructor]. rewrite (em_qb _ _ R1), (em_names _ _ R1).
    split_and!; [done|done|constructor]. }
  destruct (scan_loop_step ToUpper ParseDuration path src pos (src_fuel src) pos [] s1 F1 Hp)
    as (qs & s2 & stop & E2 & F2 & Hstop & Hst); [unfold src_fuel; lia|].
  unfold mbind_ at 1. rewrite E2. unfold mbind_ at 1, gets. destruct (fs_qb s2) as [b|] eqn:Hb.
  - pose proof (file_mono path src pos qs stop b s2 Hb F2 Hstop) as F2'.
    destruct (file_triple path src pos (applyDirectives ParseDuration path src) (fun _ => n) (fun _ => True) qs n s2 b F2' Hb)
      as ([] & s3 & E3 & F3 & [b3 Hb3] & _).
    { intros h. eapply triple_conseq; [apply triple_applyDirectives|done|]. by intros [] b'. }
    unfold mbind_ at 1. rewrite E3.
    destruct (finalize_step ToUpper ParseDuration path src pos qs n s3 F3) as (last & s4 & E4 & F4).
    unfold mbind_ at 1. rewrite E4. exists (qs ++ last), s4, n. split_and!; [done..|].
    intros [-> ->]%app_eq_nil. exfalso. unfold finalize, mbind_ at 1, gets in E4. rewrite Hb3 in E4.
    unfold mbind_, modify, mret_ in E4. repeat (case_match; try done).
  - unfold mbind_ at 1, mret_. unfold mbind_ at 1. rewrite (finalize_none ToUpper path src n s2 Hb), app_nil_r.
    exists qs, s2, stop. destruct F2 as [H1 H2 H3]. rewrite Hb in H2. destruct H2 as (-> & Hn & Hh).
    split_and!; [done| |done|done]. split; try done; cbn.
    + intros name. rewrite Hn, lookup_empty. split; [by intros []|set_solver].
    + constructor.
Qed.

(** A file without reports. *)
Lemma no_reports s : Sort (fs_diags s ++ summaries s) = [] -> fs_diags s = [].
Proof.
  intros H. pose proof (SliceStable_perm diag_less (fs_diags s ++ summaries s)) as Hp. unfold Sort in H.
  rewrite H in Hp. apply Permutation_nil in Hp. by apply app_eq_nil in Hp as [-> _].
Qed.

Lemma scanned_queries start f ds :
  ScanFileFrom ToUpper ParseDuration profile path src start = Ok (f, ds) ->
  exists s stop, finished (scan_start src start) (QFQueries f) stop s /\ ds = Sort (fs_diags s ++ summaries s) /\
    (QFQueries f <> [] -> stop = n) /\ (QFQueries f = [] -> stops (profile := profile) src stop).
Proof. destruct (ScanFileFrom_spec start) as (qs & s & stop & -> & F & H1 & H2). intros [= <- <-]. by exists s, stop. Qed.

Lemma queries_tile_scanned from qs upto q :
  queries_tile (profile := profile) path src from qs upto -> q ∈ qs -> exists e, scanned profile path src q e.
Proof.
  revert from. induction qs as [|q' qs IH]; intros from; cbn; [set_solver|].
  intros (_ & e & Hq & Ht) [->|Hin]%elem_of_cons; [by exists e|by eapply IH].
Qed.

Lemma finished_scanned start qs stop s q :
  finished start qs stop s -> q ∈ qs -> exists e, scanned profile path src q e.
Proof.
  intros F Hq. destruct (fn_tiles _ _ _ _ _ _ F) as [from Ht]; [by destruct qs; [set_solver|]|].
  by eapply queries_tile_scanned.
Qed.

(** ** What the queries cover *)

Definition span_text (s : Span) : bytes := slice src (SStart s) (SEnd s).

(** The text of a query: its header and its items. *)
Definition query_text (q : QueryTemplate) : bytes :=
  span_text (QHeaderSpan q) ++ concat (span_text <$> (Raw <$> QItems q)).

Lemma raw_tiles_text o items e :
  raw_tiles path o items = Some e -> e <= n -> o <= e /\ concat (span_text <$> (Raw <$> items)) = slice src o e.
Proof.
  revert o. induction items as [|it items IH]; intros o; cbn [raw_tiles].
  - intros [= <-] _. split; [done|]. cbn. unfold slice. by rewrite Nat.sub_diag.
  - destruct (_ && _ && _)%bool eqn:Eb; [|done]. intros Ht He.
    apply andb_prop in Eb as [[_ E1%Nat.eqb_eq]%andb_prop E2%Nat.ltb_lt].
    destruct (IH _ Ht He) as [Hle Hc]. split; [lia|]. cbn. unfold span_text at 1. rewrite Hc, E1.
    apply slice_app; lia.
Qed.

Lemma scanned_text q e : scanned profile path src q e ->
  SStart (QHeaderSpan q) <= e /\ query_text q = slice src (SStart (QHeaderSpan q)) e.
Proof.
  intros [(_ & Hh & _) Ht _ _ _ _ _ He]. destruct (raw_tiles_text _ _ _ Ht He) as [Hle Hc].
  split; [lia|]. unfold query_text. rewrite Hc. unfold span_text. apply slice_app; lia.
Qed.

Lemma queries_tile_text from qs upto :
  queries_tile (profile := profile) path src from qs upto -> upto <= n ->
  from <= upto /\ concat (query_text <$> qs) = slice src from upto.
Proof.
  intros H Hu. revert from H. induction qs as [|q qs IH]; intros from; cbn.
  - intros <-. split; [done|]. unfold slice. by rewrite Nat.sub_diag.
  - intros (Hf & e & Hq & Ht). destruct (IH _ Ht) as [Hle Hc]. apply scanned_text in Hq as [H1 H2].
    rewrite Hf in H1, H2. split; [lia|]. rewrite H2, Hc. apply slice_app; lia.
Qed.

Lemma scanned_anchored q e : scanned profile path src q e -> anchored src q = true.
Proof.
  intros H. unfold anchored. apply forallb_forall. intros it Hit%list_elem_of_In.
  apply forallb_forall. intros [[text off] synth] Ht%list_elem_of_In.
  pose proof (sq_items _ _ _ _ _ H) as Hi. rewrite Forall_forall in Hi. destruct (Hi it) as [Hx _]; [by apply list_elem_of_In|].
  destruct (Hx _ _ _ Ht) as [-> [_ Htx]]. cbn. unfold anchored_at. by apply bool_decide_eq_true.
Qed.
End file.

(** ** Well-formed queries *)

Lemma params_inv_fresh q : params_inv q -> params_fresh q = true.
Proof.
  intros [H1 H2 H3]. unfold params_fresh, unclassified. rewrite !andb_true_iff, bool_decide_eq_true, !forallb_forall.
  split_and!; [done| |].
  - intros m Hm%list_elem_of_In. by apply bool_decide_eq_true, H2.
  - intros [m p] Hp%list_elem_of_In%elem_of_map_to_list. destruct (H3 _ _ Hp) as (_ & E & _). cbn. by rewrite E.
Qed.

Lemma guard_declared q v :
  length (firsts [] (fst <$> guarded_atoms (QItems q))) <= MaxGuards ->
  QGuardAtoms q = take MaxGuards (firsts [] (fst <$> guarded_atoms (QItems q))) ->
  IIfPresent v ∈ QItems q -> IPGuards v ⊆ QGuardAtoms q.
Proof.
  intros Hl -> Hv g Hg. rewrite take_ge by done. apply firsts_elem. right. apply list_elem_of_fmap.
  exists (g, IPSpan v). split; [done|]. unfold guarded_atoms. apply list_elem_of_In, in_flat_map.
  exists (IIfPresent v). split; [by apply list_elem_of_In|]. apply list_elem_of_In, list_elem_of_fmap. by exists g.
Qed.

Lemma item_guards_elem gs items : gs ∈ flat_map item_guards items -> exists v, IIfPresent v ∈ items /\ IPGuards v = gs.
Proof.
  intros (it & Hit & Hg)%list_elem_of_In%in_flat_map. apply list_elem_of_In in Hit, Hg.
  destruct it as [|v| | | |]; cbn in Hg; try by apply not_elem_of_nil in Hg.
  apply list_elem_of_singleton in Hg as ->. by exists v.
Qed.

Lemma block_limits_within q :
  length (QGuardAtoms q) <= MaxGuards -> block_limits (QItems q) -> within_limits q = true.
Proof.
  intros Hg Hb. unfold block_limits in Hb. rewrite Forall_forall in Hb. unfold within_limits.
  rewrite !andb_true_iff, Nat.leb_le, !forallb_forall. split_and!; [done|..]; intros x Hx%list_elem_of_In.
  - apply list_elem_of_omap in Hx as (it & Hit & E). destruct it; try done. injection E as ->.
    apply Nat.leb_le. by apply (Hb (IChoose x)), list_elem_of_In.
  - apply list_elem_of_omap in Hx as (it & Hit & E). destruct it; try done. injection E as ->.
    apply Nat.leb_le. by apply (Hb (IOrderBy x)), list_elem_of_In.
Qed.

(** ** The reports *)

Lemma code_count_perm c ds ds' : ds ≡ₚ ds' -> code_count c ds = code_count c ds'.
Proof. intros H. unfold code_count. by rewrite H. Qed.

Lemma summaries_codes s : DCode <$> summaries s ≡ₚ fst <$> map_to_list (fs_overflow s).
Proof.
  unfold summaries. rewrite <- list_fmap_compose.
  assert (DCode ∘ (fun c => Errorf c (default (mkSpan [] 0 0) (fs_firstOver s !! c))
      "%d further %s diagnostics in this file were suppressed; fix the reported occurrences and re-run"
      [AInt (Z.of_nat (default 0 (fs_overflow s !! c))); AStr c]) = id) as -> by done.
  rewrite list_fmap_id. apply SliceStable_perm.
Qed.

Lemma summaries_spec s : RInv s ->
  NoDup (DCode <$> summaries s) /\
  Forall (fun d => code_count (DCode d) (fs_diags s) = maxDiagsPerCode /\
    exists k, 0 < k /\ DArgs d = [AInt (Z.of_nat k); AStr (DCode d)]) (summaries s).
Proof.
  intros Hs. split.
  - rewrite summaries_codes. apply NoDup_fst_map_to_list.
  - apply Forall_forall. intros d Hd%list_elem_of_In.
    assert (DCode d ∈ DCode <$> summaries s) as Hc by (apply list_elem_of_fmap; by exists d).
    rewrite summaries_codes in Hc. apply list_elem_of_fmap in Hc as ([c k] & Ec & Hk%elem_of_map_to_list). cbn in Ec.
    destruct (ri_over _ Hs _ _ Hk) as [H1 H2]. rewrite Ec. split; [done|]. exists k. split; [done|].
    unfold summaries in Hd. apply list_elem_of_fmap in Hd as (c' & -> & _). cbn in Ec. subst c'. cbn. by rewrite Hk.
Qed.

(** ** The theorems *)

Section theorems.
Context (ToUpper : bytes -> bytes) (ParseDuration : bytes -> option Z).

(** C24: the scan of every source of every dialect, from every offset, ends and
    returns a file: no construct, however malformed, makes it panic or loop. *)
Theorem scan_total profile esc path src start :
  (profile, esc) ∈ dialects ->
  exists f ds, ScanFileFrom ToUpper ParseDuration profile path src start = Ok (f, ds).
Proof.
  intros H%dialects_laws. destruct (ScanFileFrom_spec (profile := profile) ToUpper ParseDuration path src start) as (qs & s & _ & E & _).
  eauto.
Qed.

(** C7: a scan loses nothing.  Before the first query's header stands no header
    comment; from it on the queries' headers and items are the source, byte by
    byte, each query ending where the next one's header starts; every header
    has the name and the annotation of its query, and every text of an item is
    the source's at the span it carries. *)
Theorem scan_lossless profile esc path src start f ds :
  (profile, esc) ∈ dialects ->
  ScanFileFrom ToUpper ParseDuration profile path src start = Ok (f, ds) ->
  match QFQueries f with
  | [] => exists stop, headless (profile := profile) src (scan_start src start) stop /\ stops (profile := profile) src stop
  | q :: _ =>
      headless (profile := profile) src (scan_start src start) (SStart (QHeaderSpan q)) /\
      concat (query_text src <$> QFQueries f) = drop (SStart (QHeaderSpan q)) src
  end /\
  forall q, q ∈ QFQueries f ->
    header_ok path src q /\ anchored src q = true /\
    forall v, ISkeleton v ∈ QItems q -> SkText v = span_text src (SkSpan v).
Proof.
  intros Hp%dialects_laws Hs. destruct (scanned_queries _ _ _ _ _ _ _ Hs) as (s & stop & F & _ & H1 & H2). split.
  - pose proof (fn_first _ _ _ _ _ _ F) as Hfirst. pose proof (fn_tiles _ _ _ _ _ _ F) as Ht.
    destruct (QFQueries f) as [|q qs] eqn:Eq; [exists stop; auto|]. split; [done|].
    destruct Ht as [from Ht]; [done|]. rewrite H1 in Ht by done. pose proof Ht as [Hf _].
    destruct (queries_tile_text path src from (q :: qs) (length src) Ht) as [_ ->]; [done|].
    rewrite Hf. unfold slice. apply take_ge. by rewrite length_drop.
  - intros q Hq. destruct (finished_scanned _ _ _ _ _ _ _ F Hq) as [e He].
    split_and!; [apply He|by eapply scanned_anchored|]. intros v Hv.
    pose proof (sq_items _ _ _ _ _ He) as Hi. rewrite Forall_forall in Hi.
    destruct (Hi (ISkeleton v)) as [_ H]; [by apply list_elem_of_In|exact H].
Qed.

(** The parameters and guard bits of every scanned query, with or without
    reports: each parameter is declared once and unclassified; the guard atoms
    are the distinct ones of the guarded items in order of first occurrence, at
    most 64; each atom's parameter is declared, and a parameter's guard bit is
    that of the last atom about it, -1 when there is none. *)
Theorem scan_parameters profile esc path src start f ds q :
  (profile, esc) ∈ dialects ->
  ScanFileFrom ToUpper ParseDuration profile path src start = Ok (f, ds) ->
  q ∈ QFQueries f ->
  params_fresh q = true /\
  NoDup (QGuardAtoms q) /\
  QGuardAtoms q = take MaxGuards (firsts [] (fst <$> guarded_atoms (QItems q))) /\
  (forall g, g ∈ QGuardAtoms q -> GParam g ∈ QParamOrder q) /\
  (forall name p, QParams q !! name = Some p -> PName p = name /\ bit_of (QGuardAtoms q) name (PGuardBit p)).
Proof.
  intros Hp%dialects_laws Hs Hq. destruct (scanned_queries _ _ _ _ _ _ _ Hs) as (s & stop & F & _).
  destruct (finished_scanned _ _ _ _ _ _ _ F Hq) as [e He]. pose proof (sq_bits _ _ _ _ _ He) as [B1 B2 B3 B4 B5].
  split_and!; [by apply params_inv_fresh|done|apply He|done|].
  intros name p Hname. split; [by apply (pi_param _ B1)|by apply B2].
Qed.

(** A file scanned without reports keeps what the later phases rely on: the
    query names differ; every guard of an item or of an optional INSERT item
    has its bit; orders, choices and guards are within the limits of the shape
    encoding, and the parameters, the guards' apart, within the bind plan's. *)
Theorem scan_clean profile esc path src start f :
  (profile, esc) ∈ dialects ->
  ScanFileFrom ToUpper ParseDuration profile path src start = Ok (f, []) ->
  NoDup (QName <$> QFQueries f) /\
  forall q, q ∈ QFQueries f ->
    within_limits q = true /\ insert_guards_declared q = true /\
    (forall v, IIfPresent v ∈ QItems q -> IPGuards v ⊆ QGuardAtoms q) /\
    length (QParamOrder q) <= N.to_nat MaxParams + length (QGuardAtoms q).
Proof.
  intros Hp%dialects_laws Hs. destruct (scanned_queries _ _ _ _ _ _ _ Hs) as (s & stop & F & Hds & _).
  symmetry in Hds. apply no_reports in Hds. split; [by apply (fn_distinct _ _ _ _ _ _ F)|]. intros q Hq.
  pose proof (fn_clean _ _ _ _ _ _ F Hds) as Hc. rewrite Forall_forall in Hc.
  destruct (Hc q) as (C1 & C2 & C3); [by apply list_elem_of_In|].
  destruct (finished_scanned _ _ _ _ _ _ _ F Hq) as [e He]. pose proof (sq_bits _ _ _ _ _ He) as [_ _ _ _ B5].
  assert (forall v, IIfPresent v ∈ QItems q -> IPGuards v ⊆ QGuardAtoms q) as Hg
    by (intros v; apply guard_declared; [done|apply He]).
  split_and!; [by apply block_limits_within| |done|done].
  unfold insert_guards_declared. apply forallb_forall. intros gi Hgi%list_elem_of_In. apply bool_decide_eq_true.
  apply (sq_inserts _ _ _ _ _ He) in Hgi. apply item_guards_elem in Hgi as (v & Hv & <-). by apply Hg.
Qed.

(** The reports of a scan are bounded and sorted: by file, offset and code;
    at most 200 of a code are kept, and a code has one summary more, naming how
    many were left out, only when its 200 are there. *)
Theorem scan_reports_bounded profile esc path src start f ds :
  (profile, esc) ∈ dialects ->
  ScanFileFrom ToUpper ParseDuration profile path src start = Ok (f, ds) ->
  StronglySorted diag_le ds /\
  exists kept sums, ds ≡ₚ kept ++ sums /\
    (forall c, code_count c kept <= maxDiagsPerCode) /\
    NoDup (DCode <$> sums) /\
    Forall (fun d => code_count (DCode d) kept = maxDiagsPerCode /\
      exists k, 0 < k /\ DArgs d = [AInt (Z.of_nat k); AStr (DCode d)]) sums.
Proof.
  intros Hp%dialects_laws Hs. destruct (scanned_queries _ _ _ _ _ _ _ Hs) as (s & stop & F & -> & _).
  pose proof (fn_rinv _ _ _ _ _ _ F) as Hr. split; [apply Sort_sorted|]. exists (fs_diags s), (summaries s).
  split_and!; [apply SliceStable_perm|apply Hr|by apply summaries_spec..].
Qed.

(** C27: end to end, every rendering of a scanned query maps back to the file:
    whenever the source map answers with an offset that is not synthetic, the
    byte of the SQL is the byte of the scanned file at that offset, and inside
    the SQL it always answers with a segment. *)
Theorem scanned_source_map profile esc path src start f ds q s r rOff :
  (profile, esc) ∈ dialects ->
  ScanFileFrom ToUpper ParseDuration profile path src start = Ok (f, ds) ->
  q ∈ QFQueries f -> renderCore profile q s = Ok r ->
  (rOff < length (RSQL r) ->
   exists seg, seg ∈ RMap r /\ covers seg rOff /\ ToTemplate (RMap r) rOff = seg_answer seg rOff) /\
  (forall tOff, ToTemplate (RMap r) rOff = (tOff, false) ->
   exists c, RSQL r !! rOff = Some c /\ src !! tOff = Some c).
Proof.
  intros Hp%dialects_laws Hs Hq Hr. destruct (scanned_queries _ _ _ _ _ _ _ Hs) as (st & stop & F & _).
  destruct (finished_scanned _ _ _ _ _ _ _ F Hq) as [e He].
  destruct (renderCore_map src q s r (scanned_anchored _ _ _ _ He) Hr) as [Ht Hf]. by apply segs_faithful.
Qed.
End theorems.

(** ** Instances *)

Lemma postgres_dialect : (Postgres.Profile, false) ∈ dialects.
Proof. left. Qed.

Abbreviation demo_f src := (mkQueryFile (bs "q.sql") (demo_queries src)).

Lemma scan_total_witness :
  exists f ds, ScanFileFrom ascii_upper two_seconds Postgres.Profile (bs "q.sql") broken_file 3 = Ok (f, ds).
Proof. apply (scan_total ascii_upper two_seconds Postgres.Profile false), postgres_dialect. Defined.

Lemma scan_lossless_witness :
  match QFQueries (demo_f demo_file) with
  | [] => exists stop, headless (profile := Postgres.Profile) demo_file (scan_start demo_file 0) stop
            /\ stops (profile := Postgres.Profile) demo_file stop
  | q :: _ =>
      headless (profile := Postgres.Profile) demo_file (scan_start demo_file 0) (SStart (QHeaderSpan q)) /\
      concat (query_text demo_file <$> QFQueries (demo_f demo_file)) = drop (SStart (QHeaderSpan q)) demo_file
  end /\
  forall q, q ∈ QFQueries (demo_f demo_file) ->
    header_ok (bs "q.sql") demo_file q /\ anchored demo_file q = true /\
    forall v, ISkeleton v ∈ QItems q -> SkText v = span_text demo_file (SkSpan v).
Proof.
  exact (scan_lossless ascii_upper two_seconds Postgres.Profile false (bs "q.sql") demo_file 0 (demo_f demo_file) []
    postgres_dialect demo_scan_ok).
Defined.

Lemma scan_parameters_witness :
  params_fresh demo_first = true /\
  NoDup (QGuardAtoms demo_first) /\
  QGuardAtoms demo_first = take MaxGuards (firsts [] (fst <$> guarded_atoms (QItems demo_first))) /\
  (forall g, g ∈ QGuardAtoms demo_first -> GParam g ∈ QParamOrder demo_first) /\
  (forall name p, QParams demo_first !! name = Some p ->
    PName p = name /\ bit_of (QGuardAtoms demo_first) name (PGuardBit p)).
Proof.
  exact (scan_parameters ascii_upper two_seconds Postgres.Profile false (bs "q.sql") demo_file 0 (demo_f demo_file) []
    demo_first postgres_dialect demo_scan_ok demo_first_in).
Defined.

Lemma scan_clean_witness :
  NoDup (QName <$> QFQueries (demo_f demo_file)) /\
  forall q, q ∈ QFQueries (demo_f demo_file) ->
    within_limits q = true /\ insert_guards_declared q = true /\
    (forall v, IIfPresent v ∈ QItems q -> IPGuards v ⊆ QGuardAtoms q) /\
    length (QParamOrder q) <= N.to_nat MaxParams + length (QGuardAtoms q).
Proof.
  exact (scan_clean ascii_upper two_seconds Postgres.Profile false (bs "q.sql") demo_file 0 (demo_f demo_file)
    postgres_dialect demo_scan_ok).
Defined.

Lemma scan_reports_bounded_witness :
  StronglySorted diag_le (demo_reports broken_file) /\
  exists kept sums, demo_reports broken_file ≡ₚ kept ++ sums /\
    (forall c, code_count c kept <= maxDiagsPerCode) /\
    NoDup (DCode <$> sums) /\
    Forall (fun d => code_count (DCode d) kept = maxDiagsPerCode /\
      exists k, 0 < k /\ DArgs d = [AInt (Z.of_nat k); AStr (DCode d)]) sums.
Proof.
  exact (scan_reports_bounded ascii_upper two_seconds Postgres.Profile false (bs "q.sql") broken_file 0 (demo_f broken_file)
    (demo_reports broken_file) postgres_dialect broken_scan_ok).
Defined.

Definition demo_sel : selection := mkSelection allActive ∅ [] [] [].
Definition demo_rendering : Rendering := get_ok no_rendering (renderCore Postgres.Profile demo_first demo_sel).

Lemma demo_rendering_ok : renderCore Postgres.Profile demo_first demo_sel = Ok demo_rendering.
Proof. vm_compute. reflexivity. Qed.

Lemma scanned_source_map_witness :
  (100 < length (RSQL demo_rendering) ->
   exists seg, seg ∈ RMap demo_rendering /\ covers seg 100 /\ ToTemplate (RMap demo_rendering) 100 = seg_answer seg 100) /\
  (forall tOff, ToTemplate (RMap demo_rendering) 100 = (tOff, false) ->
   exists c, RSQL demo_rendering !! 100 = Some c /\ demo_file !! tOff = Some c).
Proof.
  exact (scanned_source_map ascii_upper two_seconds Postgres.Profile false (bs "q.sql") demo_file 0 (demo_f demo_file) []
    demo_first demo_sel demo_rendering 100 postgres_dialect demo_scan_ok demo_first_in demo_rendering_ok).
Defined.
