(* ===== verification/ScanLiterals.v ===== *)
(** * ScanLiterals

    The literals of [@when]: which tokens are accepted, and the value the guard
    compares the parameter with. *)

From S2P Require Import Prelude Dialect Template Diagnostics Regex ScanState ScanBodies ScanConstructs.

(** ** Strings *)

Definition double_quotes (v : bytes) : bytes :=
  flat_map (fun c => if (c =b c_quote)%char then [c_quote; c_quote] else [c]) v.

(** The SQL literal of a value. *)
Definition quote_sql (v : bytes) : bytes := c_quote :: double_quotes v ++ [c_quote].

Lemma undouble_double v : undouble (double_quotes v) = v.
Proof.
  induction v as [|c v IH]; [done|]. cbn [double_quotes flat_map]. fold (double_quotes v).
  destruct (Ascii.eqb_spec c c_quote) as [->|Hc]; cbn [app undouble].
  - by rewrite Ascii.eqb_refl, IH.
  - destruct (double_quotes v) as [|d s] eqn:E.
    + destruct v as [|c' v]; [done|]. cbn in E. by destruct (c' =b c_quote)%char.
    + rewrite (proj2 (Ascii.eqb_neq c c_quote)) by done. cbn [andb]. by rewrite IH.
Qed.

Lemma plain_inner_double v : ~ c_bslash ∈ v -> plain_inner (double_quotes v) = true.
Proof.
  induction v as [|c v IH]; intros Hv; [done|]. cbn [double_quotes flat_map]. fold (double_quotes v).
  assert (c <> c_bslash) as Hb by set_solver. specialize (IH ltac:(set_solver)).
  destruct (Ascii.eqb_spec c c_quote) as [->|Hc]; cbn [app plain_inner].
  - by rewrite (proj2 (Ascii.eqb_neq c_quote c_bslash)), Ascii.eqb_refl by done.
  - by rewrite (proj2 (Ascii.eqb_neq c c_bslash)), (proj2 (Ascii.eqb_neq c c_quote)) by done.
Qed.

Lemma plain_inner_spec k inner :
  length inner <= k -> plain_inner inner = true -> exists v, ~ c_bslash ∈ v /\ inner = double_quotes v.
Proof.
  revert inner. induction k as [|k IH]; intros [|c rest] Hk; cbn [plain_inner]; cbn in Hk; try lia;
    try (intros _; exists []; split; [set_solver|done]).
  destruct (Ascii.eqb_spec c c_bslash) as [|Hb]; [done|]. destruct (Ascii.eqb_spec c c_quote) as [->|Hc].
  - destruct rest as [|d rest]; [done|]. destruct (Ascii.eqb_spec d c_quote) as [->|]; [|done]. cbn in Hk.
    intros H. destruct (IH rest ltac:(lia) H) as (v & Hv & ->). exists (c_quote :: v). split; [set_solver|done].
  - intros H. destruct (IH rest ltac:(lia) H) as (v & Hv & ->). exists (c :: v). split; [set_solver|].
    cbn. by rewrite (proj2 (Ascii.eqb_neq c c_quote)).
Qed.

Lemma at_is_lookup s i c : at_is s i c = true <-> s !! i = Some c.
Proof. unfold at_is. destruct (s !! i) as [d|]; [|done]. rewrite Ascii.eqb_eq. naive_solver. Qed.

Lemma quote_sql_shape text :
  (2 <= length text /\ at_is text 0 c_quote = true /\ at_is text (length text - 1) c_quote = true) <->
  text = c_quote :: slice text 1 (length text - 1) ++ [c_quote].
Proof.
  rewrite !at_is_lookup. split.
  - intros (Hl & H0 & H1). destruct text as [|c text]; [done|]. injection H0 as ->.
    destruct text as [|x text] using rev_ind; [cbn in Hl; lia|]. clear IHtext.
    cbn [length] in *. rewrite length_app in *. cbn [length] in *.
    replace (S (length text + 1) - 1) with (S (length text)) in * by lia. change ((text ++ [x]) !! length text = Some c_quote) in H1.
    rewrite list_lookup_middle in H1 by done. injection H1 as ->. f_equal. f_equal.
    unfold slice. cbn [skipn]. replace (S (length text) - 1) with (length text) by lia. by rewrite drop_0, take_app_length.
  - set (inner := slice _ _ _). intros E. rewrite E. cbn [length]. rewrite length_app. cbn [length].
    replace (S (length inner + 1) - 1) with (S (length inner)) by lia. split_and!; [lia|done|].
    change ((inner ++ [c_quote]) !! length inner = Some c_quote). by rewrite list_lookup_middle.
Qed.

Lemma quote_sql_inner v : slice (quote_sql v) 1 (length (quote_sql v) - 1) = double_quotes v.
Proof.
  unfold quote_sql, slice. cbn [length skipn]. rewrite length_app. cbn [length].
  replace (S (length (double_quotes v) + 1) - 1 - 1) with (length (double_quotes v)) by lia. rewrite drop_0. apply take_app_length.
Qed.

Lemma isPlainSQLString_spec text :
  isPlainSQLString text = true <-> exists v, ~ c_bslash ∈ v /\ text = quote_sql v.
Proof.
  unfold isPlainSQLString. split.
  - destruct (_ || _ || _)%bool eqn:E; [done|]. apply orb_false_elim in E as [[E1%Nat.ltb_ge E2]%orb_false_elim E3].
    apply negb_false_iff in E2, E3. intros H. destruct (plain_inner_spec _ _ (Nat.le_refl _) H) as (v & Hv & Ei).
    exists v. split; [done|]. unfold quote_sql. rewrite <- Ei. by apply quote_sql_shape.
  - intros (v & Hv & ->).
    destruct (proj2 (quote_sql_shape (quote_sql v))) as (H1 & H2 & H3); [by rewrite quote_sql_inner|].
    rewrite (proj2 (Nat.ltb_ge _ _) H1), H2, H3. cbn [negb orb]. rewrite quote_sql_inner. by apply plain_inner_double.
Qed.

Lemma unquote_quote v : unquoteSQLString (quote_sql v) = v.
Proof.
  unfold unquoteSQLString. destruct (proj2 (quote_sql_shape (quote_sql v))) as (H1 & H2 & H3); [by rewrite quote_sql_inner|].
  rewrite (proj2 (Nat.leb_le _ _) H1), H2. cbn [andb]. by rewrite quote_sql_inner, undouble_double.
Qed.

(** ** Integers *)

(** Decimal digits without a leading zero. *)
Definition canonical (l : bytes) : Prop :=
  l <> [] /\ isDecimal l = true /\ (l !! 0 = Some "0"%char -> l = ["0"%char]).

Lemma digit_is_digit d : (d < 10)%N -> is_digit (digit d) = true.
Proof.
  intros Hd. assert (d = 0 \/ d = 1 \/ d = 2 \/ d = 3 \/ d = 4 \/ d = 5 \/ d = 6 \/ d = 7 \/ d = 8 \/ d = 9)%N as H by lia.
  by repeat destruct H as [->|H]; [..|subst].
Qed.

Lemma digit_zero d : (d < 10)%N -> digit d = "0"%char -> d = 0%N.
Proof. intros Hd E. apply (f_equal undigit) in E. by rewrite undigit_digit in E by lia. Qed.

Lemma fmt_go_canonical fuel m acc :
  (m < 2 ^ N.of_nat fuel)%N -> fuel <> 0 ->
  exists l, fmt_go fuel 10 m acc = l ++ acc /\ canonical l /\ (m <> 0%N -> l !! 0 <> Some "0"%char).
Proof.
  revert m acc. induction fuel as [|f IH]; intros m acc Hm Hf; [done|]. cbn [fmt_go].
  assert (m mod 10 < 10)%N as Hr by by apply N.mod_lt.
  destruct (N.eqb_spec (m / 10) 0) as [Hz|Hz].
  - exists [digit (m mod 10)]. split; [done|]. assert (m < 10)%N as Hs by (by apply N.div_small_iff in Hz).
    rewrite N.mod_small in * by done. split.
    + split_and!; [done|cbn; by rewrite digit_is_digit|]. by intros [= ->].
    + intros Hm0 [= E]. by apply Hm0, digit_zero.
  - assert (m / 10 < 2 ^ N.of_nat f)%N as Hlt.
    { apply N.Div0.div_lt_upper_bound. rewrite Nat2N.inj_succ, N.pow_succ_r' in Hm. nia. }
    destruct (IH (m / 10)%N (digit (m mod 10) :: acc) Hlt) as (l & E & (H1 & H2 & _) & H4).
    { intros ->. apply Hz, N.lt_1_r, Hlt. }
    exists (l ++ [digit (m mod 10)]). rewrite E, <- app_assoc. split; [done|].
    assert ((l ++ [digit (m mod 10)]) !! 0 <> Some "0"%char) as Hne.
    { rewrite lookup_app_l; [by apply H4|]. destruct l; [done|cbn; lia]. }
    split; [split_and!|done]; [by destruct l| |by intros ?].
    unfold isDecimal in *. rewrite forallb_app, H2. cbn. by rewrite digit_is_digit.
Qed.

Lemma FormatUint_canonical m : canonical (FormatUint m 10).
Proof.
  unfold FormatUint. destruct (fmt_go_canonical (S (N.to_nat (N.log2 m))) m []) as (l & -> & H & _); [|done|by rewrite app_nil_r].
  destruct (decide (m = 0%N)) as [->|Hm]; [cbn; lia|].
  rewrite Nat2N.inj_succ, N2Nat.id. apply N.log2_spec. lia.
Qed.

Lemma undigit_bound c : is_digit c = true -> (undigit c < 10)%N /\ digit (undigit c) = c.
Proof. destruct c as [[] [] [] [] [] [] [] []]; cbn; try done. Qed.

Lemma of_digits_snoc l c : of_digits 10 (l ++ [c]) = (of_digits 10 l * 10 + undigit c)%N.
Proof. unfold of_digits. by rewrite fold_left_app. Qed.

Definition nonzero (l : bytes) : Prop := isDecimal l = true /\ l !! 0 <> Some "0"%char.

Lemma nonzero_snoc l c : nonzero (l ++ [c]) -> nonzero l /\ is_digit c = true.
Proof.
  unfold nonzero, isDecimal. rewrite forallb_app. cbn. intros [[H1 [H2 _]%andb_prop]%andb_prop H3].
  split_and!; [done| |done]. intros H. apply H3. by apply lookup_app_l_Some.
Qed.

Lemma nonzero_pos l : nonzero l -> l <> [] -> of_digits 10 l <> 0%N.
Proof.
  induction l as [|c l IH] using rev_ind; [done|]. intros Hl _. rewrite of_digits_snoc.
  destruct l as [|d l].
  - destruct Hl as [Hd H0]. cbn in Hd, H0. apply andb_prop in Hd as [Hd _].
    destruct (undigit_bound c Hd) as [_ Hc]. intros E. apply H0. rewrite <- Hc.
    replace (undigit c) with 0%N by (cbn in E; lia). done.
  - apply nonzero_snoc in Hl as [Hl _]. specialize (IH Hl ltac:(done)). lia.
Qed.

Lemma nonzero_inj l l' : nonzero l -> nonzero l' -> of_digits 10 l = of_digits 10 l' -> l = l'.
Proof.
  revert l'. induction l as [|c l IH] using rev_ind; intros l' Hl Hl' E.
  - destruct l' as [|d l']; [done|]. exfalso. by apply (nonzero_pos (d :: l')).
  - destruct l' as [|d l'] using rev_ind; [exfalso; apply (nonzero_pos (l ++ [c])); [done|by destruct l|done]|].
    clear IHl'. rewrite !of_digits_snoc in E. apply nonzero_snoc in Hl as [Hl Hc], Hl' as [Hl' Hd].
    apply undigit_bound in Hc as [Hc1 Hc2], Hd as [Hd1 Hd2].
    f_equal; [apply IH; [done|done|lia]|]. f_equal. rewrite <- Hc2, <- Hd2. f_equal. lia.
Qed.

Lemma decimal_unique l l' : canonical l -> canonical l' -> of_digits 10 l = of_digits 10 l' -> l = l'.
Proof.
  assert (forall l, canonical l -> l = ["0"%char] \/ (nonzero l /\ l <> [])) as Hc.
  { intros k (H1 & H2 & H3). destruct (decide (k !! 0 = Some "0"%char)); [left; auto|by right]. }
  intros [->|[H1 H1']]%Hc [->|[H2 H2']]%Hc E; [done|..|by apply nonzero_inj].
  - exfalso. by apply (nonzero_pos l').
  - exfalso. by apply (nonzero_pos l).
Qed.

Lemma whenIntError_spec text :
  whenIntError text = None <-> exists m, (m < 2 ^ 63)%N /\ text = FormatUint m 10.
Proof.
  unfold whenIntError. split.
  - destruct (isDecimal text) eqn:Ed; cbn [negb]; [|done]. destruct (Nat.ltb 1 (length text) && at_is text 0 "0") eqn:Ez; [done|].
    unfold fits_int64. case_bool_decide as En; [done|]. cbn [negb andb].
    destruct (N.ltb_spec (of_digits 10 text) (2 ^ 63)) as [Hlt|]; [|done]. intros _.
    exists (of_digits 10 text). split; [done|]. apply decimal_unique.
    + split_and!; [done..|]. intros H0. apply andb_false_iff in Ez as [Ez%Nat.ltb_ge|Ez].
      * destruct text as [|c [|d text]]; [done| |cbn in Ez; lia]. by injection H0 as ->.
      * apply at_is_lookup in H0. congruence.
    + apply FormatUint_canonical.
    + by rewrite of_digits_FormatUint by lia.
  - intros (m & Hm & ->). destruct (FormatUint_canonical m) as (H1 & H2 & H3). rewrite H2. cbn [negb].
    destruct (Nat.ltb 1 (length (FormatUint m 10)) && at_is (FormatUint m 10) 0 "0") eqn:Ez.
    + apply andb_prop in Ez as [Ez1%Nat.ltb_lt Ez2%at_is_lookup]. rewrite (H3 Ez2) in Ez1. cbn in Ez1. lia.
    + unfold fits_int64. rewrite bool_decide_false by done. cbn [negb andb]. rewrite of_digits_FormatUint by lia.
      by rewrite (proj2 (N.ltb_lt m (2 ^ 63)) Hm).
Qed.

Lemma canonical_integer l : isDecimal l = true ->
  existsb (fun c => bool_decide (c ∈ ["."; "e"; "E"]%char)) l = false.
Proof.
  unfold isDecimal. induction l as [|c l IH]; cbn; [done|]. intros [Hc Hl]%andb_prop. rewrite IH by done.
  rewrite orb_false_r. apply bool_decide_eq_false. intros H. repeat apply elem_of_cons in H as [->|H]; [done..|set_solver].
Qed.

(** ** The guard literals *)

(** The literals of [@when] are exact.  A string token is accepted exactly
    when it is the SQL literal of a value without backslashes, and the guard
    compares with that value, quotes undoubled; a number exactly when it is the
    canonical decimal text of an integer below 2^63; an identifier when it folds
    to a boolean; everything else is refused. *)
Theorem when_literal_exact lit value kind raw :
  when_literal lit = LitAtom value kind raw <->
  (Kind lit = KindString /\ kind = ValueString /\ raw = Text lit /\ Text lit = quote_sql value /\ ~ c_bslash ∈ value) \/
  (Kind lit = KindNumber /\ kind = ValueInt /\ value = Text lit /\ raw = Text lit /\
    exists m, (m < 2 ^ 63)%N /\ Text lit = FormatUint m 10) \/
  (Kind lit = KindIdent /\ kind = ValueBool /\ value = ToLowerBool (Text lit) /\ raw = ToLowerBool (Text lit) /\
    (EqualFoldBool (Text lit) "true" = true \/ EqualFoldBool (Text lit) "false" = true)).
Proof.
  unfold when_literal. case_decide as Es.
  { rewrite Es. unfold whenStringError. destruct (isPlainSQLString (Text lit)) eqn:Ep.
    - apply isPlainSQLString_spec in Ep as (v & Hv & Et). rewrite Et, unquote_quote. split.
      + intros [= <- <- <-]. left. by split_and!.
      + intros [(_ & -> & -> & E & _)|[(? & _)|(? & _)]]; [|done..].
        by rewrite <- (unquote_quote v), <- (unquote_quote value), E.
    - split; [done|]. intros [(_ & _ & _ & E & Hv)|[(? & _)|(? & _)]]; [|done..]. exfalso.
      apply not_true_iff_false in Ep. apply Ep, isPlainSQLString_spec. by exists value. }
  destruct (decide (Kind lit = KindNumber)) as [En|En].
  { rewrite En. rewrite bool_decide_true by done. cbn [andb].
    destruct (existsb _ (Text lit)) eqn:Ex; cbn [negb].
    - rewrite bool_decide_false by done. cbn [andb]. split; [done|].
      intros [(? & _)|[(_ & _ & _ & _ & m & _ & E)|(? & _)]]; [done| |done]. exfalso.
      destruct (FormatUint_canonical m) as (_ & Hd & _). rewrite <- E in Hd. by rewrite canonical_integer in Ex.
    - destruct (whenIntError (Text lit)) as [e|] eqn:Ew.
      + split; [done|]. intros [(? & _)|[(_ & _ & _ & _ & Hm)|(? & _)]]; [done| |done].
        apply whenIntError_spec in Hm. congruence.
      + apply whenIntError_spec in Ew. split; [|naive_solver].
        intros [= <- <- <-]. right. left. by split_and!. }
  rewrite bool_decide_false by done. cbn [andb].
  destruct (decide (Kind lit = KindIdent)) as [Ei|Ei].
  - rewrite Ei, bool_decide_true by done. cbn [andb]. rewrite <- orb_true_iff.
    destruct (_ || _)%bool; naive_solver.
  - rewrite bool_decide_false by done. cbn [andb]. naive_solver.
Qed.
