(* ===== verification/Frontend.v ===== *)
(** * Frontend

    [internal/dialect/frontend.go]: what the compiler asks of a parsed
    statement.  The parsers are third-party code: a [Frontend] is an argument of
    everything that parses, and a [Tree] the record of the answers the policy
    weaver reads. *)

From S2P Require Import Prelude Template Render.

Inductive JoinType := JoinBase | JoinInner | JoinLeft | JoinRight | JoinFull | JoinCross | JoinOther.

Inductive StmtKind := StmtOther | StmtSelect | StmtUpdate | StmtInsert | StmtDelete.

#[export] Instance JoinType_eq_dec : EqDecision JoinType.
Proof. solve_decision. Defined.
#[export] Instance StmtKind_eq_dec : EqDecision StmtKind.
Proof. solve_decision. Defined.

(** [Loc] is a byte offset in the parsed SQL, negative when there is none. *)
Record RelRef := mkRelRef {
  RAlias : bytes; RTable : bytes; RSchema : bytes; ROnly : bool; RLoc : Z; RJoin : JoinType; RNullableSide : bool;
}.

Record TableRef := mkTableRef { TRName : bytes; TRSchema : bytes; TRLoc : Z }.

Record NestedDML := mkNestedDML {
  NKind : StmtKind; NTable : bytes; NSchema : bytes; NUpsert : bool; NLoc : Z;
}.

(** A column reference; [CRScopeAliases] are the relation names of the subquery
    scopes around it. *)
Record ColRef := mkColRef {
  CRFields : list bytes; CRStar : bool; CRLoc : Z; CRInSubquery : bool; CRScopeAliases : list bytes;
}.

(** A projection entry; [TIAggArg] is empty for Go's nil. *)
Record TargetItem := mkTargetItem {
  TIName : bytes; TIStar : bool; TIQualifier : bytes; TIFuncName : bytes;
  TITotal : bool; TIAggArg : list bytes; TISublink : bool; TILoc : Z;
}.

Record ValueTarget := mkValueTarget { VTColumn : bytes; VTQualifier : bytes; VTLoc : Z }.

(** The facade: the answers of its methods, and the identity of the value, by
    which [==] compares two of them.  [SetOpBranches] is [None] for Go's nil,
    [CTETree] for a body that is not a plain query; [HasConflictDelete] is
    [None] when the tree does not implement [ConflictDeleter]. *)
Inductive Tree := mkTree {
  TreeId : N;
  StmtCount : Z;
  TKind : StmtKind;
  Relations : list RelRef;
  DeepTables : list TableRef;
  ColumnRefs : list ColRef;
  TargetItems : list TargetItem;
  TopConjunctLocs : list Z;
  HavingConjunctLocs : list Z;
  OrderByLocs : list Z;
  HasDistinctOn : bool;
  HasLockingClause : bool;
  HasFetchWithTies : bool;
  HasSetOperation : bool;
  SetOpBranches : option (list Tree);
  DerivedRels : list SubRel;
  CTEs : list CTEDef;
  HasUnresolvableProvenance : bool;
  HasGroupingSets : bool;
  HasGroupBy : bool;
  NotNullConjuncts : list ColRef;
  HasConflictUpdate : bool;
  HasConflictDelete : option bool;
  TNestedDML : list NestedDML;
  ValueTargets : list ValueTarget;
}
with SubRel := mkSubRel { SRAlias : bytes; SRNullableSide : bool; SRTree : Tree }
with CTEDef := mkCTEDef { CTEName : bytes; CTERecursive : bool; CTETree : option Tree; CTEPoisonTables : list TableRef }.

(** A statement with relations and tables only. *)
Definition flat_tree (kind : StmtKind) (rels : list RelRef) (deep : list TableRef) : Tree :=
  mkTree 0 1 kind rels deep [] [] [] [] [] false false false false None [] [] false false false [] false None [] [].

(** A [*ParseError], or another error with its text. *)
Inductive FeError := ParseError (pos : Z) (m : bytes) | OtherError (m : bytes).

(** The parser and the probes; a probe gives [None] when the text is one
    complete node of its slot. *)
Record Frontend := mkFrontend {
  Parse : bytes -> result FeError Tree;
  ProbeExpr : bytes -> option FeError;
  ProbeJoinItem : bytes -> option FeError;
  ProbeOrderBy : bytes -> option FeError;
  ProbeOrderByKey : bytes -> option FeError;
  ProbeGroupBy : bytes -> option FeError;
  ProbeSetItem : bytes -> option FeError;
  ProbeInsertValue : bytes -> option FeError;
}.

(** A front end that accepts every fragment. *)
Definition lenient_frontend (parse : bytes -> result FeError Tree) : Frontend :=
  let ok := fun _ => None in mkFrontend parse ok ok ok ok ok ok ok.

(** ** Locate

    Offsets in a rendering, which the parse trees give: the fragment they lie
    in, and the place of the template they come from. *)

(** [loc >= fr.Start && loc < fr.End] *)
Definition in_frag (loc : Z) (fr : FragRange) : bool :=
  (Z.of_nat (FRStart fr) <=? loc)%Z && (loc <? Z.of_nat (FREnd fr))%Z.

(** [r.Map.ToTemplate] at an [int]: no segment starts before 0. *)
Definition template_at (r : Rendering) (loc : Z) : nat * bool :=
  if (loc <? 0)%Z then (0, true) else ToTemplate (RMap r) (Z.to_nat loc).

(** How many of some offsets lie in a fragment. *)
Definition count_in (fr : FragRange) (locs : list Z) : nat := length (List.filter (fun loc => in_frag loc fr) locs).
