(* ===== verification/PolicyScan.v ===== *)
(** * PolicyScan

    [internal/policy/splice.go], the lexical half: the scan of a clause into its
    top-level conjuncts, with the position tracking that keeps a keyword-named
    column from ending it; the WHERE clause of a query and the ON expression of
    a join; the comparison of conjuncts. *)

From S2P Require Import Prelude Dialect Template Frontend.

(** Loops that may return early: the state goes on or a result is returned. *)
Fixpoint until {S R A} (f : S -> A -> S + R) (s : S) (l : list A) : S + R :=
  match l with
  | [] => inl s
  | x :: l' => match f s x with inl s' => until f s' l' | inr r => inr r end
  end.

(** ** Keywords *)

Definition tailKeywords : list bytes := words
  ["GROUP"; "HAVING"; "ORDER"; "LIMIT"; "OFFSET"; "FETCH"; "FOR"; "RETURNING"; "WINDOW"; "UNION"; "INTERSECT"; "EXCEPT"]%string.
Definition joinKeywords : list bytes := words
  ["JOIN"; "INNER"; "LEFT"; "RIGHT"; "FULL"; "CROSS"; "NATURAL"; "STRAIGHT_JOIN"]%string.
Definition infixOperandKeywords : list bytes := words
  ["IS"; "IN"; "LIKE"; "ILIKE"; "GLOB"; "MATCH"; "REGEXP"; "RLIKE"; "BETWEEN"; "SIMILAR"; "ESCAPE"; "COLLATE"; "ANY";
   "ALL"; "SOME"; "OVERLAPS"; "DIV"; "MOD"; "XOR"; "INTERVAL"; "BINARY"; "FROM"; "TO"]%string.

(** ** CASE nesting *)

Record caseNest := mkCases { case_depth : nat; case_bad : bool }.

(** [caseNest.ident] *)
Definition case_ident (c : caseNest) (up : bytes) (expectOperand : bool) : caseNest :=
  if decide (up = bs "CASE") then mkCases (S (case_depth c)) (case_bad c)
  else if decide (up = bs "END") then
    if expectOperand then c
    else match case_depth c with
         | O => mkCases 0 true
         | S d => mkCases d (case_bad c)
         end
  else if one_of (words ["WHEN"; "THEN"; "ELSE"]%string) up then
    if Nat.eqb (case_depth c) 0 then mkCases 0 true else c
  else c.

Definition inCase (c : caseNest) : bool := Nat.ltb 0 (case_depth c).
Definition balanced (c : caseNest) : bool := negb (case_bad c) && Nat.eqb (case_depth c) 0.

(** ** Operand position *)

Definition operand_words : list bytes := words ["AND"; "OR"; "NOT"; "CASE"; "WHEN"; "THEN"; "ELSE"]%string.

Definition afterOperand (tok : Token) (up : bytes) (cur : bool) : bool :=
  match Kind tok with
  | KindNumber | KindString | KindQuotedIdent | KindParamRef | KindPositionalParam | KindRParen => false
  | KindLParen | KindComma | KindOperator | KindCast => true
  | KindOther => if decide (Text tok = bs ".") then true else cur
  | KindIdent => one_of operand_words up || one_of infixOperandKeywords up
  | _ => cur
  end.

(** [strings.Contains(text, "||")] *)
Fixpoint has_pipes (s : bytes) : bool :=
  match s with
  | c :: ((d :: _) as rest) => ((c =b "|") && (d =b "|"))%char || has_pipes rest
  | _ => false
  end.

Definition looseOrOperator (tok : Token) (up : bytes) (dotted pipesOr : bool) : bool :=
  match Kind tok with
  | KindIdent => bool_decide (up = bs "XOR") && negb dotted
  | KindOperator => pipesOr && has_pipes (Text tok)
  | _ => false
  end.

(** ** Segments *)

Record conjTok := mkConjTok { ct_text : bytes; ct_ident : bool; ct_afterDot : bool }.

#[export] Instance conjTok_eq_dec : EqDecision conjTok.
Proof. solve_decision. Defined.

Definition appendConjTok (seg : list conjTok) (tok : Token) : list conjTok :=
  let afterDot := match list.last seg with
                  | Some t => negb (ct_ident t) && bool_decide (ct_text t = bs ".")
                  | None => false
                  end in
  seg ++ [mkConjTok (Text tok) (bool_decide (Kind tok = KindIdent)) afterDot].

Record clauseScan := mkClause {
  segs : list (list conjTok); hasOR : bool; lexOK : bool; cs_start : Z; cs_end : Z;
}.

#[export] Instance clauseScan_eq_dec : EqDecision clauseScan.
Proof. solve_decision. Defined.

Definition cs_empty : clauseScan := mkClause [] false true (-1) (-1).

Record segCollector := mkCol { col_cs : clauseScan; col_cur : list conjTok }.

(** [segCollector.flush] *)
Definition col_flush (c : segCollector) : segCollector :=
  match col_cur c with
  | [] => c
  | cur => let cs := col_cs c in
      mkCol (mkClause (segs cs ++ [cur]) (hasOR cs) (lexOK cs) (cs_start cs) (cs_end cs)) []
  end.

(** [segCollector.content] *)
Definition col_content (c : segCollector) (tok : Token) (abs : Z) : segCollector :=
  let cs := col_cs c in
  let start := if Z.ltb (cs_start cs) 0 then abs else cs_start cs in
  mkCol (mkClause (segs cs) (hasOR cs) (lexOK cs) start (abs + Z.of_nat (End tok) - Z.of_nat (Start tok)))
    (appendConjTok (col_cur c) tok).

Definition col_or (c : segCollector) : segCollector :=
  let cs := col_cs c in mkCol (mkClause (segs cs) true (lexOK cs) (cs_start cs) (cs_end cs)) (col_cur c).
Definition col_bad (c : segCollector) : segCollector :=
  let cs := col_cs c in mkCol (mkClause (segs cs) (hasOR cs) false (cs_start cs) (cs_end cs)) (col_cur c).
Definition cs_unread (cs : clauseScan) : clauseScan := mkClause (segs cs) (hasOR cs) false (cs_start cs) (cs_end cs).

Definition whereBoundary (it : Item) : bool :=
  match it with
  | IOrderBy _ => true
  | IChoose v => bool_decide (ChSlot v = SlotOrderBy) || bool_decide (ChSlot v = SlotGroupBy)
  | IIfPresent v => bool_decide (IPSlot v = SlotOrderBy) || bool_decide (IPSlot v = SlotGroupBy)
  | _ => false
  end.

(** ** The expression scan *)

Record exprScan := mkExpr {
  ex_col : segCollector; expectOperand : bool; ex_pipesOr : bool; ex_cases : caseNest;
}.

Definition newExprScan (profile : LexerProfile) : exprScan :=
  mkExpr (mkCol cs_empty []) true (PipesAreOr profile) (mkCases 0 false).

(** [exprScan.step]: whether the token ends the clause. *)
Definition es_step (e : exprScan) (tok : Token) (up : bytes) (abs : Z) (depth0 dotted : bool) : bool * exprScan :=
  let word := depth0 && bool_decide (Kind tok = KindIdent) && negb dotted in
  let cases := if word then case_ident (ex_cases e) up (expectOperand e) else ex_cases e in
  let top := word && negb (inCase cases) in
  if top && bool_decide (up = bs "AND") then
    (false, mkExpr (col_flush (ex_col e)) true (ex_pipesOr e) cases)
  else if top && bool_decide (up = bs "OR") then
    (false, mkExpr (col_flush (col_or (ex_col e))) true (ex_pipesOr e) cases)
  else if top && negb (expectOperand e) && one_of tailKeywords up then
    (true, mkExpr (col_flush (ex_col e)) (expectOperand e) (ex_pipesOr e) cases)
  else
    let col := if depth0 && negb (inCase cases) && looseOrOperator tok up dotted (ex_pipesOr e)
               then col_or (ex_col e) else ex_col e in
    (false, mkExpr (col_content col tok abs) (afterOperand tok up (expectOperand e)) (ex_pipesOr e) cases).

(** [exprScan.construct] *)
Definition es_construct (e : exprScan) (it : Item) : bool * exprScan :=
  let cases := if inCase (ex_cases e) then mkCases (case_depth (ex_cases e)) true else ex_cases e in
  let col := col_flush (ex_col e) in
  if whereBoundary it then (true, mkExpr col false (ex_pipesOr e) cases)
  else
    let cs := col_cs col in
    (false, mkExpr (mkCol (mkClause (segs cs) (hasOR cs) (lexOK cs) (cs_start cs) (Z.of_nat (SEnd (Raw it)))) (col_cur col))
              false (ex_pipesOr e) cases).

(** [exprScan.result] *)
Definition es_result (e : exprScan) : clauseScan :=
  let cs := col_cs (col_flush (ex_col e)) in
  if balanced (ex_cases e) then cs else cs_unread cs.

(** ** The WHERE clause of a query *)

Definition trivia (tok : Token) : bool :=
  match Kind tok with KindWhitespace | KindLineComment | KindBlockComment => true | _ => false end.
Definition is_dot (tok : Token) : bool := bool_decide (Kind tok = KindOther) && bool_decide (Text tok = bs ".").

Section scans.
Context (ToUpper : bytes -> bytes) (profile : LexerProfile).

(** The upper-cased text of an identifier, the empty string for other tokens. *)
Definition upper_of (tok : Token) : bytes := if decide (Kind tok = KindIdent) then ToUpper (Text tok) else [].

Record whereState := mkWhere { wh_ex : option exprScan; wh_depth : nat; wh_dot : bool }.

Definition wh_result (w : whereState) : clauseScan :=
  match wh_ex w with None => cs_empty | Some ex => es_result ex end.

(** A round of the token loop, on a skeleton that starts at [base]. *)
Definition wh_token (base : nat) (w : whereState) (tok : Token) : whereState + clauseScan :=
  if trivia tok then inl w
  else
    let depth := match Kind tok with
                 | KindLParen => S (wh_depth w)
                 | KindRParen => wh_depth w - 1
                 | _ => wh_depth w
                 end in
    let dotted := wh_dot w in
    let up := upper_of tok in
    let abs := Z.of_nat (base + Start tok) in
    if Nat.eqb depth 0 && bool_decide (Kind tok = KindSemicolon) then inr (wh_result w)
    else
      match wh_ex w with
      | None =>
          if Nat.eqb depth 0 && bool_decide (Kind tok = KindIdent) && bool_decide (up = bs "WHERE") && negb dotted
          then inl (mkWhere (Some (newExprScan profile)) depth (is_dot tok))
          else inl (mkWhere None depth (is_dot tok))
      | Some ex =>
          let '(stop, ex) := es_step ex tok up abs (Nat.eqb depth 0) dotted in
          if stop then inr (es_result ex) else inl (mkWhere (Some ex) depth (is_dot tok))
      end.

Definition wh_item (w : whereState) (it : Item) : whereState + clauseScan :=
  match it with
  | ISkeleton s =>
      let '(toks, err) := tokens (SkText s) in
      match until (wh_token (SStart (SkSpan s))) w toks with
      | inr r => inr r
      | inl w => match err with Some _ => inr (cs_unread (wh_result w)) | None => inl w end
      end
  | _ =>
      match wh_ex w with
      | Some ex =>
          let '(stop, ex) := es_construct ex it in
          if stop then inr (es_result ex) else inl (mkWhere (Some ex) (wh_depth w) false)
      | None => inl (mkWhere None (wh_depth w) false)
      end
  end.

Definition whereClause (q : QueryTemplate) : clauseScan :=
  match until wh_item (mkWhere None 0 false) (QItems q) with
  | inr r => r
  | inl w => wh_result w
  end.

(** ** The ON expression of a join *)

(** [joinKindOf] *)
Definition joinKindOf (up : bytes) : JoinType :=
  if decide (up = bs "LEFT") then JoinLeft
  else if decide (up = bs "RIGHT") then JoinRight
  else if decide (up = bs "FULL") then JoinFull
  else JoinInner.

(** [onGates] *)
Definition onGates (ownJoin : JoinType) (crossedJoinKw : bool) (crossedJoin : JoinType) : bool :=
  if crossedJoinKw then
    match crossedJoin with JoinInner | JoinCross | JoinRight => true | _ => false end
  else
    match ownJoin with JoinInner | JoinLeft => true | _ => false end.

(** [naturalIntroducesRight]: the token loop. *)
Record naturalState := mkNat { nt_run : bool; nt_dot : bool }.

Definition nat_token (relOff base : nat) (st : naturalState) (tok : Token) : naturalState + bool :=
  if trivia tok then inl st
  else if Nat.leb relOff (base + Start tok) then inr (nt_run st)
  else
    let dotted := nt_dot st in
    let up := upper_of tok in
    let run := match Kind tok with
               | KindIdent =>
                   if negb dotted && one_of joinKeywords up
                   then if decide (up = bs "NATURAL") then true else nt_run st
                   else false
               | _ => false
               end in
    inl (mkNat run (is_dot tok)).

Definition nat_item (relOff : nat) (st : naturalState) (it : Item) : naturalState + bool :=
  match it with
  | ISkeleton s =>
      let '(toks, err) := tokens (SkText s) in
      match until (nat_token relOff (SStart (SkSpan s))) st toks with
      | inr r => inr r
      | inl st => match err with Some _ => inr false | None => inl st end
      end
  | _ => inl (mkNat false false)
  end.

Definition naturalIntroducesRight (q : QueryTemplate) (relOff : nat) : bool :=
  match until (nat_item relOff) (mkNat false false) (QItems q) with
  | inr r => r
  | inl st => nt_run st
  end.

Record joinOnResult := mkJoinOn {
  jo_found : bool; jo_noOn : bool; jo_notInSkel : bool; jo_wrongJoin : bool; jo_cs : clauseScan;
}.

Record joinState := mkJoin {
  js_col : segCollector; js_depth : nat; js_inOn : bool;
  js_crossedKw : bool; js_crossed : JoinType; js_anchored : bool; js_second : bool;
  js_dot : bool; js_operand : bool; js_cases : caseNest;
}.

Definition anchors (up : bytes) : bool := one_of (words ["JOIN"; "STRAIGHT_JOIN"]%string) up.
Definition on_enders : list bytes := words ["WHERE"; "SET"]%string.

(** [finish] *)
Definition jo_finish (ownJoin : JoinType) (naturalRight : bool) (s : joinState) : joinOnResult :=
  let cs := col_cs (col_flush (js_col s)) in
  let cs := if js_inOn s && negb (balanced (js_cases s)) then cs_unread cs else cs in
  mkJoinOn (js_inOn s) (negb (js_inOn s)) false
    (js_inOn s && (js_second s || negb (onGates ownJoin (js_crossedKw s) (js_crossed s))
                   || (negb (js_crossedKw s) && naturalRight)))
    cs.

(** A join keyword crossed before the ON. *)
Definition jo_cross (up : bytes) (s : joinState) : joinState :=
  let '(kw, crossed, anchored, second) :=
    if negb (js_crossedKw s) then (true, joinKindOf up, js_anchored s || anchors up, js_second s)
    else if negb (js_anchored s) then (true, js_crossed s, anchors up, js_second s)
    else (true, js_crossed s, true, true) in
  mkJoin (js_col s) (js_depth s) (js_inOn s) kw crossed anchored second (js_dot s) (js_operand s) (js_cases s).

(** The end of a round inside the ON: the token is content. *)
Definition jo_content (tok : Token) (up : bytes) (abs : Z) (dotted : bool) (s : joinState) : joinState :=
  if js_inOn s then
    let col := if Nat.eqb (js_depth s) 0 && negb (inCase (js_cases s)) && looseOrOperator tok up dotted (PipesAreOr profile)
               then col_or (js_col s) else js_col s in
    mkJoin (col_content col tok abs) (js_depth s) true (js_crossedKw s) (js_crossed s) (js_anchored s) (js_second s)
      (js_dot s) (afterOperand tok up (js_operand s)) (js_cases s)
  else s.

Definition jo_set_depth (d : nat) (s : joinState) : joinState :=
  mkJoin (js_col s) d (js_inOn s) (js_crossedKw s) (js_crossed s) (js_anchored s) (js_second s) (js_dot s)
    (js_operand s) (js_cases s).
Definition jo_set_dot (d : bool) (s : joinState) : joinState :=
  mkJoin (js_col s) (js_depth s) (js_inOn s) (js_crossedKw s) (js_crossed s) (js_anchored s) (js_second s) d
    (js_operand s) (js_cases s).
(** The state inside the ON: collected segments, operand position, CASE nesting. *)
Definition jo_enter (col : segCollector) (operand : bool) (cases : caseNest) (s : joinState) : joinState :=
  mkJoin col (js_depth s) true (js_crossedKw s) (js_crossed s) (js_anchored s) (js_second s) (js_dot s) operand cases.

(** The case of an identifier. *)
Definition jo_ident (tok : Token) (up : bytes) (abs : Z) (dotted : bool) (s : joinState) : joinState + joinState :=
  let word := Nat.eqb (js_depth s) 0 && negb dotted in
  if word && negb (js_inOn s) && bool_decide (up = bs "ON") then inl (jo_enter (js_col s) true (js_cases s) s)
  else if word && negb (js_inOn s) && one_of (words ["USING"; "NATURAL"]%string) up then inr s
  else if word && negb (js_inOn s) && (one_of tailKeywords up || one_of on_enders up) then inr s
  else if word && negb (js_inOn s) && one_of joinKeywords up then inl (jo_cross up s)
  else
    let cases := if word && js_inOn s then case_ident (js_cases s) up (js_operand s) else js_cases s in
    let s := mkJoin (js_col s) (js_depth s) (js_inOn s) (js_crossedKw s) (js_crossed s) (js_anchored s) (js_second s)
               (js_dot s) (js_operand s) cases in
    let top := word && js_inOn s && negb (inCase cases) in
    if top && bool_decide (up = bs "AND") then inl (jo_enter (col_flush (js_col s)) true cases s)
    else if top && bool_decide (up = bs "OR") then inl (jo_enter (col_flush (col_or (js_col s))) true cases s)
    else if top && negb (js_operand s)
            && (one_of joinKeywords up || one_of tailKeywords up || one_of on_enders up) then inr s
    else inl (jo_content tok up abs dotted s).

(** A round of the token loop; a state that is returned is finished. *)
Definition jo_token (base : nat) (s : joinState) (tok : Token) : joinState + joinState :=
  if trivia tok then inl s
  else
    let dotted := js_dot s in
    let s := jo_set_dot (is_dot tok) s in
    let up := upper_of tok in
    let abs := Z.of_nat (base + Start tok) in
    let top := Nat.eqb (js_depth s) 0 in
    match Kind tok with
    | KindLParen => inl (jo_content tok up abs dotted (jo_set_depth (S (js_depth s)) s))
    | KindRParen => if top then inr s else inl (jo_content tok up abs dotted (jo_set_depth (js_depth s - 1) s))
    | KindSemicolon | KindComma => if top then inr s else inl (jo_content tok up abs dotted s)
    | KindIdent => jo_ident tok up abs dotted s
    | _ => inl (jo_content tok up abs dotted s)
    end.

(** The items from the relation's on, the first lexed from offset [from]. *)
Fixpoint jo_items (from : nat) (s : joinState) (items : list Item) : joinState :=
  match items with
  | [] => s
  | ISkeleton sk :: rest =>
      let '(toks, err) := lex_stream (S (length (SkText sk))) (SkText sk) from in
      match until (jo_token (SStart (SkSpan sk))) s toks with
      | inr s => s
      | inl s =>
          match err with
          | Some _ => mkJoin (col_bad (js_col s)) (js_depth s) (js_inOn s) (js_crossedKw s) (js_crossed s) (js_anchored s)
                        (js_second s) (js_dot s) (js_operand s) (js_cases s)
          | None => jo_items 0 s rest
          end
      end
  | _ :: _ => s
  end.

(** The skeleton item a template offset is in, with what follows it. *)
Fixpoint from_offset (relOff : nat) (items : list Item) : option (Skeleton * list Item) :=
  match items with
  | [] => None
  | it :: rest =>
      match it with
      | ISkeleton s =>
          if Nat.ltb (SStart (SkSpan s)) (SEnd (SkSpan s)) && Nat.leb (SStart (SkSpan s)) relOff
             && Nat.ltb relOff (SEnd (SkSpan s))
          then Some (s, items) else from_offset relOff rest
      | _ => from_offset relOff rest
      end
  end.

Definition joinOn (q : QueryTemplate) (relOff : nat) (ownJoin : JoinType) : joinOnResult :=
  match from_offset relOff (QItems q) with
  | None => mkJoinOn false false true false cs_empty
  | Some (s, items) =>
      let start := mkJoin (mkCol cs_empty []) 0 false false JoinInner false false false false (mkCases 0 false) in
      jo_finish ownJoin (naturalIntroducesRight q relOff) (jo_items (relOff - SStart (SkSpan s)) start items)
  end.

(** ** The comparison of conjuncts *)

(** [normalizedTokens]: nil is [None] for a text that does not lex and for one
    without significant tokens. *)
Definition content_toks (toks : list Token) : list conjTok :=
  foldl (fun out t => if trivia t then out else appendConjTok out t) [] toks.

Definition normalizedTokens (text : bytes) : option (list conjTok) :=
  let '(toks, err) := tokens text in
  match err with
  | Some _ => None
  | None => match content_toks toks with [] => None | out => Some out end
  end.
End scans.

Definition foldKeywords : list bytes := words
  ["AND"; "OR"; "NOT"; "XOR"; "IS"; "NULL"; "TRUE"; "FALSE"; "IN"; "EXISTS"; "SELECT"; "FROM"; "WHERE"; "AS"; "ON";
   "JOIN"; "INNER"; "LEFT"; "RIGHT"; "CROSS"; "OUTER"; "NATURAL"; "USING"; "LIKE"; "REGEXP"; "RLIKE"; "BETWEEN"; "CASE";
   "WHEN"; "THEN"; "ELSE"; "DISTINCT"; "ALL"; "LIMIT"; "GROUP"; "BY"; "ORDER"; "HAVING"; "UNION"; "INTERVAL"; "BINARY";
   "DIV"; "MOD"; "COLLATE"; "ASC"; "DESC"]%string.

Definition asciiEqualFold (a b : bytes) : bool := bool_decide ((lower1 <$> a) = (lower1 <$> b)).
Definition asciiUpper (s : bytes) : bytes := upper1 <$> s.

Definition conjTokMatch (caseInsensitiveDialect : bool) (a b : conjTok) : bool :=
  if bool_decide (ct_text a = ct_text b) && bool_decide (ct_ident a = ct_ident b) then true
  else if negb (ct_ident a) || negb (ct_ident b) || negb (asciiEqualFold (ct_text a) (ct_text b)) then false
  else if negb caseInsensitiveDialect then true
  else negb (ct_afterDot a) && negb (ct_afterDot b) && one_of foldKeywords (asciiUpper (ct_text a)).

Definition caseInsensitiveIdents (profile : LexerProfile) : bool :=
  match CaseInsensitiveIdents with Some b => b | None => false end.

Definition conjTokensEqual (profile : LexerProfile) (a b : list conjTok) : bool :=
  Nat.eqb (length a) (length b)
  && forallb (fun '(x, y) => conjTokMatch (caseInsensitiveIdents profile) x y) (zip a b).

Definition segsContain (profile : LexerProfile) (segs : list (list conjTok)) (conjunct : bytes) : bool :=
  match normalizedTokens profile conjunct with
  | None => false
  | Some want =>
      let wrapped := mkConjTok (bs "(") false false :: want ++ [mkConjTok (bs ")") false false] in
      existsb (fun seg => conjTokensEqual profile seg want || conjTokensEqual profile seg wrapped) segs
  end.
