(* ===== verification/PolicyClause.v ===== *)
(** * PolicyClause

    The expression scan is the parser of a grammar: a clause is runs of content
    separated by AND and by constructs, a CASE expression being content of its
    run whatever is in it.  The scan reads a clause without objection and
    without OR exactly when it is in the grammar, and its segments are the
    runs. *)

From S2P Require Import Prelude Dialect Template PolicyScan.

(** ** The grammar *)

(** What the scan is fed: a token of the clause, or a construct. *)
Inductive event :=
  | ETok (tok : Token) (up : bytes) (abs : Z) (depth0 dotted : bool)
  | EItem (it : Item).

(** The undotted identifier at the clause's own depth that an event is. *)
Definition word (ev : event) : option bytes :=
  match ev with
  | ETok tok up _ true false => if decide (Kind tok = KindIdent) then Some up else None
  | _ => None
  end.
Definition is_kw (ev : event) (w : string) : bool := bool_decide (word ev = Some (bs w)).

(** The operand position after an event. *)
Definition after (o : bool) (ev : event) : bool :=
  match ev with ETok tok up _ _ _ => afterOperand tok up o | EItem _ => false end.

Definition ev_toks (l : list event) : list Token :=
  omap (fun ev => match ev with ETok tok _ _ _ _ => Some tok | EItem _ => None end) l.

Section grammar.
Context (pipesOr : bool).

Definition loose (ev : event) : bool :=
  match ev with ETok tok up _ depth0 dotted => depth0 && looseOrOperator tok up dotted pipesOr | EItem _ => false end.

(** Content inside a CASE, and at the top level: [o] says that an operand is
    expected, where END and the keywords that end a clause are columns. *)
Definition inside (o : bool) (ev : event) : bool :=
  match ev with EItem _ => false | _ => negb (is_kw ev "CASE") && (o || negb (is_kw ev "END")) end.
Definition plain (o : bool) (ev : event) : bool :=
  inside o ev && negb (loose ev)
  && match word ev with
     | Some w => negb (one_of (words ["AND"; "OR"; "WHEN"; "THEN"; "ELSE"]%string) w) && (o || negb (one_of tailKeywords w))
     | None => true
     end.
Definition allowed (in_case : bool) : bool -> event -> bool := if in_case then inside else plain.

(** A run of content with its CASE expressions, from one operand position to
    another. *)
Inductive run (in_case : bool) : bool -> list event -> bool -> Prop :=
  | run_nil o : run in_case o [] o
  | run_tok o ev l o' : allowed in_case o ev = true -> run in_case (after o ev) l o' -> run in_case o (ev :: l) o'
  | run_case o ev body close l o' :
      is_kw ev "CASE" = true -> run true (after o ev) body false -> is_kw close "END" = true ->
      run in_case (after false close) l o' -> run in_case o (ev :: body ++ close :: l) o'.

(** Runs and what separates them. *)
Inductive clause : bool -> list event -> list (list event) -> Prop :=
  | clause_last o l o' : run false o l o' -> clause o l [l]
  | clause_and o l o' ev rest parts :
      run false o l o' -> is_kw ev "AND" = true -> clause true rest parts -> clause o (l ++ ev :: rest) (l :: parts)
  | clause_item o l o' it rest parts :
      run false o l o' -> whereBoundary it = false -> clause false rest parts -> clause o (l ++ EItem it :: rest) (l :: parts).
End grammar.

(** The conjunct tokens of the runs that are not empty. *)
Definition segment (l : list event) : list conjTok := foldl appendConjTok [] (ev_toks l).
Definition segments (parts : list (list event)) : list (list conjTok) := base.filter (fun s => s <> []) (segment <$> parts).
Arguments segment : simpl never.
Arguments segments : simpl never.

(** ** The scan *)

Definition es_event (e : exprScan) (ev : event) : bool * exprScan :=
  match ev with
  | ETok tok up abs depth0 dotted => es_step e tok up abs depth0 dotted
  | EItem it => es_construct e it
  end.

(** The scan of events none of which ends the clause. *)
Fixpoint es_all (e : exprScan) (l : list event) : option exprScan :=
  match l with
  | [] => Some e
  | ev :: rest => let '(stop, e') := es_event e ev in if stop then None else es_all e' rest
  end.

Definition depth (e : exprScan) : nat := case_depth (ex_cases e).
Definition bad (e : exprScan) : bool := case_bad (ex_cases e).
Definition or_seen (e : exprScan) : bool := hasOR (col_cs (ex_col e)).
Definition flushed (e : exprScan) : list (list conjTok) := segs (col_cs (ex_col e)).
Definition current (e : exprScan) : list conjTok := col_cur (ex_col e).
Definition readable (e : exprScan) : bool := lexOK (col_cs (ex_col e)).

Lemma es_all_app e l1 l2 : es_all e (l1 ++ l2) = e' ← es_all e l1; es_all e' l2.
Proof. revert e. induction l1 as [|ev l1 IH]; intros e; [done|]. cbn. destruct (es_event e ev) as [[] e']; [done|apply IH]. Qed.

(** The effect of content: the token joins the current segment. *)
Record content (e : exprScan) (ev : event) (c : caseNest) (e' : exprScan) : Prop := {
  cn_cases : ex_cases e' = c;
  cn_operand : expectOperand e' = after (expectOperand e) ev;
  cn_pipes : ex_pipesOr e' = ex_pipesOr e;
  cn_or : or_seen e' = or_seen e;
  cn_ok : readable e' = readable e;
  cn_segs : flushed e' = flushed e;
  cn_cur : current e' = foldl appendConjTok (current e) (ev_toks [ev]);
}.

(** The case nesting after an event. *)
Definition cases_after (e : exprScan) (ev : event) : caseNest :=
  match word ev with Some w => case_ident (ex_cases e) w (expectOperand e) | None => ex_cases e end.

Definition is_item (ev : event) : bool := match ev with EItem _ => true | _ => false end.

(** A step, by the word its token is. *)
Definition feed (e : exprScan) (tok : Token) (ev : event) (abs : Z) : bool * exprScan :=
  let c := cases_after e ev in
  (false, mkExpr (col_content (if negb (inCase c) && loose (ex_pipesOr e) ev then col_or (ex_col e) else ex_col e) tok abs)
            (after (expectOperand e) ev) (ex_pipesOr e) c).

Lemma event_step e tok up abs d dot : let ev := ETok tok up abs d dot in
  es_event e ev =
  match word ev with
  | Some w =>
      let c := cases_after e ev in
      if inCase c then feed e tok ev abs
      else if bool_decide (w = bs "AND") then (false, mkExpr (col_flush (ex_col e)) true (ex_pipesOr e) c)
      else if bool_decide (w = bs "OR") then (false, mkExpr (col_flush (col_or (ex_col e))) true (ex_pipesOr e) c)
      else if negb (expectOperand e) && one_of tailKeywords w
      then (true, mkExpr (col_flush (ex_col e)) (expectOperand e) (ex_pipesOr e) c)
      else feed e tok ev abs
  | None => feed e tok ev abs
  end.
Proof.
  cbn [es_event word]. unfold es_step, feed, cases_after. cbn [word loose after].
  destruct d, dot; cbn [andb negb]; rewrite ?andb_false_r, ?andb_true_r; cbn [andb];
    try (by destruct (negb (inCase (ex_cases e))), (looseOrOperator _ _ _ _)).
  2-3: by destruct (inCase (ex_cases e)).
  case_decide as Ek; [rewrite bool_decide_eq_true_2 by done|rewrite bool_decide_eq_false_2 by done]; cbn [andb].
  - by destruct (inCase (case_ident (ex_cases e) up (expectOperand e))).
  - by destruct (inCase (ex_cases e)).
Qed.

(** In a CASE, or on a word that is no keyword of the clause, a token is
    content. *)
Lemma event_content e ev : is_item ev = false ->
  (inCase (cases_after e ev) = true \/
   (loose (ex_pipesOr e) ev = false /\
    match word ev with
    | Some w => w <> bs "AND" /\ w <> bs "OR" /\ (expectOperand e || negb (one_of tailKeywords w)) = true
    | None => True
    end)) ->
  exists e', es_event e ev = (false, e') /\ content e ev (cases_after e ev) e'.
Proof.
  destruct ev as [tok up abs d dot|it]; [|done]. intros _ H. rewrite event_step. cbv zeta.
  set (ev := ETok tok up abs d dot) in *.
  assert (negb (inCase (cases_after e ev)) && loose (ex_pipesOr e) ev = false) as Hl.
  { destruct H as [->|[-> _]]; [done|apply andb_false_r]. }
  assert (exists e', feed e tok ev abs = (false, e') /\ content e ev (cases_after e ev) e') as Hf.
  { unfold feed. rewrite Hl. eexists. split; [done|]. by split. }
  destruct (word ev) as [w|]; [|done]. destruct (inCase (cases_after e ev)); [done|].
  destruct H as [|(_ & H2 & H3 & H4)]; [done|]. rewrite !bool_decide_eq_false_2 by done.
  destruct (expectOperand e); cbn [negb andb orb] in *; [done|]. by apply negb_true_iff in H4 as ->.
Qed.

Lemma is_kw_word ev w : is_kw ev w = true -> word ev = Some (bs w).
Proof. apply bool_decide_eq_true. Qed.
Lemma is_kw_item ev w : is_kw ev w = true -> is_item ev = false.
Proof. by destruct ev. Qed.

Lemma is_kw_false ev w x : is_kw ev w = false -> word ev = Some x -> x <> bs w.
Proof. intros H%bool_decide_eq_false Hw ->. done. Qed.

Lemma one_of_false l w x : one_of l w = false -> x ∈ l -> w <> x.
Proof. intros H%bool_decide_eq_false Hx ->. done. Qed.

(** A word that opens, closes or divides no CASE leaves the nesting alone. *)
Lemma case_ident_other c w o :
  w <> bs "CASE" -> (w = bs "END" -> o = true) ->
  (one_of (words ["WHEN"; "THEN"; "ELSE"]%string) w = true -> inCase c = true) -> case_ident c w o = c.
Proof.
  intros H1 H2 H3. unfold case_ident. rewrite decide_False by done. case_decide as E; [by rewrite (H2 E)|].
  destruct (one_of _ w); [|done]. specialize (H3 eq_refl). unfold inCase in H3. apply Nat.ltb_lt in H3.
  destruct (case_depth c); [lia|done].
Qed.

Lemma allowed_cases in_case e ev : in_case = inCase (ex_cases e) ->
  allowed (ex_pipesOr e) in_case (expectOperand e) ev = true -> cases_after e ev = ex_cases e.
Proof.
  intros Hi Ha. unfold cases_after. destruct (word ev) as [w|] eqn:Ew; [|done].
  assert (inside (expectOperand e) ev = true) as Hin.
  { destruct in_case; [done|]. cbn in Ha. unfold plain in Ha. by apply andb_prop in Ha as [[? _]%andb_prop _]. }
  unfold inside in Hin. destruct ev as [tok up abs d dot|it]; [|done].
  apply andb_prop in Hin as [Hc%negb_true_iff He]. apply case_ident_other.
  - by eapply is_kw_false.
  - intros ->. apply orb_prop in He as [?|He%negb_true_iff]; [done|]. by pose proof (is_kw_false _ _ _ He Ew).
  - intros Hw. rewrite <- Hi. destruct in_case; [done|]. cbn [allowed] in Ha. unfold plain in Ha.
    rewrite Ew in Ha. apply andb_prop in Ha as [_ [Hn%negb_true_iff _]%andb_prop].
    apply bool_decide_eq_true in Hw. exfalso. eapply (one_of_false _ _ w Hn); [|done]. cbn in *. set_solver.
Qed.

Lemma allowed_content in_case e ev : in_case = inCase (ex_cases e) ->
  allowed (ex_pipesOr e) in_case (expectOperand e) ev = true ->
  exists e', es_event e ev = (false, e') /\ content e ev (ex_cases e) e'.
Proof.
  intros Hi Ha. rewrite <- (allowed_cases in_case e ev Hi Ha). apply event_content.
  - destruct ev; [done|]. by destruct in_case.
  - rewrite (allowed_cases in_case e ev Hi Ha), <- Hi. destruct in_case; [by left|right]. cbn [allowed] in Ha. unfold plain in Ha.
    apply andb_prop in Ha as [[_ Hl%negb_true_iff]%andb_prop Hw]. split; [done|]. destruct (word ev) as [w|]; [|done].
    apply andb_prop in Hw as [Hn%negb_true_iff Ht]. split_and!; [eapply one_of_false; [done|cbn; set_solver]..|done].
Qed.

Lemma case_open e ev : is_kw ev "CASE" = true ->
  exists e', es_event e ev = (false, e') /\ content e ev (mkCases (S (depth e)) (bad e)) e'.
Proof.
  intros Hk. pose proof (is_kw_word _ _ Hk) as Hw.
  assert (cases_after e ev = mkCases (S (depth e)) (bad e)) as E by (unfold cases_after; by rewrite Hw).
  rewrite <- E. apply event_content; [by eapply is_kw_item|]. left. by rewrite E.
Qed.

Lemma case_close e ev d : is_kw ev "END" = true -> depth e = S d -> expectOperand e = false ->
  exists e', es_event e ev = (false, e') /\ content e ev (mkCases d (bad e)) e'.
Proof.
  intros Hk Hd Ho. pose proof (is_kw_word _ _ Hk) as Hw.
  assert (cases_after e ev = mkCases d (bad e)) as E.
  { unfold cases_after. rewrite Hw, Ho. unfold case_ident. cbn. unfold depth in Hd. by rewrite Hd. }
  rewrite <- E. apply event_content; [by eapply is_kw_item|]. right. rewrite Hw, Ho. split.
  - destruct ev as [tok up abs [] []|it]; try done. cbn in Hw |- *. case_decide as Hi; [|done]. injection Hw as ->. unfold looseOrOperator. by rewrite Hi.
  - split_and!; done.
Qed.

(** ** Runs are scanned as one segment *)

Record scanned_run (e : exprScan) (l : list event) (o : bool) (e' : exprScan) : Prop := {
  sr_cases : ex_cases e' = ex_cases e;
  sr_operand : expectOperand e' = o;
  sr_pipes : ex_pipesOr e' = ex_pipesOr e;
  sr_or : or_seen e' = or_seen e;
  sr_ok : readable e' = readable e;
  sr_segs : flushed e' = flushed e;
  sr_cur : current e' = foldl appendConjTok (current e) (ev_toks l);
}.

Lemma ev_toks_app l1 l2 : ev_toks (l1 ++ l2) = ev_toks l1 ++ ev_toks l2.
Proof. apply list.omap_app. Qed.

Lemma run_scan pipes in_case o l o' : run pipes in_case o l o' ->
  forall e, ex_pipesOr e = pipes -> in_case = inCase (ex_cases e) -> expectOperand e = o ->
  exists e', es_all e l = Some e' /\ scanned_run e l o' e'.
Proof.
  induction 1 as [in_case o|in_case o ev l o' Ha _ IH|in_case o ev body close l o' Ho _ IHb Hc _ IHl]; intros e Hp Hi Hop.
  - exists e. split; [done|]. by split.
  - rewrite <- Hp, <- Hop in Ha. destruct (allowed_content in_case e ev Hi Ha) as (e1 & E1 & C1).
    destruct (IH e1) as (e2 & E2 & S2); [by rewrite (cn_pipes _ _ _ _ C1)|by rewrite (cn_cases _ _ _ _ C1)|by rewrite (cn_operand _ _ _ _ C1), Hop|].
    exists e2. split; [cbn; by rewrite E1|]. destruct C1, S2. split; try congruence.
    change (ev_toks (ev :: l)) with (ev_toks ([ev] ++ l)). rewrite ev_toks_app, foldl_app. congruence.
  - destruct (case_open e ev Ho) as (e1 & E1 & C1).
    destruct (IHb e1) as (e2 & E2 & S2); [by rewrite (cn_pipes _ _ _ _ C1)|by rewrite (cn_cases _ _ _ _ C1)|by rewrite (cn_operand _ _ _ _ C1), Hop|].
    destruct (case_close e2 close (depth e) Hc) as (e3 & E3 & C3).
    { unfold depth at 1. by rewrite (sr_cases _ _ _ _ S2), (cn_cases _ _ _ _ C1). }
    { by rewrite (sr_operand _ _ _ _ S2). }
    assert (ex_cases e3 = ex_cases e) as Ec3.
    { rewrite (cn_cases _ _ _ _ C3). unfold bad. rewrite (sr_cases _ _ _ _ S2), (cn_cases _ _ _ _ C1). cbn [case_bad]. unfold depth, bad. by destruct (ex_cases e). }
    destruct (IHl e3) as (e4 & E4 & S4).
    { by rewrite (cn_pipes _ _ _ _ C3), (sr_pipes _ _ _ _ S2), (cn_pipes _ _ _ _ C1). }
    { by rewrite Ec3. }
    { by rewrite (cn_operand _ _ _ _ C3), (sr_operand _ _ _ _ S2). }
    exists e4. split; [cbn; rewrite E1, es_all_app, E2; cbn; by rewrite E3|].
    change (ev :: body ++ close :: l) with ([ev] ++ body ++ [close] ++ l). destruct C1, S2, C3, S4. split; try congruence.
    rewrite !ev_toks_app, !foldl_app. congruence.
Qed.

(** ** The grammar is read *)

Definition nonempty (s : list conjTok) : list (list conjTok) := match s with [] => [] | _ => [s] end.

Lemma segments_cons l parts : segments (l :: parts) = nonempty (segment l) ++ segments parts.
Proof. unfold segments. cbn. destruct (segment l); cbn; [done|by rewrite decide_True]. Qed.

Lemma flush_spec c : segs (col_cs (col_flush c)) = segs (col_cs c) ++ nonempty (col_cur c) /\ col_cur (col_flush c) = [] /\
  hasOR (col_cs (col_flush c)) = hasOR (col_cs c) /\ lexOK (col_cs (col_flush c)) = lexOK (col_cs c).
Proof. unfold col_flush. destruct (col_cur c) eqn:E; cbn; rewrite ?E, ?app_nil_r; done. Qed.

Lemma and_event e ev : is_kw ev "AND" = true -> inCase (ex_cases e) = false ->
  es_event e ev = (false, mkExpr (col_flush (ex_col e)) true (ex_pipesOr e) (ex_cases e)).
Proof.
  intros Hk%is_kw_word Hi. destruct ev as [tok up abs [] []|it]; try done. cbn in Hk. case_decide as Ek; [|done].
  injection Hk as ->. cbn [es_event]. unfold es_step. rewrite bool_decide_eq_true_2 by done. cbn [andb negb].
  rewrite case_ident_other by done. by rewrite Hi.
Qed.

Lemma item_event e it : whereBoundary it = false -> inCase (ex_cases e) = false ->
  exists e', es_event e (EItem it) = (false, e') /\ ex_cases e' = ex_cases e /\ expectOperand e' = false /\ ex_pipesOr e' = ex_pipesOr e /\
    ex_col e' = mkCol (mkClause (flushed e ++ nonempty (current e)) (or_seen e) (readable e) (cs_start (col_cs (col_flush (ex_col e))))
      (Z.of_nat (SEnd (Raw it)))) [].
Proof.
  intros Hw Hi. cbn [es_event]. unfold es_construct. rewrite Hi, Hw. eexists. split; [done|]. cbn.
  destruct (flush_spec (ex_col e)) as (-> & -> & -> & ->). done.
Qed.

Lemma clause_scan pipes o l parts : clause pipes o l parts ->
  forall e, ex_pipesOr e = pipes -> inCase (ex_cases e) = false -> expectOperand e = o -> current e = [] ->
  exists e', es_all e l = Some e' /\ ex_cases e' = ex_cases e /\ or_seen e' = or_seen e /\ readable e' = readable e /\
    segs (col_cs (col_flush (ex_col e'))) = flushed e ++ segments parts.
Proof.
  induction 1 as [o l o' Hr|o l o' ev rest parts Hr Hk _ IH|o l o' it rest parts Hr Hw _ IH]; intros e Hp Hi Ho Hc;
    destruct (run_scan _ _ _ _ _ Hr e Hp (eq_sym Hi) Ho) as (e1 & E1 & S1); destruct S1 as [S1 S2 S3 S4 S5 S6 S7];
    rewrite Hc in S7.
  - exists e1. split_and!; [done..|]. destruct (flush_spec (ex_col e1)) as (-> & _). fold (flushed e1) (current e1).
    rewrite S6, S7, segments_cons. unfold segments. cbn. by rewrite app_nil_r.
  - pose proof (and_event e1 ev Hk) as E2. rewrite S1 in E2. specialize (E2 Hi).
    destruct (flush_spec (ex_col e1)) as (F1 & F2 & F3 & F4).
    destruct (IH (mkExpr (col_flush (ex_col e1)) true (ex_pipesOr e1) (ex_cases e))) as (e' & E3 & H1 & H2 & H3 & H4); [cbn; congruence|done..|].
    exists e'. split; [rewrite es_all_app, E1; cbn; by rewrite E2|]. unfold or_seen, readable, flushed in *. cbn in *. split_and!; [done|congruence..|].
    rewrite H4, F1, segments_cons, app_assoc. f_equal. f_equal; [done|]. unfold current in S7. by rewrite S7.
  - destruct (item_event e1 it Hw) as (e2 & E2 & G1 & G2 & G3 & G4); [by rewrite S1|].
    destruct (IH e2) as (e' & E3 & H1 & H2 & H3 & H4); [congruence|by rewrite G1, S1|done|unfold current; by rewrite G4|].
    exists e'. split; [rewrite es_all_app, E1; cbn [mbind option_bind es_all]; by rewrite E2|].
    unfold or_seen, readable, flushed in *. rewrite G4 in *. cbn in *. split_and!; [congruence..|].
    rewrite H4, segments_cons, app_assoc, S6. f_equal. f_equal. unfold current in S7 |- *. by rewrite S7.
Qed.

(** ** What is read is in the grammar *)

Lemma case_ident_bad c w o : case_bad c = true -> case_bad (case_ident c w o) = true.
Proof.
  intros H. unfold case_ident. destruct c as [d b]. cbn in *. subst. repeat (case_decide || case_match); done.
Qed.

(** Objections stay. *)
Lemma event_mono e ev e' : es_event e ev = (false, e') -> ex_pipesOr e' = ex_pipesOr e /\
  (bad e = true -> bad e' = true) /\ (or_seen e = true -> or_seen e' = true).
Proof.
  destruct ev as [tok up abs d dot|it]; cbn [es_event].
  - unfold es_step. set (c := if d && _ && _ then _ else _).
    assert (bad e = true -> case_bad c = true) as Hb by (unfold c; case_match; [apply case_ident_bad|done]).
    destruct (flush_spec (ex_col e)) as (_ & _ & F & _). destruct (flush_spec (col_or (ex_col e))) as (_ & _ & F' & _).
    repeat (case_match; try done); intros [= <-]; unfold or_seen; cbn; rewrite ?F, ?F'; done.
  - unfold es_construct. destruct (whereBoundary it); [done|]. intros [= <-]. destruct (flush_spec (ex_col e)) as (_ & _ & F & _).
    unfold or_seen, bad. cbn [ex_cases ex_col col_cs hasOR]. rewrite F. split_and!; [done| |done]. by destruct (inCase (ex_cases e)).
Qed.

Lemma all_mono e l e' : es_all e l = Some e' -> (bad e = true -> bad e' = true) /\ (or_seen e = true -> or_seen e' = true).
Proof.
  revert e. induction l as [|ev l IH]; intros e; cbn; [by intros [= <-]|].
  destruct (es_event e ev) as [[] e1] eqn:E; [done|]. intros H%IH. apply event_mono in E. naive_solver.
Qed.

Lemma item_inside e it e' : es_event e (EItem it) = (false, e') -> inCase (ex_cases e) = true -> bad e' = true.
Proof. cbn [es_event]. unfold es_construct. intros H Hi. rewrite Hi in H. destruct (whereBoundary it); [done|]. by injection H as <-. Qed.

(** A CASE that is open closes. *)
Lemma scan_inner n : forall l e e' d, length l <= n -> es_all e l = Some e' -> depth e = S d -> depth e' <= d -> bad e' = false ->
  exists body close rest e1, l = body ++ close :: rest /\ run (ex_pipesOr e) true (expectOperand e) body false /\
    is_kw close "END" = true /\ es_all e1 rest = Some e' /\ depth e1 = d /\ ex_pipesOr e1 = ex_pipesOr e /\
    expectOperand e1 = after false close.
Proof.
  induction n as [|n IH]; intros l e e' d Hn Hl Hd Hd' Hb; (destruct l as [|ev l]; [cbn in Hl; injection Hl as <-; lia|]); cbn in Hn; [lia|].
  cbn in Hl. destruct (es_event e ev) as [[] e1] eqn:E; [done|].
  pose proof (proj1 (event_mono _ _ _ E)) as Hp. pose proof (proj1 (all_mono _ _ _ Hl)) as Hbm.
  assert (inCase (ex_cases e) = true) as Hin by (unfold inCase; fold (depth e); by rewrite Hd).
  destruct (is_item ev) eqn:Eit.
  { destruct ev as [|it]; [done|]. pose proof (item_inside _ _ _ E Hin) as Hbe. rewrite Hbm in Hb; done. }
  destruct (is_kw ev "CASE") eqn:Ecase.
  { destruct (case_open e ev Ecase) as (e1' & E' & C). rewrite E in E'. injection E' as <-.
    destruct (IH l e1 e' (S d)) as (b1 & c1 & r1 & e2 & -> & R1 & K1 & A1 & D1 & P1 & O1); [lia|done| |lia|done|].
    { unfold depth. rewrite (cn_cases _ _ _ _ C). cbn. by rewrite Hd. }
    rewrite length_app in Hn. cbn in Hn.
    destruct (IH r1 e2 e' d) as (b2 & c2 & r2 & e3 & -> & R2 & K2 & A2 & D2 & P2 & O2); [lia|done..|].
    exists (ev :: b1 ++ c1 :: b2), c2, r2, e3. split_and!; [cbn; by rewrite <- app_assoc| |done..|congruence|done].
    rewrite (cn_operand _ _ _ _ C) in R1. rewrite O1, P1, Hp in R2. rewrite Hp in R1. by apply run_case. }
  destruct (is_kw ev "END" && negb (expectOperand e)) eqn:Eend.
  { apply andb_prop in Eend as [Eend Ho%negb_true_iff]. destruct (case_close e ev d Eend Hd Ho) as (e1' & E' & C).
    rewrite E in E'. injection E' as <-. exists [], ev, l, e1. rewrite Ho. split_and!; [done|constructor|done|done| |done|].
    - unfold depth. by rewrite (cn_cases _ _ _ _ C).
    - rewrite (cn_operand _ _ _ _ C). by rewrite Ho. }
  assert (inside (expectOperand e) ev = true) as Hins.
  { unfold inside. destruct ev; [|done]. rewrite Ecase. cbn [negb andb]. by destruct (expectOperand e), (is_kw _ "END"). }
  destruct (allowed_content true e ev (eq_sym Hin) Hins) as (e1' & E' & C). rewrite E in E'. injection E' as <-.
  destruct (IH l e1 e' d) as (b & c & r & e2 & -> & R & K & A & D & P & O); [lia|done| |done|done|].
  { unfold depth. rewrite (cn_cases _ _ _ _ C). exact Hd. }
  exists (ev :: b), c, r, e2. split_and!; [done| |done..|congruence|done].
  rewrite (cn_operand _ _ _ _ C), Hp in R. by apply run_tok.
Qed.

(** What stands before a clause. *)
Lemma clause_run pipes o1 l1 o2 l parts : (forall l' o', run pipes false o2 l' o' -> run pipes false o1 (l1 ++ l') o') ->
  clause pipes o2 l parts -> exists parts', clause pipes o1 (l1 ++ l) parts'.
Proof.
  intros Hr Hc. inversion Hc; subst; eexists; rewrite ?(app_assoc l1).
  - eapply clause_last. eauto.
  - eapply clause_and; eauto.
  - eapply clause_item; eauto.
Qed.

(** Outside every CASE, a word that opens none leaves it so, or is in the
    wrong place. *)
Lemma case_ident_shut c w o : inCase c = false -> w <> bs "CASE" ->
  inCase (case_ident c w o) = false /\
  (case_bad (case_ident c w o) = false -> (w = bs "END" -> o = true) /\ w ∉ words ["WHEN"; "THEN"; "ELSE"]%string).
Proof.
  unfold inCase. destruct c as [[|d] b]; [|done]. intros _ Hw. unfold case_ident. rewrite decide_False by done. cbn [case_depth case_bad].
  case_decide as E; [subst w; destruct o; [|done]|].
  - split; [done|]. intros _. split; [done|]. unfold words. cbn. set_solver.
  - destruct (one_of (words ["WHEN"; "THEN"; "ELSE"]%string) w) eqn:Eo; cbn; split; try done.
    intros _. split; [done|]. by apply bool_decide_eq_false in Eo.
Qed.

(** What an event outside every CASE is. *)
Lemma outer_event e ev e' : es_event e ev = (false, e') -> inCase (ex_cases e) = false -> bad e' = false -> or_seen e' = false ->
  (exists it, ev = EItem it /\ whereBoundary it = false) \/ is_kw ev "AND" = true \/ is_kw ev "CASE" = true \/
  plain (ex_pipesOr e) (expectOperand e) ev = true.
Proof.
  intros E Hi Hb Ho. destruct ev as [tok up abs d dot|it].
  2:{ left. exists it. split; [done|]. cbn [es_event] in E. unfold es_construct in E. by destruct (whereBoundary it). }
  right. rewrite event_step in E. cbv zeta in E. set (ev := ETok tok up abs d dot) in *.
  destruct (is_kw ev "AND") eqn:Eand; [by left|]. right. destruct (is_kw ev "CASE") eqn:Ecase; [by left|]. right.
  assert (feed e tok ev abs = (false, e') -> inCase (cases_after e ev) = false ->
    loose (ex_pipesOr e) ev = false /\ case_bad (cases_after e ev) = false) as Hl.
  { unfold feed. intros Hf Hc. rewrite Hc in Hf. destruct (loose _ ev); injection Hf as <-; done. }
  unfold plain, inside. change (match ev with EItem _ => false | ETok _ _ _ _ _ => ?x end) with x. rewrite Ecase. cbn [negb andb].
  unfold cases_after in *. unfold is_kw in *. destruct (word ev) as [w|] eqn:Ew.
  2:{ destruct (Hl E Hi) as [-> _]. cbn. by rewrite orb_true_r. }
  apply bool_decide_eq_false in Eand, Ecase.
  destruct (case_ident_shut (ex_cases e) w (expectOperand e) Hi) as [Hc Hcb]; [congruence|]. rewrite Hc in E.
  rewrite bool_decide_eq_false_2 in E by congruence. case_bool_decide as Eor.
  { injection E as <-. unfold or_seen in Ho. cbn in Ho. by rewrite (proj1 (proj2 (proj2 (flush_spec _)))) in Ho. }
  destruct (negb (expectOperand e) && one_of tailKeywords w) eqn:Et; [done|].
  destruct (Hl E Hc) as [-> Hcb']. destruct (Hcb Hcb') as [Hend Hwhen].
  assert (one_of (words ["AND"; "OR"; "WHEN"; "THEN"; "ELSE"]%string) w = false) as ->.
  { apply bool_decide_eq_false. unfold words in *. cbn in *. set_solver. }
  cbn [negb andb]. apply andb_true_intro. rewrite andb_true_r. split.
  - case_bool_decide as Ee; [|by rewrite orb_true_r]. injection Ee as ->. by rewrite Hend.
  - destruct (expectOperand e); [done|]. cbn in Et |- *. by rewrite Et.
Qed.

Lemma scan_clause n : forall l e e', length l <= n -> es_all e l = Some e' -> inCase (ex_cases e) = false ->
  depth e' = 0 -> bad e' = false -> or_seen e' = false -> exists parts, clause (ex_pipesOr e) (expectOperand e) l parts.
Proof.
  induction n as [|n IH]; intros l e e' Hn Hl Hi Hd Hb Ho; (destruct l as [|ev l]; [exists [[]]; eapply clause_last, run_nil|]);
    cbn in Hn; [lia|].
  cbn in Hl. destruct (es_event e ev) as [[] e1] eqn:E; [done|].
  destruct (event_mono _ _ _ E) as (Hp & _). pose proof (all_mono _ _ _ Hl) as [Hm1 Hm2].
  assert (bad e1 = false) as Hb1 by (destruct (bad e1); [by rewrite Hm1 in Hb|done]).
  assert (or_seen e1 = false) as Ho1 by (destruct (or_seen e1); [by rewrite Hm2 in Ho|done]).
  destruct (outer_event _ _ _ E Hi Hb1 Ho1) as [(it & -> & Hw)|[Hk|[Hk|Hpl]]].
  - destruct (item_event e it Hw Hi) as (e1' & E' & G1 & G2 & G3 & _). rewrite E in E'. injection E' as <-.
    destruct (IH l e1 e') as [parts Hc]; [lia|done|by rewrite G1|done..|]. rewrite Hp, G2 in Hc.
    exists ([] :: parts). by eapply (clause_item _ _ []); [constructor|done|].
  - rewrite (and_event _ _ Hk Hi) in E. injection E as <-.
    destruct (IH l (mkExpr (col_flush (ex_col e)) true (ex_pipesOr e) (ex_cases e)) e') as [parts Hc]; [lia|exact Hl|done..|]. cbn in Hc.
    exists ([] :: parts). by eapply (clause_and _ _ []); [constructor|done|].
  - destruct (case_open e ev Hk) as (e1' & E' & C). rewrite E in E'. injection E' as <-.
    destruct (scan_inner n l e1 e' (depth e)) as (body & close & rest & e2 & -> & R & K & A & D & P & O); [lia|done| |lia|done|].
    { unfold depth. by rewrite (cn_cases _ _ _ _ C). }
    rewrite length_app in Hn. cbn in Hn.
    assert (inCase (ex_cases e2) = false) as Hi2 by (unfold inCase, depth in *; by rewrite D).
    destruct (IH rest e2 e') as [parts Hc]; [lia|done..|]. rewrite P, Hp, O in Hc.
    rewrite (cn_operand _ _ _ _ C), Hp in R.
    change (ev :: body ++ close :: rest) with ((ev :: body ++ [close] ++ rest)).
    replace (ev :: body ++ [close] ++ rest) with ((ev :: body ++ [close]) ++ rest) by (cbn; by rewrite <- app_assoc).
    eapply clause_run; [|exact Hc]. intros l' o' Hr. cbn. rewrite <- app_assoc. cbn. by apply run_case.
  - assert (allowed (ex_pipesOr e) false (expectOperand e) ev = true) as Ha by done.
    destruct (allowed_content false e ev (eq_sym Hi) Ha) as (e1' & E' & C). rewrite E in E'. injection E' as <-.
    destruct (IH l e1 e') as [parts Hc]; [lia|done|by rewrite (cn_cases _ _ _ _ C)|done..|].
    rewrite Hp, (cn_operand _ _ _ _ C) in Hc.
    apply (clause_run _ _ [ev] _ _ _ ltac:(intros l' o' Hr; by apply run_tok) Hc).
Qed.

(** ** The events of a WHERE clause *)

(** What [whereClause] feeds its scan: everything after the first WHERE at depth
    zero, up to the statement's semicolon; [true] when the text stops lexing. *)
Section events.
Context (ToUpper : bytes -> bytes) {profile : LexerProfile}.

Record collector := mkCollect { wc_evs : option (list event); wc_depth : nat; wc_dot : bool }.

Definition wc_token (base : nat) (s : collector) (tok : Token) : collector + option (list event) :=
  if trivia tok then inl s
  else
    let d := match Kind tok with KindLParen => S (wc_depth s) | KindRParen => wc_depth s - 1 | _ => wc_depth s end in
    let up := upper_of ToUpper tok in
    if Nat.eqb d 0 && bool_decide (Kind tok = KindSemicolon) then inr (wc_evs s)
    else
      let evs :=
        match wc_evs s with
        | None =>
            if Nat.eqb d 0 && bool_decide (Kind tok = KindIdent) && bool_decide (up = bs "WHERE") && negb (wc_dot s)
            then Some [] else None
        | Some l => Some (l ++ [ETok tok up (Z.of_nat (base + Start tok)) (Nat.eqb d 0) (wc_dot s)])
        end in
      inl (mkCollect evs d (is_dot tok)).

Definition wc_item (s : collector) (it : Item) : collector + option (list event) * bool :=
  match it with
  | ISkeleton sk =>
      let '(toks, err) := tokens (SkText sk) in
      match until (wc_token (SStart (SkSpan sk))) s toks with
      | inr r => inr (r, false)
      | inl s => match err with Some _ => inr (wc_evs s, true) | None => inl s end
      end
  | _ => inl (mkCollect ((fun l => l ++ [EItem it]) <$> wc_evs s) (wc_depth s) false)
  end.

Definition where_events (q : QueryTemplate) : option (list event) * bool :=
  match until wc_item (mkCollect None 0 false) (QItems q) with
  | inr r => r
  | inl s => (wc_evs s, false)
  end.

(** The scan of collected events: a scan, and whether an event ended it. *)
Fixpoint es_run (e : exprScan) (l : list event) : exprScan * bool :=
  match l with
  | [] => (e, false)
  | ev :: rest => let '(stop, e') := es_event e ev in if stop then (e', true) else es_run e' rest
  end.

Lemma es_run_app e l1 l2 : es_run e (l1 ++ l2) = let '(e', stop) := es_run e l1 in if stop then (e', true) else es_run e' l2.
Proof. revert e. induction l1 as [|ev l1 IH]; intros e; [done|]. cbn. destruct (es_event e ev) as [[] e']; [done|apply IH]. Qed.

(** The state of [whereClause] is the scan of what is collected. *)
Inductive tracks : whereState -> collector -> Prop :=
  | tracks_out d dot : tracks (mkWhere None d dot) (mkCollect None d dot)
  | tracks_in ex l d dot : es_run (newExprScan profile) l = (ex, false) ->
      tracks (mkWhere (Some ex) d dot) (mkCollect (Some l) d dot).

(** The scan is over before the collected events are. *)
Definition over (r : clauseScan) (evs : option (list event)) : Prop :=
  exists l e, evs = Some l /\ es_run (newExprScan profile) l = (e, true) /\ r = es_result e.

Definition extends (a b : option (list event)) : Prop := forall l, a = Some l -> exists l', b = Some (l ++ l').

#[local] Instance extends_pre : PreOrder extends.
Proof.
  split; [intros a l ->; exists []; by rewrite app_nil_r|]. intros a b c H1 H2 l ->.
  destruct (H1 l eq_refl) as [l1 ->]. destruct (H2 _ eq_refl) as [l2 ->]. exists (l1 ++ l2). by rewrite app_assoc.
Qed.

Lemma over_extends r a b : over r a -> extends a b -> over r b.
Proof.
  intros (l & e & -> & Hr & ->) He. destruct (He l eq_refl) as [l' ->]. exists (l ++ l'), e. split_and!; [done| |done].
  by rewrite es_run_app, Hr.
Qed.

Lemma wc_token_extends base s tok : match wc_token base s tok with inl s' => extends (wc_evs s) (wc_evs s') | inr r => extends (wc_evs s) r end.
Proof.
  unfold wc_token. destruct (trivia tok); [done|]. destruct (Nat.eqb _ 0 && bool_decide (Kind tok = KindSemicolon)); [done|].
  intros l E. cbn. rewrite E. by eexists.
Qed.

Lemma wc_tokens_extends base s toks :
  match until (wc_token base) s toks with inl s' => extends (wc_evs s) (wc_evs s') | inr r => extends (wc_evs s) r end.
Proof.
  revert s. induction toks as [|tok toks IH]; intros s; cbn; [done|]. pose proof (wc_token_extends base s tok) as H.
  destruct (wc_token base s tok) as [s1|r]; [|done]. specialize (IH s1). destruct (until _ s1 toks); by etrans.
Qed.

Lemma wc_item_extends s it : match wc_item s it with inl s' => extends (wc_evs s) (wc_evs s') | inr (r, _) => extends (wc_evs s) r end.
Proof.
  destruct it as [sk|v|v|v|v|v]; cbn [wc_item]; [|intros l E; cbn; rewrite E; by eexists..].
  destruct (tokens (SkText sk)) as [toks err]. pose proof (wc_tokens_extends (SStart (SkSpan sk)) s toks) as H.
  destruct (until _ s toks); [|done]. by destruct err.
Qed.

Lemma wc_items_extends s items :
  match until wc_item s items with inl s' => extends (wc_evs s) (wc_evs s') | inr (r, _) => extends (wc_evs s) r end.
Proof.
  revert s. induction items as [|it items IH]; intros s; cbn; [done|]. pose proof (wc_item_extends s it) as H.
  destruct (wc_item s it) as [s1|[r b]]; [|done]. specialize (IH s1). destruct (until _ s1 items) as [|[]]; by etrans.
Qed.

(** The result of a collection: what the clause is. *)
Definition reading (evs : option (list event)) (err : bool) : clauseScan :=
  match evs with
  | None => if err then cs_unread cs_empty else cs_empty
  | Some l => let '(e, stop) := es_run (newExprScan profile) l in
              if err && negb stop then cs_unread (es_result e) else es_result e
  end.

Lemma over_reading r evs err : over r evs -> reading evs err = r.
Proof. intros (l & e & -> & Hr & ->). unfold reading. rewrite Hr. by rewrite andb_false_r. Qed.

Lemma tracks_result w s : tracks w s -> wh_result w = reading (wc_evs s) false /\ cs_unread (wh_result w) = reading (wc_evs s) true.
Proof. intros [d dot|ex l d dot H]; [done|]. unfold wh_result, reading. cbn. by rewrite H. Qed.

(** A token keeps the two in step, or ends both, or ends the scan first. *)
Lemma track_token base w s tok : tracks w s ->
  match wh_token ToUpper profile base w tok, wc_token base s tok with
  | inl w', inl s' => tracks w' s'
  | inr r, inr evs => r = reading evs false
  | inr r, inl s' => over r (wc_evs s')
  | inl _, inr _ => False
  end.
Proof.
  intros H. unfold wh_token, wc_token. destruct (trivia tok); [done|].
  assert (wc_depth s = wh_depth w /\ wc_dot s = wh_dot w) as [-> ->] by by destruct H.
  set (d := match Kind tok with KindLParen => _ | _ => _ end).
  destruct (Nat.eqb d 0 && bool_decide (Kind tok = KindSemicolon)); [by apply tracks_result|].
  destruct H as [d0 dot|ex l d0 dot H]; cbn [wh_ex wc_evs wh_dot].
  - destruct (_ && _ && _ && _)%bool; by constructor.
  - set (ev := ETok _ _ _ _ _).
    assert (es_run (newExprScan profile) (l ++ [ev])
      = let '(stop, ex') := es_step ex tok (upper_of ToUpper tok) (Z.of_nat (base + Start tok)) (Nat.eqb d 0) dot in (ex', stop)) as E.
    { rewrite es_run_app, H. cbn. by destruct (es_step _ _ _ _ _ _) as [[] ?]. }
    destruct (es_step _ _ _ _ _ _) as [[] ex']; [|by constructor]. by exists (l ++ [ev]), ex'.
Qed.

Lemma track_tokens base w s toks : tracks w s ->
  match until (wh_token ToUpper profile base) w toks, until (wc_token base) s toks with
  | inl w', inl s' => tracks w' s'
  | inr r, inr evs => r = reading evs false
  | inr r, inl s' => over r (wc_evs s')
  | inl _, inr _ => False
  end.
Proof.
  revert w s. induction toks as [|tok toks IH]; intros w s H; cbn; [done|].
  pose proof (track_token base w s tok H) as Ht. pose proof (wc_token_extends base s tok) as He.
  destruct (wh_token _ _ base w tok) as [w1|r], (wc_token base s tok) as [s1|evs]; try done; [by apply IH|].
  pose proof (wc_tokens_extends base s1 toks) as He2. destruct (until _ s1 toks) as [s2|evs]; [by eapply over_extends|].
  symmetry. apply over_reading. by eapply over_extends.
Qed.

Lemma track_construct w s it : tracks w s ->
  match match wh_ex w with
        | Some ex => let '(stop, ex) := es_construct ex it in
                     if stop then inr (es_result ex) else inl (mkWhere (Some ex) (wh_depth w) false)
        | None => inl (mkWhere None (wh_depth w) false)
        end with
  | inl w' => tracks w' (mkCollect ((fun l => l ++ [EItem it]) <$> wc_evs s) (wc_depth s) false)
  | inr r => over r ((fun l => l ++ [EItem it]) <$> wc_evs s)
  end.
Proof.
  intros [d dot|ex l d dot H]; cbn [wh_ex wc_evs wh_depth wc_depth fmap option_fmap option_map]; [constructor|].
  assert (es_run (newExprScan profile) (l ++ [EItem it]) = let '(stop, ex') := es_construct ex it in (ex', stop)) as E.
  { rewrite es_run_app, H. cbn [es_run es_event]. by destruct (es_construct ex it) as [[] ?]. }
  destruct (es_construct ex it) as [[] ex']; [by exists (l ++ [EItem it]), ex'|by constructor].
Qed.

Lemma track_item w s it : tracks w s ->
  match wh_item ToUpper profile w it, wc_item s it with
  | inl w', inl s' => tracks w' s'
  | inr r, inr (evs, err) => r = reading evs err
  | inr r, inl s' => over r (wc_evs s')
  | inl _, inr _ => False
  end.
Proof.
  intros H. destruct it as [sk|v|v|v|v|v]; [|match goal with |- context [wh_item _ _ w ?it] => pose proof (track_construct w s it H) as Hc end;
    cbn [wh_item wc_item wc_evs]; by case_match..]. cbn [wh_item wc_item].
  destruct (tokens (SkText sk)) as [toks err]. pose proof (track_tokens (SStart (SkSpan sk)) w s toks H) as Ht.
  destruct (until _ w toks) as [w1|r], (until _ s toks) as [s1|evs]; try done.
  - destruct err; [|done]. by apply tracks_result.
  - destruct err; [|done]. symmetry. by apply over_reading.
Qed.

Lemma track_items w s items : tracks w s ->
  match until (wh_item ToUpper profile) w items with inr r => r | inl w' => wh_result w' end
  = let '(evs, err) := match until wc_item s items with inr r => r | inl s' => (wc_evs s', false) end in reading evs err.
Proof.
  revert w s. induction items as [|it items IH]; intros w s H; cbn [until]; [by apply tracks_result|].
  pose proof (track_item w s it H) as Ht.
  destruct (wh_item _ _ w it) as [w1|r], (wc_item s it) as [s1|[evs err]]; try done; [by apply IH|].
  pose proof (wc_items_extends s1 items) as He2. destruct (until _ s1 items) as [s2|[evs err]].
  - symmetry. apply over_reading. by eapply over_extends.
  - symmetry. apply over_reading. by eapply over_extends.
Qed.

(** The WHERE clause is the scan of its events. *)
Lemma whereClause_reading q : whereClause ToUpper profile q = let '(evs, err) := where_events q in reading evs err.
Proof. apply track_items. constructor. Qed.
End events.

(** ** The theorem *)

(** The events before the one that ends the scan. *)
Lemma es_run_split e l e' stop : es_run e l = (e', stop) ->
  exists pre rest, l = pre ++ rest /\
    if stop then exists e1 ev rest', rest = ev :: rest' /\ es_all e pre = Some e1 /\ es_event e1 ev = (true, e')
    else rest = [] /\ es_all e pre = Some e'.
Proof.
  revert e. induction l as [|ev l IH]; intros e; cbn; [intros [= <- <-]; by exists [], []|].
  destruct (es_event e ev) as [[] e1] eqn:E.
  - intros [= <- <-]. exists [], (ev :: l). split; [done|]. by exists e, ev, l.
  - intros (pre & rest & -> & H)%IH. exists (ev :: pre), rest. split; [done|]. cbn. by rewrite E.
Qed.

(** An event that ends the clause leaves its reading alone. *)
Definition ends_clause (ev : event) : Prop :=
  (exists w, word ev = Some w /\ w ∈ tailKeywords) \/ (exists it, ev = EItem it /\ whereBoundary it = true).

Lemma flush_flush c : col_flush (col_flush c) = col_flush c.
Proof. destruct c as [cs [|t l]]; done. Qed.

Lemma stop_event e ev e' : es_event e ev = (true, e') -> ends_clause ev /\ es_result e' = es_result e.
Proof.
  destruct ev as [tok up abs d dot|it].
  - rewrite event_step. cbv zeta. set (ev := ETok tok up abs d dot). unfold feed. destruct (word ev) as [w|] eqn:Ew; [|done].
    destruct (inCase _); [done|]. destruct (bool_decide (w = bs "AND")); [done|]. destruct (bool_decide (w = bs "OR")); [done|].
    destruct (negb (expectOperand e) && one_of tailKeywords w) eqn:Et; [|done]. apply andb_prop in Et as [_ Ht%bool_decide_eq_true].
    intros [= <-]. split; [left; by exists w|]. unfold es_result. cbn [ex_col ex_cases]. rewrite flush_flush.
    unfold cases_after. rewrite Ew.
    assert (case_ident (ex_cases e) w (expectOperand e) = ex_cases e) as ->; [|done].
    assert (w <> bs "CASE" /\ w <> bs "END" /\ one_of (words ["WHEN"; "THEN"; "ELSE"]%string) w = false) as (H1 & H2 & H3).
    { clear - Ht. repeat apply elem_of_cons in Ht as [->|Ht]; [split_and!; done..|]. by apply list.not_elem_of_nil in Ht. }
    apply case_ident_other; [done|done|]. by rewrite H3.
  - cbn [es_event]. unfold es_construct. destruct (whereBoundary it) eqn:Eb; [|done]. intros [= <-].
    split; [right; by exists it|]. unfold es_result. cbn [ex_col ex_cases]. rewrite flush_flush.
    destruct (inCase (ex_cases e)) eqn:Ei; [|done]. unfold balanced. cbn [case_bad case_depth negb andb].
    unfold inCase in Ei. destruct (case_depth (ex_cases e)); [done|]. cbn. by rewrite andb_false_r.
Qed.

(** The scan of the events of a clause. *)
Lemma clause_segments profile l :
  (forall parts, clause (PipesAreOr profile) true l parts ->
    exists e, es_all (newExprScan profile) l = Some e /\ lexOK (es_result e) = true /\ hasOR (es_result e) = false /\
      segs (es_result e) = segments parts) /\
  (forall e, es_all (newExprScan profile) l = Some e -> lexOK (es_result e) = true -> hasOR (es_result e) = false ->
    exists parts, clause (PipesAreOr profile) true l parts /\ segs (es_result e) = segments parts).
Proof.
  assert (forall parts, clause (PipesAreOr profile) true l parts ->
    exists e, es_all (newExprScan profile) l = Some e /\ lexOK (es_result e) = true /\ hasOR (es_result e) = false /\
      segs (es_result e) = segments parts) as H1.
  { intros parts Hc. destruct (clause_scan _ _ _ _ Hc (newExprScan profile)) as (e & E & Hcs & Hor & Hok & Hs); [done..|].
    exists e. split; [done|]. destruct (flush_spec (ex_col e)) as (_ & _ & F3 & F4).
    unfold es_result, balanced. rewrite Hcs. cbn. rewrite F3, F4. unfold or_seen, readable in *. by rewrite Hor, Hok, Hs. }
  split; [done|]. intros e E Hok Hor.
  assert (depth e = 0 /\ bad e = false /\ or_seen e = false) as (Hd & Hb & Ho).
  { destruct (flush_spec (ex_col e)) as (_ & _ & F3 & F4). unfold es_result in Hok, Hor. unfold depth, bad, or_seen.
    destruct (balanced (ex_cases e)) eqn:Eb; [|done]. unfold balanced in Eb. apply andb_prop in Eb as [Eb%negb_true_iff Ed%Nat.eqb_eq].
    rewrite F3 in Hor. done. }
  destruct (scan_clause (length l) l _ _ (Nat.le_refl _) E eq_refl Hd Hb Ho) as [parts Hc]. cbn in Hc.
  exists parts. split; [done|]. destruct (H1 parts Hc) as (e' & E' & _ & _ & Hs). congruence.
Qed.
