(* ===== verification/Policy.v ===== *)
(** * Policy

    [internal/policy/policy.go]: the policies of the configuration and their
    validation.  A predicate is text with the placeholder [{}] and [:name]
    parameters; it is read through the lexer profile, and handed to the front
    end with the parameters rewritten. *)

From S2P Require Import Prelude Dialect Template Frontend Diagnostics Regex ScanDirectives PolicyScan.

(** The case mappings of Go's [strings] package, which know all of Unicode. *)
Class GoStrings := { ToUpper : bytes -> bytes; ToLower : bytes -> bytes; EqualFold : bytes -> bytes -> bool }.

(** On the ASCII range. *)
Definition asciiStrings : GoStrings :=
  {| ToUpper := asciiUpper; ToLower := fun s => lower1 <$> s; EqualFold := asciiEqualFold |}.

Definition CodePolicyUnscoped : bytes := bs "SQLETCH124".
Definition CodePolicyUnweavable : bytes := bs "SQLETCH125".
Definition CodePolicyBadOptOut : bytes := bs "SQLETCH126".
Definition CodePolicyUnannotated : bytes := bs "SQLETCH127".
Definition CodePolicyInvalid : bytes := bs "SQLETCH303".

Record Policy := mkPolicy {
  PolName : bytes; PolTables : list bytes; PolPredicate : bytes; PolParamName : bytes; PolParamType : bytes;
  PolKinds : list StmtKind; PolRequireAnnotation : bool;
}.

(** [Policy.appliesTo], [Policy.coversSelect] *)
Definition appliesTo (p : Policy) (k : StmtKind) : bool :=
  match PolKinds p with
  | [] => match k with StmtSelect | StmtUpdate | StmtDelete => true | _ => false end
  | kinds => existsb (fun pk => bool_decide (pk = k)) kinds
  end.
Definition coversSelect (p : Policy) : bool := appliesTo p StmtSelect.

(** ** The placeholder

    [strings.Contains(s, "{}")] and [strings.ReplaceAll(s, "{}", name)]. *)
Fixpoint hasPlaceholder (s : bytes) : bool :=
  match s with
  | c :: ((d :: _) as rest) => ((c =b "{") && (d =b "}"))%char || hasPlaceholder rest
  | _ => false
  end.

Fixpoint bindPlaceholder (name s : bytes) : bytes :=
  match s with
  | c :: (d :: s') as rest =>
      if ((c =b "{") && (d =b "}"))%char then name ++ bindPlaceholder name s' else c :: bindPlaceholder name rest
  | _ => s
  end.

(** ** Names *)

Definition bareIdentRe : regex :=
  rseq [RChar (fun c => is_lower c || is_upper c || (c =b "_")%char);
        RStar true (RChar (fun c => is_lower c || is_upper c || is_digit c || (c =b "_")%char)); REnd].
Definition lowerIdentRe : regex := rseq [rsnake; REnd].

Definition dedup (l : list bytes) : list bytes :=
  foldl (fun out n => if bool_decide (n ∈ out) then out else out ++ [n]) [] l.
(** [sort.Strings] *)
Definition sort_strings (l : list bytes) : list bytes := SliceStable bytes_ltb l.

Section policies.
Context {strings : GoStrings} (profile : LexerProfile).

(** [Policy.designates] *)
Definition designates (p : Policy) (table : bytes) : bool := existsb (fun t => EqualFold t table) (PolTables p).

Definition unquotedFoldChanges (name : bytes) : bool :=
  if caseInsensitiveIdents profile then false else negb (bool_decide (ToLower name = name)).

Definition foldChangeWhy (name : bytes) : Arg :=
  ASprintf (bs "the name bound to the predicate placeholder (%q) is a quoted mixed-case identifier; the conjunct substitutes it unquoted, and PostgreSQL folds an unquoted identifier to lower case (%q), which can name a different relation and leave this table unscoped")
    [AStr name; AStr (ToLower name)].
Definition foldChangeHint : bytes :=
  bs "use a lower-case unquoted alias for the designated table (e.g. `FROM orders AS o`); sqletch never quotes the bound name (design 14 §11.3)".

(** ** Reading a predicate *)

(** The depth after the tokens, [None] when it goes below zero. *)
Fixpoint paren_depth (depth : nat) (toks : list Token) : option nat :=
  match toks with
  | [] => Some depth
  | tok :: rest =>
      match Kind tok with
      | KindLParen => paren_depth (S depth) rest
      | KindRParen => match depth with O => None | S d => paren_depth d rest end
      | _ => paren_depth depth rest
      end
  end.

Definition balancedParens (body : bytes) : bool :=
  let '(toks, err) := tokens body in
  match err, paren_depth 0 toks with
  | None, Some 0 => true
  | _, _ => false
  end.

Definition param_name (tok : Token) : option bytes :=
  if decide (Kind tok = KindParamRef) then Some (tail (Text tok)) else None.

Definition paramRefs (body : bytes) : list bytes := dedup (omap param_name (tokens body).1).

(** The loop of [rewriteParams]: [n] parameters are numbered already. *)
Fixpoint rewrite_loop (question : bool) (src : bytes) (pos n : nat) (toks : list Token) : bytes :=
  match toks with
  | [] => drop pos src
  | tok :: rest =>
      if decide (Kind tok = KindParamRef) then
        slice src pos (Start tok)
        ++ (if question then bs "?" else "$"%char :: FormatUint (N.of_nat (S n)) 10)
        ++ rewrite_loop question src (End tok) (if question then n else S n) rest
      else slice src pos (End tok) ++ rewrite_loop question src (End tok) n rest
  end.

Definition rewriteParams (body : bytes) : bytes :=
  rewrite_loop (bool_decide (StyleOf profile = PlaceholderQuestion)) body 0 0 (tokens body).1.

(** ** Validation *)

Definition relationNames (tree : Tree) : list bytes :=
  sort_strings (dedup (base.filter (fun n => n <> []) (TRName <$> DeepTables tree))).

Definition describeParam (name : bytes) : Arg :=
  match name with [] => AStr (bs "no parameter") | _ => ASprintf (bs "parameter %q") [AStr name] end.

(** [probeMsg]; the text of another error is its own. *)
Definition probeMsg (e : FeError) : Arg := match e with ParseError _ m | OtherError m => AStr m end.

Definition probe_name : bytes := bs "sqletch_probe_t".

Definition validatePredicate (fe : Frontend) (p : Policy) (id : Arg) (span : Span) : list Diagnostic :=
  let bad format args := Errorf CodePolicyInvalid span format args in
  let bound := bindPlaceholder probe_name (PolPredicate p) in
  let refs := paramRefs bound in
  match List.find (fun r => bool_decide (PolParamName p = []) || negb (bool_decide (r = PolParamName p))) refs with
  | Some r =>
      [bad "%s: predicate references :%s, but the policy declares %s" [id; AStr r; describeParam (PolParamName p)]]
  | None =>
      let missing :=
        if negb (bool_decide (PolParamName p = [])) && bool_decide (refs = []) then
          [bad "%s: declared parameter %q never appears in the predicate" [id; AStr (PolParamName p)]]
        else [] in
      if negb (balancedParens bound) then
        missing ++ [bad "%s: predicate is not one complete boolean expression: unbalanced parentheses" [id]]
      else
        let rewritten := rewriteParams bound in
        match ProbeExpr fe rewritten with
        | Some e => missing ++ [bad "%s: predicate is not one complete boolean expression: %s" [id; probeMsg e]]
        | None =>
            match Parse fe (bs "SELECT 1 WHERE (" ++ rewritten ++ c_lf :: bs ")") with
            | Ok tree =>
                match relationNames tree with
                | name :: _ =>
                    missing ++ [bad "%s: predicate may reference only the designated relation (via {}) and its own parameters, but it reads relation %q" [id; AStr name]]
                | [] => missing
                end
            | Err _ => missing
            end
        end
  end.

(** A round of [Validate]: the names seen and the reports. *)
Definition validate_policy (fe : Frontend) (span : Span) (st : gset bytes * list Diagnostic) (ip : nat * Policy)
    : gset bytes * list Diagnostic :=
  let '(seen, diags) := st in
  let '(i, p) := ip in
  let bad format args := Errorf CodePolicyInvalid span format args in
  let id := match PolName p with [] => ASprintf (bs "policies[%d]") [AInt (Z.of_nat i)] | n => AStr n end in
  let d1 := if MatchString lowerIdentRe (PolName p) then []
            else [bad "%s: policy name must be a snake_case identifier ([a-z][a-z0-9_]*)" [id]] in
  let d2 := if decide (PolName p ∈ seen) then [bad "%s: duplicate policy name" [id]] else [] in
  let d3 := match PolTables p with [] => [bad "%s: a policy needs at least one designated table" [id]] | _ => [] end in
  let d4 := concat ((fun t => if MatchString lowerIdentRe t then []
                              else [bad "%s: designated table %q must be a bare lowercase identifier" [id; AStr t]])
                    <$> PolTables p) in
  let d5 :=
    if decide (TrimSpace (PolPredicate p) = []) then [bad "%s: a policy needs a predicate" [id]]
    else
      (if negb (bool_decide (PolParamName p = [])) && negb (MatchString lowerIdentRe (PolParamName p))
       then [bad "%s: parameter name %q must be a snake_case identifier" [id; AStr (PolParamName p)]] else [])
      ++ validatePredicate fe p id span in
  ({[PolName p]} ∪ seen, diags ++ d1 ++ d2 ++ d3 ++ d4 ++ d5).

Definition Validate (fe : Frontend) (pols : list Policy) (configPath : bytes) : list Diagnostic :=
  (foldl (validate_policy fe (mkSpan configPath 0 0)) (∅, []) (imap pair pols)).2.
End policies.
