(* ===== verification/Splice.v ===== *)
(** * Splice

    [internal/policy/splice.go], the splicing half: insertions of text into the
    items of a query, and the parameters the policies bring along. *)

From Stdlib Require Import Sorted.
From S2P Require Import Prelude Dialect Template RenderInv SourceMap Diagnostics ScanInv ScanFinal PolicyScan Policy.

(** An insertion at a template byte offset, -1 when there is none. *)
Record insertion := mkIns { in_off : Z; in_prio : Z; in_seq : Z; in_text : bytes }.

#[export] Instance insertion_eq_dec : EqDecision insertion.
Proof. solve_decision. Defined.

Definition ins_less (a b : insertion) : bool :=
  if negb (Z.eqb (in_off a) (in_off b)) then Z.ltb (in_off a) (in_off b)
  else if negb (Z.eqb (in_prio a) (in_prio b)) then Z.ltb (in_prio a) (in_prio b)
  else Z.ltb (in_seq a) (in_seq b).

(** [slices.SortStableFunc] *)
Definition sort_ins (ins : list insertion) : list insertion := SliceStable ins_less ins.

(** The item an insertion goes to: the skeleton the offset is interior to, else
    the last one it ends. *)
Definition interior (off : Z) (it : Item) : bool :=
  match it with
  | ISkeleton s => Z.leb (Z.of_nat (SStart (SkSpan s))) off && Z.ltb off (Z.of_nat (SEnd (SkSpan s)))
  | _ => false
  end.
Definition ends_at (off : Z) (it : Item) : bool :=
  match it with ISkeleton s => Z.eqb off (Z.of_nat (SEnd (SkSpan s))) | _ => false end.

Fixpoint first_index {A} (f : A -> bool) (l : list A) : option nat :=
  match l with
  | [] => None
  | x :: l' => if f x then Some 0 else S <$> first_index f l'
  end.
Fixpoint last_index {A} (f : A -> bool) (l : list A) : option nat :=
  match l with
  | [] => None
  | x :: l' => match last_index f l' with Some i => Some (S i) | None => if f x then Some 0 else None end
  end.

Definition target (items : list Item) (k : insertion) : option nat :=
  match first_index (interior (in_off k)) items with
  | Some i => Some i
  | None => last_index (ends_at (in_off k)) items
  end.

(** The pieces of a skeleton from [prev] on.  Spans and texts of a scanned query
    agree, so the slices are in range; a zero-width span would lose its text. *)
Fixpoint pieces (s : Skeleton) (prev : nat) (mine : list insertion) : list Item :=
  let part lo hi := mkSkeleton (slice (SkText s) (lo - SStart (SkSpan s)) (hi - SStart (SkSpan s)))
                      (mkSpan (SFile (SkSpan s)) lo hi) false in
  match mine with
  | [] =>
      if Nat.ltb prev (SEnd (SkSpan s)) then
        [ISkeleton (mkSkeleton (drop (prev - SStart (SkSpan s)) (SkText s))
                      (mkSpan (SFile (SkSpan s)) prev (SEnd (SkSpan s))) false)]
      else []
  | k :: rest =>
      let off := Z.to_nat (in_off k) in
      (if Nat.ltb prev off then [ISkeleton (part prev off)] else [])
      ++ ISkeleton (mkSkeleton (in_text k) (mkSpan (SFile (SkSpan s)) off off) true) :: pieces s off rest
  end.

(** The item with index [i] among the new ones. *)
Definition weave_item (mine : list insertion) (it : Item) : list Item :=
  match it, mine with
  | ISkeleton s, _ :: _ => pieces s (SStart (SkSpan s)) mine
  | _, _ => [it]
  end.

Definition set_items (q : QueryTemplate) (items : list Item) : QueryTemplate :=
  mkQuery (QName q) (QAnnotation q) (QHeaderSpan q) items (QParamOrder q) (QParams q) (QGuardAtoms q) (QInsertColGuards q)
    (QInsertValGuards q) (QTypeHints q) (QColumnHints q) (QWhereKwEnd q) (QTailStart q) (QStmtEnd q) (QPolicyOptOuts q)
    (QPolicyApplies q) (QTimeout q) (QNoLints q) (QNullOverrides q).

Definition targeted (items : list Item) (ins : list insertion) (i : nat) : list insertion :=
  base.filter (fun k => target items k = Some i) ins.

Definition splice (q : QueryTemplate) (ins : list insertion) : QueryTemplate :=
  match ins with
  | [] => q
  | _ =>
      let sorted := sort_ins ins in
      set_items q (concat (imap (fun i it => weave_item (targeted (QItems q) sorted i) it) (QItems q)))
  end.

(** ** Parameters *)

(** [WovenPolicy], the effect of a policy on a query. *)
Record WovenPolicy := mkWoven {
  WPolicy : Policy; WConjuncts : list bytes; WOptedOut : bool; WOptOutReason : bytes;
}.

Definition set_params (q : QueryTemplate) (order : list bytes) (params : gmap bytes Param) (hints : gmap bytes TypeHint)
    : QueryTemplate :=
  mkQuery (QName q) (QAnnotation q) (QHeaderSpan q) (QItems q) order params (QGuardAtoms q) (QInsertColGuards q)
    (QInsertValGuards q) hints (QColumnHints q) (QWhereKwEnd q) (QTailStart q) (QStmtEnd q) (QPolicyOptOuts q)
    (QPolicyApplies q) (QTimeout q) (QNoLints q) (QNullOverrides q).

(** A round of [registerParams]. *)
Definition register_param (q : QueryTemplate) (wp : WovenPolicy) : QueryTemplate :=
  let p := WPolicy wp in
  let name := PolParamName p in
  if bool_decide (name = []) || WOptedOut wp then q
  else
    let '(order, params) :=
      match QParams q !! name with
      | Some _ => (QParamOrder q, QParams q)
      | None => (QParamOrder q ++ [name], <[name := mkParam name [] (-1) false (PolName p)]> (QParams q))
      end in
    let hints :=
      match PolParamType p, QTypeHints q !! name with
      | _ :: _, None => <[name := mkTypeHint (PolParamType p) (QHeaderSpan q)]> (QTypeHints q)
      | _, _ => QTypeHints q
      end in
    set_params q order params hints.

Definition registerParams (woven : QueryTemplate) (wps : list WovenPolicy) : QueryTemplate :=
  foldl register_param woven wps.

(** ** SpliceProps

    What a splice does to a query, seen byte by byte: nothing of the template is
    lost, moved or changed, and every insertion with a target is woven once, at
    its offset, in the order of the sort. *)

(** ** The content of items *)

(** A byte of the template, a construct, or a woven text at its offset. *)
Inductive cell := Byte (off : nat) (c : ascii) | Construct (it : Item) | Woven (off : nat) (text : bytes).

Definition bytes_at (off : nat) (text : bytes) : list cell := imap (fun i c => Byte (off + i) c) text.

Definition item_cells (it : Item) : list cell :=
  match it with
  | ISkeleton s => if SkSynth s then [Woven (SStart (SkSpan s)) (SkText s)] else bytes_at (SStart (SkSpan s)) (SkText s)
  | _ => [Construct it]
  end.
Definition cells (items : list Item) : list cell := concat (item_cells <$> items).

Definition is_woven (c : cell) : bool := match c with Woven _ _ => true | _ => false end.
Definition erase (l : list cell) : list cell := base.filter (fun c => is_woven c = false) l.
Definition woven_of (l : list cell) : list (nat * bytes) :=
  omap (fun c => match c with Woven o t => Some (o, t) | _ => None end) l.

Definition cell_lo (c : cell) : nat := match c with Byte o _ => o | Construct it => SStart (Raw it) | Woven o _ => o end.
Definition cell_hi (c : cell) : nat := match c with Byte o _ => S o | Construct it => SEnd (Raw it) | Woven o _ => o end.
(** [a] stands before [b] in the template. *)
Definition cell_le (a b : cell) : Prop := cell_hi a <= cell_lo b.

(** Cells in template order between two offsets. *)
Fixpoint chain (lo : nat) (l : list cell) (hi : nat) : Prop :=
  match l with
  | [] => lo <= hi
  | c :: rest => lo <= cell_lo c /\ cell_lo c <= cell_hi c /\ chain (cell_hi c) rest hi
  end.

Lemma chain_le lo l hi : chain lo l hi -> lo <= hi.
Proof. revert lo. induction l as [|c l IH]; intros lo; cbn; [done|]. intros (? & ? & H%IH). lia. Qed.

Lemma chain_weaken lo lo' l hi hi' : lo' <= lo -> hi <= hi' -> chain lo l hi -> chain lo' l hi'.
Proof.
  intros Hl Hh. revert lo lo' Hl. induction l as [|c l IH]; intros lo lo' Hl; cbn; [lia|].
  intros (? & ? & H). split_and!; [lia|done|]. by eapply IH.
Qed.

Lemma chain_app lo l1 mid l2 hi : chain lo l1 mid -> chain mid l2 hi -> chain lo (l1 ++ l2) hi.
Proof.
  revert lo. induction l1 as [|c l1 IH]; intros lo; cbn; [intros ? ?; by eapply chain_weaken|].
  intros (? & ? & H) H2. split_and!; [done..|]. by apply IH.
Qed.

Lemma chain_bound lo l hi : chain lo l hi -> Forall (fun c => lo <= cell_lo c) l.
Proof.
  revert lo. induction l as [|c l IH]; intros lo; cbn; [constructor|]. intros (? & ? & H). constructor; [done|].
  apply IH in H. eapply Forall_impl; [|exact H]. cbn. intros d. lia.
Qed.

Lemma chain_sorted lo l hi : chain lo l hi -> StronglySorted cell_le l.
Proof.
  revert lo. induction l as [|c l IH]; intros lo; cbn; [constructor|]. intros (_ & _ & H).
  constructor; [by eapply IH|by eapply chain_bound].
Qed.

Lemma bytes_at_app off a b : bytes_at off (a ++ b) = bytes_at off a ++ bytes_at (off + length a) b.
Proof.
  unfold bytes_at. rewrite imap_app. f_equal. apply imap_ext. intros i x _. cbn. f_equal. lia.
Qed.

Lemma bytes_at_cons off c text : bytes_at off (c :: text) = Byte off c :: bytes_at (S off) text.
Proof. unfold bytes_at. cbn. f_equal; [f_equal; lia|]. apply imap_ext. intros i x _. cbn. f_equal. lia. Qed.

Lemma bytes_at_chain off text : chain off (bytes_at off text) (off + length text).
Proof.
  revert off. induction text as [|c text IH]; intros off; cbn [length]; [cbn; lia|]. rewrite bytes_at_cons. cbn [chain].
  split_and!; [cbn; lia..|]. rewrite Nat.add_succ_r. apply (IH (S off)).
Qed.

Lemma erase_app a b : erase (a ++ b) = erase a ++ erase b.
Proof. apply list.filter_app. Qed.
Lemma erase_bytes off text : erase (bytes_at off text) = bytes_at off text.
Proof.
  revert off. induction text as [|c text IH]; intros off; [done|]. rewrite bytes_at_cons. unfold erase in *.
  rewrite filter_cons_True by done. by rewrite IH.
Qed.
Lemma woven_app a b : woven_of (a ++ b) = woven_of a ++ woven_of b.
Proof. apply list.omap_app. Qed.
Lemma woven_bytes off text : woven_of (bytes_at off text) = [].
Proof. revert off. induction text as [|c text IH]; intros off; [done|]. rewrite bytes_at_cons. apply (IH (S off)). Qed.
Lemma cells_app a b : cells (a ++ b) = cells a ++ cells b.
Proof. unfold cells. by rewrite fmap_app, concat_app. Qed.

(** ** Pieces of a skeleton *)

Definition offset (k : insertion) : nat := Z.to_nat (in_off k).
Definition woven_cell (k : insertion) : nat * bytes := (offset k, in_text k).

(** A skeleton whose span and text agree. *)
Definition exact (s : Skeleton) : bool :=
  negb (SkSynth s) && Nat.eqb (SEnd (SkSpan s)) (SStart (SkSpan s) + length (SkText s)).

(** Offsets in order between [lo] and [hi]. *)
Fixpoint within (lo : nat) (mine : list insertion) (hi : nat) : Prop :=
  match mine with
  | [] => lo <= hi
  | k :: rest => lo <= offset k <= hi /\ within (offset k) rest hi
  end.

Lemma pieces_cells s prev mine :
  exact s = true -> SStart (SkSpan s) <= prev -> within prev mine (SEnd (SkSpan s)) ->
  let l := cells (pieces s prev mine) in
  erase l = bytes_at prev (drop (prev - SStart (SkSpan s)) (SkText s)) /\
  woven_of l = woven_cell <$> mine /\ chain prev l (SEnd (SkSpan s)).
Proof.
  intros [_ He%Nat.eqb_eq]%andb_prop. revert prev. induction mine as [|k mine IH]; intros prev Hp Hw; cbn [pieces].
  - cbn in Hw. destruct (Nat.ltb_spec prev (SEnd (SkSpan s))) as [Hlt|Hge].
    + unfold cells. cbn [fmap list_fmap concat item_cells SkSynth SkSpan SkText SStart]. rewrite app_nil_r.
      split_and!; [apply erase_bytes|apply woven_bytes|]. refine (chain_weaken _ _ _ _ _ _ _ (bytes_at_chain _ _)); [done|].
      rewrite length_drop. lia.
    + rewrite drop_ge by lia. split_and!; [done..|]. cbn. lia.
  - destruct Hw as [[H1 H2] Hw]. fold (offset k).
    destruct (IH (offset k)) as (E1 & E2 & E3); [lia|done|]. cbv zeta. rewrite cells_app.
    set (hd := if Nat.ltb prev (offset k) then _ else _).
    assert (cells hd = bytes_at prev (slice (SkText s) (prev - SStart (SkSpan s)) (offset k - SStart (SkSpan s)))) as Eh.
    { unfold hd. destruct (Nat.ltb_spec prev (offset k)).
      - unfold cells. cbn. by rewrite app_nil_r.
      - replace (offset k - SStart (SkSpan s)) with (prev - SStart (SkSpan s)) by lia. by rewrite slice_nil. }
    assert (length (slice (SkText s) (prev - SStart (SkSpan s)) (offset k - SStart (SkSpan s))) = offset k - prev) as El
      by (rewrite slice_length; lia).
    change (cells (ISkeleton ?x :: ?r)) with (item_cells (ISkeleton x) ++ cells r). cbn [item_cells SkSynth SkSpan SStart SkText].
    rewrite Eh. split_and!.
    + rewrite !erase_app, erase_bytes, E1. cbn [erase]. change (erase [Woven (offset k) (in_text k)]) with (@nil cell).
      cbn [app]. replace (offset k) with (prev + (offset k - prev)) at 2 by lia. rewrite <- El at 1. rewrite <- bytes_at_app.
      f_equal. unfold slice. replace (drop (offset k - SStart (SkSpan s)) (SkText s))
        with (drop (offset k - SStart (SkSpan s) - (prev - SStart (SkSpan s))) (drop (prev - SStart (SkSpan s)) (SkText s))).
      * apply take_drop.
      * rewrite drop_drop. f_equal. lia.
    + rewrite !woven_app, woven_bytes, E2. done.
    + apply (chain_app _ _ (offset k)).
      * refine (chain_weaken _ _ _ _ _ _ _ (bytes_at_chain _ _)); [done|]. rewrite El. lia.
      * cbn. split_and!; [lia..|done].
Qed.

(** ** Targets *)

Lemma first_index_spec {A} (f : A -> bool) l :
  match first_index f l with
  | Some i => exists x, l !! i = Some x /\ f x = true
  | None => forall i x, l !! i = Some x -> f x = false
  end.
Proof.
  induction l as [|y l IH]; cbn; [intros i x; by rewrite lookup_nil|]. destruct (f y) eqn:E; [by exists y|].
  destruct (first_index f l) as [i|]; cbn; [done|]. intros [|i] x; cbn; [by intros [= <-]|apply IH].
Qed.

Lemma last_index_spec {A} (f : A -> bool) l :
  match last_index f l with
  | Some i => (exists x, l !! i = Some x /\ f x = true)
  | None => forall i x, l !! i = Some x -> f x = false
  end.
Proof.
  induction l as [|y l IH]; cbn; [intros i x; by rewrite lookup_nil|].
  destruct (last_index f l) as [i|]; [done|]. destruct (f y) eqn:E; [by exists y|].
  intros [|i] x; cbn; [by intros [= <-]|apply IH].
Qed.

Lemma last_index_last {A} (f : A -> bool) l i j x : last_index f l = Some i -> l !! j = Some x -> f x = true -> j <= i.
Proof.
  revert i j. induction l as [|y l IH]; intros i j; cbn; [done|]. pose proof (last_index_spec f l) as Hs.
  destruct (last_index f l) as [i'|].
  - intros [= <-]. destruct j as [|j]; [lia|]. intros Hj Hf. apply le_n_S. by eapply IH.
  - destruct (f y); [|done]. intros [= <-]. destruct j as [|j]; [lia|]. intros Hj Hf. by rewrite (Hs _ _ Hj) in Hf.
Qed.

(** Items one after the other from [lo] on, their skeletons exact. *)
Fixpoint laid_out (lo : nat) (items : list Item) : bool :=
  match items with
  | [] => true
  | it :: rest =>
      Nat.leb lo (SStart (Raw it)) && Nat.leb (SStart (Raw it)) (SEnd (Raw it))
      && (match it with ISkeleton s => exact s | _ => true end) && laid_out (SEnd (Raw it)) rest
  end.

Lemma laid_out_lookup lo items i it : laid_out lo items = true -> items !! i = Some it ->
  lo <= SStart (Raw it) <= SEnd (Raw it) /\ (forall s, it = ISkeleton s -> exact s = true).
Proof.
  revert lo i. induction items as [|a items IH]; intros lo i; [done|]. cbn [laid_out].
  intros [[[H1%Nat.leb_le H2%Nat.leb_le]%andb_prop H3]%andb_prop H4]%andb_prop. destruct i as [|i]; cbn.
  - intros [= <-]. split; [lia|]. by intros s ->.
  - intros Hi. destruct (IH _ _ H4 Hi) as [? ?]. split; [lia|done].
Qed.

Lemma laid_out_order lo items i j a b : laid_out lo items = true -> items !! i = Some a -> items !! j = Some b -> i < j ->
  SEnd (Raw a) <= SStart (Raw b).
Proof.
  revert lo i j. induction items as [|x items IH]; intros lo i j; [done|]. cbn [laid_out]. intros [_ H]%andb_prop.
  destruct i as [|i], j as [|j]; cbn; intros Hi Hj Hij; try lia.
  - injection Hi as <-. apply (laid_out_lookup _ _ _ _ H Hj).
  - eapply (IH _ i j); eauto. lia.
Qed.

Lemma interior_spec off it : interior off it = true <->
  exists s, it = ISkeleton s /\ (Z.of_nat (SStart (SkSpan s)) <= off < Z.of_nat (SEnd (SkSpan s)))%Z.
Proof.
  destruct it as [s| | | | |]; cbn; [|by naive_solver..]. rewrite andb_true_iff, Z.leb_le, Z.ltb_lt. naive_solver.
Qed.
Lemma ends_at_spec off it : ends_at off it = true <-> exists s, it = ISkeleton s /\ off = Z.of_nat (SEnd (SkSpan s)).
Proof. destruct it as [s| | | | |]; cbn; [|by naive_solver..]. rewrite Z.eqb_eq. naive_solver. Qed.

(** Where an insertion goes. *)
Lemma target_spec items k i : target items k = Some i ->
  exists s, items !! i = Some (ISkeleton s) /\
    ((Z.of_nat (SStart (SkSpan s)) <= in_off k < Z.of_nat (SEnd (SkSpan s)))%Z \/
     (in_off k = Z.of_nat (SEnd (SkSpan s)) /\
      (forall j it, items !! j = Some it -> interior (in_off k) it = false) /\
      (forall j it, items !! j = Some it -> ends_at (in_off k) it = true -> j <= i))).
Proof.
  unfold target. pose proof (first_index_spec (interior (in_off k)) items) as Hf.
  destruct (first_index _ items) as [i'|].
  - intros [= <-]. destruct Hf as (x & Hx & (s & -> & Hs)%interior_spec). eauto.
  - intros Hl. pose proof (last_index_spec (ends_at (in_off k)) items) as He. rewrite Hl in He.
    destruct He as (x & Hx & (s & -> & Hs)%ends_at_spec). exists s. split; [done|]. right. split_and!; [done..|].
    intros j it. by apply last_index_last.
Qed.

Lemma target_within lo items k i : laid_out lo items = true -> target items k = Some i ->
  exists s, items !! i = Some (ISkeleton s) /\ SStart (SkSpan s) <= offset k <= SEnd (SkSpan s) /\ Z.of_nat (offset k) = in_off k.
Proof.
  intros Hl (s & Hs & H)%target_spec. exists s. destruct (laid_out_lookup _ _ _ _ Hl Hs) as [Hb _]. cbn [Raw] in Hb.
  split; [done|]. unfold offset. destruct H as [?|(? & _)]; lia.
Qed.

Lemma target_mono lo items k1 k2 i j : laid_out lo items = true -> (in_off k1 <= in_off k2)%Z ->
  target items k1 = Some i -> target items k2 = Some j -> i <= j.
Proof.
  intros Hl Ho H1 H2. destruct (Nat.le_gt_cases i j) as [|Hji]; [done|exfalso].
  apply target_spec in H1 as (s1 & E1 & H1). apply target_spec in H2 as (s2 & E2 & H2).
  pose proof (laid_out_order _ _ _ _ _ _ Hl E2 E1 Hji) as Hs. cbn [Raw] in Hs.
  destruct (laid_out_lookup _ _ _ _ Hl E1) as [Hb1 _]. destruct (laid_out_lookup _ _ _ _ Hl E2) as [Hb2 _]. cbn [Raw] in Hb1, Hb2.
  destruct H1 as [H1|(H1 & _)], H2 as [H2|(H2 & N2 & M2)]; try lia.
  - pose proof (N2 _ _ E1) as N. apply not_true_iff_false in N. apply N, interior_spec. exists s1. split; [done|lia].
  - assert (in_off k1 = in_off k2) as He by lia.
    assert (i <= j); [|lia]. apply (M2 i _ E1), ends_at_spec. exists s1. split; [done|lia].
Qed.

(** ** The woven items *)

Lemma within_sorted lo hi mine : lo <= hi -> StronglySorted (fun a b => (in_off a <= in_off b)%Z) mine ->
  Forall (fun k => lo <= offset k <= hi /\ Z.of_nat (offset k) = in_off k) mine -> within lo mine hi.
Proof.
  intros Hlh Hs. revert lo Hlh. induction Hs as [|k mine Hs IH Hk]; intros lo Hlh Hf; cbn; [done|].
  inversion Hf as [|? ? [H1 H2] Hf']; subst. split; [done|]. apply IH; [lia|].
  rewrite Forall_forall in Hk, Hf' |- *. intros x Hx. specialize (Hk x Hx). specialize (Hf' x Hx). lia.
Qed.

(** What every item is given: nothing, unless it is a skeleton around it. *)
Definition fits (mine : list insertion) (it : Item) : Prop :=
  match it with
  | ISkeleton s => within (SStart (SkSpan s)) mine (SEnd (SkSpan s))
  | _ => mine = []
  end.

Lemma exact_cells s : exact s = true -> item_cells (ISkeleton s) = bytes_at (SStart (SkSpan s)) (SkText s).
Proof. unfold exact. cbn. by destruct (SkSynth s). Qed.

Lemma weave_item_cells mine it :
  SStart (Raw it) <= SEnd (Raw it) -> (forall s, it = ISkeleton s -> exact s = true) -> fits mine it ->
  let l := cells (weave_item mine it) in
  erase l = item_cells it /\ woven_of l = woven_cell <$> mine /\ chain (SStart (Raw it)) l (SEnd (Raw it)).
Proof.
  intros Hle Hex Hf. destruct it as [s|v|v|v|v|v]; cbn [fits] in Hf; subst; cbv zeta.
  2-6: unfold cells; cbn; split_and!; solve [done|lia].
  specialize (Hex s eq_refl). pose proof (pieces_cells s (SStart (SkSpan s)) mine Hex (Nat.le_refl _) Hf) as Hp.
  rewrite Nat.sub_diag, drop_0 in Hp. rewrite exact_cells by done. destruct mine as [|k mine]; [|exact Hp].
  unfold cells. cbn [weave_item fmap list_fmap concat]. rewrite app_nil_r, exact_cells by done.
  rewrite erase_bytes, woven_bytes. split_and!; [done..|].
  apply andb_prop in Hex as [_ He%Nat.eqb_eq]. cbn [Raw]. rewrite He. apply bytes_at_chain.
Qed.

Lemma weave_items_cells lo items (mine : nat -> list insertion) :
  laid_out lo items = true -> (forall i it, items !! i = Some it -> fits (mine i) it) ->
  let l := cells (concat (imap (fun i it => weave_item (mine i) it) items)) in
  erase l = cells items /\ woven_of l = concat (imap (fun i _ => woven_cell <$> mine i) items) /\ exists hi, chain lo l hi.
Proof.
  revert lo mine. induction items as [|it items IH]; intros lo mine; [intros _ _; split_and!; [done..|exists lo; apply Nat.le_refl]|].
  cbn [laid_out]. intros [[[H1%Nat.leb_le H2%Nat.leb_le]%andb_prop H3]%andb_prop H4]%andb_prop Hf. cbv zeta.
  rewrite !imap_cons. cbn [concat]. rewrite cells_app.
  destruct (weave_item_cells (mine 0) it) as (E1 & E2 & E3); [done|by intros s ->|by apply Hf|].
  destruct (IH (SEnd (Raw it)) (mine ∘ S)) as (F1 & F2 & hi & F3); [done|intros i x Hx; by apply (Hf (S i))|].
  cbn [compose] in F1, F2, F3. split_and!.
  - rewrite erase_app. change (cells (it :: items)) with (item_cells it ++ cells items). f_equal; done.
  - rewrite woven_app. f_equal; done.
  - exists hi. eapply chain_app; [|exact F3]. refine (chain_weaken _ _ _ _ _ H1 (Nat.le_refl _) E3).
Qed.

Lemma filter_none {A} (P : A -> Prop) `{!forall x, Decision (P x)} l : (forall x, x ∈ l -> ~ P x) -> base.filter P l = [].
Proof.
  induction l as [|x l IH]; intros Hn; [done|]. rewrite filter_cons_False by (apply Hn; by left). apply IH. intros y Hy. apply Hn. by right.
Qed.

(** A list sorted by its groups is the groups one after the other. *)
Section groups.
Context (f : insertion -> option nat).

Definition in_groups (s n : nat) (k : insertion) : bool :=
  match f k with Some i => Nat.leb s i && Nat.ltb i (s + n) | None => false end.
Abbreviation grouped := (fun a b => forall i j, f a = Some i -> f b = Some j -> i <= j).

Lemma first_group s n l : StronglySorted grouped l ->
  base.filter (fun k => f k = Some s) l ++ base.filter (fun k => in_groups (S s) n k = true) l
  = base.filter (fun k => in_groups s (S n) k = true) l.
Proof.
  induction 1 as [|k l Hl IH Hk]; [done|]. destruct (f k) as [i|] eqn:Ek.
  - destruct (decide (i = s)) as [->|Hne].
    + rewrite (filter_cons_True (fun k => f k = Some s)) by done.
      rewrite (filter_cons_False (fun k => in_groups (S s) n k = true)), (filter_cons_True (fun k => in_groups s (S n) k = true)).
      * cbn [app]. by rewrite IH.
      * unfold in_groups. rewrite Ek. apply andb_true_intro. rewrite Nat.leb_le, Nat.ltb_lt. lia.
      * unfold in_groups. rewrite Ek. rewrite andb_true_iff, Nat.leb_le. lia.
    + rewrite (filter_cons_False (fun k => f k = Some s)) by congruence.
      assert (in_groups (S s) n k = in_groups s (S n) k) as Eg.
      { unfold in_groups. rewrite Ek. apply eq_true_iff_eq. rewrite !andb_true_iff, !Nat.leb_le, !Nat.ltb_lt. lia. }
      destruct (in_groups s (S n) k) eqn:Eb.
      * rewrite (filter_cons_True (fun k => in_groups (S s) n k = true)), (filter_cons_True (fun k => in_groups s (S n) k = true)) by done.
        assert (base.filter (fun k => f k = Some s) l = []) as En.
        { apply filter_none. intros x Hin%list_elem_of_In Hs. rewrite Forall_forall in Hk. specialize (Hk x Hin _ _ eq_refl Hs).
          unfold in_groups in Eb. rewrite Ek in Eb. apply andb_prop in Eb as [?%Nat.leb_le _]. lia. }
        rewrite En in IH |- *. cbn [app] in IH |- *. by rewrite IH.
      * rewrite (filter_cons_False (fun k => in_groups (S s) n k = true)), (filter_cons_False (fun k => in_groups s (S n) k = true))
          by congruence. done.
  - rewrite (filter_cons_False (fun k => f k = Some s)), (filter_cons_False (fun k => in_groups (S s) n k = true)),
      (filter_cons_False (fun k => in_groups s (S n) k = true)); [done|..]; unfold in_groups; by rewrite Ek.
Qed.

Lemma groups_concat {B} (g : insertion -> B) l s (items : list Item) : StronglySorted grouped l ->
  concat (imap (fun i _ => g <$> base.filter (fun k => f k = Some (s + i)) l) items)
  = g <$> base.filter (fun k => in_groups s (length items) k = true) l.
Proof.
  intros Hs. revert s. induction items as [|it items IH]; intros s.
  - cbn. symmetry. assert (base.filter (fun k => in_groups s 0 k = true) l = []) as ->; [|done].
    apply filter_none. intros k _. unfold in_groups. destruct (f k); [|done].
    rewrite andb_true_iff, Nat.leb_le, Nat.ltb_lt. lia.
  - rewrite imap_cons. cbn [concat length]. rewrite <- first_group by done. rewrite fmap_app, Nat.add_0_r. f_equal.
    rewrite <- IH. f_equal. apply imap_ext. intros i x _. cbn. by rewrite Nat.add_succ_r.
Qed.
End groups.

(** ** The sort *)

Lemma ins_less_spec a b : ins_less a b = true <->
  (in_off a < in_off b \/ (in_off a = in_off b /\ (in_prio a < in_prio b \/ (in_prio a = in_prio b /\ in_seq a < in_seq b))))%Z.
Proof.
  unfold ins_less. destruct (Z.eqb_spec (in_off a) (in_off b)); cbn [negb]; [|rewrite Z.ltb_lt; lia].
  destruct (Z.eqb_spec (in_prio a) (in_prio b)); cbn [negb]; rewrite Z.ltb_lt; lia.
Qed.

Lemma ins_less_false a b : ins_less a b = false <-> ~ ins_less a b = true.
Proof. by rewrite not_true_iff_false. Qed.

Lemma sort_ins_sorted ins : StronglySorted (fun a b => ins_less b a = false) (sort_ins ins).
Proof.
  apply SliceStable_sorted.
  - intros a b c. rewrite !ins_less_false, !ins_less_spec. lia.
  - intros a b. rewrite ins_less_false, !ins_less_spec. lia.
Qed.

Lemma StronglySorted_impl {A} (R R' : A -> A -> Prop) l : (forall a b, R a b -> R' a b) -> StronglySorted R l -> StronglySorted R' l.
Proof. intros Hi. induction 1 as [|x l Hl IH Hx]; constructor; [done|]. eapply Forall_impl; [|exact Hx]. by apply Hi. Qed.

Lemma StronglySorted_filter {A} (R : A -> A -> Prop) (P : A -> Prop) `{!forall x, Decision (P x)} l :
  StronglySorted R l -> StronglySorted R (base.filter P l).
Proof.
  induction 1 as [|x l Hl IH Hx]; [constructor|]. destruct (decide (P x)).
  - rewrite filter_cons_True by done. constructor; [done|]. rewrite Forall_forall in Hx |- *. intros y Hy.
    apply Hx. apply list_elem_of_In in Hy. apply list_elem_of_In. by apply list_elem_of_filter in Hy as [_ ?].
  - by rewrite filter_cons_False.
Qed.

Lemma sort_ins_offsets ins : StronglySorted (fun a b => (in_off a <= in_off b)%Z) (sort_ins ins).
Proof.
  eapply StronglySorted_impl; [|apply sort_ins_sorted]. intros a b. cbn. rewrite ins_less_false, ins_less_spec. lia.
Qed.

(** ** The theorem *)

(** The insertions with a target, in the order of the sort. *)
Definition placed (items : list Item) (ins : list insertion) : list insertion :=
  base.filter (fun k => target items k <> None) (sort_ins ins).

Lemma splice_items q ins : ins <> [] ->
  QItems (splice q ins) = concat (imap (fun i it => weave_item (targeted (QItems q) (sort_ins ins) i) it) (QItems q)).
Proof. by destruct ins. Qed.

Lemma targeted_fits lo items ins i it : laid_out lo items = true -> items !! i = Some it ->
  fits (targeted items (sort_ins ins) i) it.
Proof.
  intros Hl Hi. unfold targeted.
  assert (forall k, k ∈ base.filter (fun k => target items k = Some i) (sort_ins ins) ->
    exists s, it = ISkeleton s /\ SStart (SkSpan s) <= offset k <= SEnd (SkSpan s) /\ Z.of_nat (offset k) = in_off k) as Hk.
  { intros k [Ht _]%list_elem_of_filter. destruct (target_within _ _ _ _ Hl Ht) as (s & Hs & H). exists s. split; [congruence|done]. }
  destruct it as [s|v|v|v|v|v]; cbn [fits].
  2-6: destruct (base.filter _ _) as [|k l]; [done|]; destruct (Hk k) as (s & ? & _); [by left|done].
  apply within_sorted.
  - destruct (laid_out_lookup _ _ _ _ Hl Hi) as [H _]. cbn [Raw] in H. lia.
  - apply StronglySorted_filter, sort_ins_offsets.
  - apply Forall_forall. intros k Hin%list_elem_of_In. destruct (Hk k Hin) as (s' & [= <-] & H). done.
Qed.

Lemma placed_groups lo items ins : laid_out lo items = true ->
  concat (imap (fun i _ => woven_cell <$> targeted items (sort_ins ins) i) items) = woven_cell <$> placed items ins.
Proof.
  intros Hl. pose proof (groups_concat (target items) woven_cell (sort_ins ins) 0 items) as Hg. cbn [Nat.add] in Hg.
  unfold targeted. rewrite Hg.
  - f_equal. apply list.list_filter_iff. intros k. unfold in_groups. destruct (target items k) as [i|] eqn:Et; [|naive_solver].
    split; [done|]. intros _. apply target_spec in Et as (s & Hs & _). apply lookup_lt_Some in Hs.
    apply andb_true_intro. rewrite Nat.leb_le, Nat.ltb_lt. lia.
  - eapply StronglySorted_impl; [|apply sort_ins_offsets]. cbn. intros a b Hab i j. by eapply target_mono.
Qed.

(** ** The source map *)

Lemma anchored_slice src text off lo hi : anchored_at src text off = true -> lo <= hi <= length text ->
  anchored_at src (slice text lo hi) (off + lo) = true.
Proof.
  unfold anchored_at. rewrite !bool_decide_eq_true. intros Ht Hb.
  assert (slice text lo hi = take (hi - lo) (drop (off + lo) src)) as E.
  { rewrite <- Ht. unfold slice. rewrite skipn_firstn_comm, take_take, drop_drop. f_equal. lia. }
  rewrite slice_length by lia. rewrite E. unfold slice. f_equal. lia.
Qed.

Definition text_anchored (src : bytes) (it : Item) : bool :=
  forallb (fun '(text, off, synth) => synth || anchored_at src text off) (item_texts it).

Lemma anchored_items src q : anchored src q = forallb (text_anchored src) (QItems q).
Proof. done. Qed.

Lemma pieces_anchored src s prev mine :
  exact s = true -> text_anchored src (ISkeleton s) = true -> SStart (SkSpan s) <= prev -> within prev mine (SEnd (SkSpan s)) ->
  forallb (text_anchored src) (pieces s prev mine) = true.
Proof.
  intros [Hsy He%Nat.eqb_eq]%andb_prop Ha. unfold text_anchored in Ha. cbn in Ha. rewrite andb_true_r in Ha.
  destruct (SkSynth s); [done|]. cbn in Ha. clear Hsy.
  assert (forall lo hi, SStart (SkSpan s) <= lo <= hi -> hi <= SEnd (SkSpan s) ->
    anchored_at src (slice (SkText s) (lo - SStart (SkSpan s)) (hi - SStart (SkSpan s))) lo = true) as Hp.
  { intros lo hi H1 H2. pose proof (anchored_slice _ _ _ (lo - SStart (SkSpan s)) (hi - SStart (SkSpan s)) Ha) as H.
    replace (SStart (SkSpan s) + (lo - SStart (SkSpan s))) with lo in H by lia. apply H. lia. }
  revert prev. induction mine as [|k mine IH]; intros prev H1 Hw; cbn [pieces].
  - cbn in Hw. destruct (Nat.ltb prev (SEnd (SkSpan s))); [|done]. cbn. unfold text_anchored. cbn. rewrite !andb_true_r.
    specialize (Hp prev (SEnd (SkSpan s))). unfold slice in Hp. rewrite take_ge in Hp; [apply Hp; lia|rewrite length_drop; lia].
  - destruct Hw as [[H2 H3] Hw]. fold (offset k). rewrite forallb_app. cbn [forallb].
    rewrite (IH (offset k)) by (lia || done). rewrite andb_true_iff. split; [|done].
    destruct (Nat.ltb_spec prev (offset k)); [|done]. cbn. unfold text_anchored. cbn. rewrite !andb_true_r. apply Hp; lia.
Qed.

Lemma splice_anchored src lo q ins :
  laid_out lo (QItems q) = true -> anchored src q = true -> anchored src (splice q ins) = true.
Proof.
  intros Hl Ha. destruct (decide (ins = [])) as [->|Hne]; [done|]. rewrite anchored_items in *. rewrite splice_items by done.
  apply forallb_forall. intros x Hx%list_elem_of_In. apply elem_of_concat_imap in Hx as (i & it & Hi & Hx).
  pose proof (targeted_fits _ _ ins _ _ Hl Hi) as Hf. destruct (laid_out_lookup _ _ _ _ Hl Hi) as [_ Hex].
  rewrite forallb_forall in Ha. assert (text_anchored src it = true) as Hit by (by eapply Ha, list_elem_of_In, list_elem_of_lookup_2).
  destruct it as [s|v|v|v|v|v]; cbn [fits] in Hf; [|rewrite Hf in Hx; apply list_elem_of_singleton in Hx as ->; done..].
  cbn [weave_item] in Hx. destruct (targeted _ _ i) as [|k l']; [apply list_elem_of_singleton in Hx as ->; done|].
  pose proof (pieces_anchored src s _ _ (Hex s eq_refl) Hit (Nat.le_refl _) Hf) as Hp. rewrite forallb_forall in Hp.
  by apply Hp, list_elem_of_In.
Qed.

(** ** The theorem *)

(** An offset that some skeleton reaches. *)
Definition reached (items : list Item) (off : Z) : Prop :=
  exists s, ISkeleton s ∈ items /\ (Z.of_nat (SStart (SkSpan s)) <= off <= Z.of_nat (SEnd (SkSpan s)))%Z.

Lemma placed_spec items ins k : laid_out 0 items = true -> k ∈ placed items ins <-> k ∈ ins /\ reached items (in_off k).
Proof.
  intros Hl. unfold placed. rewrite list_elem_of_filter. unfold sort_ins. rewrite SliceStable_perm.
  rewrite (and_comm (k ∈ ins)). apply and_iff_compat_r. split; intros H2.
  - destruct (target items k) as [i|] eqn:Et; [|done]. apply target_spec in Et as (s & Hs & H). exists s.
    split; [by eapply list_elem_of_lookup_2|]. destruct (laid_out_lookup _ _ _ _ Hl Hs) as [Hb _]. cbn [Raw] in Hb. lia.
  - destruct H2 as (s & Hs & H). apply list_elem_of_lookup in Hs as [i Hi]. unfold target.
    pose proof (first_index_spec (interior (in_off k)) items) as Hf. destruct (first_index _ items); [done|].
    pose proof (last_index_spec (ends_at (in_off k)) items) as He. destruct (last_index _ items); [done|].
    exfalso. pose proof (Hf _ _ Hi) as F1%not_true_iff_false. pose proof (He _ _ Hi) as F2%not_true_iff_false.
    rewrite interior_spec in F1. rewrite ends_at_spec in F2.
    destruct (decide (in_off k = Z.of_nat (SEnd (SkSpan s)))); [apply F2; eauto|apply F1; exists s; split; [done|lia]].
Qed.

(** C11: a splice into a query whose items are laid out in order keeps every
    byte and construct of the template, in order; the woven texts are exactly
    those of the insertions a skeleton reaches, once each, in the order of
    offset, priority and sequence, each standing at its offset; and the texts
    that are not woven are still the template's, so that source maps stay
    faithful. *)
Theorem splice_exact src q ins :
  laid_out 0 (QItems q) = true ->
  erase (cells (QItems (splice q ins))) = cells (QItems q) /\
  woven_of (cells (QItems (splice q ins))) = woven_cell <$> placed (QItems q) ins /\
  (forall k, k ∈ placed (QItems q) ins <-> k ∈ ins /\ reached (QItems q) (in_off k)) /\
  StronglySorted (fun a b => ins_less b a = false) (placed (QItems q) ins) /\
  StronglySorted cell_le (cells (QItems (splice q ins))) /\
  (anchored src q = true -> anchored src (splice q ins) = true).
Proof.
  intros Hl.
  assert (erase (cells (QItems (splice q ins))) = cells (QItems q) /\
    woven_of (cells (QItems (splice q ins))) = woven_cell <$> placed (QItems q) ins /\
    exists hi, chain 0 (cells (QItems (splice q ins))) hi) as (E1 & E2 & hi & E3).
  { rewrite <- (placed_groups 0) by done. destruct (decide (ins = [])) as [->|Hne].
    - destruct (weave_items_cells 0 (QItems q) (fun _ => []) Hl) as (F1 & F2 & F3).
      + intros i it Hi. by apply (targeted_fits 0 (QItems q) [] i it Hl Hi).
      + assert (concat (imap (fun (_ : nat) it => weave_item [] it) (QItems q)) = QItems q) as E.
        { clear. induction (QItems q) as [|it items IH]; [done|]. rewrite imap_cons. cbn [concat]. unfold compose. rewrite IH. by destruct it. }
        rewrite E in *. done.
    - rewrite splice_items by done. apply weave_items_cells; [done|]. intros i it. by apply (targeted_fits 0). }
  split_and!; [done|done|by intros k; apply placed_spec|apply StronglySorted_filter, sort_ins_sorted|by eapply chain_sorted|].
  by apply (splice_anchored src 0).
Qed.

(** Insertions in strict order stay in order. *)
Lemma sorted_sublist l ks : StronglySorted (fun a b => ins_less b a = false) l -> StronglySorted (fun a b => ins_less a b = true) ks ->
  (forall k, k ∈ ks -> k ∈ l) -> ks `sublist_of` l.
Proof.
  intros Hl. revert ks. induction Hl as [|x l Hl IH Hx]; intros ks Hk Hin.
  { destruct ks as [|k ks]; [done|]. specialize (Hin k). set_solver. }
  destruct ks as [|a ks]; [apply sublist_nil_l|]. inversion_clear Hk as [|? ? Hks Ha]. rewrite Forall_forall in Hx, Ha.
  assert (forall b, b ∈ ks -> ins_less a b = true) as Hab by (intros b Hb; by apply Ha, list_elem_of_In).
  destruct (decide (a = x)) as [->|Hne].
  - apply sublist_skip, IH; [done|]. intros b Hb. assert (b ∈ x :: l) as [->|?]%elem_of_cons by (apply Hin; by right); [|done].
    pose proof (Hab _ Hb) as H. apply ins_less_spec in H. lia.
  - apply sublist_cons. assert (a ∈ l) as Hal.
    { assert (a ∈ x :: l) as [?|?]%elem_of_cons by (apply Hin; by left); done. }
    apply IH; [constructor; [done|by apply Forall_forall]|]. intros b [->|Hb]%elem_of_cons; [done|].
    assert (b ∈ x :: l) as [->|?]%elem_of_cons by (apply Hin; by right); [|done].
    assert (ins_less a x = false) as E by (by apply Hx, list_elem_of_In). by rewrite (Hab _ Hb) in E.
Qed.

(** The queries the scanner produces are laid out. *)
Lemma laid_out_tiles path lo items e : raw_tiles path lo items = Some e ->
  (forall s, ISkeleton s ∈ items -> exact s = true) -> laid_out lo items = true.
Proof.
  revert lo. induction items as [|it items IH]; intros lo; [done|]. cbn [raw_tiles laid_out].
  destruct (_ && _ && _)%bool eqn:Eb; [|done]. intros Ht Hx.
  apply andb_prop in Eb as [[_ E1%Nat.eqb_eq]%andb_prop E2%Nat.ltb_lt].
  rewrite (IH _ Ht) by (intros s Hs; apply Hx; by right). rewrite andb_true_r.
  apply andb_true_intro. split; [apply andb_true_intro; rewrite !Nat.leb_le; lia|].
  destruct it; [|done..]. apply Hx. by left.
Qed.

Lemma laid_out_weaken lo lo' items : lo' <= lo -> laid_out lo items = true -> laid_out lo' items = true.
Proof.
  intros Hl. destruct items as [|it items]; [done|]. cbn [laid_out]. intros [[[H1%Nat.leb_le H2]%andb_prop H3]%andb_prop H4]%andb_prop.
  rewrite H2, H3, H4. rewrite (proj2 (Nat.leb_le _ _)); [done|lia].
Qed.

Lemma raw_tiles_le path lo items e : raw_tiles path lo items = Some e -> lo <= e.
Proof.
  revert lo. induction items as [|x items IH]; intros lo; cbn [raw_tiles]; [intros [= <-]; lia|].
  destruct (_ && _ && _)%bool eqn:Eb; [|done]. apply andb_prop in Eb as [[_ E1%Nat.eqb_eq]%andb_prop E2%Nat.ltb_lt].
  intros H%IH. lia.
Qed.

Lemma raw_tiles_span path lo items e it : raw_tiles path lo items = Some e -> it ∈ items -> SStart (Raw it) < SEnd (Raw it) <= e.
Proof.
  revert lo. induction items as [|x items IH]; intros lo; [set_solver|]. cbn [raw_tiles].
  destruct (_ && _ && _)%bool eqn:Eb; [|done]. apply andb_prop in Eb as [[_ E1%Nat.eqb_eq]%andb_prop E2%Nat.ltb_lt].
  intros Ht [->|Hin]%elem_of_cons; [|by eapply IH]. apply raw_tiles_le in Ht. lia.
Qed.

Lemma scanned_laid_out profile path src q e : scanned profile path src q e -> laid_out 0 (QItems q) = true.
Proof.
  intros [_ Ht Hi _ _ _ _ Hb]. apply (laid_out_weaken (SEnd (QHeaderSpan q))); [lia|]. eapply laid_out_tiles; [exact Ht|].
  intros s Hs. pose proof (raw_tiles_span _ _ _ _ _ Ht Hs) as He. cbn [Raw] in He.
  rewrite Forall_forall in Hi. destruct (Hi (ISkeleton s)) as [Hx Hsl]; [by apply (proj1 (list_elem_of_In _ _))|].
  destruct (Hx (SkText s) (SStart (SkSpan s)) (SkSynth s)) as [Hsy _]; [by left|]. unfold exact. rewrite Hsy. cbn.
  rewrite Hsl, slice_length by lia. apply Nat.eqb_eq. lia.
Qed.

(** ** Instance *)

Definition woven_ins : list insertion :=
  [mkIns 65 2 0 (bs " OFFSET 0"); mkIns 22 2 1 (bs " (t.tenant = :tenant) AND"); mkIns 40 2 2 (bs "dropped")].

Lemma splice_exact_witness :
  laid_out 0 (QItems mapped_query) = true /\
  erase (cells (QItems (splice mapped_query woven_ins))) = cells (QItems mapped_query) /\
  woven_of (cells (QItems (splice mapped_query woven_ins))) = woven_cell <$> placed (QItems mapped_query) woven_ins /\
  (forall k, k ∈ placed (QItems mapped_query) woven_ins <-> k ∈ woven_ins /\ reached (QItems mapped_query) (in_off k)) /\
  StronglySorted (fun a b => ins_less b a = false) (placed (QItems mapped_query) woven_ins) /\
  StronglySorted cell_le (cells (QItems (splice mapped_query woven_ins))) /\
  (anchored mapped_src mapped_query = true -> anchored mapped_src (splice mapped_query woven_ins) = true).
Proof. split; [vm_compute; reflexivity|]. apply splice_exact. vm_compute. reflexivity. Defined.

Example woven_placed : in_text <$> placed (QItems mapped_query) woven_ins = [bs " (t.tenant = :tenant) AND"; bs " OFFSET 0"].
Proof. vm_compute. reflexivity. Qed.
