(* ===== verification/SetOp.v ===== *)
(** * SetOp

    [internal/policy/setop.go]: the split of a set operation into its leaf
    cores, on the token stream alone, with the WHERE slot of every core.  A
    parser's position is the list of the elements that are left; a run that
    gives up is a [Failed] stop, and fuel that runs out, which the calls of
    [scanSetOp] never do ([query_fuel_enough]), a [NoFuel] one. *)

From S2P Require Import Prelude Dialect Template Frontend PolicyScan.

Definition setOpKeywords : list bytes := words ["UNION"; "INTERSECT"; "EXCEPT"]%string.
Definition coreTailKeywords : list bytes := words
  ["GROUP"; "HAVING"; "WINDOW"; "ORDER"; "LIMIT"; "OFFSET"; "FETCH"; "FOR"]%string.

Record branchScan := mkBranch {
  br_leadKw : bytes; br_where : clauseScan; br_whereKwEnd : Z; br_tailStart : Z; br_end : Z;
}.

Record setOpScan := mkSetOp { so_ok : bool; so_branches : list branchScan; so_branchOf : gmap nat nat }.

Definition so_none : setOpScan := mkSetOp false [] ∅.

(** ** Elements *)

(** A token of a skeleton, or a construct, whose token fields are then unset. *)
Record soElem := mkElem {
  el_tok : Token; el_up : bytes; el_abs : nat; el_synth : bool; el_depth : nat; el_dotted : bool; el_item : option Item;
}.

Definition no_token : Token := mkToken KindEOF 0 0 [].
Definition is_construct (e : soElem) : bool := match el_item e with Some _ => true | None => false end.
Definition has_kind (e : soElem) (k : TokenKind) : bool := bool_decide (Kind (el_tok e) = k).

(** [soElem.ident] *)
Definition el_ident (e : soElem) (up : string) : bool :=
  negb (is_construct e) && has_kind e KindIdent && negb (el_dotted e) && bool_decide (el_up e = bs up).

Inductive stop := Failed | NoFuel.

Section setop.
Context (ToUpper : bytes -> bytes) (profile : LexerProfile).

Record elemState := mkElems { es_out : list soElem; es_depth : nat; es_dot : bool }.

Definition el_token (s : Skeleton) (st : elemState) (tok : Token) : result stop elemState :=
  if trivia tok then Ok st
  else
    let dot := is_dot tok in
    let add d d' := Ok (mkElems (es_out st ++ [mkElem tok (upper_of ToUpper tok) (SStart (SkSpan s) + Start tok) (SkSynth s) d
                                                  (es_dot st) None]) d' dot) in
    match Kind tok with
    | KindRParen => match es_depth st with O => Err Failed | S d => add d d end
    | KindLParen => add (es_depth st) (S (es_depth st))
    | _ => add (es_depth st) (es_depth st)
    end.

Definition el_items (st : elemState) (it : Item) : result stop elemState :=
  match it with
  | ISkeleton s =>
      let '(toks, err) := tokens (SkText s) in
      let! st := rfold (el_token s) st toks in
      match err with Some _ => Err Failed | None => Ok st end
  | _ => Ok (mkElems (es_out st ++ [mkElem no_token [] (SStart (Raw it)) false (es_depth st) false (Some it)]) (es_depth st) false)
  end.

Definition setOpElems (q : QueryTemplate) : result stop (list soElem) :=
  let! st := rfold el_items (mkElems [] 0 false) (QItems q) in
  if Nat.eqb (es_depth st) 0 then Ok (es_out st) else Err Failed.

(** ** The parser *)

Record parser := mkParser { ps_rest : list soElem; ps_branches : list branchScan; ps_branchOf : gmap nat nat }.

Definition set_rest (l : list soElem) (p : parser) : parser := mkParser l (ps_branches p) (ps_branchOf p).

(** [skipParen]: after the opening parenthesis. *)
Fixpoint skip_paren (d : nat) (l : list soElem) : result stop (list soElem) :=
  match l with
  | [] => Err Failed
  | e :: l' => if negb (is_construct e) && Nat.eqb (el_depth e) d && has_kind e KindRParen then Ok l' else skip_paren d l'
  end.
Definition skipParen (d : nat) (l : list soElem) : result stop (list soElem) := skip_paren d (tail l).

(** The next element, when [ok] holds of it, is consumed. *)
Definition accept (ok : soElem -> bool) (l : list soElem) : list soElem :=
  match l with e :: l' => if ok e then l' else l | [] => l end.
Definition expect (ok : soElem -> bool) (l : list soElem) : result stop (list soElem) :=
  match l with e :: l' => if ok e then Ok l' else Err Failed | [] => Err Failed end.
Definition opens (e : soElem) : bool := negb (is_construct e) && has_kind e KindLParen.

(** The loop of [skipWith], a round per common table expression. *)
Fixpoint with_loop (fuel : nat) (d : nat) (l : list soElem) : result stop (list soElem) :=
  match fuel with
  | O => Err NoFuel
  | S f =>
      let! l := expect (fun e => negb (is_construct e) && (has_kind e KindIdent || has_kind e KindQuotedIdent)) l in
      let! l := match l with e :: _ => if opens e then skipParen d l else Ok l | [] => Ok l end in
      let! l := expect (fun e => el_ident e "AS") l in
      let l := accept (fun e => el_ident e "MATERIALIZED") (accept (fun e => el_ident e "NOT") l) in
      let! l := match l with e :: _ => if opens e then skipParen d l else Err Failed | [] => Err Failed end in
      match l with
      | e :: l' =>
          if negb (is_construct e) && Nat.eqb (el_depth e) d && has_kind e KindComma then with_loop f d l' else Ok l
      | [] => Ok l
      end
  end.

Definition skipWith (d : nat) (l : list soElem) : result stop (list soElem) :=
  with_loop (S (length l)) d (accept (fun e => el_ident e "RECURSIVE") (tail l)).

(** ** A core *)

Record coreState := mkCore { co_b : branchScan; co_ex : option exprScan; co_from : bool; co_of : gmap nat nat }.

Definition br_set_where (cs : clauseScan) (b : branchScan) : branchScan :=
  mkBranch (br_leadKw b) cs (br_whereKwEnd b) (br_tailStart b) (br_end b).
Definition br_set_kw (z : Z) (b : branchScan) : branchScan :=
  mkBranch (br_leadKw b) (br_where b) z (br_tailStart b) (br_end b).
Definition br_set_tail (z : Z) (b : branchScan) : branchScan :=
  mkBranch (br_leadKw b) (br_where b) (br_whereKwEnd b) z (br_end b).
Definition br_set_end (z : Z) (b : branchScan) : branchScan :=
  mkBranch (br_leadKw b) (br_where b) (br_whereKwEnd b) (br_tailStart b) z.

(** The WHERE clause ends when the scan says so. *)
Definition co_scan (stopped : bool * exprScan) (c : coreState) : coreState :=
  let '(b, ex) := stopped in
  if b then mkCore (br_set_where (es_result ex) (co_b c)) None (co_from c) (co_of c)
  else mkCore (co_b c) (Some ex) (co_from c) (co_of c).

(** The slot of a WHERE clause the core lacks is still open. *)
Definition slot_open (c : coreState) : bool :=
  co_from c && Z.ltb (br_whereKwEnd (co_b c)) 0 && Z.ltb (br_tailStart (co_b c)) 0.

Definition core_item (it : Item) (c : coreState) : coreState :=
  let c := match co_ex c with Some ex => co_scan (es_construct ex it) c | None => c end in
  let b := match co_ex c with
           | None => if slot_open c && whereBoundary it then br_set_tail (Z.of_nat (SStart (Raw it))) (co_b c) else co_b c
           | Some _ => co_b c
           end in
  mkCore (br_set_end (Z.of_nat (SEnd (Raw it))) b) (co_ex c) (co_from c) (co_of c).

(** The keywords the core is entered by, outside its WHERE clause. *)
Definition core_keyword (d : nat) (e : soElem) (c : coreState) : coreState :=
  let e_end := Z.of_nat (el_abs e + (End (el_tok e) - Start (el_tok e))) in
  match co_ex c with
  | Some _ => c
  | None =>
      if Nat.eqb (el_depth e) d && has_kind e KindIdent && negb (el_dotted e) then
        if decide (el_up e = bs "FROM") then mkCore (co_b c) None true (co_of c)
        else if bool_decide (el_up e = bs "WHERE") && Z.ltb (br_whereKwEnd (co_b c)) 0 then
          mkCore (br_set_kw e_end (co_b c)) (Some (newExprScan profile)) (co_from c) (co_of c)
        else if slot_open c && one_of coreTailKeywords (el_up e) then
          mkCore (br_set_tail (Z.of_nat (el_abs e)) (co_b c)) None (co_from c) (co_of c)
        else c
      else c
  end.

Definition core_token (d idx : nat) (e : soElem) (c : coreState) : coreState :=
  let c := if el_synth e then c else mkCore (co_b c) (co_ex c) (co_from c) (<[el_abs e := idx]> (co_of c)) in
  let c := match co_ex c with
           | Some ex => co_scan (es_step ex (el_tok e) (el_up e) (Z.of_nat (el_abs e)) (Nat.eqb (el_depth e) d) (el_dotted e)) c
           | None => c
           end in
  let c := core_keyword d e c in
  mkCore (br_set_end (Z.of_nat (el_abs e + (End (el_tok e) - Start (el_tok e)))) (co_b c)) (co_ex c) (co_from c) (co_of c).

Definition is_set_op (d : nat) (e : soElem) : bool :=
  Nat.eqb (el_depth e) d && has_kind e KindIdent && negb (el_dotted e) && one_of setOpKeywords (el_up e).
Definition ends_core (d : nat) (e : soElem) : bool :=
  Nat.ltb (el_depth e) d || (Nat.eqb (el_depth e) d && has_kind e KindSemicolon) || is_set_op d e.

Fixpoint core_loop (d idx : nat) (c : coreState) (l : list soElem) : coreState * list soElem :=
  match l with
  | [] => (c, [])
  | e :: l' =>
      match el_item e with
      | Some it => core_loop d idx (core_item it c) l'
      | None => if ends_core d e then (c, l) else core_loop d idx (core_token d idx e c) l'
      end
  end.

(** [core]; its first element is a token. *)
Definition core (d : nat) (e : soElem) (p : parser) : parser :=
  let lead := if has_kind e KindIdent then el_up e else [] in
  let '(c, rest) := core_loop d (length (ps_branches p))
                      (mkCore (mkBranch lead cs_empty (-1) (-1) (-1)) None false (ps_branchOf p)) (ps_rest p) in
  let b := match co_ex c with Some ex => br_set_where (es_result ex) (co_b c) | None => co_b c end in
  mkParser rest (ps_branches p ++ [b]) (co_of c).

(** ** The grammar *)

(** The set-level tail, up to the parenthesis that closes depth [d] or the
    statement's semicolon. *)
Fixpoint query_tail (d : nat) (l : list soElem) : list soElem :=
  match l with
  | [] => []
  | e :: l' =>
      if negb (is_construct e) && (Nat.ltb (el_depth e) d || (Nat.eqb (el_depth e) d && has_kind e KindSemicolon)) then l
      else query_tail d l'
  end.

Fixpoint query (fuel : nat) (d : nat) (p : parser) : result stop parser :=
  match fuel with
  | O => Err NoFuel
  | S f =>
      let! p := match ps_rest p with
                | e :: _ => if el_ident e "WITH" then let! l := skipWith d (ps_rest p) in Ok (set_rest l p) else Ok p
                | [] => Ok p
                end in
      let! p := operand f d p in
      let! p := setop_loop f d p in
      Ok (set_rest (query_tail d (ps_rest p)) p)
  end
with operand (fuel : nat) (d : nat) (p : parser) : result stop parser :=
  match fuel with
  | O => Err NoFuel
  | S f =>
      match ps_rest p with
      | e :: l =>
          if is_construct e || negb (Nat.eqb (el_depth e) d) then Err Failed
          else if has_kind e KindLParen then
            let! p := query f (S d) (set_rest l p) in
            let! l := expect (fun c => negb (is_construct c) && Nat.eqb (el_depth c) d && has_kind c KindRParen) (ps_rest p) in
            Ok (set_rest l p)
          else Ok (core d e p)
      | [] => Err Failed
      end
  end
with setop_loop (fuel : nat) (d : nat) (p : parser) : result stop parser :=
  match fuel with
  | O => Err NoFuel
  | S f =>
      match ps_rest p with
      | e :: l =>
          if negb (is_construct e) && is_set_op d e then
            let l := accept (fun e => el_ident e "ALL" || el_ident e "DISTINCT") l in
            let! p := operand f d (set_rest l p) in
            setop_loop f d p
          else Ok p
      | [] => Ok p
      end
  end.

Definition so_fuel (elems : list soElem) : nat := 3 * length elems + 3.

(** Only semicolons may follow the query. *)
Definition at_end (l : list soElem) : bool := forallb (fun e => negb (is_construct e) && has_kind e KindSemicolon) l.

Definition scanSetOp (q : QueryTemplate) : setOpScan :=
  match setOpElems q with
  | Err _ => so_none
  | Ok elems =>
      match query (so_fuel elems) 0 (mkParser elems [] ∅) with
      | Err _ => so_none
      | Ok p => if at_end (ps_rest p) then mkSetOp true (ps_branches p) (ps_branchOf p) else so_none
      end
  end.

(** ** Fuel *)

Lemma skip_paren_length d l l' : skip_paren d l = Ok l' -> length l' < length l.
Proof.
  revert l'. induction l as [|e l IH]; intros l'; cbn; [done|]. destruct (_ && _ && _)%bool; [intros [= <-]; lia|].
  intros H%IH. lia.
Qed.
Lemma skip_paren_fuel d l : skip_paren d l <> Err NoFuel.
Proof. induction l as [|e l IH]; cbn; [done|]. by destruct (_ && _ && _)%bool. Qed.

Lemma skipParen_length d l l' : skipParen d l = Ok l' -> length l' <= length l.
Proof. destruct l as [|e l]; cbn; [done|]. intros H%skip_paren_length. lia. Qed.

Lemma accept_length ok l : length (accept ok l) <= length l.
Proof. destruct l as [|e l]; cbn; [done|]. destruct (ok e); cbn; lia. Qed.
Lemma expect_length ok l l' : expect ok l = Ok l' -> length l' < length l.
Proof. destruct l as [|e l]; cbn; [done|]. destruct (ok e); [|done]. intros [= <-]. lia. Qed.
Lemma expect_fuel ok l : expect ok l <> Err NoFuel.
Proof. destruct l as [|e l]; cbn; [done|]. by destruct (ok e). Qed.

(** A stage that does not run out of fuel, followed by one that does not. *)
Lemma bind_fuel {A B} (m : result stop A) (f : A -> result stop B) :
  m <> Err NoFuel -> (forall a, m = Ok a -> f a <> Err NoFuel) -> rbind m f <> Err NoFuel.
Proof. destruct m as [a|e]; cbn; [auto|]. intros H _ [= ->]. done. Qed.

Lemma with_loop_fuel fuel d l : length l < fuel -> with_loop fuel d l <> Err NoFuel.
Proof.
  revert l. induction fuel as [|f IH]; intros l Hf; [lia|]. cbn [with_loop].
  apply bind_fuel; [apply expect_fuel|]. intros l1 H1%expect_length.
  apply bind_fuel; [destruct l1 as [|e l1]; [done|]; destruct (opens e); [apply skip_paren_fuel|done]|]. intros l2 H2.
  assert (length l2 <= length l1) as L2.
  { destruct l1 as [|e l1]; [by injection H2 as <-|]. destruct (opens e); [by apply skipParen_length in H2|by injection H2 as <-]. }
  apply bind_fuel; [apply expect_fuel|]. intros l3 H3%expect_length.
  set (l4 := accept _ (accept _ l3)).
  assert (length l4 <= length l3) as L4 by (etrans; apply accept_length).
  apply bind_fuel; [destruct l4 as [|e l5]; [done|]; destruct (opens e); [apply skip_paren_fuel|done]|]. intros l5 H5.
  assert (length l5 <= length l4) as L5.
  { destruct l4 as [|e l4']; [done|]. destruct (opens e); [by apply skipParen_length in H5|done]. }
  destruct l5 as [|e l6]; [done|]. destruct (_ && _ && _)%bool; [|done]. cbn in L5. apply IH. lia.
Qed.

Lemma with_loop_length fuel d l l' : with_loop fuel d l = Ok l' -> length l' <= length l.
Proof.
  revert l. induction fuel as [|f IH]; intros l; [done|]. cbn [with_loop].
  intros (l1 & H1%expect_length & H)%rbind_ok. apply rbind_ok in H as (l2 & H2 & H).
  assert (length l2 <= length l1) as L2.
  { destruct l1 as [|e l1]; [by injection H2 as <-|]. destruct (opens e); [by apply skipParen_length in H2|by injection H2 as <-]. }
  apply rbind_ok in H as (l3 & H3%expect_length & H). apply rbind_ok in H as (l5 & H5 & H).
  set (l4 := accept _ (accept _ l3)) in *.
  assert (length l4 <= length l3) as L4 by (etrans; apply accept_length).
  assert (length l5 <= length l4) as L5.
  { destruct l4 as [|e l4']; [done|]. destruct (opens e); [by apply skipParen_length in H5|done]. }
  destruct l5 as [|e l6]; [injection H as <-; cbn; lia|]. destruct (_ && _ && _)%bool; [|injection H as <-; lia].
  cbn in L5. apply IH in H. lia.
Qed.

Lemma skipWith_spec d l : skipWith d l <> Err NoFuel /\ forall l', skipWith d l = Ok l' -> length l' <= length l.
Proof.
  unfold skipWith. set (l1 := accept _ (tail l)).
  assert (length l1 <= length l) as L by (unfold l1; etrans; [apply accept_length|destruct l; cbn; lia]).
  split; [apply with_loop_fuel; lia|]. intros l' H%with_loop_length. lia.
Qed.

Abbreviation left p := (length (ps_rest p)).

Lemma core_loop_length d idx c l : length (core_loop d idx c l).2 <= length l.
Proof.
  revert c. induction l as [|e l IH]; intros c; cbn [core_loop]; [done|].
  destruct (el_item e); [cbn; etrans; [apply IH|lia]|]. destruct (ends_core d e); [done|]. cbn. etrans; [apply IH|lia].
Qed.
Lemma core_left d e p : left (core d e p) <= left p.
Proof.
  unfold core. pose proof (core_loop_length d (length (ps_branches p))
    (mkCore (mkBranch (if has_kind e KindIdent then el_up e else []) cs_empty (-1) (-1) (-1)) None false (ps_branchOf p)) (ps_rest p)) as H.
  destruct (core_loop _ _ _ _). exact H.
Qed.
Lemma query_tail_length d l : length (query_tail d l) <= length l.
Proof. induction l as [|e l IH]; cbn [query_tail]; [done|]. destruct (_ && _)%bool; cbn; lia. Qed.

(** Nothing that is parsed comes back. *)
Lemma parse_left fuel : forall d p p',
  (query fuel d p = Ok p' -> left p' <= left p) /\ (operand fuel d p = Ok p' -> left p' <= left p) /\
  (setop_loop fuel d p = Ok p' -> left p' <= left p).
Proof.
  induction fuel as [|f IH]; intros d p p'; [done|]. split_and!; cbn [query operand setop_loop].
  - intros (p1 & H1 & H)%rbind_ok. apply rbind_ok in H as (p2 & H2 & H). apply rbind_ok in H as (p3 & H3 & [= <-]). cbn.
    apply IH in H2, H3. pose proof (query_tail_length d (ps_rest p3)).
    assert (left p1 <= left p); [|lia]. destruct (ps_rest p) as [|e l] eqn:E; [injection H1 as <-; by rewrite E|].
    destruct (el_ident e "WITH"); [|injection H1 as <-; by rewrite E].
    apply rbind_ok in H1 as (l' & H1 & [= <-]). cbn. by apply skipWith_spec in H1.
  - destruct (ps_rest p) as [|e l] eqn:E; [done|]. destruct (_ || _); [done|]. destruct (has_kind e KindLParen).
    + intros (p1 & H1 & H)%rbind_ok. apply rbind_ok in H as (l' & H2%expect_length & [= <-]). apply IH in H1. cbn in *. lia.
    + intros [= <-]. pose proof (core_left d e p). by rewrite E in *.
  - destruct (ps_rest p) as [|e l] eqn:E; [intros [= <-]; by rewrite E|]. destruct (_ && _)%bool; [|intros [= <-]; by rewrite E].
    intros (p1 & H1 & H)%rbind_ok. apply IH in H1, H. cbn in *.
    pose proof (accept_length (fun e => el_ident e "ALL" || el_ident e "DISTINCT") l). lia.
Qed.

Lemma query_fuel fuel : forall d p,
  (3 * left p + 3 <= fuel -> query fuel d p <> Err NoFuel) /\ (3 * left p + 2 <= fuel -> operand fuel d p <> Err NoFuel) /\
  (3 * left p + 1 <= fuel -> setop_loop fuel d p <> Err NoFuel).
Proof.
  induction fuel as [|f IH]; intros d p; [split_and!; lia|]. split_and!; intros Hf; cbn [query operand setop_loop].
  - apply bind_fuel.
    { destruct (ps_rest p) as [|e l]; [done|]. destruct (el_ident e "WITH"); [|done]. apply bind_fuel; [apply skipWith_spec|done]. }
    intros p1 H1. assert (left p1 <= left p) as L1.
    { destruct (ps_rest p) as [|e l] eqn:E; [injection H1 as <-; by rewrite E|].
      destruct (el_ident e "WITH"); [|injection H1 as <-; by rewrite E].
      apply rbind_ok in H1 as (l' & H1 & [= <-]). cbn. by apply skipWith_spec in H1. }
    apply bind_fuel; [apply IH; lia|]. intros p2 H2%parse_left.
    apply bind_fuel; [apply IH; lia|]. done.
  - destruct (ps_rest p) as [|e l] eqn:E; [done|]. cbn in Hf. destruct (_ || _); [done|]. destruct (has_kind e KindLParen); [|done].
    apply bind_fuel; [apply IH; cbn; lia|]. intros p1 _. apply bind_fuel; [apply expect_fuel|done].
  - destruct (ps_rest p) as [|e l] eqn:E; [done|]. cbn in Hf. destruct (_ && _)%bool; [|done].
    pose proof (accept_length (fun e => el_ident e "ALL" || el_ident e "DISTINCT") l) as La.
    apply bind_fuel; [apply IH; cbn; lia|]. intros p1 H1%parse_left. cbn in H1. apply IH. lia.
Qed.

(** The parse of a statement never runs out of fuel. *)
Lemma query_fuel_enough elems : query (so_fuel elems) 0 (mkParser elems [] ∅) <> Err NoFuel.
Proof. apply query_fuel. cbn. unfold so_fuel. lia. Qed.
End setop.
