(* ===== verification/Weave.v ===== *)
(** * Weave

    [internal/policy/weave.go]: which policies apply to a query, where their
    conjuncts go, and the woven query.  The diagnostics of the code are kept as
    formats and arguments.  [ast.Render] and the scans are the ones of the other
    files; a front end that parses is an argument. *)

From S2P Require Import Prelude Dialect Template Render Frontend Diagnostics Regex ScanDirectives PolicyScan Policy Splice SetOp.

(** ** Relations *)

(** A relation with its set-operation branch, [None] for Go's -1. *)
Record topRel := mkTop { tr_rel : RelRef; tr_branch : option nat }.

Definition boundName (r : RelRef) : bytes := match RAlias r with [] => RTable r | a => a end.

Definition topRelations (tree : Tree) : list topRel * nat :=
  match SetOpBranches tree with
  | None => ((fun r => mkTop r None) <$> Relations tree, 0)
  | Some branches => (concat (imap (fun i b => (fun r => mkTop r (Some i)) <$> Relations b) branches), length branches)
  end.

(** [conflictArm]: an existing row is rewritten, deleted. *)
Record conflictArm := mkArm { ca_update : bool; ca_del : bool }.

Definition conflictArmOf (tree : Tree) : conflictArm :=
  mkArm (HasConflictUpdate tree) (default false (HasConflictDelete tree)).

Definition governedBy (c : conflictArm) (p : Policy) : bool :=
  (ca_update c && appliesTo p StmtUpdate) || (ca_del c && appliesTo p StmtDelete).

Definition conflict_construct (c : conflictArm) : bytes :=
  if ca_del c then bs "REPLACE (which deletes the colliding row before inserting)"
  else bs "INSERT … ON CONFLICT DO UPDATE (upsert)".

Definition coversNested (p : Policy) (d : NestedDML) : bool :=
  match NKind d with
  | StmtInsert => NUpsert d && appliesTo p StmtUpdate
  | StmtUpdate => appliesTo p StmtUpdate
  | StmtDelete => appliesTo p StmtDelete
  | _ => false
  end.

Definition nestedDMLVerb (d : NestedDML) : bytes :=
  match NKind d with
  | StmtUpdate => bs "UPDATE"
  | StmtDelete => bs "DELETE"
  | _ => if NUpsert d then bs "INSERT … ON CONFLICT DO UPDATE" else bs "INSERT"
  end.

(** ** Applicability *)

Record applicability := mkApp {
  topOcc : list topRel; hidden : bool; active : bool; nestedHit : option NestedDML;
}.

Section weave.
Context {strings : GoStrings} (profile : LexerProfile).

Definition named (p : Policy) (table : bytes) : bool := negb (bool_decide (table = [])) && designates p table.

Definition updateConflictTarget (p : Policy) (kind : StmtKind) (rels : list topRel) (conflict : conflictArm) : option topRel :=
  match rels with
  | r :: _ =>
      if bool_decide (kind = StmtUpdate) && ca_del conflict && named p (RTable (tr_rel r)) && governedBy conflict p
      then Some r else None
  | [] => None
  end.

(** [topCount[name] += z] *)
Definition count (z : Z) (m : gmap bytes Z) (name : bytes) : gmap bytes Z :=
  <[ToLower name := (default 0 (m !! ToLower name) + z)%Z]> m.

Definition topCount (p : Policy) (occ : list topRel) (deep : list TableRef) : gmap bytes Z :=
  foldl (count (-1)) (foldl (count 1) ∅ ((fun r => RTable (tr_rel r)) <$> occ))
    (base.filter (fun n => designates p n = true) (TRName <$> deep)).

Definition analyzeApplicability (p : Policy) (kind : StmtKind) (rels : list topRel) (deep : list TableRef)
    (conflict : conflictArm) (nested : list NestedDML) : applicability :=
  let hit := List.find (fun d => named p (NTable d) && coversNested p d) nested in
  let occ := base.filter (fun r => named p (RTable (tr_rel r)) = true) rels in
  let hid := existsb (fun '(_, n) => Z.ltb n 0) (map_to_list (topCount p occ deep)) in
  let act :=
    match kind with
    | StmtInsert => (hid && coversSelect p) || (negb (bool_decide (length occ = 0)) && governedBy conflict p)
    | _ =>
        (appliesTo p kind && (negb (bool_decide (length occ = 0)) || hid))
        || match updateConflictTarget p kind rels conflict with Some _ => true | None => false end
    end in
  mkApp occ hid (act || match hit with Some _ => true | None => false end) hit.

(** ** Reads beyond the maximal rendering *)

Definition name_count (name : bytes) (deep : list TableRef) : nat :=
  length (base.filter (fun tr => ToLower (TRName tr) = name) deep).

(** [note]: what a rendering reads more often than the maximal one. *)
Definition note (fe : Frontend) (maxDeep : list TableRef) (r : result RenderErr Rendering)
    (st : gset bytes * list NestedDML) : gset bytes * list NestedDML :=
  match r with
  | Err _ => st
  | Ok r =>
      match Parse fe (RSQL r) with
      | Ok t =>
          if Z.eqb (StmtCount t) 1 then
            let more := base.filter (fun n => name_count n maxDeep < name_count n (DeepTables t))
                          ((fun tr => ToLower (TRName tr)) <$> DeepTables t) in
            (st.1 ∪ list_to_set more, st.2 ++ TNestedDML t)
          else st
      | Err _ => st
      end
  end.

Definition over_choose (fe : Frontend) (q : QueryTemplate) (maxDeep : list TableRef)
    (st : nat * (gset bytes * list NestedDML)) (it : Item) : nat * (gset bytes * list NestedDML) :=
  match it with
  | IChoose c =>
      (S st.1, foldl (fun o ord => note fe maxDeep (Render profile q {[st.1 := ord]}) o) st.2 (seq 1 (maxOrdinal c - 1)))
  | _ => st
  end.

Definition over_order (fe : Frontend) (q : QueryTemplate) (maxDeep : list TableRef) (orderCount : nat)
    (st : nat * (gset bytes * list NestedDML)) (o : OrderBy) : nat * (gset bytes * list NestedDML) :=
  (S st.1,
   match ObDefault o with
   | Some _ =>
       note fe maxDeep
         (RenderShape profile q (N.ones 64) ∅ (<[st.1 := Some []]> (replicate orderCount None)) []) st.2
   | None => st.2
   end).

Definition overreadDeep (fe : Frontend) (q : QueryTemplate) (maxDeep : list TableRef) : gset bytes * list NestedDML :=
  let st := (foldl (over_choose fe q maxDeep) (0, (∅, [])) (QItems q)).2 in
  let orders := omap as_order (QItems q) in
  (foldl (over_order fe q maxDeep (length orders)) (0, st) orders).2.

Definition designatedOverread (p : Policy) (over : gset bytes) (kind : StmtKind) : list bytes :=
  let applies := match kind with StmtInsert => coversSelect p | _ => appliesTo p kind end in
  if applies then sort_strings (base.filter (fun n => designates p n = true) (elements over)) else [].

(** ** Annotations *)

Definition optOutFor (q : QueryTemplate) (name : bytes) : option PolicyOptOut :=
  List.find (fun o => bool_decide (POPolicy o = name)) (QPolicyOptOuts q).
Definition applyFor (q : QueryTemplate) (name : bytes) : option PolicyApply :=
  List.find (fun a => bool_decide (PAPolicy a = name)) (QPolicyApplies q).

(** ** The weaver *)

(** [onInfo], the memo of the ON scans, is threaded. *)
Record weaver := mkWeaver {
  w_q : QueryTemplate; w_maxR : Rendering; w_kind : StmtKind; w_rels : list topRel; w_deep : list TableRef;
  w_nBranches : nat; w_setop : option setOpScan; w_conflict : conflictArm; w_nested : list NestedDML;
  w_overread : gset bytes; w_where : clauseScan;
}.

Abbreviation memo := (gmap nat joinOnResult).

(** The template offset of a rendered location, unless it is synthesized. *)
Definition template_off (maxR : Rendering) (loc : Z) : option nat :=
  if Z.ltb loc 0 then None
  else let '(off, synth) := ToTemplate (RMap maxR) (Z.to_nat loc) in if synth then None else Some off.

Definition relTemplateOff (w : weaver) (r : RelRef) : option nat := template_off (w_maxR w) (RLoc r).

Definition relSpan (w : weaver) (r : RelRef) : Span :=
  match template_off (w_maxR w) (RLoc r) with
  | None => QHeaderSpan (w_q w)
  | Some off => mkSpan (SFile (QHeaderSpan (w_q w))) off (off + length (RTable r))
  end.

Definition joinOnFor (q : QueryTemplate) (m : memo) (off : nat) (ownJoin : JoinType) : joinOnResult * memo :=
  match m !! off with
  | Some res => (res, m)
  | None => let res := joinOn ToUpper profile q off ownJoin in (res, <[off := res]> m)
  end.

(** The first fragment around a location decides. *)
Definition guardedAt (w : weaver) (loc : Z) : bool :=
  if Z.ltb loc 0 then false
  else
    match List.find (fun fr => Z.leb (Z.of_nat (FRStart fr)) loc && Z.ltb loc (Z.of_nat (FREnd fr))) (RFrags (w_maxR w)) with
    | Some fr => match FRItem fr with IIfPresent ip => negb (bool_decide (length (IPGuards ip) = 0)) | _ => false end
    | None => false
    end.

(** The branch a relation is tagged with exists ([topRelations_branch]). *)
Definition whereScan (w : weaver) (branch : option nat) : clauseScan :=
  match branch, w_setop w with
  | Some b, Some so => match so_branches so !! b with Some br => br_where br | None => cs_empty end
  | _, _ => w_where w
  end.

(** A readable clause without OR holds the conjunct. *)
Definition credits (cs : clauseScan) (conjunct : bytes) : bool :=
  lexOK cs && negb (hasOR cs) && segsContain profile (segs cs) conjunct.

Definition wherePresent (w : weaver) (branch : option nat) (conjunct : bytes) : bool := credits (whereScan w branch) conjunct.
Definition onPresent (res : joinOnResult) (conjunct : bytes) : bool := jo_found res && credits (jo_cs res) conjunct.

Definition unweavable (p : Policy) (span : Span) (why : Arg) : Diagnostic :=
  WithHintf "opt out explicitly with `-- @policy-optout: %s (reason)` or restructure the query" [AStr (PolName p)]
    (Errorf CodePolicyUnweavable span "policy %q applies to this query but cannot be woven: %s" [AStr (PolName p); why]).

Definition why (format : string) (args : list bytes) : Arg := ASprintf (bs format) (AStr <$> args).

Definition annotationObligation (w : weaver) (p : Policy) : option Diagnostic :=
  if negb (PolRequireAnnotation p) then None
  else
    match applyFor (w_q w) (PolName p), optOutFor (w_q w) (PolName p) with
    | None, None =>
        Some (WithHintf "add `-- @policy-apply: %s` to acknowledge the scoping, or `-- @policy-optout: %s (reason)` to exempt this query"
                [AStr (PolName p); AStr (PolName p)]
                (Errorf CodePolicyUnannotated (QHeaderSpan (w_q w))
                   "policy %q applies to this query and is declared `require_annotation: true`, so the query must say so: it is scoped either way, but the template must record which"
                   [AStr (PolName p)]))
    | _, _ => None
    end.

Definition policyParamKindCollision (existing : Param) : option Arg :=
  if existsb OcInFilterTree (POccurrences existing) then
    Some (why "the query already binds parameter %q inside a @filter-tree @predicate (a constructor argument); it cannot also be bound as a policy scoping value (R9)" [PName existing])
  else if Z.leb 0 (PGuardBit existing) || POptional existing then
    Some (why "the query already uses parameter %q as a control parameter (an @if-present guard or @when value); an optional guard sends NULL in every shape the caller omits it, and a control parameter cannot be bound as a policy scoping value (R9)" [PName existing])
  else None.

Definition paramDeclSpan (q : QueryTemplate) (name : bytes) : Span :=
  match QParams q !! name with
  | Some p => match POccurrences p with o :: _ => OcSpan o | [] => QHeaderSpan q end
  | None => QHeaderSpan q
  end.

(** An early return with a diagnostic. *)
Definition refuse (b : bool) (d : Diagnostic) : result Diagnostic unit := if b then Err d else Ok tt.
Definition refuse_some (d : option Diagnostic) : result Diagnostic unit := match d with Some d => Err d | None => Ok tt end.

(** A round of [checkSetOpOccurrences]. *)
Definition check_branch (w : weaver) (so : setOpScan) (p : Policy) (_ : unit) (occ : topRel) : result Diagnostic unit :=
  let r := tr_rel occ in
  if guardedAt w (RLoc r) then Ok tt
  else
    let lost := Err (unweavable p (relSpan w r)
                       (why "table %q in a set-operation branch cannot be located in the template" [RTable r])) in
    match off ← relTemplateOff w r; so_branchOf so !! off with
    | None => lost
    | Some bi =>
        if negb (bool_decide (Some bi = tr_branch occ)) then lost
        else
          let kw := match so_branches so !! bi with Some b => br_leadKw b | None => [] end in
          refuse (negb (bool_decide (kw = bs "SELECT")))
            (unweavable p (relSpan w r)
               (why "table %q is read by a %s operand of a set operation, which has no WHERE clause to scope it; write that operand as SELECT … FROM" [RTable r; kw]))
    end.

Definition checkSetOpOccurrences (w : weaver) (p : Policy) (a : applicability) : result Diagnostic unit :=
  match w_setop w with
  | None => Ok tt
  | Some so =>
      if negb (so_ok so) || negb (Nat.eqb (length (so_branches so)) (w_nBranches w)) then
        Err (unweavable p (QHeaderSpan (w_q w))
               (why "the branches of this set operation could not be located in the template (a set operator inside a construct body, or an operand shape sqletch does not model)" []))
      else rfold (check_branch w so p) tt (topOcc a)
  end.

(** What cannot be scoped whatever the occurrences are. *)
Definition check_statement (w : weaver) (p : Policy) (a : applicability) (over : list bytes) : result Diagnostic unit :=
  let header := QHeaderSpan (w_q w) in
  let! _ := refuse_some ((fun name => unweavable p header
              (why "designated table %q is read only inside a non-first @choose alternative or an @order-by @default body, a rendering the weaver cannot see or scope (it works from the maximal rendering)" [name])) <$> head over) in
  let! _ := refuse_some ((fun d => unweavable p header
              (why "designated table %q is the target of a data-modifying CTE (%s inside WITH), which modifies rows sqletch cannot scope" [NTable d; nestedDMLVerb d])) <$> nestedHit a) in
  let! _ :=
    match w_kind w, topOcc a with
    | StmtInsert, occ :: _ =>
        if governedBy (w_conflict w) p then
          Err (unweavable p (relSpan w (tr_rel occ))
                 (why "table %q is the target of an %s; its conflict handling modifies an existing row but cannot carry a scoping conjunct, so the statement cannot be woven" [RTable (tr_rel occ); conflict_construct (w_conflict w)]))
        else Err (unweavable p header (why "a designated table is read inside this INSERT's SELECT body, which sqletch cannot scope" []))
    | StmtInsert, [] =>
        Err (unweavable p header (why "a designated table is read inside this INSERT's SELECT body, which sqletch cannot scope" []))
    | _, _ => Ok tt
    end in
  let! _ := refuse_some ((fun tgt => unweavable p (relSpan w (tr_rel tgt))
              (why "table %q is the target of an UPDATE OR REPLACE; its conflict handling deletes whichever row the new values collide with, which no scoping conjunct reaches, so the statement cannot be woven" [RTable (tr_rel tgt)]))
              <$> updateConflictTarget p (w_kind w) (w_rels w) (w_conflict w)) in
  let! _ := refuse (hidden a) (unweavable p header
              (why "a designated table appears inside a subquery or CTE body, which sqletch cannot scope" [])) in
  checkSetOpOccurrences w p a.

(** The ON clause of an occurrence on a null-extended side. *)
Definition on_occurrence (w : weaver) (p : Policy) (m : memo) (r : RelRef) : memo * result Diagnostic joinOnResult :=
  let bad format := Err (unweavable p (relSpan w r) (why format [RTable r])) in
  match relTemplateOff w r with
  | None => (m, bad "table %q sits on the null-extended side of an outer join, and its reference cannot be located in the template")
  | Some off =>
      let '(res, m) := joinOnFor (w_q w) m off (RJoin r) in
      (m,
       if jo_found res && negb (lexOK (jo_cs res)) then
         bad "table %q sits on the null-extended side of an outer join whose ON expression could not be read (an unbalanced CASE … END, a CASE arm keyword outside a CASE, or a construct inside a CASE arm), so its top-level conjuncts are unknown"
       else if negb (jo_found res) || negb (lexOK (jo_cs res)) || Z.ltb (cs_start (jo_cs res)) 0 then
         bad "table %q sits on the null-extended side of a join with no ON expression to extend (USING/NATURAL/comma join); rewrite it with an explicit ON"
       else if jo_wrongJoin res then
         bad "table %q is null-extended by an outer join whose ON clause cannot scope its own rows (a FULL join preserves both sides, or the table is on the preserved side of its own join and null-extended by an enclosing join); a WHERE conjunct would turn the join inner and an ON conjunct on the wrong join would leak"
       else Ok res)
  end.

(** Where an occurrence is scoped: in the WHERE clause or in its join's ON. *)
Inductive place := InWhere | InOn (res : joinOnResult).

Definition place_occurrence (w : weaver) (p : Policy) (m : memo) (occ : topRel) : memo * result Diagnostic place :=
  let r := tr_rel occ in
  if guardedAt w (RLoc r) then
    (m, Err (unweavable p (relSpan w r)
          (why "table %q is introduced by a guarded (@if-present) join and cannot be unconditionally scoped" [RTable r])))
  else if negb (MatchString bareIdentRe (boundName r)) then
    (m, Err (unweavable p (relSpan w r)
          (why "the name bound to the predicate placeholder (%q) is not a bare identifier" [boundName r])))
  else if hasPlaceholder (PolPredicate p) && unquotedFoldChanges profile (boundName r) then
    (m, Err (WithHintf "%s, or opt out explicitly with `-- @policy-optout: %s (reason)`" [AStr foldChangeHint; AStr (PolName p)]
          (unweavable p (relSpan w r) (foldChangeWhy (boundName r)))))
  else if RNullableSide r then
    let '(m, res) := on_occurrence w p m r in (m, let! res := res in Ok (InOn res))
  else (m, Ok InWhere).

(** The occurrence loop: the places, in document order. *)
Fixpoint place_occurrences (w : weaver) (p : Policy) (m : memo) (occs : list topRel)
    : memo * result Diagnostic (list (topRel * place)) :=
  match occs with
  | [] => (m, Ok [])
  | occ :: rest =>
      match place_occurrence w p m occ with
      | (m, Err d) => (m, Err d)
      | (m, Ok pl) => let '(m, pls) := place_occurrences w p m rest in (m, let! pls := pls in Ok ((occ, pl) :: pls))
      end
  end.

Definition in_where (pls : list (topRel * place)) : list topRel :=
  omap (fun '(occ, pl) => match pl with InWhere => Some occ | InOn _ => None end) pls.
Definition in_on (pls : list (topRel * place)) : list (topRel * joinOnResult) :=
  omap (fun '(occ, pl) => match pl with InWhere => None | InOn res => Some (occ, res) end) pls.

(** The policy's parameter may be bound unconditionally. *)
Definition check_param (w : weaver) (p : Policy) : result Diagnostic unit :=
  let q := w_q w in
  let name := PolParamName p in
  match name with
  | [] => Ok tt
  | _ =>
      let! _ := refuse_some (existing ← QParams q !! name; y ← policyParamKindCollision existing;
                             Some (unweavable p (paramDeclSpan q name) y)) in
      match PolParamType p, QTypeHints q !! name with
      | _ :: _, Some h =>
          refuse (negb (EqualFold (TrimSpace (THSQLType h)) (PolParamType p)))
            (unweavable p (THSpan h)
               (why "the query hints parameter %q as %q, but the policy declares %q" [name; THSQLType h; PolParamType p]))
      | _, _ => Ok tt
      end
  end.

Definition where_targets (p : Policy) (a : applicability) (pls : list (topRel * place)) : list topRel :=
  if hasPlaceholder (PolPredicate p) then in_where pls else topOcc a.

Definition check_readable (w : weaver) (p : Policy) (_ : unit) (r : topRel) : result Diagnostic unit :=
  refuse (negb (lexOK (whereScan w (tr_branch r))))
    (unweavable p (relSpan w (tr_rel r))
       (why "the WHERE clause's CASE … END nesting could not be read (an unbalanced CASE, a CASE arm keyword outside a CASE, or a construct inside a CASE arm), so its top-level conjuncts are unknown" [])).

(** Conjuncts destined for a WHERE clause and for an ON clause. *)
Record whereNeed := mkWhereNeed { wn_branch : option nat; wn_conj : bytes }.
Record onNeed := mkOnNeed { on_res : joinOnResult; on_conj : bytes }.

Definition conjunct_for (p : Policy) (r : topRel) : bytes := bindPlaceholder (boundName (tr_rel r)) (PolPredicate p).

(** One occurrence per branch, the first. *)
Definition first_branches (occs : list topRel) : list (option nat) :=
  foldl (fun seen occ => if bool_decide (tr_branch occ ∈ seen) then seen else seen ++ [tr_branch occ]) [] occs.

Record apply_out := mkOut {
  ao_woven : option WovenPolicy; ao_where : list whereNeed; ao_on : list onNeed; ao_diags : list Diagnostic;
}.

Definition ao_fail (d : Diagnostic) : apply_out := mkOut None [] [] [d].

(** The end of [applyActive]: every conjunct is there or needed. *)
Definition needs_of (w : weaver) (p : Policy) (a : applicability) (pls : list (topRel * place)) : apply_out :=
  if hasPlaceholder (PolPredicate p) then
    mkOut (Some (mkWoven p ((conjunct_for p <$> in_where pls) ++ ((fun o => conjunct_for p o.1) <$> in_on pls)) false []))
      (omap (fun r => let c := conjunct_for p r in
                      if wherePresent w (tr_branch r) c then None else Some (mkWhereNeed (tr_branch r) c)) (in_where pls))
      (omap (fun '(r, res) => let c := conjunct_for p r in
                      if onPresent res c then None else Some (mkOnNeed res c)) (in_on pls))
      []
  else
    let branches := first_branches (topOcc a) in
    mkOut (Some (mkWoven p ((fun _ => PolPredicate p) <$> branches) false []))
      (omap (fun b => if wherePresent w b (PolPredicate p) then None else Some (mkWhereNeed b (PolPredicate p))) branches)
      [] [].

Definition applyActive (w : weaver) (m : memo) (p : Policy) (a : applicability) (over : list bytes) : memo * apply_out :=
  match optOutFor (w_q w) (PolName p) with
  | Some o => (m, mkOut (Some (mkWoven p [] true (POReason o))) [] [] [])
  | None =>
      match check_statement w p a over with
      | Err d => (m, ao_fail d)
      | Ok _ =>
          let '(m, pls) := place_occurrences w p m (topOcc a) in
          (m,
           match
             let! pls := pls in
             let! _ := check_param w p in
             let! _ := rfold (check_readable w p) tt (where_targets p a pls) in
             Ok (needs_of w p a pls)
           with
           | Ok out => out
           | Err d => ao_fail d
           end)
      end
  end.

Definition apply (w : weaver) (m : memo) (p : Policy) : memo * apply_out :=
  let a := analyzeApplicability p (w_kind w) (w_rels w) (w_deep w) (w_conflict w) (w_nested w) in
  let over := designatedOverread p (w_overread w) (w_kind w) in
  if negb (active a) && bool_decide (over = []) then (m, mkOut None [] [] [])
  else
    let '(m, out) := applyActive w m p a over in
    (m, match annotationObligation w p with
        | Some d => mkOut (ao_woven out) (ao_where out) (ao_on out) (ao_diags out ++ [d])
        | None => out
        end).

(** ** Assembly *)

Definition joinParenthesized (conjs : list bytes) : bytes :=
  join (bs " AND ") ((fun c => bs "(" ++ c ++ bs ")") <$> conjs).

(** The values of equal keys, in order of first occurrence. *)
Fixpoint group_by {K V} (same : K -> K -> bool) (groups : list (K * list V)) (k : K) (v : V) : list (K * list V) :=
  match groups with
  | [] => [(k, [v])]
  | (k', vs) :: rest => if same k' k then (k', vs ++ [v]) :: rest else (k', vs) :: group_by same rest k v
  end.

Definition on_groups (needs : list onNeed) : list (joinOnResult * list bytes) :=
  foldl (fun gs n => group_by (fun a b => Z.eqb (cs_start (jo_cs a)) (cs_start (jo_cs b))) gs (on_res n) (on_conj n)) [] needs.
Definition where_groups (needs : list whereNeed) : list (option nat * list bytes) :=
  foldl (fun gs n => group_by (fun a b => bool_decide (a = b)) gs (wn_branch n) (wn_conj n)) [] needs.

(** The insertions, without their sequence numbers. *)
Definition on_insertions (g : joinOnResult * list bytes) : list (Z * Z * bytes) :=
  let '(res, conjs) := g in
  let joined := joinParenthesized conjs in
  let cs := jo_cs res in
  if hasOR cs then [(cs_start cs, 0%Z, bs "("); (cs_end cs, 1%Z, bs ") AND " ++ joined)]
  else [(cs_end cs, 1%Z, bs " AND " ++ joined)].

Definition where_slot (w : weaver) (branch : option nat) : Z * Z * Z * clauseScan :=
  match branch, w_setop w with
  | Some b, Some so =>
      match so_branches so !! b with
      | Some br => (br_whereKwEnd br, br_tailStart br, br_end br, br_where br)
      | None => (-1, -1, -1, cs_empty)%Z
      end
  | _, _ => (QWhereKwEnd (w_q w), QTailStart (w_q w), QStmtEnd (w_q w), w_where w)
  end.

Definition where_insertions (w : weaver) (g : option nat * list bytes) : list (Z * Z * bytes) :=
  let '(branch, conjs) := g in
  let joined := joinParenthesized conjs in
  let '(whereKwEnd, tailStart, end_, cs) := where_slot w branch in
  if Z.leb 0 whereKwEnd then
    (whereKwEnd, 2%Z, bs " " ++ joined ++ bs " AND")
    :: (if hasOR cs then [(cs_start cs, 2%Z, bs "("); (cs_end cs, 2%Z, bs ")")] else [])
  else if Z.leb 0 tailStart then [(tailStart, 2%Z, bs "WHERE " ++ joined ++ bs " ")]
  else if Z.leb 0 end_ then [(end_, 2%Z, bs " WHERE " ++ joined)]
  else [].

Definition insertions (w : weaver) (ons : list onNeed) (wheres : list whereNeed) : list insertion :=
  imap (fun i '(off, prio, text) => mkIns off prio (Z.of_nat i) text)
    (concat (on_insertions <$> on_groups ons) ++ concat (where_insertions w <$> where_groups wheres)).

(** [verifySetOpWeave]; [None] is Go's [true]. *)
Definition verifySetOpWeave (fe : Frontend) (w : weaver) (woven : QueryTemplate) (wps : list WovenPolicy) : option Diagnostic :=
  let name := match List.find (fun wp => negb (WOptedOut wp) && negb (bool_decide (length (WConjuncts wp) = 0))) wps with
              | Some wp => PolName (WPolicy wp) | None => [] end in
  let bad := Some (WithHintf "opt out explicitly with `-- @policy-optout: %s (reason)` or restructure the query" [AStr name]
    (Errorf CodePolicyUnweavable (QHeaderSpan (w_q w))
       "policy %q applies to this query but cannot be woven: the set operation's branches could not be scoped without changing the statement's structure" [AStr name])) in
  match Render profile woven ∅ with
  | Err _ => bad
  | Ok r =>
      match Parse fe (RSQL r) with
      | Err _ => bad
      | Ok tree =>
          if negb (Z.eqb (StmtCount tree) 1) then bad
          else
            let '(got, n) := topRelations tree in
            if negb (Nat.eqb n (w_nBranches w)) || negb (Nat.eqb (length got) (length (w_rels w))) then bad
            else if forallb (fun '(g, r) =>
                      bool_decide (tr_branch g = tr_branch r) && EqualFold (RTable (tr_rel g)) (RTable (tr_rel r))
                      && bool_decide (RAlias (tr_rel g) = RAlias (tr_rel r))) (zip got (w_rels w))
                 then None else bad
      end
  end.

(** ** Weave *)

Record weave_result := mkResult { WQuery : QueryTemplate; WWoven : list WovenPolicy; WDiags : list Diagnostic }.

Definition weaver_of (fe : Frontend) (q : QueryTemplate) (maxR : Rendering) (tree : Tree) : weaver :=
  let '(rels, nBranches) := topRelations tree in
  let '(over, overNested) := overreadDeep fe q (DeepTables tree) in
  mkWeaver q maxR (TKind tree) rels (DeepTables tree) nBranches
    (if Nat.ltb 0 nBranches then Some (scanSetOp ToUpper profile q) else None)
    (conflictArmOf tree) (TNestedDML tree ++ overNested) over
    (if Nat.ltb 0 nBranches then cs_empty else whereClause ToUpper profile q).

(** The policies in order. *)
Fixpoint apply_all (w : weaver) (m : memo) (pols : list Policy) : list apply_out :=
  match pols with
  | [] => []
  | p :: rest => let '(m, out) := apply w m p in out :: apply_all w m rest
  end.

Definition weave_with (fe : Frontend) (w : weaver) (pols : list Policy) : weave_result :=
  let q := w_q w in
  let outs := apply_all w ∅ pols in
  let wps := omap ao_woven outs in
  let diags := concat (ao_diags <$> outs) in
  match insertions w (concat (ao_on <$> outs)) (concat (ao_where <$> outs)) with
  | [] => mkResult q wps diags
  | ins =>
      let woven := registerParams (splice q ins) wps in
      if Nat.ltb 0 (w_nBranches w) then
        match verifySetOpWeave fe w woven wps with
        | Some d => mkResult q [] (diags ++ [d])
        | None => mkResult woven wps diags
        end
      else mkResult woven wps diags
  end.

Definition Weave (fe : Frontend) (pols : list Policy) (q : QueryTemplate) : weave_result :=
  match pols with
  | [] => mkResult q [] []
  | _ =>
      match Render profile q ∅ with
      | Err _ => mkResult q [] []
      | Ok maxR =>
          match Parse fe (RSQL maxR) with
          | Ok tree =>
              if Z.eqb (StmtCount tree) 1 then weave_with fe (weaver_of fe q maxR tree) pols else mkResult q [] []
          | Err _ => mkResult q [] []
          end
      end
  end.
End weave.
