(* ===== verification/Enforce.v ===== *)
(** * Enforce

    [internal/policy/enforce.go]: the proof that a woven query is scoped, made
    from the query alone. *)

From S2P Require Import Prelude Dialect Template Render Frontend Diagnostics PolicyScan Policy Splice SetOp Weave.

Section enforce.
Context {strings : GoStrings} (profile : LexerProfile).

(** What the checks of one query read. *)
Record enforcer := mkEnforcer {
  e_q : QueryTemplate; e_maxR : Rendering; e_kind : StmtKind; e_rels : list topRel; e_nBranches : nat;
  e_deep : list TableRef; e_conflict : conflictArm; e_over : gset bytes; e_nested : list NestedDML;
  e_where : clauseScan; e_so : setOpScan;
}.

Definition enforcer_of (fe : Frontend) (q : QueryTemplate) (tree : Tree) (maxR : Rendering) : enforcer :=
  let '(rels, nBranches) := topRelations tree in
  let '(over, overNested) := overreadDeep profile fe q (DeepTables tree) in
  mkEnforcer q maxR (TKind tree) rels nBranches (DeepTables tree) (conflictArmOf tree) over (TNestedDML tree ++ overNested)
    (if Nat.ltb 0 nBranches then cs_empty else whereClause ToUpper profile q)
    (if Nat.ltb 0 nBranches then scanSetOp ToUpper profile q else so_none).

Definition e_applicability (e : enforcer) (p : Policy) : applicability :=
  analyzeApplicability p (e_kind e) (e_rels e) (e_deep e) (e_conflict e) (e_nested e).

(** [applies] *)
Definition e_applies (e : enforcer) (p : Policy) : bool :=
  active (e_applicability e p) || negb (bool_decide (length (designatedOverread p (e_over e) (e_kind e)) = 0)).

(** ** Annotations: SQLETCH126 *)

Definition byName (pols : list Policy) : gmap bytes Policy := foldl (fun m p => <[PolName p := p]> m) ∅ pols.

Definition check_optout (e : enforcer) (pols : list Policy) (o : PolicyOptOut) : list Diagnostic :=
  match byName pols !! POPolicy o with
  | None =>
      [WithHint "declared policies come from sqletch.yaml `policies:`; remove the opt-out or fix the name"
         (Errorf CodePolicyBadOptOut (POSpan o) "@policy-optout names unknown policy %q" [AStr (POPolicy o)])]
  | Some p =>
      if e_applies e p then []
      else [WithHintf "the query touches no table designated by %q (in a kind it covers); remove the opt-out" [AStr (POPolicy o)]
              (Errorf CodePolicyBadOptOut (POSpan o) "@policy-optout: policy %q does not apply to this query" [AStr (POPolicy o)])]
  end.

Definition check_apply (e : enforcer) (pols : list Policy) (a : PolicyApply) : list Diagnostic :=
  match byName pols !! PAPolicy a with
  | None =>
      [WithHint "declared policies come from sqletch.yaml `policies:`; remove the annotation or fix the name"
         (Errorf CodePolicyBadOptOut (PASpan a) "@policy-apply names unknown policy %q" [AStr (PAPolicy a)])]
  | Some p =>
      match optOutFor (e_q e) (PAPolicy a) with
      | Some _ =>
          [WithHint "a query is scoped or exempt, never both; keep the one you mean"
             (Errorf CodePolicyBadOptOut (PASpan a)
                "policy %q is both acknowledged (@policy-apply) and exempted (@policy-optout) by this query" [AStr (PAPolicy a)])]
      | None =>
          if e_applies e p then []
          else [WithHintf "the query touches no table designated by %q (in a kind it covers), so nothing is woven; remove the annotation" [AStr (PAPolicy a)]
                  (Errorf CodePolicyBadOptOut (PASpan a) "@policy-apply: policy %q does not apply to this query" [AStr (PAPolicy a)])]
      end
  end.

(** ** Presence *)

(** The WHERE clause an occurrence is credited from: the statement's, or that of
    the branch on which the parser and the lexical split agree. *)
Definition e_clause (e : enforcer) (r : topRel) : option clauseScan :=
  match tr_branch r with
  | None => Some (e_where e)
  | Some b =>
      let so := e_so e in
      if negb (so_ok so) || negb (Nat.eqb (length (so_branches so)) (e_nBranches e)) then None
      else
        match off ← template_off (e_maxR e) (RLoc (tr_rel r)); so_branchOf so !! off with
        | Some bi => if Nat.eqb bi b then br_where <$> so_branches so !! b else None
        | None => None
        end
  end.

Definition e_wherePresent (e : enforcer) (r : topRel) (conjunct : bytes) : bool :=
  match e_clause e r with Some cs => credits profile cs conjunct | None => false end.

(** [onScanFor] *)
Definition onScanFor (e : enforcer) (m : gmap nat joinOnResult) (r : RelRef) : option joinOnResult * gmap nat joinOnResult :=
  match template_off (e_maxR e) (RLoc r) with
  | None => (None, m)
  | Some off => let '(res, m) := joinOnFor profile (e_q e) m off (RJoin r) in (Some res, m)
  end.

Definition on_credits (res : joinOnResult) (conjunct : bytes) : bool :=
  negb (jo_wrongJoin res) && onPresent profile res conjunct.

Definition in_own_on (p : Policy) (r : topRel) : bool := RNullableSide (tr_rel r) && hasPlaceholder (PolPredicate p).

Definition e_present (e : enforcer) (m : gmap nat joinOnResult) (p : Policy) (r : topRel) : bool * gmap nat joinOnResult :=
  let conjunct := conjunct_for p r in
  if in_own_on p r then
    let '(res, m) := onScanFor e m (tr_rel r) in
    (match res with Some res => on_credits res conjunct | None => false end, m)
  else (e_wherePresent e r conjunct, m).

(** ** The checks of a policy: SQLETCH124 *)

Definition unscoped (e : enforcer) (format : string) (args : list Arg) (hint : string) (hargs : list Arg) : Diagnostic :=
  WithHintf hint hargs (Errorf CodePolicyUnscoped (QHeaderSpan (e_q e)) format args).

Definition unscoped_conjunct (e : enforcer) (p : Policy) (r : topRel) : Diagnostic :=
  unscoped e "query touches policy-designated table %q without policy %q's scoping conjunct in every shape"
    [AStr (RTable (tr_rel r)); AStr (PolName p)]
    "expected an unconditional conjunct `%s` in the %s; a copy inside @if-present does not count — it vanishes in guard-off shapes"
    [AStr (conjunct_for p r);
     AStr (if in_own_on p r then bs "join's ON clause (the table is on a null-extended outer-join side)"
           else bs "WHERE clause")].

Definition unscoped_fold (e : enforcer) (p : Policy) (r : topRel) : Diagnostic :=
  unscoped e "query touches policy-designated table %q, but policy %q cannot be proved to scope it: %s"
    [AStr (RTable (tr_rel r)); AStr (PolName p); foldChangeWhy (boundName (tr_rel r))]
    "%s, or opt out with `-- @policy-optout: %s (reason)`" [AStr foldChangeHint; AStr (PolName p)].

(** The occurrence loop, which stops at the first that is not scoped. *)
Fixpoint check_occurrences (e : enforcer) (p : Policy) (m : gmap nat joinOnResult) (occs : list topRel)
    : list Diagnostic * gmap nat joinOnResult :=
  match occs with
  | [] => ([], m)
  | r :: rest =>
      if hasPlaceholder (PolPredicate p) && unquotedFoldChanges profile (boundName (tr_rel r)) then ([unscoped_fold e p r], m)
      else
        let '(present, m) := e_present e m p r in
        if present then check_occurrences e p m rest else ([unscoped_conjunct e p r], m)
  end.

Definition check_policy (e : enforcer) (m : gmap nat joinOnResult) (p : Policy) : list Diagnostic * gmap nat joinOnResult :=
  let a := e_applicability e p in
  match optOutFor (e_q e) (PolName p), designatedOverread p (e_over e) (e_kind e), nestedHit a with
  | Some _, _, _ => ([], m)
  | None, name :: _, _ =>
      ([unscoped e "query reads policy-designated table %q inside a non-maximal rendering (a @choose alternative or @order-by @default) that policy %q cannot scope"
          [AStr name; AStr (PolName p)]
          "that rendering is invisible to the weaver; restructure so the designated read appears in every shape, or opt out with `-- @policy-optout: %s (reason)`" [AStr (PolName p)]], m)
  | None, [], Some d =>
      ([unscoped e "query modifies policy-designated table %q in a data-modifying CTE (%s inside WITH), which policy %q cannot scope"
          [AStr (NTable d); AStr (nestedDMLVerb d); AStr (PolName p)]
          "a WITH-body DML cannot carry a woven conjunct; move the modification to its own top-level statement or opt out with `-- @policy-optout: %s (reason)`" [AStr (PolName p)]], m)
  | None, [], None =>
      if bool_decide (e_kind e = StmtInsert) then
        match topOcc a with
        | occ :: _ =>
            if governedBy (e_conflict e) p then
              ([unscoped e "query writes policy-designated table %q via an %s, which policy %q cannot scope"
                  [AStr (RTable (tr_rel occ)); AStr (conflict_construct (e_conflict e)); AStr (PolName p)]
                  "a conflict arm that modifies an existing row cannot carry a scoping conjunct; restructure or opt out with `-- @policy-optout: %s (reason)`" [AStr (PolName p)]], m)
            else ([], m)
        | [] => ([], m)
        end
      else
        match updateConflictTarget p (e_kind e) (e_rels e) (e_conflict e) with
        | Some tgt =>
            ([unscoped e "query updates policy-designated table %q via UPDATE OR REPLACE, whose conflict handling deletes rows policy %q cannot scope"
                [AStr (RTable (tr_rel tgt)); AStr (PolName p)]
                "UPDATE OR REPLACE deletes whichever row the new values collide with; use a plain UPDATE (or OR ABORT/FAIL/IGNORE/ROLLBACK), or opt out with `-- @policy-optout: %s (reason)`" [AStr (PolName p)]], m)
        | None => if negb (active a) || hidden a then ([], m) else check_occurrences e p m (topOcc a)
        end
  end.

Fixpoint check_policies (e : enforcer) (m : gmap nat joinOnResult) (pols : list Policy) : list Diagnostic :=
  match pols with
  | [] => []
  | p :: rest => let '(ds, m) := check_policy e m p in ds ++ check_policies e m rest
  end.

Definition enforce_with (e : enforcer) (pols : list Policy) : list Diagnostic :=
  concat (check_optout e pols <$> QPolicyOptOuts (e_q e))
  ++ concat (check_apply e pols <$> QPolicyApplies (e_q e))
  ++ check_policies e ∅ pols.

Definition Enforce (fe : Frontend) (pols : list Policy) (q : QueryTemplate) (tree : Tree) (maxR : Rendering) : list Diagnostic :=
  enforce_with (enforcer_of fe q tree maxR) pols.
End enforce.
