(* ===== verification/PolicyProps.v ===== *)
(** * PolicyProps

    The enforcement pass is exact - it reports nothing if and only if every
    policy is scoped, opted out or inapplicable - and it agrees with the weaver:
    on a query the weaver has no objection to, there is nothing to insert
    exactly when enforcement is satisfied.  The memos of the ON scans do not
    show, as long as references at one place have one join type. *)

From S2P Require Import Prelude Dialect Postgres Template Render Demo Diagnostics Regex Scanner Frontend PolicyScan Policy Splice SetOp Weave Enforce.

Section props.
Context {strings : GoStrings} (profile : LexerProfile).

(** ** Memos *)

Section memo.
Context (q : QueryTemplate) (maxR : Rendering) (rels : list topRel).

Definition on_scan (off : nat) (r : RelRef) : joinOnResult := joinOn ToUpper profile q off (RJoin r).

(** References at one place of the template have one join type. *)
Definition one_join : Prop :=
  forall r1 r2 off, r1 ∈ rels -> r2 ∈ rels -> template_off maxR (RLoc (tr_rel r1)) = Some off ->
  template_off maxR (RLoc (tr_rel r2)) = Some off -> RJoin (tr_rel r1) = RJoin (tr_rel r2).

(** A test of it. *)
Definition one_join_test : bool :=
  forallb (fun r1 => forallb (fun r2 =>
    match template_off maxR (RLoc (tr_rel r1)), template_off maxR (RLoc (tr_rel r2)) with
    | Some a, Some b => negb (Nat.eqb a b) || bool_decide (RJoin (tr_rel r1) = RJoin (tr_rel r2))
    | _, _ => true
    end) rels) rels.

Lemma one_join_test_ok : one_join_test = true -> one_join.
Proof.
  intros H r1 r2 off H1%list_elem_of_In H2%list_elem_of_In E1 E2. unfold one_join_test in H.
  rewrite forallb_forall in H. specialize (H r1 H1). rewrite forallb_forall in H. specialize (H r2 H2).
  rewrite E1, E2, Nat.eqb_refl in H. by apply bool_decide_eq_true in H.
Qed.

Definition memo_ok (m : gmap nat joinOnResult) : Prop :=
  forall off res r, m !! off = Some res -> r ∈ rels -> template_off maxR (RLoc (tr_rel r)) = Some off ->
  res = on_scan off (tr_rel r).

Lemma memo_ok_empty : memo_ok ∅.
Proof. intros off res r. by rewrite lookup_empty. Qed.

Lemma joinOnFor_ok m off r : one_join -> memo_ok m -> r ∈ rels -> template_off maxR (RLoc (tr_rel r)) = Some off ->
  exists m', joinOnFor profile q m off (RJoin (tr_rel r)) = (on_scan off (tr_rel r), m') /\ memo_ok m'.
Proof.
  intros H1 Hm Hr Ho. unfold joinOnFor. destruct (m !! off) as [res|] eqn:E.
  - exists m. split; [|done]. f_equal. by apply (Hm off res r).
  - eexists. split; [done|]. intros off' res r' Hl Hr' Ho'. destruct (decide (off' = off)) as [->|Hne].
    + rewrite lookup_insert in Hl. rewrite decide_True in Hl by done. injection Hl as <-.
      unfold on_scan. by rewrite (H1 r r' off).
    + rewrite lookup_insert_ne in Hl by done. by eapply Hm.
Qed.
End memo.

(** ** What scoped means *)

(** A segment spells a conjunct, bare or in one pair of parentheses. *)
Definition spells (conjunct : bytes) (seg : list conjTok) : Prop :=
  exists want, normalizedTokens profile conjunct = Some want /\
    (conjTokensEqual profile seg want = true \/
     conjTokensEqual profile seg (mkConjTok (bs "(") false false :: want ++ [mkConjTok (bs ")") false false]) = true).

(** A clause that is read, has no OR at its top and has the conjunct there. *)
Definition holds (cs : clauseScan) (conjunct : bytes) : Prop :=
  lexOK cs = true /\ hasOR cs = false /\ exists seg, seg ∈ segs cs /\ spells conjunct seg.

Lemma segsContain_spec l conjunct : segsContain profile l conjunct = true <-> exists seg, seg ∈ l /\ spells conjunct seg.
Proof.
  unfold segsContain, spells. destruct (normalizedTokens profile conjunct) as [want|]; [|naive_solver].
  rewrite existsb_exists. split.
  - intros (seg & Hin & H%orb_prop). exists seg. split; [by apply list_elem_of_In|]. by exists want.
  - intros (seg & Hin & want' & [= <-] & H). exists seg. split; [by apply list_elem_of_In|]. by apply orb_true_intro.
Qed.

Lemma credits_spec cs conjunct : credits profile cs conjunct = true <-> holds cs conjunct.
Proof. unfold credits, holds. rewrite !andb_true_iff, negb_true_iff, segsContain_spec. tauto. Qed.

(** The clause an occurrence must be scoped in: the ON clause of its join on a
    null-extended side, when the predicate names the relation; the WHERE clause
    of its statement or branch otherwise. *)
Definition own_clause (e : enforcer) (p : Policy) (r : topRel) : option clauseScan :=
  if in_own_on p r then
    off ← template_off (e_maxR e) (RLoc (tr_rel r));
    let res := on_scan (e_q e) off (tr_rel r) in
    if jo_found res && negb (jo_wrongJoin res) then Some (jo_cs res) else None
  else e_clause e r.

Definition occurrence_scoped (e : enforcer) (p : Policy) (r : topRel) : Prop :=
  (hasPlaceholder (PolPredicate p) = true -> unquotedFoldChanges profile (boundName (tr_rel r)) = false) /\
  exists cs, own_clause e p r = Some cs /\ holds cs (conjunct_for p r).

(** The statement does nothing to designated rows that no conjunct scopes. *)
Definition statement_ok (e : enforcer) (p : Policy) : Prop :=
  designatedOverread p (e_over e) (e_kind e) = [] /\
  nestedHit (e_applicability e p) = None /\
  (e_kind e = StmtInsert -> topOcc (e_applicability e p) = [] \/ governedBy (e_conflict e) p = false) /\
  (e_kind e <> StmtInsert -> updateConflictTarget p (e_kind e) (e_rels e) (e_conflict e) = None).

Definition scoped (e : enforcer) (p : Policy) : Prop :=
  optOutFor (e_q e) (PolName p) <> None \/
  (statement_ok e p /\
   (e_kind e <> StmtInsert -> active (e_applicability e p) = true -> hidden (e_applicability e p) = false ->
    forall r, r ∈ e_rels e -> named p (RTable (tr_rel r)) = true -> occurrence_scoped e p r)).

(** ** The enforcement pass *)

Lemma topOcc_spec p kind rels deep conflict nested r :
  r ∈ topOcc (analyzeApplicability p kind rels deep conflict nested) <-> r ∈ rels /\ named p (RTable (tr_rel r)) = true.
Proof. cbn. rewrite list_elem_of_filter. tauto. Qed.

Section enforcement.
Context (e : enforcer) (Hone : one_join (e_maxR e) (e_rels e)).
Abbreviation ok := (memo_ok (e_q e) (e_maxR e) (e_rels e)).

Lemma e_present_spec m p r : ok m -> r ∈ e_rels e ->
  exists b m', e_present profile e m p r = (b, m') /\ ok m' /\
    (b = true <-> exists cs, own_clause e p r = Some cs /\ holds cs (conjunct_for p r)).
Proof.
  intros Hm Hr. unfold e_present, own_clause. destruct (in_own_on p r).
  - unfold onScanFor. destruct (template_off (e_maxR e) (RLoc (tr_rel r))) as [off|] eqn:Eo.
    + destruct (joinOnFor_ok (e_q e) (e_maxR e) (e_rels e) m off r Hone Hm Hr Eo) as (m' & -> & Hm').
      do 2 eexists. split_and!; [done|done|]. unfold on_credits, onPresent. cbn [mbind option_bind].
      generalize (on_scan (e_q e) off (tr_rel r)). intros res. cbv zeta.
      rewrite !andb_true_iff, negb_true_iff, credits_spec. destruct (jo_found res), (jo_wrongJoin res); cbn [andb negb].
      all: split; [intros (H1 & H2 & H3)|intros (cs & H1 & H2)]; simplify_eq; eauto.
    + do 2 eexists. split_and!; [done|done|]. cbn. naive_solver.
  - do 2 eexists. split_and!; [done|done|]. unfold e_wherePresent.
    destruct (e_clause e r) as [cs|]; [rewrite credits_spec|]; naive_solver.
Qed.

Lemma check_occurrences_spec m p occs : ok m -> (forall r, r ∈ occs -> r ∈ e_rels e) ->
  exists ds m', check_occurrences profile e p m occs = (ds, m') /\ ok m' /\
    (ds = [] <-> forall r, r ∈ occs -> occurrence_scoped e p r).
Proof.
  revert m. induction occs as [|r occs IH]; intros m Hm Hin; cbn [check_occurrences].
  { do 2 eexists. split_and!; [done|done|]. set_solver. }
  destruct (hasPlaceholder (PolPredicate p) && unquotedFoldChanges profile (boundName (tr_rel r))) eqn:Ef.
  { do 2 eexists. split_and!; [done|done|]. split; [done|]. intros H. destruct (H r) as [H1 _]; [by left|].
    apply andb_prop in Ef as [E1 E2]. rewrite (H1 E1) in E2. done. }
  destruct (e_present_spec m p r Hm) as (b & m' & -> & Hm' & Hb); [apply Hin; by left|]. destruct b.
  - destruct (IH m' Hm') as (ds & m2 & -> & Hm2 & Hd); [intros r' Hr'; apply Hin; by right|].
    do 2 eexists. split_and!; [done|done|]. rewrite Hd. split.
    + intros H r' [->|Hr']%elem_of_cons; [|by apply H]. split; [|by apply Hb]. intros Hp. by rewrite Hp in Ef.
    + intros H r' Hr'. apply H. by right.
  - do 2 eexists. split_and!; [done|done|]. split; [done|]. intros H. destruct (H r) as [_ H2]; [by left|]. naive_solver.
Qed.

Lemma check_policy_spec m p : ok m ->
  exists ds m', check_policy profile e m p = (ds, m') /\ ok m' /\ (ds = [] <-> scoped e p).
Proof.
  intros Hm. unfold check_policy, scoped, statement_ok.
  destruct (optOutFor (e_q e) (PolName p)) as [o|]; [do 2 eexists; split_and!; [done|done|]; naive_solver|].
  destruct (designatedOverread p (e_over e) (e_kind e)); [|do 2 eexists; split_and!; [done|done|]; naive_solver].
  destruct (nestedHit (e_applicability e p)); [do 2 eexists; split_and!; [done|done|]; naive_solver|].
  case_bool_decide as Ek.
  - destruct (topOcc (e_applicability e p)); [do 2 eexists; split_and!; [done|done|]; naive_solver|].
    destruct (governedBy (e_conflict e) p); do 2 eexists; split_and!; try done; naive_solver.
  - destruct (updateConflictTarget p (e_kind e) (e_rels e) (e_conflict e)); [do 2 eexists; split_and!; [done|done|]; naive_solver|].
    destruct (negb (active (e_applicability e p)) || hidden (e_applicability e p)) eqn:Ea.
    + do 2 eexists. split_and!; [done|done|]. split; [|done]. intros _. right. split_and!; try naive_solver.
      intros _ Hact Hhid. by rewrite Hact, Hhid in Ea.
    + apply orb_false_iff in Ea as [Ea1%negb_false_iff Ea2].
      destruct (check_occurrences_spec m p (topOcc (e_applicability e p)) Hm) as (ds & m' & -> & Hm' & Hd).
      { intros r Hr. by apply topOcc_spec in Hr as [? _]. }
      do 2 eexists. split_and!; [done|done|]. rewrite Hd. split.
      * intros H. right. split_and!; try naive_solver. intros _ _ _ r Hr Hn. by apply H, topOcc_spec.
      * intros [|[_ H]] r Hr; [done|]. apply topOcc_spec in Hr as [Hr Hn]. by apply H.
Qed.

Lemma check_policies_spec m pols : ok m -> check_policies profile e m pols = [] <-> forall p, p ∈ pols -> scoped e p.
Proof.
  revert m. induction pols as [|p pols IH]; intros m Hm; cbn [check_policies]; [set_solver|].
  destruct (check_policy_spec m p Hm) as (ds & m' & -> & Hm' & Hd). split.
  - intros [Hds Hr]%app_eq_nil p' [->|Hp']%elem_of_cons; [by apply Hd|]. by eapply IH.
  - intros H. rewrite (proj2 Hd) by (apply H; by left). cbn. apply IH; [done|]. intros p' Hp'. apply H. by right.
Qed.
End enforcement.

(** ** Annotations *)

Definition annotations_ok (e : enforcer) (pols : list Policy) : Prop :=
  (forall o, o ∈ QPolicyOptOuts (e_q e) -> exists p, byName pols !! POPolicy o = Some p /\ e_applies e p = true) /\
  (forall a, a ∈ QPolicyApplies (e_q e) ->
    optOutFor (e_q e) (PAPolicy a) = None /\ exists p, byName pols !! PAPolicy a = Some p /\ e_applies e p = true).

(** The last policy of a name counts. *)
Lemma byName_spec pols n p : byName pols !! n = Some p -> p ∈ pols /\ PolName p = n.
Proof.
  assert (forall l (m : gmap bytes Policy), (forall n p, m !! n = Some p -> PolName p = n) ->
    foldl (fun m p => <[PolName p := p]> m) m l !! n = Some p -> (p ∈ l \/ m !! n = Some p) /\ PolName p = n) as H.
  { induction l as [|p' l IH]; intros m Hm; cbn; [intros Hl; split; [by right|by apply Hm]|].
    intros Hl. destruct (IH (<[PolName p' := p']> m)) as [[Hp|Hp] Hn]; [|done|set_solver|].
    - intros n' p''. rewrite lookup_insert_Some. intros [[<- <-]|[_ Hl']]; [done|by apply Hm].
    - apply lookup_insert_Some in Hp as [[_ <-]|[_ Hp]]; (split; [|done]); [left; by left|by right]. }
  intros Hl. apply H in Hl as [[?|Hl] ?]; [done| |]; [by rewrite lookup_empty in Hl|].
  intros ? ?. by rewrite lookup_empty.
Qed.

Lemma annotations_spec e pols :
  concat (check_optout e pols <$> QPolicyOptOuts (e_q e)) = [] /\ concat (check_apply e pols <$> QPolicyApplies (e_q e)) = []
  <-> annotations_ok e pols.
Proof.
  unfold annotations_ok. rewrite !concat_nil_iff. split; intros [H1 H2]; split.
  - intros o Ho. specialize (H1 o Ho). unfold check_optout in H1.
    destruct (byName pols !! POPolicy o) as [p|]; [|done]. exists p. split; [done|]. by destruct (e_applies e p).
  - intros a Ha. specialize (H2 a Ha). unfold check_apply in H2.
    destruct (byName pols !! PAPolicy a) as [p|]; [|done]. destruct (optOutFor _ _); [done|]. split; [done|].
    exists p. split; [done|]. by destruct (e_applies e p).
  - intros o Ho. destruct (H1 o Ho) as (p & Hp & Hap). unfold check_optout. by rewrite Hp, Hap.
  - intros a Ha. destruct (H2 a Ha) as (Ho & p & Hp & Hap). unfold check_apply. by rewrite Hp, Ho, Hap.
Qed.

(** ** The weaver and the enforcement pass read the same query *)

(** What [weaver_of] and [enforcer_of] share. *)
Record same (w : weaver) (e : enforcer) : Prop := {
  sm_q : w_q w = e_q e; sm_maxR : w_maxR w = e_maxR e; sm_kind : w_kind w = e_kind e; sm_rels : w_rels w = e_rels e;
  sm_deep : w_deep w = e_deep e; sm_conflict : w_conflict w = e_conflict e; sm_nested : w_nested w = e_nested e;
  sm_over : w_overread w = e_over e; sm_branches : w_nBranches w = e_nBranches e; sm_where : w_where w = e_where e;
  sm_setop : w_setop w = if Nat.ltb 0 (e_nBranches e) then Some (e_so e) else None;
  sm_tags : forall r b, r ∈ e_rels e -> tr_branch r = Some b -> b < e_nBranches e;
}.

Lemma topRelations_branch tree r b : r ∈ (topRelations tree).1 -> tr_branch r = Some b -> b < (topRelations tree).2.
Proof.
  unfold topRelations. destruct (SetOpBranches tree) as [bs|]; cbn.
  - intros (i & b0 & Hi & (x & -> & _)%list_elem_of_fmap)%elem_of_concat_imap [= <-]. by eapply lookup_lt_Some.
  - by intros (x & -> & _)%list_elem_of_fmap.
Qed.

Lemma same_of fe q maxR tree : same (weaver_of profile fe q maxR tree) (enforcer_of profile fe q tree maxR).
Proof.
  unfold weaver_of, enforcer_of. pose proof (topRelations_branch tree) as Ht.
  destruct (topRelations tree) as [rels n], (overreadDeep profile fe q (DeepTables tree)) as [over nested].
  split; cbn; try done. by destruct n.
Qed.

(** ** The weaver, policy by policy *)

Lemma rfold_ok {S E X} (f : S -> X -> result E S) s l s' : rfold f s l = Ok s' ->
  (forall a x b, f a x = Ok b -> b = a) -> forall x, x ∈ l -> f s x = Ok s.
Proof.
  intros Hf Hid. revert s Hf. induction l as [|y l IH]; intros s Hf x; [set_solver|]. cbn in Hf.
  destruct (f s y) as [s1|] eqn:Ey; [|done]. pose proof (Hid _ _ _ Ey) as ->. intros [->|Hx]%elem_of_cons; [done|by eapply IH].
Qed.

Lemma no_placeholder name p : hasPlaceholder p = false -> bindPlaceholder name p = p.
Proof.
  induction p as [|c p IH]; [done|]. destruct p as [|d p]; [done|]. intros [H1 H2]%orb_false_iff.
  change (bindPlaceholder name (c :: d :: p)) with
    (if ((c =b "{") && (d =b "}"))%char then name ++ bindPlaceholder name p else c :: bindPlaceholder name (d :: p)).
  rewrite H1. f_equal. by apply IH.
Qed.

Lemma first_branches_spec occs b : b ∈ first_branches occs <-> exists r, r ∈ occs /\ tr_branch r = b.
Proof.
  unfold first_branches.
  assert (forall seen, b ∈ foldl (fun seen occ => if bool_decide (tr_branch occ ∈ seen) then seen else seen ++ [tr_branch occ]) seen occs
    <-> b ∈ seen \/ exists r, r ∈ occs /\ tr_branch r = b) as H; [|rewrite H; set_solver].
  induction occs as [|r occs IH]; intros seen; cbn; [set_solver|]. rewrite IH. case_bool_decide; set_solver.
Qed.

Section agreement.
Context (w : weaver) (e : enforcer) (Hsame : same w e) (Hone : one_join (e_maxR e) (e_rels e)).
Abbreviation ok := (memo_ok (e_q e) (e_maxR e) (e_rels e)).

Lemma same_applicability p :
  analyzeApplicability p (w_kind w) (w_rels w) (w_deep w) (w_conflict w) (w_nested w) = e_applicability e p.
Proof. destruct Hsame. unfold e_applicability. congruence. Qed.

(** The clause the weaver reads is the one enforcement credits from. *)
Lemma same_clause p a r : checkSetOpOccurrences w p a = Ok tt -> r ∈ topOcc a -> r ∈ e_rels e -> guardedAt w (RLoc (tr_rel r)) = false ->
  e_clause e r = Some (whereScan w (tr_branch r)).
Proof.
  destruct Hsame as [Eq EmR _ Er _ _ _ _ En Ew Es Ht]. intros Hc Hr Hre Hg. unfold e_clause, whereScan.
  destruct (tr_branch r) as [b|] eqn:Eb; [|by rewrite Ew].
  pose proof (Ht _ _ Hre Eb) as Hb. rewrite Es. unfold checkSetOpOccurrences in Hc. rewrite Es in Hc.
  rewrite (proj2 (Nat.ltb_lt 0 (e_nBranches e))) in Hc |- * by lia. rewrite En in Hc.
  destruct (negb (so_ok (e_so e)) || negb (Nat.eqb (length (so_branches (e_so e))) (e_nBranches e))) eqn:Eok; [done|].
  apply orb_false_iff in Eok as [_ El%negb_false_iff%Nat.eqb_eq].
  assert (check_branch w (e_so e) p tt r = Ok tt) as Hbr.
  { eapply rfold_ok; [exact Hc| |done]. intros u x u' Hx. by destruct u, u'. }
  unfold check_branch in Hbr. rewrite Hg in Hbr. unfold relTemplateOff in Hbr. rewrite EmR in Hbr.
  destruct (template_off (e_maxR e) (RLoc (tr_rel r))) as [off|]; [|done]. cbn in Hbr |- *.
  destruct (so_branchOf (e_so e) !! off) as [bi|]; [|done]. case_bool_decide as Ebi; [|done].
  rewrite Eb in Ebi. injection Ebi as ->. rewrite Nat.eqb_refl.
  destruct (lookup_lt_is_Some_2 (so_branches (e_so e)) b) as [br Hbr']; [lia|]. by rewrite Hbr'.
Qed.

(** What an accepted placement says. *)
Definition placed_ok (p : Policy) (r : topRel) (pl : place) : Prop :=
  guardedAt w (RLoc (tr_rel r)) = false /\
  (hasPlaceholder (PolPredicate p) = true -> unquotedFoldChanges profile (boundName (tr_rel r)) = false) /\
  match pl with
  | InWhere => RNullableSide (tr_rel r) = false
  | InOn res => RNullableSide (tr_rel r) = true /\ jo_found res = true /\ jo_wrongJoin res = false /\
      exists off, template_off (e_maxR e) (RLoc (tr_rel r)) = Some off /\ res = on_scan (e_q e) off (tr_rel r)
  end.

Lemma place_occurrence_spec p m r : ok m -> r ∈ e_rels e ->
  exists m' res, place_occurrence profile w p m r = (m', res) /\ ok m' /\ forall pl, res = Ok pl -> placed_ok p r pl.
Proof.
  destruct Hsame as [Eq EmR _ _ _ _ _ _ _ _ _ _]. intros Hm Hr. unfold place_occurrence, placed_ok.
  destruct (guardedAt w (RLoc (tr_rel r))); [do 2 eexists; split_and!; done|].
  destruct (negb (MatchString bareIdentRe (boundName (tr_rel r)))); [do 2 eexists; split_and!; done|].
  destruct (hasPlaceholder (PolPredicate p) && unquotedFoldChanges profile (boundName (tr_rel r))) eqn:Ef;
    [do 2 eexists; split_and!; done|].
  assert (hasPlaceholder (PolPredicate p) = true -> unquotedFoldChanges profile (boundName (tr_rel r)) = false) as Hf.
  { intros Hp. by rewrite Hp in Ef. }
  destruct (RNullableSide (tr_rel r)) eqn:En; [|do 2 eexists; split_and!; [done..|]; intros pl [= <-]; done].
  unfold on_occurrence, relTemplateOff. rewrite EmR, Eq.
  destruct (template_off (e_maxR e) (RLoc (tr_rel r))) as [off|] eqn:Eo; [|do 2 eexists; split_and!; done].
  destruct (joinOnFor_ok (e_q e) (e_maxR e) (e_rels e) m off r Hone Hm Hr Eo) as (m' & -> & Hm').
  do 2 eexists. split_and!; [done|done|]. intros pl. remember (on_scan (e_q e) off (tr_rel r)) as res eqn:Hres.
  destruct (jo_found res) eqn:E1; cbn [negb andb orb]; [|done]. destruct (lexOK (jo_cs res)); cbn [negb orb]; [|done].
  destruct (Z.ltb (cs_start (jo_cs res)) 0); [done|]. destruct (jo_wrongJoin res) eqn:E2; [done|]. cbn [rbind].
  intros [= <-]. split_and!; try done. by exists off.
Qed.

Lemma place_occurrences_spec p m occs : ok m -> (forall r, r ∈ occs -> r ∈ e_rels e) ->
  exists m' res, place_occurrences profile w p m occs = (m', res) /\ ok m' /\
    forall pls, res = Ok pls -> fst <$> pls = occs /\ forall r pl, (r, pl) ∈ pls -> placed_ok p r pl.
Proof.
  revert m. induction occs as [|r occs IH]; intros m Hm Hin; cbn [place_occurrences].
  { do 2 eexists. split_and!; [done|done|]. intros pls [= <-]. split; [done|]. set_solver. }
  destruct (place_occurrence_spec p m r Hm) as (m1 & r1 & -> & Hm1 & H1); [apply Hin; by left|].
  destruct r1 as [pl|d]; [|do 2 eexists; split_and!; done].
  destruct (IH m1 Hm1) as (m2 & r2 & -> & Hm2 & H2); [intros x Hx; apply Hin; by right|].
  do 2 eexists. split_and!; [done|done|]. intros pls. destruct r2 as [pls2|d]; [|done]. cbn. intros [= <-].
  destruct (H2 _ eq_refl) as [Hf Hp]. split; [cbn; by rewrite Hf|].
  intros r' pl' [[= -> ->]|Hin']%elem_of_cons; [by apply H1|by apply Hp].
Qed.

Lemma refuse_some_ok d u : refuse_some d = Ok u -> d = None.
Proof. by destruct d. Qed.

Lemma check_statement_ok p a over u : check_statement w p a over = Ok u ->
  over = [] /\ nestedHit a = None /\ w_kind w <> StmtInsert /\
  updateConflictTarget p (w_kind w) (w_rels w) (w_conflict w) = None /\ hidden a = false /\ checkSetOpOccurrences w p a = Ok tt.
Proof.
  unfold check_statement. intros ([] & H1%refuse_some_ok & H)%rbind_ok.
  apply rbind_ok in H as ([] & H2%refuse_some_ok & H). apply rbind_ok in H as ([] & H3 & H).
  apply rbind_ok in H as ([] & H4%refuse_some_ok & H). apply rbind_ok in H as ([] & H5 & H). destruct u.
  split_and!; [by destruct over|by destruct (nestedHit a)| |by destruct (updateConflictTarget _ _ _ _)| |done].
  - intros Hk. rewrite Hk in H3. destruct (topOcc a); [done|]. by destruct (governedBy _ _).
  - by destruct (hidden a).
Qed.

Lemma omap_nil_iff {A B} (f : A -> option B) l : omap f l = [] <-> forall x, x ∈ l -> f x = None.
Proof.
  induction l as [|x l IH]; cbn; [set_solver|]. destruct (f x) as [y|] eqn:Ef; cbn.
  - split; [done|]. intros H. rewrite H in Ef by (by left). done.
  - rewrite IH. split; [|intros H y Hy; apply H; by right]. intros H y [->|Hy]%elem_of_cons; [done|by apply H].
Qed.

Lemma in_where_spec pls r : r ∈ in_where pls <-> (r, InWhere) ∈ pls.
Proof.
  unfold in_where. rewrite list_elem_of_omap. split.
  - intros ([x pl] & Hin & H). destruct pl; [|done]. by injection H as ->.
  - intros H. by exists (r, InWhere).
Qed.
Lemma in_on_spec pls r res : (r, res) ∈ in_on pls <-> (r, InOn res) ∈ pls.
Proof.
  unfold in_on. rewrite list_elem_of_omap. split.
  - intros ([x pl] & Hin & H). destruct pl; [done|]. by injection H as -> ->.
  - intros H. by exists (r, InOn res).
Qed.

(** The weaver needs nothing exactly when every occurrence is scoped. *)
Lemma needs_spec p a pls : checkSetOpOccurrences w p a = Ok tt -> (forall r, r ∈ topOcc a -> r ∈ e_rels e) ->
  fst <$> pls = topOcc a -> (forall r pl, (r, pl) ∈ pls -> placed_ok p r pl) ->
  (ao_where (needs_of profile w p a pls) = [] /\ ao_on (needs_of profile w p a pls) = []) <->
  (forall r, r ∈ topOcc a -> occurrence_scoped e p r).
Proof.
  intros Hset Hrels Hfst Hpl.
  assert (forall r pl, (r, pl) ∈ pls -> r ∈ topOcc a) as Hin.
  { intros r pl H. rewrite <- Hfst. apply list_elem_of_fmap. by exists (r, pl). }
  assert (forall r, r ∈ topOcc a -> exists pl, (r, pl) ∈ pls) as Hex.
  { intros r H. rewrite <- Hfst in H. apply list_elem_of_fmap in H as ([r' pl] & -> & H). by exists pl. }
  assert (forall r pl, (r, pl) ∈ pls -> e_clause e r = Some (whereScan w (tr_branch r))) as Hcl.
  { intros r pl H. apply (same_clause p a); [done|by eapply Hin|by eapply Hrels, Hin|by apply (Hpl _ _ H)]. }
  unfold needs_of. destruct (hasPlaceholder (PolPredicate p)) eqn:Ep; cbn [ao_where ao_on].
  - assert (forall r pl, (r, pl) ∈ pls -> occurrence_scoped e p r <->
      match pl with InWhere => wherePresent profile w (tr_branch r) (conjunct_for p r) = true
                  | InOn res => onPresent profile res (conjunct_for p r) = true end) as Hocc.
    { intros r pl H. destruct (Hpl _ _ H) as (_ & Hf & Hp). unfold occurrence_scoped, own_clause, in_own_on. rewrite Ep, andb_true_r.
      destruct pl as [|res].
      - rewrite Hp, (Hcl _ _ H). unfold wherePresent. rewrite credits_spec. naive_solver.
      - destruct Hp as (-> & H1 & H2 & off & -> & Hres). cbn [mbind option_bind]. rewrite <- Hres. cbv zeta. rewrite H1, H2.
        unfold onPresent. rewrite H1. cbn [negb andb]. rewrite credits_spec. naive_solver. }
    rewrite !omap_nil_iff. split.
    + intros [Hw Ho] r Hr. destruct (Hex r Hr) as [pl H]. apply (Hocc _ _ H). destruct pl as [|res].
      * apply in_where_spec, Hw in H. by destruct (wherePresent _ _ _ _).
      * apply in_on_spec, Ho in H. cbn in H. by destruct (onPresent _ _ _).
    + intros Hall. split.
      * intros r H%in_where_spec. by rewrite (proj1 (Hocc _ _ H) (Hall _ (Hin _ _ H))).
      * intros [r res] H%in_on_spec. by rewrite (proj1 (Hocc _ _ H) (Hall _ (Hin _ _ H))).
  - rewrite omap_nil_iff. split.
    + intros [Hw _] r Hr. destruct (Hex r Hr) as [pl H]. split; [congruence|]. exists (whereScan w (tr_branch r)).
      unfold own_clause, in_own_on. rewrite Ep, andb_false_r, (Hcl _ _ H). split; [done|].
      unfold conjunct_for. rewrite no_placeholder by done. apply credits_spec.
      assert (tr_branch r ∈ first_branches (topOcc a)) as Hb by (apply first_branches_spec; by exists r).
      apply Hw in Hb. unfold wherePresent in Hb. by destruct (credits _ _ _).
    + intros Hall. split; [|done]. intros b (r & Hr & <-)%first_branches_spec. destruct (Hex r Hr) as [pl H].
      destruct (Hall r Hr) as (_ & cs & Hcs & Hh). unfold own_clause, in_own_on in Hcs. rewrite Ep, andb_false_r, (Hcl _ _ H) in Hcs.
      injection Hcs as <-. unfold conjunct_for in Hh. rewrite no_placeholder in Hh by done. apply credits_spec in Hh.
      unfold wherePresent. by rewrite Hh.
Qed.

Lemma scoped_inactive p : active (e_applicability e p) = false -> designatedOverread p (e_over e) (e_kind e) = [] -> scoped e p.
Proof.
  intros Ha Ho. right. split; [|by rewrite Ha]. unfold statement_ok, e_applicability, analyzeApplicability in *.
  cbn [active nestedHit topOcc] in *. apply orb_false_iff in Ha as [Ha Hn]. split_and!; [done| | |].
  - by case_match.
  - intros Hk. rewrite Hk in Ha. apply orb_false_iff in Ha as [_ Ha].
    apply andb_false_iff in Ha as [Ha%negb_false_iff%bool_decide_eq_true|Ha]; [left|by right]. by apply nil_length_inv.
  - intros Hk. destruct (e_kind e); try done; apply orb_false_iff in Ha as [_ Ha]; by destruct (updateConflictTarget _ _ _ _).
Qed.

Lemma over_same p : designatedOverread p (w_overread w) (w_kind w) = designatedOverread p (e_over e) (e_kind e).
Proof. by rewrite (sm_over _ _ Hsame), (sm_kind _ _ Hsame). Qed.

Lemma applyActive_spec m p over : ok m -> active (e_applicability e p) = true \/ over <> [] ->
  over = designatedOverread p (e_over e) (e_kind e) ->
  exists m' out, applyActive profile w m p (e_applicability e p) over = (m', out) /\ ok m' /\
    (ao_diags out = [] -> (ao_where out = [] /\ ao_on out = []) <-> scoped e p).
Proof.
  intros Hm Hact Hover. unfold applyActive. rewrite (sm_q _ _ Hsame).
  destruct (optOutFor (e_q e) (PolName p)) as [o|] eqn:Eo.
  { do 2 eexists. split_and!; [done|done|]. cbn. intros _. split; [|done]. intros _. left. by rewrite Eo. }
  destruct (check_statement w p (e_applicability e p) over) as [u|d] eqn:Ec; [|do 2 eexists; split_and!; done].
  apply check_statement_ok in Ec as (-> & Hn & Hk & Hu & Hh & Hs).
  rewrite (sm_kind _ _ Hsame), (sm_rels _ _ Hsame), (sm_conflict _ _ Hsame) in Hu. rewrite (sm_kind _ _ Hsame) in Hk.
  assert (forall r, r ∈ topOcc (e_applicability e p) -> r ∈ e_rels e) as Hrels by (intros r [? _]%topOcc_spec; done).
  destruct (place_occurrences_spec p m (topOcc (e_applicability e p)) Hm Hrels) as (m' & res & -> & Hm' & Hres).
  do 2 eexists. split_and!; [done|done|]. intros Hd.
  destruct res as [pls|d]; [|done]. cbn [rbind] in Hd |- *. destruct (check_param w p) as [u1|d]; [|done]. cbn [rbind] in Hd |- *.
  destruct (rfold (check_readable w p) tt _) as [u2|d]; [|done]. cbn [rbind] in Hd |- *.
  destruct (Hres pls eq_refl) as [Hf Hp]. rewrite (needs_spec p (e_applicability e p) pls Hs Hrels Hf Hp).
  destruct Hact as [Hact|?]; [|done]. split.
  - intros Hall. right. split; [split_and!; [done..|by intros ?|done]|]. intros _ _ _ r Hr Hnm. apply Hall. by apply topOcc_spec.
  - intros [Hopt|[_ Hall]]; [by rewrite Eo in Hopt|]. intros r [Hr Hnm]%topOcc_spec. by apply Hall.
Qed.

Lemma apply_spec m p : ok m ->
  exists m' out, apply profile w m p = (m', out) /\ ok m' /\
    (ao_diags out = [] -> (ao_where out = [] /\ ao_on out = []) <-> scoped e p).
Proof.
  intros Hm. unfold apply. rewrite same_applicability, over_same.
  destruct (negb (active (e_applicability e p)) && bool_decide (designatedOverread p (e_over e) (e_kind e) = [])) eqn:Ea.
  { apply andb_prop in Ea as [Ha%negb_true_iff Ho%bool_decide_eq_true]. do 2 eexists. split_and!; [done|done|].
    intros _. split; [|done]. intros _. by apply scoped_inactive. }
  destruct (applyActive_spec m p (designatedOverread p (e_over e) (e_kind e)) Hm) as (m' & out & -> & Hm' & H); [|done|].
  { apply andb_false_iff in Ea as [Ha%negb_false_iff|Ho%bool_decide_eq_false]; [by left|by right]. }
  destruct (annotationObligation w p) as [d|]; do 2 eexists; (split_and!; [done|done|]); [|done].
  cbn [ao_diags]. by intros [_ ?]%app_eq_nil.
Qed.

Lemma apply_all_spec m pols : ok m -> (forall out, out ∈ apply_all profile w m pols -> ao_diags out = []) ->
  (forall out, out ∈ apply_all profile w m pols -> ao_where out = [] /\ ao_on out = []) <-> (forall p, p ∈ pols -> scoped e p).
Proof.
  revert m. induction pols as [|p pols IH]; intros m Hm Hd; cbn [apply_all] in *; [set_solver|].
  destruct (apply_spec m p Hm) as (m' & out & Ea & Hm' & H). rewrite Ea in *.
  assert (ao_diags out = []) as Ho by (apply Hd; by left).
  specialize (IH m' Hm'). specialize (H Ho). split.
  - intros Hall p' [->|Hp']%elem_of_cons; [apply H, Hall; by left|]. revert p' Hp'. apply IH; intros x Hx; [apply Hd|apply Hall]; by right.
  - intros Hall x [->|Hx]%elem_of_cons; [apply H, Hall; by left|]. revert x Hx. apply IH; [intros x Hx; apply Hd; by right|].
    intros p' Hp'. apply Hall. by right.
Qed.

(** ** No silent skip *)

(** What the weaver does about an occurrence. *)
Definition occurrence_handled (p : Policy) (r : topRel) (out : apply_out) : Prop :=
  occurrence_scoped e p r \/
  (in_own_on p r = true /\ exists res, own_clause e p r = Some (jo_cs res) /\ mkOnNeed res (conjunct_for p r) ∈ ao_on out) \/
  (in_own_on p r = false /\ own_clause e p r = Some (whereScan w (tr_branch r)) /\
   mkWhereNeed (tr_branch r) (conjunct_for p r) ∈ ao_where out).

Lemma needs_handled p a pls r pl : checkSetOpOccurrences w p a = Ok tt -> (forall r, r ∈ topOcc a -> r ∈ e_rels e) ->
  fst <$> pls = topOcc a -> (r, pl) ∈ pls -> placed_ok p r pl -> occurrence_handled p r (needs_of profile w p a pls).
Proof.
  intros Hset Hrels Hfst Hin Hpl.
  assert (r ∈ topOcc a) as Hr by (rewrite <- Hfst; apply list_elem_of_fmap; by exists (r, pl)).
  pose proof (same_clause p a r Hset Hr (Hrels r Hr) (proj1 Hpl)) as Hcl. destruct Hpl as (_ & Hf & Hp).
  unfold occurrence_handled, occurrence_scoped, own_clause, in_own_on, needs_of.
  destruct (hasPlaceholder (PolPredicate p)) eqn:Ep; [rewrite andb_true_r|rewrite andb_false_r].
  - destruct pl as [|res].
    + rewrite Hp, Hcl. cbn [ao_where ao_on]. destruct (wherePresent profile w (tr_branch r) (conjunct_for p r)) eqn:Ew.
      * left. split; [done|]. apply credits_spec in Ew. by eexists.
      * right. right. split_and!; [done..|]. apply list_elem_of_omap. exists r. rewrite Ew. split; [by apply in_where_spec|done].
    + destruct Hp as (-> & H1 & H2 & off & -> & Hres). cbn [mbind option_bind]. rewrite <- Hres. cbv zeta. rewrite H1, H2.
      cbn [negb andb ao_where ao_on]. destruct (onPresent profile res (conjunct_for p r)) eqn:Eo.
      * left. split; [done|]. apply andb_prop in Eo as [_ Eo%credits_spec]. by eexists.
      * right. left. split; [done|]. exists res. split; [done|]. apply list_elem_of_omap. exists (r, res). cbn. rewrite Eo.
        split; [by apply in_on_spec|done].
  - unfold conjunct_for. rewrite no_placeholder, Hcl by done. cbn [ao_where ao_on].
    destruct (wherePresent profile w (tr_branch r) (PolPredicate p)) eqn:Ew.
    + left. split; [done|]. apply credits_spec in Ew. by eexists.
    + right. right. split_and!; [done..|]. apply list_elem_of_omap. exists (tr_branch r). rewrite Ew.
      split; [apply first_branches_spec; by exists r|done].
Qed.

Lemma apply_handled m p m' out : ok m -> apply profile w m p = (m', out) -> ao_diags out = [] ->
  optOutFor (e_q e) (PolName p) = None -> active (e_applicability e p) = true ->
  (exists wp, ao_woven out = Some wp /\ WPolicy wp = p /\ WOptedOut wp = false) /\
  forall r, r ∈ topOcc (e_applicability e p) -> occurrence_handled p r out.
Proof.
  intros Hm. unfold apply. rewrite same_applicability. intros Ha Hd Ho Hact. rewrite Hact in Ha. cbn [negb andb] in Ha.
  unfold applyActive in Ha. rewrite (sm_q _ _ Hsame), Ho in Ha.
  destruct (check_statement w p (e_applicability e p) _) as [u|d] eqn:Ec.
  2:{ destruct (annotationObligation w p); simplify_eq; done. }
  apply check_statement_ok in Ec as (_ & _ & _ & _ & _ & Hs).
  assert (forall r, r ∈ topOcc (e_applicability e p) -> r ∈ e_rels e) as Hrels by (intros r [? _]%topOcc_spec; done).
  destruct (place_occurrences_spec p m (topOcc (e_applicability e p)) Hm Hrels) as (m2 & res & E & _ & Hres). rewrite E in Ha.
  destruct (annotationObligation w p) as [d|].
  { injection Ha as <- <-. cbn [ao_diags] in Hd. by apply app_eq_nil in Hd as [_ ?]. }
  injection Ha as <- <-. destruct res as [pls|d]; [|done]. cbn [rbind] in *. destruct (check_param w p); [|done]. cbn [rbind] in *.
  destruct (rfold (check_readable w p) tt _); [|done]. cbn [rbind] in *. destruct (Hres pls eq_refl) as [Hf Hp]. split.
  - unfold needs_of. destruct (hasPlaceholder _); by eexists.
  - intros r Hr. pose proof Hr as Hr'. rewrite <- Hf in Hr'. apply list_elem_of_fmap in Hr' as ([r' pl] & -> & Hin).
    eapply needs_handled; eauto.
Qed.

Lemma apply_all_handled m pols p : ok m -> p ∈ pols -> (forall out, out ∈ apply_all profile w m pols -> ao_diags out = []) ->
  optOutFor (e_q e) (PolName p) = None -> active (e_applicability e p) = true ->
  exists out, out ∈ apply_all profile w m pols /\
    (exists wp, ao_woven out = Some wp /\ WPolicy wp = p /\ WOptedOut wp = false) /\
    forall r, r ∈ topOcc (e_applicability e p) -> occurrence_handled p r out.
Proof.
  intros Hm Hp Hd Ho Ha. revert m Hm Hd. induction pols as [|p' pols IH]; intros m Hm Hd; [set_solver|]. cbn [apply_all] in *.
  destruct (apply_spec m p' Hm) as (m' & out & Ea & Hm' & _). rewrite Ea in Hd |- *.
  apply elem_of_cons in Hp as [<-|Hp].
  - exists out. split; [by left|]. apply (apply_handled m p m' out Hm Ea); [|done..]. apply Hd. by left.
  - destruct (IH Hp m' Hm') as (out' & Hin & H); [intros x Hx; apply Hd; by right|]. exists out'. split; [by right|done].
Qed.
(** Where the ON clauses the weaver extends come from. *)
Lemma applyActive_on m p over m' out n : ok m -> applyActive profile w m p (e_applicability e p) over = (m', out) -> n ∈ ao_on out ->
  exists r off, r ∈ e_rels e /\ template_off (e_maxR e) (RLoc (tr_rel r)) = Some off /\ on_res n = on_scan (e_q e) off (tr_rel r).
Proof.
  intros Hm Ha Hn. unfold applyActive in Ha. destruct (optOutFor _ _); [injection Ha as <- <-; by apply elem_of_nil in Hn|].
  destruct (check_statement _ _ _ _); [|injection Ha as <- <-; by apply elem_of_nil in Hn].
  assert (forall r, r ∈ topOcc (e_applicability e p) -> r ∈ e_rels e) as Hrels by (intros r [? _]%topOcc_spec; done).
  destruct (place_occurrences_spec p m (topOcc (e_applicability e p)) Hm Hrels) as (m2 & res & E & _ & Hres). rewrite E in Ha.
  injection Ha as <- <-. destruct res as [pls|d]; [|by apply elem_of_nil in Hn]. destruct (Hres pls eq_refl) as [Hf Hp].
  cbn [rbind] in Hn. destruct (check_param w p); [|by apply elem_of_nil in Hn]. cbn [rbind] in Hn.
  destruct (rfold _ _ _); [|by apply elem_of_nil in Hn]. cbn [rbind] in Hn. unfold needs_of in Hn. destruct (hasPlaceholder _); [|by apply elem_of_nil in Hn].
  cbn [ao_on] in Hn. apply list_elem_of_omap in Hn as ([r jo] & Hin%in_on_spec & Hj). cbn in Hj.
  destruct (Hp _ _ Hin) as (_ & _ & _ & _ & _ & off & Ho & Ej). exists r, off. split_and!; [|done|].
  - apply Hrels. rewrite <- Hf. apply list_elem_of_fmap. by exists (r, InOn jo).
  - destruct (onPresent _ _ _); [done|]. by injection Hj as <-.
Qed.

Lemma apply_all_on m pols n : ok m -> n ∈ concat (ao_on <$> apply_all profile w m pols) ->
  exists r off, r ∈ e_rels e /\ template_off (e_maxR e) (RLoc (tr_rel r)) = Some off /\ on_res n = on_scan (e_q e) off (tr_rel r).
Proof.
  revert m. induction pols as [|p pols IH]; intros m Hm; cbn [apply_all]; [by intros Hn%elem_of_nil|].
  destruct (apply_spec m p Hm) as (m' & out & Ea & Hm' & _). rewrite Ea. cbn [fmap list_fmap concat].
  intros [Hn|Hn]%elem_of_app; [|by eapply IH]. unfold apply in Ea. rewrite same_applicability in Ea.
  destruct (_ && _); [injection Ea as <- <-; by apply elem_of_nil in Hn|].
  destruct (applyActive _ _ _ _ _ _) as [m1 out1] eqn:Eb. apply (applyActive_on m p _ m1 out1 n Hm Eb).
  destruct (annotationObligation w p); injection Ea as <- <-; exact Hn.
Qed.
End agreement.

(** ** Groups and insertions *)

Lemma group_by_spec {K V} (eqk : K -> K -> bool) gs (k : K) (v : V) : eqk k k = true ->
  (exists k' vs, (k', vs) ∈ group_by eqk gs k v /\ eqk k' k = true /\ v ∈ vs) /\
  (forall k' vs, (k', vs) ∈ gs -> exists vs', (k', vs') ∈ group_by eqk gs k v /\ vs ⊆ vs').
Proof.
  intros Hk. induction gs as [|[k1 vs1] gs [(k' & vs & H1 & H2 & H3) IH]]; cbn.
  { split; [exists k, [v]; split_and!; [by left|done|by left]|set_solver]. }
  destruct (eqk k1 k) eqn:E.
  - split; [exists k1, (vs1 ++ [v]); split_and!; [by left|done|set_solver]|].
    intros k2 vs2 [[= -> ->]|Hin]%elem_of_cons; [exists (vs1 ++ [v]); split; [by left|set_solver]|].
    exists vs2. split; [by right|done].
  - split; [exists k', vs; split_and!; [by right|done|done]|].
    intros k2 vs2 [[= -> ->]|Hin]%elem_of_cons; [exists vs1; split; [by left|done]|].
    destruct (IH _ _ Hin) as (vs' & ? & ?). exists vs'. split; [by right|done].
Qed.

(** The keys of the groups are those of the values. *)
Lemma group_by_keys {N K V} (eqk : K -> K -> bool) (key : N -> K) (val : N -> V) ns gs k vs :
  (k, vs) ∈ foldl (fun gs n => group_by eqk gs (key n) (val n)) gs ns -> k ∈ key <$> ns \/ k ∈ gs.*1.
Proof.
  assert (forall gs k' (v : V) k, k ∈ (group_by eqk gs k' v).*1 -> k = k' \/ k ∈ gs.*1) as Hone.
  { clear. induction gs as [|[k1 vs1] gs IH]; intros k' v k; cbn; [set_solver|]. destruct (eqk k1 k'); cbn; [set_solver|].
    intros [->|H%IH]%elem_of_cons; set_solver. }
  revert gs. induction ns as [|n ns IH]; intros gs; cbn.
  - intros H. right. apply list_elem_of_fmap. by exists (k, vs).
  - intros [H|H%Hone]%IH; [left; by right|]. destruct H as [->|H]; [left; by left|by right].
Qed.

Lemma groups_spec {N K V} (eqk : K -> K -> bool) (key : N -> K) (val : N -> V) ns n :
  (forall a, eqk a a = true) -> (forall a b c, eqk a b = true -> eqk b c = true -> eqk a c = true) -> n ∈ ns ->
  exists k vs, (k, vs) ∈ foldl (fun gs n => group_by eqk gs (key n) (val n)) [] ns /\ eqk k (key n) = true /\ val n ∈ vs /\
    k ∈ key <$> ns.
Proof.
  intros Hr Ht Hin. cut (exists k vs, (k, vs) ∈ foldl (fun gs n => group_by eqk gs (key n) (val n)) [] ns /\
    eqk k (key n) = true /\ val n ∈ vs).
  { intros (k & vs & H1 & H2 & H3). exists k, vs. split_and!; [done..|]. apply group_by_keys in H1 as [H1|H1]; [done|].
    by apply list_elem_of_fmap in H1 as (x & _ & ?%elem_of_nil). }
  revert Hin.
  assert (forall gs, (n ∈ ns \/ exists k vs, (k, vs) ∈ gs /\ eqk k (key n) = true /\ val n ∈ vs) ->
    exists k vs, (k, vs) ∈ foldl (fun gs n => group_by eqk gs (key n) (val n)) gs ns /\ eqk k (key n) = true /\ val n ∈ vs) as H.
  { induction ns as [|n' ns IH]; intros gs; cbn; [intros [H|H]; [set_solver|done]|].
    intros H. apply IH. destruct (group_by_spec eqk gs (key n') (val n') (Hr _)) as [Hnew Hold].
    destruct H as [[->|H]%elem_of_cons|(k & vs & H1 & H2 & H3)]; [by right|by left|].
    right. destruct (Hold _ _ H1) as (vs' & ? & ?). exists k, vs'. split_and!; [done|done|set_solver]. }
  intros Hn. apply H. by left.
Qed.

(** The insertions of one group, numbered one after the other. *)
Lemma insertions_in w ons wheres ts :
  (exists g, g ∈ on_groups ons /\ ts = on_insertions g) \/ (exists g, g ∈ where_groups wheres /\ ts = where_insertions w g) ->
  exists n, forall k, k ∈ imap (fun i '(off, prio, text) => mkIns off prio (Z.of_nat (n + i)) text) ts -> k ∈ insertions w ons wheres.
Proof.
  intros H.
  assert (exists pre post, concat (on_insertions <$> on_groups ons) ++ concat (where_insertions w <$> where_groups wheres)
    = pre ++ ts ++ post) as (pre & post & E).
  { destruct H as [(g & (l1 & l2 & ->)%list_elem_of_split & ->)|(g & (l1 & l2 & ->)%list_elem_of_split & ->)];
      rewrite fmap_app, concat_app; cbn [fmap list_fmap concat].
    - exists (concat (on_insertions <$> l1)), (concat (on_insertions <$> l2) ++ concat (where_insertions w <$> where_groups wheres)).
      by rewrite <- !app_assoc.
    - exists (concat (on_insertions <$> on_groups ons) ++ concat (where_insertions w <$> l1)), (concat (where_insertions w <$> l2)).
      by rewrite <- !app_assoc. }
  exists (length pre). intros k Hk. unfold insertions. rewrite E, !imap_app. apply elem_of_app. right. apply elem_of_app. by left.
Qed.
End props.

(** ** PolicyDemo

    A query with an outer join and two OR clauses, a policy on both of its
    tables, and a front end for it, on which the policy theorems are
    instantiated. *)

#[export] Existing Instance asciiStrings.

Definition orders_file : bytes := lines
  ["-- name: ListOrders :many"; "SELECT u.id, o.total FROM users u";
   "LEFT JOIN orders o ON o.user_id = u.id OR o.public";
   "WHERE u.active OR u.admin"; "LIMIT :n"; ""]%string.

Definition orders_query : QueryTemplate :=
  match demo_queries orders_file with q :: _ => q | [] => simple_query [] [] [] end.

(** The parser of this example finds the two tables by their text. *)
Definition orders_tree (users orders : nat) : Tree :=
  flat_tree StmtSelect
    [mkRelRef (bs "u") (bs "users") [] false (Z.of_nat users) JoinBase false;
     mkRelRef (bs "o") (bs "orders") [] false (Z.of_nat orders) JoinLeft true]
    [mkTableRef (bs "users") [] (Z.of_nat users); mkTableRef (bs "orders") [] (Z.of_nat orders)].

Definition orders_fe : Frontend :=
  lenient_frontend (fun sql => match bytes_index (bs "users u") sql, bytes_index (bs "orders o") sql with
                         | Some u, Some o => Ok (orders_tree u o)
                         | _, _ => Err (OtherError [])
                         end).

Definition tenancy : Policy :=
  mkPolicy (bs "tenancy") [bs "users"; bs "orders"] (bs "{}.tenant_id = :tenant_id") (bs "tenant_id") (bs "bigint") [] false.

Definition orders_rendering : Rendering := get_ok no_rendering (Render Postgres.Profile orders_query ∅).
Definition orders_parsed : Tree := get_ok (orders_tree 0 0) (Parse orders_fe (RSQL orders_rendering)).

Definition orders_woven : weave_result := Weave Postgres.Profile orders_fe [tenancy] orders_query.
Definition woven_rendering : Rendering := get_ok no_rendering (Render Postgres.Profile (WQuery orders_woven) ∅).
Definition woven_parsed : Tree := get_ok (orders_tree 0 0) (Parse orders_fe (RSQL woven_rendering)).

Example orders_unwoven_reported :
  DCode <$> Enforce Postgres.Profile orders_fe [tenancy] orders_query orders_parsed orders_rendering = [CodePolicyUnscoped].
Proof. vm_compute. reflexivity. Qed.

Example orders_woven_sql : WDiags orders_woven = [] /\ RSQL woven_rendering = lines
  [""; "SELECT u.id, o.total FROM users u";
   "LEFT JOIN orders o ON (o.user_id = u.id OR o.public) AND (o.tenant_id = $1)";
   "WHERE (u.tenant_id = $1) AND (u.active OR u.admin)"; "LIMIT $2"; ""]%string.
Proof. vm_compute. split; reflexivity. Qed.

Example orders_enforced :
  Enforce Postgres.Profile orders_fe [tenancy] (WQuery orders_woven) woven_parsed woven_rendering = [].
Proof. vm_compute. reflexivity. Qed.
