(* ===== verification/PolicyTheorems.v ===== *)
(** * PolicyTheorems

    What the policies guarantee: enforcement is exact, the weaver agrees with it
    and is idempotent, and no policy is skipped in silence. *)

From Stdlib Require Import Sorted.
From S2P Require Import Prelude Dialect Template Render Demo Frontend Diagnostics PolicyScan PolicyClause Policy Splice SetOp Weave Enforce Postgres PolicyProps.

Section theorems.
Context {strings : GoStrings} (profile : LexerProfile) (fe : Frontend).

Abbreviation rels_of tree := (topRelations tree).1.

(** C9: the enforcement pass is exact: it reports nothing if and only if every
    annotation names a policy that applies and none exempts and acknowledges at
    once ([annotations_ok]), and every policy is [scoped], which means one of
    two things.  Either the query opts out of it; or no rendering reads a
    designated table that the maximal one does not, no data-modifying CTE and no
    conflict arm modifies designated rows ([statement_ok]), and every top-level
    relation the policy names is scoped: its name keeps its spelling where the
    predicate mentions it, and the clause that must scope it - the ON clause of
    its own join on a null-extended side, the WHERE clause of its statement or
    branch otherwise - is read to its end, has no OR at its top level and has a
    segment that spells the bound predicate.  Exempt from the last demand are
    INSERT statements, statements of a kind the policy does not cover, and those
    that read a designated table below their top level, which the weaver has
    refused.  A segment is what the token scan cuts out, at AND and before every
    construct, and need not be a conjunct of the parsed clause. *)
Theorem enforce_exact pols q tree maxR :
  one_join maxR (rels_of tree) ->
  let e := enforcer_of profile fe q tree maxR in
  Enforce profile fe pols q tree maxR = [] <-> annotations_ok e pols /\ forall p, p ∈ pols -> scoped profile e p.
Proof.
  intros Hone e. assert (e_maxR e = maxR /\ e_rels e = rels_of tree) as [Em Er].
  { unfold e, enforcer_of. by destruct (topRelations tree), (overreadDeep _ _ _ _). }
  unfold Enforce. fold e. unfold enforce_with. rewrite <- annotations_spec.
  assert (one_join (e_maxR e) (e_rels e)) as Hone' by by rewrite Em, Er.
  rewrite <- (check_policies_spec profile e Hone' ∅ pols) by apply memo_ok_empty.
  split; [intros [? [? ?]%app_eq_nil]%app_eq_nil; done|intros [[-> ->] ->]; done].
Qed.

(** ** The weaver *)

(** The weaver's reading of a query. *)
Record reads (q : QueryTemplate) (maxR : Rendering) (tree : Tree) : Prop := {
  rd_render : Render profile q ∅ = Ok maxR;
  rd_parse : Parse fe (RSQL maxR) = Ok tree;
  rd_one : StmtCount tree = 1%Z;
  rd_join : one_join maxR (rels_of tree);
}.

Definition outcomes (w : weaver) (pols : list Policy) : list apply_out := apply_all profile w ∅ pols.
Definition all_insertions (w : weaver) (pols : list Policy) : list insertion :=
  insertions w (concat (ao_on <$> outcomes w pols)) (concat (ao_where <$> outcomes w pols)).

Lemma Weave_reads q maxR tree p pols : reads q maxR tree ->
  Weave profile fe (p :: pols) q = weave_with profile fe (weaver_of profile fe q maxR tree) (p :: pols).
Proof. intros [E1 E2 E3 _]. unfold Weave. by rewrite E1, E2, E3. Qed.

Lemma weaver_q q maxR tree : w_q (weaver_of profile fe q maxR tree) = q.
Proof. unfold weaver_of. by destruct (topRelations tree), (overreadDeep _ _ _ _). Qed.

Lemma enforcer_join q maxR tree : one_join maxR (rels_of tree) ->
  let e := enforcer_of profile fe q tree maxR in e_q e = q /\ one_join (e_maxR e) (e_rels e).
Proof. unfold enforcer_of. by destruct (topRelations tree), (overreadDeep _ _ _ _). Qed.

(** Without reports the woven query is the splice, with the parameters. *)
Lemma weave_with_query w pols : WDiags (weave_with profile fe w pols) = [] ->
  (forall out, out ∈ outcomes w pols -> ao_diags out = []) /\
  let wps := omap ao_woven (outcomes w pols) in
  WQuery (weave_with profile fe w pols)
  = match all_insertions w pols with [] => w_q w | ins => registerParams (splice (w_q w) ins) wps end.
Proof.
  unfold weave_with, all_insertions. fold (outcomes w pols). intros H.
  assert (concat (ao_diags <$> outcomes w pols) = []) as Hd.
  { destruct (insertions w _ _); [done|]. destruct (Nat.ltb 0 (w_nBranches w)); [|done].
    destruct (verifySetOpWeave _ _ _ _ _); [|done]. by apply app_eq_nil in H as [? _]. }
  split; [by apply concat_nil_iff|]. cbv zeta.
  destruct (insertions w _ _) as [|k ins]; [done|]. destruct (Nat.ltb 0 (w_nBranches w)); [|done].
  destruct (verifySetOpWeave _ _ _ _ _); [|done]. by apply app_eq_nil in H as [_ ?].
Qed.

Lemma insertions_nil w : insertions w [] [] = [].
Proof. done. Qed.

(** C10: the weaver agrees with the enforcement pass: on a query it has no
    objection to, the policies need nothing exactly when every one of them is
    scoped as enforcement demands, and the query is then returned as it is.
    Weaving is idempotent: what passes enforcement is not woven again. *)
Theorem weave_enforce_agree pols q maxR tree :
  reads q maxR tree -> WDiags (Weave profile fe pols q) = [] ->
  let w := weaver_of profile fe q maxR tree in
  let e := enforcer_of profile fe q tree maxR in
  ((forall out, out ∈ outcomes w pols -> ao_where out = [] /\ ao_on out = []) <-> (forall p, p ∈ pols -> scoped profile e p)) /\
  (Enforce profile fe pols q tree maxR = [] -> WQuery (Weave profile fe pols q) = q).
Proof.
  intros Hr Hd w e. destruct pols as [|p0 pols'].
  { split; [split; set_solver|done]. }
  set (pols := p0 :: pols') in *. pose proof (Weave_reads q maxR tree p0 pols' Hr) as E. fold w pols in E. rewrite E in Hd |- *.
  destruct (weave_with_query w pols Hd) as [Ho Hq].
  destruct (enforcer_join q maxR tree (rd_join _ _ _ Hr)) as [_ Hone].
  pose proof (apply_all_spec profile w e (same_of profile fe q maxR tree) Hone ∅ pols (memo_ok_empty _ _ _ _) Ho) as Hs.
  split; [exact Hs|]. intros He.
  apply (enforce_exact pols q tree maxR (rd_join _ _ _ Hr)) in He as [_ He]. fold e in He.
  rewrite <- Hs in He. rewrite Hq. unfold all_insertions.
  rewrite (proj2 (concat_nil_iff ao_on (outcomes w pols))), (proj2 (concat_nil_iff ao_where (outcomes w pols))).
  - rewrite insertions_nil. apply weaver_q.
  - intros out Hin. by apply He.
  - intros out Hin. by apply He.
Qed.

(** ** No silent skip *)

(** Some skeleton of the template reaches the offset, so that a text can be
    spliced in there. *)
Definition lands (q : QueryTemplate) (off : Z) : bool :=
  existsb (fun it => match it with
                     | ISkeleton s => Z.leb (Z.of_nat (SStart (SkSpan s))) off && Z.leb off (Z.of_nat (SEnd (SkSpan s)))
                     | _ => false
                     end) (QItems q).

Lemma lands_reached q off : lands q off = true <-> reached (QItems q) off.
Proof.
  unfold lands, reached. rewrite existsb_exists. split.
  - intros (it & Hin%list_elem_of_In & H). destruct it as [s|v|v|v|v|v]; try done. exists s.
    split; [done|]. apply andb_prop in H as [H1%Z.leb_le H2%Z.leb_le]. lia.
  - intros (s & Hin & H). exists (ISkeleton s). split; [by apply list_elem_of_In|]. by rewrite andb_true_iff, !Z.leb_le.
Qed.

(** Where a conjunct goes in the WHERE clause of a statement or a branch: behind
    the keyword, into a clause of its own before the tail of the statement, or
    into one at its end. *)
Inductive slot := BehindWhere (off : Z) | BeforeTail (off : Z) | AtEnd (off : Z).

Definition slot_of (q : QueryTemplate) (branch : option nat) : option slot :=
  '(keyword, tail, stop) ← match branch with
                           | None => Some (QWhereKwEnd q, QTailStart q, QStmtEnd q)
                           | Some b => br ← so_branches (scanSetOp ToUpper profile q) !! b;
                                       Some (br_whereKwEnd br, br_tailStart br, br_end br)
                           end;
  if Z.leb 0 keyword then Some (BehindWhere keyword)
  else if Z.leb 0 tail then Some (BeforeTail tail)
  else if Z.leb 0 stop then Some (AtEnd stop) else None.

Definition parens_land (q : QueryTemplate) (cs : clauseScan) : bool :=
  lands q (cs_start cs) && lands q (cs_end cs) && Z.leb (cs_start cs) (cs_end cs).

(** The ON clause read for a reference. *)
Definition on_clause (e : enforcer) (r : topRel) : option clauseScan :=
  off ← template_off (e_maxR e) (RLoc (tr_rel r)); Some (jo_cs (on_scan profile (e_q e) off (tr_rel r))).

(** The template has room for a conjunct of the occurrence: the clause that
    scopes it is there or has a slot, and the offsets it takes are reached.  The
    references that share an ON clause must read it alike. *)
Definition has_room (e : enforcer) (p : Policy) (r : topRel) : bool :=
  let q := e_q e in
  match own_clause profile e p r with
  | None => false
  | Some cs =>
      if in_own_on p r then
        lands q (cs_end cs) && (negb (hasOR cs) || parens_land q cs) &&
        forallb (fun r' => match on_clause e r' with
                           | Some cs' => negb (Z.eqb (cs_start cs') (cs_start cs)) || bool_decide (cs' = cs)
                           | None => true
                           end) (e_rels e)
      else
        match slot_of q (tr_branch r) with
        | None => false
        | Some (BehindWhere off) => lands q off && (negb (hasOR cs) || Z.leb off (cs_start cs) && parens_land q cs)
        | Some (BeforeTail off | AtEnd off) => lands q off
        end
  end.

(** Texts woven into the query at template offsets, in this order. *)
Definition woven_at (q' : QueryTemplate) (texts : list (Z * bytes)) : Prop :=
  ((fun '(off, text) => (Z.to_nat off, text)) <$> texts) `sublist_of` woven_of (cells (QItems q')).

(** The texts that put conjuncts into a clause: parenthesized, with the clause
    wrapped in parentheses first when OR is at its top level. *)
Definition on_texts (cs : clauseScan) (conjs : list bytes) : list (Z * bytes) :=
  if hasOR cs then [(cs_start cs, bs "("); (cs_end cs, bs ") AND " ++ joinParenthesized conjs)]
  else [(cs_end cs, bs " AND " ++ joinParenthesized conjs)].

Definition where_texts (s : slot) (cs : clauseScan) (conjs : list bytes) : list (Z * bytes) :=
  match s with
  | BehindWhere off =>
      (off, bs " " ++ joinParenthesized conjs ++ bs " AND")
      :: (if hasOR cs then [(cs_start cs, bs "("); (cs_end cs, bs ")")] else [])
  | BeforeTail off => [(off, bs "WHERE " ++ joinParenthesized conjs ++ bs " ")]
  | AtEnd off => [(off, bs " WHERE " ++ joinParenthesized conjs)]
  end.

(** The conjunct of an occurrence is woven into the clause that scopes it. *)
Definition woven_for (e : enforcer) (p : Policy) (r : topRel) (q' : QueryTemplate) : Prop :=
  exists cs conjs, own_clause profile e p r = Some cs /\ conjunct_for p r ∈ conjs /\
    if in_own_on p r then woven_at q' (on_texts cs conjs)
    else exists s, slot_of (e_q e) (tr_branch r) = Some s /\ woven_at q' (where_texts s cs conjs).

Lemma registerParams_items wps q : QItems (registerParams q wps) = QItems q.
Proof.
  unfold registerParams. revert q. induction wps as [|wp wps IH]; intros q; [done|]. cbn. rewrite IH. unfold register_param.
  destruct (_ || _); [done|]. destruct (match QParams q !! _ with Some _ => _ | None => _ end). done.
Qed.

Lemma register_param_keeps q wp n : is_Some (QParams q !! n) -> is_Some (QParams (register_param q wp) !! n).
Proof.
  intros H. unfold register_param. destruct (_ || _); [done|].
  destruct (QParams q !! PolParamName (WPolicy wp)); cbn; [done|]. by apply lookup_insert_is_Some'; right.
Qed.

Lemma registerParams_param wps q wp : wp ∈ wps -> WOptedOut wp = false -> PolParamName (WPolicy wp) <> [] ->
  is_Some (QParams (registerParams q wps) !! PolParamName (WPolicy wp)).
Proof.
  intros Hin Ho Hn. unfold registerParams.
  assert (forall l q, is_Some (QParams q !! PolParamName (WPolicy wp)) ->
    is_Some (QParams (foldl register_param q l) !! PolParamName (WPolicy wp))) as Hk.
  { induction l as [|x l IH]; intros q' H; [done|]. cbn. apply IH. by apply register_param_keeps. }
  revert q. induction wps as [|x wps IH]; intros q; [set_solver|]. cbn. apply elem_of_cons in Hin as [<-|Hin]; [|by apply IH].
  apply Hk. unfold register_param. rewrite Ho, bool_decide_eq_false_2 by done. cbn [orb].
  destruct (QParams q !! PolParamName (WPolicy wp)) eqn:E; cbn; [by rewrite E|]. by rewrite lookup_insert, decide_True.
Qed.

Lemma in_group {G A} (f : G -> list A) gs g x : g ∈ gs -> x ∈ f g -> x ∈ concat (f <$> gs).
Proof.
  intros Hg Hx. apply list_elem_of_In, in_concat. exists (f g). split; [|by apply list_elem_of_In].
  apply list_elem_of_In, list_elem_of_fmap. by exists g.
Qed.

(** Insertions in strict order that are reached are woven in that order. *)
Lemma insertions_woven q ins wps ks : laid_out 0 (QItems q) = true -> (forall k, k ∈ ks -> k ∈ ins) ->
  (forall k, k ∈ ks -> lands q (in_off k) = true) -> StronglySorted (fun a b => ins_less a b = true) ks ->
  woven_at (registerParams (splice q ins) wps) ((fun k => (in_off k, in_text k)) <$> ks).
Proof.
  intros Hl Hin Hr Hs. unfold woven_at. rewrite registerParams_items.
  destruct (splice_exact [] q ins Hl) as (_ & -> & Hp & Hsort & _). rewrite <- list_fmap_compose.
  assert (ks `sublist_of` placed (QItems q) ins) as Hsub.
  { apply sorted_sublist; [done|done|]. intros k Hk. apply Hp. split; [by apply Hin|]. by apply lands_reached, Hr. }
  clear -Hsub. induction Hsub; [done|by apply sublist_skip|by apply sublist_cons].
Qed.

Section woven.
Context (w : weaver) (q : QueryTemplate) (wps : list WovenPolicy) (ons : list onNeed) (wheres : list whereNeed).
Context (Hl : laid_out 0 (QItems q) = true).
Abbreviation q' := (registerParams (splice q (insertions w ons wheres)) wps).

Ltac sort_few := repeat match goal with |- StronglySorted _ _ => constructor | |- Forall _ _ => constructor end; cbn; lia.
Ltac each_of_few :=
  rewrite !elem_of_cons, elem_of_nil; let H := fresh in intros H; repeat (destruct H as [[= -> -> ->]|H]; [done|]); done.

(** The group of insertions, with the offsets they need. *)
Lemma group_woven ts :
  (exists g, g ∈ on_groups ons /\ ts = on_insertions g) \/ (exists g, g ∈ where_groups wheres /\ ts = where_insertions w g) ->
  (forall off prio text, (off, prio, text) ∈ ts -> lands q off = true) ->
  StronglySorted (fun a b => (a.1.1 < b.1.1 \/ a.1.1 = b.1.1 /\ a.1.2 <= b.1.2)%Z) ts ->
  woven_at q' ((fun '(off, _, text) => (off, text)) <$> ts).
Proof.
  intros Hg Hr Hs. destruct (insertions_in w ons wheres ts Hg) as [n Hn].
  set (mk := fun n i (t : Z * Z * bytes) => let '(off, prio, text) := t in mkIns off prio (Z.of_nat (n + i)) text).
  assert ((fun '(off, _, text) => (off, text)) <$> ts = (fun k => (in_off k, in_text k)) <$> imap (mk n) ts) as ->.
  { rewrite fmap_imap, <- imap_const. apply imap_ext. intros i [[off prio] text] _. done. }
  apply insertions_woven; [done|exact Hn| |].
  - intros k (i & [[off prio] text] & -> & Hi)%elem_of_lookup_imap. cbn. eapply Hr. by eapply list_elem_of_lookup_2.
  - clear -Hs. revert n. induction Hs as [|a ts Hs IH Ha]; intros n; [constructor|]. rewrite imap_cons. constructor.
    + assert (imap (mk n ∘ S) ts = imap (mk (S n)) ts) as ->; [|apply IH].
      apply imap_ext. intros i [[off prio] text] _. cbn. by rewrite Nat.add_succ_r.
    + rewrite Forall_forall in Ha |- *. intros k Hk%list_elem_of_In. apply elem_of_lookup_imap in Hk as (i & b & -> & Hb).
      specialize (Ha b (proj1 (list_elem_of_In _ _) (list_elem_of_lookup_2 _ _ _ Hb))).
      apply ins_less_spec. destruct a as [[? ?] ?], b as [[? ?] ?]. cbn in *. lia.
Qed.

Lemma on_woven res c :
  (forall res', res' ∈ on_res <$> ons -> cs_start (jo_cs res') = cs_start (jo_cs res) -> jo_cs res' = jo_cs res) ->
  lands q (cs_end (jo_cs res)) = true -> (hasOR (jo_cs res) = true -> parens_land q (jo_cs res) = true) ->
  mkOnNeed res c ∈ ons -> exists conjs, c ∈ conjs /\ woven_at q' (on_texts (jo_cs res) conjs).
Proof.
  intros Halike He Hp H.
  destruct (groups_spec (fun a b => Z.eqb (cs_start (jo_cs a)) (cs_start (jo_cs b))) on_res on_conj ons _
    (fun a => Z.eqb_refl _) ltac:(intros a b c' ?%Z.eqb_eq ?%Z.eqb_eq; apply Z.eqb_eq; lia) H)
    as (res' & conjs & Hg & Hs%Z.eqb_eq & Hc & Hk).
  exists conjs. split; [done|]. apply Halike in Hs; [|done]. cbn [on_res] in Hs.
  pose proof (group_woven (on_insertions (res', conjs))) as Hw. unfold on_texts.
  assert (on_insertions (res', conjs) = if hasOR (jo_cs res)
    then [(cs_start (jo_cs res), 0%Z, bs "("); (cs_end (jo_cs res), 1%Z, bs ") AND " ++ joinParenthesized conjs)]
    else [(cs_end (jo_cs res), 1%Z, bs " AND " ++ joinParenthesized conjs)]) as E by (unfold on_insertions; by rewrite Hs).
  specialize (Hw (or_introl (ex_intro _ _ (conj Hg eq_refl)))). rewrite E in Hw. destruct (hasOR (jo_cs res)).
  - unfold parens_land in Hp. destruct (andb_prop _ _ (Hp eq_refl)) as [[H1 H2]%andb_prop H3%Z.leb_le]. apply Hw.
    + intros off prio text. each_of_few.
    + sort_few.
  - apply Hw; [|sort_few]. intros off prio text. each_of_few.
Qed.

Lemma where_woven b c s cs :
  (exists kw tail stop, where_slot w b = (kw, tail, stop, cs) /\
    (if Z.leb 0 kw then Some (BehindWhere kw) else if Z.leb 0 tail then Some (BeforeTail tail)
     else if Z.leb 0 stop then Some (AtEnd stop) else None) = Some s) ->
  match s with
  | BehindWhere off => lands q off = true /\ (hasOR cs = true -> (off <= cs_start cs)%Z /\ parens_land q cs = true)
  | BeforeTail off | AtEnd off => lands q off = true
  end ->
  mkWhereNeed b c ∈ wheres -> exists conjs, c ∈ conjs /\ woven_at q' (where_texts s cs conjs).
Proof.
  intros (kw & tail_ & stop & Es & Hs) Hr H.
  destruct (groups_spec (fun a b => bool_decide (a = b)) wn_branch wn_conj wheres _
    (fun a => bool_decide_eq_true_2 _ eq_refl)
    ltac:(intros a b' c' ?%bool_decide_eq_true ?%bool_decide_eq_true; apply bool_decide_eq_true; congruence) H)
    as (b' & conjs & Hg & ->%bool_decide_eq_true & Hc & _). cbn [wn_branch wn_conj] in *.
  exists conjs. split; [done|]. pose proof (group_woven (where_insertions w (b, conjs))) as Hw.
  specialize (Hw (or_intror (ex_intro _ _ (conj Hg eq_refl)))). unfold where_insertions in Hw. rewrite Es in Hw.
  destruct (Z.leb 0 kw); [|destruct (Z.leb 0 tail_); [|destruct (Z.leb 0 stop); [|done]]]; injection Hs as <-; cbn [where_texts].
  - destruct Hr as [Hk Hor]. destruct (hasOR cs).
    + destruct (Hor eq_refl) as [Hle Hp]. unfold parens_land in Hp. apply andb_prop in Hp as [[H1 H2]%andb_prop H3%Z.leb_le]. apply Hw.
      * intros off prio text. each_of_few.
      * sort_few.
    + apply Hw; [|sort_few]. intros off prio text. each_of_few.
  - apply Hw; [|sort_few]. intros off prio text. each_of_few.
  - apply Hw; [|sort_few]. intros off prio text. each_of_few.
Qed.
End woven.

(** The weaver puts a conjunct where the template has its slot. *)
Lemma slots_agree q maxR tree r s : r ∈ rels_of tree -> slot_of q (tr_branch r) = Some s ->
  let w := weaver_of profile fe q maxR tree in
  exists kw tail stop, where_slot w (tr_branch r) = (kw, tail, stop, whereScan w (tr_branch r)) /\
    (if Z.leb 0 kw then Some (BehindWhere kw) else if Z.leb 0 tail then Some (BeforeTail tail)
     else if Z.leb 0 stop then Some (AtEnd stop) else None) = Some s.
Proof.
  intros Hr Hs w. pose proof (weaver_q q maxR tree) as Eq. fold w in Eq. unfold where_slot, whereScan. rewrite Eq.
  unfold slot_of in Hs. destruct (tr_branch r) as [b|] eqn:Eb.
  - pose proof (topRelations_branch tree r b Hr Eb) as Hb.
    assert (w_setop w = Some (scanSetOp ToUpper profile q)) as ->.
    { unfold w, weaver_of. destruct (topRelations tree) as [rels n], (overreadDeep _ _ _ _). cbn in *.
      by destruct n; [lia|]. }
    destruct (so_branches (scanSetOp ToUpper profile q) !! b) as [br|]; [|done]. cbn in Hs. by do 3 eexists.
  - do 3 eexists. split; [done|exact Hs].
Qed.

Lemma woven_some q ins wps texts : laid_out 0 (QItems q) = true -> texts <> [] ->
  woven_at (registerParams (splice q ins) wps) texts -> ins <> [].
Proof.
  intros Hl Ht Hw ->. unfold woven_at in Hw. rewrite registerParams_items in Hw.
  destruct (splice_exact [] q [] Hl) as (_ & E & _). rewrite E in Hw. apply sublist_nil_r in Hw. by destruct texts.
Qed.

(** What is needed is woven, as far as the template has room. *)
Lemma needed_woven pols q maxR tree p r out wps :
  let w := weaver_of profile fe q maxR tree in
  let e := enforcer_of profile fe q tree maxR in
  reads q maxR tree -> laid_out 0 (QItems q) = true -> (forall out, out ∈ outcomes w pols -> ao_diags out = []) ->
  out ∈ outcomes w pols -> r ∈ rels_of tree -> has_room e p r = true -> occurrence_handled profile w e p r out ->
  occurrence_scoped profile e p r \/
  exists texts, texts <> [] /\ woven_at (registerParams (splice q (all_insertions w pols)) wps) texts /\
    forall q', woven_at q' texts -> woven_for e p r q'.
Proof.
  intros w e Hr Hl Hds Hout Hrel Hroom [Hsc|Hneed]; [by left|right].
  destruct (enforcer_join q maxR tree (rd_join _ _ _ Hr)) as [Heq Hone]. fold e in Heq, Hone.
  unfold has_room in Hroom. destruct Hneed as [(Hon & res & Hres & Hin)|(Hon & Hres & Hin)]; rewrite Hres, Hon, Heq in Hroom.
  - apply andb_prop in Hroom as [[H1 H2]%andb_prop H3].
    destruct (on_woven w q wps (concat (ao_on <$> outcomes w pols)) (concat (ao_where <$> outcomes w pols)) Hl res (conjunct_for p r))
      as (conjs & Hc & Hw'); [|done| |by eapply in_group|].
    + intros res' (n & -> & Hn)%list_elem_of_fmap Hs.
      destruct (apply_all_on profile w e (same_of profile fe q maxR tree) Hone ∅ pols n (memo_ok_empty _ _ _ _) Hn)
        as (r' & off & Hr' & Hoff & Eres).
      rewrite forallb_forall in H3. specialize (H3 r' (proj1 (list_elem_of_In _ _) Hr')). unfold on_clause in H3.
      rewrite Hoff in H3. cbn [mbind option_bind] in H3. rewrite <- Eres, Hs, Z.eqb_refl in H3. by apply bool_decide_eq_true in H3.
    + intros Hor. by rewrite Hor in H2.
    + exists (on_texts (jo_cs res) conjs). split_and!; [unfold on_texts; by destruct (hasOR _)|done|].
      intros q' Hq'. exists (jo_cs res), conjs. rewrite Hon. by split_and!.
  - destruct (slot_of q (tr_branch r)) as [s|] eqn:Es; [|done].
    destruct (where_woven w q wps (concat (ao_on <$> outcomes w pols)) (concat (ao_where <$> outcomes w pols)) Hl
      (tr_branch r) (conjunct_for p r) s (whereScan w (tr_branch r))) as (conjs & Hc & Hw'); [by apply slots_agree| |by eapply in_group|].
    + destruct s; [|done..]. apply andb_prop in Hroom as [? Hroom]. split; [done|]. intros Hor. rewrite Hor in Hroom.
      apply andb_prop in Hroom as [?%Z.leb_le ?]. done.
    + exists (where_texts s (whereScan w (tr_branch r)) conjs). split_and!; [by destruct s|done|].
      intros q' Hq'. exists (whereScan w (tr_branch r)), conjs. rewrite Hon, Heq. split_and!; [done..|]. by exists s.
Qed.

(** C8: no policy is skipped in silence.  Take a query the weaver has no
    objection to, an active policy the query does not opt out of, and a
    top-level relation the policy designates, for whose conjunct the template
    has room.  Either the clause that scopes the relation already holds the
    conjunct, or the weaver has put it there: behind the WHERE of the relation's
    own statement or branch, into a WHERE clause of its own before the tail of
    the statement or at its end, or behind the ON expression of its join -
    parenthesized, and the clause wrapped in parentheses first when OR is at its
    top level - and the woven query declares the policy's parameter. *)
Theorem weave_no_silent_skip pols q maxR tree p r :
  reads q maxR tree -> laid_out 0 (QItems q) = true ->
  let q' := WQuery (Weave profile fe pols q) in
  let e := enforcer_of profile fe q tree maxR in
  WDiags (Weave profile fe pols q) = [] -> p ∈ pols -> optOutFor q (PolName p) = None ->
  active (e_applicability e p) = true -> r ∈ topOcc (e_applicability e p) -> has_room e p r = true ->
  occurrence_scoped profile e p r \/
  (woven_for e p r q' /\ (PolParamName p <> [] -> is_Some (QParams q' !! PolParamName p))).
Proof.
  intros Hr Hl q' e Hd Hp Ho Ha Hocc Hroom. unfold q' in *. clear q'. destruct pols as [|p0 pols']; [set_solver|].
  set (pols := p0 :: pols') in *. set (w := weaver_of profile fe q maxR tree).
  pose proof (Weave_reads q maxR tree p0 pols' Hr) as E. fold w pols in E. rewrite E in Hd |- *.
  destruct (weave_with_query w pols Hd) as [Hds Hq]. cbv zeta in Hq. set (wps := omap ao_woven (outcomes w pols)) in *.
  destruct (enforcer_join q maxR tree (rd_join _ _ _ Hr)) as [Heq Hone]. fold e in Heq, Hone.
  destruct (apply_all_handled profile w e (same_of profile fe q maxR tree) Hone ∅ pols p (memo_ok_empty _ _ _ _) Hp Hds)
    as (out & Hout & (wp & Hwp & Hwp1 & Hwp2) & Hh); [by rewrite Heq|done|].
  fold (outcomes w pols) in Hout.
  assert (w_q w = q) as Ewq by apply weaver_q. rewrite Ewq in Hq.
  assert (r ∈ rels_of tree) as Hrel.
  { apply topOcc_spec in Hocc as [Hocc _]. clear -Hocc. unfold e, enforcer_of in Hocc.
    by destruct (topRelations tree), (overreadDeep _ _ _ _). }
  destruct (needed_woven pols q maxR tree p r out wps Hr Hl Hds Hout Hrel Hroom (Hh r Hocc)) as [?|H]; [by left|right].
  destruct H as (texts & Hne & Hwov & Hfor). fold w in Hwov.
  pose proof (woven_some q _ wps texts Hl Hne Hwov) as Hins. rewrite Hq. destruct (all_insertions w pols); [done|].
  split; [by apply Hfor|]. intros Hn. rewrite <- Hwp1. apply registerParams_param; [|done|by rewrite Hwp1].
  apply list_elem_of_omap. by exists out.
Qed.
End theorems.

(** ** Reading a clause *)

(** A WHERE clause is read exactly: up to the event that ends it, it is
    readable and without OR at its top level if and only if it is in the
    grammar - runs of content separated by AND and by constructs, with whatever
    a CASE expression holds inside its run - and its segments are then the
    contents of the runs. *)
Theorem where_clause_exact {strings : GoStrings} (profile : LexerProfile) q evs :
  where_events ToUpper q = (Some evs, false) ->
  exists pre rest, evs = pre ++ rest /\ (rest = [] \/ exists ev rest', rest = ev :: rest' /\ ends_clause ev) /\
    let cs := whereClause ToUpper profile q in
    (lexOK cs = true /\ hasOR cs = false <-> exists parts, clause (PipesAreOr profile) true pre parts) /\
    (forall parts, clause (PipesAreOr profile) true pre parts -> segs cs = segments parts).
Proof.
  intros He. cbv zeta. rewrite whereClause_reading, He. unfold reading.
  destruct (es_run (newExprScan profile) evs) as [e stop] eqn:Er. cbn [andb].
  apply es_run_split in Er as (pre & rest & -> & H). exists pre, rest. split; [done|].
  assert (exists e1, es_all (newExprScan profile) pre = Some e1 /\ es_result e = es_result e1 /\
    (rest = [] \/ exists ev rest', rest = ev :: rest' /\ ends_clause ev)) as (e1 & E1 & -> & Hr).
  { destruct stop.
    - destruct H as (e1 & ev & rest' & -> & E1 & [Hs1 Hs2]%stop_event). exists e1. split_and!; [done|done|right]. by exists ev, rest'.
    - destruct H as [-> H]. exists e. split_and!; [done|done|by left]. }
  split; [done|]. destruct (clause_segments profile pre) as [H1 H2]. split.
  - split; [intros [Hok Hor]; destruct (H2 e1 E1 Hok Hor) as (parts & ? & _); by exists parts|].
    intros [parts Hp]. destruct (H1 parts Hp) as (e' & E' & ? & ? & _).
    by assert (e1 = e') as -> by congruence.
  - intros parts Hp. destruct (H1 parts Hp) as (e' & E' & _ & _ & Hs). congruence.
Qed.

(** ** Instances *)

Lemma orders_reads : reads Postgres.Profile orders_fe orders_query orders_rendering orders_parsed.
Proof. split; [vm_compute; reflexivity..|]. apply one_join_test_ok. vm_compute. reflexivity. Qed.

Lemma woven_reads : reads Postgres.Profile orders_fe (WQuery orders_woven) woven_rendering woven_parsed.
Proof. split; [vm_compute; reflexivity..|]. apply one_join_test_ok. vm_compute. reflexivity. Qed.

(** The reference to the orders, on the null-extended side of the join. *)
Definition orders_ref : topRel :=
  mkTop (mkRelRef (bs "o") (bs "orders") [] false (RLoc (List.nth 1 (Relations orders_parsed) (mkRelRef [] [] [] false 0 JoinBase false)))
           JoinLeft true) None.

Lemma enforce_exact_witness :
  Enforce Postgres.Profile orders_fe [tenancy] (WQuery orders_woven) woven_parsed woven_rendering = [] <->
  annotations_ok (enforcer_of Postgres.Profile orders_fe (WQuery orders_woven) woven_parsed woven_rendering) [tenancy] /\
  forall p, p ∈ [tenancy] ->
    scoped Postgres.Profile (enforcer_of Postgres.Profile orders_fe (WQuery orders_woven) woven_parsed woven_rendering) p.
Proof. apply (enforce_exact Postgres.Profile orders_fe), woven_reads. Defined.

Lemma weave_enforce_agree_witness :
  ((forall out, out ∈ outcomes Postgres.Profile (weaver_of Postgres.Profile orders_fe (WQuery orders_woven) woven_rendering woven_parsed)
      [tenancy] -> ao_where out = [] /\ ao_on out = []) <->
   (forall p, p ∈ [tenancy] ->
      scoped Postgres.Profile (enforcer_of Postgres.Profile orders_fe (WQuery orders_woven) woven_parsed woven_rendering) p)) /\
  (Enforce Postgres.Profile orders_fe [tenancy] (WQuery orders_woven) woven_parsed woven_rendering = [] ->
   WQuery (Weave Postgres.Profile orders_fe [tenancy] (WQuery orders_woven)) = WQuery orders_woven).
Proof. apply (weave_enforce_agree Postgres.Profile orders_fe); [apply woven_reads|vm_compute; reflexivity]. Defined.

Lemma weave_no_silent_skip_witness :
  let e := enforcer_of Postgres.Profile orders_fe orders_query orders_parsed orders_rendering in
  let q' := WQuery (Weave Postgres.Profile orders_fe [tenancy] orders_query) in
  occurrence_scoped Postgres.Profile e tenancy orders_ref \/
  (woven_for Postgres.Profile e tenancy orders_ref q' /\ (PolParamName tenancy <> [] -> is_Some (QParams q' !! PolParamName tenancy))).
Proof.
  apply (weave_no_silent_skip Postgres.Profile orders_fe [tenancy] orders_query orders_rendering orders_parsed tenancy orders_ref orders_reads);
    [vm_compute; reflexivity|vm_compute; reflexivity|by left|vm_compute; reflexivity|vm_compute; reflexivity| |vm_compute; reflexivity].
  apply list_elem_of_lookup. exists 1. vm_compute. reflexivity.
Defined.

(** Both tables of the example have room. *)
Example orders_room :
  let e := enforcer_of Postgres.Profile orders_fe orders_query orders_parsed orders_rendering in
  length (e_rels e) = 2 /\ forallb (has_room Postgres.Profile e tenancy) (e_rels e) = true.
Proof. vm_compute. split; reflexivity. Qed.

(** The events after the WHERE of the woven query. *)
Definition orders_events : list event := default [] (where_events asciiUpper (profile := Postgres.Profile) (WQuery orders_woven)).1.

Lemma where_clause_exact_witness :
  exists pre rest, orders_events = pre ++ rest /\ (rest = [] \/ exists ev rest', rest = ev :: rest' /\ ends_clause ev) /\
    let cs := whereClause ToUpper Postgres.Profile (WQuery orders_woven) in
    (lexOK cs = true /\ hasOR cs = false <-> exists parts, clause (PipesAreOr Postgres.Profile) true pre parts) /\
    (forall parts, clause (PipesAreOr Postgres.Profile) true pre parts -> segs cs = segments parts).
Proof. apply (where_clause_exact Postgres.Profile (WQuery orders_woven) orders_events). vm_compute. reflexivity. Defined.

Example orders_where : let cs := whereClause ToUpper Postgres.Profile (WQuery orders_woven) in
  length orders_events = 19 /\ lexOK cs = true /\ hasOR cs = false /\ length (segs cs) = 2.
Proof. vm_compute. auto. Qed.
