(* ===== verification/GoPath.v ===== *)
(** * GoPath

    What the code uses of Go's [path] and [path/filepath] on Unix, where they
    agree: [Clean], [Join], [Dir], [Base], [Rel] and [IsAbs], on the elements of
    a path; and the questions the code asks of the file system, as the fields
    of a record. *)

From S2P Require Import Prelude ScanDirectives ScanBodies.

Definition slash : bytes := bs "/".

(** [strings.HasPrefix] and [strings.HasSuffix] *)
Definition HasPrefix (s p : bytes) : bool := bool_decide (take (length p) s = p).
Definition HasSuffix (s p : bytes) : bool := bool_decide (drop (length s - length p) s = p).

Definition IsAbs (p : bytes) : bool := HasPrefix p slash.

(** ** Clean

    [out] holds the elements of the result, the last one first.  [".."] removes
    the one before it; at a root it goes nowhere, elsewhere it stays. *)
Definition clean_step (rooted : bool) (out : list bytes) (e : bytes) : list bytes :=
  if bool_decide (e = [] \/ e = bs ".") then out
  else if bool_decide (e = bs "..") then
    match out with
    | top :: rest => if bool_decide (top = bs "..") then e :: out else rest
    | [] => if rooted then [] else [e]
    end
  else e :: out.

(** The elements of a cleaned path, in order. *)
Definition elems (p : bytes) : list bytes := rev (foldl (clean_step (IsAbs p)) [] (split_byte "/" p)).

Definition unelems (rooted : bool) (es : list bytes) : bytes :=
  if rooted then slash ++ join slash es else match es with [] => bs "." | _ => join slash es end.

Definition Clean (p : bytes) : bytes := unelems (IsAbs p) (elems p).

(** [filepath.Join]: leading empty elements are ignored. *)
Fixpoint Join (l : list bytes) : bytes :=
  match l with
  | [] => []
  | [] :: l' => Join l'
  | _ => Clean (join slash l)
  end.

(** What follows the last slash, and everything before. *)
Definition after_slash (p : bytes) : bytes := List.last (split_byte "/" p) [].
Definition upto_slash (p : bytes) : bytes := take (length p - length (after_slash p)) p.

Definition Dir (p : bytes) : bytes := Clean (upto_slash p).

Definition Base (p : bytes) : bytes :=
  match p with
  | [] => bs "."
  | _ => match trim_right (fun c => c =b "/")%char p with [] => slash | s => after_slash s end
  end.

(** The elements two paths do not share. *)
Fixpoint strip_common (a b : list bytes) : list bytes * list bytes :=
  match a, b with
  | x :: a', y :: b' => if decide (x = y) then strip_common a' b' else (a, b)
  | _, _ => (a, b)
  end.

(** [filepath.Rel]; [None] is its error. *)
Definition Rel (base targ : bytes) : option bytes :=
  if bool_decide (Clean targ = Clean base) then Some (bs ".")
  else if negb (Bool.eqb (IsAbs base) (IsAbs targ)) then None
  else
    let te := match elems targ with [] => if IsAbs targ then [] else [bs "."] | l => l end in
    match strip_common (elems base) te with
    | (e :: b, y :: t) => if decide (e = bs "..") then None else Some (join slash (((fun _ => bs "..") <$> e :: b) ++ y :: t))
    | (b, t) => Some (join slash (((fun _ => bs "..") <$> b) ++ t))
    end.

(** The test the code makes of it. *)
Definition climbs (rel : bytes) : bool := bool_decide (rel = bs "..") || HasPrefix rel (bs "../").

(** ** The file system *)

Inductive FileType := FRegular | FDir | FSymlink | FOther.
#[export] Instance FileType_eq_dec : EqDecision FileType.
Proof. solve_decision. Defined.

Record DirEntry := mkDirEntry { EName : bytes; EType : FileType }.

(** [os.ReadDir] (in the order of names), [os.Lstat], [os.Stat] and
    [filepath.EvalSymlinks]; [None] is an error. *)
Record FS := mkFS {
  ReadDir : bytes -> option (list DirEntry);
  Lstat : bytes -> option FileType;
  Stat : bytes -> option FileType;
  EvalSymlinks : bytes -> option bytes;
}.

(** ** Lemmas *)

Lemma HasPrefix_app p s : HasPrefix (p ++ s) p = true.
Proof. unfold HasPrefix. apply bool_decide_eq_true. by rewrite take_app_length. Qed.

Lemma HasPrefix_spec s p : HasPrefix s p = true <-> exists t, s = p ++ t.
Proof.
  split; [|by intros [t ->]; apply HasPrefix_app]. unfold HasPrefix. rewrite bool_decide_eq_true. intros E.
  exists (drop (length p) s). rewrite <- E at 1. by rewrite take_drop.
Qed.

Lemma IsAbs_cons p : IsAbs p = match p with c :: _ => (c =b "/")%char | [] => false end.
Proof.
  unfold IsAbs, HasPrefix, slash. destruct p as [|c p]; [done|]. cbn. rewrite take_0.
  destruct (Ascii.eqb_spec c "/") as [->|Hne]; [done|]. apply bool_decide_eq_false. congruence.
Qed.

Definition avoids_slash (e : bytes) : Prop := "/"%char ∉ e.

Lemma split_nonnil s : split_byte "/" s <> [].
Proof. induction s as [|c s IH]; cbn; [done|]. destruct (c =b "/")%char; [done|]. by destruct (split_byte _ s). Qed.

Lemma split_avoids s : Forall avoids_slash (split_byte "/" s).
Proof.
  induction s as [|c s IH]; cbn; [repeat constructor; apply not_elem_of_nil|].
  destruct (Ascii.eqb_spec c "/") as [->|Hne]; [constructor; [apply not_elem_of_nil|done]|].
  destruct (split_byte "/" s) as [|p ps]; [apply Forall_singleton; unfold avoids_slash; set_solver|].
  apply list.Forall_cons in IH as [Hp Hps]. constructor; [|done]. unfold avoids_slash in *. set_solver.
Qed.

Lemma split_cons_app e s : avoids_slash e -> split_byte "/" (e ++ s) =
  match split_byte "/" s with p :: ps => (e ++ p) :: ps | [] => [e] end.
Proof.
  intros He. induction e as [|c e IH]; cbn [app].
  { pose proof (split_nonnil s). by destruct (split_byte "/" s). }
  cbn [split_byte]. rewrite IH by (unfold avoids_slash in *; set_solver).
  destruct (Ascii.eqb_spec c "/") as [->|Hne]; [unfold avoids_slash in He; set_solver|]. by destruct (split_byte "/" s).
Qed.

Lemma split_slash_cons s : split_byte "/" (slash ++ s) = [] :: split_byte "/" s.
Proof. done. Qed.

Lemma split_join l : Forall avoids_slash l -> l <> [] -> split_byte "/" (join slash l) = l.
Proof.
  induction l as [|e l IH]; intros Hl Hne; [done|]. inversion_clear Hl. destruct l as [|e' l'].
  - cbn [join]. rewrite <- (app_nil_r e) at 1. rewrite split_cons_app by done. cbn. by rewrite app_nil_r.
  - cbn [join]. rewrite split_cons_app by done. rewrite split_slash_cons.
    rewrite app_nil_r. f_equal. by apply IH.
Qed.

Lemma join_split s : join slash (split_byte "/" s) = s.
Proof.
  induction s as [|c s IH]; [done|]. cbn [split_byte].
  pose proof (split_nonnil s) as Hne. destruct (split_byte "/" s) as [|p ps]; [done|].
  destruct (Ascii.eqb_spec c "/") as [->|Hc].
  - change (join slash ([] :: p :: ps)) with (slash ++ join slash (p :: ps)). by rewrite IH.
  - rewrite <- IH. by destruct ps.
Qed.

Lemma split_app_slash a b : split_byte "/" (a ++ slash ++ b) = split_byte "/" a ++ split_byte "/" b.
Proof.
  rewrite <- (join_split a) at 1. pose proof (split_avoids a) as Ha. pose proof (split_nonnil a) as Hn.
  induction (split_byte "/" a) as [|e l IH]; [done|]. inversion Ha; subst. destruct l as [|e' l'].
  - cbn [join]. rewrite split_cons_app by done. cbn. by rewrite app_nil_r.
  - change (join slash (e :: e' :: l')) with (e ++ slash ++ join slash (e' :: l')). rewrite <- !app_assoc, split_cons_app by done.
    rewrite split_slash_cons, app_nil_r. cbn [app]. f_equal. by apply IH.
Qed.

(** Cleaned elements: ascents first, none at a root, then names. *)
Definition is_name (e : bytes) : Prop := e <> [] /\ e <> bs "." /\ e <> bs ".." /\ avoids_slash e.
Definition normal (rooted : bool) (es : list bytes) : Prop :=
  exists n names, es = replicate n (bs "..") ++ names /\ Forall is_name names /\ (rooted = true -> n = 0).

Lemma clean_step_normal rooted out e : avoids_slash e -> normal rooted (rev out) -> normal rooted (rev (clean_step rooted out e)).
Proof.
  intros He (n & names & E & Hn & Hr). unfold clean_step. case_bool_decide as E1; [by exists n, names|].
  case_bool_decide as E2.
  - subst e. destruct out as [|top rest].
    + destruct rooted; [by exists 0, []|]. by exists 1, [].
    + cbn in E. destruct names as [|x names _] using rev_ind.
      * rewrite app_nil_r in E. case_bool_decide as E3.
        -- exists (S n), []. cbn. rewrite E, app_nil_r, <- replicate_S_end. split_and!; [done..|]. intros H. specialize (Hr H). subst n.
           by destruct (rev rest).
        -- destruct n as [|n]; [by destruct (rev rest)|]. rewrite replicate_S_end in E. by apply app_inj_tail in E as [_ ->].
      * rewrite app_assoc in E. apply app_inj_tail in E as [E ->]. rewrite Forall_app in Hn. destruct Hn as [Hn Hx]. inversion_clear Hx as [|? ? Hx'].
        rewrite bool_decide_eq_false_2 by apply Hx'. by exists n, names.
  - exists n, (names ++ [e]). cbn. rewrite E, app_assoc. split_and!; [done| |done].
    apply Forall_app; split; [done|]. repeat constructor; [tauto|tauto|done|done].
Qed.

Lemma clean_normal rooted es out : Forall avoids_slash es -> normal rooted (rev out) -> normal rooted (rev (foldl (clean_step rooted) out es)).
Proof. revert out. induction es as [|e es IH]; intros out He Hn; [done|]. inversion_clear He. cbn. apply IH; [done|]. by apply clean_step_normal. Qed.

Lemma elems_normal p : normal (IsAbs p) (elems p).
Proof. unfold elems. apply clean_normal; [apply split_avoids|]. by exists 0, []. Qed.

(** Cleaning elements that are clean changes nothing. *)
Lemma clean_fixed rooted es out : normal rooted (rev out ++ es) -> foldl (clean_step rooted) out es = rev es ++ out.
Proof.
  revert out. induction es as [|e es IH]; intros out Hn; [done|]. cbn [foldl rev].
  assert (clean_step rooted out e = e :: out) as ->; [|rewrite IH; [by rewrite <- app_assoc|cbn; by rewrite <- app_assoc]].
  destruct Hn as (n & names & E & Hnames & Hr). unfold clean_step.
  destruct (decide (length out < n)) as [Hlt|Hge].
  - assert (rev out = replicate (length out) (bs "..") /\ e = bs "..") as [Eo ->].
    { replace n with (length out + S (n - length out - 1)) in E by lia. rewrite replicate_add, <- app_assoc in E.
      apply app_inj_1 in E as [E1 E2]; [|by rewrite length_rev, length_replicate]. by injection E2. }
    rewrite bool_decide_eq_false_2 by (intros [?|?]; discriminate). rewrite bool_decide_eq_true_2 by done.
    destruct out as [|top rest]; [destruct rooted; [specialize (Hr eq_refl); lia|done]|].
    assert (top ∈ replicate (length (top :: rest)) (bs "..")) as [-> _]%elem_of_replicate; [|by rewrite bool_decide_eq_true_2].
    rewrite <- Eo. cbn. set_solver.
  - assert (e ∈ names) as Hin.
    { assert ((rev out ++ e :: es) !! length out = Some e) as Hl by (rewrite lookup_app_r; rewrite length_rev; [by rewrite Nat.sub_diag|lia]).
      rewrite E, lookup_app_r in Hl by (rewrite length_replicate; lia). by eapply list_elem_of_lookup_2. }
    rewrite list.Forall_forall in Hnames. destruct (Hnames e Hin) as (H1 & H2 & H3 & _).
    rewrite !bool_decide_eq_false_2 by tauto. done.
Qed.

Lemma normal_avoids rooted es : normal rooted es -> Forall avoids_slash es.
Proof.
  intros (n & names & -> & Hn & _). apply Forall_app; split.
  - apply Forall_replicate. unfold avoids_slash. rewrite list_elem_of_In. by vm_compute; naive_solver.
  - eapply list.Forall_impl; [exact Hn|]. intros e He. apply He.
Qed.

Lemma normal_nonnil rooted es : normal rooted es -> Forall (fun e => e <> [] /\ e <> bs ".") es.
Proof.
  intros (n & names & -> & Hn & _). apply Forall_app; split; [by apply Forall_replicate|].
  eapply list.Forall_impl; [exact Hn|]. intros e He. split; apply He.
Qed.

Lemma IsAbs_join es : Forall (fun e => e <> [] /\ avoids_slash e) es -> es <> [] -> IsAbs (join slash es) = false.
Proof.
  intros H Hne. destruct es as [|[|c e] es]; [done|by inversion_clear H; naive_solver|]. inversion_clear H as [|? ? [_ Ha] _].
  assert (exists t, join slash ((c :: e) :: es) = c :: t) as [t ->] by (destruct es; cbn; eauto). rewrite IsAbs_cons.
  apply Ascii.eqb_neq. intros ->. unfold avoids_slash in Ha. set_solver.
Qed.

Lemma normal_elem rooted es : normal rooted es -> Forall (fun e => e <> [] /\ avoids_slash e) es.
Proof.
  intros H. pose proof (normal_avoids _ _ H) as H1. pose proof (normal_nonnil _ _ H) as H2.
  rewrite list.Forall_forall in *. intros e He. split; [by apply H2|by apply H1].
Qed.

Lemma IsAbs_unelems rooted es : normal rooted es -> IsAbs (unelems rooted es) = rooted.
Proof.
  intros H. destruct rooted; [apply HasPrefix_app|]. unfold unelems. destruct es as [|e es]; [done|].
  apply IsAbs_join; [by eapply normal_elem|done].
Qed.

Lemma elems_unelems rooted es : normal rooted es -> elems (unelems rooted es) = es.
Proof.
  intros H. unfold elems. rewrite IsAbs_unelems by done.
  assert (foldl (clean_step rooted) [] (split_byte "/" (unelems rooted es)) = foldl (clean_step rooted) [] es) as ->.
  { unfold unelems. destruct rooted.
    - rewrite <- (app_nil_l (slash ++ _)), split_app_slash. cbn [split_byte foldl app].
      destruct es as [|e es]; [done|]. rewrite split_join; [done|by eapply normal_avoids|done].
    - destruct es as [|e es]; [done|]. rewrite split_join; [done|by eapply normal_avoids|done]. }
  rewrite clean_fixed by done. rewrite app_nil_r. apply rev_involutive.
Qed.

Lemma IsAbs_Clean p : IsAbs (Clean p) = IsAbs p.
Proof. apply IsAbs_unelems, elems_normal. Qed.

Lemma elems_Clean p : elems (Clean p) = elems p.
Proof. apply elems_unelems, elems_normal. Qed.

Lemma Clean_idemp p : Clean (Clean p) = Clean p.
Proof. unfold Clean at 1. by rewrite IsAbs_Clean, elems_Clean. Qed.

Lemma Clean_unelems rooted es : normal rooted es -> Clean (unelems rooted es) = unelems rooted es.
Proof. intros H. unfold Clean. by rewrite IsAbs_unelems, elems_unelems. Qed.

Lemma unelems_inj rooted a b : normal rooted a -> normal rooted b -> unelems rooted a = unelems rooted b -> a = b.
Proof. intros Ha Hb E. by rewrite <- (elems_unelems rooted a), <- (elems_unelems rooted b), E. Qed.

(** ** Join and Rel *)

Lemma IsAbs_Join dir p : dir <> [] -> IsAbs (Join [dir; p]) = IsAbs dir.
Proof. intros H. destruct dir as [|c d]; [done|]. cbn [Join join]. rewrite IsAbs_Clean, !IsAbs_cons. done. Qed.

Lemma elems_Join dir p : dir <> [] ->
  elems (Join [dir; p]) = rev (foldl (clean_step (IsAbs dir)) (rev (elems dir)) (split_byte "/" p)).
Proof.
  intros H. destruct dir as [|c d]; [done|]. cbn [Join join]. rewrite elems_Clean. unfold elems at 1. rewrite split_app_slash, foldl_app.
  unfold elems. rewrite rev_involutive. by rewrite !IsAbs_cons.
Qed.

Lemma normal_app_names rooted es names : normal rooted es -> Forall is_name names -> normal rooted (es ++ names).
Proof. intros (n & l & -> & Hl & Hr) Hn. exists n, (l ++ names). rewrite app_assoc. split_and!; [done| |done]. by apply Forall_app. Qed.

Lemma elems_Join_names dir names : dir <> [] -> Forall is_name names -> names <> [] ->
  elems (Join [dir; join slash names]) = elems dir ++ names.
Proof.
  intros Hd Hn Hne. rewrite elems_Join by done.
  rewrite split_join; [|eapply list.Forall_impl; [exact Hn|]; intros e He; apply He|done].
  rewrite clean_fixed; [by rewrite rev_app_distr, !rev_involutive|].
  rewrite rev_involutive. apply normal_app_names; [apply elems_normal|done].
Qed.

(** A path whose elements extend those of another. *)
Definition inside (base targ : bytes) : Prop :=
  IsAbs base = IsAbs targ /\ exists rest, elems targ = elems base ++ rest /\ Forall is_name rest.

Lemma strip_common_spec a b : exists c, a = c ++ (strip_common a b).1 /\ b = c ++ (strip_common a b).2 /\
  match strip_common a b with (x :: _, y :: _) => x <> y | _ => True end.
Proof.
  revert b. induction a as [|x a IH]; intros [|y b]; cbn [strip_common]; try (by exists []).
  destruct (decide (x = y)) as [->|Hne]; [|by exists []]. destruct (IH b) as (c & E1 & E2 & H).
  exists (y :: c). cbn. by rewrite <- E1, <- E2.
Qed.

Lemma strip_common_app a b : strip_common a (a ++ b) = ([], b).
Proof. induction a as [|x a IH]; cbn; [by destruct b|]. by rewrite decide_True. Qed.

Lemma climbs_up l : climbs (join slash (bs ".." :: l)) = true.
Proof.
  unfold climbs. destruct l as [|e l]; cbn [join].
  - by rewrite bool_decide_eq_true_2.
  - apply orb_true_iff. right. rewrite app_assoc. change (bs ".." ++ slash) with (bs "../"). apply HasPrefix_app.
Qed.

Lemma climbs_names l : Forall is_name l -> climbs (join slash l) = false.
Proof.
  intros Hl. destruct l as [|e l]; [done|]. inversion Hl as [|? ? He Hl']; subst.
  assert (split_byte "/" (join slash (e :: l)) = e :: l) as E.
  { apply split_join; [|done]. eapply list.Forall_impl; [exact Hl|]. intros x Hx. apply Hx. }
  unfold climbs. apply orb_false_iff. split.
  - apply bool_decide_eq_false. intros Eq. rewrite Eq in E. apply (f_equal head) in E.
    change (Some (bs "..") = Some e) in E. destruct He as (_ & _ & He & _). congruence.
  - apply not_true_iff_false. intros [t Ht]%HasPrefix_spec. rewrite Ht in E.
    change (bs "../" ++ t) with (bs ".." ++ slash ++ t) in E. rewrite split_app_slash in E.
    apply (f_equal head) in E.
    change (Some (bs "..") = Some e) in E. destruct He as (_ & _ & He & _). congruence.
Qed.

(** The test on [Rel] is exact: it passes when the target lies inside. *)
Lemma Rel_inside base targ : (exists r, Rel base targ = Some r /\ climbs r = false) <-> inside base targ.
Proof.
  unfold Rel, inside. case_bool_decide as Ec.
  { assert (IsAbs base = IsAbs targ /\ elems targ = elems base) as [E1 E2] by (by rewrite <- (IsAbs_Clean base), <- (IsAbs_Clean targ), <- (elems_Clean base), <- (elems_Clean targ), Ec).
    split; [intros _; split; [done|]; exists []; by rewrite app_nil_r|]. intros _. by exists (bs "."). }
  destruct (Bool.eqb (IsAbs base) (IsAbs targ)) eqn:Ea; cbn [negb].
  2: { apply eqb_false_iff in Ea. split; [by intros (? & ? & _)|by intros [? _]]. }
  apply eqb_prop in Ea. pose proof (elems_normal targ) as (n & names & En & Hn & Hr). split.
  - intros (r & H & Hc). split; [done|]. clear Hr.
    destruct (strip_common_spec (elems base) (match elems targ with [] => if IsAbs targ then [] else [bs "."] | l => l end)) as (c & E1 & E2 & Hd).
    destruct (strip_common _ _) as [b t]. cbn [fst snd] in *. destruct b as [|e b].
    2: { exfalso. destruct t as [|y t]; [|destruct (decide (e = bs "..")); [done|]]; apply (inj Some) in H; subst r;
      rewrite fmap_cons, <- app_comm_cons, climbs_up in Hc; discriminate. }
    rewrite app_nil_r in E1. apply (inj Some) in H. subst r. rewrite fmap_nil, app_nil_l in Hc.
    destruct (elems targ) as [|x l] eqn:Et.
    + exfalso. destruct (IsAbs targ) eqn:Eat; [|destruct c as [|? c]].
      * destruct c; [|done]. apply Ec. unfold Clean. by rewrite Et, E1, Ea, Eat.
      * apply Ec. unfold Clean. by rewrite Et, E1, Ea, Eat.
      * injection E2 as <- E2. destruct c; [|done]. pose proof (normal_nonnil _ _ (elems_normal base)) as Hb.
        rewrite E1 in Hb. apply Forall_inv in Hb. naive_solver.
    + exists t. rewrite E2, E1. split; [done|]. destruct t as [|y t]; [done|]. rewrite E2 in En.
      destruct (decide (length c < n)) as [Hlt|Hge].
      * exfalso. assert (y = bs "..") as ->; [|by rewrite climbs_up in Hc].
        assert ((c ++ y :: t) !! length c = Some y) as Hl by (rewrite lookup_app_r, Nat.sub_diag by lia; done).
        rewrite En, lookup_app_l in Hl by (by rewrite length_replicate). by apply lookup_replicate in Hl as [-> _].
      * assert (y :: t = drop (length c - n) names) as ->.
        { rewrite <- (drop_app_length c (y :: t)), En, drop_app, length_replicate, (drop_ge (replicate _ _)) by (rewrite length_replicate; lia). done. }
        by apply Forall_drop.
  - intros [_ (rest & Et & Hrest)].
    assert (match elems targ with [] => if IsAbs targ then [] else [bs "."] | l => l end = elems targ) as ->.
    { destruct (elems targ) as [|x l] eqn:Etg; [|done]. exfalso. symmetry in Et. apply app_eq_nil in Et as [Eb _].
      apply Ec. unfold Clean. by rewrite Etg, Eb, Ea. }
    rewrite Et, strip_common_app. exists (join slash rest). split; [done|]. by apply climbs_names.
Qed.
