(* ===== verification/PathPat.v ===== *)
(** * PathPat

    [internal/pathpat/pathpat.go]: the patterns of query files.  [Compile]
    parses one, [Walk] expands it against a directory, and [MaxRef] and
    [Substitute] put the captured texts into an output path.  [path.Match] is
    an argument, and so is the file system; the walker's mutable fields are a
    state, its two mutually recursive methods two handlers that take the
    recursive call. *)

From S2P Require Import Prelude Diagnostics ScanDirectives GoPath.

(** ** Patterns *)

Record segment := mkSeg { sg_glob : bytes; sg_literal : bool; sg_recursive : bool }.
Record capture := mkCap { cap_start : nat; cap_end : nat }.
Record Pattern := mkPattern { p_raw : bytes; p_segs : list segment; p_caps : list capture }.

Definition contains (c : ascii) (s : bytes) : bool := bool_decide (c ∈ s).
(** [strings.TrimPrefix] and [strings.TrimSuffix] of one byte. *)
Definition trim_first (c : ascii) (s : bytes) : bytes :=
  match s with d :: s' => if (d =b c)%char then s' else s | [] => [] end.
Definition ends_with (c : ascii) (s : bytes) : bool := match rev s with d :: _ => (d =b c)%char | [] => false end.
Definition trim_last (c : ascii) (s : bytes) : bytes := if ends_with c s then removelast s else s.
Definition starts_with (c : ascii) (s : bytes) : bool := match s with d :: _ => (d =b c)%char | [] => false end.

Definition msg (format : string) (args : list bytes) : Arg := ASprintf (bs format) (AStr <$> args).

Section compile.
(** [path.Match]; [None] is [ErrBadPattern]. *)
Context (Match : bytes -> bytes -> option bool).

(** The segments and captures so far, and the index of the open group. *)
Record compileState := mkCompile { cs_segs : list segment; cs_caps : list capture; cs_open : option nat }.

Definition recursive_glob : bytes := bs "**".

(** The checks of one segment without its parentheses. *)
Definition check_seg (pat raw seg : bytes) : option Arg :=
  if contains "(" seg || contains ")" seg then
    Some (msg "pattern %q puts a capture boundary inside a path segment: `(`…`)` must span whole segments, e.g. (a/b)/*.sql" [pat])
  else if bool_decide (seg = []) then Some (msg "pattern %q has an empty path segment" [pat])
  else if bool_decide (seg = bs "." \/ seg = bs "..") then
    Some (msg "pattern %q contains a %q segment: query patterns must stay inside the project directory" [pat; seg])
  else if (match bytes_index recursive_glob seg with Some _ => true | None => false end) && negb (bool_decide (seg = recursive_glob)) then
    Some (msg "pattern %q mixes `**` with other characters in one segment: `**` must occupy a whole segment (it matches zero or more of them); use `*` to match within a segment" [pat])
  else match Match seg (bs "x") with
       | None => Some (msg "pattern %q has a malformed segment %q: %v" [pat; raw; bs "syntax error in pattern"])
       | Some _ => None
       end.

Definition newSegment (seg : bytes) : segment :=
  mkSeg seg (negb (contains "*" seg || contains "?" seg || contains "[" seg)) (bool_decide (seg = recursive_glob)).

Definition compile_seg (pat : bytes) (st : compileState) (raw : bytes) : result Arg compileState :=
  let i := length (cs_segs st) in
  let opened := match cs_open st with Some _ => true | None => false end in
  if starts_with "(" raw && opened then
    Err (msg "pattern %q nests capture groups: `(`…`)` may not contain another `(`" [pat])
  else if contains "(" (trim_first "(" raw) || contains ")" (trim_last ")" raw) then
    Err (msg "pattern %q puts a capture boundary inside a path segment: `(`…`)` must span whole segments, e.g. (a/b)/*.sql" [pat])
  else
    let open_ := if starts_with "(" raw then Some i else cs_open st in
    let seg := trim_first "(" raw in
    let closes := ends_with ")" seg in
    match closes, open_ with
    | true, None => Err (msg "pattern %q has a `)` with no matching `(`" [pat])
    | _, _ =>
        let seg := trim_last ")" seg in
        match check_seg pat raw seg with
        | Some e => Err e
        | None =>
            let segs := cs_segs st ++ [newSegment seg] in
            match closes, open_ with
            | true, Some o => Ok (mkCompile segs (cs_caps st ++ [mkCap o (S i)]) None)
            | _, _ => Ok (mkCompile segs (cs_caps st) open_)
            end
        end
    end.

Definition Compile (pat : bytes) : result Arg Pattern :=
  if bool_decide (pat = []) then Err (msg "pattern is empty" [])
  else if IsAbs pat || HasPrefix pat slash then
    Err (msg "pattern %q is absolute: query patterns are project-relative so a cloned repository cannot read files outside it" [pat])
  else
    let! st := rfold (compile_seg pat) (mkCompile [] [] None) (split_byte "/" (Clean pat)) in
    match cs_open st with
    | Some _ => Err (msg "pattern %q has an unclosed capture group" [pat])
    | None => Ok (mkPattern pat (cs_segs st) (cs_caps st))
    end.

Definition NumCaptures (p : Pattern) : nat := length (p_caps p).

(** ** Walk *)

Record PathMatch := mkMatch { m_path : bytes; m_captures : list bytes }.
Record WalkResult := mkWalk { Matches : list PathMatch; Dirs : list bytes }.

Record walker := mkWalker {
  w_names : list bytes;
  w_starts : list nat; w_ends : list nat;
  w_matches : list PathMatch; w_emitted : gset bytes;
  w_dirs : list bytes; w_seenDir : gset bytes;
  w_visited : gset bytes; w_budget : nat;
}.

Definition set_names (l : list bytes) (w : walker) : walker :=
  mkWalker l (w_starts w) (w_ends w) (w_matches w) (w_emitted w) (w_dirs w) (w_seenDir w) (w_visited w) (w_budget w).
Definition set_start (si i : nat) (w : walker) : walker :=
  mkWalker (w_names w) (<[si := i]> (w_starts w)) (w_ends w) (w_matches w) (w_emitted w) (w_dirs w) (w_seenDir w) (w_visited w) (w_budget w).
Definition set_end (si i : nat) (w : walker) : walker :=
  mkWalker (w_names w) (w_starts w) (<[si := i]> (w_ends w)) (w_matches w) (w_emitted w) (w_dirs w) (w_seenDir w) (w_visited w) (w_budget w).
Definition set_visited (v : gset bytes) (w : walker) : walker :=
  mkWalker (w_names w) (w_starts w) (w_ends w) (w_matches w) (w_emitted w) (w_dirs w) (w_seenDir w) v (w_budget w).
Definition set_budget (n : nat) (w : walker) : walker :=
  mkWalker (w_names w) (w_starts w) (w_ends w) (w_matches w) (w_emitted w) (w_dirs w) (w_seenDir w) (w_visited w) n.

(** The error of [spend]; an index out of range; fuel that runs out. *)
Inductive walkStop := WalkBudget | WalkPanic | WalkFuel.

Definition prunedDirs : list bytes := bs <$> [".git"; "node_modules"; "vendor"]%string.
Definition pruned (name : bytes) : bool := bool_decide (name ∈ prunedDirs) || starts_with "." name.

Definition walk_join (dir name : bytes) : bytes := match dir with [] => name | _ => dir ++ slash ++ name end.

(** The two recursive methods, as calls. *)
Inductive call := CMatch (si : nat) (dir : bytes) | CStar (si : nat) (dir : bytes) (last : bool).

Section walk.
Context (fs : FS) (maxWalkEntries : nat) (root realRoot : bytes) (pat : Pattern).

Definition walk_abs (rel : bytes) : bytes := match rel with [] => root | _ => Join [root; rel] end.

Definition noteDir (rel : bytes) (w : walker) : walker :=
  if bool_decide (rel ∈ w_seenDir w) then w
  else mkWalker (w_names w) (w_starts w) (w_ends w) (w_matches w) (w_emitted w) (w_dirs w ++ [rel]) ({[rel]} ∪ w_seenDir w)
         (w_visited w) (w_budget w).

Definition spend (n : nat) (w : walker) : result walkStop walker :=
  let b := w_budget w + n in
  if Nat.ltb maxWalkEntries b then Err WalkBudget else Ok (set_budget b w).

Definition readDir (rel : bytes) (w : walker) : result walkStop (list DirEntry * walker) :=
  let w := noteDir rel w in
  match ReadDir fs (walk_abs rel) with
  | None => Ok ([], w)
  | Some entries => let! w := spend (length entries) w in Ok (entries, w)
  end.

(** The key of a directory the walk may descend into. *)
Definition dir_key (rel : bytes) : option bytes :=
  match Lstat fs (walk_abs rel) with
  | Some FSymlink =>
      if decide (Stat fs (walk_abs rel) = Some FDir) then
        Some (match EvalSymlinks fs (walk_abs rel) with Some real => real | None => Join [realRoot; rel] end)
      else None
  | Some FDir => Some (Join [realRoot; rel])
  | _ => None
  end.

Definition enterDir (rel : bytes) (w : walker) : option (bytes * walker) :=
  match dir_key rel with
  | Some key => if bool_decide (key ∈ w_visited w) then None else Some (key, set_visited ({[key]} ∪ w_visited w) w)
  | None => None
  end.
Definition leaveDir (key : bytes) (w : walker) : walker := set_visited (w_visited w ∖ {[key]}) w.

Definition isDir (rel : bytes) : bool := bool_decide (Stat fs (walk_abs rel) = Some FDir).

(** The text of a capture: the names its segments consumed. *)
Definition capture_text (names : list bytes) (starts ends : list nat) (c : capture) : bytes :=
  let lo := starts !!! cap_start c in
  let hi := ends !!! (cap_end c - 1) in
  join slash (take (Nat.max lo hi - lo) (drop lo names)).

Definition emit (rel : bytes) (w : walker) : walker :=
  if bool_decide (rel ∈ w_emitted w) then w
  else
    mkWalker (w_names w) (w_starts w) (w_ends w)
      (w_matches w ++ [mkMatch rel (capture_text (w_names w) (w_starts w) (w_ends w) <$> p_caps pat)])
      ({[rel]} ∪ w_emitted w) (w_dirs w) (w_seenDir w) (w_visited w) (w_budget w).

Section handlers.
Context (rec : call -> walker -> result walkStop walker).

(** An entry of the directory a glob segment is matched in. *)
Definition match_entry (si : nat) (dir glob : bytes) (last : bool) (w : walker) (e : DirEntry) : result walkStop walker :=
  match Match glob (EName e) with
  | Some true =>
      let rel := walk_join dir (EName e) in
      let w := set_names (take (w_starts w !!! si) (w_names w) ++ [EName e]) w in
      let w := set_end si (length (w_names w)) w in
      if last then
        Ok (if bool_decide (EType e = FRegular) || (negb (bool_decide (EType e = FDir)) && negb (isDir rel)) then emit rel w else w)
      else
        match enterDir rel w with
        | None => Ok w
        | Some (key, w) => let! w := rec (CMatch (S si) rel) w in Ok (leaveDir key w)
        end
  | _ => Ok w
  end.

Definition match_ (si : nat) (dir : bytes) (w : walker) : result walkStop walker :=
  let! s := or_err (p_segs pat !! si) WalkPanic in
  let last := Nat.eqb (S si) (length (p_segs pat)) in
  let w := set_start si (length (w_names w)) w in
  if sg_recursive s then rec (CStar si dir last) w
  else
    let! w :=
      if sg_literal s then
        let! w := spend 1 (noteDir dir w) in
        let rel := walk_join dir (sg_glob s) in
        let w := set_names (w_names w ++ [sg_glob s]) w in
        let w := set_end si (length (w_names w)) w in
        if last then Ok (if isDir rel then w else emit rel w)
        else match enterDir rel w with
             | None => Ok w
             | Some (key, w) => let! w := rec (CMatch (S si) rel) w in Ok (leaveDir key w)
             end
      else
        let! '(entries, w) := readDir dir w in
        rfold (match_entry si dir (sg_glob s) last) w entries in
    Ok (set_names (take (w_starts w !!! si) (w_names w)) w).

(** A file of the directory a final [**] has reached. *)
Definition star_file (si : nat) (dir : bytes) (w : walker) (e : DirEntry) : walker :=
  if bool_decide (EType e = FDir) then w
  else
    let rel := walk_join dir (EName e) in
    if negb (bool_decide (EType e = FRegular)) && isDir rel then w
    else
      let w := set_names (w_names w ++ [EName e]) w in
      let w := emit rel (set_end si (length (w_names w)) w) in
      let w := set_names (take (length (w_names w) - 1) (w_names w)) w in
      set_end si (length (w_names w)) w.

(** A directory [**] may go on in. *)
Definition star_dir (si : nat) (dir : bytes) (last : bool) (w : walker) (e : DirEntry) : result walkStop walker :=
  if negb (bool_decide (EType e = FDir)) && negb (bool_decide (EType e = FSymlink)) then Ok w
  else if pruned (EName e) then Ok w
  else
    let rel := walk_join dir (EName e) in
    match enterDir rel w with
    | None => Ok w
    | Some (key, w) =>
        let! w := rec (CStar si rel last) (set_names (w_names w ++ [EName e]) w) in
        let w := set_names (take (length (w_names w) - 1) (w_names w)) w in
        Ok (leaveDir key (set_end si (length (w_names w)) w))
    end.

Definition matchStar (si : nat) (dir : bytes) (last : bool) (w : walker) : result walkStop walker :=
  let w := set_end si (length (w_names w)) w in
  let! w :=
    if last then let! '(entries, w) := readDir dir w in Ok (foldl (star_file si dir) w entries)
    else rec (CMatch (S si) dir) w in
  let! '(entries, w) := readDir dir w in
  rfold (star_dir si dir last) w entries.
End handlers.

Fixpoint run (fuel : nat) (c : call) (w : walker) : result walkStop walker :=
  match fuel with
  | O => Err WalkFuel
  | S f => match c with
           | CMatch si dir => match_ (run f) si dir w
           | CStar si dir last => matchStar (run f) si dir last w
           end
  end.

Definition newWalker : walker :=
  mkWalker [] (replicate (length (p_segs pat)) 0) (replicate (length (p_segs pat)) 0) [] ∅ [] ∅ ∅ 0.

(** A call spends an entry or goes on to the next segment. *)
Definition walk_fuel : nat := maxWalkEntries + 2 * length (p_segs pat) + 2.
End walk.

Definition path_less (a b : PathMatch) : bool := bytes_ltb (m_path a) (m_path b).

(** [Pattern.Walk] *)
Definition Walk (fs : FS) (maxWalkEntries : nat) (p : Pattern) (root : bytes) : result walkStop WalkResult :=
  let realRoot := match EvalSymlinks fs root with Some r => r | None => Clean root end in
  let! w := run fs maxWalkEntries root realRoot p (walk_fuel maxWalkEntries p) (CMatch 0 []) (newWalker p) in
  Ok (mkWalk (SliceStable path_less (w_matches w)) (SliceStable bytes_ltb (w_dirs w))).
End compile.

(** ** References *)

Definition refErr (format : string) (s : bytes) : Arg := msg format [s].

(** [parseRef] at the rest of the string after a dollar: the group, 0 for the
    escape, and the rest after the reference. *)
Definition parseRef (s rest : bytes) : result Arg (nat * bytes) :=
  let malformed := refErr "%q has a malformed capture reference: use $1…$9 (or ${1}), and `$$` for a literal dollar sign" s in
  let number (l : bytes) : result Arg (nat * bytes) :=
    match l with
    | d :: l' => if ("1" <=b d) && (d <=b "9") then Ok (N.to_nat (N_of_ascii d - 48), l') else Err malformed
    | [] => Err malformed
    end%char in
  match rest with
  | [] => Err (refErr "%q ends with a bare `$`: write `$$` for a literal dollar sign" s)
  | c :: rest' =>
      if (c =b "$")%char then Ok (0, rest')
      else if (c =b "{")%char then
        let! '(n, l) := number rest' in
        match l with
        | d :: l' => if (d =b "}")%char then Ok (n, l') else Err (refErr "%q has an unclosed `${`" s)
        | [] => Err (refErr "%q has an unclosed `${`" s)
        end
      else number rest
  end.

(** The loops of [MaxRef] and [Substitute]; fuel: each round consumes a byte. *)
Fixpoint maxRef_loop (fuel : nat) (s rest : bytes) (max : nat) : result Arg nat :=
  match fuel, rest with
  | _, [] | O, _ => Ok max
  | S f, c :: rest' =>
      if (c =b "$")%char then
        let! '(n, rest'') := parseRef s rest' in
        maxRef_loop f s rest'' (if Nat.ltb max n then n else max)
      else maxRef_loop f s rest' max
  end.
Definition MaxRef (s : bytes) : result Arg nat := maxRef_loop (length s) s s 0.

Fixpoint substitute_loop (fuel : nat) (s : bytes) (captures : list bytes) (rest out : bytes) : result Arg bytes :=
  match fuel, rest with
  | _, [] | O, _ => Ok out
  | S f, c :: rest' =>
      if (c =b "$")%char then
        let! '(n, rest'') := parseRef s rest' in
        match n with
        | O => substitute_loop f s captures rest'' (out ++ ["$"%char])
        | S i =>
            match captures !! i with
            | Some t => substitute_loop f s captures rest'' (out ++ t)
            | None => Err (ASprintf (bs "$%d has no capture group (the pattern declares %d)")
                             [AInt (Z.of_nat n); AInt (Z.of_nat (length captures))])
            end
        end
      else substitute_loop f s captures rest' (out ++ [c])
  end.
Definition Substitute (s : bytes) (captures : list bytes) : result Arg bytes := substitute_loop (length s) s captures s [].

(** ** PathDemo

    A small project directory with a cyclic symbolic link, and a matcher of
    one-star globs: concrete file system and [path.Match] for the instances of
    the theorems on patterns and targets. *)

(** What the paths of the project are; a link goes to its directory. *)
Inductive demo_node := DemoDir (entries : list DirEntry) | DemoFile | DemoLink (target : bytes).

Definition demo_tree : list (bytes * demo_node) :=
  [ (bs "/", DemoDir [mkDirEntry (bs "p") FDir]);
    (bs "/p", DemoDir [mkDirEntry (bs "db") FDir; mkDirEntry (bs "q") FDir; mkDirEntry (bs "out") FSymlink]);
    (bs "/p/db", DemoDir [mkDirEntry (bs "schema.sql") FRegular]);
    (bs "/p/db/schema.sql", DemoFile);
    (bs "/p/q", DemoDir [mkDirEntry (bs "a") FDir; mkDirEntry (bs "b") FDir; mkDirEntry (bs "top.sql") FRegular]);
    (bs "/p/q/top.sql", DemoFile);
    (bs "/p/q/a", DemoDir [mkDirEntry (bs "notes.txt") FRegular; mkDirEntry (bs "x.sql") FRegular]);
    (bs "/p/q/a/notes.txt", DemoFile);
    (bs "/p/q/a/x.sql", DemoFile);
    (bs "/p/q/b", DemoDir [mkDirEntry (bs "loop") FSymlink; mkDirEntry (bs "z.sql") FRegular]);
    (bs "/p/q/b/z.sql", DemoFile);
    (bs "/p/q/b/loop", DemoLink (bs "/p/q"));
    (bs "/p/out", DemoLink (bs "/etc"));
    (bs "/etc", DemoDir []) ].

Section tree.
Context (tree : list (bytes * demo_node)).

Definition demo_at (p : bytes) : option demo_node :=
  snd <$> list_find (fun q => q.1 = p) tree ≫= fun x => Some x.2.

Definition demo_step (at_ : option bytes) (name : bytes) : option bytes :=
  dir ← at_;
  let child := (if bool_decide (dir = slash) then [] else dir) ++ slash ++ name in
  match demo_at child with
  | Some (DemoLink target) => Some target
  | Some _ => Some child
  | None => None
  end.
Definition demo_real (p : bytes) : option bytes := foldl demo_step (Some slash) (elems p).

Definition demo_type (p : bytes) : option FileType :=
  match demo_at p with
  | Some (DemoDir _) => Some FDir | Some DemoFile => Some FRegular | Some (DemoLink _) => Some FSymlink | None => None
  end.

Definition tree_fs : FS := {|
  ReadDir p := match demo_real p ≫= demo_at with Some (DemoDir es) => Some es | _ => None end;
  Lstat p := dir ← demo_real (Dir p);
    demo_type ((if bool_decide (dir = slash) then [] else dir) ++ slash ++ Base p);
  Stat p := demo_real p ≫= demo_type;
  EvalSymlinks p := demo_real p;
|}.
End tree.
Definition demo_fs : FS := tree_fs demo_tree.

(** A literal, or a star and a suffix. *)
Definition demo_match (pat name : bytes) : option bool :=
  match pat with
  | "*"%char :: suffix => Some (HasSuffix name suffix)
  | _ => Some (bool_decide (pat = name))
  end.

Definition demo_pattern (s : string) : Pattern :=
  match Compile demo_match (bs s) with Ok p => p | Err _ => mkPattern [] [] [] end.

Example demo_walk : m_path <$> from_option Matches [] (match Walk demo_match demo_fs 100 (demo_pattern "q/**/*.sql") (bs "/p") with Ok r => Some r | Err _ => None end)
  = bs <$> ["q/a/x.sql"; "q/b/z.sql"; "q/top.sql"]%string.
Proof. vm_compute. reflexivity. Qed.
