(* ===== verification/PathPatCompile.v ===== *)
(** * PathPatCompile

    [Compile] is the parser of a grammar: whole segments with groups around
    runs of them; and [Substitute] succeeds exactly on the references [MaxRef]
    admits. *)

From S2P Require Import Prelude Diagnostics ScanDirectives GoPath PathPat.

Section grammar.
Context (Match : bytes -> bytes -> option bool).

(** What a segment may be. *)
Definition seg_ok (g : bytes) : Prop :=
  g <> [] /\ g <> bs "." /\ g <> bs ".." /\ avoids_slash g /\ "("%char ∉ g /\ ")"%char ∉ g /\
  (is_Some (bytes_index recursive_glob g) -> g = recursive_glob) /\ is_Some (Match g (bs "x")).

(** Groups are not empty, in order, and apart. *)
Fixpoint groups (lo : nat) (caps : list capture) (hi : nat) : Prop :=
  match caps with
  | [] => lo <= hi
  | c :: caps' => lo <= cap_start c < cap_end c /\ groups (cap_end c) caps' hi
  end.

Definition opens (caps : list capture) (i : nat) : bool := existsb (fun c => Nat.eqb (cap_start c) i) caps.
Definition closes (caps : list capture) (i : nat) : bool := existsb (fun c => Nat.eqb (cap_end c) (S i)) caps.

(** A segment with its parentheses. *)
Definition marked (b c : bool) (g : bytes) : bytes := (if b then bs "(" else []) ++ g ++ (if c then bs ")" else []).

Definition unparse (p : Pattern) : bytes :=
  join slash (imap (fun i s => marked (opens (p_caps p) i) (closes (p_caps p) i) (sg_glob s)) (p_segs p)).

Record wf_pattern (p : Pattern) : Prop := {
  wp_segs : Forall (fun s => seg_ok (sg_glob s) /\ s = newSegment (sg_glob s)) (p_segs p);
  wp_caps : groups 0 (p_caps p) (length (p_segs p));
  wp_some : p_segs p <> [];
}.

(** ** One segment *)

Lemma ends_with_app c s : ends_with c (s ++ [c]) = true.
Proof. unfold ends_with. rewrite rev_app_distr. cbn. apply Ascii.eqb_refl. Qed.

Lemma ends_with_spec c s : ends_with c s = true -> exists s', s = s' ++ [c].
Proof.
  unfold ends_with. destruct (rev s) as [|d r] eqn:E; [done|]. intros H%Ascii.eqb_eq. subst d.
  exists (rev r). rewrite <- (rev_involutive s), E. done.
Qed.

Lemma ends_with_not c s : c ∉ s -> ends_with c s = false.
Proof. intros H. apply not_true_iff_false. intros [s' ->]%ends_with_spec. set_solver. Qed.

Lemma contains_false c s : contains c s = false <-> c ∉ s.
Proof. apply bool_decide_eq_false. Qed.

Lemma trim_last_app c s : trim_last c (s ++ [c]) = s.
Proof. unfold trim_last. rewrite ends_with_app. apply removelast_last. Qed.

Lemma trim_last_not c s : c ∉ s -> trim_last c s = s.
Proof. intros H. unfold trim_last. by rewrite ends_with_not. Qed.

Lemma trim_first_not c s : c ∉ s -> trim_first c s = s.
Proof. intros H. destruct s as [|d s]; [done|]. cbn. destruct (Ascii.eqb_spec d c); [set_solver|done]. Qed.

Lemma starts_with_not c s : c ∉ s -> starts_with c s = false.
Proof. intros H. destruct s as [|d s]; [done|]. cbn. destruct (Ascii.eqb_spec d c); [set_solver|done]. Qed.

Lemma check_seg_spec pat raw g : avoids_slash g -> check_seg Match pat raw g = None <-> seg_ok g.
Proof.
  intros Hs. unfold check_seg, seg_ok. rewrite <- !contains_false.
  destruct (contains "(" g), (contains ")" g); cbn [orb]; try naive_solver.
  case_bool_decide as E1; [naive_solver|]. case_bool_decide as E2; [naive_solver|].
  destruct (bytes_index recursive_glob g) as [k|]; cbn [andb]; [|destruct (Match g (bs "x")); naive_solver].
  case_bool_decide as E3; cbn [negb]; destruct (Match g (bs "x")); naive_solver.
Qed.

(** The state after a segment with its marks. *)
Definition next (st : compileState) (b c : bool) (g : bytes) : compileState :=
  let i := length (cs_segs st) in
  let o := if b then Some i else cs_open st in
  match c, o with
  | true, Some o => mkCompile (cs_segs st ++ [newSegment g]) (cs_caps st ++ [mkCap o (S i)]) None
  | _, _ => mkCompile (cs_segs st ++ [newSegment g]) (cs_caps st) o
  end.

Definition marks_ok (st : compileState) (b c : bool) : Prop :=
  (b = true -> cs_open st = None) /\ (c = true -> b = true \/ is_Some (cs_open st)).

Lemma compile_seg_marked pat st b c g : seg_ok g -> marks_ok st b c ->
  compile_seg Match pat st (marked b c g) = Ok (next st b c g).
Proof.
  intros Hg [Hb Hc]. pose proof Hg as (_ & _ & _ & Hs & H1 & H2 & _).
  assert (trim_first "(" (marked b c g) = g ++ (if c then bs ")" else [])) as E1.
  { unfold marked. destruct b; [done|]. apply trim_first_not. destruct c; [|by rewrite app_nil_r]. cbn. set_solver. }
  assert (trim_last ")" (marked b c g) = (if b then bs "(" else []) ++ g) as E2.
  { unfold marked. destruct c; [rewrite app_assoc; apply trim_last_app|]. rewrite app_nil_r. apply trim_last_not. destruct b; cbn; set_solver. }
  assert (ends_with ")" (g ++ (if c then bs ")" else [])) = c) as E3.
  { destruct c; [apply ends_with_app|]. rewrite app_nil_r. by apply ends_with_not. }
  assert (trim_last ")" (g ++ (if c then bs ")" else [])) = g) as E4.
  { destruct c; [apply trim_last_app|]. rewrite app_nil_r. by apply trim_last_not. }
  assert (starts_with "(" (marked b c g) = b) as E5.
  { unfold marked. destruct b; [done|]. apply starts_with_not. destruct c; [|by rewrite app_nil_r]. cbn. set_solver. }
  unfold compile_seg. rewrite E1, E2, E3, E4, E5. cbv zeta.
  rewrite (proj2 (contains_false "(" (g ++ _))) by (destruct c; [cbn|rewrite app_nil_r]; set_solver).
  rewrite (proj2 (contains_false ")" (_ ++ g))) by (destruct b; cbn; set_solver).
  rewrite (proj2 (check_seg_spec pat _ g Hs) Hg). unfold next. cbn [orb].
  destruct b; cbn [andb]; [rewrite (Hb eq_refl)|]; destruct c, (cs_open st); try done. exfalso. destruct (Hc eq_refl) as [|[? ?]]; done.
Qed.

Lemma trim_last_cases c s : (exists s', s = s' ++ [c] /\ trim_last c s = s' /\ ends_with c s = true) \/ (trim_last c s = s /\ ends_with c s = false).
Proof.
  destruct (ends_with c s) eqn:E.
  - left. apply ends_with_spec in E as [s' ->]. exists s'. split_and!; [done|apply trim_last_app|done].
  - right. unfold trim_last. by rewrite E.
Qed.

Lemma trim_first_cases c s : (exists s', s = c :: s' /\ trim_first c s = s' /\ starts_with c s = true) \/ (trim_first c s = s /\ starts_with c s = false).
Proof.
  destruct s as [|d s]; [by right|]. cbn. destruct (Ascii.eqb_spec d c) as [->|]; [left; eauto|by right].
Qed.

Lemma compile_seg_spec pat st raw st' : avoids_slash raw -> compile_seg Match pat st raw = Ok st' ->
  exists b c g, raw = marked b c g /\ seg_ok g /\ marks_ok st b c /\ st' = next st b c g.
Proof.
  intros Hs H. assert (exists b c g, raw = marked b c g /\ seg_ok g /\ marks_ok st b c) as (b & c & g & -> & Hg & Hm).
  2: { exists b, c, g. split_and!; [done..|]. rewrite compile_seg_marked in H by done. congruence. }
  unfold compile_seg in H. cbv zeta in H.
  destruct (trim_first_cases "(" raw) as [(r & -> & E1 & E2)|[E1 E2]]; rewrite E1, E2 in H; cbn [andb] in H.
  - destruct (cs_open st) as [o|] eqn:Eo; [done|].
    destruct (contains "(" r || contains ")" (trim_last ")" ("("%char :: r))) eqn:Ec; [done|]. clear Ec.
    destruct (trim_last_cases ")" r) as [(g & -> & F1 & F2)|[F1 F2]]; rewrite F1, F2 in H.
    + destruct (check_seg Match pat _ g) eqn:Eg; [done|]. apply check_seg_spec in Eg; [|unfold avoids_slash in *; set_solver].
      exists true, true, g. split_and!; [done|done|by split; [|by left]].
    + destruct (check_seg Match pat _ r) eqn:Eg; [done|]. apply check_seg_spec in Eg; [|unfold avoids_slash in *; set_solver].
      exists true, false, r. split_and!; [by unfold marked; rewrite app_nil_r|done|by split].
  - destruct (contains "(" raw || contains ")" (trim_last ")" raw)) eqn:Ec; [done|]. clear Ec.
    destruct (trim_last_cases ")" raw) as [(g & -> & F1 & F2)|[F1 F2]]; rewrite F1, F2 in H.
    + destruct (cs_open st) as [o|] eqn:Eo; [|done]. destruct (check_seg Match pat _ g) eqn:Eg; [done|].
      apply check_seg_spec in Eg; [|unfold avoids_slash in *; set_solver].
      exists false, true, g. split_and!; [done|done|]. split; [done|]. rewrite Eo. by right.
    + destruct (check_seg Match pat _ raw) eqn:Eg; [destruct (cs_open st); done|]. apply check_seg_spec in Eg; [|done].
      exists false, false, raw. split_and!; [by unfold marked; rewrite app_nil_r|done|by split].
Qed.

(** ** The loop *)

Lemma groups_bound lo caps hi c : groups lo caps hi -> c ∈ caps -> lo <= cap_start c /\ cap_start c < cap_end c /\ cap_end c <= hi.
Proof.
  revert lo. induction caps as [|d caps IH]; intros lo Hg Hc; [set_solver|]. destruct Hg as [Hd Hg].
  apply elem_of_cons in Hc as [->|Hc]; [|specialize (IH _ Hg Hc); lia].
  assert (cap_end d <= hi); [|lia]. clear -Hg. revert Hg. generalize (cap_end d). induction caps as [|c caps IH]; intros n; cbn; [done|].
  intros [? H%IH]. lia.
Qed.

Lemma groups_hi lo caps hi hi' : groups lo caps hi -> hi <= hi' -> groups lo caps hi'.
Proof. revert lo. induction caps as [|c caps IH]; intros lo; cbn; [lia|]. intros [? ?] ?. by split; [|apply IH]. Qed.

Lemma groups_snoc lo caps m s e : groups lo caps m -> m <= s < e -> groups lo (caps ++ [mkCap s e]) e.
Proof. revert lo. induction caps as [|c caps IH]; intros lo; cbn; [lia|]. intros [? ?] ?. by split; [|apply IH]. Qed.

Lemma opens_spec caps i : opens caps i = true <-> exists c, c ∈ caps /\ cap_start c = i.
Proof. unfold opens. rewrite existsb_exists. by setoid_rewrite list_elem_of_In; setoid_rewrite Nat.eqb_eq. Qed.
Lemma closes_spec caps i : closes caps i = true <-> exists c, c ∈ caps /\ cap_end c = S i.
Proof. unfold closes. rewrite existsb_exists. by setoid_rewrite list_elem_of_In; setoid_rewrite Nat.eqb_eq. Qed.

Lemma opens_out lo caps hi i : groups lo caps hi -> i < lo \/ hi <= i -> opens caps i = false.
Proof. intros Hg Hi. apply not_true_iff_false. intros (c & Hc & <-)%opens_spec. pose proof (groups_bound _ _ _ _ Hg Hc). lia. Qed.
Lemma closes_out lo caps hi i : groups lo caps hi -> i < lo \/ hi <= i -> closes caps i = false.
Proof. intros Hg Hi. apply not_true_iff_false. intros (c & Hc & E)%closes_spec. pose proof (groups_bound _ _ _ _ Hg Hc). lia. Qed.

Lemma opens_app caps s e i : opens (caps ++ [mkCap s e]) i = opens caps i || Nat.eqb s i.
Proof. unfold opens. rewrite existsb_app. cbn. by rewrite orb_false_r. Qed.
Lemma closes_app caps s e i : closes (caps ++ [mkCap s e]) i = closes caps i || Nat.eqb e (S i).
Proof. unfold closes. rewrite existsb_app. cbn. by rewrite orb_false_r. Qed.

(** What the state says of the segments read so far. *)
Definition open_at (st : compileState) (i : nat) : bool := match cs_open st with Some o => Nat.eqb o i | None => false end.

Record cs_inv (raws : list bytes) (st : compileState) : Prop := {
  ci_raws : raws = imap (fun i s => marked (opens (cs_caps st) i || open_at st i) (closes (cs_caps st) i) (sg_glob s)) (cs_segs st);
  ci_segs : Forall (fun s => seg_ok (sg_glob s) /\ s = newSegment (sg_glob s)) (cs_segs st);
  ci_caps : match cs_open st with
            | None => groups 0 (cs_caps st) (length (cs_segs st))
            | Some o => groups 0 (cs_caps st) o /\ o < length (cs_segs st)
            end;
}.

Lemma cs_inv_caps raws st : cs_inv raws st -> groups 0 (cs_caps st) (length (cs_segs st)).
Proof. intros [_ _ H]. destruct (cs_open st); [|done]. eapply groups_hi; [apply H|lia]. Qed.

Lemma cs_inv_open raws st i : cs_inv raws st -> length (cs_segs st) <= i -> open_at st i = false.
Proof. intros [_ _ H] Hi. unfold open_at. destruct (cs_open st); [|done]. apply Nat.eqb_neq. lia. Qed.

(** The marks of a segment do not change once it is read. *)
Lemma next_marks raws st b c g i : cs_inv raws st -> marks_ok st b c -> i <= length (cs_segs st) ->
  (opens (cs_caps (next st b c g)) i || open_at (next st b c g) i = if Nat.eqb i (length (cs_segs st)) then b else opens (cs_caps st) i || open_at st i) /\
  (closes (cs_caps (next st b c g)) i = if Nat.eqb i (length (cs_segs st)) then c else closes (cs_caps st) i).
Proof.
  intros Hinv [Hb Hc] Hi. pose proof (cs_inv_caps _ _ Hinv) as Hg. set (n := length (cs_segs st)) in *.
  assert (i = n -> opens (cs_caps st) i = false /\ closes (cs_caps st) i = false /\ open_at st i = false) as Hn.
  { intros ->. split_and!; [by eapply opens_out; [|right]|by eapply closes_out; [|right]|by eapply cs_inv_open]. }
  assert (open_at st i = match cs_open st with Some o => Nat.eqb o i | None => false end) as Eo by done.
  unfold next. cbv zeta. fold n. destruct (Nat.eqb_spec i n) as [->|Hne].
  - destruct (Hn eq_refl) as (N1 & N2 & N3). rewrite N3 in Eo. destruct c, b.
    + cbn [cs_caps]. by rewrite opens_app, closes_app, !Nat.eqb_refl, !orb_true_r.
    + destruct (Hc eq_refl) as [?|[o Ho']]; [done|]. rewrite Ho' in *. cbn [cs_caps]. rewrite opens_app, closes_app, N1, N2, Nat.eqb_refl.
      unfold open_at. cbn [cs_caps cs_open]. by rewrite <- Eo.
    + unfold open_at. cbn [cs_caps cs_open]. by rewrite N1, N2, Nat.eqb_refl.
    + destruct (cs_open st) as [o|] eqn:E; unfold open_at; cbn [cs_caps cs_open]; rewrite N1, N2, ?E; [by rewrite <- Eo|done].
  - assert (n =? i = false) as F1 by (apply Nat.eqb_neq; lia). assert (S n =? S i = false) as F2 by (apply Nat.eqb_neq; lia).
    rewrite Eo. destruct c, b.
    + cbn [cs_caps]. rewrite opens_app, closes_app, F1, F2. unfold open_at. cbn [cs_caps cs_open]. rewrite (Hb eq_refl), !orb_false_r. done.
    + destruct (Hc eq_refl) as [?|[o Ho']]; [done|]. rewrite Ho'. cbn [cs_caps]. rewrite opens_app, closes_app, F2. unfold open_at. cbn [cs_caps cs_open].
      by rewrite !orb_false_r.
    + unfold open_at. cbn [cs_caps cs_open]. rewrite F1, (Hb eq_refl). done.
    + destruct (cs_open st) as [o|] eqn:E; unfold open_at; cbn [cs_caps cs_open]; by rewrite ?E.
Qed.

Lemma next_segs st b c g : cs_segs (next st b c g) = cs_segs st ++ [newSegment g].
Proof. unfold next. cbv zeta. by destruct c, (if b then _ else cs_open st). Qed.

Lemma cs_inv_next raws st b c g : cs_inv raws st -> seg_ok g -> marks_ok st b c -> cs_inv (raws ++ [marked b c g]) (next st b c g).
Proof.
  intros Hinv Hg Hm. split.
  - rewrite next_segs, imap_app. cbn [imap]. rewrite (ci_raws _ _ Hinv) at 1. f_equal.
    + apply imap_ext. intros i s Hi. apply lookup_lt_Some in Hi.
      destruct (next_marks _ _ b c g i Hinv Hm) as [-> ->]; [lia|]. by rewrite (proj2 (Nat.eqb_neq _ _)) by lia.
    + rewrite Nat.add_0_r. destruct (next_marks _ _ b c g (length (cs_segs st)) Hinv Hm) as [-> ->]; [lia|]. by rewrite Nat.eqb_refl.
  - rewrite next_segs. apply Forall_app; split; [apply Hinv|]. by apply Forall_singleton.
  - rewrite next_segs, length_app. cbn [length]. pose proof (cs_inv_caps _ _ Hinv) as Hc. pose proof (ci_caps _ _ Hinv) as Ho.
    destruct Hm as [Hb Hcl]. unfold next. cbv zeta. rewrite Nat.add_1_r. destruct c, b.
    + cbn [cs_open cs_caps]. eapply groups_snoc; [exact Hc|lia].
    + destruct (Hcl eq_refl) as [?|[o E]]; [done|]. rewrite E in *. cbn [cs_open cs_caps]. eapply groups_snoc; [apply Ho|lia].
    + cbn [cs_open cs_caps]. split; [done|lia].
    + destruct (cs_open st) as [o|]; cbn [cs_open cs_caps]; [split; [apply Ho|lia]|]. eapply groups_hi; [exact Hc|lia].
Qed.

Lemma compile_loop_sound pat raws done_ st st' : Forall avoids_slash raws -> cs_inv done_ st ->
  rfold (compile_seg Match pat) st raws = Ok st' -> cs_inv (done_ ++ raws) st'.
Proof.
  revert done_ st. induction raws as [|raw raws IH]; intros done_ st Hs Hinv; cbn [rfold].
  { intros [= ->]. by rewrite app_nil_r. }
  inversion_clear Hs as [|? ? Hr Hrs]. destruct (compile_seg Match pat st raw) as [st1|] eqn:E; [|done]. cbn [rbind].
  apply compile_seg_spec in E as (b & c & g & -> & Hg & Hm & ->); [|done]. rewrite cons_middle, app_assoc.
  apply IH; [done|]. by apply cs_inv_next.
Qed.

(** The groups ahead, the first of them open already or not. *)
Definition ahead (open_ : option nat) (i : nat) (caps : list capture) (n : nat) : Prop :=
  match open_, caps with
  | None, _ => groups i caps n
  | Some o, c :: caps' => cap_start c = o /\ o < i < cap_end c /\ groups (cap_end c) caps' n
  | Some _, [] => False
  end.

Lemma ahead_bound open_ i caps n c : ahead open_ i caps n -> c ∈ caps -> i < cap_end c <= n.
Proof.
  destruct open_ as [o|]; cbn.
  - destruct caps as [|d caps]; [done|]. intros (E & Hi & Hg) Hc.
    assert (cap_end d <= n) by (clear -Hg; revert Hg; generalize (cap_end d); induction caps as [|c caps IH]; intros m; cbn; [done|intros [? H%IH]; lia]).
    apply elem_of_cons in Hc as [->|Hc]; [lia|]. pose proof (groups_bound _ _ _ _ Hg Hc). lia.
  - intros Hg Hc. pose proof (groups_bound _ _ _ _ Hg Hc). lia.
Qed.

Lemma ahead_step S_ C open_ caps g n : ahead open_ (length S_) caps n -> length S_ < n ->
  let st := mkCompile S_ C open_ in let b := opens caps (length S_) in let c := closes caps (length S_) in
  marks_ok st b c /\
  exists C' open' caps', next st b c g = mkCompile (S_ ++ [newSegment g]) C' open' /\ C' ++ caps' = C ++ caps /\
    ahead open' (S (length S_)) caps' n /\
    (forall i, length S_ < i -> opens caps i = opens caps' i /\ closes caps i = closes caps' i).
Proof.
  intros Ha Hlt. cbv zeta. set (i := length S_) in *. destruct open_ as [o|]; cbn [ahead] in Ha.
  - destruct caps as [|d caps]; [done|]. destruct Ha as (Ed & Hi & Hg).
    assert (opens (d :: caps) i = false) as ->.
    { unfold opens. cbn [existsb]. rewrite (proj2 (Nat.eqb_neq _ _)) by lia. by apply (opens_out _ _ _ i Hg); lia. }
    destruct (decide (cap_end d = S i)) as [Ee|Hne].
    + assert (closes (d :: caps) i = true) as -> by (apply closes_spec; exists d; split; [by left|done]).
      split; [split; [done|right; cbn; eauto]|]. exists (C ++ [mkCap o (S i)]), None, caps. split_and!; [done| | |].
      * rewrite <- app_assoc. cbn [app]. do 2 f_equal. destruct d; cbn in *; congruence.
      * cbn [ahead]. by rewrite <- Ee.
      * intros k Hk. unfold opens, closes. cbn [existsb]. rewrite !(proj2 (Nat.eqb_neq _ _)) by lia. done.
    + assert (closes (d :: caps) i = false) as ->.
      { unfold closes. cbn [existsb]. rewrite (proj2 (Nat.eqb_neq _ _)) by lia. apply (closes_out _ _ _ i Hg). lia. }
      split; [by split|]. exists C, (Some o), (d :: caps). split_and!; [done|done| |done]. cbn. split_and!; [done|lia|lia|done].
  - destruct (opens caps i) eqn:Eo.
    + apply opens_spec in Eo as (d & Hd & Es). destruct caps as [|d' caps]; [set_solver|]. destruct Ha as [Hd' Hg].
      assert (d' = d) as -> by (apply elem_of_cons in Hd as [->|Hd]; [done|pose proof (groups_bound _ _ _ _ Hg Hd); lia]).
      destruct (decide (cap_end d = S i)) as [Ee|Hne].
      * assert (closes (d :: caps) i = true) as -> by (apply closes_spec; exists d; split; [by left|done]).
        split; [split; [done|by left]|]. exists (C ++ [mkCap i (S i)]), None, caps. split_and!; [done| | |].
        -- rewrite <- app_assoc. cbn [app]. do 2 f_equal. destruct d; cbn in *; congruence.
        -- cbn [ahead]. by rewrite <- Ee.
        -- intros k Hk. unfold opens, closes. cbn [existsb]. rewrite !(proj2 (Nat.eqb_neq _ _)) by lia. done.
      * assert (closes (d :: caps) i = false) as ->.
        { unfold closes. cbn [existsb]. rewrite (proj2 (Nat.eqb_neq _ _)) by lia. apply (closes_out _ _ _ i Hg). lia. }
        split; [by split|]. exists C, (Some i), (d :: caps). split_and!; [done|done| |done]. cbn. split_and!; [done|lia|lia|done].
    + assert (closes caps i = false) as Ec.
      { apply not_true_iff_false. intros (d & Hd & Ee)%closes_spec. pose proof (groups_bound _ _ _ _ Ha Hd).
        assert (opens caps i = true); [|congruence]. apply opens_spec. exists d. split; [done|lia]. }
      rewrite Ec. split; [by split|]. exists C, None, caps. split_and!; [done|done| |done]. cbn.
      destruct caps as [|d caps]; cbn in *; [lia|]. destruct Ha as [? ?]. split; [|done].
      assert (cap_start d <> i); [|lia]. intros E. unfold opens in Eo. cbn in Eo. by rewrite E, Nat.eqb_refl in Eo.
Qed.

Lemma compile_loop_complete pat segs S_ C open_ caps :
  Forall (fun s => seg_ok (sg_glob s) /\ s = newSegment (sg_glob s)) segs -> ahead open_ (length S_) caps (length S_ + length segs) ->
  rfold (compile_seg Match pat) (mkCompile S_ C open_)
    (imap (fun k s => marked (opens caps (length S_ + k)) (closes caps (length S_ + k)) (sg_glob s)) segs)
  = Ok (mkCompile (S_ ++ segs) (C ++ caps) None).
Proof.
  revert S_ C open_ caps. induction segs as [|s segs IH]; intros S_ C open_ caps Hs Ha; cbn [imap rfold length] in *.
  - assert (caps = []) as ->.
    { destruct caps as [|c caps]; [done|]. pose proof (ahead_bound _ _ _ _ c Ha ltac:(by left)). lia. }
    destruct open_; [done|]. by rewrite !app_nil_r.
  - apply list.Forall_cons in Hs as [[Hg Es] Hs]. rewrite Nat.add_0_r.
    destruct (ahead_step S_ C open_ caps (sg_glob s) _ Ha ltac:(lia)) as (Hm & C' & open' & caps' & En & Ec & Ha' & Hmarks).
    rewrite compile_seg_marked by done. cbn [rbind]. rewrite En, <- Ec, <- Es.
    replace (S_ ++ s :: segs) with ((S_ ++ [s]) ++ segs) by (by rewrite <- app_assoc).
    rewrite <- (IH (S_ ++ [s]) C' open' caps') by (rewrite ?length_app; cbn [length]; rewrite ?Nat.add_1_r; try done; by replace (S (length S_) + length segs) with (length S_ + S (length segs)) by lia).
    f_equal. apply imap_ext. intros k x _. unfold compose. rewrite length_app. cbn [length].
    replace (length S_ + S k) with (length S_ + 1 + k) by lia. by destruct (Hmarks (length S_ + 1 + k) ltac:(lia)) as [-> ->].
Qed.

(** C16: a pattern compiles to exactly what it spells: whole segments, none of
    them empty, ["."], [".."] or a mix with ["**"], each a valid glob without
    parentheses, and groups that are not empty, in order and apart; with a
    parenthesis put back at each end of each group the segments are the cleaned
    pattern.  Everything else is refused. *)
Theorem compile_exact pat p :
  Compile Match pat = Ok p <->
  pat <> [] /\ IsAbs pat = false /\ p_raw p = pat /\ wf_pattern p /\ unparse p = Clean pat.
Proof.
  unfold Compile. case_bool_decide as E0; [naive_solver|]. change (HasPrefix pat slash) with (IsAbs pat). rewrite orb_diag.
  destruct (IsAbs pat) eqn:Ea; [naive_solver|]. split.
  - destruct (rfold _ _ _) as [st|] eqn:E; [|done]. cbn [rbind]. destruct (cs_open st) eqn:Eo; [done|]. intros [= <-].
    apply (compile_loop_sound _ _ []) in E; [|apply split_avoids|by repeat constructor].
    pose proof (cs_inv_caps _ _ E) as Hc. destruct E as [Er Hs _]. cbn [app] in Er.
    assert (split_byte "/" (Clean pat) = imap (fun i s => marked (opens (cs_caps st) i) (closes (cs_caps st) i) (sg_glob s)) (cs_segs st)) as Er'.
    { rewrite Er. apply imap_ext. intros i s _. unfold open_at. by rewrite Eo, orb_false_r. }
    split_and!; [done|done|done| |].
    + split; [exact Hs|exact Hc|]. cbn. intros En. rewrite En in Er'. by apply (split_nonnil (Clean pat)).
    + unfold unparse. cbn [p_caps p_segs]. rewrite <- Er'. apply join_split.
  - intros (_ & _ & Hp & [Hs Hc Hn] & Hu).
    assert (split_byte "/" (Clean pat) = imap (fun k s => marked (opens (p_caps p) (length (@nil segment) + k)) (closes (p_caps p) (length (@nil segment) + k)) (sg_glob s)) (p_segs p)) as ->.
    { rewrite <- Hu. apply split_join; [|by destruct (p_segs p)]. apply list.Forall_forall. intros e (i & s & -> & Hl)%elem_of_lookup_imap.
      apply list_elem_of_lookup_2 in Hl. destruct (proj1 (list.Forall_forall _ _) Hs _ Hl) as [Hg _]. pose proof Hg as (_ & _ & _ & Ha & _). unfold avoids_slash, marked in *.
      destruct (opens _ _), (closes _ _); cbn; set_solver. }
    rewrite (compile_loop_complete pat (p_segs p) [] [] None (p_caps p)) by done. cbn. subst pat. by destruct p.
Qed.
End grammar.

(** ** References *)

(** What an output path is made of. *)
Inductive piece := PByte (c : ascii) | PDollar | PRef (n : nat) (braced : bool).

Definition piece_ok (p : piece) : Prop :=
  match p with PByte c => c <> "$"%char | PDollar => True | PRef n _ => 1 <= n <= 9 end.
Definition digit_char (n : nat) : ascii := ascii_of_N (48 + N.of_nat n).
Definition spell (p : piece) : bytes :=
  match p with
  | PByte c => [c]
  | PDollar => bs "$$"
  | PRef n false => "$"%char :: [digit_char n]
  | PRef n true => bs "${" ++ digit_char n :: bs "}"
  end.
Definition group_of (p : piece) : nat := match p with PRef n _ => n | _ => 0 end.
Definition replaced (captures : list bytes) (p : piece) : bytes :=
  match p with PByte c => [c] | PDollar => bs "$" | PRef n _ => captures !!! (n - 1) end.

Definition spells (ps : list piece) (s : bytes) : Prop := Forall piece_ok ps /\ s = concat (spell <$> ps).

Definition digit_ok (d : ascii) : bool := (("1" <=b d) && (d <=b "9"))%char.
Definition digit_group (d : ascii) : nat := N.to_nat (N_of_ascii d - 48).

Lemma digit_ok_spec d : digit_ok d = true <-> exists n, 1 <= n <= 9 /\ d = digit_char n.
Proof.
  unfold digit_ok, byte_leb. rewrite andb_true_iff, !N.leb_le. split.
  - intros [H1 H2]. exists (digit_group d). unfold digit_group, digit_char. change (N_of_ascii "1") with 49%N in H1.
    change (N_of_ascii "9") with 57%N in H2. split; [lia|]. rewrite N2Nat.id.
    replace (48 + (N_of_ascii d - 48))%N with (N_of_ascii d) by lia. by rewrite ascii_N_embedding.
  - intros (n & Hn & ->). do 10 (destruct n as [|n]; [try lia; vm_compute; split; discriminate|]). lia.
Qed.

Lemma digit_group_char n : 1 <= n <= 9 -> digit_group (digit_char n) = n /\ digit_char n <> "$"%char /\ digit_char n <> "{"%char.
Proof. intros Hn. do 10 (destruct n as [|n]; [try lia; by vm_compute|]). lia. Qed.

(** A reference is read exactly. *)
Lemma parseRef_spec s rest n rest' :
  parseRef s rest = Ok (n, rest') <-> exists p, piece_ok p /\ (forall c, p <> PByte c) /\ "$"%char :: rest = spell p ++ rest' /\ n = group_of p.
Proof.
  split.
  - unfold parseRef. destruct rest as [|c rest]; [done|].
    destruct (Ascii.eqb_spec c "$") as [->|Hd]; [intros [= <- <-]; by exists PDollar|].
    destruct (Ascii.eqb_spec c "{") as [->|Hb].
    + destruct rest as [|d l]; [done|]. cbn [rbind]. change (("1" <=b d) && (d <=b "9"))%char with (digit_ok d).
      destruct (digit_ok d) eqn:Ed; [|done]. cbn [rbind]. destruct l as [|e l]; [done|].
      destruct (Ascii.eqb_spec e "}") as [->|]; [|done]. intros [= <- <-]. apply digit_ok_spec in Ed as (n & Hn & ->).
      exists (PRef n true). split_and!; [done|done|done|]. by destruct (digit_group_char n Hn).
    + change (("1" <=b c) && (c <=b "9"))%char with (digit_ok c). destruct (digit_ok c) eqn:Ed; [|done]. intros [= <- <-].
      apply digit_ok_spec in Ed as (n & Hn & ->). exists (PRef n false). split_and!; [done|done|done|]. by destruct (digit_group_char n Hn).
  - intros (p & Hok & Hp & E & ->). destruct p as [c| |k []]; [by destruct (Hp c)|injection E as ->; done| |].
    + injection E as ->. unfold parseRef. cbn [Ascii.eqb Bool.eqb app]. change (("1" <=b digit_char k) && (digit_char k <=b "9"))%char with (digit_ok (digit_char k)).
      assert (digit_ok (digit_char k) = true) as -> by (apply digit_ok_spec; eauto). cbn [rbind Ascii.eqb Bool.eqb].
      by destruct (digit_group_char k Hok) as [Eg _]; unfold digit_group in Eg; rewrite Eg.
    + injection E as ->. unfold parseRef. destruct (digit_group_char k Hok) as (Eg & H1 & H2).
      rewrite (proj2 (Ascii.eqb_neq _ _) H1), (proj2 (Ascii.eqb_neq _ _) H2).
      change (("1" <=b digit_char k) && (digit_char k <=b "9"))%char with (digit_ok (digit_char k)).
      assert (digit_ok (digit_char k) = true) as -> by (apply digit_ok_spec; eauto). unfold digit_group in Eg. by rewrite Eg.
Qed.

Lemma spells_cons p ps s : spells (p :: ps) s <-> piece_ok p /\ exists s', s = spell p ++ s' /\ spells ps s'.
Proof.
  unfold spells. rewrite list.Forall_cons. cbn. split.
  - intros [[Hp Hps] ->]. eauto.
  - intros (Hp & s' & -> & Hps & ->). eauto.
Qed.

Lemma spells_byte ps c s : c <> "$"%char -> spells ps (c :: s) -> exists ps', ps = PByte c :: ps' /\ spells ps' s.
Proof.
  intros Hc H. destruct ps as [|p ps]; [by destruct H as [_ [=]]|]. apply spells_cons in H as (Hp & s' & E & H).
  destruct p as [d| |n []]; injection E as -> ->; try done. by exists ps.
Qed.

Lemma spells_ref ps s0 s : spells ps ("$"%char :: s) ->
  exists p ps' rest', ps = p :: ps' /\ parseRef s0 s = Ok (group_of p, rest') /\ spells ps' rest' /\ (forall c, p <> PByte c) /\ piece_ok p.
Proof.
  intros H. destruct ps as [|p ps]; [by destruct H as [_ [=]]|]. apply spells_cons in H as (Hp & s' & E & H).
  assert (forall c, p <> PByte c) as Hb by (intros c ->; injection E as <- _; done).
  exists p, ps, s'. split_and!; [done| |done|done|done]. apply parseRef_spec. eauto.
Qed.

Lemma parseRef_shorter s rest n rest' : parseRef s rest = Ok (n, rest') -> length rest' < length rest.
Proof.
  intros (p & Hp & Hb & E & _)%parseRef_spec. apply (f_equal length) in E. rewrite length_app in E. cbn in E.
  destruct p as [c| |k []]; [by destruct (Hb c)|cbn in E; lia..].
Qed.

Definition max_group (max : nat) (ps : list piece) : nat := foldl (fun m p => Nat.max m (group_of p)) max ps.

Lemma max_group_cons max p ps : max_group max (p :: ps) = max_group (Nat.max max (group_of p)) ps.
Proof. done. Qed.

Lemma ltb_max m n : (if Nat.ltb m n then n else m) = Nat.max m n.
Proof. destruct (Nat.ltb_spec m n); lia. Qed.

Lemma maxRef_loop_spec fuel s rest max r : length rest <= fuel ->
  maxRef_loop fuel s rest max = Ok r <-> exists ps, spells ps rest /\ r = max_group max ps.
Proof.
  revert rest max. induction fuel as [|f IH]; intros rest max Hf.
  { destruct rest; [|cbn in Hf; lia]. cbn. split; [intros [= ->]; exists []; by repeat constructor|].
    intros ([|p ps] & H & ->); [done|]. apply spells_cons in H as (_ & s' & E & _). by destruct p as [| |? []]. }
  destruct rest as [|c rest]; cbn [maxRef_loop].
  { split; [intros [= ->]; exists []; by repeat constructor|].
    intros ([|p ps] & H & ->); [done|]. apply spells_cons in H as (_ & s' & E & _). by destruct p as [| |? []]. }
  destruct (Ascii.eqb_spec c "$") as [->|Hc].
  - split.
    + destruct (parseRef s rest) as [[n rest']|] eqn:E; [|done]. cbn [rbind]. pose proof (parseRef_shorter _ _ _ _ E).
      intros H'. apply IH in H' as (ps & Hps & ->); [|cbn in Hf; lia]. apply parseRef_spec in E as (p & Hp & Hb & E & ->).
      exists (p :: ps). split; [apply spells_cons; eauto|]. by rewrite ltb_max, max_group_cons.
    + intros (ps & H & ->). apply (spells_ref _ s) in H as (p & ps' & rest' & -> & E & H & _). rewrite E. cbn [rbind].
      pose proof (parseRef_shorter _ _ _ _ E). apply IH; [cbn in Hf; lia|]. exists ps'. split; [done|].
      by rewrite ltb_max, max_group_cons.
  - rewrite IH by (cbn in Hf; lia). split.
    + intros (ps & H & ->). exists (PByte c :: ps). split; [apply spells_cons; eauto|]. by rewrite max_group_cons, Nat.max_0_r.
    + intros (ps & H & ->). apply spells_byte in H as (ps' & -> & H); [|done]. exists ps'. split; [done|].
      by rewrite max_group_cons, Nat.max_0_r.
Qed.

Lemma substitute_loop_spec fuel s captures rest out r : length rest <= fuel ->
  substitute_loop fuel s captures rest out = Ok r <->
  exists ps, spells ps rest /\ Forall (fun p => group_of p <= length captures) ps /\ r = out ++ concat (replaced captures <$> ps).
Proof.
  revert rest out. induction fuel as [|f IH]; intros rest out Hf.
  { destruct rest; [|cbn in Hf; lia]. cbn. split; [intros [= ->]; exists []; rewrite app_nil_r; by repeat constructor|].
    intros ([|p ps] & H & _ & ->); [by rewrite app_nil_r|]. apply spells_cons in H as (_ & s' & E & _). by destruct p as [| |? []]. }
  destruct rest as [|c rest]; cbn [substitute_loop].
  { split; [intros [= ->]; exists []; rewrite app_nil_r; by repeat constructor|].
    intros ([|p ps] & H & _ & ->); [by rewrite app_nil_r|]. apply spells_cons in H as (_ & s' & E & _). by destruct p as [| |? []]. }
  destruct (Ascii.eqb_spec c "$") as [->|Hc].
  - split.
    + destruct (parseRef s rest) as [[n rest']|] eqn:E; [|done]. cbn [rbind]. pose proof (parseRef_shorter _ _ _ _ E).
      apply parseRef_spec in E as (p & Hp & Hb & E & ->). intros H'.
      assert (substitute_loop f s captures rest' (out ++ replaced captures p) = Ok r /\ group_of p <= length captures) as [H1 H2].
      { destruct p as [d| |k b]; [by destruct (Hb d)|split; [done|cbn; lia]|]. cbn in Hp, H' |- *. destruct k as [|i]; [lia|].
        cbn [Nat.sub]. rewrite Nat.sub_0_r. destruct (captures !! i) as [t|] eqn:Et; [|done]. rewrite (list_lookup_total_correct _ _ _ Et).
        apply lookup_lt_Some in Et. split; [done|lia]. }
      apply IH in H1 as (ps & Hps & Hg & ->); [|cbn in Hf; lia]. exists (p :: ps). split_and!; [apply spells_cons; eauto|by constructor|].
      cbn. by rewrite <- app_assoc.
    + intros (ps & H & Hg & ->). apply (spells_ref _ s) in H as (p & ps' & rest' & -> & E & H & Hb & Hp). rewrite E. cbn [rbind].
      apply list.Forall_cons in Hg as [Hg1 Hg]. pose proof (parseRef_shorter _ _ _ _ E).
      assert (substitute_loop f s captures rest' (out ++ replaced captures p) = Ok (out ++ concat (replaced captures <$> p :: ps'))) as Hx.
      { apply IH; [cbn in Hf; lia|]. exists ps'. split_and!; [done|done|]. cbn. by rewrite <- app_assoc. }
      destruct p as [d| |k b]; [by destruct (Hb d)|done|]. cbn [group_of piece_ok] in *. destruct k as [|i]; [lia|].
      destruct (lookup_lt_is_Some_2 captures i) as [t Et]; [lia|]. rewrite Et. cbn [replaced Nat.sub] in Hx. rewrite Nat.sub_0_r in Hx.
      by rewrite (list_lookup_total_correct _ _ _ Et) in Hx.
  - rewrite IH by (cbn in Hf; lia). split.
    + intros (ps & H & Hg & ->). exists (PByte c :: ps). split_and!; [apply spells_cons; eauto|constructor; [cbn; lia|done]|].
      cbn. by rewrite <- app_assoc.
    + intros (ps & H & Hg & ->). apply spells_byte in H as (ps' & -> & H); [|done]. apply list.Forall_cons in Hg as [_ Hg].
      exists ps'. split_and!; [done|done|]. cbn. by rewrite <- app_assoc.
Qed.

Lemma max_group_le max ps n : max_group max ps <= n <-> max <= n /\ Forall (fun p => group_of p <= n) ps.
Proof.
  revert max. induction ps as [|p ps IH]; intros max; [split; [by intros|by intros []]|].
  rewrite max_group_cons, IH, list.Forall_cons. rewrite Nat.max_lub_iff. tauto.
Qed.

(** An output is checked and substituted by one grammar: [MaxRef] accepts
    exactly the texts of bytes, escaped dollars and references to groups 1 to 9,
    and gives the greatest group; [Substitute] succeeds exactly where no
    reference exceeds the captures, and puts each capture at its references. *)
Theorem references_exact s captures :
  (forall m, MaxRef s = Ok m <-> exists ps, spells ps s /\ m = max_group 0 ps) /\
  (forall t, Substitute s captures = Ok t <->
     exists ps, spells ps s /\ max_group 0 ps <= length captures /\ t = concat (replaced captures <$> ps)) /\
  ((exists t, Substitute s captures = Ok t) <-> exists m, MaxRef s = Ok m /\ m <= length captures).
Proof.
  assert (forall m, MaxRef s = Ok m <-> exists ps, spells ps s /\ m = max_group 0 ps) as H1 by (intros m; by apply maxRef_loop_spec).
  assert (forall t, Substitute s captures = Ok t <->
     exists ps, spells ps s /\ max_group 0 ps <= length captures /\ t = concat (replaced captures <$> ps)) as H2.
  { intros t. unfold Substitute. rewrite substitute_loop_spec by done. setoid_rewrite max_group_le. naive_solver lia. }
  split_and!; [done|done|]. setoid_rewrite H1. setoid_rewrite H2. naive_solver.
Qed.
