(* ===== verification/PathPatWalk.v ===== *)
(** * PathPatWalk

    What a walk computes: [derives] says which files a pattern reaches and with
    which spans of names, [expand] lists the derivations in the order the walk
    finds them, and the stateful walker is shown to emit that list, the first
    derivation of each path only.  The walk ends on every file system, cyclic
    or infinite ones too, as each descent spends an entry of its budget. *)

From Stdlib Require Import Sorted.
From S2P Require Import Prelude Diagnostics GoPath PathPat.

Section spec.
Context (Match : bytes -> bytes -> option bool) (fs : FS) (root realRoot : bytes).

Abbreviation isDir := (isDir fs root).

Definition entries (dir : bytes) : list DirEntry := default [] (ReadDir fs (walk_abs root dir)).

(** A directory that can be entered once more: its key is not on the way. *)
Definition enters (V : gset bytes) (rel : bytes) : option (gset bytes) :=
  match dir_key fs root realRoot rel with
  | Some key => if bool_decide (key ∈ V) then None else Some ({[key]} ∪ V)
  | None => None
  end.

(** What is not a directory, through symbolic links too. *)
Definition file_entry (dir : bytes) (e : DirEntry) : bool :=
  bool_decide (EType e = FRegular) || (negb (bool_decide (EType e = FDir)) && negb (isDir (walk_join dir (EName e)))).

Definition matched (glob : bytes) (e : DirEntry) : bool := match Match glob (EName e) with Some true => true | _ => false end.

(** Where ["**"] goes on: directories and links, hidden and pruned ones apart. *)
Definition descends (e : DirEntry) : bool :=
  negb (negb (bool_decide (EType e = FDir)) && negb (bool_decide (EType e = FSymlink))) && negb (pruned (EName e)).

(** The names a segment takes in a directory, with whether they are files. *)
Definition step_names (s : segment) (dir : bytes) : list (bytes * bool) :=
  if sg_literal s then [(sg_glob s, negb (isDir (walk_join dir (sg_glob s))))]
  else (fun e => (EName e, file_entry dir e)) <$> base.filter (fun e => matched (sg_glob s) e = true) (entries dir).

(** A path, the names consumed on the way to it, and the span of each segment
    among all the names. *)
Definition derivation : Type := bytes * list bytes * list (nat * nat).

Inductive derives : gset bytes -> list segment -> bytes -> nat -> derivation -> Prop :=
  | DFile V s dir n name :
      sg_recursive s = false -> (name, true) ∈ step_names s dir ->
      derives V [s] dir n (walk_join dir name, [name], [(n, S n)])
  | DDir V V' s s' rest dir n name b rel ns sp :
      sg_recursive s = false -> (name, b) ∈ step_names s dir -> enters V (walk_join dir name) = Some V' ->
      derives V' (s' :: rest) (walk_join dir name) (S n) (rel, ns, sp) ->
      derives V (s :: s' :: rest) dir n (rel, name :: ns, (n, S n) :: sp)
  | DStar V s rest dir n d :
      sg_recursive s = true -> stars V rest dir n n d -> derives V (s :: rest) dir n d
with stars : gset bytes -> list segment -> bytes -> nat -> nat -> derivation -> Prop :=
  | SStop V s rest dir n0 n rel ns sp :
      derives V (s :: rest) dir n (rel, ns, sp) -> stars V (s :: rest) dir n0 n (rel, ns, (n0, n) :: sp)
  | SFile V dir n0 n e :
      e ∈ entries dir -> file_entry dir e = true ->
      stars V [] dir n0 n (walk_join dir (EName e), [EName e], [(n0, S n)])
  | SDown V V' rest dir n0 n e rel ns sp :
      e ∈ entries dir -> descends e = true -> enters V (walk_join dir (EName e)) = Some V' ->
      stars V' rest (walk_join dir (EName e)) n0 (S n) (rel, ns, sp) ->
      stars V rest dir n0 n (rel, EName e :: ns, sp).

Scheme derives_ind2 := Induction for derives Sort Prop
  with stars_ind2 := Induction for stars Sort Prop.

(** ** The derivations in order *)

Inductive xcall :=
  | XMatch (V : gset bytes) (segs : list segment) (dir : bytes) (n : nat)
  | XStar (V : gset bytes) (rest : list segment) (dir : bytes) (n0 n : nat).

Definition via (name : bytes) (span : list (nat * nat)) (d : derivation) : derivation :=
  let '(rel, ns, sp) := d in (rel, name :: ns, span ++ sp).

Definition x_step (rec : xcall -> list derivation) (V : gset bytes) (rest : list segment) (dir : bytes) (n : nat)
    (nb : bytes * bool) : list derivation :=
  let '(name, is_file) := nb in
  let rel := walk_join dir name in
  match rest with
  | [] => if is_file then [(rel, [name], [(n, S n)])] else []
  | _ => match enters V rel with None => [] | Some V' => via name [(n, S n)] <$> rec (XMatch V' rest rel (S n)) end
  end.

Definition x_down (rec : xcall -> list derivation) (V : gset bytes) (rest : list segment) (dir : bytes) (n0 n : nat)
    (e : DirEntry) : list derivation :=
  let rel := walk_join dir (EName e) in
  if descends e then
    match enters V rel with None => [] | Some V' => via (EName e) [] <$> rec (XStar V' rest rel n0 (S n)) end
  else [].

Definition x_file (dir : bytes) (n0 n : nat) (e : DirEntry) : list derivation :=
  if file_entry dir e then [(walk_join dir (EName e), [EName e], [(n0, S n)])] else [].

Fixpoint expand (fuel : nat) (x : xcall) : list derivation :=
  match fuel with
  | O => []
  | S f =>
      match x with
      | XMatch V [] dir n => []
      | XMatch V (s :: rest) dir n =>
          if sg_recursive s then expand f (XStar V rest dir n n)
          else concat (x_step (expand f) V rest dir n <$> step_names s dir)
      | XStar V rest dir n0 n =>
          match rest with
          | [] => concat (x_file dir n0 n <$> entries dir)
          | _ => (fun '(rel, ns, sp) => (rel, ns, (n0, n) :: sp)) <$> expand f (XMatch V rest dir n)
          end ++ concat (x_down (expand f) V rest dir n0 n <$> entries dir)
      end
  end.

Definition x_spec (x : xcall) (d : derivation) : Prop :=
  match x with XMatch V segs dir n => derives V segs dir n d | XStar V rest dir n0 n => stars V rest dir n0 n d end.

Lemma elem_of_concat_fmap {A B} (f : A -> list B) (l : list A) b : b ∈ concat (f <$> l) <-> exists a, a ∈ l /\ b ∈ f a.
Proof.
  rewrite list_elem_of_In, in_concat. setoid_rewrite <- list_elem_of_In. setoid_rewrite list_elem_of_fmap. naive_solver.
Qed.

Lemma expand_sound fuel x d : d ∈ expand fuel x -> x_spec x d.
Proof.
  revert x d. induction fuel as [|f IH]; intros x d; [set_solver|]. destruct x as [V segs dir n|V rest dir n0 n]; cbn [expand x_spec].
  - destruct segs as [|s rest]; [set_solver|]. destruct (sg_recursive s) eqn:Er; [intros H; by apply DStar, (IH (XStar V rest dir n n))|].
    intros ([name b] & Hn & H)%elem_of_concat_fmap. unfold x_step in H. destruct rest as [|s' rest].
    + destruct b; [|set_solver]. apply list_elem_of_singleton in H as ->. by apply DFile.
    + destruct (enters V _) as [V'|] eqn:Ee; [|set_solver]. apply list_elem_of_fmap in H as ([[rel ns] sp] & -> & H).
      eapply DDir; [done|done|done|]. by apply (IH (XMatch V' _ _ _)).
  - intros [H|H]%elem_of_app.
    + destruct rest as [|s rest].
      * apply elem_of_concat_fmap in H as (e & He & H). unfold x_file in H. destruct (file_entry dir e) eqn:Ef; [|set_solver].
        apply list_elem_of_singleton in H as ->. by apply SFile.
      * apply list_elem_of_fmap in H as ([[rel ns] sp] & -> & H). by apply SStop, (IH (XMatch V _ _ _)).
    + apply elem_of_concat_fmap in H as (e & He & H). unfold x_down in H. destruct (descends e) eqn:Ed; [|set_solver].
      destruct (enters V _) as [V'|] eqn:Ee; [|set_solver]. apply list_elem_of_fmap in H as ([[rel ns] sp] & -> & H).
      eapply SDown; [done|done|done|]. by apply (IH (XStar V' _ _ _ _)).
Qed.

(** Every derivation is listed, given the fuel. *)
Definition listed (x : xcall) (d : derivation) : Prop := exists k, forall g, k <= g -> d ∈ expand g x.

Lemma listed_S x d k : (forall f, k <= f -> d ∈ expand (S f) x) -> listed x d.
Proof. intros H. exists (S k). intros [|f] Hg; [lia|]. apply H. lia. Qed.

Lemma expand_complete V segs dir n d : derives V segs dir n d -> listed (XMatch V segs dir n) d.
Proof.
  revert V segs dir n d.
  apply (derives_ind2 (fun V segs dir n d _ => listed (XMatch V segs dir n) d) (fun V rest dir n0 n d _ => listed (XStar V rest dir n0 n) d)).
  - intros V s dir n name Hr Hn. apply (listed_S _ _ 0). intros f _. cbn [expand]. rewrite Hr. apply elem_of_concat_fmap.
    exists (name, true). split; [done|]. cbn. by left.
  - intros V V' s s' rest dir n name b rel ns sp Hr Hn He _ [k IH]. apply (listed_S _ _ k). intros f Hf. cbn [expand]. rewrite Hr.
    apply elem_of_concat_fmap. exists (name, b). split; [done|]. cbn [x_step]. rewrite He. apply list_elem_of_fmap. by exists (rel, ns, sp); split; [|apply IH].
  - intros V s rest dir n d Hr _ [k IH]. apply (listed_S _ _ k). intros f Hf. cbn [expand]. rewrite Hr. by apply IH.
  - intros V s rest dir n0 n rel ns sp _ [k IH]. apply (listed_S _ _ k). intros f Hf. cbn [expand]. apply elem_of_app. left.
    apply list_elem_of_fmap. by exists (rel, ns, sp); split; [|apply IH].
  - intros V dir n0 n e He Hf'. apply (listed_S _ _ 0). intros f _. cbn [expand]. apply elem_of_app. left.
    apply elem_of_concat_fmap. exists e. split; [done|]. unfold x_file. rewrite Hf'. by left.
  - intros V V' rest dir n0 n e rel ns sp He Hd Hen _ [k IH]. apply (listed_S _ _ k). intros f Hf. cbn [expand]. apply elem_of_app. right.
    apply elem_of_concat_fmap. exists e. split; [done|]. unfold x_down. rewrite Hd, Hen.
    apply list_elem_of_fmap. by exists (rel, ns, sp); split; [|apply IH].
Qed.
End spec.

(** ** The walker emits the derivations *)

Section walker.
Context (Match : bytes -> bytes -> option bool) (fs : FS) (cap : nat) (root realRoot : bytes) (pat : Pattern).

Abbreviation N := (length (p_segs pat)).
Abbreviation expand := (expand Match fs root realRoot).
Abbreviation run := (run Match fs cap root realRoot pat).

(** The text of a capture, from the names and the spans of a derivation. *)
Definition capture_of (names : list bytes) (spans : list (nat * nat)) (c : capture) : bytes :=
  capture_text names spans.*1 spans.*2 c.

(** A derivation is emitted unless its path was; [names0] and [pre] are the
    names and spans before it. *)
Definition emits (names0 : list bytes) (pre : list (nat * nat)) (acc : list PathMatch * gset bytes) (d : derivation)
    : list PathMatch * gset bytes :=
  let '(rel, ns, sp) := d in
  if bool_decide (rel ∈ acc.2) then acc
  else (acc.1 ++ [mkMatch rel (capture_of (names0 ++ ns) (pre ++ sp) <$> p_caps pat)], {[rel]} ∪ acc.2).

Definition emitted (w : walker) : list PathMatch * gset bytes := (w_matches w, w_emitted w).

Lemma foldl_emits_via names0 pre name span l acc :
  foldl (emits names0 pre) acc (via name span <$> l) = foldl (emits (names0 ++ [name]) (pre ++ span)) acc l.
Proof.
  revert acc. induction l as [|[[rel ns] sp] l IH]; intros acc; [done|]. cbn [fmap list_fmap foldl]. rewrite IH.
  f_equal. unfold via, emits. by rewrite <- !app_assoc.
Qed.

Lemma foldl_emits_span names0 pre n0 n l acc :
  foldl (emits names0 pre) acc ((fun '(rel, ns, sp) => (rel, ns, (n0, n) :: sp)) <$> l) = foldl (emits names0 (pre ++ [(n0, n)])) acc l.
Proof.
  revert acc. induction l as [|[[rel ns] sp] l IH]; intros acc; [done|]. cbn [fmap list_fmap foldl]. rewrite IH.
  f_equal. unfold emits. by rewrite <- !app_assoc.
Qed.

Lemma foldl_concat {A B C} (f : A -> B -> A) (g : C -> list B) acc l :
  foldl f acc (concat (g <$> l)) = foldl (fun a c => foldl f a (g c)) acc l.
Proof. revert acc. induction l as [|c l IH]; intros acc; [done|]. cbn. by rewrite foldl_app, IH. Qed.

Lemma concat_filter {A B C} (P : A -> bool) (g : A -> B) (f : B -> list C) l :
  concat (f <$> (g <$> base.filter (fun a => P a = true) l)) = concat ((fun a => if P a then f (g a) else []) <$> l).
Proof.
  induction l as [|a l IH]; [done|]. rewrite filter_cons. destruct (P a) eqn:E.
  - rewrite decide_True by done. rewrite !fmap_cons. cbn [concat]. by rewrite E, IH.
  - rewrite decide_False by congruence. rewrite !fmap_cons. cbn [concat]. by rewrite E, IH.
Qed.

(** The walker at segment [k]: the spans of the segments before are [pre]. *)
Record at_seg (k : nat) (names : list bytes) (V : gset bytes) (pre : list (nat * nat)) (w : walker) : Prop := {
  as_names : w_names w = names;
  as_visited : w_visited w = V;
  as_starts : take k (w_starts w) = pre.*1;
  as_ends : take k (w_ends w) = pre.*2;
  as_len : length pre = k;
  as_starts_len : length (w_starts w) = N;
  as_ends_len : length (w_ends w) = N;
}.

(** What a call gives back: the same walker, with [l] emitted. *)
Definition after (k : nat) (names : list bytes) (V : gset bytes) (pre : list (nat * nat)) (w : walker) (l : list derivation) (w' : walker) : Prop :=
  at_seg k names V pre w' /\ emitted w' = foldl (emits names pre) (emitted w) l.

Lemma emit_emits names0 pre rel ns sp w : w_names w = names0 ++ ns -> w_starts w = (pre ++ sp).*1 -> w_ends w = (pre ++ sp).*2 ->
  emitted (emit pat rel w) = emits names0 pre (emitted w) (rel, ns, sp).
Proof.
  intros Hn Hs He. unfold emit, emits, emitted, capture_of. cbn [fst snd]. rewrite Hn, Hs, He. by case_bool_decide.
Qed.

Lemma at_seg_emit k names V pre rel w : at_seg k names V pre w -> at_seg k names V pre (emit pat rel w).
Proof. intros []. unfold emit. by case_bool_decide; split. Qed.

Lemma emit_starts rel w : w_starts (emit pat rel w) = w_starts w.
Proof. unfold emit. by destruct (bool_decide _). Qed.

Lemma at_seg_note k names V pre dir w : at_seg k names V pre w -> at_seg k names V pre (noteDir dir w) /\ emitted (noteDir dir w) = emitted w /\
  w_starts (noteDir dir w) = w_starts w /\ w_ends (noteDir dir w) = w_ends w /\ w_names (noteDir dir w) = w_names w.
Proof. intros []. unfold noteDir. by case_bool_decide; split_and!. Qed.

Lemma at_seg_snoc k names V pre a b w : at_seg k names V pre w -> w_starts w !! k = Some a -> w_ends w !! k = Some b ->
  at_seg (S k) names V (pre ++ [(a, b)]) w.
Proof.
  intros [] Ha Hb. split; try done.
  - rewrite fmap_app. cbn. rewrite <- as_starts0. by apply take_S_r.
  - rewrite fmap_app. cbn. rewrite <- as_ends0. by apply take_S_r.
  - rewrite length_app, as_len0. cbn. lia.
Qed.

Lemma at_seg_pred k names V pre p w : at_seg (S k) names V (pre ++ [p]) w ->
  at_seg k names V pre w /\ w_starts w !! k = Some p.1 /\ w_ends w !! k = Some p.2.
Proof.
  intros []. rewrite length_app in as_len0. cbn in as_len0.
  assert (length pre = k) as Hk by lia. split_and!; [split; try done| |].
  - apply (f_equal (take k)) in as_starts0. rewrite take_take, fmap_app, take_app_le, (take_ge pre.*1) in as_starts0 by (rewrite length_fmap; lia).
    rewrite <- as_starts0. f_equal. lia.
  - apply (f_equal (take k)) in as_ends0. rewrite take_take, fmap_app, take_app_le, (take_ge pre.*2) in as_ends0 by (rewrite length_fmap; lia).
    rewrite <- as_ends0. f_equal. lia.
  - rewrite <- (lookup_take_lt _ (S k)), as_starts0, fmap_app, lookup_app_r by (rewrite ?length_fmap; lia). by rewrite length_fmap, Hk, Nat.sub_diag.
  - rewrite <- (lookup_take_lt _ (S k)), as_ends0, fmap_app, lookup_app_r by (rewrite ?length_fmap; lia). by rewrite length_fmap, Hk, Nat.sub_diag.
Qed.

Lemma at_seg_full k names V pre w : at_seg k names V pre w -> k = N -> w_starts w = pre.*1 /\ w_ends w = pre.*2.
Proof. intros [] ->. rewrite <- as_starts0, <- as_ends0. by rewrite !take_ge by lia. Qed.

Lemma at_seg_set k names names' V pre w : at_seg k names V pre w -> at_seg k names' V pre (set_names names' w).
Proof. intros []. by split. Qed.
Lemma at_seg_set_start k names V pre n w : at_seg k names V pre w -> k < N -> at_seg k names V pre (set_start k n w) /\ w_starts (set_start k n w) !! k = Some n.
Proof.
  intros [] Hk. split; [split; try done|].
  - cbn. by rewrite take_insert_ge by lia.
  - cbn. by rewrite length_insert.
  - cbn. apply list_lookup_insert_eq. lia.
Qed.
Lemma at_seg_set_end k names V pre n w : at_seg k names V pre w -> k < N -> at_seg k names V pre (set_end k n w) /\ w_ends (set_end k n w) !! k = Some n.
Proof.
  intros [] Hk. split; [split; try done|].
  - cbn. by rewrite take_insert_ge by lia.
  - cbn. by rewrite length_insert.
  - cbn. apply list_lookup_insert_eq. lia.
Qed.

Lemma enterDir_some k names V pre rel w key w1 : at_seg k names V pre w -> enterDir fs root realRoot rel w = Some (key, w1) ->
  enters fs root realRoot V rel = Some ({[key]} ∪ V) /\ key ∉ V /\ at_seg k names ({[key]} ∪ V) pre w1 /\ emitted w1 = emitted w /\
  w_starts w1 = w_starts w /\ w_ends w1 = w_ends w.
Proof.
  intros [] H. unfold enterDir, enters in *. destruct (dir_key fs root realRoot rel) as [key'|]; [|done]. rewrite as_visited0 in H.
  case_bool_decide; [done|]. injection H as -> <-. by split_and!.
Qed.
Lemma enterDir_none k names V pre rel w : at_seg k names V pre w -> enterDir fs root realRoot rel w = None -> enters fs root realRoot V rel = None.
Proof.
  intros [] H. unfold enterDir, enters in *. destruct (dir_key fs root realRoot rel) as [key'|]; [|done]. rewrite as_visited0 in H.
  by case_bool_decide.
Qed.
Lemma at_seg_leave k names V pre key w : key ∉ V -> at_seg k names ({[key]} ∪ V) pre w -> at_seg k names V pre (leaveDir key w).
Proof. intros Hk []. split; try done. cbn. rewrite as_visited0. set_solver. Qed.

(** What the recursive call is assumed to do. *)
Definition call_ok (xrec : xcall -> list derivation) (c : call) (w w' : walker) : Prop :=
  match c with
  | CMatch si dir => forall names V pre, at_seg si names V pre w ->
      after si names V pre w (xrec (XMatch V (drop si (p_segs pat)) dir (length names))) w'
  | CStar si dir last => forall names V pre n0, last = Nat.eqb (S si) N -> si < N -> at_seg si names V pre w -> w_starts w !! si = Some n0 ->
      after si names V pre w (xrec (XStar V (drop (S si) (p_segs pat)) dir n0 (length names))) w' /\ w_starts w' !! si = Some n0
  end.

Section rec.
Context (rec : call -> walker -> result walkStop walker) (xrec : xcall -> list derivation).
Context (rec_ok : forall c w w', rec c w = Ok w' -> call_ok xrec c w w').

(** A non-recursive segment at an entry: [w] has the entry's name last. *)
Lemma step_ok si names V pre dir name b w w' :
  si < N -> at_seg si (names ++ [name]) V pre w -> w_starts w !! si = Some (length names) -> w_ends w !! si = Some (S (length names)) ->
  (if Nat.eqb (S si) N then Ok (if b : bool then emit pat (walk_join dir name) w else w)
   else match enterDir fs root realRoot (walk_join dir name) w with
        | None => Ok w
        | Some (key, w) => let! w := rec (CMatch (S si) (walk_join dir name)) w in Ok (leaveDir key w)
        end) = Ok w' ->
  at_seg si (names ++ [name]) V pre w' /\ w_starts w' !! si = Some (length names) /\
  emitted w' = foldl (emits names pre) (emitted w) (x_step fs root realRoot xrec V (drop (S si) (p_segs pat)) dir (length names) (name, b)).
Proof.
  intros Hsi Hw Hs He. pose proof (at_seg_snoc _ _ _ _ _ _ _ Hw Hs He) as Hw1. destruct (Nat.eqb_spec (S si) N) as [HN|HN].
  - intros [= <-]. assert (drop (S si) (p_segs pat) = []) as -> by (apply drop_ge; lia). cbn [x_step].
    destruct b; [|done]. split_and!; [by apply at_seg_emit|by rewrite emit_starts|].
    destruct (at_seg_full _ _ _ _ _ Hw1 HN) as [Es Ee]. by rewrite (emit_emits names pre _ [name] [(length names, S (length names))]) by (by destruct Hw).
  - destruct (drop (S si) (p_segs pat)) as [|s rest] eqn:Ed; [apply (f_equal length) in Ed; rewrite length_drop in Ed; cbn in Ed; lia|].
    cbn [x_step]. destruct (enterDir fs root realRoot _ w) as [[key w1]|] eqn:Een.
    + destruct (enterDir_some _ _ _ _ _ _ _ _ Hw1 Een) as (-> & Hk & Hw2 & Ee2 & _). destruct (rec _ w1) as [w2|] eqn:Er; [|done]. cbn [rbind].
      intros [= <-]. apply rec_ok in Er. destruct (Er _ _ _ Hw2) as [Hw3 E3]. rewrite Ed, length_app in E3. cbn [length] in E3. rewrite Nat.add_1_r in E3.
      apply at_seg_pred in Hw3 as (Hw3 & Hs3 & _). split_and!; [by apply at_seg_leave|done|].
      change (emitted (leaveDir key w2)) with (emitted w2). by rewrite E3, Ee2, foldl_emits_via.
    + intros [= <-]. rewrite (enterDir_none _ _ _ _ _ _ Hw1 Een). by split_and!.
Qed.

(** The loop over the entries of a glob: [w_names] may hold the last name. *)
Record glob_inv (si : nat) (names : list bytes) (V : gset bytes) (pre : list (nat * nat)) (w : walker) : Prop := {
  gi_seg : at_seg si names V pre (set_names names w);
  gi_take : take (length names) (w_names w) = names;
  gi_start : w_starts w !! si = Some (length names);
}.

Lemma match_entry_ok si names V pre dir glob w w' e : si < N -> glob_inv si names V pre w ->
  match_entry Match fs root realRoot pat rec si dir glob (Nat.eqb (S si) N) w e = Ok w' ->
  glob_inv si names V pre w' /\
  emitted w' = foldl (emits names pre) (emitted w)
    (if matched Match glob e then x_step fs root realRoot xrec V (drop (S si) (p_segs pat)) dir (length names) (EName e, file_entry fs root dir e) else []).
Proof.
  intros Hsi [Hw Ht Hs]. unfold match_entry, matched. destruct (Match glob (EName e)) as [[]|]; [|by intros [= <-]|by intros [= <-]].
  rewrite (list_lookup_total_correct _ _ _ Hs), Ht. cbv zeta. intros H.
  destruct (at_seg_set_end si _ _ _ (length (names ++ [EName e])) _ (at_seg_set _ _ (names ++ [EName e]) _ _ _ Hw) Hsi) as [Hw1 He1].
  apply (step_ok si names V pre dir (EName e) (file_entry fs root dir e)) in H as (Hw2 & Hs2 & E2); [|done|exact Hw1|exact Hs|].
  2: { cbn in He1 |- *. rewrite He1, length_app. cbn. f_equal. lia. }
  split; [|exact E2]. split; [by eapply at_seg_set| |done]. destruct Hw2 as [-> _ _ _ _ _ _]. by rewrite take_app_length.
Qed.

Lemma match_entries_ok si names V pre dir glob es w w' : si < N -> glob_inv si names V pre w ->
  rfold (match_entry Match fs root realRoot pat rec si dir glob (Nat.eqb (S si) N)) w es = Ok w' ->
  glob_inv si names V pre w' /\
  emitted w' = foldl (emits names pre) (emitted w)
    (concat ((fun e => if matched Match glob e then x_step fs root realRoot xrec V (drop (S si) (p_segs pat)) dir (length names) (EName e, file_entry fs root dir e) else []) <$> es)).
Proof.
  intros Hsi. revert w. induction es as [|e es IH]; intros w Hw; cbn [rfold]; [by intros [= <-]|].
  destruct (match_entry _ _ _ _ _ _ _ _ _ _ w e) as [w1|] eqn:E; [|done]. cbn [rbind]. intros H.
  destruct (match_entry_ok _ _ _ _ _ _ _ _ _ Hsi Hw E) as [Hw1 E1]. destruct (IH _ Hw1 H) as [Hw2 E2]. split; [done|].
  rewrite E2, E1. cbn. by rewrite foldl_app.
Qed.

(** [w'] differs from [w] in what was consulted and spent only. *)
Definition looked (w w' : walker) : Prop :=
  w_names w' = w_names w /\ w_visited w' = w_visited w /\ w_starts w' = w_starts w /\ w_ends w' = w_ends w /\ emitted w' = emitted w.

Lemma at_seg_looked k names V pre w w' : looked w w' -> at_seg k names V pre w -> at_seg k names V pre w'.
Proof. intros (H1 & H2 & H3 & H4 & _) []. split; congruence. Qed.

Lemma looked_note dir w : looked w (noteDir dir w).
Proof. unfold looked, noteDir. by case_bool_decide. Qed.
Lemma looked_spend n w w' : spend cap n w = Ok w' -> looked w w'.
Proof. unfold spend. destruct (Nat.ltb _ _); [done|]. by intros [= <-]. Qed.
Lemma looked_trans w1 w2 w3 : looked w1 w2 -> looked w2 w3 -> looked w1 w3.
Proof. unfold looked. intuition congruence. Qed.

Lemma readDir_ok dir w es w' : readDir fs cap root dir w = Ok (es, w') -> es = entries fs root dir /\ looked w w'.
Proof.
  unfold readDir, entries. destruct (ReadDir fs (walk_abs root dir)) as [l|]; cbn [default].
  - destruct (spend cap (length l) (noteDir dir w)) as [w1|] eqn:E; [|done]. cbn [rbind]. intros [= <- <-]. split; [done|].
    eapply looked_trans; [apply looked_note|by eapply looked_spend].
  - intros [= <- <-]. split; [done|apply looked_note].
Qed.

Lemma match_ok si dir w w' : match_ Match fs cap root realRoot pat rec si dir w = Ok w' ->
  forall names V pre, at_seg si names V pre w ->
  after si names V pre w
    (match drop si (p_segs pat) with
     | [] => []
     | s :: rest => if sg_recursive s then xrec (XStar V rest dir (length names) (length names))
                    else concat (x_step fs root realRoot xrec V rest dir (length names) <$> step_names Match fs root s dir)
     end) w'.
Proof.
  unfold match_. intros H names V pre Hw. destruct (p_segs pat !! si) as [s|] eqn:Es; [|done]. cbn [or_err rbind] in H. cbv zeta in H.
  rewrite (drop_S _ _ _ Es). pose proof (lookup_lt_Some _ _ _ Es) as Hsi. rewrite (as_names _ _ _ _ _ Hw) in H.
  destruct (at_seg_set_start si _ _ _ (length names) _ Hw Hsi) as [Hw1 Hs1].
  destruct (sg_recursive s).
  { apply rec_ok in H. by destruct (H _ _ _ (length names) eq_refl Hsi Hw1 Hs1) as [Ha _]. }
  match type of H with rbind ?m _ = _ => destruct m as [w2|] eqn:E; [|done] end. cbn [rbind] in H. injection H as <-.
  enough (glob_inv si names V pre w2 /\ emitted w2 = foldl (emits names pre) (emitted w) (concat (x_step fs root realRoot xrec V (drop (S si) (p_segs pat)) dir (length names) <$> step_names Match fs root s dir))) as [[Hg1 Hg2 Hg3] Ee].
  { split; [|exact Ee]. rewrite (list_lookup_total_correct _ _ _ Hg3), Hg2. exact Hg1. }
  unfold step_names. destruct (sg_literal s).
  - destruct (spend cap 1 _) as [w3|] eqn:Esp; [|done]. cbn [rbind] in E.
    assert (looked (set_start si (length names) w) w3) as Hl by (eapply looked_trans; [apply looked_note|by eapply looked_spend]).
    pose proof (at_seg_looked _ _ _ _ _ _ Hl Hw1) as Hw3. rewrite (as_names _ _ _ _ _ Hw3) in E.
    destruct (at_seg_set_end si _ _ _ (length (names ++ [sg_glob s])) _ (at_seg_set _ _ (names ++ [sg_glob s]) _ _ _ Hw3) Hsi) as [Hw4 He4].
    destruct Hl as (_ & _ & Hls & _ & Hle).
    destruct (step_ok si names V pre dir (sg_glob s) (negb (isDir fs root (walk_join dir (sg_glob s)))) _ w2 Hsi Hw4) as (Hw5 & Hs5 & E5).
    + cbn. by rewrite Hls.
    + cbn in He4 |- *. rewrite He4, length_app. cbn. f_equal. lia.
    + rewrite <- E. destruct (Nat.eqb (S si) N); [|done]. by destruct (isDir fs root _).
    + split.
      * split; [by eapply at_seg_set| |done]. rewrite (as_names _ _ _ _ _ Hw5). by rewrite take_app_length.
      * rewrite E5. cbn [concat fmap list_fmap]. rewrite app_nil_r. f_equal. exact Hle.
  - destruct (readDir fs cap root dir _) as [[es w3]|] eqn:Er; [|done]. cbn [rbind] in E. apply readDir_ok in Er as [-> Hl].
    pose proof (at_seg_looked _ _ _ _ _ _ Hl Hw1) as Hw3. destruct Hl as (_ & _ & Hls & _ & Hle).
    assert (glob_inv si names V pre w3) as Hg3.
    { split; [by eapply at_seg_set| |by rewrite Hls]. rewrite (as_names _ _ _ _ _ Hw3). by rewrite take_ge. }
    destruct (match_entries_ok si names V pre dir (sg_glob s) _ _ _ Hsi Hg3 E) as [Hg4 Ee].
    split; [done|]. rewrite Ee, Hle. f_equal. symmetry. apply concat_filter.
Qed.

(** The loops of ["**"]. *)
Lemma star_file_ok si names V pre dir n0 w e : S si = N -> at_seg si names V pre w -> w_starts w !! si = Some n0 ->
  let w' := star_file fs root pat si dir w e in
  at_seg si names V pre w' /\ w_starts w' !! si = Some n0 /\
  emitted w' = foldl (emits names pre) (emitted w) (x_file fs root dir n0 (length names) e).
Proof.
  intros HN Hw Hs. cbv zeta. unfold star_file, x_file, file_entry.
  destruct (bool_decide (EType e = FDir)) eqn:Ed.
  { apply bool_decide_eq_true in Ed. rewrite Ed. done. }
  destruct (bool_decide (EType e = FRegular)) eqn:Er; cbn [negb andb orb]; [|destruct (isDir fs root _); [done|]].
  all: cbn [negb andb orb]; rewrite (as_names _ _ _ _ _ Hw).
  all: destruct (at_seg_set_end si _ _ _ (length (names ++ [EName e])) _ (at_seg_set _ _ (names ++ [EName e]) _ _ _ Hw) ltac:(lia)) as [Hw1 He1].
  all: pose proof (at_seg_snoc _ _ _ _ _ _ _ Hw1 Hs He1) as Hw2; destruct (at_seg_full _ _ _ _ _ Hw2 HN) as [Es Ee].
  all: change (w_names (set_names (names ++ [EName e]) w)) with (names ++ [EName e]).
  all: pose proof (emit_emits names pre (walk_join dir (EName e)) [EName e] [(n0, length (names ++ [EName e]))] _ (as_names _ _ _ _ _ Hw1) Es Ee) as Em.
  all: pose proof (at_seg_emit _ _ _ _ (walk_join dir (EName e)) _ Hw1) as Hw3.
  all: rewrite (as_names _ _ _ _ _ Hw3), length_app in *; cbn [length] in *; rewrite Nat.add_sub, take_app_length.
  all: destruct (at_seg_set_end si _ _ _ (length names) _ (at_seg_set _ _ names _ _ _ Hw3) ltac:(lia)) as [Hw4 _].
  all: split_and!; [exact Hw4|cbn; rewrite emit_starts; exact Hs|]; rewrite <- (Nat.add_1_r (length names)); exact Em.
Qed.

Lemma star_files_ok si names V pre dir n0 es w : S si = N -> at_seg si names V pre w -> w_starts w !! si = Some n0 ->
  let w' := foldl (star_file fs root pat si dir) w es in
  at_seg si names V pre w' /\ w_starts w' !! si = Some n0 /\
  emitted w' = foldl (emits names pre) (emitted w) (concat (x_file fs root dir n0 (length names) <$> es)).
Proof.
  intros HN. revert w. induction es as [|e es IH]; intros w Hw Hs; [done|]. cbn [foldl].
  destruct (star_file_ok si names V pre dir n0 w e HN Hw Hs) as (Hw1 & Hs1 & E1). destruct (IH _ Hw1 Hs1) as (Hw2 & Hs2 & E2).
  split_and!; [done|done|]. rewrite fmap_cons. cbn [concat]. by rewrite foldl_app, <- E1.
Qed.

Lemma star_dir_ok si names V pre dir n0 w w' e : si < N -> at_seg si names V pre w -> w_starts w !! si = Some n0 ->
  star_dir fs root realRoot rec si dir (Nat.eqb (S si) N) w e = Ok w' ->
  at_seg si names V pre w' /\ w_starts w' !! si = Some n0 /\
  emitted w' = foldl (emits names pre) (emitted w) (x_down fs root realRoot xrec V (drop (S si) (p_segs pat)) dir n0 (length names) e).
Proof.
  intros Hsi Hw Hs. unfold star_dir, x_down, descends.
  destruct (negb _ && negb _); cbn [negb andb]; [by intros [= <-]|]. destruct (pruned (EName e)); cbn [negb andb]; [by intros [= <-]|].
  destruct (enterDir fs root realRoot _ w) as [[key w1]|] eqn:Een.
  - destruct (enterDir_some _ _ _ _ _ _ _ _ Hw Een) as (-> & Hk & Hw1 & Ee1 & Es1 & _). rewrite (as_names _ _ _ _ _ Hw1).
    destruct (rec _ _) as [w2|] eqn:Er; [|done]. cbn [rbind]. intros [= <-]. apply rec_ok in Er.
    destruct (Er _ _ _ n0 eq_refl Hsi (at_seg_set _ _ _ _ _ _ Hw1) ltac:(by rewrite <- Hs, <- Es1)) as [[Hw2 E2] Hs2].
    rewrite (as_names _ _ _ _ _ Hw2), !length_app. cbn [length]. rewrite Nat.add_sub, take_app_length.
    destruct (at_seg_set_end si _ _ _ (length names) _ (at_seg_set _ _ names _ _ _ Hw2) Hsi) as [Hw3 _].
    split_and!; [by apply at_seg_leave|done|]. change (emitted (leaveDir key _)) with (emitted w2). rewrite E2, foldl_emits_via, app_nil_r.
    rewrite length_app. cbn [length]. rewrite Nat.add_1_r. f_equal. exact Ee1.
  - intros [= <-]. by rewrite (enterDir_none _ _ _ _ _ _ Hw Een).
Qed.

Lemma star_dirs_ok si names V pre dir n0 es w w' : si < N -> at_seg si names V pre w -> w_starts w !! si = Some n0 ->
  rfold (star_dir fs root realRoot rec si dir (Nat.eqb (S si) N)) w es = Ok w' ->
  at_seg si names V pre w' /\ w_starts w' !! si = Some n0 /\
  emitted w' = foldl (emits names pre) (emitted w) (concat (x_down fs root realRoot xrec V (drop (S si) (p_segs pat)) dir n0 (length names) <$> es)).
Proof.
  intros Hsi. revert w. induction es as [|e es IH]; intros w Hw Hs; cbn [rfold]; [by intros [= <-]|].
  destruct (star_dir _ _ _ _ _ _ _ w e) as [w1|] eqn:E; [|done]. cbn [rbind]. intros H.
  destruct (star_dir_ok _ _ _ _ _ _ _ _ _ Hsi Hw Hs E) as (Hw1 & Hs1 & E1). destruct (IH _ Hw1 Hs1 H) as (Hw2 & Hs2 & E2).
  split_and!; [done|done|]. rewrite fmap_cons. cbn [concat]. by rewrite foldl_app, <- E1.
Qed.

Lemma matchStar_ok si dir w w' : matchStar fs cap root realRoot pat rec si dir (Nat.eqb (S si) N) w = Ok w' ->
  forall names V pre n0, si < N -> at_seg si names V pre w -> w_starts w !! si = Some n0 ->
  after si names V pre w
    (match drop (S si) (p_segs pat) with
     | [] => concat (x_file fs root dir n0 (length names) <$> entries fs root dir)
     | rest => (fun '(rel, ns, sp) => (rel, ns, (n0, length names) :: sp)) <$> xrec (XMatch V rest dir (length names))
     end ++ concat (x_down fs root realRoot xrec V (drop (S si) (p_segs pat)) dir n0 (length names) <$> entries fs root dir)) w' /\
  w_starts w' !! si = Some n0.
Proof.
  unfold matchStar. intros H names V pre n0 Hsi Hw Hs. cbv zeta in H. rewrite (as_names _ _ _ _ _ Hw) in H.
  destruct (at_seg_set_end si _ _ _ (length names) _ Hw Hsi) as [Hw1 He1].
  match type of H with rbind ?m _ = _ => destruct m as [w2|] eqn:E; [|done] end. cbn [rbind] in H.
  assert (at_seg si names V pre w2 /\ w_starts w2 !! si = Some n0 /\ emitted w2 = foldl (emits names pre) (emitted w)
    (match drop (S si) (p_segs pat) with
     | [] => concat (x_file fs root dir n0 (length names) <$> entries fs root dir)
     | rest => (fun '(rel, ns, sp) => (rel, ns, (n0, length names) :: sp)) <$> xrec (XMatch V rest dir (length names))
     end)) as (Hw2 & Hs2 & E2).
  { destruct (Nat.eqb_spec (S si) N) as [HN|HN].
    - destruct (readDir fs cap root dir _) as [[es w3]|] eqn:Er; [|done]. cbn [rbind] in E. injection E as <-. apply readDir_ok in Er as [-> Hl].
      pose proof (at_seg_looked _ _ _ _ _ _ Hl Hw1) as Hw3. destruct Hl as (_ & _ & Hls & _ & Hle).
      assert (drop (S si) (p_segs pat) = []) as -> by (apply drop_ge; lia).
      destruct (star_files_ok si names V pre dir n0 (entries fs root dir) w3 HN Hw3) as (? & ? & Ef); [by rewrite Hls|].
      split_and!; [done|done|]. rewrite Ef. by rewrite Hle.
    - destruct (drop (S si) (p_segs pat)) as [|s rest] eqn:Ed; [apply (f_equal length) in Ed; rewrite length_drop in Ed; cbn in Ed; lia|].
      apply rec_ok in E. destruct (E _ _ _ (at_seg_snoc _ _ _ _ _ _ _ Hw1 Hs He1)) as [Hw3 E3]. rewrite Ed in E3.
      apply at_seg_pred in Hw3 as (Hw3 & Hs3 & _). split_and!; [done|done|]. by rewrite E3, foldl_emits_span. }
  destruct (readDir fs cap root dir w2) as [[es w3]|] eqn:Er; [|done]. cbn [rbind] in H. apply readDir_ok in Er as [-> Hl].
  pose proof (at_seg_looked _ _ _ _ _ _ Hl Hw2) as Hw3. destruct Hl as (_ & _ & Hls & _ & Hle).
  destruct (star_dirs_ok si names V pre dir n0 _ w3 w' Hsi Hw3 ltac:(by rewrite Hls) H) as (Hw4 & Hs4 & E4).
  split; [|done]. split; [done|]. by rewrite E4, foldl_app, <- E2, Hle.
Qed.
End rec.

(** The walker emits what [expand] lists, however much fuel is left over. *)
Lemma run_ok f g c w w' : f <= g -> run f c w = Ok w' -> call_ok (expand g) c w w'.
Proof.
  revert g c w w'. induction f as [|f IH]; intros g c w w' Hg; [done|]. destruct g as [|g]; [lia|].
  assert (forall c w w', run f c w = Ok w' -> call_ok (expand g) c w w') as Hrec by (intros; apply IH; [lia|done]).
  destruct c as [si dir|si dir last]; cbn [PathPat.run call_ok].
  - intros H names V pre Hw. pose proof (match_ok _ _ Hrec _ _ _ _ H names V pre Hw) as Ha. cbn [PathPatWalk.expand].
    destruct (drop si (p_segs pat)); exact Ha.
  - intros H names V pre n0 -> Hsi Hw Hs. pose proof (matchStar_ok _ _ Hrec _ _ _ _ H names V pre n0 Hsi Hw Hs) as Ha. cbn [PathPatWalk.expand].
    destruct (drop (S si) (p_segs pat)); exact Ha.
Qed.

(** ** The walk ends *)

(** A descent spends an entry or goes on to the next segment. *)
Definition good (c : call) : Prop :=
  match c with CMatch si _ => si < N | CStar si _ last => si < N /\ last = Nat.eqb (S si) N end.
Definition need (c : call) (spent : nat) : nat :=
  cap - spent + match c with CMatch si _ => 2 * (N - si) + 1 | CStar si _ _ => 2 * (N - si) end.

(** The end of a call: what was spent stays spent, within the cap. *)
Definition ends (b : nat) (r : result walkStop walker) : Prop :=
  match r with Ok w' => b <= w_budget w' <= cap | Err e => e = WalkBudget end.

Lemma ends_bind b m k : ends b m -> (forall w, b <= w_budget w <= cap -> ends b (k w)) -> ends b (rbind m k).
Proof. destruct m as [w|e]; cbn; [auto|done]. Qed.

Lemma ends_weaken b b' r : ends b r -> b' <= b -> ends b' r.
Proof. destruct r; cbn; [lia|done]. Qed.

Lemma ends_rfold b (f : walker -> DirEntry -> result walkStop walker) es w :
  b <= w_budget w <= cap -> (forall w e, e ∈ es -> b <= w_budget w <= cap -> ends b (f w e)) -> ends b (rfold f w es).
Proof.
  revert w. induction es as [|e es IH]; intros w Hw Hf; cbn [rfold]; [done|].
  apply ends_bind; [apply Hf; [by left|done]|]. intros w' Hw'. apply IH; [done|]. intros w1 e1 He. apply Hf. by right.
Qed.

Lemma ends_spend n w : w_budget w <= cap -> ends (w_budget w + n) (spend cap n w).
Proof. intros Hw. unfold spend. destruct (Nat.ltb_spec cap (w_budget w + n)); cbn; [done|lia]. Qed.

Lemma budget_note dir w : w_budget (noteDir dir w) = w_budget w.
Proof. unfold noteDir. by case_bool_decide. Qed.

Lemma budget_emit rel w : w_budget (emit pat rel w) = w_budget w.
Proof. unfold emit. by case_bool_decide. Qed.

Lemma budget_enter rel w key w1 : enterDir fs root realRoot rel w = Some (key, w1) -> w_budget w1 = w_budget w.
Proof. unfold enterDir. destruct (dir_key _ _ _ _); [|done]. case_bool_decide; [done|]. by intros [= _ <-]. Qed.

(** Who reads an entry has spent one. *)
Lemma ends_readDir b dir w (k : list DirEntry * walker -> result walkStop walker) : b <= w_budget w <= cap ->
  (forall es w', b <= w_budget w' <= cap -> (es <> [] -> S b <= w_budget w') -> ends b (k (es, w'))) -> ends b (rbind (readDir fs cap root dir w) k).
Proof.
  intros Hw Hk. unfold readDir. destruct (ReadDir fs (walk_abs root dir)) as [es|].
  - pose proof (ends_spend (length es) (noteDir dir w)) as Hs. rewrite budget_note in Hs. specialize (Hs ltac:(lia)).
    destruct (spend cap _ _) as [w1|e]; cbn in Hs |- *; [|done]. apply Hk; [lia|]. destruct es; [done|]. cbn in Hs. lia.
  - cbn. apply Hk; [rewrite budget_note; lia|done].
Qed.

Section ends.
Context (f : nat) (rec : call -> walker -> result walkStop walker).
Context (Hrec : forall c w, good c -> w_budget w <= cap -> need c (w_budget w) < f -> ends (w_budget w) (rec c w)).

Lemma ends_rec b c w (k : walker -> result walkStop walker) : b <= w_budget w <= cap -> good c -> need c (w_budget w) < f ->
  (forall w', w_budget w <= w_budget w' <= cap -> ends b (k w')) -> ends b (rbind (rec c w) k).
Proof.
  intros Hw Hg Hn Hk. pose proof (Hrec c w Hg ltac:(lia) Hn) as Hr. destruct (rec c w) as [w'|e]; cbn in Hr |- *; [by apply Hk|done].
Qed.

Lemma ends_match si dir w : si < N -> w_budget w <= cap -> need (CMatch si dir) (w_budget w) < S f ->
  ends (w_budget w) (match_ Match fs cap root realRoot pat rec si dir w).
Proof.
  intros Hsi Hw Hn. unfold match_. destruct (lookup_lt_is_Some_2 _ _ Hsi) as [s Es]. rewrite Es. cbn [or_err rbind]. cbv zeta.
  destruct (sg_recursive s).
  { apply (Hrec (CStar si dir (Nat.eqb (S si) N)) (set_start si (length (w_names w)) w)); [done|exact Hw|unfold need in *; cbn in *; lia]. }
  apply ends_bind; [|done]. unfold need in Hn. destruct (sg_literal s).
  - pose proof (ends_spend 1 (noteDir dir (set_start si (length (w_names w)) w))) as Hs. rewrite budget_note in Hs. specialize (Hs Hw).
    change (w_budget (set_start si _ w)) with (w_budget w) in Hs. destruct (spend cap 1 _) as [w1|e]; cbn [ends rbind] in Hs |- *; [|done].
    destruct (Nat.eqb_spec (S si) N); [destruct (isDir _ _ _); unfold ends; rewrite ?budget_emit; cbn [w_budget set_end set_names]; lia|].
    destruct (enterDir _ _ _ _ _) as [[key w2]|] eqn:Ee; [|cbn; lia]. apply budget_enter in Ee. cbn in Ee.
    apply ends_rec; [lia|cbn; lia|unfold need; lia|]. intros w3 Hw3. cbn. lia.
  - apply ends_readDir; [done|]. intros es w1 Hw1 Hne. eapply (ends_weaken (w_budget w1)); [|lia].
    apply ends_rfold; [lia|]. intros w2 e He Hw2. unfold match_entry. assert (S (w_budget w) <= w_budget w1) by (apply Hne; intros ->; set_solver). destruct (Match _ _) as [[]|]; [|done|done].
    destruct (Nat.eqb_spec (S si) N) as [HN|HN].
    + destruct (_ || _); unfold ends; rewrite ?budget_emit; cbn [w_budget set_end set_names]; lia.
    + destruct (enterDir _ _ _ _ _) as [[key w3]|] eqn:Ee; [|done]. apply budget_enter in Ee. cbn in Ee.
      apply ends_rec; [lia|cbn; lia|unfold need; lia|]. intros w4 Hw4. cbn. lia.
Qed.

Lemma ends_matchStar si dir last w : good (CStar si dir last) -> w_budget w <= cap -> need (CStar si dir last) (w_budget w) < S f ->
  ends (w_budget w) (matchStar fs cap root realRoot pat rec si dir last w).
Proof.
  intros [Hsi ->] Hw Hn. unfold matchStar. cbv zeta. unfold need in Hn.
  apply ends_bind.
  - destruct (Nat.eqb_spec (S si) N) as [HN|HN].
    + apply ends_readDir; [done|]. intros es w1 Hw1 _. cbn.
      assert (w_budget (foldl (star_file fs root pat si dir) w1 es) = w_budget w1) as ->; [|lia].
      clear Hw1. revert w1. induction es as [|e es IH]; intros w1; [done|]. cbn [foldl]. rewrite IH. unfold star_file.
      destruct (bool_decide _); [done|]. destruct (_ && _); [done|]. cbn. by rewrite budget_emit.
    + apply (Hrec (CMatch (S si) dir) (set_end si (length (w_names w)) w)); [cbn; lia|exact Hw|unfold need; cbn; lia].
  - intros w1 Hw1. eapply (ends_weaken (w_budget w1)); [|lia]. apply ends_readDir; [lia|]. intros es w2 Hw2 Hne.
    eapply (ends_weaken (w_budget w2)); [|lia]. apply ends_rfold; [lia|].
    intros w3 e He Hw3. assert (S (w_budget w1) <= w_budget w2) by (apply Hne; intros ->; set_solver). unfold star_dir.
    destruct (_ && _); [done|]. destruct (pruned _); [done|].
    destruct (enterDir _ _ _ _ _) as [[key w4]|] eqn:Ee; [|done]. apply budget_enter in Ee.
    apply ends_rec; [cbn; lia|done|unfold need; cbn; lia|]. intros w5 Hw5. cbn in *. lia.
Qed.
End ends.

Lemma run_ends f c w : good c -> w_budget w <= cap -> need c (w_budget w) < f -> ends (w_budget w) (run f c w).
Proof.
  revert c w. induction f as [|f IH]; intros c w Hg Hw Hn; [lia|]. cbn [PathPat.run].
  destruct c as [si dir|si dir last]; [by apply (ends_match f)|by apply (ends_matchStar f)].
Qed.
End walker.

(** ** What a walk returns *)

(** Spans one after the other. *)
Fixpoint tiled (lo : nat) (sp : list (nat * nat)) (hi : nat) : Prop :=
  match sp with [] => lo = hi | (a, b) :: sp' => a = lo /\ a <= b /\ tiled b sp' hi end.

(** The names a pattern admits, segment by segment: one that matches the glob,
    or any run for ["**"]. *)
Inductive covers (Match : bytes -> bytes -> option bool) : list segment -> list bytes -> Prop :=
  | CovNil : covers Match [] []
  | CovOne s segs name ns : sg_recursive s = false ->
      (if sg_literal s then name = sg_glob s else Match (sg_glob s) name = Some true) ->
      covers Match segs ns -> covers Match (s :: segs) (name :: ns)
  | CovRun s segs run ns : sg_recursive s = true -> covers Match segs ns -> covers Match (s :: segs) (run ++ ns).

Section result.
Context (Match : bytes -> bytes -> option bool) (fs : FS) (cap : nat) (root : bytes) (pat : Pattern).

Lemma step_names_ok s dir name b : (name, b) ∈ step_names Match fs root s dir ->
  if sg_literal s then name = sg_glob s else Match (sg_glob s) name = Some true.
Proof.
  unfold step_names. destruct (sg_literal s); [intros H%list_elem_of_singleton; by injection H|].
  intros (e & [= -> ->] & [H _]%list_elem_of_filter)%list_elem_of_fmap. unfold matched in H. by destruct (Match _ _) as [[]|].
Qed.

(** A derivation covers the pattern, its spans tile its names, and its path is
    the names, joined. *)
Definition named_by (dir rel : bytes) (ns : list bytes) : Prop := rel = foldl walk_join dir ns.

Lemma derives_covers realRoot V segs dir n d : derives Match fs root realRoot V segs dir n d ->
  covers Match segs d.1.2 /\ tiled n d.2 (n + length d.1.2) /\ named_by dir d.1.1 d.1.2.
Proof.
  revert V segs dir n d.
  apply (derives_ind2 Match fs root realRoot
    (fun V segs dir n d _ => covers Match segs d.1.2 /\ tiled n d.2 (n + length d.1.2) /\ named_by dir d.1.1 d.1.2)
    (fun V rest dir n0 n d _ => exists run ns, d.1.2 = run ++ ns /\ covers Match rest ns /\ (n0 <= n -> tiled n0 d.2 (n + length d.1.2)) /\ named_by dir d.1.1 d.1.2)).
  - intros V s dir n name Hr Hn. cbn. split; [|split; [lia|done]].
    apply CovOne; [done|by eapply step_names_ok|constructor].
  - intros V V' s s' rest dir n name b rel ns sp Hr Hn He _ (IH1 & IH2 & IH3). cbn in *.
    split; [|split; [split_and!; [done|lia|by rewrite <- plus_n_Sm]|done]]. apply CovOne; [done|by eapply step_names_ok|done].
  - intros V s rest dir n [[rel ns'] sp] Hr _ (run & ns & E & IH1 & IH2 & IH3). cbn in *. subst ns'.
    split; [by apply CovRun|split; [by apply IH2|done]].
  - intros V s rest dir n0 n rel ns sp _ (IH1 & IH2 & IH3). exists [], ns. cbn in *. split; [done|split; [done|split; [by intros|done]]].
  - intros V dir n0 n e He Hf. exists [EName e], []. cbn. split; [done|split; [constructor|split; [lia|done]]].
  - intros V V' rest dir n0 n e rel ns sp He Hd Hen _ (run & ns1 & E & IH1 & IH2 & IH3). cbn in *. subst ns.
    exists (EName e :: run), ns1. cbn. split; [done|split; [done|split; [|done]]]. intros Hle. rewrite <- plus_n_Sm. apply IH2. lia.
Qed.

Lemma emits_all names0 pre l acc : NoDup (m_path <$> acc.1) -> (forall p, p ∈ acc.2 <-> p ∈ m_path <$> acc.1) ->
  let acc' := foldl (emits pat names0 pre) acc l in
  NoDup (m_path <$> acc'.1) /\ (forall p, p ∈ m_path <$> acc'.1 <-> p ∈ m_path <$> acc.1 \/ exists ns sp, (p, ns, sp) ∈ l) /\
  (forall m, m ∈ acc'.1 -> m ∈ acc.1 \/ exists ns sp, (m_path m, ns, sp) ∈ l /\ m_captures m = capture_of (names0 ++ ns) (pre ++ sp) <$> p_caps pat).
Proof.
  revert acc. induction l as [|[[rel ns] sp] l IH]; intros acc Hn He; cbn [foldl]; [set_solver|].
  unfold emits at 2 4 6. case_bool_decide as Hin.
  - destruct (IH acc Hn He) as (H1 & H2 & H3). split_and!; [done| |].
    + intros p. rewrite H2. split; [set_solver|]. intros [?|(ns' & sp' & [E|?]%elem_of_cons)]; [by left| |right; eauto].
      left. injection E as -> -> ->. by apply He.
    + intros m Hm. destruct (H3 m Hm) as [?|(ns' & sp' & ? & ?)]; [by left|right; exists ns', sp'; set_solver].
  - match goal with |- context [foldl _ ?a l] => destruct (IH a) as (H1 & H2 & H3) end; cbn [fst snd] in *.
    + rewrite fmap_app. apply list.NoDup_app. split_and!; [done| |apply NoDup_singleton]. intros p Hp ->%list_elem_of_singleton. by apply Hin, He.
    + intros p. rewrite fmap_app. cbn. set_solver.
    + split_and!; [done| |].
      * intros p. rewrite H2, fmap_app. cbn. set_solver.
      * intros m Hm. destruct (H3 m Hm) as [[?|Hs%list_elem_of_singleton]%elem_of_app|(ns' & sp' & ? & ?)]; [by left|right|right; exists ns', sp'; set_solver].
        subst m. exists ns, sp. cbn. set_solver.
Qed.

Lemma bytes_le_trans a b c : bytes_ltb b a = false -> bytes_ltb c b = false -> bytes_ltb c a = false.
Proof.
  intros H1 H2. apply not_true_iff_false. intros H3. destruct (bytes_ltb a b) eqn:E.
  - by rewrite (bytes_ltb_trans _ _ _ H3 E) in H2.
  - rewrite (bytes_ltb_total _ _ E H1) in H3. congruence.
Qed.

Lemma bytes_less_le a b : bytes_ltb a b = true -> bytes_ltb b a = false.
Proof. intros H. apply not_true_iff_false. intros H2. pose proof (bytes_ltb_trans _ _ _ H H2) as Hc. by rewrite bytes_ltb_irrefl in Hc. Qed.

Definition real_root : bytes := match EvalSymlinks fs root with Some r => r | None => Clean root end.
Definition reaches (d : derivation) : Prop := derives Match fs root real_root ∅ (p_segs pat) [] 0 d.

(** C12: a walk of any file system, cyclic or infinite, ends; unless it gives
    up for examining more entries than its cap it returns exactly the paths the
    pattern derives there, each once and sorted, with the captures of the first
    derivation in the order of the walk; the names of a path cover the pattern
    segment by segment, and their spans, which the captures are cut at, follow
    one another. *)
Theorem walk_exact : p_segs pat <> [] ->
  match Walk Match fs cap pat root with
  | Err e => e = WalkBudget
  | Ok res =>
      (forall p, p ∈ m_path <$> Matches res <-> exists ns sp, reaches (p, ns, sp)) /\
      NoDup (m_path <$> Matches res) /\ StronglySorted (fun a b => path_less b a = false) (Matches res) /\
      (forall m, m ∈ Matches res -> exists ns sp, reaches (m_path m, ns, sp) /\ m_captures m = capture_of ns sp <$> p_caps pat /\
         covers Match (p_segs pat) ns /\ tiled 0 sp (length ns) /\ named_by [] (m_path m) ns) /\
      (forall g, walk_fuel cap pat <= g ->
         Matches res = SliceStable path_less (foldl (emits pat [] []) ([], ∅) (expand Match fs root real_root g (XMatch ∅ (p_segs pat) [] 0))).1)
  end.
Proof.
  intros Hne. unfold Walk. fold real_root. set (w0 := newWalker pat).
  assert (0 < length (p_segs pat)) as Hlen by (destruct (p_segs pat); [done|cbn; lia]).
  pose proof (run_ends Match fs cap root real_root pat (walk_fuel cap pat) (CMatch 0 []) w0 Hlen ltac:(cbn; lia)) as Hends.
  specialize (Hends ltac:(unfold need, walk_fuel; cbn [w_budget w0 newWalker]; lia)).
  destruct (run _ _ _ _ _ _ _ _ _) as [w|e] eqn:Er; cbn [rbind ends] in *; [|done]. clear Hends.
  assert (at_seg pat 0 [] ∅ [] w0) as Hw0 by (split; try done; cbn; apply length_replicate).
  assert (forall g, walk_fuel cap pat <= g -> w_matches w = (foldl (emits pat [] []) ([], ∅) (expand Match fs root real_root g (XMatch ∅ (p_segs pat) [] 0))).1) as Hm.
  { intros g Hg. destruct (run_ok Match fs cap root real_root pat _ g _ _ _ Hg Er [] ∅ [] Hw0) as [_ E]. rewrite drop_0 in E.
    exact (f_equal fst E). }
  assert (forall g, walk_fuel cap pat <= g -> let l := expand Match fs root real_root g (XMatch ∅ (p_segs pat) [] 0) in
    NoDup (m_path <$> w_matches w) /\ (forall p, p ∈ m_path <$> w_matches w <-> exists ns sp, (p, ns, sp) ∈ l) /\
    (forall m, m ∈ w_matches w -> exists ns sp, (m_path m, ns, sp) ∈ l /\ m_captures m = capture_of ns sp <$> p_caps pat)) as Hl.
  { intros g Hg l. pose proof (Hm g Hg) as E. fold l in E. rewrite E. destruct (emits_all [] [] l ([], ∅)) as (H1 & H2 & H3); [constructor|set_solver|].
    split_and!; [done|intros p; rewrite H2; set_solver|]. intros m Hin. destruct (H3 m Hin) as [?|?]; [set_solver|done]. }
  cbn [Matches]. destruct (Hl _ (le_n _)) as (Hnd & _ & Hcap). split_and!.
  - intros p. rewrite SliceStable_perm. split.
    + destruct (Hl _ (le_n _)) as (_ & H & _). rewrite H. intros (ns & sp & Hin). exists ns, sp. exact (expand_sound _ _ _ _ _ _ _ Hin).
    + intros (ns & sp & Hd). apply expand_complete in Hd as [k Hk]. destruct (Hl (Nat.max k (walk_fuel cap pat)) ltac:(lia)) as (_ & H & _).
      apply H. exists ns, sp. apply Hk. lia.
  - by rewrite SliceStable_perm.
  - apply SliceStable_sorted; unfold path_less; [intros a b c; apply bytes_le_trans|intros a b; apply bytes_less_le].
  - intros m. rewrite SliceStable_perm. intros Hin. destruct (Hcap m Hin) as (ns & sp & Hin' & E).
    pose proof (expand_sound _ _ _ _ _ _ _ Hin') as Hd. exists ns, sp. split_and!; [done|done|..].
    all: pose proof (derives_covers _ _ _ _ _ _ Hd) as (? & ? & ?); done.
  - intros g Hg. by rewrite (Hm g Hg).
Qed.
End result.

Lemma walk_exact_witness : let pat := demo_pattern "q/(**)/*.sql" in
  p_segs pat <> [] /\ exists res, Walk demo_match demo_fs 100 pat (bs "/p") = Ok res /\
  (m_path <$> Matches res = bs <$> ["q/a/x.sql"; "q/b/z.sql"; "q/top.sql"]%string) /\
  (m_captures <$> Matches res = [[bs "a"]; [bs "b"]; [[]]]) /\
  forall p, p ∈ m_path <$> Matches res <-> exists ns sp, reaches demo_match demo_fs (bs "/p") pat (p, ns, sp).
Proof.
  intros pat. assert (p_segs pat <> []) as Hne by by vm_compute.
  pose proof (walk_exact demo_match demo_fs 100 (bs "/p") pat Hne) as H.
  split; [done|]. destruct (Walk demo_match demo_fs 100 pat (bs "/p")) as [res|e] eqn:E; [|by vm_compute in E].
  exists res. split; [done|]. destruct H as (H & _). split_and!; [..|exact H]; vm_compute in E; injection E as <-; reflexivity.
Defined.
