(* ===== verification/Catalog.v ===== *)
(** * Catalog

    [internal/cache/catalog.go]: the snapshot of the schema, and
    [internal/dialect/oracle.go] and [convert.go]: what a database answers
    about a rendering, and its form in the committed cache.  [uint32] and
    [int16] values are only compared and are kept as [N] and [Z]. *)

From S2P Require Import Prelude Diagnostics.

Record Column := mkColumn {
  ColName : bytes; ColAtt : Z; ColTypeOID : N; ColTypeName : bytes; ColNotNull : bool; ColHasDefault : bool;
}.
Record Table := mkTable {
  TabSchema : bytes; TabName : bytes; TabOID : N; TabHasChildren : bool; TabIsView : bool; TabCols : list Column;
}.
Record Catalog := mkCatalog { CatFormat : Z; CatSchemaFP : bytes; CatTables : list Table }.

(** The first element that satisfies a test, the loops' [return &xs[i]]. *)
Definition first {A} (P : A -> bool) (l : list A) : option A := List.find P l.

(** [Lookup] keeps the first table of the name and prefers a public one. *)
Definition Lookup (c : Catalog) (name : bytes) : option Table :=
  let named := base.filter (fun t => TabName t = name) (CatTables c) in
  match first (fun t => bool_decide (TabSchema t = bs "public")) named with
  | Some t => Some t
  | None => head named
  end.

Definition LookupQualified (c : Catalog) (schema name : bytes) : option Table :=
  match schema with
  | [] => Lookup c name
  | _ => first (fun t => bool_decide (TabSchema t = schema) && bool_decide (TabName t = name)) (CatTables c)
  end.

Definition LookupOID (c : Catalog) (oid : N) : option Table := first (fun t => N.eqb (TabOID t) oid) (CatTables c).
Definition Col (t : Table) (name : bytes) : option Column := first (fun c => bool_decide (ColName c = name)) (TabCols t).
Definition ColByAtt (t : Table) (att : Z) : option Column := first (fun c => Z.eqb (ColAtt c) att) (TabCols t).

(** ** The oracle's answers *)

Record TypeExt := mkTypeExt { TxSchema : bytes; TxKind : bytes; TxLabels : list bytes }.
Record TypeRef := mkTypeRef { TyOID : N; TyName : bytes; TyExt : option TypeExt }.
Definition IsEnum (t : TypeRef) : bool :=
  match TyExt t with Some x => bool_decide (TxKind x = bs "e") | None => false end.
Record ColumnDesc := mkColumnDesc { CdName : bytes; CdType : TypeRef; CdSrcRel : N; CdSrcAtt : Z }.
Record Desc := mkDesc { DParams : list TypeRef; DColumns : list ColumnDesc }.

(** ** Cache entries *)

Record EntryType := mkEntryType { EtOID : N; EtName : bytes; EtSchema : bytes; EtKind : bytes; EtLabels : list bytes }.
Record EntryColumn := mkEntryColumn {
  EcName : bytes; EcOID : N; EcTypeName : bytes; EcTypeSchema : bytes; EcTypeKind : bytes; EcTypeLabels : list bytes;
  EcSrcRel : N; EcSrcAtt : Z;
}.
Record OracleEntry := mkOracleEntry {
  OeFormat : Z; OeSchemaFP : bytes; OeRenderedSQL : bytes; OeParams : list EntryType; OeColumns : list EntryColumn;
}.

Definition EntryFromDesc (fp renderedSQL : bytes) (d : Desc) : OracleEntry :=
  let ext t := default (mkTypeExt [] [] []) (TyExt t) in
  mkOracleEntry 0 fp renderedSQL
    ((fun p => mkEntryType (TyOID p) (TyName p) (TxSchema (ext p)) (TxKind (ext p)) (TxLabels (ext p))) <$> DParams d)
    ((fun c => let t := CdType c in
        mkEntryColumn (CdName c) (TyOID t) (TyName t) (TxSchema (ext t)) (TxKind (ext t)) (TxLabels (ext t)) (CdSrcRel c) (CdSrcAtt c))
       <$> DColumns d).

Definition typeExt (schema kind : bytes) (labels : list bytes) : option TypeExt :=
  match kind with [] => None | _ => Some (mkTypeExt schema kind labels) end.

Definition DescFromEntry (e : OracleEntry) : Desc :=
  mkDesc ((fun p => mkTypeRef (EtOID p) (EtName p) (typeExt (EtSchema p) (EtKind p) (EtLabels p))) <$> OeParams e)
    ((fun c => mkColumnDesc (EcName c) (mkTypeRef (EcOID c) (EcTypeName c) (typeExt (EcTypeSchema c) (EcTypeKind c) (EcTypeLabels c)))
                 (EcSrcRel c) (EcSrcAtt c)) <$> OeColumns e).

(** ** Lemmas *)

Lemma first_spec {A} (P : A -> bool) l x : first P l = Some x -> x ∈ l /\ P x = true.
Proof. intros [H1 H2]%find_some. split; [by apply list_elem_of_In|done]. Qed.

Lemma first_none {A} (P : A -> bool) l : first P l = None <-> forall x, x ∈ l -> P x = false.
Proof.
  split; [intros H x Hx; eapply find_none; [done|by apply list_elem_of_In]|].
  intros H. destruct (first P l) eqn:E; [|done]. apply first_spec in E as [Hx Hp]. rewrite (H _ Hx) in Hp. done.
Qed.

Lemma Lookup_spec c name t : Lookup c name = Some t -> t ∈ CatTables c /\ TabName t = name.
Proof.
  unfold Lookup. destruct (first _ _) as [t'|] eqn:E.
  - intros [= ->]. apply first_spec in E as [E _]. by apply list_elem_of_filter in E as [? ?].
  - intros H%head_Some_elem_of. by apply list_elem_of_filter in H as [? ?].
Qed.

Lemma LookupQualified_spec c schema name t : LookupQualified c schema name = Some t ->
  t ∈ CatTables c /\ TabName t = name /\ (schema = [] \/ TabSchema t = schema).
Proof.
  unfold LookupQualified. destruct schema as [|b s]; [intros [? ?]%Lookup_spec; tauto|].
  intros (Ht & [H1 H2]%andb_true_iff)%first_spec. apply bool_decide_eq_true in H1, H2. tauto.
Qed.

(** A description whose types carry the kind of every extension they have. *)
Definition type_ok (t : TypeRef) : Prop := match TyExt t with Some x => TxKind x <> [] | None => True end.
Definition desc_ok (d : Desc) : Prop := Forall type_ok (DParams d) /\ Forall (fun c => type_ok (CdType c)) (DColumns d).

Lemma typeExt_of t : type_ok t -> let x := default (mkTypeExt [] [] []) (TyExt t) in typeExt (TxSchema x) (TxKind x) (TxLabels x) = TyExt t.
Proof. unfold type_ok. destruct t as [oid n [[sc k ls]|]]; cbn; [|done]. by destruct k. Qed.

Lemma fmap_fixed {A} (f : A -> A) (l : list A) : Forall (fun x => f x = x) l -> f <$> l = l.
Proof. induction 1 as [|x l Hx Hl IH]; cbn; [done|]. by rewrite Hx, IH. Qed.

(** The answer of a database comes back from the cache as it went in. *)
Theorem entry_roundtrip fp sql d : desc_ok d -> DescFromEntry (EntryFromDesc fp sql d) = d.
Proof.
  intros [Hp Hc]. destruct d as [ps cs]. unfold DescFromEntry, EntryFromDesc. cbn in *. rewrite <- !list_fmap_compose.
  f_equal; apply fmap_fixed; eapply list.Forall_impl; [exact Hp| |exact Hc|].
  - intros [oid n x] E%typeExt_of. cbn in *. by rewrite E.
  - intros [n [oid tn x] r a] E%typeExt_of. cbn in *. by rewrite E.
Qed.
