(* ===== verification/Store.v ===== *)
(** * Store

    [internal/cache/store.go] and [env.go]: the committed cache on a file
    system.  The file system below the cache directory is a finite map from
    paths, as lists of names, to nodes; calls on it fail only where the tree
    makes them fail.  What lies behind a symbolic link is an argument, and so is
    the JSON of each record, and SHA-256.  A file is replaced in one step, as the rename of
    its temporary file does. *)

From S2P Require Import Prelude ScanDirectives ScanBodies GoPath Diagnostics Catalog.

(** ** Names *)

Definition MaxFileBytes : N := 67108864.
Definition FormatVersion : Z := 2.
Definition CatalogFile : bytes := bs "catalog.json".
Definition EnvFile : bytes := bs "env.json".
Definition OracleDir : bytes := bs "oracle".
Definition dot_json : bytes := bs ".json".

Definition legacyRootFile (name : bytes) : bool :=
  (HasPrefix name (bs "catalog-") || HasPrefix name (bs "env-")) && HasSuffix name dot_json.

(** ** The identity of a schema

    The input of the hash; the hash itself, in hexadecimal, is an argument. *)
Record SchemaFile := mkSchemaFile { SfPath : bytes; SfContent : bytes }.
Definition write_nul (s : bytes) : bytes := s ++ ["000"%char].
Definition fingerprint_input (dialectName serverVersion : bytes) (files : list SchemaFile) : bytes :=
  write_nul dialectName ++ write_nul serverVersion ++ concat ((fun f => write_nul (SfPath f) ++ write_nul (SfContent f)) <$> files).
Definition Fingerprint (sha256_hex : bytes -> bytes) (dialectName serverVersion : bytes) (files : list SchemaFile) : bytes :=
  sha256_hex (fingerprint_input dialectName serverVersion files).

(** ** Entries *)

Record OracleRef := mkRef { RfTarget : bytes; RfQuery : bytes; RfShape : bytes }.
#[export] Instance OracleRef_eq_dec : EqDecision OracleRef.
Proof. solve_decision. Defined.

Definition safe_byte (c : ascii) : bool :=
  (byte_leb "a" c && byte_leb c "z") || (byte_leb "A" c && byte_leb c "Z") || (byte_leb "0" c && byte_leb c "9")
  || (c =b "_")%char || (c =b "-")%char.
Definition safeSegment (seg : bytes) : bytes :=
  match seg with [] => bs "_" | _ => (fun c => if safe_byte c then c else "_"%char) <$> seg end.

(** The segments of the path of an entry, and the path. *)
Definition ref_segs (r : OracleRef) : list bytes :=
  OracleDir :: (safeSegment <$> split_byte "/" (RfTarget r)) ++ [safeSegment (RfQuery r); safeSegment (RfShape r) ++ dot_json].
Definition OracleFileName (r : OracleRef) : bytes := Join (ref_segs r).

Definition parseOracleRef (rel : bytes) : option OracleRef :=
  let parts := split_byte "/" rel in
  if Nat.ltb (length parts) 4 || negb (bool_decide (head parts = Some OracleDir)) then None
  else
    let last := List.last parts [] in
    if negb (HasSuffix last dot_json) then None
    else
      Some (mkRef (join slash (take (length parts - 3) (drop 1 parts))) (default [] (parts !! (length parts - 2)))
              (take (length last - length dot_json) last)).

(** ** The file system *)

Inductive node := NDir | NFile (data : bytes) | NLink | NOther.
Abbreviation tree := (gmap (list bytes) node).

#[export] Instance node_eq_dec : EqDecision node.
Proof. solve_decision. Defined.

Definition is_dir (n : option node) : bool := match n with Some NDir => true | _ => false end.
Definition is_regular (n : node) : bool := match n with NFile _ => true | _ => false end.

(** The proper prefixes of a path, shortest first. *)
Definition above (p : list bytes) : list (list bytes) := (fun i => take i p) <$> seq 0 (length p).

(** [os.Lstat]; a path through a link is none the code asks for. *)
Definition lstat (t : tree) (p : list bytes) : option node :=
  if forallb (fun q => is_dir (t !! q)) (above p) then t !! p else None.

Section store.
Context (outside : list bytes -> option bytes).

(** [os.ReadFile], which follows links. *)
Definition read_file (t : tree) (p : list bytes) : option bytes :=
  if existsb (fun q => bool_decide (t !! q = Some NLink)) (above p ++ [p]) then outside p
  else match lstat t p with Some (NFile d) => Some d | _ => None end.

Definition ReadFileCapped (t : tree) (p : list bytes) : option bytes :=
  match read_file t p with
  | Some d => if N.ltb MaxFileBytes (N.of_nat (length d)) then None else Some d
  | None => None
  end.

(** ** Writing *)

Inductive StoreError :=
  | SymlinkError (rel : list bytes) | NotADirectory (rel : list bytes) | IsADirectory | NoFingerprint | MarshalError.

(** A call that may fail, and the tree it leaves. *)
Definition step (A : Type) : Type := result StoreError A * tree.

(** [mkdirNoFollow], from the directory [cur] on. *)
Fixpoint mkdirNoFollow (t : tree) (cur : list bytes) (rest : list bytes) : step unit :=
  match rest with
  | [] => (Ok tt, t)
  | seg :: rest =>
      let cur := cur ++ [seg] in
      match t !! cur with
      | None => mkdirNoFollow (<[cur := NDir]> t) cur rest
      | Some NDir => mkdirNoFollow t cur rest
      | Some NLink => (Err (SymlinkError cur), t)
      | Some _ => (Err (NotADirectory cur), t)
      end
  end.

(** [writeAtomicIn]: the rename replaces anything but a directory. *)
Definition writeAtomicIn (t : tree) (p : list bytes) (data : bytes) : step unit :=
  match t !! p with
  | Some NDir => (Err IsADirectory, t)
  | _ => (Ok tt, <[p := NFile data]> t)
  end.

(** [os.MkdirAll] of the cache directory, which is reached as it is configured. *)
Definition mkroot (t : tree) : step unit :=
  match t !! [] with
  | None => (Ok tt, <[[] := NDir]> t)
  | Some NDir => (Ok tt, t)
  | Some _ => (Err (NotADirectory []), t)
  end.

Definition and_then {A} (s : step unit) (f : tree -> step A) : step A :=
  match s with (Ok _, t) => f t | (Err e, t) => (Err e, t) end.

Definition writeFile (t : tree) (rel data : bytes) : step unit :=
  and_then (mkroot t) (fun t =>
  let dir := GoPath.Dir rel in
  and_then (if bool_decide (dir = bs ".") then (Ok tt, t) else mkdirNoFollow t [] (split_byte "/" dir)) (fun t =>
  writeAtomicIn t (split_byte "/" rel) data)).

(** [CheckWritable]: the first directory on the way to an entry that is a link;
    [seen] are the paths checked before. *)
Definition check_path (t : tree) (st : result StoreError (gset (list bytes))) (p : list bytes)
    : result StoreError (gset (list bytes)) :=
  let! seen := st in
  if bool_decide (p ∈ seen) then Ok seen
  else match lstat t p with Some NLink => Err (SymlinkError p) | _ => Ok ({[p]} ∪ seen) end.

(** The directories of an entry: the prefixes of the elements of its [Dir]. *)
Definition ref_dirs (r : OracleRef) : list (list bytes) :=
  let segs := split_byte "/" (GoPath.Dir (OracleFileName r)) in (fun i => take (S i) segs) <$> seq 0 (length segs).

Definition CheckWritable (t : tree) (refs : list OracleRef) : result StoreError unit :=
  let! _ := foldl (check_path t) (check_path t (Ok ∅) [OracleDir]) (flat_map ref_dirs refs) in Ok tt.

(** ** Records

    [json.MarshalIndent] and [json.Unmarshal] of a record. *)
Record Json (A : Type) := mkJson { Marshal : A -> option bytes; Unmarshal : bytes -> option A }.
#[global] Arguments Marshal {A}.
#[global] Arguments Unmarshal {A}.

Definition marshalCanonical {A} (J : Json A) (v : A) : result StoreError bytes :=
  match Marshal J v with Some data => Ok (data ++ [c_lf]) | None => Err MarshalError end.

Record Env := mkEnv {
  EvFormat : Z; EvSchemaFP : bytes; EvDialect : bytes; EvOracleBackend : bytes; EvServerVersion : bytes; EvServerVersionRaw : bytes;
}.

Context (JC : Json Catalog) (JO : Json OracleEntry) (JE : Json Env).

Definition stamp_catalog (c : Catalog) : Catalog := mkCatalog FormatVersion (CatSchemaFP c) (CatTables c).
Definition stamp_oracle (e : OracleEntry) : OracleEntry :=
  mkOracleEntry FormatVersion (OeSchemaFP e) (OeRenderedSQL e) (OeParams e) (OeColumns e).
Definition stamp_env (e : Env) : Env :=
  mkEnv FormatVersion (EvSchemaFP e) (EvDialect e) (EvOracleBackend e) (EvServerVersion e) (EvServerVersionRaw e).

Definition EncodeCatalog (c : Catalog) : result StoreError bytes :=
  match CatSchemaFP c with [] => Err NoFingerprint | _ => marshalCanonical JC (stamp_catalog c) end.
Definition EncodeOracle (e : OracleEntry) : result StoreError bytes := marshalCanonical JO (stamp_oracle e).
Definition EncodeEnv (e : Env) : result StoreError bytes :=
  match EvSchemaFP e with [] => Err NoFingerprint | _ => marshalCanonical JE (stamp_env e) end.

Definition save (t : tree) (rel : bytes) (data : result StoreError bytes) : step unit :=
  match data with Ok d => writeFile t rel d | Err e => (Err e, t) end.
Definition SaveCatalog (t : tree) (c : Catalog) : step unit := save t CatalogFile (EncodeCatalog c).
Definition SaveOracle (t : tree) (r : OracleRef) (e : OracleEntry) : step unit := save t (OracleFileName r) (EncodeOracle e).
Definition SaveEnv (t : tree) (e : Env) : step unit := save t EnvFile (EncodeEnv e).

(** A record is what its fields say, not where it lies. *)
Definition load {A} (J : Json A) (ok : A -> bool) (t : tree) (rel : bytes) : option A :=
  data ← ReadFileCapped t (split_byte "/" rel); v ← Unmarshal J data; if ok v then Some v else None.
Definition LoadCatalog (t : tree) (fp : bytes) : option Catalog :=
  load JC (fun c => Z.eqb (CatFormat c) FormatVersion && bool_decide (CatSchemaFP c = fp)) t CatalogFile.
Definition LoadOracle (t : tree) (r : OracleRef) (fp sql : bytes) : option OracleEntry :=
  load JO (fun e => Z.eqb (OeFormat e) FormatVersion && bool_decide (OeSchemaFP e = fp) && bool_decide (OeRenderedSQL e = sql))
    t (OracleFileName r).
Definition LoadEnv (t : tree) (fp : bytes) : option Env :=
  load JE (fun e => Z.eqb (EvFormat e) FormatVersion && bool_decide (EvSchemaFP e = fp)) t EnvFile.

(** [NumericVersionPrefix] *)
Definition version_byte (c : ascii) : bool := (c =b ".")%char || (byte_leb "0" c && byte_leb c "9").
Fixpoint version_run (raw : bytes) : bytes :=
  match raw with c :: raw => if version_byte c then c :: version_run raw else [] | [] => [] end.
Definition NumericVersionPrefix (raw : bytes) : bytes := trim_right (fun c => c =b ".")%char (version_run raw).

(** ** Walking and sweeping *)

(** [WalkDir] visits a directory before what is in it, by name. *)
Fixpoint path_ltb (p q : list bytes) : bool :=
  match p, q with
  | _, [] => false
  | [], _ :: _ => true
  | a :: p, b :: q => if bool_decide (a = b) then path_ltb p q else bytes_ltb a b
  end.

Definition below (p q : list bytes) : bool := bool_decide (take (length p) q = p).

(** What [WalkDir] visits below the entries' directory, in order. *)
Definition walk (t : tree) : list (list bytes * node) :=
  if is_dir (lstat t [OracleDir]) then
    SliceStable (fun a b => path_ltb a.1 b.1) (List.filter (fun '(p, _) => below [OracleDir] p) (map_to_list t))
  else [].
Definition entry_file (p : list bytes) (n : node) : bool := is_regular n && HasSuffix (List.last p []) dot_json.

(** [walkEntryFiles]: the directories below the root, and the entry files. *)
Definition walk_dirs (t : tree) : list (list bytes) :=
  (List.filter (fun '(p, n) => is_dir (Some n) && negb (bool_decide (p = [OracleDir]))) (walk t)).*1.
Definition walk_files (t : tree) : list (list bytes) := (List.filter (fun '(p, n) => entry_file p n) (walk t)).*1.

(** What [Walk] calls back with. *)
Definition Walk (t : tree) : list (OracleRef * list bytes) :=
  omap (fun p => r ← parseOracleRef (join slash p); Some (r, p)) (walk_files t).

Definition live_entry (live : list OracleRef) (p : list bytes) : bool :=
  match parseOracleRef (join slash p) with Some r => bool_decide (r ∈ live) | None => false end.

Definition legacy_file (p : list bytes) (n : node) : bool :=
  match p with [name] => is_regular n && legacyRootFile name | _ => false end.
Definition sweep_root (t : tree) : tree := base.filter (fun x => legacy_file x.1 x.2 = false) t.

Definition has_child (t : tree) (d : list bytes) : bool :=
  existsb (fun '(p, _) => bool_decide (length p = S (length d)) && below d p) (map_to_list t).
(** [os.Remove] of a directory, whose error is ignored. *)
Definition remove_dir (t : tree) (d : list bytes) : tree := if has_child t d then t else delete d t.

Definition Sweep (live : list OracleRef) (t : tree) : tree :=
  match t !! [] with
  | None => t
  | Some _ =>
      let t := sweep_root t in
      let dirs := walk_dirs t in
      let t := foldl (fun t p => if live_entry live p then t else delete p t) t (walk_files t) in
      foldl remove_dir t (rev dirs)
  end.
End store.
