(* ===== verification/StoreTheorems.v ===== *)
(** * StoreTheorems

    What the committed cache promises: an entry's path names it, a write stays
    on its path and never goes through a link, what was saved is loaded for its
    key alone, and the sweep removes exactly what is not live. *)

From Stdlib Require Import Sorted.
From stdpp Require Import sorting.
From S2P Require Import Prelude ScanDirectives ScanBodies GoPath Diagnostics Catalog Store.

(** ** Names *)

Lemma safe_avoids c : safe_byte c = true -> c <> "/"%char /\ c <> "."%char.
Proof. intros H. split; intros ->; by vm_compute in H. Qed.

Lemma safeSegment_bytes s c : c ∈ safeSegment s -> safe_byte c = true.
Proof.
  unfold safeSegment. destruct s as [|b s]; [by intros ->%list_elem_of_singleton|].
  intros (x & -> & _)%list_elem_of_fmap. by destruct (safe_byte x) eqn:E.
Qed.

Lemma safeSegment_nonempty s : safeSegment s <> [].
Proof. by destruct s. Qed.

Lemma safeSegment_idemp s : safeSegment (safeSegment s) = safeSegment s.
Proof.
  destruct s as [|b s]; [done|]. change (safeSegment (b :: s)) with ((fun c => if safe_byte c then c else "_"%char) <$> (b :: s)).
  set (l := _ <$> _). assert (l <> []) as Hn by done. assert (Forall (fun c => safe_byte c = true) l) as Hs.
  { apply list.Forall_forall. intros c. apply (safeSegment_bytes (b :: s)). }
  unfold safeSegment. destruct l as [|x l]; [done|]. clear Hn. induction Hs as [|y ys Hy _ IH]; [done|]. cbn. by rewrite Hy, IH.
Qed.

Lemma safeSegment_name s : is_name (safeSegment s).
Proof.
  assert (forall t, "."%char ∉ safeSegment s -> safeSegment s <> "."%char :: t) as Hd.
  { intros t H E. rewrite E in H. set_solver. }
  assert ("."%char ∉ safeSegment s) as Hdot by (intros H%safeSegment_bytes; by vm_compute in H).
  split_and!; [apply safeSegment_nonempty|by apply Hd..|]. intros H%safeSegment_bytes. by vm_compute in H.
Qed.

Lemma json_name s : is_name (safeSegment s ++ dot_json).
Proof.
  split_and!.
  - by intros [?%safeSegment_nonempty _]%app_eq_nil.
  - intros H%(f_equal length). rewrite length_app in H. cbn in H. lia.
  - intros H%(f_equal length). rewrite length_app in H. cbn in H. lia.
  - unfold avoids_slash. rewrite elem_of_app. intros [H%safeSegment_bytes|H]; [by vm_compute in H|]. revert H.
    apply (bool_decide_unpack (~ _)). by vm_compute.
Qed.

Definition dirs_of (r : OracleRef) : list bytes :=
  OracleDir :: (safeSegment <$> split_byte "/" (RfTarget r)) ++ [safeSegment (RfQuery r)].
Definition leaf_of (r : OracleRef) : bytes := safeSegment (RfShape r) ++ dot_json.

Lemma ref_segs_eq r : ref_segs r = dirs_of r ++ [leaf_of r].
Proof. unfold ref_segs, dirs_of. cbn. by rewrite <- app_assoc. Qed.

Lemma dirs_of_names r : Forall is_name (dirs_of r).
Proof.
  constructor; [split_and!; try done; apply (bool_decide_unpack (~ _)); by vm_compute|]. apply Forall_app. split.
  - apply Forall_fmap, list.Forall_forall. intros s _. apply safeSegment_name.
  - repeat constructor; apply safeSegment_name.
Qed.

Lemma ref_segs_names r : Forall is_name (ref_segs r).
Proof. rewrite ref_segs_eq. apply Forall_app. split; [apply dirs_of_names|]. repeat constructor; apply json_name. Qed.

Lemma names_normal l : Forall is_name l -> normal false l.
Proof. intros H. by exists 0, l. Qed.

Lemma names_avoid l : Forall is_name l -> Forall avoids_slash l.
Proof. intros H. eapply list.Forall_impl; [exact H|]. intros e He. apply He. Qed.

Lemma Clean_names l : Forall is_name l -> l <> [] -> Clean (join slash l) = join slash l.
Proof. intros H Hn. pose proof (Clean_unelems false l (names_normal _ H)) as E. unfold unelems in E. by destruct l. Qed.

Lemma OracleFileName_join r : OracleFileName r = join slash (ref_segs r).
Proof. unfold OracleFileName. cbn [Join ref_segs]. apply (Clean_names (ref_segs r)); [apply ref_segs_names|done]. Qed.

Lemma OracleFileName_split r : split_byte "/" (OracleFileName r) = ref_segs r.
Proof. rewrite OracleFileName_join. apply split_join; [apply names_avoid, ref_segs_names|done]. Qed.

Lemma join_nonempty l : Forall is_name l -> l <> [] -> join slash l <> [].
Proof.
  intros H Hn. destruct l as [|[|c a] l]; [done| |by destruct l]. apply list.Forall_cons in H as [[? _] _]. done.
Qed.

Lemma Dir_names l x : Forall is_name l -> l <> [] -> is_name x -> GoPath.Dir (join slash (l ++ [x])) = join slash l.
Proof.
  intros Hl Hn Hx. unfold GoPath.Dir, upto_slash, after_slash.
  assert (Forall is_name (l ++ [x])) as Hlx by (apply Forall_app; split; [done|by apply Forall_singleton]).
  rewrite split_join; [|by apply names_avoid|by destruct l]. rewrite last_last.
  assert (join slash (l ++ [x]) = join slash l ++ slash ++ x) as E.
  { clear -Hn. induction l as [|a l IH]; [done|]. destruct l as [|b l]; [done|].
    change (join slash ((a :: b :: l) ++ [x])) with (a ++ slash ++ join slash ((b :: l) ++ [x])). rewrite IH by done.
    change (join slash (a :: b :: l)) with (a ++ slash ++ join slash (b :: l)). by rewrite <- !app_assoc. }
  rewrite E. rewrite (assoc_L (++)), length_app, Nat.add_sub, take_app_length.
  rewrite <- (Clean_names l Hl Hn) at 2. unfold Clean.
  assert (IsAbs (join slash l ++ slash) = IsAbs (join slash l)) as ->.
  { destruct (join slash l) as [|c s] eqn:Ej; [by destruct (join_nonempty l Hl Hn)|by rewrite !IsAbs_cons]. }
  f_equal. unfold elems. rewrite <- (app_nil_r (join slash l ++ slash)), <- app_assoc, split_app_slash. cbn [split_byte].
  rewrite foldl_app. cbn [foldl]. unfold clean_step at 1. rewrite bool_decide_eq_true_2 by (by left). do 2 f_equal.
  destruct (join slash l) as [|c s] eqn:Ej; [by destruct (join_nonempty l Hl Hn)|by rewrite !IsAbs_cons].
Qed.

Lemma Dir_OracleFileName r : GoPath.Dir (OracleFileName r) = join slash (dirs_of r).
Proof. rewrite OracleFileName_join, ref_segs_eq. apply Dir_names; [apply dirs_of_names|done|apply json_name]. Qed.

Lemma Dir_split r : split_byte "/" (GoPath.Dir (OracleFileName r)) = dirs_of r.
Proof. rewrite Dir_OracleFileName. apply split_join; [apply names_avoid, dirs_of_names|done]. Qed.

(** ** The identity of a schema *)

Definition no_nul (s : bytes) : Prop := "000"%char ∉ s.

Lemma write_nul_inj a b x y : no_nul a -> no_nul b -> write_nul a ++ x = write_nul b ++ y -> a = b /\ x = y.
Proof.
  unfold write_nul, no_nul. revert b. induction a as [|c a IH]; intros [|d b] Ha Hb; cbn.
  - by intros [= ->].
  - intros [= <- _]. set_solver.
  - intros [= -> _]. set_solver.
  - intros [= -> H]. apply IH in H as [-> ->]; [done|set_solver..].
Qed.

(** Inputs without NUL bytes that differ, be it in where one ends, are hashed differently. *)
Lemma fingerprint_input_inj d d' v v' fs fs' : no_nul d -> no_nul d' -> no_nul v -> no_nul v' ->
  Forall (fun f => no_nul (SfPath f) /\ no_nul (SfContent f)) fs -> Forall (fun f => no_nul (SfPath f) /\ no_nul (SfContent f)) fs' ->
  fingerprint_input d v fs = fingerprint_input d' v' fs' -> d = d' /\ v = v' /\ fs = fs'.
Proof.
  intros Hd Hd' Hv Hv' Hf Hf' H. unfold fingerprint_input in H. apply write_nul_inj in H as [-> H]; [|done..].
  apply write_nul_inj in H as [-> H]; [|done..]. split_and!; [done..|].
  assert (forall f (x : bytes), (write_nul (SfPath f) ++ write_nul (SfContent f)) ++ x <> []) as Hn.
  { intros f x E%(f_equal length). unfold write_nul in E. rewrite !length_app in E. cbn in E. lia. }
  revert fs' Hf' H. induction Hf as [|f fs [Hp Hc] _ IH]; intros [|f' fs'] Hf' H; [done|by symmetry in H; apply Hn in H|by apply Hn in H|].
  apply list.Forall_cons in Hf' as [[Hp' Hc'] Hf']. cbn in H. rewrite <- !app_assoc in H.
  apply write_nul_inj in H as [Ep H]; [|done..]. apply write_nul_inj in H as [Ec H]; [|done..].
  f_equal; [|by apply IH]. destruct f, f'. cbn in *. congruence.
Qed.

(** What a path says of its entry: its components with their bytes folded. *)
Definition fold_ref (r : OracleRef) : OracleRef :=
  mkRef (join slash (safeSegment <$> split_byte "/" (RfTarget r))) (safeSegment (RfQuery r)) (safeSegment (RfShape r)).

(** A path names its entry. *)
Lemma ref_roundtrip r : parseOracleRef (OracleFileName r) = Some (fold_ref r).
Proof.
  unfold parseOracleRef. rewrite OracleFileName_split. unfold ref_segs. set (tg := safeSegment <$> _).
  assert (tg <> []) as Ht by (unfold tg; pose proof (split_nonnil (RfTarget r)); by destruct (split_byte _ _)).
  assert (length (OracleDir :: tg ++ [safeSegment (RfQuery r); safeSegment (RfShape r) ++ dot_json]) = length tg + 3) as El.
  { cbn. rewrite length_app. cbn. lia. }
  rewrite El. destruct (Nat.ltb_spec (length tg + 3) 4) as [Hl|_]; [destruct tg; [done|cbn in Hl; lia]|]. cbn [orb head].
  rewrite bool_decide_eq_true_2 by done. cbn [negb].
  assert (List.last (OracleDir :: tg ++ [safeSegment (RfQuery r); safeSegment (RfShape r) ++ dot_json]) [] = safeSegment (RfShape r) ++ dot_json) as ->.
  { change (OracleDir :: tg ++ [safeSegment (RfQuery r); safeSegment (RfShape r) ++ dot_json])
      with ((OracleDir :: tg) ++ [safeSegment (RfQuery r)] ++ [safeSegment (RfShape r) ++ dot_json]). by rewrite (assoc_L (++)), last_last. }
  assert (HasSuffix (safeSegment (RfShape r) ++ dot_json) dot_json = true) as ->.
  { unfold HasSuffix. rewrite length_app, Nat.add_sub, drop_app_length. by apply bool_decide_eq_true. }
  cbn [negb]. replace (length (safeSegment (RfShape r) ++ dot_json) - length dot_json) with (length (safeSegment (RfShape r))) by (rewrite length_app; lia).
  rewrite take_app_length. unfold fold_ref. do 2 f_equal.
  - replace (length tg + 3 - 3) with (length tg) by lia. change (drop 1 (OracleDir :: ?l)) with l. by rewrite take_app_length.
  - replace (length tg + 3 - 2) with (S (length tg)) by lia. change (default [] ((tg ++ [safeSegment (RfQuery r); safeSegment (RfShape r) ++ dot_json]) !! length tg) = safeSegment (RfQuery r)).
    by rewrite list_lookup_middle.
Qed.

Lemma fold_ref_file r : OracleFileName (fold_ref r) = OracleFileName r.
Proof.
  rewrite !OracleFileName_join. f_equal. unfold ref_segs, fold_ref. cbn [RfTarget RfQuery RfShape]. rewrite !safeSegment_idemp.
  rewrite split_join; [|apply names_avoid, Forall_fmap, list.Forall_forall; intros s _; cbn; apply safeSegment_name|].
  - f_equal. f_equal. rewrite <- list_fmap_compose. apply list_fmap_ext. intros i s _. apply safeSegment_idemp.
  - pose proof (split_nonnil (RfTarget r)). by destruct (split_byte _ _).
Qed.

Lemma same_file r r' : OracleFileName r = OracleFileName r' <-> fold_ref r = fold_ref r'.
Proof.
  split; intros H.
  - pose proof (ref_roundtrip r) as H1. rewrite H, ref_roundtrip in H1. by apply (inj Some).
  - by rewrite <- (fold_ref_file r), H, fold_ref_file.
Qed.

(** No entry lies below another: only the last segment has a dot. *)
Lemma ref_segs_prefix r r' k : ref_segs r' = ref_segs r ++ k -> k = [].
Proof.
  rewrite !ref_segs_eq. destruct k as [|x k _] using rev_ind; [done|]. rewrite (assoc_L (++)). intros [E _]%app_inj_tail. exfalso.
  assert (leaf_of r ∈ dirs_of r') as H by (rewrite E; set_solver).
  assert ("."%char ∈ leaf_of r) as Hd by (unfold leaf_of, dot_json; cbn; set_solver).
  unfold dirs_of in H. apply elem_of_cons in H as [H|H]; [rewrite H in Hd; revert Hd; apply (bool_decide_unpack (~ _)); by vm_compute|].
  apply elem_of_app in H as [(s & Es & _)%list_elem_of_fmap|Es%list_elem_of_singleton]; rewrite Es in Hd;
    apply safeSegment_bytes in Hd; by vm_compute in Hd.
Qed.

(** ** Trees *)

Definition wf (t : tree) : Prop := forall p s, is_Some (t !! (p ++ [s])) -> t !! p = Some NDir.
Definition rooted (t : tree) : Prop := t !! [] = None \/ t !! [] = Some NDir.

Lemma wf_prefix t p q : wf t -> is_Some (t !! (p ++ q)) -> q <> [] -> t !! p = Some NDir.
Proof.
  intros Hw. revert p. induction q as [|s q IH] using rev_ind; intros p H Hn; [done|]. rewrite (assoc_L (++)) in H.
  apply Hw in H. destruct q as [|x q]; [by rewrite app_nil_r in H|]. apply IH; [by eexists|done].
Qed.

Lemma wf_above t p q : wf t -> is_Some (t !! p) -> q ∈ above p -> t !! q = Some NDir.
Proof.
  intros Hw H (i & -> & Hi)%list_elem_of_fmap. apply elem_of_seq in Hi. rewrite <- (take_drop i p) in H.
  eapply wf_prefix; [done|exact H|]. intros E%(f_equal length). rewrite length_drop in E. cbn in E. lia.
Qed.

Lemma lstat_wf t p : wf t -> lstat t p = t !! p.
Proof.
  intros Hw. unfold lstat. destruct (forallb _ _) eqn:E; [done|]. destruct (t !! p) as [n|] eqn:Ep; [|done].
  assert (forallb (fun q => is_dir (t !! q)) (above p) = true) as E'; [|congruence].
  apply forallb_forall. intros q Hq%list_elem_of_In. by rewrite (wf_above t p q); [|done|eexists|].
Qed.

Lemma wf_insert_dir t p s : wf t -> t !! p = Some NDir -> wf (<[p ++ [s] := NDir]> t).
Proof.
  intros Hw Hp q x [n H]. destruct (decide (q = p ++ [s])) as [->|Hq]; [by rewrite lookup_insert_eq|].
  rewrite lookup_insert_ne by done. destruct (decide (q ++ [x] = p ++ [s])) as [[-> _]%app_inj_tail|Hx]; [done|].
  rewrite lookup_insert_ne in H by done. by apply (Hw _ x); eexists.
Qed.

Lemma wf_insert_leaf t p s n : wf t -> t !! p = Some NDir -> t !! (p ++ [s]) <> Some NDir -> wf (<[p ++ [s] := n]> t).
Proof.
  intros Hw Hp Hn q x [m H]. destruct (decide (q ++ [x] = p ++ [s])) as [[-> ->]%app_inj_tail|Hx].
  - rewrite lookup_insert_ne; [done|]. intros E%(f_equal length). rewrite length_app in E. cbn in E. lia.
  - rewrite lookup_insert_ne in H by done. rewrite lookup_insert_ne; [by apply (Hw _ x); eexists|]. intros <-.
    apply Hn. by apply (Hw _ x); eexists.
Qed.

(** ** Writing *)

(** The directories a write makes. *)
Definition made (t t' : tree) (p : list bytes) : Prop := t !! p = None /\ t' !! p = Some NDir.

Lemma mkdirNoFollow_spec rest : forall t cur r t', wf t -> t !! cur = Some NDir -> mkdirNoFollow t cur rest = (r, t') ->
  wf t' /\
  (forall p, t' !! p = t !! p \/ (made t t' p /\ exists k l, k <> [] /\ rest = k ++ l /\ p = cur ++ k)) /\
  match r with
  | Ok _ => t' !! (cur ++ rest) = Some NDir /\ forall k, k `prefix_of` rest -> t !! (cur ++ k) = None \/ t !! (cur ++ k) = Some NDir
  | Err (SymlinkError p) => t !! p = Some NLink /\ exists k, k `prefix_of` rest /\ p = cur ++ k
  | Err (NotADirectory p) => (exists n, t !! p = Some n /\ n <> NDir /\ n <> NLink) /\ exists k, k `prefix_of` rest /\ p = cur ++ k
  | Err _ => False
  end.
Proof.
  induction rest as [|seg rest IH]; intros t cur r t' Hw Hc; cbn [mkdirNoFollow].
  - intros [= <- <-]. rewrite app_nil_r. split_and!; [done|by left|done|]. intros k ->%prefix_nil_inv. rewrite app_nil_r. by right.
  - destruct (t !! (cur ++ [seg])) as [n|] eqn:En.
    + destruct n as [|d| |].
      * intros H. apply IH in H as (W & C & R); [|done|done]. split; [done|]. split.
        -- intros p. destruct (C p) as [|[M (k & l & Hk & -> & ->)]]; [by left|]. right. split; [done|]. exists (seg :: k), l.
           by rewrite <- app_assoc.
        -- rewrite <- !app_assoc in R. destruct r as [[]|[p|p| | |]]; try done.
           ++ destruct R as [R1 R2]. split; [done|]. intros [|x k] Hk; [rewrite app_nil_r; by right|].
              apply prefix_cons_inv_1 in Hk as Hx. apply prefix_cons_inv_2 in Hk. subst x. specialize (R2 k Hk). by rewrite <- app_assoc in R2.
           ++ destruct R as [R1 (k & Hk & ->)]. split; [done|]. exists (seg :: k). rewrite <- app_assoc. split; [by apply prefix_cons|done].
           ++ destruct R as [R1 (k & Hk & ->)]. split; [done|]. exists (seg :: k). rewrite <- app_assoc. split; [by apply prefix_cons|done].
      * intros [= <- <-]. split_and!; [done|by left|by eexists|]. exists [seg]. split; [by apply prefix_cons, prefix_nil|done].
      * intros [= <- <-]. split_and!; [done|by left|done|]. exists [seg]. split; [by apply prefix_cons, prefix_nil|done].
      * intros [= <- <-]. split_and!; [done|by left|by eexists|]. exists [seg]. split; [by apply prefix_cons, prefix_nil|done].
    + intros H. assert (forall q, q <> cur ++ [seg] -> <[cur ++ [seg] := NDir]> t !! q = t !! q) as Hother.
      { intros q Hq. by apply lookup_insert_ne. }
      assert (forall k, k <> [] -> t !! ((cur ++ [seg]) ++ k) = None) as Hbelow.
      { intros k Hk. destruct (t !! ((cur ++ [seg]) ++ k)) eqn:E; [|done].
        assert (t !! (cur ++ [seg]) = Some NDir) as E' by (eapply wf_prefix; [done|by eexists|done]). congruence. }
      apply IH in H as (W & C & R); [|by apply wf_insert_dir|apply lookup_insert_eq].
      split; [done|]. split; [|destruct r as [[]|e]].
      * intros p. destruct (decide (p = cur ++ [seg])) as [->|Hp].
        -- right. split; [split; [done|]|exists [seg], rest; done].
           destruct (C (cur ++ [seg])) as [E|[[E _] _]]; by rewrite lookup_insert_eq in E.
        -- destruct (C p) as [E|[[E1 E2] (k & l & Hk & -> & ->)]]; rewrite Hother in * by done; [by left|]. right. split; [done|].
           exists (seg :: k), l. by rewrite <- app_assoc.
      * destruct R as [R1 R2]. split; [by rewrite <- app_assoc in R1|]. intros [|x k] Hk; [rewrite app_nil_r; by right|].
        apply prefix_cons_inv_1 in Hk as Hx. subst x. left. destruct k as [|y k]; [done|].
        change (cur ++ seg :: y :: k) with (cur ++ [seg] ++ y :: k). rewrite (assoc_L (++)). by apply Hbelow.
      * assert (forall q k, <[cur ++ [seg] := NDir]> t !! q = Some k -> k <> NDir -> q = (cur ++ [seg]) ++ drop (length (cur ++ [seg])) q -> False) as Hno.
        { intros q k E Hk Eq. destruct (decide (q = cur ++ [seg])) as [->|Hq]; [rewrite lookup_insert_eq in E; congruence|].
          rewrite Hother in E by done. rewrite Eq, Hbelow in E; [done|]. intros E'. rewrite E', app_nil_r in Eq. done. }
        destruct e as [p|p| | |]; try done.
        -- destruct R as [R1 (k & Hk & ->)]. exfalso. eapply Hno; [exact R1|done|by rewrite drop_app_length].
        -- destruct R as [(n & R1 & Hn & _) (k & Hk & ->)]. exfalso. eapply Hno; [exact R1|done|by rewrite drop_app_length].
Qed.

Lemma Dir_name x : is_name x -> GoPath.Dir x = bs ".".
Proof.
  intros (_ & _ & _ & H). unfold GoPath.Dir, upto_slash, after_slash. change x with (join slash [x]) at 2.
  rewrite split_join by (done || by apply Forall_singleton). cbn [List.last]. by rewrite Nat.sub_diag.
Qed.

Lemma join_not_dot l : Forall is_name l -> l <> [] -> join slash l <> bs ".".
Proof.
  intros H Hn E. pose proof (split_join l (names_avoid l H) Hn) as Es. rewrite E in Es.
  rewrite <- Es in H. apply list.Forall_cons in H as [(_ & H & _) _]. done.
Qed.

(** What a write comes to. *)
Definition write_at (t : tree) (d : list bytes) (f data : bytes) : step unit :=
  and_then (mkroot t) (fun t => and_then (mkdirNoFollow t [] d) (fun t => writeAtomicIn t (d ++ [f]) data)).

Lemma writeFile_at t d f data : Forall is_name (d ++ [f]) -> writeFile t (join slash (d ++ [f])) data = write_at t d f data.
Proof.
  intros H. unfold writeFile, write_at. rewrite split_join; [|by apply names_avoid|by destruct d].
  apply Forall_app in H as [Hd Hf]. apply list.Forall_cons in Hf as [Hf _]. destruct (decide (d = [])) as [->|Hn].
  - change (join slash ([] ++ [f])) with f. rewrite Dir_name, bool_decide_eq_true_2 by done. done.
  - rewrite Dir_names by done. rewrite bool_decide_eq_false_2 by by apply join_not_dot.
    by rewrite split_join; [|apply names_avoid|].
Qed.

(** [p] lies on the way to the file [f] of [d]. *)
Definition on_way (d p : list bytes) : Prop := p `prefix_of` d.

Definition write_error (t : tree) (d : list bytes) (f : bytes) (e : StoreError) : Prop :=
  match e with
  | SymlinkError p => t !! p = Some NLink /\ on_way d p
  | NotADirectory p => (exists n, t !! p = Some n /\ n <> NDir) /\ on_way d p
  | IsADirectory => t !! (d ++ [f]) = Some NDir
  | _ => False
  end.

Lemma mkroot_spec t r t' : wf t -> mkroot t = (r, t') -> wf t' /\
  (forall p, t' !! p = t !! p \/ made t t' p /\ p = []) /\
  match r with
  | Ok _ => t' !! [] = Some NDir
  | Err e => e = NotADirectory [] /\ exists n, t !! [] = Some n /\ n <> NDir
  end.
Proof.
  intros Hw. unfold mkroot. destruct (t !! []) as [n|] eqn:E.
  - destruct n; intros [= <- <-]; split_and!; try done; try (intros p; by left); by eexists.
  - intros [= <- <-]. assert (forall p, t !! p = None) as He.
    { intros p. destruct (t !! p) eqn:Ep; [|done]. destruct p as [|s p]; [congruence|].
      assert (t !! [] = Some NDir); [|congruence]. apply (wf_prefix t [] (s :: p)); [done|by eexists|done]. }
    split_and!.
    + intros p s [n H]. rewrite lookup_insert_ne in H by (by destruct p). by rewrite He in H.
    + intros p. destruct (decide (p = [])) as [->|Hp]; [right; split; [split; [done|apply lookup_insert_eq]|done]|].
      left. by rewrite lookup_insert_ne.
    + apply lookup_insert_eq.
Qed.

Lemma write_at_spec t d f data r t' : wf t -> write_at t d f data = (r, t') ->
  wf t' /\
  (forall p, p <> d ++ [f] -> t' !! p = t !! p \/ made t t' p /\ on_way d p) /\
  match r with
  | Ok _ => t' !! (d ++ [f]) = Some (NFile data) /\ (forall p, on_way d p -> t !! p = None \/ t !! p = Some NDir) /\ t !! (d ++ [f]) <> Some NDir
  | Err e => write_error t d f e /\ t' !! (d ++ [f]) = t !! (d ++ [f])
  end.
Proof.
  intros Hw. unfold write_at. destruct (mkroot t) as [r1 t1] eqn:E1. apply (mkroot_spec _ _ _ Hw) in E1 as (W1 & C1 & R1).
  assert (forall s, d ++ [f] <> [] /\ t1 !! (d ++ [f]) = t !! (d ++ [f]) /\ (s : unit) = s) as Hleaf.
  { intros s. assert (d ++ [f] <> []) as Hn by (by destruct d). split_and!; [done| |done]. by destruct (C1 (d ++ [f])) as [|[_ ?]]. }
  specialize (Hleaf tt). destruct Hleaf as (Hn & Hleaf & _).
  destruct r1 as [[]|e]; cbn [and_then].
  2:{ intros [= <- <-]. destruct R1 as [-> R1]. split_and!; [done| |split; [done|apply prefix_nil]|done].
      intros p _. destruct (C1 p) as [|[M ->]]; [by left|]. right. split; [done|]. apply prefix_nil. }
  destruct (mkdirNoFollow t1 [] d) as [r2 t2] eqn:E2. apply mkdirNoFollow_spec in E2 as (W2 & C2 & R2); [|done|done].
  assert (forall p, t2 !! p = t !! p \/ made t t2 p /\ on_way d p) as C.
  { intros p. destruct (C1 p) as [A1|[[A1 A1'] ->]].
    - destruct (C2 p) as [A2|[[A2 A2'] (k & l & _ & -> & ->)]]; [left; congruence|]. right.
      split; [split; congruence|]. apply prefix_app_r. done.
    - right. split; [|apply prefix_nil]. split; [done|]. destruct (C2 []) as [A2|[[A2 _] _]]; congruence. }
  assert (forall p n, t1 !! p = Some n -> n <> NDir -> t !! p = Some n) as Hback.
  { intros p n Hp Hd. destruct (C1 p) as [<-|[[_ A] _]]; [done|congruence]. }
  assert (t2 !! (d ++ [f]) = t !! (d ++ [f])) as Hleaf2.
  { destruct (C (d ++ [f])) as [|[_ [k Hk]]]; [done|]. exfalso. apply (f_equal length) in Hk. rewrite !length_app in Hk. cbn in Hk. lia. }
  destruct r2 as [[]|e]; cbn [and_then].
  - destruct R2 as [R2 R2']. unfold writeAtomicIn. cbn [app] in R2.
    assert (forall p, on_way d p -> t !! p = None \/ t !! p = Some NDir) as Hway.
    { intros p Hp. destruct (C1 p) as [A|[[A _] _]]; [|by left]. rewrite <- A. by apply R2'. }
    destruct (decide (t !! (d ++ [f]) = Some NDir)) as [Hd|Hd].
    + rewrite Hleaf2, Hd. intros [= <- <-]. split_and!; [done|intros p _; apply C|done|by rewrite Hleaf2].
    + assert ((match t2 !! (d ++ [f]) with Some NDir => (Err IsADirectory, t2) | _ => (Ok tt, <[d ++ [f] := NFile data]> t2) end
        : step unit) = (Ok tt, <[d ++ [f] := NFile data]> t2)) as ->.
      { rewrite Hleaf2. by destruct (t !! (d ++ [f])) as [[]|]. }
      intros [= <- <-]. split_and!; [apply wf_insert_leaf; [done|done|by rewrite Hleaf2]| |apply lookup_insert_eq|done|done].
      intros p Hp. unfold made. rewrite lookup_insert_ne by done. apply C.
  - intros [= <- <-]. split_and!; [done|intros p _; apply C| |done]. cbn [app] in R2.
    destruct e as [p|p| | |]; cbn; try done.
    + destruct R2 as [R2 (k & Hk & ->)]. split; [by apply Hback|done].
    + destruct R2 as [(n & R2 & Hnd & _) (k & Hk & ->)]. split; [|done]. exists n. split; [by apply Hback|done].
Qed.

Section theorems.
Context (outside : list bytes -> option bytes) (JO : Json OracleEntry).

Lemma SaveOracle_at t r e :
  SaveOracle JO t r e = match EncodeOracle JO e with Ok d => write_at t (dirs_of r) (leaf_of r) d | Err x => (Err x, t) end.
Proof.
  unfold SaveOracle, save. destruct (EncodeOracle JO e) as [d|x]; [|done].
  rewrite OracleFileName_join, ref_segs_eq, writeFile_at; [done|]. rewrite <- ref_segs_eq. apply ref_segs_names.
Qed.

(** A save touches the path of its entry, where it puts the encoding, and
    makes the directories on the way that are missing.  It goes through no link:
    where it succeeds, each name on the way was a directory or missing; and
    where it fails, the error says what is in the way. *)
Lemma save_confined t r e res t' : wf t -> SaveOracle JO t r e = (res, t') ->
  wf t' /\
  (forall p, p <> ref_segs r -> t' !! p = t !! p \/ made t t' p /\ on_way (dirs_of r) p) /\
  match res with
  | Ok _ =>
      (exists data, EncodeOracle JO e = Ok data /\ t' !! ref_segs r = Some (NFile data)) /\
      forall p, on_way (dirs_of r) p -> t !! p = None \/ t !! p = Some NDir
  | Err MarshalError => t' = t /\ Marshal JO (stamp_oracle e) = None
  | Err x => write_error t (dirs_of r) (leaf_of r) x /\ t' !! ref_segs r = t !! ref_segs r
  end.
Proof.
  intros Hw. rewrite SaveOracle_at. destruct (EncodeOracle JO e) as [d|x] eqn:E.
  - intros H. apply write_at_spec in H as (W & C & R); [|done]. rewrite <- ref_segs_eq in *. split_and!; [done..|].
    destruct res as [[]|x]; [|by destruct x; try done; destruct R]. destruct R as (R & Hway & _). split; [by exists d|done].
  - intros [= <- <-]. unfold EncodeOracle, marshalCanonical in E. destruct (Marshal JO (stamp_oracle e)) eqn:Em; [done|].
    injection E as <-. split_and!; [done|intros p _; by left|done|done].
Qed.

(** ** Checking first *)

Definition no_link (t : tree) (d : list bytes) : Prop := forall p, on_way d p -> p <> [] -> t !! p <> Some NLink.

Lemma check_path_spec t ps : wf t -> forall st,
  match foldl (check_path t) st ps with
  | Ok _ => (exists seen, st = Ok seen /\ forall p, p ∈ ps -> p ∈ seen \/ t !! p <> Some NLink)
  | Err e => st = Err e \/ exists p, p ∈ ps /\ e = SymlinkError p /\ t !! p = Some NLink
  end.
Proof.
  intros Hw. induction ps as [|p ps IH]; intros st; cbn [foldl].
  - destruct st as [seen|e]; [exists seen; set_solver|by left].
  - specialize (IH (check_path t st p)). destruct (foldl _ _ ps) as [s|e].
    + destruct IH as (seen & E & IH). destruct st as [seen0|e]; [|done]. cbn in E. exists seen0. split; [done|].
      intros q [->|Hq]%elem_of_cons.
      * destruct (decide (p ∈ seen0)) as [Hs|Hs]; [by left|]. rewrite bool_decide_eq_false_2, lstat_wf in E by done. right.
        intros El. by rewrite El in E.
      * destruct (IH q Hq) as [Hs|]; [|by right]. case_bool_decide as Hd; [injection E as <-; by left|].
        rewrite lstat_wf in E by done. destruct (t !! p) as [[]|] eqn:Ep; try done; injection E as <-;
          (apply elem_of_union in Hs as [->%elem_of_singleton|Hs]; [right; congruence|by left]).
    + destruct IH as [E|(q & Hq & IH)]; [|right; exists q; split; [by right|done]]. destruct st as [seen0|e']; [|left; done].
      cbn in E. case_bool_decide; [done|]. rewrite lstat_wf in E by done.
      destruct (t !! p) as [[]|] eqn:Ep; try done. injection E as <-. right. exists p. split; [by left|done].
Qed.

Lemma elem_of_ref_dirs r p : p ∈ ref_dirs r <-> on_way (dirs_of r) p /\ p <> [].
Proof.
  unfold ref_dirs. rewrite Dir_split. rewrite list_elem_of_fmap. split.
  - intros (i & -> & Hi%elem_of_seq). by split; [apply prefix_take|].
  - intros [[k E] Hn]. exists (length p - 1). rewrite elem_of_seq, E, length_app. destruct p as [|x p]; [done|].
    replace (S (length (x :: p) - 1)) with (length (x :: p)) by (cbn; lia). rewrite take_app_length. split; [done|cbn; lia].
Qed.

Lemma CheckWritable_ok t refs : wf t -> CheckWritable t refs = Ok tt -> forall r, r ∈ refs -> no_link t (dirs_of r).
Proof.
  intros Hw. unfold CheckWritable. intros H r Hr p Hp Hn. change (foldl (check_path t) (check_path t (Ok ∅) [OracleDir]) ?l)
    with (foldl (check_path t) (Ok ∅) ([OracleDir] :: l)) in H.
  pose proof (check_path_spec t ([OracleDir] :: flat_map ref_dirs refs) Hw (Ok ∅)) as Hs.
  destruct (foldl _ _ _) as [s|e]; [|done]. destruct Hs as (seen & [= <-] & Hs).
  destruct (Hs p) as [?%not_elem_of_empty|]; [|done|done]. right. apply list_elem_of_In, in_flat_map. exists r.
  split; [by apply list_elem_of_In|]. by apply list_elem_of_In, elem_of_ref_dirs.
Qed.

(** Saves in order. *)
Fixpoint save_all (t : tree) (l : list (OracleRef * OracleEntry)) : step unit :=
  match l with [] => (Ok tt, t) | (r, e) :: l => and_then (SaveOracle JO t r e) (fun t => save_all t l) end.

(** C30: what [CheckWritable] accepts, the saves never refuse for a link; what
    it refuses is a link on the way to an entry. *)
Theorem preflight_sound t refs l : wf t -> (forall r e, (r, e) ∈ l -> r ∈ refs) ->
  match CheckWritable t refs with
  | Ok _ => forall p t', save_all t l <> (Err (SymlinkError p), t')
  | Err e => exists p, e = SymlinkError p /\ t !! p = Some NLink /\ (p = [OracleDir] \/ exists r, r ∈ refs /\ on_way (dirs_of r) p)
  end.
Proof.
  intros Hw Hl. destruct (CheckWritable t refs) as [[]|e] eqn:E.
  - pose proof (CheckWritable_ok t refs Hw E) as Hn. clear E.
    assert (forall r e, (r, e) ∈ l -> no_link t (dirs_of r)) as Hno by (intros r e Hr; by eapply Hn, Hl). clear Hn Hl.
    induction l as [|[r e] l IH] in t, Hw, Hno |- *; cbn [save_all]; [done|]. intros p t'.
    destruct (SaveOracle JO t r e) as [res t1] eqn:Es. pose proof Es as Es'. apply save_confined in Es as (W & C & R); [|done].
    destruct res as [[]|x]; cbn [and_then].
    + apply IH; [done|]. intros r' e' Hr' q Hq Hqn. destruct (decide (q = ref_segs r)) as [->|Hne].
      * destruct R as [(d & _ & ->) _]. done.
      * destruct (C q Hne) as [->|[[_ ->] _]]; [|done]. apply (Hno r' e'); [by right|done..].
    + intros [= -> ->]. destruct R as [[R Hp] _]. destruct (decide (p = [])) as [->|Hpn]; [|by apply (Hno r e ltac:(by left) p)].
      rewrite SaveOracle_at in Es'. unfold EncodeOracle, marshalCanonical in Es'. destruct (Marshal JO _); [|done].
      unfold write_at, mkroot in Es'. rewrite R in Es'. done.
  - unfold CheckWritable in E. change (foldl (check_path t) (check_path t (Ok ∅) [OracleDir]) ?l)
      with (foldl (check_path t) (Ok ∅) ([OracleDir] :: l)) in E.
    pose proof (check_path_spec t ([OracleDir] :: flat_map ref_dirs refs) Hw (Ok ∅)) as Hs.
    destruct (foldl _ _ _) as [s|x]; [done|]. cbn in E. injection E as ->. destruct Hs as [?|(p & Hp & -> & Hk)]; [done|].
    exists p. split_and!; [done..|]. apply elem_of_cons in Hp as [->|Hp]; [by left|]. right.
    apply list_elem_of_In, in_flat_map in Hp as (r & Hr%list_elem_of_In & Hp%list_elem_of_In). exists r. split; [done|]. by apply elem_of_ref_dirs.
Qed.
End theorems.

(** ** Loading *)

Section loads.
Context (outside : list bytes -> option bytes) (JO : Json OracleEntry).

Lemma existsb_ext {A} (f g : A -> bool) l : (forall x, In x l -> f x = g x) -> existsb f l = existsb g l.
Proof. induction l as [|x l IH]; intros H; cbn; [done|]. rewrite H, IH by (cbn; auto with datatypes). done. Qed.

(** What is written is read back. *)
Definition json_faithful {A} (J : Json A) : Prop := forall v d, Marshal J v = Some d -> Unmarshal J (d ++ [c_lf]) = Some v.

Lemma same_segs r r' : ref_segs r = ref_segs r' <-> fold_ref r = fold_ref r'.
Proof. rewrite <- same_file. rewrite <- !OracleFileName_split. split; [|by intros ->]. rewrite !OracleFileName_split. intros E. by rewrite !OracleFileName_join, E. Qed.

Lemma read_file_leaf t p d : wf t -> t !! p = Some (NFile d) -> read_file outside t p = Some d.
Proof.
  intros Hw Hp. unfold read_file. rewrite lstat_wf, Hp by done.
  assert (existsb (fun q => bool_decide (t !! q = Some NLink)) (above p ++ [p]) = false) as ->; [|done].
  apply not_true_iff_false. intros (q & Hq%list_elem_of_In & Hl%bool_decide_eq_true)%existsb_exists. revert Hl.
  apply elem_of_app in Hq as [Hq| ->%list_elem_of_singleton].
  - by rewrite (wf_above t p q); [|done|eexists|].
  - by rewrite Hp.
Qed.

Lemma read_file_frame t t' r r' : wf t -> wf t' -> ref_segs r <> ref_segs r' ->
  (forall p, p <> ref_segs r -> t' !! p = t !! p \/ made t t' p) -> read_file outside t' (ref_segs r') = read_file outside t (ref_segs r').
Proof.
  intros Hw Hw' Hne C. unfold read_file. rewrite !lstat_wf by done.
  assert (forall q, q `prefix_of` ref_segs r' -> t' !! q = t !! q \/ made t t' q) as C'.
  { intros q [k Hk]. apply C. intros ->. apply Hne. rewrite Hk. by rewrite (ref_segs_prefix _ _ _ Hk), app_nil_r. }
  assert (existsb (fun q => bool_decide (t' !! q = Some NLink)) (above (ref_segs r') ++ [ref_segs r'])
    = existsb (fun q => bool_decide (t !! q = Some NLink)) (above (ref_segs r') ++ [ref_segs r'])) as ->.
  { apply existsb_ext. intros q Hq%list_elem_of_In. destruct (C' q) as [->|[-> ->]]; [|done|done].
    apply elem_of_app in Hq as [(i & -> & _)%list_elem_of_fmap| ->%list_elem_of_singleton]; [apply prefix_take|done]. }
  destruct (C' (ref_segs r')) as [->|[-> ->]]; done.
Qed.

(** What was saved is loaded at its place for its own keys and for no
    others; what lies at other places is loaded as before. *)
Lemma load_after_save t r e t' : wf t -> json_faithful JO ->
  (forall d, EncodeOracle JO e = Ok d -> (N.of_nat (length d) <= MaxFileBytes)%N) ->
  SaveOracle JO t r e = (Ok tt, t') -> forall r' fp sql,
  LoadOracle outside JO t' r' fp sql =
    if decide (fold_ref r' = fold_ref r) then
      if decide (fp = OeSchemaFP e /\ sql = OeRenderedSQL e) then Some (stamp_oracle e) else None
    else LoadOracle outside JO t r' fp sql.
Proof.
  intros Hw HJ Hcap Hs r' fp sql. pose proof Hs as Hs'. rewrite SaveOracle_at in Hs'.
  destruct (EncodeOracle JO e) as [d|] eqn:Ee; [|done]. specialize (Hcap d eq_refl).
  apply write_at_spec in Hs' as (W & C & R & _ & _); [|done]. rewrite <- ref_segs_eq in *.
  unfold LoadOracle, load, ReadFileCapped. rewrite OracleFileName_split. destruct (decide _) as [E|E].
  - apply same_segs in E. rewrite E, (read_file_leaf _ _ _ W R).
    destruct (N.ltb_spec MaxFileBytes (N.of_nat (length d))); [lia|]. cbn [mbind option_bind].
    unfold EncodeOracle, marshalCanonical in Ee. destruct (Marshal JO (stamp_oracle e)) as [m|] eqn:Em; [|done].
    injection Ee as <-. rewrite (HJ _ _ Em). cbn [mbind option_bind OeFormat OeSchemaFP OeRenderedSQL stamp_oracle].
    rewrite Z.eqb_refl. cbn [andb]. repeat case_decide; repeat case_bool_decide; naive_solver.
  - rewrite (read_file_frame t t' r r'); [done|done|done| |].
    + intros Eq. apply E. by apply same_segs.
    + intros p Hp. destruct (C p Hp) as [|[]]; [by left|by right].
Qed.
End loads.

(** ** Sweeping *)

Lemma path_ltb_cons a p b q : path_ltb (a :: p) (b :: q) = true <-> bytes_ltb a b = true \/ a = b /\ path_ltb p q = true.
Proof. cbn. case_bool_decide as E; [subst b; rewrite bytes_ltb_irrefl|]; naive_solver. Qed.

Lemma path_ltb_irrefl p : path_ltb p p = false.
Proof. induction p as [|a p IH]; [done|]. cbn. by rewrite bool_decide_eq_true_2. Qed.

Lemma path_ltb_trans p q r : path_ltb p q = true -> path_ltb q r = true -> path_ltb p r = true.
Proof.
  revert q r. induction p as [|a p IH]; intros [|b q] [|c r]; try done. rewrite !path_ltb_cons.
  intros [H1|[-> H1]] [H2|[-> H2]]; [left; by eapply bytes_ltb_trans|by left|by left|right]. split; [done|by eapply IH].
Qed.

Lemma path_ltb_total p q : path_ltb p q = false -> path_ltb q p = false -> p = q.
Proof.
  revert q. induction p as [|a p IH]; intros [|b q]; try done. intros H1%not_true_iff_false H2%not_true_iff_false.
  rewrite path_ltb_cons in H1, H2. assert (a = b) as <- by (apply bytes_ltb_total; apply not_true_iff_false; naive_solver).
  f_equal. apply IH; apply not_true_iff_false; naive_solver.
Qed.

Lemma path_le_trans p q r : path_ltb q p = false -> path_ltb r q = false -> path_ltb r p = false.
Proof.
  intros H1 H2. apply not_true_iff_false. intros H3. destruct (path_ltb p q) eqn:E.
  - by rewrite (path_ltb_trans _ _ _ H3 E) in H2.
  - rewrite (path_ltb_total _ _ E H1) in H3. congruence.
Qed.

Lemma path_less_le p q : path_ltb p q = true -> path_ltb q p = false.
Proof. intros H. apply not_true_iff_false. intros H2. pose proof (path_ltb_trans _ _ _ H H2) as Hc. by rewrite path_ltb_irrefl in Hc. Qed.

Lemma path_ltb_below p k : k <> [] -> path_ltb p (p ++ k) = true.
Proof. intros Hk. induction p as [|a p IH]; [by destruct k|]. cbn. by rewrite bool_decide_eq_true_2. Qed.

Lemma fmap_filter_sorted {A B} (R : B -> B -> Prop) (f : A -> B) (P : A -> bool) l :
  StronglySorted (fun a b => R (f a) (f b)) l -> StronglySorted R (f <$> List.filter P l).
Proof.
  induction 1 as [|x l Hl IH Hx]; cbn; [constructor|]. destruct (P x); [|done]. cbn. constructor; [done|].
  apply Forall_fmap, list.Forall_forall. intros y [Hy _]%list_elem_of_In%filter_In. rewrite list.Forall_forall in Hx.
  by apply Hx, list_elem_of_In.
Qed.

Lemma below_iff p q : below p q = true <-> p `prefix_of` q.
Proof.
  unfold below. rewrite bool_decide_eq_true. split; [intros E; exists (drop (length p) q); rewrite <- (take_drop (length p) q) at 1; by rewrite E|].
  intros [k ->]. by rewrite take_app_length.
Qed.

Lemma elem_of_walk t p n : wf t -> (p, n) ∈ walk t <-> t !! p = Some n /\ below [OracleDir] p = true /\ is_dir (t !! [OracleDir]) = true.
Proof.
  intros Hw. unfold walk. rewrite lstat_wf by done. destruct (is_dir (t !! [OracleDir])); [|set_solver].
  rewrite SliceStable_perm, list_elem_of_In, filter_In, <- list_elem_of_In, elem_of_map_to_list. naive_solver.
Qed.

Lemma elem_of_walk_fst t (P : list bytes * node -> bool) p :
  p ∈ (List.filter P (walk t)).*1 <-> exists n, (p, n) ∈ walk t /\ P (p, n) = true.
Proof.
  rewrite list_elem_of_fmap. split.
  - intros ([q n] & -> & [H1 H2]%list_elem_of_In%filter_In). exists n. by rewrite list_elem_of_In.
  - intros (n & H1 & H2). exists (p, n). split; [done|]. by apply list_elem_of_In, filter_In; split; [apply list_elem_of_In|].
Qed.

Lemma has_child_iff t d : has_child t d = true <-> exists s, is_Some (t !! (d ++ [s])).
Proof.
  unfold has_child. rewrite existsb_exists. split.
  - intros ([p n] & H%list_elem_of_In%elem_of_map_to_list & [Hl%bool_decide_eq_true [k ->]%below_iff]%andb_true_iff).
    rewrite length_app in Hl. destruct k as [|s [|]]; cbn in Hl; [lia| |lia]. by exists s, n.
  - intros (s & n & H). exists (d ++ [s], n). rewrite <- list_elem_of_In, elem_of_map_to_list. split; [done|].
    rewrite andb_true_iff, bool_decide_eq_true, below_iff, length_app. split; [cbn; lia|by exists [s]].
Qed.

(** Something that is no directory lies below [d]. *)
Definition leaf_below (t : tree) (d : list bytes) : Prop := exists k n, k <> [] /\ t !! (d ++ k) = Some n /\ n <> NDir.

(** Directories removed children first: what stays is what has a leaf below it. *)
Lemma remove_dirs_spec t L : wf t -> (forall d, d ∈ L -> t !! d = Some NDir) ->
  (forall A d B k, L = A ++ d :: B -> k <> [] -> t !! (d ++ k) = Some NDir -> d ++ k ∈ A) ->
  forall p n, foldl remove_dir t L !! p = Some n <-> t !! p = Some n /\ (p ∈ L -> leaf_below t p).
Proof.
  intros Hw. induction L as [|d L IH] using rev_ind; intros Hd Hc p n; cbn [foldl]; [set_solver|].
  rewrite foldl_app. cbn [foldl]. specialize (IH ltac:(intros; apply Hd; set_solver)).
  assert (forall A x B k, L = A ++ x :: B -> k <> [] -> t !! (x ++ k) = Some NDir -> x ++ k ∈ A) as Hc'.
  { intros A x B k ->. apply (Hc A x (B ++ [d])). by rewrite <- app_assoc. }
  specialize (IH Hc'). clear Hc'. set (u := foldl remove_dir t L) in *.
  assert (has_child u d = true <-> leaf_below t d) as Hh.
  { rewrite has_child_iff. split.
    - intros (s & m & [H1 H2]%IH). destruct (decide (m = NDir)) as [->|Hm]; [|by exists [s], m].
      destruct (H2 (Hc L d [] [s] eq_refl ltac:(done) H1)) as (k & m & _ & H3 & H4). rewrite <- app_assoc in H3. by exists ([s] ++ k), m.
    - intros ([|s k] & m & Hk & H1 & H2); [done|]. exists s. destruct k as [|x k].
      + exists m. apply IH. split; [done|]. intros Hin. assert (t !! (d ++ [s]) = Some NDir) by (apply Hd; set_solver). congruence.
      + exists NDir. apply IH. change (d ++ s :: x :: k) with (d ++ [s] ++ x :: k) in H1. rewrite (assoc_L (++)) in H1. split.
        * eapply wf_prefix; [done|by eexists|done].
        * intros _. by exists (x :: k), m. }
  assert (p ∈ L ++ [d] <-> p ∈ L \/ p = d) as Hin by (rewrite elem_of_app, list_elem_of_singleton; done).
  unfold remove_dir. destruct (has_child u d) eqn:Eh.
  - rewrite IH, Hin. split; [|naive_solver]. intros [H1 H2]. split; [done|]. intros [| ->]; [by apply H2|by apply Hh].
  - assert (~ leaf_below t d) as Hno by (intros ?%Hh; congruence). destruct (decide (p = d)) as [->|Hp].
    + rewrite lookup_delete_eq. naive_solver.
    + rewrite lookup_delete_ne by done. rewrite IH, Hin. naive_solver.
Qed.

Lemma delete_all_spec (t : tree) (keep : list bytes -> bool) ps p :
  foldl (fun t p => if keep p then t else delete p t) t ps !! p = if decide (p ∈ ps /\ keep p = false) then None else t !! p.
Proof.
  revert t. induction ps as [|q ps IH]; intros t; cbn [foldl]; [by destruct (decide _) as [[[]%not_elem_of_nil _]|]|].
  rewrite IH. destruct (decide (p ∈ ps /\ keep p = false)) as [H|H], (decide (p ∈ q :: ps /\ keep p = false)) as [H'|H']; [done| | |].
  - destruct H as [H Hk]. destruct H'. by split; [right|].
  - destruct H' as [[->|Hp]%elem_of_cons Hk]; [by rewrite Hk, lookup_delete_eq|by destruct H].
  - destruct (keep q) eqn:Ek; [done|]. apply lookup_delete_ne. intros <-. apply H'. by split; [left|].
Qed.

(** What the sweep removes. *)
Definition swept (live : list OracleRef) (p : list bytes) (n : node) : Prop :=
  legacy_file p n = true \/ below [OracleDir] p = true /\ entry_file p n = true /\ live_entry live p = false.
#[export] Instance swept_dec live p n : Decision (swept live p n).
Proof. unfold swept. apply _. Defined.

(** The tree without its legacy files and its dead entries. *)
Lemma swept_files live t : wf t ->
  let u := sweep_root t in
  let v := foldl (fun t p => if live_entry live p then t else delete p t) u (walk_files u) in
  wf u /\ wf v /\ (forall p n, v !! p = Some n <-> t !! p = Some n /\ ~ swept live p n) /\
  forall p, p ∈ walk_dirs u <-> t !! p = Some NDir /\ below [OracleDir] p = true /\ p <> [OracleDir].
Proof.
  intros Hw u v. assert (forall p n, u !! p = Some n <-> t !! p = Some n /\ legacy_file p n = false) as Hu.
  { intros p n. unfold u, sweep_root. by rewrite map_lookup_filter_Some. }
  assert (forall p n, n = NDir -> legacy_file p n = false) as Hdir by (by intros [|x [|]] n ->).
  assert (wf u) as Wu.
  { intros p s [n [H _]%Hu]. apply Hu. split; [by apply (Hw p s); eexists|by apply Hdir]. }
  assert (forall p n, t !! p = Some n -> below [OracleDir] p = true -> p <> [OracleDir] -> t !! [OracleDir] = Some NDir) as Ho.
  { intros p n H [k ->]%below_iff Hp. apply (wf_prefix t [OracleDir] k); [done|by eexists|]. by intros ->. }
  assert (forall p n, v !! p = Some n <-> t !! p = Some n /\ ~ swept live p n) as Hv.
  { intros p n. unfold v. rewrite delete_all_spec. unfold walk_files, swept. destruct (decide _) as [Hd|Hd]; rewrite elem_of_walk_fst in Hd.
    - split; [done|]. intros [H1 H2]. destruct Hd as [(m & [[Hm _]%Hu [Hb _]]%elem_of_walk & He) Hl]; [|done].
      assert (m = n) as -> by congruence. tauto.
    - rewrite Hu. split; intros [H1 H2]; split; try done.
      + intros [|(Hb & He & Hl)]; [congruence|]. apply Hd. split; [|done]. exists n. split; [|done]. apply elem_of_walk; [done|].
        split_and!; [by apply Hu|done|]. assert (u !! [OracleDir] = Some NDir) as ->; [|done]. apply Hu. split; [|by apply Hdir].
        apply (Ho p n); [done..|]. intros ->. unfold entry_file in He. apply andb_true_iff in He as [_ He]. by vm_compute in He.
      + apply not_true_iff_false. tauto. }
  split_and!; [done| |done|].
  - intros p s [n [H _]%Hv]. apply Hv. split; [by apply (Hw p s); eexists|]. intros [E|(_ & E & _)]; [by rewrite Hdir in E|done].
  - intros p. unfold walk_dirs. rewrite elem_of_walk_fst. split.
    + intros (n & [[H _]%Hu [Hb _]]%elem_of_walk & E); [|done]. apply andb_true_iff in E as [E1 E2]. destruct n; try done.
      split_and!; [done..|]. intros ->. by rewrite bool_decide_eq_true_2 in E2.
    + intros (H & Hb & Hp). exists NDir. split; [|by rewrite bool_decide_eq_false_2]. apply elem_of_walk; [done|]. split_and!; [|done|].
      * apply Hu. split; [done|by apply Hdir].
      * assert (u !! [OracleDir] = Some NDir) as ->; [|done]. apply Hu. split; [by eapply Ho|by apply Hdir].
Qed.

(** What lies at a path after a sweep. *)
Lemma Sweep_lookup live t p n : wf t ->
  Sweep live t !! p = Some n <->
  t !! p = Some n /\ ~ swept live p n /\
  (n = NDir -> below [OracleDir] p = true -> p <> [OracleDir] -> exists k m, t !! (p ++ k) = Some m /\ m <> NDir /\ ~ swept live (p ++ k) m).
Proof.
  intros Hw. destruct (swept_files live t Hw) as (_ & Wv & Hv & Hd).
  unfold Sweep. destruct (t !! []) as [m|] eqn:E0.
  2:{ assert (forall p, t !! p = None) as He.
      { intros q. destruct (t !! q) eqn:Ep; [|done]. destruct q as [|s q]; [congruence|].
        assert (t !! [] = Some NDir); [|congruence]. apply (wf_prefix t [] (s :: q)); [done|by eexists|done]. }
      rewrite He. naive_solver. }
  cbv zeta. set (u := sweep_root t) in *. set (v := foldl _ u (walk_files u)) in *.
  assert (forall p, swept live p NDir -> False) as Hsd by (intros q [E|(_ & E & _)]; [by destruct q as [|? []]|done]).
  assert (forall p, v !! p = Some NDir <-> t !! p = Some NDir) as HvD by (intros q; rewrite Hv; naive_solver).
  assert (forall p n, foldl remove_dir v (rev (walk_dirs u)) !! p = Some n <-> v !! p = Some n /\ (p ∈ rev (walk_dirs u) -> leaf_below v p)) as Hr.
  { apply remove_dirs_spec; [done| |].
    - intros d Hin. rewrite list_elem_of_In, <- in_rev, <- list_elem_of_In in Hin. by apply HvD, Hd.
    - intros A d B k HL Hk Hdk. assert (d ∈ walk_dirs u) as Hdu.
      { apply list_elem_of_In. rewrite in_rev, HL. apply in_or_app. right. by left. }
      assert (d ++ k ∈ walk_dirs u) as Hin.
      { apply Hd in Hdu as (_ & [k0 ->]%below_iff & Hne). apply Hd. split_and!; [by apply HvD|apply below_iff; by exists (k0 ++ k); rewrite <- app_assoc|].
        intros E%(f_equal length). rewrite !length_app in E. cbn in E. destruct k; [done|cbn in E; lia]. }
      apply (f_equal (@rev _)) in HL. rewrite rev_involutive, rev_app_distr in HL. cbn [rev] in HL.
      assert (StronglySorted (fun a b => path_ltb b a = false) (walk_dirs u)) as Hs.
      { unfold walk_dirs. apply (fmap_filter_sorted _ fst). unfold walk. destruct (is_dir _); [|constructor].
        apply SliceStable_sorted; [intros a b c; apply path_le_trans|intros a b; apply path_less_le]. }
      rewrite HL in Hin, Hs. rewrite <- app_assoc in Hin, Hs. apply elem_of_app in Hin as [Hin|[Hin|Hin]%elem_of_cons].
      + exfalso. pose proof (path_ltb_below d k Hk) as Hlt.
        assert (path_ltb d (d ++ k) = false); [|congruence].
        eapply (StronglySorted_app_1_elem_of (fun a b => path_ltb b a = false)); [exact Hs|exact Hin|by left].
      + exfalso. apply (f_equal length) in Hin. rewrite length_app in Hin. destruct k; [done|cbn in Hin; lia].
      + by rewrite list_elem_of_In, <- in_rev, <- list_elem_of_In in Hin. }
  rewrite Hr, Hv. split.
  - intros [[H1 H2] H3]. split_and!; [done..|]. intros -> Hb Hne. destruct H3 as (k & m' & _ & H3 & H4).
    + rewrite list_elem_of_In, <- in_rev, <- list_elem_of_In. by apply Hd.
    + exists k, m'. apply Hv in H3. tauto.
  - intros (H1 & H2 & H3). split; [done|]. intros Hin. rewrite list_elem_of_In, <- in_rev, <- list_elem_of_In in Hin.
    apply Hd in Hin as (Hp & Hb & Hne). assert (n = NDir) as -> by congruence. destruct (H3 eq_refl Hb Hne) as (k & m' & H4 & H5 & H6).
    exists k, m'. split_and!; [|by apply Hv|done]. intros ->. rewrite app_nil_r in H4. congruence.
Qed.

Lemma Sweep_leaf live t p n : wf t -> n <> NDir -> Sweep live t !! p = Some n <-> t !! p = Some n /\ ~ swept live p n.
Proof. intros Hw Hn. rewrite Sweep_lookup by done. naive_solver. Qed.

Lemma not_swept_dir live p : ~ swept live p NDir.
Proof. intros [E|(_ & E & _)]; [by destruct p as [|? []]|done]. Qed.

Lemma Sweep_wf live t : wf t -> wf (Sweep live t).
Proof.
  intros Hw p s [n H]. apply Sweep_lookup in H as (H & Hs & Hk); [|done]. apply Sweep_lookup; [done|].
  split_and!; [apply (Hw p s); by eexists|apply not_swept_dir|]. intros _ [k0 ->]%below_iff Hne.
  destruct (decide (n = NDir)) as [->|Hn]; [|by exists [s], n]. destruct Hk as (k & m & Hk); [done| | |].
  - apply below_iff. exists (k0 ++ [s]). by rewrite <- app_assoc.
  - intros E%(f_equal length). rewrite !length_app in E. cbn in E. lia.
  - exists ([s] ++ k), m. by rewrite (assoc_L (++)).
Qed.

(** C31: the sweep removes the root files of superseded layouts and the entry
    files whose reference is not live, then the directories below the entries'
    directory that have nothing but directories left below them; everything
    else is as it was, links and foreign files with it. *)
Theorem sweep_exact live t : wf t ->
  wf (Sweep live t) /\
  (forall p n, n <> NDir -> Sweep live t !! p = Some n <-> t !! p = Some n /\ ~ swept live p n) /\
  forall d, Sweep live t !! d = Some NDir <->
    t !! d = Some NDir /\
    (below [OracleDir] d = true -> d <> [OracleDir] -> exists k n, Sweep live t !! (d ++ k) = Some n /\ n <> NDir).
Proof.
  intros Hw. split_and!; [by apply Sweep_wf|intros p n; by apply Sweep_leaf|]. intros d. rewrite Sweep_lookup by done. split.
  - intros (H1 & _ & H2). split; [done|]. intros Hb Hne. destruct (H2 eq_refl Hb Hne) as (k & n & H3 & H4 & H5). exists k, n.
    by rewrite Sweep_leaf.
  - intros [H1 H2]. split_and!; [done|apply not_swept_dir|]. intros _ Hb Hne. destruct (H2 Hb Hne) as (k & n & H3 & H4).
    apply Sweep_leaf in H3 as [H3 H5]; [|done..]. by exists k, n.
Qed.
(** ** A run *)

(** Names hold no separator. *)
Definition named (t : tree) : Prop := forall p, is_Some (t !! p) -> Forall avoids_slash p.

Lemma parse_segs p r : Forall avoids_slash p -> parseOracleRef (join slash p) = Some r -> fold_ref r = r -> p = ref_segs r.
Proof.
  intros Hp. unfold parseOracleRef. destruct p as [|o p]; [by intros ?|]. rewrite split_join by done.
  destruct (Nat.ltb_spec (length (o :: p)) 4) as [|Hl]; [done|]. cbn [orb]. case_bool_decide as Ho; [|done].
  cbn in Ho. injection Ho as ->. cbn [negb]. destruct (HasSuffix _ _) eqn:Hs; [|done]. cbn [negb].
  destruct p as [|x p] using rev_ind; [cbn in Hl; lia|]. clear IHp. destruct p as [|y p] using rev_ind; [cbn in Hl; lia|]. clear IHp.
  match type of Hp with Forall _ ?l => set (q := l) in * end.
  assert (List.last q [] = x) as El by (unfold q; by rewrite app_comm_cons, last_last). rewrite El in *.
  assert (length q = length p + 3) as Eq by (unfold q; cbn; rewrite !length_app; cbn; lia). rewrite Eq in *.
  replace (length p + 3 - 3) with (length p) by lia. replace (length p + 3 - 2) with (S (length p)) by lia.
  assert (take (length p) (drop 1 q) = p) as -> by (change (drop 1 q) with ((p ++ [y]) ++ [x]); rewrite <- app_assoc; apply take_app_length).
  assert (default [] (q !! S (length p)) = y) as -> by (change (q !! S (length p)) with (((p ++ [y]) ++ [x]) !! length p); rewrite <- app_assoc; change ([y] ++ [x]) with (y :: [x]); by rewrite list_lookup_middle).
  intros [= <-]. unfold fold_ref. cbn [RfTarget RfQuery RfShape]. clear El Eq. subst q.
  intros [= Et Eq Es]. rewrite <- app_assoc in Hp. apply list.Forall_cons in Hp as [_ [Hp _]%Forall_app].
  assert (p <> []) as Hn by (intros ->; cbn in Hl; lia).
  unfold ref_segs. cbn [RfTarget RfQuery RfShape]. rewrite Eq, Es.
  assert (safeSegment <$> split_byte "/" (join slash p) = p) as ->.
  { rewrite split_join in Et by done. apply (f_equal (split_byte "/")) in Et.
    rewrite !split_join in Et; [by rewrite split_join|done|done| |by destruct p].
    apply Forall_fmap, list.Forall_forall. intros s _. apply safeSegment_name. }
  unfold HasSuffix in Hs. apply bool_decide_eq_true in Hs. 
  assert (take (length x - 5) x ++ dot_json = x) as ->; [|by rewrite <- app_assoc].
  change 5 with (length dot_json). rewrite <- Hs at 2. apply take_drop.
Qed.

Section run.
Context (outside : list bytes -> option bytes) (JO : Json OracleEntry) (HJ : json_faithful JO).

Lemma save_all_ok l : forall t t', wf t -> save_all JO t l = (Ok tt, t') ->
  wf t' /\ (forall p, p ∉ ref_segs <$> l.*1 -> t' !! p = t !! p \/ made t t' p /\ Forall is_name p) /\
  (forall r, r ∈ l.*1 -> exists d, t' !! ref_segs r = Some (NFile d)).
Proof.
  induction l as [|[r e] l IH]; cbn [save_all]; intros t t' Hw.
  - intros [= <-]. split_and!; [done|by left|]. intros r []%not_elem_of_nil.
  - destruct (SaveOracle JO t r e) as [[[]|x] t1] eqn:Es; cbn [and_then]; [|done].
    apply save_confined in Es as (W & C & (d & _ & Hd) & _); [|done]. intros H. apply IH in H as (W' & C' & F'); [|done]. clear IH.
    split_and!; [done| |].
    + intros p Hp. cbn in Hp. apply not_elem_of_cons in Hp as [Hp Hpl]. destruct (C' p Hpl) as [->|[[M M'] N]].
      * destruct (C p Hp) as [|[[M M'] [k Hk]]]; [by left|]. destruct (C' p Hpl) as [E|[[E _] _]]; [|congruence].
        right. split; [split; congruence|]. pose proof (dirs_of_names r) as Hn. rewrite Hk in Hn. by apply Forall_app in Hn as [Hn _].
      * destruct (C p Hp) as [E|[[_ E] _]]; [|congruence]. right. split; [split; congruence|done].
    + intros r' [->|Hr]%elem_of_cons; [|by apply F']. cbn. destruct (decide (ref_segs r ∈ ref_segs <$> l.*1)) as [Hin|Hin].
      * apply list_elem_of_fmap in Hin as (r2 & -> & Hr2). by apply F'.
      * exists d. destruct (C' _ Hin) as [->|[[E _] _]]; congruence.
Qed.

Lemma save_all_loads l : forall t t', wf t -> save_all JO t l = (Ok tt, t') ->
  (forall r e d, (r, e) ∈ l -> EncodeOracle JO e = Ok d -> (N.of_nat (length d) <= MaxFileBytes)%N) ->
  NoDup (fold_ref <$> l.*1) -> forall r fp sql,
  (r ∉ l.*1 -> fold_ref r ∉ fold_ref <$> l.*1 -> LoadOracle outside JO t' r fp sql = LoadOracle outside JO t r fp sql) /\
  forall e, (r, e) ∈ l -> LoadOracle outside JO t' r (OeSchemaFP e) (OeRenderedSQL e) = Some (stamp_oracle e).
Proof.
  induction l as [|[r0 e0] l IH]; cbn [save_all fmap list_fmap]; intros t t' Hw H Hcap Hnd r fp sql.
  - injection H as <-. split; [done|]. intros e []%not_elem_of_nil.
  - destruct (SaveOracle JO t r0 e0) as [[[]|x] t1] eqn:Es; cbn [and_then] in H; [|done].
    pose proof Es as Es'. apply save_confined in Es' as (W & _); [|done]. apply list.NoDup_cons in Hnd as [Hn0 Hnd].
    assert (forall r fp sql, LoadOracle outside JO t1 r fp sql = if decide (fold_ref r = fold_ref r0) then
        if decide (fp = OeSchemaFP e0 /\ sql = OeRenderedSQL e0) then Some (stamp_oracle e0) else None
      else LoadOracle outside JO t r fp sql) as HL.
    { apply load_after_save; [done|done| |done]. intros d Hd. by apply (Hcap r0 e0); [left|]. }
    specialize (IH t1 t' W H ltac:(intros r1 e1 d1 Hr1; apply (Hcap r1); by right) Hnd). split.
    + intros Hr Hf. apply not_elem_of_cons in Hr as [_ Hr]. apply not_elem_of_cons in Hf as [Hf0 Hf].
      rewrite (proj1 (IH r fp sql) Hr Hf), HL. by rewrite decide_False.
    + intros e [[= -> ->]|He]%elem_of_cons; [|by apply (IH r fp sql)].
      rewrite (proj1 (IH r0 _ _)); [|intros Hin; apply Hn0, list_elem_of_fmap; by exists r0|done].
      by rewrite HL, !decide_True.
Qed.

Lemma sweep_read live t p : wf t -> (forall d, ~ swept live p (NFile d)) -> read_file outside (Sweep live t) p = read_file outside t p.
Proof.
  intros Hw Hns. pose proof (Sweep_wf live t Hw) as W. pose proof (fun p n => Sweep_leaf live t p n Hw) as L. unfold read_file. rewrite !lstat_wf by done.
  assert (forall q, Sweep live t !! q = Some NLink <-> t !! q = Some NLink) as Hl.
  { intros q. rewrite L by done. assert (~ swept live q NLink); [|tauto]. intros [E|(_ & E & _)]; [by destruct q as [|? []]|done]. }
  rewrite (existsb_ext (fun q => bool_decide (Sweep live t !! q = Some NLink)) (fun q => bool_decide (t !! q = Some NLink)));
    [|intros q _; apply bool_decide_ext, Hl].
  destruct (existsb _ _); [done|]. destruct (t !! p) as [n|] eqn:E.
  - destruct n as [|d| |].
    + destruct (Sweep live t !! p) as [[|d| |]|] eqn:E'; try done. apply L in E' as [E' _]; [congruence|done].
    + assert (Sweep live t !! p = Some (NFile d)) as -> by (by apply L). done.
    + by rewrite (proj2 (Hl p) E).
    + destruct (Sweep live t !! p) as [[|d| |]|] eqn:E'; try done. apply L in E' as [E' _]; [congruence|done].
  - destruct (Sweep live t !! p) as [[|d| |]|] eqn:E'; try done. apply L in E' as [E' _]; [congruence|done].
Qed.

(** C29: a run that saves the entries of its renderings and sweeps with their
    references leaves the entries' tree exactly the live set, each entry loaded
    by its keys; what is neither an entry file nor a root file of a superseded
    layout is as it was.  It needs references whose bytes the path keeps, which
    the slug of an output path need not be. *)
Theorem generate_then_load t l t' : wf t -> named t ->
  (forall r e d, (r, e) ∈ l -> EncodeOracle JO e = Ok d -> (N.of_nat (length d) <= MaxFileBytes)%N) ->
  NoDup l.*1 -> (forall r, r ∈ l.*1 -> fold_ref r = r) ->
  save_all JO t l = (Ok tt, t') ->
  let t'' := Sweep l.*1 t' in
  (forall r e, (r, e) ∈ l -> LoadOracle outside JO t'' r (OeSchemaFP e) (OeRenderedSQL e) = Some (stamp_oracle e)) /\
  (forall r p, (r, p) ∈ Walk t'' <-> r ∈ l.*1 /\ p = ref_segs r) /\
  forall p n, n <> NDir -> legacy_file p n = false -> below [OracleDir] p && entry_file p n = false -> p ∉ ref_segs <$> l.*1 ->
    t'' !! p = Some n <-> t !! p = Some n.
Proof.
  intros Hw Hnm Hcap Hnd Hcan Hs t''. destruct (save_all_ok l t t' Hw Hs) as (W & C & F).
  pose proof (Sweep_wf l.*1 t' W) as W''. pose proof (fun p n => Sweep_leaf l.*1 t' p n W) as L. fold t'' in W'', L.
  assert (forall r, r ∈ l.*1 -> live_entry l.*1 (ref_segs r) = true) as Hlive.
  { intros r Hr. unfold live_entry. rewrite <- OracleFileName_join, ref_roundtrip, (Hcan r Hr). by apply bool_decide_eq_true. }
  assert (forall r n, r ∈ l.*1 -> ~ swept l.*1 (ref_segs r) n) as Hns.
  { intros r n Hr [E|(_ & _ & E)]; [|by rewrite Hlive in E].
    unfold ref_segs in E. cbn in E. by destruct (_ ++ _) eqn:Ea in E; [apply app_eq_nil in Ea as [_ ?]|]. }
  split_and!.
  - intros r e He. assert (r ∈ l.*1) as Hr by (apply list_elem_of_fmap; by exists (r, e)).
    assert (LoadOracle outside JO t'' r (OeSchemaFP e) (OeRenderedSQL e) = LoadOracle outside JO t' r (OeSchemaFP e) (OeRenderedSQL e)) as ->.
    { unfold LoadOracle, load, ReadFileCapped. rewrite OracleFileName_split. unfold t''. rewrite sweep_read; [done|done|]. intros d. by apply Hns. }
    apply (save_all_loads l t t' Hw Hs Hcap) with (fp := []) (sql := []); [|done].
    assert (fold_ref <$> l.*1 = l.*1) as ->; [|done]. rewrite <- (list_fmap_id l.*1) at 2. apply list_fmap_ext.
    intros i r' Hi. by eapply Hcan, list_elem_of_lookup_2.
  - intros r p. unfold Walk. rewrite list_elem_of_omap. split.
    + intros (q & Hq & E). unfold walk_files in Hq. apply elem_of_walk_fst in Hq as (n & [Hq [Hb _]]%elem_of_walk & He); [|done].
      destruct (parseOracleRef (join slash q)) as [r'|] eqn:Er; [|done]. cbn in E. injection E as -> ->.
      assert (n <> NDir) as Hn by (by intros ->). apply L in Hq as [Hq Hsw]; [|done].
      assert (r ∈ l.*1) as Hr.
      { destruct (decide (r ∈ l.*1)) as [|Hr]; [done|]. destruct Hsw. right. split_and!; [done..|]. unfold live_entry. rewrite Er.
        by apply bool_decide_eq_false. }
      split; [done|]. apply parse_segs; [|done|by apply Hcan].
      destruct (decide (p ∈ ref_segs <$> l.*1)) as [(r2 & -> & _)%list_elem_of_fmap|Hp]; [apply names_avoid, ref_segs_names|].
      destruct (C p Hp) as [E|[_ N]]; [|by apply names_avoid]. apply Hnm. exists n. congruence.
    + intros [Hr ->]. destruct (F r Hr) as [d Hd]. exists (ref_segs r). split.
      * unfold walk_files. apply elem_of_walk_fst. exists (NFile d). split.
        -- apply elem_of_walk; [done|]. assert (t'' !! ref_segs r = Some (NFile d)) as Hd' by (apply L; [done|split; [done|by apply Hns]]).
           split_and!; [done|by apply below_iff; eexists|].
           rewrite (wf_prefix t'' [OracleDir] (tail (ref_segs r))); [done|done|by eexists|]. cbn. by intros [_ ?]%app_eq_nil.
        -- unfold entry_file. cbn [is_regular andb]. rewrite ref_segs_eq, last_last. unfold leaf_of, HasSuffix.
           rewrite length_app, Nat.add_sub, drop_app_length. by apply bool_decide_eq_true.
      * by rewrite <- OracleFileName_join, ref_roundtrip, (Hcan r Hr).
  - intros p n Hn Hlf Hef Hp. rewrite L by done. assert (~ swept l.*1 p n) as Hsw.
    { intros [E|(E1 & E2 & _)]; [congruence|]. rewrite E1, E2 in Hef. done. }
    destruct (C p Hp) as [->|[[-> ->] _]]; [tauto|]. split; [intros [[= <-] _]|]; done.
Qed.
End run.

(** ** On a concrete tree *)

#[export] Instance OracleEntry_eq_dec : EqDecision OracleEntry.
Proof.
  assert (EqDecision EntryType) by solve_decision. assert (EqDecision EntryColumn) by solve_decision. solve_decision.
Defined.

Lemma forallb_map_Forall (P : list bytes -> node -> bool) (t : tree) :
  forallb (fun x => P x.1 x.2) (map_to_list t) = true -> forall p n, t !! p = Some n -> P p n = true.
Proof. rewrite forallb_forall. intros H p n Hp%elem_of_map_to_list. apply (H (p, n)). by apply list_elem_of_In. Qed.

Lemma wf_check t : forallb (fun x => bool_decide (x.1 = [] \/ t !! removelast x.1 = Some NDir)) (map_to_list t) = true -> wf t.
Proof.
  intros H p s [n Hn]. apply (forallb_map_Forall (fun p _ => bool_decide (p = [] \/ t !! removelast p = Some NDir))) with (n := n) in Hn; [|done].
  apply bool_decide_eq_true in Hn as [E|E]; [by apply app_eq_nil in E as [_ ?]|].
  by rewrite removelast_last in E.
Qed.

Lemma named_check t : forallb (fun x => forallb (fun s => negb (existsb (fun c => c =b "/")%char s)) x.1) (map_to_list t) = true -> named t.
Proof.
  intros H p [n Hn]. pose proof (forallb_map_Forall (fun p _ => forallb (fun s => negb (existsb (fun c => c =b "/")%char s)) p) t H _ _ Hn) as E.
  cbv beta in E. apply list.Forall_forall. intros s Hs Hc.
  rewrite forallb_forall in E. apply list_elem_of_In in Hs. specialize (E s Hs). apply negb_true_iff in E.
  assert (existsb (fun c => c =b "/")%char s = true) as E'; [|congruence]. apply existsb_exists. exists "/"%char.
  split; [by apply list_elem_of_In|apply Ascii.eqb_refl].
Qed.

(** A cache with a live entry's stale file, an entry no query has any more, a
    link and a file of somebody else. *)
Definition demo_entry : OracleEntry := mkOracleEntry FormatVersion (bs "f1") (bs "SELECT 1") [] [].
Definition demo_json : Json OracleEntry :=
  mkJson OracleEntry (fun e => if decide (e = demo_entry) then Some (bs "{}") else None)
    (fun d => if decide (d = bs "{}" ++ [c_lf]) then Some demo_entry else None).
Definition demo_ref (q : bytes) : OracleRef := mkRef (bs "gen/db") q (bs "base").
Definition committed_demo : tree :=
  list_to_map ((fun x => (split_byte "/" x.1, x.2)) <$>
    [(bs "oracle", NDir); (bs "oracle/gen", NDir); (bs "oracle/gen/db", NDir); (bs "oracle/gen/db/Get", NDir);
     (bs "oracle/gen/db/Get/base.json", NFile (bs "stale")); (bs "oracle/gen/db/Old", NDir);
     (bs "oracle/gen/db/Old/base.json", NFile (bs "dead")); (bs "oracle/notes", NLink);
     (bs "catalog-1.json", NFile (bs "v1")); (bs "README", NFile (bs "hello"))])
  ∪ {[ [] := NDir ]}.
Definition demo_saves : list (OracleRef * OracleEntry) := [(demo_ref (bs "Get"), demo_entry); (demo_ref (bs "List"), demo_entry)].

Lemma demo_wf : wf committed_demo.
Proof. apply wf_check. vm_compute. reflexivity. Qed.
Lemma demo_named : named committed_demo.
Proof. apply named_check. vm_compute. reflexivity. Qed.
Lemma demo_saved : save_all demo_json committed_demo demo_saves = (Ok tt, (save_all demo_json committed_demo demo_saves).2).
Proof.
  assert ((save_all demo_json committed_demo demo_saves).1 = Ok tt) as <- by (vm_compute; reflexivity). apply surjective_pairing.
Qed.

Lemma demo_faithful : json_faithful demo_json.
Proof. intros v d. cbn. case_decide as E; [|done]. intros [= <-]. subst v. reflexivity. Qed.

Lemma preflight_sound_witness :
  CheckWritable committed_demo (demo_saves.*1) = Ok tt /\ (forall p t', save_all demo_json committed_demo demo_saves <> (Err (SymlinkError p), t')) /\
  let linked := <[split_byte "/" (bs "oracle/gen") := NLink]> committed_demo in CheckWritable linked (demo_saves.*1) = Err (SymlinkError (split_byte "/" (bs "oracle/gen"))).
Proof.
  assert (CheckWritable committed_demo demo_saves.*1 = Ok tt) as E by (vm_compute; reflexivity).
  split; [exact E|]. split; [|vm_compute; reflexivity].
  pose proof (preflight_sound demo_json committed_demo demo_saves.*1 demo_saves demo_wf
    (fun r e H => proj2 (list_elem_of_fmap fst demo_saves r) (ex_intro _ (r, e) (conj eq_refl H)))) as H.
  rewrite E in H. exact H.
Defined.

Lemma sweep_exact_witness :
  let t := Sweep [demo_ref (bs "Get")] committed_demo in
  wf t /\ t !! split_byte "/" (bs "oracle/gen/db/Old") = None /\ t !! split_byte "/" (bs "oracle/gen/db/Get/base.json") = Some (NFile (bs "stale")) /\
  t !! split_byte "/" (bs "oracle/notes") = Some NLink.
Proof.
  intros t. split; [exact (proj1 (sweep_exact [demo_ref (bs "Get")] committed_demo demo_wf))|].
  split_and!; vm_compute; reflexivity.
Defined.

Lemma generate_then_load_witness :
  let t := (save_all demo_json committed_demo demo_saves).2 in
  (forall r e, (r, e) ∈ demo_saves -> LoadOracle (fun _ => None) demo_json (Sweep demo_saves.*1 t) r (OeSchemaFP e) (OeRenderedSQL e) = Some (stamp_oracle e)) /\
  (fst <$> Walk (Sweep demo_saves.*1 t)) = demo_saves.*1.
Proof.
  intros t. split; [|vm_compute; reflexivity].
  refine (proj1 (generate_then_load (fun _ => None) demo_json demo_faithful committed_demo demo_saves t
    demo_wf demo_named _ _ _ demo_saved)).
  - intros r e d. unfold EncodeOracle, marshalCanonical. cbn [Marshal demo_json]. case_decide; [|done]. intros _ [= <-]. vm_compute. discriminate.
  - apply (bool_decide_unpack _). vm_compute. exact I.
  - intros r [->|[->|[]%not_elem_of_nil]%elem_of_cons]%elem_of_cons; vm_compute; reflexivity.
Defined.
