(* ===== verification/Nullability.v ===== *)
(** * Nullability

    [internal/nullability/nullability.go]: which result columns may be NULL.
    The analysis reads the parsed maximal rendering, the oracle's description
    and the catalog; presence maps and the memo table are a state. *)

From S2P Require Import Prelude Template Render Frontend Catalog.

Record Verdict := mkVerdict { VNullable : bool; VReason : bytes }.

Definition funcWhitelist : list bytes := bs <$> ["count"; "now"]%string.
Definition strictAggs : list bytes := bs <$> ["sum"; "min"; "max"; "avg"]%string.

(** ** Fragments *)

Definition inSkeleton (maxR : Rendering) (loc : Z) : bool :=
  if (loc <? 0)%Z then false else forallb (fun fr => negb (in_frag loc fr)) (RFrags maxR).

Definition isGuarded (maxR : Rendering) (loc : Z) : bool :=
  if (loc <? 0)%Z then false
  else match first (in_frag loc) (RFrags maxR) with
       | Some fr => match FRItem fr with IIfPresent _ => true | _ => false end
       | None => false
       end.

(** ** Relation instances *)

Record instance := mkInstance { in_rel : RelRef; in_table : Table }.

Definition inst_name (i : instance) : bytes := match RAlias (in_rel i) with [] => RTable (in_rel i) | a => a end.

(** [instanceResolver.resolve] *)
Definition resolve (rels : list instance) (fields : list bytes) : option (instance * Column) :=
  match fields with
  | [col] =>
      match omap (fun i => c ← Col (in_table i) col; Some (i, c)) rels with
      | [found] => Some found
      | _ => None
      end
  | [qualifier; col] =>
      i ← first (fun i => bool_decide (inst_name i = qualifier)) rels;
      c ← Col (in_table i) col;
      Some (i, c)
  | _ => None
  end.

(** ** Presence *)

Record presence := mkPresence { pr_nullExtended : bool; pr_inherited : bool; pr_poisoned : bool; pr_count : nat }.
Definition no_presence : presence := mkPresence false false false 0.

(** [p := present[oid]; if p == nil { p = &presence{}; present[oid] = p }] and
    an update of [p]. *)
Definition touch (oid : N) (f : presence -> presence) (m : gmap N presence) : gmap N presence :=
  <[oid := f (default no_presence (m !! oid))]> m.

Definition merge_into (d p : presence) : presence :=
  mkPresence (pr_nullExtended p || pr_nullExtended d) (pr_inherited p || pr_inherited d) (pr_poisoned p || pr_poisoned d)
    (pr_count p + pr_count d).

(** [mergePresence]; the order of the delta does not show. *)
Definition mergePresence (dst delta : gmap N presence) : gmap N presence :=
  map_fold (fun oid d m => touch oid (merge_into d) m) dst delta.

(** A CTE definition with the environment of its own body; an environment lists
    its bindings latest first. *)
Inductive cteBinding := Binding (def : CTEDef) (bodyEnv : list (bytes * cteBinding)).
Abbreviation cteEnv := (list (bytes * cteBinding)).

Definition env_lookup (env : cteEnv) (name : bytes) : option cteBinding :=
  snd <$> first (fun b => bool_decide (b.1 = name)) env.

(** The environment of a statement: the outer one and its own definitions, each
    with those before it ([preceding] and [stmtEnv] are bound alike). *)
Definition bind_ctes (outer : cteEnv) (ctes : list CTEDef) : cteEnv :=
  foldl (fun env def => (CTEName def, Binding def env) :: env) outer ctes.

Definition hasSublinkProjection (sub : Tree) : bool := existsb TISublink (TargetItems sub).

(** A body whose output may carry a table's attribution without its
    constraints. *)
Definition hazardous (sub : Tree) (recursive : bool) : bool :=
  recursive || HasSetOperation sub || HasGroupingSets sub || hasSublinkProjection sub.

Section analysis.
Context (maxR : Rendering) (cat : Catalog).

Definition poison_ref (m : gmap N presence) (tr : TableRef) : gmap N presence :=
  match LookupQualified cat (TRSchema tr) (TRName tr) with
  | Some tbl => touch (TabOID tbl) (fun p => mkPresence (pr_nullExtended p) (pr_inherited p) true (pr_count p)) m
  | None => m
  end.
Definition poison (refs : list TableRef) (m : gmap N presence) : gmap N presence := foldl poison_ref m refs.

Record nstate := mkNState {
  ns_present : gmap N presence; ns_rels : list instance; ns_memo : gmap (N * bool) (gmap N presence);
}.
Definition set_present (m : gmap N presence) (st : nstate) : nstate := mkNState m (ns_rels st) (ns_memo st).

(** A relation of the catalog joins the presence map. *)
Definition count_relation (ext : bool) (rel : RelRef) (tbl : Table) : gmap N presence -> gmap N presence :=
  touch (TabOID tbl) (fun p =>
    mkPresence (pr_nullExtended p || ext) (pr_inherited p || (TabHasChildren tbl && negb (ROnly rel))) (pr_poisoned p) (S (pr_count p))).

Section level.
(** [descend] of the round before: a body, whether it is recursive, its
    environment and the null-extension of the reference. *)
Context (descend : Tree -> bool -> cteEnv -> bool -> nstate -> option nstate).

Definition collect_relation (env : cteEnv) (nullExt top : bool) (st : nstate) (rel : RelRef) : option nstate :=
  if isGuarded maxR (RLoc rel) || bool_decide (RTable rel = []) then Some st
  else
    match (if bool_decide (RSchema rel = []) then env_lookup env (RTable rel) else None) with
    | Some (Binding def bodyEnv) =>
        match CTETree def with
        | None => Some (set_present (poison (CTEPoisonTables def) (ns_present st)) st)
        | Some body => descend body (CTERecursive def) bodyEnv (nullExt || RNullableSide rel) st
        end
    | None =>
        match LookupQualified cat (RSchema rel) (RTable rel) with
        | None => Some st
        | Some tbl =>
            let st := set_present (count_relation (nullExt || RNullableSide rel) rel tbl (ns_present st)) st in
            Some (if top then mkNState (ns_present st) (ns_rels st ++ [mkInstance rel tbl]) (ns_memo st) else st)
        end
    end.

Definition collect_derived (env : cteEnv) (nullExt : bool) (st : nstate) (d : SubRel) : option nstate :=
  descend (SRTree d) false env (nullExt || SRNullableSide d) st.

Fixpoint ofold {A S} (f : S -> A -> option S) (s : S) (l : list A) : option S :=
  match l with [] => Some s | x :: l => s' ← f s x; ofold f s' l end.

Definition collectPresence (t : Tree) (env : cteEnv) (nullExt top : bool) (st : nstate) : option nstate :=
  let env := bind_ctes env (CTEs t) in
  st ← ofold (collect_relation env nullExt top) st (Relations t);
  ofold (collect_derived env nullExt) st (DerivedRels t).
End level.

(** [descend]; [None] is missing fuel.  A body is descended into from its
    references, which come after it in the text: a round goes from a statement
    to one that ends before it. *)
Fixpoint descend (fuel : nat) (sub : Tree) (recursive : bool) (env : cteEnv) (nullExt : bool) (st : nstate) : option nstate :=
  match fuel with
  | O => None
  | S f =>
      match ns_memo st !! (TreeId sub, nullExt) with
      | Some delta => Some (set_present (mergePresence (ns_present st) delta) st)
      | None =>
          let scratch := set_present ∅ st in
          st' ← (if hazardous sub recursive then Some (set_present (poison (DeepTables sub) ∅) st)
                 else collectPresence (descend f) sub env nullExt false scratch);
          Some (mkNState (mergePresence (ns_present st) (ns_present st')) (ns_rels st')
                  (<[(TreeId sub, nullExt) := ns_present st']> (ns_memo st')))
      end
  end.
End analysis.

(** ** Size: the statements of a tree that are descended into *)

Fixpoint tree_size (t : Tree) : nat :=
  match t with
  | mkTree _ _ _ _ _ _ _ _ _ _ _ _ _ _ _ ds cs _ _ _ _ _ _ _ _ =>
      S (list_sum (map (fun d => match d with mkSubRel _ _ u => tree_size u end) ds)
         + list_sum (map (fun c => match c with mkCTEDef _ _ (Some u) _ => tree_size u | _ => 0 end) cs))
  end.

(** ** Verdicts *)

Definition touchesView (t : Tree) (cat : option Catalog) : bool :=
  match cat with
  | None => false
  | Some cat => existsb (fun tr => match LookupQualified cat (TRSchema tr) (TRName tr) with Some tbl => TabIsView tbl | None => false end) (DeepTables t)
  end.

(** The statement-wide switches; empty when the source is trusted. *)
Definition untrusted_reason (maxTree : Tree) (cat : option Catalog) : bytes :=
  if HasSetOperation maxTree then bs "narrowing disabled: statement is a set operation"
  else if HasGroupingSets maxTree then bs "narrowing disabled: ROLLUP/CUBE/GROUPING SETS nulls grouping columns"
  else if HasUnresolvableProvenance maxTree then bs "narrowing disabled: database-qualified names defeat name-keyed column attribution"
  else if touchesView maxTree cat then bs "narrowing disabled: a view in the statement attributes result columns through to base tables whose NOT NULL its (invisible, possibly null-extending) body need not preserve"
  else [].

Definition no_state : nstate := mkNState ∅ [] ∅.

(** The presence of the statement; [None] is missing fuel. *)
Definition analyze_state (maxTree : Tree) (maxR : Rendering) (cat : option Catalog) (trustSrc : bool) : option nstate :=
  match cat with
  | Some cat => if trustSrc then collectPresence maxR cat (descend maxR cat (tree_size maxTree)) maxTree [] false true no_state else Some no_state
  | None => Some no_state
  end.

(** The columns a skeleton [IS NOT NULL] conjunct filters. *)
Definition filter_conjunct (maxR : Rendering) (st : nstate) (filtered : gset (N * Z)) (cr : ColRef) : gset (N * Z) :=
  if negb (inSkeleton maxR (CRLoc cr)) then filtered
  else
    match resolve (ns_rels st) (CRFields cr) with
    | None => filtered
    | Some (inst, c) =>
        match ns_present st !! TabOID (in_table inst) with
        | Some p => if Nat.eqb (pr_count p) 1 && negb (pr_poisoned p) then {[(TabOID (in_table inst), ColAtt c)]} ∪ filtered else filtered
        | None => filtered
        end
    end.
Definition filtered_columns (maxTree : Tree) (maxR : Rendering) (cat : option Catalog) (trustSrc : bool) (st : nstate) : gset (N * Z) :=
  if trustSrc && (match cat with Some _ => true | None => false end) && negb (bool_decide (TKind maxTree = StmtUpdate))
  then foldl (filter_conjunct maxR st) ∅ (NotNullConjuncts maxTree) else ∅.

(** [srcVerdict] *)
Definition srcVerdict (col : ColumnDesc) (cat : Catalog) (untrusted : bytes) (present : gmap N presence) (filtered : gset (N * Z)) : Verdict :=
  if negb (bool_decide (untrusted = [])) then mkVerdict true untrusted
  else
    match present !! CdSrcRel col with
    | None => mkVerdict true (bs "source relation is not present in FROM (untrusted provenance)")
    | Some p =>
        match LookupOID cat (CdSrcRel col) with
        | None => mkVerdict true (bs "source relation unknown to the catalog")
        | Some t =>
            match ColByAtt t (CdSrcAtt col) with
            | None => mkVerdict true (bs "source column unknown to the catalog")
            | Some c =>
                let qual := TabName t ++ bs "." ++ ColName c in
                if bool_decide ((CdSrcRel col, CdSrcAtt col) ∈ filtered) then mkVerdict false (qual ++ bs " is filtered by an unconditional IS NOT NULL")
                else if pr_poisoned p then mkVerdict true (qual ++ bs " is exposed through a hazardous subquery (set operation, grouping sets, or a recursive CTE)")
                else if pr_inherited p then mkVerdict true (qual ++ bs "'s table has inheritance children, which may drop NOT NULL")
                else if pr_nullExtended p then mkVerdict true (qual ++ bs " is null-extended by an outer join")
                else if negb (ColNotNull c) then mkVerdict true (qual ++ bs " is nullable in the catalog")
                else mkVerdict false (qual ++ bs " is NOT NULL in the catalog")
            end
        end
    end.

(** The verdict of an expression column from its target item. *)
Definition target_verdict (groupedAggs : bool) (rels : list instance) (ti : TargetItem) : option Verdict :=
  if bool_decide (TIFuncName ti ∈ funcWhitelist) then Some (mkVerdict false (bs "total function " ++ TIFuncName ti ++ bs "()"))
  else if TITotal ti then Some (mkVerdict false (bs "total expression (literal/EXISTS/null test/total coalesce)"))
  else if groupedAggs && bool_decide (TIFuncName ti ∈ strictAggs) && negb (bool_decide (TIAggArg ti = [])) then
    match resolve rels (TIAggArg ti) with
    | Some (inst, c) =>
        if negb (RNullableSide (in_rel inst)) && ColNotNull c && negb (TabHasChildren (in_table inst) && negb (ROnly (in_rel inst))) then
          Some (mkVerdict false (TIFuncName ti ++ bs "(" ++ TabName (in_table inst) ++ bs "." ++ ColName c ++ bs ") over a non-null column with GROUP BY"))
        else None
    | None => None
    end
  else None.

Definition aligned (targets : list TargetItem) (columns : list ColumnDesc) : bool :=
  Nat.eqb (length targets) (length columns) && negb (existsb TIStar targets).

Definition column_verdict (maxTree : Tree) (maxR : Rendering) (desc : Desc) (cat : option Catalog) (overrides : gmap bytes Verdict)
    (st : nstate) (i : nat) (col : ColumnDesc) : Verdict :=
  let untrusted := untrusted_reason maxTree cat in
  let trustSrc := bool_decide (untrusted = []) in
  let targets := TargetItems maxTree in
  let al := aligned targets (DColumns desc) in
  let expression :=
    default (mkVerdict true (bs "expression column without a totality proof"))
      (if al then ti ← targets !! i; target_verdict (trustSrc && HasGroupBy maxTree) (ns_rels st) ti else None) in
  match overrides !! CdName col with
  | Some v => v
  | None =>
      let suppressSrc :=
        if al then match targets !! i with Some ti => TISublink ti | None => false end
        else existsb TISublink targets in
      match cat with
      | Some cat' =>
          if negb (N.eqb (CdSrcRel col) 0) && negb suppressSrc then
            srcVerdict col cat' untrusted (ns_present st) (filtered_columns maxTree maxR cat trustSrc st)
          else expression
      | None => expression
      end
  end.

Definition AnalyzeVerdicts (maxTree : Tree) (maxR : Rendering) (desc : Desc) (cat : option Catalog) (overrides : gmap bytes Verdict) : option (list Verdict) :=
  st ← analyze_state maxTree maxR cat (bool_decide (untrusted_reason maxTree cat = []));
  Some (imap (column_verdict maxTree maxR desc cat overrides st) (DColumns desc)).

Definition Analyze (maxTree : Tree) (maxR : Rendering) (desc : Desc) (cat : option Catalog) (overrides : gmap bytes Verdict) : option (list bool) :=
  match AnalyzeVerdicts maxTree maxR desc cat overrides with Some vs => Some (VNullable <$> vs) | None => None end.

(** ** All renderings *)

(** [out] takes over the verdicts that turn a column nullable. *)
Fixpoint adopt (out n : list Verdict) : list Verdict :=
  match out, n with
  | o :: out, v :: n => (if negb (VNullable o) && VNullable v then v else o) :: adopt out n
  | out, [] => out
  | [], _ => []
  end.

(** [out] is [None] before the first rendering; an analysis returns
    ([walk_statement]). *)
Fixpoint analyze_all (fe : Frontend) (cat : option Catalog) (overrides : gmap bytes Verdict) (pairs : list (Rendering * Desc)) (out : option (list Verdict))
    : result FeError (option (list Verdict)) :=
  match pairs with
  | [] => Ok out
  | (r, d) :: pairs =>
      let! tree := Parse fe (RSQL r) in
      let n := default [] (AnalyzeVerdicts tree r d cat overrides) in
      analyze_all fe cat overrides pairs (Some (match out with None => n | Some o => adopt o n end))
  end.
Definition AnalyzeAllVerdicts (fe : Frontend) (rs : list Rendering) (descs : list Desc) (cat : option Catalog) (overrides : gmap bytes Verdict)
    : result FeError (list Verdict) :=
  let! out := analyze_all fe cat overrides (zip rs descs) None in Ok (default [] out).
Definition AnalyzeAll (fe : Frontend) (rs : list Rendering) (descs : list Desc) (cat : option Catalog) (overrides : gmap bytes Verdict)
    : result FeError (list bool) :=
  let! vs := AnalyzeAllVerdicts fe rs descs cat overrides in Ok (VNullable <$> vs).
