(* ===== verification/NullabilityProps.v ===== *)
(** * NullabilityProps

    What the presence analysis computes: the exposures of each table, listed
    without a memo, are the specification; the memoised walk ends and sums them
    up. *)

From S2P Require Import Prelude Template Render Frontend Catalog Nullability.

(** ** Exposures

    A table is exposed by an instance of it, with the null-extension and the
    inheritance of its scan, or poisoned by a body it is mentioned in. *)
Inductive exposure := Instance (oid : N) (ext inh : bool) | Poison (oid : N).

Definition about (e : exposure) : N := match e with Instance oid _ _ | Poison oid => oid end.
Definition e_ext (e : exposure) : bool := match e with Instance _ b _ => b | Poison _ => false end.
Definition e_inh (e : exposure) : bool := match e with Instance _ _ b => b | Poison _ => false end.
Definition e_poison (e : exposure) : bool := match e with Poison _ => true | _ => false end.
Definition e_count (e : exposure) : nat := match e with Poison _ => 0 | _ => 1 end.

Definition exposures_of (oid : N) (es : list exposure) : list exposure := base.filter (fun e => about e = oid) es.

(** The presence of a table: the union of its exposures. *)
Definition presence_of (es : list exposure) (oid : N) : option presence :=
  match exposures_of oid es with
  | [] => None
  | l => Some (mkPresence (existsb e_ext l) (existsb e_inh l) (existsb e_poison l) (list_sum (e_count <$> l)))
  end.

Section spec.
Context (maxR : Rendering) (cat : Catalog).

Definition poison_exposures (refs : list TableRef) : list exposure :=
  omap (fun tr => tbl ← LookupQualified cat (TRSchema tr) (TRName tr); Some (Poison (TabOID tbl))) refs.

Section level.
Context (body : Tree -> bool -> cteEnv -> bool -> list exposure).

Definition relation_exposures (env : cteEnv) (nullExt : bool) (rel : RelRef) : list exposure :=
  if isGuarded maxR (RLoc rel) || bool_decide (RTable rel = []) then []
  else
    match (if bool_decide (RSchema rel = []) then env_lookup env (RTable rel) else None) with
    | Some (Binding def bodyEnv) =>
        match CTETree def with
        | None => poison_exposures (CTEPoisonTables def)
        | Some u => body u (CTERecursive def) bodyEnv (nullExt || RNullableSide rel)
        end
    | None =>
        match LookupQualified cat (RSchema rel) (RTable rel) with
        | None => []
        | Some tbl => [Instance (TabOID tbl) (nullExt || RNullableSide rel) (TabHasChildren tbl && negb (ROnly rel))]
        end
    end.

Definition level_exposures (t : Tree) (env : cteEnv) (nullExt : bool) : list exposure :=
  let env := bind_ctes env (CTEs t) in
  concat (relation_exposures env nullExt <$> Relations t)
  ++ concat ((fun d => body (SRTree d) false env (nullExt || SRNullableSide d)) <$> DerivedRels t).
End level.

(** Without a memo: a body is gone through again at each reference. *)
Fixpoint body_exposures (fuel : nat) (sub : Tree) (recursive : bool) (env : cteEnv) (nullExt : bool) : list exposure :=
  match fuel with
  | O => []
  | S f => if hazardous sub recursive then poison_exposures (DeepTables sub) else level_exposures (body_exposures f) sub env nullExt
  end.
End spec.

(** ** Maps of presences *)

Definition opt_merge (d p : option presence) : option presence :=
  match d with None => p | Some d => Some (merge_into d (default no_presence p)) end.

Lemma merge_no p : merge_into no_presence p = p.
Proof. destruct p as [[] [] [] n]; unfold merge_into; cbn; by rewrite Nat.add_0_r. Qed.
Lemma no_merge p : merge_into p no_presence = p.
Proof. by destruct p as [[] [] [] n]. Qed.

Lemma merge_assoc a b c : merge_into a (merge_into b c) = merge_into (merge_into a b) c.
Proof. unfold merge_into. cbn. f_equal; try lia; by rewrite <- ?orb_assoc; f_equal; rewrite orb_comm || idtac. Qed.

Lemma opt_merge_assoc a b c : opt_merge a (opt_merge b c) = opt_merge (opt_merge b a) c.
Proof.
  destruct a as [a|], b as [b|]; cbn; [|by rewrite ?no_merge..].
  rewrite no_merge || idtac. f_equal. rewrite merge_assoc. f_equal. unfold merge_into. cbn. f_equal; try lia; apply orb_comm.
Qed.

Lemma mergePresence_lookup dst delta oid : mergePresence dst delta !! oid = opt_merge (delta !! oid) (dst !! oid).
Proof.
  unfold mergePresence. revert oid. apply (map_fold_weak_ind (fun m delta => forall oid, m !! oid = opt_merge (delta !! oid) (dst !! oid))).
  - intros oid. by rewrite lookup_empty.
  - intros k d m r Hk IH oid. unfold touch. destruct (decide (oid = k)) as [->|Hne].
    + rewrite !lookup_insert_eq. by rewrite IH, Hk.
    + by rewrite !lookup_insert_ne.
Qed.

Lemma exposures_of_app oid a b : exposures_of oid (a ++ b) = exposures_of oid a ++ exposures_of oid b.
Proof. apply list.filter_app. Qed.

Lemma exposures_of_one oid e : exposures_of oid [e] = if decide (about e = oid) then [e] else [].
Proof. done. Qed.

Lemma presence_of_app a b oid : presence_of (a ++ b) oid = opt_merge (presence_of b oid) (presence_of a oid).
Proof.
  unfold presence_of. rewrite exposures_of_app. destruct (exposures_of oid a) as [|x xs]; cbn [app].
  - destruct (exposures_of oid b); cbn; [done|]. by rewrite orb_false_r || rewrite no_merge.
  - destruct (exposures_of oid b) as [|y ys]; [by rewrite app_nil_r|]. cbn [opt_merge default]. f_equal. unfold merge_into. cbn [pr_nullExtended pr_inherited pr_poisoned pr_count].
    change (x :: xs ++ y :: ys) with ((x :: xs) ++ y :: ys). rewrite !existsb_app, fmap_app, list_sum_app. done.
Qed.

(** The map holds the presences of the exposures. *)
Definition represents (m : gmap N presence) (es : list exposure) : Prop := forall oid, m !! oid = presence_of es oid.

Lemma represents_nil : represents ∅ [].
Proof. intros oid. by rewrite lookup_empty. Qed.

Lemma represents_merge m es delta ds : represents m es -> represents delta ds -> represents (mergePresence m delta) (es ++ ds).
Proof. intros Hm Hd oid. by rewrite mergePresence_lookup, presence_of_app, Hm, Hd. Qed.

Lemma represents_touch m es e f : represents m es ->
  (forall p, f p = merge_into (mkPresence (e_ext e) (e_inh e) (e_poison e) (e_count e)) p) -> represents (touch (about e) f m) (es ++ [e]).
Proof.
  intros Hm Hf oid. rewrite presence_of_app. unfold touch, presence_of at 1. rewrite exposures_of_one.
  destruct (decide (about e = oid)) as [<-|Hne].
  - rewrite lookup_insert_eq. cbn. rewrite !orb_false_r, Nat.add_0_r. by rewrite Hf, Hm.
  - by rewrite lookup_insert_ne.
Qed.

Section walk.
Context (maxR : Rendering) (cat : Catalog).
Abbreviation descend := (descend maxR cat).
Abbreviation body_exposures := (body_exposures maxR cat).

Lemma represents_poison m es refs : represents m es -> represents (poison cat refs m) (es ++ poison_exposures cat refs).
Proof.
  revert m es. induction refs as [|tr refs IH]; intros m es Hm; [by rewrite app_nil_r|].
  change (poison cat (tr :: refs) m) with (poison cat refs (poison_ref cat m tr)). unfold poison_ref.
  assert (poison_exposures cat (tr :: refs) = match LookupQualified cat (TRSchema tr) (TRName tr) with Some tbl => [Poison (TabOID tbl)] | None => [] end ++ poison_exposures cat refs) as ->
    by (unfold poison_exposures; cbn; by destruct (LookupQualified _ _ _)).
  destruct (LookupQualified _ _ _) as [tbl|]; [|by apply IH]. rewrite app_assoc. apply IH.
  apply (represents_touch m es (Poison (TabOID tbl))); [done|]. intros p. unfold merge_into. cbn.
  by rewrite !orb_false_r, orb_true_r, Nat.add_0_r.
Qed.

Lemma represents_count m es ext rel tbl : represents m es ->
  represents (count_relation ext rel tbl m) (es ++ [Instance (TabOID tbl) ext (TabHasChildren tbl && negb (ROnly rel))]).
Proof.
  intros Hm. apply (represents_touch m es (Instance _ _ _)); [done|]. intros p. unfold merge_into. cbn.
  by rewrite orb_false_r, Nat.add_1_r.
Qed.

(** ** Environments and sites

    The statements of a tree that are descended into, each once, with the
    environment of its place. *)
Abbreviation site := (Tree * bool * cteEnv)%type.

Definition cte_sites (sites : Tree -> cteEnv -> list site) : cteEnv -> list CTEDef -> list site :=
  fix go env cs :=
    match cs with
    | [] => []
    | def :: cs =>
        match def with
        | mkCTEDef _ r (Some u) _ => (u, r, env) :: sites u env
        | mkCTEDef _ _ None _ => []
        end ++ go ((CTEName def, Binding def env) :: env) cs
    end.

Fixpoint sites (t : Tree) (env : cteEnv) : list site :=
  match t with
  | mkTree _ _ _ _ _ _ _ _ _ _ _ _ _ _ _ ds cs _ _ _ _ _ _ _ _ =>
      cte_sites sites env cs
      ++ concat (map (fun d => match d with mkSubRel _ _ u => (u, false, bind_ctes env cs) :: sites u (bind_ctes env cs) end) ds)
  end.

Lemma sites_unfold t env : sites t env = cte_sites sites env (CTEs t)
  ++ concat (map (fun d => (SRTree d, false, bind_ctes env (CTEs t)) :: sites (SRTree d) (bind_ctes env (CTEs t))) (DerivedRels t)).
Proof. destruct t. cbn. f_equal. f_equal. apply map_ext. by intros []. Qed.

Definition sub_sizes (ds : list SubRel) : nat := list_sum (map (fun d => tree_size (SRTree d)) ds).
Definition cte_size (c : CTEDef) : nat := match CTETree c with Some u => tree_size u | None => 0 end.
Lemma tree_size_unfold t : tree_size t = S (sub_sizes (DerivedRels t) + list_sum (map cte_size (CTEs t))).
Proof.
  destruct t. cbn. unfold sub_sizes. do 2 f_equal.
  - f_equal. apply map_ext. by intros [].
  - f_equal. apply map_ext. by intros [? ? []].
Qed.

(** An environment is below a number when every body it binds, with its own
    environment, is. *)
Inductive env_rank : cteEnv -> nat -> Prop :=
  | rank_nil n : env_rank [] n
  | rank_cons name def benv env m n :
      env_rank benv m -> m + cte_size def <= n -> env_rank env n -> env_rank ((name, Binding def benv) :: env) n.

Lemma env_rank_le env n n' : env_rank env n -> n <= n' -> env_rank env n'.
Proof. induction 1; intros Hn; econstructor; eauto; lia. Qed.

Lemma env_rank_bind cs env n : env_rank env n -> env_rank (bind_ctes env cs) (n + list_sum (map cte_size cs)).
Proof.
  revert env n. induction cs as [|def cs IH]; intros env n He; cbn; [by rewrite Nat.add_0_r|].
  rewrite Nat.add_assoc. apply IH. econstructor; [done|done|]. eapply env_rank_le; [done|lia].
Qed.

Lemma env_lookup_in env name b : env_lookup env name = Some b -> exists name', (name', b) ∈ env.
Proof. unfold env_lookup. intros ([name' b'] & (H & _)%first_spec & ->)%fmap_Some. by exists name'. Qed.

Lemma env_rank_in env n name def benv : env_rank env n -> (name, Binding def benv) ∈ env -> exists m, env_rank benv m /\ m + cte_size def <= n.
Proof.
  induction 1 as [|name' def' benv' env m n Hb _ Hle He IH]; [by intros ?%elem_of_nil|].
  intros [[= -> -> ->]|Hin]%elem_of_cons; eauto.
Qed.

(** A body and its environment that a number of rounds is enough for. *)
Definition fits (f : nat) (u : Tree) (env : cteEnv) : Prop := exists m, env_rank env m /\ m + tree_size u <= f.

Lemma fits_le f g u env : fits f u env -> f <= g -> fits g u env.
Proof. intros (m & ? & ?) ?. exists m. split; [done|lia]. Qed.

Lemma concat_nils {A B} (l : list A) : concat ((fun _ => ([] : list B)) <$> l) = [].
Proof. induction l as [|x l IH]; [done|exact IH]. Qed.

Lemma in_list_sum n l : In n l -> n <= list_sum l.
Proof. induction l as [|x l IH]; [done|]. change (list_sum (x :: l)) with (x + list_sum l). intros [->|H%IH]; lia. Qed.

Lemma fits_derived f t env d : fits (S f) t env -> d ∈ DerivedRels t -> fits f (SRTree d) (bind_ctes env (CTEs t)).
Proof.
  intros (m & Hm & Hle) Hd. exists (m + list_sum (map cte_size (CTEs t))). split; [by apply env_rank_bind|].
  rewrite tree_size_unfold in Hle. unfold sub_sizes in Hle. apply list_elem_of_In in Hd.
  pose proof (in_list_sum _ _ (in_map (fun d => tree_size (SRTree d)) _ _ Hd)). cbn beta in *. lia.
Qed.

Lemma fits_bound f t env name def benv u : fits (S f) t env -> (name, Binding def benv) ∈ bind_ctes env (CTEs t) ->
  CTETree def = Some u -> fits f u benv.
Proof.
  intros (m & Hm & Hle) Hin Hu. destruct (env_rank_in _ _ _ _ _ (env_rank_bind (CTEs t) env m Hm) Hin) as (m' & Hm' & Hle').
  exists m'. split; [done|]. unfold cte_size in Hle' at 1. rewrite Hu in Hle'. rewrite tree_size_unfold in Hle. lia.
Qed.

(** The exposures of a level depend on those of the bodies it leads to. *)
Lemma level_exposures_ext b1 b2 f t env ne : fits (S f) t env ->
  (forall u r e ne, fits f u e -> b1 u r e ne = b2 u r e ne) -> level_exposures maxR cat b1 t env ne = level_exposures maxR cat b2 t env ne.
Proof.
  intros Hfit Hb. unfold level_exposures. cbv zeta. f_equal.
  - f_equal. apply list_fmap_ext. intros _ rel _. unfold relation_exposures. destruct (_ || _); [done|].
    destruct (if bool_decide _ then _ else _) as [[def benv]|] eqn:E; [|done]. destruct (CTETree def) as [u|] eqn:Eu; [|done].
    apply Hb. case_bool_decide; [|done]. apply env_lookup_in in E as [name Hin]. by eapply fits_bound.
  - f_equal. apply list_fmap_ext. intros i d Hd. apply Hb. apply fits_derived; [done|]. by eapply list_elem_of_lookup_2.
Qed.

Lemma body_exposures_fuel f g u r e ne : fits f u e -> fits g u e -> body_exposures f u r e ne = body_exposures g u r e ne.
Proof.
  revert g u r e ne. induction f as [|f IH]; intros g u r e ne Hf Hg.
  { destruct Hf as (m & _ & H). rewrite tree_size_unfold in H. lia. }
  destruct g as [|g]. { destruct Hg as (m & _ & H). rewrite tree_size_unfold in H. lia. }
  cbn [NullabilityProps.body_exposures]. destruct (hazardous u r); [done|]. assert (fits (S (Nat.min f g)) u e) as Hmin.
  { destruct Hf as (m & Hm & Hle), Hg as (m' & Hm' & Hle'). destruct (Nat.min_dec f g) as [->| ->]; [exists m|exists m']; done. }
  apply (level_exposures_ext _ _ (Nat.min f g)); [done|]. intros u' r' e' ne' Hfit. apply IH; (eapply fits_le; [done|lia]).
Qed.

(** ** The memoised walk *)

(** A set of sites that is closed under going into a body, on which identities
    tell sites apart, and which [F] rounds are enough for. *)
Definition bindings_in (S : list site) (env : cteEnv) : Prop :=
  forall name def benv u, (name, Binding def benv) ∈ env -> CTETree def = Some u -> (u, CTERecursive def, benv) ∈ S.

Record walkable (S : list site) (F : nat) : Prop := {
  w_ids : forall u r e u' r' e', (u, r, e) ∈ S -> (u', r', e') ∈ S -> TreeId u = TreeId u' -> (u, r, e) = (u', r', e');
  w_fits : forall u r e, (u, r, e) ∈ S -> fits F u e;
  w_closed : forall u r e, (u, r, e) ∈ S -> sites u e ⊆ S /\ bindings_in S e;
}.

Lemma cte_sites_in env cs name def benv u : (name, Binding def benv) ∈ bind_ctes env cs -> CTETree def = Some u ->
  (name, Binding def benv) ∈ env \/ (u, CTERecursive def, benv) ∈ cte_sites sites env cs.
Proof.
  revert env. induction cs as [|c cs IH]; intros env Hin Hu; [by left|]. cbn [bind_ctes foldl cte_sites] in *. fold (bind_ctes ((CTEName c, Binding c env) :: env) cs) in Hin.
  destruct (IH _ Hin Hu) as [[[= -> -> ->]|?]%elem_of_cons|?]; [|by left|right].
  - right. apply elem_of_app. left. destruct c as [n r [u'|] p]; cbn in Hu; [|done]. injection Hu as ->. by left.
  - apply elem_of_app. by right.
Qed.

Lemma bindings_bind S env t : bindings_in S env -> sites t env ⊆ S -> bindings_in S (bind_ctes env (CTEs t)).
Proof.
  intros He Hs name def benv u Hin Hu. destruct (cte_sites_in _ _ _ _ _ _ Hin Hu) as [?|Hc]; [by eapply He|].
  apply Hs. rewrite sites_unfold. apply elem_of_app. by left.
Qed.

Lemma derived_site t env d : d ∈ DerivedRels t -> (SRTree d, false, bind_ctes env (CTEs t)) ∈ sites t env.
Proof.
  intros Hd. rewrite sites_unfold. apply elem_of_app. right. apply list_elem_of_In, in_concat. eexists. split.
  - apply in_map. by apply list_elem_of_In.
  - by left.
Qed.

Section walked.
Context (sts : list site) (F : nat) (Hw : walkable sts F).
Abbreviation E := (body_exposures F).

Definition memo_ok (memo : gmap (N * bool) (gmap N presence)) : Prop :=
  forall u r e ne delta, (u, r, e) ∈ sts -> memo !! (TreeId u, ne) = Some delta -> represents delta (E u r e ne).

(** What a step adds: its exposures, and instances. *)
Definition adds (es : list exposure) (rs : list instance) (st : nstate) (out : option nstate) : Prop :=
  forall before, represents (ns_present st) before -> memo_ok (ns_memo st) ->
  exists st', out = Some st' /\ represents (ns_present st') (before ++ es) /\ memo_ok (ns_memo st') /\ ns_rels st' = ns_rels st ++ rs.

Lemma adds_ofold {A} (step : nstate -> A -> option nstate) (ev : A -> list exposure) (ins : A -> list instance) l st :
  (forall x st, x ∈ l -> adds (ev x) (ins x) st (step st x)) -> adds (concat (ev <$> l)) (concat (ins <$> l)) st (ofold step st l).
Proof.
  revert st. induction l as [|x l IH]; intros st Hstep before Hr Hm; cbn.
  - exists st. rewrite !app_nil_r. done.
  - destruct (Hstep x st ltac:(by left) before Hr Hm) as (st1 & -> & Hr1 & Hm1 & E1). cbn [mbind option_bind].
    destruct (IH st1 (fun y s Hy => Hstep y s (list_elem_of_further _ _ _ Hy)) _ Hr1 Hm1) as (st2 & -> & Hr2 & Hm2 & E2).
    exists st2. split_and!; [done| |done|]; [|rewrite E2, E1]; by rewrite app_assoc.
Qed.

(** The relations of the catalog among those of a statement. *)
Definition relation_instance (env : cteEnv) (rel : RelRef) : list instance :=
  if isGuarded maxR (RLoc rel) || bool_decide (RTable rel = []) then []
  else match (if bool_decide (RSchema rel = []) then env_lookup env (RTable rel) else None) with
       | Some _ => []
       | None => match LookupQualified cat (RSchema rel) (RTable rel) with Some tbl => [mkInstance rel tbl] | None => [] end
       end.

Definition descends (f : nat) (desc : Tree -> bool -> cteEnv -> bool -> nstate -> option nstate) : Prop :=
  forall u r e ne st, (u, r, e) ∈ sts -> fits f u e -> adds (E u r e ne) [] st (desc u r e ne st).

Lemma collect_ok f desc t env ne (top : bool) st : descends f desc -> fits (S f) t env -> bindings_in sts env -> sites t env ⊆ sts ->
  adds (level_exposures maxR cat E t env ne) (if top then concat (relation_instance (bind_ctes env (CTEs t)) <$> Relations t) else []) st
    (collectPresence maxR cat desc t env ne top st).
Proof.
  intros Hdesc Hfit Hb Hs. unfold collectPresence, level_exposures. cbv zeta. set (env' := bind_ctes env (CTEs t)).
  pose proof (bindings_bind _ _ _ Hb Hs) as Hb'. fold env' in Hb'.
  assert (adds (concat (relation_exposures maxR cat E env' ne <$> Relations t)) (concat ((fun rel => if top then relation_instance env' rel else []) <$> Relations t)) st
    (ofold (collect_relation maxR cat desc env' ne top) st (Relations t))) as H1.
  { apply adds_ofold. intros rel st1 _. unfold collect_relation, relation_exposures, relation_instance.
    destruct (_ || bool_decide (RTable rel = [])).
    { intros before Hr Hm. exists st1. destruct top; rewrite !app_nil_r; done. }
    destruct (if bool_decide _ then _ else _) as [[def benv]|] eqn:El.
    - assert (exists name, (name, Binding def benv) ∈ env') as [name Hin] by (case_bool_decide; [by eapply env_lookup_in|done]).
      destruct (CTETree def) as [u|] eqn:Eu.
      + replace (if top then [] else []) with ([] : list instance) by by destruct top. apply Hdesc; [by eapply Hb'|by eapply fits_bound].
      + intros before Hr Hm. eexists. split; [done|]. cbn. split_and!; [by apply represents_poison|done|]. destruct top; by rewrite app_nil_r.
    - destruct (LookupQualified _ _ _) as [tbl|].
      + intros before Hr Hm. eexists. split; [done|]. destruct top; cbn; split_and!; try done; try (by apply represents_count). by rewrite app_nil_r.
      + intros before Hr Hm. exists st1. destruct top; rewrite !app_nil_r; done. }
  intros before Hr Hm. destruct (H1 before Hr Hm) as (st1 & -> & Hr1 & Hm1 & E1). cbn [mbind option_bind].
  destruct (adds_ofold (collect_derived desc env' ne) (fun d => E (SRTree d) false env' (ne || SRNullableSide d)) (fun _ => ([] : list instance)) (DerivedRels t) st1) with (before := before ++ concat (relation_exposures maxR cat E env' ne <$> Relations t))
    as (st2 & -> & Hr2 & Hm2 & E2).
  { intros d st' Hd. apply Hdesc; [|by apply fits_derived]. by apply Hs, derived_site. }
  { done. } { done. }
  exists st2. split_and!; [done|by rewrite app_assoc|done|]. rewrite E2, E1, <- app_assoc. f_equal.
  rewrite concat_nils, app_nil_r. destruct top; [done|]. apply concat_nils.
Qed.

Lemma descend_ok f : f <= F -> descends f (descend f).
Proof.
  induction f as [|f IH]; intros Hf u r e ne st Hin Hfit before Hr Hm.
  { destruct Hfit as (m & _ & H). rewrite tree_size_unfold in H. lia. }
  cbn [Nullability.descend]. destruct (ns_memo st !! (TreeId u, ne)) as [delta|] eqn:Ememo.
  { eexists. split; [done|]. cbn. split_and!; [apply represents_merge; [done|]; by eapply Hm|done|by rewrite app_nil_r]. }
  pose proof (w_closed _ _ Hw _ _ _ Hin) as [Hs Hb].
  assert (E u r e ne = body_exposures (S f) u r e ne) as EE by (apply body_exposures_fuel; [by eapply w_fits|done]).
  assert (exists st', (if hazardous u r then Some (set_present (poison cat (DeepTables u) ∅) st) else collectPresence maxR cat (descend f) u e ne false (set_present ∅ st)) = Some st' /\
    represents (ns_present st') (E u r e ne) /\ memo_ok (ns_memo st') /\ ns_rels st' = ns_rels st) as (st' & -> & Hr' & Hm' & Er').
  { rewrite EE. cbn [NullabilityProps.body_exposures]. destruct (hazardous u r).
    - eexists. split; [done|]. cbn. split_and!; [apply (represents_poison ∅ []), represents_nil|done|done].
    - destruct (collect_ok f (descend f) u e ne false (set_present ∅ st) (IH ltac:(lia)) Hfit Hb Hs [] represents_nil Hm) as (st' & E1 & Hr1 & Hm1 & E2).
      exists st'. split; [exact E1|]. rewrite app_nil_r in E2. split_and!; [|done|done].
      rewrite (level_exposures_ext _ E f); [done|done|]. intros u' r' e' ne' Hfit'.
      apply body_exposures_fuel; (eapply fits_le; [done|lia]). }
  cbn [mbind option_bind]. eexists. split; [done|]. cbn. split_and!; [by apply represents_merge| |by rewrite app_nil_r].
  intros u' r' e' ne' delta Hin'. destruct (decide ((TreeId u, ne) = (TreeId u', ne'))) as [[= Eid <-]|Hne].
  - rewrite <- Eid, lookup_insert_eq. intros [= <-]. injection (w_ids _ _ Hw _ _ _ _ _ _ Hin Hin' Eid) as <- <- <-. done.
  - rewrite lookup_insert_ne by done. by apply Hm'.
Qed.
End walked.

(** ** The sites of a statement are walkable *)

(** The bodies a level leads to, with their environments. *)
Definition child (t : Tree) (env : cteEnv) (u : Tree) (r : bool) (e : cteEnv) : Prop :=
  (exists d, d ∈ DerivedRels t /\ u = SRTree d /\ r = false /\ e = bind_ctes env (CTEs t)) \/
  (exists pre def post, CTEs t = pre ++ def :: post /\ CTETree def = Some u /\ r = CTERecursive def /\ e = bind_ctes env pre).

Lemma elem_of_cte_sites env cs s : s ∈ cte_sites sites env cs <->
  exists pre def post u, cs = pre ++ def :: post /\ CTETree def = Some u /\ let e := bind_ctes env pre in s ∈ (u, CTERecursive def, e) :: sites u e.
Proof.
  revert env. induction cs as [|c cs IH]; intros env; cbn [cte_sites].
  - split; [intros ?%elem_of_nil; done|]. intros (pre & def & post & u & E & _). by destruct pre.
  - rewrite elem_of_app, IH. split.
    + intros [H|(pre & def & post & u & -> & Hu & H)].
      * destruct c as [n r [u|] p]; [|by apply elem_of_nil in H]. exists [], (mkCTEDef n r (Some u) p), cs, u. done.
      * exists (c :: pre), def, post, u. done.
    + intros ([|c' pre] & def & post & u & E & Hu & H); injection E as -> ->.
      * left. destruct def as [n r [u'|] p]; cbn in Hu; [|done]. injection Hu as ->. done.
      * right. exists pre, def, post, u. done.
Qed.

Lemma elem_of_sites t env s : s ∈ sites t env <-> exists u r e, child t env u r e /\ s ∈ (u, r, e) :: sites u e.
Proof.
  rewrite sites_unfold, elem_of_app, elem_of_cte_sites. split.
  - intros [(pre & def & post & u & Hc & Hu & H)|H].
    + exists u, (CTERecursive def), (bind_ctes env pre). split; [right; exists pre, def, post; split_and!; done|done].
    + apply list_elem_of_In, in_concat in H as (l & Hl & Hs). apply in_map_iff in Hl as (d & <- & Hd).
      apply list_elem_of_In in Hd, Hs. exists (SRTree d), false, (bind_ctes env (CTEs t)). split; [left; exists d; done|done].
  - intros (u & r & e & [(d & Hd & -> & -> & ->)|(pre & def & post & Hc & Hu & -> & ->)] & H); [right|left; exists pre, def, post, u; done].
    apply list_elem_of_In, in_concat. eexists. split; [apply in_map; by apply list_elem_of_In|by apply list_elem_of_In].
Qed.

Lemma child_size t env u r e : child t env u r e -> tree_size u < tree_size t.
Proof.
  rewrite (tree_size_unfold t). unfold sub_sizes. intros [(d & Hd & -> & _)|(pre & def & post & -> & Hu & _)].
  - apply list_elem_of_In in Hd. pose proof (in_list_sum _ _ (in_map (fun d => tree_size (SRTree d)) _ _ Hd)). cbn beta in *. lia.
  - rewrite map_app, list_sum_app. cbn [map]. change (list_sum (?a :: ?l)) with (a + list_sum l). unfold cte_size at 2. rewrite Hu. lia.
Qed.

Lemma child_fits t env u r e n : env_rank env n -> child t env u r e -> exists m, env_rank e m /\ m + tree_size u < n + tree_size t.
Proof.
  rewrite (tree_size_unfold t). unfold sub_sizes. intros Hn [(d & Hd & -> & _ & ->)|(pre & def & post & -> & Hu & _ & ->)].
  - exists (n + list_sum (map cte_size (CTEs t))). split; [by apply env_rank_bind|]. apply list_elem_of_In in Hd.
    pose proof (in_list_sum _ _ (in_map (fun d => tree_size (SRTree d)) _ _ Hd)). cbn beta in *. lia.
  - exists (n + list_sum (map cte_size pre)). split; [by apply env_rank_bind|]. rewrite map_app, list_sum_app. cbn [map].
    change (list_sum (?a :: ?l)) with (a + list_sum l). unfold cte_size at 3. rewrite Hu. lia.
Qed.

Lemma child_bindings S t env u r e : bindings_in S env -> sites t env ⊆ S -> child t env u r e -> bindings_in S e.
Proof.
  intros Hb Hs [(d & _ & _ & _ & ->)|(pre & def & post & Hc & _ & _ & ->)]; [by apply bindings_bind|].
  intros name def' benv u' Hin Hu'. destruct (cte_sites_in _ _ _ _ _ _ Hin Hu') as [?|H]; [by eapply Hb|].
  apply Hs. rewrite sites_unfold, Hc. apply elem_of_app. left. apply elem_of_cte_sites in H as (pre1 & d1 & post1 & u1 & -> & Hu1 & H).
  apply elem_of_cte_sites. exists pre1, d1, (post1 ++ def :: post), u1. by rewrite <- app_assoc.
Qed.

Lemma sites_walk n t env u r e : tree_size t <= n -> (u, r, e) ∈ sites t env ->
  sites u e ⊆ sites t env /\ (forall S, bindings_in S env -> sites t env ⊆ S -> bindings_in S e) /\
  (forall m, env_rank env m -> exists k, env_rank e k /\ k + tree_size u < m + tree_size t).
Proof.
  revert t env u r e. induction n as [|n IH]; intros t env u r e Hn Hin; [rewrite tree_size_unfold in Hn; lia|].
  apply elem_of_sites in Hin as (u1 & r1 & e1 & Hc & Hin). pose proof (child_size _ _ _ _ _ Hc) as Hsz.
  assert (sites u1 e1 ⊆ sites t env) as Hsub by (intros s Hs; apply elem_of_sites; exists u1, r1, e1; split; [done|by right]).
  apply elem_of_cons in Hin as [[= -> -> ->]|Hin].
  - split_and!; [done|intros S Hb Hs; by eapply child_bindings|]. intros m Hm. by apply (child_fits t env u1 r1 e1).
  - destruct (IH u1 e1 u r e ltac:(lia) Hin) as (H1 & H2 & H3). split_and!; [by etrans| |].
    + intros S Hb Hs. apply H2; [by eapply child_bindings|by etrans].
    + intros m Hm. destruct (child_fits _ _ _ _ _ _ Hm Hc) as (k1 & Hk1 & Hlt). destruct (H3 _ Hk1) as (k & Hk & Hlt'). exists k. split; [done|lia].
Qed.

(** Every body of the statement has an identity of its own. *)
Definition distinct_bodies (t : Tree) : Prop := NoDup ((fun s : site => TreeId s.1.1) <$> sites t []).

Lemma walkable_sites t : distinct_bodies t -> walkable (sites t []) (tree_size t).
Proof.
  intros Hd. split.
  - intros u r e u' r' e' H H' Hid. apply list_elem_of_lookup in H as [i Hi], H' as [j Hj].
    assert (i = j) as ->; [|congruence]. eapply (NoDup_lookup _ i j (TreeId u) Hd); rewrite list_lookup_fmap; [by rewrite Hi|by rewrite Hj, Hid].
  - intros u r e H. destruct (sites_walk _ _ _ _ _ _ (le_n _) H) as (_ & _ & H3). destruct (H3 0 (rank_nil 0)) as (k & Hk & Hlt).
    exists k. split; [done|lia].
  - intros u r e H. destruct (sites_walk _ _ _ _ _ _ (le_n _) H) as (H1 & H2 & _). split; [done|]. apply H2; [|done]. intros ? ? ? ? ?%elem_of_nil. done.
Qed.

(** The exposures of a whole statement. *)
Definition statement_exposures (t : Tree) : list exposure := level_exposures maxR cat (body_exposures (tree_size t)) t [] false.

Definition top_instances (t : Tree) : list instance := concat (relation_instance (bind_ctes [] (CTEs t)) <$> Relations t).

Lemma walk_statement t : distinct_bodies t ->
  exists st, collectPresence maxR cat (descend (tree_size t)) t [] false true no_state = Some st /\
    represents (ns_present st) (statement_exposures t) /\ ns_rels st = top_instances t.
Proof.
  intros Hd. pose proof (walkable_sites t Hd) as Hw.
  assert (fits (S (tree_size t)) t []) as Hfit by (exists 0; split; [constructor|lia]).
  destruct (collect_ok (sites t []) (tree_size t) (tree_size t) (descend (tree_size t)) t [] false true no_state) with (before := @nil exposure)
    as (st & E & Hr & _ & Er).
  - by apply descend_ok.
  - done.
  - intros ? ? ? ? ?%elem_of_nil. done.
  - done.
  - apply represents_nil.
  - intros u r e ne delta _ H. exact (False_ind _ (lookup_empty_Some (M := gmap (N * bool)) _ _ H)).
  - exists st. done.
Qed.
End walk.

(** ** NullabilityDemo

    A statement over two tables: a common table expression referenced twice, once
    on the null-extended side, and an optional join. *)

Definition shop_catalog : Catalog := mkCatalog 1 [] [
  mkTable (bs "public") (bs "users") 11 false false
    [mkColumn (bs "id") 1 20 (bs "int8") true false; mkColumn (bs "name") 2 25 (bs "text") false false];
  mkTable (bs "public") (bs "orders") 12 false false
    [mkColumn (bs "id") 1 20 (bs "int8") true false; mkColumn (bs "total") 2 20 (bs "int8") true false];
  mkTable (bs "public") (bs "audits") 13 false false [mkColumn (bs "at") 1 20 (bs "int8") true false] ].

Definition rel_at (alias table : string) (loc : Z) (nullable : bool) : RelRef :=
  mkRelRef (bs alias) (bs table) [] false loc (if nullable then JoinLeft else JoinBase) nullable.
Definition item (func : string) (agg : list bytes) : TargetItem := mkTargetItem [] false [] (bs func) false agg false 0.

(** [SELECT id, total FROM orders] *)
Definition recent_body : Tree := mkTree 7 1 StmtSelect [rel_at "" "orders" 20 false] [mkTableRef (bs "orders") [] 20] [] [item "" []; item "" []]
  [] [] [] false false false false None [] [] false false false [] false None [] [].

(** [WITH recent AS (...) SELECT u.id, u.name, o.id, count( * ) FROM users u
    LEFT JOIN recent o ... @if-present(...) { JOIN audits a ... }
    WHERE u.name IS NOT NULL] *)
Definition shop_tree : Tree := mkTree 1 1 StmtSelect
  [rel_at "u" "users" 40 false; rel_at "o" "recent" 50 true; rel_at "p" "recent" 55 false; rel_at "a" "audits" 65 false]
  [mkTableRef (bs "orders") [] 20; mkTableRef (bs "users") [] 40; mkTableRef (bs "audits") [] 65]
  [] [item "" []; item "" []; item "" []; item "count" []] [] [] [] false false false false None []
  [mkCTEDef (bs "recent") false (Some recent_body) []] false false false
  [mkColRef [bs "u"; bs "name"] false 90 false []] false None [] [].

Definition shop_fragment : FragRange :=
  mkFragRange (IIfPresent (mkIfPresent [Template.presence (bs "audited")] SepNone [] SlotJoinItem (mkSpan [] 0 0) (mkSpan [] 0 0))) 60 80.
Definition shop_rendering : Rendering := mkRendering RenderMaximal 0 0 0 0 0 [] (bs "SELECT ...") [] [shop_fragment] [].

Definition column (name : string) (rel : N) (att : Z) : ColumnDesc := mkColumnDesc (bs name) (mkTypeRef 20 (bs "int8") None) rel att.
Definition shop_desc : Desc := mkDesc [] [column "id" 11 1; column "name" 11 2; column "order_id" 12 1; column "n" 0 0].

Example shop_verdicts :
  match AnalyzeVerdicts shop_tree shop_rendering shop_desc (Some shop_catalog) ∅ with Some vs => Some (VNullable <$> vs) | None => None end = Some [false; false; true; false].
Proof. vm_compute. reflexivity. Qed.
