(* ===== verification/NullabilityTheorems.v ===== *)
(** * NullabilityTheorems

    The properties of the nullability analysis, against the exposures of the
    tables. *)

From S2P Require Import Prelude Template Render Frontend Catalog Nullability NullabilityProps.

(** ** Presences and exposures *)

Lemma presence_of_none es oid : presence_of es oid = None <-> exposures_of oid es = [].
Proof. unfold presence_of. by destruct (exposures_of oid es). Qed.

Lemma existsb_none {A} (f : A -> bool) l : existsb f l = false <-> forall x, x ∈ l -> f x = false.
Proof.
  induction l as [|x l IH]; cbn; [split; [intros _ ? ?%elem_of_nil; done|done]|]. rewrite orb_false_iff, IH. set_solver.
Qed.

(** No exposure takes anything from the constraints of the table. *)
Definition clean (es : list exposure) : Prop := forall e, e ∈ es -> e_ext e = false /\ e_inh e = false /\ e_poison e = false.

Lemma presence_clean es oid p : presence_of es oid = Some p ->
  pr_poisoned p = false /\ pr_inherited p = false /\ pr_nullExtended p = false <-> clean (exposures_of oid es).
Proof.
  unfold presence_of, clean. destruct (exposures_of oid es) as [|x l] eqn:E; [done|]. intros H. apply (inj Some) in H as <-. cbn [pr_poisoned pr_inherited pr_nullExtended].
  rewrite !existsb_none. naive_solver.
Qed.

(** Exactly one exposure, and that an instance. *)
Lemma presence_single es oid p : presence_of es oid = Some p ->
  pr_count p = 1 /\ pr_poisoned p = false <-> exists ext inh, exposures_of oid es = [Instance oid ext inh].
Proof.
  unfold presence_of. destruct (exposures_of oid es) as [|x l] eqn:E; [done|]. intros H. apply (inj Some) in H as <-. cbn [pr_poisoned pr_count].
  assert (forall e, e ∈ x :: l -> about e = oid) as Hab by (intros e He; rewrite <- E in He; by apply list_elem_of_filter in He as [? ?]).
  split.
  - intros [Hc Hp]. rewrite existsb_none in Hp. destruct x as [o b1 b2|o]; [|specialize (Hp (Poison o) ltac:(by left)); done].
    destruct l as [|y l]; [exists b1, b2; f_equal; f_equal; exact (Hab (Instance o b1 b2) ltac:(by left))|].
    destruct y as [o' c1 c2|o']; [cbn in Hc; lia|]. specialize (Hp (Poison o') ltac:(right; by left)). done.
  - intros (ext & inh & [= -> ->]). done.
Qed.

Section verdicts.
Context (maxR : Rendering).

Definition trusted (t : Tree) (cat : option Catalog) : Prop :=
  HasSetOperation t = false /\ HasGroupingSets t = false /\ HasUnresolvableProvenance t = false /\ touchesView t cat = false.

Lemma trusted_spec t cat : untrusted_reason t cat = [] <-> trusted t cat.
Proof.
  unfold untrusted_reason, trusted. destruct (HasSetOperation t), (HasGroupingSets t), (HasUnresolvableProvenance t), (touchesView t cat); cbn; naive_solver.
Qed.

(** ** What a verdict means *)

(** A skeleton conjunct [col IS NOT NULL] names the column through the only
    exposure of its table. *)
Definition filtered_by (cat : Catalog) (t : Tree) (oid : N) (att : Z) : Prop :=
  TKind t <> StmtUpdate /\ exists cr inst c, cr ∈ NotNullConjuncts t /\ inSkeleton maxR (CRLoc cr) = true /\
    resolve (top_instances maxR cat t) (CRFields cr) = Some (inst, c) /\ TabOID (in_table inst) = oid /\ ColAtt c = att /\
    exists ext inh, exposures_of oid (statement_exposures maxR cat t) = [Instance oid ext inh].

Definition source_not_null (cat : Catalog) (t : Tree) (oid : N) (att : Z) : Prop :=
  trusted t (Some cat) /\ exposures_of oid (statement_exposures maxR cat t) <> [] /\
  exists tab c, LookupOID cat oid = Some tab /\ ColByAtt tab att = Some c /\
    (filtered_by cat t oid att \/ (clean (exposures_of oid (statement_exposures maxR cat t)) /\ ColNotNull c = true)).

(** An aggregate of a column that is not NULL in any row of a group. *)
Definition strict_aggregate (insts : list instance) (ti : TargetItem) : Prop :=
  TIFuncName ti ∈ strictAggs /\ TIAggArg ti <> [] /\ exists inst c, resolve insts (TIAggArg ti) = Some (inst, c) /\
    RNullableSide (in_rel inst) = false /\ ColNotNull c = true /\ (TabHasChildren (in_table inst) = true -> ROnly (in_rel inst) = true).

Definition expression_not_null (cat : option Catalog) (t : Tree) (columns : list ColumnDesc) (i : nat) : Prop :=
  aligned (TargetItems t) columns = true /\ exists ti, TargetItems t !! i = Some ti /\
    (TIFuncName ti ∈ funcWhitelist \/ TITotal ti = true \/
     (trusted t cat /\ HasGroupBy t = true /\ strict_aggregate (match cat with Some cat => top_instances maxR cat t | None => [] end) ti)).

(** A column the engine attributes to a table, and whose target item is not a
    scalar subquery. *)
Definition attributed (t : Tree) (columns : list ColumnDesc) (i : nat) (col : ColumnDesc) : Prop :=
  CdSrcRel col <> 0%N /\
  if aligned (TargetItems t) columns then forall ti, TargetItems t !! i = Some ti -> TISublink ti = false
  else forall ti, ti ∈ TargetItems t -> TISublink ti = false.

Definition not_null (cat : option Catalog) (t : Tree) (columns : list ColumnDesc) (overrides : gmap bytes Verdict) (i : nat) (col : ColumnDesc) : Prop :=
  match overrides !! CdName col with
  | Some v => VNullable v = false
  | None =>
      (exists cat', cat = Some cat' /\ attributed t columns i col /\ source_not_null cat' t (CdSrcRel col) (CdSrcAtt col)) \/
      (~ (is_Some cat /\ attributed t columns i col) /\ expression_not_null cat t columns i)
  end.

(** The state the verdicts are given in. *)
Definition state_for (cat : option Catalog) (t : Tree) (st : nstate) : Prop :=
  trusted t cat -> match cat with
  | Some cat => represents (ns_present st) (statement_exposures maxR cat t) /\ ns_rels st = top_instances maxR cat t
  | None => ns_rels st = []
  end.

Lemma analyze_state_ok t cat : distinct_bodies t ->
  exists st, analyze_state t maxR cat (bool_decide (untrusted_reason t cat = [])) = Some st /\ state_for cat t st.
Proof.
  intros Hd. unfold analyze_state, state_for. destruct cat as [cat|]; [|by exists no_state].
  case_bool_decide as Ht; [|exists no_state; split; [done|]; intros Hc%trusted_spec; done].
  destruct (walk_statement maxR cat t Hd) as (st & E & ? & ?). by exists st.
Qed.

Lemma elem_of_filtered st (ncs : list ColRef) x acc :
  x ∈ foldl (filter_conjunct maxR st) acc ncs <-> x ∈ acc \/ exists cr inst c p, cr ∈ ncs /\ inSkeleton maxR (CRLoc cr) = true /\
    resolve (ns_rels st) (CRFields cr) = Some (inst, c) /\ x = (TabOID (in_table inst), ColAtt c) /\
    ns_present st !! TabOID (in_table inst) = Some p /\ pr_count p = 1 /\ pr_poisoned p = false.
Proof.
  revert acc. induction ncs as [|cr ncs IH]; intros acc; cbn [foldl]; [set_solver|]. rewrite IH.
  assert (x ∈ filter_conjunct maxR st acc cr <-> x ∈ acc \/ exists inst c p, inSkeleton maxR (CRLoc cr) = true /\
    resolve (ns_rels st) (CRFields cr) = Some (inst, c) /\ x = (TabOID (in_table inst), ColAtt c) /\
    ns_present st !! TabOID (in_table inst) = Some p /\ pr_count p = 1 /\ pr_poisoned p = false) as ->; [|set_solver].
  unfold filter_conjunct. destruct (inSkeleton maxR (CRLoc cr)); cbn [negb]; [|naive_solver].
  destruct (resolve _ _) as [[inst c]|]; [|naive_solver]. destruct (ns_present st !! _) as [p|] eqn:Ep; [|naive_solver].
  destruct (Nat.eqb_spec (pr_count p) 1), (pr_poisoned p) eqn:Epp; cbn [andb negb].
  2:{ rewrite elem_of_union, elem_of_singleton. split; [intros [->|?]; [right; by exists inst, c, p|by left]|].
      intros [?|(? & ? & ? & _ & [= <- <-] & -> & _)]; [by right|by left]. }
  all: split; [by left|]; intros [?|(? & ? & p' & _ & [= <- <-] & _ & Hp & ? & ?)]; [done|]; rewrite Ep in Hp; congruence.
Qed.

Lemma filtered_columns_ok cat t st oid att : trusted t (Some cat) -> state_for (Some cat) t st ->
  (oid, att) ∈ filtered_columns t maxR (Some cat) true st <-> filtered_by cat t oid att.
Proof.
  intros Ht Hst. destruct (Hst Ht) as [Hr Hi]. unfold filtered_columns, filtered_by. cbn [andb]. case_bool_decide as Hk; cbn [negb]; [set_solver|].
  rewrite elem_of_filtered. split.
  - intros [?%elem_of_empty|(cr & inst & c & p & Hcr & Hs & Hres & [= -> ->] & Hp & Hc)]; [done|]. split; [done|].
    exists cr, inst, c. rewrite <- Hi. split_and!; [done..|]. rewrite Hr in Hp. by apply (presence_single _ _ _ Hp).
  - intros (_ & cr & inst & c & Hcr & Hs & Hres & <- & <- & Hex). right. rewrite <- Hi in Hres.
    destruct (presence_of (statement_exposures maxR cat t) (TabOID (in_table inst))) as [p|] eqn:Ep.
    + destruct (proj2 (presence_single _ _ _ Ep) Hex) as [? ?]. exists cr, inst, c, p. rewrite Hr. done.
    + apply presence_of_none in Ep. rewrite Ep in Hex. naive_solver.
Qed.

Lemma srcVerdict_ok cat t st col : state_for (Some cat) t st ->
  VNullable (srcVerdict col cat (untrusted_reason t (Some cat)) (ns_present st)
    (filtered_columns t maxR (Some cat) (bool_decide (untrusted_reason t (Some cat) = [])) st)) = false <->
  source_not_null cat t (CdSrcRel col) (CdSrcAtt col).
Proof.
  intros Hst. unfold srcVerdict, source_not_null. case_bool_decide as Hu; cbn [negb].
  2:{ cbn. split; [done|]. by intros [?%trusted_spec _]. }
  pose proof (proj1 (trusted_spec _ _) Hu) as Ht. destruct (Hst Ht) as [Hr _]. rewrite Hr.
  destruct (presence_of _ (CdSrcRel col)) as [p|] eqn:Ep.
  2:{ apply presence_of_none in Ep. cbn. naive_solver. }
  assert (exposures_of (CdSrcRel col) (statement_exposures maxR cat t) <> []) as Hne by (rewrite <- presence_of_none; by rewrite Ep).
  destruct (LookupOID cat _) as [tab|]; [|cbn; split; [done|]; by intros (_ & _ & ? & ? & ? & _)].
  destruct (ColByAtt tab _) as [c|] eqn:Ec; [|cbn; split; [done|]; intros (_ & _ & ? & ? & [= <-] & ? & _); congruence].
  pose proof (presence_clean _ _ _ Ep) as Hclean. cbv zeta.
  assert (forall P, trusted t (Some cat) /\ exposures_of (CdSrcRel col) (statement_exposures maxR cat t) <> [] /\
    (exists tab' c', Some tab = Some tab' /\ ColByAtt tab' (CdSrcAtt col) = Some c' /\ (P \/ (clean (exposures_of (CdSrcRel col) (statement_exposures maxR cat t)) /\ ColNotNull c' = true))) <->
    P \/ (clean (exposures_of (CdSrcRel col) (statement_exposures maxR cat t)) /\ ColNotNull c = true)) as ->.
  { intros P. split; [|intros H; split_and!; [done|done|by exists tab, c]]. intros (_ & _ & ? & ? & [= <-] & E & H). rewrite Ec in E. by injection E as <-. }
  rewrite <- Hclean, <- filtered_columns_ok by done.
  case_bool_decide; cbn; [tauto|]. destruct (pr_poisoned p), (pr_inherited p), (pr_nullExtended p), (ColNotNull c); cbn; intuition congruence.
Qed.

Lemma target_verdict_ok grouped rels ti :
  (exists v, target_verdict grouped rels ti = Some v /\ VNullable v = false) <->
  TIFuncName ti ∈ funcWhitelist \/ TITotal ti = true \/ (grouped = true /\ strict_aggregate rels ti).
Proof.
  unfold target_verdict, strict_aggregate. case_bool_decide as Hw; [cbn; naive_solver|]. destruct (TITotal ti); [cbn; naive_solver|].
  destruct grouped; cbn [andb]; [|split; [by intros (? & ? & _)|]; by intros [?|[?|[? _]]]].
  case_bool_decide as Hs; cbn [andb]; [|split; [by intros (? & ? & _)|]; by intros [?|[?|[_ [? _]]]]].
  case_bool_decide as Ha; cbn [negb andb]; [split; [by intros (? & ? & _)|]; by intros [?|[?|[_ (_ & ? & _)]]]|].
  destruct (resolve _ _) as [[inst c]|]; [|split; [by intros (? & ? & _)|]; by intros [?|[?|(_ & _ & _ & ? & ? & ? & _)]]].
  destruct (RNullableSide (in_rel inst)) eqn:E1, (ColNotNull c) eqn:E2, (TabHasChildren (in_table inst)) eqn:E3, (ROnly (in_rel inst)) eqn:E4; cbn.
  all: split; [intros (v & Hv & _); try discriminate Hv; right; right; split_and!; try done; exists inst, c; split_and!; try done; congruence|].
  all: intros [Hc|[Hc|(_ & _ & _ & ? & ? & [= <- <-] & Hs1 & Hs2 & Himp)]]; [by destruct Hw|done|].
  all: try congruence; try (specialize (Himp E3); congruence); eexists; split; reflexivity.
Qed.

Lemma target_verdict_false grouped rels ti v : target_verdict grouped rels ti = Some v -> VNullable v = false.
Proof.
  unfold target_verdict. repeat case_match; by intros [= <-] || done.
Qed.

Lemma expression_ok cat t columns st i : state_for cat t st ->
  VNullable (default (mkVerdict true (bs "expression column without a totality proof"))
    (if aligned (TargetItems t) columns then ti ← TargetItems t !! i; target_verdict (bool_decide (untrusted_reason t cat = []) && HasGroupBy t) (ns_rels st) ti else None)) = false <->
  expression_not_null cat t columns i.
Proof.
  intros Hst. unfold expression_not_null. destruct (aligned _ _); [|by split; [|intros [? _]]].
  destruct (TargetItems t !! i) as [ti|]; cbn [mbind option_bind]; [|by split; [|intros (_ & ? & ? & _)]].
  set (cases := TIFuncName ti ∈ funcWhitelist \/ TITotal ti = true \/
    (trusted t cat /\ HasGroupBy t = true /\ strict_aggregate (match cat with Some cat => top_instances maxR cat t | None => [] end) ti)).
  assert (true = true /\ (exists ti', Some ti = Some ti' /\ (TIFuncName ti' ∈ funcWhitelist \/ TITotal ti' = true \/
    (trusted t cat /\ HasGroupBy t = true /\ strict_aggregate (match cat with Some cat => top_instances maxR cat t | None => [] end) ti'))) <-> cases) as ->
    by (split; [by intros (_ & ? & [= <-] & ?)|intros ?; split; [done|by exists ti]]).
  assert ((exists v, target_verdict (bool_decide (untrusted_reason t cat = []) && HasGroupBy t) (ns_rels st) ti = Some v /\ VNullable v = false) <-> cases) as <-.
  { rewrite target_verdict_ok. unfold cases. rewrite andb_true_iff, bool_decide_eq_true, trusted_spec.
    assert (trusted t cat -> ns_rels st = match cat with Some cat => top_instances maxR cat t | None => [] end) as Hrels.
    { intros Ht. specialize (Hst Ht). by destruct cat; [destruct Hst|]. }
    split; (intros [?|[?|Hx]]; [by left|by right; left|right; right]).
    - destruct Hx as [[Ht Hg] Ha]. by rewrite <- Hrels.
    - destruct Hx as (Ht & Hg & Ha). by rewrite Hrels. }
  destruct (target_verdict _ _ _) as [v|] eqn:Ev; cbn; [|by split; [|intros (? & ? & _)]].
  pose proof (target_verdict_false _ _ _ _ Ev) as Hv. split; [by exists v|done].
Qed.

Lemma attributed_dec t columns i col :
  negb (N.eqb (CdSrcRel col) 0) && negb (if aligned (TargetItems t) columns then match TargetItems t !! i with Some ti => TISublink ti | None => false end
    else existsb TISublink (TargetItems t)) = true <-> attributed t columns i col.
Proof.
  unfold attributed. rewrite andb_true_iff, !negb_true_iff, N.eqb_neq. f_equiv. destruct (aligned _ _).
  - destruct (TargetItems t !! i) as [ti|]; [|done]. split; [by intros H ti' [= <-]|intros H; by apply H].
  - apply existsb_none.
Qed.

Lemma column_verdict_ok cat t desc overrides st i col : state_for cat t st ->
  VNullable (column_verdict t maxR desc cat overrides st i col) = false <-> not_null cat t (DColumns desc) overrides i col.
Proof.
  intros Hst. unfold column_verdict, not_null. cbv zeta. destruct (overrides !! CdName col); [done|].
  pose proof (attributed_dec t (DColumns desc) i col) as Hatt. pose proof (expression_ok cat t (DColumns desc) st i Hst) as Hexp.
  destruct cat as [cat'|].
  - destruct (negb (N.eqb (CdSrcRel col) 0) && _) eqn:E.
    + pose proof (proj1 Hatt eq_refl) as Ha. rewrite (srcVerdict_ok cat' t st col Hst). split.
      * intros H. left. by exists cat'.
      * intros [(c & [= <-] & _ & H)|[H _]]; [done|]. destruct H. by split.
    + rewrite Hexp. split; [intros H; right; split; [intros [_ Ha%Hatt]; done|done]|].
      intros [(c & _ & Ha%Hatt & _)|[_ H]]; done.
  - rewrite Hexp. split; [intros H; right; split; [by intros [[? ?] _]|done]|]. by intros [(? & ? & _)|[_ ?]].
Qed.
End verdicts.

(** C22: the memo of the presence analysis changes its cost only: of a statement
    whose bodies are told apart by identity the analysis ends and finds, of
    every table, exactly the union of its exposures as listed by going through
    a body again at each of its references, however many rounds the listing is
    given beyond the size of the statement. *)
Theorem presence_memo_exact maxR cat t : distinct_bodies t ->
  (exists st, collectPresence maxR cat (descend maxR cat (tree_size t)) t [] false true no_state = Some st /\
     (forall oid, ns_present st !! oid = presence_of (statement_exposures maxR cat t) oid) /\ ns_rels st = top_instances maxR cat t) /\
  (forall fuel, tree_size t <= fuel -> level_exposures maxR cat (body_exposures maxR cat fuel) t [] false = statement_exposures maxR cat t).
Proof.
  intros Hd. split; [by apply walk_statement|]. intros fuel Hf. apply (level_exposures_ext maxR cat _ _ (tree_size t)).
  - exists 0. split; [constructor|lia].
  - intros u r e ne Hfit. apply body_exposures_fuel; [by eapply fits_le|done].
Qed.

(** C21: verdicts are exact: a column is called non-null exactly when an
    override says so; or, if the engine attributes it to a table and no scalar
    subquery can be behind it, when the statement is trusted, the table is in
    the catalog and exposed, and either an unconditional [IS NOT NULL] names the
    column through the table's only exposure (in no UPDATE), or no exposure of
    the table anywhere null-extends, inherits or poisons it and the column is
    declared NOT NULL; or, for an expression, when it is total. *)
Theorem verdicts_exact maxR cat t desc overrides : distinct_bodies t ->
  exists vs, AnalyzeVerdicts t maxR desc cat overrides = Some vs /\ length vs = length (DColumns desc) /\
    forall i col v, DColumns desc !! i = Some col -> vs !! i = Some v ->
      VNullable v = false <-> not_null maxR cat t (DColumns desc) overrides i col.
Proof.
  intros Hd. unfold AnalyzeVerdicts. destruct (analyze_state_ok maxR t cat Hd) as (st & -> & Hst). cbn [mbind option_bind].
  eexists. split; [done|]. split; [apply length_imap|]. intros i col v Hcol. rewrite list_lookup_imap, Hcol. cbn.
  intros [= <-]. by apply column_verdict_ok.
Qed.

Lemma shop_distinct : distinct_bodies shop_tree.
Proof. unfold distinct_bodies. vm_compute. constructor; [by apply not_elem_of_nil|constructor]. Qed.

Lemma presence_memo_exact_witness : distinct_bodies shop_tree /\
  exists st, collectPresence shop_rendering shop_catalog (descend shop_rendering shop_catalog (tree_size shop_tree)) shop_tree [] false true no_state = Some st /\
    ns_present st !! 12%N = presence_of [Instance 12 true false; Instance 12 false false] 12.
Proof.
  split; [exact shop_distinct|]. destruct (presence_memo_exact shop_rendering shop_catalog shop_tree shop_distinct) as [(st & E & H & _) _].
  exists st. split; [exact E|]. rewrite H. vm_compute. reflexivity.
Defined.

Lemma verdicts_exact_witness : distinct_bodies shop_tree /\
  exists vs, AnalyzeVerdicts shop_tree shop_rendering shop_desc (Some shop_catalog) ∅ = Some vs /\ VNullable <$> vs = [false; false; true; false] /\
    not_null shop_rendering (Some shop_catalog) shop_tree (DColumns shop_desc) ∅ 1 (column "name" 11 2).
Proof.
  split; [exact shop_distinct|]. destruct (verdicts_exact shop_rendering (Some shop_catalog) shop_tree shop_desc ∅ shop_distinct) as (vs & E & _ & H).
  exists vs. split; [exact E|]. vm_compute in E. injection E as <-. split; [reflexivity|]. by apply (H 1 _ _ eq_refl eq_refl).
Defined.

(** ** All renderings *)

Lemma adopt_lookup o n c : adopt o n !! c =
  match o !! c with
  | Some v => Some (match n !! c with Some v' => if negb (VNullable v) && VNullable v' then v' else v | None => v end)
  | None => None
  end.
Proof.
  revert n c. induction o as [|v o IH]; intros n c; [by destruct n|]. destruct n as [|v' n]; cbn [adopt].
  - destruct ((v :: o) !! c); [by rewrite lookup_nil|done].
  - destruct c as [|c]; [done|]. apply (IH n c).
Qed.

Lemma adopt_length o n : length (adopt o n) = length o.
Proof. revert n. induction o as [|v o IH]; intros [|v' n]; cbn; [done..|]. by rewrite IH. Qed.

Section renderings.
Context (fe : Frontend) (cat : option Catalog) (overrides : gmap bytes Verdict).

(** The verdicts of one rendering. *)
Definition rendering_verdicts (p : Rendering * Desc) : list Verdict :=
  match Parse fe (RSQL p.1) with Ok t => default [] (AnalyzeVerdicts t p.1 p.2 cat overrides) | Err _ => [] end.

Definition parses (p : Rendering * Desc) : Prop := exists t, Parse fe (RSQL p.1) = Ok t.

(** A list of verdicts, the nullable-most of some lists, the first of them first. *)
Definition nullable_most (base : list Verdict) (ls : list (list Verdict)) (out : list Verdict) : Prop :=
  length out = length base /\ forall c v, out !! c = Some v ->
    (VNullable v = true <-> exists n v', n ∈ base :: ls /\ n !! c = Some v' /\ VNullable v' = true) /\
    (VNullable v = false -> base !! c = Some v).

Lemma nullable_most_adopt base ls out n : nullable_most base ls out -> nullable_most base (ls ++ [n]) (adopt out n).
Proof.
  intros [Hl H]. split; [by rewrite adopt_length|]. intros c v. rewrite adopt_lookup. destruct (out !! c) as [v0|] eqn:E0; [|done].
  destruct (H c v0 E0) as [H1 H2]. intros Hv. apply (inj Some) in Hv.
  assert (VNullable v = VNullable v0 || match n !! c with Some v' => VNullable v' | None => false end) as Ev.
  { subst v. destruct (n !! c) as [v'|]; [|by rewrite orb_false_r]. destruct (VNullable v0) eqn:E1, (VNullable v') eqn:E2; cbn; by rewrite ?E1, ?E2. }
  split.
  - rewrite Ev, orb_true_iff, H1. split.
    + intros [(l & v' & Hin & ?)|Hn]; [exists l, v'; split; [rewrite app_comm_cons; apply elem_of_app; by left|done]|].
      destruct (n !! c) as [v'|] eqn:E; [|done]. exists n, v'. split; [rewrite app_comm_cons; apply elem_of_app; right; by left|done].
    + intros (l & v' & Hin & Hc & Ht). rewrite app_comm_cons in Hin. apply elem_of_app in Hin as [Hin| ->%list_elem_of_singleton]; [left; by exists l, v'|right].
      by rewrite Hc.
  - rewrite Ev, orb_false_iff. intros [Hv0 Hn]. assert (v = v0) as ->; [|by apply H2].
    subst v. destruct (n !! c) as [v'|]; [|done]. by rewrite Hv0, Hn.
Qed.

Lemma analyze_all_ok pairs base ls out : Forall parses pairs -> nullable_most base ls out ->
  exists out', analyze_all fe cat overrides pairs (Some out) = Ok (Some out') /\ nullable_most base (ls ++ (rendering_verdicts <$> pairs)) out'.
Proof.
  intros Hp. revert ls out. induction Hp as [|[r d] pairs [t Ht] Hp IH]; intros ls out Hout; [exists out; by rewrite app_nil_r|].
  cbn [analyze_all fmap list_fmap]. unfold rendering_verdicts at 1. cbn [fst] in Ht. cbn [fst snd]. rewrite Ht. cbn [rbind].
  set (n := default [] _). destruct (IH (ls ++ [n]) (adopt out n)) as (out' & -> & H); [by apply nullable_most_adopt|].
  exists out'. split; [done|]. by rewrite <- app_assoc in H.
Qed.

Lemma analyze_all_err pairs out e : analyze_all fe cat overrides pairs out = Err e <->
  exists pre r d post, pairs = pre ++ (r, d) :: post /\ Forall parses pre /\ Parse fe (RSQL r) = Err e.
Proof.
  revert out. induction pairs as [|[r d] pairs IH]; intros out; cbn [analyze_all]; [split; [done|]; by intros ([] & ? & ? & ? & ? & _)|].
  destruct (Parse fe (RSQL r)) as [t|e'] eqn:Et; cbn [rbind].
  - rewrite IH. split.
    + intros (pre & r' & d' & post & -> & Hp & He). exists ((r, d) :: pre), r', d', post. split_and!; [done|constructor; [by exists t|done]|done].
    + intros ([|p pre] & r' & d' & post & E & Hp & He); simplify_eq/=; [congruence|]. inversion_clear Hp. by exists pre, r', d', post.
  - split.
    + intros [= ->]. by exists [], r, d, pairs.
    + intros ([|p pre] & r' & d' & post & E & Hp & He); simplify_eq/=; [congruence|]. inversion_clear Hp as [|? ? [t Ht] _]. cbn in Ht. congruence.
Qed.

(** Over all verified renderings the verdicts are the nullable-most: the
    analysis fails exactly when a rendering does not parse, with the error of
    the first one; otherwise a column of the first rendering is nullable exactly
    when some rendering finds it nullable, and what stays non-null keeps the
    verdict and the reason of the first. *)
Theorem nullable_most_exact rs descs :
  (forall e, AnalyzeAllVerdicts fe rs descs cat overrides = Err e <->
     exists pre r d post, zip rs descs = pre ++ (r, d) :: post /\ Forall parses pre /\ Parse fe (RSQL r) = Err e) /\
  (forall out, AnalyzeAllVerdicts fe rs descs cat overrides = Ok out ->
     match rendering_verdicts <$> zip rs descs with
     | [] => out = []
     | base :: ls => nullable_most base ls out
     end).
Proof.
  unfold AnalyzeAllVerdicts. split.
  - intros e. rewrite <- (analyze_all_err (zip rs descs) None e). destruct (analyze_all _ _ _ _ _); cbn; naive_solver.
  - destruct (zip rs descs) as [|[r d] pairs] eqn:Ez; [intros out [= <-]; done|]. intros out Hout.
    assert (Forall parses ((r, d) :: pairs)) as Hp.
    { destruct (analyze_all fe cat overrides ((r, d) :: pairs) None) as [o|e] eqn:E; [|done]. apply list.Forall_forall. intros [r' d'] Hin.
      unfold parses. destruct (Parse fe (RSQL r')) as [t|e] eqn:Et; [by exists t|exfalso].
      assert (exists e', analyze_all fe cat overrides ((r, d) :: pairs) None = Err e') as [e' E']; [|congruence].
      clear E Hout. revert Hin. generalize (@None (list Verdict)). generalize ((r, d) :: pairs). intros l. induction l as [|[r0 d0] l IH]; intros o' Hin; [by apply elem_of_nil in Hin|].
      cbn [analyze_all]. destruct (Parse fe (RSQL r0)) as [t0|e0] eqn:E0; cbn [rbind]; [|by exists e0].
      apply elem_of_cons in Hin as [[= -> ->]|Hin]; [congruence|by apply IH]. }
    inversion_clear Hp as [|? ? [t Ht] Hp']. cbn [fst] in Ht. cbn [analyze_all] in Hout. rewrite Ht in Hout. cbn [rbind] in Hout.
    set (n := default [] _) in *. cbn [fmap list_fmap]. assert (rendering_verdicts (r, d) = n) as -> by (unfold rendering_verdicts; cbn; by rewrite Ht).
    destruct (analyze_all_ok pairs n [] n Hp') as (out' & E & H).
    { split; [done|]. intros c v Hc. split; [|done]. split.
      - intros Hv. exists n, v. split; [by left|done].
      - intros (l & v' & ->%list_elem_of_singleton & Hc' & Hv). congruence. }
    rewrite E in Hout. cbn in Hout. injection Hout as <-. done.
Qed.
End renderings.

(** ** NullabilityGuards

    Guarded fragments never narrow: what an optional fragment introduces makes
    no column non-null.  It can widen, through the tables it mentions. *)

Section erase.
Context (maxR : Rendering) (cut : list TableRef -> list TableRef).

(** A statement without what its optional fragments introduce, at all levels:
    the relations in them and the conjuncts outside the skeleton, and whatever
    [cut] takes out of the lists of all mentioned tables. *)
Fixpoint erase (t : Tree) : Tree :=
  match t with
  | mkTree id n k rels deep refs items wl hl ol don lock ties setop branches ds cs prov gs gb nn cu cd nd vt =>
      mkTree id n k (base.filter (fun rel => isGuarded maxR (RLoc rel) = false) rels) (cut deep) refs items wl hl ol don lock ties setop branches
        (map (fun d => match d with mkSubRel a s u => mkSubRel a s (erase u) end) ds)
        (map (fun c => match c with mkCTEDef a r (Some u) p => mkCTEDef a r (Some (erase u)) p | mkCTEDef a r None p => mkCTEDef a r None p end) cs)
        prov gs gb (base.filter (fun cr => inSkeleton maxR (CRLoc cr) = true) nn) cu cd nd vt
  end.

Definition erase_sub (d : SubRel) : SubRel := mkSubRel (SRAlias d) (SRNullableSide d) (erase (SRTree d)).
Definition erase_cte (c : CTEDef) : CTEDef := mkCTEDef (CTEName c) (CTERecursive c) (erase <$> CTETree c) (CTEPoisonTables c).

Lemma erase_derived t : DerivedRels (erase t) = map erase_sub (DerivedRels t).
Proof. destruct t. cbn. apply map_ext. by intros []. Qed.
Lemma erase_ctes t : CTEs (erase t) = map erase_cte (CTEs t).
Proof. destruct t. cbn. apply map_ext. by intros [? ? [] ?]. Qed.
Lemma erase_relations t : Relations (erase t) = base.filter (fun rel => isGuarded maxR (RLoc rel) = false) (Relations t).
Proof. by destruct t. Qed.

Fixpoint erase_binding (b : cteBinding) : cteBinding :=
  match b with Binding def benv => Binding (erase_cte def) (map (fun x => match x with (n, b) => (n, erase_binding b) end) benv) end.
Definition erase_env (env : cteEnv) : cteEnv := map (fun x => (x.1, erase_binding x.2)) env.

Lemma erase_binding_unfold def benv : erase_binding (Binding def benv) = Binding (erase_cte def) (erase_env benv).
Proof. cbn. f_equal. apply map_ext. by intros []. Qed.

Lemma erase_lookup env name : env_lookup (erase_env env) name = erase_binding <$> env_lookup env name.
Proof.
  unfold env_lookup. induction env as [|[n b] env IH]; [done|]. cbn. by case_bool_decide.
Qed.

Lemma erase_bind env cs : bind_ctes (erase_env env) (map erase_cte cs) = erase_env (bind_ctes env cs).
Proof.
  revert env. induction cs as [|c cs IH]; intros env; [done|]. cbn [map bind_ctes foldl]. fold (bind_ctes ((CTEName c, Binding c env) :: env) cs).
  rewrite <- IH. unfold erase_env at 3. cbn [map fst snd]. by rewrite erase_binding_unfold.
Qed.

Lemma erase_hazardous u r : hazardous (erase u) r = hazardous u r.
Proof. by destruct u. Qed.

Lemma erase_deep u : DeepTables (erase u) = cut (DeepTables u).
Proof. by destruct u. Qed.

(** A sum over the relations kept is the sum over all when the others give
    nothing. *)
Lemma concat_filter_guarded {B} (g : RelRef -> list B) rels : (forall rel, isGuarded maxR (RLoc rel) = true -> g rel = []) ->
  concat (g <$> base.filter (fun rel => isGuarded maxR (RLoc rel) = false) rels) = concat (g <$> rels).
Proof.
  intros Hg. induction rels as [|rel rels IH]; [done|]. rewrite filter_cons. destruct (decide _) as [H|H]; cbn [fmap list_fmap concat].
  - by rewrite IH.
  - rewrite Hg; [exact IH|]. by destruct (isGuarded maxR (RLoc rel)).
Qed.

Section exposures.
Context (cat : Catalog).
Abbreviation body_exposures := (body_exposures maxR cat).

(** A relation of lists of exposures that is kept by appending. *)
Context (R : list exposure -> list exposure -> Prop) (R_refl : forall l, R l l).
Context (R_app : forall a b a' b', R a a' -> R b b' -> R (a ++ b) (a' ++ b')).
Context (R_cut : forall refs, R (poison_exposures cat (cut refs)) (poison_exposures cat refs)).

Lemma R_concat {A} (f g : A -> list exposure) l : (forall x, R (f x) (g x)) -> R (concat (f <$> l)) (concat (g <$> l)).
Proof. intros H. induction l as [|x l IH]; cbn; [apply R_refl|]. by apply R_app. Qed.

Lemma erase_level b1 b2 t env ne : (forall u r e ne, R (b1 (erase u) r (erase_env e) ne) (b2 u r e ne)) ->
  R (level_exposures maxR cat b1 (erase t) (erase_env env) ne) (level_exposures maxR cat b2 t env ne).
Proof.
  intros Hb. unfold level_exposures. cbv zeta. rewrite erase_ctes, erase_bind, erase_relations, erase_derived. apply R_app.
  - rewrite concat_filter_guarded by (intros rel Hg; unfold relation_exposures; by rewrite Hg). apply R_concat. intros rel.
    unfold relation_exposures. destruct (_ || _); [apply R_refl|]. rewrite erase_lookup. case_bool_decide; [|apply R_refl].
    destruct (env_lookup _ _) as [[def benv]|]; cbn [fmap option_fmap option_map]; [|apply R_refl].
    rewrite erase_binding_unfold. cbn [erase_cte CTETree CTERecursive CTEPoisonTables].
    destruct (CTETree def); cbn; [apply Hb|apply R_refl].
  - rewrite <- list_fmap_compose.
    apply R_concat. intros d. cbn. apply Hb.
Qed.

Lemma erase_exposures f u r e ne : R (body_exposures f (erase u) r (erase_env e) ne) (body_exposures f u r e ne).
Proof.
  revert u r e ne. induction f as [|f IH]; intros u r e ne; [apply R_refl|]. cbn [NullabilityProps.body_exposures]. rewrite erase_hazardous, erase_deep.
  destruct (hazardous u r); [apply R_cut|]. by apply erase_level.
Qed.

Lemma erase_instances t : top_instances maxR cat (erase t) = top_instances maxR cat t.
Proof.
  unfold top_instances. rewrite erase_relations, erase_ctes. change (@nil (bytes * cteBinding)) with (erase_env []) at 1. rewrite erase_bind.
  rewrite concat_filter_guarded by (intros rel Hg; unfold relation_instance; by rewrite Hg). f_equal. apply list_fmap_ext. intros _ rel _.
  unfold relation_instance. destruct (_ || _); [done|]. rewrite erase_lookup. case_bool_decide; [|done]. by destruct (env_lookup _ _).
Qed.
End exposures.

Lemma erase_size_eq n t : tree_size t <= n -> tree_size (erase t) = tree_size t.
Proof.
  revert t. induction n as [|n IH]; intros t Hn; [rewrite tree_size_unfold in Hn; lia|]. rewrite !(tree_size_unfold) in *. rewrite erase_derived, erase_ctes. unfold sub_sizes in *.
  rewrite !map_map. f_equal. f_equal; f_equal; apply map_ext_in; intros x Hx.
  - apply IH. pose proof (in_list_sum _ _ (in_map (fun d => tree_size (SRTree d)) _ _ Hx)). cbn beta in *. lia.
  - pose proof (in_list_sum (cte_size x) _ (in_map cte_size _ _ Hx)) as Hle. destruct x as [a r [u|] p]; [|done].
    apply (IH u). assert (tree_size u <= list_sum (map cte_size (CTEs t))) by exact Hle. lia.
Qed.
Lemma erase_size t : tree_size (erase t) = tree_size t.
Proof. by eapply erase_size_eq. Qed.

(** ** Identities *)

Definition site_id (s : Tree * bool * cteEnv) : N := TreeId s.1.1.

Lemma erase_id u : TreeId (erase u) = TreeId u.
Proof. by destruct u. Qed.

Lemma erase_sites_ids n t env : tree_size t <= n -> site_id <$> sites (erase t) (erase_env env) = site_id <$> sites t env.
Proof.
  revert t env. induction n as [|n IH]; intros t env Hn; [rewrite tree_size_unfold in Hn; lia|]. rewrite tree_size_unfold in Hn.
  rewrite !(sites_unfold (_ t)), !(sites_unfold t) || rewrite (sites_unfold (erase t)), (sites_unfold t).
  rewrite erase_ctes, erase_derived, erase_bind, !fmap_app. f_equal.
  - assert (list_sum (map cte_size (CTEs t)) <= n) as Hc by lia. clear Hn. revert env Hc. generalize (CTEs t) as cs. induction cs as [|c cs IHc]; intros env Hc; [done|].
    change (list_sum (map cte_size (c :: cs))) with (cte_size c + list_sum (map cte_size cs)) in Hc. cbn [map cte_sites].
    rewrite !fmap_app. f_equal.
    + destruct c as [a r [u|] p]; [|done]. cbn. f_equal; [exact (erase_id u)|apply IH]. assert (cte_size (mkCTEDef a r (Some u) p) = tree_size u) as E by done. lia.
    + assert ((CTEName (erase_cte c), Binding (erase_cte c) (erase_env env)) :: erase_env env = erase_env ((CTEName c, Binding c env) :: env)) as ->
        by (unfold erase_env at 3; cbn [map fst snd]; by rewrite erase_binding_unfold).
      apply IHc. lia.
  - assert (sub_sizes (DerivedRels t) <= n) as Hc by lia. clear Hn. unfold sub_sizes in Hc. generalize (bind_ctes env (CTEs t)) as env'. intros env'.
    revert Hc. generalize (DerivedRels t) as ds. induction ds as [|d ds IHd]; intros Hc; [done|].
    change (list_sum (map (fun d => tree_size (SRTree d)) (d :: ds))) with (tree_size (SRTree d) + list_sum (map (fun d => tree_size (SRTree d)) ds)) in Hc.
    cbn [map concat]. rewrite !fmap_app. f_equal; [|apply IHd; lia]. cbn. f_equal; [exact (erase_id (SRTree d))|apply IH; lia].
Qed.

Lemma erase_distinct t : distinct_bodies t -> distinct_bodies (erase t).
Proof. unfold distinct_bodies. pose proof (erase_sites_ids _ t [] (le_n _)) as E. unfold site_id in E. cbn in E. by rewrite E. Qed.

Lemma filter_conjunct_skip st acc ncs :
  foldl (filter_conjunct maxR st) acc (base.filter (fun cr => inSkeleton maxR (CRLoc cr) = true) ncs) = foldl (filter_conjunct maxR st) acc ncs.
Proof.
  revert acc. induction ncs as [|cr ncs IH]; intros acc; [done|]. rewrite filter_cons. destruct (decide _) as [H|H]; cbn [foldl]; [apply IH|].
  rewrite IH. f_equal. unfold filter_conjunct. by destruct (inSkeleton maxR (CRLoc cr)).
Qed.

(** The verdicts read the presences and the instances of a state. *)
Lemma column_verdict_state t desc cat overrides st st' i col : ns_present st = ns_present st' -> ns_rels st = ns_rels st' ->
  column_verdict t maxR desc cat overrides st i col = column_verdict t maxR desc cat overrides st' i col.
Proof.
  intros Hp Hr. assert (forall acc cr, filter_conjunct maxR st acc cr = filter_conjunct maxR st' acc cr) as Hf by (intros; unfold filter_conjunct; by rewrite Hp, Hr).
  assert (forall l acc, foldl (filter_conjunct maxR st) acc l = foldl (filter_conjunct maxR st') acc l) as Hfold.
  { induction l as [|x l IH]; intros acc; [done|]. cbn. by rewrite Hf, IH. }
  unfold column_verdict, filtered_columns. by rewrite Hp, Hr, Hfold.
Qed.

Lemma column_verdict_erase t desc cat overrides st i col : untrusted_reason (erase t) cat = untrusted_reason t cat ->
  column_verdict (erase t) maxR desc cat overrides st i col = column_verdict t maxR desc cat overrides st i col.
Proof.
  intros Hu. unfold column_verdict, filtered_columns. rewrite Hu.
  assert (NotNullConjuncts (erase t) = base.filter (fun cr => inSkeleton maxR (CRLoc cr) = true) (NotNullConjuncts t)) as -> by by destruct t.
  rewrite filter_conjunct_skip. by destruct t.
Qed.

Lemma represents_unique m m' es : represents m es -> represents m' es -> m = m'.
Proof. intros H H'. apply map_eq. intros oid. by rewrite H, H'. Qed.

(** ** Fewer mentions *)

(** [es'] lacks some of the poisonings of [es]. *)
Definition thinned (es' es : list exposure) : Prop :=
  base.filter (fun e => e_poison e = false) es' = base.filter (fun e => e_poison e = false) es /\ forall e, e ∈ es' -> e ∈ es.

Lemma thinned_app a b a' b' : thinned a a' -> thinned b b' -> thinned (a ++ b) (a' ++ b').
Proof. intros [E1 H1] [E2 H2]. split; [by rewrite !list.filter_app, E1, E2|set_solver]. Qed.

Lemma poison_all cat refs e : e ∈ poison_exposures cat refs -> e_poison e = true.
Proof. unfold poison_exposures. intros (tr & _ & H)%list_elem_of_omap. destruct (LookupQualified _ _ _); [|done]. by injection H as <-. Qed.

Lemma thinned_poison cat refs' refs : (forall tr, tr ∈ refs' -> tr ∈ refs) -> thinned (poison_exposures cat refs') (poison_exposures cat refs).
Proof.
  intros H. split.
  - assert (forall refs, base.filter (fun e => e_poison e = false) (poison_exposures cat refs) = []) as Hn; [|by rewrite !Hn].
    intros r. pose proof (poison_all cat r) as Hr. induction (poison_exposures cat r) as [|e l IH]; [done|].
    rewrite filter_cons, decide_False by (rewrite Hr; [done|by left]). apply IH. intros e' He'. apply Hr. by right.
  - intros e (tr & Htr & E)%list_elem_of_omap. apply list_elem_of_omap. exists tr. by split; [apply H|].
Qed.

(** A table that nothing poisons has the same exposures. *)
Lemma thinned_same es' es oid : thinned es' es -> (forall e, e ∈ exposures_of oid es -> e_poison e = false) -> exposures_of oid es' = exposures_of oid es.
Proof.
  intros [E H] Hp. assert (forall l, (forall e, e ∈ exposures_of oid l -> e_poison e = false) ->
    exposures_of oid l = exposures_of oid (base.filter (fun e => e_poison e = false) l)) as Hf.
  { clear. unfold exposures_of. induction l as [|x l IH]; intros Hl; [done|]. rewrite !filter_cons in *.
    destruct (decide (about x = oid)) as [Ho|Ho].
    - destruct (decide (e_poison x = false)) as [Hx|Hx]; [|destruct Hx; apply Hl; by left].
      rewrite filter_cons, decide_True by done. f_equal. apply IH. intros e He. apply Hl. by right.
    - destruct (decide (e_poison x = false)); [rewrite filter_cons, decide_False by done|]; by apply IH. }
  rewrite (Hf es'), (Hf es), E; [done|done|]. intros e [Ha He]%list_elem_of_filter. apply Hp, list_elem_of_filter. auto.
Qed.

Lemma thinned_clean es' es oid : thinned es' es -> clean (exposures_of oid es) -> exposures_of oid es' = exposures_of oid es.
Proof. intros Ht Hc. apply thinned_same; [done|]. intros e He. by destruct (Hc e He) as (_ & _ & ?). Qed.

Lemma thinned_single es' es oid ext inh : thinned es' es -> exposures_of oid es = [Instance oid ext inh] -> exposures_of oid es' = [Instance oid ext inh].
Proof. intros Ht E. rewrite <- E. apply thinned_same; [done|]. intros e. rewrite E. by intros ->%list_elem_of_singleton. Qed.

Section cut.
Context (Hcut : forall refs tr, tr ∈ cut refs -> tr ∈ refs).

Lemma erase_thinned cat t : thinned (statement_exposures maxR cat (erase t)) (statement_exposures maxR cat t).
Proof.
  unfold statement_exposures. rewrite erase_size. change (@nil (bytes * cteBinding)) with (erase_env []) at 1.
  assert (forall l, thinned l l) as Hr by done.
  assert (forall refs, thinned (poison_exposures cat (cut refs)) (poison_exposures cat refs)) as Hp by (intros; apply thinned_poison, Hcut).
  apply (erase_level cat thinned Hr thinned_app). intros. by apply (erase_exposures cat thinned Hr thinned_app).
Qed.

Lemma erase_trusted t cat : trusted t cat -> trusted (erase t) cat.
Proof.
  unfold trusted. intros (H1 & H2 & H3 & H4). assert (touchesView (erase t) cat = false) as ->; [|by destruct t].
  unfold touchesView in *. destruct cat as [cat|]; [|done]. rewrite erase_deep. rewrite existsb_none in *. intros tr Htr. by apply H4, Hcut.
Qed.

Lemma erase_filtered cat t oid att : filtered_by maxR cat t oid att -> filtered_by maxR cat (erase t) oid att.
Proof.
  intros (Hk & cr & inst & c & Hcr & Hs & Hres & Ho & Hc & ext & inh & Hex). split; [by destruct t|]. exists cr, inst, c.
  rewrite erase_instances. split_and!; [|done..|exists ext, inh; by apply (thinned_single _ _ _ _ _ (erase_thinned cat t))].
  assert (NotNullConjuncts (erase t) = base.filter (fun cr => inSkeleton maxR (CRLoc cr) = true) (NotNullConjuncts t)) as -> by by destruct t.
  by apply list_elem_of_filter.
Qed.

Lemma erase_source cat t oid att : source_not_null maxR cat t oid att -> source_not_null maxR cat (erase t) oid att.
Proof.
  intros (Ht & Hne & tab & c & Hl & Hc & H). split; [by apply erase_trusted|]. destruct H as [Hf|[Hcl Hn]].
  - pose proof (erase_filtered _ _ _ _ Hf) as Hf'. split; [|exists tab, c; split_and!; [done..|by left]].
    destruct Hf' as (_ & ? & ? & ? & _ & _ & _ & _ & _ & ext & inh & E). by rewrite E.
  - rewrite (thinned_clean _ _ _ (erase_thinned cat t) Hcl). split; [done|]. exists tab, c. split_and!; [done..|by right].
Qed.

Lemma erase_not_null cat t columns overrides i col :
  not_null maxR cat t columns overrides i col -> not_null maxR cat (erase t) columns overrides i col.
Proof.
  unfold not_null. destruct (overrides !! CdName col); [done|].
  assert (attributed (erase t) columns i col <-> attributed t columns i col) as Hatt by by destruct t.
  intros [(cat' & -> & Ha & H)|[Ha H]].
  { left. exists cat'. split; [done|]. split; [by apply Hatt|by apply erase_source]. }
  right. rewrite Hatt. split; [done|]. unfold expression_not_null in *. assert (TargetItems (erase t) = TargetItems t) as -> by by destruct t.
  destruct H as (Hal & ti & Hti & H). split; [done|]. exists ti. split; [done|]. destruct H as [H|[H|(Ht & Hg & H)]]; [by left|by right; left|].
  right; right. split_and!; [by apply erase_trusted|by destruct t|]. destruct cat; [by rewrite erase_instances|done].
Qed.
End cut.
End erase.

(** C23: guarded fragments never narrow.  The relations in optional fragments
    and the [IS NOT NULL] conjuncts outside the skeleton, at any nesting level,
    are no reason to call a column non-null: the statement without them, and
    without any of the tables they mention, calls non-null every column that
    the whole statement does.  Through the tables they mention they can only
    widen - a view disables narrowing, a body that is not modelled poisons
    what it mentions; with the mentions kept, the verdicts and their reasons
    are the same. *)
Theorem guarded_ignored maxR t desc cat overrides : distinct_bodies t ->
  exists vs, AnalyzeVerdicts t maxR desc cat overrides = Some vs /\
    AnalyzeVerdicts (erase maxR (fun refs => refs) t) maxR desc cat overrides = Some vs /\
    forall cut, (forall refs tr, tr ∈ cut refs -> tr ∈ refs) ->
      exists vs', AnalyzeVerdicts (erase maxR cut t) maxR desc cat overrides = Some vs' /\ length vs' = length vs /\
        forall i v v', vs !! i = Some v -> vs' !! i = Some v' -> VNullable v = false -> VNullable v' = false.
Proof.
  intros Hd. unfold AnalyzeVerdicts. destruct (analyze_state_ok maxR t cat Hd) as (st & E & Hst). rewrite E. cbn [mbind option_bind].
  eexists. split; [done|]. split.
  - assert (untrusted_reason (erase maxR (fun refs => refs) t) cat = untrusted_reason t cat) as Hu by by destruct t. rewrite Hu.
    destruct (analyze_state_ok maxR (erase maxR (fun refs => refs) t) cat) as (st' & E' & Hst'); [by apply erase_distinct|].
    rewrite Hu in E'. rewrite E'. cbn [mbind option_bind]. f_equal. apply imap_ext. intros i col _.
    rewrite column_verdict_erase by done. unfold analyze_state, state_for in *. rewrite <- !trusted_spec, Hu in *.
    destruct cat as [cat|]; [|by injection E as <-; injection E' as <-]. case_bool_decide as Ht; [|by injection E as <-; injection E' as <-].
    destruct (Hst Ht) as [Hr Hi], (Hst' Ht) as [Hr' Hi']. apply column_verdict_state; [|by rewrite Hi, Hi', erase_instances].
    eapply represents_unique; [exact Hr'|].
    assert (statement_exposures maxR cat (erase maxR (fun refs => refs) t) = statement_exposures maxR cat t) as ->; [|done].
    unfold statement_exposures. rewrite erase_size.
    assert (forall a b a' b' : list exposure, a = a' -> b = b' -> a ++ b = a' ++ b') as Happ by (by intros ? ? ? ? -> ->).
    apply (erase_level maxR (fun refs => refs) cat eq (fun l => eq_refl) Happ _ _ t [] false).
    intros. by apply (erase_exposures maxR _ cat eq (fun l => eq_refl) Happ (fun refs => eq_refl)).
  - intros cut Hcut. destruct (analyze_state_ok maxR (erase maxR cut t) cat) as (st' & -> & Hst'); [by apply erase_distinct|]. cbn [mbind option_bind].
    eexists. split; [done|]. split; [by rewrite !length_imap|]. intros i v v'. rewrite !list_lookup_imap.
    destruct (DColumns desc !! i) as [col|]; cbn; [|done]. intros [= <-] [= <-]. rewrite !column_verdict_ok by done. by apply erase_not_null.
Qed.

Lemma guarded_ignored_witness : distinct_bodies shop_tree /\
  Relations (erase shop_rendering (fun refs => refs) shop_tree) <> Relations shop_tree /\
  exists vs, AnalyzeVerdicts shop_tree shop_rendering shop_desc (Some shop_catalog) ∅ = Some vs /\
    AnalyzeVerdicts (erase shop_rendering (fun refs => refs) shop_tree) shop_rendering shop_desc (Some shop_catalog) ∅ = Some vs /\
    exists vs', AnalyzeVerdicts (erase shop_rendering (fun _ => []) shop_tree) shop_rendering shop_desc (Some shop_catalog) ∅ = Some vs' /\
      length vs' = length vs /\
      forall i v v', vs !! i = Some v -> vs' !! i = Some v' -> VNullable v = false -> VNullable v' = false.
Proof.
  split; [exact shop_distinct|]. split; [by vm_compute|].
  destruct (guarded_ignored shop_rendering shop_tree shop_desc (Some shop_catalog) ∅ shop_distinct) as (vs & E & E' & H).
  exists vs. split_and!; [exact E|exact E'|]. apply H. intros refs tr Htr. by apply elem_of_nil in Htr.
Defined.
