(* ===== verification/Lines.v ===== *)
(** * Lines

    The places of a source: [LineMap] and the rendering of reports in
    [internal/diagnostics/diagnostics.go], and the positions of the language
    server in [internal/lsp/position.go].  An offset is any [int]; the bytes are
    any bytes, UTF-8 or not. *)

From S2P Require Import Prelude Dialect Template Diagnostics.

(** ** [unicode/utf8] and [unicode/utf16] *)

Definition byte_in (lo hi : N) (c : ascii) : bool := (lo <=? N_of_ascii c)%N && (N_of_ascii c <=? hi)%N.
Definition continuation (c : ascii) : bool := byte_in 0x80 0xBF c.
Definition low6 (c : ascii) : N := N.land (N_of_ascii c) 0x3F.

Definition RuneError : N := 0xFFFD.

(** [utf8.DecodeRune]: the rune and its length; an error has length 1. *)
Definition DecodeRune (s : bytes) : N * nat :=
  match s with
  | [] => (RuneError, 0)
  | c0 :: s1 =>
      if byte_in 0x00 0x7F c0 then (N_of_ascii c0, 1)
      else
        match s1 with
        | c1 :: s2 =>
            if byte_in 0xC2 0xDF c0 && continuation c1 then (N.lor (N.shiftl (N.land (N_of_ascii c0) 0x1F) 6) (low6 c1), 2)
            else
              match s2 with
              | c2 :: s3 =>
                  let second :=
                    if byte_in 0xE0 0xE0 c0 then byte_in 0xA0 0xBF c1
                    else if byte_in 0xED 0xED c0 then byte_in 0x80 0x9F c1
                    else byte_in 0xE1 0xEF c0 && continuation c1 in
                  if second && continuation c2 then
                    (N.lor (N.shiftl (N.land (N_of_ascii c0) 0x0F) 12) (N.lor (N.shiftl (low6 c1) 6) (low6 c2)), 3)
                  else
                    match s3 with
                    | c3 :: _ =>
                        let second :=
                          if byte_in 0xF0 0xF0 c0 then byte_in 0x90 0xBF c1
                          else if byte_in 0xF4 0xF4 c0 then byte_in 0x80 0x8F c1
                          else byte_in 0xF1 0xF3 c0 && continuation c1 in
                        if second && continuation c2 && continuation c3 then
                          (N.lor (N.shiftl (N.land (N_of_ascii c0) 0x07) 18)
                             (N.lor (N.shiftl (low6 c1) 12) (N.lor (N.shiftl (low6 c2) 6) (low6 c3))), 4)
                        else (RuneError, 1)
                    | [] => (RuneError, 1)
                    end
              | [] => (RuneError, 1)
              end
        | [] => (RuneError, 1)
        end
  end.

(** [utf8.RuneCount]; fuel: a rune takes a byte. *)
Fixpoint rune_count (fuel : nat) (s : bytes) : nat :=
  match fuel, s with
  | S f, _ :: _ => S (rune_count f (drop (DecodeRune s).2 s))
  | _, _ => 0
  end.
Definition RuneCount (s : bytes) : nat := rune_count (length s) s.

(** [utf16.RuneLen]; -1 for what is no code point. *)
Definition RuneLen (r : N) : Z :=
  if (r <? 0xD800)%N || ((0xE000 <=? r)%N && (r <? 0x10000)%N) then 1
  else if (0x10000 <=? r)%N && (r <=? 0x10FFFF)%N then 2 else -1.

(** [sort.Search]: binary search; fuel: the interval shrinks. *)
Fixpoint search_loop (fuel : nat) (f : nat -> bool) (i j : nat) : nat :=
  match fuel with
  | O => i
  | S fuel =>
      if Nat.ltb i j then
        let h := (i + j) / 2 in
        if f h then search_loop fuel f i h else search_loop fuel f (h + 1) j
      else i
  end.
Definition Search (n : nat) (f : nat -> bool) : nat := search_loop n f 0 n.

(** ** The line index *)

Record LineMap := mkLineMap { lm_starts : list nat; lm_n : nat }.

Definition line_start (i : nat) (c : ascii) : list nat := if c =b c_lf then [i + 1] else [].
Definition NewLineMap (src : bytes) : LineMap := mkLineMap (0 :: concat (imap line_start src)) (length src).

(** The two clamps of an offset. *)
Definition clamp (n : nat) (off : Z) : nat := Z.to_nat (Z.min off (Z.of_nat n)).

Definition LineMap_LineCol (m : LineMap) (off : Z) : result IndexPanic (nat * nat) :=
  let off := clamp (lm_n m) off in
  let i := Search (length (lm_starts m)) (fun i => match lm_starts m !! i with Some s => Nat.ltb off s | None => false end) in
  match i with
  | O => Err IndexOutOfRange
  | S idx =>
      match lm_starts m !! idx with
      | Some s => Ok (idx + 1, off - s + 1)
      | None => Err IndexOutOfRange
      end
  end.

Definition LineCol (src : bytes) (off : Z) : result IndexPanic (nat * nat) := LineMap_LineCol (NewLineMap src) off.

Definition LineStartOffset (m : LineMap) (line0 : Z) : nat :=
  let line0 := Z.to_nat line0 in
  match lm_starts m !! line0 with Some s => s | None => lm_n m end.

(** ** Excerpts *)

Definition excerptFullMaxBytes : nat := 320.
Definition excerptCtxRunes : nat := 48.
Definition excerptMaxCaretRunes : nat := 160.

Section source.
Context (src : bytes).

Definition byte_is (p : ascii -> bool) (i : nat) : bool := match src !! i with Some c => p c | None => false end.

(** The inner loops: over continuation bytes. *)
Fixpoint back_continuation (pos lo : nat) : nat :=
  match pos with
  | O => O
  | S pos' => if Nat.ltb lo pos && byte_is continuation pos then back_continuation pos' lo else pos
  end.
Fixpoint fwd_continuation (fuel pos hi : nat) : nat :=
  match fuel with
  | O => pos
  | S f => if Nat.ltb pos hi && byte_is continuation pos then fwd_continuation f (S pos) hi else pos
  end.

Fixpoint backRunes (n pos lo : nat) : nat :=
  match n with
  | O => pos
  | S n => if Nat.ltb lo pos then backRunes n (back_continuation (pos - 1) lo) lo else pos
  end.
Fixpoint fwdRunes (n pos hi : nat) : nat :=
  match n with
  | O => pos
  | S n => if Nat.ltb pos hi then fwdRunes n (fwd_continuation (hi - pos) (S pos) hi) hi else pos
  end.

Definition ellipsis : bytes := ["226"; "128"; "166"]%char.

(** The excerpt's text, the padding and the length of the caret line. *)
Definition excerptLine (lineStart lineEnd start capEnd : nat) : bytes * nat * nat :=
  if Nat.leb (lineEnd - lineStart) excerptFullMaxBytes then
    (slice src lineStart lineEnd, RuneCount (slice src lineStart start), Nat.max (RuneCount (slice src start capEnd)) 1)
  else
    let caretEnd := fwdRunes excerptMaxCaretRunes start capEnd in
    let winStart := backRunes excerptCtxRunes start lineStart in
    let winEnd := fwdRunes excerptCtxRunes caretEnd lineEnd in
    let cut := Nat.ltb lineStart winStart in
    ((if cut then ellipsis else []) ++ slice src winStart winEnd ++ (if Nat.ltb winEnd lineEnd then ellipsis else []),
     (if cut then 1 else 0) + RuneCount (slice src winStart start),
     Nat.max (RuneCount (slice src start caretEnd)) 1).

(** The bounds of the line around an offset. *)
Fixpoint line_begin (pos : nat) : nat :=
  match pos with
  | O => O
  | S pos' => if byte_is (fun c => c =b c_lf) pos' then pos else line_begin pos'
  end.
Fixpoint line_end (fuel pos : nat) : nat :=
  match fuel with
  | O => pos
  | S f => if Nat.ltb pos (length src) && negb (byte_is (fun c => c =b c_lf) pos) then line_end f (S pos) else pos
  end.

(** ** Rendering

    [fmt.Sprintf] makes the message and the hint of a report. *)
Section render.
Context (Sprintf : bytes -> list Arg -> bytes).

Definition Severity_String (s : Severity) : bytes := bs match s with Warning => "warning" | Error => "error" end.
Definition dec (n : nat) : bytes := FormatUint (N.of_nat n) 10.
Definition Message (d : Diagnostic) : bytes := Sprintf (DFormat d) (DArgs d).
Definition Hint (d : Diagnostic) : bytes := match DHint d with ([], []) => [] | (f, args) => Sprintf f args end.

Definition headline (d : Diagnostic) (line col : nat) : bytes :=
  SFile (DSpan d) ++ bs ":" ++ dec line ++ bs ":" ++ dec col ++ bs ": " ++ Severity_String (DSeverity d)
  ++ bs "[" ++ DCode d ++ bs "]: " ++ Message d.
Definition help (d : Diagnostic) : bytes := match Hint d with [] => [] | h => c_lf :: bs "help: " ++ h end.

Definition RenderWith (d : Diagnostic) (lm : LineMap) : result IndexPanic bytes :=
  let! '(line, col) := LineMap_LineCol lm (Z.of_nat (SStart (DSpan d))) in
  Ok (headline d line col ++ help d).

(** The span is clamped into the source first. *)
Definition RenderExcerptWith (d : Diagnostic) (lm : LineMap) : result IndexPanic bytes :=
  let start := Nat.min (SStart (DSpan d)) (length src) in
  let end_ := Nat.min (Nat.max (SEnd (DSpan d)) start) (length src) in
  let d := mkDiagnostic (DCode d) (DSeverity d) (mkSpan (SFile (DSpan d)) start end_) (DFormat d) (DArgs d) (DHint d) in
  if Nat.leb (length src) start then RenderWith d lm
  else
    let! '(line, col) := LineMap_LineCol lm (Z.of_nat start) in
    let lineStart := line_begin start in
    let lineEnd := line_end (length src) start in
    let spanEnd := if Nat.ltb lineEnd end_ || Nat.leb end_ start then start + 1 else end_ in
    let '(lineText, prefixRunes, caretRunes) := excerptLine lineStart lineEnd start (Nat.min lineEnd spanEnd) in
    let pad := repeat " "%char (length (dec line)) in
    Ok (headline d line col ++ [c_lf] ++ pad ++ bs " |" ++ [c_lf] ++ dec line ++ bs " | " ++ lineText ++ [c_lf]
        ++ pad ++ bs " | " ++ repeat " "%char prefixRunes ++ repeat "^"%char caretRunes ++ help d).

Definition Render (d : Diagnostic) : result IndexPanic bytes := RenderWith d (NewLineMap src).
Definition RenderExcerpt (d : Diagnostic) : result IndexPanic bytes := RenderExcerptWith d (NewLineMap src).
End render.

(** ** Positions of the language server

    [uint32] values wrap. *)
Definition u32 (n : N) : N := N.modulo n (2 ^ 32).

Record Position := mkPosition { PLine : N; PCharacter : N }.

(** The code units of the runes from [i] up to [off]; fuel: a rune takes a byte. *)
Fixpoint units_loop (fuel i off : nat) (units : N) : N :=
  match fuel with
  | O => units
  | S f =>
      if Nat.ltb i off then
        let '(r, size) := DecodeRune (drop i src) in
        units_loop f (i + size) off (u32 (units + Z.to_N (RuneLen r mod 2 ^ 32)))
      else units
  end.

Definition position (off : Z) : result IndexPanic Position :=
  let off := clamp (length src) off in
  let! '(line, col) := LineMap_LineCol (NewLineMap src) (Z.of_nat off) in
  Ok (mkPosition (u32 (N.of_nat (line - 1))) (units_loop (length src) (off - (col - 1)) off 0)).

Fixpoint offset_loop (fuel i : nat) (units target : N) : nat :=
  match fuel with
  | O => i
  | S f =>
      if Nat.ltb i (length src) && negb (byte_is (fun c => c =b c_lf) i) && (units <? target)%N then
        let '(r, size) := DecodeRune (drop i src) in
        let u := Z.to_N (RuneLen r mod 2 ^ 32) in
        if (target <? u32 (units + u))%N then i else offset_loop f (i + size) (u32 (units + u)) target
      else i
  end.

Definition offset (pos : Position) : nat :=
  offset_loop (length src) (LineStartOffset (NewLineMap src) (Z.of_N (PLine pos))) 0 (PCharacter pos).

Record Range_ := mkRange { RgStart : Position; RgEnd : Position }.

Definition spanRange (start end_ : Z) : result IndexPanic Range_ :=
  let start := Z.of_nat (clamp (length src) start) in
  let end_ := if Z.leb end_ start then (start + 1)%Z else end_ in
  let! s := position start in
  let! e := position end_ in
  Ok (mkRange s e).
End source.
