(* ===== verification/LinesTheorems.v ===== *)
(** * LinesTheorems

    The places that reports name: lines, excerpts and positions. *)

From S2P Require Import Prelude Dialect Template Diagnostics Lines.

(** ** Binary search *)

Lemma search_loop_spec f m n : (forall k, k < m -> f k = false) -> (forall k, m <= k < n -> f k = true) ->
  forall fuel i j, i <= m <= j -> j <= n -> j - i <= fuel -> search_loop fuel f i j = m.
Proof.
  intros Hlo Hhi. induction fuel as [|fuel IH]; intros i j Hm Hj Hf; cbn [search_loop]; [lia|].
  destruct (Nat.ltb_spec i j) as [Hij|Hij]; [|lia].
  assert (Hh : i <= (i + j) / 2 < j).
  { split; [apply Nat.div_le_lower_bound; lia|apply Nat.div_lt_upper_bound; lia]. }
  destruct (decide ((i + j) / 2 < m)) as [H|H].
  - rewrite (Hlo _ H). apply IH; lia.
  - rewrite Hhi by lia. apply IH; lia.
Qed.

(** ** Lines *)

(** The line feeds of a text. *)
Definition count_lf (s : bytes) : nat := length (List.filter (fun c => c =b c_lf) s).

Definition starts_of (pre : bytes) : list nat := 0 :: concat (imap line_start pre).

Lemma starts_snoc pre c : starts_of (pre ++ [c]) = starts_of pre ++ line_start (length pre) c.
Proof.
  unfold starts_of. rewrite imap_app, concat_app. cbn. by rewrite app_nil_r, Nat.add_0_r.
Qed.

Lemma count_lf_snoc pre c : count_lf (pre ++ [c]) = count_lf pre + length (line_start (length pre) c).
Proof. unfold count_lf, line_start. rewrite List.filter_app, length_app. cbn. by destruct (c =b c_lf). Qed.

Lemma starts_length pre : length (starts_of pre) = S (count_lf pre).
Proof.
  induction pre as [|c pre IH] using rev_ind; [done|].
  rewrite starts_snoc, length_app, IH, count_lf_snoc. lia.
Qed.

(** The last start is that of the line the text ends in. *)
Definition line_of (pre : bytes) (s : nat) : Prop :=
  s <= length pre /\ c_lf ∉ drop s pre /\ (s = 0 \/ pre !! (s - 1) = Some c_lf).

Lemma starts_last pre : exists s, list.last (starts_of pre) = Some s /\ line_of pre s.
Proof.
  induction pre as [|c pre (s & Hl & Hs & Hd & Hb)] using rev_ind.
  - exists 0. split; [done|]. split; [cbn; lia|]. split; [|by left]. cbn. by apply not_elem_of_nil.
  - rewrite starts_snoc. unfold line_start, line_of. destruct (Ascii.eqb_spec c c_lf) as [->|Hc].
    + exists (length pre + 1). rewrite last_snoc. split; [done|]. rewrite length_app. cbn.
      split; [lia|]. split; [rewrite drop_ge by (rewrite length_app; cbn; lia); by apply not_elem_of_nil|].
      right. rewrite lookup_app_r by lia. by replace (length pre + 1 - 1 - length pre) with 0 by lia.
    + exists s. rewrite app_nil_r. split; [done|]. rewrite length_app. split; [lia|]. split.
      * rewrite drop_app_le by lia. rewrite elem_of_app, list_elem_of_singleton. intros [H|H]; [by apply Hd|congruence].
      * destruct Hb as [Hb|Hb]; [by left|]. right. rewrite lookup_app_l; [done|]. by apply lookup_lt_Some in Hb.
Qed.

Lemma starts_le pre s : s ∈ starts_of pre -> s <= length pre.
Proof.
  induction pre as [|c pre IH] using rev_ind; intros H; [by apply list_elem_of_singleton in H as ->|].
  rewrite starts_snoc in H. rewrite length_app. cbn. apply elem_of_app in H as [H|H]; [apply IH in H; lia|].
  unfold line_start in H. destruct (c =b c_lf); [apply list_elem_of_singleton in H; lia|by apply not_elem_of_nil in H].
Qed.

Lemma starts_gt n post s : s ∈ concat (imap (fun i => line_start (n + i)) post) -> n < s.
Proof.
  intros (i & c & _ & Hs)%elem_of_concat_imap. unfold line_start in Hs.
  destruct (c =b c_lf); [apply list_elem_of_singleton in Hs; lia|by apply not_elem_of_nil in Hs].
Qed.

Lemma starts_split src o : o <= length src ->
  lm_starts (NewLineMap src) = starts_of (take o src) ++ concat (imap (fun i => line_start (o + i)) (drop o src)).
Proof.
  intros Ho. cbn [NewLineMap lm_starts]. rewrite <- (take_drop o src) at 1. rewrite imap_app, concat_app, length_take, Nat.min_l by done.
  unfold starts_of. done.
Qed.

Lemma LineCol_spec src off : let o := clamp (length src) off in
  exists s, line_of (take o src) s /\ s <= o /\ LineCol src off = Ok (S (count_lf (take o src)), S (o - s)) /\
    lm_starts (NewLineMap src) !! count_lf (take o src) = Some s.
Proof.
  intros o. assert (Ho : o <= length src) by (unfold o, clamp; lia).
  destruct (starts_last (take o src)) as (s & Hlast & Hs). exists s.
  assert (Hso : s <= o) by (destruct Hs as [H _]; rewrite length_take in H; lia).
  rewrite last_lookup, starts_length in Hlast. cbn in Hlast.
  assert (Hlk : lm_starts (NewLineMap src) !! count_lf (take o src) = Some s).
  { rewrite (starts_split src o Ho), lookup_app_l; [done|]. rewrite starts_length. lia. }
  split; [done|]. split; [done|]. split; [|done]. unfold LineCol, LineMap_LineCol. cbn [lm_n NewLineMap]. fold o.
  change (mkLineMap (0 :: concat (imap line_start src)) (length src)) with (NewLineMap src).
  unfold Search. rewrite (search_loop_spec _ (S (count_lf (take o src))) (length (lm_starts (NewLineMap src)))).
  - rewrite Hlk. f_equal. f_equal; lia.
  - intros k Hk. rewrite (starts_split src o Ho). rewrite lookup_app_l by (rewrite starts_length; lia).
    destruct (starts_of (take o src) !! k) as [x|] eqn:E; [|done]. apply list_elem_of_lookup_2, starts_le in E.
    rewrite length_take in E. apply Nat.ltb_ge. lia.
  - intros k Hk. rewrite (starts_split src o Ho). rewrite (starts_split src o Ho), length_app, starts_length in Hk.
    rewrite lookup_app_r by (rewrite starts_length; lia). rewrite starts_length.
    destruct (concat _ !! _) as [x|] eqn:E; [apply list_elem_of_lookup_2, starts_gt in E; by apply Nat.ltb_lt|].
    apply lookup_ge_None in E. lia.
  - rewrite (starts_split src o Ho), length_app, starts_length. lia.
  - done.
  - lia.
Qed.

(** Places are exact.  [LineCol] of any offset, clamped into the source,
    is the number of line feeds before it and the distance to the start of its
    line - there is no line feed between the two, and one just before the start
    unless it is the source's - both counted from one; and [LineStartOffset]
    takes the line and the column back to the offset. *)
Theorem places_exact src off : let o := clamp (length src) off in
  exists line col, LineCol src off = Ok (S line, S col) /\
    line = count_lf (take o src) /\ col <= o /\
    c_lf ∉ slice src (o - col) o /\ (o - col = 0 \/ src !! (o - col - 1) = Some c_lf) /\
    LineStartOffset (NewLineMap src) (Z.of_nat line) + col = o.
Proof.
  intros o. destruct (LineCol_spec src off) as (s & (Hs & Hd & Hb) & Hso & E & Hlk). fold o in Hs, Hd, Hb, Hso, E, Hlk.
  exists (count_lf (take o src)), (o - s). split; [done|]. split; [done|]. split; [lia|].
  replace (o - (o - s)) with s by lia. split; [|split].
  - unfold slice. by rewrite <- skipn_firstn_comm.
  - destruct Hb as [Hb|Hb]; [by left|right]. by rewrite lookup_take_Some in Hb; destruct Hb.
  - unfold LineStartOffset. rewrite Nat2Z.id, Hlk. lia.
Qed.

(** ** Runes *)

Lemma byte_in_spec lo hi c : byte_in lo hi c = true <-> (lo <= N_of_ascii c <= hi)%N.
Proof. unfold byte_in. rewrite andb_true_iff, !N.leb_le. done. Qed.

Lemma lor_low a b k : (b < 2 ^ k)%N -> N.lor (N.shiftl a k) b = (a * 2 ^ k + b)%N.
Proof.
  intros Hb. rewrite N.shiftl_mul_pow2.
  assert (H : N.land (a * 2 ^ k) b = 0%N).
  { apply N.bits_inj. intros i. rewrite N.land_spec, N.bits_0. destruct (N.ltb_spec i k) as [Hi|Hi]; [by rewrite N.mul_pow2_bits_low|].
    destruct (N.eq_dec b 0%N) as [->|Hb0]; [by rewrite N.bits_0, andb_false_r|].
    rewrite (N.bits_above_log2 b); [by rewrite andb_false_r|]. apply N.log2_lt_pow2 in Hb; lia. }
  by rewrite <- N.lxor_lor, <- N.add_nocarry_lxor.
Qed.

Lemma low6_cont c : continuation c = true -> (low6 c = N_of_ascii c - 0x80)%N /\ (low6 c < 2 ^ 6)%N.
Proof.
  intros H%byte_in_spec. unfold low6. change 0x3F%N with (N.ones 6). rewrite N.land_ones.
  assert (E : (N_of_ascii c mod 2 ^ 6 = N_of_ascii c - 0x80)%N); [|rewrite E; lia].
  symmetry. apply (N.mod_unique _ _ 2); lia.
Qed.

Lemma land_top c k b q : (N_of_ascii c = q * 2 ^ k + b)%N -> (b < 2 ^ k)%N -> N.land (N_of_ascii c) (N.ones k) = b.
Proof. intros E Hb. rewrite N.land_ones. symmetry. apply (N.mod_unique _ _ q); lia. Qed.

Lemma byte_lt c : (N_of_ascii c < 256)%N.
Proof. apply N_ascii_bounded. Qed.

Lemma RuneLen_one r : (r < 0xD800 \/ 0xE000 <= r < 0x10000)%N -> RuneLen r = 1%Z.
Proof.
  intros H. unfold RuneLen. destruct (N.ltb_spec r 0xD800); [done|]. destruct (N.leb_spec 0xE000 r), (N.ltb_spec r 0x10000); done || lia.
Qed.

Lemma RuneLen_two r : (0x10000 <= r <= 0x10FFFF)%N -> RuneLen r = 2%Z.
Proof.
  intros H. unfold RuneLen. destruct (N.ltb_spec r 0xD800); [lia|]. destruct (N.leb_spec 0xE000 r), (N.ltb_spec r 0x10000); try lia.
  cbn. destruct (N.leb_spec 0x10000 r), (N.leb_spec r 0x10FFFF); done || lia.
Qed.

(** A rune takes one to four bytes; it is two code units when it takes four, one
    otherwise, and after its first byte come continuation bytes. *)
Definition rune_ok (s : bytes) (r : N * nat) : Prop :=
  1 <= r.2 <= 4 /\ r.2 <= length s /\ RuneLen r.1 = (if Nat.eqb r.2 4 then 2 else 1)%Z /\
  (2 <= r.2 -> c_lf ∉ take r.2 s).

Lemma rune_error_ok c s : rune_ok (c :: s) (RuneError, 1).
Proof. split; [cbn; lia|]. split; [cbn; lia|]. split; [done|cbn; lia]. Qed.

Lemma cont_not_lf c : continuation c = true -> c <> c_lf.
Proof. intros H%byte_in_spec ->. cbn in H. lia. Qed.

Lemma not_lf_spec lo hi c : byte_in lo hi c = true -> (0x80 <= lo)%N -> c <> c_lf.
Proof. intros H%byte_in_spec Hlo ->. cbn in H. lia. Qed.

Lemma decode2_ok c0 c1 s : byte_in 0xC2 0xDF c0 = true -> continuation c1 = true ->
  rune_ok (c0 :: c1 :: s) (N.lor (N.shiftl (N.land (N_of_ascii c0) 0x1F) 6) (low6 c1), 2).
Proof.
  intros H0 H1. pose proof (not_lf_spec _ _ _ H0) as L0. pose proof (cont_not_lf _ H1) as L1.
  apply byte_in_spec in H0. destruct (low6_cont _ H1) as [_ E1].
  split; [cbn; lia|]. split; [cbn; lia|]. split.
  - cbn [fst snd Nat.eqb]. apply RuneLen_one. rewrite lor_low by done.
    change 0x1F%N with (N.ones 5). rewrite (land_top c0 5 (N_of_ascii c0 - 0xC0) 6) by lia. lia.
  - intros _. cbn. rewrite !not_elem_of_cons. split_and!; [|congruence|by apply not_elem_of_nil]. intros E. by apply L0.
Qed.

Lemma decode3_ok c0 c1 c2 s :
  (if byte_in 0xE0 0xE0 c0 then byte_in 0xA0 0xBF c1
   else if byte_in 0xED 0xED c0 then byte_in 0x80 0x9F c1
   else byte_in 0xE1 0xEF c0 && continuation c1) = true -> continuation c2 = true ->
  rune_ok (c0 :: c1 :: c2 :: s) (N.lor (N.shiftl (N.land (N_of_ascii c0) 0x0F) 12) (N.lor (N.shiftl (low6 c1) 6) (low6 c2)), 3).
Proof.
  intros H1 H2.
  assert (H : continuation c1 = true /\ (0xE0 <= N_of_ascii c0 <= 0xEF)%N /\ (N_of_ascii c0 = 0xED -> N_of_ascii c1 <= 0x9F)%N).
  { unfold continuation. rewrite byte_in_spec. destruct (byte_in 0xE0 0xE0 c0) eqn:B0.
    - apply byte_in_spec in B0, H1. lia.
    - destruct (byte_in 0xED 0xED c0) eqn:B1; [apply byte_in_spec in B1, H1; lia|].
      apply andb_true_iff in H1 as [H0 H1]. apply byte_in_spec in H0, H1. split; [done|]. split; [lia|]. intros E. exfalso.
      apply not_true_iff_false in B1. apply B1, byte_in_spec. lia. }
  destruct H as (C1 & R0 & R1). clear H1.
  destruct (low6_cont _ C1) as [E1 B1]. destruct (low6_cont _ H2) as [E2 B2].
  split; [cbn; lia|]. split; [cbn; lia|]. split.
  - cbn [fst snd Nat.eqb]. apply RuneLen_one. rewrite (lor_low _ _ 6) by done.
    rewrite lor_low by (change (2 ^ 12)%N with (2 ^ 6 * 2 ^ 6)%N; nia).
    change 0x0F%N with (N.ones 4). rewrite (land_top c0 4 (N_of_ascii c0 - 0xE0) 14) by lia.
    apply byte_in_spec in C1, H2. lia.
  - intros _. cbn. apply cont_not_lf in C1, H2. rewrite !not_elem_of_cons. split_and!; [|congruence..|by apply not_elem_of_nil].
    intros <-. cbn in R0. lia.
Qed.

Lemma decode4_ok c0 c1 c2 c3 s :
  (if byte_in 0xF0 0xF0 c0 then byte_in 0x90 0xBF c1
   else if byte_in 0xF4 0xF4 c0 then byte_in 0x80 0x8F c1
   else byte_in 0xF1 0xF3 c0 && continuation c1) = true -> continuation c2 = true -> continuation c3 = true ->
  rune_ok (c0 :: c1 :: c2 :: c3 :: s)
    (N.lor (N.shiftl (N.land (N_of_ascii c0) 0x07) 18) (N.lor (N.shiftl (low6 c1) 12) (N.lor (N.shiftl (low6 c2) 6) (low6 c3))), 4).
Proof.
  intros H1 H2 H3.
  assert (H : continuation c1 = true /\ (0xF0 <= N_of_ascii c0 <= 0xF4)%N /\ (N_of_ascii c0 = 0xF0 -> 0x90 <= N_of_ascii c1)%N
    /\ (N_of_ascii c0 = 0xF4 -> N_of_ascii c1 <= 0x8F)%N).
  { unfold continuation. rewrite byte_in_spec. destruct (byte_in 0xF0 0xF0 c0) eqn:B0.
    - apply byte_in_spec in B0, H1. lia.
    - destruct (byte_in 0xF4 0xF4 c0) eqn:B1; [apply byte_in_spec in B1, H1; lia|].
      apply andb_true_iff in H1 as [H0 H1]. apply byte_in_spec in H0, H1. split; [done|]. lia. }
  destruct H as (C1 & R0 & R1 & R2). clear H1.
  destruct (low6_cont _ C1) as [E1 B1]. destruct (low6_cont _ H2) as [E2 B2]. destruct (low6_cont _ H3) as [E3 B3].
  split; [cbn; lia|]. split; [cbn; lia|]. split.
  - cbn [fst snd Nat.eqb]. apply RuneLen_two. rewrite (lor_low _ (low6 c3) 6) by done.
    rewrite (lor_low _ _ 12) by (change (2 ^ 12)%N with (2 ^ 6 * 2 ^ 6)%N; nia).
    rewrite lor_low by (change (2 ^ 18)%N with (2 ^ 6 * 2 ^ 12)%N; change (2 ^ 12)%N with (2 ^ 6 * 2 ^ 6)%N; nia).
    change 0x07%N with (N.ones 3). rewrite (land_top c0 3 (N_of_ascii c0 - 0xF0) 30) by lia.
    apply byte_in_spec in C1, H2, H3. lia.
  - intros _. cbn. apply cont_not_lf in C1, H2, H3. rewrite !not_elem_of_cons. split_and!; [|congruence..|by apply not_elem_of_nil].
    intros <-. cbn in R0. lia.
Qed.

Lemma DecodeRune_ok s : s <> [] -> rune_ok s (DecodeRune s).
Proof.
  destruct s as [|c0 s]; [done|]. intros _. unfold DecodeRune. destruct (byte_in 0 127 c0) eqn:A0.
  { apply byte_in_spec in A0. split; [cbn; lia|]. split; [cbn; lia|]. split; [|cbn; lia]. cbn [fst snd Nat.eqb]. apply RuneLen_one. lia. }
  destruct s as [|c1 s]; [apply rune_error_ok|].
  destruct (byte_in 0xC2 0xDF c0 && continuation c1) eqn:A1; [apply andb_true_iff in A1 as [? ?]; by apply decode2_ok|].
  destruct s as [|c2 s]; [apply rune_error_ok|]. cbv zeta.
  destruct (_ && continuation c2) eqn:A2; [apply andb_true_iff in A2 as [? ?]; by apply decode3_ok|].
  destruct s as [|c3 s]; [apply rune_error_ok|].
  destruct (_ && continuation c3) eqn:A3; [|apply rune_error_ok].
  apply andb_true_iff in A3 as [[? ?]%andb_true_iff ?]. by apply decode4_ok.
Qed.

(** ** Positions *)

Section positions.
Context (src : bytes).

Definition rune_at (i : nat) : N * nat := DecodeRune (drop i src).
Definition units_at (i : nat) : N := Z.to_N (RuneLen (rune_at i).1).

(** From one rune boundary to another, with the UTF-16 code units between. *)
Inductive runes : nat -> nat -> N -> Prop :=
  | runes_nil i : runes i i 0
  | runes_cons i j u : i < length src -> runes (i + (rune_at i).2) j u -> runes i j (units_at i + u).

Lemma rune_at_ok i : i < length src -> rune_ok (drop i src) (rune_at i).
Proof. intros Hi. apply DecodeRune_ok. intros E. apply (f_equal length) in E. rewrite length_drop in E. cbn in E. lia. Qed.

Lemma rune_at_size i : i < length src -> 1 <= (rune_at i).2 <= 4 /\ i + (rune_at i).2 <= length src.
Proof. intros Hi. destruct (rune_at_ok i Hi) as (H1 & H2 & _). rewrite length_drop in H2. lia. Qed.

Lemma units_at_bounds i : i < length src -> (1 <= units_at i)%N /\ (units_at i <= N.of_nat (rune_at i).2)%N.
Proof.
  intros Hi. destruct (rune_at_ok i Hi) as (H1 & _ & H & _). unfold units_at. rewrite H.
  destruct (Nat.eqb_spec (rune_at i).2 4) as [->|]; [done|]. cbn. lia.
Qed.

Lemma units_mod i : i < length src -> Z.to_N (RuneLen (rune_at i).1 mod 2 ^ 32) = units_at i.
Proof.
  intros Hi. destruct (rune_at_ok i Hi) as (_ & _ & H & _). unfold units_at. rewrite H. by destruct (Nat.eqb _ 4).
Qed.

Lemma runes_bounds i j u : runes i j u -> i <= length src -> i <= j <= length src /\ (u <= N.of_nat (j - i))%N.
Proof.
  induction 1 as [i|i j u Hi Hr IH]; intros Hl; [lia|].
  destruct (rune_at_size i Hi) as [? ?]. destruct (units_at_bounds i Hi) as [_ ?]. destruct IH as [? ?]; lia.
Qed.

(** The runes from an offset to the first boundary not before another. *)
Lemma units_loop_spec fuel i o units : i <= o <= length src -> o - i <= fuel -> (units + N.of_nat (length src - i) < 2 ^ 32)%N ->
  exists e u, runes i e u /\ o <= e < o + 4 /\ (forall j u', runes i j u' -> o <= j -> e <= j) /\
    units_loop src fuel i o units = (units + u)%N /\ (i = o -> e = o).
Proof.
  revert i units. induction fuel as [|fuel IH]; intros i units Hio Hf Hu; cbn [units_loop].
  - exists i, 0%N. split; [constructor|]. split; [lia|]. split; [|split; [lia|lia]].
    intros j u' Hr _. apply runes_bounds in Hr; lia.
  - destruct (Nat.ltb_spec i o) as [Hlt|Hge].
    + destruct (rune_at_size i) as [Hs1 Hs2]; [lia|]. destruct (units_at_bounds i) as [Hu1 Hu2]; [lia|].
      unfold rune_at in *. destruct (DecodeRune (drop i src)) as [r size] eqn:Er. cbn [fst snd] in *.
      assert (Em : Z.to_N (RuneLen r mod 2 ^ 32) = units_at i).
      { pose proof (units_mod i ltac:(lia)) as Em. unfold rune_at in Em. by rewrite Er in Em. }
      rewrite Em. assert (Ew : u32 (units + units_at i) = (units + units_at i)%N).
      { unfold u32. apply N.mod_small. lia. }
      rewrite Ew. destruct (decide (i + size <= o)) as [Hle|Hgt].
      * destruct (IH (i + size) (units + units_at i)%N) as (e & u & Hr & He & Hmin & E & _); [lia..|].
        exists e, (units_at i + u)%N. split; [constructor; [lia|]; unfold rune_at; by rewrite Er|]. split; [done|]. split; [|split; [lia|lia]].
        intros j u' Hj Hoj. inversion Hj as [|? ? u0 Hi Hr']; subst; [lia|]. unfold rune_at in Hr'. rewrite Er in Hr'. by apply (Hmin j u0).
      * exists (i + size), (units_at i + 0)%N. split; [constructor; [lia|]; unfold rune_at; rewrite Er; constructor|]. split; [lia|]. split.
        -- intros j u' Hj Hoj. inversion Hj as [|? ? u0 Hi Hr']; subst; [lia|]. unfold rune_at in Hr'. rewrite Er in Hr'.
           apply runes_bounds in Hr'; cbn in *; lia.
        -- split; [|lia]. rewrite N.add_0_r. destruct fuel; cbn [units_loop]; [done|]. destruct (Nat.ltb_spec (i + size) o); [lia|done].
    + exists i, 0%N. split; [constructor|]. split; [lia|]. split; [|split; [lia|lia]].
      intros j u' Hr _. apply runes_bounds in Hr; lia.
Qed.

(** No line feed between two places. *)
Definition no_lf (i j : nat) : Prop := forall k, i <= k < j -> src !! k <> Some c_lf.

Lemma rune_no_lf i : i < length src -> src !! i <> Some c_lf -> no_lf i (i + (rune_at i).2).
Proof.
  intros Hi Hc k Hk E. destruct (rune_at_ok i Hi) as (_ & _ & _ & H). destruct (decide (k = i)) as [->|Hki]; [done|].
  apply H; [lia|]. apply list_elem_of_lookup. exists (k - i). rewrite lookup_take_lt, lookup_drop by lia. by replace (i + (k - i)) with k by lia.
Qed.

Lemma runes_no_lf i j u o : runes i j u -> o <= j -> (forall e u', runes i e u' -> o <= e -> j <= e) -> no_lf i o -> no_lf i j.
Proof.
  induction 1 as [i|i j u Hi Hr IH]; intros Ho Hmin Hn; [intros k Hk; lia|].
  destruct (decide (o <= i)) as [Hoi|Hoi].
  { exfalso. specialize (Hmin i 0%N (runes_nil i) Hoi). apply runes_bounds in Hr; [|by apply rune_at_size]. destruct (rune_at_size i Hi). lia. }
  assert (H1 : no_lf i (i + (rune_at i).2)) by (apply rune_no_lf; [done|]; apply Hn; lia).
  assert (H2 : no_lf (i + (rune_at i).2) j).
  { apply IH; [done| |].
    - intros e u' He Hoe. apply (Hmin e (units_at i + u')%N); [by constructor|done].
    - intros k Hk. apply Hn. lia. }
  intros k Hk. destruct (decide (k < i + (rune_at i).2)); [apply H1; lia|apply H2; lia].
Qed.

Lemma offset_loop_spec i e u : runes i e u -> no_lf i e -> i <= length src -> (N.of_nat (length src) < 2 ^ 32)%N ->
  forall fuel units, e - i <= fuel -> (units + u <= N.of_nat (length src))%N -> offset_loop src fuel i units (units + u) = e.
Proof.
  intros Hr. induction Hr as [i|i j u Hi Hr IH]; intros Hn Hl Hw fuel units Hf Hu.
  - rewrite N.add_0_r. destruct fuel; [done|]. cbn [offset_loop]. rewrite N.ltb_irrefl, andb_false_r. done.
  - destruct (rune_at_size i Hi) as [Hs1 Hs2]. destruct (units_at_bounds i Hi) as [Hu1 Hu2].
    pose proof (runes_bounds _ _ _ Hr Hs2) as [Hb _].
    destruct fuel as [|fuel]; [lia|]. cbn [offset_loop].
    destruct (Nat.ltb_spec i (length src)) as [_|]; [|lia].
    assert (Hc : byte_is src (fun c => c =b c_lf) i = false).
    { unfold byte_is. destruct (src !! i) as [c|] eqn:E; [|done]. apply Ascii.eqb_neq. intros ->. apply (Hn i); [lia|done]. }
    rewrite Hc. cbn [negb andb]. destruct (N.ltb_spec units (units + (units_at i + u))) as [_|]; [|lia].
    pose proof (units_mod i Hi) as Em. unfold rune_at in Em, IH, Hs1, Hs2, Hr. destruct (DecodeRune (drop i src)) as [r size].
    cbn [fst snd] in *. rewrite Em. assert (Ew : u32 (units + units_at i) = (units + units_at i)%N) by (unfold u32; apply N.mod_small; lia).
    rewrite Ew. destruct (N.ltb_spec (units + (units_at i + u)) (units + units_at i)) as [|_]; [lia|].
    rewrite N.add_assoc. apply IH; [|done..|lia|lia]. intros k Hk. apply Hn. lia.
Qed.

Lemma line_of_unique pre s s' : line_of pre s -> line_of pre s' -> s = s'.
Proof.
  assert (H : forall s s', line_of pre s -> line_of pre s' -> ~ s < s').
  { intros x y (_ & Hx & _) (Hy & _ & Hb) Hlt. destruct Hb as [Hb|Hb]; [lia|]. apply Hx, list_elem_of_lookup. exists (y - 1 - x).
    rewrite lookup_drop. by replace (x + (y - 1 - x)) with (y - 1) by lia. }
  intros H1 H2. pose proof (H _ _ H1 H2). pose proof (H _ _ H2 H1). lia.
Qed.

Lemma count_lf_app a b : count_lf (a ++ b) = count_lf a + count_lf b.
Proof. unfold count_lf. by rewrite List.filter_app, length_app. Qed.

Lemma count_lf_none a : c_lf ∉ a -> count_lf a = 0.
Proof.
  induction a as [|c a IH]; [done|]. rewrite not_elem_of_cons. intros [Hc Ha]. unfold count_lf. cbn.
  destruct (Ascii.eqb_spec c c_lf); [congruence|]. by apply IH.
Qed.

Lemma count_lf_le a : count_lf a <= length a.
Proof. apply List.filter_length_le. Qed.

(** A place further on in the same line. *)
Lemma line_of_further o e s : o <= e <= length src -> line_of (take o src) s -> s <= o -> no_lf s e ->
  line_of (take e src) s /\ count_lf (take e src) = count_lf (take o src).
Proof.
  intros Ho (Hs & Hd & Hb) Hso Hn. split.
  - split; [rewrite length_take; lia|]. split.
    + intros (k & Hk)%list_elem_of_lookup. rewrite lookup_drop in Hk. apply lookup_take_Some in Hk as [Hk Hlt]. apply (Hn (s + k)); [lia|done].
    + destruct Hb as [Hb|Hb]; [by left|right]. apply lookup_take_Some in Hb as [Hb Hlt]. apply lookup_take_Some. split; [done|lia].
  - rewrite <- (take_drop o (take e src)), take_take, Nat.min_l by lia. rewrite count_lf_app, (count_lf_none (drop _ _)); [lia|].
    intros (k & Hk)%list_elem_of_lookup. rewrite lookup_drop in Hk. apply lookup_take_Some in Hk as [Hk Hlt]. apply (Hn (o + k)); [lia|done].
Qed.

Lemma runes_det i j u u' : runes i j u -> runes i j u' -> i <= length src -> u = u'.
Proof.
  intros H. revert u'. induction H as [i|i j u Hi Hr IH]; intros u' H' Hl; inversion H' as [|? ? u0 Hi' Hr']; subst; [done| | |].
  - apply runes_bounds in Hr'; [|by apply rune_at_size]. destruct (rune_at_size i Hi'). lia.
  - apply runes_bounds in Hr; [|by apply rune_at_size]. destruct (rune_at_size _ Hi). lia.
  - f_equal. apply IH; [done|]. by apply rune_at_size.
Qed.

Lemma clamp_nat o : o <= length src -> clamp (length src) (Z.of_nat o) = o.
Proof. unfold clamp. lia. Qed.

Lemma line_no_lf o s : line_of (take o src) s -> o <= length src -> no_lf s o.
Proof.
  intros (Hs & Hd & _) Ho k Hk E. apply Hd, list_elem_of_lookup. exists (k - s). rewrite lookup_drop.
  apply lookup_take_Some. replace (s + (k - s)) with k by lia. split; [done|lia].
Qed.

(** A position is the line of the offset and the loop from the line's start. *)
Lemma position_spec o s : o <= length src -> (N.of_nat (length src) < 2 ^ 32)%N -> line_of (take o src) s -> s <= o ->
  position src (Z.of_nat o) = Ok (mkPosition (N.of_nat (count_lf (take o src))) (units_loop src (length src) s o 0)).
Proof.
  intros Ho Hw Hs Hso. unfold position. rewrite !clamp_nat by done.
  destruct (LineCol_spec src (Z.of_nat o)) as (s' & Hs' & Hso' & E & _). rewrite clamp_nat in Hs', Hso', E by done.
  unfold LineCol in E. rewrite (line_of_unique _ _ _ Hs' Hs) in E. rewrite E. cbn [rbind]. f_equal. f_equal.
  - unfold u32. rewrite N.mod_small; [f_equal; lia|]. pose proof (count_lf_le (take o src)) as H. rewrite length_take in H. lia.
  - f_equal. lia.
Qed.

Lemma position_clamp off : position src off = position src (Z.of_nat (clamp (length src) off)).
Proof. unfold position. rewrite clamp_nat; [done|]. unfold clamp. lia. Qed.
End positions.

(** C37: positions go there and back.  In a source that a 32-bit position can
    count, the position of an offset is the number of line feeds before it and
    the UTF-16 code units from the start of its line to the first rune boundary
    not before it - itself unless it is inside a rune, in which case the end of
    that rune, at most three bytes on; and the offset of the position is that
    boundary, whose own position it is. *)
Theorem positions_roundtrip src off : (N.of_nat (length src) < 2 ^ 32)%N ->
  let o := clamp (length src) off in
  exists s e u,
    position src off = Ok (mkPosition (N.of_nat (count_lf (take o src))) u) /\
    line_of (take o src) s /\ runes src s e u /\ o <= e < o + 4 /\ (forall j u', runes src s j u' -> o <= j -> e <= j) /\
    offset src (mkPosition (N.of_nat (count_lf (take o src))) u) = e /\
    position src (Z.of_nat e) = Ok (mkPosition (N.of_nat (count_lf (take o src))) u).
Proof.
  intros Hw o. assert (Ho : o <= length src) by (unfold o, clamp; lia).
  destruct (LineCol_spec src off) as (s & Hs & Hso & _ & Hlk). fold o in Hs, Hso, Hlk.
  destruct (units_loop_spec src (length src) s o 0) as (e & u & Hr & He & Hmin & Eu & _); [lia..|].
  rewrite N.add_0_l in Eu. exists s, e, u.
  destruct (runes_bounds _ _ _ _ Hr) as [Hse Hu]; [lia|].
  assert (Hn : no_lf src s e) by (apply (runes_no_lf src s e u o); [done|lia|done|by apply line_no_lf]).
  destruct (line_of_further src o e s) as [Hs' Hcount]; [lia|done..|].
  split; [rewrite position_clamp; fold o; by rewrite (position_spec src o s), Eu|].
  do 4 (split; [done|]). split.
  - unfold offset. cbn [PLine PCharacter]. unfold LineStartOffset.
    replace (Z.to_nat (Z.of_N (N.of_nat (count_lf (take o src))))) with (count_lf (take o src)) by lia.
    rewrite Hlk. apply (offset_loop_spec src s e u Hr Hn ltac:(lia) Hw); lia.
  - rewrite (position_spec src e s), Hcount by (done || lia). f_equal. f_equal.
    destruct (units_loop_spec src (length src) s e 0) as (e' & u' & Hr' & He' & Hmin' & Eu' & _); [lia..|].
    assert (e' = e) as -> by (specialize (Hmin' e u Hr); lia).
    rewrite N.add_0_l in Eu'. rewrite Eu'. apply (runes_det src s e); [done|done|lia].
Qed.

(** A source of two lines, the second with runes of two and of four bytes, and an
    offset inside the last. *)
Definition wide_source : bytes := bs "a" ++ [c_lf; "b"; "195"; "169"; "240"; "159"; "152"; "128"; "c"]%char.

Lemma positions_roundtrip_witness :
  position wide_source 6 = Ok (mkPosition 1 4) /\ offset wide_source (mkPosition 1 4) = 9 /\
  exists s e u,
    position wide_source 6 = Ok (mkPosition (N.of_nat (count_lf (take 6 wide_source))) u) /\
    line_of (take 6 wide_source) s /\ runes wide_source s e u /\ 6 <= e < 6 + 4 /\ (forall j u', runes wide_source s j u' -> 6 <= j -> e <= j) /\
    offset wide_source (mkPosition (N.of_nat (count_lf (take 6 wide_source))) u) = e /\
    position wide_source (Z.of_nat e) = Ok (mkPosition (N.of_nat (count_lf (take 6 wide_source))) u).
Proof.
  split; [by vm_compute|]. split; [by vm_compute|]. apply (positions_roundtrip wide_source 6). by vm_compute.
Defined.

(** ** Excerpts *)

Section excerpts.
Context (src : bytes).

(** The bytes that are no continuation: the starts of characters. *)
Definition leads (s : bytes) : nat := length (List.filter (fun c => negb (continuation c)) s).

Lemma leads_app a b : leads (a ++ b) = leads a + leads b.
Proof. unfold leads. by rewrite List.filter_app, length_app. Qed.

Lemma slice_split a b c : a <= b <= c -> slice src a c = slice src a b ++ slice src b c.
Proof. intros H. symmetry. apply slice_app; lia. Qed.

Lemma slice_one i c : src !! i = Some c -> slice src i (S i) = [c].
Proof. intros E. unfold slice. replace (S i - i) with 1 by lia. by rewrite (drop_S src c i E). Qed.

Lemma leads_one i : leads (slice src i (S i)) <= 1.
Proof.
  destruct (src !! i) as [c|] eqn:E.
  - rewrite (slice_one i c E). unfold leads. cbn [List.filter]. destruct (negb (continuation c)); cbn; lia.
  - unfold slice. rewrite drop_ge by (by apply lookup_ge_None). rewrite take_nil. cbn. lia.
Qed.

Lemma leads_cont i : byte_is src continuation i = true -> leads (slice src i (S i)) = 0.
Proof.
  unfold byte_is. destruct (src !! i) as [c|] eqn:E; [|done]. intros Hc. rewrite (slice_one i c E). unfold leads. cbn. by rewrite Hc.
Qed.

Lemma back_continuation_spec pos lo : lo <= pos ->
  let p := back_continuation src pos lo in lo <= p <= pos /\ leads (slice src (S p) (S pos)) = 0.
Proof.
  induction pos as [|pos IH]; intros Hlo; cbn [back_continuation].
  - split; [lia|]. unfold slice. by rewrite Nat.sub_diag.
  - destruct (Nat.ltb_spec lo (S pos)) as [Hlt|Hge]; cbn [andb].
    + destruct (byte_is src continuation (S pos)) eqn:E.
      * destruct IH as [H1 H2]; [lia|]. split; [lia|]. rewrite (slice_split _ (S pos)) by lia. rewrite leads_app, H2, leads_cont; done.
      * split; [lia|]. unfold slice. by rewrite Nat.sub_diag.
    + split; [lia|]. unfold slice. by rewrite Nat.sub_diag.
Qed.

Lemma backRunes_spec n pos lo : lo <= pos ->
  let p := backRunes src n pos lo in lo <= p <= pos /\ leads (slice src p pos) <= n.
Proof.
  revert pos. induction n as [|n IH]; intros pos Hlo; cbn [backRunes].
  - split; [lia|]. rewrite slice_nil. apply Nat.le_0_l.
  - destruct (Nat.ltb_spec lo pos) as [Hlt|Hge].
    + destruct (back_continuation_spec (pos - 1) lo) as [H1 H2]; [lia|]. set (p := back_continuation src (pos - 1) lo) in *.
      destruct (IH p) as [H3 H4]; [lia|]. split; [lia|]. rewrite (slice_split _ p) by lia. rewrite leads_app.
      rewrite (slice_split p (S p)) by lia. rewrite leads_app. replace (S (pos - 1)) with pos in H2 by lia.
      pose proof (leads_one p). lia.
    + split; [lia|]. rewrite slice_nil. apply Nat.le_0_l.
Qed.

Lemma fwd_continuation_spec fuel pos hi : pos <= hi ->
  let p := fwd_continuation src fuel pos hi in pos <= p <= hi /\ leads (slice src pos p) = 0.
Proof.
  revert pos. induction fuel as [|fuel IH]; intros pos Hhi; cbn [fwd_continuation].
  - split; [lia|]. unfold slice. by rewrite Nat.sub_diag.
  - destruct (Nat.ltb_spec pos hi) as [Hlt|Hge]; cbn [andb].
    + destruct (byte_is src continuation pos) eqn:E.
      * destruct (IH (S pos)) as [H1 H2]; [lia|]. split; [lia|]. rewrite (slice_split _ (S pos)) by lia. by rewrite leads_app, H2, leads_cont.
      * split; [lia|]. unfold slice. by rewrite Nat.sub_diag.
    + split; [lia|]. unfold slice. by rewrite Nat.sub_diag.
Qed.

Lemma fwdRunes_spec n pos hi : pos <= hi ->
  let p := fwdRunes src n pos hi in pos <= p <= hi /\ leads (slice src pos p) <= n.
Proof.
  revert pos. induction n as [|n IH]; intros pos Hhi; cbn [fwdRunes].
  - split; [lia|]. rewrite slice_nil. apply Nat.le_0_l.
  - destruct (Nat.ltb_spec pos hi) as [Hlt|Hge].
    + destruct (fwd_continuation_spec (hi - pos) (S pos) hi) as [H1 H2]; [lia|]. set (p := fwd_continuation src (hi - pos) (S pos) hi) in *.
      destruct (IH p) as [H3 H4]; [lia|]. split; [lia|]. rewrite (slice_split _ p) by lia. rewrite leads_app.
      rewrite (slice_split pos (S pos)) by lia. rewrite leads_app. pose proof (leads_one pos). lia.
    + split; [lia|]. rewrite slice_nil. apply Nat.le_0_l.
Qed.

Lemma rune_count_fuel f s : length s <= f -> rune_count f s = rune_count (length s) s.
Proof.
  revert s. induction f as [f IH] using lt_wf_ind. intros s Hf. destruct s as [|c s]; [by destruct f|].
  destruct f as [|f]; [cbn in Hf; lia|]. cbn [rune_count length] in *. f_equal.
  destruct (DecodeRune_ok (c :: s)) as (H1 & _); [done|].
  assert (Hd : length (drop (DecodeRune (c :: s)).2 (c :: s)) <= length s) by (rewrite length_drop; cbn [length]; lia).
  rewrite (IH f) by lia. rewrite (IH (length s)) by lia. done.
Qed.

Lemma RuneCount_ellipsis s : RuneCount (ellipsis ++ s) = S (RuneCount s).
Proof.
  unfold RuneCount. transitivity (S (rune_count (S (S (length s))) s)); [reflexivity|].
  f_equal. apply rune_count_fuel. lia.
Qed.

(** An excerpt of a line: what it shows of the line around a span, between
    ellipses where it is cut. *)
Record excerpt_of (lineStart lineEnd start capEnd : nat) (r : bytes * nat * nat) (a b c : nat) : Prop := {
  ex_bounds : lineStart <= a <= start /\ start <= b <= capEnd /\ b <= c <= lineEnd;
  ex_text : r.1.1 = (if Nat.ltb lineStart a then ellipsis else []) ++ slice src a start ++ slice src start b ++ slice src b c
                    ++ (if Nat.ltb c lineEnd then ellipsis else []);
  ex_padding : r.1.2 = RuneCount ((if Nat.ltb lineStart a then ellipsis else []) ++ slice src a start);
  ex_carets : r.2 = Nat.max (RuneCount (slice src start b)) 1;
  ex_whole : lineEnd - lineStart <= excerptFullMaxBytes -> a = lineStart /\ b = capEnd /\ c = lineEnd;
  ex_window : excerptFullMaxBytes < lineEnd - lineStart ->
    leads (slice src a start) <= excerptCtxRunes /\ leads (slice src start b) <= excerptMaxCaretRunes /\
    leads (slice src b c) <= excerptCtxRunes;
}.

Lemma excerptLine_spec lineStart lineEnd start capEnd : lineStart <= start <= capEnd -> capEnd <= lineEnd ->
  exists a b c, excerpt_of lineStart lineEnd start capEnd (excerptLine src lineStart lineEnd start capEnd) a b c.
Proof.
  intros H1 H2. unfold excerptLine. destruct (Nat.leb_spec (lineEnd - lineStart) excerptFullMaxBytes) as [Hl|Hl].
  - exists lineStart, capEnd, lineEnd.
    split; cbn [fst snd]; rewrite ?Nat.ltb_irrefl; cbn [app]; [lia| |done|done|done|lia].
    by rewrite app_nil_r, (slice_split lineStart start lineEnd), (slice_split start capEnd lineEnd) by lia.
  - destruct (fwdRunes_spec excerptMaxCaretRunes start capEnd) as [Hb Lb]; [lia|].
    destruct (backRunes_spec excerptCtxRunes start lineStart) as [Ha La]; [lia|].
    set (b := fwdRunes src excerptMaxCaretRunes start capEnd) in *. set (a := backRunes _ _ _ _) in *.
    destruct (fwdRunes_spec excerptCtxRunes b lineEnd) as [Hc Lc]; [lia|]. set (c := fwdRunes src excerptCtxRunes b lineEnd) in *.
    exists a, b, c. split; cbn [fst snd].
    + lia.
    + rewrite (slice_split a start c), (slice_split start b c), <- !app_assoc by lia. done.
    + destruct (Nat.ltb lineStart a); [by rewrite RuneCount_ellipsis|done].
    + done.
    + lia.
    + done.
Qed.

Lemma line_begin_spec pos : pos <= length src -> line_of (take pos src) (line_begin src pos) /\ line_begin src pos <= pos.
Proof.
  induction pos as [|pos IH]; intros Hp; cbn [line_begin].
  - split; [|lia]. split; [cbn; lia|]. split; [apply not_elem_of_nil|by left].
  - unfold byte_is. destruct (src !! pos) as [c|] eqn:E; [|apply lookup_ge_None in E; lia].
    assert (Et : take (S pos) src = take pos src ++ [c]) by by apply take_S_r.
    destruct (Ascii.eqb_spec c c_lf) as [->|Hc].
    + split; [|lia]. split; [rewrite length_take; lia|]. split; [rewrite drop_ge by (rewrite length_take; lia); apply not_elem_of_nil|].
      right. apply lookup_take_Some. split; [by rewrite Nat.sub_1_r|lia].
    + destruct IH as [(Hs & Hd & Hb) Hl]; [lia|]. split; [|lia]. rewrite length_take in Hs. split; [rewrite length_take; lia|]. split.
      * rewrite Et, drop_app_le by (rewrite length_take; lia). rewrite elem_of_app, list_elem_of_singleton. intros [H|H]; [by apply Hd|congruence].
      * destruct Hb as [Hb|Hb]; [by left|right]. apply lookup_take_Some in Hb as [Hb Hlt]. apply lookup_take_Some. split; [done|lia].
Qed.

Lemma line_end_spec fuel pos : pos <= length src -> length src - pos <= fuel ->
  let e := line_end src fuel pos in pos <= e <= length src /\ no_lf src pos e /\ (e = length src \/ src !! e = Some c_lf).
Proof.
  revert pos. induction fuel as [|fuel IH]; intros pos Hp Hf; cbn [line_end].
  - split; [lia|]. split; [intros k Hk; lia|left; lia].
  - destruct (Nat.ltb_spec pos (length src)) as [Hlt|Hge]; cbn [andb].
    + unfold byte_is. destruct (src !! pos) as [c|] eqn:E; [|apply lookup_ge_None in E; lia].
      destruct (Ascii.eqb_spec c c_lf) as [->|Hc]; cbn [negb].
      * split; [lia|]. split; [intros k Hk; lia|by right].
      * destruct (IH (S pos)) as (H1 & H2 & H3); [lia..|]. split; [lia|]. split; [|done].
        intros k Hk. destruct (decide (k = pos)) as [->|]; [congruence|]. apply H2. lia.
    + split; [lia|]. split; [intros k Hk; lia|left; lia].
Qed.
End excerpts.

(** Excerpts show the right text, and rendering a report never panics.
    [RenderExcerpt] of a report inside the source is the headline with its line
    and column, the line of the source that holds its offset, and carets under
    it: as many blanks as the excerpt has runes before the offset and as many
    carets as it has runes of the span, one at least.  A line of at most 320 bytes is
    shown whole; of a longer one, at most 48 characters before the offset, 160
    of the span and 48 after, between ellipses where it is cut.  A report at the
    end of the source, or beyond, is its headline. *)
Theorem excerpt_exact (Sprintf : bytes -> list Arg -> bytes) (src : bytes) (d : Diagnostic) : let start := Nat.min (SStart (DSpan d)) (length src) in
  exists line col, LineCol src (Z.of_nat start) = Ok (line, col) /\
    if decide (start = length src) then RenderExcerpt src Sprintf d = Ok (headline Sprintf d line col ++ help Sprintf d)
    else
      exists lineStart lineEnd capEnd r a b c,
        line_of (take start src) lineStart /\ no_lf src lineStart lineEnd /\ start <= lineEnd /\
        (lineEnd = length src \/ src !! lineEnd = Some c_lf) /\
        start <= capEnd <= lineEnd /\ (start < SEnd (DSpan d) <= lineEnd -> capEnd = SEnd (DSpan d)) /\
        excerpt_of src lineStart lineEnd start capEnd r a b c /\
        RenderExcerpt src Sprintf d =
          Ok (headline Sprintf d line col ++ [c_lf]
              ++ repeat " "%char (length (dec line)) ++ bs " |" ++ [c_lf]
              ++ dec line ++ bs " | " ++ r.1.1 ++ [c_lf]
              ++ repeat " "%char (length (dec line)) ++ bs " | " ++ repeat " "%char r.1.2 ++ repeat "^"%char r.2 ++ help Sprintf d).
Proof.
  intros start. destruct (LineCol_spec src (Z.of_nat start)) as (s & Hs & Hso & E & _).
  rewrite clamp_nat in Hs, Hso, E by lia. exists (S (count_lf (take start src))), (S (start - s)). split; [done|].
  unfold LineCol in E. unfold RenderExcerpt, RenderExcerptWith. fold start. case_decide as Hd.
  - destruct (Nat.leb_spec (length src) start) as [_|]; [|lia]. unfold RenderWith. cbn [DSpan SStart]. by rewrite E.
  - destruct (Nat.leb_spec (length src) start) as [|Hlt]; [lia|]. rewrite E. cbn [rbind].
    destruct (line_begin_spec src start) as [Hb Hbl]; [lia|].
    destruct (line_end_spec src (length src) start) as (He & Hn & Hel); [lia..|].
    set (lineStart := line_begin src start) in *. set (lineEnd := line_end src (length src) start) in *.
    set (end_ := Nat.min (Nat.max (SEnd (DSpan d)) start) (length src)).
    set (spanEnd := if Nat.ltb lineEnd end_ || Nat.leb end_ start then start + 1 else end_).
    assert (Hse : start <= spanEnd).
    { unfold spanEnd. destruct (Nat.ltb lineEnd end_); cbn; [lia|]. destruct (Nat.leb_spec end_ start); lia. }
    destruct (excerptLine_spec src lineStart lineEnd start (Nat.min lineEnd spanEnd)) as (a & b & c & Hex); [lia..|].
    exists lineStart, lineEnd, (Nat.min lineEnd spanEnd), (excerptLine src lineStart lineEnd start (Nat.min lineEnd spanEnd)), a, b, c.
    split; [done|]. split.
    { intros k Hk. destruct (decide (k < start)); [apply (line_no_lf src start lineStart Hb); lia|apply Hn; lia]. }
    split; [lia|]. split; [done|]. split; [lia|]. split.
    { intros Hspan. unfold spanEnd, end_. destruct (Nat.ltb_spec lineEnd (Nat.min (Nat.max (SEnd (DSpan d)) start) (length src))); cbn; [lia|].
      destruct (Nat.leb_spec (Nat.min (Nat.max (SEnd (DSpan d)) start) (length src)) start); lia. }
    split; [done|]. destruct (excerptLine src lineStart lineEnd start (Nat.min lineEnd spanEnd)) as [[text prefix] carets]. done.
Qed.
