(* ===== verification/R1.v ===== *)
(** * R1

    [internal/rules/r1.go]: every fragment is one complete node of its slot, and
    every rendering is one statement.  The front end is an argument; offsets are
    those of its parse trees. *)

From S2P Require Import Prelude Dialect Template Render Diagnostics Frontend Policy.

Definition CodeRenderingParse : bytes := bs "SQLETCH100".
Definition CodeJoinTypeForbidden : bytes := bs "SQLETCH101".
Definition CodeNodeIncomplete : bytes := bs "SQLETCH102".
Definition CodeNotSingleDML : bytes := bs "SQLETCH103".
Definition CodeOrderByDistinct : bytes := bs "SQLETCH122".
Definition CodeOrderByNeedsDflt : bytes := bs "SQLETCH123".

(** [JoinType.String] *)
Definition JoinType_String (j : JoinType) : bytes :=
  bs match j with
     | JoinBase => "FROM item" | JoinInner => "INNER JOIN" | JoinLeft => "LEFT JOIN" | JoinRight => "RIGHT JOIN"
     | JoinFull => "FULL JOIN" | JoinCross => "CROSS JOIN" | JoinOther => "join"
     end.

Definition incomplete (span : Span) (format : string) (args : list Arg) : Diagnostic := Errorf CodeNodeIncomplete span format args.

Section r1.
Context (profile : LexerProfile) (fe : Frontend).

(** The copies in this package of the policies' [balancedParens] and
    [rewriteParams]. *)
Definition balanced (body : bytes) : bool := balancedParens profile body.
Definition rewrite (body : bytes) : bytes := rewriteParams profile body.

(** ** Probes *)

(** The two reports of a probe: of unbalanced parentheses, and of a text that is
    not one node. *)
Definition probe_body (probe : bytes -> option FeError) (unbalanced : string) (bad : Arg -> Diagnostic) (span : Span) (body : bytes) : list Diagnostic :=
  if negb (balanced body) then [incomplete span unbalanced []]
  else match probe (rewrite body) with
       | Some e => [bad (probeMsg e)]
       | None => []
       end.

Definition probeConjunct (v : IfPresent) : list Diagnostic :=
  probe_body (ProbeExpr fe) "fragment has unbalanced parentheses; it must form one complete predicate (R1)"
    (fun m => incomplete (IPBodySpan v) "fragment must be a single predicate expression (R1): %s" [m]) (IPBodySpan v) (IPBody v).
Definition probeJoin (v : IfPresent) : list Diagnostic :=
  probe_body (ProbeJoinItem fe) "fragment has unbalanced parentheses; it must form one complete join item (R1)"
    (fun m => incomplete (IPBodySpan v) "fragment must be a single join item (R1): %s" [m]) (IPBodySpan v) (IPBody v).
Definition probeSetItem (v : IfPresent) : list Diagnostic :=
  probe_body (ProbeSetItem fe) "fragment has unbalanced parentheses; it must form one complete SET assignment (R1)"
    (fun m => incomplete (IPBodySpan v) "fragment must be a single SET assignment (R1): %s" [m]) (IPBodySpan v) (IPBody v).
Definition probeInsertValue (v : IfPresent) : list Diagnostic :=
  probe_body (ProbeInsertValue fe) "fragment has unbalanced parentheses; it must form one complete VALUES item (R1)"
    (fun m => incomplete (IPBodySpan v) "fragment must be a single VALUES item (R1): %s" [m]) (IPBodySpan v) (IPBody v).

(** The probe of a choose block's slot. *)
Definition choose_probe (c : Choose) : option ((bytes -> option FeError) * bytes) :=
  match ChSlot c with
  | SlotOrderBy => Some (ProbeOrderBy fe, bs "one ORDER BY clause")
  | SlotGroupBy => Some (ProbeGroupBy fe, bs "one GROUP BY clause")
  | SlotProjExpr => Some (ProbeExpr fe, bs "one expression")
  | _ => None
  end.
Definition check_case (probe : bytes -> option FeError) (what : bytes) (cs : ChooseCase) : list Diagnostic :=
  match CCBody cs with
  | [] => []
  | body => probe_body probe "@case body has unbalanced parentheses (R1)"
              (fun m => incomplete (CCSpan cs) "@case body must be exactly %s (R1): %s" [AStr what; m]) (CCSpan cs) body
  end.
Definition probeChooseCases (c : Choose) : list Diagnostic :=
  match choose_probe c with
  | None => []
  | Some (probe, what) =>
      concat (check_case probe what <$> ChCases c) ++ match ChDefault c with Some d => check_case probe what d | None => [] end
  end.

Definition probe_key (k : OrderKey) : list Diagnostic :=
  match OKBody k with
  | [] => []
  | body => probe_body (ProbeOrderByKey fe) "@key body has unbalanced parentheses (R1)"
              (fun m => incomplete (OKSpan k) "@key body must be exactly one sort key (R1): %s" [m]) (OKSpan k) body
  end.
Definition probeOrderKeys (o : OrderBy) : list Diagnostic :=
  concat (probe_key <$> ObKeys o)
  ++ match ObDefault o with
     | Some d =>
         match CCBody d with
         | [] => []
         | body => match ProbeOrderBy fe (rewrite body) with
                   | Some e => [incomplete (CCSpan d) "the @order-by @default body must be exactly one ORDER BY clause (R1): %s" [probeMsg e]]
                   | None => []
                   end
         end
     | None => []
     end.

Definition probe_predicate (pr : Predicate) : list Diagnostic :=
  match PrBody pr with
  | [] => []
  | body => probe_body (ProbeExpr fe) "@predicate body has unbalanced parentheses (R1)"
              (fun m => incomplete (PrSpan pr) "@predicate body must be a single boolean expression (R1): %s" [m]) (PrSpan pr) body
  end.

Definition probe_item (it : Item) : list Diagnostic :=
  match it with
  | IIfPresent v =>
      match IPSlot v with
      | SlotWhereConjunct | SlotHavingConjunct => probeConjunct v
      | SlotJoinItem => probeJoin v
      | SlotSetItem => probeSetItem v
      | SlotInsertValue => probeInsertValue v
      | _ => []
      end
  | IChoose c => probeChooseCases c
  | IOrderBy o => probeOrderKeys o
  | IFilterTree f => concat (probe_predicate <$> FtPredicates f)
  | _ => []
  end.

(** ** Renderings *)

Section query.
Context (q : QueryTemplate).

Definition parse_rendering (r : Rendering) : list Diagnostic * option Tree :=
  match Parse fe (RSQL r) with
  | Err e =>
      let span := match e with
                  | ParseError pos _ => let tOff := (template_at r pos).1 in mkSpan (SFile (QHeaderSpan q)) tOff (tOff + 1)
                  | OtherError _ => QHeaderSpan q
                  end in
      ([Errorf CodeRenderingParse span "generated SQL does not parse: %s" [probeMsg e]], None)
  | Ok tree =>
      if negb (Z.eqb (StmtCount tree) 1) || bool_decide (TKind tree = StmtOther) then
        ([Errorf CodeNotSingleDML (QHeaderSpan q) "a query must be exactly one SELECT/UPDATE/INSERT/DELETE statement" []], None)
      else ([], Some tree)
  end.

(** ** Membership *)

Definition setOpUnsupported (span : Span) (what : string) : Diagnostic :=
  WithHint "move the optional part into a WHERE/HAVING conjunct of the operand, or split the statement into separate queries"
    (incomplete span "%s cannot be used in a UNION/INTERSECT/EXCEPT statement (R1): only optional WHERE/HAVING conjuncts may sit inside a set-operation operand" [AStr (bs what)]).

Definition conjunctSlotLocs (tree : Tree) : list Z * list Z :=
  match SetOpBranches tree with
  | None => (TopConjunctLocs tree, HavingConjunctLocs tree)
  | Some branches => (concat (TopConjunctLocs <$> branches), concat (HavingConjunctLocs <$> branches))
  end.

Definition checkConjunctMembership (locs : list Z) (clause : string) (span : Span) (fr : FragRange) : list Diagnostic :=
  let n := count_in fr locs in
  if Nat.eqb n 1 then [] else [incomplete span "fragment maps to %d %s conjuncts, want exactly 1 (R1)" [AInt (Z.of_nat n); AStr (bs clause)]].

(** The relations of a join fragment, those without an offset left out. *)
Definition frag_relations (tree : Tree) (fr : FragRange) : list RelRef :=
  base.filter (fun rel => RLoc rel <> (-1)%Z /\ in_frag (RLoc rel) fr = true) (Relations tree).

Definition checkJoinMembership (tree : Tree) (v : IfPresent) (fr : FragRange) : list Diagnostic :=
  let rels := frag_relations tree fr in
  let hasDerived := existsb (fun rel => Z.eqb (RLoc rel) (-1)) (Relations tree) in
  concat ((fun rel => match RJoin rel with
                      | JoinInner | JoinLeft => []
                      | j => [Errorf CodeJoinTypeForbidden (IPBodySpan v)
                               "optional joins must be INNER or LEFT; %s null-extends or multiplies skeleton rows, which would change result nullability per shape (R2)"
                               [AStr (JoinType_String j)]]
                      end) <$> rels)
  ++ match rels with
     | [_] => []
     | [] =>
         if hasDerived then [incomplete (IPBodySpan v) "fragment introduces a derived table or function whose columns cannot be attributed to the guard; an optional join must be a named relation (R1)" []]
         else [incomplete (IPBodySpan v) "fragment does not introduce a relation in the FROM clause (R1)" []]
     | _ => [incomplete (IPBodySpan v) "fragment introduces %d relations; an optional join must be exactly one join item (R1)" [AInt (Z.of_nat (length rels))]]
     end.

Definition check_fragment (tree : Tree) (fr : FragRange) : list Diagnostic :=
  let setOp := match SetOpBranches tree with Some _ => true | None => false end in
  let '(whereLocs, havingLocs) := conjunctSlotLocs tree in
  match FRItem fr with
  | IFilterTree v => if setOp then [setOpUnsupported (FtSpan v) "a @filter-tree"] else []
  | IIfPresent v =>
      match IPSlot v with
      | SlotJoinItem => if setOp then [setOpUnsupported (IPSpan v) "an optional join"] else checkJoinMembership tree v fr
      | SlotWhereConjunct => checkConjunctMembership whereLocs "WHERE" (IPBodySpan v) fr
      | SlotHavingConjunct => checkConjunctMembership havingLocs "HAVING" (IPBodySpan v) fr
      | _ => []
      end
  | _ => []
  end.

(** The construct that owns the ORDER BY clause. *)
Definition order_owner (fr : FragRange) : option Span :=
  match FRItem fr with
  | IChoose v => if bool_decide (ChSlot v = SlotOrderBy) then Some (ChSpan v) else None
  | IOrderBy v => Some (ObSpan v)
  | _ => None
  end.
Fixpoint first_owner (frags : list FragRange) : option (FragRange * Span) :=
  match frags with
  | [] => None
  | fr :: frags => match order_owner fr with Some span => Some (fr, span) | None => first_owner frags end
  end.
Definition checkOrderByContainment (tree : Tree) (r : Rendering) : list Diagnostic :=
  match first_owner (RFrags r) with
  | None => []
  | Some (fr, span) =>
      if forallb (fun loc => in_frag loc fr) (OrderByLocs tree) then []
      else [incomplete span "a sort key outside the construct coexists with its ORDER BY (R1); the statement may have only one ORDER BY owner" []]
  end.

(** The filter tree of an empty-tree rendering must be one whole conjunct. *)
Definition filter_frags (frags : list FragRange) : list (FragRange * FilterTree) :=
  omap (fun fr => match FRItem fr with IFilterTree ft => Some (fr, ft) | _ => None end) frags.
Definition check_empty_tree (tree : Tree) (r : Rendering) : list Diagnostic :=
  match RKind r, filter_frags (RFrags r) !! RTreeIdx r with
  | RenderTreeEmpty, Some (fr, ft) =>
      let '(locs, clause) := if bool_decide (FtSlot ft = SlotHavingConjunct) then (HavingConjunctLocs tree, bs "HAVING") else (TopConjunctLocs tree, bs "WHERE") in
      let n := count_in fr locs in
      if Nat.eqb n 1 then []
      else [WithHint "give the construct its own conjunct: an unconditional `TRUE` anchor, then `AND @filter-tree(...)`"
             (incomplete (FtSpan ft) "@filter-tree does not occupy one whole %s conjunct: its empty rendering TRUE maps to %d top-level conjuncts, want exactly 1 (R1)"
                [AStr clause; AInt (Z.of_nat n)])]
  | _, _ => []
  end.

(** Restrictions of [@order-by]. *)
Definition check_order_item (tree : Tree) (it : Item) : list Diagnostic :=
  match it with
  | IOrderBy o =>
      (if HasDistinctOn tree then
         [WithHint "use @choose with whole ORDER BY clauses instead"
           (Errorf CodeOrderByDistinct (ObSpan o) "@order-by cannot be combined with DISTINCT ON: its ORDER BY validity depends on key order and prefix, which breaks the subset/permutation argument" [])]
       else [])
      ++ (if HasFetchWithTies tree && match ObDefault o with None => true | Some _ => false end then
            [Errorf CodeOrderByNeedsDflt (ObSpan o) "FETCH FIRST … WITH TIES makes ORDER BY mandatory; declare an @order-by @default so the clause can never vanish" []]
          else [])
  | _ => []
  end.

(** ** CheckR1

    The first rendering is the maximal one; indexing an empty list panics. *)
Definition CheckR1 (rs : list Rendering) : result IndexPanic (list Diagnostic) :=
  let probes := concat (probe_item <$> QItems q) in
  let parsed := parse_rendering <$> rs in
  let diags := probes ++ concat (fst <$> parsed) in
  let trees := zip rs (snd <$> parsed) in
  match trees with
  | [] => Err IndexOutOfRange
  | (_, None) :: _ => Ok diags
  | (maxR, Some maxTree) :: _ =>
      let setOp := match SetOpBranches maxTree with Some _ => true | None => false end in
      let each (f : Tree -> Rendering -> list Diagnostic) := concat ((fun x => match x.2 with Some tree => f tree x.1 | None => [] end) <$> trees) in
      Ok (diags ++ concat (check_fragment maxTree <$> RFrags maxR)
          ++ each checkOrderByContainment
          ++ (if setOp then [] else each check_empty_tree)
          ++ concat (check_order_item maxTree <$> QItems q))
  end.
End query.
End r1.

(** ** R1Theorems

    What the absence of reports of [CheckR1] says: every fragment is one whole
    node of the slot it stands in. *)

Section spec.
Context (profile : LexerProfile) (fe : Frontend).

(** A text the front end accepts as one node, and whose parentheses pair up. *)
Definition one_node (probe : bytes -> option FeError) (body : bytes) : Prop :=
  balanced profile body = true /\ probe (rewrite profile body) = None.

(** An empty body stands for no text at all. *)
Definition empty_or_node (probe : bytes -> option FeError) (body : bytes) : Prop := body <> [] -> one_node probe body.

Definition case_bodies (c : Choose) : list bytes := CCBody <$> ChCases c ++ match ChDefault c with Some d => [d] | None => [] end.

(** The bodies of a construct are nodes of its slot. *)
Definition item_whole (it : Item) : Prop :=
  match it with
  | IIfPresent v =>
      match IPSlot v with
      | SlotWhereConjunct | SlotHavingConjunct => one_node (ProbeExpr fe) (IPBody v)
      | SlotJoinItem => one_node (ProbeJoinItem fe) (IPBody v)
      | SlotSetItem => one_node (ProbeSetItem fe) (IPBody v)
      | SlotInsertValue => one_node (ProbeInsertValue fe) (IPBody v)
      | _ => True
      end
  | IChoose c =>
      match ChSlot c with
      | SlotOrderBy => Forall (empty_or_node (ProbeOrderBy fe)) (case_bodies c)
      | SlotGroupBy => Forall (empty_or_node (ProbeGroupBy fe)) (case_bodies c)
      | SlotProjExpr => Forall (empty_or_node (ProbeExpr fe)) (case_bodies c)
      | _ => True
      end
  | IOrderBy o =>
      Forall (empty_or_node (ProbeOrderByKey fe)) (OKBody <$> ObKeys o) /\
      (forall d, ObDefault o = Some d -> CCBody d <> [] -> ProbeOrderBy fe (rewrite profile (CCBody d)) = None)
  | IFilterTree f => Forall (empty_or_node (ProbeExpr fe)) (PrBody <$> FtPredicates f)
  | _ => True
  end.

(** A rendering is one SELECT, UPDATE, INSERT or DELETE, with this parse tree. *)
Definition single_dml (r : Rendering) (tree : Tree) : Prop :=
  Parse fe (RSQL r) = Ok tree /\ StmtCount tree = 1%Z /\ TKind tree <> StmtOther.

(** Exactly one of the offsets lies in the fragment. *)
Definition one_start (fr : FragRange) (locs : list Z) : Prop :=
  exists i loc, locs !! i = Some loc /\ in_frag loc fr = true /\
    forall j loc', locs !! j = Some loc' -> in_frag loc' fr = true -> j = i.

(** The fragment introduces exactly one named relation, by an INNER or LEFT join. *)
Definition one_join (tree : Tree) (fr : FragRange) : Prop :=
  exists rel, frag_relations tree fr = [rel] /\ (RJoin rel = JoinInner \/ RJoin rel = JoinLeft).

(** Where the conjuncts of a statement start: those of the operands of a set
    operation belong to it. *)
Definition where_starts (tree : Tree) : list Z :=
  match SetOpBranches tree with Some bs => bs ≫= TopConjunctLocs | None => TopConjunctLocs tree end.
Definition having_starts (tree : Tree) : list Z :=
  match SetOpBranches tree with Some bs => bs ≫= HavingConjunctLocs | None => HavingConjunctLocs tree end.

Definition frag_whole (tree : Tree) (fr : FragRange) : Prop :=
  match FRItem fr with
  | IFilterTree _ => SetOpBranches tree = None
  | IIfPresent v =>
      match IPSlot v with
      | SlotJoinItem => SetOpBranches tree = None /\ one_join tree fr
      | SlotWhereConjunct => one_start fr (where_starts tree)
      | SlotHavingConjunct => one_start fr (having_starts tree)
      | _ => True
      end
  | _ => True
  end.

(** The construct that renders the ORDER BY clause renders all its keys. *)
Definition order_contained (tree : Tree) (r : Rendering) : Prop :=
  forall pre fr post, RFrags r = pre ++ fr :: post -> order_owner fr <> None -> Forall (fun fr' => order_owner fr' = None) pre ->
  Forall (fun loc => in_frag loc fr = true) (OrderByLocs tree).

(** The [TRUE] of an empty tree is one conjunct. *)
Definition empty_tree_whole (tree : Tree) (r : Rendering) : Prop :=
  RKind r = RenderTreeEmpty ->
  forall fr ft, filter_frags (RFrags r) !! RTreeIdx r = Some (fr, ft) ->
  one_start fr (if bool_decide (FtSlot ft = SlotHavingConjunct) then HavingConjunctLocs tree else TopConjunctLocs tree).

Definition order_allowed (tree : Tree) (it : Item) : Prop :=
  forall o, it = IOrderBy o -> HasDistinctOn tree = false /\ (HasFetchWithTies tree = true -> ObDefault o <> None).

Record r1_holds (q : QueryTemplate) (rs : list Rendering) (maxR : Rendering) (maxTree : Tree) (trees : list Tree) : Prop := {
  r1_first : head rs = Some maxR /\ head trees = Some maxTree;
  r1_parsed : Forall2 single_dml rs trees;
  r1_bodies : Forall item_whole (QItems q);
  r1_frags : Forall (frag_whole maxTree) (RFrags maxR);
  r1_orders : Forall2 (fun r tree => order_contained tree r) rs trees;
  r1_trees : SetOpBranches maxTree = None -> Forall2 (fun r tree => empty_tree_whole tree r) rs trees;
  r1_allowed : Forall (order_allowed maxTree) (QItems q);
}.
End spec.

(** ** Lemmas *)

Lemma count_in_one fr locs : count_in fr locs = 1 <-> one_start fr locs.
Proof.
  unfold count_in, one_start. induction locs as [|l locs IH]; cbn.
  - split; [done|by intros (i & l & H & _)].
  - destruct (in_frag l fr) eqn:E; cbn.
    + split.
      * intros H. assert (Hn : List.filter (fun loc => in_frag loc fr) locs = []) by (apply length_zero_iff_nil; lia).
        exists 0, l. repeat split; [done|]. intros [|j] l' Hj Hl; [done|]. cbn in Hj. exfalso.
        assert (Hi : In l' (List.filter (fun loc => in_frag loc fr) locs)).
        { apply filter_In. split; [|done]. apply list_elem_of_In. by eapply list_elem_of_lookup_2. }
        by rewrite Hn in Hi.
      * intros (i & l0 & _ & _ & Hu). assert (i = 0) as -> by (symmetry; by apply (Hu 0 l)).
        f_equal. apply length_zero_iff_nil. destruct (List.filter _ _) as [|x xs] eqn:Ef; [done|exfalso].
        assert (Hx : In x (List.filter (fun loc => in_frag loc fr) locs)) by (rewrite Ef; by left).
        apply filter_In in Hx as [Hx Hb]. apply list_elem_of_In, list_elem_of_lookup in Hx as [j Hj].
        by specialize (Hu (S j) x Hj Hb).
    + rewrite IH. split.
      * intros (i & l0 & Hi & Hb & Hu). exists (S i), l0. repeat split; [done..|].
        intros [|j] l' Hj Hl; cbn in Hj; [congruence|]. f_equal. by eapply Hu.
      * intros ([|i] & l0 & Hi & Hb & Hu); cbn in Hi; [congruence|]. exists i, l0. repeat split; [done..|].
        intros j l' Hj Hl. by injection (Hu (S j) l' Hj Hl).
Qed.

Section proofs.
Context (profile : LexerProfile) (fe : Frontend).

Lemma probe_body_nil probe un bad span body : probe_body profile probe un bad span body = [] <-> one_node profile probe body.
Proof.
  unfold probe_body, one_node. destruct (balanced profile body); cbn; [|by split; [|intros []]].
  destruct (probe _); [by split; [|intros []]|done].
Qed.

Lemma match_body {A} (l : bytes) (x : list A) : (match l with [] => [] | _ => x end = []) <-> (l <> [] -> x = []).
Proof. destruct l; [tauto|]. by split; [|intros H; apply H]. Qed.

Lemma check_case_nil probe what cs : check_case profile probe what cs = [] <-> empty_or_node profile probe (CCBody cs).
Proof.
  unfold check_case, empty_or_node. destruct (CCBody cs) as [|b l] eqn:E; [tauto|]. rewrite <- E, probe_body_nil.
  split; [tauto|]. intros H. apply H. congruence.
Qed.

Lemma check_cases_nil probe what c :
  concat (check_case profile probe what <$> ChCases c) ++ match ChDefault c with Some d => check_case profile probe what d | None => [] end = []
  <-> Forall (empty_or_node profile probe) (case_bodies c).
Proof.
  unfold case_bodies. rewrite list.Forall_fmap, list.Forall_app.
  assert (H : forall l, concat (check_case profile probe what <$> l) = [] <-> Forall (empty_or_node profile probe ∘ CCBody) l).
  { intros l. rewrite concat_nil_Forall. apply list.Forall_iff. intros x. apply check_case_nil. }
  destruct (ChDefault c) as [d|].
  - rewrite list.Forall_singleton. split; [intros [H1 H2]%app_eq_nil|intros [H1 H2]].
    + split; [by apply H|by eapply check_case_nil].
    + apply H in H1. rewrite H1. by apply check_case_nil.
  - rewrite app_nil_r, H. split; [done|tauto].
Qed.

Lemma bodies_nil {A} (f : A -> bytes) (g : A -> list Diagnostic) probe l :
  (forall x, g x = [] <-> empty_or_node profile probe (f x)) ->
  concat (g <$> l) = [] <-> Forall (empty_or_node profile probe) (f <$> l).
Proof. intros H. rewrite concat_nil_Forall, list.Forall_fmap. apply list.Forall_iff. exact H. Qed.

Lemma probe_key_nil k : probe_key profile fe k = [] <-> empty_or_node profile (ProbeOrderByKey fe) (OKBody k).
Proof.
  unfold probe_key, empty_or_node. destruct (OKBody k) as [|b l] eqn:E; [tauto|]. rewrite <- E, probe_body_nil.
  split; [tauto|]. intros H. apply H. congruence.
Qed.

Lemma probe_predicate_nil p : probe_predicate profile fe p = [] <-> empty_or_node profile (ProbeExpr fe) (PrBody p).
Proof.
  unfold probe_predicate, empty_or_node. destruct (PrBody p) as [|b l] eqn:E; [tauto|]. rewrite <- E, probe_body_nil.
  split; [tauto|]. intros H. apply H. congruence.
Qed.

Lemma probeOrderKeys_nil o : probeOrderKeys profile fe o = [] <-> item_whole profile fe (IOrderBy o).
Proof.
  unfold probeOrderKeys. cbn. rewrite <- (bodies_nil OKBody (probe_key profile fe)) by apply probe_key_nil.
  assert (H : forall l r, l ++ r = [] <-> l = [] /\ r = [] :> list Diagnostic) by (intros; split; [apply app_eq_nil|by intros [-> ->]]).
  rewrite H. apply and_iff_compat_l. destruct (ObDefault o) as [d|]; [|split; [intros _ d Hd; discriminate Hd|done]].
  destruct (CCBody d) as [|b l] eqn:E.
  - split; [intros _ d' [= <-] Hd; congruence|done].
  - rewrite <- E. split.
    + intros Hp d' [= <-] _. by destruct (ProbeOrderBy fe _).
    + intros Hp. rewrite (Hp d eq_refl); [done|congruence].
Qed.

Lemma probe_item_nil it : probe_item profile fe it = [] <-> item_whole profile fe it.
Proof.
  destruct it; try done.
  - cbn. destruct (IPSlot _); try done; apply probe_body_nil.
  - cbn. unfold probeChooseCases, choose_probe. destruct (ChSlot _); try done; apply check_cases_nil.
  - apply probeOrderKeys_nil.
  - apply bodies_nil, probe_predicate_nil.
Qed.

Lemma conjunct_nil locs clause span fr : checkConjunctMembership locs clause span fr = [] <-> one_start fr locs.
Proof. unfold checkConjunctMembership. rewrite <- count_in_one. destruct (Nat.eqb_spec (count_in fr locs) 1); done. Qed.

Lemma join_nil tree v fr : checkJoinMembership tree v fr = [] <-> one_join tree fr.
Proof.
  unfold checkJoinMembership, one_join. destruct (frag_relations tree fr) as [|rel [|rel' rels]].
  - cbn. split; [by destruct (existsb _ _)|intros (r & H & _); discriminate H].
  - cbn. rewrite !app_nil_r. split.
    + intros H. exists rel. split; [done|]. destruct (RJoin rel); try discriminate H; auto.
    + intros (r & [= <-] & [H|H]); by rewrite H.
  - split; [intros [_ H]%app_eq_nil; discriminate H|intros (r & H & _); discriminate H].
Qed.

Lemma fragment_nil tree fr : check_fragment tree fr = [] <-> frag_whole tree fr.
Proof.
  unfold check_fragment, frag_whole, conjunctSlotLocs, where_starts, having_starts.
  assert (E : forall (f : Tree -> list Z) l, concat (f <$> l) = l ≫= f).
  { intros f l. induction l as [|x l IH]; [done|]. cbn. by rewrite IH. }
  destruct (SetOpBranches tree) as [branches|]; rewrite ?E.
  - destruct (FRItem fr); try done. destruct (IPSlot _); try done; try apply conjunct_nil.
    split; [done|intros [H _]; discriminate H].
  - destruct (FRItem fr); try done. destruct (IPSlot _); try done; try apply conjunct_nil.
    rewrite join_nil. tauto.
Qed.

Lemma first_owner_none frags : first_owner frags = None <-> Forall (fun fr => order_owner fr = None) frags.
Proof.
  induction frags as [|fr frags IH]; cbn; [done|]. rewrite list.Forall_cons, <- IH.
  destruct (order_owner fr); [by split; [|intros []]|tauto].
Qed.

Lemma first_owner_some frags fr span : first_owner frags = Some (fr, span) ->
  exists pre post, frags = pre ++ fr :: post /\ order_owner fr = Some span /\ Forall (fun fr' => order_owner fr' = None) pre.
Proof.
  induction frags as [|f frags IH]; cbn; [done|]. destruct (order_owner f) as [s|] eqn:E.
  - intros [= <- <-]. exists [], frags. by repeat split.
  - intros (pre & post & -> & H1 & H2)%IH. exists (f :: pre), post. repeat split; [done|]. by constructor.
Qed.

Lemma first_owner_split pre fr post : order_owner fr <> None -> Forall (fun fr' => order_owner fr' = None) pre ->
  exists span, first_owner (pre ++ fr :: post) = Some (fr, span).
Proof.
  intros Ho. induction 1 as [|f pre Hf Hp IH]; cbn; [|by rewrite Hf].
  destruct (order_owner fr) as [s|]; [by exists s|done].
Qed.

Lemma containment_nil tree r : checkOrderByContainment tree r = [] <-> order_contained tree r.
Proof.
  unfold checkOrderByContainment, order_contained. split.
  - intros H pre fr post E Ho Hp. rewrite E in H. destruct (first_owner_split pre fr post Ho Hp) as [span Hs].
    rewrite Hs in H. destruct (forallb _ _) eqn:Hf; [|done]. rewrite forallb_forall in Hf.
    apply list.Forall_forall. intros l Hl. apply Hf. by apply list_elem_of_In.
  - intros H. destruct (first_owner (RFrags r)) as [[fr span]|] eqn:E; [|done].
    apply first_owner_some in E as (pre & post & E & Ho & Hp).
    assert (Hf : Forall (fun loc => in_frag loc fr = true) (OrderByLocs tree)) by (eapply H; [done|by rewrite Ho|done]).
    replace (forallb _ _) with true; [done|]. symmetry. apply forallb_forall. intros l Hl.
    rewrite list.Forall_forall in Hf. apply Hf. by apply list_elem_of_In.
Qed.

Lemma empty_tree_nil tree r : check_empty_tree tree r = [] <-> empty_tree_whole tree r.
Proof.
  unfold check_empty_tree, empty_tree_whole. destruct (RKind r); try (split; [done|done]).
  destruct (filter_frags (RFrags r) !! RTreeIdx r) as [[fr ft]|]; [|done].
  transitivity (one_start fr (if bool_decide (FtSlot ft = SlotHavingConjunct) then HavingConjunctLocs tree else TopConjunctLocs tree)).
  - rewrite <- count_in_one. destruct (bool_decide _); case Nat.eqb_spec; done.
  - split; [intros H _ f t [= <- <-]; exact H|intros H; by apply H].
Qed.

Lemma order_item_nil tree it : check_order_item tree it = [] <-> order_allowed tree it.
Proof.
  unfold check_order_item, order_allowed. destruct it; try (split; [intros _ ? Ho; discriminate Ho|done]).
  split.
  - intros H ? [= <-]. destruct (HasDistinctOn tree); [discriminate H|]. split; [done|]. intros Hf Hd. by rewrite Hf, Hd in H.
  - intros H. destruct (H _ eq_refl) as [-> Hf]. cbn. destruct (HasFetchWithTies tree); [|done].
    specialize (Hf eq_refl). by destruct (ObDefault _).
Qed.

Lemma parse_rendering_ok q r : (parse_rendering fe q r).1 = [] -> exists tree, (parse_rendering fe q r).2 = Some tree /\ single_dml fe r tree.
Proof.
  unfold parse_rendering, single_dml. destruct (Parse fe (RSQL r)) as [tree|e]; [|done].
  destruct (_ || _) eqn:E; [done|]. intros _. exists tree. apply orb_false_iff in E as [E1 E2].
  apply negb_false_iff, Z.eqb_eq in E1. apply bool_decide_eq_false in E2. done.
Qed.

Lemma single_dml_parse q r tree : single_dml fe r tree -> parse_rendering fe q r = ([], Some tree).
Proof.
  intros (Hp & Hc & Hk). unfold parse_rendering. rewrite Hp, Hc. cbn.
  by rewrite (bool_decide_eq_false_2 _ Hk).
Qed.

Lemma parsed_ok q rs : Forall (fun p => p.1 = []) (parse_rendering fe q <$> rs) <-> exists trees, Forall2 (single_dml fe) rs trees.
Proof.
  split.
  - induction rs as [|r rs IH]; cbn; [by exists []|]. intros [H1 [trees H2]%IH]%list.Forall_cons.
    destruct (parse_rendering_ok q r H1) as (tree & _ & H). exists (tree :: trees). by constructor.
  - intros [trees H]. induction H as [|r tree rs trees H Hs IH]; cbn; [done|]. constructor; [|done].
    by rewrite (single_dml_parse q r tree H).
Qed.

Lemma parsed_trees q rs trees : Forall2 (single_dml fe) rs trees -> (snd <$> (parse_rendering fe q <$> rs)) = Some <$> trees.
Proof. induction 1 as [|r tree rs trees H Hs IH]; cbn; [done|]. by rewrite (single_dml_parse q r tree H), IH. Qed.

Lemma each_nil (f : Tree -> Rendering -> list Diagnostic) (P : Rendering -> Tree -> Prop) rs trees :
  length rs = length trees -> (forall r t, f t r = [] <-> P r t) ->
  concat ((fun x : Rendering * option Tree => match x.2 with Some tree => f tree x.1 | None => [] end) <$> zip rs (Some <$> trees)) = []
  <-> Forall2 P rs trees.
Proof.
  intros Hl Hf. revert trees Hl. induction rs as [|r rs IH]; intros [|t trees] Hl; try discriminate Hl; cbn; [split; [constructor|done]|].
  rewrite list.Forall2_cons, <- IH, <- Hf by (cbn in Hl; lia).
  split; [by intros [? ?]%app_eq_nil|by intros [-> ->]].
Qed.

Lemma app_nil {A} (l r : list A) : l ++ r = [] <-> l = [] /\ r = [].
Proof. split; [apply app_eq_nil|by intros [-> ->]]. Qed.

Lemma reports_nil {A B} (f : A -> list B) (P : A -> Prop) l : (forall x, f x = [] <-> P x) -> concat (f <$> l) = [] <-> Forall P l.
Proof. intros H. rewrite concat_nil_Forall. by apply list.Forall_iff. Qed.

Lemma Ok_eq {E A} (x y : A) : Ok x = Ok y :> result E A <-> x = y.
Proof. split; [by intros [= ->]|by intros ->]. Qed.

Lemma check_panics q rs : CheckR1 profile fe q rs = Err IndexOutOfRange <-> rs = [].
Proof.
  destruct rs as [|r rs]; [done|]. unfold CheckR1. cbn. by destruct (parse_rendering fe q r).2.
Qed.

Lemma check_parsed q rs : CheckR1 profile fe q rs = Ok [] -> exists trees, Forall2 (single_dml fe) rs trees.
Proof.
  intros H. apply (parsed_ok q), concat_nil_Forall. unfold CheckR1 in H.
  destruct (zip rs _) as [|[r [t|]] l]; [discriminate H| |];
    injection H as [= H]; rewrite !app_nil in H; tauto.
Qed.

Lemma check_nil q r rs tree trees : Forall2 (single_dml fe) (r :: rs) (tree :: trees) ->
  CheckR1 profile fe q (r :: rs) = Ok [] <-> r1_holds profile fe q (r :: rs) r tree (tree :: trees).
Proof.
  intros Hp. unfold CheckR1. rewrite (parsed_trees q _ _ Hp).
  assert (Hf : concat (fst <$> (parse_rendering fe q <$> r :: rs)) = []).
  { apply concat_nil_Forall, (parsed_ok q). by eexists. }
  rewrite Hf, app_nil_r. 
  pose proof (Forall2_length Hp) as Hl.
  assert (Ho := each_nil checkOrderByContainment (fun r t => order_contained t r) _ _ Hl (fun r t => containment_nil t r)).
  assert (He := each_nil check_empty_tree (fun r t => empty_tree_whole t r) _ _ Hl (fun r t => empty_tree_nil t r)).
  transitivity (Forall (item_whole profile fe) (QItems q) /\ Forall (frag_whole tree) (RFrags r) /\
    Forall2 (fun r t => order_contained t r) (r :: rs) (tree :: trees) /\
    (SetOpBranches tree = None -> Forall2 (fun r t => empty_tree_whole t r) (r :: rs) (tree :: trees)) /\
    Forall (order_allowed tree) (QItems q)).
  - rewrite <- Ho, <- (reports_nil _ _ _ probe_item_nil), <- (reports_nil _ _ _ (fragment_nil tree)),
      <- (reports_nil _ _ _ (order_item_nil tree)).
    change (zip (r :: rs) (Some <$> tree :: trees)) with ((r, Some tree) :: zip rs (Some <$> trees)). cbv beta iota zeta.
    change ((r, Some tree) :: zip rs (Some <$> trees)) with (zip (r :: rs) (Some <$> tree :: trees)). rewrite Ok_eq, !app_nil. do 3 apply and_iff_compat_l. apply and_iff_compat_r.
    rewrite <- He. destruct (SetOpBranches tree); [done|]. split; [intros H _; exact H|intros H; by apply H].
  - split; [intros (H1 & H2 & H3 & H4 & H5); by split|intros []; tauto].
Qed.
End proofs.

(** C18: [CheckR1] reports nothing exactly when the query keeps to R1.  Then
    every body is one node of its slot with its parentheses paired, every
    rendering is one SELECT, UPDATE, INSERT or DELETE, every conjunct fragment
    holds exactly one conjunct and every join fragment exactly one named
    relation joined by INNER or LEFT, no optional join or filter tree sits in a
    set operation, the construct that owns ORDER BY owns all its keys, an empty
    filter tree is a conjunct of its own, and [@order-by] meets no DISTINCT ON
    and no WITH TIES without a default.  Without a rendering it panics. *)
Theorem r1_exact profile fe q rs :
  (CheckR1 profile fe q rs = Ok [] <-> exists maxR maxTree trees, r1_holds profile fe q rs maxR maxTree trees) /\
  (CheckR1 profile fe q rs = Err IndexOutOfRange <-> rs = []).
Proof.
  split; [|apply check_panics]. split.
  - intros H. destruct (check_parsed _ _ _ _ H) as [trees Ht]. destruct Ht as [|r tree rs trees Hr Ht]; [discriminate H|].
    exists r, tree, (tree :: trees). eapply check_nil; [by constructor|exact H].
  - intros (maxR & maxTree & trees & H). pose proof (r1_parsed _ _ _ _ _ _ _ H) as Hp.
    destruct (r1_first _ _ _ _ _ _ _ H) as [E1 E2]. destruct Hp as [|r tree rs trees Hr Ht]; [discriminate E1|].
    injection E1 as [= ->]. injection E2 as [= ->]. apply (check_nil profile fe q maxR rs maxTree trees); [by constructor|done].
Qed.
