(* ===== verification/Resolved.v ===== *)
(** * Resolved

    [internal/rules/resolved.go] and [columns.go]: the rules that need the
    catalog.  References are resolved against the relations of the parsed maximal
    rendering.  [strings.ToLower], which the dialects fold identifiers with, is an
    argument. *)

From S2P Require Import Prelude Dialect Postgres Template Render RenderInv Demo Diagnostics Lexical ScanBodies Frontend Catalog.

Definition CodeAmbiguousRef : bytes := bs "SQLETCH114".
Definition CodeScopeViolation : bytes := bs "SQLETCH115".
Definition CodePlannerSensitive : bytes := bs "SQLETCH116".
Definition CodeStarExpansion : bytes := bs "SQLETCH117".
Definition CodeOptionalInsertNotNull : bytes := bs "SQLETCH212".

(** [strings.Trim(s, cutset)] for a cutset of one byte, the quotation mark. *)
Definition trim_quotes (s : bytes) : bytes := let q c := Ascii.eqb c (ascii_of_nat 34) in trim_right q (trim_left q s).

Definition atomsString (atoms : list GuardAtom) : bytes := bs "`" ++ atomsParamList atoms ++ bs "`".

(** ** The resolver *)

Record relInfo := mkRelInfo {
  ri_ref : RelRef; ri_guards : list GuardAtom; ri_table : option Table; ri_frag : option IfPresent;
}.

(** [relInfo.name] *)
Definition rel_name (r : relInfo) : bytes := match RAlias (ri_ref r) with [] => RTable (ri_ref r) | a => a end.

(** [relInfo.fragSpan] *)
Definition fragSpan (q : QueryTemplate) (r : relInfo) : Span :=
  match ri_frag r with Some f => IPSpan f | None => QHeaderSpan q end.

(** The [@if-present] fragment whose range holds an offset. *)
Definition fragAt (maxR : Rendering) (loc : Z) : option IfPresent :=
  if (loc <? 0)%Z then None
  else match first (in_frag loc) (RFrags maxR) with
       | Some fr => match FRItem fr with IIfPresent ip => Some ip | _ => None end
       | None => None
       end.

Definition guardsAt (maxR : Rendering) (loc : Z) : list GuardAtom :=
  match fragAt maxR loc with Some frag => IPGuards frag | None => [] end.

Record resolver := mkResolver {
  res_rels : list relInfo; res_byName : gmap bytes relInfo; res_outputAliases : gset bytes; res_inOrderBy : gset Z;
}.

Section resolved.
Context (ToLower : bytes -> bytes) (profile : LexerProfile).

Definition fold : bytes -> bytes := FoldIdent ToLower profile.

Definition rel_info (maxR : Rendering) (cat : option Catalog) (rr : RelRef) : relInfo :=
  mkRelInfo rr (guardsAt maxR (RLoc rr))
    (match cat, RTable rr with Some c, _ :: _ => Lookup c (RTable rr) | _, _ => None end)
    (fragAt maxR (RLoc rr)).

(** A later relation of the same name replaces an earlier one. *)
Definition add_name (m : gmap bytes relInfo) (ri : relInfo) : gmap bytes relInfo :=
  match rel_name ri with [] => m | n => <[fold n := ri]> m end.

Definition newResolver (maxR : Rendering) (maxTree : Tree) (cat : option Catalog) : resolver :=
  let rels := rel_info maxR cat <$> Relations maxTree in
  mkResolver rels (foldl add_name ∅ rels)
    (list_to_set (fold <$> base.filter (fun n => n <> []) (TIName <$> TargetItems maxTree)))
    (list_to_set (base.filter (fun loc => (0 <= loc)%Z) (OrderByLocs maxTree))).

Definition scopeContains (scope : list bytes) (qualifier : bytes) : bool :=
  existsb (fun s => bool_decide (fold s = qualifier)) scope.

Definition col (tbl : Table) (name : bytes) : option Column :=
  first (fun c => bool_decide (fold (ColName c) = fold name)) (TabCols tbl).

Definition has_column (name : bytes) (rel : relInfo) : bool :=
  match ri_table rel with
  | Some tbl => existsb (fun c => bool_decide (fold (ColName c) = fold name)) (TabCols tbl)
  | None => false
  end.
Definition columnCandidates (res : resolver) (name : bytes) : list relInfo := List.filter (has_column name) (res_rels res).

Section query.
Context (q : QueryTemplate) (maxR : Rendering).

Definition spanAt (loc : Z) (n : nat) : Span :=
  if (loc <? 0)%Z then QHeaderSpan q
  else let tOff := (template_at maxR loc).1 in mkSpan (SFile (QHeaderSpan q)) tOff (tOff + n).

(** ** R3: guarded scope *)

(** What a reference resolves to, or the report that it is ambiguous. *)
Definition resolve_ref (res : resolver) (cr : ColRef) : list Diagnostic * option relInfo :=
  match rev (CRFields cr) with
  | [] => ([], None)
  | [name] =>
      if CRInSubquery cr then ([], None)
      else if bool_decide (fold name ∈ res_outputAliases res) && bool_decide (CRLoc cr ∈ res_inOrderBy res) then ([], None)
      else match columnCandidates res name with
           | [] => ([], None)
           | [rel] => ([], Some rel)
           | cands =>
               ([Errorf CodeAmbiguousRef (spanAt (CRLoc cr) (length name)) "unqualified column %q matches %d relations; qualify it"
                  [AStr name; AInt (Z.of_nat (length cands))]], None)
           end
  | _ :: qualifier :: rest =>
      if bool_decide (rest = []) && scopeContains (CRScopeAliases cr) (fold qualifier) then ([], None)
      else ([], res_byName res !! fold qualifier)
  end.

Definition check_ref (res : resolver) (cr : ColRef) : list Diagnostic :=
  if CRStar cr then []
  else
    let '(diags, target) := resolve_ref res cr in
    diags ++
    match target with
    | None => []
    | Some rel =>
        if bool_decide (ri_guards rel = []) || supersetAtoms (guardsAt maxR (CRLoc cr)) (ri_guards rel) then []
        else
          let field := List.last (CRFields cr) [] in
          [WithHintf "move this reference inside @if-present(%s)" [AStr (atomsParamList (ri_guards rel))]
            (Errorf CodeScopeViolation (spanAt (CRLoc cr) (length field))
              "%q resolves to the optional join %q guarded by %s, but this reference is not covered by that guard (R3)"
              [AStr field; AStr (rel_name rel); AStr (atomsString (ri_guards rel))])]
    end.

(** ** R2: stars *)

Definition guarded (rel : relInfo) : bool := negb (bool_decide (ri_guards rel = [])).

Definition check_star (res : resolver) (ti : TargetItem) : list Diagnostic :=
  if negb (TIStar ti) then []
  else match TIQualifier ti with
       | [] =>
           match first guarded (res_rels res) with
           | Some rel =>
               [WithHint "list the skeleton columns explicitly or use a qualified star"
                 (Errorf CodeStarExpansion (spanAt (TILoc ti) 1)
                   "SELECT * would include columns of the optional join %q, changing the result shape per shape (R2)" [AStr (rel_name rel)])]
           | None => []
           end
       | qualifier =>
           match res_byName res !! fold qualifier with
           | Some rel =>
               if guarded rel then
                 [Errorf CodeStarExpansion (spanAt (TILoc ti) (length qualifier))
                   "%s.* projects columns of an optional join; optional joins may not contribute result columns (R2)" [AStr qualifier]]
               else []
           | None => []
           end
       end.

(** ** Optional INSERT columns *)

Definition insert_warning (tbl : Table) (gi : GuardedItem) : list Diagnostic :=
  let name := trim_quotes (GIName gi) in
  match col tbl name with
  | Some c =>
      if ColNotNull c && negb (ColHasDefault c) then
        [WithHint "add a database default, or make the column unconditional"
          (Warnf CodeOptionalInsertNotNull (GISpan gi) "column %q is NOT NULL without a default; shapes omitting it will fail at execution time" [AStr name])]
      else []
  | None => []
  end.

Definition check_insert (maxTree : Tree) (cat : option Catalog) : list Diagnostic :=
  match TKind maxTree, cat, Relations maxTree with
  | StmtInsert, Some c, rel :: _ =>
      match Lookup c (RTable rel) with
      | Some tbl => concat (insert_warning tbl <$> QInsertColGuards q)
      | None => []
      end
  | _, _, _ => []
  end.

(** ** Locks *)

Definition check_lock (maxTree : Tree) (rel : relInfo) : list Diagnostic :=
  if HasLockingClause maxTree && guarded rel && bool_decide (RJoin (ri_ref rel) = JoinLeft) then
    [WithHint "use an INNER join, an EXISTS predicate, or drop the locking clause"
      (Errorf CodePlannerSensitive (fragSpan q rel)
        "FOR UPDATE/SHARE combined with an optional LEFT JOIN fails at plan time in shapes where the join is active" [])]
  else [].

Definition CheckResolved (maxTree : Tree) (cat : option Catalog) : list Diagnostic :=
  let res := newResolver maxR maxTree cat in
  concat (check_ref res <$> ColumnRefs maxTree)
  ++ concat (check_star res <$> TargetItems maxTree)
  ++ check_insert maxTree cat
  ++ concat (check_lock maxTree <$> res_rels res).
End query.

(** [ColumnResolver.Column]: the column and the table of its relation. *)
Definition resolver_Column (res : resolver) (qualifier name : bytes) : option Column * bytes :=
  let rel := match qualifier with
             | [] => match columnCandidates res name with [rel] => Some rel | _ => None end
             | _ => res_byName res !! fold qualifier
             end in
  match rel with
  | Some rel => match ri_table rel with Some tbl => (col tbl name, RTable (ri_ref rel)) | None => (None, []) end
  | None => (None, [])
  end.
End resolved.

(** ** ResolvedTheorems

    What the absence of reports of [CheckResolved] says: of the resolution of
    names, and of every shape a query is composed in. *)

(** ** The fragments of a rendering *)

Definition as_ifpresent (it : Item) : option IfPresent := match it with IIfPresent v => Some v | _ => None end.

(** The optional fragments a rendering holds the text of. *)
Definition ifpresents (r : Rendering) : list IfPresent := omap (as_ifpresent ∘ FRItem) (RFrags r).

Section frags.
Context (profile : LexerProfile).

Lemma emitSynth_frags text anchor r : r_frags (emitSynth text anchor r) = r_frags r.
Proof. by destruct text. Qed.

Lemma placeholder_frags name r : r_frags (placeholder profile name r).2 = r_frags r.
Proof. unfold placeholder. destruct (question profile); [done|]. by destruct (r_paramNum r !! name). Qed.

Lemma emitParamRef_frags name anchor r : r_frags (emitParamRef profile name anchor r) = r_frags r.
Proof. unfold emitParamRef. pose proof (placeholder_frags name r) as H. by destruct (placeholder profile name r). Qed.

Lemma flushRun_frags src tOff synth a b r : r_frags (flushRun src tOff synth a b r) = r_frags r.
Proof. unfold flushRun. by destruct (Nat.ltb a b). Qed.

Lemma emit_tokens_frags src tOff synth toks runStart r : r_frags (emit_tokens profile src tOff synth toks runStart r).2 = r_frags r.
Proof.
  revert runStart r. induction toks as [|tok toks IH]; intros runStart r; cbn [emit_tokens]; [done|].
  case_decide; [|apply IH]. pose proof (placeholder_frags (tail (Text tok)) (flushRun src tOff synth runStart (Start tok) r)) as Hp.
  destruct (placeholder profile _ _) as [ph r2]. rewrite IH. cbn in *. by rewrite Hp, flushRun_frags.
Qed.

Lemma emitText_frags text tOff synth r r' : emitText profile text tOff synth r = Ok r' -> r_frags r' = r_frags r.
Proof.
  unfold emitText. destruct (tokens text) as [toks err].
  pose proof (emit_tokens_frags text tOff synth toks 0 r) as H. destruct (emit_tokens profile _ _ _ _ _ _) as [n r1].
  destruct err; [done|]. intros [= <-]. by rewrite flushRun_frags.
Qed.

Lemma emit_list_frags {X} sep anchor (emit : X -> renderer -> result RenderErr renderer) first xs r r' :
  (forall x r r', x ∈ xs -> emit x r = Ok r' -> r_frags r' = r_frags r) ->
  emit_list sep anchor emit first xs r = Ok r' -> r_frags r' = r_frags r.
Proof.
  intros He. apply (emit_list_inv (fun r' => r_frags r' = r_frags r)); [|intros x r0 r0' Hx H E; by rewrite (He x r0 r0' Hx E)|done].
  intros. by rewrite emitSynth_frags.
Qed.

(** One item adds the fragment of its own, and no other. *)
Lemma render_item_frags s st it st' : render_item profile s st it = Ok st' ->
  omap (as_ifpresent ∘ FRItem) (r_frags (rs_r st')) =
  omap (as_ifpresent ∘ FRItem) (r_frags (rs_r st)) ++ List.filter (s_active s) (omap as_ifpresent [it]).
Proof.
  assert (Hadd : forall it n r r0, r_frags r = r_frags r0 ->
    omap (as_ifpresent ∘ FRItem) (r_frags (add_frag it n r)) = omap (as_ifpresent ∘ FRItem) (r_frags r0) ++ omap as_ifpresent [it]).
  { intros it0 n r r0 E. cbn [add_frag r_frags]. rewrite E, omap_app. f_equal. }
  destruct it as [v|v|v|v|v|v]; cbn [render_item omap list_omap as_ifpresent List.filter]; rewrite ?app_nil_r.
  - intros (r & H1%emitText_frags & H2)%rbind_ok. injection H2 as <-. cbn. by rewrite H1.
  - destruct (s_active s v); [|intros [= <-]; by rewrite app_nil_r].
    intros (r & H1 & H2)%rbind_ok. injection H2 as <-. apply rbind_ok in H1 as (r3 & H3%emitText_frags & H4). injection H4 as <-.
    apply (Hadd (IIfPresent v)). transitivity (r_frags r3); [by case_decide|]. rewrite H3.
    destruct (IPSep v); by rewrite ?emitSynth_frags.
  - intros (r & H1 & H2)%rbind_ok. injection H2 as <-. revert H1. unfold render_choose. destruct (caseBody v _) as [body tOff].
    intros (r2 & H2 & H3)%rbind_ok. injection H3 as <-. cbn [set_r rs_r]. rewrite (Hadd _ _ _ (rs_r st)); [apply app_nil_r|].
    destruct body; [by injection H2 as <-|]. by rewrite (emitText_frags _ _ _ _ _ H2), emitSynth_frags.
  - intros (r & (r2 & H2 & H3)%rbind_ok & H1)%rbind_ok. injection H1 as <-. injection H3 as <-.
    cbn [set_r rs_r]. rewrite (Hadd _ _ _ (rs_r st)); [apply app_nil_r|].
    destruct (mjoin _) as [[|e es]|].
    + destruct (ObDefault v) as [d|]; [destruct (CCBody d)|]; try (by injection H2 as <-).
      by rewrite (emitText_frags _ _ _ _ _ H2), emitSynth_frags.
    + apply emit_list_frags in H2; [by rewrite H2, !emitSynth_frags|].
      intros x r0 r0' _ (k & _ & (r4 & H4%emitText_frags & H5)%rbind_ok)%rbind_ok. injection H5 as <-.
      destruct (key_desc x); by rewrite ?emitSynth_frags.
    + apply emit_list_frags in H2; [by rewrite H2, !emitSynth_frags|]. intros x r0 r0' _. apply emitText_frags.
  - intros [= <-]. cbn [rs_r]. unfold render_in. rewrite (Hadd _ _ _ (rs_r st)); [apply app_nil_r|].
    destruct (negb (question profile)); [|case_decide]; by rewrite ?emitSynth_frags, ?emitParamRef_frags, ?emitSynth_frags.
  - intros (r & (r2 & H2 & H3)%rbind_ok & H1)%rbind_ok. injection H1 as <-. injection H3 as <-.
    cbn [rs_r]. rewrite (Hadd _ _ _ (rs_r st)); [apply app_nil_r|].
    case_decide; [by injection H2 as <-|].
    apply rbind_ok in H2 as (r3 & H3 & H4). injection H4 as <-. transitivity (r_frags r3); [done|].
    apply emit_list_frags in H3; [by rewrite H3, emitSynth_frags|].
    intros x r0 r0' _ (r4 & H4%emitText_frags & H5)%rbind_ok. injection H5 as <-. transitivity (r_frags r4); [done|]. by rewrite H4, emitSynth_frags.
Qed.

Lemma render_items_frags s items st st' : rfold (render_item profile s) st items = Ok st' ->
  omap (as_ifpresent ∘ FRItem) (r_frags (rs_r st')) =
  omap (as_ifpresent ∘ FRItem) (r_frags (rs_r st)) ++ List.filter (s_active s) (omap as_ifpresent items).
Proof.
  revert st. induction items as [|it items IH]; intros st; cbn [rfold]; [intros [= <-]; by rewrite app_nil_r|].
  intros (st1 & H1%render_item_frags & H2%IH)%rbind_ok. rewrite H2, H1, <- app_assoc. f_equal.
  rewrite <- List.filter_app, <- omap_app. done.
Qed.

(** The fragments of a rendering are those of the template its selection turns on. *)
Lemma renderCore_ifpresents q s r : renderCore profile q s = Ok r ->
  ifpresents r = List.filter (s_active s) (omap as_ifpresent (QItems q)).
Proof. intros (st & Hst%render_items_frags & H)%rbind_ok. injection H as <-. unfold ifpresents. cbn. by rewrite Hst. Qed.
End frags.

Lemma fragAt_ifpresents maxR loc v : fragAt maxR loc = Some v -> v ∈ ifpresents maxR.
Proof.
  unfold fragAt, ifpresents. destruct (loc <? 0)%Z; [done|]. destruct (first _ _) as [fr|] eqn:E; [|done].
  intros H. apply list_elem_of_omap. exists fr. apply first_spec in E as [E _]. split; [done|].
  cbn. by destruct (FRItem fr).
Qed.

(** ** The resolution of names *)

Section spec.
Context (ToLower : bytes -> bytes) (profile : LexerProfile).
Notation fold := (fold ToLower profile).

(** The last relation of a name. *)
Definition named (rels : list relInfo) (n : bytes) (rel : relInfo) : Prop :=
  exists pre post, rels = pre ++ rel :: post /\ rel_name rel <> [] /\ fold (rel_name rel) = n /\
    forall r, r ∈ post -> rel_name r <> [] -> fold (rel_name r) <> n.

(** A relation of the catalog with a column of a name. *)
Definition owns (name : bytes) (rel : relInfo) : Prop :=
  exists tbl c, ri_table rel = Some tbl /\ c ∈ TabCols tbl /\ fold (ColName c) = fold name.

Definition sole_owner (rels : list relInfo) (name : bytes) (rel : relInfo) : Prop :=
  exists pre post, rels = pre ++ rel :: post /\ owns name rel /\ forall r, r ∈ pre ++ post -> ~ owns name r.
Definition shared (rels : list relInfo) (name : bytes) : Prop :=
  exists pre rel mid rel' post, rels = pre ++ rel :: mid ++ rel' :: post /\ owns name rel /\ owns name rel'.

(** A bare name that stands for an output column. *)
Definition output_ref (tree : Tree) (cr : ColRef) (name : bytes) : Prop :=
  (exists ti, ti ∈ TargetItems tree /\ TIName ti <> [] /\ fold (TIName ti) = fold name) /\
  CRLoc cr ∈ OrderByLocs tree /\ (0 <= CRLoc cr)%Z.

(** The references the rule looks at: bare names outside subqueries that are no
    output columns. *)
Definition bare (tree : Tree) (cr : ColRef) (name : bytes) : Prop :=
  CRFields cr = [name] /\ CRInSubquery cr = false /\ ~ output_ref tree cr name.

Inductive resolves (tree : Tree) (rels : list relInfo) (cr : ColRef) : relInfo -> Prop :=
  | resolves_alias qualifier column rel :
      CRFields cr = [qualifier; column] -> (forall s, s ∈ CRScopeAliases cr -> fold s <> fold qualifier) ->
      named rels (fold qualifier) rel -> resolves tree rels cr rel
  | resolves_schema schema pre qualifier column rel :
      CRFields cr = schema :: pre ++ [qualifier; column] -> named rels (fold qualifier) rel -> resolves tree rels cr rel
  | resolves_bare name rel : bare tree cr name -> sole_owner rels name rel -> resolves tree rels cr rel.

(** The relations of a parsed rendering with what is known of them. *)
Definition rel_infos (maxR : Rendering) (tree : Tree) (cat : option Catalog) : list relInfo := rel_info maxR cat <$> Relations tree.

Record resolved_holds (q : QueryTemplate) (maxR : Rendering) (tree : Tree) (cat : option Catalog) : Prop := {
  rs_refs : forall cr, cr ∈ ColumnRefs tree -> CRStar cr = false ->
    (forall name, bare tree cr name -> ~ shared (rel_infos maxR tree cat) name) /\
    forall rel, resolves tree (rel_infos maxR tree cat) cr rel -> ri_guards rel ⊆ guardsAt maxR (CRLoc cr);
  rs_stars : forall ti, ti ∈ TargetItems tree -> TIStar ti = true ->
    (TIQualifier ti = [] -> forall rel, rel ∈ rel_infos maxR tree cat -> ri_guards rel = []) /\
    (TIQualifier ti <> [] -> forall rel, named (rel_infos maxR tree cat) (fold (TIQualifier ti)) rel -> ri_guards rel = []);
  rs_inserts : TKind tree = StmtInsert -> forall c tbl, cat = Some c ->
    (exists rel, head (Relations tree) = Some rel /\ Lookup c (RTable rel) = Some tbl) ->
    forall gi column, gi ∈ QInsertColGuards q -> col ToLower profile tbl (trim_quotes (GIName gi)) = Some column ->
    ColNotNull column = true -> ColHasDefault column = true;
  rs_locks : HasLockingClause tree = true ->
    forall rel, rel ∈ rel_infos maxR tree cat -> RJoin (ri_ref rel) = JoinLeft -> ri_guards rel = [];
}.
End spec.

(** ** Lemmas *)

Lemma filter_nil_iff {A} (P : A -> bool) l : List.filter P l = [] <-> forall x, x ∈ l -> P x = false.
Proof.
  induction l as [|x l IH]; cbn; [split; [intros _ x Hx; by apply not_elem_of_nil in Hx|done]|].
  destruct (P x) eqn:E; [split; [done|intros H; specialize (H x); rewrite E in H; discriminate H; apply list.elem_of_cons; by left]|].
  rewrite IH. split; [intros H y [->|Hy]%list.elem_of_cons; [done|by apply H]|intros H y Hy; apply H; apply list.elem_of_cons; by right].
Qed.

Lemma filter_cons_inv {A} (P : A -> bool) l x xs : List.filter P l = x :: xs ->
  exists pre post, l = pre ++ x :: post /\ P x = true /\ List.filter P pre = [] /\ List.filter P post = xs.
Proof.
  induction l as [|y l IH]; cbn; [done|]. destruct (P y) eqn:E.
  - intros [= -> <-]. exists [], l. done.
  - intros (pre & post & -> & H1 & H2 & H3)%IH. exists (y :: pre), post. repeat split; [done| |done]. cbn. by rewrite E.
Qed.

Section proofs.
Context (ToLower : bytes -> bytes) (profile : LexerProfile).
Notation fold := (fold ToLower profile).

Lemma add_names_lookup rels n rel :
  foldl (add_name ToLower profile) ∅ rels !! n = Some rel <-> named ToLower profile rels n rel.
Proof.
  induction rels as [|r rels IH] using rev_ind.
  - cbn. rewrite lookup_empty. split; [done|intros (pre & post & H & _); by destruct pre].
  - rewrite foldl_app. cbn [foldl].
    assert (Hnew : named ToLower profile (rels ++ [r]) n rel <->
      (rel = r /\ rel_name r <> [] /\ fold (rel_name r) = n) \/
      (named ToLower profile rels n rel /\ (rel_name r <> [] -> fold (rel_name r) <> n))).
    { split.
      - intros (pre & post & E & Hne & Hf & Hp). destruct post as [|x post _] using rev_ind.
        + apply app_inj_tail in E as [_ ->]. by left.
        + rewrite app_comm_cons, app_assoc in E. apply app_inj_tail in E as [-> ->]. right. split.
          * exists pre, post. repeat split; [done..|]. intros y Hy. apply Hp, elem_of_app. by left.
          * apply Hp, elem_of_app. right. by apply list_elem_of_singleton.
      - intros [(-> & Hne & Hf)|[(pre & post & -> & Hne & Hf & Hp) Hr]].
        + exists rels, []. repeat split; [done..|]. intros y Hy. by apply not_elem_of_nil in Hy.
        + exists pre, (post ++ [r]). rewrite <- app_assoc. repeat split; [done..|].
          intros y [Hy| ->%list_elem_of_singleton]%elem_of_app; [by apply Hp|done]. }
    rewrite Hnew. unfold add_name at 1. destruct (rel_name r) as [|b bs] eqn:En.
    + rewrite IH. split; [intros H; right; split; [done|by intros []]|intros [(_ & [] & _)|[H _]]; done].
    + rewrite <- En. destruct (decide (fold (rel_name r) = n)) as [<-|Hn].
      * rewrite lookup_insert_eq. split; [intros [= <-]; left; repeat split; congruence|].
        intros [(-> & _ & _)|[_ Hc]]; [done|]. exfalso. apply Hc; [congruence|done].
      * rewrite lookup_insert_ne, IH by done. split; [intros H; by right|intros [(_ & _ & Hf)|[H _]]; done].
Qed.

Lemma has_column_owns name rel : has_column ToLower profile name rel = true <-> owns ToLower profile name rel.
Proof.
  unfold has_column, owns. destruct (ri_table rel) as [tbl|]; [|split; [done|intros (t & c & H & _); done]].
  rewrite existsb_exists. split.
  - intros (c & Hc & Hf%bool_decide_eq_true). exists tbl, c. repeat split; [by apply list_elem_of_In|done].
  - intros (t & c & [= <-] & Hc & Hf). exists c. split; [by apply list_elem_of_In|by apply bool_decide_eq_true].
Qed.

Lemma has_column_false name rel : has_column ToLower profile name rel = false <-> ~ owns ToLower profile name rel.
Proof. rewrite <- has_column_owns. by destruct (has_column _ _ _ _). Qed.

Lemma candidates_one res name rel :
  columnCandidates ToLower profile res name = [rel] <-> sole_owner ToLower profile (res_rels res) name rel.
Proof.
  unfold columnCandidates, sole_owner. split.
  - intros (pre & post & E & H1 & H2 & H3)%filter_cons_inv. exists pre, post. repeat split; [done|by apply has_column_owns|].
    intros r Hr. apply has_column_false. apply filter_nil_iff with (l := pre ++ post); [|done].
    by rewrite List.filter_app, H2, H3.
  - intros (pre & post & -> & H1%has_column_owns & H2). rewrite List.filter_app. cbn. rewrite H1.
    assert (H : List.filter (has_column ToLower profile name) (pre ++ post) = []).
    { apply filter_nil_iff. intros x Hx. by apply has_column_false, H2. }
    rewrite List.filter_app in H. by apply app_eq_nil in H as [-> ->].
Qed.

Lemma candidates_many res name :
  2 <= length (columnCandidates ToLower profile res name) <-> shared ToLower profile (res_rels res) name.
Proof.
  unfold columnCandidates, shared. split.
  - destruct (List.filter _ _) as [|a [|b xs]] eqn:E; [cbn; lia..|]. intros _.
    apply filter_cons_inv in E as (pre & post & -> & Ha & _ & (mid & post' & -> & Hb & _ & _)%filter_cons_inv).
    exists pre, a, mid, b, post'. repeat split; by apply has_column_owns.
  - intros (pre & a & mid & b & post & -> & Ha%has_column_owns & Hb%has_column_owns).
    rewrite !List.filter_app. cbn. rewrite Ha, List.filter_app. cbn. rewrite Hb, !length_app. cbn. rewrite length_app. cbn. lia.
Qed.

Section query.
Context (q : QueryTemplate) (maxR : Rendering) (tree : Tree) (cat : option Catalog).
Notation res := (newResolver ToLower profile maxR tree cat).
Notation rels := (rel_infos maxR tree cat).

Lemma output_ref_spec cr name :
  (fold name ∈ res_outputAliases res /\ CRLoc cr ∈ res_inOrderBy res) <-> output_ref ToLower profile tree cr name.
Proof.
  unfold output_ref. cbn. rewrite !elem_of_list_to_set, list_elem_of_fmap, list_elem_of_filter. setoid_rewrite list_elem_of_filter.
  setoid_rewrite list_elem_of_fmap. split.
  - intros [(n & Hf & Hn & ti & -> & Hti) [H0 Hl]]. repeat split; [|done..]. exists ti. by rewrite Hf.
  - intros [(ti & Hti & Hn & Hf) [Hl H0]]. repeat split; [|done..]. exists (TIName ti). split; [done|]. split; [done|]. by exists ti.
Qed.

Lemma scopeContains_spec scope qual : scopeContains ToLower profile scope qual = true <-> exists s, s ∈ scope /\ fold s = qual.
Proof.
  unfold scopeContains. rewrite existsb_exists. split.
  - intros (s & Hs & Hf%bool_decide_eq_true). exists s. split; [by apply list_elem_of_In|done].
  - intros (s & Hs & Hf). exists s. split; [by apply list_elem_of_In|by apply bool_decide_eq_true].
Qed.

Lemma resolve_bare cr name : CRFields cr = [name] ->
  resolve_ref ToLower profile q maxR res cr =
    (if CRInSubquery cr then ([], None)
     else if bool_decide (fold name ∈ res_outputAliases res) && bool_decide (CRLoc cr ∈ res_inOrderBy res) then ([], None)
     else match columnCandidates ToLower profile res name with
          | [] => ([], None)
          | [rel] => ([], Some rel)
          | cands =>
              ([Errorf CodeAmbiguousRef (spanAt q maxR (CRLoc cr) (length name)) "unqualified column %q matches %d relations; qualify it"
                 [AStr name; AInt (Z.of_nat (length cands))]], None)
          end).
Proof. intros E. unfold resolve_ref. by rewrite E. Qed.

Lemma bare_dec cr name : CRFields cr = [name] ->
  bare ToLower profile tree cr name <->
  CRInSubquery cr = false /\ bool_decide (fold name ∈ res_outputAliases res) && bool_decide (CRLoc cr ∈ res_inOrderBy res) = false.
Proof.
  intros E. unfold bare. rewrite <- output_ref_spec, <- (not_true_iff_false (_ && _)), andb_true_iff, !bool_decide_eq_true. tauto.
Qed.

(** The three forms of a reference. *)
Lemma fields_cases (cr : ColRef) :
  CRFields cr = [] \/ (exists name, CRFields cr = [name]) \/
  exists pre qualifier column, CRFields cr = pre ++ [qualifier; column] /\ rev (CRFields cr) = column :: qualifier :: rev pre.
Proof.
  destruct (CRFields cr) as [|f l _] using rev_ind; [by left|]. destruct l as [|g l _] using rev_ind; [right; left; by exists f|].
  right. right. exists l, g, f. rewrite <- app_assoc. split; [done|]. by rewrite rev_app_distr.
Qed.

Lemma resolve_bare_target cr name rel : CRFields cr = [name] ->
  (resolve_ref ToLower profile q maxR res cr).2 = Some rel <-> bare ToLower profile tree cr name /\ sole_owner ToLower profile rels name rel.
Proof.
  intros E. rewrite (resolve_bare _ _ E), (bare_dec _ _ E), <- (candidates_one res).
  destruct (CRInSubquery cr); [split; [done|intros [[] _]; done]|].
  destruct (_ && _); [split; [done|intros [[_ H] _]; done]|].
  destruct (columnCandidates _ _ _ _) as [|r [|r' xs]]; cbn; (split; [|intros [_ H]]); try done.
  - by intros [= ->].
  - by injection H as ->.
Qed.

Lemma resolve_bare_diags cr name : CRFields cr = [name] ->
  (resolve_ref ToLower profile q maxR res cr).1 = [] <-> (bare ToLower profile tree cr name -> ~ shared ToLower profile rels name).
Proof.
  intros E. rewrite (resolve_bare _ _ E), (bare_dec _ _ E), <- (candidates_many res).
  destruct (CRInSubquery cr); [split; [intros _ []; done|done]|].
  destruct (_ && _); [split; [intros _ []; done|done]|].
  destruct (columnCandidates _ _ _ _) as [|r [|r' xs]]; cbn; [split; [intros _ _; lia|done]..|].
  split; [done|]. intros H. exfalso. apply H; [done|lia].
Qed.

Lemma resolve_qualified cr pre qualifier column : CRFields cr = pre ++ [qualifier; column] ->
  resolve_ref ToLower profile q maxR res cr =
    (if bool_decide (pre = []) && scopeContains ToLower profile (CRScopeAliases cr) (fold qualifier) then ([], None)
     else ([], res_byName res !! fold qualifier)).
Proof.
  intros E. unfold resolve_ref. rewrite E, rev_app_distr. cbn.
  by rewrite (bool_decide_ext (rev pre = []) (pre = [])) by (destruct pre; [done|]; cbn; split; [intros H; by destruct (rev pre)|done]).
Qed.

Lemma resolve_ref_target cr rel :
  (resolve_ref ToLower profile q maxR res cr).2 = Some rel <-> resolves ToLower profile tree rels cr rel.
Proof.
  destruct (fields_cases cr) as [E|[[name E]|(pre & qualifier & column & E & _)]].
  - unfold resolve_ref. rewrite E. cbn. split; [done|]. intros [? ? ? E'|? ? ? ? ? E'|? ? [E' _]]; rewrite E in E'; try discriminate E'.
  - rewrite (resolve_bare_target _ _ _ E). split; [intros [H1 H2]; by eapply resolves_bare|].
    intros [? ? ? E'|? l ? ? ? E'|? ? [E' ?] ?]; rewrite E in E'; [discriminate E'| |].
    + injection E' as _ E'. by apply app_cons_not_nil in E'.
    + injection E' as ->. split; [|done]. by split.
  - rewrite (resolve_qualified _ _ _ _ E). cbn [res_byName newResolver].
    transitivity ((pre = [] -> forall s, s ∈ CRScopeAliases cr -> fold s <> fold qualifier) /\ named ToLower profile rels (fold qualifier) rel).
    + rewrite <- add_names_lookup. case_bool_decide as Hp; cbn.
      * destruct (scopeContains _ _ _ _) eqn:Hs; cbn.
        { split; [done|]. intros [H _]. exfalso. apply scopeContains_spec in Hs as (s & Hs & Hf). by apply (H Hp s). }
        split; [|by intros [_ ?]]. intros H. split; [|done]. intros _ s Hs' Hf.
        apply not_true_iff_false in Hs. apply Hs, scopeContains_spec. by exists s.
      * split; [|by intros [_ ?]]. intros H. by split.
    + split.
      * intros [H1 H2]. destruct pre as [|x pre]; [by eapply resolves_alias; [done|apply H1|]|by eapply resolves_schema].
      * intros [qual c rel' E' Hs Hn|sch l qual c rel' E' Hn|n rel' [E' _] _]; rewrite E in E'.
        -- destruct (app_inj_2 pre [] [qualifier; column] [qual; c] eq_refl E') as [-> [= -> ->]]. split; [done|done].
        -- destruct (app_inj_2 pre (sch :: l) [qualifier; column] [qual; c] eq_refl E') as [-> [= -> ->]]. by split.
        -- exfalso. apply (f_equal length) in E'. rewrite length_app in E'. cbn in E'. lia.
Qed.

Lemma resolve_ref_diags cr :
  (resolve_ref ToLower profile q maxR res cr).1 = [] <-> forall name, bare ToLower profile tree cr name -> ~ shared ToLower profile rels name.
Proof.
  destruct (fields_cases cr) as [E|[[name E]|(pre & qualifier & column & E & _)]].
  - unfold resolve_ref. rewrite E. cbn. split; [|done]. intros _ name [E' _]. by rewrite E in E'.
  - rewrite (resolve_bare_diags _ _ E). split; [|intros H; by apply H]. intros H n Hn. pose proof (proj1 Hn) as E'.
    rewrite E in E'. injection E' as ->. by apply H.
  - rewrite (resolve_qualified _ _ _ _ E). split; [|by destruct (_ && _)]. intros _ n [E' _]. exfalso. rewrite E in E'.
    apply (f_equal length) in E'. rewrite length_app in E'. cbn in E'. lia.
Qed.

Lemma check_ref_nil cr : check_ref ToLower profile q maxR res cr = [] <->
  (CRStar cr = false -> (forall name, bare ToLower profile tree cr name -> ~ shared ToLower profile rels name) /\
    forall rel, resolves ToLower profile tree rels cr rel -> ri_guards rel ⊆ guardsAt maxR (CRLoc cr)).
Proof.
  unfold check_ref. destruct (CRStar cr); [done|]. setoid_rewrite <- resolve_ref_target. rewrite <- resolve_ref_diags.
  destruct (resolve_ref _ _ _ _ _ _) as [diags target]. cbn. split.
  - intros [-> H]%app_eq_nil _. split; [done|]. intros rel [= ->].
    destruct (bool_decide (ri_guards rel = [])) eqn:Eb; [apply bool_decide_eq_true in Eb; rewrite Eb; set_solver|].
    cbn in H. apply supersetAtoms_spec. by destruct (supersetAtoms _ _).
  - intros [-> H]; [done|]. destruct target as [rel|]; [|done]. specialize (H rel eq_refl). apply supersetAtoms_spec in H.
    by rewrite H, orb_true_r.
Qed.

Lemma guarded_false rel : guarded rel = false <-> ri_guards rel = [].
Proof. unfold guarded. rewrite negb_false_iff. apply bool_decide_eq_true. Qed.

Lemma check_star_nil ti : check_star ToLower profile q maxR res ti = [] <->
  (TIStar ti = true ->
    (TIQualifier ti = [] -> forall rel, rel ∈ rels -> ri_guards rel = []) /\
    (TIQualifier ti <> [] -> forall rel, named ToLower profile rels (fold (TIQualifier ti)) rel -> ri_guards rel = [])).
Proof.
  unfold check_star. destruct (TIStar ti); cbn [negb res_rels res_byName newResolver]; [|done]. change (rel_info maxR cat <$> Relations tree) with rels. destruct (TIQualifier ti) as [|b l].
  - destruct (first guarded rels) as [rel|] eqn:E.
    + split; [done|]. intros H. destruct H as [H _]; [done|]. apply first_spec in E as [E Hg].
      assert (Hf : guarded rel = false) by (apply guarded_false, H; [done|exact E]). congruence.
    + split; [|done]. intros _ _. split; [|done]. intros _ rel Hr. apply guarded_false. by eapply first_none.
  - setoid_rewrite <- add_names_lookup. destruct (foldl _ _ _ !! _) as [rel|] eqn:E.
    + destruct (guarded rel) eqn:Eg; (split; [|]); try done.
      * intros H. destruct H as [_ H]; [done|]. assert (Hf : guarded rel = false) by (by apply guarded_false, H). congruence.
      * intros _ _. split; [done|]. intros _ r [= <-]. by apply guarded_false.
    + split; [|done]. intros _ _. split; [done|]. intros _ r Hr. discriminate Hr.
Qed.

Lemma insert_warning_nil tbl gi : insert_warning ToLower profile tbl gi = [] <->
  forall column, col ToLower profile tbl (trim_quotes (GIName gi)) = Some column -> ColNotNull column = true -> ColHasDefault column = true.
Proof.
  unfold insert_warning. destruct (col _ _ _ _) as [c|]; [|done]. destruct (ColNotNull c) eqn:En; cbn.
  - destruct (ColHasDefault c) eqn:Ed; cbn; (split; [|try done]); [by intros _ ? [= <-]|done|].
    intros H. specialize (H c eq_refl En). congruence.
  - split; [|done]. intros _ ? [= <-]. congruence.
Qed.

Lemma check_insert_nil : check_insert ToLower profile q tree cat = [] <->
  (TKind tree = StmtInsert -> forall c tbl, cat = Some c ->
    (exists rel, head (Relations tree) = Some rel /\ Lookup c (RTable rel) = Some tbl) ->
    forall gi column, gi ∈ QInsertColGuards q -> col ToLower profile tbl (trim_quotes (GIName gi)) = Some column ->
    ColNotNull column = true -> ColHasDefault column = true).
Proof.
  unfold check_insert. destruct (TKind tree); try done. destruct cat as [c|]; [|split; [intros _ _ ? ? [=]|done]].
  destruct (Relations tree) as [|rel l]; [split; [intros _ _ ? ? _ (r & [=] & _)|done]|].
  destruct (Lookup c (RTable rel)) as [tbl|] eqn:El.
  - rewrite concat_nil_iff. setoid_rewrite insert_warning_nil. split.
    + intros H _ c' tbl' [= <-] (r & [= <-] & El') gi column Hg. rewrite El in El'. injection El' as <-. by apply H.
    + intros H gi Hg column. by eapply (H eq_refl c tbl eq_refl (ex_intro _ rel (conj eq_refl El))).
  - split; [|done]. intros _ _ c' tbl' [= <-] (r & [= <-] & El'). congruence.
Qed.

Lemma check_locks_nil : concat (check_lock q tree <$> rels) = [] <->
  (HasLockingClause tree = true -> forall rel, rel ∈ rels -> RJoin (ri_ref rel) = JoinLeft -> ri_guards rel = []).
Proof.
  rewrite concat_nil_iff. unfold check_lock. destruct (HasLockingClause tree); [|done]. cbn. split.
  - intros H _ rel Hr Hj. specialize (H rel Hr). rewrite Hj in H. apply guarded_false. by destruct (guarded rel).
  - intros H rel Hr. destruct (bool_decide _) eqn:Ej; [|by rewrite andb_false_r].
    apply bool_decide_eq_true in Ej. assert (Hg : guarded rel = false) by (by apply guarded_false, H). by rewrite Hg.
Qed.

Lemma check_resolved_nil : CheckResolved ToLower profile q maxR tree cat = [] <-> resolved_holds ToLower profile q maxR tree cat.
Proof.
  unfold CheckResolved. cbn [res_rels newResolver]. split.
  - intros [H1 [H2 [H3 H4]%app_eq_nil]%app_eq_nil]%app_eq_nil. split.
    + intros cr Hcr. apply check_ref_nil. by eapply concat_nil_iff in H1.
    + intros ti Hti. apply check_star_nil. by eapply concat_nil_iff in H2.
    + by apply check_insert_nil.
    + by apply check_locks_nil.
  - intros [H1 H2 H3 H4].
    assert (E1 : concat (check_ref ToLower profile q maxR res <$> ColumnRefs tree) = []).
    { apply concat_nil_iff. intros cr Hcr. by apply check_ref_nil, H1. }
    assert (E2 : concat (check_star ToLower profile q maxR res <$> TargetItems tree) = []).
    { apply concat_nil_iff. intros ti Hti. by apply check_star_nil, H2. }
    rewrite E1, E2. cbn. rewrite (proj2 check_insert_nil H3). by apply check_locks_nil.
Qed.
End query.
End proofs.

(** C19: [CheckResolved] reports nothing exactly when the four rules hold of the
    parsed maximal rendering.  No bare name outside a subquery, unless it names
    an output column in ORDER BY, is a column of two relations; a reference that
    resolves to a relation of an optional join - by the last relation of its
    qualifier, unless an enclosing subquery hides an alias of one part, or by the
    one relation that owns the column - stands under every guard of the join; no
    star expands into an optional join; an optional INSERT column that is NOT NULL
    has a default; and no locked statement has an optional LEFT JOIN. *)
Theorem resolved_exact ToLower profile q maxR tree cat :
  CheckResolved ToLower profile q maxR tree cat = [] <-> resolved_holds ToLower profile q maxR tree cat.
Proof. apply check_resolved_nil. Qed.

(** ** Shapes *)

(** A guard set that implies another in every shape. *)
Lemma guards_mono bit mask v w : IPGuards w ⊆ IPGuards v -> guard_active bit mask v = true -> guard_active bit mask w = true.
Proof.
  unfold guard_active. rewrite !forallb_forall. intros Hs H g Hg. apply H. apply list_elem_of_In, Hs. by apply list_elem_of_In.
Qed.

Lemma errors_of_app l r : HasErrors (l ++ r) = HasErrors l || HasErrors r.
Proof. apply existsb_app. Qed.

(** The reports on references are errors. *)
Lemma check_refs_error ToLower profile q maxR res cr :
  HasErrors (check_ref ToLower profile q maxR res cr) = false -> check_ref ToLower profile q maxR res cr = [].
Proof.
  unfold check_ref. destruct (CRStar cr); [done|]. unfold resolve_ref.
  destruct (rev (CRFields cr)) as [|n [|m l]]; [done| |].
  - destruct (CRInSubquery cr); [done|]. destruct (_ && _); [done|].
    destruct (columnCandidates _ _ _ _) as [|r [|r' xs]]; [done| |done]. cbn. by destruct (_ || _).
  - destruct (_ && _); [done|]. cbn. destruct (res_byName res !! _); [|done]. by destruct (_ || _).
Qed.

Lemma resolves_elem ToLower profile tree rels cr rel : resolves ToLower profile tree rels cr rel -> rel ∈ rels.
Proof.
  intros [? ? ? _ _ (pre & post & -> & _)|? ? ? ? ? _ (pre & post & -> & _)|? ? _ (pre & post & -> & _)]; set_solver.
Qed.

Lemma check_resolved_refs ToLower profile q maxR tree cat cr :
  HasErrors (CheckResolved ToLower profile q maxR tree cat) = false -> cr ∈ ColumnRefs tree ->
  check_ref ToLower profile q maxR (newResolver ToLower profile maxR tree cat) cr = [].
Proof.
  unfold CheckResolved. rewrite errors_of_app, orb_false_iff. intros [H _] Hcr. apply check_refs_error with (ToLower := ToLower).
  apply list_elem_of_split in Hcr as (pre & post & E). rewrite E, fmap_app, concat_app, errors_of_app, orb_false_iff in H.
  destruct H as [_ H]. rewrite fmap_cons in H. cbn [concat] in H. rewrite errors_of_app, orb_false_iff in H. apply H.
Qed.

(** C17: in no shape does a reference reach a join that is not there.  When
    [CheckResolved] reports no error on the maximal rendering of a query, and a
    column reference of its parse tree resolves to the relation of an optional
    join, then every rendering of a shape that holds the text of the reference -
    its own optional fragment, when it stands in one - holds the join. *)
Theorem scope_sound ToLower profile q sel maxR tree cat cr rel mask cases orders ins r :
  Render profile q sel = Ok maxR ->
  HasErrors (CheckResolved ToLower profile q maxR tree cat) = false ->
  cr ∈ ColumnRefs tree -> CRStar cr = false -> resolves ToLower profile tree (rel_infos maxR tree cat) cr rel ->
  RenderShape profile q mask cases orders ins = Ok r ->
  (forall v, fragAt maxR (CRLoc cr) = Some v -> v ∈ ifpresents r) ->
  forall w, fragAt maxR (RLoc (ri_ref rel)) = Some w -> w ∈ ifpresents r.
Proof.
  intros Hmax Herr Hcr Hstar Hres Hshape Hv w Hw.
  pose proof (check_resolved_refs _ _ _ _ _ _ _ Herr Hcr) as H. apply check_ref_nil in H; [|done]. destruct H as [_ Hsub].
  specialize (Hsub rel Hres). apply renderCore_ifpresents in Hmax, Hshape.
  assert (Hin : w ∈ omap as_ifpresent (QItems q)).
  { apply fragAt_ifpresents in Hw. rewrite Hmax in Hw. by apply list_elem_of_In, filter_In in Hw as [Hw%list_elem_of_In _]. }
  assert (Hg : ri_guards rel = IPGuards w).
  { assert (Hrel : exists rr, rel = rel_info maxR cat rr).
    { assert (Hr : rel ∈ rel_infos maxR tree cat) by (by eapply resolves_elem).
      apply list_elem_of_fmap in Hr as (rr & -> & _). by exists rr. }
    destruct Hrel as [rr ->]. cbn in *. unfold guardsAt. by rewrite Hw. }
  rewrite Hg in Hsub. rewrite Hshape. apply list_elem_of_In, filter_In. split; [by apply list_elem_of_In|]. cbn.
  unfold guardsAt in Hsub. destruct (fragAt maxR (CRLoc cr)) as [v|].
  - specialize (Hv v eq_refl). rewrite Hshape in Hv. apply list_elem_of_In, filter_In in Hv as [_ Hv]. by eapply guards_mono.
  - unfold guard_active. assert (IPGuards w = []) as -> by (destruct (IPGuards w) as [|g l]; [done|]; exfalso; set_solver). done.
Qed.

(** [SELECT o.id FROM orders o @if-present(:since){ JOIN events e ON e.order_id = o.id }
    WHERE o.open = 1 @if-present(:since){ AND e.at >= :since }] *)
Definition scope_guard : GuardAtom := presence (bs "since").
Definition scope_join : IfPresent :=
  mkIfPresent [scope_guard] SepNone (bs "JOIN events e ON e.order_id = o.id") SlotJoinItem (mkSpan [] 25 80) (mkSpan [] 45 79).
Definition scope_conj : IfPresent :=
  mkIfPresent [scope_guard] SepAnd (bs "e.at >= :since") SlotWhereConjunct (mkSpan [] 97 140) (mkSpan [] 120 134).
Definition scope_query : QueryTemplate :=
  simple_query [ISkeleton (mkSkeleton (bs "SELECT o.id FROM orders o") (mkSpan [] 0 25) false); IIfPresent scope_join;
                ISkeleton (mkSkeleton (bs " WHERE o.open = 1") (mkSpan [] 80 97) false); IIfPresent scope_conj] [bs "since"] [scope_guard].
Definition scope_ref (alias column : string) (loc : Z) : ColRef := mkColRef [bs alias; bs column] false loc false [].
Definition scope_tree : Tree := mkTree 1 1 StmtSelect
  [mkRelRef (bs "o") (bs "orders") [] false 17 JoinBase false; mkRelRef (bs "e") (bs "events") [] false 31 JoinInner false]
  [] [scope_ref "o" "id" 7; scope_ref "e" "order_id" 43; scope_ref "o" "id" 56; scope_ref "o" "open" 67; scope_ref "e" "at" 83]
  [] [] [] [] false false false false None [] [] false false false [] false None [] [].
Definition scope_maximal : Rendering := get_ok (mkRendering RenderMaximal 0 0 0 0 0 [] [] [] [] []) (Render Postgres.Profile scope_query ∅).
Definition scope_shape (mask : N) : Rendering := get_ok scope_maximal (RenderShape Postgres.Profile scope_query mask ∅ [] []).
Definition scope_rel : relInfo := rel_info scope_maximal None (mkRelRef (bs "e") (bs "events") [] false 31 JoinInner false).

Lemma scope_sound_witness :
  ifpresents (scope_shape 0) = [] /\ ifpresents (scope_shape 1) = [scope_join; scope_conj] /\ scope_join ∈ ifpresents (scope_shape 1).
Proof.
  split; [by vm_compute|]. split; [by vm_compute|].
  apply (scope_sound (fmap lower1) Postgres.Profile scope_query ∅ scope_maximal scope_tree None (scope_ref "e" "at" 83) scope_rel 1 ∅ [] []).
  - by vm_compute.
  - by vm_compute.
  - do 4 right. left.
  - done.
  - eapply resolves_alias; [reflexivity|intros s Hs; by apply not_elem_of_nil in Hs|]. eexists [_], []. split; [reflexivity|].
    split; [done|]. split; [done|]. intros x Hx. by apply not_elem_of_nil in Hx.
  - by vm_compute.
  - intros v Hv. vm_compute in Hv. injection Hv as <-. vm_compute. right. left.
  - by vm_compute.
Defined.
