(* ===== verification/TypeRules.v ===== *)
(** * TypeRules

    [internal/rules/types.go]: the types the database gives to the result columns
    and the parameters of the renderings of one query agree.  OIDs are [uint32]
    and only compared. *)

From S2P Require Import Prelude Dialect Template Render Diagnostics Frontend Catalog Resolved.

Definition CodeColumnAgreement : bytes := bs "SQLETCH210".
Definition CodeParamAgreement : bytes := bs "SQLETCH211".

Record ParamType := mkParamType { PtName : bytes; PtType : TypeRef }.

Definition oidCompatibleWithLiteral (oid : N) (k : ValueKind) : bool :=
  match k with
  | ValueString => bool_decide (oid ∈ [18; 19; 25; 1042; 1043; 2950]%N)
  | ValueInt => bool_decide (oid ∈ [20; 21; 23; 26; 700; 701; 1700]%N)
  | ValueBool => N.eqb oid 16
  | ValueNone => false
  end.

Definition kindName (k : ValueKind) : bytes :=
  bs match k with ValueString => "string" | ValueInt => "integer" | ValueBool => "boolean" | ValueNone => "unknown" end.

Section query.
Context (q : QueryTemplate).

Definition paramSpan (name : bytes) : Span :=
  match QParams q !! name with
  | Some p => match POccurrences p with occ :: _ => OcSpan occ | [] => QHeaderSpan q end
  | None => QHeaderSpan q
  end.

(** The place of a rendering's alternative. *)
Definition caseSpan (r : Rendering) : Span :=
  match RKind r with
  | RenderOrderDefault =>
      match omap as_order (QItems q) !! ROrderIdx r with
      | Some o => match ObDefault o with Some d => CCSpan d | None => QHeaderSpan q end
      | None => QHeaderSpan q
      end
  | RenderCase =>
      match omap as_choose (QItems q) !! RChooseIdx r with
      | Some c =>
          match ChCases c !! RCaseIdx r, ChDefault c with
          | Some cs, _ => CCSpan cs
          | None, Some d => CCSpan d
          | None, None => ChSpan c
          end
      | None => QHeaderSpan q
      end
  | _ => QHeaderSpan q
  end.

(** ** Parameters *)

(** The parameters of one rendering in bind order: a known type is compared, and
    the first difference ends the loop. *)
Fixpoint bind_params (l : list (bytes * TypeRef)) (types : gmap bytes TypeRef) : gmap bytes TypeRef * list Diagnostic :=
  match l with
  | [] => (types, [])
  | (name, tr) :: l =>
      match types !! name with
      | None => bind_params l (<[name := tr]> types)
      | Some prev =>
          if N.eqb (TyOID prev) (TyOID tr) then bind_params l types
          else
            (types,
             [WithHintf "add an explicit cast (e.g. :%s::%s) to pin the type" [AStr name; AStr (TyName prev)]
               (Errorf CodeParamAgreement (paramSpan name)
                 "parameter %q is typed %s in one rendering and %s in another; all renderings must agree (premise P1)"
                 [AStr (bs ":" ++ name); AStr (TyName prev); AStr (TyName tr)])])
      end
  end.

Fixpoint bind_renderings (ls : list (list (bytes * TypeRef))) (types : gmap bytes TypeRef) : gmap bytes TypeRef * list Diagnostic :=
  match ls with
  | [] => (types, [])
  | l :: ls =>
      let '(types, diags) := bind_params l types in
      let '(types, diags') := bind_renderings ls types in
      (types, diags ++ diags')
  end.

(** The binds of a rendering the description has a type for. *)
Definition binds (r : Rendering) (d : Desc) : list (bytes * TypeRef) := zip (RParamsSeq r) (DParams d).

Definition ResolveParamTypes (rs : list Rendering) (descs : list Desc) : list ParamType * list Diagnostic :=
  let '(types, diags) := bind_renderings (zip_with binds rs descs) ∅ in
  (omap (fun name => mkParamType name <$> types !! name) (QParamOrder q), diags).

(** ** Columns *)

Definition check_column (r : Rendering) (i : nat) (cs : ColumnDesc * ColumnDesc) : list Diagnostic :=
  let '(c, b) := cs in
  if bool_decide (CdName c = CdName b) && N.eqb (TyOID (CdType c)) (TyOID (CdType b)) then []
  else
    [Errorf CodeColumnAgreement (caseSpan r)
      "result column %d is %q %s here but %q %s in the maximal rendering; all cases must agree (R2)"
      [AInt (Z.of_nat (i + 1)); AStr (CdName c); AStr (TyName (CdType c)); AStr (CdName b); AStr (TyName (CdType b))]].

Definition check_columns (base : Desc) (rd : Rendering * Desc) : list Diagnostic :=
  let '(r, d) := rd in
  if negb (Nat.eqb (length (DColumns d)) (length (DColumns base))) then
    [Errorf CodeColumnAgreement (caseSpan r)
      "this @choose case yields %d result columns; the maximal rendering yields %d (R2)"
      [AInt (Z.of_nat (length (DColumns d))); AInt (Z.of_nat (length (DColumns base)))]]
  else concat (imap (check_column r) (zip (DColumns d) (DColumns base))).

(** ** Value guards *)

Definition check_value (types : list ParamType) (g : GuardAtom) : list Diagnostic :=
  if negb (IsValue g) then []
  else match first (fun pt => bool_decide (PtName pt = GParam g)) (rev types) with
       | Some pt =>
           if oidCompatibleWithLiteral (TyOID (PtType pt)) (GKind g) then []
           else [Errorf CodeParamAgreement (paramSpan (GParam g))
                  "@when compares %q (SQL type %s) against a %s literal; the types must agree (premise P1)"
                  [AStr (GParam g); AStr (TyName (PtType pt)); AStr (kindName (GKind g))]]
       | None => []
       end.

Definition CheckTypeAgreement (rs : list Rendering) (descs : list Desc) : list Diagnostic :=
  match zip rs descs with
  | [] => []
  | (_, base) :: rest =>
      if negb (Nat.eqb (length rs) (length descs)) then []
      else
        let '(types, paramDiags) := ResolveParamTypes rs descs in
        concat (check_columns base <$> rest) ++ paramDiags ++ concat (check_value types <$> QGuardAtoms q)
  end.
End query.

(** ** Properties *)

(** The type the first bind of a name has. *)
Definition first_type (l : list (bytes * TypeRef)) (name : bytes) : option TypeRef :=
  snd <$> first (fun b => bool_decide (b.1 = name)) l.
Definition known (types : gmap bytes TypeRef) (l : list (bytes * TypeRef)) (name : bytes) : option TypeRef :=
  match types !! name with Some t => Some t | None => first_type l name end.

(** All binds of the renderings, with the types the database gives them. *)
Definition bindings (rs : list Rendering) (descs : list Desc) : list (bytes * TypeRef) := concat (zip_with binds rs descs).

Definition params_agree (l : list (bytes * TypeRef)) : Prop :=
  forall name tr tr', (name, tr) ∈ l -> (name, tr') ∈ l -> TyOID tr = TyOID tr'.

Record types_agree (q : QueryTemplate) (rs : list Rendering) (descs : list Desc) : Prop := {
  ta_columns : forall base d, head descs = Some base -> d ∈ tail descs ->
    Forall2 (fun c b => CdName c = CdName b /\ TyOID (CdType c) = TyOID (CdType b)) (DColumns d) (DColumns base);
  ta_params : params_agree (bindings rs descs);
  ta_values : forall g tr, g ∈ QGuardAtoms q -> IsValue g = true -> GParam g ∈ QParamOrder q -> (GParam g, tr) ∈ bindings rs descs ->
    oidCompatibleWithLiteral (TyOID tr) (GKind g) = true;
}.

Section proofs.
Context (q : QueryTemplate).

Lemma first_type_in l name tr : first_type l name = Some tr -> (name, tr) ∈ l.
Proof.
  unfold first_type. destruct (first _ l) as [[n t]|] eqn:E; [|done]. intros [= <-].
  apply first_spec in E as [E Hn%bool_decide_eq_true]. cbn in Hn. by rewrite <- Hn.
Qed.

Lemma first_type_some l name tr : (name, tr) ∈ l -> is_Some (first_type l name).
Proof.
  intros H. unfold first_type. destruct (first _ l) as [b|] eqn:E; [by eexists|].
  pose proof (proj1 (first_none _ _) E _ H) as Hf. cbn in Hf. by rewrite bool_decide_eq_true_2 in Hf.
Qed.

Lemma first_type_cons n t l name : first_type ((n, t) :: l) name = if decide (n = name) then Some t else first_type l name.
Proof. unfold first_type. cbn. unfold bool_decide. by destruct (decide_rel _ _ _). Qed.

(** The types agree with what is known before them. *)
Definition fits (types : gmap bytes TypeRef) (l : list (bytes * TypeRef)) : Prop :=
  forall name tr p, (name, tr) ∈ l -> known types l name = Some p -> TyOID p = TyOID tr.

Lemma known_insert types l name tr n : types !! name = None ->
  known (<[name := tr]> types) l n = known types ((name, tr) :: l) n.
Proof.
  intros H. unfold known. rewrite first_type_cons. destruct (decide (name = n)) as [<-|Hn].
  - by rewrite lookup_insert_eq, H.
  - by rewrite lookup_insert_ne.
Qed.

Lemma known_cons types l name tr n p : types !! name = Some p -> known types ((name, tr) :: l) n = known types l n.
Proof.
  intros H. unfold known. rewrite first_type_cons. destruct (types !! n) eqn:E; [done|].
  destruct (decide (name = n)) as [<-|]; [congruence|done].
Qed.

Lemma bind_params_spec l types :
  ((bind_params q l types).2 = [] <-> fits types l) /\
  ((bind_params q l types).2 = [] -> forall n, (bind_params q l types).1 !! n = known types l n).
Proof.
  revert types. induction l as [|[name tr] l IH]; intros types; cbn [bind_params].
  - cbn. split; [split; [intros _ ? ? ? H; by apply not_elem_of_nil in H|done]|].
    intros _ n. unfold known. by destruct (types !! n).
  - destruct (types !! name) as [p|] eqn:E.
    + assert (Hk : forall n, known types ((name, tr) :: l) n = known types l n) by (intros n; by eapply known_cons).
      destruct (N.eqb_spec (TyOID p) (TyOID tr)) as [Ho|Ho].
      * destruct (IH types) as [H1 H2]. split; [|intros H n; by rewrite Hk, H2].
        rewrite H1. unfold fits. setoid_rewrite Hk. split; intros H n t p' Hin Hp.
        -- apply list.elem_of_cons in Hin as [[= -> ->]|Hin]; [|by eapply H].
           unfold known in Hp. rewrite E in Hp. by injection Hp as <-.
        -- eapply H; [by apply list.elem_of_cons; right|done].
      * split; [|done]. split; [done|]. intros H. exfalso. apply Ho. apply (H name tr p); [by apply list.elem_of_cons; left|].
        unfold known. by rewrite E.
    + destruct (IH (<[name := tr]> types)) as [H1 H2]. split; [|intros H n; by rewrite H2, known_insert].
      rewrite H1. unfold fits. split; intros H n t p' Hin Hp.
      * rewrite <- known_insert in Hp by done. apply list.elem_of_cons in Hin as [[= -> ->]|Hin]; [|by eapply H].
        unfold known in Hp. rewrite lookup_insert_eq in Hp. by injection Hp as <-.
      * rewrite known_insert in Hp by done. eapply H; [by apply list.elem_of_cons; right|done].
Qed.

Lemma first_type_app l l' name : first_type (l ++ l') name = match first_type l name with Some t => Some t | None => first_type l' name end.
Proof.
  induction l as [|[n t] l IH]; [done|]. cbn [app]. rewrite !first_type_cons, IH. by destruct (decide (n = name)).
Qed.

Lemma known_app types types' l l' : (forall n, types' !! n = known types l n) -> forall n, known types' l' n = known types (l ++ l') n.
Proof.
  intros H n. unfold known at 1. rewrite H. unfold known. rewrite first_type_app. by destruct (types !! n), (first_type l n).
Qed.

Lemma fits_app types types' l l' : (forall n, types' !! n = known types l n) ->
  fits types (l ++ l') <-> fits types l /\ fits types' l'.
Proof.
  intros H. unfold fits. setoid_rewrite (known_app _ _ _ l' H).
  assert (Hk : forall n t p, (n, t) ∈ l -> known types (l ++ l') n = Some p <-> known types l n = Some p).
  { intros n t p Hin. unfold known. destruct (types !! n); [done|]. rewrite first_type_app.
    destruct (first_type_some _ _ _ Hin) as [t' ->]. done. }
  split.
  - intros Hf. split; intros n t p Hin Hp; [|eapply Hf; [apply elem_of_app; by right|done]].
    eapply Hf; [apply elem_of_app; by left|]. by rewrite (Hk _ _ _ Hin).
  - intros [H1 H2] n t p [Hin|Hin]%elem_of_app Hp; [|by eapply H2]. eapply H1; [done|]. by rewrite <- (Hk _ _ _ Hin).
Qed.

Lemma bind_renderings_spec ls types :
  ((bind_renderings q ls types).2 = [] <-> fits types (concat ls)) /\
  ((bind_renderings q ls types).2 = [] -> forall n, (bind_renderings q ls types).1 !! n = known types (concat ls) n).
Proof.
  revert types. induction ls as [|l ls IH]; intros types; cbn [bind_renderings concat]; [apply (bind_params_spec [])|].
  destruct (bind_params_spec l types) as [H1 H2]. destruct (bind_params q l types) as [types1 diags1]. cbn in H1, H2.
  destruct (IH types1) as [H3 H4]. destruct (bind_renderings q ls types1) as [types2 diags2]. cbn in H3, H4 |- *.
  split.
  - split.
    + intros [-> ->]%app_eq_nil. apply (fits_app _ types1); [by apply H2|]. split; [by apply H1|by apply H3].
    + intros H. assert (Hf : fits types l).
      { intros n t p Hin Hp. eapply H; [apply elem_of_app; by left|]. unfold known in *. destruct (types !! n); [done|].
        rewrite first_type_app. by rewrite Hp. }
      apply H1 in Hf. rewrite Hf. apply H3. eapply fits_app; [by apply H2|exact H].
  - intros [-> ->]%app_eq_nil n. rewrite H4 by done. apply known_app. by apply H2.
Qed.

Lemma fits_empty l : fits ∅ l <-> params_agree l.
Proof.
  unfold fits, params_agree, known. split.
  - intros H name tr tr' H1 H2. destruct (first_type_some _ _ _ H1) as [p Hp].
    transitivity (TyOID p); [symmetry|]; eapply H; by rewrite ?lookup_empty.
  - intros H name tr p Hin Hp. rewrite lookup_empty in Hp. eapply H; [by apply first_type_in|done].
Qed.

Lemma check_column_nil r i c b : check_column q r i (c, b) = [] <-> CdName c = CdName b /\ TyOID (CdType c) = TyOID (CdType b).
Proof.
  unfold check_column. destruct (bool_decide _) eqn:E1; cbn; [apply bool_decide_eq_true in E1|apply bool_decide_eq_false in E1; split; [done|tauto]].
  destruct (N.eqb_spec (TyOID (CdType c)) (TyOID (CdType b))); split; done || tauto.
Qed.

Lemma check_columns_nil base r d : check_columns q base (r, d) = [] <->
  Forall2 (fun c b => CdName c = CdName b /\ TyOID (CdType c) = TyOID (CdType b)) (DColumns d) (DColumns base).
Proof.
  unfold check_columns. destruct (Nat.eqb_spec (length (DColumns d)) (length (DColumns base))) as [E|E]; cbn [negb].
  - rewrite concat_imap_nil, Forall2_same_length_lookup. split.
    + intros H. split; [done|]. intros i c b H1 H2. apply (check_column_nil r i), H. apply lookup_zip_with_Some. by exists c, b.
    + intros [_ H] i x (c & b & -> & H1 & H2)%lookup_zip_with_Some. by apply check_column_nil, (H i).
  - split; [done|]. intros H%Forall2_length. done.
Qed.

Lemma check_value_nil l g : params_agree l ->
  check_value q (omap (fun name => mkParamType name <$> first_type l name) (QParamOrder q)) g = [] <->
  (IsValue g = true -> GParam g ∈ QParamOrder q -> forall tr, (GParam g, tr) ∈ l -> oidCompatibleWithLiteral (TyOID tr) (GKind g) = true).
Proof.
  intros Hl. unfold check_value. destruct (IsValue g); cbn [negb]; [|done].
  set (types := omap _ _).
  assert (Hin : forall pt, pt ∈ types <-> PtName pt ∈ QParamOrder q /\ first_type l (PtName pt) = Some (PtType pt)).
  { intros [n t]. subst types. rewrite list_elem_of_omap. split.
    - intros (n' & Hn & Hf). destruct (first_type l n') eqn:E; [|done]. injection Hf as -> ->. done.
    - intros [Hn Hf]. exists n. split; [done|]. cbn in Hf. by rewrite Hf. }
  destruct (first _ (rev types)) as [pt|] eqn:E.
  - apply first_spec in E as [E Hn%bool_decide_eq_true]. rewrite list_elem_of_In, <- in_rev, <- list_elem_of_In, Hin, Hn in E.
    destruct E as [Ho Hf]. pose proof (first_type_in _ _ _ Hf) as Hb. destruct (oidCompatibleWithLiteral _ _) eqn:Ec.
    + split; [|done]. intros _ _ _ tr Htr. by rewrite (Hl _ _ _ Htr Hb).
    + split; [done|]. intros H. rewrite (H eq_refl Ho _ Hb) in Ec. discriminate Ec.
  - split; [|done]. intros _ _ Ho tr Htr. exfalso. destruct (first_type_some _ _ _ Htr) as [t Ht].
    assert (Hp : mkParamType (GParam g) t ∈ rev types).
    { rewrite list_elem_of_In, <- in_rev, <- list_elem_of_In. by apply Hin. }
    pose proof (proj1 (first_none _ _) E _ Hp) as Hf. cbn in Hf. by rewrite bool_decide_eq_true_2 in Hf.
Qed.

Lemma ResolveParamTypes_spec rs descs :
  ((ResolveParamTypes q rs descs).2 = [] <-> params_agree (bindings rs descs)) /\
  (params_agree (bindings rs descs) ->
    (ResolveParamTypes q rs descs).1 = omap (fun name => mkParamType name <$> first_type (bindings rs descs) name) (QParamOrder q)).
Proof.
  unfold ResolveParamTypes, bindings. destruct (bind_renderings_spec (zip_with binds rs descs) ∅) as [H1 H2].
  destruct (bind_renderings _ _ _) as [types diags]. cbn in *. rewrite fits_empty in H1. split; [done|]. intros H%H1.
  induction (QParamOrder q) as [|n l IH]; [done|]. cbn. rewrite IH, (H2 H n). unfold known. by rewrite lookup_empty.
Qed.
End proofs.

(** C20: each parameter has one type.  [CheckTypeAgreement] reports nothing
    exactly when, of the descriptions that go with the renderings, every one has
    the columns of the first - as many, of the same names and types - any two
    binds of a parameter anywhere have the same type, and the parameters that
    value guards compare and that are bound have a type of the literal's kind.
    When the binds agree [ResolveParamTypes] gives the bound parameters, in the
    order of the query, each with the type of its binds. *)
Theorem type_agreement_exact q rs descs :
  (CheckTypeAgreement q rs descs = [] <-> rs = [] \/ length rs <> length descs \/ types_agree q rs descs) /\
  ((ResolveParamTypes q rs descs).2 = [] <-> params_agree (bindings rs descs)) /\
  ((ResolveParamTypes q rs descs).2 = [] -> forall name tr, In (mkParamType name tr) (ResolveParamTypes q rs descs).1 ->
    name ∈ QParamOrder q /\ (name, tr) ∈ bindings rs descs /\ forall tr', (name, tr') ∈ bindings rs descs -> TyOID tr' = TyOID tr) /\
  ((ResolveParamTypes q rs descs).2 = [] ->
    PtName <$> (ResolveParamTypes q rs descs).1 = base.filter (fun name => is_Some (first_type (bindings rs descs) name)) (QParamOrder q)).
Proof.
  destruct (ResolveParamTypes_spec q rs descs) as [Hd Ht]. split; [|split; [done|split]].
  - unfold CheckTypeAgreement. destruct rs as [|r rs]; [by split; [left|]|]. destruct descs as [|base descs]; [split; [by right; left|done]|].
    cbn [zip zip_with]. destruct (Nat.eqb_spec (length (r :: rs)) (length (base :: descs))) as [El|El]; cbn [negb]; [|split; [by right; left|done]].
    destruct (ResolveParamTypes q _ _) as [types diags]. cbn [fst snd] in *. split.
    + intros [H1 [-> H3]%app_eq_nil]%app_eq_nil. right. right. pose proof (proj1 Hd eq_refl) as Ha. rewrite (Ht Ha) in H3. split; [|done|].
      * intros b d [= <-] Hdd. cbn in Hdd. apply list_elem_of_lookup in Hdd as [i Hi].
        destruct (lookup_lt_is_Some_2 rs i) as [r' Hr]; [apply lookup_lt_Some in Hi; cbn in El; lia|].
        apply (check_columns_nil q base r'). apply (proj1 (concat_nil_iff _ _) H1).
        apply list_elem_of_lookup. exists i. apply lookup_zip_with_Some. by exists r', d.
      * intros g tr Hg Hv Ho Hb. pose proof (proj1 (concat_nil_iff _ _) H3 g Hg) as H. by eapply check_value_nil in H.
    + intros [H|[H|[H1 H2 H3]]]; [done|done|]. rewrite (proj2 Hd H2), (Ht H2).
      assert (E1 : concat (check_columns q base <$> zip rs descs) = []).
      { apply concat_nil_iff. intros [r' d] Hrd. apply check_columns_nil, H1; [done|]. cbn. by apply elem_of_zip_r in Hrd. }
      rewrite E1. cbn. apply concat_nil_iff. intros g Hg. apply check_value_nil; [done|]. intros. by eapply H3.
  - intros H%Hd name tr Hin. rewrite (Ht H) in Hin. apply list_elem_of_In, list_elem_of_omap in Hin as (n & Hn & Hf).
    destruct (first_type _ n) as [t|] eqn:E; [|done]. injection Hf as -> ->. apply first_type_in in E.
    split; [done|]. split; [done|]. intros tr' Htr'. by eapply H.
  - intros H%Hd. rewrite (Ht H). clear Hd Ht H. induction (QParamOrder q) as [|n l IH]; [done|]. rewrite list.filter_cons, <- IH.
    cbn [omap list_omap]. destruct (first_type _ n) as [t|]; cbn; case_decide as Hs; [done|by destruct Hs; eexists|by destruct Hs as [? ?]|done].
Qed.

(** ** NullableParams

    [internal/rules/nullable_params.go]: the parameters that may be NULL, those
    whose every occurrence writes a nullable column of the target table. *)

Section derive.
Context (ToLower : bytes -> bytes) (profile : LexerProfile).
Notation fold := (fold ToLower profile).

(** An exact match wins; otherwise names are compared folded. *)
Definition lookupFolded (cat : Catalog) (schema name : bytes) : option Table :=
  match LookupQualified cat schema name with
  | Some t => Some t
  | None => first (fun t => bool_decide (fold (TabName t) = fold name)
                      && (bool_decide (schema = []) || bool_decide (fold (TabSchema t) = fold schema))) (CatTables cat)
  end.

(** The kinds of parameters that are left plain. *)
Definition nullableEligible (q : QueryTemplate) (p : Param) : bool :=
  bool_decide (PPolicy p = []) && negb (bool_decide (POccurrences p = []))
  && forallb (fun occ => negb (OcInFilterTree occ || OcInIn occ)) (POccurrences p)
  && forallb (fun g => negb (bool_decide (GParam g = PName p) && IsValue g)) (QGuardAtoms q).

(** The name a qualifier must have, folded, to name the target. *)
Definition target_name (target : RelRef) : bytes := match RAlias target with [] => RTable target | a => a end.

(** A column of the table that is not declared NOT NULL; the first of a name. *)
Definition nullable_column (tbl : Table) (name : bytes) : bool :=
  match first (fun c => bool_decide (fold (ColName c) = fold name)) (TabCols tbl) with
  | Some c => negb (ColNotNull c)
  | None => false
  end.

Definition qualifier_ok (target : RelRef) (vt : ValueTarget) : bool :=
  match VTQualifier vt with [] => true | qualifier => bool_decide (fold qualifier = fold (target_name target)) end.

(** One value position: the template offset of its placeholder is nullable when
    all positions there are. *)
Definition record_target (maxR : Rendering) (target : RelRef) (tbl : Table) (m : gmap nat bool) (vt : ValueTarget) : gmap nat bool :=
  if negb (qualifier_ok target vt) then m
  else
    let '(tOff, synth) := template_at maxR (VTLoc vt) in
    if negb synth then m
    else
      let nullable := nullable_column tbl (VTColumn vt) in
      <[tOff := match m !! tOff with Some prev => nullable && prev | None => nullable end]> m.

Definition nullableAt (maxR : Rendering) (target : RelRef) (tbl : Table) (vts : list ValueTarget) : gmap nat bool :=
  foldl (record_target maxR target tbl) ∅ vts.

Definition all_nullable (at_ : gmap nat bool) (p : Param) : bool :=
  forallb (fun occ => default false (at_ !! SStart (OcSpan occ))) (POccurrences p).

(** Go's result maps the names to [true]; a missing and an empty map are the
    empty set. *)
Definition DeriveNullableParams (q : QueryTemplate) (maxR : Rendering) (maxTree : Tree) (cat : option Catalog) : gset bytes :=
  match cat, Relations maxTree with
  | Some cat, target :: _ =>
      if negb (Z.eqb (StmtCount maxTree) 1) || negb (bool_decide (TKind maxTree = StmtInsert) || bool_decide (TKind maxTree = StmtUpdate))
         || bool_decide (RTable target = []) then ∅
      else match lookupFolded cat (RSchema target) (RTable target) with
           | Some tbl =>
               if TabIsView tbl then ∅
               else
                 let at_ := nullableAt maxR target tbl (ValueTargets maxTree) in
                 list_to_set (List.filter (fun name =>
                   match QParams q !! name with
                   | Some p => nullableEligible q p && all_nullable at_ p
                   | None => false
                   end) (QParamOrder q))
           | None => ∅
           end
  | _, _ => ∅
  end.

(** ** Properties *)

(** A value position of the target at a template offset. *)
Definition position (maxR : Rendering) (target : RelRef) (off : nat) (vt : ValueTarget) : Prop :=
  (VTQualifier vt = [] \/ fold (VTQualifier vt) = fold (target_name target)) /\ template_at maxR (VTLoc vt) = (off, true).

Definition writes_nullable (tbl : Table) (name : bytes) : Prop :=
  exists pre c post, TabCols tbl = pre ++ c :: post /\ fold (ColName c) = fold name /\ ColNotNull c = false /\
    forall c', c' ∈ pre -> fold (ColName c') <> fold name.

(** A parameter of the author, bound outside filter trees and [@in] lists, and
    compared with no literal. *)
Record plain_param (q : QueryTemplate) (p : Param) : Prop := {
  pp_author : PPolicy p = [];
  pp_bound : POccurrences p <> [];
  pp_place : forall occ, occ ∈ POccurrences p -> OcInFilterTree occ = false /\ OcInIn occ = false;
  pp_guard : forall g, g ∈ QGuardAtoms q -> GParam g = PName p -> IsValue g = false;
}.

(** The one INSERT or UPDATE of a base table of the catalog. *)
Definition writes (maxTree : Tree) (cat : Catalog) (target : RelRef) (tbl : Table) : Prop :=
  head (Relations maxTree) = Some target /\ StmtCount maxTree = 1%Z /\ (TKind maxTree = StmtInsert \/ TKind maxTree = StmtUpdate) /\
  RTable target <> [] /\ lookupFolded cat (RSchema target) (RTable target) = Some tbl /\ TabIsView tbl = false.

Lemma first_split {A} (P : A -> bool) l x : first P l = Some x <->
  exists pre post, l = pre ++ x :: post /\ P x = true /\ forall y, y ∈ pre -> P y = false.
Proof.
  induction l as [|y l IH]; cbn.
  - split; [done|intros (pre & post & H & _); by destruct pre].
  - destruct (P y) eqn:E.
    + split.
      * intros [= ->]. exists [], l. repeat split; [done|]. intros z Hz. by apply not_elem_of_nil in Hz.
      * intros ([|z pre] & post & [= -> ->] & Hx & Hn); [done|]. rewrite (Hn z) in E; [done|]. apply list.elem_of_cons. by left.
    + rewrite IH. split.
      * intros (pre & post & -> & Hx & Hn). exists (y :: pre), post. repeat split; [done|].
        intros z [->|Hz]%list.elem_of_cons; [done|by apply Hn].
      * intros ([|z pre] & post & [= -> ->] & Hx & Hn); [congruence|]. exists pre, post. repeat split; [done|].
        intros y Hy. apply Hn. apply list.elem_of_cons. by right.
Qed.

Lemma nullable_column_spec tbl name : nullable_column tbl name = true <-> writes_nullable tbl name.
Proof.
  unfold nullable_column, writes_nullable. destruct (first _ _) as [c|] eqn:E.
  - apply first_split in E as (pre & post & E & Hc%bool_decide_eq_true & Hn). rewrite negb_true_iff. split.
    + intros Hnn. exists pre, c, post. repeat split; [done..|]. intros c' Hc'. by apply (bool_decide_eq_false _), Hn.
    + intros (pre' & c' & post' & E' & Hf & Hnn & Hn').
      assert (Hs : Some c = Some c'); [|by injection Hs as ->].
      transitivity (first (fun c => bool_decide (fold (ColName c) = fold name)) (TabCols tbl)).
      * symmetry. apply first_split. exists pre, post. repeat split; [done|by apply bool_decide_eq_true|done].
      * apply first_split. exists pre', post'. repeat split; [done|by apply bool_decide_eq_true|].
        intros y Hy. by apply bool_decide_eq_false, Hn'.
  - split; [done|]. intros (pre & c & post & E' & Hf & _). pose proof (proj1 (first_none _ _) E c) as H.
    assert (Hc : c ∈ TabCols tbl) by (rewrite E'; apply elem_of_app; right; apply list.elem_of_cons; by left).
    specialize (H Hc). cbn in H. by rewrite bool_decide_eq_true_2 in H.
Qed.

Lemma eligible_spec q p : nullableEligible q p = true <-> plain_param q p.
Proof.
  unfold nullableEligible. rewrite !andb_true_iff, negb_true_iff, bool_decide_eq_true, bool_decide_eq_false, !forallb_forall.
  setoid_rewrite negb_true_iff. setoid_rewrite orb_false_iff. setoid_rewrite andb_false_iff. setoid_rewrite bool_decide_eq_false. split.
  - intros [[[H1 H2] H3] H4]. split; [done|done| |].
    + intros occ Ho. apply H3. by apply list_elem_of_In.
    + intros g Hg He. by destruct (H4 g (proj1 (list_elem_of_In _ _) Hg)).
  - intros [H1 H2 H3 H4]. split; [split; [done|]|].
    + intros occ Ho. apply H3. by apply list_elem_of_In.
    + intros g Hg. destruct (decide (GParam g = PName p)) as [E|E]; [|by left]. right. apply H4; [by apply list_elem_of_In|done].
Qed.

Lemma qualifier_ok_spec target vt : qualifier_ok target vt = true <->
  VTQualifier vt = [] \/ fold (VTQualifier vt) = fold (target_name target).
Proof. unfold qualifier_ok. destruct (VTQualifier vt); [tauto|]. rewrite bool_decide_eq_true. split; [by right|by intros [?|?]]. Qed.

(** The value positions at an offset. *)
Definition positions (maxR : Rendering) (target : RelRef) (off : nat) (vts : list ValueTarget) : list ValueTarget :=
  List.filter (fun vt => qualifier_ok target vt && bool_decide (template_at maxR (VTLoc vt) = (off, true))) vts.

Lemma positions_spec maxR target off vts vt : In vt (positions maxR target off vts) <-> vt ∈ vts /\ position maxR target off vt.
Proof.
  unfold positions, position. by rewrite filter_In, andb_true_iff, qualifier_ok_spec, bool_decide_eq_true, list_elem_of_In.
Qed.

(** The map holds of each offset whether all its positions are nullable. *)
Lemma nullableAt_spec maxR target tbl vts off : nullableAt maxR target tbl vts !! off =
  match positions maxR target off vts with [] => None | l => Some (forallb (fun vt => nullable_column tbl (VTColumn vt)) l) end.
Proof.
  unfold nullableAt. induction vts as [|vt vts IH] using rev_ind; [apply lookup_empty|].
  rewrite foldl_app. cbn [foldl]. unfold record_target at 1. set (m := foldl _ _ _) in *.
  unfold positions in *. rewrite List.filter_app. cbn [List.filter].
  set (l := List.filter _ vts) in *. clearbody l m.
  destruct (qualifier_ok target vt); cbn [negb andb]; [|by rewrite app_nil_r].
  destruct (template_at maxR (VTLoc vt)) as [tOff [|]]; cbn [negb];
    [|by rewrite bool_decide_eq_false_2, app_nil_r by done].
  destruct (decide (tOff = off)) as [->|Hn].
  - rewrite bool_decide_eq_true_2, lookup_insert_eq, IH by done. destruct l as [|x l]; cbn; [by rewrite andb_true_r|].
    rewrite forallb_app. cbn. by destruct (nullable_column tbl (VTColumn vt)), (nullable_column tbl (VTColumn x)), (forallb _ l).
  - by rewrite bool_decide_eq_false_2, app_nil_r, lookup_insert_ne by congruence.
Qed.

Lemma all_nullable_spec maxR target tbl vts p : all_nullable (nullableAt maxR target tbl vts) p = true <->
  forall occ, occ ∈ POccurrences p ->
    (exists vt, vt ∈ vts /\ position maxR target (SStart (OcSpan occ)) vt) /\
    forall vt, vt ∈ vts -> position maxR target (SStart (OcSpan occ)) vt -> writes_nullable tbl (VTColumn vt).
Proof.
  unfold all_nullable. rewrite forallb_forall. setoid_rewrite <- list_elem_of_In. setoid_rewrite <- nullable_column_spec.
  assert (H : forall off, default false (nullableAt maxR target tbl vts !! off) = true <->
    (exists vt, vt ∈ vts /\ position maxR target off vt) /\
    forall vt, vt ∈ vts -> position maxR target off vt -> nullable_column tbl (VTColumn vt) = true).
  { intros off. rewrite nullableAt_spec. pose proof (positions_spec maxR target off vts) as Hs.
    destruct (positions maxR target off vts) as [|x l]; cbn [default from_option id].
    - split; [done|]. intros [(vt & Hv & Hp) _]. by destruct (proj2 (Hs vt) (conj Hv Hp)).
    - rewrite forallb_forall. split.
      + intros H. split; [exists x; apply Hs; by left|]. intros vt Hv Hp. apply H. by apply Hs.
      + intros [_ H] vt [Hv Hp]%Hs. by apply H. }
  by setoid_rewrite H.
Qed.
End derive.

(** The parameters that may be NULL, exactly: those an author wrote in the
    one INSERT or UPDATE of a base table of the catalog, in no filter tree, no
    [@in] list and no value guard, and of which every occurrence is the value of a
    column of that table - each column written there, the first of its folded
    name, not declared NOT NULL.  All others stay plain, and without a catalog
    every parameter does. *)
Theorem nullable_params_exact ToLower profile q maxR maxTree cat name :
  name ∈ DeriveNullableParams ToLower profile q maxR maxTree cat <->
  exists catalog target tbl p,
    cat = Some catalog /\ writes ToLower profile maxTree catalog target tbl /\
    name ∈ QParamOrder q /\ QParams q !! name = Some p /\ plain_param q p /\
    forall occ, occ ∈ POccurrences p ->
      (exists vt, vt ∈ ValueTargets maxTree /\ position ToLower profile maxR target (SStart (OcSpan occ)) vt) /\
      forall vt, vt ∈ ValueTargets maxTree -> position ToLower profile maxR target (SStart (OcSpan occ)) vt ->
        writes_nullable ToLower profile tbl (VTColumn vt).
Proof.
  unfold DeriveNullableParams, writes. destruct cat as [catalog|]; [|split; [by intros ?%not_elem_of_empty|by intros (? & ? & ? & ? & [=] & _)]].
  destruct (Relations maxTree) as [|target rest]; [split; [by intros ?%not_elem_of_empty|by intros (? & ? & ? & ? & _ & ([=] & _) & _)]|].
  destruct (_ || _) eqn:Eg.
  { split; [by intros ?%not_elem_of_empty|]. intros (c & t & tbl & p & _ & ([= <-] & Hc & Hk & Ht & _) & _). exfalso.
    rewrite Hc, bool_decide_eq_false_2 with (P := RTable target = []) in Eg by done. cbn in Eg. rewrite orb_false_r in Eg.
    apply negb_true_iff, orb_false_iff in Eg as [E1%bool_decide_eq_false E2%bool_decide_eq_false]. by destruct Hk. }
  apply orb_false_iff in Eg as [[E1 E2]%orb_false_iff E3%bool_decide_eq_false].
  apply negb_false_iff, Z.eqb_eq in E1. apply negb_false_iff, orb_true_iff in E2. rewrite !bool_decide_eq_true in E2.
  destruct (lookupFolded _ _ _ _ _) as [tbl|] eqn:El;
    [|split; [by intros ?%not_elem_of_empty|intros (c & t & tbl & p & [= <-] & ([= <-] & _ & _ & _ & Hl & _) & _); congruence]].
  destruct (TabIsView tbl) eqn:Ev;
    [split; [by intros ?%not_elem_of_empty|intros (c & t & tbl' & p & [= <-] & ([= <-] & _ & _ & _ & Hl & Hv) & _); congruence]|].
  rewrite elem_of_list_to_set, list_elem_of_In, filter_In, <- list_elem_of_In. split.
  - intros [Ho H]. destruct (QParams q !! name) as [p|] eqn:Ep; [|done]. apply andb_true_iff in H as [H1%eligible_spec H2].
    exists catalog, target, tbl, p. do 2 (split; [done|]). do 3 (split; [done|]). by apply all_nullable_spec.
  - intros (c & t & tbl' & p & [= <-] & ([= <-] & _ & _ & _ & Hl & _) & Ho & Ep & H1 & H2). split; [done|].
    rewrite El in Hl. injection Hl as <-. rewrite Ep. apply andb_true_iff. split; [by apply eligible_spec|by apply all_nullable_spec].
Qed.
