(* ===== verification/Lint.v ===== *)
(** * Lint

    [internal/lint/lint.go]: the performance lints, a lexical whitelist over the
    renderings of a query.  A pass returns the reports in the order in which it
    adds them to the collector.  [strings.ToUpper] is an argument. *)

From S2P Require Import Prelude Dialect Template Render Diagnostics Frontend Catalog Resolved.

Definition CodePerfNoLintUnused : bytes := bs "SQLETCHL006".

(** ** Collection and suppression *)

Definition perfKey : Type := bytes * nat * nat.
Definition key_of (d : Diagnostic) : perfKey := (DCode d, SStart (DSpan d), SEnd (DSpan d)).

Record perfCollector := mkCollector { pc_seen : gset perfKey; pc_diags : list Diagnostic }.
Definition newPerfCollector : perfCollector := mkCollector ∅ [].

Definition add (c : perfCollector) (d : Diagnostic) : perfCollector :=
  if decide (key_of d ∈ pc_seen c) then c else mkCollector ({[key_of d]} ∪ pc_seen c) (pc_diags c ++ [d]).

(** The order of [finish]: span, then code. *)
Definition finish_less (a b : Diagnostic) : bool :=
  if negb (Nat.eqb (SStart (DSpan a)) (SStart (DSpan b))) then Nat.ltb (SStart (DSpan a)) (SStart (DSpan b))
  else if negb (Nat.eqb (SEnd (DSpan a)) (SEnd (DSpan b))) then Nat.ltb (SEnd (DSpan a)) (SEnd (DSpan b))
  else bytes_ltb (DCode a) (DCode b).

Definition unused_nolint (a : NoLint) : Diagnostic :=
  WithHintf "remove %s from the @nolint directive" [AStr (NLCode a)]
    (Warnf CodePerfNoLintUnused (NLSpan a)
       "@nolint %s suppresses nothing: the lint does not fire on this query, and a stale suppression would hide its next regression"
       [AStr (NLCode a)]).

Definition finish (q : QueryTemplate) (c : perfCollector) (owned : list bytes) : list Diagnostic :=
  let fired : gset bytes := list_to_set (DCode <$> pc_diags c) in
  let judged := base.filter (fun a => NLCode a ∈ owned) (QNoLints q) in
  let allowed : gset bytes := list_to_set (NLCode <$> judged) in
  SliceStable finish_less
    ((unused_nolint <$> base.filter (fun a => NLCode a ∉ fired) judged)
     ++ base.filter (fun d => DCode d ∉ allowed) (pc_diags c)).

(** ** The tokens of a rendering *)

Record ptok := mkPtok { pt_tok : Token; pt_depth : nat; pt_upper : bytes; pt_param : bytes }.

Definition pkind (t : ptok) : TokenKind := Kind (pt_tok t).
Definition is_kind (ks : list TokenKind) (t : ptok) : bool := bool_decide (pkind t ∈ ks).
Definition isIdent (l : list bytes) (t : ptok) : bool := is_kind [KindIdent] t && one_of l (pt_upper t).
Definition has_text (l : list bytes) (t : ptok) : bool := one_of l (Text (pt_tok t)).
Definition has_param (t : ptok) : bool := negb (bool_decide (pt_param t = [])).

Section lint.
Context (ToUpper : bytes -> bytes) (profile : LexerProfile).

(** The body of the token loop, from a depth and a number of question marks. *)
Fixpoint ptoks (ParamsSeq : list bytes) (toks : list Token) (depth question : nat) : option (list ptok) :=
  match toks with
  | [] => Some []
  | tok :: toks =>
      if is_trivia (Kind tok) then ptoks ParamsSeq toks depth question
      else
        match Kind tok with
        | KindIdent => cons (mkPtok tok depth (ToUpper (Text tok)) []) <$> ptoks ParamsSeq toks depth question
        | KindLParen => cons (mkPtok tok depth [] []) <$> ptoks ParamsSeq toks (S depth) question
        | KindRParen => cons (mkPtok tok (depth - 1) [] []) <$> ptoks ParamsSeq toks (depth - 1) question
        | KindPositionalParam =>
            let '(idx, question) :=
              match Text tok with
              | "$"%char :: digits => (match Atoi digits with Some n => (n - 1)%Z | None => (-1)%Z end, question)
              | _ => (Z.of_nat question, S question)
              end in
            if (idx <? 0)%Z then None
            else
              match ParamsSeq !! Z.to_nat idx with
              | None => None
              | Some param => cons (mkPtok tok depth [] param) <$> ptoks ParamsSeq toks depth question
              end
        | _ => cons (mkPtok tok depth [] []) <$> ptoks ParamsSeq toks depth question
        end
  end.

(** [None]: the rendering does not lex or its placeholders disagree with its
    parameters. *)
Definition lexRendering (r : Rendering) : option (list ptok) :=
  match tokens (RSQL r) with
  | (_, Some _) => None
  | (toks, None) => ptoks (RParamsSeq r) toks 0 0
  end.

(** The template bytes of a token. *)
Definition token_extent (r : Rendering) (t : ptok) : option (nat * nat) :=
  let '(s, synth) := ToTemplate (RMap r) (Start (pt_tok t)) in
  if synth then if has_param t then Some (s, s + 1 + length (pt_param t)) else None
  else
    let '(last, synthEnd) := ToTemplate (RMap r) (End (pt_tok t) - 1) in
    if synthEnd then None else Some (s, last + 1).

Fixpoint hull (r : Rendering) (toks : list ptok) (acc : option (nat * nat)) : option (nat * nat) :=
  match toks with
  | [] => acc
  | t :: toks =>
      match token_extent r t with
      | None => None
      | Some (s, e) =>
          hull r toks (Some match acc with None => (s, e) | Some (a, b) => (Nat.min s a, Nat.max e b) end)
      end
  end.

Definition templateSpan (q : QueryTemplate) (r : Rendering) (toks : list ptok) : option Span :=
  '(s, e) ← hull r toks None; Some (mkSpan (SFile (QHeaderSpan q)) s e).

(** ** Predicate positions *)

(** [clauseEnders]: they end a predicate at the depth they appear. *)
Definition clauseEnders : list bytes := words
  ["GROUP"; "ORDER"; "HAVING"; "LIMIT"; "OFFSET"; "FETCH"; "WINDOW"; "RETURNING";
   "UNION"; "INTERSECT"; "EXCEPT"; "JOIN"; "INNER"; "LEFT"; "RIGHT"; "FULL"; "CROSS";
   "NATURAL"; "STRAIGHT_JOIN"; "FOR"; "LOCK"; "DO"; "USING"; "SELECT"; "FROM"; "SET";
   "VALUES"; "QUALIFY"]%string.
(** [boolOpeners]: after them a parenthesis opens a boolean group. *)
Definition boolOpeners : list bytes := words ["WHERE"; "ON"; "AND"; "OR"; "NOT"]%string.

(** What [predicateContexts] keeps of a depth; the slices grow with [false] and 0. *)
Record level := mkLevel { lv_active : bool; lv_top : bool; lv_filter : bool; lv_conflict : bool; lv_cases : nat }.
Definition level0 : level := mkLevel false false false false 0.
Definition levels : Type := gmap nat level.
Definition at_level (m : levels) (d : nat) : level := default level0 (m !! d).
Definition set_level (d : nat) (f : level -> level) (m : levels) : levels := <[d := f (at_level m d)]> m.

Definition open_group (prev : option ptok) (d : nat) (m : levels) : levels :=
  let opener := match prev with Some p => isIdent boolOpeners p || is_kind [KindLParen] p | None => false end in
  let inner := lv_active (at_level m d) && Nat.eqb (lv_cases (at_level m d)) 0 && opener in
  let filter := match prev with Some p => isIdent (words ["FILTER"]%string) p | None => false end in
  set_level (S d) (fun l => mkLevel inner (inner && lv_top (at_level m d)) filter (lv_conflict l) 0) m.

(** The switch of [predicateContexts] at a token between its neighbours. *)
Definition pred_step (prev : option ptok) (t : ptok) (next : option ptok) (m : levels) : levels :=
  let d := pt_depth t in
  if is_kind [KindLParen] t then open_group prev d m
  else if isIdent (words ["WHERE"]%string) t then
    if lv_filter (at_level m d) || lv_conflict (at_level m d) then m
    else set_level d (fun l => mkLevel true (Nat.eqb d 0) (lv_filter l) (lv_conflict l) (lv_cases l)) m
  else if isIdent (words ["ON"]%string) t then
    let upsert := match next with Some n => isIdent (words ["CONFLICT"; "DUPLICATE"]%string) n | None => false end in
    set_level d (fun l => mkLevel (negb upsert) (negb upsert && Nat.eqb d 0) (lv_filter l) (upsert || lv_conflict l) (lv_cases l)) m
  else if is_kind [KindSemicolon] t then
    set_level d (fun l => mkLevel false false (lv_filter l) false (lv_cases l)) m
  else if isIdent clauseEnders t || is_kind [KindComma] t then
    set_level d (fun l => mkLevel false false (lv_filter l) (lv_conflict l) (lv_cases l)) m
  else if isIdent (words ["CASE"]%string) t then
    set_level d (fun l => mkLevel (lv_active l) (lv_top l) (lv_filter l) (lv_conflict l) (S (lv_cases l))) m
  else if isIdent (words ["END"]%string) t then
    set_level d (fun l => mkLevel (lv_active l) (lv_top l) (lv_filter l) (lv_conflict l) (lv_cases l - 1)) m
  else m.

(** Per token, whether it is in a predicate and in one of the statement's own. *)
Fixpoint pred_loop (prev : option ptok) (toks : list ptok) (m : levels) : list (bool * bool) :=
  match toks with
  | [] => []
  | t :: rest =>
      let m := pred_step prev t (head rest) m in
      let l := at_level m (pt_depth t) in
      let pred := lv_active l && Nat.eqb (lv_cases l) 0 in
      (pred, pred && lv_top l) :: pred_loop (Some t) rest m
  end.
Definition predicateContexts (toks : list ptok) : list (bool * bool) := pred_loop None toks ∅.

(** ** Comparisons and their operands *)

Definition comparisonOps : list bytes := words ["="; "<>"; "!="; "<"; ">"; "<="; ">="]%string.

(** [comparisonAt], given the neighbours; empty when there is no comparison. *)
Definition comparisonAt (prev : option ptok) (t : ptok) (next : option ptok) : bytes :=
  if is_kind [KindOperator] t && has_text comparisonOps t then bs "op"
  else if negb (isIdent (words ["LIKE"; "ILIKE"; "IN"; "BETWEEN"]%string) t) then []
  else if match prev with Some p => isIdent (words ["NOT"]%string) p | None => false end then []
  else if bool_decide (pt_upper t = bs "IN") && negb (match next with Some n => is_kind [KindLParen] n | None => false end) then []
  else pt_upper t.

Definition operandBoundaries : list bytes := words
  ["AND"; "OR"; "NOT"; "WHERE"; "ON"; "WHEN"; "THEN"; "ELSE"; "END"; "CASE";
   "IS"; "ESCAPE"; "COLLATE"; "LIKE"; "ILIKE"; "IN"; "BETWEEN"]%string.

Definition isOperandBoundary (t : ptok) : bool :=
  match pkind t with
  | KindComma | KindSemicolon => true
  | KindOperator => has_text comparisonOps t
  | KindIdent => one_of operandBoundaries (pt_upper t) || one_of clauseEnders (pt_upper t)
  | _ => false
  end.

(** A token that an operand at depth [d] goes on over. *)
Definition in_operand (d : nat) (t : ptok) : bool :=
  Nat.leb d (pt_depth t) && (Nat.ltb d (pt_depth t) || negb (isOperandBoundary t)).

Fixpoint run (p : ptok -> bool) (toks : list ptok) : list ptok :=
  match toks with t :: rest => if p t then t :: run p rest else [] | [] => [] end.

(** The operand runs to the left and to the right of token [i]. *)
Definition operands (toks : list ptok) (i : nat) : list ptok * list ptok :=
  match toks !! i with
  | None => ([], [])
  | Some t => (rev (run (in_operand (pt_depth t)) (rev (take i toks))), run (in_operand (pt_depth t)) (drop (S i) toks))
  end.

(** ** Shapes of operands *)

Definition endsValue (t : ptok) : bool := is_kind [KindNumber; KindString; KindRParen] t || has_param t.

Definition typeNameContinuations : list bytes := words
  ["PRECISION"; "VARYING"; "CHARACTER"; "CHAR"; "WITH"; "WITHOUT"; "TIME"; "ZONE";
   "YEAR"; "MONTH"; "DAY"; "HOUR"; "MINUTE"; "SECOND"; "TO"; "UNSIGNED"; "SIGNED"]%string.
(** [literalWords]: identifiers that denote values, never columns. *)
Definition literalWords : list bytes := words
  ["NULL"; "TRUE"; "FALSE"; "UNKNOWN"; "DEFAULT"; "CURRENT_DATE"; "CURRENT_TIME";
   "CURRENT_TIMESTAMP"; "LOCALTIME"; "LOCALTIMESTAMP"; "CURRENT_USER"; "SESSION_USER";
   "INTERVAL"; "ARRAY"]%string.
Definition intervalUnits : list bytes := words
  ["MICROSECOND"; "SECOND"; "MINUTE"; "HOUR"; "DAY"; "WEEK"; "MONTH"; "QUARTER"; "YEAR"]%string.
(** [notFunctions]: before a parenthesis these are no calls of scalar functions. *)
Definition notFunctions : list bytes := words
  ["ANY"; "ALL"; "SOME"; "EXISTS"; "IN"; "ARRAY"; "ROW"; "VALUES"; "SELECT"; "NOT"; "CASE";
   "INTERVAL"; "AND"; "OR"]%string.

Definition isName : ptok -> bool := is_kind [KindIdent; KindQuotedIdent].
Definition isDot (t : ptok) : bool := is_kind [KindOther] t && has_text (words ["."]%string) t.
Definition is_literal_word : ptok -> bool := isIdent literalWords.

Definition isColRef (ops : list ptok) : bool :=
  Nat.odd (length ops)
  && forallb (fun '(i, t) => if Nat.odd i then isDot t else isName t && negb (is_literal_word t)) (imap pair ops).

(** The position of the first token that satisfies a test. *)
Fixpoint index_where (p : ptok -> bool) (toks : list ptok) : option nat :=
  match toks with [] => None | t :: rest => if p t then Some 0 else S <$> index_where p rest end.

(** The position of the parenthesis that closes the one at [open]. *)
Definition matchingParen (ops : list ptok) (open : nat) : option nat :=
  o ← ops !! open;
  k ← index_where (fun t => is_kind [KindRParen] t && Nat.eqb (pt_depth t) (pt_depth o)) (drop (S open) ops);
  Some (S open + k).

Definition in_type (t : ptok) : bool :=
  match pkind t with
  | KindIdent | KindQuotedIdent | KindNumber | KindLParen | KindRParen | KindComma => true
  | KindOther => has_text (words ["."; "["; "]"]%string) t
  | _ => false
  end.
Definition isTypeSpec (ops : list ptok) : bool :=
  match ops with t :: _ => isName t && forallb in_type ops | [] => false end.

Fixpoint split_at (d : nat) (args cur : list ptok) : list (list ptok) :=
  match args with
  | [] => [cur]
  | t :: rest => if is_kind [KindComma] t && Nat.eqb (pt_depth t) d then cur :: split_at d rest [] else split_at d rest (cur ++ [t])
  end.
Definition splitArgs (args : list ptok) : list (list ptok) :=
  match args with [] => [] | t :: _ => split_at (pt_depth t) args [] end.

(** The words of [isColumnFree]'s type mode: outside a type name, before its
    first word, after it. *)
Inductive TypeMode := NoType | BeforeType | AfterType.

#[export] Instance TypeMode_eq_dec : EqDecision TypeMode.
Proof. solve_decision. Defined.

Definition free_kinds : list TokenKind :=
  [KindString; KindNumber; KindPositionalParam; KindOperator; KindLParen; KindComma; KindRParen].

(** The name case of [isColumnFree]: the type mode, the pending interval and the
    tokens to skip after the name; [None] when it may be a column. *)
Definition free_name (mode : TypeMode) (interval : bool) (prev : option ptok) (t : ptok) (rest : list ptok) : option (TypeMode * bool * nat) :=
  let mode := match mode with AfterType => if isIdent typeNameContinuations t then AfterType else NoType | m => m end in
  let next ks := match rest with n :: _ => is_kind ks n | [] => false end in
  match mode with
  | BeforeType | AfterType => Some (AfterType, interval, 0)
  | NoType =>
      if isIdent (words ["AT"]%string) t
         && match rest with a :: b :: _ => isIdent (words ["TIME"]%string) a && isIdent (words ["ZONE"]%string) b | _ => false end
      then Some (NoType, interval, 2)
      else if isIdent (words ["AS"]%string) t then Some (BeforeType, interval, 0)
      else if next [KindLParen] && negb (isIdent (words ["SELECT"]%string) t) then Some (NoType, interval, 0)
      else if next [KindString] then Some (NoType, interval, 0)
      else if is_literal_word t then Some (NoType, isIdent (words ["INTERVAL"]%string) t || interval, 0)
      else if interval && isIdent intervalUnits t && match prev with Some p => endsValue p | None => false end
      then Some (NoType, false, 0)
      else None
  end.

Fixpoint free_loop (mode : TypeMode) (interval : bool) (skip : nat) (prev : option ptok) (ops : list ptok) : bool :=
  match ops with
  | [] => true
  | t :: rest =>
      match skip with
      | S skip => free_loop mode interval skip (Some t) rest
      | O =>
          if isName t then
            match free_name mode interval prev t rest with
            | Some (mode, interval, skip) => free_loop mode interval skip (Some t) rest
            | None => false
            end
          else if is_kind [KindCast] t then free_loop BeforeType interval 0 (Some t) rest
          else if is_kind free_kinds t then free_loop NoType interval 0 (Some t) rest
          else if is_kind [KindOther] t && has_text (words ["["; "]"]%string) t then free_loop mode interval 0 (Some t) rest
          else false
      end
  end.

Definition isColumnFree (ops : list ptok) : bool :=
  match ops with [] => false | _ => free_loop NoType false 0 None ops end.

(** The callee of a call: a name and its qualifications. *)
Fixpoint callee (rest : list ptok) (k : nat) : nat :=
  match rest with
  | d :: (n :: rest) => if isDot d && isName n then callee rest (k + 2) else k
  | _ => k
  end.

(** The arguments of a call: one is a column, the others are free of columns. *)
Definition one_column (args : list (list ptok)) : bool :=
  forallb (fun a => isColRef a || isColumnFree a) args && Nat.eqb (length (List.filter isColRef args)) 1.

Definition isWrappedColumn (ops : list ptok) : bool :=
  match ops with
  | [] => false
  | t0 :: rest =>
      let d := pt_depth t0 in
      let k := callee rest 1 in
      let inner := take (length ops - 1 - S k) (drop (S k) ops) in
      if Nat.ltb (length ops) 3 then false
      else
        match index_where (fun t => Nat.eqb (pt_depth t) d && is_kind [KindCast] t) ops with
        | Some k => isColRef (take k ops) && isTypeSpec (drop (S k) ops)
        | None =>
            if negb (isName t0) then false
            else if negb (match ops !! k with Some p => is_kind [KindLParen] p | None => false end
                          && bool_decide (matchingParen ops k = Some (length ops - 1))) then false
            else if is_kind [KindIdent] t0 && Nat.eqb k 1 && one_of notFunctions (pt_upper t0) then false
            else if isIdent (words ["CAST"]%string) t0 && Nat.eqb k 1 then
              match index_where (fun t => isIdent (words ["AS"]%string) t && Nat.eqb (pt_depth t) (d + 1)) inner with
              | Some a => isColRef (take a inner) && isTypeSpec (drop (S a) inner)
              | None => false
              end
            else one_column (splitArgs inner)
        end
  end.

Definition quotedLiteralBody (text : bytes) : option bytes :=
  match text with
  | [] => None
  | c :: body =>
      if (c =b "'")%char || (c =b ascii_of_nat 34) then Some body
      else
        match body with
        | c1 :: body => if one_of (words ["E"; "e"; "N"; "n"]%string) [c] && (c1 =b "'")%char then Some body else None
        | [] => None
        end
  end.

Definition leadingWildcard (ops : list ptok) : bool :=
  match ops with
  | [] => false
  | t0 :: _ =>
      let first := match ops with
                   | _ :: (p :: (a :: _)) => if isIdent (words ["CONCAT"]%string) t0 && is_kind [KindLParen] p then a else t0
                   | _ => t0
                   end in
      if negb (is_kind [KindString] first) then false
      else match quotedLiteralBody (Text (pt_tok first)) with
           | Some (c :: _) => (c =b "%")%char || (c =b "_")%char
           | _ => false
           end
  end.

(** ** SQLETCHL001 and SQLETCHL002 *)

Section query.
Context (q : QueryTemplate).

Definition reportWrapped (r : Rendering) (ops : list ptok) : list Diagnostic :=
  match templateSpan q r ops with
  | None => []
  | Some span =>
      [WithHintf "compare the bare column and transform the parameter instead (e.g. `col >= :day_start AND col < :day_end`); if an expression index on exactly this expression exists, `-- @nolint %s`"
         [AStr CodePerfWrappedColumn]
         (Warnf CodePerfWrappedColumn span
            "the column is wrapped in a function or cast in this comparison: an index on the plain column cannot serve it, so the predicate is evaluated row by row" [])]
  end.

Definition reportLike (r : Rendering) (kind : bytes) (right : list ptok) : list Diagnostic :=
  match templateSpan q r right with
  | None => []
  | Some span =>
      [WithHintf "for a prefix search, compare a range (`col >= :lo AND col < :hi`), which a plain index serves on every dialect (anchoring the pattern helps only on some: see the performance-lints chapter); for a substring search, use a trigram / full-text index and `-- @nolint %s`"
         [AStr CodePerfLeadingLike]
         (Warnf CodePerfLeadingLike span
            "this %s pattern starts with a wildcard: a B-tree index can only serve a known prefix, so every row of the column is scanned and matched" [AStr kind])]
  end.

(** The body of [lintPredicates] at a comparison. *)
Definition lint_comparison (r : Rendering) (kind : bytes) (left right : list ptok) : list Diagnostic :=
  (if isWrappedColumn left && isColumnFree right then reportWrapped r left
   else if bool_decide (kind = bs "op") && isWrappedColumn right && isColumnFree left then reportWrapped r right
   else [])
  ++ (if (bool_decide (kind = bs "LIKE") || bool_decide (kind = bs "ILIKE")) && isColRef left && leadingWildcard right
      then reportLike r kind right else []).

(** The comparison at a position: its kind and its operands. *)
Definition comparison (toks : list ptok) (i : nat) : option (bytes * list ptok * list ptok) :=
  t ← toks !! i;
  match comparisonAt (if i is S i then toks !! i else None) t (toks !! S i) with
  | [] => None
  | kind => let '(l, r) := operands toks i in Some (kind, l, r)
  end.

Definition lint_predicate (r : Rendering) (toks : list ptok) (i : nat) (pred : bool) : list Diagnostic :=
  if pred then
    match comparison toks i with
    | Some (kind, lo, ro) => lint_comparison r kind lo ro
    | None => []
    end
  else [].

Definition lintPredicates (r : Rendering) (toks : list ptok) (pc : list (bool * bool)) : list Diagnostic :=
  concat (imap (fun i p => lint_predicate r toks i (fst p)) pc).

(** ** SQLETCHL003 and SQLETCHL004 *)

Definition statementVerb (toks : list ptok) : bytes :=
  match List.find (fun t => Nat.eqb (pt_depth t) 0
                       && isIdent (words ["SELECT"; "INSERT"; "UPDATE"; "DELETE"; "REPLACE"; "VALUES"; "TABLE"]%string) t) toks with
  | Some t => pt_upper t
  | None => []
  end.

(** What bounds a result: a LIMIT that is not ALL, or FETCH FIRST or NEXT. *)
Fixpoint limited (toks : list ptok) : bool :=
  match toks with
  | [] => false
  | t :: rest =>
      (Nat.eqb (pt_depth t) 0
       && (if isIdent (words ["LIMIT"]%string) t then negb (match rest with n :: _ => isIdent (words ["ALL"]%string) n | [] => false end)
           else isIdent (words ["FETCH"]%string) t && match rest with n :: _ => isIdent (words ["FIRST"; "NEXT"]%string) n | [] => false end))
      || limited rest
  end.

Definition tailEnders : list bytes := words
  ["ROW"; "ROWS"; "FETCH"; "LIMIT"; "OFFSET"; "FOR"; "LOCK"; "UNION"; "INTERSECT"; "EXCEPT";
   "FROM"; "WHERE"; "GROUP"; "HAVING"; "ORDER"; "WINDOW"; "RETURNING"; "INTO"; "JOIN"]%string.

(** [nonClausePredecessors]: after them [offset] is a name. *)
Definition nonClausePredecessors : list bytes := words
  ["SELECT"; "BY"; "WHERE"; "AND"; "OR"; "NOT"; "ON"; "AS"; "DISTINCT"; "SET"; "HAVING"; "WHEN"; "THEN"; "ELSE";
   "BETWEEN"; "LIKE"; "ILIKE"; "GLOB"; "REGEXP"; "RLIKE"; "MATCH"; "ESCAPE"; "IS"; "IN"; "CASE";
   "INTERVAL"; "BINARY"; "DIV"; "MOD"; "XOR"; "ALL"; "ANY"; "SOME";
   "FROM"; "JOIN"; "UPDATE"; "INTO"; "USING"; "RETURNING";
   "DISTINCTROW"; "HIGH_PRIORITY"; "LOW_PRIORITY"; "STRAIGHT_JOIN"; "SQL_SMALL_RESULT"; "SQL_BIG_RESULT";
   "SQL_BUFFER_RESULT"; "SQL_CACHE"; "SQL_NO_CACHE"; "SQL_CALC_FOUND_ROWS"; "DELAYED"; "IGNORE"; "QUICK"]%string.

Definition ends_tail (t : ptok) : bool :=
  Nat.eqb (pt_depth t) 0 && (is_kind [KindComma; KindSemicolon] t || isIdent tailEnders t).
(** [tailOperand] of the tokens from a position on. *)
Definition tailOperand (toks : list ptok) : list ptok := run (fun t => negb (ends_tail t)) toks.

Fixpoint paging_loop (ops : list ptok) (param inType : bool) : bool :=
  match ops with
  | [] => param
  | t :: ops =>
      if has_param t then paging_loop ops true false
      else if is_kind [KindCast] t then paging_loop ops param true
      else if inType && is_kind [KindIdent] t then paging_loop ops param inType
      else if is_kind [KindNumber; KindOperator; KindLParen; KindRParen] t then paging_loop ops param false
      else false
  end.
Definition isPagingOffset (ops : list ptok) : bool := paging_loop ops false false.

Definition reportOffset (r : Rendering) (ops : list ptok) : list Diagnostic :=
  match templateSpan q r ops with
  | None => []
  | Some span =>
      [WithHintf "paginate by key instead: `@if-present(after_id) AND id > :after_id @endif … ORDER BY id LIMIT :limit`; or `-- @nolint %s` for a bounded page count"
         [AStr CodePerfOffsetPaging]
         (Warnf CodePerfOffsetPaging span
            "OFFSET pagination: the database must produce and discard every skipped row, so page N costs O(N × page size) and deep pages degrade linearly" [])]
  end.

(** [offset] after this token is a name and not the clause. *)
Definition offset_is_name (prev : option ptok) : bool :=
  match prev with
  | None => true
  | Some p => isIdent nonClausePredecessors p || is_kind [KindComma; KindLParen; KindOperator] p || isDot p
  end.

Definition lint_offset (r : Rendering) (seenLimit : bool) (prev : option ptok) (t : ptok) (rest : list ptok) : list Diagnostic :=
  match rest with
  | [] => []
  | next :: _ =>
      if negb seenLimit && offset_is_name prev then []
      else if (is_kind [KindOperator] next && has_text comparisonOps next) || isDot next then []
      else if negb (isPagingOffset (tailOperand rest)) then []
      else reportOffset r (t :: tailOperand rest)
  end.

Definition lint_limit (r : Rendering) (rest : list ptok) : list Diagnostic :=
  match drop (length (tailOperand rest)) rest with
  | e :: _ => if is_kind [KindComma] e && isPagingOffset (tailOperand rest) then reportOffset r (tailOperand rest) else []
  | [] => []
  end.

Fixpoint lintOffset (r : Rendering) (seenLimit : bool) (prev : option ptok) (toks : list ptok) : list Diagnostic :=
  match toks with
  | [] => []
  | t :: rest =>
      if negb (Nat.eqb (pt_depth t) 0) then lintOffset r seenLimit (Some t) rest
      else if isIdent (words ["LIMIT"]%string) t then lint_limit r rest ++ lintOffset r true (Some t) rest
      else if isIdent (words ["OFFSET"]%string) t then lint_offset r seenLimit prev t rest ++ lintOffset r seenLimit (Some t) rest
      else lintOffset r seenLimit (Some t) rest
  end.

Definition many_no_limit : Diagnostic :=
  WithHintf "add `LIMIT :limit` (keyset-paginate with an @if-present cursor), or `-- @nolint %s` for a result bounded by the data model"
    [AStr CodePerfManyNoLimit]
    (Warnf CodePerfManyNoLimit (QHeaderSpan q)
       "this :many query can run without a LIMIT: its result (and the slice the generated method builds) grows with the table" []).

Definition lintTail (r : Rendering) (toks : list ptok) : list Diagnostic :=
  (if bool_decide (QAnnotation q = AnnotationMany) && bool_decide (statementVerb toks = bs "SELECT") && negb (limited toks)
   then [many_no_limit] else [])
  ++ lintOffset r false None toks.

(** ** The pass *)

Definition lint_rendering (r : Rendering) : list Diagnostic :=
  match lexRendering r with
  | None => []
  | Some toks => lintPredicates r toks (predicateContexts toks) ++ lintTail r toks
  end.

Definition owned_codes : list bytes :=
  [CodePerfWrappedColumn; CodePerfLeadingLike; CodePerfManyNoLimit; CodePerfOffsetPaging].

Definition Check (rs : list Rendering) : list Diagnostic :=
  finish q (foldl add newPerfCollector (concat (lint_rendering <$> rs))) owned_codes.
End query.
End lint.

(** ** LintTypes

    [internal/lint/types.go]: SQLETCHL005, the comparison of a column with a
    parameter of a type that makes the database convert the column.
    [strings.ToUpper], [strings.ToLower] and [strings.EqualFold] are arguments,
    and so is the look-up of a type by its name, a nil one never finding a type. *)

(** ** The whitelists

    OIDs are [uint32]. *)

Definition int2 : N := 21.
Definition int4 : N := 23.
Definition int8 : N := 20.
Definition float4 : N := 700.
Definition float8 : N := 701.
Definition numericID : N := 1700.

Definition pgTypeMismatch (colOID paramOID : N) : bytes :=
  if negb (bool_decide (colOID ∈ [int2; int4; int8])) then []
  else if N.eqb paramOID numericID then
    bs "PostgreSQL compares an integer with a numeric by casting the integer column to numeric on every row"
  else if N.eqb paramOID float4 || N.eqb paramOID float8 then
    bs "PostgreSQL compares an integer with a float by casting the integer column to double precision on every row"
  else [].

Definition mysqlFlagUnsigned : N := N.shiftl 1 8.
Definition mysqlFlagBinary : N := N.shiftl 1 9.
Definition mysql_flags : N := N.lor mysqlFlagUnsigned mysqlFlagBinary.
Definition stringCodes : list N := [0xf9; 0xfa; 0xfb; 0xfc; 0xfd; 0xfe]%N.
Definition numberCodes : list N := [0x01; 0x02; 0x03; 0x04; 0x05; 0x08; 0x09; 0xf6]%N.

Definition mysqlTypeMismatch (colOID paramOID : N) : bytes :=
  if negb (bool_decide (N.ldiff colOID mysql_flags ∈ stringCodes)) || negb (bool_decide (N.ldiff paramOID mysql_flags ∈ numberCodes)) then []
  else bs "MySQL compares a string column with a number as floating point, converting every row's column value".

Definition typeMismatchRule (dialectName : bytes) : option (N -> N -> bytes) :=
  if bool_decide (dialectName = bs "postgres") then Some pgTypeMismatch
  else if bool_decide (dialectName = bs "mysql") then Some mysqlTypeMismatch
  else None.

(** ** Value operands *)

Record paramOperand := mkParamOperand { po_param : bytes; po_cast : bytes }.

(** The source text of a token run that is not empty. *)
Definition tokenText (sql : bytes) (ops : list ptok) : bytes :=
  match ops, list.last ops with
  | t0 :: _, Some t1 => slice sql (Start (pt_tok t0)) (End (pt_tok t1))
  | _, _ => []
  end.

(** A bare placeholder or one cast of it; empty for Go's nil. *)
Definition scalar_operand (sql : bytes) (allowCast : bool) (ops : list ptok) : list paramOperand :=
  match ops with
  | [] => []
  | t0 :: rest =>
      if bool_decide (rest = []) && has_param t0 then [mkParamOperand (pt_param t0) []]
      else if negb allowCast || Nat.ltb (length ops) 3 then []
      else
        match rest with
        | t1 :: ty =>
            if has_param t0 && is_kind [KindCast] t1 && isTypeSpec ty then
              if existsb (is_kind [KindCast]) ty then [] else [mkParamOperand (pt_param t0) (tokenText sql ty)]
            else
              match ty with
              | t2 :: (t3 :: ty2) =>
                  let ty := take (length ops - 5) ty2 in
                  if isIdent (words ["CAST"]%string) t0 && Nat.leb 6 (length ops) && is_kind [KindLParen] t1
                     && bool_decide (matchingParen ops 1 = Some (length ops - 1)) && has_param t2
                     && isIdent (words ["AS"]%string) t3 && isTypeSpec ty
                  then [mkParamOperand (pt_param t2) (tokenText sql ty)]
                  else []
              | _ => []
              end
        | [] => []
        end
  end.

(** One of the arguments of a list that is no parameter empties the list. *)
Fixpoint list_operands (sql : bytes) (allowCast : bool) (args : list (list ptok)) : option (list paramOperand) :=
  match args with
  | [] => Some []
  | arg :: args =>
      match scalar_operand sql allowCast arg with
      | [] => None
      | p => app p <$> list_operands sql allowCast args
      end
  end.

Definition paramOperands (sql : bytes) (ops : list ptok) (inList allowCast : bool) : list paramOperand :=
  if inList then
    match ops with
    | t0 :: rest =>
        if Nat.ltb (length ops) 3 || negb (is_kind [KindLParen] t0)
           || negb (bool_decide (matchingParen ops 0 = Some (length ops - 1))) then []
        else default [] (list_operands sql allowCast (splitArgs (take (length ops - 2) rest)))
    | [] => []
    end
  else scalar_operand sql allowCast ops.

(** ** Column operands *)

Definition identText (t : ptok) : bytes :=
  let text := Text (pt_tok t) in
  if is_kind [KindQuotedIdent] t && Nat.leb 2 (length text) then slice text 1 (length text - 1) else text.

(** [cteNames]: the tokens after WITH. *)
Fixpoint cte_loop (toks : list ptok) (out : list bytes) (expect : bool) : list bytes :=
  match toks with
  | [] => out
  | t :: toks =>
      if negb (Nat.eqb (pt_depth t) 0) then cte_loop toks out expect
      else if isIdent (words ["SELECT"; "INSERT"; "UPDATE"; "DELETE"; "REPLACE"; "VALUES"; "TABLE"]%string) t then out
      else if isIdent (words ["RECURSIVE"]%string) t && bool_decide (out = []) then cte_loop toks out expect
      else if is_kind [KindComma] t then cte_loop toks out true
      else if expect && isName t then cte_loop toks (out ++ [identText t]) false
      else cte_loop toks out expect
  end.
Definition cteNames (toks : list ptok) : list bytes :=
  match toks with
  | t :: toks => if isIdent (words ["WITH"]%string) t then cte_loop toks [] true else []
  | [] => []
  end.

Section types.
Context (ToUpper ToLower : bytes -> bytes) (EqualFold : bytes -> bytes -> bool) (profile : LexerProfile).

Definition resolveColumn (res : resolver) (ctes : list bytes) (col : list ptok) : option Column :=
  match
    match col with
    | [n] => Some (resolver_Column ToLower profile res [] (identText n))
    | [qual; _; n] => Some (resolver_Column ToLower profile res (identText qual) (identText n))
    | _ => None
    end
  with
  | None => None
  | Some (c, rel) => if existsb (fun cte => EqualFold cte rel) ctes then None else c
  end.

(** ** The pass *)

Section query.
Context (dialectName : bytes) (q : QueryTemplate) (paramTypes : gmap bytes TypeRef) (typeByName : bytes -> option TypeRef).

Definition type_mismatch (column : Column) (op : paramOperand) (pt : TypeRef) (why : bytes) (span : Span) : Diagnostic :=
  WithHintf "bind the parameter at the column's type (drop the cast, or fix its `-- @param %s:` annotation); `-- @nolint %s` if the conversion is intended"
    [AStr (po_param op); AStr CodePerfTypeMismatch]
    (Warnf CodePerfTypeMismatch span
       "column %q (%s) is compared with parameter %q (%s): %s, so an index on the column cannot be used"
       [AStr (ColName column); AStr (ColTypeName column); AStr (po_param op); AStr (TyName pt); AStr why]).

(** The report on a parameter, [None] when the loop goes on to the next one. *)
Definition operand_report (mismatch : N -> N -> bytes) (r : Rendering) (whole col : list ptok) (column : Column) (op : paramOperand) : option Diagnostic :=
  pt ← (match po_cast op with [] => paramTypes !! po_param op | cast => typeByName cast end);
  match mismatch (ColTypeOID column) (TyOID pt) with
  | [] => None
  | why =>
      span ← (match templateSpan q r whole with Some span => Some span | None => templateSpan q r col end);
      Some (type_mismatch column op pt why span)
  end.

(** The column and the value of a comparison. *)
Definition column_side (kind : bytes) (lo ro : list ptok) : option (list ptok * list ptok) :=
  if isColRef lo then Some (lo, ro)
  else if bool_decide (kind = bs "op") && isColRef ro then Some (ro, lo) else None.

Definition type_predicate (mismatch : N -> N -> bytes) (res : resolver) (r : Rendering) (ctes : list bytes) (toks : list ptok)
    (i : nat) (top : bool) : list Diagnostic :=
  if negb top then []
  else
    match comparison toks i with
    | None => []
    | Some (kind, lo, ro) =>
        if bool_decide (kind = bs "LIKE") || bool_decide (kind = bs "ILIKE") then []
        else
          match column_side kind lo ro with
          | None => []
          | Some (col, val) =>
              match paramOperands (RSQL r) val (bool_decide (kind = bs "IN")) (bool_decide (dialectName = bs "postgres")),
                    resolveColumn res ctes col with
              | (_ :: _) as params, Some column =>
                  let whole := take (length lo + 1 + length ro) (drop (i - length lo) toks) in
                  option_list (head (omap (operand_report mismatch r whole col column) params))
              | _, _ => []
              end
          end
    end.

Definition type_rendering (mismatch : N -> N -> bytes) (res : resolver) (r : Rendering) : list Diagnostic :=
  match lexRendering ToUpper profile r with
  | None => []
  | Some toks =>
      let ctes := cteNames toks in
      concat (imap (fun i p => type_predicate mismatch res r ctes toks i (snd p)) (predicateContexts toks))
  end.

Definition CheckTypes (rs : list Rendering) (tree : Tree) (cat : option Catalog) : list Diagnostic :=
  match cat, rs with
  | Some _, r0 :: _ =>
      if HasSetOperation tree then []
      else
        finish q
          (match typeMismatchRule dialectName with
           | None => newPerfCollector
           | Some mismatch =>
               let res := newResolver ToLower profile r0 tree cat in
               foldl add newPerfCollector (concat (type_rendering mismatch res <$> rs))
           end) [CodePerfTypeMismatch]
  | _, _ => []
  end.
End query.
End types.
