(* ===== verification/LintTheorems.v ===== *)
(** * LintTheorems

    The lints report exactly what they find and the directives leave, and what
    they find is what they say. *)

From Stdlib Require Import Sorted.
From S2P Require Import Prelude Dialect Template Render Diagnostics Frontend Catalog Resolved Lint.

(** ** Collection *)

(** The first finding of its code and span. *)
Definition first_of (raw : list Diagnostic) (d : Diagnostic) : Prop :=
  exists pre post, raw = pre ++ d :: post /\ key_of d ∉ key_of <$> pre.

Lemma first_of_elem raw d : first_of raw d -> d ∈ raw.
Proof. intros (pre & post & -> & _). set_solver. Qed.

Lemma collect_seen raw c : pc_seen c = list_to_set (key_of <$> pc_diags c) ->
  pc_seen (foldl add c raw) = list_to_set (key_of <$> pc_diags (foldl add c raw)).
Proof.
  revert c. induction raw as [|d raw IH]; intros c Hc; cbn; [done|]. apply IH. unfold add.
  destruct (decide (key_of d ∈ pc_seen c)); [done|]. cbn. rewrite Hc, fmap_app, list_to_set_app_L. cbn. set_solver.
Qed.

Lemma collect_snoc raw d : foldl add newPerfCollector (raw ++ [d]) = add (foldl add newPerfCollector raw) d.
Proof. by rewrite foldl_app. Qed.

Abbreviation collected raw := (pc_diags (foldl add newPerfCollector raw)).

Lemma seen_collected raw d : key_of d ∈ pc_seen (foldl add newPerfCollector raw) <-> key_of d ∈ key_of <$> collected raw.
Proof. rewrite (collect_seen raw newPerfCollector eq_refl). apply elem_of_list_to_set. Qed.

Lemma collected_keys raw k : k ∈ key_of <$> collected raw <-> k ∈ key_of <$> raw.
Proof.
  induction raw as [|d raw IH] using rev_ind; [done|]. rewrite collect_snoc, fmap_app, elem_of_app, <- IH. unfold add.
  destruct (decide _) as [H|H].
  - apply seen_collected in H. cbn. rewrite list_elem_of_singleton. naive_solver.
  - cbn. rewrite fmap_app, elem_of_app. done.
Qed.

Lemma collected_first raw d : d ∈ collected raw <-> first_of raw d.
Proof.
  revert d. induction raw as [|d0 raw IH] using rev_ind; intros d.
  { split; [set_solver|]. by intros ([|? ?] & ? & ? & ?). }
  rewrite collect_snoc. unfold add.
  assert (Hs : first_of (raw ++ [d0]) d <-> first_of raw d \/ (d = d0 /\ key_of d0 ∉ key_of <$> raw)).
  { split.
    - intros (pre & post & E & H). destruct post as [|x post _] using rev_ind.
      + apply app_inj_tail in E as [-> ->]. by right.
      + rewrite app_comm_cons, app_assoc in E. apply app_inj_tail in E as [-> ->]. left. by exists pre, post.
    - intros [(pre & post & -> & H)|[-> H]].
      + exists pre, (post ++ [d0]). split; [by rewrite <- app_assoc|done].
      + by exists raw, []. }
  rewrite Hs, <- IH. destruct (decide _) as [H|H]; rewrite seen_collected, collected_keys in H.
  - naive_solver.
  - cbn. rewrite elem_of_app, list_elem_of_singleton. naive_solver.
Qed.

Lemma collected_nodup raw : NoDup (key_of <$> collected raw).
Proof.
  induction raw as [|d raw IH] using rev_ind; [constructor|]. rewrite collect_snoc. unfold add.
  destruct (decide _) as [H|H]; [done|]. rewrite seen_collected in H. cbn. rewrite fmap_app. apply list.NoDup_app.
  split; [done|]. split; [|apply NoDup_singleton]. intros k Hk ->%list_elem_of_singleton. done.
Qed.

Lemma collected_codes raw c : c ∈ DCode <$> collected raw <-> c ∈ DCode <$> raw.
Proof.
  rewrite !list_elem_of_fmap. split.
  - intros (d & -> & H). exists d. split; [done|]. by apply first_of_elem, collected_first.
  - intros (d & -> & H). assert (key_of d ∈ key_of <$> collected raw) as Hk by (apply collected_keys; set_solver).
    apply list_elem_of_fmap in Hk as (d' & E & Hd'). exists d'. split; [|done]. by injection E.
Qed.

(** ** The order of reports *)

Definition finish_le (a b : Diagnostic) : Prop := finish_less b a = false.

Lemma finish_less_spec a b : finish_less a b = true <->
  SStart (DSpan a) < SStart (DSpan b) \/
  (SStart (DSpan a) = SStart (DSpan b) /\
   (SEnd (DSpan a) < SEnd (DSpan b) \/ (SEnd (DSpan a) = SEnd (DSpan b) /\ bytes_ltb (DCode a) (DCode b) = true))).
Proof.
  unfold finish_less. destruct (Nat.eqb_spec (SStart (DSpan a)) (SStart (DSpan b))) as [E|E]; cbn [negb].
  - destruct (Nat.eqb_spec (SEnd (DSpan a)) (SEnd (DSpan b))) as [F|F]; cbn [negb].
    + rewrite E, F. naive_solver lia.
    + rewrite Nat.ltb_lt. naive_solver lia.
  - rewrite Nat.ltb_lt. naive_solver lia.
Qed.

Lemma finish_less_le a b : finish_less a b = true -> finish_le a b.
Proof.
  intros H. unfold finish_le. destruct (finish_less b a) eqn:E; [|done]. rewrite finish_less_spec in *.
  destruct H as [H|[H [H'|[H' H2]]]], E as [E|[E [E'|[E' E2]]]]; try lia.
  pose proof (bytes_ltb_trans _ _ _ H2 E2) as Hc. by rewrite bytes_ltb_irrefl in Hc.
Qed.

Lemma bytes_ltb_total_order a b : bytes_ltb a b = true \/ a = b \/ bytes_ltb b a = true.
Proof. destruct (bytes_ltb a b) eqn:E1; [by left|]. destruct (bytes_ltb b a) eqn:E2; [by right; right|]. right; left. by apply bytes_ltb_total. Qed.

Lemma finish_le_trans a b c : finish_le a b -> finish_le b c -> finish_le a c.
Proof.
  unfold finish_le. rewrite <- !not_true_iff_false, !finish_less_spec. intros H1 H2 [H3|[H3 [H4|[H4 H5]]]]; [lia..|].
  assert (SStart (DSpan b) = SStart (DSpan a)) as E by lia. assert (SEnd (DSpan b) = SEnd (DSpan a)) as F by lia.
  destruct (bytes_ltb_total_order (DCode b) (DCode c)) as [K|[K|K]].
  - apply H1. right. split; [done|right]. split; [done|]. by eapply bytes_ltb_trans.
  - apply H1. right. split; [done|right]. split; [done|]. by rewrite K.
  - apply H2. right. split; [lia|right]. split; [lia|done].
Qed.

(** ** Suppression *)

(** What [finish] keeps, for findings whose codes the pass owns. *)
Lemma finish_elem q raw owned d : (forall d, d ∈ raw -> DCode d ∈ owned) ->
  d ∈ finish q (foldl add newPerfCollector raw) owned <->
  (first_of raw d /\ forall a, a ∈ QNoLints q -> NLCode a <> DCode d) \/
  (exists a, a ∈ QNoLints q /\ NLCode a ∈ owned /\ (forall d', d' ∈ raw -> DCode d' <> NLCode a) /\ d = unused_nolint a).
Proof.
  intros Hown. unfold finish. rewrite SliceStable_perm, elem_of_app, list_elem_of_fmap. split.
  - intros [(a & -> & Ha)|H].
    + right. exists a. rewrite !list.list_elem_of_filter in Ha. destruct Ha as (Hf & Ho & Ha). split; [done|]. split; [done|]. split; [|done].
      intros d' Hd' E. apply Hf, elem_of_list_to_set. apply collected_codes. rewrite <- E. set_solver.
    + left. rewrite list.list_elem_of_filter in H. destruct H as [H Hd]. apply collected_first in Hd. split; [done|].
      intros a Ha E. apply H, elem_of_list_to_set, list_elem_of_fmap. exists a. split; [done|].
      apply list.list_elem_of_filter. split; [|done]. rewrite E. by apply Hown, first_of_elem.
  - intros [[Hd H]|(a & Ha & Ho & Hf & ->)].
    + right. apply list.list_elem_of_filter. split; [|by apply collected_first].
      intros (a & E & Ha)%elem_of_list_to_set%list_elem_of_fmap. apply list.list_elem_of_filter in Ha as [_ Ha]. by apply (H a).
    + left. exists a. split; [done|]. rewrite !list.list_elem_of_filter. split; [|done].
      intros E%elem_of_list_to_set. rewrite collected_codes, list_elem_of_fmap in E. destruct E as (d' & E & Hd'). by apply (Hf d' Hd').
Qed.

Lemma finish_sorted q c owned : StronglySorted finish_le (finish q c owned).
Proof. apply SliceStable_sorted; [exact finish_le_trans|exact finish_less_le]. Qed.

(** A place has one finding, and only findings of a code are reported under it. *)
Lemma finish_nodup q raw owned :
  NoDup (key_of <$> base.filter (fun d => DCode d <> CodePerfNoLintUnused) (finish q (foldl add newPerfCollector raw) owned)).
Proof.
  unfold finish. rewrite SliceStable_perm, list.filter_app, fmap_app.
  assert (forall l, base.filter (fun d => DCode d <> CodePerfNoLintUnused) (unused_nolint <$> l) = []) as ->.
  { intros l. induction l as [|a l IH]; [done|]. cbn [fmap list_fmap]. rewrite list.filter_cons_False; [done|]. intros H. by apply H. }
  eapply sublist_NoDup; [apply collected_nodup|]. apply fmap_sublist.
  etransitivity; apply sublist_filter.
Qed.

(** ** What the passes find *)

(** Reports that never fail a run, with codes of a list. *)
Definition lints (owned : list bytes) (ds : list Diagnostic) : Prop :=
  forall d, d ∈ ds -> DSeverity d = Warning /\ DCode d ∈ owned.

Lemma lints_nil owned : lints owned [].
Proof. intros d H. by apply not_elem_of_nil in H. Qed.
Lemma lints_app owned ds1 ds2 : lints owned ds1 -> lints owned ds2 -> lints owned (ds1 ++ ds2).
Proof. intros H1 H2 d [H|H]%elem_of_app; auto. Qed.
Lemma lints_concat owned (l : list (list Diagnostic)) : (forall ds, ds ∈ l -> lints owned ds) -> lints owned (concat l).
Proof. intros H d (ds & Hds & Hd)%list_elem_of_In%in_concat. apply list_elem_of_In in Hds, Hd. by apply (H ds). Qed.
Lemma lints_one owned d : DSeverity d = Warning -> DCode d ∈ owned -> lints owned [d].
Proof. intros H1 H2 d' ->%list_elem_of_singleton. done. Qed.
#[local] Hint Resolve lints_nil lints_app lints_one : core.

Section passes.
Context (ToUpper : bytes -> bytes) (profile : LexerProfile) (q : QueryTemplate).

(** The codes of the reports at a place. *)
Definition placed_codes : list bytes := [CodePerfWrappedColumn; CodePerfLeadingLike; CodePerfOffsetPaging].

Lemma reportWrapped_lints r ops : lints placed_codes (reportWrapped q r ops).
Proof. unfold reportWrapped. destruct (templateSpan q r ops); [|auto]. apply lints_one; [done|]. by left. Qed.
Lemma reportLike_lints r kind ops : lints placed_codes (reportLike q r kind ops).
Proof. unfold reportLike. destruct (templateSpan q r ops); [|auto]. apply lints_one; [done|]. by right; left. Qed.
Lemma reportOffset_lints r ops : lints placed_codes (reportOffset q r ops).
Proof. unfold reportOffset. destruct (templateSpan q r ops); [|auto]. apply lints_one; [done|]. by do 2 right; left. Qed.
#[local] Hint Resolve reportWrapped_lints reportLike_lints reportOffset_lints : core.

Lemma lint_predicate_lints r toks i p : lints placed_codes (lint_predicate q r toks i p).
Proof.
  unfold lint_predicate, lint_comparison. destruct p; [|auto]. destruct (comparison toks i) as [[[kind lo] ro]|]; [|auto].
  apply lints_app; repeat case_match; auto.
Qed.

Lemma lintPredicates_lints r toks pc : lints placed_codes (lintPredicates q r toks pc).
Proof.
  apply lints_concat. intros ds H. apply list_elem_of_lookup in H as (i & H).
  rewrite list_lookup_imap in H. apply fmap_Some in H as (p & _ & ->). apply lint_predicate_lints.
Qed.

Lemma lintOffset_lints r seen prev toks : lints placed_codes (lintOffset q r seen prev toks).
Proof.
  revert seen prev. induction toks as [|t rest IH]; intros seen prev; cbn [lintOffset]; [auto|].
  destruct (negb _); [auto|]. destruct (isIdent _ t); [|destruct (isIdent _ t); [|auto]].
  - apply lints_app; [|auto]. unfold lint_limit. repeat case_match; auto.
  - apply lints_app; [|auto]. unfold lint_offset. repeat case_match; auto.
Qed.

(** ** SQLETCHL003 *)

(** Token [i] bounds the result of the statement. *)
Definition bounds_result (toks : list ptok) (i : nat) : Prop :=
  exists t, toks !! i = Some t /\ pt_depth t = 0 /\
    ((isIdent (words ["LIMIT"]%string) t = true /\ forall n, toks !! S i = Some n -> isIdent (words ["ALL"]%string) n = false) \/
     (isIdent (words ["FETCH"]%string) t = true /\ exists n, toks !! S i = Some n /\ isIdent (words ["FIRST"; "NEXT"]%string) n = true)).

(** Token [i] is the verb of the statement. *)
Definition is_verb (t : ptok) : bool :=
  Nat.eqb (pt_depth t) 0 && isIdent (words ["SELECT"; "INSERT"; "UPDATE"; "DELETE"; "REPLACE"; "VALUES"; "TABLE"]%string) t.
Definition selects (toks : list ptok) : Prop :=
  exists pre t post, toks = pre ++ t :: post /\ is_verb t = true /\ pt_upper t = bs "SELECT" /\ forallb (fun t => negb (is_verb t)) pre = true.

Lemma isIdent_one w w' t : w <> w' -> isIdent (words [w]) t = true -> isIdent (words [w']) t = false.
Proof.
  unfold isIdent, one_of. intros H [Hk Hu]%andb_true_iff. rewrite Hk. apply bool_decide_eq_true in Hu.
  apply list_elem_of_singleton in Hu. cbn. apply bool_decide_eq_false. intros E%list_elem_of_singleton. apply H.
  rewrite Hu in E. apply (f_equal string_of_list_ascii) in E. unfold bs in E. by rewrite !string_of_list_ascii_of_string in E.
Qed.

Lemma limited_spec toks : limited toks = true <-> exists i, bounds_result toks i.
Proof.
  induction toks as [|t rest IH]; cbn [limited].
  - split; [done|]. intros (i & t & E & _). by rewrite lookup_nil in E.
  - rewrite orb_true_iff, IH, andb_true_iff, Nat.eqb_eq. split.
    + intros [[Hd H]|(i & H)]; [|by exists (S i)]. exists 0, t. split; [done|]. split; [done|]. destruct (isIdent (words ["LIMIT"]%string) t).
      * left. split; [done|]. intros n Hn. apply negb_true_iff in H. destruct rest as [|n' rest]; cbn in *; congruence.
      * right. apply andb_true_iff in H as [-> H]. split; [done|]. destruct rest as [|n rest]; [done|]. by exists n.
    + intros ([|i] & Hi); [left|by right; exists i]. destruct Hi as (t' & [= <-] & Hd & H). split; [done|].
      destruct H as [[HL H]|[HF (n & Hn & H)]].
      * rewrite HL. destruct rest as [|n rest]; [done|]. by rewrite (H n).
      * rewrite (isIdent_one "FETCH" "LIMIT" t), HF by done. destruct rest as [|n' rest]; [done|]. cbn in Hn. by injection Hn as ->.
Qed.

Lemma selects_spec toks : statementVerb toks = bs "SELECT" <-> selects toks.
Proof.
  unfold statementVerb. fold is_verb. change (fun t : ptok => _) with is_verb. induction toks as [|t rest IH]; cbn [List.find].
  - split; [done|]. by intros ([|? ?] & ? & ? & ? & _).
  - destruct (is_verb t) eqn:Ev.
    + split; [intros E; by exists [], t, rest|]. intros (pre & t' & post & E & _ & Hu & Hp).
      destruct pre as [|p pre]; injection E as -> ->; [done|]. cbn in Hp. by rewrite Ev in Hp.
    + rewrite IH. split; intros (pre & t' & post & E & Hv & Hu & Hp).
      * exists (t :: pre), t', post. rewrite E. cbn. rewrite Ev. done.
      * destruct pre as [|p pre]; injection E as -> ->; [congruence|]. exists pre, t', post. cbn in Hp. by apply andb_true_iff in Hp as [_ Hp].
Qed.

(** A rendering that shows that the query can run without a bound. *)
Definition unbounded (r : Rendering) : Prop :=
  exists toks, lexRendering ToUpper profile r = Some toks /\ selects toks /\ forall i, ~ bounds_result toks i.

Lemma lint_rendering_lints r : lints owned_codes (lint_rendering ToUpper profile q r) /\
  ((exists d, d ∈ lint_rendering ToUpper profile q r /\ DCode d = CodePerfManyNoLimit) <->
   QAnnotation q = AnnotationMany /\ unbounded r).
Proof.
  assert (Hsub : forall ds, lints placed_codes ds -> lints owned_codes ds).
  { intros ds H d [Hw Hc]%H. split; [done|]. unfold placed_codes, owned_codes in *. set_solver. }
  assert (Hno : CodePerfManyNoLimit ∉ placed_codes) by (apply (bool_decide_eq_false (_ ∈ _)); by vm_compute).
  unfold lint_rendering, unbounded. destruct (lexRendering _ _ r) as [toks|].
  2:{ split; [auto|]. split; [intros (d & H & _); by apply not_elem_of_nil in H|]. by intros (_ & toks & ? & _). }
  pose proof (lintPredicates_lints r toks (predicateContexts toks)) as H1. pose proof (lintOffset_lints r false None toks) as H2.
  unfold lintTail. split.
  - apply lints_app; [auto|]. apply lints_app; [|auto]. destruct (_ && _); [|auto]. apply lints_one; [done|]. by do 2 right; left.
  - transitivity (QAnnotation q = AnnotationMany /\ selects toks /\ limited toks = false).
    + rewrite <- selects_spec. split.
      * intros (d & [Hd|[Hd|Hd]%elem_of_app]%elem_of_app & Hc).
        { apply H1 in Hd as [_ Hd]. by rewrite Hc in Hd. }
        2:{ apply H2 in Hd as [_ Hd]. by rewrite Hc in Hd. }
        destruct (_ && _) eqn:E in Hd; [|by apply not_elem_of_nil in Hd].
        apply andb_true_iff in E as [[E1%bool_decide_eq_true E2%bool_decide_eq_true]%andb_true_iff E3%negb_true_iff]. done.
      * intros (E1 & E2 & E3). exists (many_no_limit q). split; [|done]. rewrite E3, !bool_decide_true by done. set_solver.
    + split.
      * intros (-> & Hs & Hl). split; [done|]. exists toks. split; [done|]. split; [done|]. intros i Hi.
        by rewrite (proj2 (limited_spec toks) (ex_intro _ i Hi)) in Hl.
      * intros (-> & toks' & [= <-] & Hs & Hl). split; [done|]. split; [done|]. apply not_true_iff_false.
        intros (i & Hi)%limited_spec. by apply (Hl i).
Qed.

Lemma raw_lints rs : lints owned_codes (concat (lint_rendering ToUpper profile q <$> rs)).
Proof. apply lints_concat. intros ds (r & -> & _)%list_elem_of_fmap. apply lint_rendering_lints. Qed.
End passes.

(** C32: the lints never fail a run and report exactly what is left of their
    findings.  All reports are warnings, in the order of their spans and codes; a
    finding is reported exactly when it is the first of its code and span and
    the query has no directive against its code; the other reports are exactly
    those on directives against a code of the pass that nothing has; and no code
    is reported twice at one span.  SQLETCHL003 in particular is reported exactly
    for a [:many] query without a directive against it, a rendering of which has
    SELECT as the first verb outside parentheses and there neither a LIMIT
    other than LIMIT ALL nor a FETCH FIRST or FETCH NEXT. *)
Theorem lint_exact ToUpper profile q rs :
  let raw := concat (lint_rendering ToUpper profile q <$> rs) in
  let ds := Check ToUpper profile q rs in
  HasErrors ds = false /\ StronglySorted finish_le ds /\
  (forall d, d ∈ ds <->
     (first_of raw d /\ forall a, a ∈ QNoLints q -> NLCode a <> DCode d) \/
     (exists a, a ∈ QNoLints q /\ NLCode a ∈ owned_codes /\ (forall d', d' ∈ raw -> DCode d' <> NLCode a) /\ d = unused_nolint a)) /\
  NoDup (key_of <$> base.filter (fun d => DCode d <> CodePerfNoLintUnused) ds) /\
  ((exists d, d ∈ ds /\ DCode d = CodePerfManyNoLimit) <->
   QAnnotation q = AnnotationMany /\ (forall a, a ∈ QNoLints q -> NLCode a <> CodePerfManyNoLimit) /\
   exists r, r ∈ rs /\ unbounded ToUpper profile r).
Proof.
  intros raw ds. pose proof (raw_lints ToUpper profile q rs) as Hraw. fold raw in Hraw.
  assert (Hin : forall d, d ∈ ds <-> _) by (intros d; apply finish_elem; intros d' H; by apply Hraw).
  split; [|split; [apply finish_sorted|split; [exact Hin|split; [apply finish_nodup|]]]].
  - apply not_true_iff_false. intros (d & Hd & Hs)%existsb_exists. apply list_elem_of_In, Hin in Hd as [[Hd _]|(a & _ & _ & _ & ->)]; [|done].
    apply first_of_elem, Hraw in Hd as [Hw _]. by rewrite Hw in Hs.
  - split.
    + intros (d & [[Hd Hn]|(a & _ & _ & _ & ->)]%Hin & Hc); [|done]. apply first_of_elem in Hd.
      apply list_elem_of_In, in_concat in Hd as (l & Hl & Hd). apply list_elem_of_In in Hl, Hd. apply list_elem_of_fmap in Hl as (r & -> & Hr).
      destruct (proj1 (proj2 (lint_rendering_lints ToUpper profile q r)) (ex_intro _ d (conj Hd Hc))) as [Ha Hu].
      split; [done|]. split; [intros a Ha'; rewrite <- Hc; by apply Hn|by exists r].
    + intros (Ha & Hn & r & Hr & Hu). destruct (proj2 (proj2 (lint_rendering_lints ToUpper profile q r)) (conj Ha Hu)) as (d & Hd & Hc).
      assert (Hk : key_of d ∈ key_of <$> collected raw).
      { apply collected_keys, list_elem_of_fmap. exists d. split; [done|]. apply list_elem_of_In, in_concat.
        exists (lint_rendering ToUpper profile q r). split; apply list_elem_of_In; [|done]. apply list_elem_of_fmap. by exists r. }
      apply list_elem_of_fmap in Hk as (d' & E & Hd'). apply collected_first in Hd'. injection E as E _ _.
      exists d'. split; [|congruence]. apply Hin. left. split; [done|]. intros a Ha'. rewrite <- E, Hc. by apply Hn.
Qed.

(** ** LintShapes

    What the lints take for a column, for an operand without columns and for a
    wrapped column: grammars of token runs. *)

(** ** Operands without columns *)

Definition bracket (t : ptok) : bool := is_kind [KindOther] t && has_text (words ["["; "]"]%string) t.
(** What a type name follows. *)
Definition type_start (t : ptok) : bool := is_kind [KindCast] t || isIdent (words ["AS"]%string) t.

(** Why the name at a position of a run is no column. *)
Inductive role (toks : list ptok) (k : nat) (t : ptok) : Prop :=
  | role_call n : toks !! S k = Some n -> is_kind [KindLParen] n = true -> role toks k t
  | role_typed n : toks !! S k = Some n -> is_kind [KindString] n = true -> role toks k t
  | role_literal : is_literal_word t = true -> role toks k t
  | role_as : isIdent (words ["AS"]%string) t = true -> role toks k t
  | role_zone j a b c : j <= k <= j + 2 ->
      toks !! j = Some a -> isIdent (words ["AT"]%string) a = true ->
      toks !! (j + 1) = Some b -> isIdent (words ["TIME"]%string) b = true ->
      toks !! (j + 2) = Some c -> isIdent (words ["ZONE"]%string) c = true -> role toks k t
  | role_type j s : j < k -> toks !! j = Some s -> type_start s = true ->
      (forall m u, j < m < k -> toks !! m = Some u -> bracket u = true \/ isName u = true) ->
      ((forall m u, j < m < k -> toks !! m = Some u -> bracket u = true) \/ isIdent typeNameContinuations t = true) -> role toks k t
  | role_unit j u p : j < k -> toks !! j = Some u -> isIdent (words ["INTERVAL"]%string) u = true ->
      toks !! (k - 1) = Some p -> endsValue p = true -> isIdent intervalUnits t = true -> role toks k t.

(** What a token of a run without columns may be. *)
Definition no_column (toks : list ptok) (k : nat) (t : ptok) : Prop :=
  if isName t then role toks k t else is_kind (KindCast :: free_kinds) t || bracket t = true.

(** What [free_loop] knows at position [k]. *)
Record free_inv (toks : list ptok) (k : nat) (mode : TypeMode) (interval : bool) (skip : nat) (prev : option ptok) : Prop := {
  fi_prev : prev = if k is S k then toks !! k else None;
  fi_mode : mode <> NoType -> exists j s, j < k /\ toks !! j = Some s /\ type_start s = true /\
    (forall m u, j < m < k -> toks !! m = Some u -> bracket u = true \/ isName u = true) /\
    (mode = BeforeType -> forall m u, j < m < k -> toks !! m = Some u -> bracket u = true);
  fi_interval : interval = true -> exists j u, j < k /\ toks !! j = Some u /\ isIdent (words ["INTERVAL"]%string) u = true;
  fi_skip : 0 < skip -> mode = NoType /\ exists j a b c, j < k /\ k + skip = j + 3 /\
      toks !! j = Some a /\ isIdent (words ["AT"]%string) a = true /\
      toks !! (j + 1) = Some b /\ isIdent (words ["TIME"]%string) b = true /\
      toks !! (j + 2) = Some c /\ isIdent (words ["ZONE"]%string) c = true;
}.

Section free.
Context (toks : list ptok).

Lemma free_inv_next k t mode interval :
  toks !! k = Some t ->
  (interval = true -> exists j u, j < S k /\ toks !! j = Some u /\ isIdent (words ["INTERVAL"]%string) u = true) ->
  (mode <> NoType -> exists j s, j < S k /\ toks !! j = Some s /\ type_start s = true /\
    (forall m u, j < m < S k -> toks !! m = Some u -> bracket u = true \/ isName u = true) /\
    (mode = BeforeType -> forall m u, j < m < S k -> toks !! m = Some u -> bracket u = true)) ->
  free_inv toks (S k) mode interval 0 (Some t).
Proof. intros Ht Hi Hm. split; [done|exact Hm|exact Hi|lia]. Qed.

(** The type name that a mode stands in goes on over a token. *)
Lemma mode_extend k t mode interval skip prev (mode' : TypeMode) :
  free_inv toks k mode interval skip prev -> toks !! k = Some t -> mode <> NoType ->
  (bracket t = true /\ mode' = mode) \/ (isName t = true /\ mode' = AfterType) ->
  exists j s, j < S k /\ toks !! j = Some s /\ type_start s = true /\
    (forall m u, j < m < S k -> toks !! m = Some u -> bracket u = true \/ isName u = true) /\
    (mode' = BeforeType -> forall m u, j < m < S k -> toks !! m = Some u -> bracket u = true).
Proof.
  intros Hinv Ht Hm Hx. destruct (fi_mode _ _ _ _ _ _ Hinv Hm) as (j & s & Hj & Hs & Hst & Hall & Hb).
  exists j, s. split; [lia|]. split; [done|]. split; [done|]. split.
  - intros m u Hmk Hu. destruct (decide (m = k)) as [->|]; [|apply (Hall m u); [lia|done]].
    assert (u = t) as -> by congruence. destruct Hx as [[? _]|[? _]]; auto.
  - intros Hmode m u Hmk Hu. destruct Hx as [[Hbt ->]|[_ ->]]; [|done]. destruct (decide (m = k)) as [->|].
    + by assert (u = t) as -> by congruence.
    + apply (Hb Hmode m u); [lia|done].
Qed.

Lemma interval_extend k (interval : bool) mode skip prev : free_inv toks k mode interval skip prev ->
  interval = true -> exists j u, j < S k /\ toks !! j = Some u /\ isIdent (words ["INTERVAL"]%string) u = true.
Proof. intros Hinv Hi. destruct (fi_interval _ _ _ _ _ _ Hinv Hi) as (j & u & ? & ? & ?). exists j, u. split; [lia|done]. Qed.

Lemma start_mode k t mode : toks !! k = Some t -> type_start t = true ->
  mode <> NoType -> exists j s, j < S k /\ toks !! j = Some s /\ type_start s = true /\
    (forall m u, j < m < S k -> toks !! m = Some u -> bracket u = true \/ isName u = true) /\
    (mode = BeforeType -> forall m u, j < m < S k -> toks !! m = Some u -> bracket u = true).
Proof. intros Ht Hs _. exists k, t. split; [lia|]. split; [done|]. split; [done|]. split; intros; lia. Qed.

(** The name case: a role, and the knowledge after it. *)
Lemma free_name_spec k t rest mode interval prev mode' interval' skip' :
  toks !! k = Some t -> drop (S k) toks = rest -> isName t = true -> free_inv toks k mode interval 0 prev ->
  free_name mode interval prev t rest = Some (mode', interval', skip') ->
  role toks k t /\ free_inv toks (S k) mode' interval' skip' (Some t).
Proof.
  intros Ht Hr Hn Hinv.
  assert (Hnext : forall n rest', rest = n :: rest' -> toks !! S k = Some n).
  { intros n rest' ->. rewrite <- (Nat.add_0_r (S k)), <- lookup_drop, Hr. done. }
  assert (Hnext2 : forall n m rest', rest = n :: m :: rest' -> toks !! S (S k) = Some m).
  { intros n m rest' ->. rewrite <- (Nat.add_1_r (S k)), <- lookup_drop, Hr. done. }
  assert (Hint := interval_extend _ _ _ _ _ Hinv).
  unfold free_name. set (mode1 := match mode with AfterType => _ | m => m end). intros H.
  destruct (decide (mode1 = NoType)) as [Hm|Hm].
  2:{ assert (Some (AfterType, interval, 0) = Some (mode', interval', skip')) as [= <- <- <-] by (by destruct mode1).
      assert (mode <> NoType) as Hmode by (unfold mode1 in Hm; by destruct mode).
      split.
      - destruct (fi_mode _ _ _ _ _ _ Hinv Hmode) as (j & s & Hj & Hs & Hst & Hall & Hb). apply (role_type toks k t j s); [done..|].
        unfold mode1 in Hm. destruct mode; [done|by left; apply Hb|]. right. by destruct (isIdent typeNameContinuations t).
      - apply free_inv_next; [done|done|]. intros _. eapply (mode_extend k t mode); eauto. }
  rewrite Hm in H. clear Hm mode1.
  destruct (isIdent (words ["AT"]%string) t && _) eqn:EAT.
  { injection H as <- <- <-. apply andb_true_iff in EAT as [HA HB]. destruct rest as [|a [|b rest2]]; [done..|].
    apply andb_true_iff in HB as [HT HZ]. pose proof (Hnext _ _ eq_refl). pose proof (Hnext2 _ _ _ eq_refl).
    assert (S k = k + 1 /\ S (S k) = k + 2) as [E1 E2] by lia. split.
    - apply (role_zone toks k t k t a b); rewrite <- ?E1, <- ?E2; (lia || done).
    - split; [done|done|exact Hint|]. intros _. split; [done|]. exists k, t, a, b. rewrite <- E1, <- E2. split; [lia|]. split; [lia|done]. }
  clear EAT. destruct (isIdent (words ["AS"]%string) t) eqn:EAS.
  { injection H as <- <- <-. split; [by apply role_as|]. apply free_inv_next; [done|exact Hint|]. apply (start_mode k t); [done|].
    unfold type_start. by rewrite EAS, orb_true_r. }
  assert (Hgo : forall i, (i = true -> exists j u, j < S k /\ toks !! j = Some u /\ isIdent (words ["INTERVAL"]%string) u = true) ->
    free_inv toks (S k) NoType i 0 (Some t)) by (intros i Hi; apply free_inv_next; done).
  destruct (_ && negb _) eqn:EC.
  { injection H as <- <- <-. apply andb_true_iff in EC as [EC _]. destruct rest as [|n rest2]; [done|]. split; [|auto]. eapply role_call; [eauto|done]. }
  clear EC. destruct (match rest with n :: _ => is_kind [KindString] n | [] => false end) eqn:ES.
  { injection H as <- <- <-. destruct rest as [|n rest2]; [done|]. split; [|auto]. eapply role_typed; [eauto|done]. }
  destruct (is_literal_word t) eqn:EL.
  { injection H as <- <- <-. split; [by apply role_literal|]. apply Hgo.
    intros [HI|Hi]%orb_true_iff; [|by apply Hint]. exists k, t. split; [lia|done]. }
  destruct (interval && _ && _) eqn:EU; [|done]. injection H as <- <- <-.
  apply andb_true_iff in EU as [[Hi HU]%andb_true_iff HP]. split; [|by apply Hgo].
  destruct (fi_interval _ _ _ _ _ _ Hinv Hi) as (j & u & Hj & Hu & HI). rewrite (fi_prev _ _ _ _ _ _ Hinv) in HP.
  destruct k as [|k]; [done|]. destruct (toks !! k) as [p|] eqn:Ep; [|done].
  apply (role_unit toks (S k) t j u p); [done..| |done|done]. by rewrite Nat.sub_1_r.
Qed.

Lemma free_loop_spec rest : forall k mode interval skip prev,
  drop k toks = rest -> free_inv toks k mode interval skip prev -> free_loop mode interval skip prev rest = true ->
  forall i t, k <= i -> toks !! i = Some t -> no_column toks i t.
Proof.
  induction rest as [|t rest IH]; intros k mode interval skip prev Hd Hinv Hf i u Hi Hu.
  { assert (length toks <= k) by (apply (f_equal length) in Hd; rewrite length_drop in Hd; cbn in Hd; lia).
    apply lookup_lt_Some in Hu. lia. }
  assert (Ht : toks !! k = Some t) by (rewrite <- (Nat.add_0_r k), <- lookup_drop, Hd; done).
  assert (Hr : drop (S k) toks = rest) by (replace (S k) with (k + 1) by lia; by rewrite <- drop_drop, Hd).
  assert (Hhere : forall mode' interval' skip', no_column toks k t -> free_inv toks (S k) mode' interval' skip' (Some t) ->
    free_loop mode' interval' skip' (Some t) rest = true -> no_column toks i u).
  { intros mode' interval' skip' H1 H2 H3. destruct (decide (i = k)) as [->|]; [by assert (u = t) as -> by congruence|].
    eapply (IH (S k)); [done|exact H2|exact H3| |done]. lia. }
  cbn [free_loop] in Hf. destruct skip as [|skip].
  - destruct (isName t) eqn:En.
    + destruct (free_name mode interval prev t rest) as [[[mode' interval'] skip']|] eqn:E; [|done].
      destruct (free_name_spec k t rest mode interval prev _ _ _ Ht Hr En Hinv E) as [H1 H2]. apply (Hhere mode' interval' skip'); [|done..].
      unfold no_column. by rewrite En.
    + pose proof (interval_extend _ _ _ _ _ Hinv) as Hint. unfold no_column in Hhere. rewrite En in Hhere.
      destruct (is_kind [KindCast] t) eqn:EC.
      { apply (Hhere BeforeType interval 0); [|apply free_inv_next; [done|done|]|done].
        - apply bool_decide_eq_true, list_elem_of_singleton in EC. unfold is_kind. rewrite EC. done.
        - apply (start_mode k t); [done|]. unfold type_start. by rewrite EC. }
      destruct (is_kind free_kinds t) eqn:EF.
      { apply (Hhere NoType interval 0); [|by apply free_inv_next|done]. apply bool_decide_eq_true in EF.
        apply orb_true_iff. left. apply bool_decide_eq_true. by right. }
      change (is_kind [KindOther] t && has_text (words ["["; "]"]%string) t) with (bracket t) in Hf.
      destruct (bracket t) eqn:EB; [|done]. apply (Hhere mode interval 0); [by rewrite orb_true_r| |done].
      apply free_inv_next; [done|done|]. intros Hm. eapply (mode_extend k t mode); eauto.
  - destruct (fi_skip _ _ _ _ _ _ Hinv) as (-> & j & a & b & c & Hj & Hs & Ha & HA & Hb & HB & Hc & HC); [lia|].
    apply (Hhere NoType interval skip); [| |done].
    + unfold no_column. assert (Hname : isName t = true).
      { assert (isIdent (words ["TIME"]%string) t = true \/ isIdent (words ["ZONE"]%string) t = true) as H.
        { destruct (decide (k = j + 1)) as [->|]; [left; congruence|]. assert (k = j + 2) as -> by lia. right. congruence. }
        unfold isName. destruct H as [H|H]; apply andb_true_iff in H as [H _]; apply bool_decide_eq_true, list_elem_of_singleton in H;
          apply bool_decide_eq_true; rewrite H; by left. }
      rewrite Hname. apply (role_zone toks k t j a b c); (lia || done).
    + split; [done|done|apply (interval_extend _ _ _ _ _ Hinv)|].
      intros H. split; [done|]. exists j, a, b, c. split; [lia|]. split; [lia|done].
Qed.

Lemma isColumnFree_spec : isColumnFree toks = true -> toks <> [] /\ forall k t, toks !! k = Some t -> no_column toks k t.
Proof.
  unfold isColumnFree. destruct toks as [|t0 rest] eqn:E; [done|]. rewrite <- E. intros H. split; [by rewrite E|].
  intros k t Ht. apply (free_loop_spec toks 0 NoType false 0 None); [done| |done|lia|done].
  split; [done|done|done|lia].
Qed.
End free.

(** ** Positions and separators *)

Lemma index_where_Some p toks k : index_where p toks = Some k <->
  exists pre t post, toks = pre ++ t :: post /\ length pre = k /\ p t = true /\ forallb (fun t => negb (p t)) pre = true.
Proof.
  revert k. induction toks as [|t rest IH]; intros k; cbn [index_where].
  - split; [done|]. by intros ([|? ?] & ? & ? & ? & _).
  - destruct (p t) eqn:E.
    + split; [intros [= <-]; by exists [], t, rest|]. intros (pre & u & post & Eq & <- & Hu & Hp).
      destruct pre as [|x pre]; injection Eq as -> ->; [done|]. cbn in Hp. by rewrite E in Hp.
    + rewrite fmap_Some. split.
      * intros (k' & (pre & u & post & -> & <- & Hu & Hp)%IH & ->). exists (t :: pre), u, post. cbn. by rewrite E.
      * intros (pre & u & post & Eq & <- & Hu & Hp). destruct pre as [|x pre]; injection Eq as -> ->; [congruence|].
        exists (length pre). split; [|done]. apply IH. exists pre, u, post. cbn in Hp. by apply andb_true_iff in Hp as [_ Hp].
Qed.

Lemma index_where_None p toks : index_where p toks = None <-> forallb (fun t => negb (p t)) toks = true.
Proof.
  induction toks as [|t rest IH]; cbn; [done|]. destruct (p t); cbn; [done|]. by rewrite fmap_None.
Qed.

(** Runs between separators. *)
Inductive separated (sep : ptok -> bool) : list (list ptok) -> list ptok -> Prop :=
  | sep_last a : forallb (fun t => negb (sep t)) a = true -> separated sep [a] a
  | sep_more a c args l : forallb (fun t => negb (sep t)) a = true -> sep c = true -> separated sep args l ->
      separated sep (a :: args) (a ++ c :: l).

Definition comma_at (d : nat) (t : ptok) : bool := is_kind [KindComma] t && Nat.eqb (pt_depth t) d.

Lemma split_at_sound d args cur : forallb (fun t => negb (comma_at d t)) cur = true -> separated (comma_at d) (split_at d args cur) (cur ++ args).
Proof.
  revert cur. induction args as [|t rest IH]; intros cur Hc; cbn [split_at].
  - rewrite app_nil_r. by constructor.
  - fold (comma_at d t). destruct (comma_at d t) eqn:E.
    + constructor; [done|done|]. by apply (IH []).
    + specialize (IH (cur ++ [t])). rewrite <- app_assoc in IH. apply IH. rewrite forallb_app, Hc. cbn. by rewrite E.
Qed.

Lemma split_at_complete d args l : separated (comma_at d) args l ->
  forall cur, split_at d l cur = match args with a :: args => (cur ++ a) :: args | [] => [] end.
Proof.
  assert (Hrun : forall a l cur, forallb (fun t => negb (comma_at d t)) a = true -> split_at d (a ++ l) cur = split_at d l (cur ++ a)).
  { intros a. induction a as [|t a IH]; intros l' cur; cbn [forallb app]; [by rewrite app_nil_r|]. intros [Ht Ha]%andb_true_iff.
    apply negb_true_iff in Ht. cbn [split_at]. fold (comma_at d t). rewrite Ht, IH by done. by rewrite <- app_assoc. }
  induction 1 as [a Ha|a c args l Ha Hc _ IH]; intros cur.
  - rewrite <- (app_nil_r a) at 1. by rewrite Hrun.
  - rewrite Hrun by done. cbn [split_at]. fold (comma_at d c). rewrite Hc, IH. by destruct args.
Qed.

(** [splitArgs]: the arguments of a call, none when there is nothing between the
    parentheses. *)
Lemma splitArgs_spec inner args : args <> [] ->
  splitArgs inner = args <-> exists t rest, inner = t :: rest /\ separated (comma_at (pt_depth t)) args inner.
Proof.
  intros Hne. unfold splitArgs. destruct inner as [|t rest]; [split; [by intros <-|by intros (? & ? & ? & _)]|]. split.
  - intros <-. exists t, rest. split; [done|]. by apply (split_at_sound (pt_depth t) (t :: rest) []).
  - intros (? & ? & [= <- <-] & H). rewrite (split_at_complete _ _ _ H). by destruct args.
Qed.

(** ** Column references *)

(** Names separated by dots. *)
Inductive dotted (P : ptok -> bool) : list ptok -> Prop :=
  | dotted_one n : P n = true -> dotted P [n]
  | dotted_more n d l : P n = true -> isDot d = true -> dotted P l -> dotted P (n :: d :: l).

(** A name that is no literal word. *)
Definition column_part (t : ptok) : bool := isName t && negb (is_literal_word t).
Abbreviation column_ref := (dotted column_part).

Lemma dotted_cons P n l : dotted P (n :: l) <-> P n = true /\ (l = [] \/ exists d l', l = d :: l' /\ isDot d = true /\ dotted P l').
Proof.
  split; [intros H; inversion H; subst; naive_solver|]. intros [Hn [->|(d & l' & -> & Hd & Hl)]]; by constructor.
Qed.

Lemma dotted_head P l : dotted P l -> exists n l', l = n :: l' /\ P n = true.
Proof. intros []; eauto. Qed.

Lemma dotted_app_dot P l1 d l2 : dotted P l1 -> isDot d = true -> dotted P l2 -> dotted P (l1 ++ d :: l2).
Proof. induction 1; intros Hd Hl; cbn; constructor; auto. Qed.

(** The test of a reference without positions: names and dots take turns. *)
Fixpoint alternating (dot : bool) (l : list ptok) : bool :=
  match l with [] => true | t :: l => (if dot then isDot t else column_part t) && alternating (negb dot) l end.

Lemma alternating_imap k l :
  forallb (fun '(i, t) => if Nat.odd i then isDot t else column_part t) (imap (fun i t => (k + i, t)) l) = alternating (Nat.odd k) l.
Proof.
  revert k. induction l as [|t l IH]; intros k; [done|]. cbn [alternating]. rewrite imap_cons. cbn [forallb]. rewrite Nat.add_0_r. f_equal.
  rewrite Nat.negb_odd, <- Nat.odd_succ.
  rewrite <- (IH (S k)). f_equal. apply imap_ext. intros i x _. cbn. f_equal. lia.
Qed.

Lemma alternating_dotted l : (Nat.odd (length l) && alternating false l = true <-> column_ref l) /\
  (forall d, Nat.even (length (d :: l)) && alternating true (d :: l) = true <-> isDot d = true /\ column_ref l).
Proof.
  assert (H1 : forall l, (forall d, Nat.even (length (d :: l)) && alternating true (d :: l) = true <->
     isDot d = true /\ Nat.odd (length l) && alternating false l = true)).
  { intros l' d. cbn [length alternating negb]. rewrite Nat.even_succ, !andb_true_iff. tauto. }
  enough (H : forall n l, length l <= n -> Nat.odd (length l) && alternating false l = true <-> column_ref l).
  { split; [by apply (H (length l))|]. intros d. rewrite H1, (H (length l)); done. }
  intros n. induction n as [|n IH]; intros l' Hl.
  { destruct l'; [|cbn in Hl; lia]. split; [done|]. intros Hc. inversion Hc. }
  destruct l' as [|t [|d l2]].
  - split; [done|]. intros Hc. inversion Hc.
  - rewrite dotted_cons. cbn. rewrite andb_true_r. naive_solver.
  - rewrite dotted_cons. cbn [alternating negb]. change (Nat.odd (length (t :: d :: l2))) with (Nat.odd (length l2)).
    specialize (IH l2 ltac:(cbn in Hl; lia)). rewrite andb_true_iff in IH. rewrite !andb_true_iff. naive_solver.
Qed.

Lemma isColRef_spec ops : isColRef ops = true <-> column_ref ops.
Proof.
  rewrite <- (proj1 (alternating_dotted ops)). unfold isColRef.
  change (alternating false ops) with (alternating (Nat.odd 0) ops). by rewrite <- (alternating_imap 0 ops).
Qed.

(** ** Wrapped columns *)

(** The callee of a call ends at what is no dotted name. *)
Lemma callee_spec rest k : exists tailn post, rest = tailn ++ post /\ callee rest k = k + length tailn /\
  (forall n, isName n = true -> dotted isName (n :: tailn)) /\
  ~ (exists d n post', post = d :: n :: post' /\ isDot d = true /\ isName n = true).
Proof.
  remember (length rest) as len eqn:Hlen. assert (Hle : length rest <= len) by lia. clear Hlen.
  revert rest k Hle. induction len as [|len IH]; intros rest k Hle.
  { destruct rest; [|cbn in Hle; lia]. exists [], []. cbn. split; [done|]. split; [lia|]. split; [by constructor|naive_solver]. }
  destruct rest as [|d [|n rest]]; cbn [callee].
  1,2: eexists [], _; cbn; split; [done|]; split; [lia|]; split; [by constructor|naive_solver].
  destruct (isDot d && isName n) eqn:E.
  - apply andb_true_iff in E as [Hd Hn]. destruct (IH rest (k + 2)) as (tailn & post & -> & Hk & Hdot & Hend); [cbn in Hle; lia|].
    exists (d :: n :: tailn), post. split; [done|]. split; [cbn; lia|]. split; [|done]. intros m Hm. constructor; [done|done|]. by apply Hdot.
  - eexists [], _. cbn. split; [done|]. split; [lia|]. split; [by constructor|]. intros (d' & n' & post' & [= <- <- _] & Hd & Hn).
    by rewrite Hd, Hn in E.
Qed.

Lemma callee_name cal o rest : dotted isName cal -> isDot o = false -> callee (tail (cal ++ o :: rest)) 1 = length cal.
Proof.
  intros H Ho. assert (Hgo : forall k, callee (tail (cal ++ o :: rest)) k = k + (length cal - 1)).
  { induction H as [n Hn|n d l Hn Hd Hl IH]; intros k; cbn [app tail length].
    - destruct rest; cbn [callee]; [lia|]. rewrite Ho. cbn. lia.
    - destruct (dotted_head _ _ Hl) as (m & l' & -> & Hm). cbn [app callee]. rewrite Hd, Hm. cbn [andb].
      specialize (IH (k + 2)). cbn [app tail length] in IH |- *. lia. }
  rewrite Hgo. destruct (dotted_head _ _ H) as (m & l' & -> & _). cbn. lia.
Qed.

Definition closes (o t : ptok) : bool := is_kind [KindRParen] t && Nat.eqb (pt_depth t) (pt_depth o).

(** A run that a parenthesis opened after [pre] closes at its end. *)
Lemma matching_last ops k : k < length ops ->
  matchingParen ops k = Some (length ops - 1) <->
  exists pre o inner c, ops = pre ++ o :: inner ++ [c] /\ length pre = k /\ closes o c = true /\ forallb (fun t => negb (closes o t)) inner = true.
Proof.
  intros Hk. unfold matchingParen. destruct (ops !! k) as [o|] eqn:Eo; [|apply lookup_ge_None in Eo; lia]. cbn [mbind option_bind].
  assert (Es : ops = take k ops ++ o :: drop (S k) ops) by (by rewrite take_drop_middle).
  rewrite bind_Some. fold (closes o). split.
  - intros (j & (pre & c & post & E & <- & Hc & Hp)%index_where_Some & [= Hj]). exists (take k ops), o, pre, c.
    assert (post = []) as ->.
    { apply (f_equal length) in E. rewrite length_drop, length_app in E. cbn in E. destruct post; [done|]. cbn in E. lia. }
    rewrite <- E. split; [done|]. split; [rewrite length_take; lia|]. done.
  - intros (pre & o' & inner & c & E & Hl & Hc & Hi).
    assert (o' = o) as ->. { rewrite E in Eo. subst k. rewrite lookup_app_r, Nat.sub_diag in Eo by lia. by injection Eo. }
    exists (length inner). split.
    + apply index_where_Some. exists inner, c, []. split; [|done]. rewrite E. subst k. rewrite drop_app_ge by lia. by replace (S (length pre) - length pre) with 1 by lia.
    + rewrite E. subst k. rewrite length_app. cbn. rewrite length_app. cbn. f_equal. lia.
Qed.

Definition cast_at (d : nat) (t : ptok) : bool := Nat.eqb (pt_depth t) d && is_kind [KindCast] t.
Definition as_at (d : nat) (t : ptok) : bool := isIdent (words ["AS"]%string) t && Nat.eqb (pt_depth t) d.
Abbreviation none p l := (forallb (fun t => negb (p t)) l = true).

(** One argument is a column, the others are free of columns. *)
Definition one_of_args (args : list (list ptok)) : Prop :=
  exists pre a post, args = pre ++ a :: post /\ column_ref a /\
    forall b, b ∈ pre ++ post -> ~ column_ref b /\ isColumnFree b = true.

(** A column behind a cast or a function. *)
Inductive wrapped : list ptok -> Prop :=
  (* [col::type] *)
  | wrapped_cast t0 col c ty : column_ref (t0 :: col) -> cast_at (pt_depth t0) c = true -> isTypeSpec ty = true ->
      wrapped (t0 :: col ++ c :: ty)
  (* [CAST(col AS type)] *)
  | wrapped_as f o col a ty c : isIdent (words ["CAST"]%string) f = true -> is_kind [KindLParen] o = true -> closes o c = true ->
      none (closes o) (col ++ a :: ty) -> none (cast_at (pt_depth f)) (f :: o :: (col ++ a :: ty) ++ [c]) ->
      as_at (pt_depth f + 1) a = true -> none (as_at (pt_depth f + 1)) col -> column_ref col -> isTypeSpec ty = true ->
      wrapped (f :: o :: (col ++ a :: ty) ++ [c])
  (* [f(arg, ..., arg)] *)
  | wrapped_call t0 cal o t inner c args : dotted isName (t0 :: cal) -> is_kind [KindLParen] o = true -> closes o c = true ->
      none (closes o) (t :: inner) -> none (cast_at (pt_depth t0)) (t0 :: cal ++ o :: (t :: inner) ++ [c]) ->
      (cal = [] -> isIdent notFunctions t0 = false /\ isIdent (words ["CAST"]%string) t0 = false) ->
      separated (comma_at (pt_depth t)) args (t :: inner) -> one_of_args args ->
      wrapped (t0 :: cal ++ o :: (t :: inner) ++ [c]).

Lemma one_column_spec args : one_column args = true <-> one_of_args args.
Proof.
  unfold one_column, one_of_args. rewrite andb_true_iff, Nat.eqb_eq. induction args as [|x args IH].
  { split; [by intros [_ ?]|]. by intros ([|? ?] & ? & ? & ? & _). }
  cbn [forallb List.filter]. rewrite andb_true_iff, orb_true_iff. destruct (isColRef x) eqn:E.
  - pose proof (proj1 (isColRef_spec x) E) as Hx. split.
    + intros [[_ Hall] [= Hlen]]. exists [], x, args. split; [done|]. split; [done|]. intros b Hb. cbn in Hb.
      assert (Hn : isColRef b = false).
      { destruct (isColRef b) eqn:Eb; [|done]. apply list_elem_of_In in Hb. pose proof (proj2 (filter_In isColRef b args) (conj Hb Eb)) as Hf.
        by destruct (List.filter isColRef args). }
      split; [by rewrite <- isColRef_spec, Hn|]. rewrite forallb_forall in Hall. apply list_elem_of_In in Hb. specialize (Hall b Hb).
      by rewrite Hn in Hall.
    + intros (pre & a & post & Eq & Ha & Hb). destruct pre as [|y pre]; injection Eq as -> ->.
      * split; [split; [by left|]|].
        -- apply forallb_forall. intros b Hin%list_elem_of_In. destruct (Hb b Hin) as [_ ->]. apply orb_true_r.
        -- cbn. f_equal. apply length_zero_iff_nil. destruct (List.filter isColRef post) as [|b l] eqn:Ef; [done|].
           assert (In b (List.filter isColRef post)) as [Hin Hc]%filter_In by (rewrite Ef; by left).
           apply list_elem_of_In in Hin. destruct (Hb b Hin) as [Hn _]. by apply isColRef_spec in Hc.
      * destruct (Hb y) as [Hn _]; [by left|done].
  - assert (Hx : ~ column_ref x) by (by rewrite <- isColRef_spec, E). split.
    + intros [[[?|Hf] Hall] Hlen]; [done|]. destruct (proj1 IH (conj Hall Hlen)) as (pre & a & post & -> & Ha & Hb).
      exists (x :: pre), a, post. split; [done|]. split; [done|]. intros b [->|Hin]%elem_of_cons; auto.
    + intros (pre & a & post & Eq & Ha & Hb). destruct pre as [|y pre]; injection Eq as -> ->; [done|].
      destruct (Hb y) as [_ Hf]; [by left|]. rewrite Hf.
      destruct (proj2 IH) as [H1 H2]; [exists pre, a, post; split; [done|]; split; [done|]; intros b Hin; apply Hb; by right|]. auto.
Qed.

Lemma none_column_cast d col : column_ref col -> none (cast_at d) col.
Proof.
  assert (Hk : forall k t, is_kind [k] t = true -> pkind t = k) by (intros k t H; by apply bool_decide_eq_true, list_elem_of_singleton in H).
  assert (Hn : forall n, column_part n = true -> cast_at d n = false).
  { intros n [Hn _]%andb_true_iff. unfold cast_at. apply andb_false_iff. right. apply not_true_iff_false. intros H%Hk.
    apply bool_decide_eq_true in Hn. rewrite H in Hn. by apply (bool_decide_eq_true (_ ∈ _)) in Hn. }
  assert (Hd : forall n, isDot n = true -> cast_at d n = false).
  { intros n [Hd _]%andb_true_iff. unfold cast_at. apply andb_false_iff. right. apply not_true_iff_false. intros H%Hk. apply Hk in Hd. congruence. }
  induction 1 as [n H|n dot l H H2 _ IH]; cbn; [by rewrite Hn|]. rewrite Hn, Hd by done. done.
Qed.

(** The parts of a call: the callee, the parenthesis and what is inside. *)
Lemma inside pre o inner (c : ptok) k : length pre = k ->
  take (length (pre ++ o :: inner ++ [c]) - 1 - S k) (drop (S k) (pre ++ o :: inner ++ [c])) = inner.
Proof.
  intros <-. assert (drop (S (length pre)) (pre ++ o :: inner ++ [c]) = inner ++ [c]) as ->.
  { rewrite drop_app_ge by lia. by replace (S (length pre) - length pre) with 1 by lia. }
  replace (length (pre ++ o :: inner ++ [c]) - 1 - S (length pre)) with (length inner); [apply take_app_length|].
  rewrite length_app. cbn. rewrite length_app. cbn. lia.
Qed.

Lemma callee_paren t0 cal o inner c : dotted isName (t0 :: cal) -> is_kind [KindLParen] o = true -> closes o c = true -> none (closes o) inner ->
  let ops := t0 :: cal ++ o :: inner ++ [c] in let k := callee (cal ++ o :: inner ++ [c]) 1 in
  k = length (t0 :: cal) /\ ops !! k = Some o /\ matchingParen ops k = Some (length ops - 1) /\
  take (length ops - 1 - S k) (drop (S k) ops) = inner.
Proof.
  intros Hd Ho Hc Hi ops k.
  assert (Hdot : isDot o = false).
  { unfold isDot. apply bool_decide_eq_true, list_elem_of_singleton in Ho. unfold is_kind. by rewrite Ho. }
  assert (Ek : k = length (t0 :: cal)) by (apply (callee_name (t0 :: cal) o (inner ++ [c]) Hd Hdot)).
  rewrite Ek. split; [done|]. split; [unfold ops; rewrite app_comm_cons, lookup_app_r, Nat.sub_diag by done; done|]. split.
  - apply matching_last; [unfold ops; cbn; rewrite length_app; cbn; lia|]. by exists (t0 :: cal), o, inner, c.
  - exact (inside (t0 :: cal) o inner c _ eq_refl).
Qed.

Lemma isWrappedColumn_eq t0 rest : isWrappedColumn (t0 :: rest) =
  let ops := t0 :: rest in let k := callee rest 1 in let inner := take (length ops - 1 - S k) (drop (S k) ops) in
  if Nat.ltb (length ops) 3 then false
  else
    match index_where (cast_at (pt_depth t0)) ops with
    | Some k => isColRef (take k ops) && isTypeSpec (drop (S k) ops)
    | None =>
        if negb (isName t0) then false
        else if negb (match ops !! k with Some p => is_kind [KindLParen] p | None => false end
                      && bool_decide (matchingParen ops k = Some (length ops - 1))) then false
        else if isIdent notFunctions t0 && Nat.eqb k 1 then false
        else if isIdent (words ["CAST"]%string) t0 && Nat.eqb k 1 then
          match index_where (as_at (pt_depth t0 + 1)) inner with
          | Some a => isColRef (take a inner) && isTypeSpec (drop (S a) inner)
          | None => false
          end
        else one_column (splitArgs inner)
    end.
Proof.
  assert (E : forall b, isIdent notFunctions t0 && b = is_kind [KindIdent] t0 && b && one_of notFunctions (pt_upper t0)).
  { intros b. unfold isIdent. by rewrite <- !andb_assoc, (andb_comm b). }
  cbv zeta. rewrite E. reflexivity.
Qed.

Lemma isName_ident l t : isIdent l t = true -> isName t = true.
Proof. intros [H _]%andb_true_iff. apply bool_decide_eq_true, list_elem_of_singleton in H. unfold isName, is_kind. by rewrite H. Qed.

Lemma cast_not_function t : isIdent (words ["CAST"]%string) t = true -> isIdent notFunctions t = false.
Proof.
  intros [_ H]%andb_true_iff. apply bool_decide_eq_true, list_elem_of_singleton in H. unfold isIdent. rewrite H.
  apply andb_false_iff. right. by vm_compute.
Qed.

(** A call that its last parenthesis closes. *)
Lemma wrapped_call_eq t0 cal o inner c : dotted isName (t0 :: cal) -> is_kind [KindLParen] o = true -> closes o c = true -> none (closes o) inner ->
  none (cast_at (pt_depth t0)) (t0 :: cal ++ o :: inner ++ [c]) ->
  isWrappedColumn (t0 :: cal ++ o :: inner ++ [c]) =
    if isIdent notFunctions t0 && bool_decide (cal = []) then false
    else if isIdent (words ["CAST"]%string) t0 && bool_decide (cal = []) then
      match index_where (as_at (pt_depth t0 + 1)) inner with
      | Some a => isColRef (take a inner) && isTypeSpec (drop (S a) inner)
      | None => false
      end
    else one_column (splitArgs inner).
Proof.
  intros Hcal Ho Hc Hin Hcast. destruct (callee_paren t0 cal o inner c Hcal Ho Hc Hin) as (Ek & El & Em & Ei).
  assert (Hn : isName t0 = true) by (apply dotted_cons in Hcal; tauto). rewrite isWrappedColumn_eq. cbv zeta.
  rewrite (proj2 (index_where_None _ _) Hcast), El, Em, Ei, Ho, Hn, bool_decide_true by done. cbn [negb andb].
  assert (Ec : Nat.eqb (callee (cal ++ o :: inner ++ [c]) 1) 1 = bool_decide (cal = [])).
  { rewrite Ek. destruct cal; [done|]. rewrite bool_decide_false by done. apply Nat.eqb_neq. cbn. lia. }
  rewrite Ec. destruct (Nat.ltb_spec (length (t0 :: cal ++ o :: inner ++ [c])) 3) as [Hlt|_]; [|done].
  cbn in Hlt. rewrite length_app in Hlt. cbn in Hlt. rewrite length_app in Hlt. cbn in Hlt. 
  lia.
Qed.

Lemma split_index {A} (pre : list A) x post : take (length pre) (pre ++ x :: post) = pre /\ drop (S (length pre)) (pre ++ x :: post) = post.
Proof.
  split; [apply take_app_length|]. rewrite drop_app_ge by lia. by replace (S (length pre) - length pre) with 1 by lia.
Qed.

Lemma wrapped_complete ops : wrapped ops -> isWrappedColumn ops = true.
Proof.
  intros H. destruct H as [t0 col c ty Hcol Hc Hty|f o col a ty c Hf Ho Hc Hin Hcast Ha Has Hcol Hty
                          |t0 cal o t inner c args Hcal Ho Hc Hin Hcast Hfun Hsep Hargs].
  - rewrite isWrappedColumn_eq. cbv zeta. rewrite (proj2 (index_where_Some _ _ (length (t0 :: col)))).
    2:{ exists (t0 :: col), c, ty. split; [done|]. split; [done|]. split; [done|]. by apply (none_column_cast (pt_depth t0)). }
    change (t0 :: col ++ c :: ty) with ((t0 :: col) ++ c :: ty). destruct (split_index (t0 :: col) c ty) as [-> ->].
    rewrite (proj2 (isColRef_spec _) Hcol), Hty.
    destruct (Nat.ltb_spec (length ((t0 :: col) ++ c :: ty)) 3) as [Hlt|_]; [|done]. destruct ty; [done|]. rewrite length_app in Hlt. cbn in Hlt. lia.
  - pose proof (wrapped_call_eq f [] o (col ++ a :: ty) c) as E. cbn [app] in E. rewrite E by (done || by constructor; apply (isName_ident _ _ Hf)). clear E.
    rewrite (cast_not_function f Hf), Hf, bool_decide_true by done. cbn [andb].
    rewrite (proj2 (index_where_Some _ _ (length col))) by (by exists col, a, ty).
    destruct (split_index col a ty) as [-> ->]. by rewrite (proj2 (isColRef_spec _) Hcol), Hty.
  - rewrite (wrapped_call_eq t0 cal o (t :: inner) c) by done.
    assert (Hne : args <> []) by (by destruct Hargs as ([|? ?] & ? & ? & -> & _)).
    rewrite (proj2 (splitArgs_spec (t :: inner) args Hne)) by eauto. rewrite (proj2 (one_column_spec args) Hargs).
    case_bool_decide as E; [|by rewrite !andb_false_r]. destruct (Hfun E) as [-> ->]. done.
Qed.

Lemma wrapped_sound ops : isWrappedColumn ops = true -> wrapped ops.
Proof.
  destruct ops as [|t0 rest]; [done|]. intros Hw. pose proof Hw as H. rewrite isWrappedColumn_eq in H. cbv zeta in H.
  destruct (Nat.ltb _ 3); [done|]. destruct (index_where (cast_at (pt_depth t0)) (t0 :: rest)) as [k|] eqn:Ei.
  - apply index_where_Some in Ei as (pre & c & ty & E & <- & Hc & _). rewrite E in H. destruct (split_index pre c ty) as [E1 E2].
    rewrite E1, E2 in H. apply andb_true_iff in H as [Hcol%isColRef_spec Hty]. destruct (dotted_head _ _ Hcol) as (n & col & -> & _).
    rewrite E. injection E as <- _. by constructor.
  - apply index_where_None in Ei. destruct (isName t0) eqn:Hn; [|done]. cbn [negb] in H.
    destruct (callee_spec rest 1) as (tailn & post & Hrest & Hk & Hdot & _). rewrite Hk in H.
    destruct ((t0 :: rest) !! (1 + length tailn)) as [o|] eqn:Eo; [|done].
    destruct (is_kind [KindLParen] o && _) eqn:Em; [|done]. apply andb_true_iff in Em as [Ho Em%bool_decide_eq_true]. clear H.
    apply matching_last in Em as (pre & o' & inner & c & E & Hl & Hc & Hin); [|by apply lookup_lt_Some in Eo].
    assert (pre = t0 :: tailn) as ->.
    { rewrite Hrest in E. change (t0 :: tailn ++ post) with ((t0 :: tailn) ++ post) in E. apply app_inj_1 in E as [-> _]; [done|]. by rewrite Hl. }
    assert (o' = o) as ->.
    { rewrite E, lookup_app_r, Hl, Nat.sub_diag in Eo by (by rewrite Hl). by injection Eo. }
    rewrite E in Hw, Ei |- *. cbn [app] in Hw, Ei |- *. rewrite (wrapped_call_eq t0 tailn o inner c) in Hw by auto.
    destruct (isIdent notFunctions t0 && _) eqn:Enf; [done|]. destruct (isIdent (words ["CAST"]%string) t0 && _) eqn:Ecast.
    + apply andb_true_iff in Ecast as [HC ->%bool_decide_eq_true].
      destruct (index_where _ inner) as [k|] eqn:Ea; [|done]. apply index_where_Some in Ea as (col & a & ty & -> & <- & Ha & Has).
      destruct (split_index col a ty) as [E1 E2]. rewrite E1, E2 in Hw. apply andb_true_iff in Hw as [Hcol%isColRef_spec Hty].
      by apply wrapped_as.
    + apply one_column_spec in Hw. destruct inner as [|t inner]; [by destruct Hw as ([|? ?] & ? & ? & ? & _)|].
      destruct (splitArgs (t :: inner)) as [|x args] eqn:Ea; [by destruct Hw as ([|? ?] & ? & ? & ? & _)|].
      apply splitArgs_spec in Ea as (t' & inner' & [= <- <-] & Hsep); [|done]. eapply wrapped_call; eauto.
      intros ->. rewrite bool_decide_true, andb_true_r in Enf, Ecast by done. done.
Qed.

(** A wrapped column is one behind one cast or one call.  [isWrappedColumn]
    accepts exactly the runs of the grammar [wrapped]: a reference, a cast
    operator at its depth and a type; CAST, a reference, AS and a type in
    parentheses; or a dotted name, neither CAST nor a word of [notFunctions], and between the
    parentheses that close the run arguments of which one is a reference and
    every other one free of columns. *)
Theorem wrapped_column_exact ops : isWrappedColumn ops = true <-> wrapped ops.
Proof. split; [apply wrapped_sound|apply wrapped_complete]. Qed.

(** An operand taken for free of columns has none.  Every token of it is a
    literal, a placeholder, an operator, a comma, a parenthesis, a bracket, a cast
    or a name with another role: the name of a function, the type of a typed
    literal, a literal word, AS, the operator AT TIME ZONE, a word of the type name
    after a cast or AS, or the unit of an INTERVAL that follows its value. *)
Theorem column_free_sound ops : isColumnFree ops = true -> ops <> [] /\ forall k t, ops !! k = Some t -> no_column ops k t.
Proof. apply isColumnFree_spec. Qed.

(** [upper(:c)], a call of a function with a placeholder. *)
Definition demo_call : list ptok :=
  [mkPtok (mkToken KindIdent 0 5 (bs "upper")) 0 (bs "UPPER") [];
   mkPtok (mkToken KindLParen 5 6 (bs "(")) 0 [] [];
   mkPtok (mkToken KindPositionalParam 6 8 (bs "$1")) 1 [] (bs "c");
   mkPtok (mkToken KindRParen 8 9 (bs ")")) 0 [] []].

Lemma column_free_sound_witness : isColumnFree demo_call = true /\ demo_call <> [] /\ forall k t, demo_call !! k = Some t -> no_column demo_call k t.
Proof. split; [by vm_compute|]. apply (column_free_sound demo_call). by vm_compute. Defined.
