(* ===== verification/Jsonrpc.v ===== *)
(** * Jsonrpc

    [internal/lsp/jsonrpc.go]: the frames of the language server's transport.
    The stream is the bytes the peer has sent before its end.  The JSON codec is
    an argument, a decoder's error being its text, and so is [strings.EqualFold]. *)

From S2P Require Import Prelude Dialect ScanBodies ScanDirectives.

(** ** Messages

    An unset member of Go's [Message] is [None] or empty; raw JSON is its bytes. *)
Record ResponseError := mkResponseError { RECode : Z; REMessage : bytes }.
Record Message := mkMessage {
  JSONRPC : bytes; ID : option bytes; Method : bytes; Params : bytes; Result : bytes; ErrorMember : option ResponseError;
}.

Definition codeParseError : Z := -32700.
Definition codeMethodNotFound : Z := -32601.
Definition codeInvalidParams : Z := -32602.
Definition codeInternalError : Z := -32603.

Definition maxContentLength : N := N.shiftl 64 20.
Definition maxHeaderBytes : nat := N.to_nat (N.shiftl 8 10).
Definition maxHeaderLines : nat := 64.

(** The errors of a read; [ErrEOF] and [ErrUnexpectedEOF] are [io]'s. *)
Inductive ReadError :=
  | ErrEOF | ErrUnexpectedEOF | ErrHeaderBytes | ErrHeaderLines | ErrMalformedHeader (line : bytes) | ErrBadContentLength
  | ErrMissingLength | ErrTooLong (length : Z) | ErrMalformedBody (why : bytes).

(** ** Reading *)

(** One header line: the line, what is left of the budget and of the stream. *)
Fixpoint readHeaderLine (r : bytes) (budget : nat) (sb : bytes) {struct budget} : result ReadError bytes * nat * bytes :=
  match budget with
  | O => (Err ErrHeaderBytes, budget, r)
  | S budget =>
      match r with
      | [] => (Err ErrEOF, S budget, r)
      | b :: r => if b =b c_lf then (Ok sb, budget, r) else readHeaderLine r budget (sb ++ [b])
      end
  end.

(** [strings.Cut(line, ":")] *)
Fixpoint Cut (sep : ascii) (s : bytes) : option (bytes * bytes) :=
  match s with
  | [] => None
  | c :: s => if c =b sep then Some ([], s) else '(name, value) ← Cut sep s; Some (c :: name, value)
  end.

(** [io.ReadFull] of [n] bytes. *)
Definition ReadFull (r : bytes) (n : nat) : result ReadError bytes * bytes :=
  if Nat.leb n (length r) then (Ok (take n r), drop n r)
  else (Err match r with [] => ErrEOF | _ => ErrUnexpectedEOF end, []).

Section conn.
Context (EqualFold : bytes -> bytes -> bool) (Unmarshal : bytes -> result bytes Message) (Marshal : Message -> option bytes).

(** The length a header line sets, if it is the one that does. *)
Definition header_length (line : bytes) (n : Z) : result ReadError Z :=
  match Cut ":" line with
  | None => Err (ErrMalformedHeader line)
  | Some (name, value) =>
      if EqualFold (TrimSpace name) (bs "Content-Length") then or_err (Atoi (TrimSpace value)) ErrBadContentLength
      else Ok n
  end.

(** The header block; [lines] is how many are still allowed. *)
Fixpoint read_headers (lines : nat) (r : bytes) (budget : nat) (n : Z) : result ReadError Z * bytes :=
  match lines with
  | O => (Err ErrHeaderLines, r)
  | S lines =>
      match readHeaderLine r budget [] with
      | (Err e, _, r) => (Err e, r)
      | (Ok line, budget, r) =>
          let line := trim_right (fun c => c =b c_cr) line in
          if bool_decide (line = []) then (Ok n, r)
          else
            match header_length line n with
            | Err e => (Err e, r)
            | Ok n => read_headers lines r budget n
            end
      end
  end.

Definition read (r : bytes) : result ReadError Message * bytes :=
  match read_headers maxHeaderLines r maxHeaderBytes (-1) with
  | (Err e, r) => (Err e, r)
  | (Ok n, r) =>
      if (n <? 0)%Z then (Err ErrMissingLength, r)
      else if (Z.of_N maxContentLength <? n)%Z then (Err (ErrTooLong n), r)
      else
        match ReadFull r (Z.to_nat n) with
        | (Err e, r) => (Err e, r)
        | (Ok body, r) => (match Unmarshal body with Ok msg => Ok msg | Err why => Err (ErrMalformedBody why) end, r)
        end
  end.

(** ** Writing *)

(** The bytes of a frame; [None] when the message does not marshal. *)
Definition write (msg : Message) : option bytes :=
  body ← Marshal (mkMessage (bs "2.0") (ID msg) (Method msg) (Params msg) (Result msg) (ErrorMember msg));
  Some (bs "Content-Length: " ++ FormatUint (N.of_nat (length body)) 10 ++ [c_cr; c_lf; c_cr; c_lf] ++ body).
End conn.
