(* ===== verification/LspServer.v ===== *)
(** * LspServer

    [internal/lsp/server.go]: the language server as a machine over the messages
    of its client.  What it sends is a list of events.  The workspace, the codecs of
    parameters and URIs and [fmt.Sprintf] of a report's message are arguments; what
    goes to the log is left out. *)

From S2P Require Import Prelude Dialect Template Diagnostics Lines Jsonrpc.

(** ** Values and events *)

Definition severityError : Z := 1.
Definition severityWarning : Z := 2.
Definition messageError : Z := 1.
Definition messageWarning : Z := 2.

Record LspDiagnostic := mkLspDiagnostic {
  LdRange : Range_; LdSeverity : Z; LdCode : bytes; LdSource : bytes; LdMessage : bytes;
}.

(** What the server marshals. *)
Inductive Value :=
  | VNil | VInitializeResult
  | VShowMessage (type : Z) (message : bytes)
  | VPublishDiagnostics (uri : bytes) (ds : list LspDiagnostic)
  | VLocation (uri : bytes) (range : Range_).

Inductive Event :=
  | Response (id : bytes) (result : Value)
  | ErrorResponse (id : bytes) (code : Z) (message : bytes)
  | Notification (method : bytes) (params : Value).

(** The message of an event. *)
Section wire.
Context (MarshalValue : Value -> option bytes) (Marshal : Jsonrpc.Message -> option bytes).

Definition marshalRaw (v : Value) : option bytes := match v with VNil => Some (bs "null") | _ => MarshalValue v end.

Definition send (e : Event) : option bytes :=
  match e with
  | Response id v => r ← marshalRaw v; write Marshal (mkMessage [] (Some id) [] [] r None)
  | ErrorResponse id code message => write Marshal (mkMessage [] (Some id) [] [] [] (Some (mkResponseError code message)))
  | Notification method v => p ← marshalRaw v; write Marshal (mkMessage [] None method p [] None)
  end.
End wire.

(** ** State *)

Record WorkspaceResult := mkWorkspaceResult {
  WRDiags : gmap bytes (list Diagnostic); WRFiles : gmap bytes QueryFile; WRSources : gmap bytes bytes;
}.

(** How a check of the workspace ends. *)
Inductive Outcome := Checked (res : WorkspaceResult) | CheckFailed | CheckPanicked.

Record server := mkServer {
  overlay : gmap bytes bytes; overlayCapWarned : bool; published : gset bytes; last : WorkspaceResult; shutdown : bool;
}.

Definition no_result : WorkspaceResult := mkWorkspaceResult ∅ ∅ ∅.
Definition server0 : server := mkServer ∅ false ∅ no_result false.

Definition set_overlay (m : gmap bytes bytes) (s : server) : server :=
  mkServer m (overlayCapWarned s) (published s) (last s) (shutdown s).

Definition maxOpenDocuments : nat := N.to_nat 4096.
Definition maxPublishedDiagnostics : nat := N.to_nat 2000.

(** A message handled, or a panic met on the way, with what was sent. *)
Record Handled := mkHandled { h_state : server; h_events : list Event; h_panic : bool }.
Definition done_ (s : server) (evs : list Event) : Handled := mkHandled s evs false.

Section server.
Context (Sprintf : bytes -> list Arg -> bytes) (pathToURI : bytes -> bytes) (uriToPath : bytes -> option bytes).
(** The decoders of parameters: the URI and the text, the URI and the texts, the
    URI, the URI and the position. *)
Context (decodeOpen : bytes -> option (bytes * bytes)) (decodeChange : bytes -> option (bytes * list bytes))
        (decodeClose : bytes -> option bytes) (decodeDefinition : bytes -> result bytes (bytes * Position)).
Context (maxOpenDocs : nat) (initErr : bytes).

Definition capMessage : bytes :=
  bs "sqletch: more than " ++ dec maxOpenDocs ++ bs " open documents; further documents are checked from disk only".

Definition trackOverlay (s : server) (path content : bytes) : server * list Event * bool :=
  match overlay s !! path with
  | None =>
      if Nat.leb maxOpenDocs (size (overlay s)) then
        (mkServer (overlay s) true (published s) (last s) (shutdown s),
         if overlayCapWarned s then [] else [Notification (bs "window/showMessage") (VShowMessage messageWarning capMessage)], false)
      else (set_overlay (<[path := content]> (overlay s)) s, [], true)
  | Some _ => (set_overlay (<[path := content]> (overlay s)) s, [], true)
  end.

(** ** Publishing *)

Definition toLSPDiagnostic (src : bytes) (d : Diagnostic) : result IndexPanic LspDiagnostic :=
  let! r := spanRange src (Z.of_nat (SStart (DSpan d))) (Z.of_nat (SEnd (DSpan d))) in
  Ok (mkLspDiagnostic r (match DSeverity d with Warning => severityWarning | Error => severityError end)
        (DCode d) (bs "sqletch") (Lines.Message Sprintf d ++ help Sprintf d)).

Fixpoint convert (src : bytes) (ds : list Diagnostic) : result IndexPanic (list LspDiagnostic) :=
  match ds with
  | [] => Ok []
  | d :: ds => let! x := toLSPDiagnostic src d in let! xs := convert src ds in Ok (x :: xs)
  end.

Definition suppressed (truncated : nat) : bytes :=
  dec truncated ++ bs " further diagnostics suppressed (over the " ++ dec maxPublishedDiagnostics ++ bs "-per-file publish cap)".

(** What is published for a file. *)
Definition file_diagnostics (res : WorkspaceResult) (p : bytes) : result IndexPanic (list LspDiagnostic) :=
  let ds := default [] (WRDiags res !! p) in
  let src := default [] (WRSources res !! p) in
  let truncated := length ds - maxPublishedDiagnostics in
  let! out := convert src (take maxPublishedDiagnostics ds) in
  if Nat.eqb truncated 0 then Ok out
  else
    let! r := spanRange src 0 0 in
    Ok (out ++ [mkLspDiagnostic r severityWarning [] (bs "sqletch") (suppressed truncated)]).

(** The loop over the paths: the events, the paths published for, a panic. *)
Fixpoint publish (res : WorkspaceResult) (paths : list bytes) : list Event * gset bytes * bool :=
  match paths with
  | [] => ([], ∅, false)
  | p :: paths =>
      match file_diagnostics res p with
      | Err _ => ([], ∅, true)
      | Ok out =>
          let '(evs, pubs, panic) := publish res paths in
          (Notification (bs "textDocument/publishDiagnostics") (VPublishDiagnostics (pathToURI p) out) :: evs,
           match out with [] => pubs | _ => {[p]} ∪ pubs end, panic)
      end
  end.

Definition with_diags (res : WorkspaceResult) : gset bytes :=
  dom (base.filter (fun '(_, ds) => ds <> []) (WRDiags res)).
Definition publish_targets (s : server) (res : WorkspaceResult) : list bytes :=
  SliceStable bytes_ltb (elements (dom (overlay s) ∪ with_diags res ∪ published s)).

Definition check (ws : option (gmap bytes bytes -> Outcome)) (s : server) : Handled :=
  match ws with
  | None => done_ s []
  | Some ws =>
      match ws (overlay s) with
      | CheckPanicked => mkHandled s [] true
      | CheckFailed => done_ s []
      | Checked res =>
          let '(evs, pubs, panic) := publish res (publish_targets s res) in
          mkHandled (mkServer (overlay s) (overlayCapWarned s) (if panic then published s else pubs) res (shutdown s)) evs panic
      end
  end.

(** ** Definitions *)

Definition contains (sp : Span) (off : nat) : bool := Nat.leb (SStart sp) off && Nat.ltb off (SEnd sp).

(** The loop over the annotations of a query; [Some] is a return. *)
Fixpoint def_hints (q : QueryTemplate) (hints : list (bytes * TypeHint)) (off : nat) : option (option Span) :=
  match hints with
  | [] => None
  | (name, hint) :: hints =>
      if contains (THSpan hint) off then
        Some (p ← QParams q !! name; occ ← head (POccurrences p); Some (OcSpan occ))
      else def_hints q hints off
  end.

Fixpoint def_order (q : QueryTemplate) (names : list bytes) (off : nat) : option (option Span) :=
  match names with
  | [] => None
  | name :: names =>
      match QParams q !! name with
      | None => def_order q names off
      | Some p =>
          if existsb (fun occ => contains (OcSpan occ) off) (POccurrences p) then
            Some (match QTypeHints q !! name with
                  | Some hint => Some (THSpan hint)
                  | None => occ ← head (POccurrences p); Some (OcSpan occ)
                  end)
          else def_order q names off
      end
  end.

Fixpoint definitionAt (queries : list QueryTemplate) (off : nat) : option Span :=
  match queries with
  | [] => None
  | q :: queries =>
      match def_hints q (map_to_list (QTypeHints q)) off with
      | Some r => r
      | None => match def_order q (QParamOrder q) off with Some r => r | None => definitionAt queries off end
      end
  end.

Definition respond (id : option bytes) (v : Value) : list Event := match id with None => [] | Some id => [Response id v] end.

Definition definition (s : server) (msg : Jsonrpc.Message) : Handled :=
  match ID msg with
  | None => done_ s []
  | Some id =>
      match decodeDefinition (Params msg) with
      | Err why => done_ s [ErrorResponse id codeInvalidParams why]
      | Ok (uri, pos) =>
          match uriToPath uri with
          | None => done_ s [Response id VNil]
          | Some path =>
              match WRFiles (last s) !! path, WRSources (last s) !! path with
              | Some file, Some src =>
                  match definitionAt (QFQueries file) (offset src pos) with
                  | None => done_ s [Response id VNil]
                  | Some span =>
                      match spanRange src (Z.of_nat (SStart span)) (Z.of_nat (SEnd span)) with
                      | Err _ => mkHandled s [] true
                      | Ok r => done_ s [Response id (VLocation (pathToURI path) r)]
                      end
                  end
              | _, _ => done_ s [Response id VNil]
              end
          end
      end
  end.

(** ** Dispatch *)

(** A check after what was sent already. *)
Definition then_check (ws : option (gmap bytes bytes -> Outcome)) (s : server) (evs : list Event) : Handled :=
  let h := check ws s in mkHandled (h_state h) (evs ++ h_events h) (h_panic h).

Definition method (name : string) (msg : Jsonrpc.Message) : bool := bool_decide (Method msg = bs name).

Definition handle (ws : option (gmap bytes bytes -> Outcome)) (s : server) (msg : Jsonrpc.Message) : Handled :=
  if bool_decide (Method msg = []) then done_ s []
  else if method "initialize" msg then done_ s (respond (ID msg) VInitializeResult)
  else if method "initialized" msg then
    done_ s (match initErr with [] => [] | _ => [Notification (bs "window/showMessage") (VShowMessage messageError initErr)] end)
  else if method "shutdown" msg then
    done_ (mkServer (overlay s) (overlayCapWarned s) (published s) (last s) true) (respond (ID msg) VNil)
  else if method "textDocument/didOpen" msg then
    match ('(uri, text) ← decodeOpen (Params msg); path ← uriToPath uri; Some (path, text)) with
    | None => done_ s []
    | Some (path, text) =>
        let '(s, evs, tracked) := trackOverlay s path text in
        if tracked : bool then then_check ws s evs else done_ s evs
    end
  else if method "textDocument/didChange" msg then
    match ('(uri, texts) ← decodeChange (Params msg); path ← uriToPath uri; Some (path, texts)) with
    | None => done_ s []
    | Some (path, texts) =>
        match list.last texts with
        | None => then_check ws s []
        | Some text =>
            let '(s, evs, tracked) := trackOverlay s path text in
            if tracked : bool then then_check ws s evs else done_ s evs
        end
    end
  else if method "textDocument/didSave" msg then then_check ws s []
  else if method "textDocument/didClose" msg then
    match (uri ← decodeClose (Params msg); uriToPath uri) with
    | None => done_ s []
    | Some path => then_check ws (set_overlay (delete path (overlay s)) s) []
    end
  else if method "textDocument/definition" msg then definition s msg
  else if method "$/cancelRequest" msg || method "$/setTrace" msg then done_ s []
  else
    done_ s (match ID msg with
             | Some id => [ErrorResponse id codeMethodNotFound (bs "unsupported method " ++ Method msg)]
             | None => []
             end).

(** A panic is recovered from; a request is still answered. *)
Definition dispatch (ws : option (gmap bytes bytes -> Outcome)) (s : server) (msg : Jsonrpc.Message) : server * list Event :=
  let h := handle ws s msg in
  (h_state h, h_events h ++ if h_panic h then match ID msg with
                                              | Some id => [ErrorResponse id codeInternalError (bs "internal error")]
                                              | None => []
                                              end else []).

(** ** The session

    The workspace may answer differently at every message.  Fuel: a read that does
    not end the session takes a byte of the stream. *)
Context (EqualFold : bytes -> bytes -> bool) (Unmarshal : bytes -> result bytes Jsonrpc.Message).

Fixpoint run_loop (fuel : nat) (ws : option (nat -> gmap bytes bytes -> Outcome)) (now : nat) (s : server) (r : bytes)
    : option Z * server * list Event :=
  match fuel with
  | O => (None, s, [])
  | S fuel =>
      match read EqualFold Unmarshal r with
      | (Err (ErrMalformedBody why), r) =>
          let '(code, s, evs) := run_loop fuel ws (S now) s r in
          (code, s, ErrorResponse (bs "null") codeParseError (bs "lsp: malformed message body: " ++ why) :: evs)
      | (Err _, _) => (Some 1%Z, s, [])
      | (Ok msg, r) =>
          if method "exit" msg then (Some (if shutdown s then 0 else 1)%Z, s, [])
          else
            let '(s, evs) := dispatch ((fun f => f now) <$> ws) s msg in
            let '(code, s, evs') := run_loop fuel ws (S now) s r in
            (code, s, evs ++ evs')
      end
  end.

(** [run] on a new server. *)
Definition run (ws : option (nat -> gmap bytes bytes -> Outcome)) (r : bytes) : option Z * server * list Event :=
  run_loop (S (length r)) ws 0 server0 r.
End server.

(** [Serve]: the exit code, with what became of the server and what it sent. *)
Definition Serve Sprintf pathToURI uriToPath decodeOpen decodeChange decodeClose decodeDefinition initErr EqualFold Unmarshal ws r :=
  run Sprintf pathToURI uriToPath decodeOpen decodeChange decodeClose decodeDefinition maxOpenDocuments initErr EqualFold Unmarshal ws r.
