(* ===== verification/LspTheorems.v ===== *)
(** * LspTheorems

    The transport and the session of the language server. *)

From S2P Require Import Prelude Dialect Template Diagnostics Lines LinesTheorems ScanBodies ScanDirectives ScanLiterals Jsonrpc LspServer.

(** ** Header lines *)

Lemma readHeaderLine_spec r budget sb res budget' r' : readHeaderLine r budget sb = (res, budget', r') ->
  exists k, r' = drop k r /\ k <= length r /\ budget' + k = budget /\
    match res with
    | Ok line => 1 <= k /\ exists l, take k r = l ++ [c_lf] /\ line = sb ++ l /\ c_lf ∉ l
    | Err e => forall why, e <> ErrMalformedBody why
    end.
Proof.
  revert r sb. induction budget as [|budget IH]; intros r sb; cbn [readHeaderLine].
  { intros [= <- <- <-]. exists 0. split; [done|]. split; [lia|]. split; [lia|done]. }
  destruct r as [|b r]; [intros [= <- <- <-]; exists 0; split; [done|]; split; [cbn; lia|]; split; [lia|done]|].
  destruct (Ascii.eqb_spec b c_lf) as [->|Hb].
  - intros [= <- <- <-]. exists 1. split; [done|]. split; [cbn; lia|]. split; [lia|]. split; [lia|]. exists [].
    split; [done|]. split; [by rewrite app_nil_r|apply not_elem_of_nil].
  - intros (k & -> & Hk & Hbud & H)%IH. exists (S k). split; [done|]. split; [cbn; lia|]. split; [lia|].
    destruct res as [line|e]; [|done]. destruct H as (H1 & l & Hl & -> & Hn). split; [lia|]. exists (b :: l).
    cbn. rewrite Hl, <- app_assoc. split; [done|]. split; [done|]. intros [H|H]%elem_of_cons; [congruence|done].
Qed.

Lemma readHeaderLine_line l rest budget sb : c_lf ∉ l -> length l < budget ->
  readHeaderLine (l ++ c_lf :: rest) budget sb = (Ok (sb ++ l), budget - S (length l), rest).
Proof.
  revert budget sb. induction l as [|b l IH]; intros budget sb Hn Hb; cbn [app readHeaderLine].
  - destruct budget as [|budget]; [cbn in Hb; lia|]. cbn [readHeaderLine]. rewrite Ascii.eqb_refl, app_nil_r. do 2 f_equal. cbn. lia.
  - destruct budget as [|budget]; [cbn in Hb; lia|]. cbn [readHeaderLine]. rewrite not_elem_of_cons in Hn. destruct Hn as [Hb' Hn].
    destruct (Ascii.eqb_spec b c_lf) as [->|]; [done|]. rewrite IH; [|done|cbn in Hb; lia]. rewrite <- app_assoc. done.
Qed.

Section conn.
Context (EqualFold : bytes -> bytes -> bool) (Unmarshal : bytes -> result bytes Jsonrpc.Message) (Marshal : Jsonrpc.Message -> option bytes).

Abbreviation read_headers := (read_headers EqualFold).
Abbreviation read := (read EqualFold Unmarshal).

Lemma header_length_error line n e : header_length EqualFold line n = Err e -> forall why, e <> ErrMalformedBody why.
Proof.
  unfold header_length. destruct (Cut ":" line) as [[name value]|]; [|by intros [= <-]]. destruct (EqualFold _ _); [|done].
  destruct (Atoi _); [done|]. by intros [= <-].
Qed.

Lemma read_headers_spec lines r budget n res r' : read_headers lines r budget n = (res, r') ->
  exists k, r' = drop k r /\ k <= length r /\ k <= budget /\
    match res with Ok _ => 1 <= k | Err e => forall why, e <> ErrMalformedBody why end.
Proof.
  revert r budget n. induction lines as [|lines IH]; intros r budget n; cbn [Jsonrpc.read_headers].
  { intros [= <- <-]. exists 0. split; [done|]. split; [lia|]. split; [lia|done]. }
  destruct (readHeaderLine r budget []) as [[[line|e] budget1] r1] eqn:E; apply readHeaderLine_spec in E as (k & -> & Hk & Hb & H).
  2:{ intros [= <- <-]. exists k. split; [done|]. split; [lia|]. split; [lia|done]. }
  destruct (bool_decide _); [intros [= <- <-]; exists k; split; [done|]; split; [lia|]; split; [lia|tauto]|].
  destruct (header_length _ _ n) as [n'|e] eqn:Eh.
  2:{ intros [= <- <-]. exists k. split; [done|]. split; [lia|]. split; [lia|]. by eapply header_length_error. }
  intros (k' & -> & Hk' & Hb' & H')%IH. rewrite length_drop in Hk'. exists (k + k'). split; [by rewrite drop_drop|].
  split; [lia|]. split; [lia|]. destruct res; [lia|done].
Qed.

(** A read is bounded.  It takes a prefix of the stream, of at most 8 KiB
    of header and 64 MiB of body, and at least a byte when it leaves the session
    on, with a message or a body that does not parse. *)
Lemma read_bounded r res r' : read r = (res, r') ->
  exists k, r' = drop k r /\ k <= length r /\ (N.of_nat k <= N.of_nat maxHeaderBytes + maxContentLength)%N /\
    match res with Ok _ | Err (ErrMalformedBody _) => 1 <= k | Err _ => True end.
Proof.
  unfold Jsonrpc.read. destruct (Jsonrpc.read_headers _ _ r _ _) as [[n|e] r1] eqn:E; apply read_headers_spec in E as (k & -> & Hk & Hb & H).
  2:{ intros [= <- <-]. exists k. split; [done|]. split; [done|]. split; [lia|].
    destruct e as [| | | | | | | |why]; try done. by destruct (H why). }
  destruct (n <? 0)%Z; [intros [= <- <-]; exists k; split; [done|]; split; [done|]; split; [lia|done]|].
  destruct (Z.ltb_spec (Z.of_N maxContentLength) n) as [|Hn]; [intros [= <- <-]; exists k; split; [done|]; split; [done|]; split; [lia|done]|].
  unfold ReadFull. destruct (Nat.leb_spec (Z.to_nat n) (length (drop k r))) as [Hl|Hl]; rewrite length_drop in Hl.
  - intros [= <- <-]. exists (k + Z.to_nat n). rewrite drop_drop. split; [done|]. split; [lia|]. split; [lia|].
    destruct (Unmarshal _); lia.
  - intros [= <- <-]. exists (length r). rewrite drop_all. split; [done|]. split; [done|]. split; [lia|]. by destruct (drop k r).
Qed.


(** ** Frames *)

Lemma strip_one_none seqs c s : forallb (fun p => match p with d :: _ => negb (d =b c) | [] => false end) seqs = true ->
  strip_one seqs (c :: s) = None.
Proof.
  induction seqs as [|p seqs IH]; [done|]. cbn [forallb strip_one]. intros [Hp Hs]%andb_true_iff. destruct p as [|d p]; [done|].
  cbn [length take]. case_decide as E; [|auto]. injection E as -> _. by rewrite Ascii.eqb_refl in Hp.
Qed.

Lemma digit_cases c : isDigit c = true -> c ∈ bs "0123456789".
Proof. destruct c as [[] [] [] [] [] [] [] []]; vm_compute; intros H; try discriminate H; repeat (first [by left|right]). Qed.

(** Trimming takes no digit away. *)
Lemma trim_digit fuel (rev_ : bool) c s : isDigit c = true ->
  trim_loop fuel (if rev_ then (fun p => rev p) <$> space_runes else space_runes) (c :: s) = c :: s.
Proof.
  intros Hc. destruct fuel as [|fuel]; [done|]. cbn [trim_loop]. rewrite strip_one_none; [done|].
  apply digit_cases in Hc. unfold bs in Hc. cbn in Hc. rewrite !list.elem_of_cons in Hc. 
  destruct rev_; repeat (destruct Hc as [->|Hc]; [by vm_compute|]); by apply not_elem_of_nil in Hc.
Qed.

Lemma digits_last ds : ds <> [] -> forallb isDigit ds = true -> exists c s, rev ds = c :: s /\ isDigit c = true.
Proof.
  destruct ds as [|d ds _] using rev_ind; [done|]. intros _ H. rewrite forallb_app in H. apply andb_true_iff in H as [_ H]. rewrite rev_app_distr. exists d, (rev ds).
  split; [done|]. cbn in H. by rewrite andb_true_r in H.
Qed.

Lemma TrimSpace_digits ds : ds <> [] -> forallb isDigit ds = true -> TrimSpace (" "%char :: ds) = ds.
Proof.
  intros Hne Hd. unfold TrimSpace. cbn [length]. cbn [trim_loop].
  assert (strip_one space_runes (" "%char :: ds) = Some ds) as ->.
  { assert (Hs : forall seqs, strip_one ([[ascii_of_N 9]; [ascii_of_N 10]; [ascii_of_N 11]; [ascii_of_N 12]; [ascii_of_N 13]; [" "%char]] ++ seqs) (" "%char :: ds) = Some ds).
    { intros seqs. cbn. done. }
    apply (Hs (drop 6 space_runes)). }
  destruct ds as [|c ds]; [done|]. assert (Hc : isDigit c = true) by (cbn in Hd; by apply andb_true_iff in Hd as [? _]).
  rewrite (trim_digit _ false) by done. destruct (digits_last _ Hne Hd) as (e & s & Er & He). rewrite Er, (trim_digit _ true) by done.
  rewrite <- Er. apply rev_involutive.
Qed.

Lemma FormatUint_digits n : FormatUint n 10 <> [] /\ forallb isDigit (FormatUint n 10) = true.
Proof. destruct (FormatUint_canonical n) as (H1 & H2 & _). done. Qed.

Lemma fmt_go_bound fuel base n acc : length (fmt_go fuel base n acc) <= fuel + length acc.
Proof.
  revert n acc. induction fuel as [|fuel IH]; intros n acc; cbn [fmt_go]; [lia|]. destruct (_ =? 0)%N; [cbn; lia|].
  etransitivity; [apply IH|]. cbn. lia.
Qed.

Lemma Atoi_FormatUint n : (n < 2 ^ 63)%N -> Atoi (FormatUint n 10) = Some (Z.of_N n).
Proof.
  intros Hn. destruct (FormatUint_digits n) as [Hne Hd]. unfold Atoi.
  assert (Hs : match FormatUint n 10 with "+"%char :: r => (false, r) | "-"%char :: r => (true, r) | _ => (false, FormatUint n 10) end
    = (false, FormatUint n 10)).
  { destruct (FormatUint n 10) as [|c ds]; [done|]. cbn in Hd. apply andb_true_iff in Hd as [Hc _]. apply digit_cases in Hc. unfold bs in Hc.
    cbn in Hc. rewrite !list.elem_of_cons in Hc. repeat (destruct Hc as [->|Hc]; [done|]). by apply not_elem_of_nil in Hc. }
  rewrite Hs, bool_decide_false, Hd by done. cbn [negb andb]. rewrite of_digits_FormatUint by done.
  destruct (Z.leb_spec (- 2 ^ 63) (Z.of_N n)); [|lia]. destruct (Z.ltb_spec (Z.of_N n) (2 ^ 63)); [done|]. lia.
Qed.

Lemma trim_cr l c : c <> c_cr -> trim_right (fun c => c =b c_cr) ((l ++ [c]) ++ [c_cr]) = l ++ [c].
Proof.
  intros Hc. unfold trim_right. rewrite !rev_app_distr. cbn [rev app trim_left]. rewrite Ascii.eqb_refl. cbn [trim_left].
  destruct (Ascii.eqb_spec c c_cr) as [->|_]; [done|]. cbn [rev]. by rewrite rev_involutive.
Qed.

Lemma header_length_digits ds n : EqualFold (bs "Content-Length") (bs "Content-Length") = true -> ds <> [] -> forallb isDigit ds = true ->
  header_length EqualFold (bs "Content-Length: " ++ ds) n = or_err (Atoi ds) ErrBadContentLength.
Proof.
  intros HE Hne Hd. unfold header_length. assert (Cut ":" (bs "Content-Length: " ++ ds) = Some (bs "Content-Length", " "%char :: ds)) as -> by reflexivity.
  assert (TrimSpace (bs "Content-Length") = bs "Content-Length") as E by (vm_compute; reflexivity).
  rewrite E, HE, TrimSpace_digits by done. done.
Qed.

(** The header of a body. *)
Lemma read_header n rest : EqualFold (bs "Content-Length") (bs "Content-Length") = true -> (n <= maxContentLength)%N ->
  read_headers maxHeaderLines (bs "Content-Length: " ++ FormatUint n 10 ++ [c_cr; c_lf; c_cr; c_lf] ++ rest) maxHeaderBytes (-1) = (Ok (Z.of_N n), rest).
Proof.
  intros HE Hn. destruct (FormatUint_digits n) as [Hne Hd].
  destruct (digits_last _ Hne Hd) as (c & ds & Er & Hc). apply (f_equal (@rev ascii)) in Er. rewrite rev_involutive in Er. cbn [rev] in Er.
  assert (Hcr : c <> c_cr) by (by intros ->).
  assert (Hlen : length (FormatUint n 10) <= 27).
  { unfold FormatUint. etransitivity; [apply fmt_go_bound|]. cbn [length].
    pose proof (N.log2_le_mono _ _ Hn) as Hl. change (N.log2 maxContentLength) with 26%N in Hl. lia. }
  assert (Hlf : c_lf ∉ bs "Content-Length: " ++ FormatUint n 10 ++ [c_cr]).
  { rewrite !not_elem_of_app. split; [by apply (bool_decide_unpack (~ _)); vm_compute|]. split; [|by apply (bool_decide_unpack (~ _)); vm_compute].
    intros H%list_elem_of_In. rewrite forallb_forall in Hd. by apply Hd in H. }
  assert (Hmax : exists b, maxHeaderBytes = 50 + b) by (exists (maxHeaderBytes - 50); by vm_compute). destruct Hmax as [b Hmax].
  change maxHeaderLines with 64. cbn [Jsonrpc.read_headers].
  replace (bs "Content-Length: " ++ FormatUint n 10 ++ [c_cr; c_lf; c_cr; c_lf] ++ rest)
    with ((bs "Content-Length: " ++ FormatUint n 10 ++ [c_cr]) ++ c_lf :: ([c_cr] ++ c_lf :: rest)) by (by rewrite <- !app_assoc).
  assert (Hl1 : length (bs "Content-Length: " ++ FormatUint n 10 ++ [c_cr]) <= 45) by (rewrite !length_app; change (length (bs "Content-Length: ")) with 16; cbn [length]; lia).
  rewrite readHeaderLine_line by (done || lia). cbn [app].
  assert (trim_right (fun c => c =b c_cr) (bs "Content-Length: " ++ FormatUint n 10 ++ [c_cr]) = bs "Content-Length: " ++ FormatUint n 10) as ->.
  { rewrite Er, !app_assoc. apply trim_cr. done. }
  rewrite bool_decide_false by done. rewrite header_length_digits, Atoi_FormatUint by (done || change maxContentLength with 67108864%N in Hn; lia).
  cbn [or_err]. change (c_cr :: c_lf :: rest) with ([c_cr] ++ c_lf :: rest).
  rewrite readHeaderLine_line; [|by apply (bool_decide_unpack (~ _)); vm_compute|cbn [length]; lia]. cbn [app].
  by change (trim_right (fun c => c =b c_cr) [c_cr]) with (@nil ascii).
Qed.

(** C36: frames are read as they are written.  A message that marshals into at
    most 64 MiB is read back from its frame, whatever follows in the stream,
    as the message its body unmarshals to, and the reader stands right behind
    the frame. *)
Theorem frame_roundtrip msg msg' body frame rest :
  EqualFold (bs "Content-Length") (bs "Content-Length") = true ->
  Marshal (mkMessage (bs "2.0") (ID msg) (Method msg) (Params msg) (Result msg) (ErrorMember msg)) = Some body ->
  Unmarshal body = Ok msg' -> (N.of_nat (length body) <= maxContentLength)%N ->
  write Marshal msg = Some frame -> read (frame ++ rest) = (Ok msg', rest).
Proof.
  intros HE HM HU Hmax. unfold write. rewrite HM. cbn [mbind option_bind]. intros E.
  assert (frame = bs "Content-Length: " ++ FormatUint (N.of_nat (length body)) 10 ++ [c_cr; c_lf; c_cr; c_lf] ++ body) as -> by congruence.
  unfold Jsonrpc.read.
  assert (Hh := read_header (N.of_nat (length body)) (body ++ rest) HE Hmax). rewrite <- !app_assoc, Hh.
  destruct (Z.ltb_spec (Z.of_N (N.of_nat (length body))) 0); [lia|]. destruct (Z.ltb_spec (Z.of_N maxContentLength) (Z.of_N (N.of_nat (length body)))); [lia|].
  unfold ReadFull. rewrite nat_N_Z, Nat2Z.id, length_app. destruct (Nat.leb_spec (length body) (length body + length rest)); [|lia].
  by rewrite take_app_length, drop_app_length, HU.
Qed.
End conn.

(** A codec for the witnesses: a body is the method of a request with the id 1. *)
Definition demo_Marshal (m : Jsonrpc.Message) : option bytes := Some (Method m).
Definition demo_Unmarshal (body : bytes) : result bytes Jsonrpc.Message :=
  if decide (body = bs "?") then Err (bs "syntax") else Ok (mkMessage (bs "2.0") (Some (bs "1")) body [] [] None).
Definition demo_Fold (a b : bytes) : bool := bool_decide (a = b).
Definition demo_frame (m : string) : bytes := default [] (write demo_Marshal (mkMessage [] None (bs m) [] [] None)).

Lemma frame_roundtrip_witness :
  demo_frame "exit" = bs "Content-Length: 4" ++ [c_cr; c_lf; c_cr; c_lf] ++ bs "exit" /\
  read demo_Fold demo_Unmarshal (demo_frame "exit" ++ bs "rest") = (Ok (mkMessage (bs "2.0") (Some (bs "1")) (bs "exit") [] [] None), bs "rest").
Proof.
  split; [by vm_compute|].
  apply (frame_roundtrip demo_Fold demo_Unmarshal demo_Marshal (mkMessage [] None (bs "exit") [] [] None)
    (mkMessage (bs "2.0") (Some (bs "1")) (bs "exit") [] [] None) (bs "exit") (demo_frame "exit") (bs "rest")); by vm_compute.
Defined.

(** ** Handling a message *)

Lemma position_ok src off : exists pos, position src off = Ok pos.
Proof.
  unfold position. destruct (LineCol_spec src (Z.of_nat (clamp (length src) off))) as (s & _ & _ & E & _).
  unfold LineCol in E. rewrite E. cbn. eauto.
Qed.

Lemma spanRange_ok src a b : exists r, spanRange src a b = Ok r.
Proof.
  unfold spanRange. destruct (position_ok src (Z.of_nat (clamp (length src) a))) as [s ->]. cbn [rbind].
  edestruct position_ok as [e ->]. cbn. eauto.
Qed.

Section session.
Context (Sprintf : bytes -> list Arg -> bytes) (pathToURI : bytes -> bytes) (uriToPath : bytes -> option bytes).
Context (decodeOpen : bytes -> option (bytes * bytes)) (decodeChange : bytes -> option (bytes * list bytes))
        (decodeClose : bytes -> option bytes) (decodeDefinition : bytes -> result bytes (bytes * Position)).
Context (maxOpenDocs : nat) (initErr : bytes).

Abbreviation dispatch := (dispatch Sprintf pathToURI uriToPath decodeOpen decodeChange decodeClose decodeDefinition maxOpenDocs initErr).
Abbreviation handle := (handle Sprintf pathToURI uriToPath decodeOpen decodeChange decodeClose decodeDefinition maxOpenDocs initErr).
Abbreviation check := (check Sprintf pathToURI).
Abbreviation then_check := (then_check Sprintf pathToURI).
Abbreviation file_diagnostics := (file_diagnostics Sprintf).
Abbreviation publish := (publish Sprintf pathToURI).
Abbreviation trackOverlay := (trackOverlay maxOpenDocs).

Lemma convert_ok src ds : exists out, convert Sprintf src ds = Ok out /\ length out = length ds.
Proof.
  induction ds as [|d ds (out & E & Hl)]; [by exists []|]. cbn [convert]. unfold toLSPDiagnostic.
  destruct (spanRange_ok src (Z.of_nat (SStart (DSpan d))) (Z.of_nat (SEnd (DSpan d)))) as [r ->]. cbn [rbind]. rewrite E. cbn [rbind].
  eexists. split; [done|]. cbn. by f_equal.
Qed.

Lemma file_diagnostics_ok res p : exists out, file_diagnostics res p = Ok out /\
  (out = [] <-> default [] (WRDiags res !! p) = []) /\ length out <= S maxPublishedDiagnostics.
Proof.
  unfold LspServer.file_diagnostics. set (ds := default [] (WRDiags res !! p)). set (src := default [] (WRSources res !! p)).
  destruct (convert_ok src (take maxPublishedDiagnostics ds)) as (out & -> & Hl). rewrite length_take in Hl. cbn [rbind].
  assert (1 <= maxPublishedDiagnostics) by (by apply Nat.leb_le; vm_compute).
  destruct (Nat.eqb_spec (length ds - maxPublishedDiagnostics) 0) as [E|E].
  - exists out. split; [done|]. split; [|lia]. rewrite <- !length_zero_iff_nil. lia.
  - destruct (spanRange_ok src 0 0) as [r ->]. cbn [rbind]. eexists. split; [done|]. rewrite <- !length_zero_iff_nil, length_app. cbn. lia.
Qed.

(** What a client shows of a file: the report of the last publish. *)
Definition shown (res : WorkspaceResult) (p : bytes) : list LspDiagnostic :=
  match file_diagnostics res p with Ok out => out | Err _ => [] end.

Lemma shown_nil res p : shown res p = [] <-> default [] (WRDiags res !! p) = [].
Proof. unfold shown. destruct (file_diagnostics_ok res p) as (out & -> & H & _). done. Qed.

(** [publish] sends a notification per path and never panics. *)
Lemma publish_spec res paths :
  publish res paths = ((fun p => Notification (bs "textDocument/publishDiagnostics") (VPublishDiagnostics (pathToURI p) (shown res p))) <$> paths,
    list_to_set (base.filter (fun p => shown res p <> []) paths), false).
Proof.
  induction paths as [|p paths IH]; [done|]. destruct (file_diagnostics_ok res p) as (out & E & _).
  assert (Hs : shown res p = out) by (unfold shown; by rewrite E). cbn [LspServer.publish]. rewrite E, IH. cbn [fmap list_fmap].
  rewrite list.filter_cons, Hs. destruct out; [by rewrite decide_False by (intros H; by apply H)|]. by rewrite decide_True.
Qed.

(** ** Answers *)

(** The messages that answer a request. *)
Definition answers_of (evs : list Event) : list bytes :=
  omap (fun e => match e with Response id _ | ErrorResponse id _ _ => Some id | Notification _ _ => None end) evs.

Lemma answers_app e1 e2 : answers_of (e1 ++ e2) = answers_of e1 ++ answers_of e2.
Proof. apply omap_app. Qed.

Lemma check_spec ws s :
  h_panic (check ws s) = match ws with Some ws => match ws (overlay s) with CheckPanicked => true | _ => false end | None => false end /\
  answers_of (h_events (check ws s)) = [] /\
  overlay (h_state (check ws s)) = overlay s /\ overlayCapWarned (h_state (check ws s)) = overlayCapWarned s /\
  shutdown (h_state (check ws s)) = shutdown s.
Proof.
  unfold LspServer.check. destruct ws as [ws|]; [|done]. destruct (ws (overlay s)) as [res| |]; [|done..].
  rewrite publish_spec. cbn [h_panic h_state h_events overlay overlayCapWarned shutdown]. split; [done|]. split; [|done].
  unfold answers_of. induction (publish_targets s res) as [|p l IH]; [done|]. exact IH.
Qed.

(** The methods of notifications, which get no answer. *)
Definition notification_methods : list bytes := words
  [""; "initialized"; "textDocument/didOpen"; "textDocument/didChange"; "textDocument/didSave"; "textDocument/didClose";
   "$/cancelRequest"; "$/setTrace"]%string.

Lemma trackOverlay_answers s path text : answers_of (trackOverlay s path text).1.2 = [].
Proof.
  unfold LspServer.trackOverlay. destruct (overlay s !! path); [done|]. destruct (Nat.leb _ _); [|done]. cbn. by destruct (overlayCapWarned s).
Qed.
(** What the answers of a message are, when nothing panics. *)
Definition expected (msg : Jsonrpc.Message) : list bytes :=
  match ID msg with
  | Some id => if one_of notification_methods (Method msg) then [] else [id]
  | None => []
  end.

(** A panic comes from the workspace only, and at a notification only. *)
Definition panics (ws : option (gmap bytes bytes -> Outcome)) (msg : Jsonrpc.Message) (h : Handled) : Prop :=
  h_panic h = true -> one_of notification_methods (Method msg) = true /\ exists f m, ws = Some f /\ f m = CheckPanicked.

Lemma then_check_answers ws s evs msg : one_of notification_methods (Method msg) = true -> answers_of evs = [] ->
  answers_of (h_events (then_check ws s evs)) = expected msg /\ panics ws msg (then_check ws s evs).
Proof.
  intros Hm He. destruct (check_spec ws s) as (Hp & Ha & _). unfold LspServer.then_check, expected, panics. cbn [h_events h_panic].
  rewrite answers_app, He, Ha, Hm. split; [by destruct (ID msg)|]. rewrite Hp. intros H. split; [done|].
  destruct ws as [f|]; [|done]. exists f, (overlay s). split; [done|]. by destruct (f (overlay s)).
Qed.

Lemma quiet_answers ws s evs msg : one_of notification_methods (Method msg) = true -> answers_of evs = [] ->
  answers_of (h_events (done_ s evs)) = expected msg /\ panics ws msg (done_ s evs).
Proof. intros Hm He. unfold expected, panics, done_. cbn [h_events h_panic]. rewrite He, Hm. split; [by destruct (ID msg)|done]. Qed.

Lemma reply_answers ws s evs msg : one_of notification_methods (Method msg) = false ->
  answers_of evs = match ID msg with Some id => [id] | None => [] end ->
  answers_of (h_events (done_ s evs)) = expected msg /\ panics ws msg (done_ s evs).
Proof. intros Hm He. unfold expected, panics, done_. cbn [h_events h_panic]. by rewrite He, Hm. Qed.

Lemma definition_answers s msg : one_of notification_methods (Method msg) = false ->
  exists evs, LspServer.definition pathToURI uriToPath decodeDefinition s msg = done_ s evs /\
    answers_of evs = match ID msg with Some id => [id] | None => [] end.
Proof.
  intros _. unfold LspServer.definition. destruct (ID msg) as [id|]; [|by exists []]. destruct (decodeDefinition _) as [[uri pos]|why]; [|by eexists].
  destruct (uriToPath uri) as [path|]; [|by eexists]. destruct (WRFiles _ !! path) as [file|]; [|by eexists].
  destruct (WRSources _ !! path) as [src|]; [|by eexists]. destruct (definitionAt _ _) as [span|]; [|by eexists].
  destruct (spanRange_ok src (Z.of_nat (SStart span)) (Z.of_nat (SEnd span))) as [r ->]. by eexists.
Qed.

Lemma handle_answers ws s msg :
  answers_of (h_events (handle ws s msg)) = expected msg /\ panics ws msg (handle ws s msg).
Proof.
  unfold LspServer.handle, method.
  case_bool_decide as E; [apply quiet_answers; [by rewrite E|done]|].
  case_bool_decide as E1; [apply reply_answers; [by rewrite E1|by destruct (ID msg)]|].
  case_bool_decide as E2; [apply quiet_answers; [by rewrite E2|by destruct initErr]|].
  case_bool_decide as E3; [apply reply_answers; [by rewrite E3|by destruct (ID msg)]|].
  case_bool_decide as E4.
  { assert (one_of notification_methods (Method msg) = true) as Hm by (by rewrite E4).
    destruct (decodeOpen _ ≫= _) as [[path text]|]; [|by apply quiet_answers].
    pose proof (trackOverlay_answers s path text) as Ht. destruct (LspServer.trackOverlay _ s path text) as [[s' evs] []];
      [by apply then_check_answers|by apply quiet_answers]. }
  case_bool_decide as E5.
  { assert (one_of notification_methods (Method msg) = true) as Hm by (by rewrite E5).
    destruct (decodeChange _ ≫= _) as [[path texts]|]; [|by apply quiet_answers].
    destruct (list.last texts) as [text|]; [|by apply then_check_answers].
    pose proof (trackOverlay_answers s path text) as Ht. destruct (LspServer.trackOverlay _ s path text) as [[s' evs] []];
      [by apply then_check_answers|by apply quiet_answers]. }
  case_bool_decide as E6; [apply then_check_answers; [by rewrite E6|done]|].
  case_bool_decide as E7.
  { assert (one_of notification_methods (Method msg) = true) as Hm by (by rewrite E7).
    destruct (decodeClose _ ≫= _) as [path|]; [|by apply quiet_answers]. by apply then_check_answers. }
  case_bool_decide as E8.
  { assert (one_of notification_methods (Method msg) = false) as Hm by (by rewrite E8).
    destruct (definition_answers s msg Hm) as (evs & -> & Ha). by apply reply_answers. }
  case_bool_decide as E9; [apply quiet_answers; [by rewrite E9|done]|].
  case_bool_decide as E10; [apply quiet_answers; [by rewrite E10|done]|].
  cbn [orb]. apply reply_answers; [|by destruct (ID msg)]. apply bool_decide_eq_false.
  unfold notification_methods, words. cbn [fmap list_fmap]. rewrite !list.elem_of_cons. 
  intros H. do 8 (destruct H as [H|H]; [by first [apply E|apply E2|apply E4|apply E5|apply E6|apply E7|apply E9|apply E10]|]). by apply not_elem_of_nil in H.
Qed.

(** C34: every request is answered exactly once and nothing else is.  The
    answers to a message carry its id: one answer if it has an id and its method
    is none of the notifications' (unknown methods included), none if it has no
    id or is a notification, except that a check that panics under a
    notification with an id is answered by an internal error. *)
Theorem answers_exact ws s msg : let '(_, evs) := dispatch ws s msg in
  answers_of evs = match ID msg with
                   | None => []
                   | Some id => if one_of notification_methods (Method msg) then if h_panic (handle ws s msg) then [id] else [] else [id]
                   end /\
  (h_panic (handle ws s msg) = true -> exists f m, ws = Some f /\ f m = CheckPanicked).
Proof.
  unfold LspServer.dispatch. destruct (handle_answers ws s msg) as [Ha Hp]. unfold expected in Ha. rewrite answers_app, Ha.
  split; [|by intros [_ H]%Hp]. destruct (h_panic (handle ws s msg)) eqn:E; destruct (ID msg) as [id|]; try done.
  - destruct (Hp E) as [-> _]. done.
  - rewrite app_nil_r. done.
Qed.
(** ** What the client sees

    The report each URI shows, that of the last publish, and the number of
    warnings about the limit on open documents. *)
Definition client : Type := gmap bytes (list LspDiagnostic) * nat.
Definition client0 : client := (∅, 0).
Definition receive (c : client) (e : Event) : client :=
  match e with
  | Notification _ (VPublishDiagnostics uri ds) => (<[uri := ds]> c.1, c.2)
  | Notification _ (VShowMessage type _) => (c.1, if Z.eqb type messageWarning then S c.2 else c.2)
  | _ => c
  end.
Definition receives (c : client) (evs : list Event) : client := foldl receive c evs.

Lemma receives_app c e1 e2 : receives c (e1 ++ e2) = receives (receives c e1) e2.
Proof. apply foldl_app. Qed.

(** The client shows the last result of the workspace, the server knows for which
    paths it shows something, the documents are within the limit and it
    was told once if the limit was met. *)
Record session_inv (s : server) (c : client) : Prop := {
  inv_view : forall p, default [] (c.1 !! pathToURI p) = shown (last s) p;
  inv_published : forall p, p ∈ published s <-> shown (last s) p <> [];
  inv_size : size (overlay s) <= maxOpenDocs;
  inv_warned : c.2 = if overlayCapWarned s then 1 else 0;
}.

Lemma session_inv0 : session_inv server0 client0.
Proof.
  assert (Hn : forall p, shown no_result p = []) by (intros p; by apply shown_nil).
  split; cbn.
  - intros p. by rewrite lookup_empty, Hn.
  - intros p. rewrite Hn. set_solver.
  - rewrite map_size_empty. lia.
  - done.
Qed.

Lemma inv_same s s' c : session_inv s c -> last s' = last s -> published s' = published s -> overlayCapWarned s' = overlayCapWarned s ->
  size (overlay s') <= maxOpenDocs -> session_inv s' c.
Proof. intros [H1 H2 H3 H4] E1 E2 E3 Hs. split; [by rewrite E1|by rewrite E1, E2|done|by rewrite E3]. Qed.

Context {Hinj : Inj (=) (=) pathToURI}.

Lemma receives_publish res paths c p :
  let c' := receives c ((fun p => Notification (bs "textDocument/publishDiagnostics") (VPublishDiagnostics (pathToURI p) (shown res p))) <$> paths) in
  default [] (c'.1 !! pathToURI p) = (if decide (p ∈ paths) then shown res p else default [] (c.1 !! pathToURI p)) /\ c'.2 = c.2.
Proof.
  revert c. induction paths as [|x paths IH]; intros c; cbn; [done|]. fold (receives (receive c (Notification (bs "textDocument/publishDiagnostics")
    (VPublishDiagnostics (pathToURI x) (shown res x))))). destruct (IH (<[pathToURI x := shown res x]> c.1, c.2)) as [H1 H2]. cbn in H1, H2.
  unfold receives in *. cbn. split; [|exact H2]. etransitivity; [exact H1|].
  destruct (decide (p ∈ paths)) as [Hp|Hp], (decide (p ∈ x :: paths)) as [Hq|Hq]; [done|set_solver| |].
  - apply elem_of_cons in Hq as [->|]; [|done]. by rewrite lookup_insert_eq.
  - rewrite lookup_insert_ne; [done|]. intros E%Hinj. set_solver.
Qed.

Lemma publish_targets_elem s res p : p ∈ publish_targets s res <->
  p ∈ dom (overlay s) \/ default [] (WRDiags res !! p) <> [] \/ p ∈ published s.
Proof.
  unfold publish_targets. rewrite SliceStable_perm, elem_of_elements, !elem_of_union.
  enough (p ∈ with_diags res <-> default [] (WRDiags res !! p) <> []) by tauto.
  unfold with_diags. rewrite elem_of_dom. split.
  - intros [ds Hds]. apply map_lookup_filter_Some in Hds as [-> H]. done.
  - destruct (WRDiags res !! p) as [ds|] eqn:E; [|done]. intros H. exists ds. by apply map_lookup_filter_Some.
Qed.

Lemma check_inv ws s c : session_inv s c -> session_inv (h_state (check ws s)) (receives c (h_events (check ws s))).
Proof.
  intros Hs. unfold LspServer.check. destruct ws as [ws|]; [|done]. destruct (ws (overlay s)) as [res| |]; [|done..].
  rewrite publish_spec. cbn [h_state h_events]. destruct Hs as [H1 H2 H3 H4].
  assert (Hv : forall p, p ∉ publish_targets s res -> shown res p = [] /\ shown (last s) p = []).
  { intros p Hp. rewrite publish_targets_elem in Hp. split.
    - apply shown_nil. destruct (default [] (WRDiags res !! p)) eqn:E; [done|]. destruct Hp. right; left. done.
    - destruct (shown (last s) p) eqn:E; [done|]. destruct Hp. right; right. apply H2. by rewrite E. }
  split; cbn [last published overlay overlayCapWarned].
  - intros p. destruct (receives_publish res (publish_targets s res) c p) as [-> _]. destruct (decide _) as [|Hp]; [done|].
    destruct (Hv p Hp) as [-> E]. by rewrite H1.
  - intros p. rewrite elem_of_list_to_set, list.list_elem_of_filter. split; [tauto|]. intros H. split; [done|].
    destruct (decide (p ∈ publish_targets s res)) as [|Hp]; [done|]. by destruct (Hv p Hp).
  - done.
  - destruct (receives_publish res (publish_targets s res) c []) as [_ ->]. done.
Qed.

Lemma then_check_inv ws s evs c : session_inv s (receives c evs) ->
  session_inv (h_state (then_check ws s evs)) (receives c (h_events (then_check ws s evs))).
Proof. intros H. unfold LspServer.then_check. cbn [h_state h_events]. rewrite receives_app. by apply check_inv. Qed.

Lemma trackOverlay_inv s path text c : session_inv s c ->
  session_inv (trackOverlay s path text).1.1 (receives c (trackOverlay s path text).1.2).
Proof.
  intros Hs. unfold LspServer.trackOverlay. destruct (overlay s !! path) as [old|] eqn:E.
  - cbn. apply (inv_same s); [done..|]. cbn. rewrite map_size_insert_Some by done. apply (inv_size _ _ Hs).
  - destruct (Nat.leb_spec maxOpenDocs (size (overlay s))) as [Hle|Hlt]; cbn.
    + destruct Hs as [H1 H2 H3 H4]. destruct (overlayCapWarned s); split; cbn; auto; by rewrite H4.
    + apply (inv_same s); [done..|]. cbn. rewrite map_size_insert_None by done. lia.
Qed.

Lemma handle_inv ws s msg c : session_inv s c -> session_inv (h_state (handle ws s msg)) (receives c (h_events (handle ws s msg))).
Proof.
  intros Hs. assert (Hq : forall evs, (forall c, receives c evs = c) -> session_inv (h_state (done_ s evs)) (receives c (h_events (done_ s evs))))
    by (intros evs Hevs; cbn; by rewrite Hevs).
  assert (Hr : forall v c, receives c (respond (ID msg) v) = c) by (intros v c'; by destruct (ID msg)).
  assert (Ht : forall path text, session_inv (h_state (let '(s, evs, tracked) := trackOverlay s path text in
    if tracked : bool then then_check ws s evs else done_ s evs)) (receives c (h_events (let '(s, evs, tracked) := trackOverlay s path text in
    if tracked : bool then then_check ws s evs else done_ s evs)))).
  { intros path text. pose proof (trackOverlay_inv s path text c Hs) as Ho. destruct (LspServer.trackOverlay _ s path text) as [[s' evs] []]; [|done].
    by apply then_check_inv. }
  unfold LspServer.handle, method.
  case_bool_decide; [by apply Hq|]. case_bool_decide; [apply Hq, Hr|].
  case_bool_decide; [apply Hq; intros []; by destruct initErr|].
  case_bool_decide; [cbn [h_state h_events done_]; rewrite Hr; apply (inv_same s); [done..|apply (inv_size _ _ Hs)]|].
  case_bool_decide; [destruct (decodeOpen _ ≫= _) as [[path text]|]; [apply Ht|by apply Hq]|].
  case_bool_decide.
  { destruct (decodeChange _ ≫= _) as [[path texts]|]; [|by apply Hq]. destruct (list.last texts); [apply Ht|by apply then_check_inv]. }
  case_bool_decide; [by apply then_check_inv|].
  case_bool_decide.
  { destruct (decodeClose _ ≫= _) as [path|]; [|by apply Hq]. apply then_check_inv. apply (inv_same s); [done..|].
    pose proof (inv_size _ _ Hs) as Hm. unfold set_overlay. cbn [overlay]. rewrite map_size_delete.
    destruct (overlay s !! path); cbn; lia. }
  case_bool_decide.
  { unfold LspServer.definition. destruct (ID msg); [|by apply Hq]. destruct (decodeDefinition _) as [[uri pos]|]; [|by apply Hq].
    repeat (case_match; try by apply Hq). }
  destruct (_ || _); [by apply Hq|]. apply Hq. by destruct (ID msg).
Qed.

Lemma dispatch_inv ws s msg c : session_inv s c -> session_inv (dispatch ws s msg).1 (receives c (dispatch ws s msg).2).
Proof.
  intros Hs. unfold LspServer.dispatch. cbn [fst snd]. rewrite receives_app. pose proof (handle_inv ws s msg c Hs) as H.
  destruct (h_panic _); [|done]. by destruct (ID msg).
Qed.
Context (EqualFold : bytes -> bytes -> bool) (Unmarshal : bytes -> result bytes Jsonrpc.Message).
Abbreviation read := (read EqualFold Unmarshal).
Abbreviation run_loop := (run_loop Sprintf pathToURI uriToPath decodeOpen decodeChange decodeClose decodeDefinition maxOpenDocs initErr EqualFold Unmarshal).
Abbreviation run := (run Sprintf pathToURI uriToPath decodeOpen decodeChange decodeClose decodeDefinition maxOpenDocs initErr EqualFold Unmarshal).

Lemma run_loop_inv fuel ws now s r c : session_inv s c ->
  let '(_, s', evs) := run_loop fuel ws now s r in session_inv s' (receives c evs).
Proof.
  revert now s r c. induction fuel as [|fuel IH]; intros now s r c Hs; cbn [LspServer.run_loop]; [done|].
  destruct (read r) as [[msg|[]] r']; try done.
  - destruct (method "exit" msg); [done|]. pose proof (dispatch_inv ((fun f => f now) <$> ws) s msg c Hs) as Hd.
    destruct (LspServer.dispatch _ _ _ _ _ _ _ _ _ _ s msg) as [s1 evs1]. specialize (IH (S now) s1 r' _ Hd).
    destruct (LspServer.run_loop _ _ _ _ _ _ _ _ _ _ _ fuel ws (S now) s1 r') as [[code s2] evs2]. by rewrite receives_app.
  - specialize (IH (S now) s r' c Hs). destruct (LspServer.run_loop _ _ _ _ _ _ _ _ _ _ _ fuel ws (S now) s r') as [[code s2] evs2]. exact IH.
Qed.

(** C33: the client's picture is never stale.  Whatever the stream holds and
    however the workspace behaves, at every moment (every prefix of a stream is a
    stream) each file shows exactly the reports of the last check that
    succeeded, empty ones included; the server knows for which files it has
    published some; the open documents are within their limit; and the client has been
    warned of the limit once if it was met, and never otherwise. *)
Theorem client_view_exact ws r : let '(_, s, evs) := run ws r in
  (forall p, default [] ((receives client0 evs).1 !! pathToURI p) = shown (last s) p) /\
  (forall p, p ∈ published s <-> shown (last s) p <> []) /\
  size (overlay s) <= maxOpenDocs /\ (receives client0 evs).2 = if overlayCapWarned s then 1 else 0.
Proof.
  unfold LspServer.run. pose proof (run_loop_inv (S (length r)) ws 0 server0 r client0 session_inv0) as H.
  destruct (LspServer.run_loop _ _ _ _ _ _ _ _ _ _ _ _ ws 0 server0 r) as [[code s] evs]. by destruct H.
Qed.
End session.

(** ** The end of a session *)

(** What a stream holds: the messages up to the end of the session, a body that does not
    parse being [None], and whether an [exit] ends it. *)
Inductive session (EqualFold : bytes -> bytes -> bool) (Unmarshal : bytes -> result bytes Jsonrpc.Message) : bytes -> list (option Jsonrpc.Message) -> bool -> Prop :=
  | session_exit r msg r' : read EqualFold Unmarshal r = (Ok msg, r') -> method "exit" msg = true -> session EqualFold Unmarshal r [] true
  | session_end r e r' : read EqualFold Unmarshal r = (Err e, r') -> (forall why, e <> ErrMalformedBody why) -> session EqualFold Unmarshal r [] false
  | session_message r msg r' l exit : read EqualFold Unmarshal r = (Ok msg, r') -> method "exit" msg = false ->
      session EqualFold Unmarshal r' l exit -> session EqualFold Unmarshal r (Some msg :: l) exit
  | session_malformed r why r' l exit : read EqualFold Unmarshal r = (Err (ErrMalformedBody why), r') ->
      session EqualFold Unmarshal r' l exit -> session EqualFold Unmarshal r (None :: l) exit.

Definition asks_shutdown (m : option Jsonrpc.Message) : bool := match m with Some msg => method "shutdown" msg | None => false end.

Section ending.
Context (Sprintf : bytes -> list Arg -> bytes) (pathToURI : bytes -> bytes) (uriToPath : bytes -> option bytes).
Context (decodeOpen : bytes -> option (bytes * bytes)) (decodeChange : bytes -> option (bytes * list bytes))
        (decodeClose : bytes -> option bytes) (decodeDefinition : bytes -> result bytes (bytes * Position)).
Context (maxOpenDocs : nat) (initErr : bytes).
Context (EqualFold : bytes -> bytes -> bool) (Unmarshal : bytes -> result bytes Jsonrpc.Message).
Abbreviation dispatch := (dispatch Sprintf pathToURI uriToPath decodeOpen decodeChange decodeClose decodeDefinition maxOpenDocs initErr).
Abbreviation run_loop := (run_loop Sprintf pathToURI uriToPath decodeOpen decodeChange decodeClose decodeDefinition maxOpenDocs initErr EqualFold Unmarshal).
Abbreviation run := (run Sprintf pathToURI uriToPath decodeOpen decodeChange decodeClose decodeDefinition maxOpenDocs initErr EqualFold Unmarshal).

Lemma trackOverlay_shutdown s path text : shutdown (trackOverlay maxOpenDocs s path text).1.1 = shutdown s.
Proof. unfold trackOverlay. destruct (overlay s !! path); [done|]. by destruct (Nat.leb _ _). Qed.

Lemma dispatch_shutdown ws s msg : shutdown (dispatch ws s msg).1 = shutdown s || method "shutdown" msg.
Proof.
  unfold LspServer.dispatch. cbn [fst]. unfold LspServer.handle, method.
  assert (Hc : forall s evs, shutdown (h_state (then_check Sprintf pathToURI ws s evs)) = shutdown s).
  { intros s' evs. unfold then_check. cbn [h_state]. by destruct (check_spec Sprintf pathToURI ws s') as (_ & _ & _ & _ & ->). }
  assert (Ht : forall path text, shutdown (h_state (let '(s, evs, tracked) := trackOverlay maxOpenDocs s path text in
    if tracked : bool then then_check Sprintf pathToURI ws s evs else done_ s evs)) = shutdown s).
  { intros path text. pose proof (trackOverlay_shutdown s path text) as Ho. destruct (trackOverlay _ s path text) as [[s' evs] tracked]. cbn [fst] in Ho.
    rewrite <- Ho. destruct tracked; [apply Hc|done]. }
  destruct (decide (Method msg = bs "shutdown")) as [E|E].
  { rewrite E, (bool_decide_false (bs "shutdown" = [])), (bool_decide_false (bs "shutdown" = bs "initialize")),
      (bool_decide_false (bs "shutdown" = bs "initialized")), !(bool_decide_true (bs "shutdown" = bs "shutdown")) by done. cbn. by rewrite orb_true_r. }
  rewrite !(bool_decide_false (Method msg = bs "shutdown") E), orb_false_r. do 3 (case_bool_decide; [done|]).
  case_bool_decide; [destruct (decodeOpen _ ≫= _) as [[path text]|]; [apply Ht|done]|].
  case_bool_decide.
  { destruct (decodeChange _ ≫= _) as [[path texts]|]; [|done]. destruct (list.last texts); [apply Ht|apply Hc]. }
  case_bool_decide; [apply Hc|]. case_bool_decide; [destruct (decodeClose _ ≫= _); [by rewrite Hc|done]|].
  case_bool_decide; [unfold LspServer.definition; repeat case_match; done|]. by destruct (_ || _).
Qed.

Lemma run_loop_end fuel ws : forall now s r, length r < fuel -> exists l exit,
  session EqualFold Unmarshal r l exit /\
  (run_loop fuel ws now s r).1.1 = Some (if exit && (shutdown s || existsb asks_shutdown l) then 0 else 1)%Z.
Proof.
  induction fuel as [|fuel IH]; intros now s r Hl; [lia|]. cbn [LspServer.run_loop].
  destruct (read EqualFold Unmarshal r) as [res r'] eqn:E. destruct (read_bounded _ _ _ _ _ E) as (k & -> & Hk & _ & Hpos).
  assert (Hend : forall e, res = Err e -> (forall why, e <> ErrMalformedBody why) -> exists l exit, session EqualFold Unmarshal r l exit /\
    Some 1%Z = Some (if exit && (shutdown s || existsb asks_shutdown l) then 0 else 1)%Z).
  { intros e -> He. exists [], false. split; [by eapply session_end|done]. }
  destruct res as [msg|[]]; try (by apply (Hend _ eq_refl)).
  - destruct (method "exit" msg) eqn:Ex.
    + exists [], true. split; [by eapply session_exit|]. cbn. by rewrite orb_false_r.
    + pose proof (dispatch_shutdown ((fun f => f now) <$> ws) s msg) as Hd.
      destruct (LspServer.dispatch _ _ _ _ _ _ _ _ _ _ s msg) as [s1 evs1]. cbn [fst] in Hd.
      destruct (IH (S now) s1 (drop k r)) as (l & exit & Hs & Hc); [rewrite length_drop; lia|].
      exists (Some msg :: l), exit. split; [by eapply session_message|]. destruct (LspServer.run_loop _ _ _ _ _ _ _ _ _ _ _ fuel _ _ _ _) as [[code s2] evs2].
      cbn in Hc |- *. by rewrite Hc, Hd, orb_assoc.
  - destruct (IH (S now) s (drop k r)) as (l & exit & Hs & Hc); [rewrite length_drop; lia|].
    exists (None :: l), exit. split; [by eapply session_malformed|]. destruct (LspServer.run_loop _ _ _ _ _ _ _ _ _ _ _ fuel _ _ _ _) as [[code s2] evs2].
    exact Hc.
Qed.

(** C35: every session ends.  On any stream the server handles the messages up
    to an [exit], the end of the stream or a broken frame, bodies that do not parse
    in between included, and its exit code is 0 exactly when an [exit] came and a
    [shutdown] before it. *)
Theorem serve_ends ws r : exists l exit, session EqualFold Unmarshal r l exit /\
  (run ws r).1.1 = Some (if exit && existsb asks_shutdown l then 0 else 1)%Z.
Proof. unfold LspServer.run. apply (run_loop_end (S (length r)) ws 0 server0 r). lia. Qed.
End ending.

(** A session: a document is opened, which the workspace has a report on. *)
Definition demo_uri (p : bytes) : bytes := bs "file://" ++ p.
Definition demo_path (u : bytes) : option bytes := Some (drop 7 u).
Definition demo_check (now : nat) (ov : gmap bytes bytes) : Outcome :=
  Checked (mkWorkspaceResult {[ bs "/a.sql" := [Errorf CodeBadIdentifier (mkSpan (bs "/a.sql") 0 1) "bad" []] ]} ∅ ov).
Definition demo_stream : bytes :=
  demo_frame "initialize" ++ demo_frame "textDocument/didOpen" ++ demo_frame "?" ++ demo_frame "shutdown" ++ demo_frame "exit".
Definition demo_session : option Z * server * list Event :=
  run (fun f _ => f) demo_uri demo_path (fun _ => Some (bs "file:///a.sql", bs "x")) (fun _ => None) (fun _ => None) (fun _ => Err [])
    10 [] demo_Fold demo_Unmarshal (Some demo_check) demo_stream.

#[local] Instance demo_uri_inj : Inj (=) (=) demo_uri.
Proof. intros p p' E. by apply app_inv_head in E. Qed.

Lemma client_view_exact_witness :
  (demo_session.1.1, length demo_session.2) = (Some 0%Z, 4) /\
  let '(_, s, evs) := demo_session in
  (forall p, default [] ((receives client0 evs).1 !! demo_uri p) = shown (fun f _ => f) (last s) p) /\
  (forall p, p ∈ published s <-> shown (fun f _ => f) (last s) p <> []) /\
  size (overlay s) <= 10 /\ (receives client0 evs).2 = if overlayCapWarned s then 1 else 0.
Proof.
  split; [by vm_compute|].
  exact (client_view_exact (fun f _ => f) demo_uri demo_path (fun _ => Some (bs "file:///a.sql", bs "x")) (fun _ => None) (fun _ => None) (fun _ => Err [])
    10 [] demo_Fold demo_Unmarshal (Some demo_check) demo_stream).
Defined.
