(* ===== verification/Format.v ===== *)
(** * Format

    [internal/template/format.go]: the formatter.  Slicing out of range panics.
    [strings.ToUpper] and [time.ParseDuration] are arguments. *)

From S2P Require Import Prelude Dialect Postgres Template Diagnostics ScanState Scanner ScanInv ScanFinal Lexers ScanTheorems.

(** [s[lo:hi]] *)
Definition slice_ok (s : bytes) (lo hi : nat) : result IndexPanic bytes :=
  if Nat.leb lo hi && Nat.leb hi (length s) then Ok (slice s lo hi) else Err IndexOutOfRange.

(** ** Canonical constructs *)

Definition nl : bytes := [c_lf].
Definition join_params (guards : list GuardAtom) : bytes :=
  match guards with
  | [] => []
  | g :: gs => GParam g ++ concat ((fun g => bs ", " ++ GParam g) <$> gs)
  end.

Definition writeIfPresent (v : IfPresent) : bytes :=
  let isWhen := match IPGuards v with [g] => IsValue g | _ => false end in
  match IPGuards v with
  | [g] => if IsValue g then bs "@when(" ++ GParam g ++ bs " " ++ GOp g ++ bs " " ++ GRawValue g ++ bs ")" ++ nl
           else bs "@if-present(" ++ join_params (IPGuards v) ++ bs ")" ++ nl
  | _ => bs "@if-present(" ++ join_params (IPGuards v) ++ bs ")" ++ nl
  end
  ++ match IPSep v with SepAnd => bs "  AND " | SepComma => bs "  , " | SepNone => [] end
  ++ IPBody v ++ (if isWhen then nl ++ bs "@end" else nl ++ bs "@endif").

Definition write_default (d : option ChooseCase) : bytes :=
  match d with
  | Some d => bs "@default" ++ nl ++ match CCBody d with [] => [] | body => body ++ nl end
  | None => []
  end.

Definition writeChoose (v : Choose) : bytes :=
  bs "@choose(" ++ ChParam v ++ bs ")" ++ nl
  ++ concat ((fun cs => bs "@case(" ++ CCName cs ++ bs ")" ++ nl ++ CCBody cs ++ nl) <$> ChCases v)
  ++ write_default (ChDefault v) ++ bs "@end".

Definition writeOrderBy (v : OrderBy) : bytes :=
  bs "@order-by(" ++ ObParam v ++ bs ")" ++ nl
  ++ concat ((fun k => bs "@key(" ++ OKName k ++ bs ")" ++ nl ++ OKBody k ++ nl) <$> ObKeys v)
  ++ write_default (ObDefault v) ++ bs "@end".

Definition writeFilterTree (v : FilterTree) : bytes :=
  bs "@filter-tree" ++ (if FtRequired v then bs "!" else []) ++ bs "(" ++ FtParam v ++ bs ")" ++ nl
  ++ concat ((fun pr => bs "@predicate(" ++ PrName pr ++ bs ")" ++ nl ++ PrBody pr ++ nl) <$> FtPredicates v)
  ++ bs "@end".

(** What is written for a construct. *)
Definition write_construct (it : Item) : bytes :=
  match it with
  | ISkeleton v => SkText v
  | IIfPresent v => writeIfPresent v
  | IChoose v => writeChoose v
  | IOrderBy v => writeOrderBy v
  | IFilterTree v => writeFilterTree v
  | IInExpr v => bs "@in(:" ++ InParam v ++ bs ")"
  end.

Section format.
Context (ToUpper : bytes -> bytes) (ParseDuration : bytes -> option Z) (profile : LexerProfile).

Definition token_text (t : Token) : bytes := match Kind t with KindIdent => ToUpper (Text t) | _ => Text t end.

(** The last token that is no trivia, and its end; [None] for Go's [("", -1)]. *)
Definition lastSignificantToken (text : bytes) : option (bytes * nat) :=
  foldl (fun last t => if is_trivia (Kind t) then last else Some (token_text t, End t)) None (tokens text).1.

(** ** The builder

    [fm_lastEnd] is [None] for -1. *)
Record builder := mkBuilder { fm_out : bytes; fm_lastTok : bytes; fm_lastEnd : option nat }.

Definition construct_tok : bytes := bs "@construct".

Definition needs_anchor (v : IfPresent) (lastTok : bytes) : bool :=
  (bool_decide (IPSlot v = SlotWhereConjunct) && bool_decide (lastTok = bs "WHERE"))
  || (bool_decide (IPSlot v = SlotHavingConjunct) && bool_decide (lastTok = bs "HAVING")).

(** R6's anchor, put behind the last significant token. *)
Definition put_anchor (v : IfPresent) (b : builder) : result IndexPanic bytes :=
  match fm_lastEnd b with
  | Some e =>
      if needs_anchor v (fm_lastTok b) then
        let! before := slice_ok (fm_out b) 0 e in
        let! after := slice_ok (fm_out b) e (length (fm_out b)) in
        Ok (before ++ bs " TRUE" ++ after)
      else Ok (fm_out b)
  | None => Ok (fm_out b)
  end.

Definition format_item (b : builder) (it : Item) : result IndexPanic builder :=
  match it with
  | ISkeleton v =>
      let start := length (fm_out b) in
      Ok (match lastSignificantToken (SkText v) with
          | Some (tok, end_) =>
              if bool_decide (tok = []) then mkBuilder (fm_out b ++ SkText v) (fm_lastTok b) (fm_lastEnd b)
              else mkBuilder (fm_out b ++ SkText v) tok (Some (start + end_))
          | None => mkBuilder (fm_out b ++ SkText v) (fm_lastTok b) (fm_lastEnd b)
          end)
  | IIfPresent v =>
      let! out := put_anchor v b in
      Ok (mkBuilder (out ++ writeIfPresent v) construct_tok (fm_lastEnd b))
  | _ => Ok (mkBuilder (fm_out b ++ write_construct it) construct_tok (fm_lastEnd b))
  end.

Fixpoint format_items (b : builder) (pos : nat) (items : list Item) : result IndexPanic (builder * nat) :=
  match items with
  | [] => Ok (b, pos)
  | it :: items => let! b := format_item b it in format_items b (SEnd (Raw it)) items
  end.

Fixpoint format_queries (src out : bytes) (pos : nat) (qs : list QueryTemplate) : result IndexPanic (bytes * nat) :=
  match qs with
  | [] => Ok (out, pos)
  | q :: qs =>
      let! header := slice_ok src pos (SEnd (QHeaderSpan q)) in
      let! '(b, pos) := format_items (mkBuilder (out ++ header) [] None) (SEnd (QHeaderSpan q)) (QItems q) in
      format_queries src (fm_out b) pos qs
  end.

(** The formatted source of a scanned file. *)
Definition format_file (src : bytes) (qs : list QueryTemplate) : result IndexPanic bytes :=
  let! '(out, pos) := format_queries src [] 0 qs in
  let! rest := slice_ok src pos (length src) in
  Ok (out ++ rest).

(** [Format], given what [ScanFile] returns. *)
Definition Format (path src : bytes) : option (result IndexPanic (bytes * list Diagnostic)) :=
  match ScanFileFrom ToUpper ParseDuration profile path src 0 with
  | Ok (f, diags) =>
      Some (if HasErrors diags then Ok (src, diags) else let! out := format_file src (QFQueries f) in Ok (out, diags))
  | Err _ => None
  end.
End format.

(** ** The layout

    What a formatted query is, without the builder: [pend] is the SQL since the
    last construct and [last] its last significant token with its end. *)
Section layout.
Context (ToUpper : bytes -> bytes) (profile : LexerProfile).

Definition anchored_run (it : Item) (pend : bytes) (last : option (bytes * nat)) : bytes :=
  match it, last with
  | IIfPresent v, Some (tok, e) => if needs_anchor v tok then take e pend ++ bs " TRUE" ++ drop e pend else pend
  | _, _ => pend
  end.

(** The last token of the run [pend] followed by [text]. *)
Definition run_last (pend text : bytes) (last : option (bytes * nat)) : option (bytes * nat) :=
  match lastSignificantToken ToUpper profile text with
  | Some (tok, e) => if bool_decide (tok = []) then last else Some (tok, length pend + e)
  | None => last
  end.

Fixpoint layout (pend : bytes) (last : option (bytes * nat)) (items : list Item) : bytes :=
  match items with
  | [] => pend
  | ISkeleton v :: items => layout (pend ++ SkText v) (run_last pend (SkText v) last) items
  | it :: items => anchored_run it pend last ++ write_construct it ++ layout [] None items
  end.

Definition query_layout (src : bytes) (q : QueryTemplate) : bytes :=
  span_text src (QHeaderSpan q) ++ layout [] None (QItems q).

(** What precedes the first query: the whole file when there is none. *)
Definition preamble (src : bytes) (qs : list QueryTemplate) : bytes :=
  match qs with [] => src | q :: _ => take (SStart (QHeaderSpan q)) src end.

Definition plain (q : QueryTemplate) : Prop := forall it, it ∈ QItems q -> exists v, it = ISkeleton v.

Context {Laws : LexerLaws profile}.

Lemma lastSignificantToken_bound text tok e :
  lastSignificantToken ToUpper profile text = Some (tok, e) -> e <= length text.
Proof.
  unfold lastSignificantToken. pose proof (tokens_Lexes text) as HL. intros H.
  enough (exists t, t ∈ (tokens text).1 /\ e = End t) as (t & Ht & ->).
  { destruct (Lexes_wf _ _ _ _ _ HL Ht) as (p & _ & _ & Hwf). apply (tok_bound _ _ _ Hwf). }
  clear HL. revert H. generalize ((tokens text).1). intros toks. induction toks as [|t toks IH] using rev_ind; [done|].
  rewrite foldl_app. cbn. destruct (is_trivia (Kind t)).
  - intros (t' & H1 & H2)%IH. exists t'. split; [set_solver|done].
  - intros [= <- <-]. exists t. split; [set_solver|done].
Qed.

(** What the builder holds: what is laid out, the run since and its last token. *)
Record builds (pre pend : bytes) (last : option (bytes * nat)) (b : builder) : Prop := {
  bd_out : fm_out b = pre ++ pend;
  bd_last : match last with
            | Some (tok, e) => fm_lastTok b = tok /\ fm_lastEnd b = Some (length pre + e) /\ e <= length pend
            | None => forall v, needs_anchor v (fm_lastTok b) = false
            end;
}.

Lemma needs_no_anchor v tok : tok = [] \/ tok = construct_tok -> needs_anchor v tok = false.
Proof. unfold needs_anchor. intros [->| ->]; by rewrite !(bool_decide_false (_ = bs _)), !andb_false_r by done. Qed.

Lemma slice_ok_split a b e : length a = e ->
  slice_ok (a ++ b) 0 e = Ok a /\ slice_ok (a ++ b) e (length (a ++ b)) = Ok b.
Proof.
  intros <-. unfold slice_ok, slice. rewrite length_app, !(proj2 (Nat.leb_le _ _)) by lia. cbn [andb].
  rewrite Nat.sub_0_r, drop_0, take_app_length, drop_app_length. split; [done|]. f_equal. apply take_ge. lia.
Qed.

Lemma put_anchor_spec pre pend last b v : builds pre pend last b ->
  put_anchor v b = Ok (pre ++ anchored_run (IIfPresent v) pend last).
Proof.
  intros [Ho Hl]. unfold put_anchor. cbn [anchored_run]. destruct last as [[tok e]|].
  - destruct Hl as (-> & -> & He). destruct (needs_anchor v tok); [|by rewrite Ho].
    destruct (slice_ok_split (pre ++ take e pend) (drop e pend) (length pre + e)) as [E1 E2].
    { rewrite length_app, length_take. lia. }
    rewrite <- (assoc_L (++)), take_drop, <- Ho in E1, E2. rewrite E1. cbn [rbind]. rewrite E2. cbn [rbind].
    by rewrite <- app_assoc.
  - destruct (fm_lastEnd b); [|by rewrite Ho]. by rewrite Hl, Ho.
Qed.

Lemma builds_construct pre w e : builds (pre ++ w) [] None (mkBuilder (pre ++ w) construct_tok e).
Proof. split; [by rewrite app_nil_r|]. intros v. apply needs_no_anchor. by right. Qed.

Lemma builds_skeleton pre pend last b v : builds pre pend last b ->
  exists b', format_item ToUpper profile b (ISkeleton v) = Ok b' /\
    builds pre (pend ++ SkText v) (run_last pend (SkText v) last) b'.
Proof.
  intros [Ho Hl]. cbn [format_item]. unfold run_last. eexists. split; [done|].
  assert (forall b', fm_out b' = fm_out b ++ SkText v -> fm_lastTok b' = fm_lastTok b -> fm_lastEnd b' = fm_lastEnd b ->
    builds pre (pend ++ SkText v) last b') as Hkeep.
  { intros b' E1 E2 E3. split; [by rewrite E1, Ho, app_assoc|]. rewrite E2, E3.
    destruct last as [[tok e]|]; [|done]. rewrite length_app. intuition lia. }
  destruct (lastSignificantToken _ _ _) as [[tok e]|] eqn:E; [|by apply Hkeep].
  apply lastSignificantToken_bound in E. case_bool_decide; [by apply Hkeep|].
  split; cbn; [by rewrite Ho, app_assoc|]. rewrite Ho, !length_app. split_and!; [done|f_equal; lia|lia].
Qed.

(** A construct puts its text behind the run, whatever it is. *)
Lemma format_construct pre pend last b it : builds pre pend last b -> (forall v, it <> ISkeleton v) ->
  format_item ToUpper profile b it =
    Ok (mkBuilder (pre ++ anchored_run it pend last ++ write_construct it) construct_tok (fm_lastEnd b)).
Proof.
  intros Hb Hn. destruct it as [v|v|v|v|v|v]; [by destruct (Hn v)|..]; cbn [format_item].
  - rewrite (put_anchor_spec _ _ _ _ _ Hb). cbn [rbind]. by rewrite <- app_assoc.
  - by rewrite (bd_out _ _ _ _ Hb), <- app_assoc.
  - by rewrite (bd_out _ _ _ _ Hb), <- app_assoc.
  - by rewrite (bd_out _ _ _ _ Hb), <- app_assoc.
  - by rewrite (bd_out _ _ _ _ Hb), <- app_assoc.
Qed.

Lemma layout_construct pend last it items : (forall v, it <> ISkeleton v) ->
  layout pend last (it :: items) = (anchored_run it pend last ++ write_construct it) ++ layout [] None items.
Proof. intros Hn. destruct it as [v|v|v|v|v|v]; [by destruct (Hn v)|..]; cbn [layout]; by rewrite <- app_assoc. Qed.

Lemma format_items_spec path items : forall pre pend last b pos e, builds pre pend last b ->
  raw_tiles path pos items = Some e ->
  exists b', format_items ToUpper profile b pos items = Ok (b', e) /\ fm_out b' = pre ++ layout pend last items.
Proof.
  induction items as [|it items IH]; intros pre pend last b pos e Hb; cbn [format_items raw_tiles].
  { intros [= <-]. exists b. split; [done|]. apply (bd_out _ _ _ _ Hb). }
  destruct (_ && _ && _)%bool; [|done]. intros Ht.
  assert ((exists v, it = ISkeleton v) \/ forall v, it <> ISkeleton v) as [[v ->]|Hn].
  { destruct it; [left; eauto|right; done..]. }
  - destruct (builds_skeleton _ _ _ _ v Hb) as (b1 & -> & H1). cbn [rbind layout]. by apply IH.
  - rewrite (format_construct _ _ _ _ _ Hb Hn), (layout_construct _ _ _ _ Hn). cbn [rbind].
    destruct (IH _ _ _ _ _ _ (builds_construct pre (anchored_run it pend last ++ write_construct it) (fm_lastEnd b)) Ht) as (b' & -> & Ho).
    exists b'. by rewrite Ho, <- app_assoc.
Qed.

Section file.
Context (path src : bytes).

Lemma slice_ok_slice lo hi : lo <= hi <= length src -> slice_ok src lo hi = Ok (slice src lo hi).
Proof. intros H. unfold slice_ok. by rewrite !(proj2 (Nat.leb_le _ _)) by lia. Qed.

Lemma format_queries_spec qs : forall out pos from upto,
  queries_tile (profile := profile) path src from qs upto -> upto <= length src -> pos <= from -> (qs = [] -> pos = from) ->
  format_queries ToUpper profile src out pos qs = Ok (out ++ slice src pos from ++ concat (query_layout src <$> qs), upto).
Proof.
  induction qs as [|q qs IH]; intros out pos from upto; cbn [format_queries queries_tile].
  - intros <- _ _ ->; [|done]. rewrite slice_nil. cbn. by rewrite app_nil_r.
  - intros (Hf & e & Hq & Ht) Hu Hp _. destruct (sq_header _ _ _ _ _ Hq) as (_ & Hh & _).
    destruct (scanned_text _ _ _ _ Hq) as [Hle _]. destruct (queries_tile_text _ _ _ _ _ Ht Hu) as [Hle' _].
    destruct (raw_tiles_text path src _ _ _ (sq_tiles _ _ _ _ _ Hq) (sq_bound _ _ _ _ _ Hq)) as [He _].
    rewrite slice_ok_slice by lia. cbn [rbind].
    destruct (format_items_spec path (QItems q) (out ++ slice src pos (SEnd (QHeaderSpan q))) [] None
      (mkBuilder (out ++ slice src pos (SEnd (QHeaderSpan q))) [] None) (SEnd (QHeaderSpan q)) e) as (b & -> & Ho); [|apply Hq|].
    { split; [by rewrite app_nil_r|]. intros v. apply needs_no_anchor. by left. }
    cbn [rbind]. rewrite (IH _ e e upto Ht Hu) by done. rewrite slice_nil, Ho. cbn [fmap list_fmap concat app].
    unfold query_layout at 2, span_text. rewrite Hf, <- !app_assoc. do 3 f_equal. rewrite !app_assoc. do 2 f_equal.
    symmetry. apply slice_app; lia.
Qed.

Lemma layout_plain items : forall pend last, (forall it, it ∈ items -> exists v, it = ISkeleton v) ->
  (forall v, ISkeleton v ∈ items -> SkText v = slice src (SStart (SkSpan v)) (SEnd (SkSpan v))) ->
  layout pend last items = pend ++ concat (span_text src <$> (Raw <$> items)).
Proof.
  induction items as [|it items IH]; intros pend last H Hs; [cbn; by rewrite app_nil_r|].
  destruct (H it) as [v ->]; [by left|]. cbn [layout]. rewrite IH; [|set_solver..].
  cbn. unfold span_text at 2. rewrite <- app_assoc. do 2 f_equal. apply Hs. by left.
Qed.
End file.
End layout.

(** ** The theorem *)

Section theorem.
Context (ToUpper : bytes -> bytes) (ParseDuration : bytes -> option Z).

(** C40: formatting never fails, whatever the source.  A source with errors comes
    back unchanged with its reports; any other becomes the text before its
    first query, followed by each query's header and layout: the SQL between
    constructs as it stands, with a TRUE behind a WHERE or HAVING whose first
    conjunct is optional, and every construct in its canonical form.  Without
    constructs the file is unchanged. *)
Theorem format_exact profile esc path src :
  (profile, esc) ∈ dialects ->
  exists f ds out, ScanFileFrom ToUpper ParseDuration profile path src 0 = Ok (f, ds) /\
    Format ToUpper ParseDuration profile path src = Some (Ok (out, ds)) /\
    out = (if HasErrors ds then src
           else preamble src (QFQueries f) ++ concat (query_layout ToUpper profile src <$> QFQueries f)) /\
    ((forall q, q ∈ QFQueries f -> plain q) -> out = src).
Proof.
  intros Hp%dialects_laws.
  destruct (ScanFileFrom_spec (profile := profile) ToUpper ParseDuration path src 0) as (qs & s & stop & E & F & Hstop & _).
  set (ds := Sort _) in E.
  exists (mkQueryFile path qs), ds, (if HasErrors ds then src else preamble src qs ++ concat (query_layout ToUpper profile src <$> qs)).
  split; [exact E|]. unfold Format. rewrite E. cbn [QFQueries]. destruct (HasErrors ds); [done|].
  destruct qs as [|q qs].
  { cbn. rewrite app_nil_r. split; [|done]. unfold format_file. cbn [format_queries rbind].
    by rewrite slice_ok_slice, slice_full by lia. }
  destruct (fn_tiles _ _ _ _ _ _ F) as [from Ht]; [done|]. rewrite Hstop in Ht by done. pose proof Ht as [Hf _].
  destruct (queries_tile_text _ _ _ _ _ Ht) as [Hle Hc]; [done|].
  split; [|split; [done|]].
  - unfold format_file. rewrite (format_queries_spec ToUpper profile path src _ [] 0 from _ Ht) by (done || lia).
    cbn [rbind app]. rewrite slice_ok_slice by lia. cbn [rbind]. rewrite slice_nil, app_nil_r.
    cbn [preamble]. rewrite Hf. unfold slice. by rewrite Nat.sub_0_r, drop_0.
  - intros Hpl. cbn [preamble]. rewrite Hf.
    assert (query_layout ToUpper profile src <$> q :: qs = query_text src <$> q :: qs) as ->.
    { apply list_fmap_ext. intros i x Hi%list_elem_of_lookup_2. unfold query_layout, query_text. f_equal.
      destruct (finished_scanned _ _ _ _ _ _ _ F Hi) as [e He]. pose proof (sq_items _ _ _ _ _ He) as Hit.
      rewrite Forall_forall in Hit. rewrite (layout_plain ToUpper profile src _ [] None (Hpl x Hi)); [done|].
      intros v Hv. apply (Hit (ISkeleton v)). by apply list_elem_of_In. }
    rewrite Hc. unfold slice. rewrite (take_ge (drop from src)) by (by rewrite length_drop). apply take_drop.
Qed.
End theorem.

(** ** An instance *)

(** The anchor is inserted, and the construct gets its lines. *)
Definition anchorless : bytes := Eval vm_compute in
  bs "-- name: Q :many" ++ nl ++ bs "SELECT id FROM t WHERE /* c */ @if-present(a)AND id = :a @endif;".
Definition anchored_out : bytes := Eval vm_compute in
  bs "-- name: Q :many" ++ nl ++ bs "SELECT id FROM t WHERE TRUE /* c */ @if-present(a)" ++ nl ++ bs "  AND id = :a" ++ nl ++ bs "@endif;".

Lemma format_exact_witness :
  Format ascii_upper two_seconds Postgres.Profile (bs "q.sql") anchorless = Some (Ok (anchored_out, [])) /\
  exists f ds out, ScanFileFrom ascii_upper two_seconds Postgres.Profile (bs "q.sql") anchorless 0 = Ok (f, ds) /\
    Format ascii_upper two_seconds Postgres.Profile (bs "q.sql") anchorless = Some (Ok (out, ds)) /\
    out = (if HasErrors ds then anchorless
           else preamble anchorless (QFQueries f) ++ concat (query_layout ascii_upper Postgres.Profile anchorless <$> QFQueries f)) /\
    ((forall q, q ∈ QFQueries f -> plain q) -> out = anchorless).
Proof.
  split; [vm_compute; reflexivity|].
  exact (format_exact ascii_upper two_seconds Postgres.Profile false (bs "q.sql") anchorless postgres_dialect).
Defined.
