(* ===== verification/Codegen.v ===== *)
(** * Codegen

    [internal/codegen/naming.go], [enums.go] and the decisions of
    [generate.go]: which identifiers, fields, arguments and constants the
    generated package declares, and the collisions it refuses.  The Go text and
    its gofmt are left out; [Emitted] is what the text is rendered from.  The
    tables of package [unicode] are arguments. *)

From S2P Require Import Prelude Dialect Observe Tree Runtime Template Shape Diagnostics Lexical ScanDirectives ScanBodies GoPath Lines Catalog.

(** ** Runes *)

Class Unicode := {
  IsLetter : N -> bool; IsDigit : N -> bool; IsUpper : N -> bool; IsLower : N -> bool;
  rToUpper : N -> N; rToLower : N -> N;
}.

(** [[]rune(s)]; fuel: a rune takes a byte. *)
Fixpoint runes_loop (fuel : nat) (s : bytes) : list N :=
  match fuel, s with
  | S f, _ :: _ => (DecodeRune s).1 :: runes_loop f (drop (DecodeRune s).2 s)
  | _, _ => []
  end.
Definition runes (s : bytes) : list N := runes_loop (length s) s.

Definition six (r : N) (k : N) : ascii := ascii_of_N (N.lor 0x80 (N.land (N.shiftr r (6 * k)) 0x3F)).

(** [string(r)]: what is no code point is written as [RuneError]. *)
Definition EncodeRune (r : N) : bytes :=
  let r := if ((0xD800 <=? r) && (r <? 0xE000))%N || (0x10FFFF <? r)%N then RuneError else r in
  if (r <? 0x80)%N then [ascii_of_N r]
  else if (r <? 0x800)%N then [ascii_of_N (N.lor 0xC0 (N.shiftr r 6)); six r 0]
  else if (r <? 0x10000)%N then [ascii_of_N (N.lor 0xE0 (N.shiftr r 12)); six r 1; six r 0]
  else [ascii_of_N (N.lor 0xF0 (N.shiftr r 18)); six r 2; six r 1; six r 0].
Definition encode (rs : list N) : bytes := concat (EncodeRune <$> rs).

Definition underscore : N := 95.

(** [token.IsKeyword] *)
Definition go_keywords : list bytes :=
  bs <$> ["break"; "case"; "chan"; "const"; "continue"; "default"; "defer"; "else"; "fallthrough"; "for"; "func"; "go"; "goto"; "if";
          "import"; "interface"; "map"; "package"; "range"; "return"; "select"; "struct"; "switch"; "type"; "var"]%string.

Section codegen.
Context {U : Unicode}.

(** [strings.ToLower] *)
Definition ToLower (s : bytes) : bytes := encode (rToLower <$> runes s).

(** [token.IsIdentifier] and [token.IsExported] *)
Definition IsIdentifier (s : bytes) : bool :=
  match runes s with
  | [] => false
  | r :: rs =>
      (IsLetter r || N.eqb r underscore) && forallb (fun r => IsLetter r || N.eqb r underscore || IsDigit r) rs
      && negb (bool_decide (s ∈ go_keywords))
  end.
Definition IsExported (s : bytes) : bool := match runes s with r :: _ => IsUpper r | [] => IsUpper RuneError end.

(** ** Names *)

Definition initialisms : list bytes :=
  bs <$> ["id"; "url"; "uri"; "api"; "uuid"; "sql"; "http"; "json"; "html"; "ip"]%string.
Definition initialism (lower : bytes) : option bytes :=
  if bool_decide (lower ∈ initialisms) then Some (upper1 <$> lower) else None.

Definition go_part (part : bytes) : bytes :=
  match part with
  | [] => []
  | _ =>
      let lower := ToLower part in
      match initialism lower with
      | Some up => up
      | None => match runes lower with r :: rs => encode (rToUpper r :: rs) | [] => [] end
      end
  end.

Definition GoName (name : bytes) : bytes :=
  match concat (go_part <$> split_byte "_" name) with
  | [] => bs "X"
  | out => if IsLetter (DecodeRune out).1 then out else bs "X" ++ out
  end.

Fixpoint leading_upper (rs : list N) : nat :=
  match rs with r :: rs => if IsUpper r then S (leading_upper rs) else 0 | [] => 0 end.

Definition lowerCamel (name : bytes) : bytes :=
  let r := runes name in
  let n := leading_upper r in
  let n := if Nat.ltb 1 n && Nat.ltb n (length r) then n - 1 else n in
  encode ((rToLower <$> take n r) ++ drop n r).

(** A word starts behind a rune that is no capital, or at the last capital of a
    run before a lower-case rune. *)
Fixpoint snake_loop (prev : option N) (rs : list N) : list N :=
  match rs with
  | [] => []
  | r :: rest =>
      let sep := match prev with
                 | Some p => IsUpper r && negb (N.eqb p underscore)
                     && (negb (IsUpper p) || match rest with next :: _ => IsLower next | [] => false end)
                 | None => false
                 end in
      (if sep then [underscore] else []) ++ rToLower r :: snake_loop (Some r) rest
  end.
Definition pascalToSnake (name : bytes) : bytes := encode (snake_loop None (runes name)).

Definition identWords (s : bytes) : bytes :=
  encode ((fun r => if IsLetter r || IsDigit r then r else underscore) <$> runes s).
Definition enumGoName (typname : bytes) : bytes := GoName (identWords typname).

(** ** Inputs *)

Record GoTypeRef := mkGoType { GtName : bytes; GtImport : bytes }.

(** [InNullableParams] is a set for Go's [map[string]bool]. *)
Record QueryInput := mkInput {
  InQ : QueryTemplate; InFrags : list Frag; InParamTypes : gmap bytes TypeRef; InColumns : list ColumnDesc;
  InNullable : list bool; InNullableParams : gset bytes; InExpandedShapes : option (gmap bytes Expanded);
}.

(** [OptExplain] is [None] for the zero value. *)
Record Options := mkOptions {
  OptPackage : bytes; OptTreeCaps : TreeCaps; OptStyle : Style; OptDefaultTimeout : Z; OptExplain : option ExplainDialect;
}.

(** ** State

    What the queries of a package share, and the imports and reports of the
    query being emitted. *)
Record enumType := mkEnum { en_schema : bytes; en_name : bytes; en_labels : list bytes; en_query : bytes; en_span : Span }.
Record policyType := mkPolicyType {
  pt_underlying : bytes; pt_imp : bytes; pt_param : bytes; pt_policies : gset bytes; pt_query : bytes; pt_span : Span;
}.
Record gen := mkGen {
  gn_types : gmap bytes bytes; gn_policies : gmap bytes policyType; gn_enums : gmap bytes enumType; gn_consts : gmap bytes bytes;
  gn_imports : gset bytes; gn_sigImports : gset bytes; gn_diags : list Diagnostic;
}.

Definition with_types m g := mkGen m (gn_policies g) (gn_enums g) (gn_consts g) (gn_imports g) (gn_sigImports g) (gn_diags g).
Definition with_policies m g := mkGen (gn_types g) m (gn_enums g) (gn_consts g) (gn_imports g) (gn_sigImports g) (gn_diags g).
Definition with_enums m g := mkGen (gn_types g) (gn_policies g) m (gn_consts g) (gn_imports g) (gn_sigImports g) (gn_diags g).
Definition with_consts m g := mkGen (gn_types g) (gn_policies g) (gn_enums g) m (gn_imports g) (gn_sigImports g) (gn_diags g).
Definition with_imports s g := mkGen (gn_types g) (gn_policies g) (gn_enums g) (gn_consts g) s (gn_sigImports g) (gn_diags g).
Definition with_sigImports s g := mkGen (gn_types g) (gn_policies g) (gn_enums g) (gn_consts g) (gn_imports g) s (gn_diags g).
Definition report (ds : list Diagnostic) g :=
  mkGen (gn_types g) (gn_policies g) (gn_enums g) (gn_consts g) (gn_imports g) (gn_sigImports g) (gn_diags g ++ ds).

Definition CodeInvalidColumnIdentifier : bytes := bs "SQLETCH307".
Definition CodeNameCollision : bytes := bs "SQLETCH310".
Definition CodeUnsupportedType : bytes := bs "SQLETCH311".
Definition CodeEnumLabelIdent : bytes := bs "SQLETCH320".

Definition fail (code : bytes) (span : Span) (format : string) (args : list Arg) (g : gen) : gen :=
  report [Errorf code span format args] g.

Definition addImport (imp : bytes) (g : gen) : gen :=
  match imp with [] => g | _ => with_imports ({[imp]} ∪ gn_imports g) g end.
Definition addSigImport (imp : bytes) (g : gen) : gen := with_sigImports ({[imp]} ∪ gn_sigImports g) g.

Definition runtimeImport : bytes := bs "github.com/moznion/go-sqletch/runtime".
Definition optionalImport : bytes := bs "github.com/moznion/go-optional".
Definition sqletchImport : bytes := bs "github.com/moznion/go-sqletch".
Definition pgxImport : bytes := bs "github.com/jackc/pgx/v5".

(** ** Reserved names *)

Definition generatedPkgNames : list bytes :=
  bs <$> ["DBTX"; "Queries"; "Querier"; "New"; "And"; "Or"; "ShapeSpace"]%string.
Definition queriesMethodNames : list bytes :=
  bs <$> ["WithTx"; "OnQuery"; "SetObserver"; "Cache"; "hook"; "hookTree"; "observeExec"; "observeReject"; "observeExecResult";
          "observeExecTree"; "explain"; "explainTx"]%string.
Definition importPkgIdents : list bytes :=
  bs <$> ["context"; "runtime"; "fmt"; "time"; "optional"; "errors"; "sql"; "pgx"; "sqletch"]%string.
Definition fixedLocals : list bytes :=
  bs <$> ["ctx"; "arg"; "q"; "opts"; "err"; "key"; "zero"; "args"; "binds"; "sqlText"; "argIdx"; "items"; "rows"; "i"; "row";
          "execStart"; "res"; "n"; "rerr"; "tag"; "cancel"]%string.

(** [^(?:ord|oseq|nul)[0-9]+$] *)
Definition reservedLocal (name : bytes) : bool :=
  existsb (fun p => HasPrefix name p
      && match drop (length p) name with [] => false | ds => forallb (fun c => byte_leb "0" c && byte_leb c "9") ds end)
    [bs "ord"; bs "oseq"; bs "nul"].

Definition argIdent (param queryName : bytes) : bytes :=
  let name := lowerCamel (GoName param) in
  let lc := lowerCamel queryName in
  if bool_decide (name ∈ fixedLocals) || (reservedLocal name || bool_decide (name ∈ importPkgIdents))
     || (bool_decide (name = lc ++ bs "Frags") || bool_decide (name = lc ++ bs "Shapes"))
  then name ++ bs "Arg" else name.

(** ** Parameters *)

Definition param_of (q : QueryTemplate) (name : bytes) : result NilDereference Param :=
  match QParams q !! name with Some p => Ok p | None => Err NilPointer end.

Definition paramSpanOf (q : QueryTemplate) (name : bytes) : Span :=
  match QParams q !! name with
  | Some p => match POccurrences p with occ :: _ => OcSpan occ | [] => QHeaderSpan q end
  | None => QHeaderSpan q
  end.

(** A parameter that occurs in predicate bodies only. *)
Definition filterOnlyParam (p : Param) : bool :=
  match POccurrences p with [] => false | occs => forallb OcInFilterTree occs end.

Definition valueKindGoType (k : ValueKind) : option bytes :=
  match k with
  | ValueString => Some (bs "string") | ValueInt => Some (bs "int64") | ValueBool => Some (bs "bool") | ValueNone => None
  end.
Fixpoint valueAtomGoType (atoms : list GuardAtom) (name : bytes) : option bytes :=
  match atoms with
  | [] => None
  | g :: atoms =>
      if negb (bool_decide (GParam g = name)) || negb (IsValue g) then valueAtomGoType atoms name
      else match valueKindGoType (GKind g) with Some t => Some t | None => valueAtomGoType atoms name end
  end.

Definition in_params (q : QueryTemplate) : list bytes := InParam <$> omap as_in (QItems q).

Definition nullableParam (inp : QueryInput) (name : bytes) : bool :=
  bool_decide (name ∈ InNullableParams inp) && negb (bool_decide (name ∈ in_params (InQ inp))).

(** ** Enums and types *)

Inductive resolved := Resolved (ref : GoTypeRef) | NoMapping | Reported (ds : list Diagnostic).

Section query.
Context (GoType : N -> option GoTypeRef) (style : Style) (inp : QueryInput).

Abbreviation q := (InQ inp).

Definition resolveType (tr : TypeRef) (g : gen) : resolved * gen :=
  match GoType (TyOID tr) with
  | Some ref => (Resolved ref, g)
  | None =>
      match TyExt tr with
      | Some ext =>
          if negb (IsEnum tr) then (NoMapping, g)
          else
            let goName := enumGoName (TyName tr) in
            if negb (IsIdentifier goName) || negb (IsExported goName) then
              (Reported [WithHintf "bind and read it through text instead: CAST(:param AS text)::%s, and %s::text in a projection"
                 [AStr (TyName tr); AStr (TyName tr)]
                 (Errorf CodeInvalidColumnIdentifier (QHeaderSpan q)
                   "enum %s.%s maps to Go type name %q, which is not a valid exported identifier"
                   [AStr (TxSchema ext); AStr (TyName tr); AStr goName])], g)
            else
              match gn_enums g !! goName with
              | Some prev =>
                  if negb (bool_decide (en_schema prev = TxSchema ext)) || negb (bool_decide (en_name prev = TyName tr)) then
                    (Reported [Errorf CodeNameCollision (QHeaderSpan q)
                       "enums %s (query %s) and %s.%s (query %s) both generate Go type %q; rename one of the types"
                       [AStr (en_schema prev ++ bs "." ++ en_name prev); AStr (en_query prev); AStr (TxSchema ext); AStr (TyName tr);
                        AStr (QName q); AStr goName]], g)
                  else (Resolved (mkGoType goName []), g)
              | None =>
                  (Resolved (mkGoType goName []),
                   with_enums (<[goName := mkEnum (TxSchema ext) (TyName tr) (TxLabels ext) (QName q) (QHeaderSpan q)]> (gn_enums g)) g)
              end
      | None => (NoMapping, g)
      end
  end.

(** ** Claims of a query *)

Definition claimType (name : bytes) (g : gen) : gen :=
  if bool_decide (name ∈ generatedPkgNames) then
    fail CodeInvalidColumnIdentifier (QHeaderSpan q)
      "query %s generates the name %q, which the generated package already declares at package level; rename the query (or its @choose/@order-by/@predicate parameter)"
      [AStr (QName q); AStr name] g
  else
    match gn_types g !! name with
    | Some prev =>
        fail CodeNameCollision (QHeaderSpan q) "generated type %q collides between queries %s and %s"
          [AStr name; AStr prev; AStr (QName q)] g
    | None => with_types (<[name := QName q]> (gn_types g)) g
    end.

Definition check_method (g : gen) : gen :=
  if bool_decide (QName q ∈ queriesMethodNames) then
    fail CodeInvalidColumnIdentifier (QHeaderSpan q)
      "query %q would generate a method that collides with the generated %q method on *Queries; rename the query"
      [AStr (QName q); AStr (QName q)] g
  else g.

Definition enum_name (c : Choose) : bytes := QName q ++ GoName (ChParam c).
Definition order_name (o : OrderBy) : bytes := QName q ++ GoName (ObParam o) ++ bs "Key".
Definition unscoped_name : bytes := QName q ++ bs "Unscoped".
Definition predicate_name (pr : Predicate) : bytes := QName q ++ GoName (PrName pr).
Definition params_name : bytes := QName q ++ bs "Params".
Definition row_name : bytes := QName q ++ bs "Row".

(** The names an item claims, in order. *)
Definition item_names (it : Item) : list bytes :=
  match it with
  | IChoose c => [enum_name c]
  | IOrderBy o => [order_name o]
  | IFilterTree f => unscoped_name :: (predicate_name <$> FtPredicates f)
  | _ => []
  end.
Definition claim_items (g : gen) : gen := foldl (fun g name => claimType name g) g (flat_map item_names (QItems q)).

Definition chooses : list Choose := omap as_choose (QItems q).
Definition orders : list OrderBy := omap as_order (QItems q).
(** The last one, as the loop overwrites. *)
Definition filter_tree : option FilterTree := list.last (omap as_tree (QItems q)).

(** ** The params struct *)

(** [fd_optElem] is empty but for a nullable result column. *)
Record field := mkField { fd_name : bytes; fd_typ : bytes; fd_comment : bytes; fd_optElem : bytes }.
Record requiredArg := mkRequired { ra_name : bytes; ra_typ : bytes; ra_expr : bytes; ra_doc : bytes; ra_param : bytes }.

(** What the loops of [emit] build. *)
Record parts := mkParts { ps_fields : list field; ps_names : gmap bytes bytes; ps_required : list requiredArg }.

(** [claimField], and the field where it is free. *)
Definition claimField (src : bytes) (f : field) (st : parts * gen) : parts * gen :=
  let '(ps, g) := st in
  match ps_names ps !! fd_name f with
  | Some prev =>
      (ps, fail CodeNameCollision (QHeaderSpan q) "params field %q generated for both %q and %q; rename one"
             [AStr (fd_name f); AStr prev; AStr src] g)
  | None => (mkParts (ps_fields ps ++ [f]) (<[fd_name f := src]> (ps_names ps)) (ps_required ps), g)
  end.
Definition add_required (ra : requiredArg) (ps : parts) : parts := mkParts (ps_fields ps) (ps_names ps) (ps_required ps ++ [ra]).

Definition option_of (typ : bytes) : bytes := bs "optional.Option[" ++ typ ++ bs "]".
Definition omittable_of (typ : bytes) : bytes := bs "sqletch.Omittable[" ++ typ ++ bs "]".
Definition in_list : bool := match style with StyleQuestion => true | StyleDollar => false end.

(** The type, the comment and the import of a parameter the oracle saw. *)
Definition seen_type (name : bytes) (p : Param) (ref : GoTypeRef) (g : gen) : bytes * bytes * gen :=
  let g := addImport (GtImport ref) g in
  let '(typ, comment) :=
    if in_list && bool_decide (name ∈ in_params q) then (bs "[]" ++ GtName ref, bs " // @in list; empty matches nothing")
    else (GtName ref, []) in
  let nullable := nullableParam inp name in
  let '(typ, comment) := if nullable then (option_of typ, bs " // None binds NULL") else (typ, comment) in
  let g := if nullable then addImport optionalImport g else g in
  if POptional p then
    (omittable_of typ,
     if nullable then bs " // zero value omits the guarded fragment(s); None binds NULL"
     else bs " // zero value omits the guarded fragment(s)",
     addImport sqletchImport g)
  else (typ, comment, g).

(** The type, the comment and the import of a parameter; [None] when the loop
    goes on to the next one. *)
Definition param_type (name : bytes) (p : Param) (g : gen) : option (bytes * bytes * bytes) * gen :=
  match InParamTypes inp !! name with
  | Some tr =>
      match resolveType tr g with
      | (Reported ds, g) => (None, report ds g)
      | (NoMapping, g) =>
          (None, fail CodeUnsupportedType (paramSpanOf q name)
             "no Go mapping for type %s (oid %d) of parameter %q; add an explicit cast to a supported type"
             [AStr (TyName tr); AInt (Z.of_N (TyOID tr)); AStr name] g)
      | (Resolved ref, g) =>
          let '(typ, comment, g) := seen_type name p ref g in (Some (typ, comment, GtImport ref), g)
      end
  | None =>
      match valueAtomGoType (QGuardAtoms q) name with
      | Some lit => (Some (lit, bs " // @when control parameter", []), g)
      | None =>
          (None, fail CodeUnsupportedType (paramSpanOf q name) "parameter %q has no resolved type (oracle did not see it)"
             [AStr name] g)
      end
  end.

Definition convertExpr (typ ident : bytes) : bytes :=
  if HasPrefix typ (bs "*") then bs "(" ++ typ ++ bs ")(" ++ ident ++ bs ")" else typ ++ bs "(" ++ ident ++ bs ")".

(** A parameter a policy wove in: an argument of a type of its own. *)
Definition policy_arg (name typ imp policy : bytes) (st : parts * gen) : parts * gen :=
  let '(ps, g) := st in
  let tn := GoName name in
  let ra := mkRequired (argIdent name (QName q)) tn (convertExpr typ (argIdent name (QName q))) (bs "policy " ++ policy) name in
  if bool_decide (tn ∈ generatedPkgNames) then
    (ps, fail CodeInvalidColumnIdentifier (paramSpanOf q name)
       "policy parameter %q would generate type %q, which the generated package already declares at package level; rename the parameter"
       [AStr name; AStr tn] g)
  else
    match gn_policies g !! tn with
    | Some pt =>
        if negb (bool_decide (pt_underlying pt = typ)) || negb (bool_decide (pt_param pt = name)) then
          (ps, fail CodeNameCollision (paramSpanOf q name)
             "policy type %q is %s for parameter %q of query %s but %s for parameter %q of query %s; align the policies' declared types or rename a parameter"
             [AStr tn; AStr (pt_underlying pt); AStr (pt_param pt); AStr (pt_query pt); AStr typ; AStr name; AStr (QName q)] g)
        else
          (add_required ra ps,
           with_policies (<[tn := mkPolicyType (pt_underlying pt) (pt_imp pt) (pt_param pt) ({[policy]} ∪ pt_policies pt)
                                    (pt_query pt) (pt_span pt)]> (gn_policies g)) g)
    | None =>
        (add_required ra ps,
         with_policies (<[tn := mkPolicyType typ imp name {[policy]} (QName q) (paramSpanOf q name)]> (gn_policies g)) g)
    end.

Definition tree_param (name : bytes) : bool :=
  match filter_tree with Some f => bool_decide (name = FtParam f) | None => false end.

Definition param_step (st : parts * gen) (name : bytes) : result NilDereference (parts * gen) :=
  if tree_param name then Ok st
  else
    let! p := param_of q name in
    if filterOnlyParam p then Ok st
    else
      let '(ps, g) := st in
      match param_type name p g with
      | (None, g) => Ok (ps, g)
      | (Some (typ, comment, imp), g) =>
          Ok (match PPolicy p with
              | [] => claimField name (mkField (GoName name) typ comment []) (ps, g)
              | policy => policy_arg name typ imp policy (ps, g)
              end)
      end.

Definition choose_step (st : parts * gen) (c : Choose) : parts * gen :=
  claimField (bs "@choose(" ++ ChParam c ++ bs ")")
    (mkField (GoName (ChParam c)) (enum_name c)
       (match ChDefault c with Some _ => bs " // zero value selects @default" | None => bs " // required: zero value is an error" end) [])
    st.

Definition order_step (st : parts * gen) (o : OrderBy) : parts * gen :=
  claimField (bs "@order-by(" ++ ObParam o ++ bs ")")
    (mkField (GoName (ObParam o)) (bs "[]" ++ order_name o)
       (match ObDefault o with Some _ => bs " // key sequence; empty = @default"
        | None => bs " // key sequence; empty omits ORDER BY" end) []) st.

Definition tree_step (st : parts * gen) : parts * gen :=
  match filter_tree with
  | Some f =>
      if FtRequired f then
        let '(ps, g) := st in
        let ident := argIdent (FtParam f) (QName q) in
        (add_required (mkRequired ident (bs "runtime.Tree") ident (bs "@filter-tree!; " ++ unscoped_name ++ bs "() opts out") (FtParam f)) ps,
         addSigImport runtimeImport g)
      else
        claimField (bs "@filter-tree(" ++ FtParam f ++ bs ")")
          (mkField (GoName (FtParam f)) (bs "runtime.Tree") (bs " // zero Tree renders TRUE") []) st
  | None => st
  end.

(** The gate on the names of the required arguments. *)
Definition fixedSigNames : list bytes := bs <$> ["ctx"; "arg"; "q"; "opts"]%string.
Definition arg_step (st : gmap bytes bytes * gen) (ra : requiredArg) : gmap bytes bytes * gen :=
  let '(owner, g) := st in
  if bool_decide (ra_name ra ∈ fixedSigNames) then
    (owner, report [WithHintf "rename %q so its generated argument name differs from the method's ctx/arg/q identifiers" [AStr (ra_param ra)]
       (Errorf CodeInvalidColumnIdentifier (paramSpanOf q (ra_param ra))
         "required argument %q of query %s generates the method parameter name %q, which collides with a fixed method identifier (ctx/arg/q); rename the parameter"
         [AStr (ra_param ra); AStr (QName q); AStr (ra_name ra)])] g)
  else
    match owner !! ra_name ra with
    | Some prev =>
        (owner, report [WithHintf "rename %q or %q so their generated argument names differ" [AStr prev; AStr (ra_param ra)]
           (Errorf CodeInvalidColumnIdentifier (paramSpanOf q (ra_param ra))
             "required arguments %q and %q of query %s both generate the method parameter name %q; two parameters cannot share a name, so the generated method would not compile — rename one"
             [AStr prev; AStr (ra_param ra); AStr (QName q); AStr (ra_name ra)])] g)
    | None => (<[ra_name ra := ra_param ra]> owner, g)
    end.

(** ** The row struct *)

Definition hasRows : bool :=
  match QAnnotation q with AnnotationOne | AnnotationMaybeOne | AnnotationMany => true | _ => false end.

Record rows := mkRows { rw_fields : list field; rw_names : gmap bytes bytes }.

Definition row_step (st : rows * gen) (icol : nat * ColumnDesc) : rows * gen :=
  let '(rw, g) := st in
  let '(i, col) := icol in
  match resolveType (CdType col) g with
  | (Reported ds, g) => (rw, report ds g)
  | (NoMapping, g) =>
      (rw, fail CodeUnsupportedType (QHeaderSpan q)
         "no Go mapping for type %s (oid %d) of result column %q; add an explicit cast to a supported type"
         [AStr (TyName (CdType col)); AInt (Z.of_N (TyOID (CdType col))); AStr (CdName col)] g)
  | (Resolved ref, g) =>
      let g := addImport (GtImport ref) g in
      let nullable := default false (InNullable inp !! i) in
      let g := if nullable then addImport optionalImport g else g in
      let goName := GoName (CdName col) in
      if negb (IsIdentifier goName) || negb (IsExported goName) then
        (rw, fail CodeInvalidColumnIdentifier (QHeaderSpan q)
           "result column %q maps to Go identifier %q, which is not a valid exported field name; give it an `AS` alias (or a `-- @column` name) that is a valid exported Go identifier"
           [AStr (CdName col); AStr goName] g)
      else
        match rw_names rw !! goName with
        | Some prev =>
            (rw, fail CodeNameCollision (QHeaderSpan q) "row field %q generated for both columns %q and %q; alias one differently"
               [AStr goName; AStr prev; AStr (CdName col)] g)
        | None =>
            (mkRows (rw_fields rw ++ [mkField goName (if nullable then option_of (GtName ref) else GtName ref) []
                                        (if nullable then GtName ref else [])])
               (<[goName := CdName col]> (rw_names rw)), g)
        end
  end.

Definition emit_rows (g : gen) : list field * gen :=
  if hasRows then
    let '(rw, g) := foldl row_step (mkRows [] ∅, claimType row_name g) (imap pair (InColumns inp)) in (rw_fields rw, g)
  else ([], g).

(** ** Imports and constants of the rendered text *)

Definition late_imports (g : gen) : gen :=
  let g := match chooses, orders with [], [] => g | _, _ => addImport (bs "fmt") g end in
  let g := addImport (bs "time") g in
  match QAnnotation q with
  | AnnotationMaybeOne =>
      let g := addImport (bs "errors") (addSigImport optionalImport (addImport optionalImport g)) in
      match style with StyleQuestion => addImport (bs "database/sql") g | StyleDollar => addImport pgxImport g end
  | _ => g
  end.

(** The constants a query declares, in order. *)
Definition choose_consts (c : Choose) : list bytes :=
  ((fun cs => enum_name c ++ GoName (CCName cs)) <$> ChCases c)
  ++ match ChDefault c with Some _ => [enum_name c ++ bs "Default"] | None => [] end.
Definition order_consts (o : OrderBy) : list bytes :=
  flat_map (fun k => [QName q ++ GoName (ObParam o) ++ GoName (OKName k) ++ bs "Asc";
                      QName q ++ GoName (ObParam o) ++ GoName (OKName k) ++ bs "Desc"]) (ObKeys o).
Definition query_consts : list bytes := flat_map choose_consts chooses ++ flat_map order_consts orders.
Definition register_consts (g : gen) : gen :=
  with_consts (foldl (fun m c => <[c := QName q]> m) (gn_consts g) query_consts) g.

(** ** The constructors of a filter tree *)

Record constructor := mkConstructor { ct_name : bytes; ct_index : nat; ct_params : list bytes; ct_args : list bytes }.

Definition lowerFirst (items : list bytes) : list bytes := lowerCamel <$> items.

Definition constructor_param (pr : Predicate) (st : list bytes * bool * gen) (name : bytes) : list bytes * bool * gen :=
  let '(params, ok, g) := st in
  match InParamTypes inp !! name with
  | None => (params, false, fail CodeUnsupportedType (PrSpan pr) "predicate parameter %q has no resolved type" [AStr name] g)
  | Some tr =>
      match resolveType tr g with
      | (Reported ds, g) => (params, false, report ds g)
      | (NoMapping, g) =>
          (params, false, fail CodeUnsupportedType (PrSpan pr) "no Go mapping for type %s (oid %d) of predicate parameter %q"
             [AStr (TyName tr); AInt (Z.of_N (TyOID tr)); AStr name] g)
      | (Resolved ref, g) => (params ++ [GoName name ++ bs " " ++ GtName ref], ok, addImport (GtImport ref) g)
      end
  end.

Definition constructor_step (st : list constructor * gen) (ipr : nat * Predicate) : list constructor * gen :=
  let '(cts, g) := st in
  let '(i, pr) := ipr in
  let '(params, ok, g) := foldl (constructor_param pr) ([], true, g) (PrParams pr) in
  if ok then (cts ++ [mkConstructor (predicate_name pr) i (lowerFirst params) (lowerFirst (GoName <$> PrParams pr))], g) else (cts, g).

Definition writeFilterConstructors (g : gen) : list constructor * gen :=
  match filter_tree with
  | Some f => foldl constructor_step ([], g) (imap pair (FtPredicates f))
  | None => ([], g)
  end.

(** ** The method's preamble

    What [writePreamble] writes: the guards, choices, orders and arities of the
    key, the values of the binds in order of the parameters, and how the
    statement is composed. *)
Inductive composition :=
  | ViaTree (tree : bytes) (nonzero : bool) (caps : TreeCaps) | ViaLookup | ViaBinds | ViaGet.
Record preamble := mkPreamble {
  pa_guards : list (bytes * nat); pa_choices : list (bytes * nat * bool); pa_orders : list (bytes * nat);
  pa_arities : list bytes; pa_vals : list bytes; pa_composition : composition;
}.

(** [durationLiteral]: [N*time.Unit] as [N] and [Unit]. *)
Definition time_units : list (Z * string) :=
  [(3600000000000, "Hour"); (60000000000, "Minute"); (1000000000, "Second"); (1000000, "Millisecond"); (1000, "Microsecond")]%Z%string.
Definition durationLiteral (d : Z) : Z * string :=
  match List.find (fun u => Z.eqb (Z.rem d u.1) 0) time_units with
  | Some u => (Z.quot d u.1, u.2)
  | None => (d, "Nanosecond"%string)
  end.

Section preamble.
(** [strconv.Quote], and the caps and the default timeout of the package. *)
Context (Quote : bytes -> bytes) (caps : TreeCaps) (defTimeout : Z).

Definition goLiteral (g : GuardAtom) : bytes := match GKind g with ValueString => Quote (GValue g) | _ => GValue g end.

Definition arg_dot (name : bytes) : bytes := bs "arg." ++ GoName name.

(** The condition of a guard bit. *)
Definition guard_test (a : GuardAtom) : bytes :=
  if IsValue a then
    arg_dot (GParam a) ++ bs " " ++ (if bool_decide (GOp a = bs "!=") then bs "!=" else bs "==") ++ bs " " ++ goLiteral a
  else arg_dot (GParam a) ++ bs ".IsPresent()".

Definition requiredArgExprs (ras : list requiredArg) : gmap bytes bytes :=
  foldl (fun m ra => <[ra_param ra := ra_expr ra]> m) ∅ ras.
(** A missing key reads as the empty string. *)
Definition arg_expr (ras : list requiredArg) (name : bytes) : option bytes :=
  match requiredArgExprs ras !! name with Some [] => None | e => e end.

Definition bind_value (ras : list requiredArg) (name : bytes) : result NilDereference bytes :=
  if tree_param name then Ok (bs "nil /* tree control */")
  else
    let! p := param_of q name in
    Ok (if filterOnlyParam p then bs "nil /* predicate arg */"
        else match arg_expr ras name with
             | Some e => e
             | None =>
                 if POptional p && nullableParam inp name then arg_dot name ++ bs ".OrZero().UnwrapAsPtr()"
                 else if POptional p then arg_dot name ++ bs ".Ptr()"
                 else if nullableParam inp name then arg_dot name ++ bs ".UnwrapAsPtr()"
                 else arg_dot name
             end).

Definition tree_field (ras : list requiredArg) (f : FilterTree) : bytes :=
  match arg_expr ras (FtParam f) with Some e => e | None => arg_dot (FtParam f) end.

Definition composition_of (ras : list requiredArg) : composition :=
  match filter_tree with
  | Some f => ViaTree (tree_field ras f) (FtRequired f) caps
  | None =>
      match InExpandedShapes inp with
      | Some _ => ViaLookup
      | None => match style with StyleQuestion => ViaBinds | StyleDollar => ViaGet end
      end
  end.

Definition writePreamble (ras : list requiredArg) : result NilDereference preamble :=
  let! vals := rmap (bind_value ras) (QParamOrder q) in
  Ok (mkPreamble (imap (fun i a => (guard_test a, i)) (QGuardAtoms q))
        ((fun c => (arg_dot (ChParam c), length (ChCases c), match ChDefault c with Some _ => true | None => false end)) <$> chooses)
        ((fun o => (arg_dot (ObParam o), length (ObKeys o))) <$> orders)
        (if in_list then (fun p => arg_dot p) <$> in_params q else [])
        vals (composition_of ras)).

(** The deadline of the method, in nanoseconds; 0 and less are none. *)
Definition deadline : option Z :=
  match QTimeout q with
  | Some td => if TDNone td then None else if (TDDuration td <=? 0)%Z then None else Some (TDDuration td)
  | None => if (defTimeout <=? 0)%Z then None else Some defTimeout
  end.

(** ** A query *)

Record Emitted := mkEmitted {
  em_query : QueryTemplate; em_fields : list field; em_required : list requiredArg; em_rows : list field;
  em_constructors : list constructor; em_preamble : preamble; em_deadline : option (Z * string); em_imports : gset bytes;
}.

(** [emit]: what is rendered, [None] where reports stop it. *)
Definition emit (g : gen) : result NilDereference (option Emitted * gen) :=
  let g := with_imports {[bs "context"; runtimeImport]} g in
  let g := claimType params_name (claim_items (check_method g)) in
  let! st := rfold param_step (mkParts [] ∅ [], g) (QParamOrder q) in
  let '(ps, g) := tree_step (foldl order_step (foldl choose_step st chooses) orders) in
  let '(_, g) := foldl arg_step (∅, g) (ps_required ps) in
  let '(rowFields, g) := emit_rows g in
  if HasErrors (gn_diags g) then Ok (None, g)
  else
    let g := register_consts (late_imports g) in
    let imports := gn_imports g in
    let '(cts, g) := writeFilterConstructors g in
    if HasErrors (gn_diags g) then Ok (None, g)
    else
      let! pa := writePreamble (ps_required ps) in
      Ok (Some (mkEmitted q (ps_fields ps) (ps_required ps) rowFields cts pa (durationLiteral <$> deadline) imports), g).
End preamble.
End query.

(** ** Enums of the package *)

Definition sortedKeys {V} (m : gmap bytes V) : list bytes := SliceStable bytes_ltb (fst <$> map_to_list m).

Definition trim_underscores (w : bytes) : bytes := trim_left (fun c => c =b "_"%char) w.

(** The constant of a label; [None] where the label has no letter or digit. *)
Definition label_const (typeName l : bytes) : option bytes :=
  let w := identWords l in
  match trim_underscores w with
  | [] => None
  | rest =>
      let suffix := GoName w in
      Some (typeName ++ (if IsLetter (DecodeRune rest).1 then suffix
                         else if HasPrefix suffix (bs "X") then drop 1 suffix else suffix))
  end.

Record const_state := mkConstState { cs_seen : gmap bytes bytes; cs_names : list bytes; cs_bad : list bytes }.
Definition const_step (typeName : bytes) (st : const_state) (l : bytes) : const_state :=
  match label_const typeName l with
  | None => mkConstState (cs_seen st) (cs_names st) (cs_bad st ++ [l])
  | Some name =>
      match cs_seen st !! name with
      | Some prev => mkConstState (cs_seen st) (cs_names st) (cs_bad st ++ [prev; l])
      | None => mkConstState (<[name := l]> (cs_seen st)) (cs_names st ++ [name]) (cs_bad st)
      end
  end.
Definition enumConstNames (typeName : bytes) (labels : list bytes) : result (list bytes) (list bytes) :=
  let st := foldl (const_step typeName) (mkConstState ∅ [] []) labels in
  match cs_bad st with [] => Ok (cs_names st) | bad => Err bad end.

(** The labels, each once in order of first occurrence, quoted. *)
Definition dedup (ls : list bytes) : list bytes := foldl (fun out l => if bool_decide (l ∈ out) then out else out ++ [l]) [] ls.
Definition quoteAll (labels : list bytes) : Arg :=
  let ls := dedup labels in
  ASprintf (concat (imap (fun i _ => match i with 0 => bs "%q" | S _ => bs ", %q" end) ls)) (AStr <$> ls).

Definition qualified (e : enumType) : bytes := en_schema e ++ bs "." ++ en_name e.

(** [claim]: the owners of the identifiers of the package and the reports. *)
Definition claim_enum (e : enumType) (st : gmap bytes Arg * list Diagnostic) (ident : bytes) : gmap bytes Arg * list Diagnostic :=
  let '(owner, ds) := st in
  if bool_decide (ident ∈ generatedPkgNames) then
    (owner, ds ++ [Errorf CodeInvalidColumnIdentifier (en_span e)
       "enum %s generates the name %q, which the generated package already declares at package level; rename the type"
       [AStr (qualified e); AStr ident]])
  else
    match owner !! ident with
    | Some prev =>
        (owner, ds ++ [Errorf CodeNameCollision (en_span e) "enum %s generates the name %q, which %s also generates; rename one"
           [AStr (qualified e); AStr ident; prev]])
    | None => (<[ident := AStr (bs "enum " ++ qualified e)]> owner, ds)
    end.

Definition initial_owner (g : gen) : gmap bytes Arg :=
  let owner := (fun q => AStr (bs "query " ++ q)) <$> gn_types g in
  let owner := owner ∪ ((fun q => AStr (bs "query " ++ q)) <$> gn_consts g) in
  owner ∪ ((fun pt => ASprintf (bs "policy parameter %q") [AStr (pt_param pt)]) <$> gn_policies g).

Definition enum_step (g : gen) (st : (gmap bytes Arg * list Diagnostic) * gmap bytes (list bytes)) (tn : bytes)
    : (gmap bytes Arg * list Diagnostic) * gmap bytes (list bytes) :=
  let '((owner, ds), consts) := st in
  match gn_enums g !! tn with
  | None => st
  | Some e =>
      match enumConstNames tn (en_labels e) with
      | Err bad =>
          ((owner, ds ++ [Warnf CodeEnumLabelIdent (en_span e)
              "labels %s of enum %s do not map to distinct Go identifiers; %s is generated without constants"
              [quoteAll bad; AStr (qualified e); AStr tn]]), consts)
      | Ok names => (foldl (claim_enum e) (owner, ds) names, <[tn := names]> consts)
      end
  end.

Definition checkEnumNames (g : gen) : gmap bytes (list bytes) * list Diagnostic :=
  let keys := sortedKeys (gn_enums g) in
  let st := foldl (fun st tn => match gn_enums g !! tn with Some e => claim_enum e st tn | None => st end) (initial_owner g, []) keys in
  let '((_, ds), consts) := foldl (enum_step g) (st, ∅) keys in
  (consts, ds).

(** ** The package *)

Definition resolveExplainDialect (opts : Options) : result Arg ExplainDialect :=
  let text (d : ExplainDialect) : bytes :=
    match d with ExplainPostgres => bs "postgres" | ExplainMySQL => bs "mysql" | ExplainSQLite => bs "sqlite" | ExplainOther _ => bs "ExplainDialect(%d)" end in
  let shown d := match d with ExplainOther n => ASprintf (text d) [AInt (Z.of_N n)] | _ => AStr (text d) end in
  let code := match OptStyle opts with StyleDollar => 0%Z | StyleQuestion => 1%Z end in
  let known d :=
    match d with
    | ExplainOther _ => Err (ASprintf (bs "unknown explain dialect %v") [shown d])
    | _ =>
        if bool_decide ((d = ExplainPostgres) <-> (OptStyle opts = StyleDollar)) then Ok d
        else Err (ASprintf (bs "explain dialect %v does not match placeholder style %d") [shown d; AInt code])
    end in
  match OptExplain opts with
  | Some d => known d
  | None =>
      match OptStyle opts with
      | StyleDollar => known ExplainPostgres
      | StyleQuestion =>
          Err (AStr (bs "codegen.Options.Explain is required for the question placeholder style (MySQL and SQLite share it)"))
      end
  end.

(** [ShapeSpace]'s entry: a count past 64 bits saturates. *)
Record spaceEntry := mkSpace { sp_query : bytes; sp_enumerable : N; sp_exact : bool; sp_unbounded : bool }.
Definition shapeSpaceEntry (q : QueryTemplate) (style : Style) : spaceEntry :=
  let cnt := Count q in
  let exact := (cnt <? 2 ^ 64)%N in
  mkSpace (QName q) (if exact then cnt else 2 ^ 64 - 1)%N exact
    (existsb (fun it => match it with
                        | IFilterTree _ => true
                        | IInExpr _ => match style with StyleQuestion => true | StyleDollar => false end
                        | _ => false end) (QItems q)).

(** The generated package; [pk_consts] is empty where no file but the queries'
    is written. *)
Record Package := mkPackage {
  pk_files : gmap bytes Emitted; pk_spaces : list spaceEntry; pk_fixed : list bytes; pk_state : gen;
  pk_consts : gmap bytes (list bytes); pk_sigImports : gset bytes;
}.

Record build := mkBuild { bl_files : gmap bytes Emitted; bl_stems : gmap bytes bytes; bl_spaces : list spaceEntry; bl_diags : list Diagnostic }.

Section package.
Context (Quote : bytes -> bytes) (GoType : N -> option GoTypeRef) (opts : Options).

Definition Explain : bytes := bs "Explain".
Definition explain_clash (names : list bytes) (q : QueryTemplate) : list Diagnostic :=
  let base := drop (length Explain) (QName q) in
  if HasPrefix (QName q) Explain && bool_decide (base ∈ names) then
    [WithHint "every query Foo also generates ExplainFoo, so no query may be named Explain<another query>"
       (Errorf CodeNameCollision (QHeaderSpan q) "query %q collides with the generated %s method of query %q; rename one"
          [AStr (QName q); AStr (QName q); AStr base])]
  else [].

(** The caps, with a default for each that is zero. *)
Definition effective_caps (caps : TreeCaps) : TreeCaps :=
  mkCaps (if Z.eqb (MaxNodes caps) 0 then MaxNodes DefaultTreeCaps else MaxNodes caps)
    (if Z.eqb (MaxDepth caps) 0 then MaxDepth DefaultTreeCaps else MaxDepth caps).

(** The state a query is emitted from: imports and reports are its own. *)
Definition fresh_query (g : gen) : gen :=
  mkGen (gn_types g) (gn_policies g) (gn_enums g) (gn_consts g) ∅ (gn_sigImports g) [].

Definition generate_step (st : build * gen) (inp : QueryInput) : result NilDereference (build * gen) :=
  let '(b, g) := st in
  let! '(em, g) := emit GoType (OptStyle opts) inp Quote (effective_caps (OptTreeCaps opts)) (OptDefaultTimeout opts) (fresh_query g) in
  let b := mkBuild (bl_files b) (bl_stems b) (bl_spaces b) (bl_diags b ++ gn_diags g) in
  Ok (match gn_diags g, em with
      | [], Some em =>
          let q := InQ inp in
          let stem := pascalToSnake (QName q) in
          match bl_stems b !! stem with
          | Some prev =>
              (mkBuild (bl_files b) (bl_stems b) (bl_spaces b)
                 (bl_diags b ++ [Errorf CodeNameCollision (QHeaderSpan q)
                    "query %q and %q both generate %s.sql.gen.go; rename one so the file names differ"
                    [AStr prev; AStr (QName q); AStr stem]]), g)
          | None =>
              (mkBuild (<[stem ++ bs ".sql.gen.go" := em]> (bl_files b)) (<[stem := QName q]> (bl_stems b))
                 (bl_spaces b ++ [shapeSpaceEntry q (OptStyle opts)]) (bl_diags b), g)
          end
      | _, _ => (b, g)
      end).

Definition policy_clashes (g : gen) : list Diagnostic :=
  omap (fun tn =>
    qn ← gn_types g !! tn; pt ← gn_policies g !! tn;
    Some (Errorf CodeNameCollision (pt_span pt) "generated type %q collides between query %s and policy parameter %q; rename one"
      [AStr tn; AStr qn; AStr (pt_param pt)])) (sortedKeys (gn_policies g)).

Definition less_name (a b : QueryInput) : bool := bytes_ltb (QName (InQ a)) (QName (InQ b)).

(** The names of the fixed files, written when nothing is wrong. *)
Definition fixed_files (g : gen) : list bytes :=
  [bs "db.gen.go"; bs "querier.gen.go"] ++ (if decide (gn_policies g = ∅) then [] else [bs "policy.gen.go"])
  ++ (if decide (gn_enums g = ∅) then [] else [bs "enums.gen.go"]).

(** [sort.Slice] on the names of queries, which are distinct. *)
Definition Generate (queries : list QueryInput) : result NilDereference (option Package * list Diagnostic) :=
  let sorted := SliceStable less_name queries in
  match resolveExplainDialect opts with
  | Err why => Ok (None, [Errorf CodeNameCollision (mkSpan [] 0 0) "internal: %v" [why]])
  | Ok _ =>
      let names := (fun inp => QName (InQ inp)) <$> sorted in
      let clashes := flat_map (fun inp => explain_clash names (InQ inp)) sorted in
      let! '(b, g) := rfold generate_step (mkBuild ∅ ∅ [] clashes, mkGen ∅ ∅ ∅ ∅ ∅ ∅ []) sorted in
      let '(consts, enumDiags) := checkEnumNames g in
      let ds := bl_diags b ++ policy_clashes g ++ enumDiags in
      Ok (Some (if HasErrors ds then mkPackage (bl_files b) (bl_spaces b) [] g ∅ ∅
                else mkPackage (bl_files b) (bl_spaces b) (fixed_files g) g consts (gn_sigImports g)), ds)
  end.
End package.
End codegen.
