(* ===== verification/CodegenTheorems.v ===== *)
(** * CodegenTheorems

    What the collision gates of the generator promise: the fields, arguments
    and rows of a generated query, and that the names a package declares are
    distinct. *)

From S2P Require Import Prelude Dialect Tree Runtime Template Render Demo Shape Diagnostics Lexical ScanDirectives ScanBodies GoPath Lines Catalog Codegen.

Section theorems.
Context {U : Unicode}.

(** ** Reports and claims *)

Definition is_error (d : Diagnostic) : Prop := DSeverity d = Error.

Lemma no_errors ds : Forall is_error ds -> HasErrors ds = false -> ds = [].
Proof. intros H. destruct H as [|d ds Hd _]; [done|]. cbn. by rewrite Hd. Qed.

(** New names, none of them fixed, that extend a set of names. *)
Definition fresh {V W : Type} (names : list bytes) (m : gmap bytes V) (m' : gmap bytes W) : Prop :=
  NoDup names /\ (forall n, n ∈ names -> n ∉ generatedPkgNames /\ m !! n = None) /\
  forall n, is_Some (m' !! n) <-> is_Some (m !! n) \/ n ∈ names.

Lemma fresh_nil {V : Type} (m : gmap bytes V) : fresh [] m m.
Proof. split_and!; [by apply list.NoDup_nil|set_solver|]. intros n. set_solver. Qed.

Lemma fresh_insert {V : Type} (m : gmap bytes V) (name : bytes) (v : V) : name ∉ generatedPkgNames -> m !! name = None -> fresh [name] m (<[name := v]> m).
Proof.
  intros Hn E. split_and!; [by apply list.NoDup_singleton|by intros n ->%list_elem_of_singleton|]. intros n.
  rewrite lookup_insert_is_Some, list_elem_of_singleton. destruct (decide (name = n)) as [->|]; naive_solver.
Qed.

Lemma fresh_trans {V W X : Type} (n1 n2 : list bytes) (m1 : gmap bytes V) (m2 : gmap bytes W) (m3 : gmap bytes X) :
  fresh n1 m1 m2 -> fresh n2 m2 m3 -> fresh (n1 ++ n2) m1 m3.
Proof.
  intros (N1 & A1 & T1) (N2 & A2 & T2). split_and!.
  - apply list.NoDup_app. split_and!; [done| |done]. intros n H1 H2. destruct (A2 n H2) as [_ E].
    destruct (T1 n) as [_ Hs]. destruct Hs as [x Hx]; [by right|]. by rewrite E in Hx.
  - intros n [Hn|Hn]%elem_of_app; [by apply A1|]. destruct (A2 n Hn) as [Hp E]. split; [done|].
    destruct (m1 !! n) eqn:E1'; [|done]. destruct (T1 n) as [_ Hs]. destruct Hs as [x Hx]; [left; eauto|]. by rewrite E in Hx.
  - intros n. rewrite T2, T1, elem_of_app. tauto.
Qed.

(** A step that claims the names, in a run that ends without reports. *)
Record claims (names : list bytes) (g g' : gen) : Prop := {
  cl_diags : exists ds, gn_diags g' = gn_diags g ++ ds /\ Forall is_error ds;
  cl_policies tn : is_Some (gn_policies g' !! tn) -> is_Some (gn_policies g !! tn) \/ tn ∉ generatedPkgNames;
  cl_consts c : is_Some (gn_consts g !! c) -> is_Some (gn_consts g' !! c);
  cl_clean : gn_diags g' = [] -> fresh names (gn_types g) (gn_types g');
}.

Lemma claims_before names g g' : claims names g g' -> gn_diags g' = [] -> gn_diags g = [].
Proof. intros [(ds & -> & _) _ _ _]. by intros [-> _]%app_eq_nil. Qed.

Lemma claims_neutral g g' ds : gn_diags g' = gn_diags g ++ ds -> Forall is_error ds ->
  gn_types g' = gn_types g -> gn_policies g' = gn_policies g -> gn_consts g' = gn_consts g -> claims [] g g'.
Proof.
  intros H1 H2 H3 H4 H5. split; [by exists ds|by rewrite H4; left|by rewrite H5|]. intros _. rewrite H3. apply fresh_nil.
Qed.

Lemma claims_refl g : claims [] g g.
Proof. by apply (claims_neutral g g []); [rewrite app_nil_r|..]. Qed.

Lemma claims_trans n1 n2 g1 g2 g3 : claims n1 g1 g2 -> claims n2 g2 g3 -> claims (n1 ++ n2) g1 g3.
Proof.
  intros H1 H2. pose proof (claims_before _ _ _ H2) as Hb. destruct H1 as [(d1 & E1 & F1) P1 K1 C1], H2 as [(d2 & E2 & F2) P2 K2 C2]. split.
  - exists (d1 ++ d2). by rewrite E2, E1, app_assoc, Forall_app.
  - intros tn [Ht|]%P2; [|by right]. by apply P1.
  - intros c Hc. by apply K2, K1.
  - intros Hd. eapply fresh_trans; [apply C1, Hb, Hd|apply C2, Hd].
Qed.

Lemma claims_then n1 g1 g2 g3 : claims n1 g1 g2 -> claims [] g2 g3 -> claims n1 g1 g3.
Proof. intros H1 H2. rewrite <- (app_nil_r n1). by eapply claims_trans. Qed.
Lemma claims_after n2 g1 g2 g3 : claims [] g1 g2 -> claims n2 g2 g3 -> claims n2 g1 g3.
Proof. by apply claims_trans. Qed.

Lemma claims_fold {A S} (f : S -> A -> S) (st : S -> gen) (names : A -> list bytes) :
  (forall s x, claims (names x) (st s) (st (f s x))) -> forall xs s, claims (flat_map names xs) (st s) (st (foldl f s xs)).
Proof. intros H xs. induction xs as [|x xs IH]; intros s; cbn; [apply claims_refl|]. eapply claims_trans; [apply H|apply IH]. Qed.

Lemma claims_fold0 {A S} (f : S -> A -> S) (st : S -> gen) :
  (forall s x, claims [] (st s) (st (f s x))) -> forall xs s, claims [] (st s) (st (foldl f s xs)).
Proof.
  intros H xs s. pose proof (claims_fold f st (fun _ => []) H xs s) as Hc.
  assert (flat_map (fun _ : A => @nil bytes) xs = []) as E; [|rewrite E in Hc; exact Hc]. clear. by induction xs.
Qed.

Lemma claims_report ds g : Forall is_error ds -> claims [] g (report ds g).
Proof. intros H. by apply (claims_neutral g _ ds). Qed.
Lemma claims_fail code span format args g : claims [] g (fail code span format args g).
Proof. apply claims_report. by repeat constructor. Qed.
Lemma fail_unclean code span format args g : gn_diags (fail code span format args g) <> [].
Proof. cbn. by intros [_ ?]%app_eq_nil. Qed.
Lemma report_unclean ds g : ds <> [] -> gn_diags (report ds g) <> [].
Proof. intros H. cbn. by intros [_ ?]%app_eq_nil. Qed.

Lemma claims_addImport imp g : claims [] g (addImport imp g).
Proof. destruct imp; cbn; [apply claims_refl|]. by apply (claims_neutral _ _ []); [rewrite app_nil_r|..]. Qed.

Section query.
Context (GoType : N -> option GoTypeRef) (style : Style) (inp : QueryInput).

Abbreviation q := (InQ inp).

(** ** Types *)

(** The Go type of a described type, without the package's state. *)
Definition go_type (tr : TypeRef) : option GoTypeRef :=
  match GoType (TyOID tr) with
  | Some ref => Some ref
  | None => if IsEnum tr then Some (mkGoType (enumGoName (TyName tr)) []) else None
  end.

Lemma resolveType_spec tr g : let '(res, g') := resolveType GoType inp tr g in
  claims [] g g' /\ gn_diags g' = gn_diags g /\
  match res with
  | Resolved ref => go_type tr = Some ref
  | NoMapping => go_type tr = None
  | Reported ds => ds <> [] /\ Forall is_error ds
  end.
Proof.
  unfold resolveType, go_type, IsEnum. destruct (GoType (TyOID tr)); [by split; [apply claims_refl|]|].
  destruct (TyExt tr) as [ext|]; [|by split; [apply claims_refl|]].
  destruct (bool_decide (TxKind ext = bs "e")); cbn [negb]; [|by split; [apply claims_refl|]].
  destruct (_ || _)%bool; [by split_and!; [apply claims_refl|..|repeat constructor]|].
  destruct (gn_enums g !! _) as [prev|].
  - destruct (_ || _)%bool; by split_and!; [apply claims_refl|..|repeat constructor].
  - split; [|done]. by apply (claims_neutral _ _ []); [cbn; rewrite app_nil_r|..].
Qed.

Lemma claimType_claims name g : claims [name] g (claimType inp name g).
Proof.
  unfold claimType. case_bool_decide as Hn.
  { destruct (claims_fail CodeInvalidColumnIdentifier (QHeaderSpan q)
      "query %s generates the name %q, which the generated package already declares at package level; rename the query (or its @choose/@order-by/@predicate parameter)"
      [AStr (QName q); AStr name] g) as [H1 H2 H3 _]. split; [done..|]. by intros ?%fail_unclean. }
  destruct (gn_types g !! name) eqn:E.
  - match goal with |- claims _ _ (fail ?c ?s ?f ?a _) => destruct (claims_fail c s f a g) as [H1 H2 H3 _] end.
    split; [done..|]. by intros ?%fail_unclean.
  - split; [exists []; by cbn; rewrite app_nil_r|by left|done|]. intros _.
    by apply fresh_insert.
Qed.

Lemma claim_items_claims g : claims (flat_map (item_names inp) (QItems q)) g (claim_items inp g).
Proof.
  unfold claim_items. pose proof (claims_fold (fun g n => claimType inp n g) id (fun n => [n]) (fun g n => claimType_claims n g)
    (flat_map (item_names inp) (QItems q)) g) as H. cbn in H.
  enough (flat_map (fun n => [n]) (flat_map (item_names inp) (QItems q)) = flat_map (item_names inp) (QItems q)) as E by (by rewrite E in H).
  generalize (flat_map (item_names inp) (QItems q)). induction l; cbn; congruence.
Qed.

Lemma check_method_claims g : claims [] g (check_method inp g) /\
  (gn_diags (check_method inp g) = [] -> QName q ∉ queriesMethodNames).
Proof.
  unfold check_method. case_bool_decide; [|by split; [apply claims_refl|]]. split; [apply claims_fail|]. by intros ?%fail_unclean.
Qed.

(** ** Fields and arguments *)

Definition seen_typ (name : bytes) (p : Param) (ref : GoTypeRef) : bytes :=
  let elem := if in_list style && bool_decide (name ∈ in_params q) then bs "[]" ++ GtName ref else GtName ref in
  let typ := if nullableParam inp name then option_of elem else elem in
  if POptional p then omittable_of typ else typ.

(** The type of a parameter: the mapped one, wrapped, or that of its literal. *)
Definition param_typ (name : bytes) (p : Param) : option bytes :=
  match InParamTypes inp !! name with
  | Some tr => seen_typ name p <$> go_type tr
  | None => valueAtomGoType (QGuardAtoms q) name
  end.

(** The parameters that are carried by a field or an argument of the method. *)
Definition carried (name : bytes) : option Param :=
  if tree_param inp name then None else p ← QParams q !! name; if filterOnlyParam p then None else Some p.

Definition param_field (name : bytes) : option (bytes * bytes) :=
  p ← carried name; match PPolicy p with [] => t ← param_typ name p; Some (GoName name, t) | _ => None end.
Definition param_arg (name : bytes) : option requiredArg :=
  p ← carried name;
  match PPolicy p with
  | [] => None
  | policy =>
      t ← param_typ name p;
      Some (mkRequired (argIdent name (QName q)) (GoName name) (convertExpr t (argIdent name (QName q))) (bs "policy " ++ policy) name)
  end.
Definition list_of {A} (o : option A) : list A := match o with Some x => [x] | None => [] end.

Definition view (fs : list field) : list (bytes * bytes) := (fun f => (fd_name f, fd_typ f)) <$> fs.

Definition fields_ok (ps : parts) : Prop :=
  NoDup (fd_name <$> ps_fields ps) /\ forall n, is_Some (ps_names ps !! n) <-> n ∈ fd_name <$> ps_fields ps.

(** A step that adds the fields and arguments, in a run without reports. *)
Record adds (fs : list (bytes * bytes)) (ras : list requiredArg) (st st' : parts * gen) : Prop := {
  ad_claims : claims [] st.2 st'.2;
  ad_clean : gn_diags st'.2 = [] ->
    view (ps_fields st'.1) = view (ps_fields st.1) ++ fs /\ ps_required st'.1 = ps_required st.1 ++ ras /\
    (fields_ok st.1 -> fields_ok st'.1);
}.

Lemma adds_nothing st g' : claims [] st.2 g' -> adds [] [] st (st.1, g').
Proof. intros H. split; [done|]. intros _. by rewrite !app_nil_r. Qed.

Lemma adds_unclean fs ras st st' : claims [] st.2 st'.2 -> gn_diags st'.2 <> [] -> adds fs ras st st'.
Proof. intros H1 H2. by split. Qed.

Lemma adds_trans f1 r1 f2 r2 s1 s2 s3 : adds f1 r1 s1 s2 -> adds f2 r2 s2 s3 -> adds (f1 ++ f2) (r1 ++ r2) s1 s3.
Proof.
  intros [C1 D1] [C2 D2]. split; [by eapply claims_then|]. intros Hd.
  destruct (D2 Hd) as (-> & -> & O2), (D1 (claims_before _ _ _ C2 Hd)) as (-> & -> & O1). rewrite !app_assoc. auto.
Qed.

Lemma adds_before f1 r1 f2 r2 s1 s2 s3 : claims [] s1.2 s2.2 -> s1.1 = s2.1 -> adds f2 r2 s2 s3 -> f1 = f2 -> r1 = r2 -> adds f1 r1 s1 s3.
Proof.
  intros C E [C2 D2] -> ->. split; [by eapply claims_then|]. by rewrite E.
Qed.

Lemma claimField_adds src f st : adds [(fd_name f, fd_typ f)] [] st (claimField inp src f st).
Proof.
  destruct st as [ps g]. unfold claimField. destruct (ps_names ps !! fd_name f) eqn:E.
  - apply adds_unclean; [apply claims_fail|apply fail_unclean].
  - split; [apply claims_refl|]. intros _. cbn. unfold view. rewrite fmap_app, app_nil_r. split_and!; [done..|].
    intros [Hn Hd]. unfold fields_ok. cbn. rewrite fmap_app. split.
    + apply list.NoDup_app. split_and!; [done| |by apply list.NoDup_singleton]. intros n Hin Hn'.
      cbn in Hn'. apply list_elem_of_singleton in Hn' as ->. apply Hd in Hin. rewrite E in Hin. by destruct Hin.
    + intros n. rewrite elem_of_app, <- Hd, lookup_insert_is_Some. cbn. rewrite list_elem_of_singleton.
      destruct (decide (fd_name f = n)); naive_solver.
Qed.

Lemma seen_type_spec name p ref g : let '(typ, _, g') := seen_type style inp name p ref g in
  typ = seen_typ name p ref /\ claims [] g g'.
Proof.
  unfold seen_type, seen_typ. destruct (in_list style && bool_decide _); destruct (nullableParam inp name), (POptional p);
    (split; [done|]); repeat (eapply claims_after; [|apply claims_addImport]); apply claims_refl.
Qed.

Lemma param_type_spec name p g : let '(o, g') := param_type GoType style inp name p g in
  claims [] g g' /\ match o with Some (typ, _, _) => param_typ name p = Some typ | None => gn_diags g' <> [] end.
Proof.
  unfold param_type, param_typ. destruct (InParamTypes inp !! name) as [tr|].
  - pose proof (resolveType_spec tr g) as H. destruct (resolveType GoType inp tr g) as [res g1]. destruct H as (C & Ed & H).
    destruct res as [ref| |ds].
    + pose proof (seen_type_spec name p ref g1) as Hs. destruct (seen_type _ _ _ _ _ _) as [[typ c] g2]. destruct Hs as [-> C2].
      rewrite H. split; [by eapply claims_after|done].
    + split; [|apply fail_unclean]. eapply claims_after; [done|apply claims_fail].
    + destruct H as [Hn He]. split; [|by apply report_unclean]. eapply claims_after; [done|by apply claims_report].
  - destruct (valueAtomGoType _ _); [split; [apply claims_refl|done]|]. split; [apply claims_fail|apply fail_unclean].
Qed.

Lemma policy_arg_adds name typ imp policy st :
  adds [] [mkRequired (argIdent name (QName q)) (GoName name) (convertExpr typ (argIdent name (QName q))) (bs "policy " ++ policy) name]
    st (policy_arg inp name typ imp policy st).
Proof.
  destruct st as [ps g]. unfold policy_arg. case_bool_decide as Hn; [apply adds_unclean; [apply claims_fail|apply fail_unclean]|].
  assert (forall pt, adds [] [mkRequired (argIdent name (QName q)) (GoName name) (convertExpr typ (argIdent name (QName q))) (bs "policy " ++ policy) name]
    (ps, g) (add_required (mkRequired (argIdent name (QName q)) (GoName name) (convertExpr typ (argIdent name (QName q))) (bs "policy " ++ policy) name) ps,
      with_policies (<[GoName name := pt]> (gn_policies g)) g)) as Hadd.
  { intros pt. split.
    - split; [exists []; cbn; by rewrite app_nil_r| |done|].
      + intros tn. cbn. rewrite lookup_insert_is_Some. intros [<-|[_ H]]; [by right|by left].
      + intros _. apply fresh_nil.
    - intros _. cbn. by rewrite app_nil_r. }
  destruct (gn_policies g !! _) as [pt|]; [|apply Hadd]. destruct (_ || _)%bool; [|apply Hadd].
  apply adds_unclean; [apply claims_fail|apply fail_unclean].
Qed.

Lemma param_step_adds st name st' : param_step GoType style inp st name = Ok st' ->
  adds (list_of (param_field name)) (list_of (param_arg name)) st st' /\
  (gn_diags st'.2 = [] -> forall p, carried name = Some p -> is_Some (param_typ name p)).
Proof.
  unfold param_step, param_field, param_arg, carried. destruct (tree_param inp name).
  { intros [= <-]. split; [|done]. destruct st. apply adds_nothing, claims_refl. }
  unfold param_of. destruct (QParams q !! name) as [p|]; [|done]. cbn. destruct (filterOnlyParam p).
  { intros [= <-]. split; [|done]. destruct st. apply adds_nothing, claims_refl. }
  destruct st as [ps g]. pose proof (param_type_spec name p g) as H. destruct (param_type _ _ _ _ _ _) as [o g1]. destruct H as [C H].
  destruct o as [[[typ comment] imp]|].
  - intros [= <-]. split; [|by intros _ ? [= <-]; rewrite H].
    destruct (PPolicy p) as [|b l] eqn:Ep; cbn; rewrite Ep, H; cbn.
    + pose proof (claimField_adds name (mkField (GoName name) typ comment []) (ps, g1)) as Hc. eapply (adds_before _ _ _ _ _ (ps, g1)); [exact C|done|exact Hc|done..].
    + pose proof (policy_arg_adds name typ imp (b :: l) (ps, g1)) as Hc. eapply (adds_before _ _ _ _ _ (ps, g1)); [exact C|done|exact Hc|done..].
  - intros [= <-]. split; [|done]. apply adds_unclean; done.
Qed.

Lemma params_adds names : forall st st', rfold (param_step GoType style inp) st names = Ok st' ->
  adds (flat_map (fun n => list_of (param_field n)) names) (flat_map (fun n => list_of (param_arg n)) names) st st' /\
  (gn_diags st'.2 = [] -> forall n p, n ∈ names -> carried n = Some p -> is_Some (param_typ n p)).
Proof.
  induction names as [|n names IH]; intros st st'; cbn.
  - intros [= <-]. split; [|set_solver]. destruct st. apply adds_nothing, claims_refl.
  - intros (s1 & H1 & H2)%rbind_ok. apply param_step_adds in H1 as [A1 T1]. apply IH in H2 as [A2 T2].
    split; [by eapply adds_trans|]. intros Hd m p [->|Hm]%elem_of_cons; [|by apply T2].
    apply T1. eapply claims_before; [apply A2|done].
Qed.

Definition choose_field (c : Choose) : bytes * bytes := (GoName (ChParam c), enum_name inp c).
Definition order_field (o : OrderBy) : bytes * bytes := (GoName (ObParam o), bs "[]" ++ order_name inp o).
Definition tree_carrier (f : FilterTree) : list (bytes * bytes) * list requiredArg :=
  if FtRequired f then
    let ident := argIdent (FtParam f) (QName q) in
    ([], [mkRequired ident (bs "runtime.Tree") ident (bs "@filter-tree!; " ++ unscoped_name inp ++ bs "() opts out") (FtParam f)])
  else ([(GoName (FtParam f), bs "runtime.Tree")], []).
Definition tree_carriers : list (bytes * bytes) * list requiredArg :=
  match filter_tree inp with Some f => tree_carrier f | None => ([], []) end.

Lemma adds_fold {A} (f : parts * gen -> A -> parts * gen) (x : A -> bytes * bytes) :
  (forall st a, adds [x a] [] st (f st a)) -> forall l st, adds (x <$> l) [] st (foldl f st l).
Proof.
  intros H l. induction l as [|a l IH]; intros st; cbn; [destruct st; apply adds_nothing, claims_refl|].
  apply (adds_trans [x a] [] _ [] _ (f st a)); [apply H|apply IH].
Qed.

Lemma choose_step_adds st c : adds [choose_field c] [] st (choose_step inp st c).
Proof. unfold choose_step. match goal with |- adds _ _ _ (claimField _ ?s ?f _) => exact (claimField_adds s f st) end. Qed.
Lemma order_step_adds st o : adds [order_field o] [] st (order_step inp st o).
Proof. unfold order_step. match goal with |- adds _ _ _ (claimField _ ?s ?f _) => exact (claimField_adds s f st) end. Qed.

Lemma tree_step_adds st : adds tree_carriers.1 tree_carriers.2 st (tree_step inp st).
Proof.
  unfold tree_carriers, tree_step. destruct (filter_tree inp) as [f|]; [|destruct st; apply adds_nothing, claims_refl].
  unfold tree_carrier. destruct (FtRequired f).
  - destruct st as [ps g]. split; [by apply (claims_neutral _ _ []); [cbn; rewrite app_nil_r|..]|]. intros _. cbn.
    by rewrite app_nil_r.
  - pose proof (claimField_adds (bs "@filter-tree(" ++ FtParam f ++ bs ")")
      (mkField (GoName (FtParam f)) (bs "runtime.Tree") (bs " // zero Tree renders TRUE") []) st) as H. exact H.
Qed.

(** The fields and the arguments of the whole params struct. *)
Definition struct_fields : list (bytes * bytes) :=
  flat_map (fun n => list_of (param_field n)) (QParamOrder q) ++ (choose_field <$> chooses inp)
  ++ (order_field <$> orders inp) ++ tree_carriers.1.
Definition method_args : list requiredArg := flat_map (fun n => list_of (param_arg n)) (QParamOrder q) ++ tree_carriers.2.

Lemma struct_adds st st' : rfold (param_step GoType style inp) st (QParamOrder q) = Ok st' ->
  adds struct_fields method_args st (tree_step inp (foldl (order_step inp) (foldl (choose_step inp) st' (chooses inp)) (orders inp))) /\
  (gn_diags (tree_step inp (foldl (order_step inp) (foldl (choose_step inp) st' (chooses inp)) (orders inp))).2 = [] ->
   forall n p, n ∈ QParamOrder q -> carried n = Some p -> is_Some (param_typ n p)).
Proof.
  intros [A1 T]%params_adds.
  assert (adds ((choose_field <$> chooses inp) ++ (order_field <$> orders inp) ++ tree_carriers.1) tree_carriers.2 st'
    (tree_step inp (foldl (order_step inp) (foldl (choose_step inp) st' (chooses inp)) (orders inp)))) as A2.
  { eapply (adds_trans _ []); [apply (adds_fold (choose_step inp)), choose_step_adds|].
    eapply (adds_trans _ []); [apply (adds_fold (order_step inp)), order_step_adds|apply tree_step_adds]. }
  split; [by eapply adds_trans|]. intros Hd. apply T. eapply claims_before; [apply A2|done].
Qed.

(** ** The names of the arguments *)

Lemma arg_step_spec ras : forall st, claims [] st.2 (foldl (arg_step inp) st ras).2 /\
  (gn_diags (foldl (arg_step inp) st ras).2 = [] ->
   NoDup (ra_name <$> ras) /\ forall n, n ∈ ra_name <$> ras -> n ∉ fixedSigNames /\ st.1 !! n = None).
Proof.
  induction ras as [|ra ras IH]; intros [owner g]; cbn [foldl fmap list_fmap].
  { split; [apply claims_refl|]. intros _. split; [constructor|set_solver]. }
  assert (claims [] g (arg_step inp (owner, g) ra).2 /\ (gn_diags (arg_step inp (owner, g) ra).2 = [] ->
    ra_name ra ∉ fixedSigNames /\ owner !! ra_name ra = None /\ (arg_step inp (owner, g) ra).1 = <[ra_name ra := ra_param ra]> owner)) as [C1 D1].
  { unfold arg_step. case_bool_decide; [split; [by apply claims_report; repeat constructor|by intros ?%report_unclean]|].
    destruct (owner !! ra_name ra); [split; [by apply claims_report; repeat constructor|by intros ?%report_unclean]|].
    split; [apply claims_refl|done]. }
  destruct (IH (arg_step inp (owner, g) ra)) as [C2 D2]. split; [by eapply claims_then|]. intros Hd.
  destruct (D2 Hd) as [N2 A2], (D1 (claims_before _ _ _ C2 Hd)) as (F & O & E). rewrite E in A2. split.
  - apply list.NoDup_cons. split; [|done]. intros [_ Hl]%A2. by rewrite lookup_insert_eq in Hl.
  - intros n [->|Hn]%elem_of_cons; [done|]. destruct (A2 n Hn) as [H1 H2%lookup_insert_None]. naive_solver.
Qed.

(** ** Rows *)

Definition row_field (icol : nat * ColumnDesc) : option field :=
  ref ← go_type (CdType icol.2);
  let nullable := default false (InNullable inp !! icol.1) in
  Some (mkField (GoName (CdName icol.2)) (if nullable then option_of (GtName ref) else GtName ref) []
          (if nullable then GtName ref else [])).

Definition rows_ok (rw : rows) : Prop :=
  NoDup (fd_name <$> rw_fields rw) /\ (forall n, is_Some (rw_names rw !! n) <-> n ∈ fd_name <$> rw_fields rw) /\
  Forall (fun f => IsIdentifier (fd_name f) = true /\ IsExported (fd_name f) = true) (rw_fields rw).

Lemma row_step_spec rw g icol : claims [] g (row_step GoType inp (rw, g) icol).2 /\
  (gn_diags (row_step GoType inp (rw, g) icol).2 = [] -> exists f, row_field icol = Some f /\
     rw_fields (row_step GoType inp (rw, g) icol).1 = rw_fields rw ++ [f] /\ (rows_ok rw -> rows_ok (row_step GoType inp (rw, g) icol).1)).
Proof.
  destruct icol as [i col]. unfold row_step, row_field. cbn [fst snd].
  pose proof (resolveType_spec (CdType col) g) as H. destruct (resolveType GoType inp (CdType col) g) as [res g1]. destruct H as (C & _ & H).
  destruct res as [ref| |ds].
  - rewrite H. cbn [mbind option_bind]. set (nullable := default false _).
    assert (claims [] g (if nullable then addImport optionalImport (addImport (GtImport ref) g1) else addImport (GtImport ref) g1)) as C2.
    { eapply claims_after; [done|]. destruct nullable; repeat (eapply claims_after; [|apply claims_addImport]); apply claims_refl. }
    set (g2 := if nullable then _ else _) in *.
    destruct (_ || _)%bool eqn:Ei.
    { split; [eapply claims_after; [done|apply claims_fail]|by intros ?%fail_unclean]. }
    apply orb_false_iff in Ei as [E1%negb_false_iff E2%negb_false_iff].
    destruct (rw_names rw !! _) eqn:En.
    { split; [eapply claims_after; [done|apply claims_fail]|by intros ?%fail_unclean]. }
    split; [done|]. intros _. eexists. split; [done|]. split; [done|]. intros (Hn & Hd & Hf). unfold rows_ok. cbn.
    rewrite fmap_app. cbn. split_and!.
    + apply list.NoDup_app. split_and!; [done| |by apply list.NoDup_singleton]. intros n Hin Hn'%list_elem_of_singleton. subst n.
      apply Hd in Hin. rewrite En in Hin. by destruct Hin.
    + intros n. rewrite elem_of_app, <- Hd, lookup_insert_is_Some, list_elem_of_singleton.
      destruct (decide (GoName (CdName col) = n)); naive_solver.
    + apply Forall_app. split; [done|]. by repeat constructor.
  - split; [eapply claims_after; [done|apply claims_fail]|by intros ?%fail_unclean].
  - destruct H as [Hn He]. split; [eapply claims_after; [done|by apply claims_report]|by intros ?%report_unclean].
Qed.

Lemma rows_spec cols : forall rw g, claims [] g (foldl (row_step GoType inp) (rw, g) cols).2 /\
  (gn_diags (foldl (row_step GoType inp) (rw, g) cols).2 = [] -> exists fs, Forall2 (fun c f => row_field c = Some f) cols fs /\
     rw_fields (foldl (row_step GoType inp) (rw, g) cols).1 = rw_fields rw ++ fs /\
     (rows_ok rw -> rows_ok (foldl (row_step GoType inp) (rw, g) cols).1)).
Proof.
  induction cols as [|c cols IH]; intros rw g; cbn [foldl].
  { split; [apply claims_refl|]. intros _. exists []. by rewrite app_nil_r. }
  destruct (row_step_spec rw g c) as [C1 D1]. destruct (row_step GoType inp (rw, g) c) as [rw1 g1].
  destruct (IH rw1 g1) as [C2 D2]. split; [by eapply claims_then|]. intros Hd.
  destruct (D2 Hd) as (fs & F2 & E2 & O2), (D1 (claims_before _ _ _ C2 Hd)) as (f & F1 & E1 & O1). cbn in *.
  exists (f :: fs). split; [by constructor|]. rewrite E2, E1, <- app_assoc. auto.
Qed.

Lemma emit_rows_spec g : claims (if hasRows inp then [row_name inp] else []) g (emit_rows GoType inp g).2 /\
  (gn_diags (emit_rows GoType inp g).2 = [] ->
   Forall2 (fun c f => row_field c = Some f) (if hasRows inp then imap pair (InColumns inp) else []) (emit_rows GoType inp g).1 /\
   NoDup (fd_name <$> (emit_rows GoType inp g).1) /\
   Forall (fun f => IsIdentifier (fd_name f) = true /\ IsExported (fd_name f) = true) (emit_rows GoType inp g).1).
Proof.
  unfold emit_rows. destruct (hasRows inp); [|split; [apply claims_refl|by intros _; split_and!; constructor]].
  destruct (rows_spec (imap pair (InColumns inp)) (mkRows [] ∅) (claimType inp (row_name inp) g)) as [C D].
  destruct (foldl _ _ _) as [rw g1]. cbn in *. split; [eapply claims_then; [apply claimType_claims|done]|]. intros Hd.
  assert (rows_ok (mkRows [] ∅)) as H0.
  { split_and!; cbn; [constructor| |constructor]. intros n. rewrite lookup_empty. split; [by intros []|set_solver]. }
  destruct (D Hd) as (fs & F & E & O). destruct (O H0) as (O1 & _ & O3). by rewrite E in *.
Qed.

(** ** The query *)

Lemma claims_late g : claims [] g (late_imports style inp g).
Proof.
  assert (forall g i, claims [] g (addSigImport i g)) as Hsig.
  { intros g0 i. by apply (claims_neutral _ _ []); [cbn; rewrite app_nil_r|..]. }
  unfold late_imports. set (g1 := match chooses inp with [] => _ | _ => _ end). set (g2 := addImport (bs "time") g1).
  assert (claims [] g g1) as C1.
  { unfold g1. destruct (chooses inp); [destruct (orders inp)|]; try apply claims_refl; apply claims_addImport. }
  assert (claims [] g g2) as C2 by (eapply claims_then; [exact C1|apply claims_addImport]). clearbody g2. clear g1 C1.
  destruct (QAnnotation q); try exact C2.
  eapply claims_then; [exact C2|]. eapply claims_then; [apply (claims_addImport optionalImport)|].
  eapply claims_then; [apply (Hsig _ optionalImport)|]. eapply claims_then; [apply (claims_addImport (bs "errors"))|].
  destruct style; apply claims_addImport.
Qed.

Lemma claims_register g : claims [] g (register_consts inp g) /\ forall c, c ∈ query_consts inp -> is_Some (gn_consts (register_consts inp g) !! c).
Proof.
  unfold register_consts. cbn.
  assert (forall (cs : list bytes) (m : gmap bytes bytes) (c : bytes), is_Some (foldl (fun m c => <[c := QName q]> m) m cs !! c) <-> c ∈ cs \/ is_Some (m !! c)) as H.
  { induction cs as [|c' cs IH]; intros m c; cbn; [set_solver|]. rewrite IH, lookup_insert_is_Some, elem_of_cons.
    destruct (decide (c' = c)); naive_solver. }
  split; [|intros c Hc; apply H; by left]. split; [exists []; cbn; by rewrite app_nil_r|by left|intros c Hc; apply H; by right|].
  intros _. apply fresh_nil.
Qed.

Lemma constructor_param_claims pr st n : claims [] st.2 (constructor_param GoType inp pr st n).2.
Proof.
  destruct st as [[params ok] g]. unfold constructor_param. destruct (InParamTypes inp !! n) as [tr|]; [|apply claims_fail].
  pose proof (resolveType_spec tr g) as H. destruct (resolveType GoType inp tr g) as [res g1]. destruct H as (C & _ & H).
  eapply claims_after; [exact C|]. destruct res; [apply claims_addImport|apply claims_fail|apply claims_report, H].
Qed.

Lemma constructors_claims g : claims [] g (writeFilterConstructors GoType inp g).2.
Proof.
  unfold writeFilterConstructors. destruct (filter_tree inp) as [f|]; [|apply claims_refl].
  refine (claims_fold0 (constructor_step GoType inp) snd _ (imap pair (FtPredicates f)) ([], g)). intros [cts g0] [i pr]. unfold constructor_step.
  pose proof (claims_fold0 (constructor_param GoType inp pr) snd (fun s n => constructor_param_claims pr s n) (PrParams pr) ([], true, g0)) as H.
  destruct (foldl _ _ _) as [[params ok] g1]. destruct ok; exact H.
Qed.

Definition query_types : list bytes :=
  flat_map (item_names inp) (QItems q) ++ [params_name inp] ++ (if hasRows inp then [row_name inp] else []).

(** What is rendered for the query. *)
Record emitted (Quote : bytes -> bytes) (caps : TreeCaps) (e : Emitted) : Prop := {
  eo_query : em_query e = q;
  eo_fields : view (em_fields e) = struct_fields;
  eo_field_names : NoDup (fd_name <$> em_fields e);
  eo_required : em_required e = method_args;
  eo_arg_names : NoDup (ra_name <$> em_required e);
  eo_rows : Forall2 (fun c f => row_field c = Some f) (if hasRows inp then imap pair (InColumns inp) else []) (em_rows e);
  eo_row_names : NoDup (fd_name <$> em_rows e);
  eo_row_valid : Forall (fun f => IsIdentifier (fd_name f) = true /\ IsExported (fd_name f) = true) (em_rows e);
  eo_preamble : writePreamble style inp Quote caps (em_required e) = Ok (em_preamble e);
  eo_typed n p : n ∈ QParamOrder q -> carried n = Some p -> is_Some (param_typ n p);
}.

Lemma emit_query_spec Quote caps dt g o g' : emit GoType style inp Quote caps dt g = Ok (o, g') ->
  claims query_types g g' /\
  (gn_diags g' = [] -> QName q ∉ queriesMethodNames /\ (forall c, c ∈ query_consts inp -> is_Some (gn_consts g' !! c)) /\
    exists e, o = Some e /\ emitted Quote caps e).
Proof.
  unfold emit. set (g0 := with_imports _ g).
  assert (claims [] g g0) as C0 by (by apply (claims_neutral _ _ []); [cbn; rewrite app_nil_r|..]). clearbody g0.
  destruct (check_method_claims g0) as [C1 M]. set (g1 := check_method inp g0) in *. clearbody g1.
  pose proof (claims_trans _ _ _ _ _ (claim_items_claims g1) (claimType_claims (params_name inp) _)) as C2.
  set (g2 := claimType inp _ _) in *. clearbody g2. intros (st & Hps & H)%rbind_ok.
  destruct (struct_adds _ _ Hps) as [[C3 A] T]. clear Hps. set (st3 := tree_step inp _) in *. clearbody st3. destruct st3 as [ps g3].
  cbn [fst snd] in *. destruct (arg_step_spec (ps_required ps) (∅, g3)) as [C4 N4]. destruct (foldl (arg_step inp) _ _) as [owner g4].
  destruct (emit_rows_spec g4) as [C5 R]. destruct (emit_rows GoType inp g4) as [rowFields g5]. cbn [fst snd] in *.
  assert (claims query_types g g5) as C.
  { eapply claims_after; [exact C0|]. eapply claims_after; [exact C1|]. unfold query_types. rewrite app_assoc.
    eapply claims_trans; [exact C2|]. eapply claims_after; [exact C3|]. eapply claims_after; [exact C4|exact C5]. }
  destruct (HasErrors (gn_diags g5)) eqn:E5.
  { injection H as <- <-. split; [done|]. intros Hd. by rewrite Hd in E5. }
  pose proof (claims_late g5) as C6. set (g6 := late_imports style inp g5) in *. clearbody g6.
  destruct (claims_register g6) as [C7 K7]. set (g7 := register_consts inp g6) in *. clearbody g7.
  pose proof (constructors_claims g7) as C8. destruct (writeFilterConstructors GoType inp g7) as [cts g8]. cbn [snd] in *.
  assert (claims [] g5 g8) as C58 by (eapply claims_after; [exact C6|]; eapply claims_after; [exact C7|exact C8]).
  assert (claims query_types g g8) as Cg by (eapply claims_then; [exact C|exact C58]).
  destruct (HasErrors (gn_diags g8)) eqn:E8.
  { injection H as <- <-. split; [done|]. intros Hd. by rewrite Hd in E8. }
  apply rbind_ok in H as (pa & Hpa & H). injection H as <- <-. split; [done|]. intros Hd.
  pose proof (claims_before _ _ _ C58 Hd) as D5. pose proof (claims_before _ _ _ C5 D5) as D4. pose proof (claims_before _ _ _ C4 D4) as D3.
  destruct (A D3) as (V & Q & O), (R D5) as (R1 & R2 & R3), (N4 D4) as [N _]. cbn in V, Q. split_and!.
  - apply M. eapply claims_before; [exact C2|]. by eapply claims_before.
  - intros c Hc. apply (cl_consts _ _ _ C8), K7, Hc.
  - eexists. split; [done|]. split; cbn; try done.
    + apply O. split; cbn; [constructor|]. intros n. rewrite lookup_empty. split; [by intros []|set_solver].
    + exact (T D3).
Qed.

(** ** The values of the binds *)

Lemma GoName_nonempty name : GoName name <> [].
Proof.
  unfold GoName. destruct (concat _) as [|b l]; [done|]. by destruct (IsLetter _).
Qed.

Lemma EncodeRune_nonempty r : EncodeRune r <> [].
Proof. unfold EncodeRune. repeat (case_match; try done). Qed.

Lemma lowerCamel_nonempty name : name <> [] -> lowerCamel name <> [].
Proof.
  destruct name as [|b name]; [done|]. intros _. unfold lowerCamel, runes. cbn [length runes_loop].
  set (r := (DecodeRune (b :: name)).1). generalize (runes_loop (length name) (drop (DecodeRune (b :: name)).2 (b :: name))).
  intros rs. set (n := if _ : bool then _ else _). destruct n as [|n]; unfold encode; cbn; by intros [?%EncodeRune_nonempty _]%app_eq_nil.
Qed.

Lemma argIdent_nonempty p qn : argIdent p qn <> [].
Proof.
  unfold argIdent. pose proof (lowerCamel_nonempty _ (GoName_nonempty p)) as H. destruct (_ || _)%bool; [|done]. by destruct (lowerCamel _).
Qed.

Lemma convertExpr_nonempty t i : convertExpr t i <> [].
Proof. unfold convertExpr. destruct (HasPrefix _ _); [done|]. by destruct t. Qed.

Lemma requiredArgExprs_lookup ras name : requiredArgExprs ras !! name = ra_expr <$> list.last (base.filter (fun ra => ra_param ra = name) ras).
Proof.
  unfold requiredArgExprs. induction ras as [|ra ras IH] using rev_ind; [done|]. rewrite foldl_app, list.filter_app. cbn [foldl].
  rewrite list.filter_cons, list.filter_nil. destruct (decide (ra_param ra = name)) as [<-|Hne].
  - by rewrite lookup_insert_eq, last_snoc.
  - by rewrite lookup_insert_ne, app_nil_r.
Qed.

Lemma arg_expr_some ras name e : e <> [] -> (exists ra, ra ∈ ras /\ ra_param ra = name) ->
  (forall ra, ra ∈ ras -> ra_param ra = name -> ra_expr ra = e) -> arg_expr ras name = Some e.
Proof.
  intros He (ra & Hra & Hp) H. unfold arg_expr. rewrite requiredArgExprs_lookup.
  destruct (list.last _) as [r|] eqn:El.
  - apply list.last_Some_elem_of, list_elem_of_filter in El as [H1 H2]. cbn. rewrite (H r H2 H1). by destruct e.
  - apply last_None in El. assert (ra ∈ base.filter (fun ra => ra_param ra = name) ras) as Hf by (by apply list_elem_of_filter).
    rewrite El in Hf. set_solver.
Qed.

Lemma arg_expr_none ras name : (forall ra, ra ∈ ras -> ra_param ra <> name) -> arg_expr ras name = None.
Proof.
  intros H. unfold arg_expr. rewrite requiredArgExprs_lookup.
  destruct (list.last _) as [r|] eqn:El; [|done]. apply list.last_Some_elem_of, list_elem_of_filter in El as [H1 H2].
  by destruct (H r H2).
Qed.

Lemma elem_of_list_of {A} (x : A) o : x ∈ list_of o <-> o = Some x.
Proof. destruct o; cbn; [rewrite list_elem_of_singleton|]; naive_solver set_solver. Qed.

Lemma elem_of_flat {A B} (f : A -> option B) l x : x ∈ flat_map (fun a => list_of (f a)) l <-> exists a, a ∈ l /\ f a = Some x.
Proof.
  rewrite list_elem_of_In, in_flat_map. setoid_rewrite <- list_elem_of_In. by setoid_rewrite elem_of_list_of.
Qed.

Lemma param_arg_param name ra : param_arg name = Some ra -> ra_param ra = name /\ tree_param inp name = false /\ ra_expr ra <> [].
Proof.
  unfold param_arg, carried. destruct (tree_param inp name); [done|]. destruct (QParams q !! name) as [p|]; [|done]. cbn.
  destruct (filterOnlyParam p); [done|]. cbn. destruct (PPolicy p); [done|]. destruct (param_typ name p); [|done]. cbn.
  intros [= <-]. cbn. split_and!; [done..|apply convertExpr_nonempty].
Qed.

Lemma method_args_param ra : ra ∈ method_args -> (exists name, name ∈ QParamOrder q /\ param_arg name = Some ra) \/
  exists f, filter_tree inp = Some f /\ FtRequired f = true /\ ra_param ra = FtParam f /\ ra_name ra = argIdent (FtParam f) (QName q)
    /\ ra_expr ra = argIdent (FtParam f) (QName q) /\ ra_typ ra = bs "runtime.Tree".
Proof.
  unfold method_args. rewrite elem_of_app, elem_of_flat. intros [H|H]; [by left|right]. unfold tree_carriers in H.
  destruct (filter_tree inp) as [f|]; [|set_solver]. unfold tree_carrier in H. destruct (FtRequired f) eqn:E; [|set_solver].
  cbn in H. apply list_elem_of_singleton in H as ->. by exists f.
Qed.

(** How a value of its wrapped type is read. *)
Definition accessor (optional nullable : bool) : bytes :=
  match optional, nullable with
  | true, true => bs ".OrZero().UnwrapAsPtr()"
  | true, false => bs ".Ptr()"
  | false, true => bs ".UnwrapAsPtr()"
  | false, false => []
  end.
Definition wrapped (optional nullable : bool) (elem : bytes) : bytes :=
  let t := if nullable then option_of elem else elem in if optional then omittable_of t else t.

(** What stands for a parameter in the list of values. *)
Definition carrier (e : Emitted) (name v : bytes) : Prop :=
  if tree_param inp name then v = bs "nil /* tree control */"
  else exists p, QParams q !! name = Some p /\
    if filterOnlyParam p then v = bs "nil /* predicate arg */"
    else match PPolicy p with
         | [] =>
             exists f, f ∈ em_fields e /\ fd_name f = GoName name /\
               v = arg_dot name ++ accessor (POptional p) (nullableParam inp name) /\
               forall tr, InParamTypes inp !! name = Some tr -> exists elem, fd_typ f = wrapped (POptional p) (nullableParam inp name) elem
         | _ =>
             exists ra, ra ∈ em_required e /\ ra_param ra = name /\ ra_typ ra = GoName name /\ v = ra_expr ra /\
               exists t, param_typ name p = Some t /\ v = convertExpr t (ra_name ra)
         end.

Lemma view_elem fs n t : (n, t) ∈ view fs -> exists f, f ∈ fs /\ fd_name f = n /\ fd_typ f = t.
Proof. intros (f & [= -> ->] & H)%list_elem_of_fmap. by exists f. Qed.

Lemma bind_carrier Quote caps e name v : emitted Quote caps e -> name ∈ QParamOrder q ->
  bind_value inp (em_required e) name = Ok v -> carrier e name v.
Proof.
  intros He Hn. unfold bind_value, carrier. destruct (tree_param inp name) eqn:Et; [by intros [= <-]|].
  unfold param_of. destruct (QParams q !! name) as [p|] eqn:Ep; [|done]. cbn [rbind]. intros H. exists p. split; [done|]. revert H.
  destruct (filterOnlyParam p) eqn:Ef; [by intros [= <-]|].
  assert (carried name = Some p) as Hc by (unfold carried; rewrite Et, Ep; cbn; by rewrite Ef).
  destruct (eo_typed _ _ _ He _ _ Hn Hc) as [t Ht]. rewrite (eo_required _ _ _ He).
  destruct (PPolicy p) as [|b pol] eqn:Epol.
  - rewrite arg_expr_none.
    2:{ intros ra [(m & _ & Hm)|(f & Hf & _ & Hp & _)]%method_args_param Hra.
        - destruct (param_arg_param _ _ Hm) as (E & _ & _). rewrite Hra in E. subst m. unfold param_arg in Hm. rewrite Hc in Hm. cbn in Hm. by rewrite Epol in Hm.
        - unfold tree_param in Et. rewrite Hf in Et. apply bool_decide_eq_false in Et. congruence. }
    intros [= <-].
    assert ((GoName name, t) ∈ view (em_fields e)) as (f & Hf & E1 & E2)%view_elem.
    { rewrite (eo_fields _ _ _ He). unfold struct_fields. apply elem_of_app. left. apply elem_of_flat. exists name. split; [done|].
      unfold param_field. rewrite Hc. cbn. by rewrite Epol, Ht. }
    exists f. split_and!; [done..| |].
    + unfold accessor. destruct (POptional p), (nullableParam inp name); cbn; by rewrite ?app_nil_r.
    + intros tr Htr. rewrite E2. unfold param_typ in Ht. rewrite Htr in Ht. destruct (go_type tr) as [ref|]; [|done]. cbn in Ht. injection Ht as <-.
      unfold seen_typ. eexists. done.
  - set (ra := mkRequired (argIdent name (QName q)) (GoName name) (convertExpr t (argIdent name (QName q))) (bs "policy " ++ (b :: pol)) name).
    assert (param_arg name = Some ra) as Hra by (unfold param_arg; rewrite Hc; cbn; by rewrite Epol, Ht).
    assert (ra ∈ method_args) as Hin.
    { unfold method_args. apply elem_of_app. left. apply elem_of_flat. by exists name. }
    rewrite (arg_expr_some _ name (ra_expr ra)).
    + intros [= <-]. exists ra. split_and!; [done..|]. by exists t.
    + apply convertExpr_nonempty.
    + by exists ra.
    + intros r [(m & _ & Hm)|(f & Hf & _ & Hp & _)]%method_args_param Hr.
      * destruct (param_arg_param _ _ Hm) as (E & _ & _). rewrite Hr in E. subst m. rewrite Hra in Hm. by injection Hm as ->.
      * unfold tree_param in Et. rewrite Hf in Et. apply bool_decide_eq_false in Et. congruence.
Qed.
End query.

(** ** Reserved names *)

Lemma suffix_absent (l : list bytes) suf name : suf <> [] -> forallb (fun x => negb (HasSuffix x suf)) l = true -> name ++ suf ∉ l.
Proof.
  intros Hs H Hin. rewrite forallb_forall in H. apply list_elem_of_In, H in Hin. unfold HasSuffix in Hin.
  rewrite length_app, Nat.add_sub, drop_app_length, bool_decide_eq_true_2 in Hin; done.
Qed.

Lemma reservedLocal_suffix name : reservedLocal (name ++ bs "Arg") = false.
Proof.
  assert (forall k, match drop k (name ++ bs "Arg") with [] => false | ds => forallb (fun c => byte_leb "0" c && byte_leb c "9") ds end = false) as H.
  { intros k. change (bs "Arg") with (bs "Ar" ++ ["g"%char]). rewrite (assoc_L (++)). set (l := name ++ bs "Ar").
    destruct (decide (k <= length l)) as [Hk|Hk].
    - rewrite drop_app_le by done. generalize (drop k l). intros l'. assert (forall ds : bytes, forallb (fun c => byte_leb "0" c && byte_leb c "9") (ds ++ ["g"%char]) = false) as E.
      { intros ds. by rewrite forallb_app, andb_false_r. }
      specialize (E l'). destruct (l' ++ _); [done|exact E].
    - rewrite drop_ge; [done|]. rewrite length_app. cbn. lia. }
  unfold reservedLocal. cbn [existsb]. by rewrite !H, !andb_false_r.
Qed.

(** No argument has the name of a local, an import or the table of the query. *)
Lemma argIdent_escapes p qn : let n := argIdent p qn in
  n ∉ fixedLocals /\ n ∉ importPkgIdents /\ reservedLocal n = false /\ n <> lowerCamel qn ++ bs "Frags" /\ n <> lowerCamel qn ++ bs "Shapes".
Proof.
  cbv zeta. unfold argIdent. destruct (_ || (_ || _) || _)%bool eqn:E.
  - assert (forall a b : bytes, forall c d, c <> d -> a ++ [c] <> b ++ [d]) as Hl.
    { intros a b c d H. intros [_ [= ?]]%app_inj_tail_iff. done. }
    split_and!; [by apply suffix_absent..|apply reservedLocal_suffix| |];
      match goal with |- ?x ++ _ <> ?y ++ ?l => change (x ++ bs "Ar" ++ ["g"%char] <> y ++ removelast l ++ ["s"%char]) end;
      rewrite !(assoc_L (++)); by apply Hl.
  - rewrite !orb_false_iff in E. destruct E as ((E1 & E2 & E3) & E4 & E5).
    by apply bool_decide_eq_false in E1, E3, E4, E5.
Qed.

(** ** Enums *)

Lemma sortedKeys_spec {V} (m : gmap bytes V) : NoDup (sortedKeys m) /\ forall k, k ∈ sortedKeys m <-> is_Some (m !! k).
Proof.
  pose proof (SliceStable_perm bytes_ltb (fst <$> map_to_list m)) as Hp. split.
  - unfold sortedKeys. rewrite Hp. apply NoDup_fst_map_to_list.
  - intros k. unfold sortedKeys. rewrite Hp, list_elem_of_fmap. split.
    + intros ([k' v] & -> & H%elem_of_map_to_list). by exists v.
    + intros [v H]. exists (k, v). split; [done|]. by apply elem_of_map_to_list.
Qed.

Definition named (t : bytes) (ls names : list bytes) : Prop := Forall2 (fun l n => label_const t l = Some n) ls names.

Lemma named_cons_inv t l ls name ns : label_const t l = Some name -> named t (l :: ls) ns -> exists ns', ns = name :: ns' /\ named t ls ns'.
Proof. intros El (n & ns' & Hx & F & ->)%Forall2_cons_inv_l. exists ns'. split; [congruence|done]. Qed.

Lemma named_fun t ls ns ns' : named t ls ns -> named t ls ns' -> ns = ns'.
Proof.
  intros F. revert ns'. induction F as [|l n ls ns Hx _ IH]; intros ns'; [by intros ->%Forall2_nil_inv_l|].
  intros (ms & -> & F)%(named_cons_inv _ _ _ _ _ Hx). f_equal. by apply IH.
Qed.

Definition const_ok (st : const_state) : Prop :=
  (forall n, is_Some (cs_seen st !! n) <-> n ∈ cs_names st) /\ NoDup (cs_names st).

Lemma const_ok_add st name l : const_ok st -> cs_seen st !! name = None ->
  const_ok (mkConstState (<[name := l]> (cs_seen st)) (cs_names st ++ [name]) (cs_bad st)).
Proof.
  intros [Hs Hn] E. split; cbn.
  - intros n. rewrite lookup_insert_is_Some, elem_of_app, <- Hs, list_elem_of_singleton. destruct (decide (name = n)); naive_solver.
  - apply list.NoDup_app. split_and!; [done| |by apply list.NoDup_singleton]. intros n Hin ->%list_elem_of_singleton.
    apply Hs in Hin. rewrite E in Hin. by destruct Hin.
Qed.

Lemma const_bad t ls : forall st, cs_bad st <> [] -> cs_bad (foldl (const_step t) st ls) <> [].
Proof.
  induction ls as [|l ls IH]; intros st H; cbn; [done|]. apply IH. unfold const_step.
  destruct (label_const t l); [destruct (cs_seen st !! _)|]; cbn; [|done|]; by intros [? _]%app_eq_nil.
Qed.

Lemma const_prefix t ls : forall st, cs_names st `prefix_of` cs_names (foldl (const_step t) st ls).
Proof.
  induction ls as [|l ls IH]; intros st; cbn; [done|]. etrans; [|apply IH]. unfold const_step.
  destruct (label_const t l); [destruct (cs_seen st !! _)|]; cbn; [done|by apply prefix_app_r|done].
Qed.

Lemma const_fold t ls : forall st, const_ok st -> cs_bad st = [] -> forall names,
  cs_bad (foldl (const_step t) st ls) = [] /\ cs_names (foldl (const_step t) st ls) = cs_names st ++ names <->
  named t ls names /\ NoDup (cs_names st ++ names).
Proof.
  induction ls as [|l ls IH]; intros st Hst Hb names; cbn [foldl].
  - destruct Hst as [_ Hn]. split.
    + intros [_ E]. rewrite <- (app_nil_r (cs_names st)) in E at 1. apply app_inv_head in E as <-. rewrite app_nil_r. by split; [constructor|].
    + intros [->%Forall2_nil_inv_l _]. by rewrite app_nil_r.
  - destruct (label_const t l) as [name|] eqn:El; [destruct (cs_seen st !! name) as [prev|] eqn:Ep|].
    + assert (const_step t st l = mkConstState (cs_seen st) (cs_names st) (cs_bad st ++ [prev; l])) as -> by (unfold const_step; by rewrite El, Ep).
      split; [intros [H _]; by apply const_bad in H; cbn; rewrite ?Hb|].
      intros [(ns & -> & _)%(named_cons_inv _ _ _ _ _ El) (_ & Hd & _)%list.NoDup_app]. destruct (Hd name); [|by left]. apply Hst. by exists prev.
    + assert (const_step t st l = mkConstState (<[name := l]> (cs_seen st)) (cs_names st ++ [name]) (cs_bad st)) as -> by (unfold const_step; by rewrite El, Ep).
      pose proof (IH _ (const_ok_add _ _ l Hst Ep) Hb) as H. cbn [cs_names cs_bad] in H. setoid_rewrite <- (assoc_L (++)) in H. cbn [app] in H. split.
      * intros [H1 H2]. destruct (const_prefix t ls (mkConstState (<[name := l]> (cs_seen st)) (cs_names st ++ [name]) (cs_bad st))) as [k Hk].
        rewrite H2 in Hk. cbn in Hk. rewrite <- app_assoc in Hk. apply app_inv_head in Hk as ->. destruct (proj1 (H k)) as [F Hd]; [done|].
        split; [by constructor|done].
      * intros [(ns & -> & F)%(named_cons_inv _ _ _ _ _ El) Hd]. by apply H.
    + assert (const_step t st l = mkConstState (cs_seen st) (cs_names st) (cs_bad st ++ [l])) as -> by (unfold const_step; by rewrite El).
      split; [intros [H _]; by apply const_bad in H; cbn; rewrite ?Hb|]. intros [(n & ns & Hx & _)%Forall2_cons_inv_l _]. congruence.
Qed.

(** [enumConstNames] names every label, or some cannot be told apart. *)
Lemma enumConstNames_spec t ls names : enumConstNames t ls = Ok names <-> named t ls names /\ NoDup names.
Proof.
  assert (const_ok (mkConstState ∅ [] [])) as H0.
  { split; cbn; [intros n; rewrite lookup_empty; split; [by intros []|set_solver]|by apply list.NoDup_nil]. }
  pose proof (const_fold t ls _ H0 eq_refl names) as H. cbn in H. rewrite <- H. unfold enumConstNames.
  destruct (cs_bad _) as [|b bad]; split; [by intros [= ->]|by intros [_ ->]|done|by intros [? _]].
Qed.

(** A step of [checkEnumNames] that claims the names, in a run without errors. *)
Record owns (idents : list bytes) (st st' : gmap bytes Arg * list Diagnostic) : Prop := {
  ow_diags : exists ds, st'.2 = st.2 ++ ds;
  ow_clean : HasErrors st'.2 = false -> fresh idents st.1 st'.1;
}.

Lemma errors_app l l' : HasErrors (l ++ l') = HasErrors l || HasErrors l'.
Proof. apply existsb_app. Qed.

Lemma owns_before idents st st' : owns idents st st' -> HasErrors st'.2 = false -> HasErrors st.2 = false.
Proof. intros [[ds ->] _]. rewrite errors_app. by intros [? _]%orb_false_iff. Qed.

Lemma owns_refl st : owns [] st st.
Proof. split; [exists []; by rewrite app_nil_r|]. intros _. apply fresh_nil. Qed.

Lemma owns_trans n1 n2 s1 s2 s3 : owns n1 s1 s2 -> owns n2 s2 s3 -> owns (n1 ++ n2) s1 s3.
Proof.
  intros H1 H2. pose proof (owns_before _ _ _ H2) as Hb. destruct H1 as [[d1 E1] C1], H2 as [[d2 E2] C2]. split.
  - exists (d1 ++ d2). by rewrite E2, E1, app_assoc.
  - intros Hd. eapply fresh_trans; [apply C1, Hb, Hd|apply C2, Hd].
Qed.

Lemma claim_enum_owns e st ident : owns [ident] st (claim_enum e st ident).
Proof.
  destruct st as [owner ds]. unfold claim_enum. case_bool_decide as Hn; [|destruct (owner !! ident) eqn:E]; (split; [cbn; eauto|]); cbn.
  - rewrite errors_app. by intros [_ ?]%orb_false_iff.
  - rewrite errors_app. by intros [_ ?]%orb_false_iff.
  - exists []. by rewrite app_nil_r.
  - intros _. by apply fresh_insert.
Qed.

Lemma owns_fold {A S} (f : S -> A -> S) (st : S -> gmap bytes Arg * list Diagnostic) (idents : A -> list bytes) :
  (forall s x, owns (idents x) (st s) (st (f s x))) -> forall xs s, owns (flat_map idents xs) (st s) (st (foldl f s xs)).
Proof. intros H xs. induction xs as [|x xs IH]; intros s; cbn; [apply owns_refl|]. eapply owns_trans; [apply H|apply IH]. Qed.

Lemma flat_map_single {A} (l : list A) : flat_map (fun x => [x]) l = l.
Proof. induction l; cbn; congruence. Qed.

(** The constants of an enum, when its labels can be told apart. *)
Definition enum_consts (g : gen) (tn : bytes) : option (list bytes) :=
  e ← gn_enums g !! tn; match enumConstNames tn (en_labels e) with Ok names => Some names | Err _ => None end.

Lemma enum_step_owns g st tn : owns (default [] (enum_consts g tn)) st.1 (enum_step g st tn).1 /\
  (enum_step g st tn).2 = match enum_consts g tn with Some ns => <[tn := ns]> st.2 | None => st.2 end.
Proof.
  destruct st as [[owner ds] consts]. unfold enum_step, enum_consts. destruct (gn_enums g !! tn) as [e|]; cbn; [|split; [apply owns_refl|done]].
  destruct (enumConstNames tn (en_labels e)) as [names|bad]; cbn; split; try done.
  - pose proof (owns_fold (claim_enum e) id (fun n => [n]) (fun s n => claim_enum_owns e s n) names (owner, ds)) as H.
    by rewrite flat_map_single in H.
  - split; [cbn; eauto|]. intros _. apply fresh_nil.
Qed.

Lemma checkEnumNames_spec g : let '(consts, ds) := checkEnumNames g in
  (forall tn, consts !! tn = enum_consts g tn) /\
  (HasErrors ds = false -> exists owner : gmap bytes Arg,
     fresh (sortedKeys (gn_enums g) ++ flat_map (fun tn => default [] (enum_consts g tn)) (sortedKeys (gn_enums g))) (initial_owner g) owner).
Proof.
  unfold checkEnumNames. destruct (sortedKeys_spec (gn_enums g)) as [Hnd Hin]. set (keys := sortedKeys (gn_enums g)) in *.
  set (st1 := foldl _ (initial_owner g, []) keys).
  assert (owns keys (initial_owner g, []) st1) as O1.
  { pose proof (owns_fold (fun st tn => match gn_enums g !! tn with Some e => claim_enum e st tn | None => st end) id
      (fun tn => match gn_enums g !! tn with Some e => [tn] | None => [] end)) as H.
    specialize (H (fun s tn => match gn_enums g !! tn as o return owns (match o with Some e => [tn] | None => [] end) s
      (match o with Some e => claim_enum e s tn | None => s end) with Some e => claim_enum_owns e s tn | None => owns_refl s end) keys (initial_owner g, [])).
    enough (flat_map (fun tn => match gn_enums g !! tn with Some e => [tn] | None => [] end) keys = keys) as E by (rewrite E in H; exact H).
    clear H st1 Hnd. assert (forall k, k ∈ keys -> is_Some (gn_enums g !! k)) as Hk by (intros k; apply Hin). clear Hin.
    induction keys as [|k keys IH]; [done|]. cbn. destruct (Hk k) as [e ->]; [by left|]. cbn. f_equal. apply IH. set_solver. }
  pose proof (owns_fold (enum_step g) fst (fun tn => default [] (enum_consts g tn)) (fun s tn => proj1 (enum_step_owns g s tn)) keys (st1, ∅)) as O2.
  assert (forall ks st tn, (foldl (enum_step g) st ks).2 !! tn = if decide (tn ∈ ks) then match enum_consts g tn with Some ns => Some ns | None => st.2 !! tn end else st.2 !! tn) as HC.
  { induction ks as [|k ks IH]; intros st tn; cbn [foldl]; [by rewrite decide_False by set_solver|]. rewrite IH, (proj2 (enum_step_owns g st k)).
    destruct (decide (tn = k)) as [->|Hne].
    - rewrite (decide_True (P := k ∈ k :: ks)) by (by left). destruct (enum_consts g k); [rewrite lookup_insert_eq|]; by destruct (decide _).
    - assert (match enum_consts g k with Some ns => <[k := ns]> st.2 | None => st.2 end !! tn = st.2 !! tn) as ->
        by (destruct (enum_consts g k); [by rewrite lookup_insert_ne|done]).
      destruct (decide (tn ∈ ks)); [rewrite decide_True by (by right)|rewrite decide_False by (set_solver)]; done. }
  destruct (foldl (enum_step g) _ _) as [[owner ds] consts] eqn:E. split.
  - intros tn. specialize (HC keys (st1, ∅) tn). rewrite E in HC. cbn in HC. rewrite HC, lookup_empty. unfold enum_consts.
    destruct (decide (tn ∈ keys)) as [Hk|Hk]; [by destruct (gn_enums g !! tn ≫= _)|].
    destruct (gn_enums g !! tn) eqn:Et; [|done]. destruct Hk. apply Hin. eauto.
  - intros Hd. exists owner. pose proof (owns_trans _ _ _ _ _ O1 O2) as O. apply (ow_clean _ _ _ O), Hd.
Qed.

(** ** The package *)

Section package.
Context (Quote : bytes -> bytes) (GoType : N -> option GoTypeRef) (opts : Options).

Abbreviation style := (OptStyle opts).
Abbreviation caps := (effective_caps (OptTreeCaps opts)).
Abbreviation emitted_for := (fun inp => emitted GoType style inp Quote caps).

Definition stem_of (inp : QueryInput) : bytes := pascalToSnake (QName (InQ inp)).
Definition file_of (inp : QueryInput) : bytes := stem_of inp ++ bs ".sql.gen.go".

(** What a clean build of the queries has done. *)
Record clean_build (past : list QueryInput) (b : build) (g : gen) : Prop := {
  cb_types : fresh (flat_map query_types past) (∅ : gmap bytes bytes) (gn_types g);
  cb_consts inp c : inp ∈ past -> c ∈ query_consts inp -> is_Some (gn_consts g !! c);
  cb_methods inp : inp ∈ past -> QName (InQ inp) ∉ queriesMethodNames;
  cb_spaces : bl_spaces b = (fun inp => shapeSpaceEntry (InQ inp) style) <$> past;
  cb_stems : NoDup (stem_of <$> past);
  cb_stem s : is_Some (bl_stems b !! s) <-> s ∈ stem_of <$> past;
  cb_file inp : inp ∈ past -> exists e, bl_files b !! file_of inp = Some e /\ emitted_for inp e;
  cb_dom f : is_Some (bl_files b !! f) <-> f ∈ file_of <$> past;
}.

Record built (past : list QueryInput) (b : build) (g : gen) : Prop := {
  bu_diags : Forall is_error (bl_diags b);
  bu_pol tn : is_Some (gn_policies g !! tn) -> tn ∉ generatedPkgNames;
  bu_clean : bl_diags b = [] -> clean_build past b g;
}.

Lemma claims_fresh_query names g g' : claims names (fresh_query g) g' ->
  Forall is_error (gn_diags g') /\ (forall tn, is_Some (gn_policies g' !! tn) -> is_Some (gn_policies g !! tn) \/ tn ∉ generatedPkgNames) /\
  (forall c, is_Some (gn_consts g !! c) -> is_Some (gn_consts g' !! c)) /\ (gn_diags g' = [] -> fresh names (gn_types g) (gn_types g')).
Proof. intros [(ds & E & F) P K C]. cbn in *. rewrite E in *. done. Qed.

Lemma generate_step_built past inp b g b' g' : built past b g ->
  generate_step Quote GoType opts (b, g) inp = Ok (b', g') -> built (past ++ [inp]) b' g'.
Proof.
  intros [B1 B2 B3]. unfold generate_step. intros ([em g1] & He & H)%rbind_ok. apply emit_query_spec in He as [C D].
  destruct (claims_fresh_query _ _ _ C) as (F & P & K & T).
  assert (forall tn, is_Some (gn_policies g1 !! tn) -> tn ∉ generatedPkgNames) as Hpol.
  { intros tn [Ht|]%P; [by apply B2|done]. }
  injection H as H. destruct (gn_diags g1) as [|d ds] eqn:Ed.
  2:{ assert (g' = g1 /\ bl_diags b' = bl_diags b ++ d :: ds) as [-> Eb] by (destruct em; by injection H as <- <-).
      split; [rewrite Eb; by apply Forall_app|done|]. rewrite Eb. by intros [_ ?]%app_eq_nil. }
  destruct (D eq_refl) as (HM & HK & e & -> & Hem). rewrite app_nil_r in H. destruct (bl_stems b !! _) as [prev|] eqn:Es.
  { injection H as <- <-. split; cbn; [|done|by intros [_ ?]%app_eq_nil]. apply Forall_app. split; [done|]. by repeat constructor. }
  injection H as <- <-. split; [done..|]. cbn. intros Hd. destruct (B3 Hd) as [T0 K0 M0 S0 N0 ST0 F0 D0].
  assert (file_of inp ∉ file_of <$> past) as Hnew.
  { intros (x & E & Hx)%list_elem_of_fmap. unfold file_of in E. apply app_inv_tail in E.
    assert (is_Some (bl_stems b !! stem_of inp)) as [p Hp]; [|unfold stem_of in Hp; congruence].
    apply ST0. rewrite E. apply list_elem_of_fmap. by exists x. }
  split; cbn [bl_files bl_stems bl_spaces].
  - rewrite flat_map_app. cbn. rewrite app_nil_r. eapply fresh_trans; [exact T0|by apply T].
  - intros i c [Hi| ->%list_elem_of_singleton]%elem_of_app Hc; [apply K; by eapply K0|by apply HK].
  - intros i [Hi| ->%list_elem_of_singleton]%elem_of_app; [by apply M0|done].
  - rewrite S0, fmap_app. done.
  - rewrite fmap_app. apply list.NoDup_app. split_and!; [done| |by apply list.NoDup_singleton].
    intros s Hs ->%list_elem_of_singleton. apply ST0 in Hs as [p Hp]. unfold stem_of in Hp. congruence.
  - intros s. rewrite fmap_app, elem_of_app, <- ST0, lookup_insert_is_Some. cbn. rewrite list_elem_of_singleton. unfold stem_of.
    destruct (decide (pascalToSnake (QName (InQ inp)) = s)); naive_solver.
  - change (stem_of inp ++ bs ".sql.gen.go") with (file_of inp).
    intros i [Hi| ->%list_elem_of_singleton]%elem_of_app; [|exists e; by rewrite lookup_insert_eq].
    destruct (F0 i Hi) as (e' & E & Hok). exists e'. split; [|done]. rewrite lookup_insert_ne; [done|]. intros Heq. apply Hnew.
    apply list_elem_of_fmap. exists i. split; [exact Heq|done].
  - intros f. rewrite fmap_app, elem_of_app, <- D0, lookup_insert_is_Some. cbn. rewrite list_elem_of_singleton.
    change (stem_of inp ++ bs ".sql.gen.go") with (file_of inp). unfold file_of, stem_of.
    destruct (decide (pascalToSnake (QName (InQ inp)) ++ bs ".sql.gen.go" = f)); naive_solver.
Qed.

Lemma generate_built inps : forall past st b g, rfold (generate_step Quote GoType opts) st inps = Ok (b, g) ->
  built past st.1 st.2 -> built (past ++ inps) b g.
Proof.
  induction inps as [|inp inps IH]; intros past [b0 g0] b g; cbn.
  - intros [= -> ->] H. by rewrite app_nil_r.
  - intros ([b1 g1] & H1 & H2)%rbind_ok Hb. apply (generate_step_built _ _ _ _ _ _ Hb) in H1.
    specialize (IH _ _ _ _ H2 H1). by rewrite <- app_assoc in IH.
Qed.

Lemma generate_prefix inps : forall st b g, rfold (generate_step Quote GoType opts) st inps = Ok (b, g) -> bl_diags st.1 `prefix_of` bl_diags b.
Proof.
  induction inps as [|inp inps IH]; intros [b0 g0] b g; cbn; [by intros [= -> ->]|].
  intros ([b1 g1] & H1 & H2%IH)%rbind_ok. etrans; [|exact H2]. cbn. unfold generate_step in H1. apply rbind_ok in H1 as ([em g'] & _ & H1).
  destruct (gn_diags g'), em; [destruct (bl_stems b0 !! _)|..]; injection H1 as <- <-; cbn; rewrite <- ?app_assoc; by apply prefix_app_r.
Qed.

Lemma explain_clash_errors names q : Forall is_error (explain_clash names q).
Proof. unfold explain_clash. destruct (_ && _)%bool; by repeat constructor. Qed.

(** The state behind a package without errors. *)
Lemma Generate_clean queries pk ds : Generate Quote GoType opts queries = Ok (Some pk, ds) -> HasErrors ds = false ->
  let sorted := SliceStable less_name queries in
  exists b, clean_build sorted b (pk_state pk) /\ pk_files pk = bl_files b /\ pk_spaces pk = bl_spaces b /\
    pk_fixed pk = fixed_files (pk_state pk) /\
    (forall tn, is_Some (gn_policies (pk_state pk) !! tn) -> tn ∉ generatedPkgNames /\ gn_types (pk_state pk) !! tn = None) /\
    (forall inp, inp ∈ sorted -> explain_clash ((fun inp => QName (InQ inp)) <$> sorted) (InQ inp) = []) /\
    (forall tn, pk_consts pk !! tn = enum_consts (pk_state pk) tn) /\
    exists owner : gmap bytes Arg, let g := pk_state pk in
      fresh (sortedKeys (gn_enums g) ++ flat_map (fun tn => default [] (enum_consts g tn)) (sortedKeys (gn_enums g))) (initial_owner g) owner.
Proof.
  unfold Generate. cbv zeta. destruct (resolveExplainDialect opts); [|by intros [= <- <-]].
  set (sorted := SliceStable less_name queries). set (names := _ <$> sorted). set (clashes := flat_map _ sorted).
  intros ([b g] & Hb & H)%rbind_ok. pose proof (checkEnumNames_spec g) as HE. destruct (checkEnumNames g) as [consts eds].
  injection H as <- <-. intros Hd. pose proof Hd as Hd'. rewrite !errors_app, !orb_false_iff in Hd'. destruct Hd' as (D1 & D2 & D3).
  destruct HE as [HC HO]. rewrite Hd.
  assert (Forall is_error clashes) as Hcl.
  { apply Forall_forall. intros d (x & _ & Hx)%in_flat_map. pose proof (explain_clash_errors names (InQ x)) as F.
    rewrite Forall_forall in F. by apply F. }
  pose proof (generate_prefix _ _ _ _ Hb) as Hpre. cbn in Hpre. apply (generate_built _ []) in Hb.
  2:{ split; cbn; [done|intros tn; by rewrite lookup_empty; intros []|]. intros _. split; cbn.
      - apply fresh_nil. - set_solver. - set_solver. - done. - by apply list.NoDup_nil.
      - intros s. rewrite lookup_empty. split; [by intros []|set_solver].
      - set_solver.
      - intros f. rewrite lookup_empty. split; [by intros []|set_solver]. }
  destruct Hb as [B1 B2 B3]. assert (bl_diags b = []) as Eb by (by apply no_errors). exists b. cbn. split_and!; try done.
  - exact (B3 Eb).
  - intros tn Ht. split; [by apply B2|]. destruct (gn_types g !! tn) as [qn|] eqn:Et; [exfalso|done]. destruct Ht as [pt Hpt].
    assert (Forall is_error (policy_clashes g)) as Fp.
    { unfold policy_clashes. apply Forall_forall. intros d (x & _ & Hx)%list_elem_of_In%list_elem_of_omap.
      destruct (gn_types g !! x); cbn in Hx; [|done]. destruct (gn_policies g !! x); cbn in Hx; [|done]. by injection Hx as <-. }
    apply (no_errors _ Fp) in D2. assert (tn ∈ sortedKeys (gn_policies g)) as Hk by (apply sortedKeys_spec; eauto).
    match type of D2 with ?l = [] => assert (exists d, d ∈ l) as [d Hd'] end; [|rewrite D2 in Hd'; set_solver].
    unfold policy_clashes. eexists. apply list_elem_of_omap. exists tn. split; [done|]. by rewrite Et, Hpt.
  - intros inp Hi. destruct (explain_clash names (InQ inp)) as [|d l] eqn:Ec; [done|exfalso].
    destruct Hpre as [k Hk]. rewrite Eb in Hk. symmetry in Hk. apply app_eq_nil in Hk as [Hk _].
    assert (d ∈ clashes) as Hin; [|rewrite Hk in Hin; set_solver]. unfold clashes. apply list_elem_of_In, in_flat_map. exists inp.
    split; [by apply list_elem_of_In|]. rewrite Ec. by left.
  - by apply HO.
Qed.

(** ** Totality *)

Definition params_known (inp : QueryInput) : Prop := forall n, n ∈ QParamOrder (InQ inp) -> is_Some (QParams (InQ inp) !! n).

Lemma rfold_total {E A S} (f : S -> A -> result E S) (P : A -> Prop) xs : (forall x s, P x -> exists s', f s x = Ok s') ->
  (forall x, x ∈ xs -> P x) -> forall s, exists s', rfold f s xs = Ok s'.
Proof.
  intros H. induction xs as [|x xs IH]; intros HP s; cbn; [eauto|].
  destruct (H x s) as [s1 ->]; [apply HP; by left|]. cbn. apply IH. set_solver.
Qed.

Lemma Forall2_elem_impl {A B} (P Q : A -> B -> Prop) xs ys :
  Forall2 P xs ys -> (forall x y, x ∈ xs -> P x y -> Q x y) -> Forall2 Q xs ys.
Proof. induction 1 as [|x y xs ys Hx H IH]; intros HQ; constructor; [apply HQ; [by left|done]|]. apply IH. set_solver. Qed.

Lemma rmap_total {E A B} (f : A -> result E B) xs : (forall x, x ∈ xs -> exists y, f x = Ok y) -> exists ys, rmap f xs = Ok ys.
Proof.
  induction xs as [|x xs IH]; intros H; cbn; [eauto|]. destruct (H x) as [y ->]; [by left|]. destruct IH as [ys Eys]; [set_solver|]. cbn. rewrite Eys. eauto.
Qed.

Lemma emit_total inp g : params_known inp -> exists r, emit GoType style inp Quote caps (OptDefaultTimeout opts) g = Ok r.
Proof.
  intros HP. unfold emit.
  match goal with |- context [rfold (param_step GoType style inp) ?st0 _] =>
    destruct (rfold_total (param_step GoType style inp) (fun n => is_Some (QParams (InQ inp) !! n)) (QParamOrder (InQ inp)))
      with (s := st0) as [s1 Es]; [|exact HP|] end.
  { intros n st [p Hp]. unfold param_step, param_of. rewrite Hp. destruct (tree_param inp n); [eauto|]. cbn.
    destruct (filterOnlyParam p); [eauto|]. destruct st as [ps g0]. destruct (param_type _ _ _ _ _ _) as [[[[t c] i]|] g1]; eauto. }
  rewrite Es. cbn [rbind]. destruct (tree_step _ _) as [ps g3]. destruct (foldl (arg_step inp) _ _) as [o g4].
  destruct (emit_rows _ _ _) as [fs g5]. destruct (HasErrors _); [eauto|]. destruct (writeFilterConstructors _ _ _) as [cts g6].
  destruct (HasErrors _); [eauto|]. unfold writePreamble.
  destruct (rmap_total (bind_value inp (ps_required ps)) (QParamOrder (InQ inp))) as [vs Ev].
  { intros n Hn. unfold bind_value, param_of. destruct (HP n Hn) as [p ->]. destruct (tree_param inp n); eauto. }
  rewrite Ev. cbn. eauto.
Qed.

Lemma generate_steps_total sorted st : (forall inp, inp ∈ sorted -> params_known inp) ->
  exists st', rfold (generate_step Quote GoType opts) st sorted = Ok st'.
Proof.
  intros H. apply (rfold_total _ params_known); [|done]. intros inp [b g] HP. unfold generate_step.
  destruct (emit_total inp (fresh_query g) HP) as [[em g1] ->]. cbn. eauto.
Qed.

(** ** The theorems *)

(** What the method of a query is. *)
Record method_ok (inp : QueryInput) (e : Emitted) : Prop := {
  mo_query : em_query e = InQ inp;
  mo_fields : view (em_fields e) = struct_fields GoType style inp;
  mo_field_names : NoDup (fd_name <$> em_fields e);
  mo_required : em_required e = method_args GoType style inp;
  mo_arg_names : NoDup (ra_name <$> em_required e);
  mo_arg_free ra : ra ∈ em_required e ->
    ra_name ra ∉ fixedLocals /\ ra_name ra ∉ importPkgIdents /\ reservedLocal (ra_name ra) = false /\
    ra_name ra <> lowerCamel (QName (InQ inp)) ++ bs "Frags" /\ ra_name ra <> lowerCamel (QName (InQ inp)) ++ bs "Shapes";
  mo_rows : Forall2 (fun c f => row_field GoType inp c = Some f) (if hasRows inp then imap pair (InColumns inp) else []) (em_rows e);
  mo_row_names : NoDup (fd_name <$> em_rows e);
  mo_row_valid : Forall (fun f => IsIdentifier (fd_name f) = true /\ IsExported (fd_name f) = true) (em_rows e);
  mo_values : Forall2 (carrier GoType style inp e) (QParamOrder (InQ inp)) (pa_vals (em_preamble e));
}.

Lemma emitted_method_ok inp e : emitted_for inp e -> method_ok inp e.
Proof.
  intros He. split; try apply He.
  - intros ra Hra. rewrite (eo_required _ _ _ _ _ _ He) in Hra.
    assert (exists p, ra_name ra = argIdent p (QName (InQ inp))) as [p ->]; [|apply argIdent_escapes].
    destruct (method_args_param _ _ _ _ Hra) as [(n & _ & Hn)|(f & _ & _ & _ & E & _)]; [|by eexists].
    unfold param_arg in Hn. destruct (carried inp n) as [p|]; [|done]. cbn in Hn. destruct (PPolicy p); [done|].
    destruct (param_typ _ _ _ _ _); [|done]. injection Hn as <-. by eexists.
  - pose proof (eo_preamble _ _ _ _ _ _ He) as Hp. unfold writePreamble in Hp. apply rbind_ok in Hp as (vs & Hv & Hp).
    injection Hp as <-. cbn. apply rmap_ok in Hv.
    eapply Forall2_elem_impl; [exact Hv|]. cbn. intros n v Hn Hb. eapply bind_carrier; [exact He|exact Hn|exact Hb].
Qed.

(** C38: generation always returns, and a package it reports no error for holds
    one file for every query and no other.  The fields of its params struct are
    exactly those of the parameters no policy wove in, the choices, the orders
    and the tree, each name once; its required arguments those a policy wove in
    and the required tree, each name once and none of them a local, an import or
    a table of the query; the row's fields are the columns in order under
    distinct valid exported identifiers; and the list of values holds for every
    parameter, in order, the field or argument that carries it, read through
    the accessor of its wrappers. *)
Theorem methods_exact queries : (forall inp, inp ∈ queries -> params_known inp) ->
  exists res ds, Generate Quote GoType opts queries = Ok (res, ds) /\
    (HasErrors ds = false -> exists pk, res = Some pk /\
      (forall inp, inp ∈ queries -> exists e, pk_files pk !! file_of inp = Some e /\ method_ok inp e) /\
      NoDup (file_of <$> queries) /\ forall f, is_Some (pk_files pk !! f) <-> f ∈ file_of <$> queries).
Proof.
  intros HP. pose proof (SliceStable_perm less_name queries) as Hperm.
  assert (exists res ds, Generate Quote GoType opts queries = Ok (res, ds) /\ (HasErrors ds = false -> is_Some res)) as (res & ds & E & Hres).
  { unfold Generate. destruct (resolveExplainDialect opts); [|do 2 eexists; by split].
    match goal with |- context [rfold _ ?st _] => destruct (generate_steps_total (SliceStable less_name queries) st) as [[b g] Es] end.
    { intros inp Hi. apply HP. by rewrite <- Hperm. }
    cbv zeta. rewrite Es. cbn. destruct (checkEnumNames g) as [consts eds]. do 2 eexists. split; [done|]. eauto. }
  exists res, ds. split; [done|]. intros Hd. destruct (Hres Hd) as [pk ->]. exists pk. split; [done|].
  destruct (Generate_clean _ _ _ E Hd) as (b & Hb & -> & _). destruct Hb as [_ _ _ _ HN _ HF HD]. split_and!.
  - intros inp Hi. destruct (HF inp) as (e & Ee & He); [by rewrite Hperm|]. exists e. split; [done|]. by apply emitted_method_ok.
  - rewrite <- Hperm. assert (file_of <$> SliceStable less_name queries = (fun s : bytes => s ++ bs ".sql.gen.go") <$> (stem_of <$> SliceStable less_name queries)) as ->
      by (by rewrite <- list_fmap_compose).
    apply NoDup_fmap_2; [|done]. intros x y. apply app_inv_tail.
  - intros f. rewrite HD. by rewrite Hperm.
Qed.

Definition package_names (queries : list QueryInput) (pk : Package) : list bytes :=
  let g := pk_state pk in
  generatedPkgNames ++ flat_map query_types queries ++ sortedKeys (gn_policies g) ++ sortedKeys (gn_enums g)
  ++ flat_map (fun tn => default [] (pk_consts pk !! tn)) (sortedKeys (gn_enums g)).

Definition method_names (queries : list QueryInput) : list bytes :=
  let names := (fun inp => QName (InQ inp)) <$> queries in queriesMethodNames ++ names ++ ((fun n => Explain ++ n) <$> names).

Lemma initial_owner_some g n : is_Some (initial_owner g !! n) <->
  is_Some (gn_types g !! n) \/ is_Some (gn_consts g !! n) \/ is_Some (gn_policies g !! n).
Proof. unfold initial_owner. rewrite !lookup_union_is_Some, !lookup_fmap, !fmap_is_Some. tauto. Qed.

Lemma explain_clash_nil names q : explain_clash names q = [] <-> forall base, base ∈ names -> QName q <> Explain ++ base.
Proof.
  unfold explain_clash. destruct (HasPrefix (QName q) Explain) eqn:Ep; cbn [andb].
  - unfold HasPrefix in Ep. apply bool_decide_eq_true in Ep.
    assert (QName q = Explain ++ drop (length Explain) (QName q)) as E by (rewrite <- Ep at 1; by rewrite take_drop).
    case_bool_decide as Hb; (split; [|done || (intros H; by destruct (H _ Hb))]); [done|].
    intros _ base Hbase Hq. apply Hb. rewrite Hq. change (drop 7 (Explain ++ base)) with base. done.
  - split; [|done]. intros _ base _ Hq. rewrite Hq, HasPrefix_app in Ep. done.
Qed.

Lemma explain_clash_perm inps inps' q : inps ≡ₚ inps' ->
  explain_clash ((fun inp => QName (InQ inp)) <$> inps) q = [] <-> explain_clash ((fun inp => QName (InQ inp)) <$> inps') q = [].
Proof. intros Hp. rewrite !explain_clash_nil. by setoid_rewrite Hp. Qed.

Lemma method_names_distinct queries : NoDup (stem_of <$> queries) ->
  (forall inp, inp ∈ queries -> QName (InQ inp) ∉ queriesMethodNames) ->
  (forall inp, inp ∈ queries -> explain_clash ((fun inp => QName (InQ inp)) <$> queries) (InQ inp) = []) -> NoDup (method_names queries).
Proof.
  intros HS HM HC. unfold method_names. set (names := _ <$> queries).
  assert (NoDup names) as Hn.
  { assert (stem_of <$> queries = pascalToSnake <$> names) as E by (unfold names; by rewrite <- list_fmap_compose).
    rewrite E in HS. by apply NoDup_fmap_1 in HS. }
  assert (forall n, n ∈ names -> exists inp, inp ∈ queries /\ n = QName (InQ inp)) as Hin.
  { intros n (inp & -> & Hi)%list_elem_of_fmap. by exists inp. }
  apply list.NoDup_app. split_and!; [apply (bool_decide_unpack _); by vm_compute| |].
  - intros n Hq. rewrite elem_of_app. intros [(inp & Hi & ->)%Hin|(base & -> & _)%list_elem_of_fmap]; [by apply (HM inp)|].
    assert (forallb (fun x => negb (HasPrefix x Explain)) queriesMethodNames = true) as H by by vm_compute.
    rewrite forallb_forall in H. apply list_elem_of_In, H in Hq. by rewrite HasPrefix_app in Hq.
  - apply list.NoDup_app. split_and!; [done| |].
    + intros n (inp & Hi & ->)%Hin (base & E & Hb)%list_elem_of_fmap. apply (proj1 (explain_clash_nil _ _) (HC inp Hi) base); done.
    + apply NoDup_fmap_2; [|done]. intros x y. apply app_inv_head.
Qed.

(** C39: in a package without errors no two declarations the gates know of share
    a name: the fixed names, the types and constructors of the queries, the
    types of policy parameters, the enums and their constants are distinct, no
    constant of a query is an enum or an enum's constant, and neither are two
    methods, the EXPLAIN siblings and the fixed ones included. *)
Theorem package_names_distinct queries pk ds : Generate Quote GoType opts queries = Ok (Some pk, ds) -> HasErrors ds = false ->
  NoDup (package_names queries pk) /\ NoDup (method_names queries) /\
  forall inp c tn, inp ∈ queries -> c ∈ query_consts inp -> is_Some (gn_enums (pk_state pk) !! tn) ->
    c <> tn /\ forall ns, pk_consts pk !! tn = Some ns -> c ∉ ns.
Proof.
  intros HG Hd. pose proof (SliceStable_perm less_name queries) as Hperm.
  destruct (Generate_clean _ _ _ HG Hd) as (b & Hb & _ & _ & _ & Hpol & Hcl & HC & owner & HN & HA & _).
  set (g := pk_state pk) in *. destruct Hb as [(TN & TA & TT) HK HM _ HS _ _ _].
  assert (flat_map (fun tn => default [] (pk_consts pk !! tn)) (sortedKeys (gn_enums g)) =
          flat_map (fun tn => default [] (enum_consts g tn)) (sortedKeys (gn_enums g))) as EC.
  { apply flat_map_ext. intros tn. by rewrite HC. }
  assert (forall n, n ∈ flat_map query_types queries <-> is_Some (gn_types g !! n)) as HT.
  { intros n. rewrite TT, lookup_empty, <- (Permutation_flat_map query_types Hperm). split; [by right|by intros [[? ?]|?]]. }
  split_and!.
  - unfold package_names. fold g. rewrite EC. apply list.NoDup_app. split_and!.
    { apply (bool_decide_unpack _). by vm_compute. }
    { intros n Hn. rewrite !elem_of_app. intros [H|[H|H]].
      - rewrite <- Hperm in H. by apply TA in H as [? _].
      - apply sortedKeys_spec in H. by apply Hpol in H as [? _].
      - rewrite <- elem_of_app in H. by apply HA in H as [? _]. }
    apply list.NoDup_app. split_and!; [by rewrite <- Hperm| |].
    { intros n Hn%HT. rewrite elem_of_app. intros [H|H].
      - apply sortedKeys_spec in H. apply Hpol in H as [_ H]. rewrite H in Hn. by destruct Hn.
      - apply HA in H as [_ H]. assert (is_Some (initial_owner g !! n)) as [o Ho] by (apply initial_owner_some; by left). congruence. }
    apply list.NoDup_app. split_and!; [apply sortedKeys_spec| |exact HN]. intros n Hn%sortedKeys_spec H. apply HA in H as [_ H].
    assert (is_Some (initial_owner g !! n)) as [o Ho] by (apply initial_owner_some; by right; right). congruence.
  - apply method_names_distinct; [by rewrite <- Hperm| |].
    + intros inp Hi. apply HM. by rewrite Hperm.
    + intros inp Hi. rewrite <- (explain_clash_perm _ _ _ Hperm). apply Hcl. by rewrite Hperm.
  - intros inp c tn Hi Hc Ht. assert (forall n, n ∈ sortedKeys (gn_enums g) ++ flat_map (fun tn => default [] (enum_consts g tn)) (sortedKeys (gn_enums g)) -> c <> n) as Hne.
    { intros n Hn ->. apply HA in Hn as [_ Hn]. assert (is_Some (initial_owner g !! n)) as [o Ho]; [|congruence].
      apply initial_owner_some. right. left. apply (HK inp); [by rewrite Hperm|done]. }
    apply sortedKeys_spec in Ht. split; [apply Hne, elem_of_app; by left|]. intros ns Hns Hcn. apply (Hne c); [|done].
    apply elem_of_app. right. apply list_elem_of_In, in_flat_map. exists tn. split; [by apply list_elem_of_In|]. rewrite <- HC, Hns. by apply list_elem_of_In.
Qed.
End package.
End theorems.

(** ** An instance *)

Definition in_range (lo hi : N) (r : N) : bool := (lo <=? r)%N && (r <=? hi)%N.
#[local] Instance ascii_unicode : Unicode := {
  IsLetter r := in_range 65 90 r || in_range 97 122 r; IsDigit := in_range 48 57; IsUpper := in_range 65 90; IsLower := in_range 97 122;
  rToUpper r := if in_range 97 122 r then (r - 32)%N else r; rToLower r := if in_range 65 90 r then (r + 32)%N else r;
}.

Example names_examples :
  GoName (bs "user_id") = bs "UserID" /\ GoName (bs "1st") = bs "X1st" /\ GoName (bs "_") = bs "X" /\
  lowerCamel (bs "IDList") = bs "idList" /\ lowerCamel (bs "SearchUsers") = bs "searchUsers" /\
  pascalToSnake (bs "FindUserByUserID") = bs "find_user_by_user_id" /\ pascalToSnake (bs "ParseHTTPRequest") = bs "parse_http_request" /\
  enumGoName (bs "order-status") = bs "OrderStatus" /\
  enumConstNames (bs "S") [bs "in-progress"; bs "1st"] = Ok [bs "SInProgress"; bs "S1st"] /\
  enumConstNames (bs "S") [bs "in-progress"; bs "in_progress"] = Err [bs "in-progress"; bs "in_progress"].
Proof. by vm_compute. Qed.

Definition int8 : TypeRef := mkTypeRef 20 (bs "int8") None.
Definition status_type : TypeRef := mkTypeRef 9001 (bs "order_status") (Some (mkTypeExt (bs "public") (bs "e") [bs "new"; bs "done"])).
Definition int8_type (oid : N) : option GoTypeRef := if (oid =? 20)%N then Some (mkGoType (bs "int64") []) else None.

Definition demo_param (name : bytes) (optional in_tree : bool) (policy : bytes) : bytes * Param :=
  (name, mkParam name [mkOccurrence sp0 [] false in_tree false] (-1) optional policy).

Definition demo_template (name : bytes) (ann : Annotation) (items : list Item) (params : list (bytes * Param)) : QueryTemplate :=
  mkQuery name ann sp0 items params.*1 (list_to_map params) [presence (bs "name")] [] [] ∅ ∅ (-1) (-1) (-1) [] [] None [] ∅.

(** A query with a tree, a choice and a parameter of each kind, and another with
    a nullable one. *)
Definition demo_inputs : list QueryInput :=
  [mkInput (demo_template (bs "ListOrders") AnnotationMany
       [IChoose demo_choose; IFilterTree (mkFilterTree (bs "f") true demo_predicates SlotWhereConjunct sp0)]
       [demo_param (bs "tenant_id") false false (bs "tenants"); demo_param (bs "name") true false []; demo_param (bs "f") false false [];
        demo_param (bs "min") false true []; demo_param (bs "max") false true []; demo_param (bs "n") false true []])
     [] (list_to_map ((fun n => (bs n, int8)) <$> ["tenant_id"; "name"; "min"; "max"; "n"]%string))
     [mkColumnDesc (bs "id") int8 0 0; mkColumnDesc (bs "status") status_type 0 0] [false; true] ∅ None;
   mkInput (demo_template (bs "AddOrder") AnnotationExec [IOrderBy demo_order] [demo_param (bs "user_id") false false []])
     [] {[bs "user_id" := int8]} [] [] {[bs "user_id"]} None].

Definition demo_options : Options := mkOptions (bs "db") (mkCaps 0 0) StyleDollar 5000000000 None.

Abbreviation demo_generated := (Generate (fun s => s) int8_type demo_options demo_inputs).

Lemma demo_known : forall inp, inp ∈ demo_inputs -> params_known inp.
Proof.
  intros inp Hi n Hn. assert (forallb (fun inp => forallb (fun n => bool_decide (is_Some (QParams (InQ inp) !! n))) (QParamOrder (InQ inp)))
    demo_inputs = true) as H by by vm_compute.
  rewrite forallb_forall in H. apply list_elem_of_In, H in Hi. rewrite forallb_forall in Hi. by apply list_elem_of_In, Hi, bool_decide_eq_true in Hn.
Qed.

Lemma methods_exact_witness :
  match demo_generated with Ok (Some _, ds) => HasErrors ds = false | _ => False end /\
  exists res ds, demo_generated = Ok (res, ds) /\
    (HasErrors ds = false -> exists pk, res = Some pk /\
      (forall inp, inp ∈ demo_inputs -> exists e, pk_files pk !! file_of inp = Some e /\ method_ok int8_type demo_options inp e) /\
      NoDup (file_of <$> demo_inputs) /\ forall f, is_Some (pk_files pk !! f) <-> f ∈ file_of <$> demo_inputs).
Proof. split; [vm_compute; reflexivity|]. exact (methods_exact _ int8_type demo_options demo_inputs demo_known). Defined.

Lemma package_names_distinct_witness : exists pk ds, demo_generated = Ok (Some pk, ds) /\
  (bs "OrderStatusDone") ∈ package_names demo_inputs pk /\ NoDup (package_names demo_inputs pk) /\ NoDup (method_names demo_inputs) /\
  forall inp c tn, inp ∈ demo_inputs -> c ∈ query_consts inp -> is_Some (gn_enums (pk_state pk) !! tn) ->
    c <> tn /\ forall ns, pk_consts pk !! tn = Some ns -> c ∉ ns.
Proof.
  assert (match demo_generated with Ok (Some pk, ds) => HasErrors ds = false /\ bool_decide (bs "OrderStatusDone" ∈ package_names demo_inputs pk) = true
    | _ => False end) as H by (vm_compute; split; reflexivity).
  destruct demo_generated as [[[pk|] ds]|] eqn:E; [|destruct H..]. destruct H as [H1 H2]. exists pk, ds. split; [reflexivity|].
  split; [by apply bool_decide_eq_true in H2|]. exact (package_names_distinct _ int8_type demo_options demo_inputs pk ds E H1).
Defined.
