(* ===== verification/Targets.v ===== *)
(** * Targets

    [internal/config/targets.go] and the path policy of
    [internal/config/config.go]: which template files feed which generated
    package, and the refusal of paths that leave the project directory.  The
    file system, [path.Match] and [go/token]'s identifiers are arguments. *)

From S2P Require Import Prelude Template Diagnostics ScanDirectives ScanBodies GoPath PathPat.

Definition CodeConfigInvalid : bytes := bs "SQLETCH301".
Definition CodePathEscape : bytes := bs "SQLETCH306".
Definition CodeTargetFileOverlap : bytes := bs "SQLETCH314".
Definition CodeTargetCollision : bytes := bs "SQLETCH315".
Definition CodeTargetNoMatch : bytes := bs "SQLETCH316".

Record Output := mkOutput { OutPackage : bytes; OutPath : bytes }.
Record Target := mkTarget { TgQueries : list bytes; TgOutput : Output }.
(** The fields of [Config] this part reads. *)
Record Config := mkConfig { CfgTargets : list Target; CfgDir : bytes; CfgPath : bytes }.

(** [HasCaptureRefs] *)
Definition HasCaptureRefs (o : Output) : bool := contains "$" (OutPackage o) || contains "$" (OutPath o).

(** [maxWalkEntries] *)
Definition maxWalkEntries : nat := N.to_nat 200000.

Section paths.
Context (fs : FS).

(** The loop of [resolveExistingPrefix]: an existing ancestor, resolved, and
    what is missing below it, joined.  Fuel: an element goes per round. *)
Fixpoint prefix_loop (fuel : nat) (path remainder : bytes) : option bytes :=
  match fuel with
  | O => None
  | S f =>
      match EvalSymlinks fs path with
      | Some resolved => Some (if bool_decide (remainder = []) then resolved else Join [resolved; remainder])
      | None =>
          let parent := Dir path in
          if bool_decide (parent = path) then Some (Join [path; remainder])
          else prefix_loop f parent (Join [Base path; remainder])
      end
  end.
Definition resolveExistingPrefix (path : bytes) : option bytes :=
  let path := Clean path in prefix_loop (length path + 2) path [].

(** [resolvesOutsideRoot]: the resolved path, and whether it is outside. *)
Definition resolvesOutsideRoot (root target : bytes) : option (bytes * bool) :=
  let realRoot := match EvalSymlinks fs root with Some r => r | None => Clean root end in
  real ← resolveExistingPrefix target;
  Some (real, match Rel realRoot real with None => true | Some rel => climbs rel end).

Section config.
Context (c : Config).

(** [Config.Abs] *)
Definition Abs (p : bytes) : bytes := if IsAbs p then p else Join [CfgDir c; p].

Definition lexically_outside (p : bytes) : bool :=
  match Rel (CfgDir c) p with None => true | Some rel => climbs rel end.

(** [matchEscapes]: the message when a match lies outside. *)
Definition matchEscapes (pat match_ : bytes) : option Arg :=
  let resolved := Clean match_ in
  if lexically_outside resolved then
    Some (msg "pattern %q matches %q, which escapes the project directory: a cloned repository could otherwise read arbitrary host files through queries/schema.files; keep patterns inside the project directory"
            [pat; resolved])
  else
    match resolvesOutsideRoot (CfgDir c) resolved with
    | Some (real, false) => None
    | Some (real, true) =>
        Some (msg "pattern %q matches %q, which escapes the project directory through a symlink (resolves to %q): a cloned repository could otherwise read arbitrary host files; keep patterns inside the project directory and remove any symlinked components"
                [pat; resolved; real])
    | None => Some (msg "" [])
    end.

(** [pathEscapeDiags] *)
Definition pathEscapeDiags (field : Arg) (p : bytes) (warnAbsolute : bool) : list Diagnostic :=
  let span := mkSpan (CfgPath c) 0 0 in
  if bool_decide (p = []) then []
  else if IsAbs p then
    if warnAbsolute then
      [WithHint "prefer a project-relative path so generated output stays inside the repository"
         (Warnf CodePathEscape span "%s %q is an absolute path: sqletch will write outside the project directory" [field; AStr p])]
    else []
  else
    let resolved := Clean (Join [CfgDir c; p]) in
    if lexically_outside resolved then
      [WithHintf "keep %s inside the project directory" [field]
         (Errorf CodePathEscape span "%s %q escapes the project directory (resolves to %q): a relative path climbing out with `..` is refused because a cloned repository could otherwise redirect writes to arbitrary locations"
            [field; AStr p; AStr resolved])]
    else
      match resolvesOutsideRoot (CfgDir c) resolved with
      | Some (real, false) => []
      | o =>
          [WithHintf "keep %s inside the project directory and remove any symlinked components" [field]
             (Errorf CodePathEscape span "%s %q escapes the project directory through a symlink (resolves to %q): a cloned repository could otherwise commit a directory symlink to redirect writes to arbitrary locations"
                [field; AStr p; AStr (match o with Some (real, _) => real | None => [] end)])]
      end.

(** [Config.rel] *)
Definition rel (abs : bytes) : bytes := match Rel (CfgDir c) abs with Some r => r | None => abs end.
End config.
End paths.

(** [token.IsIdentifier] and [token.Lookup(s).IsKeyword()]. *)
Class GoToken := { IsIdentifier : bytes -> bool; IsKeyword : bytes -> bool }.

(** [ResolvedTarget.Slug] *)
Definition slug_part (p : bytes) : bytes :=
  let p := if bool_decide (p = [] \/ p = bs "." \/ p = bs "..") then bs "_" else p in
  (fun c => if (c =b ":")%char then "_"%char else c) <$> p.
Definition Slug (path : bytes) : bytes :=
  let slug := join slash (slug_part <$> split_byte "/" (trim_first "/" path)) in
  if bool_decide (slug = []) then bs "_" else slug.

Record ResolvedTarget := mkResolved { RtPackage : bytes; RtPath : bytes; RtFiles : list bytes }.
Record Resolution := mkResolution { ResTargets : list ResolvedTarget; ResFiles : list bytes; ResDirs : list bytes }.

Section targets.
Context {go : GoToken} (Match : bytes -> bytes -> option bool) (fs : FS) (c : Config).

Abbreviation span := (mkSpan (CfgPath c) 0 0).
Definition target_id (i : nat) : Arg := ASprintf (bs "targets[%d]") [AInt (Z.of_nat i)].
Definition sub_id (i : nat) (field : string) : Arg := ASprintf (bs "%s" ++ bs field) [target_id i].

(** [packageDiag] *)
Definition packageDiag (id : Arg) (pkg : bytes) : option Diagnostic :=
  if IsIdentifier pkg && negb (IsKeyword pkg) && negb (bool_decide (pkg = bs "_")) then None
  else Some (WithHint "use a lowercase Go identifier, e.g. gen"
    (Errorf CodeConfigInvalid span "%s.output.package %q is not a Go package name: it is emitted verbatim as `package %s`" [id; AStr pkg; AStr pkg])).

Definition invalid (format : string) (args : list Arg) : Diagnostic := Errorf CodeConfigInvalid span format args.

(** [validateTarget].  Go visits the two fields in a random order, which shows
    in the order of their reports only; here the path comes first. *)
Definition check_refs (id : Arg) (st : nat * list Diagnostic) (f : bytes * bytes) : nat * list Diagnostic :=
  match MaxRef f.2 with
  | Err e => (st.1, st.2 ++ [invalid "%s.output.%s: %v" [id; AStr f.1; e]])
  | Ok n => (if Nat.ltb st.1 n then n else st.1, st.2)
  end.

Definition check_pattern (id : Arg) (need : nat) (pat : bytes) : list Diagnostic :=
  match Compile Match pat with
  | Err e => [invalid "%s.queries: %v" [id; e]]
  | Ok p =>
      if Nat.ltb (NumCaptures p) need then
        [invalid "%s.output references $%d but the pattern %q declares %d capture group(s): every pattern of a target must supply every capture its output substitutes, or the target's grouping would depend on which pattern matched"
           [id; AInt (Z.of_nat need); AStr pat; AInt (Z.of_nat (NumCaptures p))]]
      else []
  end.

Definition validateTarget (i : nat) (t : Target) : list Diagnostic :=
  let id := target_id i in
  let o := TgOutput t in
  let missing :=
    (if bool_decide (TgQueries t = []) then [invalid "%s.queries is required (patterns of template .sql/.go files)" [id]] else [])
    ++ (if bool_decide (OutPackage o = []) then [invalid "%s.output.package is required" [id]] else [])
    ++ (if bool_decide (OutPath o = []) then [invalid "%s.output.path is required" [id]] else []) in
  let '(need, refs) := foldl (check_refs id) (0, []) [(bs "path", OutPath o); (bs "package", OutPackage o)] in
  missing ++ refs ++ concat (check_pattern id need <$> TgQueries t)
  ++ (if HasCaptureRefs o then []
      else pathEscapeDiags fs c (sub_id i ".output.path") (OutPath o) true
           ++ (match packageDiag id (OutPackage o) with Some d => [d] | None => [] end)).

(** ** ResolveTargets *)

Record group := mkGroup { g_pkg : bytes; g_files : list bytes; g_seen : gset bytes }.
Record rstate := mkRState {
  rs_groups : gmap bytes group; rs_owner : gmap bytes bytes;
  rs_collided : gset bytes; rs_rejected : gset bytes;
  rs_dirSeen : gset bytes; rs_dirs : list bytes; rs_diags : list Diagnostic;
}.

Definition report (ds : list Diagnostic) (st : rstate) : rstate :=
  mkRState (rs_groups st) (rs_owner st) (rs_collided st) (rs_rejected st) (rs_dirSeen st) (rs_dirs st) (rs_diags st ++ ds).
Definition reject (out : bytes) (st : rstate) : rstate :=
  mkRState (rs_groups st) (rs_owner st) (rs_collided st) ({[out]} ∪ rs_rejected st) (rs_dirSeen st) (rs_dirs st) (rs_diags st).
(** Reported once for each key. *)
Definition collide (key : bytes) (d : Diagnostic) (st : rstate) : rstate :=
  if bool_decide (key ∈ rs_collided st) then st
  else report [d] (mkRState (rs_groups st) (rs_owner st) ({[key]} ∪ rs_collided st) (rs_rejected st) (rs_dirSeen st) (rs_dirs st) (rs_diags st)).

(** A file joins the group of its output. *)
Definition join_group (abs out pkg : bytes) (g : group) (st : rstate) : rstate :=
  if negb (bool_decide (g_pkg g = pkg)) then
    collide out (WithHint "give the two targets distinct output paths, or the same package name"
      (Errorf CodeTargetCollision span "two targets generate into %q with different package names (%q and %q): one directory is one Go package"
         [AStr out; AStr (g_pkg g); AStr pkg])) st
  else
    let g := if bool_decide (abs ∈ g_seen g) then g else mkGroup (g_pkg g) (g_files g ++ [abs]) ({[abs]} ∪ g_seen g) in
    mkRState (<[out := g]> (rs_groups st)) (<[abs := out]> (rs_owner st)) (rs_collided st) (rs_rejected st) (rs_dirSeen st) (rs_dirs st) (rs_diags st).

(** The group of an output, made on first use after the checks a substituted
    output needs. *)
Definition with_group (i : nat) (o : Output) (abs out pkg : bytes) (st : rstate) : rstate :=
  match rs_groups st !! out with
  | Some g => join_group abs out pkg g st
  | None =>
      let ds := if HasCaptureRefs o then pathEscapeDiags fs c (sub_id i ".output.path") out true else [] in
      let st := report ds st in
      if HasErrors ds then reject out st
      else
        match (if HasCaptureRefs o then packageDiag (target_id i) pkg else None) with
        | Some d => reject out (report [d] st)
        | None =>
            let g := mkGroup pkg [] ∅ in
            join_group abs out pkg g
              (mkRState (<[out := g]> (rs_groups st)) (rs_owner st) (rs_collided st) (rs_rejected st) (rs_dirSeen st) (rs_dirs st) (rs_diags st))
        end
  end.

Definition resolve_match (i : nat) (o : Output) (pat : bytes) (st : rstate) (m : PathMatch) : rstate :=
  let abs := Abs c (m_path m) in
  match matchEscapes fs c pat abs with
  | Some e => report [Errorf CodePathEscape span "%s.queries: %s" [target_id i; e]] st
  | None =>
      match Substitute (OutPath o) (m_captures m) with
      | Err e => report [invalid "%s.output.path: %v" [target_id i; e]] st
      | Ok out =>
          match Substitute (OutPackage o) (m_captures m) with
          | Err e => report [invalid "%s.output.package: %v" [target_id i; e]] st
          | Ok pkg =>
              let go_on := if bool_decide (out ∈ rs_rejected st) then st else with_group i o abs out pkg st in
              match rs_owner st !! abs with
              | Some prev =>
                  if bool_decide (prev = out) then go_on
                  else collide abs (WithHint "narrow one target's patterns so each template file matches exactly one target"
                    (Errorf CodeTargetFileOverlap span "template file %q is claimed by two targets (output %q and %q): a query belongs to exactly one generated package"
                       [AStr (rel c abs); AStr prev; AStr out])) st
              | None => go_on
              end
          end
      end
  end.

Definition note_dir (st : rstate) (d : bytes) : rstate :=
  let abs := Abs c d in
  if bool_decide (abs ∈ rs_dirSeen st) then st
  else mkRState (rs_groups st) (rs_owner st) (rs_collided st) (rs_rejected st) ({[abs]} ∪ rs_dirSeen st) (rs_dirs st ++ [abs]) (rs_diags st).

Definition walk_error : Arg :=
  ASprintf (bs "%w (cap %d): narrow the pattern — a `**` near the project root walks the whole tree")
    [AStr (bs "pattern expansion examined too many directory entries"); AInt (Z.of_nat maxWalkEntries)].

Definition resolve_pattern (i : nat) (o : Output) (st : rstate) (pat : bytes) : rstate :=
  match Compile Match pat with
  | Err _ => st
  | Ok p =>
      match Walk Match fs maxWalkEntries p (CfgDir c) with
      | Err _ => report [invalid "%s.queries: %v" [target_id i; walk_error]] st
      | Ok res =>
          let st := foldl note_dir st (Dirs res) in
          match Matches res with
          | [] => report [WithHint "check the pattern for a typo; a target whose patterns match nothing generates no package"
                    (Warnf CodeTargetNoMatch span "%s.queries pattern %q matched no file" [target_id i; AStr pat])] st
          | ms => foldl (resolve_match i o pat) st ms
          end
      end
  end.

Definition resolve_target (st : rstate) (it : nat * Target) : rstate :=
  foldl (resolve_pattern it.1 (TgOutput it.2)) st (TgQueries it.2).

Definition sorted (l : list bytes) : list bytes := SliceStable bytes_ltb l.

Definition resolution (st : rstate) : Resolution :=
  let targets := (fun '(p, g) => mkResolved (g_pkg g) p (sorted (g_files g))) <$>
    omap (fun p => g ← rs_groups st !! p; Some (p, g)) (sorted (map_to_list (rs_groups st)).*1) in
  mkResolution targets (sorted (concat (RtFiles <$> targets))) (sorted (rs_dirs st)).

Definition ResolveTargets : Resolution * list Diagnostic :=
  let st := foldl resolve_target (mkRState ∅ ∅ ∅ ∅ ∅ [] []) (imap pair (CfgTargets c)) in
  (resolution st, rs_diags st).
End targets.
