(* ===== verification/TargetsProps.v ===== *)
(** * TargetsProps

    The path policy is exact on the elements of paths, the resolution of
    symbolic links ends, and the targets are a partition of the matched files
    among packages that lie inside the project. *)

From Stdlib Require Import Sorted.
From S2P Require Import Prelude Template Diagnostics ScanDirectives ScanBodies GoPath PathPat PathPatCompile PathPatWalk Targets.

(** ** The path policy *)

(** The last element and what is before it. *)
Lemma after_slash_app a e : avoids_slash e -> after_slash (a ++ slash ++ e) = e.
Proof.
  intros He. unfold after_slash. rewrite split_app_slash. rewrite <- (app_nil_r e) at 1. rewrite split_cons_app by done.
  cbn [split_byte]. rewrite app_nil_r. apply last_last.
Qed.

Lemma after_slash_none e : avoids_slash e -> after_slash e = e.
Proof. intros He. unfold after_slash. rewrite <- (app_nil_r e) at 1. rewrite split_cons_app by done. cbn. by rewrite app_nil_r. Qed.

Lemma join_snoc es e : es <> [] -> join slash (es ++ [e]) = join slash es ++ slash ++ e.
Proof.
  induction es as [|x es IH]; intros Hne; [done|]. destruct es as [|y es]; [done|].
  change (join slash ((x :: y :: es) ++ [e])) with (x ++ slash ++ join slash ((y :: es) ++ [e])).
  rewrite IH by done. change (join slash (x :: y :: es)) with (x ++ slash ++ join slash (y :: es)). by rewrite <- !app_assoc.
Qed.

Lemma normal_snoc rooted es e : normal rooted (es ++ [e]) -> normal rooted es.
Proof.
  intros (n & names & E & Hn & Hr). destruct names as [|x names _] using rev_ind.
  - rewrite app_nil_r in E. destruct n as [|n]; [by destruct es|]. rewrite replicate_S_end in E. apply app_inj_tail in E as [-> _].
    exists n, []. rewrite app_nil_r. split_and!; [done|constructor|]. intros H. specialize (Hr H). lia.
  - rewrite app_assoc in E. apply app_inj_tail in E as [-> _]. apply Forall_app in Hn as [Hn _]. by exists n, names.
Qed.

Lemma elems_slash_end p : elems (p ++ slash) = elems p \/ p = [].
Proof.
  destruct p as [|c p]; [by right|left]. unfold elems. rewrite !IsAbs_cons. cbn [app].
  change (c :: p ++ slash) with ((c :: p) ++ slash ++ []). rewrite split_app_slash, foldl_app. done.
Qed.

Lemma Clean_slash_end p : p <> [] -> Clean (p ++ slash) = Clean p.
Proof. intros Hp. unfold Clean. destruct (elems_slash_end p) as [->|?]; [|done]. by destruct p. Qed.

(** [Dir] drops the last element. *)
Lemma Dir_unelems rooted es e : normal rooted (es ++ [e]) -> Dir (unelems rooted (es ++ [e])) = unelems rooted es.
Proof.
  intros Hn. pose proof (normal_snoc _ _ _ Hn) as Hn'.
  assert (avoids_slash e) as He by (apply normal_avoids, Forall_app in Hn as [_ Hn]; by inversion Hn).
  assert (forall a, upto_slash (a ++ slash ++ e) = a ++ slash) as Hup.
  { intros a. unfold upto_slash. rewrite after_slash_app, app_assoc, length_app, Nat.add_sub by done. apply take_app_length. }
  unfold Dir. assert (exists q, upto_slash (unelems rooted (es ++ [e])) = q /\ Clean q = unelems rooted es) as (q & -> & ->); [|done].
  destruct es as [|x es].
  - destruct rooted; unfold unelems; cbn [app join].
    + exists slash. split; [apply (Hup [])|done].
    + exists []. split; [|done]. unfold upto_slash. rewrite after_slash_none by done. by rewrite Nat.sub_diag.
  - exists (unelems rooted (x :: es) ++ slash). split.
    + unfold unelems. destruct rooted; cbn [app]; [|rewrite app_comm_cons].
      * rewrite app_comm_cons, join_snoc by done. rewrite (app_assoc slash). rewrite Hup. done.
      * change (upto_slash (join slash ((x :: es) ++ [e])) = join slash (x :: es) ++ slash). rewrite join_snoc by done. apply Hup.
    + rewrite Clean_slash_end; [by apply Clean_unelems|]. intros E0. pose proof (elems_unelems _ _ Hn') as E1. by rewrite E0 in E1.
Qed.

Lemma Dir_root rooted : Dir (unelems rooted []) = unelems rooted [].
Proof. by destruct rooted. Qed.

(** [Base] is the last element. *)
Lemma Base_unelems rooted es e : normal rooted (es ++ [e]) -> Base (unelems rooted (es ++ [e])) = e.
Proof.
  intros Hn. pose proof (normal_elem _ _ Hn) as He. apply Forall_app in He as [_ He]. apply list.Forall_cons in He as [[Hne Ha] _].
  assert (exists a, unelems rooted (es ++ [e]) = a ++ e /\ after_slash (a ++ e) = e) as (a & -> & Ea).
  { unfold unelems. destruct es as [|x es].
    - destruct rooted; cbn [app join]; [exists slash|exists []]; (split; [done|]); [by apply (after_slash_app [])|by apply after_slash_none].
    - exists ((if rooted : bool then slash else []) ++ join slash (x :: es) ++ slash). split.
      + rewrite join_snoc by done. destruct rooted; by rewrite <- ?app_assoc.
      + rewrite <- !app_assoc, (assoc_L (++)). by apply after_slash_app. }
  destruct e as [|c e _] using rev_ind; [done|]. unfold Base.
  assert (trim_right (fun c => c =b "/")%char (a ++ e ++ [c]) = a ++ e ++ [c]) as ->.
  { unfold trim_right. rewrite (assoc_L (++)), rev_app_distr. cbn [rev app trim_left].
    destruct (Ascii.eqb_spec c "/") as [->|_]; [unfold avoids_slash in Ha; set_solver|].
    cbn. by rewrite rev_involutive. }
  destruct (a ++ e ++ [c]) as [|x l] eqn:E; [|by rewrite <- Ea].
  apply app_eq_nil in E as [_ E]. by apply app_eq_nil in E as [_ ?].
Qed.

Lemma normal_drop rooted k es : normal rooted es -> normal false (drop k es).
Proof.
  intros (n & names & -> & Hn & _). exists (n - k), (drop (k - n) names). split_and!; [|by apply Forall_drop|done].
  by rewrite drop_app, drop_replicate, length_replicate.
Qed.

Section policy.
Context (fs : FS).

(** Where a path leads: its longest part that exists, with its symbolic links
    resolved, and below it what does not exist yet, as written. *)
Inductive leads (p : bytes) : bytes -> Prop :=
  | leads_from before after real :
      elems p = before ++ after -> EvalSymlinks fs (unelems (IsAbs p) before) = Some real ->
      (forall x y, after = x ++ y -> x <> [] -> EvalSymlinks fs (unelems (IsAbs p) (before ++ x)) = None) ->
      leads p (match after with [] => real | _ => Join [real; join slash after] end)
  | leads_nowhere :
      (forall x y, elems p = x ++ y -> EvalSymlinks fs (unelems (IsAbs p) x) = None) -> leads p (Clean p).

Lemma leads_unique p a b : leads p a -> leads p b -> a = b.
Proof.
  intros [before after real E R N|N] [before' after' real' E' R' N'|N'].
  - assert (before = before' /\ after = after') as [<- <-].
    { rewrite E in E'. destruct (app_eq_inv _ _ _ _ E') as [(k & E1 & E2)|(k & E1 & E2)].
      - destruct k as [|x k]; [rewrite app_nil_r in E1; by subst|].
        rewrite E1, (N' (x :: k) after) in R; [done..|]. done.
      - destruct k as [|x k]; [rewrite app_nil_r in E1; by subst|].
        rewrite E1, (N (x :: k) after') in R'; [done..|]. done. }
    assert (real = real') as -> by congruence. done.
  - by rewrite (N' _ _ E) in R.
  - by rewrite (N _ _ E') in R'.
  - done.
Qed.

Lemma Join_element e es : normal false (e :: es) -> Join [e; join slash es] = join slash (e :: es).
Proof.
  intros Hn. pose proof (normal_elem _ _ Hn) as He. apply list.Forall_cons in He as [[He _] _]. destruct e as [|c e]; [done|].
  unfold Join. destruct es as [|x es]; [|exact (Clean_unelems false _ Hn)].
  change (Clean ((c :: e) ++ slash) = c :: e). rewrite Clean_slash_end by done. exact (Clean_unelems false _ Hn).
Qed.

Lemma Join_nowhere rooted es : normal rooted es -> Join [unelems rooted []; join slash es] = unelems rooted es.
Proof.
  intros Hn. assert (unelems rooted [] <> []) as Hne by by destruct rooted.
  assert (exists q, Join [unelems rooted []; join slash es] = Clean q) as [q Eq].
  { destruct (unelems rooted []) as [|c d]; [done|]. by eexists. }
  pose proof (elems_Join (unelems rooted []) (join slash es) Hne) as E. pose proof (IsAbs_Join (unelems rooted []) (join slash es) Hne) as A.
  rewrite Eq in *. rewrite <- Clean_idemp. unfold Clean at 1. rewrite A, E. rewrite IsAbs_unelems, elems_unelems by by exists 0, [].
  f_equal. destruct es as [|e es].
  - by destruct rooted.
  - rewrite split_join; [|by eapply normal_avoids|done]. rewrite clean_fixed by done. rewrite app_nil_r. apply rev_involutive.
Qed.

Lemma prefix_loop_leads p f : forall before after real, elems p = before ++ after ->
  (forall x y, after = x ++ y -> x <> [] -> EvalSymlinks fs (unelems (IsAbs p) (before ++ x)) = None) ->
  prefix_loop fs f (unelems (IsAbs p) before) (join slash after) = Some real -> leads p real.
Proof.
  pose proof (elems_normal p) as Hnp. induction f as [|f IH]; intros before after real E N; [done|]. cbn [prefix_loop].
  assert (normal false after) as Hna by (apply (normal_drop _ (length before)) in Hnp; by rewrite E, drop_app_length in Hnp).
  destruct (EvalSymlinks fs _) as [r|] eqn:R.
  - intros [= <-]. pose proof (leads_from p before after r E R N) as H. destruct after as [|x after]; [done|].
    rewrite bool_decide_eq_false_2; [done|]. pose proof (normal_elem _ _ Hna) as He. apply list.Forall_cons in He as [[He _] _].
    destruct x; [done|]. by destruct after.
  - destruct before as [|e before _] using rev_ind.
    + rewrite Dir_root, bool_decide_eq_true_2 by done. intros Hr. apply (inj Some) in Hr. subst real. cbn [app] in E.
      rewrite E in Hnp. rewrite Join_nowhere, <- E by done.
      apply leads_nowhere. intros x y Exy. destruct x as [|e x]; [done|]. apply (N (e :: x) y); [congruence|done].
    + assert (normal (IsAbs p) (before ++ [e])) as Hnb.
      { rewrite E in Hnp. destruct after as [|y after _] using rev_ind; [by rewrite app_nil_r in Hnp|].
        clear -Hnp. revert Hnp. generalize (before ++ [e]) as l. intros l. induction (after ++ [y]) as [|z k IHk] using rev_ind; [by rewrite app_nil_r|].
        rewrite (assoc_L (++)). intros H%normal_snoc. by apply IHk. }
      rewrite Dir_unelems, Base_unelems by done. case_bool_decide as Eq.
      { apply unelems_inj in Eq; [|by eapply normal_snoc|done]. apply (f_equal length) in Eq. rewrite length_app in Eq. cbn in Eq. lia. }
      assert (elems p = before ++ e :: after) as E' by (by rewrite E, <- app_assoc).
      rewrite Join_element by (apply (normal_drop _ (length before)) in Hnp; by rewrite E', drop_app_length in Hnp).
      apply IH; [done|]. intros [|x xs] y; [done|]. intros [= <- ->] _. destruct xs as [|x xs]; [done|].
      change (e :: x :: xs) with ([e] ++ x :: xs). rewrite (assoc_L (++)). by apply (N (x :: xs) y).
Qed.

Lemma prefix_loop_total f rooted es remainder : normal rooted es -> length es < f -> is_Some (prefix_loop fs f (unelems rooted es) remainder).
Proof.
  revert es remainder. induction f as [|f IH]; intros es remainder Hn Hf; [lia|]. cbn [prefix_loop].
  destruct (EvalSymlinks fs _); [done|]. destruct es as [|e es _] using rev_ind.
  - rewrite Dir_root, bool_decide_eq_true_2 by done. done.
  - rewrite Dir_unelems by done. case_bool_decide; [done|]. apply IH; [by eapply normal_snoc|]. rewrite length_app in Hf. cbn in Hf. lia.
Qed.

Lemma length_join_le es : Forall (fun e => e <> [] /\ avoids_slash e) es -> length es <= length (join slash es).
Proof.
  induction es as [|e es IH]; intros Hes; [done|]. inversion_clear Hes as [|? ? [He _] Hes']. specialize (IH Hes').
  destruct es as [|e' es]; [destruct e; [done|cbn; lia]|].
  change (join slash (e :: e' :: es)) with (e ++ slash ++ join slash (e' :: es)). rewrite !length_app. cbn [length] in *. change (length slash) with 1. lia.
Qed.

Lemma length_unelems rooted es : normal rooted es -> length es <= length (unelems rooted es).
Proof.
  intros Hn. pose proof (length_join_le es (normal_elem _ _ Hn)) as Hl. unfold unelems. destruct rooted; [rewrite length_app; lia|].
  destruct es; [cbn; lia|done].
Qed.

(** The resolution of a path ends. *)
Lemma resolveExistingPrefix_total p : is_Some (resolveExistingPrefix fs p).
Proof.
  unfold resolveExistingPrefix. cbv zeta. unfold Clean. apply prefix_loop_total; [apply elems_normal|].
  pose proof (length_unelems _ _ (elems_normal p)). lia.
Qed.

(** [resolveExistingPrefix] finds where a path leads. *)
Lemma resolveExistingPrefix_leads p real : resolveExistingPrefix fs p = Some real <-> leads p real.
Proof.
  assert (forall r, resolveExistingPrefix fs p = Some r -> leads p r) as H.
  { intros r. unfold resolveExistingPrefix, Clean. apply (prefix_loop_leads p _ (elems p) []); [by rewrite app_nil_r|].
    intros x y Exy Hx. symmetry in Exy. by apply app_eq_nil in Exy as [? _]. }
  split; [apply H|]. intros Hl. destruct (resolveExistingPrefix_total p) as [r Hr]. rewrite Hr. f_equal.
  by apply (leads_unique p); [apply H|].
Qed.

Definition real_of (root : bytes) : bytes := match EvalSymlinks fs root with Some r => r | None => Clean root end.

(** Where a path leads lies inside the real root. *)
Definition really_inside (root p : bytes) : Prop := exists real, leads p real /\ inside (real_of root) real.

Lemma resolvesOutsideRoot_spec root p :
  (exists real, resolvesOutsideRoot fs root p = Some (real, false)) <-> really_inside root p.
Proof.
  unfold resolvesOutsideRoot, really_inside. destruct (resolveExistingPrefix_total p) as [real Hr].
  pose proof Hr as Hl%resolveExistingPrefix_leads. rewrite Hr. cbn. fold (real_of root). split.
  - intros (r & [= <- H]). exists real. split; [done|]. apply Rel_inside. destruct (Rel _ real) as [q|]; [by exists q|done].
  - intros (r & Hr' & (q & E & Hc)%Rel_inside). assert (r = real) as -> by (by eapply leads_unique). exists real. by rewrite E, Hc.
Qed.

Lemma lexically_outside_spec c p : lexically_outside c p = false <-> inside (CfgDir c) p.
Proof.
  unfold lexically_outside. rewrite <- Rel_inside. destruct (Rel (CfgDir c) p) as [r|]; [|naive_solver]. naive_solver.
Qed.

Lemma inside_Clean base p : inside base (Clean p) <-> inside base p.
Proof. unfold inside. by rewrite IsAbs_Clean, elems_Clean. Qed.

(** The path stays in the project, as written and as resolved. *)
Definition confined (c : Config) (p : bytes) : Prop := inside (CfgDir c) p /\ really_inside (CfgDir c) (Clean p).

Lemma matchEscapes_spec c pat m : matchEscapes fs c pat m = None <-> confined c m.
Proof.
  unfold matchEscapes, confined. rewrite <- inside_Clean, <- lexically_outside_spec, <- resolvesOutsideRoot_spec. cbv zeta.
  destruct (lexically_outside c (Clean m)); [naive_solver|]. destruct (resolvesOutsideRoot _ _ _) as [[real []]|]; naive_solver.
Qed.

(** Where output may be written. *)
Definition writable (c : Config) (p : bytes) : Prop := p = [] \/ IsAbs p = true \/ confined c (Join [CfgDir c; p]).

Ltac policy_cases c :=
  unfold pathEscapeDiags, writable, confined; rewrite <- (inside_Clean _ (Join _)), <- lexically_outside_spec, <- resolvesOutsideRoot_spec; cbv zeta;
  case_bool_decide; [naive_solver|]; destruct (IsAbs _); [|destruct (lexically_outside c _); [|destruct (resolvesOutsideRoot _ _ _) as [[? []]|]]].

Lemma pathEscapeDiags_errors c field p warn : HasErrors (pathEscapeDiags fs c field p warn) = false <-> writable c p.
Proof. policy_cases c; [destruct warn|..]; cbn; naive_solver. Qed.

Lemma pathEscapeDiags_none c field p warn :
  pathEscapeDiags fs c field p warn = [] <-> p = [] \/ (IsAbs p = true /\ warn = false) \/ (IsAbs p = false /\ confined c (Join [CfgDir c; p])).
Proof. policy_cases c; [destruct warn|..]; cbn; naive_solver. Qed.

(** C15: the path policy is exact: a configured relative path is accepted
    exactly when it stays in the project directory, its elements extending the
    directory's, as written and also where it leads ([leads]: the symbolic links
    of its longest existing part are followed, and the rest, which does not
    exist yet, is joined to that as written); an absolute path is accepted, with a warning for an
    output; a match of a pattern is accepted by the same rule. *)
Theorem path_policy_exact c field p warn :
  (HasErrors (pathEscapeDiags fs c field p warn) = false <->
   p = [] \/ IsAbs p = true \/ confined c (Join [CfgDir c; p])) /\
  (pathEscapeDiags fs c field p warn = [] <->
   p = [] \/ (IsAbs p = true /\ warn = false) \/ (IsAbs p = false /\ confined c (Join [CfgDir c; p]))) /\
  (forall pat m, matchEscapes fs c pat m = None <-> confined c m).
Proof. split_and!; [apply pathEscapeDiags_errors|apply pathEscapeDiags_none|intros; apply matchEscapes_spec]. Qed.
End policy.

(** ** TargetsDemo

    A configuration over the directory of [PathDemo], for the instances of the
    theorems on targets. *)

#[export] Instance demo_go : GoToken := {|
  IsIdentifier s := negb (bool_decide (s = [])) && forallb (fun c => (("a" <=b c) && (c <=b "z"))%char) s;
  IsKeyword s := bool_decide (s = bs "func");
|}.

(** The files of a directory [d] of [q] go to the package [gd] in [gen/d]. *)
Definition demo_target : Target :=
  mkTarget [bs "q/(*)/*.sql"] (mkOutput (bs "g$1") (bs "gen/$1")).
Definition demo_config (targets : list Target) : Config := mkConfig targets (bs "/p") (bs "/p/sqletch.yaml").

(** The paths, packages and files of the targets. *)
Definition shown (r : Resolution) : list (bytes * bytes * list bytes) := (fun t => (RtPath t, RtPackage t, RtFiles t)) <$> ResTargets r.

Example demo_resolution : let '(r, ds) := ResolveTargets demo_match demo_fs (demo_config [demo_target]) in
  shown r = [(bs "gen/a", bs "ga", [bs "/p/q/a/x.sql"]); (bs "gen/b", bs "gb", [bs "/p/q/b/z.sql"])] /\ ds = [].
Proof. vm_compute. split; reflexivity. Qed.

(** ** TargetsTheorems

    The properties of [ResolveTargets], for any configuration, file system and
    matcher. *)

(** ** TargetsResolve

    What [ResolveTargets] returns: the targets are a partition of the matched
    files, each file and output inside the project, and without an error
    nothing that matched is lost. *)

(** ** Lists and reports *)

Lemma HasErrors_app ds es : HasErrors (ds ++ es) = HasErrors ds || HasErrors es.
Proof. apply existsb_app. Qed.

Definition bytes_le (a b : bytes) : Prop := bytes_ltb b a = false.

Lemma sorted_sorted l : StronglySorted bytes_le (sorted l).
Proof. apply SliceStable_sorted; [intros a b c; apply bytes_le_trans|intros a b; apply bytes_less_le]. Qed.

Lemma sorted_perm l : sorted l ≡ₚ l.
Proof. apply SliceStable_perm. Qed.

#[export] Instance bytes_le_dec a b : Decision (bytes_le a b) := decide (bytes_ltb b a = false).

(** Substitution of a text without references. *)
Lemma substitute_loop_plain f s captures rest out : "$"%char ∉ rest -> length rest <= f ->
  substitute_loop f s captures rest out = Ok (out ++ rest).
Proof.
  revert rest out. induction f as [|f IH]; intros [|c rest] out Hd Hf; cbn [length] in Hf; try lia; cbn [substitute_loop]; [by rewrite app_nil_r..|].
  destruct (Ascii.eqb_spec c "$") as [->|_]; [set_solver|]. rewrite IH by (set_solver || lia). by rewrite <- app_assoc.
Qed.

Lemma Substitute_plain s captures : contains "$" s = false -> Substitute s captures = Ok s.
Proof. intros Hd%contains_false. by apply substitute_loop_plain. Qed.

Section targets.
Context {go : GoToken} (Match : bytes -> bytes -> option bool) (fs : FS) (c : Config).
Abbreviation confined := (confined fs c).
Abbreviation writable := (writable fs c).

Definition legal_package (k : bytes) : Prop := IsIdentifier k = true /\ IsKeyword k = false /\ k <> bs "_".

Lemma packageDiag_spec id k : packageDiag c id k = None <-> legal_package k.
Proof.
  clear Match fs. unfold packageDiag, legal_package. destruct (IsIdentifier k), (IsKeyword k); cbn; try naive_solver. case_bool_decide; naive_solver.
Qed.

Lemma packageDiag_error id k d ds : packageDiag c id k = Some d -> HasErrors (ds ++ [d]) = true.
Proof. unfold packageDiag. rewrite HasErrors_app. destruct (_ && _); [done|]. intros [= <-]. apply orb_true_r. Qed.

(** ** The claims of the configuration

    A match of a pattern of a target claims its file for the output and the
    package its captures give. *)
Definition matched (pat : bytes) (m : PathMatch) : Prop :=
  exists p res, Compile Match pat = Ok p /\ Walk Match fs maxWalkEntries p (CfgDir c) = Ok res /\ m ∈ Matches res.

Definition claim (o : Output) (m : PathMatch) (f p k : bytes) : Prop :=
  f = Abs c (m_path m) /\ Substitute (OutPath o) (m_captures m) = Ok p /\ Substitute (OutPackage o) (m_captures m) = Ok k.

Definition claimed (f p k : bytes) : Prop :=
  exists t pat m, t ∈ CfgTargets c /\ pat ∈ TgQueries t /\ matched pat m /\ claim (TgOutput t) m f p k.

(** ** The invariant of the resolution *)

Record rs_inv (P : bytes -> bytes -> bytes -> Prop) (legal : bytes -> bytes -> Prop) (st : rstate) : Prop := {
  inv_seen : forall p g, rs_groups st !! p = Some g ->
    NoDup (g_files g) /\ g_files g <> [] /\ (forall f, f ∈ g_seen g <-> f ∈ g_files g) /\ legal p (g_pkg g);
  inv_owner : forall p g f, rs_groups st !! p = Some g -> f ∈ g_files g -> rs_owner st !! f = Some p /\ P f p (g_pkg g);
  inv_err : rs_collided st <> ∅ \/ rs_rejected st <> ∅ -> HasErrors (rs_diags st) = true;
  inv_dirs : NoDup (rs_dirs st) /\ forall d, d ∈ rs_dirSeen st <-> d ∈ rs_dirs st;
}.

(** What later steps keep. *)
Record grows (st st' : rstate) : Prop := {
  grow_diags : rs_diags st `prefix_of` rs_diags st';
  grow_groups : forall p g, rs_groups st !! p = Some g ->
    exists g', rs_groups st' !! p = Some g' /\ g_pkg g' = g_pkg g /\ g_files g ⊆ g_files g';
}.

#[local] Instance grows_preorder : PreOrder grows.
Proof.
  split.
  - intros st. split; [done|]. intros p g Hg. by exists g.
  - intros s1 s2 s3 [Hd1 Hg1] [Hd2 Hg2]. split; [by etrans|]. intros p g (g1 & H1 & E1 & S1)%Hg1.
    apply Hg2 in H1 as (g2 & H2 & E2 & S2). exists g2. split_and!; [done|congruence|set_solver].
Qed.

(** The file sits in the target of its claim, or an error was reported. *)
Definition settled (f p k : bytes) (st : rstate) : Prop :=
  HasErrors (rs_diags st) = true \/ exists g, rs_groups st !! p = Some g /\ g_pkg g = k /\ f ∈ g_files g.

Lemma settled_grows f p k st st' : grows st st' -> settled f p k st -> settled f p k st'.
Proof.
  intros [[ds Hd] Hg] [He|(g & H & E & Hf)].
  - left. by rewrite Hd, HasErrors_app, He.
  - right. apply Hg in H as (g' & H & E' & S). exists g'. split_and!; [done|congruence|set_solver].
Qed.

Lemma grows_same st st' : rs_groups st' = rs_groups st -> rs_diags st `prefix_of` rs_diags st' -> grows st st'.
Proof. intros Hg Hd. split; [done|]. rewrite Hg. intros p g H. by exists g. Qed.

Section steps.
Context (P : bytes -> bytes -> bytes -> Prop) (legal : bytes -> bytes -> Prop).
Abbreviation inv := (rs_inv P legal).

Lemma report_inv ds st : inv st -> inv (report ds st).
Proof. intros [H1 H2 H3 H4]. split; [exact H1|exact H2| |exact H4]. intros H. cbn. by rewrite HasErrors_app, H3. Qed.

Lemma report_grows ds st : grows st (report ds st).
Proof. apply grows_same; [done|]. by apply prefix_app_r. Qed.

Lemma report_error ds st f p k : HasErrors ds = true -> settled f p k (report ds st).
Proof. intros H. left. cbn. rewrite HasErrors_app, H. apply orb_true_r. Qed.

Lemma reject_inv out st : HasErrors (rs_diags st) = true -> inv st -> inv (reject out st).
Proof. intros He [H1 H2 H3 H4]. by split. Qed.

Lemma reject_grows out st : grows st (reject out st).
Proof. by apply grows_same. Qed.

Lemma collide_ok key d st f p k : DSeverity d = Error -> inv st -> inv (collide key d st) /\ grows st (collide key d st) /\ settled f p k (collide key d st).
Proof.
  intros Hs Hinv. unfold collide. case_bool_decide as Hk.
  - split_and!; [done|done|]. left. apply (inv_err _ _ _ Hinv). left. set_solver.
  - assert (HasErrors [d] = true) as Hd by (cbn; by rewrite Hs). destruct Hinv as [H1 H2 H3 H4]. split_and!.
    + split; [exact H1|exact H2| |exact H4]. intros _. cbn. rewrite HasErrors_app, Hd. apply orb_true_r.
    + apply grows_same; [done|]. by apply prefix_app_r.
    + by apply report_error.
Qed.

Definition put (abs out : bytes) (g : group) (st : rstate) : rstate :=
  mkRState (<[out := g]> (rs_groups st)) (<[abs := out]> (rs_owner st)) (rs_collided st) (rs_rejected st) (rs_dirSeen st) (rs_dirs st) (rs_diags st).

Definition group_ok (out : bytes) (g : group) : Prop :=
  NoDup (g_files g) /\ (forall f, f ∈ g_seen g <-> f ∈ g_files g) /\ legal out (g_pkg g).

Definition add_file (abs : bytes) (g : group) : group :=
  if bool_decide (abs ∈ g_seen g) then g else mkGroup (g_pkg g) (g_files g ++ [abs]) ({[abs]} ∪ g_seen g).

Lemma add_file_ok abs out g : group_ok out g -> group_ok out (add_file abs g) /\ g_pkg (add_file abs g) = g_pkg g /\
  forall f, f ∈ g_files (add_file abs g) <-> f = abs \/ f ∈ g_files g.
Proof.
  intros (Hnd & Hs & Hl). unfold add_file. case_bool_decide as Ha; [split_and!; [done..|set_solver]|]. split_and!; [|done|cbn; set_solver].
  split_and!; [|cbn; set_solver|done]. apply list.NoDup_app. split_and!; [done|set_solver|apply NoDup_singleton].
Qed.

Lemma put_inv abs out g st : inv st -> group_ok out g -> P abs out (g_pkg g) ->
  rs_owner st !! abs = None \/ rs_owner st !! abs = Some out ->
  (forall f, f ∈ g_files g -> rs_owner st !! f = Some out /\ P f out (g_pkg g)) ->
  inv (put abs out (add_file abs g) st).
Proof.
  intros [H1 H2 H3 H4] Hg Hp Ho Hf. destruct (add_file_ok abs _ _ Hg) as ((? & ? & ?) & Epkg & Ef). split; [..|exact H3|exact H4].
  - intros p g'. cbn [rs_groups put]. destruct (decide (p = out)) as [->|]; [rewrite lookup_insert_eq; intros [= <-]|rewrite lookup_insert_ne by done; eauto].
    split_and!; [done| |done|done]. intros E. specialize (Ef abs). rewrite E in Ef. set_solver.
  - intros p g' f. cbn [rs_groups rs_owner put]. destruct (decide (p = out)) as [->|].
    + rewrite lookup_insert_eq. intros [= <-] [->|Hin]%Ef; rewrite Epkg; [by rewrite lookup_insert_eq|].
      destruct (decide (f = abs)) as [->|]; [by rewrite lookup_insert_eq|]. rewrite lookup_insert_ne by done. by apply Hf.
    + rewrite lookup_insert_ne by done. intros Hg' Hin. destruct (H2 _ _ _ Hg' Hin) as [Hof Hpf]. split; [|done].
      destruct (decide (f = abs)) as [->|]; [naive_solver|by rewrite lookup_insert_ne].
Qed.

Lemma put_grows abs out g st : group_ok out g ->
  (forall g0, rs_groups st !! out = Some g0 -> g_pkg g0 = g_pkg g /\ g_files g0 ⊆ g_files g) -> grows st (put abs out (add_file abs g) st).
Proof.
  intros Hg H0. destruct (add_file_ok abs _ _ Hg) as (_ & Epkg & Ef). split; [done|]. intros p g' Hp. cbn [rs_groups put].
  destruct (decide (p = out)) as [->|]; [|rewrite lookup_insert_ne by done; by exists g'].
  rewrite lookup_insert_eq. eexists. split; [done|]. destruct (H0 _ Hp) as [E Hsub]. split; [congruence|]. set_solver.
Qed.

Lemma put_settled abs out g st : group_ok out g -> settled abs out (g_pkg g) (put abs out (add_file abs g) st).
Proof.
  intros Hg. destruct (add_file_ok abs _ _ Hg) as (_ & Epkg & Ef). right. eexists. cbn [rs_groups put]. rewrite lookup_insert_eq.
  split_and!; [done..|]. set_solver.
Qed.

(** One step on a claim: the invariant, growth, and the claim is settled. *)
Definition good_step (f p k : bytes) (st st' : rstate) : Prop := inv st' /\ grows st st' /\ settled f p k st'.

Lemma with_group_ok i o f p k st : inv st -> P f p k ->
  (forall i, (if HasCaptureRefs o then HasErrors (pathEscapeDiags fs c (sub_id i ".output.path") p true) = false /\ packageDiag c (target_id i) k = None else True) -> legal p k) ->
  rs_owner st !! f = None \/ rs_owner st !! f = Some p ->
  good_step f p k st (with_group fs c i o f p k st).
Proof.
  intros Hinv HP Hlegal Ho. unfold with_group. destruct (rs_groups st !! p) as [g|] eqn:Eg.
  - unfold join_group. fold (add_file f g). case_bool_decide as Ek; cbn [negb]; [|by apply collide_ok].
    subst k. destruct (inv_seen _ _ _ Hinv _ _ Eg) as (? & ? & ? & ?). assert (group_ok p g) as Hg by done.
    pose proof (fun f => inv_owner _ _ _ Hinv _ _ f Eg) as Hown.
    split_and!; [by apply put_inv|apply put_grows; [done|naive_solver]|by apply put_settled].
  - specialize (Hlegal i). set (ds := if HasCaptureRefs o then _ else _). destruct (HasErrors ds) eqn:Ed.
    { split_and!; [| |by apply report_error].
      - apply reject_inv; [|by apply report_inv]. cbn. rewrite HasErrors_app, Ed. apply orb_true_r.
      - etrans; [apply (report_grows ds)|apply reject_grows]. }
    destruct (if HasCaptureRefs o then packageDiag c (target_id i) k else None) as [d|] eqn:Epd.
    { destruct (HasCaptureRefs o); [|done]. assert (HasErrors [d] = true) as Hd by exact (packageDiag_error _ _ _ [] Epd).
      split_and!; [| |by apply report_error].
      - apply reject_inv; [|by do 2 apply report_inv]. cbn. rewrite HasErrors_app, Hd. apply orb_true_r.
      - etrans; [apply (report_grows ds)|]. etrans; [apply (report_grows [d])|apply reject_grows]. }
    unfold join_group. fold (add_file f (mkGroup k [] ∅)). cbn [g_pkg]. rewrite bool_decide_eq_true_2 by done. cbn [negb rs_groups].
    rewrite insert_insert_eq. set (g := mkGroup k [] ∅).
    assert (group_ok p g) as Hg.
    { split_and!; [constructor|set_solver|]. apply Hlegal. by destruct (HasCaptureRefs o). }
    change (good_step f p k st (put f p (add_file f g) (report ds st))).
    split_and!; [apply put_inv; [by apply report_inv|done|done|done|set_solver]| |exact (put_settled f p g (report ds st) Hg)].
    etrans; [apply (report_grows ds)|]. apply put_grows; [done|]. cbn. rewrite Eg. done.
Qed.

(** A loop of steps that keep the invariant and grow the state keeps what each
    of them establishes. *)
Lemma fold_steps {X} (step : rstate -> X -> rstate) (Q : X -> rstate -> Prop) l st :
  (forall x st, x ∈ l -> inv st -> inv (step st x) /\ grows st (step st x) /\ Q x (step st x)) ->
  (forall x st st', grows st st' -> Q x st -> Q x st') -> inv st ->
  inv (foldl step st l) /\ grows st (foldl step st l) /\ forall x, x ∈ l -> Q x (foldl step st l).
Proof.
  intros Hstep HQ. revert st. induction l as [|x l IH]; intros st Hinv; cbn [foldl]; [split_and!; [done|done|set_solver]|].
  destruct (Hstep x st) as (Hi & Hg & Hx); [set_solver|done|]. destruct (IH (fun y s H => Hstep y s (list_elem_of_further _ _ _ H)) _ Hi) as (Hi' & Hg' & Hl).
  split_and!; [done|by etrans|]. intros y [->|Hy]%elem_of_cons; [by eapply HQ|by apply Hl].
Qed.

(** A match is dealt with when its file sits in the target it claims. *)
Definition placed (o : Output) (m : PathMatch) (st : rstate) : Prop :=
  HasErrors (rs_diags st) = true \/ exists f p k, claim o m f p k /\ confined f /\ settled f p k st.

Lemma placed_grows o m st st' : grows st st' -> placed o m st -> placed o m st'.
Proof.
  intros Hg [He|(f & p & k & Hc & Hf & Hs)]; [|right; exists f, p, k; split_and!; [done..|by eapply settled_grows]].
  left. destruct Hg as [[ds ->] _]. by rewrite HasErrors_app, He.
Qed.

(** What the configuration must give for a group that is made without checks. *)
Definition outputs_legal (o : Output) : Prop :=
  forall i p k, (exists captures, Substitute (OutPath o) captures = Ok p /\ Substitute (OutPackage o) captures = Ok k) ->
  (if HasCaptureRefs o then HasErrors (pathEscapeDiags fs c (sub_id i ".output.path") p true) = false /\ packageDiag c (target_id i) k = None else True) -> legal p k.

Lemma resolve_match_ok i o pat m st : inv st -> outputs_legal o -> (forall f p k, claim o m f p k -> confined f -> P f p k) ->
  inv (resolve_match fs c i o pat st m) /\ grows st (resolve_match fs c i o pat st m) /\ placed o m (resolve_match fs c i o pat st m).
Proof.
  intros Hinv Hlegal HP. unfold resolve_match. cbv zeta. set (f := Abs c (m_path m)).
  assert (forall d, DSeverity d = Error -> inv (report [d] st) /\ grows st (report [d] st) /\ placed o m (report [d] st)) as Herr.
  { intros d Hd. split_and!; [by apply report_inv|apply report_grows|]. left. cbn. rewrite HasErrors_app. cbn. rewrite Hd. apply orb_true_r. }
  destruct (matchEscapes _ _ _ _) eqn:Eesc; [by apply Herr|]. apply matchEscapes_spec in Eesc.
  destruct (Substitute (OutPath o) _) as [p|e] eqn:Ep; [|by apply Herr].
  destruct (Substitute (OutPackage o) _) as [k|e] eqn:Ek; [|by apply Herr].
  assert (claim o m f p k) as Hclaim by done.
  assert (forall st', good_step f p k st st' -> inv st' /\ grows st st' /\ placed o m st') as Hgood.
  { intros st' (H1 & H2 & H3). split_and!; [done|done|]. right. by exists f, p, k. }
  assert (rs_owner st !! f = None \/ rs_owner st !! f = Some p ->
    good_step f p k st (if bool_decide (p ∈ rs_rejected st) then st else with_group fs c i o f p k st)) as Hgo.
  { intros Ho. case_bool_decide as Hr.
    - split_and!; [done|done|]. left. apply (inv_err _ _ _ Hinv). right. set_solver.
    - apply with_group_ok; [done|by apply HP| |done]. intros i'. apply Hlegal. by exists (m_captures m). }
  apply Hgood. destruct (rs_owner st !! f) as [prev|]; [|apply Hgo; by left].
  destruct (bool_decide (prev = p)) eqn:Hp; [apply Hgo; right; by apply bool_decide_eq_true in Hp as ->|]. by apply collide_ok.
Qed.

Lemma note_dir_ok d st : inv st -> inv (note_dir c st d) /\ grows st (note_dir c st d) /\ True.
Proof.
  intros Hinv. unfold note_dir. cbv zeta. case_bool_decide as Hd; [done|]. destruct Hinv as [H1 H2 H3 [H4 H5]].
  split_and!; [split; [exact H1|exact H2|exact H3|]|by apply grows_same|done].
  cbn. split; [apply list.NoDup_app; split_and!; [done|set_solver|apply NoDup_singleton]|set_solver].
Qed.

(** A pattern is dealt with when all its matches are. *)
Definition expanded (o : Output) (pat : bytes) (st : rstate) : Prop :=
  HasErrors (rs_diags st) = true \/ forall p, Compile Match pat = Ok p ->
    exists res, Walk Match fs maxWalkEntries p (CfgDir c) = Ok res /\ forall m, m ∈ Matches res -> placed o m st.

Lemma expanded_grows o pat st st' : grows st st' -> expanded o pat st -> expanded o pat st'.
Proof.
  intros Hg [He|Hx]; [left; destruct Hg as [[ds ->] _]; by rewrite HasErrors_app, He|right].
  intros p (res & Hw & Hm)%Hx. exists res. split; [done|]. intros m Hin%Hm. by eapply placed_grows.
Qed.

Lemma resolve_pattern_ok i o pat st : inv st -> outputs_legal o ->
  (forall m f p k, matched pat m -> claim o m f p k -> confined f -> P f p k) ->
  inv (resolve_pattern Match fs c i o st pat) /\ grows st (resolve_pattern Match fs c i o st pat) /\ expanded o pat (resolve_pattern Match fs c i o st pat).
Proof.
  intros Hinv Hlegal HP. unfold resolve_pattern. destruct (Compile Match pat) as [p|e] eqn:Ep.
  2:{ split_and!; [done|done|right; by rewrite Ep]. }
  destruct (Walk _ _ _ _ _) as [res|e] eqn:Ew.
  2:{ split_and!; [by apply report_inv|apply report_grows|]. left. cbn. rewrite HasErrors_app. apply orb_true_r. }
  destruct (fold_steps (note_dir c) (fun _ _ => True) (Dirs res) st) as (Hi1 & Hg1 & _); [intros; by apply note_dir_ok|done|done|].
  set (st1 := foldl _ _ _) in *.
  assert (forall st2, grows st st2 -> (forall m, m ∈ Matches res -> placed o m st2) -> expanded o pat st2) as Hexp.
  { intros st2 _ Hm. right. intros p'. rewrite Ep. intros [= <-]. eauto. }
  destruct (Matches res) as [|m0 ms] eqn:Em.
  - pose proof (report_grows [WithHint "check the pattern for a typo; a target whose patterns match nothing generates no package"
      (Warnf CodeTargetNoMatch (mkSpan (CfgPath c) 0 0) "%s.queries pattern %q matched no file" [target_id i; AStr pat])] st1) as Hg2.
    split_and!; [by apply report_inv|by etrans|]. apply Hexp; [by etrans|set_solver].
  - rewrite <- Em in *. destruct (fold_steps (resolve_match fs c i o pat) (placed o) (Matches res) st1) as (Hi2 & Hg2 & Hm).
    { intros m s Hm Hs. apply resolve_match_ok; [done|done|]. intros f p' k. apply HP. by exists p, res. }
    { intros. by eapply placed_grows. }
    { done. }
    split_and!; [done|by etrans|apply Hexp; [by etrans|done]].
Qed.

Lemma resolve_target_ok i t st : inv st -> outputs_legal (TgOutput t) ->
  (forall pat m f p k, pat ∈ TgQueries t -> matched pat m -> claim (TgOutput t) m f p k -> confined f -> P f p k) ->
  inv (resolve_target Match fs c st (i, t)) /\ grows st (resolve_target Match fs c st (i, t)) /\
  forall pat, pat ∈ TgQueries t -> expanded (TgOutput t) pat (resolve_target Match fs c st (i, t)).
Proof.
  intros Hinv Hlegal HP. apply fold_steps; [|intros; by eapply expanded_grows|done].
  intros pat s Hp Hs. apply resolve_pattern_ok; [done..|]. eauto.
Qed.
End steps.

Definition final_state : rstate := foldl (resolve_target Match fs c) (mkRState ∅ ∅ ∅ ∅ ∅ [] []) (imap pair (CfgTargets c)).

Lemma final_ok legal : (forall t, t ∈ CfgTargets c -> outputs_legal legal (TgOutput t)) ->
  rs_inv (fun f p k => claimed f p k /\ confined f) legal final_state /\
  forall t pat, t ∈ CfgTargets c -> pat ∈ TgQueries t -> expanded (TgOutput t) pat final_state.
Proof.
  intros Hlegal. assert (forall i t, (i, t) ∈ imap pair (CfgTargets c) <-> CfgTargets c !! i = Some t) as Hin.
  { intros i t. rewrite list_elem_of_lookup. setoid_rewrite list_lookup_imap. setoid_rewrite fmap_Some. naive_solver. }
  unfold final_state. destruct (fold_steps (fun f p k => claimed f p k /\ confined f) legal (resolve_target Match fs c)
    (fun it st => forall pat, pat ∈ TgQueries it.2 -> expanded (TgOutput it.2) pat st) (imap pair (CfgTargets c)) (mkRState ∅ ∅ ∅ ∅ ∅ [] [])) as (Hi & _ & Hx).
  - intros [i t] st Ht%Hin%list_elem_of_lookup_2 Hst. apply resolve_target_ok; [done|by apply Hlegal|].
    intros pat m f p k Hpat Hm Hc Hf. split; [|done]. by exists t, pat, m.
  - intros it st st' Hg H pat Hpat. eapply expanded_grows; [done|by apply H].
  - split; cbn; try done. + intros [?|?]; done. + split; [constructor|set_solver].
  - split; [done|]. intros t pat [i Ht]%list_elem_of_lookup Hpat. apply (Hx (i, t)); [by apply Hin|done].
Qed.
End targets.

(** ** The targets *)

(** ** From the groups to the targets *)

Lemma elem_of_targets st t : t ∈ ResTargets (resolution st) <-> exists p g, rs_groups st !! p = Some g /\ t = mkResolved (g_pkg g) p (sorted (g_files g)).
Proof.
  unfold resolution. cbn [ResTargets]. rewrite list_elem_of_fmap. setoid_rewrite list_elem_of_omap. split.
  - intros ([p' g'] & -> & p & _ & H). destruct (rs_groups st !! p) as [g|] eqn:E; [|done]. cbn in H. simplify_eq. eauto.
  - intros (p & g & Hg & ->). exists (p, g). split; [done|]. exists p. rewrite Hg. split; [|done].
    rewrite sorted_perm. apply list_elem_of_fmap. exists (p, g). split; [done|]. by apply elem_of_map_to_list.
Qed.

Lemma targets_paths st : RtPath <$> ResTargets (resolution st) = sorted (map_to_list (rs_groups st)).*1.
Proof.
  unfold resolution. cbn [ResTargets]. set (ps := sorted _).
  assert (Forall (fun p => is_Some (rs_groups st !! p)) ps) as Hps.
  { apply list.Forall_forall. intros p. unfold ps. rewrite sorted_perm, list_elem_of_fmap. intros ([p' g] & -> & H%elem_of_map_to_list). by exists g. }
  clearbody ps. induction Hps as [|p ps [g Hg] Hps IH]; [done|]. cbn [omap list_omap]. rewrite Hg. cbn [mbind option_bind fmap list_fmap RtPath]. by f_equal.
Qed.

Lemma targets_NoDup_paths st : NoDup (RtPath <$> ResTargets (resolution st)).
Proof. rewrite targets_paths, sorted_perm. apply NoDup_fst_map_to_list. Qed.

(** Lists with disjoint owners have no common element. *)
Lemma NoDup_concat_owned {A B} (own : B -> option A) (l : list (A * list B)) :
  NoDup l.*1 -> (forall a bs, (a, bs) ∈ l -> NoDup bs /\ forall b, b ∈ bs -> own b = Some a) -> NoDup (concat l.*2).
Proof.
  induction l as [|[a bs] l IH]; intros Hnd Hl; [constructor|]. cbn in *. apply list.NoDup_cons in Hnd as [Ha Hnd].
  destruct (Hl a bs) as [Hbs Hown]; [set_solver|]. apply list.NoDup_app. split_and!; [done| |apply IH; [done|]; intros; apply Hl; set_solver].
  intros b Hb Hb'. apply list_elem_of_In, in_concat in Hb' as (bs' & Hbs' & Hb'). apply list_elem_of_In in Hbs', Hb'.
  apply list_elem_of_fmap in Hbs' as ([a' ?] & -> & Hin). destruct (Hl a' l0) as [_ Hown']; [set_solver|].
  specialize (Hown b Hb). specialize (Hown' b Hb'). assert (a = a') as -> by congruence. apply Ha, list_elem_of_fmap. by exists (a', l0).
Qed.

(** ** Names of derived output *)

Lemma slug_part_name p : avoids_slash p -> is_name (slug_part p) /\ ":"%char ∉ slug_part p.
Proof.
  intros Hp. unfold slug_part. cbv zeta. set (q := if bool_decide _ then _ else p).
  assert (q <> [] /\ avoids_slash q /\ q <> bs "." /\ q <> bs "..") as (Hne & Hq & Hd & Hdd).
  { unfold q. case_bool_decide as H; [|tauto]. split_and!; [done|intros ?%list_elem_of_singleton; done|done..]. }
  set (f := fun c => _). assert (forall c, f c <> ":"%char) as Hf by (intros c; unfold f; destruct (Ascii.eqb_spec c ":"); [done|done]).
  assert (forall l : bytes, f <$> l = l \/ "_"%char ∈ f <$> l) as Hcases.
  { intros l. induction l as [|c l [IH|IH]]; [by left| |right; by right]. cbn. unfold f at 1 3. destruct (Ascii.eqb_spec c ":"); [right; by left|left; by f_equal]. }
  split; [|intros (c & E & _)%list_elem_of_fmap; by eapply Hf].
  split_and!; [by destruct q| | |].
  - intros E. destruct (Hcases q) as [H|H]; [congruence|rewrite E in H; vm_compute in H; by apply list_elem_of_singleton in H].
  - intros E. destruct (Hcases q) as [H|H]; [congruence|rewrite E in H]. vm_compute in H. apply elem_of_cons in H as [?|H%list_elem_of_singleton]; done.
  - intros (c & E & Hc)%list_elem_of_fmap. unfold f in E. destruct (Ascii.eqb_spec c ":"); [done|]. subst c. by apply Hq.
Qed.

(** Derived output stays where it belongs: whatever path a target writes
    to, absolute or climbing, its slug is made of plain names without a colon,
    so that a directory it is joined to is only ever extended by them. *)
Theorem slug_confined path :
  let names := split_byte "/" (Slug path) in
  names <> [] /\ Forall (fun e => is_name e /\ ":"%char ∉ e) names /\
  forall root, root <> [] -> elems (Join [root; Slug path]) = elems root ++ names /\ inside root (Join [root; Slug path]).
Proof.
  unfold Slug. cbv zeta. set (parts := slug_part <$> split_byte "/" (trim_first "/" path)).
  assert (Forall (fun e => is_name e /\ ":"%char ∉ e) parts) as Hparts.
  { apply Forall_fmap. eapply list.Forall_impl; [apply split_avoids|]. apply slug_part_name. }
  assert (Forall is_name parts) as Hnames by (eapply list.Forall_impl; [exact Hparts|]; by intros e [? _]).
  assert (parts <> []) as Hne by (unfold parts; pose proof (split_nonnil (trim_first "/" path)); by destruct (split_byte _ _)).
  rewrite bool_decide_eq_false_2; [|destruct parts as [|e [|e' l]]; [done|by inversion_clear Hnames as [|? ? [? _] _]|by inversion_clear Hnames as [|? ? [? _] _]; destruct e]].
  rewrite split_join by (done || (eapply list.Forall_impl; [exact Hnames|]; intros e He; apply He)).
  split_and!; [done|done|]. intros root Hroot. pose proof (elems_Join_names root parts Hroot Hnames Hne) as E.
  split; [done|]. split; [by rewrite IsAbs_Join|]. by exists parts.
Qed.

Section targets.
Context {go : GoToken} (Match : bytes -> bytes -> option bool) (fs : FS) (c : Config).

Lemma ResolveTargets_final : ResolveTargets Match fs c = (resolution (final_state Match fs c), rs_diags (final_state Match fs c)).
Proof. done. Qed.

Lemma elem_of_ResFiles st f : f ∈ ResFiles (resolution st) <-> exists t, t ∈ ResTargets (resolution st) /\ f ∈ RtFiles t.
Proof.
  unfold resolution at 1. cbn [ResFiles]. rewrite sorted_perm. change (f ∈ concat (RtFiles <$> ResTargets (resolution st)) <-> exists t, t ∈ ResTargets (resolution st) /\ f ∈ RtFiles t).
  generalize (ResTargets (resolution st)) as l. intros l. induction l as [|t l IH]; cbn; [set_solver|]. rewrite elem_of_app, IH. set_solver.
Qed.

(** C13: whatever the targets claim and whatever goes wrong, what is generated
    is a partition: the targets have distinct output paths, in order; each has
    at least one file, and only files that a pattern of a configured target
    claims for this output and package and that lie in the project, also after
    symbolic links; no file is in two targets; the list of all files is their
    sorted union without duplicates, and so is the list of directories. *)
Theorem targets_partition :
  let '(res, ds) := ResolveTargets Match fs c in
  NoDup (RtPath <$> ResTargets res) /\ StronglySorted bytes_le (RtPath <$> ResTargets res) /\
  (forall t, t ∈ ResTargets res -> RtFiles t <> [] /\ NoDup (RtFiles t) /\ StronglySorted bytes_le (RtFiles t) /\
     forall f, f ∈ RtFiles t -> claimed Match fs c f (RtPath t) (RtPackage t) /\ confined fs c f) /\
  (forall t t' f, t ∈ ResTargets res -> t' ∈ ResTargets res -> f ∈ RtFiles t -> f ∈ RtFiles t' -> t = t') /\
  NoDup (ResFiles res) /\ StronglySorted bytes_le (ResFiles res) /\
  (forall f, f ∈ ResFiles res <-> exists t, t ∈ ResTargets res /\ f ∈ RtFiles t) /\
  NoDup (ResDirs res) /\ StronglySorted bytes_le (ResDirs res).
Proof.
  rewrite ResolveTargets_final. destruct (final_ok Match fs c (fun _ _ => True)) as [Hinv _]; [done|]. set (st := final_state Match fs c) in *.
  assert (forall t f, t ∈ ResTargets (resolution st) -> f ∈ RtFiles t -> rs_owner st !! f = Some (RtPath t)) as Hown.
  { intros t f (p & g & Hg & ->)%elem_of_targets. cbn. rewrite sorted_perm. intros Hf. by eapply (inv_owner _ _ _ Hinv). }
  assert (forall t, t ∈ ResTargets (resolution st) -> NoDup (RtFiles t)) as Hnd.
  { intros t (p & g & Hg & ->)%elem_of_targets. cbn. rewrite sorted_perm. by destruct (inv_seen _ _ _ Hinv _ _ Hg). }
  split_and!; [apply targets_NoDup_paths|rewrite targets_paths; apply sorted_sorted|..].
  - intros t Ht. pose proof Ht as (p & g & Hg & ->)%elem_of_targets. destruct (inv_seen _ _ _ Hinv _ _ Hg) as (_ & Hne & _).
    split_and!; [|by apply Hnd|apply sorted_sorted|].
    + cbn. intros E. apply Hne. pose proof (sorted_perm (g_files g)) as H. rewrite E in H. by apply Permutation_nil_l in H.
    + cbn. intros f. rewrite sorted_perm. intros Hf. by eapply (inv_owner _ _ _ Hinv).
  - intros t t' f Ht Ht' Hf Hf'. pose proof (Hown _ _ Ht Hf) as H1. pose proof (Hown _ _ Ht' Hf') as H2. assert (RtPath t = RtPath t') as E by congruence.
    apply elem_of_targets in Ht as (p & g & Hg & ->). apply elem_of_targets in Ht' as (p' & g' & Hg' & ->). cbn in E. subst p'. by simplify_eq.
  - unfold resolution. cbn [ResFiles]. rewrite sorted_perm. change (NoDup (concat (RtFiles <$> ResTargets (resolution st)))).
    pose proof (NoDup_concat_owned (fun f => rs_owner st !! f) ((fun t => (RtPath t, RtFiles t)) <$> ResTargets (resolution st))) as H.
    rewrite <- !list_fmap_compose in H. apply H; [apply targets_NoDup_paths|].
    intros p fs' (t & [= -> ->] & Ht)%list_elem_of_fmap. split; [by apply Hnd|]. intros f. by apply Hown.
  - apply sorted_sorted.
  - apply elem_of_ResFiles.
  - unfold resolution. cbn [ResDirs]. rewrite sorted_perm. apply (inv_dirs _ _ _ Hinv).
  - apply sorted_sorted.
Qed.

(** C14: without an error nothing that matched is lost: every pattern that
    compiles was expanded within the cap, every match's file lies in the
    project and its captures give an output and a package, and the targets hold
    exactly the claimed files, each under the claimed output and package. *)
Theorem targets_complete : HasErrors (ResolveTargets Match fs c).2 = false ->
  (forall t pat p, t ∈ CfgTargets c -> pat ∈ TgQueries t -> Compile Match pat = Ok p ->
     exists res, Walk Match fs maxWalkEntries p (CfgDir c) = Ok res /\
       forall m, m ∈ Matches res -> exists out pkg, claim c (TgOutput t) m (Abs c (m_path m)) out pkg /\ confined fs c (Abs c (m_path m))) /\
  (forall f out pkg, claimed Match fs c f out pkg <->
     exists t, t ∈ ResTargets (ResolveTargets Match fs c).1 /\ RtPath t = out /\ RtPackage t = pkg /\ f ∈ RtFiles t).
Proof.
  rewrite ResolveTargets_final. destruct (final_ok Match fs c (fun _ _ => True)) as [Hinv Hx]; [done|]. set (st := final_state Match fs c) in *.
  cbn [fst snd]. intros He. split.
  - intros t pat p Ht Hpat Hp. destruct (Hx t pat Ht Hpat) as [?|H]; [congruence|]. destruct (H p Hp) as (res & Hw & Hm).
    exists res. split; [done|]. intros m Hin. destruct (Hm m Hin) as [?|(f & out & k & Hc & Hf & _)]; [congruence|].
    destruct Hc as (-> & ? & ?). by exists out, k.
  - intros f out pkg. split.
    + intros (t & pat & m & Ht & Hpat & (p & res & Hp & Hw & Hm) & Hc). destruct (Hx t pat Ht Hpat) as [?|H]; [congruence|].
      destruct (H p Hp) as (res' & Hw' & Hm'). assert (res' = res) as -> by congruence.
      destruct (Hm' m Hm) as [?|(f' & out' & k' & Hc' & _ & [?|(g & Hg & Ek & Hf)])]; [congruence..|].
      destruct Hc as (-> & E1 & E2), Hc' as (-> & E1' & E2'). assert (out' = out) as -> by congruence. assert (k' = pkg) as -> by congruence.
      exists (mkResolved (g_pkg g) out (sorted (g_files g))). split_and!; [apply elem_of_targets; eauto|done..|]. cbn [RtFiles]. by rewrite sorted_perm.
    + intros (t & (p & g & Hg & ->)%elem_of_targets & <- & <- & Hf). cbn in *. rewrite sorted_perm in Hf. by eapply (inv_owner _ _ _ Hinv).
Qed.

(** Of a configuration whose targets pass validation, every generated
    package has a legal name and is written inside the project or to a path the
    configuration spells absolutely, with captures substituted. *)
Theorem targets_legal : (forall i t, CfgTargets c !! i = Some t -> HasErrors (validateTarget Match fs c i t) = false) ->
  forall t, t ∈ ResTargets (ResolveTargets Match fs c).1 ->
  legal_package (RtPackage t) /\ (RtPath t = [] \/ IsAbs (RtPath t) = true \/ confined fs c (Join [CfgDir c; RtPath t])).
Proof.
  intros Hvalid. rewrite ResolveTargets_final.
  destruct (final_ok Match fs c (fun p k => legal_package k /\ writable fs c p)) as [Hinv _].
  - intros t [i Ht]%list_elem_of_lookup i' p k (captures & Hp & Hk). specialize (Hvalid i t Ht). unfold validateTarget in Hvalid.
    destruct (foldl _ _ _) as [need refs]. destruct (HasCaptureRefs (TgOutput t)) eqn:Href.
    + intros [H1 H2]. split; [by apply packageDiag_spec in H2|by apply pathEscapeDiags_errors in H1].
    + intros _. apply orb_false_iff in Href as [Hr1 Hr2]. rewrite Substitute_plain in Hp, Hk by done. simplify_eq.
      rewrite !HasErrors_app in Hvalid. repeat (apply orb_false_iff in Hvalid as [? Hvalid]). split.
      * eapply packageDiag_spec with (id := target_id i). destruct (packageDiag _ _ _) eqn:E; [|done]. apply packageDiag_error with (ds := []) in E; cbn [app] in E; congruence.
      * by eapply pathEscapeDiags_errors.
  - intros t (p & g & Hg & ->)%elem_of_targets. by destruct (inv_seen _ _ _ Hinv _ _ Hg) as (_ & _ & _ & ?).
Qed.
End targets.

Lemma targets_complete_witness : let c := demo_config [demo_target] in
  HasErrors (ResolveTargets demo_match demo_fs c).2 = false /\
  forall f out pkg, claimed demo_match demo_fs c f out pkg <->
     exists t, t ∈ ResTargets (ResolveTargets demo_match demo_fs c).1 /\ RtPath t = out /\ RtPackage t = pkg /\ f ∈ RtFiles t.
Proof.
  intros c. assert (HasErrors (ResolveTargets demo_match demo_fs c).2 = false) as He by (vm_compute; reflexivity).
  split; [done|]. apply (targets_complete demo_match demo_fs c He).
Defined.

Lemma targets_legal_witness : let c := demo_config [demo_target] in
  (forall i t, CfgTargets c !! i = Some t -> HasErrors (validateTarget demo_match demo_fs c i t) = false) /\
  forall t, t ∈ ResTargets (ResolveTargets demo_match demo_fs c).1 -> legal_package (RtPackage t).
Proof.
  intros c. assert (forall i t, CfgTargets c !! i = Some t -> HasErrors (validateTarget demo_match demo_fs c i t) = false) as Hv.
  { intros [|i] t Ht; [|done]. injection Ht as <-. vm_compute. reflexivity. }
  split; [exact Hv|]. intros t Ht. apply (targets_legal demo_match demo_fs c Hv t Ht).
Defined.
