(* ===== verification/Findings.v ===== *)
(** * Findings

    Places where the code and what its comments say of it part, each shown on
    a concrete input. *)

From S2P Require Import Codegen CodegenTheorems Prelude Dialect Lines Postgres MySQL Template Render Tree Runtime Frags Demo Shape Keys TreeProps Simulation Safety Cache CacheProps CacheTheorems Conformance Verified ShapeName Diagnostics Lexical ParamRules Regex ScanState ScanDirectives ScanBodies ScanConstructs Scanner ScanLogic ScanFinal SQLite Frontend PolicyScan Policy Splice SetOp Weave Enforce PolicyProps PolicyTheorems GoPath Catalog Store StoreTheorems PathPat Targets TargetsProps Lint Format.

(** ** MySQL operators absorb a comment opener

    [lexer.go] says that operators never absorb a comment start, but the loop
    of the operator case only stops at [--] before a blank, a tab or a line
    end, while the comment case also opens one before VT and FF and at the end
    of the input: [=--] followed by VT is one operator token, and what the
    server reads as a comment is read as SQL. *)
Lemma mysql_operator_absorbs_comment :
  NextToken (LexerProfile := MySQL.Profile) (bs "--" ++ [c_vt] ++ bs ":p") 0
  = Ok (mkToken KindLineComment 0 5 (bs "--" ++ [c_vt] ++ bs ":p")) /\
  NextToken (LexerProfile := MySQL.Profile) (bs "=--" ++ [c_vt] ++ bs ":p") 0
  = Ok (mkToken KindOperator 0 3 (bs "=--")).
Proof. split; vm_compute; reflexivity. Qed.

(** ** A single predicate is not byte-identical

    [render.go] says that the maximal rendering of a filter tree and the
    runtime's [And] of all predicates are byte-identical.  With one predicate
    [And] returns the leaf itself, and the renderer writes one more pair of
    parentheses. *)
Definition single_query : QueryTemplate :=
  simple_query
    [ISkeleton (mkSkeleton (bs "SELECT id FROM t WHERE a AND ") sp0 false);
     IFilterTree (mkFilterTree (bs "f") false [mkPredicate (bs "p") (bs "b = :b") [bs "b"] sp0] SlotWhereConjunct sp0)]
    [bs "f"; bs "b"] [].

Lemma single_predicate_differs :
  (RSQL <$> (match Render Postgres.Profile single_query ∅ with Ok r => Some r | Err _ => None end)
   = Some (bs "SELECT id FROM t WHERE a AND ((b = $1))")) /\
  ComposeTreeStyle StyleDollar (BuildFrags Postgres.Profile single_query) (mkShapeKey 0 [] [] [] [])
    (And [NewLeaf 0 [AVal (bs "1")]]) DefaultTreeCaps
  = Ok (bs "SELECT id FROM t WHERE a AND (b = $1)", [mkBind true 0 0]).
Proof. split; vm_compute; reflexivity. Qed.

(** ** Predicates that share a parameter name

    Under the dollar style the renderer numbers a repeated name once, the
    composer numbers the arguments of every leaf: when two predicates name the
    same parameter the maximal rendering, again, is not what the runtime
    composes. *)
Definition shared_query : QueryTemplate :=
  simple_query
    [ISkeleton (mkSkeleton (bs "SELECT id FROM t WHERE a AND ") sp0 false);
     IFilterTree (mkFilterTree (bs "f") false
       [mkPredicate (bs "p") (bs "b = :x") [bs "x"] sp0; mkPredicate (bs "q") (bs "c = :x") [bs "x"] sp0]
       SlotWhereConjunct sp0)]
    [bs "f"; bs "x"] [].

Lemma shared_parameter_differs :
  (RSQL <$> (match Render Postgres.Profile shared_query ∅ with Ok r => Some r | Err _ => None end)
   = Some (bs "SELECT id FROM t WHERE a AND ((b = $1) AND (c = $1))")) /\
  ComposeTreeStyle StyleDollar (BuildFrags Postgres.Profile shared_query) (mkShapeKey 0 [] [] [] [])
    (And [NewLeaf 0 [AVal (bs "1")]; NewLeaf 1 [AVal (bs "1")]]) DefaultTreeCaps
  = Ok (bs "SELECT id FROM t WHERE a AND ((b = $1) AND (c = $2))", [mkBind true 0 0; mkBind true 1 0]).
Proof. split; vm_compute; reflexivity. Qed.

(** ** Two renderings of one shape name

    [shape.go] makes a shape name unique within its query by the block index;
    a case that is itself named [default], beside a [@default], gives two
    renderings of one block the same name, hence the same cache path. *)
Definition default_query : QueryTemplate :=
  simple_query
    [ISkeleton (mkSkeleton (bs "SELECT id FROM t WHERE a ") sp0 false);
     IChoose (mkChoose (bs "m") [mkChooseCase (bs "a") (bs "AND b") sp0; mkChooseCase (bs "default") (bs "AND c") sp0]
       (Some (mkChooseCase [] (bs "AND d") sp0)) SlotWhereConjunct sp0)]
    [bs "m"] [].

Lemma shape_name_collision :
  RShape <$> get_ok [] (Renderings Postgres.Profile default_query)
  = [bs "maximal"; bs "case-m-default-0"; bs "case-m-default-0"].
Proof. vm_compute. reflexivity. Qed.

(** ** Hits on a stale snapshot are lost

    [observe.go] says that eviction never loses history, and [remove] bounds
    the loss by the goroutines that hit the entry at that moment.  An evicted
    entry stays in the published snapshot, and every later hit on it through
    the snapshot - however many, from one goroutine - is counted on the
    evicted entry only, which no statistic reads. *)
Definition hits_request (ids : Z) : request := demo_request ids None.

(** Three shapes composed in a cache of two, then the evicted one hit again and
    again. *)
Definition stale_sys (hits : nat) : option sys :=
  run_schedule demo_table ([], NewComposedCache 2)
    (Admin AStats ::
     concat ((fun '(i, n) => New (hits_request n) :: replicate 5 (Step i)) <$> [(0, 1%Z); (1, 2%Z); (2, 3%Z)])
     ++ concat ((fun i => [New (hits_request 1); Step i; Step i]) <$> seq 3 hits)).

Lemma stale_hits_lost :
  (fun s => (StHits (Stats s.2).1, StEvictions (Stats s.2).1, (c_heap s.2 !! 0) ≫= fun e => Some (e_hits e))) <$> stale_sys 5
  = Some (0%N, 1%N, Some 5%N).
Proof. vm_compute. reflexivity. Qed.

(** ** The entry just composed may be the one evicted

    The insert loop's comment says that the just-composed entry must survive.
    With the other entries' reference bits set the sweep clears them, moves
    them to the front, and evicts the new entry: the caller gets its SQL, but
    the cache did not keep it. *)
Definition churn_sys : option sys :=
  run_schedule demo_table ([], NewComposedCache 1)
    ([New (hits_request 1)] ++ replicate 5 (Step 0) ++ [New (hits_request 1); Step 1; Step 1]
     ++ [New (hits_request 2)] ++ replicate 5 (Step 2)).

Lemma new_entry_evicted :
  (fun s => (s.1.*2, (map_to_list (c_m s.2)).*2)) <$> churn_sys
  = Some ([PDone (Ok 0); PDone (Ok 0); PDone (Ok 1)], [0]).
Proof. vm_compute. reflexivity. Qed.

(** ** [countBinds] is not an upper bound

    Its comment calls the count an upper bound on the binds; an expanding [in]
    places one bind per element but counts once. *)
Definition in_query : QueryTemplate :=
  simple_query
    [ISkeleton (mkSkeleton (bs "SELECT id FROM t WHERE a ") sp0 false); IInExpr (mkInExpr (bs "ids") sp0)]
    [bs "ids"] [].

Lemma count_binds_exceeded :
  let frags := BuildFrags MySQL.Profile in_query in
  countBinds frags = 1 /\
  ComposeTreeStyle StyleQuestion frags (mkShapeKey 0 [] [] [] [3%Z]) None DefaultTreeCaps
  = Ok (bs "SELECT id FROM t WHERE a IN (?, ?, ?)", [mkBind false 0 1; mkBind false 0 2; mkBind false 0 3]).
Proof. split; vm_compute; reflexivity. Qed.

(** ** A guard bound by the filter tree only is not reported

    Rule R9 asks for a report (SQLETCH111) on a presence guard that binds in no
    fragment it guards.  When its parameter occurs in a predicate body the loop
    goes on before that test: nothing is reported, and the generated code tests
    a field the parameter does not have (predicate parameters are constructor
    arguments). *)
Definition tree_guard_query : QueryTemplate :=
  scanned_query Postgres.Profile
    [ISkeleton (mkSkeleton (bs "SELECT id FROM t WHERE TRUE") sp0 false);
     IIfPresent (mkIfPresent [presence (bs "n")] Template.SepAnd (bs "archived") SlotWhereConjunct sp0 sp0);
     ISkeleton (mkSkeleton (bs " AND ") sp0 false);
     IFilterTree (mkFilterTree (bs "f") false demo_predicates SlotWhereConjunct sp0)]
    [bs "n"; bs "f"; bs "min"; bs "max"] [presence (bs "n")].

Lemma tree_guard_unreported :
  match CheckLexical id Postgres.Profile tree_guard_query with
  | Ok (ds, q') => ds = [] /\ POptional <$> QParams q' !! bs "n" = Some false
      /\ has_presence q' (bs "n") = true
  | Err _ => False
  end.
Proof. vm_compute. done. Qed.

(** ** A boolean that is no boolean

    [@when] takes any identifier that [strings.EqualFold] equates with [false];
    U+017F, the long s, folds to [s], and [strings.ToLower] leaves it as it is,
    so the value the generated guard spells is no Go literal, while its comment
    says that booleans are lowercased [true]/[false]. *)
Definition long_s : bytes := ascii_of_N <$> [197; 191]%N.

Definition long_s_file : bytes :=
  lines ["-- name: Q :many"; "SELECT id FROM t WHERE TRUE @when(p = fal"] ++ long_s ++ bs "e) AND archived @end".

Lemma long_s_boolean :
  demo_reports long_s_file = [] /\
  flat_map QGuardAtoms (demo_queries long_s_file)
  = [mkGuardAtom (bs "p") (bs "=") (bs "fal" ++ long_s ++ bs "e") ValueBool (bs "fal" ++ long_s ++ bs "e")].
Proof. split; vm_compute; reflexivity. Qed.

(** ** Parameters the limit does not count

    [finalize] checks the number of parameters (SQLETCH013: more than 32767 in
    one query) before [assignGuardBits] declares the parameters that only guard,
    so a query may end with more than the limit and no report. *)
Lemma guard_parameters_uncounted g q :
  QItems q = [] -> N.of_nat (length (QParamOrder q)) = MaxParams -> QParams q !! GParam g = None ->
  (forall s, checkEncodingLimits q s = Ok (tt, s)) /\
  N.of_nat (length (QParamOrder (assign_bit g q))) = (MaxParams + 1)%N.
Proof.
  intros Hi Hl Hg. split.
  - intros s. unfold checkEncodingLimits. by rewrite Hl, Hi, N.ltb_irrefl.
  - unfold assign_bit. cbn. rewrite Hg, length_app, Nat2N.inj_add, Hl. done.
Qed.

(** ** An operand of [@in] passes for a conjunct

    A construct flushes the segment before it, so the left operand of an [@in]
    becomes a segment of its own.  On SQLite and MySQL, where [=] and [IN] bind
    alike and to the left, [o.tenant_id = ? IN (?)] compares the truth of the
    scoping predicate with a list: the list [(0)] reads the other tenants' rows.
    The weaver takes the predicate for a hand-written conjunct and weaves
    nothing, and enforcement credits it. *)
Definition operand_file : bytes :=
  lines ["-- name: Q :many"; "SELECT o.id FROM orders o"; "WHERE o.tenant_id = :tenant_id @in(:flags)"; ""]%string.

Definition operand_scan : QueryFile * list Diagnostic :=
  scan_result (ScanFile ascii_upper two_seconds SQLite.Profile (bs "q.sql") operand_file).
Definition operand_query : QueryTemplate :=
  match QFQueries operand_scan.1 with q :: _ => q | [] => simple_query [] [] [] end.
Definition operand_rendering : Rendering := get_ok no_rendering (Render SQLite.Profile operand_query ∅).

Definition operand_tree : Tree :=
  flat_tree StmtSelect [mkRelRef (bs "o") (bs "orders") [] false 18 JoinBase false] [mkTableRef (bs "orders") [] 18].
Definition operand_fe : Frontend := lenient_frontend (fun _ => Ok operand_tree).

Lemma in_operand_credited :
  operand_scan.2 = [] /\
  RSQL operand_rendering = lines [""; "SELECT o.id FROM orders o"; "WHERE o.tenant_id = ? IN (?)"; ""]%string /\
  WDiags (Weave SQLite.Profile operand_fe [tenancy] operand_query) = [] /\
  QItems (WQuery (Weave SQLite.Profile operand_fe [tenancy] operand_query)) = QItems operand_query /\
  Enforce SQLite.Profile operand_fe [tenancy] operand_query operand_tree operand_rendering = [].
Proof. split_and!; vm_compute; reflexivity. Qed.

(** ** A conjunct is lost at the end of a construct

    The slot of a statement without WHERE and tail is its end.  When the last
    construct of the file ends the statement, no skeleton reaches that offset,
    and [splice] drops the insertion without a word: the weaver reports nothing
    and returns the query unscoped, with the parameter declared.  Enforcement
    still reports it (SQLETCH124). *)
Definition last_file : bytes :=
  bs "-- name: Q :many" ++ nl ++
  bs "SELECT o.id FROM orders o @if-present(t) JOIN teams t ON t.id = o.team AND t.name = :t @endif".

Definition last_scan : QueryFile * list Diagnostic :=
  scan_result (ScanFile ascii_upper two_seconds SQLite.Profile (bs "q.sql") last_file).
Definition last_query : QueryTemplate :=
  match QFQueries last_scan.1 with q :: _ => q | [] => simple_query [] [] [] end.
Definition last_rendering : Rendering := get_ok no_rendering (Render SQLite.Profile last_query ∅).

Lemma conjunct_lost :
  let res := Weave SQLite.Profile operand_fe [tenancy] last_query in
  let e := enforcer_of SQLite.Profile operand_fe last_query operand_tree last_rendering in
  last_scan.2 = [] /\ WDiags res = [] /\ QItems (WQuery res) = QItems last_query /\
  is_Some (QParams (WQuery res) !! PolParamName tenancy) /\
  has_room SQLite.Profile e tenancy <$> e_rels e = [false] /\
  DCode <$> Enforce SQLite.Profile operand_fe [tenancy] (WQuery res) operand_tree last_rendering = [CodePolicyUnscoped].
Proof. split_and!; vm_compute; (reflexivity || by eexists). Qed.

(** ** Policy parameters are not counted

    [registerParams] adds the policies' parameters after the scanner counted
    those of the query (SQLETCH013): a query at the limit is woven, by two
    policies with a parameter each, into one whose last bind index does not fit
    the bind plan's [int16]. *)
Lemma policy_parameters_uncounted q p1 p2 c1 c2 :
  N.of_nat (length (QParamOrder q)) = MaxParams ->
  PolParamName p1 <> [] -> PolParamName p2 <> [] -> PolParamName p1 <> PolParamName p2 ->
  QParams q !! PolParamName p1 = None -> QParams q !! PolParamName p2 = None ->
  N.of_nat (length (QParamOrder (registerParams q [mkWoven p1 c1 false []; mkWoven p2 c2 false []]))) = (MaxParams + 2)%N /\
  i16 (Z.of_N (MaxParams + 1)) = (-32768)%Z.
Proof.
  intros Hl H1 H2 Hne F1 F2. split; [|vm_compute; done]. unfold registerParams. cbn [foldl].
  unfold register_param at 2. cbn [WPolicy WOptedOut]. rewrite bool_decide_eq_false_2, F1 by done. cbn [orb].
  unfold register_param. cbn [WPolicy WOptedOut]. rewrite bool_decide_eq_false_2 by done. cbn [orb QParams set_params].
  rewrite lookup_insert_ne, F2 by done. cbn [QParamOrder set_params]. rewrite !length_app, !Nat2N.inj_add, Hl. done.
Qed.

(** ** Symbolic links are followed more than once

    [Walk]'s comment says that a directory symlink is followed at most once, by
    a set of visited paths; [leaveDir] takes a directory out of the set again,
    so that only the directories around the current one are in it: the files of
    a directory with two links to it match three times. *)
Definition linked_tree : list (bytes * demo_node) :=
  [ (bs "/", DemoDir [mkDirEntry (bs "p") FDir]);
    (bs "/p", DemoDir [mkDirEntry (bs "a") FDir; mkDirEntry (bs "b") FSymlink; mkDirEntry (bs "c") FSymlink]);
    (bs "/p/a", DemoDir [mkDirEntry (bs "x.sql") FRegular]);
    (bs "/p/a/x.sql", DemoFile);
    (bs "/p/b", DemoLink (bs "/p/a"));
    (bs "/p/c", DemoLink (bs "/p/a")) ].

Lemma symlink_followed_twice :
  match Walk demo_match (tree_fs linked_tree) 100 (demo_pattern "**/*.sql") (bs "/p") with
  | Ok r => m_path <$> Matches r = bs <$> ["a/x.sql"; "b/x.sql"; "c/x.sql"]%string
  | Err _ => False
  end.
Proof. vm_compute. reflexivity. Qed.

(** ** Two spellings of one output directory

    Targets are grouped by the output path as it is spelled, so that two
    targets may write two packages into one directory unreported, which
    SQLETCH315 is there to prevent. *)
Definition spelled_config : Config := demo_config
  [mkTarget [bs "q/a/*.sql"] (mkOutput (bs "one") (bs "gen")); mkTarget [bs "q/b/*.sql"] (mkOutput (bs "two") (bs "./gen"))].

Lemma output_spellings_undetected :
  (let '(r, ds) := ResolveTargets demo_match demo_fs spelled_config in
   (fun t => (RtPath t, RtPackage t)) <$> ResTargets r = [(bs "./gen", bs "two"); (bs "gen", bs "one")] /\ ds = []) /\
  concat (imap (validateTarget demo_match demo_fs spelled_config) (CfgTargets spelled_config)) = [] /\
  Abs spelled_config (bs "./gen") = Abs spelled_config (bs "gen").
Proof. split_and!; vm_compute; try split; reflexivity. Qed.

(** ** Slugs are not identities

    [Slug]'s comment calls it the target's identity in the trees of derived
    output; distinct outputs share one. *)
Lemma slug_shared : Slug (bs "/gen") = Slug (bs "gen") /\ Slug (bs "gen:a") = Slug (bs "gen_a").
Proof. split; vm_compute; reflexivity. Qed.

(** ** A sweep that deletes what the run has written

    [OracleFileName] says that [Slug] folds the target to the alphabet of the
    tree, but [Slug] keeps dots and blanks.  The sweep compares the references
    it reads off the paths with those of the run: below an output such as
    [gen.v2] each run deletes the entries it has just saved, and [gen_v2] has
    the same paths. *)
Lemma live_entry_swept :
  let r := mkRef (Slug (bs "gen.v2")) (bs "Get") (bs "base") in
  let s := SaveOracle demo_json committed_demo r demo_entry in
  let load t := LoadOracle (fun _ => None) demo_json t r (OeSchemaFP demo_entry) (OeRenderedSQL demo_entry) in
  s.1 = Ok tt /\ load s.2 = Some demo_entry /\ load (Sweep [r] s.2) = None /\
  Slug (bs "gen.v2") <> Slug (bs "gen_v2") /\ OracleFileName r = OracleFileName (mkRef (Slug (bs "gen_v2")) (bs "Get") (bs "base")).
Proof. split_and!; vm_compute; reflexivity || discriminate. Qed.

(** ** A fingerprint shared by two schemas

    Paths and contents are hashed one after the other, each ended by a NUL
    byte: a file whose content holds NUL bytes is hashed like several files. *)
Lemma fingerprint_shared sha256_hex dialect version :
  Fingerprint sha256_hex dialect version [mkSchemaFile (bs "a") (bs "x" ++ ["000"%char] ++ bs "b" ++ ["000"%char] ++ bs "y")] =
  Fingerprint sha256_hex dialect version [mkSchemaFile (bs "a") (bs "x"); mkSchemaFile (bs "b") (bs "y")].
Proof. reflexivity. Qed.

(** ** An excerpt of continuation bytes has no bound

    [excerptLine] says that the window bounds the work and the output, and
    [backRunes] that stray continuation bytes make it stop sooner; but a run of
    continuation bytes is one step of both loops, so a line of them is copied
    whole. *)
Lemma excerpt_unbounded : let src := bs "a" ++ repeat "128"%char 2000 ++ bs "b" in
  let '(text, _, carets) := excerptLine src 0 (length src) 0 1 in text = src /\ carets = 1.
Proof. vm_compute. split; reflexivity. Qed.

(** ** ON CONFLICT silences the lints of other statements

    [predicateContexts] marks the depth of an ON CONFLICT to the end of the
    statement, but only a semicolon takes the mark away: a statement in other
    parentheses of the same depth opens no predicate, so a wrapped column that
    is a predicate without the upsert before it is none after it. *)
Definition pred_of (sql : bytes) : list (bytes * bool) :=
  match ptoks ascii_upper [bs "p"] (tokens (H := Postgres.Profile) sql).1 0 0 with
  | Some toks => zip (Text ∘ pt_tok <$> toks) (fst <$> predicateContexts toks)
  | None => []
  end.

Lemma conflict_leaks : let query := bs "SELECT 1 FROM (SELECT 1 FROM c WHERE lower(e) = $1) AS d" in
  (bs "=", true) ∈ pred_of query /\
  forall b, (bs "=", b) ∈ pred_of (bs "WITH x AS (INSERT INTO a VALUES (1) ON CONFLICT DO NOTHING) " ++ query) -> b = false.
Proof.
  split; [by apply (bool_decide_unpack _); vm_compute|]. intros b Hb.
  destruct b; [|done]. exfalso. revert Hb. apply (bool_decide_unpack (~ _)). by vm_compute.
Qed.

(** ** Formatting deletes comments

    [Format] promises to rewrite markers and to keep the rest, but a comment
    between a fragment's marker and the AND lifted out of it is part of neither
    the body nor a skeleton, so it is written nowhere. *)
Lemma format_drops_comments :
  Format ascii_upper two_seconds Postgres.Profile (bs "q.sql")
    (bs "-- name: Q :many" ++ nl ++ bs "SELECT 1 WHERE TRUE @if-present(a) /* why */ AND x = :a @endif") =
  Some (Ok (bs "-- name: Q :many" ++ nl ++ bs "SELECT 1 WHERE TRUE @if-present(a)" ++ nl ++ bs "  AND x = :a" ++ nl ++ bs "@endif", [])).
Proof. vm_compute. reflexivity. Qed.

(** ** Generated declarations that do not compile

    [lowerFirst] lowers "Name type" as one word, so the run of capitals of a
    name such as ID ends before its last letter, which becomes the first of the
    next word: the constructor of a predicate with a parameter [:id] declares
    [iD int64] and passes [id]. *)
#[local] Existing Instance ascii_unicode.

Lemma constructor_parameter_unbound :
  lowerFirst [GoName (bs "id") ++ bs " int64"] = [bs "iD int64"] /\ lowerFirst [GoName (bs "id")] = [bs "id"].
Proof. by vm_compute. Qed.

(** The constants of a choice are registered, never compared: two cases whose
    names fold to one Go name declare one constant twice, and a case [params]
    declares the constant of another query's params struct. *)
Definition choosing (name : string) (cases : list string) : QueryInput :=
  mkInput (simple_query [IChoose (mkChoose (bs "mode") ((fun c => mkChooseCase (bs c) (bs "id") sp0) <$> cases) None SlotOrderBy sp0)] [] [])
    [] ∅ [] [] ∅ None.

Lemma case_constants_shared :
  query_consts (choosing "Q" ["id"; "i_d"]%string) = [bs "QModeID"; bs "QModeID"] /\
  query_consts (choosing "Q" ["params"]%string) = [bs "QMode" ++ bs "Params"].
Proof. by vm_compute. Qed.

(** The fixed methods are reserved for queries, the fields of [Queries] are not:
    a query named [cache] declares a method and a field of one name. *)
Lemma field_names_unreserved : Forall (fun n => n ∉ queriesMethodNames) (bs <$> ["db"; "cache"; "onQuery"; "obs"]%string).
Proof. by apply (bool_decide_unpack _); vm_compute. Qed.

(** An argument may be called [nil], which the body compares errors with, or
    [range], which is a keyword. *)
Lemma predeclared_arguments : argIdent (bs "nil") (bs "Q") = bs "nil" /\ argIdent (bs "range") (bs "Q") = bs "range".
Proof. by vm_compute. Qed.

(** The tables of two queries in different files can share a variable. *)
Lemma frags_variable_shared : lowerCamel (bs "AB_c") = lowerCamel (bs "aB_c") /\ pascalToSnake (bs "AB_c") <> pascalToSnake (bs "aB_c").
Proof. by vm_compute. Qed.
